(* ===== verification/_CoqProject ===== *)
-Q . S2P
Prelude.v
Bitops.v
Bits.v
Space.v
Heap.v
Queue.v
Mpsc.v
AddrMap.v
Batches.v
KernelMain.v
PlanLayout.v
Prims.v
Net.v
DevWork.v
Loops.v
RingNet.v
PhaseNet.v
RingColl.v
RingAllReduce.v
RingGather.v
RingChain.v
ProxyRing.v
Chunking.v
ProxySave.v
ProxyUpload.v
ProxyPool.v
ProxyActive.v
NetProxy.v
LLData.v
PrimsLL.v
Sched.v
CollPlan.v
P2pSched.v
P2pPlan.v
P2pNet.v
SendRecv.v
Trees.v
TreeColl.v
Connect.v
Rings.v
