(* ===== verification/Prelude.v ===== *)
(** * NCCL: a verification development

    NCCL runs collective operations (AllReduce, AllGather, ReduceScatter,
    Broadcast, Reduce) and point-to-point transfers between GPUs.  The host side
    finds rings and trees through the machine, splits each operation over
    channels, and writes descriptors of the work; a kernel on every GPU runs one
    block per channel, which exchanges slices of the data with the blocks of its
    neighbours through FIFOs in memory; a proxy thread moves the slices that go
    over the network.  This development models the parts that compute: the
    definitions follow the functions under src/src by name, and each carries the
    lines it translates in a comment above it.

    ** Files, from the bottom up

    - [Prelude]: result codes, machine integers ([cwrap], [fits]), the hint
      database [widths], tactics and lemmas every file shares.
    - [Bitops], [Bits]: src/include/bitops.h; sets of channels as the list of
      bits of a mask.
    - [Space]: the range allocator [ncclSpace] of allocator.cc.
    - [Heap], [Queue], [Mpsc], [AddrMap]: the intrusive containers of
      include/utils.h and misc/utils.cc on one heap of link fields.  The queue for
      many producers is a step relation over its accesses to shared memory.
    - [Batches], [KernelMain], [PlanLayout]: the descriptors of the work of a
      kernel: [ncclAddWorkBatchToPlan] and [finishPlan] of enqueue/enqueue.cc,
      and how [ncclKernelMain] of device/common.h loads them.
    - [Prims], [Net]: the Simple protocol of device/prims_simple.h.  A kernel is
      the list of its slice operations; [Net] gives the step relation of all ranks
      over the FIFOs, buffers of elements with [NCCL_STEPS] steps that are used
      again and again, in every interleaving.
    - [DevWork]: the shares of channels, the parts of point-to-point transfers
      and the function table of include/device.h and include/channel.h.
    - [Loops], [RingNet], [PhaseNet], [RingColl], [RingAllReduce], [RingGather],
      [RingChain]: the ring kernels of device/all_reduce.h and the four other
      collectives, and the argument that a ring of them is deadlock-free.
    - [ProxyRing], [ProxySave], [ProxyUpload], [ProxyPool], [ProxyActive]: the
      addresses the proxy uses for registered buffers (include/collectives.h), the
      operations a launch saves for it and their numbers (proxy.cc, and [finishPlan]
      and [uploadProxyOps] of enqueue/enqueue.cc), the pool in shared memory that
      hands them over, and the lists in which the progress thread keeps them.
    - [NetProxy]: a connection over the network: the blocks of the two kernels and
      the progress functions of the two proxies in transport/net.cc, as a step
      relation over their accesses to shared memory and the calls of the plugin.
    - [LLData], [PrimsLL]: the LL protocol of device/prims_ll.h: elements in lines with
      flags, and a connection between two blocks as a step relation over the half
      lines their threads store and load.
    - [Chunking], [Sched], [CollPlan]: [calcCollChunking] and
      [scheduleCollTasksToPlan] of enqueue/enqueue.cc, and the path of a
      collective from the queue to the blocks of the kernel.
    - [P2pSched], [P2pPlan], [P2pNet], [SendRecv]: point-to-point transfers: the
      schedule every rank computes ([ncclP2pSchedule] of init.cc), the plans
      ([addP2pToPlan] and [scheduleP2pTasksToPlan] of enqueue.cc), the kernels of
      all ranks together, and the kernel itself (device/sendrecv.h).
    - [Trees], [TreeColl]: graph/trees.cc and the tree kernels of
      device/all_reduce.h.
    - [Connect], [Rings]: the preset and postset of channels in
      graph/connect.cc, and graph/rings.cc.

    ** How code becomes definitions

    Integers are [Z]; where the code computes in a width, [wrap64], [wrap32] or
    [cwrap] stand where it can wrap around, and the theorems give the bounds under
    which it does not.  Records are the structures, with the fields the code of
    the model reads or writes.  Code that can fail returns [ncclResult_t] or a sum
    with it; undefined behaviour (a division by zero, an access out of range, a
    NULL pointer) and a loop without end are [None], and the theorems exclude
    them.  Loops are structural where the code walks a list, and have fuel
    otherwise; each fuel is a bound proved enough: 64 for the bits of a mask, 31
    for halving an [int], the number of batches for [finishPlan], the loops
    [loopFuel] of a kernel.  Pointers of the containers are addresses in a heap,
    so that aliasing and the order of writes are those of the code.  Device
    memory is a function from addresses to elements of an arbitrary type, and the
    reduction an arbitrary function: the reduction theorems hold for any of them,
    and the theorems on commutativity add what they need.

    ** What the theorems show

    - The kernels: from any interleaving of the blocks of all ranks, every run
      ends, none is stuck, and the buffers hold the result of the collective
      ([RingAllReduce], [RingGather], [RingChain], [TreeColl]); the order in which
      values are combined is given exactly.
    - The path to the kernels: scheduling is exact, cannot trap and makes
      progress, chunk sizes fit their buffers, descriptors reach the block of
      their channel, and each element of a collective is processed by exactly one
      block ([Chunking], [Sched], [Batches], [CollPlan]).
    - The proxy takes the steps of the kernel, and sends and receives the bytes of
      the slices the kernel works on ([Chunking], [ProxyRing], [Sched]).
      The pool hands every operation over once and in order, and no rank waits for
      ever for an entry while the thread's batches do not fail; the progress thread works on the operations of each connection one after
      another, in the order they arrive, and operations of two launches never have the
      same number while the uploads succeed ([ProxySave], [ProxyUpload], [ProxyPool], [ProxyActive]).
    - A connection over the network delivers the slices of the sender in order and
      unchanged, in every interleaving of the four threads and whatever the network
      refuses or delays, and can always finish ([NetProxy]).
    - An LL connection delivers the elements sent, in every interleaving of the
      threads, with torn lines and with flags of 32 bits that come round, and can
      always go on ([PrimsLL]).
    - Point-to-point transfers: the schedules the ranks compute alone fit together;
      every send and receive of a group reaches the device once and in its place;
      the ranks never wait for each other in a circle, and the two sides of an
      exchange are those of one message; kernel and proxy take the same steps;
      every direction has threads and barriers of its own ([P2pSched], [P2pPlan],
      [P2pNet], [SendRecv]).
    - The graphs: the double binary tree consists of two balanced trees, the
      channels connected from node to node form rings through all ranks and trees
      on which AllReduce is correct ([Trees], [Connect], [Rings]).
    - The containers implement sequences and finite maps, whatever the sequence of
      operations or the interleaving of producers ([Queue], [Mpsc], [AddrMap],
      [Space]).

    ** What is not modelled

    Everything that is behaviour of the driver, the network or the machine: the
    set-up of transports and all of them but the network one, bootstrap, topology
    discovery and search, registration, launch, tuning in floating point, plugins and
    diagnostics.  Within the modelled parts: the LL128 protocol, whose warps rely on
    the atomicity of a store of 128 bytes by 8 threads, the collectives on top of the
    LL protocol, direct access to the buffers of a peer, NVLS, CollNet and PAT
    kernels, abort, profiling, and memory orders ([Mpsc], [Net], [NetProxy] and
    [PrimsLL] are sequentially consistent).  The header of each file says what it
    leaves out. *)


From stdpp Require Import base numbers list.
From Stdlib Require Import ZArith Lia.

Local Open Scope Z_scope.

(** ** Result codes *)

(* src/src/nccl.h.in:44-53 ncclResult_t *)
Inductive ncclResult_t :=
  | ncclSuccess
  | ncclUnhandledCudaError
  | ncclSystemError
  | ncclInternalError
  | ncclInvalidArgument
  | ncclInvalidUsage
  | ncclRemoteError
  | ncclInProgress
  | ncclTimeout.

#[global] Instance ncclResult_t_eq_dec : EqDecision ncclResult_t.
Proof. solve_decision. Defined.

(** ** Machine integers

    A C integer type is a width and a signedness; a value of it is a [Z] in its
    range.  [cwrap ty z] is the value the type gives to the mathematical
    integer [z]: two's complement wrap-around. *)

Record ctype := CType { csigned : bool; cwidth : Z }.

Definition cwrap (ty : ctype) (z : Z) : Z :=
  if csigned ty
  then (z + 2 ^ (cwidth ty - 1)) mod 2 ^ cwidth ty - 2 ^ (cwidth ty - 1)
  else z mod 2 ^ cwidth ty.

Definition cmin (ty : ctype) : Z := if csigned ty then - 2 ^ (cwidth ty - 1) else 0.
Definition cmax (ty : ctype) : Z :=
  if csigned ty then 2 ^ (cwidth ty - 1) - 1 else 2 ^ cwidth ty - 1.

(** [fits ty z]: the type [ty] represents [z]. *)
Definition fits (ty : ctype) (z : Z) : Prop := cmin ty <= z <= cmax ty.

Definition i32 : ctype := CType true 32.
Definition u32 : ctype := CType false 32.
Definition i64 : ctype := CType true 64.
Definition u64 : ctype := CType false 64.
Definition u8 : ctype := CType false 8.

(** The unsigned widths the code computes in most often. *)
Definition wrap32 (z : Z) : Z := z mod 2 ^ 32.
Definition wrap64 (z : Z) : Z := z mod 2 ^ 64.

#[global] Instance fits_dec ty z : Decision (fits ty z).
Proof. unfold fits. apply _. Defined.

Lemma cwrap_fits ty z : 0 < cwidth ty -> fits ty z -> cwrap ty z = z.
Proof.
  unfold fits, cwrap, cmin, cmax. intros Hw H.
  assert (2 ^ cwidth ty = 2 * 2 ^ (cwidth ty - 1)) as E.
  { rewrite <- Z.pow_succ_r by lia. f_equal. lia. }
  destruct (csigned ty).
  - rewrite Z.mod_small; lia.
  - rewrite Z.mod_small; lia.
Qed.

(** Wrapping early changes nothing. *)
Lemma cwrap_add_l ty a b : cwrap ty (cwrap ty a + b) = cwrap ty (a + b).
Proof.
  unfold cwrap. destruct (csigned ty).
  - replace ((a + 2 ^ (cwidth ty - 1)) mod 2 ^ cwidth ty - 2 ^ (cwidth ty - 1) + b + 2 ^ (cwidth ty - 1))
      with ((a + 2 ^ (cwidth ty - 1)) mod 2 ^ cwidth ty + b) by lia.
    rewrite Zplus_mod_idemp_l. do 2 f_equal. lia.
  - by rewrite Zplus_mod_idemp_l.
Qed.

Lemma cwrap_add_r ty a b : cwrap ty (a + cwrap ty b) = cwrap ty (a + b).
Proof. rewrite !(Z.add_comm a). apply cwrap_add_l. Qed.

Lemma wrap32_small z : 0 <= z < 2 ^ 32 -> wrap32 z = z.
Proof. intros. unfold wrap32. by apply Z.mod_small. Qed.

Lemma wrap64_small z : 0 <= z < 2 ^ 64 -> wrap64 z = z.
Proof. intros. unfold wrap64. by apply Z.mod_small. Qed.

Lemma wrap32_bound z : 0 <= wrap32 z < 2 ^ 32.
Proof. apply Z.mod_pos_bound. lia. Qed.

Lemma wrap64_bound z : 0 <= wrap64 z < 2 ^ 64.
Proof. apply Z.mod_pos_bound. lia. Qed.

(** ** Tactics *)

(** A value within the range of a known type. *)
Ltac fits_lia := unfold fits, cmin, cmax; cbn [csigned cwidth i32 u32 i64 u64 u8]; lia.

(** The side conditions of the lemmas on machine integers. *)
Create HintDb widths.
#[export] Hint Extern 1 (fits _ _) => fits_lia : widths.
#[export] Hint Extern 1 (0 < cwidth _) => done : widths.
#[export] Hint Extern 2 (Z.le _ _) => lia : widths.
#[export] Hint Extern 2 (Z.lt _ _) => lia : widths.
#[export] Hint Extern 2 (_ /\ _) => lia : widths.

(** Case analysis on one boolean comparison of integers in the goal, then
    elimination of the impossible branch. *)
Ltac zcase1 :=
  match goal with
  | |- context [?a <=? ?b] => destruct (Z.leb_spec a b)
  | |- context [?a <? ?b] => destruct (Z.ltb_spec a b)
  | |- context [?a =? ?b] => destruct (Z.eqb_spec a b)
  | |- context [?a >? ?b] => rewrite (Z.gtb_ltb a b); destruct (Z.ltb_spec b a)
  | |- context [?a >=? ?b] => rewrite (Z.geb_leb a b); destruct (Z.leb_spec b a)
  end.

Ltac zcases := repeat (zcase1; try lia); simpl negb; cbv iota.

(** The same in a hypothesis. *)
Ltac zcase1_in H :=
  match type of H with
  | context [?a <=? ?b] => destruct (Z.leb_spec a b)
  | context [?a <? ?b] => destruct (Z.ltb_spec a b)
  | context [?a =? ?b] => destruct (Z.eqb_spec a b)
  | context [?a >? ?b] => rewrite (Z.gtb_ltb a b) in H; destruct (Z.ltb_spec b a)
  | context [?a >=? ?b] => rewrite (Z.geb_leb a b) in H; destruct (Z.leb_spec b a)
  end.

(** Case analysis on the comparisons of naturals in the goal. *)
Ltac ncase1 :=
  match goal with
  | |- context [(?a =? ?b)%nat] => destruct (Nat.eqb_spec a b)
  | |- context [(?a <=? ?b)%nat] => destruct (Nat.leb_spec a b)
  | |- context [(?a <? ?b)%nat] => destruct (Nat.ltb_spec a b)
  end.

Ltac ncases := repeat (ncase1; try lia); simpl negb; cbv iota; try done.

(** ** Shared lemmas *)

Lemma existsb_seq_false (f : nat -> bool) n i : existsb f (seq 0 n) = false -> (i < n)%nat -> f i = false.
Proof.
  intros E Hi. destruct (f i) eqn:Ei; [|done]. rewrite <- E. symmetry. apply existsb_exists.
  exists i. split; [apply in_seq; lia|done].
Qed.

Lemma sum_list_with_insert {A} (f : A -> nat) (l : list A) i x y :
  l !! i = Some x -> (sum_list_with f (<[i := y]> l) + f x = sum_list_with f l + f y)%nat.
Proof. revert i. induction l as [|z l IH]; intros [|i] Hi; simplify_eq/=; [lia|]. specialize (IH i Hi). lia. Qed.
