(* ===== verification/Bitops.v ===== *)
(** * Integer and bit utilities (src/src/include/bitops.h)

    Rounding and alignment, the reciprocal-based fast division used on the
    device, population counts and logarithms, bit reversal, the 8-bit floating
    point encoding of 32-bit sizes and the byte-string hash.  Template
    functions take the C type their template parameter resolves to; functions
    declared on a fixed width wrap at that width. *)

From stdpp Require Import base numbers list.
From Stdlib Require Import ZArith Znumtheory Zpow_facts Lia.
From S2P Require Import Prelude.

Local Open Scope Z_scope.

(** ** Minimum, maximum, rounding *)

(* src/src/include/bitops.h:24-35 minval *)
Fixpoint minval (a : Z) (more : list Z) : Z :=
  match more with
  | [] => a
  | b :: more => minval (if a <? b then a else b) more
  end.

(* src/src/include/bitops.h:37-48 maxval *)
Fixpoint maxval (a : Z) (more : list Z) : Z :=
  match more with
  | [] => a
  | b :: more => maxval (if a >? b then a else b) more
  end.

(* src/src/include/bitops.h:53-53 DIVUP *)
Definition DIVUP (ty : ctype) (x y : Z) : Z := Z.quot (cwrap ty (cwrap ty (x + y) - 1)) y.

(* src/src/include/bitops.h:55-55 ROUNDUP *)
Definition ROUNDUP (ty : ctype) (x y : Z) : Z := cwrap ty (DIVUP ty x y * y).

(* src/src/include/bitops.h:59-59 ALIGN_SIZE *)
Definition ALIGN_SIZE (ty : ctype) (size align : Z) : Z :=
  cwrap ty (Z.quot (cwrap ty (cwrap ty (size + align) - 1)) align * align).

(* src/src/include/bitops.h:61-65 divUp *)
Definition divUp (ty : ctype) (x y : Z) : Z := Z.quot (cwrap ty (cwrap ty (x + y) - 1)) y.

(* src/src/include/bitops.h:67-70 roundUp *)
Definition roundUp (ty : ctype) (x y : Z) : Z :=
  let s := cwrap ty (cwrap ty (x + y) - 1) in cwrap ty (s - Z.rem s y).

(* src/src/include/bitops.h:71-74 roundDown *)
Definition roundDown (ty : ctype) (x y : Z) : Z := cwrap ty (x - Z.rem x y).

(* src/src/include/bitops.h:76-85 alignUp *)
Definition alignUp (ty : ctype) (x a : Z) : Z :=
  Z.land (cwrap ty (cwrap ty (x + a) - 1)) (cwrap ty (0 - cwrap ty a)).

(* src/src/include/bitops.h:87-97 alignDown *)
Definition alignDown (ty : ctype) (x a : Z) : Z := Z.land x (cwrap ty (0 - cwrap ty a)).

(* src/src/include/bitops.h:99-102 isPow2 *)
Definition isPow2 (ty : ctype) (x : Z) : bool := Z.land x (cwrap ty (x - 1)) =? 0.

(** ** 64-bit values updated in their upper 32-bit half

    The union of a 64-bit value with [uint32_t u32[2]] (little endian): only
    the upper word changes. *)

Definition lo32 (v : Z) : Z := v mod 2 ^ 32.
Definition hi32 (v : Z) : Z := (v / 2 ^ 32) mod 2 ^ 32.
Definition pack32 (hi lo : Z) : Z := hi * 2 ^ 32 + lo.

(* src/src/include/bitops.h:104-113 add4G *)
Definition add4G (base delta4G : Z) : Z := pack32 (wrap32 (hi32 base + delta4G)) (lo32 base).

(* src/src/include/bitops.h:115-125 incWrap4G *)
Definition incWrap4G (ptr delta4G lo4G hi4G : Z) : Z :=
  let h := wrap32 (hi32 ptr + delta4G) in
  let h := if hi4G <=? h then wrap32 (h - wrap32 (hi4G - lo4G)) else h in
  pack32 h (lo32 ptr).

(* src/src/include/bitops.h:127-137 decWrap4G *)
Definition decWrap4G (ptr delta4G lo4G hi4G : Z) : Z :=
  let h := wrap32 (hi32 ptr - delta4G) in
  let h := if h <? lo4G then wrap32 (h + wrap32 (hi4G - lo4G)) else h in
  pack32 h (lo32 ptr).

(** ** Division by a precomputed reciprocal *)

(* src/src/include/bitops.h:139-142 idivRcp32 *)
Definition idivRcp32 (x : Z) : Z := wrap32 (2 ^ 32 / x).

(* src/src/include/bitops.h:143-145 idivRcp64 *)
Definition idivRcp64 (x : Z) : Z := wrap64 (wrap64 (-1) / x + (if isPow2 u64 x then 1 else 0)).

(* src/src/include/bitops.h:147-153 mul32hi *)
Definition mul32hi (a b : Z) : Z := wrap32 (Z.shiftr (wrap64 (a * b)) 32).

(* src/src/include/bitops.h:154-162 mul64hi *)
Definition mul64hi (a b : Z) : Z := wrap64 (Z.shiftr (a * b mod 2 ^ 128) 64).

(* src/src/include/bitops.h:164-173 imulRcp32 *)
Definition imulRcp32 (x xrcp y yrcp : Z) : Z :=
  if xrcp =? 0 then yrcp else
  if yrcp =? 0 then xrcp else
  let rcp := mul32hi xrcp yrcp in
  let rem := wrap32 (0 - wrap32 (wrap32 (x * y) * rcp)) in
  if wrap32 (x * y) <=? rem then wrap32 (rcp + 1) else rcp.

(* src/src/include/bitops.h:174-181 imulRcp64 *)
Definition imulRcp64 (x xrcp y yrcp : Z) : Z :=
  if xrcp =? 0 then yrcp else
  if yrcp =? 0 then xrcp else
  let rcp := mul64hi xrcp yrcp in
  let rem := wrap64 (0 - wrap64 (wrap64 (x * y) * rcp)) in
  if wrap64 (x * y) <=? rem then wrap64 (rcp + 1) else rcp.

(* src/src/include/bitops.h:183-197 idivmodFast32 *)
Definition idivmodFast32 (x y yrcp : Z) : Z * Z :=
  if negb (yrcp =? 0) then
    let q := mul32hi x yrcp in
    let r := wrap32 (x - wrap32 (y * q)) in
    if y <=? r then (wrap32 (q + 1), wrap32 (r - y)) else (q, r)
  else (x, 0).

(* src/src/include/bitops.h:198-210 idivmodFast64 *)
Definition idivmodFast64 (x y yrcp : Z) : Z * Z :=
  if negb (yrcp =? 0) then
    let q := mul64hi x yrcp in
    let r := wrap64 (x - wrap64 (y * q)) in
    if y <=? r then (wrap64 (q + 1), wrap64 (r - y)) else (q, r)
  else (x, 0).

(* src/src/include/bitops.h:212-216 idivFast32 *)
Definition idivFast32 (x y yrcp : Z) : Z := (idivmodFast32 x y yrcp).1.

(* src/src/include/bitops.h:217-221 idivFast64 *)
Definition idivFast64 (x y yrcp : Z) : Z := wrap32 (idivmodFast64 x y yrcp).1.

(* src/src/include/bitops.h:223-227 imodFast32 *)
Definition imodFast32 (x y yrcp : Z) : Z := (idivmodFast32 x y yrcp).2.

(* src/src/include/bitops.h:228-232 imodFast64 *)
Definition imodFast64 (x y yrcp : Z) : Z := (idivmodFast64 x y yrcp).2.

(** ** Counting and finding bits *)

Fixpoint pos_popcount (p : positive) : Z :=
  match p with
  | xH => 1
  | xO p => pos_popcount p
  | xI p => 1 + pos_popcount p
  end.

(* src/src/include/bitops.h:234-257 countOneBits *)
Definition countOneBits (ty : ctype) (x : Z) : Z :=
  match x mod 2 ^ cwidth ty with
  | Zpos p => pos_popcount p
  | _ => 0
  end.

(** [__builtin_ffs]: one plus the index of the lowest set bit, 0 for 0. *)
Fixpoint pos_ffs (p : positive) : Z :=
  match p with
  | xO p => 1 + pos_ffs p
  | _ => 1
  end.

Definition ffs (x : Z) : Z := match x with Z0 => 0 | Zpos p | Zneg p => pos_ffs p end.

(* src/src/include/bitops.h:259-283 firstOneBit *)
Definition firstOneBit (mask : Z) : Z := ffs mask - 1.

(* src/src/include/bitops.h:285-290 popFirstOneBit *)
Definition popFirstOneBit (ty : ctype) (mask : Z) : Z * Z :=
  (firstOneBit mask, Z.land mask (cwrap ty (mask - 1))).

(** [__builtin_clz] at width [w], for a nonzero argument. *)
Definition clz (w x : Z) : Z := w - 1 - Z.log2 x.

(* src/src/include/bitops.h:292-322 log2Down *)
Definition log2Down (ty : ctype) (x : Z) : Z :=
  if x =? 0 then -1
  else let w := cwidth ty in
       let n := clz w (x mod 2 ^ w) in w - 1 - n.

(* src/src/include/bitops.h:324-357 log2Up *)
Definition log2Up (ty : ctype) (x : Z) : Z :=
  let x := if negb (x =? 0) then cwrap ty (x - 1) else x in
  if x =? 0 then 0
  else let w := cwidth ty in
       let n := clz w (x mod 2 ^ w) in w - n.

(* src/src/include/bitops.h:359-363 pow2Up *)
Definition pow2Up (ty : ctype) (x : Z) : Z := cwrap ty (Z.shiftl 1 (log2Up ty x)).

(* src/src/include/bitops.h:365-370 pow2Down *)
Definition pow2Down (ty : ctype) (x : Z) : Z := cwrap ty (Z.shiftl 1 (log2Down ty x)).

(** ** Bit reversal *)

(** [__builtin_bswap]: the bytes of a [w]-bit word in reverse order. *)
Definition bswap (w x : Z) : Z :=
  foldr (fun (i : nat) acc =>
           Z.lor (Z.shiftl (Z.land (Z.shiftr x (8 * Z.of_nat i)) 255) (w - 8 - 8 * Z.of_nat i)) acc)
        0 (seq 0 (Z.to_nat (w / 8))).

(** One level of the mask-and-shift recursion: exchange the halves of every
    group of [2 * h] bits of a [w]-bit word. *)
Definition swapMask (w h : Z) : Z := (2 ^ w - 1) / (2 ^ h + 1).

Definition swapHalves (w h x : Z) : Z :=
  let m := swapMask w h in
  Z.lor (Z.shiftl (Z.land x m) h mod 2 ^ w)
        (Z.shiftr (Z.land x (Z.ldiff (2 ^ w - 1) m)) h).

(** The recursion of [reverseSubBits<UInt, 2^k>] once the byte swap is done. *)
Fixpoint reverseGroups (w : Z) (k : nat) (x : Z) : Z :=
  match k with
  | O => x
  | S k => reverseGroups w k (swapHalves w (2 ^ Z.of_nat k) x)
  end.

(* src/src/include/bitops.h:372-396 reverseSubBits *)
Definition reverseSubBits (w x : Z) : Z :=
  if 16 <=? w then reverseGroups w 3 (bswap w x) else reverseGroups w 3 x.

(* src/src/include/bitops.h:445-467 reverseBits *)
Definition reverseBits (ty : ctype) (x nBits : Z) : Z :=
  let w := cwidth ty in
  let ux := reverseSubBits w (x mod 2 ^ w) in
  let ux := if nBits =? 0 then 0 else Z.shiftr ux (w - nBits) in
  cwrap ty ux.

(** ** 8-bit floating point encoding of 32-bit sizes *)

(* src/src/include/bitops.h:474-484 u32fpEncode *)
Definition u32fpEncode (x bitsPerPow2 : Z) : Z :=
  let log2x := 31 - clz 32 (Z.lor x 1) in
  let mantissa :=
    Z.land (Z.shiftr x (if bitsPerPow2 <=? log2x then log2x - bitsPerPow2 else 0))
           (wrap32 (Z.shiftl 1 bitsPerPow2) - 1) in
  let exponent := if bitsPerPow2 <=? log2x then log2x - (bitsPerPow2 - 1) else 0 in
  Z.lor (wrap32 (Z.shiftl exponent bitsPerPow2)) mantissa.

(* src/src/include/bitops.h:486-491 u32fpDecode *)
Definition u32fpDecode (x bitsPerPow2 : Z) : Z :=
  let exponent := Z.shiftr x bitsPerPow2 in
  let mantissa :=
    Z.lor (Z.land x (wrap32 (Z.shiftl 1 bitsPerPow2) - 1)) (if negb (exponent =? 0) then 8 else 0) in
  let exponent := if negb (exponent =? 0) then exponent - 1 else exponent in
  wrap32 (Z.shiftl mantissa exponent).

(* src/src/include/bitops.h:493-495 u32fp8MaxValue *)
Definition u32fp8MaxValue : Z := 0xf0000000.

(* src/src/include/bitops.h:497-499 u32fp8Encode *)
Definition u32fp8Encode (x : Z) : Z := u32fpEncode x 3 mod 2 ^ 8.

(* src/src/include/bitops.h:500-502 u32fp8Decode *)
Definition u32fp8Decode (x : Z) : Z := u32fpDecode x 3.

(** ** Hash of a byte string *)

(** Little-endian value of at most eight bytes, as [memcpy] into a zeroed
    [uint64_t] gives it. *)
Fixpoint le_bytes (bs : list Z) : Z :=
  match bs with
  | [] => 0
  | b :: bs => b + 2 ^ 8 * le_bytes bs
  end.

(** The mixing of the accumulator that precedes every chunk of input. *)
Definition eatMix (acc : Z * Z) : Z * Z :=
  let '(a0, a1) := acc in
  let a0 := wrap64 (a0 + a1) in
  let a1 := Z.lxor a1 a0 in
  let a0 := Z.lxor a0 (Z.shiftr a0 31) in
  let a0 := wrap64 (a0 * 0x9de62bbc8cef3ce3) in
  let a1 := Z.lxor a1 (Z.shiftr a1 32) in
  let a1 := wrap64 (a1 * 0x485cd6311b599e79) in
  (a0, a1).

(** The loop of [eatHash]; [fuel] bounds the number of chunks. *)
Fixpoint eatChunks (fuel : nat) (acc : Z * Z) (bytes : list Z) : Z * Z :=
  match fuel, bytes with
  | O, _ | _, [] => acc
  | S fuel, _ =>
      let '(a0, a1) := eatMix acc in
      eatChunks fuel (wrap64 (a0 + le_bytes (take 8 bytes)), a1) (drop 8 bytes)
  end.

(* src/src/include/bitops.h:504-526 eatHash *)
Definition eatHash (acc : Z * Z) (bytes : list Z) : Z * Z :=
  eatChunks (length bytes) (Z.lxor acc.1 (Z.of_nat (length bytes)), acc.2) bytes.

(* src/src/include/bitops.h:533-541 digestHash *)
Definition digestHash (acc : Z * Z) : Z :=
  let h := acc.1 in
  let h := Z.lxor h (Z.shiftr h 31) in
  let h := wrap64 (h * 0xbac3bd562846de6b) in
  let h := wrap64 (h + acc.2) in
  let h := Z.lxor h (Z.shiftr h 32) in
  wrap64 (h * 0x995a187a14e7b445).

(* src/src/include/bitops.h:543-548 getHash *)
Definition getHash (bytes : list Z) : Z := digestHash (eatHash (1, 1) bytes).

(** ** Rounding and alignment: what they compute *)

(** [roundUpTo a x]: the least multiple of [a] that is at least [x]. *)
Definition roundUpTo (a x : Z) : Z := (x + a - 1) / a * a.

Lemma roundUpTo_spec a x :
  0 < a -> (a | roundUpTo a x) /\ x <= roundUpTo a x < x + a.
Proof.
  intros Ha. unfold roundUpTo. split; [by exists ((x + a - 1) / a)|].
  pose proof (Z.div_mod (x + a - 1) a ltac:(lia)).
  pose proof (Z.mod_pos_bound (x + a - 1) a ltac:(lia)). nia.
Qed.

Lemma roundUpTo_least a x z : 0 < a -> (a | z) -> x <= z -> roundUpTo a x <= z.
Proof.
  intros Ha [q ->] Hx. destruct (roundUpTo_spec a x Ha) as [[p ->] H].
  assert (p < q + 1) by (apply (Z.mul_lt_mono_pos_r a); lia). nia.
Qed.

Lemma roundUpTo_id a x : 0 < a -> (a | x) -> roundUpTo a x = x.
Proof.
  intros Ha Hx. destruct (roundUpTo_spec a x Ha) as [_ H].
  pose proof (roundUpTo_least a x x Ha Hx). lia.
Qed.

Lemma fits_between ty a b c : fits ty a -> fits ty c -> a <= b <= c -> fits ty b.
Proof. unfold fits. lia. Qed.

Lemma fits_0 ty : 0 < cwidth ty -> fits ty 0.
Proof.
  intros. unfold fits, cmin, cmax. destruct (csigned ty); [|split; [lia|]].
  - pose proof (Z.pow_pos_nonneg 2 (cwidth ty - 1)). lia.
  - pose proof (Z.pow_pos_nonneg 2 (cwidth ty)). lia.
Qed.

(** No wrap-around while [x + y] is representable. *)
Lemma sum_pred_fits ty x y :
  0 < cwidth ty -> 0 <= x -> 0 < y -> fits ty (x + y) ->
  cwrap ty (cwrap ty (x + y) - 1) = x + y - 1.
Proof.
  intros Hw Hx Hy Hf. rewrite (cwrap_fits ty (x + y)) by done.
  apply cwrap_fits; [done|]. eapply fits_between; [apply fits_0; done|done|lia].
Qed.

Lemma divUp_eq ty x y :
  0 < cwidth ty -> 0 <= x -> 0 < y -> fits ty (x + y) -> divUp ty x y = (x + y - 1) / y.
Proof.
  intros. unfold divUp. rewrite sum_pred_fits by done. apply Z.quot_div_nonneg; lia.
Qed.

Lemma divUp_roundUpTo ty x y :
  0 < cwidth ty -> 0 <= x -> 0 < y -> fits ty (x + y) -> divUp ty x y * y = roundUpTo y x.
Proof. intros. by rewrite divUp_eq. Qed.

Lemma land_neg_pow2 s k : 0 <= k -> Z.land s (- 2 ^ k) = s / 2 ^ k * 2 ^ k.
Proof.
  intros. replace (- 2 ^ k) with (Z.lnot (Z.ones k)) by (rewrite Z.ones_equiv; unfold Z.lnot; lia).
  rewrite <- Z.ldiff_land, Z.ldiff_ones_r, Z.shiftl_mul_pow2, Z.shiftr_div_pow2 by done. done.
Qed.

Lemma land_align_mask ty s k :
  0 <= k -> k < cwidth ty -> 0 <= s <= cmax ty -> fits ty (2 ^ k) ->
  Z.land s (cwrap ty (0 - cwrap ty (2 ^ k))) = s / 2 ^ k * 2 ^ k.
Proof.
  intros Hk Hkw Hs Hf. rewrite (cwrap_fits ty (2 ^ k)) by (done || lia).
  rewrite <- land_neg_pow2 by done.
  unfold fits, cwrap, cmin, cmax in *. destruct (csigned ty).
  - assert (2 ^ cwidth ty = 2 * 2 ^ (cwidth ty - 1)) as E.
    { rewrite <- Z.pow_succ_r by lia. f_equal. lia. }
    rewrite Z.mod_small by lia. f_equal. lia.
  - rewrite <- !Z.land_ones, (Z.land_comm (0 - _)), Z.land_assoc, Z.land_ones, Z.mod_small by lia.
    f_equal.
Qed.

Lemma alignUp_eq ty x k :
  0 <= k -> k < cwidth ty -> 0 <= x -> fits ty (x + 2 ^ k) ->
  alignUp ty x (2 ^ k) = roundUpTo (2 ^ k) x.
Proof.
  intros Hk Hkw Hx Hf. pose proof (Z.pow_pos_nonneg 2 k).
  unfold alignUp, roundUpTo. rewrite sum_pred_fits by (done || lia).
  apply land_align_mask; try done.
  - unfold fits in Hf. lia.
  - eapply fits_between; [apply (fits_0 ty); lia|exact Hf|lia].
Qed.

(** ** Fast division *)

Lemma mul32hi_eq a b : 0 <= a < 2 ^ 32 -> 0 <= b < 2 ^ 32 -> mul32hi a b = a * b / 2 ^ 32.
Proof.
  intros. unfold mul32hi, wrap64, wrap32. rewrite Z.shiftr_div_pow2 by lia.
  rewrite (Z.mod_small (a * b)) by nia. apply Z.mod_small.
  split; [apply Z.div_pos; nia|apply Z.div_lt_upper_bound; nia].
Qed.

Lemma mul64hi_eq a b : 0 <= a < 2 ^ 64 -> 0 <= b < 2 ^ 64 -> mul64hi a b = a * b / 2 ^ 64.
Proof.
  intros. unfold mul64hi, wrap64. rewrite Z.shiftr_div_pow2 by lia.
  rewrite (Z.mod_small (a * b)) by nia. apply Z.mod_small.
  split; [apply Z.div_pos; nia|apply Z.div_lt_upper_bound; nia].
Qed.

Section FastDivision.
(** [A] is the modulus of the word; the reciprocal of [y] is [A / y]. *)
Context (A : Z) (HA : 0 < A).

Lemma rcp_quotient_error x y :
  0 <= x < A -> 0 < y <= A -> x * (A / y) / A <= x / y <= x * (A / y) / A + 1.
Proof.
  intros Hx Hy. set (r := A / y). set (Q := x / y).
  assert (r * y <= A < r * y + y) as Hr.
  { subst r. pose proof (Z.div_mod A y ltac:(lia)). pose proof (Z.mod_pos_bound A y ltac:(lia)). nia. }
  assert (Q * y <= x < Q * y + y) as HQ.
  { subst Q. pose proof (Z.div_mod x y ltac:(lia)). pose proof (Z.mod_pos_bound x y ltac:(lia)). nia. }
  assert (0 <= r) by (apply Z.div_pos; lia). assert (0 <= Q) by (apply Z.div_pos; lia).
  split.
  - apply Z.div_le_lower_bound; [lia|]. enough (x * r / A * A <= x * r) by nia.
    rewrite Z.mul_comm. apply Z.mul_div_le. lia.
  - enough (Q - 1 <= x * r / A) by lia. apply Z.div_le_lower_bound; [lia|].
    assert (Q * y * r <= x * r) by (apply Z.mul_le_mono_nonneg_r; lia).
    destruct (Z.eq_dec Q 0) as [->|]; [nia|].
    assert ((Q - 1) * (y - 1) <= y * r) by nia. nia.
Qed.

Lemma rcp_product_error x y :
  0 < x -> 0 < y -> x * y <= A ->
  A / x * (A / y) / A <= A / (x * y) <= A / x * (A / y) / A + 1.
Proof.
  intros Hx Hy HP.
  assert (forall z, 0 < z -> A / z * z <= A < A / z * z + z) as D.
  { intros z Hz. pose proof (Z.div_mod A z ltac:(lia)). pose proof (Z.mod_pos_bound A z ltac:(lia)). nia. }
  pose proof (D x Hx) as Dx. pose proof (D y Hy) as Dy. pose proof (D (x * y) ltac:(nia)) as Dp.
  set (a := A / x) in *. set (b := A / y) in *. set (R := A / (x * y)) in *.
  assert (0 <= a) by (apply Z.div_pos; lia). assert (0 <= b) by (apply Z.div_pos; lia).
  assert (0 <= R) by (apply Z.div_pos; nia).
  split.
  - apply Z.div_le_lower_bound; [nia|].
    assert (a * b / A * A <= a * b) by (rewrite Z.mul_comm; apply Z.mul_div_le; lia).
    assert ((a * x) * (b * y) <= A * A) by (apply Z.mul_le_mono_nonneg; nia). nia.
  - enough (R - 1 <= a * b / A) by lia. apply Z.div_le_lower_bound; [lia|].
    assert ((A - x + 1) * (A - y + 1) <= (a * x) * (b * y)) by (apply Z.mul_le_mono_nonneg; nia).
    assert (0 <= (x - 1) * (y - 1)) by nia.
    assert (R * (x * y) * A <= A * A) by (apply Z.mul_le_mono_nonneg_r; lia).
    assert (0 <= A * ((x - 1) * (y - 1) + 1)) by nia.
    apply (Z.mul_le_mono_pos_r _ _ (x * y)); nia.
Qed.
End FastDivision.

(** The reciprocal is [A / y] except for [y = 1], where [A] wraps to the
    sentinel 0. *)
Lemma idivRcp32_eq y : 2 <= y < 2 ^ 32 -> idivRcp32 y = 2 ^ 32 / y.
Proof.
  intros. apply wrap32_small. split; [apply Z.div_pos; lia|apply Z.div_lt_upper_bound; lia].
Qed.

Lemma pow2_iff_land y : 0 < y -> Z.land y (y - 1) = 0 <-> y = 2 ^ Z.log2 y.
Proof.
  intros Hy. pose proof (Z.log2_spec y Hy) as [Hlo Hhi]. pose proof (Z.log2_nonneg y).
  split; intros H0.
  - destruct (Z.eq_dec y (2 ^ Z.log2 y)) as [|Hne]; [done|exfalso].
    assert (Z.log2 (y - 1) = Z.log2 y) as El by (apply Z.log2_unique; lia).
    assert (Z.testbit (Z.land y (y - 1)) (Z.log2 y) = true) as Hb.
    { rewrite Z.land_spec. rewrite <- El at 2. rewrite !Z.bit_log2; [done|lia..]. }
    rewrite H0, Z.testbit_0_l in Hb. done.
  - rewrite H0. set (k := Z.log2 y) in *.
    replace (2 ^ k - 1) with (Z.ones k) by (rewrite Z.ones_equiv; lia).
    rewrite Z.land_ones by done. apply Z.mod_same. lia.
Qed.

Lemma pow2_quot y n : 0 < y <= 2 ^ n -> 0 <= n ->
  (2 ^ n - 1) / y + (if Z.land y (y - 1) =? 0 then 1 else 0) = 2 ^ n / y.
Proof.
  intros Hy Hn. pose proof (Z.div_mod (2 ^ n) y ltac:(lia)) as E.
  pose proof (Z.mod_pos_bound (2 ^ n) y ltac:(lia)) as B. symmetry.
  destruct (Z.eqb_spec (Z.land y (y - 1)) 0) as [H|H].
  - apply pow2_iff_land in H; [|lia]. pose proof (Z.log2_nonneg y).
    assert (Z.log2 y <= n).
    { rewrite <- (Z.log2_pow2 n) by done. apply Z.log2_le_mono. lia. }
    assert (2 ^ n mod y = 0) as Em.
    { rewrite H. replace n with (n - Z.log2 y + Z.log2 y) by lia.
      rewrite Z.pow_add_r by lia. apply Z.mod_mul. lia. }
    enough (2 ^ n / y - 1 = (2 ^ n - 1) / y) by lia.
    apply (Z.div_unique _ _ _ (y - 1)); lia.
  - assert (2 ^ n mod y <> 0) as Em.
    { intros Em. apply H, pow2_iff_land; [lia|].
      apply Z.mod_divide in Em; [|lia].
      destruct (Zdivide_power_2 y 2 n) as [k ->]; [lia|lia|apply prime_alt, Z.prime_2|done|].
      destruct (Z.neg_nonneg_cases k); [rewrite Z.pow_neg_r in Hy by done; lia|].
      by rewrite Z.log2_pow2. }
    rewrite Z.add_0_r. apply (Z.div_unique _ _ _ (2 ^ n mod y - 1)); lia.
Qed.

Lemma idivRcp64_eq y : 2 <= y < 2 ^ 64 -> idivRcp64 y = 2 ^ 64 / y.
Proof.
  intros. unfold idivRcp64, isPow2. rewrite cwrap_fits by (unfold fits, cmin, cmax, u64; simpl; lia).
  replace (wrap64 (-1)) with (2 ^ 64 - 1) by done. rewrite pow2_quot by lia.
  apply wrap64_small. split; [apply Z.div_pos; lia|apply Z.div_lt_upper_bound; lia].
Qed.

Lemma quot_rem_adjust x y q :
  0 < y -> q <= x / y <= q + 1 ->
  (if y <=? x - y * q then (q + 1, x - y * q - y) else (q, x - y * q)) = (x / y, x mod y).
Proof.
  intros Hy Hq. pose proof (Z.div_mod x y ltac:(lia)). pose proof (Z.mod_pos_bound x y Hy).
  assert (x / y = q \/ x / y = q + 1) as [E|E] by lia; rewrite E in *.
  - destruct (Z.leb_spec y (x - y * q)); [nia|]. f_equal; lia.
  - destruct (Z.leb_spec y (x - y * q)); [|nia]. f_equal; lia.
Qed.

(** The body of the fast division, at word modulus [A]. *)
Lemma fast_divmod A x y :
  0 < A -> 0 <= x < A -> 2 <= y < A ->
  let q := x * (A / y) / A in
  let r := (x - (y * q) mod A) mod A in
  (if y <=? r then ((q + 1) mod A, (r - y) mod A) else (q, r)) = (x / y, x mod y).
Proof.
  intros HA Hx Hy q r. pose proof (rcp_quotient_error A HA x y Hx ltac:(lia)) as E. fold q in E.
  assert (0 <= q) by (apply Z.div_pos; [apply Z.mul_nonneg_nonneg; [lia|apply Z.div_pos; lia]|lia]).
  pose proof (Z.mul_div_le x y ltac:(lia)). rewrite <- (quot_rem_adjust x y q) by lia.
  assert (r = x - y * q) as ->.
  { subst r. rewrite (Z.mod_small (y * q)), Z.mod_small by nia. done. }
  destruct (Z.leb_spec y (x - y * q)); [|done].
  rewrite !Z.mod_small by nia. done.
Qed.

Lemma rcp_nonzero A y : 2 <= y < A -> 0 < A / y < A.
Proof. intros. split; [apply Z.div_str_pos; lia|apply Z.div_lt_upper_bound; nia]. Qed.

(** division by a precomputed reciprocal is exact.  For every 32-bit
    numerator and every nonzero 32-bit divisor, [idivmodFast32] applied to the
    reciprocal [idivRcp32] computes returns the quotient and the remainder,
    and likewise at 64 bits; the divisor 1, whose reciprocal wraps to 0, is
    included. *)
Lemma idivmodFast_correct x y :
  (0 <= x < 2 ^ 32 -> 0 < y < 2 ^ 32 -> idivmodFast32 x y (idivRcp32 y) = (x / y, x mod y)) /\
  (0 <= x < 2 ^ 64 -> 0 < y < 2 ^ 64 -> idivmodFast64 x y (idivRcp64 y) = (x / y, x mod y)).
Proof.
  split; intros Hx Hy; (destruct (Z.eq_dec y 1) as [->|]; [by rewrite Z.div_1_r, Z.mod_1_r|]).
  - pose proof (rcp_nonzero (2 ^ 32) y ltac:(lia)). unfold idivmodFast32.
    rewrite idivRcp32_eq by lia. destruct (Z.eqb_spec (2 ^ 32 / y) 0); [lia|].
    rewrite mul32hi_eq by lia. apply (fast_divmod (2 ^ 32)); lia.
  - pose proof (rcp_nonzero (2 ^ 64) y ltac:(lia)). unfold idivmodFast64.
    rewrite idivRcp64_eq by lia. destruct (Z.eqb_spec (2 ^ 64 / y) 0); [lia|].
    rewrite mul64hi_eq by lia. apply (fast_divmod (2 ^ 64)); lia.
Qed.

Lemma idivmodFast_correct_example :
  idivmodFast32 4294967295 7 (idivRcp32 7) = (613566756, 3) /\
  idivmodFast64 18446744073709551615 1 (idivRcp64 1) = (18446744073709551615, 0).
Proof.
  split.
  - apply (proj1 (idivmodFast_correct 4294967295 7)); lia.
  - apply (proj2 (idivmodFast_correct 18446744073709551615 1)); lia.
Defined.

(** The body of the reciprocal product, at word modulus [A]. *)
Lemma rcp_product A x y :
  0 < A -> 2 <= x -> 2 <= y -> 2 * (x * y) <= A ->
  let rcp := A / x * (A / y) / A in
  let rem := (0 - (((x * y) mod A) * rcp) mod A) mod A in
  (if (x * y) mod A <=? rem then (rcp + 1) mod A else rcp) = A / (x * y).
Proof.
  intros HA Hx Hy HP rcp rem.
  pose proof (rcp_product_error A HA x y ltac:(lia) ltac:(lia) ltac:(nia)) as E. fold rcp in E.
  assert (2 <= A / (x * y)) by (apply Z.div_le_lower_bound; nia).
  pose proof (Z.div_mod A (x * y) ltac:(nia)). pose proof (Z.mod_pos_bound A (x * y) ltac:(nia)).
  set (R := A / (x * y)) in *. set (P := x * y) in *. assert (1 <= P) by (subst P; nia).
  assert (P * rcp <= A) by nia.
  assert (rem = if P * rcp =? A then 0 else A - P * rcp) as ->.
  { subst rem. rewrite (Z.mod_small P) by nia. destruct (Z.eqb_spec (P * rcp) A) as [->|].
    - by rewrite Z.mod_same, Z.mod_0_l by lia.
    - rewrite (Z.mod_small (P * rcp)) by nia. rewrite <- (Z.mod_add _ 1) by lia.
      rewrite Z.mod_small by nia. lia. }
  rewrite (Z.mod_small P) by nia.
  assert (R = rcp \/ R = rcp + 1) as [ER|ER] by lia.
  - destruct (Z.eqb_spec (P * rcp) A); zcase1; nia.
  - destruct (Z.eqb_spec (P * rcp) A); [nia|]. zcase1; [|nia].
    rewrite Z.mod_small by nia. done.
Qed.

(** The reciprocal of a product from the reciprocals of its factors.  While
    the product is at most half the range of the word, [imulRcp32] and
    [imulRcp64] return exactly what [idivRcp32] and [idivRcp64] compute from
    the product, so a product of divisors needs no integer division on the
    device. *)
Lemma imulRcp_correct x y :
  0 < x -> 0 < y ->
  (x * y <= 2 ^ 31 -> imulRcp32 x (idivRcp32 x) y (idivRcp32 y) = idivRcp32 (x * y)) /\
  (x * y <= 2 ^ 63 -> imulRcp64 x (idivRcp64 x) y (idivRcp64 y) = idivRcp64 (x * y)).
Proof.
  intros Hx Hy. destruct (Z.eq_dec x 1) as [->|]; [by rewrite !Z.mul_1_l|].
  destruct (Z.eq_dec y 1) as [->|].
  { rewrite !Z.mul_1_r. unfold imulRcp32, imulRcp64.
    split; intros; [destruct (Z.eqb_spec (idivRcp32 x) 0)|destruct (Z.eqb_spec (idivRcp64 x) 0)];
      by rewrite ?e. }
  split; intros HP.
  - pose proof (rcp_nonzero (2 ^ 32) x ltac:(nia)). pose proof (rcp_nonzero (2 ^ 32) y ltac:(nia)).
    unfold imulRcp32. rewrite !idivRcp32_eq by nia.
    destruct (Z.eqb_spec (2 ^ 32 / x) 0), (Z.eqb_spec (2 ^ 32 / y) 0); [lia..|].
    rewrite mul32hi_eq by lia.
    apply (rcp_product (2 ^ 32)); lia.
  - pose proof (rcp_nonzero (2 ^ 64) x ltac:(nia)). pose proof (rcp_nonzero (2 ^ 64) y ltac:(nia)).
    unfold imulRcp64. rewrite !idivRcp64_eq by nia.
    destruct (Z.eqb_spec (2 ^ 64 / x) 0), (Z.eqb_spec (2 ^ 64 / y) 0); [lia..|].
    rewrite mul64hi_eq by lia.
    apply (rcp_product (2 ^ 64)); lia.
Qed.

Lemma imulRcp_example :
  imulRcp32 12 (idivRcp32 12) 1000 (idivRcp32 1000) = idivRcp32 12000.
Proof. apply (imulRcp_correct 12 1000); lia. Defined.

(** Beyond that half the correction step loses the wrap-around: for the
    divisors 65537 and 65535, whose product is the largest 32-bit value, the
    result is 0, the reciprocal of the divisor 1. *)
Lemma imulRcp32_large_product :
  imulRcp32 65537 (idivRcp32 65537) 65535 (idivRcp32 65535) = 0 /\
  idivRcp32 (65537 * 65535) = 1.
Proof. split; reflexivity. Qed.

(** [idivFast64] returns a [uint32_t]: a quotient that needs more than 32 bits
    is truncated. *)
Lemma idivFast64_truncates :
  idivFast64 (2 ^ 40) 2 (idivRcp64 2) = 0 /\ 2 ^ 40 / 2 = 2 ^ 39.
Proof. split; reflexivity. Qed.

(** ** Logarithms *)

Lemma fits_mod ty x : 0 < cwidth ty -> 0 <= x -> fits ty x -> x mod 2 ^ cwidth ty = x.
Proof.
  intros Hw Hx Hf. apply Z.mod_small. unfold fits, cmin, cmax in Hf.
  pose proof (Z.pow_le_mono_r 2 (cwidth ty - 1) (cwidth ty)).
  destruct (csigned ty); lia.
Qed.

Lemma log2Up_eq ty x : 0 < cwidth ty -> 0 <= x -> fits ty x -> log2Up ty x = Z.log2_up x.
Proof.
  intros Hw Hx Hf. unfold log2Up, clz.
  destruct (Z.eqb_spec x 0) as [->|]; [done|]. simpl negb. cbv iota.
  assert (fits ty (x - 1)).
  { eapply fits_between; [apply (fits_0 ty Hw)|exact Hf|lia]. }
  rewrite cwrap_fits by done. destruct (Z.eqb_spec (x - 1) 0).
  - by replace x with 1 by lia.
  - rewrite fits_mod, Z.log2_up_eqn by (done || lia). rewrite <- Z.sub_1_r. lia.
Qed.

Lemma log2Down_eq ty x : 0 < cwidth ty -> 0 < x -> fits ty x -> log2Down ty x = Z.log2 x.
Proof.
  intros. unfold log2Down, clz. zcase1; [lia|]. rewrite fits_mod by (done || lia). lia.
Qed.

(** [pow2Up x] is the least power of two that is at least [x]. *)
Lemma pow2Up_spec ty x :
  0 < cwidth ty -> 0 < x -> fits ty x -> fits ty (2 ^ Z.log2_up x) ->
  x <= pow2Up ty x /\ forall k, 0 <= k -> x <= 2 ^ k -> pow2Up ty x <= 2 ^ k.
Proof.
  intros Hw Hx Hf Hp. unfold pow2Up. rewrite log2Up_eq, Z.shiftl_1_l, cwrap_fits by (done || lia).
  split; [pose proof (Z.log2_log2_up_spec x); lia|].
  intros k Hk Hxk. apply Z.pow_le_mono_r; [lia|]. apply Z.log2_up_le_pow2; lia.
Qed.

(** ** Bit reversal *)

Definition all_below (n : Z) (f : Z -> bool) : bool :=
  forallb (fun i => f (Z.of_nat i)) (seq 0 (Z.to_nat n)).

Lemma all_below_spec n f : all_below n f = true -> forall i, 0 <= i < n -> f i = true.
Proof.
  unfold all_below. rewrite forallb_forall. intros H i Hi.
  rewrite <- (Z2Nat.id i) by lia. apply H, in_seq. lia.
Qed.

(** The mask of level [h] selects the lower half of every group of [2 * h] bits. *)
Definition mask_ok (w h : Z) : bool :=
  all_below w (fun i => Bool.eqb (Z.testbit (swapMask w h) i) ((i / h) mod 2 =? 0)).

Definition swap_index (h i : Z) : Z := if (i / h) mod 2 =? 0 then i + h else i - h.

Definition index_ok (w h : Z) : bool :=
  all_below w (fun i => (0 <=? swap_index h i) && (swap_index h i <? w)).

Lemma div_shift_up i h : 0 < h -> (i + h) / h = i / h + 1.
Proof. intros. rewrite <- Z.div_add by lia. f_equal; lia. Qed.

Lemma div_shift_down i h : 0 < h -> (i - h) / h = i / h + -1.
Proof. intros. rewrite <- Z.div_add by lia. f_equal; lia. Qed.

Lemma swapHalves_testbit w h x i :
  0 < h < w -> 0 <= i < w -> mask_ok w h = true -> index_ok w h = true ->
  Z.testbit (swapHalves w h x) i = Z.testbit x (swap_index h i).
Proof.
  intros Hh Hi Hm Hix.
  assert (forall j, 0 <= j < w -> Z.testbit (swapMask w h) j = ((j / h) mod 2 =? 0)) as M.
  { intros j Hj. by apply eqb_prop, (all_below_spec _ _ Hm). }
  pose proof (all_below_spec _ _ Hix i Hi) as R. apply andb_prop in R as [R1 R2].
  unfold swapHalves. replace (2 ^ w - 1) with (Z.ones w) by (rewrite Z.ones_equiv; lia).
  rewrite Z.lor_spec, Z.mod_pow2_bits_low, Z.shiftl_spec, Z.shiftr_spec by lia.
  rewrite !Z.land_spec, Z.ldiff_spec.
  unfold swap_index in *. pose proof (Z.div_mod i h ltac:(lia)).
  pose proof (Z.mod_pos_bound i h ltac:(lia)).
  destruct (Z.eqb_spec ((i / h) mod 2) 0) as [E|E].
  - rewrite (M (i + h)), Z.ones_spec_low by lia.
    rewrite div_shift_up by lia.
    rewrite Z.add_mod, E by lia. simpl. destruct (Z.ltb_spec i h).
    + rewrite (Z.testbit_neg_r x (i - h)) by lia. by rewrite andb_false_l, andb_true_r.
    + rewrite (M (i - h)) by lia.
      rewrite div_shift_down by lia.
      rewrite Z.add_mod, E by lia. simpl. by rewrite andb_false_r, andb_true_r.
  - assert ((i / h) mod 2 = 1) as E1 by (pose proof (Z.mod_pos_bound (i / h) 2); lia).
    rewrite (M (i - h)) by lia.
    rewrite div_shift_down by lia.
    rewrite Z.add_mod, E1 by lia. simpl. rewrite andb_true_r.
    destruct (Z.ltb_spec (i + h) w).
    + rewrite (M (i + h)) by lia.
      rewrite div_shift_up by lia.
      rewrite Z.add_mod, E1 by lia. simpl. by rewrite !andb_false_r, orb_false_r.
    + rewrite Z.ones_spec_high by lia. by rewrite andb_false_l, andb_false_r, orb_false_r.
Qed.

(** One byte of [x], moved from bit [a] to bit [b]. *)
Lemma move_byte_testbit x a b i :
  0 <= a -> 0 <= i ->
  Z.testbit (Z.shiftl (Z.land (Z.shiftr x a) 255) b) i = true <->
  b <= i < b + 8 /\ Z.testbit x (i - b + a) = true.
Proof.
  intros Ha Hi. rewrite Z.shiftl_spec by done. change 255 with (Z.ones 8).
  destruct (Z.ltb_spec i b); [rewrite Z.testbit_neg_r by lia; split; [done|lia]|].
  rewrite Z.land_spec, Z.shiftr_spec by lia. destruct (Z.ltb_spec i (b + 8)).
  - rewrite Z.ones_spec_low, andb_true_r by lia. split; [done|tauto].
  - rewrite Z.ones_spec_high, andb_false_r by lia. split; [done|lia].
Qed.

Lemma bswap_fold_testbit w x i l :
  0 <= i ->
  Z.testbit (foldr (fun (j : nat) acc =>
      Z.lor (Z.shiftl (Z.land (Z.shiftr x (8 * Z.of_nat j)) 255) (w - 8 - 8 * Z.of_nat j)) acc) 0 l) i
    = true <->
  exists j, j ∈ l /\ w - 8 - 8 * Z.of_nat j <= i < w - 8 - 8 * Z.of_nat j + 8 /\
            Z.testbit x (i - (w - 8 - 8 * Z.of_nat j) + 8 * Z.of_nat j) = true.
Proof.
  intros Hi. induction l as [|j l IH]; simpl.
  - rewrite Z.testbit_0_l. split; [done|]. intros (j & Hj & _). by apply not_elem_of_nil in Hj.
  - rewrite Z.lor_spec, orb_true_iff, IH, move_byte_testbit by lia. setoid_rewrite elem_of_cons.
    split; [intros [H|(k & Hk & H)]; eauto|]. intros (k & [->|Hk] & H); eauto.
Qed.

Lemma bswap_testbit w x i :
  0 <= w -> (8 | w) -> 0 <= i < w ->
  Z.testbit (bswap w x) i = Z.testbit x (w - 8 - 8 * (i / 8) + i mod 8).
Proof.
  intros Hw [c ->] Hi. unfold bswap. rewrite Z.div_mul by lia.
  pose proof (Z.div_mod i 8 ltac:(lia)). pose proof (Z.mod_pos_bound i 8 ltac:(lia)).
  apply eq_true_iff_eq. rewrite bswap_fold_testbit by lia. split.
  - intros (j & _ & Hj & Hb). rewrite <- Hb. f_equal. lia.
  - intros Hb. exists (Z.to_nat (c - 1 - i / 8)). split; [apply elem_of_seq; lia|].
    rewrite Z2Nat.id by lia. split; [lia|]. rewrite <- Hb. f_equal. lia.
Qed.

Lemma swapHalves_high w h x i :
  0 <= h -> 0 <= w <= i -> Z.testbit (swapHalves w h x) i = false.
Proof.
  intros. unfold swapHalves. replace (2 ^ w - 1) with (Z.ones w) by (rewrite Z.ones_equiv; lia).
  rewrite Z.lor_spec, Z.mod_pow2_bits_high, Z.shiftr_spec, Z.land_spec, Z.ldiff_spec by lia.
  rewrite Z.ones_spec_high by lia. by rewrite andb_false_l, andb_false_r.
Qed.

Lemma reverseGroups_testbit w x i :
  In w [8; 16; 32; 64] -> 0 <= i < w ->
  Z.testbit (reverseGroups w 3 x) i = Z.testbit x (swap_index 4 (swap_index 2 (swap_index 1 i))).
Proof.
  intros Hw Hi.
  assert (forall h, In h [1; 2; 4] -> 0 < h < w /\ mask_ok w h = true /\ index_ok w h = true) as K.
  {
    clear - Hw. intros h [<-|[<-|[<-|[]]]]; destruct Hw as [<-|[<-|[<-|[<-|[]]]]];
      (split; [lia|split; vm_compute; reflexivity]).
  }
  assert (forall h j, In h [1; 2; 4] -> 0 <= j < w -> 0 <= swap_index h j < w) as R.
  { intros h j Hh Hj. destruct (K h Hh) as (_ & _ & E).
    apply (all_below_spec _ _ E) in Hj. apply andb_prop in Hj as [? ?]. lia. }
  assert (In 1 [1; 2; 4] /\ In 2 [1; 2; 4] /\ In 4 [1; 2; 4]) as (I1 & I2 & I4) by (simpl; tauto).
  simpl reverseGroups. change (2 ^ Z.of_nat 0) with 1. change (2 ^ Z.of_nat 1) with 2.
  change (2 ^ Z.of_nat 2) with 4.
  rewrite !swapHalves_testbit; auto; try (apply K; auto).
Qed.

(** Byte swap and group reversal together mirror the index. *)
Definition mirror_ok (w : Z) : bool :=
  all_below w (fun i =>
    let j := swap_index 4 (swap_index 2 (swap_index 1 i)) in
    (0 <=? j) && (j <? w) &&
    (if 16 <=? w then w - 8 - 8 * (j / 8) + j mod 8 =? w - 1 - i else j =? w - 1 - i)).

Lemma reverseSubBits_testbit w x i :
  In w [8; 16; 32; 64] -> 0 <= i < w ->
  Z.testbit (reverseSubBits w x) i = Z.testbit x (w - 1 - i).
Proof.
  intros Hw Hi. assert (mirror_ok w = true) as M.
  { destruct Hw as [<-|[<-|[<-|[<-|[]]]]]; vm_compute; reflexivity. }
  assert (0 <= w /\ (8 | w)) as [W1 W2].
  { destruct Hw as [<-|[<-|[<-|[<-|[]]]]]; (split; [lia|by apply Z.mod_divide]). }
  apply (all_below_spec _ _ M) in Hi as E. simpl in E.
  apply andb_prop in E as [[E1 E2]%andb_prop E3]. unfold reverseSubBits.
  destruct (16 <=? w); rewrite reverseGroups_testbit by done.
  - rewrite bswap_testbit by (done || lia). f_equal. lia.
  - f_equal. lia.
Qed.

Lemma reverseBits_testbit ty x n i :
  csigned ty = false -> In (cwidth ty) [8; 16; 32; 64] -> 0 <= x < 2 ^ cwidth ty ->
  0 <= n <= cwidth ty -> 0 <= i ->
  Z.testbit (reverseBits ty x n) i = if i <? n then Z.testbit x (n - 1 - i) else false.
Proof.
  intros Hs Hw Hx Hn Hi. unfold reverseBits, cwrap. rewrite Hs.
  rewrite (Z.mod_small x) by done. set (w := cwidth ty) in *.
  assert (0 < w) by (destruct Hw as [<-|[<-|[<-|[<-|[]]]]]; lia).
  destruct (Z.ltb_spec i w) as [Hiw|Hiw].
  - rewrite Z.mod_pow2_bits_low by done. destruct (Z.eqb_spec n 0) as [->|].
    { rewrite Z.testbit_0_l. zcase1; (done || lia). }
    rewrite Z.shiftr_spec by done. zcase1.
    + rewrite reverseSubBits_testbit by (done || lia). f_equal. lia.
    + unfold reverseSubBits. destruct (16 <=? w); apply swapHalves_high; lia.
  - rewrite Z.mod_pow2_bits_high by lia. zcase1; (done || lia).
Qed.

Lemma cwrap_i32_u32 u : cwrap u32 u < 2 ^ 31 -> cwrap i32 u = cwrap u32 u.
Proof.
  unfold cwrap, i32, u32. cbn [csigned cwidth]. intros H. change (32 - 1) with 31.
  rewrite <- Zplus_mod_idemp_l. pose proof (Z.mod_pos_bound u (2 ^ 32) ltac:(lia)).
  rewrite (Z.mod_small (u mod 2 ^ 32 + 2 ^ 31)); lia.
Qed.

Lemma reverseBits_i32 x n :
  0 <= x < 2 ^ 31 -> 0 <= n <= 31 ->
  reverseBits i32 x n = reverseBits u32 x n /\ 0 <= reverseBits u32 x n < 2 ^ n.
Proof.
  intros Hx Hn. assert (0 <= reverseBits u32 x n < 2 ^ n) as Hb.
  { assert (0 <= reverseBits u32 x n) by (apply Z.mod_pos_bound; simpl; lia). split; [done|].
    destruct (Z.eq_dec (reverseBits u32 x n) 0) as [->|Hne]; [lia|]. apply Z.log2_lt_pow2; [lia|].
    destruct (Z.lt_ge_cases (Z.log2 (reverseBits u32 x n)) n) as [|Hge]; [done|]. exfalso.
    pose proof (Z.bit_log2 (reverseBits u32 x n) ltac:(lia)) as B.
    rewrite reverseBits_testbit in B; [|done|simpl; tauto|simpl; lia|simpl; lia|lia].
    zcase1_in B; (done || lia). }
  split; [|done]. assert (2 ^ n <= 2 ^ 31) by (apply Z.pow_le_mono_r; lia).
  apply cwrap_i32_u32. unfold reverseBits in Hb. simpl cwidth in *. lia.
Qed.

Lemma reverseBits_inj x y n :
  0 <= n <= 32 -> 0 <= x < 2 ^ n -> 0 <= y < 2 ^ n -> reverseBits u32 x n = reverseBits u32 y n -> x = y.
Proof.
  intros Hn Hx Hy E. assert (2 ^ n <= 2 ^ 32) by (apply Z.pow_le_mono_r; lia).
  apply Z.bits_inj'. intros i Hi. destruct (Z.lt_ge_cases i n) as [Hin|Hin].
  - apply (f_equal (fun z => Z.testbit z (n - 1 - i))) in E.
    rewrite !reverseBits_testbit in E by (done || simpl; tauto || simpl; lia).
    destruct (Z.ltb_spec (n - 1 - i) n); [|lia]. by replace (n - 1 - (n - 1 - i)) with i in E by lia.
  - rewrite <- (Z.mod_small x (2 ^ n)), <- (Z.mod_small y (2 ^ n)) by done.
    by rewrite !Z.mod_pow2_bits_high by lia.
Qed.

(** [reverseBits x n] reverses the low [n] bits of [x] and clears the
    others, at every integer width the code uses: bit [i] of the result is bit
    [n - 1 - i] of [x] for [i < n] and 0 above. *)
Lemma reverseBits_correct ty x n i :
  csigned ty = false -> In (cwidth ty) [8; 16; 32; 64] -> 0 <= x < 2 ^ cwidth ty ->
  0 <= n <= cwidth ty -> 0 <= i ->
  Z.testbit (reverseBits ty x n) i = if i <? n then Z.testbit x (n - 1 - i) else false.
Proof. apply reverseBits_testbit. Qed.

Lemma reverseBits_example :
  Z.testbit (reverseBits u32 6 3) 0 = true.
Proof.
  rewrite (reverseBits_correct u32 6 3 0); [reflexivity|reflexivity|simpl; auto|simpl; lia..].
Defined.

(** ** The 8-bit size encoding *)

Lemma lor_shiftl_low e m k : 0 <= k -> 0 <= m < 2 ^ k -> Z.lor (Z.shiftl e k) m = e * 2 ^ k + m.
Proof.
  intros Hk Hm. rewrite <- Z.shiftl_mul_pow2 by done. symmetry. rewrite <- Z.lxor_lor; [apply Z.add_nocarry_lxor|]; apply Z.bits_inj'; intros i Hi;
    rewrite Z.land_spec, Z.shiftl_spec, Z.testbit_0_l by done;
    (destruct (Z.ltb_spec i k); [by rewrite Z.testbit_neg_r by lia|]);
    rewrite <- (Z.mod_small m (2 ^ k)), Z.mod_pow2_bits_high by lia; apply andb_false_r.
Qed.

Lemma log2_lor_1 x : 0 <= x -> Z.log2 (Z.lor x 1) = Z.log2 x.
Proof.
  intros. rewrite Z.log2_lor by lia. simpl (Z.log2 1). pose proof (Z.log2_nonneg x). lia.
Qed.

Lemma lor_8 r : 0 <= r < 8 -> Z.lor r 8 = r + 8.
Proof.
  intros. assert (In r [0; 1; 2; 3; 4; 5; 6; 7]) as H' by (simpl; lia).
  repeat (destruct H' as [<-|H']; [done|]). done.
Qed.

(** The code of a size of at least 8: exponent and the three bits below the
    leading one. *)
Lemma u32fp8Encode_large x :
  8 <= x < 2 ^ 32 ->
  let L := Z.log2 x in
  u32fp8Encode x = (L - 2) * 8 + (x / 2 ^ (L - 3) - 8) /\ 8 <= x / 2 ^ (L - 3) < 16 /\ 3 <= L < 32.
Proof.
  intros Hx L. pose proof (Z.log2_spec x ltac:(lia)) as [Hlo Hhi]. fold L in Hlo, Hhi.
  assert (3 <= L) by (change 3 with (Z.log2 8); apply Z.log2_le_mono; lia).
  assert (L < 32) by (apply Z.log2_lt_pow2; lia).
  assert (8 <= x / 2 ^ (L - 3) < 16) as Hq.
  { replace (2 ^ L) with (8 * 2 ^ (L - 3)) in Hlo by (change 8 with (2 ^ 3); rewrite <- Z.pow_add_r by lia; f_equal; lia).
    replace (2 ^ Z.succ L) with (16 * 2 ^ (L - 3)) in Hhi by (change 16 with (2 ^ 4); rewrite <- Z.pow_add_r by lia; f_equal; lia).
    split; [apply Z.div_le_lower_bound; lia|apply Z.div_lt_upper_bound; lia]. }
  split; [|done]. unfold u32fp8Encode, u32fpEncode, clz. rewrite log2_lor_1 by lia.
  replace (31 - (32 - 1 - Z.log2 x)) with L by lia. destruct (Z.leb_spec 3 L); [|lia].
  rewrite Z.shiftr_div_pow2 by lia. change (wrap32 (Z.shiftl 1 3) - 1) with (Z.ones 3).
  rewrite Z.land_ones by lia. change (2 ^ 3) with 8.
  replace ((x / 2 ^ (L - 3)) mod 8) with (x / 2 ^ (L - 3) - 8).
  2:{ rewrite <- (Z.mod_add _ (-1)) by lia. rewrite Z.mod_small; lia. }
  rewrite wrap32_small by (rewrite Z.shiftl_mul_pow2 by lia; lia).
  rewrite lor_shiftl_low by lia. change (2 ^ 3) with 8. rewrite Z.mod_small; lia.
Qed.

Lemma u32fp8Decode_large e r :
  1 <= e <= 29 -> 0 <= r < 8 -> u32fp8Decode (e * 8 + r) = (r + 8) * 2 ^ (e - 1).
Proof.
  intros He Hr. unfold u32fp8Decode, u32fpDecode.
  rewrite Z.shiftr_div_pow2 by lia. change (wrap32 (Z.shiftl 1 3) - 1) with (Z.ones 3).
  rewrite Z.land_ones by lia. change (2 ^ 3) with 8.
  replace ((e * 8 + r) / 8) with e by (rewrite Z.div_add_l, Z.div_small; lia).
  replace ((e * 8 + r) mod 8) with r by (rewrite Z.add_comm, Z.mod_add, Z.mod_small; lia).
  destruct (Z.eqb_spec e 0); [lia|]. simpl negb. cbv iota. rewrite lor_8 by lia.
  rewrite Z.shiftl_mul_pow2 by lia. apply wrap32_small.
  pose proof (Z.pow_le_mono_r 2 (e - 1) 28 ltac:(lia) ltac:(lia)).
  pose proof (Z.pow_pos_nonneg 2 (e - 1) ltac:(lia) ltac:(lia)). nia.
Qed.

(** the 8-bit encoding of a 32-bit size.  Decoding the code of any size [x]
    gives a size that is never larger than [x] and loses less than an eighth
    of it (nothing below 16), and every code below 240 is the code of what it
    decodes to, so re-encoding is stable. *)
Lemma u32fp8_roundtrip :
  (forall x, 0 <= x < 2 ^ 32 ->
     let d := u32fp8Decode (u32fp8Encode x) in
     d <= x /\ 8 * (x - d) <= x /\ (x < 16 -> d = x) /\ 0 <= u32fp8Encode x < 240) /\
  (forall c, 0 <= c < 240 -> u32fp8Encode (u32fp8Decode c) = c).
Proof.
  split.
  - intros x Hx. destruct (Z.ltb_spec x 8).
    { assert (In x [0; 1; 2; 3; 4; 5; 6; 7]) as H' by (simpl; lia).
      repeat (destruct H' as [<-|H']; [vm_compute; intuition discriminate|]). done. }
    destruct (u32fp8Encode_large x ltac:(lia)) as (-> & Hq & HL). set (L := Z.log2 x) in *.
    cbv zeta. rewrite u32fp8Decode_large by lia.
    replace (x / 2 ^ (L - 3) - 8 + 8) with (x / 2 ^ (L - 3)) by lia.
    replace (L - 2 - 1) with (L - 3) by lia.
    pose proof (Z.div_mod x (2 ^ (L - 3)) ltac:(lia)) as E.
    pose proof (Z.mod_pos_bound x (2 ^ (L - 3)) ltac:(lia)) as B.
    split_and!; nia.
  - intros c Hc.
    assert (all_below 240 (fun c => u32fp8Encode (u32fp8Decode c) =? c) = true) as A by (vm_compute; reflexivity).
    apply (all_below_spec _ _ A) in Hc. lia.
Qed.

(** The decoder's implicit leading one is the constant 8: with another
    mantissa width than 3 it no longer inverts the encoder. *)
Lemma u32fpDecode_mantissa_width : u32fpDecode (u32fpEncode 16 4) 4 = 8.
Proof. reflexivity. Qed.

Lemma u32fp8_roundtrip_example :
  u32fp8Decode (u32fp8Encode 1000) <= 1000 /\ u32fp8Encode (u32fp8Decode 77) = 77.
Proof.
  split.
  - apply (proj1 u32fp8_roundtrip 1000). lia.
  - apply (proj2 u32fp8_roundtrip 77). lia.
Defined.

(** ** The hash *)

Lemma lxor_bound64 a b : 0 <= a < 2 ^ 64 -> 0 <= b < 2 ^ 64 -> 0 <= Z.lxor a b < 2 ^ 64.
Proof.
  intros Ha Hb. split; [apply Z.lxor_nonneg; lia|].
  destruct (Z.eq_dec (Z.lxor a b) 0) as [->|]; [lia|].
  assert (0 <= Z.lxor a b) by (apply Z.lxor_nonneg; lia).
  apply Z.log2_lt_pow2; [lia|]. eapply Z.le_lt_trans; [apply Z.log2_lxor; lia|].
  apply Z.max_lub_lt; [destruct (Z.eq_dec a 0) as [->|]; [done|]|destruct (Z.eq_dec b 0) as [->|]; [done|]];
    apply Z.log2_lt_pow2; lia.
Qed.

Lemma shiftr_bound64 a k : 0 <= k -> 0 <= a < 2 ^ 64 -> 0 <= Z.shiftr a k < 2 ^ 64.
Proof.
  intros Hk Ha. rewrite Z.shiftr_div_pow2 by done. split; [apply Z.div_pos; lia|].
  apply Z.div_lt_upper_bound; nia.
Qed.

(** Both kinds of mixing step are injective on 64-bit words. *)
Lemma xorshift_inj k x y :
  0 < k -> 0 <= x -> 0 <= y ->
  Z.lxor x (Z.shiftr x k) = Z.lxor y (Z.shiftr y k) -> x = y.
Proof.
  intros Hk Hx Hy E. apply Z.lxor_eq. set (z := Z.lxor x y).
  assert (0 <= z) by (apply Z.lxor_nonneg; lia).
  assert (z = Z.shiftr z k) as Ez.
  { unfold z. rewrite Z.shiftr_lxor. apply Z.lxor_eq.
    rewrite Z.lxor_assoc, <- (Z.lxor_assoc y), (Z.lxor_comm y (Z.shiftr x k)).
    rewrite Z.lxor_assoc, <- Z.lxor_assoc, E. apply Z.lxor_nilpotent. }
  rewrite Z.shiftr_div_pow2 in Ez by lia.
  pose proof (Z.mul_div_le z (2 ^ k) ltac:(lia)). rewrite <- Ez in *.
  pose proof (Z.pow_le_mono_r 2 1 k ltac:(lia) ltac:(lia)). nia.
Qed.

Lemma mul_odd_inj c x y :
  Z.gcd (2 ^ 64) c = 1 -> 0 <= x < 2 ^ 64 -> 0 <= y < 2 ^ 64 ->
  wrap64 (x * c) = wrap64 (y * c) -> x = y.
Proof.
  intros Hc Hx Hy E. unfold wrap64 in E.
  assert ((2 ^ 64 | c * (x - y))) as D.
  { apply Z.mod_divide; [lia|]. replace (c * (x - y)) with (x * c - y * c) by lia.
    rewrite Zminus_mod, E, Z.sub_diag. apply Z.mod_0_l. lia. }
  apply Z.gauss in D; [|done]. destruct D as [q Hq]. nia.
Qed.

Lemma add_inj64 c x y :
  0 <= x < 2 ^ 64 -> 0 <= y < 2 ^ 64 -> wrap64 (x + c) = wrap64 (y + c) -> x = y.
Proof.
  intros Hx Hy E. unfold wrap64 in E.
  assert ((x - y) mod 2 ^ 64 = 0) as D.
  { replace (x - y) with (x + c - (y + c)) by lia.
    rewrite Zminus_mod, E, Z.sub_diag. apply Z.mod_0_l. lia. }
  apply Z.mod_divide in D; [|lia]. destruct D as [q Hq]. nia.
Qed.

Lemma digestHash_inj a1 x y :
  0 <= x < 2 ^ 64 -> 0 <= y < 2 ^ 64 -> digestHash (x, a1) = digestHash (y, a1) -> x = y.
Proof.
  intros Hx Hy E. unfold digestHash in E. simpl in E.
  assert (forall z, 0 <= z < 2 ^ 64 -> 0 <= Z.lxor z (Z.shiftr z 31) < 2 ^ 64) as B31
    by (intros; apply lxor_bound64; [|apply shiftr_bound64]; lia).
  assert (forall z, 0 <= Z.lxor (wrap64 z) (Z.shiftr (wrap64 z) 32) < 2 ^ 64) as B32
    by (intros z; pose proof (wrap64_bound z); apply lxor_bound64; [|apply shiftr_bound64]; lia).
  apply mul_odd_inj in E; [|reflexivity|apply B32|apply B32].
  apply xorshift_inj in E; [|lia|apply wrap64_bound|apply wrap64_bound].
  apply add_inj64 in E; [|apply wrap64_bound|apply wrap64_bound].
  apply mul_odd_inj in E; [|reflexivity|by apply B31|by apply B31].
  apply xorshift_inj in E; [done|lia..].
Qed.

Definition is_byte (b : Z) : Prop := 0 <= b < 256.

Lemma le_bytes_bound bs : Forall is_byte bs -> 0 <= le_bytes bs < 2 ^ (8 * Z.of_nat (length bs)).
Proof.
  unfold is_byte. induction 1 as [|b bs Hb _ IH]; [simpl; lia|]. simpl le_bytes. simpl length.
  replace (8 * Z.of_nat (S (length bs))) with (8 + 8 * Z.of_nat (length bs)) by lia.
  rewrite Z.pow_add_r by lia. change (2 ^ 8) with 256 in *. lia.
Qed.

Lemma le_bytes_inj bs1 bs2 :
  length bs1 = length bs2 -> Forall is_byte bs1 -> Forall is_byte bs2 ->
  le_bytes bs1 = le_bytes bs2 -> bs1 = bs2.
Proof.
  revert bs2. induction bs1 as [|b1 bs1 IH]; intros [|b2 bs2] Hl H1 H2 E; simpl in *; try done.
  inversion_clear H1. inversion_clear H2. unfold is_byte in *. change (2 ^ 8) with 256 in *.
  assert (b1 = b2) as -> by lia. f_equal. apply IH; [lia|done|done|lia].
Qed.

(** On at most eight bytes the hash is one chunk. *)
Lemma eatHash_short (bs : list Z) :
  bs <> [] -> (length bs <= 8)%nat ->
  exists a0 a1, (forall bs' : list Z, length bs' = length bs -> bs' <> [] ->
     eatHash (1, 1) bs' = (wrap64 (le_bytes bs' + a0), a1)).
Proof.
  intros Hne Hl. destruct (eatMix (Z.lxor 1 (Z.of_nat (length bs)), 1)) as [a0 a1] eqn:E.
  exists a0, a1. intros bs' Hl' Hne'. unfold eatHash. simpl fst. simpl snd. rewrite Hl'.
  destruct bs as [|b bs]; [done|]. destruct bs' as [|b' bs']; [done|].
  simpl length at 1. cbn [eatChunks]. rewrite E.
  rewrite take_ge, drop_ge by (rewrite Hl'; done).
  rewrite Z.add_comm. by destruct (length bs).
Qed.

(** The hash has no collisions between byte strings of one length up to 8:
    two such strings with the same hash are equal. *)
Lemma getHash_injective_short bs1 bs2 :
  length bs1 = length bs2 -> (length bs1 <= 8)%nat -> Forall is_byte bs1 -> Forall is_byte bs2 ->
  getHash bs1 = getHash bs2 -> bs1 = bs2.
Proof.
  intros Hl H8 H1 H2 E.
  assert ((bs1 = [] /\ bs2 = []) \/ (bs1 <> [] /\ bs2 <> [])) as [[-> ->]|[Hne1 Hne2]]; [|reflexivity|].
  { clear E. destruct bs1, bs2; [by left|discriminate|discriminate|by right]. }
  destruct (eatHash_short bs1 Hne1 H8) as (a0 & a1 & K). unfold getHash in E.
  rewrite (K bs1), (K bs2) in E by congruence. apply digestHash_inj in E; [|apply wrap64_bound..].
  assert (forall bs, length bs = length bs1 -> Forall is_byte bs -> 0 <= le_bytes bs < 2 ^ 64) as B.
  { intros bs Hbs Hb. pose proof (le_bytes_bound bs Hb).
    pose proof (Z.pow_le_mono_r 2 (8 * Z.of_nat (length bs)) 64). lia. }
  apply add_inj64 in E; [|by apply B..]. by apply le_bytes_inj.
Qed.

Lemma getHash_example :
  getHash [1; 2; 3] = getHash [1; 2; 3] /\ [1; 2; 3] = [1; 2; 3].
Proof.
  split; [reflexivity|]. apply (getHash_injective_short [1; 2; 3] [1; 2; 3]); try reflexivity.
  - simpl. lia.
  - unfold is_byte. repeat constructor; lia.
  - unfold is_byte. repeat constructor; lia.
Defined.
