(* ===== verification/Bits.v ===== *)
(** * Sets of bits

    A mask as the list of its set bits, and the counting and popping operations
    of src/src/include/bitops.h in terms of that list. *)

From stdpp Require Import base numbers list.
From Stdlib Require Import ZArith Lia.
From S2P Require Import Prelude Bitops.

Local Open Scope Z_scope.

(** The positions below [w] of the bits that are set, in ascending order. *)
Definition bitsBelow (w : nat) (m : Z) : list nat := List.filter (fun i => Z.testbit m (Z.of_nat i)) (seq 0 w).

Lemma bitsBelow_S w m :
  bitsBelow (S w) m = (if Z.testbit m 0 then [0%nat] else []) ++ map S (bitsBelow w (Z.div2 m)).
Proof.
  unfold bitsBelow. cbn [seq List.filter]. rewrite <- seq_shift.
  assert (List.filter (fun i => Z.testbit m (Z.of_nat i)) (map S (seq 0 w)) =
          map S (List.filter (fun i => Z.testbit (Z.div2 m) (Z.of_nat i)) (seq 0 w))) as ->.
  { induction (seq 0 w) as [|x l IH]; [done|]. cbn [map List.filter].
    rewrite Z.div2_spec, Z.shiftr_spec, IH by lia. replace (Z.of_nat x + 1) with (Z.of_nat (S x)) by lia.
    by destruct (Z.testbit m (Z.of_nat (S x))). }
  change (Z.of_nat 0) with 0. by destruct (Z.testbit m 0).
Qed.

Lemma bitsBelow_ext w m m' :
  (forall i, 0 <= i < Z.of_nat w -> Z.testbit m i = Z.testbit m' i) -> bitsBelow w m = bitsBelow w m'.
Proof. intros H. apply filter_ext_in. intros i Hi%in_seq. apply H. lia. Qed.

Lemma bitsBelow_elem w m i : In i (bitsBelow w m) <-> (i < w)%nat /\ Z.testbit m (Z.of_nat i) = true.
Proof. unfold bitsBelow. rewrite filter_In, in_seq. intuition lia. Qed.

(** The positions below, at and above [i]. *)
Lemma bitsBelow_split w m i :
  (i < w)%nat ->
  bitsBelow w m = bitsBelow i m ++ (if Z.testbit m (Z.of_nat i) then [i] else []) ++
    List.filter (fun j => Z.testbit m (Z.of_nat j)) (seq (S i) (w - S i)).
Proof.
  intros Hi. unfold bitsBelow. replace w with (i + (1 + (w - S i)))%nat at 1 by lia.
  rewrite !seq_app, !List.filter_app. simpl. rewrite (Nat.add_1_r i). by destruct (Z.testbit m (Z.of_nat i)).
Qed.

Lemma bitsBelow_none w m : (forall i, (i < w)%nat -> Z.testbit m (Z.of_nat i) = false) -> bitsBelow w m = [].
Proof.
  intros H. destruct (bitsBelow w m) as [|i l] eqn:E; [done|].
  assert (In i (bitsBelow w m)) as [Hi Ht]%bitsBelow_elem by (rewrite E; by left). by rewrite H in Ht.
Qed.

Definition popcount (x : Z) : Z := match x with Zpos p => pos_popcount p | _ => 0 end.

Lemma popcount_double x (b : bool) : 0 <= x -> popcount (2 * x + Z.b2z b) = Z.b2z b + popcount x.
Proof. intros H. destruct x as [|p|p], b; done. Qed.

Lemma popcount_bits w x : 0 <= x < 2 ^ Z.of_nat w -> popcount x = Z.of_nat (length (bitsBelow w x)).
Proof.
  revert x. induction w as [|w IH]; intros x Hx.
  - by replace x with 0 by (simpl in Hx; lia).
  - rewrite bitsBelow_S, length_app, length_map. rewrite (Z.div2_odd x) at 1.
    rewrite <- Z.bit0_odd, popcount_double by (apply Z.div2_nonneg; lia).
    rewrite (IH (Z.div2 x)); [destruct (Z.testbit x 0); simpl; lia|].
    rewrite Nat2Z.inj_succ, Z.pow_succ_r in Hx by lia. rewrite Z.div2_div.
    split; [apply Z.div_pos; lia|apply Z.div_lt_upper_bound; lia].
Qed.

(** [countOneBits] counts the set bits. *)
Lemma countOneBits_bits ty x :
  0 <= cwidth ty -> countOneBits ty x = Z.of_nat (length (bitsBelow (Z.to_nat (cwidth ty)) x)).
Proof.
  intros Hw. unfold countOneBits. fold (popcount (x mod 2 ^ cwidth ty)).
  rewrite (popcount_bits (Z.to_nat (cwidth ty))).
  - do 2 f_equal. apply bitsBelow_ext. intros i Hi. apply Z.mod_pow2_bits_low. lia.
  - rewrite Z2Nat.id by done. apply Z.mod_pos_bound, Z.pow_pos_nonneg; lia.
Qed.

Lemma pos_ffs_spec p : exists i k, pos_ffs p = i + 1 /\ 0 <= i /\ 0 <= k /\ Zpos p = 2 ^ i * (2 * k + 1).
Proof.
  induction p as [p _|p IH|].
  - exists 0, (Zpos p). simpl. lia.
  - destruct IH as (i & k & E1 & Hi & Hk & E2). exists (i + 1), k. split_and!; [simpl; lia|lia|done|].
    rewrite Z.pow_add_r, Pos2Z.inj_xO, E2 by lia. ring.
  - exists 0, 0. simpl. lia.
Qed.

(** [popFirstOneBit] returns the lowest set bit and clears it. *)
Lemma popFirstOneBit_spec m :
  0 < m < 2 ^ 64 ->
  exists i m', popFirstOneBit u64 m = (i, m') /\ 0 <= i < 64 /\ Z.testbit m i = true /\
    (forall j, 0 <= j < i -> Z.testbit m j = false) /\ 0 <= m' < m /\
    forall j, 0 <= j -> Z.testbit m' j = Z.testbit m j && negb (j =? i).
Proof.
  intros Hm. destruct m as [|p|]; [lia| |lia]. destruct (pos_ffs_spec p) as (i & k & E1 & Hi & Hk & E2).
  assert (0 < 2 ^ i) as Hp by (apply Z.pow_pos_nonneg; lia).
  assert (i < 64) as Hi64 by (apply (Z.pow_lt_mono_r_iff 2); nia).
  assert (forall j, 0 <= j -> Z.testbit (Zpos p) j = if j <? i then false else Z.testbit (2 * k + 1) (j - i)) as Hb.
  { intros j Hj. rewrite E2, Z.mul_comm, Z.mul_pow2_bits by lia.
    destruct (Z.ltb_spec j i); [by apply Z.testbit_neg_r; lia|done]. }
  assert (forall j, 0 <= j -> Z.testbit (Zpos p - 1) j = if j <? i then true else Z.testbit (2 * k) (j - i)) as Hb1.
  { intros j Hj. destruct (Z.ltb_spec j i) as [Hlt|Hge].
    - rewrite <- (Z.mod_pow2_bits_low _ i) by lia.
      replace ((Zpos p - 1) mod 2 ^ i) with (Z.ones i); [by rewrite Z.ones_spec_low by lia|].
      rewrite Z.ones_equiv. apply (Z.mod_unique_pos _ _ (2 * k)); lia.
    - replace j with (j - i + i) at 1 by lia. rewrite <- Z.div_pow2_bits by lia. f_equal.
      symmetry. apply (Z.div_unique_pos _ _ _ (2 ^ i - 1)); lia. }
  assert (forall j, 0 <= j -> Z.testbit (Z.land (Zpos p) (Zpos p - 1)) j = Z.testbit (Zpos p) j && negb (j =? i)) as Hl.
  { intros j Hj. rewrite Z.land_spec, Hb, Hb1 by done. destruct (Z.ltb_spec j i); [done|].
    destruct (Z.eqb_spec j i) as [->|Hne].
    - by rewrite Z.sub_diag, Z.testbit_even_0, !andb_false_r.
    - rewrite andb_true_r. replace (j - i) with (Z.succ (j - i - 1)) by lia.
      by rewrite Z.testbit_odd_succ, Z.testbit_even_succ, andb_diag by lia. }
  exists i, (Z.land (Zpos p) (Zpos p - 1)). split_and!; try lia; try done.
  - unfold popFirstOneBit, firstOneBit, ffs. rewrite E1, cwrap_fits; [f_equal; lia|done|].
    fits_lia.
  - rewrite Hb by lia. rewrite Z.ltb_irrefl, Z.sub_diag. by rewrite Z.testbit_odd_0.
  - intros j Hj. rewrite Hb by lia. by rewrite (proj2 (Z.ltb_lt _ _)) by lia.
  - apply Z.land_nonneg. lia.
  - enough (Z.land (Zpos p) (Zpos p - 1) = 2 ^ i * (2 * k)) by lia. apply Z.bits_inj'. intros j Hj.
    rewrite Z.land_spec, Hb, Hb1, (Z.mul_comm (2 ^ i)), Z.mul_pow2_bits by lia.
    destruct (Z.ltb_spec j i); [by rewrite Z.testbit_neg_r by lia|].
    destruct (Z.eq_dec j i) as [->|]; [by rewrite Z.sub_diag, Z.testbit_even_0, andb_false_r|].
    replace (j - i) with (Z.succ (j - i - 1)) by lia. by rewrite Z.testbit_odd_succ, Z.testbit_even_succ, andb_diag by lia.
Qed.

(** Popping the bits one by one gives them in ascending order. *)
Lemma bitsBelow_pop m i m' :
  0 < m < 2 ^ 64 -> popFirstOneBit u64 m = (i, m') ->
  0 <= i < 64 /\ 0 <= m' < 2 ^ 64 /\ bitsBelow 64 m = Z.to_nat i :: bitsBelow 64 m'.
Proof.
  intros Hm E. destruct (popFirstOneBit_spec m Hm) as (i0 & m0 & E' & Hi & Hb & Hlow & Hm' & Hbits).
  rewrite E' in E. injection E as <- <-. split_and!; try lia.
  rewrite (bitsBelow_split 64 m (Z.to_nat i0)), (bitsBelow_split 64 m0 (Z.to_nat i0)) by lia.
  rewrite Z2Nat.id, Hb, Hbits, Hb, Z.eqb_refl by lia. simpl.
  rewrite !bitsBelow_none; [simpl; f_equal| |].
  - apply filter_ext_in. intros j Hj%in_seq. rewrite Hbits by lia. rewrite (proj2 (Z.eqb_neq _ _)) by lia. by rewrite andb_true_r.
  - intros j Hj. rewrite Hbits, Hlow by lia. done.
  - intros j Hj. apply Hlow. lia.
Qed.

Lemma lor_lt a b k : 0 <= k -> 0 <= a < 2 ^ k -> 0 <= b < 2 ^ k -> 0 <= Z.lor a b < 2 ^ k.
Proof.
  intros Hk Ha Hb. rewrite <- (Z.mod_small a (2 ^ k)), <- (Z.mod_small b (2 ^ k)) by done.
  rewrite <- !Z.land_ones, <- Z.land_lor_distr_l, Z.land_ones by done. apply Z.mod_pos_bound, Z.pow_pos_nonneg; lia.
Qed.
