(* ===== verification/Space.v ===== *)
(** * ncclSpace: an allocator of integer ranges (src/src/allocator.cc)

    The space cuts the line of non-negative integers into segments that
    alternate between full and empty; the segment after the last cut is empty.
    The model keeps the array of cuts as the code does and the operations
    update it in place; what they mean is stated on the set of integers the
    cuts make full. *)

From stdpp Require Import base numbers list sorting.
From Stdlib Require Import ZArith Lia.
From S2P Require Import Prelude Bitops.

Local Open Scope Z_scope.

(** [cuts] holds the [count] first cells of the array; [capacity] its size. *)
(* src/src/include/allocator.h:20-24 ncclSpace *)
Record ncclSpace := NcclSpace { capacity : Z; cuts : list Z }.

Definition count (a : ncclSpace) : nat := length (cuts a).

(** [a->cuts[i]], for an index the code has checked. *)
Definition cut (a : ncclSpace) (i : nat) : Z := nth i (cuts a) 0.

(* src/src/allocator.cc:153-155 ncclSpaceConstruct *)
Definition ncclSpaceConstruct : ncclSpace := {| capacity := 0; cuts := [] |}.

(** The filter loop of [insertSegment]: [r] and [w] are its cursors into the
    array [arr], [n] the number of cells left to read. *)
Fixpoint filterCuts (n r w : nat) (prev : Z) (arr : list Z) : list Z :=
  match n with
  | O => take w arr
  | S n =>
      let cur := nth r arr 0 in
      let arr := <[w := cur]> arr in
      let w := S w in
      if prev =? cur
      then filterCuts n (S r) (w - (if (w =? 1)%nat then 1 else 2)) 0 arr
      else filterCuts n (S r) w cur arr
  end.

(* src/src/allocator.cc:161-206 insertSegment *)
Definition insertSegment (a : ncclSpace) (index : nat) (lo hi : Z) : ncclSpace :=
  let capacity :=
    if capacity a <? Z.of_nat (count a) + 2
    then let c := capacity a * 2 in if c =? 0 then 16 else c
    else capacity a in
  let arr := take index (cuts a) ++ lo :: hi :: drop index (cuts a) in
  let prev := if (index =? 0)%nat then 0 else nth (index - 1) arr 0 in
  {| capacity := capacity;
     cuts := filterCuts (length arr - index) index index prev arr |}.

(** The loop of [ncclSpaceTryAlloc] over the empty segments; [i] is the index
    of the cut that ends the segment.  The third component is [*outOffset],
    which the code writes on success only. *)
Fixpoint tryAllocFrom (fuel i : nat) (a : ncclSpace) (limit size align : Z) :
    ncclResult_t * ncclSpace * Z :=
  match fuel with
  | O => (ncclInternalError, a, 0)
  | S fuel =>
      if (i <=? count a)%nat then
        let lo := wrap64 (if (i =? 0)%nat then 0 else cut a (i - 1)) in
        let hi := wrap64 (if (i =? count a)%nat then limit else cut a i) in
        let off := alignUp u64 lo align in
        if wrap64 (off + wrap64 size) <=? hi then
          if (i =? 0)%nat || (wrap64 (off + wrap64 size) =? hi)
          then (ncclSuccess, insertSegment a i (cwrap i64 off) (cwrap i64 (off + size)), cwrap i64 off)
          else (ncclSuccess,
                {| capacity := capacity a; cuts := <[(i - 1)%nat := cwrap i64 (off + size)]> (cuts a) |},
                cwrap i64 off)
        else tryAllocFrom fuel (i + 2) a limit size align
      else (ncclInternalError, a, 0)
  end.

(* src/src/allocator.cc:208-231 ncclSpaceTryAlloc *)
Definition ncclSpaceTryAlloc (a : ncclSpace) (limit size align : Z) : ncclResult_t * ncclSpace * Z :=
  tryAllocFrom (S (count a)) (count a mod 2) a limit size align.

(** The result of the allocation, and a warning when there is none. *)
(* src/src/allocator.cc:233-239 ncclSpaceAlloc *)
Definition ncclSpaceAlloc (a : ncclSpace) (limit size align : Z) : ncclResult_t * ncclSpace * Z :=
  ncclSpaceTryAlloc a limit size align.

(** [while (a->cuts[i] <= offset) i += 2]. *)
Fixpoint findFull (fuel i : nat) (a : ncclSpace) (offset : Z) : nat :=
  match fuel with
  | O => i
  | S fuel => if cut a i <=? offset then findFull fuel (i + 2) a offset else i
  end.

(* src/src/allocator.cc:241-269 ncclSpaceFree *)
Definition ncclSpaceFree (a : ncclSpace) (offset size : Z) : ncclResult_t * ncclSpace :=
  if (count a =? 0)%nat || (cut a (count a - 1) <=? offset) then (ncclInternalError, a) else
  let i := findFull (count a) (1 - count a mod 2) a offset in
  let lo := if (i =? 0)%nat then 0 else cut a (i - 1) in
  let hi := cut a i in
  if (offset <? lo) || (hi <? cwrap i64 (offset + size)) then (ncclInternalError, a) else
  if negb (i =? 0)%nat && (lo =? offset) && negb (cwrap i64 (offset + size) =? hi) then
    (ncclSuccess,
     {| capacity := capacity a; cuts := <[(i - 1)%nat := cwrap i64 (offset + size)]> (cuts a) |})
  else if negb (lo =? offset) && (cwrap i64 (offset + size) =? hi) then
    (ncclSuccess, {| capacity := capacity a; cuts := <[i := offset]> (cuts a) |})
  else (ncclSuccess, insertSegment a i offset (cwrap i64 (offset + size))).

(** ** The set of full integers

    [full cs x]: an odd number of cuts lies above [x]. *)

Fixpoint full (cs : list Z) (x : Z) : bool :=
  match cs with
  | [] => false
  | c :: cs => xorb (x <? c) (full cs x)
  end.

(** [within lo hi x]: [x] is in the half-open range. *)
Definition within (lo hi x : Z) : bool := (lo <=? x) && (x <? hi).

(** The representation invariant: the cuts are positive and strictly ascending. *)
Fixpoint ascending (b : Z) (cs : list Z) : Prop :=
  match cs with
  | [] => True
  | c :: cs => b < c /\ ascending c cs
  end.

Definition space_ok (a : ncclSpace) : Prop := ascending 0 (cuts a).

Lemma full_app cs1 cs2 x : full (cs1 ++ cs2) x = xorb (full cs1 x) (full cs2 x).
Proof. induction cs1 as [|c cs1 IH]; simpl; [by destruct (full cs2 x)|]. by rewrite IH, xorb_assoc. Qed.

Lemma full_pair c x : full [c; c] x = false.
Proof. simpl. by destruct (x <? c). Qed.

Lemma full_segment lo hi x : lo <= hi -> full [lo; hi] x = within lo hi x.
Proof. intros. unfold within. simpl. repeat zcase1; simpl; (done || lia). Qed.

Lemma ascending_weaken b b' cs : b' <= b -> ascending b cs -> ascending b' cs.
Proof. destruct cs; simpl; [done|]. intros ? [? ?]. split; [lia|done]. Qed.

Lemma ascending_app b cs1 cs2 :
  ascending b (cs1 ++ cs2) <-> ascending b cs1 /\ ascending (List.last cs1 b) cs2.
Proof.
  revert b. induction cs1 as [|c cs1 IH]; intros b; [simpl; tauto|].
  simpl app. cbn [ascending]. rewrite IH.
  assert (List.last (c :: cs1) b = List.last cs1 c) as ->.
  { clear. revert c. induction cs1 as [|d l IHl]; intros c; [done|]. destruct l; [done|]. apply IHl. }
  tauto.
Qed.

Lemma ascending_ge b cs c : ascending b cs -> c ∈ cs -> b < c.
Proof.
  revert b. induction cs as [|d cs IH]; intros b H Hc; [by apply not_elem_of_nil in Hc|].
  destruct H as [H1 H2]. apply elem_of_cons in Hc as [->|Hc]; [done|]. pose proof (IH _ H2 Hc). lia.
Qed.

Lemma last_ascending b cs : ascending b cs -> b <= List.last cs b.
Proof.
  revert b. induction cs as [|c cs IH]; intros b; [simpl; lia|]. intros [H1 H2].
  destruct cs as [|d cs]; [simpl; lia|]. specialize (IH c H2).
  change (List.last (c :: d :: cs) b) with (List.last (d :: cs) b).
  assert (forall x y, List.last (d :: cs) x = List.last (d :: cs) y) as E.
  { clear. revert d. induction cs as [|e cs IH]; intros d x y; [done|]. apply (IH e x y). }
  rewrite (E b c). lia.
Qed.

(** ** The filter loop

    [filterStack] is the loop with the cells below the write cursor as a list:
    the in-place writes never touch a cell that is still to be read. *)

Fixpoint filterStack (rest : list Z) (prev : Z) (out : list Z) : list Z :=
  match rest with
  | [] => out
  | cur :: rest =>
      let out := out ++ [cur] in
      if prev =? cur
      then filterStack rest 0 (take (length out - (if (length out =? 1)%nat then 1 else 2)) out)
      else filterStack rest cur out
  end.

Lemma filterCuts_stack n r w prev arr :
  (w <= r)%nat -> (r + n = length arr)%nat ->
  filterCuts n r w prev arr = filterStack (drop r arr) prev (take w arr).
Proof.
  revert r w prev arr. induction n as [|n IH]; intros r w prev arr Hw Hn.
  - simpl. rewrite drop_ge by lia. done.
  - destruct (lookup_lt_is_Some_2 arr r ltac:(lia)) as [c Hc].
    cbn [filterCuts]. rewrite (nth_lookup arr r 0), Hc. simpl default.
    rewrite (drop_S arr c r) by done. cbn [filterStack].
    assert (drop (S r) (<[w:=c]> arr) = drop (S r) arr) as Ed by (apply drop_insert_lt; lia).
    assert (take (S w) (<[w:=c]> arr) = take w arr ++ [c]) as Et.
    { erewrite take_S_r; [rewrite take_insert_ge by lia; done|].
      apply list_lookup_insert_eq. lia. }
    assert (length (take w arr ++ [c]) = S w) as El by (rewrite length_app, length_take; simpl; lia).
    rewrite El. destruct (prev =? c).
    + rewrite IH by (rewrite ?length_insert; lia). rewrite Ed. f_equal.
      rewrite <- Et, take_take. f_equal. destruct (S w =? 1)%nat; lia.
    + rewrite IH by (rewrite ?length_insert; lia). by rewrite Ed, Et.
Qed.

(** The list [rest] is non-negative and ascending, equal neighbours allowed. *)
Fixpoint sorted_from (b : Z) (cs : list Z) : Prop :=
  match cs with
  | [] => True
  | c :: cs => b <= c /\ sorted_from c cs
  end.

(** What the loop keeps: the output is strictly ascending, below what is still
    to come, and ends in [prev] unless a pair was just dropped. *)
Definition stack_inv (rest : list Z) (prev : Z) (out : list Z) : Prop :=
  ascending 0 out /\ sorted_from 0 rest /\
  ((prev = 0 /\ (out = [] \/ match rest with [] => True | c :: _ => List.last out 0 < c end)) \/
   (prev <> 0 /\ exists out', out = out' ++ [prev] /\ sorted_from prev rest)).

Lemma sorted_from_weaken b b' cs : b' <= b -> sorted_from b cs -> sorted_from b' cs.
Proof. destruct cs; simpl; [done|]. intros ? [? ?]. split; [lia|done]. Qed.

Lemma filterStack_correct rest prev out :
  stack_inv rest prev out ->
  ascending 0 (filterStack rest prev out) /\
  forall x, 0 <= x -> full (filterStack rest prev out) x = full (out ++ rest) x.
Proof.
  revert prev out. induction rest as [|cur rest IH]; intros prev out (Ho & Hr & Hp).
  - simpl. split; [done|]. intros x _. by rewrite app_nil_r.
  - cbn [filterStack]. destruct Hr as [Hc Hr].
    destruct (Z.eqb_spec prev cur) as [<-|Hne].
    + destruct Hp as [[-> Hp]|[Hp (out' & -> & Hs)]].
      * assert (out = []) as ->.
        { destruct Hp as [?|Hp]; [done|]. pose proof (last_ascending _ _ Ho). lia. }
        simpl. destruct (IH 0 []) as [I1 I2].
        { split_and!; [done|done|left; auto]. }
        split; [done|]. intros x Hx. rewrite I2 by done. simpl. zcase1; (done || lia).
      * assert (take (length ((out' ++ [prev]) ++ [prev])
                   - (if (length ((out' ++ [prev]) ++ [prev]) =? 1)%nat then 1 else 2))
                 ((out' ++ [prev]) ++ [prev]) = out') as ->.
        { rewrite !length_app. simpl length.
          destruct (Nat.eqb_spec (length out' + 1 + 1) 1) as [|]; [lia|].
          rewrite <- app_assoc. apply take_app_length'. lia. }
        apply ascending_app in Ho as [Ho1 [Ho2 _]].
        destruct (IH 0 out') as [I1 I2].
        { split_and!; [done|by apply (sorted_from_weaken prev); [lia|]|]. left. split; [done|]. right.
          destruct rest as [|d rest]; [done|]. destruct Hr as [Hd _]. lia. }
        split; [done|]. intros x Hx. rewrite I2 by done.
        rewrite !full_app. cbn [full]. destruct (x <? prev), (full out' x), (full rest x); done.
    + destruct (IH cur (out ++ [cur])) as [I1 I2].
      { assert (0 < cur /\ List.last out 0 < cur \/ cur = 0 /\ out = [] /\ prev = 0) as K.
        { destruct Hp as [[-> Hp]|[Hp (out' & -> & [Hs _])]].
          - left. destruct Hp as [->|Hp]; [simpl; lia|]. pose proof (last_ascending _ _ Ho). lia.
          - left. rewrite last_last. apply ascending_app in Ho as [Ho1 [Ho2 _]].
            pose proof (last_ascending _ _ Ho1). lia. }
        destruct K as [[K1 K2]|(-> & _ & ->)]; [|done].
        split_and!; [|by apply (sorted_from_weaken cur); [lia|]|].
        - apply ascending_app. split; [done|]. simpl. done.
        - right. split; [lia|]. exists out. done. }
      split; [done|]. intros x Hx. rewrite I2 by done. by rewrite <- app_assoc.
Qed.

(** ** Segments *)

(** The bounds of the segment that ends at cut [i]. *)
Definition seg_lo (cs : list Z) (i : nat) : Z := List.last (take i cs) 0.
Definition seg_hi (cs : list Z) (limit : Z) (i : nat) : Z :=
  if (i =? length cs)%nat then limit else nth i cs 0.

Lemma seg_lo_eq cs i :
  (i <= length cs)%nat -> (if (i =? 0)%nat then 0 else nth (i - 1) cs 0) = seg_lo cs i.
Proof.
  intros Hi. unfold seg_lo. destruct i as [|i]; [done|]. simpl Nat.eqb. cbv iota.
  destruct (lookup_lt_is_Some_2 cs i ltac:(lia)) as [c Hc].
  rewrite (take_S_r cs i c Hc), last_last, nth_lookup. simpl. by rewrite Nat.sub_0_r, Hc.
Qed.

Lemma split_at_cut b cs i :
  ascending b cs -> ascending b (take i cs) /\ ascending (List.last (take i cs) b) (drop i cs).
Proof. intros H. rewrite <- (take_drop i cs) in H. by apply ascending_app. Qed.

Lemma ascending_le_last b cs x : ascending b cs -> List.last cs b <= x -> full cs x = false.
Proof.
  revert b. induction cs as [|c cs IH]; intros b H Hx; [done|]. destruct H as [H1 H2].
  assert (List.last (c :: cs) b = List.last cs c) as E.
  { clear. revert c. induction cs as [|d l IHl]; intros c; [done|]. destruct l; [done|]. apply IHl. }
  rewrite E in Hx. pose proof (last_ascending _ _ H2). cbn [full]. rewrite (IH c) by done.
  zcase1; (done || lia).
Qed.

Lemma ascending_above b cs x : ascending b cs -> x <= b -> full cs x = Nat.odd (length cs).
Proof.
  revert b. induction cs as [|c cs IH]; intros b H Hx; [done|]. destruct H as [H1 H2].
  cbn [full length]. rewrite (IH c), Nat.odd_succ, <- Nat.negb_odd by (done || lia).
  zcase1; [|lia]. by destruct (Nat.odd (length cs)).
Qed.

(** Every integer of a segment is full or empty by the parity of the cuts
    from its end on. *)
Lemma full_in_segment cs i x :
  ascending 0 cs -> (i <= length cs)%nat -> seg_lo cs i <= x ->
  (forall c, cs !! i = Some c -> x < c) -> full cs x = Nat.odd (length cs - i).
Proof.
  intros H Hi Hlo Hhi. destruct (split_at_cut 0 cs i H) as [H1 H2].
  rewrite <- (take_drop i cs) at 1. rewrite full_app, (ascending_le_last 0) by done.
  rewrite xorb_false_l. destruct (drop i cs) as [|c cs'] eqn:E.
  - apply (f_equal length) in E. rewrite length_drop in E. simpl in E. by rewrite E.
  - assert (cs !! i = Some c) as Hc by (rewrite <- (Nat.add_0_r i), <- lookup_drop, E; done).
    specialize (Hhi c Hc). destruct H2 as [H2 H3]. cbn [full]. rewrite (ascending_above c) by (done || lia).
    assert (length cs - i = S (length cs'))%nat as ->.
    { apply (f_equal length) in E. rewrite length_drop in E. done. }
    rewrite Nat.odd_succ, <- Nat.negb_odd. zcase1; [|lia]. by destruct (Nat.odd (length cs')).
Qed.

Lemma ascending_last_zero cs : ascending 0 cs -> List.last cs 0 = 0 -> cs = [].
Proof.
  intros H E. destruct cs as [|c cs _] using rev_ind; [done|].
  rewrite last_last in E. subst c. apply ascending_app in H as [H1 [H2 _]].
  pose proof (last_ascending _ _ H1). lia.
Qed.

Lemma insertSegment_spec a i lo hi :
  space_ok a -> (i <= count a)%nat -> seg_lo (cuts a) i <= lo <= hi ->
  (forall c, cuts a !! i = Some c -> hi <= c) ->
  space_ok (insertSegment a i lo hi) /\
  forall x, 0 <= x -> full (cuts (insertSegment a i lo hi)) x = xorb (full (cuts a) x) (within lo hi x).
Proof.
  intros Ha Hi Hlo Hhi. destruct (split_at_cut 0 (cuts a) i Ha) as [H1 H2].
  pose proof (last_ascending _ _ H1) as H0. fold (seg_lo (cuts a) i) in *.
  unfold space_ok, insertSegment, count in *. cbn [cuts].
  set (arr := take i (cuts a) ++ lo :: hi :: drop i (cuts a)).
  assert (length (take i (cuts a)) = i) as El by (rewrite length_take; lia).
  assert (drop i arr = lo :: hi :: drop i (cuts a)) as Ed by (apply drop_app_length'; done).
  assert (take i arr = take i (cuts a)) as Et by (apply take_app_length'; done).
  assert ((if (i =? 0)%nat then 0 else nth (i - 1) arr 0) = seg_lo (cuts a) i) as Ep.
  { rewrite seg_lo_eq by (unfold arr; rewrite length_app; lia). unfold seg_lo. by rewrite Et. }
  rewrite Ep, filterCuts_stack, Ed, Et by (unfold arr; rewrite ?length_app; simpl; lia).
  destruct (filterStack_correct (lo :: hi :: drop i (cuts a)) (seg_lo (cuts a) i) (take i (cuts a)))
    as [R1 R2].
  { assert (sorted_from hi (drop i (cuts a))) as Hs.
    { destruct (drop i (cuts a)) as [|c cs'] eqn:E; [done|].
      assert (cuts a !! i = Some c) as Hc by (rewrite <- (Nat.add_0_r i), <- lookup_drop, E; done).
      split; [by apply Hhi|]. destruct H2 as [_ H2]. clear - H2. revert c H2.
      induction cs' as [|d cs' IH]; intros c H2; [done|]. destruct H2. split; [lia|auto]. }
    split_and!; [done|simpl; split_and!; (lia || done)|].
    destruct (Z.eq_dec (seg_lo (cuts a) i) 0) as [E0|E0].
    - left. split; [done|]. left. by apply ascending_last_zero.
    - right. split; [done|]. destruct (exists_last (l := take i (cuts a))) as (l & c & E).
      { intros E. unfold seg_lo in E0. by rewrite E in E0. }
      exists l. unfold seg_lo in *. rewrite E, last_last in *. split; [done|]. simpl; split_and!; (lia || done). }
  split; [done|]. intros x Hx. rewrite R2 by done.
  change (lo :: hi :: drop i (cuts a)) with ([lo; hi] ++ drop i (cuts a)).
  rewrite !full_app, full_segment by lia.
  rewrite <- (take_drop i (cuts a)) at 3. rewrite full_app.
  destruct (full (take i (cuts a)) x), (within lo hi x), (full (drop i (cuts a)) x); done.
Qed.

(** ** Moving one cut *)

Lemma last_cons (c : Z) cs b : List.last (c :: cs) b = List.last cs c.
Proof. revert c. induction cs as [|d l IH]; intros c; [done|]. destruct l; [done|]. apply IH. Qed.

Lemma ascending_insert b cs k c' :
  ascending b cs -> (k < length cs)%nat -> List.last (take k cs) b < c' ->
  (forall d, cs !! S k = Some d -> c' < d) -> ascending b (<[k := c']> cs).
Proof.
  revert b k. induction cs as [|c cs IH]; intros b [|k] H Hk Hl Hr; simpl in Hk; try lia.
  - destruct H as [H1 H2]. split; [exact Hl|]. destruct cs as [|d cs]; [done|].
    destruct H2 as [H2 H3]. split; [by apply Hr|done].
  - destruct H as [H1 H2]. split; [done|]. apply IH; [done|lia| |done].
    by rewrite <- last_cons with (b := b).
Qed.

Lemma full_insert cs k c c' x :
  cs !! k = Some c -> full (<[k := c']> cs) x = xorb (full cs x) (xorb (x <? c) (x <? c')).
Proof.
  revert k. induction cs as [|d cs IH]; intros [|k] H; simplify_eq/=.
  - by destruct (x <? c), (x <? c'), (full cs x).
  - rewrite (IH k H). by destruct (x <? d), (full cs x), (x <? c), (x <? c').
Qed.

Lemma full_insert_within cs k c c' x :
  cs !! k = Some c -> full (<[k := c']> cs) x = xorb (full cs x) (within (Z.min c c') (Z.max c c') x).
Proof.
  intros H. rewrite (full_insert cs k c c' x H). f_equal. unfold within.
  destruct (Z.ltb_spec x c), (Z.ltb_spec x c'), (Z.leb_spec (Z.min c c') x), (Z.ltb_spec x (Z.max c c'));
    (done || lia).
Qed.

Lemma seg_lo_nonneg cs i : ascending 0 cs -> 0 <= seg_lo cs i.
Proof. intros H. apply (last_ascending 0), split_at_cut, H. Qed.

Lemma seg_lo_lt_cut cs i c : ascending 0 cs -> cs !! i = Some c -> seg_lo cs i < c.
Proof.
  intros H Hc. destruct (split_at_cut 0 cs i H) as [_ H2]. fold (seg_lo cs i) in H2.
  destruct (drop i cs) as [|d l] eqn:E.
  - rewrite <- (Nat.add_0_r i), <- lookup_drop, E in Hc. done.
  - rewrite <- (Nat.add_0_r i), <- lookup_drop, E in Hc. simplify_eq/=. tauto.
Qed.

Lemma seg_lo_S cs i c : cs !! i = Some c -> seg_lo cs (S i) = c.
Proof. intros H. unfold seg_lo. by rewrite (take_S_r cs i c H), last_last. Qed.

(** The last cut is the end of the full set. *)
Lemma bounded_full cs limit :
  ascending 0 cs -> 0 <= limit ->
  (List.last cs 0 <= limit <-> forall x, limit <= x -> full cs x = false).
Proof.
  intros H Hl. split.
  - intros Hb x Hx. apply (ascending_le_last 0); [done|lia].
  - intros Hf. destruct cs as [|c cs _] using rev_ind; [done|]. rewrite last_last.
    apply ascending_app in H as [H1 [H2 _]].
    destruct (Z.le_gt_cases c limit) as [?|Hgt]; [done|]. exfalso.
    specialize (Hf (c - 1) ltac:(lia)). rewrite full_app, (ascending_le_last 0) in Hf by (done || lia).
    cbn [full] in Hf. destruct (Z.ltb_spec (c - 1) c); [done|lia].
Qed.

Lemma cut_le_last cs i c : ascending 0 cs -> cs !! i = Some c -> c <= List.last cs 0.
Proof.
  intros H Hc. destruct (split_at_cut 0 cs (S i) H) as [_ H2].
  pose proof (last_ascending _ _ H2) as L. fold (seg_lo cs (S i)) in *. rewrite (seg_lo_S _ _ _ Hc) in L.
  rewrite <- (take_drop (S i) cs), (take_S_r cs i c Hc). destruct (drop (S i) cs) as [|d l].
  - rewrite app_nil_r, last_last. lia.
  - rewrite <- app_assoc. simpl app.
    assert (forall p (c : Z) l b, List.last (p ++ c :: l) b = List.last l c) as E.
    { clear. intros p. induction p as [|e p IH]; intros c l b; [apply last_cons|].
      simpl app. by rewrite last_cons, IH. }
    by rewrite E.
Qed.

(** ** Allocation *)

(** What the code relies on in its callers: a valid space within [limit], a
    power of two that fits an [int], and a line that fits 63 bits. *)
Definition request_ok (a : ncclSpace) (limit size align : Z) : Prop :=
  space_ok a /\ List.last (cuts a) 0 <= limit /\ 0 < size /\
  (exists k, 0 <= k < 31 /\ align = 2 ^ k) /\ 0 <= limit /\ limit + size + align < 2 ^ 63.

(** The range [off, off + size) can be granted. *)
Definition grantable (a : ncclSpace) (limit size align off : Z) : Prop :=
  0 <= off /\ (align | off) /\ off + size <= limit /\
  forall x, off <= x < off + size -> full (cuts a) x = false.

Definition fits_at (cs : list Z) (limit size align : Z) (i : nat) : bool :=
  roundUpTo align (seg_lo cs i) + size <=? seg_hi cs limit i.

(** The segment an integer lies in. *)
Lemma segment_of cs x :
  0 <= x -> exists j, (j <= length cs)%nat /\ seg_lo cs j <= x /\ forall c, cs !! j = Some c -> x < c.
Proof.
  intros Hx.
  assert (forall n, (n <= length cs)%nat ->
    (exists j, (j <= length cs)%nat /\ seg_lo cs j <= x /\ forall c, cs !! j = Some c -> x < c) \/
    seg_lo cs n <= x) as H.
  { induction n as [|n IH]; intros Hn; [by right|].
    destruct (IH ltac:(lia)) as [?|Hlo]; [by left|].
    destruct (lookup_lt_is_Some_2 cs n ltac:(lia)) as [c Hc].
    destruct (Z.lt_ge_cases x c) as [Hlt|Hge].
    - left. exists n. split_and!; [lia|done|]. intros c' Hc'. by simplify_eq.
    - right. by rewrite (seg_lo_S _ _ _ Hc). }
  destruct (H (length cs) ltac:(lia)) as [?|Hlo]; [done|].
  exists (length cs). split_and!; [lia|done|]. intros c Hc. apply lookup_lt_Some in Hc. lia.
Qed.

Lemma odd_false_index n j :
  (j <= n)%nat -> Nat.odd (n - j) = false -> exists d, j = (n mod 2 + 2 * d)%nat.
Proof.
  intros Hj Ho. assert (Nat.even (n - j) = true) as He by (by rewrite <- Nat.negb_odd, Ho).
  apply Nat.even_spec in He as [m Hm]. exists (j / 2)%nat.
  pose proof (Nat.div_mod_eq j 2). replace n with (j + m * 2)%nat by lia.
  rewrite Nat.Div0.mod_add. lia.
Qed.

Lemma odd_true_index n d : (n mod 2 + 2 * d <= n)%nat -> Nat.odd (n - (n mod 2 + 2 * d)) = false.
Proof.
  intros H. pose proof (Nat.div_mod_eq n 2).
  replace (n - (n mod 2 + 2 * d))%nat with (2 * (n / 2 - d))%nat by lia.
  rewrite <- Nat.negb_even, Nat.even_mul. done.
Qed.

Section alloc.
Context (a : ncclSpace) (limit size align : Z) (Hreq : request_ok a limit size align).

Lemma align_pos : 0 < align.
Proof. destruct Hreq as (_&_&_&(k&Hk&->)&_). apply Z.pow_pos_nonneg; lia. Qed.

Lemma seg_lo_bound i : 0 <= seg_lo (cuts a) i <= limit.
Proof.
  destruct Hreq as (Ha&Hl&_). split; [by apply seg_lo_nonneg|].
  unfold seg_lo. destruct (take i (cuts a)) as [|c l _] eqn:E using rev_ind.
  - destruct Hreq as (_&_&_&_&?&_). done.
  - rewrite last_last. etrans; [|exact Hl]. apply (cut_le_last _ (length l)); [done|].
    rewrite <- (take_drop i (cuts a)), E, <- app_assoc. by apply list_lookup_middle.
Qed.

Lemma seg_hi_bound i : (i <= count a)%nat -> 0 <= seg_hi (cuts a) limit i <= limit.
Proof.
  intros Hi. destruct Hreq as (Ha&Hl&_&_&Hlim&_). unfold seg_hi, count in *.
  destruct (Nat.eqb_spec i (length (cuts a))); [lia|].
  destruct (lookup_lt_is_Some_2 (cuts a) i ltac:(lia)) as [c Hc].
  rewrite nth_lookup, Hc. simpl. pose proof (seg_lo_lt_cut _ _ _ Ha Hc).
  pose proof (seg_lo_bound i). pose proof (cut_le_last _ _ _ Ha Hc). lia.
Qed.

Lemma off_bound i : seg_lo (cuts a) i <= roundUpTo align (seg_lo (cuts a) i) < seg_lo (cuts a) i + align.
Proof. destruct (roundUpTo_spec align (seg_lo (cuts a) i) align_pos). lia. Qed.

Lemma off_divide i : (align | roundUpTo align (seg_lo (cuts a) i)).
Proof. apply (roundUpTo_spec align (seg_lo (cuts a) i) align_pos). Qed.

Lemma alignUp_seg i : alignUp u64 (wrap64 (seg_lo (cuts a) i)) align = roundUpTo align (seg_lo (cuts a) i).
Proof.
  pose proof (seg_lo_bound i). destruct Hreq as (_&_&Hs&(k&Hk&->)&_&Hno).
  assert (0 < 2 ^ k) by (apply Z.pow_pos_nonneg; lia).
  rewrite wrap64_small by lia. apply alignUp_eq; [lia|simpl; lia|lia|].
  fits_lia.
Qed.

(** What the code does at an empty segment that is large enough. *)
Definition place (i : nat) : ncclSpace :=
  let off := roundUpTo align (seg_lo (cuts a) i) in
  if (i =? 0)%nat || (off + size =? seg_hi (cuts a) limit i)
  then insertSegment a i off (off + size)
  else {| capacity := capacity a; cuts := <[(i - 1)%nat := off + size]> (cuts a) |}.

Lemma tryAllocFrom_step fuel i :
  (i <= count a)%nat ->
  tryAllocFrom (S fuel) i a limit size align =
  if fits_at (cuts a) limit size align i
  then (ncclSuccess, place i, roundUpTo align (seg_lo (cuts a) i))
  else tryAllocFrom fuel (i + 2) a limit size align.
Proof.
  intros Hi. cbn [tryAllocFrom]. destruct (Nat.leb_spec i (count a)); [|lia].
  change (if (i =? 0)%nat then 0 else cut a (i - 1))
    with (if (i =? 0)%nat then 0 else nth (i - 1) (cuts a) 0).
  rewrite seg_lo_eq, alignUp_seg by done.
  change (if (i =? count a)%nat then limit else cut a i) with (seg_hi (cuts a) limit i).
  pose proof (seg_hi_bound i Hi). pose proof (seg_lo_bound i). pose proof (off_bound i).
  destruct Hreq as (_&_&Hs&_&_&Hno).
  unfold fits_at, place. set (off := roundUpTo align _) in *.
  rewrite (wrap64_small (seg_hi _ _ _)), (wrap64_small size), (wrap64_small (off + size)) by lia.
  assert (forall z, 0 <= z < 2 ^ 63 -> cwrap i64 z = z) as W.
  { intros z Hz. apply cwrap_fits; [done|]. fits_lia. }
  rewrite !W by lia. by destruct (_ || _).
Qed.

Lemma tryAllocFrom_spec fuel i :
  (count a < i + 2 * fuel)%nat ->
  (exists d, let j := (i + 2 * d)%nat in
     (j <= count a)%nat /\ fits_at (cuts a) limit size align j = true /\
     (forall d', (d' < d)%nat -> fits_at (cuts a) limit size align (i + 2 * d') = false) /\
     tryAllocFrom fuel i a limit size align =
       (ncclSuccess, place j, roundUpTo align (seg_lo (cuts a) j))) \/
  ((forall d, (i + 2 * d <= count a)%nat -> fits_at (cuts a) limit size align (i + 2 * d) = false) /\
   tryAllocFrom fuel i a limit size align = (ncclInternalError, a, 0)).
Proof.
  revert i. induction fuel as [|fuel IH]; intros i Hf.
  - right. split; [intros; lia|done].
  - destruct (Nat.leb_spec i (count a)) as [Hi|Hi].
    + rewrite (tryAllocFrom_step fuel i Hi). destruct (fits_at (cuts a) limit size align i) eqn:E.
      * left. exists 0%nat. rewrite Nat.mul_0_r, Nat.add_0_r. split_and!; (done || lia).
      * destruct (IH (i + 2)%nat ltac:(lia)) as [(d & H1 & H2 & H3 & H4)|[H1 H2]].
        -- left. exists (S d). replace (i + 2 * S d)%nat with (i + 2 + 2 * d)%nat by lia.
           split_and!; [done|done| |done]. intros [|d'] Hd'; [by rewrite Nat.mul_0_r, Nat.add_0_r|].
           replace (i + 2 * S d')%nat with (i + 2 + 2 * d')%nat by lia. apply H3. lia.
        -- right. split; [|done]. intros [|d] Hd; [by rewrite Nat.mul_0_r, Nat.add_0_r|].
           replace (i + 2 * S d)%nat with (i + 2 + 2 * d)%nat by lia. apply H1. lia.
    + right. split; [intros; lia|]. cbn [tryAllocFrom]. by destruct (Nat.leb_spec i (count a)); [lia|].
Qed.

(** The segment a grantable range lies in. *)
Lemma grantable_segment off :
  grantable a limit size align off ->
  exists d, let j := (count a mod 2 + 2 * d)%nat in
    (j <= count a)%nat /\ seg_lo (cuts a) j <= off /\ off + size <= seg_hi (cuts a) limit j.
Proof.
  intros (H0 & _ & Hl & He). destruct Hreq as (Ha&_&Hs&_).
  destruct (segment_of (cuts a) off H0) as (j & Hj & Hlo & Hhi).
  pose proof (He off ltac:(lia)) as Hf. rewrite (full_in_segment _ j) in Hf by done.
  destruct (odd_false_index (count a) j Hj Hf) as [d ->]. exists d. cbn zeta. split_and!; [done|done|].
  unfold seg_hi. destruct (Nat.eqb_spec (count a mod 2 + 2 * d) (length (cuts a))) as [|Hne]; [done|].
  set (j := (count a mod 2 + 2 * d)%nat) in *.
  destruct (lookup_lt_is_Some_2 (cuts a) j ltac:(unfold count in *; lia)) as [c Hc].
  rewrite nth_lookup, Hc. simpl. specialize (Hhi c Hc).
  destruct (Z.le_gt_cases (off + size) c) as [|Hgt]; [done|]. exfalso.
  pose proof (He c ltac:(lia)) as Hf'.
  rewrite (full_in_segment _ (S j)) in Hf'; [|done|unfold count in *; lia|by rewrite (seg_lo_S _ _ _ Hc)|].
  - unfold count in *. replace (length (cuts a) - j)%nat with (S (length (cuts a) - S j)) in Hf by lia.
    rewrite Nat.odd_succ, <- Nat.negb_odd, Hf' in Hf. done.
  - intros c' Hc'. pose proof (seg_lo_lt_cut _ _ _ Ha Hc') as L. by rewrite (seg_lo_S _ _ _ Hc) in L.
Qed.

Lemma seg_hi_cut i c : (i <= count a)%nat -> cuts a !! i = Some c -> seg_hi (cuts a) limit i = c.
Proof.
  intros Hi Hc. unfold seg_hi, count in *. apply lookup_lt_Some in Hc as Hlt.
  destruct (Nat.eqb_spec i (length (cuts a))); [lia|]. by rewrite nth_lookup, Hc.
Qed.

(** The granted range, and the alignment gap before it that the code may take
    along: [p] is the end of the full segment below, or the offset itself. *)
Lemma place_spec d :
  let j := (count a mod 2 + 2 * d)%nat in
  let off := roundUpTo align (seg_lo (cuts a) j) in
  (j <= count a)%nat -> fits_at (cuts a) limit size align j = true ->
  space_ok (place j) /\ grantable a limit size align off /\
  exists p, seg_lo (cuts a) j <= p <= off /\
    (forall x, p <= x < off + size -> full (cuts a) x = false) /\
    forall x, 0 <= x -> full (cuts (place j)) x = full (cuts a) x || within p (off + size) x.
Proof.
  intros j off Hj Hfit. pose proof (seg_lo_bound j) as Hb. pose proof (off_bound j) as Ho. fold off in Ho.
  pose proof (seg_hi_bound j Hj) as Hh. unfold fits_at in Hfit. fold off in Hfit.
  apply Z.leb_le in Hfit. destruct Hreq as (Ha&_&Hs&_).
  assert (forall x, seg_lo (cuts a) j <= x < off + size -> full (cuts a) x = false) as He.
  { intros x Hx. rewrite (full_in_segment _ j); [|done|done|lia|].
    - apply odd_true_index.
      done.
    - intros c Hc. rewrite (seg_hi_cut j c Hj Hc) in Hfit. lia. }
  assert (grantable a limit size align off) as Hg.
  { split_and!; [lia|apply off_divide|lia|]. intros x Hx. apply He. lia. }
  unfold place. fold off.
  destruct (Nat.eqb_spec j 0) as [E0|E0]; [|destruct (Z.eqb_spec (off + size) (seg_hi (cuts a) limit j)) as [Eh|Eh]].
  3: { cbn [orb]. destruct (lookup_lt_is_Some_2 (cuts a) (j - 1) ltac:(unfold count in *; lia)) as [c Hc].
    pose proof (seg_lo_S _ _ _ Hc) as Hc'. replace (S (j - 1)) with j in Hc' by lia.
    pose proof (seg_lo_lt_cut _ _ _ Ha Hc) as Hlt.
    split; [|split; [done|]].
    - apply ascending_insert; [done|unfold count in *; lia|unfold seg_lo in Hlt; lia|].
      replace (S (j - 1)) with j by lia. intros e He'. rewrite (seg_hi_cut j e Hj He') in *. lia.
    - exists c. split_and!; [lia|lia|intros x Hx; apply He; lia|]. intros x Hx. cbn [cuts].
      rewrite (full_insert_within _ _ c) by done. rewrite Z.min_l, Z.max_r by lia.
      destruct (within c (off + size) x) eqn:W; [|by destruct (full (cuts a) x)].
      apply andb_true_iff in W as [W1 W2]. rewrite (He x) by lia. done. }
  all: cbn [orb]; destruct (insertSegment_spec a j off (off + size)) as [I1 I2];
    [done|done|lia|intros c Hc; rewrite (seg_hi_cut j c Hj Hc) in Hfit; lia|];
    split; [done|]; split; [done|]; exists off; (split; [lia|]);
    (split; [intros x Hx; apply He; lia|]); intros x Hx; rewrite I2 by done;
    (destruct (within off (off + size) x) eqn:W; [|by destruct (full (cuts a) x)]);
    apply andb_true_iff in W as [W1 W2]; rewrite (He x) by lia; done.
Qed.
End alloc.

Lemma seg_lo_mono cs i j : ascending 0 cs -> (i <= j <= length cs)%nat -> seg_lo cs i <= seg_lo cs j.
Proof.
  intros H [Hij Hj]. induction Hij as [|j Hij IH]; [lia|].
  destruct (lookup_lt_is_Some_2 cs j ltac:(lia)) as [c Hc].
  rewrite (seg_lo_S _ _ _ Hc). pose proof (seg_lo_lt_cut _ _ _ H Hc). specialize (IH ltac:(lia)). lia.
Qed.

Lemma grantable_fits a limit size align off :
  request_ok a limit size align -> grantable a limit size align off ->
  exists d, let j := (count a mod 2 + 2 * d)%nat in
    (j <= count a)%nat /\ seg_lo (cuts a) j <= off /\ fits_at (cuts a) limit size align j = true.
Proof.
  intros Hr Hg. destruct (grantable_segment a limit size align Hr off Hg) as (d & Hj & Hlo & Hhi).
  exists d. split_and!; [done|done|]. apply Z.leb_le. destruct Hg as (_ & Hd & _).
  pose proof (roundUpTo_least align (seg_lo (cuts a) (count a mod 2 + 2 * d)) off
    (align_pos a limit size align Hr) Hd Hlo). lia.
Qed.

(** The state an allocation of [off, off + size) leaves: the range is added to
    the full set, together with an alignment gap [p, off) that was free. *)
Definition granted (a a' : ncclSpace) (limit size align off : Z) : Prop :=
  space_ok a' /\ List.last (cuts a') 0 <= limit /\
  exists p, 0 <= p <= off /\ off < p + align /\
    (forall x, p <= x < off + size -> full (cuts a) x = false) /\
    forall x, 0 <= x -> full (cuts a') x = full (cuts a) x || within p (off + size) x.

Lemma ncclSpaceTryAlloc_spec a limit size align :
  request_ok a limit size align ->
  match ncclSpaceTryAlloc a limit size align with
  | (ncclSuccess, a', off) =>
      granted a a' limit size align off /\ grantable a limit size align off /\
      (forall off', grantable a limit size align off' -> off <= off')
  | (res, a', _) =>
      res = ncclInternalError /\ a' = a /\ forall off', ~ grantable a limit size align off'
  end.
Proof.
  intros Hr. unfold ncclSpaceTryAlloc.
  pose proof (Nat.mod_upper_bound (count a) 2 ltac:(lia)).
  destruct (tryAllocFrom_spec a limit size align Hr (S (count a)) (count a mod 2) ltac:(lia))
    as [(d & Hj & Hfit & Hmin & ->)|[Hno ->]].
  - destruct (place_spec a limit size align Hr d Hj Hfit) as (Hok & Hg & p & Hp & Hfree & Hfull).
    set (j := (count a mod 2 + 2 * d)%nat) in *.
    pose proof (seg_lo_bound a limit size align Hr j). pose proof (off_bound a limit size align Hr j).
    set (off := roundUpTo align (seg_lo (cuts a) j)) in *.
    destruct Hr as (Ha & Hlast & Hs & Hal & Hlim & Hmax) eqn:Er.
    split; [split; [done|split]|split; [done|]].
    + apply bounded_full; [done|done|]. intros x Hx. rewrite Hfull by lia.
      rewrite (proj1 (bounded_full _ _ Ha Hlim) Hlast x Hx). destruct Hg as (_&_&Hle&_).
      unfold within. destruct (Z.ltb_spec x (off + size)); [lia|]. by rewrite andb_false_r.
    + exists p. split_and!; [lia|lia|lia|done|done].
    + intros off' Hg'. clear Er. assert (request_ok a limit size align) as Hr' by done.
      destruct (grantable_fits _ _ _ _ _ Hr' Hg') as (d' & Hj' & Hlo' & Hf').
      destruct (Nat.lt_ge_cases d' d) as [Hlt|Hge]; [by rewrite Hmin in Hf'|].
      apply roundUpTo_least; [by eapply align_pos|apply Hg'|].
      etrans; [|exact Hlo']. apply seg_lo_mono; [done|unfold count in *; lia].
  - split_and!; [done|done|]. intros off' Hg'.
    destruct (grantable_fits _ _ _ _ _ Hr Hg') as (d' & Hj' & _ & Hf'). by rewrite Hno in Hf'.
Qed.

(** ** Release *)

Lemma cut_lookup a i : (i < count a)%nat -> cuts a !! i = Some (cut a i).
Proof.
  intros Hi. destruct (lookup_lt_is_Some_2 (cuts a) i Hi) as [c Hc].
  unfold cut. by rewrite nth_lookup, Hc.
Qed.

Lemma last_cut a : (0 < count a)%nat -> List.last (cuts a) 0 = cut a (count a - 1).
Proof.
  intros H. pose proof (cut_lookup a (count a - 1) ltac:(lia)) as Hc.
  rewrite <- (seg_lo_S _ _ _ Hc). unfold seg_lo. rewrite firstn_all2; [done|unfold count; lia].
Qed.

Lemma odd_step n i : (i + 2 <= n)%nat -> Nat.odd (n - (i + 2)) = Nat.odd (n - i).
Proof. intros H. by replace (n - i)%nat with (S (S (n - (i + 2)))) by lia. Qed.

(** The search stops at the full segment that ends first above the offset. *)
Lemma findFull_spec a offset fuel i :
  (i < count a)%nat -> (count a <= i + 2 * fuel)%nat -> Nat.odd (count a - i) = true ->
  offset < cut a (count a - 1) -> (i = 0%nat \/ seg_lo (cuts a) (i - 1) <= offset) ->
  let j := findFull fuel i a offset in
  (j < count a)%nat /\ Nat.odd (count a - j) = true /\ offset < cut a j /\
  (j = 0%nat \/ seg_lo (cuts a) (j - 1) <= offset).
Proof.
  revert i. induction fuel as [|fuel IH]; intros i Hi Hf Ho Hl Hs; [lia|].
  cbn [findFull]. destruct (Z.leb_spec (cut a i) offset) as [Hle|Hgt]; [|done].
  assert (i + 2 < count a)%nat as Hi2.
  { destruct (Nat.eq_dec (i + 1) (count a)) as [E|].
    - replace (count a - 1)%nat with i in Hl by lia. lia.
    - destruct (Nat.eq_dec (i + 2) (count a)) as [E|]; [|lia].
      replace (count a - i)%nat with 2%nat in Ho by lia. done. }
  apply IH; [done|lia|by rewrite odd_step by lia|done|]. right.
  replace (i + 2 - 1)%nat with (S i) by lia. by rewrite (seg_lo_S _ _ _ (cut_lookup a i ltac:(lia))).
Qed.

Lemma xorb_remove b w : (w = true -> b = true) -> xorb b w = b && negb w.
Proof. destruct b, w; intros H; (done || specialize (H eq_refl); done). Qed.

(** Releasing a range of a full segment, on each of the three branches. *)
Lemma freeAt_spec a i offset size :
  space_ok a -> (i < count a)%nat -> Nat.odd (count a - i) = true -> 0 < size ->
  seg_lo (cuts a) i <= offset -> offset + size <= cut a i ->
  let hi := offset + size in
  let a' :=
    if negb (i =? 0)%nat && (seg_lo (cuts a) i =? offset) && negb (hi =? cut a i)
    then {| capacity := capacity a; cuts := <[(i - 1)%nat := hi]> (cuts a) |}
    else if negb (seg_lo (cuts a) i =? offset) && (hi =? cut a i)
    then {| capacity := capacity a; cuts := <[i := offset]> (cuts a) |}
    else insertSegment a i offset hi in
  (forall x, offset <= x < hi -> full (cuts a) x = true) /\ space_ok a' /\
  forall x, 0 <= x -> full (cuts a') x = full (cuts a) x && negb (within offset hi x).
Proof.
  intros Ha Hi Ho Hs Hlo Hhi hi a'. pose proof (cut_lookup a i Hi) as Hc.
  assert (forall x, offset <= x < hi -> full (cuts a) x = true) as Hfull.
  { intros x Hx. rewrite (full_in_segment _ i); [done|done|unfold count in *; lia|lia|].
    intros c Hc'. rewrite Hc in Hc'. simplify_eq. unfold hi in *. lia. }
  assert (forall x, xorb (full (cuts a) x) (within offset hi x)
            = full (cuts a) x && negb (within offset hi x)) as Hx.
  { intros x. apply xorb_remove. intros W. apply andb_true_iff in W as [W1 W2]. apply Hfull. lia. }
  split; [done|]. unfold a'. clear a'.
  destruct (negb (i =? 0)%nat && (seg_lo (cuts a) i =? offset) && negb (hi =? cut a i)) eqn:E1;
    [|destruct (negb (seg_lo (cuts a) i =? offset) && (hi =? cut a i)) eqn:E2].
  - apply andb_true_iff in E1 as [[Ei%negb_true_iff%Nat.eqb_neq El%Z.eqb_eq]%andb_true_iff Eh%negb_true_iff%Z.eqb_neq].
    pose proof (cut_lookup a (i - 1) ltac:(lia)) as Hp. pose proof (seg_lo_S _ _ _ Hp) as Hp'.
    replace (S (i - 1)) with i in Hp' by lia.
    pose proof (seg_lo_lt_cut _ _ _ Ha Hp) as Hlt. unfold seg_lo in Hlt. split.
    + apply ascending_insert; [done|unfold count in *; lia|unfold hi; lia|].
      replace (S (i - 1)) with i by lia. intros d Hd. rewrite Hc in Hd. simplify_eq. unfold hi in *. lia.
    + intros x Hx0. cbn [cuts]. rewrite (full_insert_within _ _ _ _ _ Hp), <- Hx.
      rewrite Z.min_l, Z.max_r by (unfold hi; lia). by rewrite <- Hp', El.
  - apply andb_true_iff in E2 as [El%negb_true_iff%Z.eqb_neq Eh%Z.eqb_eq].
    split.
    + apply ascending_insert; [done|unfold count in *; lia|unfold seg_lo in *; lia|].
      intros d Hd. pose proof (seg_lo_lt_cut _ _ _ Ha Hd) as L. rewrite (seg_lo_S _ _ _ Hc) in L.
      unfold hi in *. lia.
    + intros x Hx0. cbn [cuts]. rewrite (full_insert_within _ _ _ _ _ Hc), <- Hx.
      rewrite Z.min_r, Z.max_l by (unfold hi in *; lia). by rewrite Eh.
  - destruct (insertSegment_spec a i offset hi Ha) as [I1 I2]; [lia|unfold hi; lia| |].
    + intros c Hc'. rewrite Hc in Hc'. simplify_eq. unfold hi in *. lia.
    + split; [done|]. intros x Hx0. by rewrite I2, Hx.
Qed.

Lemma start_index_odd n : (0 < n)%nat -> (1 - n mod 2 < n)%nat /\ Nat.odd (n - (1 - n mod 2)) = true.
Proof.
  intros Hn. pose proof (Nat.div_mod_eq n 2) as E. pose proof (Nat.mod_upper_bound n 2 ltac:(lia)).
  destruct (n mod 2)%nat as [|[|m]]; [| |lia]; split; try lia.
  - replace (n - (1 - 0))%nat with (S (2 * (n / 2 - 1))) by lia. by rewrite Nat.odd_succ, Nat.even_mul.
  - replace (n - (1 - 1))%nat with (S (2 * (n / 2))) by lia. by rewrite Nat.odd_succ, Nat.even_mul.
Qed.

Lemma ncclSpaceFree_spec a offset size :
  space_ok a -> 0 <= offset -> 0 < size -> offset + size < 2 ^ 63 ->
  match ncclSpaceFree a offset size with
  | (ncclSuccess, a') =>
      (forall x, offset <= x < offset + size -> full (cuts a) x = true) /\ space_ok a' /\
      forall x, 0 <= x -> full (cuts a') x = full (cuts a) x && negb (within offset (offset + size) x)
  | (res, a') =>
      res = ncclInternalError /\ a' = a /\ exists x, offset <= x < offset + size /\ full (cuts a) x = false
  end.
Proof.
  intros Ha H0 Hs Hm. unfold ncclSpaceFree.
  rewrite (cwrap_fits i64 (offset + size)) by auto with widths.
  destruct (Nat.eqb_spec (count a) 0) as [E0|E0]; cbn [orb].
  { split_and!; [done|done|]. exists offset. split; [lia|]. unfold count in E0.
    apply length_zero_iff_nil in E0. by rewrite E0. }
  destruct (Z.leb_spec (cut a (count a - 1)) offset) as [Hl|Hl].
  { split_and!; [done|done|]. exists offset. split; [lia|]. apply (ascending_le_last 0); [done|].
    rewrite last_cut by lia. done. }
  destruct (start_index_odd (count a) ltac:(lia)) as [Hi Ho].
  destruct (findFull_spec a offset (count a) (1 - count a mod 2)) as (Hj & Hjo & Hju & Hjl);
    [done|lia|done|done| |].
  { destruct (count a mod 2)%nat as [|m]; [right|left]; [done|lia]. }
  set (j := findFull _ _ _ _) in *.
  change (if (j =? 0)%nat then 0 else cut a (j - 1))
    with (if (j =? 0)%nat then 0 else nth (j - 1) (cuts a) 0).
  rewrite seg_lo_eq by (unfold count in *; lia).
  destruct (Z.ltb_spec offset (seg_lo (cuts a) j)) as [Hb|Hb]; cbn [orb].
  { split_and!; [done|done|]. exists offset. split; [lia|].
    destruct Hjl as [->|Hjl]; [by unfold seg_lo in Hb; simpl in Hb; lia|].
    assert (j <> 0%nat) by (intros ->; unfold seg_lo in Hb; simpl in Hb; lia).
    pose proof (seg_lo_S _ _ _ (cut_lookup a (j - 1) ltac:(lia))) as Hp.
    replace (S (j - 1)) with j in Hp by lia.
    rewrite (full_in_segment _ (j - 1)); [|done|unfold count in *; lia|done|].
    - replace (length (cuts a) - (j - 1))%nat with (S (count a - j)) by (unfold count in *; lia).
      by rewrite Nat.odd_succ, <- Nat.negb_odd, Hjo.
    - intros c Hc. rewrite cut_lookup in Hc by lia. simplify_eq. lia. }
  destruct (Z.ltb_spec (cut a j) (offset + size)) as [Hh|Hh].
  { split_and!; [done|done|]. exists (cut a j). split; [lia|].
    pose proof (cut_lookup a j Hj) as Hc. rewrite (full_in_segment _ (S j)).
    - replace (length (cuts a) - S j)%nat with (pred (count a - j)) by (unfold count; lia).
      rewrite <- (Nat.succ_pred (count a - j)), Nat.odd_succ in Hjo by lia.
      by rewrite <- Nat.negb_even, Hjo.
    - done.
    - unfold count in *; lia.
    - by rewrite (seg_lo_S _ _ _ Hc).
    - intros c Hc'. pose proof (seg_lo_lt_cut _ _ _ Ha Hc') as L. by rewrite (seg_lo_S _ _ _ Hc) in L. }
  pose proof (freeAt_spec a j offset size Ha Hj Hjo Hs Hb Hh) as F. cbn zeta in F.
  destruct (negb (j =? 0)%nat && _ && _); [exact F|]. destruct (negb _ && _); exact F.
Qed.

(** ** Canonicity and the round trip *)

Lemma full_at_cut b c cs : ascending b (c :: cs) -> full (c :: cs) c = negb (full (c :: cs) b).
Proof.
  intros [H1 H2]. cbn [full]. rewrite !(ascending_above c) by (done || lia).
  destruct (Z.ltb_spec c c), (Z.ltb_spec b c); (lia || by destruct (Nat.odd _)).
Qed.

Lemma full_first_cut b c cs cs' :
  ascending b (c :: cs) -> ascending b cs' -> (match cs' with [] => True | c' :: _ => c < c' end) ->
  full (c :: cs) b = full cs' b -> full (c :: cs) c = full cs' c -> False.
Proof.
  intros H H' Hc E1 E2. rewrite (full_at_cut b c cs H), E1 in E2. clear E1. destruct H as [H1 _].
  destruct cs' as [|d cs']; [done|]. destruct H' as [H2 H3]. cbn [full] in E2.
  rewrite !(ascending_above d) in E2 by (done || lia).
  destruct (Z.ltb_spec b d), (Z.ltb_spec c d); try lia. by destruct (Nat.odd _).
Qed.

(** A full set has one array of cuts. *)
Lemma full_canonical b cs cs' :
  ascending b cs -> ascending b cs' -> (forall x, b <= x -> full cs x = full cs' x) -> cs = cs'.
Proof.
  revert b cs'. induction cs as [|c cs IH]; intros b cs' H H' E.
  - destruct cs' as [|c' cs']; [done|]. exfalso. pose proof H' as [Hb _].
    apply (full_first_cut b c' cs' [] H' H); [done|symmetry; apply E; lia|symmetry; apply E; lia].
  - pose proof H as [Hb Ha]. destruct cs' as [|c' cs'].
    { exfalso. apply (full_first_cut b c cs [] H H'); [done|apply E; lia|apply E; lia]. }
    pose proof H' as [Hb' Ha']. destruct (Z.lt_trichotomy c c') as [Hlt|[<-|Hgt]].
    + exfalso. apply (full_first_cut b c cs (c' :: cs') H H'); [done|apply E; lia|apply E; lia].
    + f_equal. apply (IH c); [done|done|]. intros x Hx. specialize (E x ltac:(lia)).
      cbn [full] in E. destruct (Z.ltb_spec x c); [lia|]. by rewrite !xorb_false_l in E.
    + exfalso. apply (full_first_cut b c' cs' (c :: cs) H' H); [done| |]; symmetry; apply E; lia.
Qed.

Definition aligned_cuts (align : Z) (a : ncclSpace) : Prop := Forall (fun c => (align | c)) (cuts a).

Lemma aligned_seg_lo align cs i : Forall (fun c => (align | c)) cs -> (align | seg_lo cs i).
Proof.
  intros H. unfold seg_lo. apply (Forall_take _ i) in H. revert H. generalize (take i cs) as l. intros l H.
  destruct l as [|c l _] using rev_ind; [apply Z.divide_0_r|].
  rewrite last_last. apply Forall_app in H as [_ H]. by inversion H.
Qed.

(** With every cut aligned there is no alignment gap. *)
Lemma tryAlloc_aligned a a' limit size align off :
  request_ok a limit size align -> aligned_cuts align a ->
  ncclSpaceTryAlloc a limit size align = (ncclSuccess, a', off) ->
  space_ok a' /\ grantable a limit size align off /\
  forall x, 0 <= x -> full (cuts a') x = full (cuts a) x || within off (off + size) x.
Proof.
  intros Hr Hal E. pose proof (Nat.mod_upper_bound (count a) 2 ltac:(lia)). unfold ncclSpaceTryAlloc in E.
  destruct (tryAllocFrom_spec a limit size align Hr (S (count a)) (count a mod 2) ltac:(lia))
    as [(d & Hj & Hfit & _ & E')|[_ E']]; rewrite E' in E; [|done]. apply pair_equal_spec in E as [[_ <-]%pair_equal_spec <-].
  destruct (place_spec a limit size align Hr d Hj Hfit) as (Hok & Hg & p & Hp & _ & Hfull).
  assert (roundUpTo align (seg_lo (cuts a) (count a mod 2 + 2 * d)) =
          seg_lo (cuts a) (count a mod 2 + 2 * d)) as E0
    by (apply roundUpTo_id; [by eapply align_pos|by apply aligned_seg_lo]).
  rewrite E0 in *.
  split; [done|]. split; [done|].
  by replace p with (seg_lo (cuts a) (count a mod 2 + 2 * d)) in Hfull by lia.
Qed.

(** releasing what was just allocated restores the space: when the cuts
    are multiples of the alignment, [ncclSpaceFree] of the range that
    [ncclSpaceTryAlloc] granted succeeds and the array of cuts is the one
    before the allocation. *)
Lemma ncclSpace_alloc_free_roundtrip a a' limit size align off :
  request_ok a limit size align -> aligned_cuts align a ->
  ncclSpaceTryAlloc a limit size align = (ncclSuccess, a', off) ->
  exists a'', ncclSpaceFree a' off size = (ncclSuccess, a'') /\ cuts a'' = cuts a.
Proof.
  intros Hr Hal E. destruct (tryAlloc_aligned _ _ _ _ _ _ Hr Hal E) as (Hok & (H0 & _ & Hl & He) & Hfull).
  destruct Hr as (Ha & _ & Hs & (k & Hk & ->) & Hlim & Hm).
  assert (forall x, off <= x < off + size -> within off (off + size) x = true) as Hw.
  { intros x Hx. unfold within. rewrite (proj2 (Z.leb_le _ _)), (proj2 (Z.ltb_lt _ _)) by lia. done. }
  pose proof (ncclSpaceFree_spec a' off size Hok H0 Hs ltac:(lia)) as F.
  destruct (ncclSpaceFree a' off size) as [[] a'']; try (destruct F as (_ & _ & x & Hx & F);
    rewrite Hfull, Hw, orb_true_r in F by lia; done).
  destruct F as (_ & Hok' & F). exists a''. split; [done|].
  apply (full_canonical 0); [done|done|]. intros x Hx. rewrite F, Hfull by done.
  destruct (within off (off + size) x) eqn:W; [|by rewrite orb_false_r, andb_true_r].
  apply andb_true_iff in W as [W1 W2]. by rewrite (He x ltac:(lia)).
Qed.

Lemma ncclSpace_alloc_free_roundtrip_example :
  exists a'', ncclSpaceFree {| capacity := 16; cuts := [160] |} 64 64 = (ncclSuccess, a'') /\
    cuts a'' = [64; 128; 160].
Proof.
  apply (ncclSpace_alloc_free_roundtrip {| capacity := 16; cuts := [64; 128; 160] |} _ 1024 64 32 64).
  - unfold request_ok, space_ok; simpl; split_and!; try lia. exists 5; split; [lia|reflexivity].
  - unfold aligned_cuts; simpl. repeat constructor; [exists 2|exists 4|exists 5]; reflexivity.
  - vm_compute. reflexivity.
Defined.

(** C39: [ncclSpaceTryAlloc] is a sound and complete first-fit allocator: it
    grants the lowest aligned free range below the limit and makes exactly that
    range full (with the alignment gap below it), and when it fails no aligned
    free range exists and the space is unchanged. *)
Theorem ncclSpaceTryAlloc_first_fit a limit size align :
  request_ok a limit size align ->
  match ncclSpaceTryAlloc a limit size align with
  | (ncclSuccess, a', off) =>
      granted a a' limit size align off /\ grantable a limit size align off /\
      (forall off', grantable a limit size align off' -> off <= off')
  | (res, a', _) =>
      res = ncclInternalError /\ a' = a /\ forall off', ~ grantable a limit size align off'
  end.
Proof. apply ncclSpaceTryAlloc_spec. Qed.

Lemma ncclSpaceTryAlloc_first_fit_witness :
  let a := {| capacity := 16; cuts := [40; 100; 160; 200] |} in
  granted a {| capacity := 16; cuts := [40; 100; 160; 320] |} 1024 64 64 256 /\
  grantable a 1024 64 64 256 /\ forall off', grantable a 1024 64 64 off' -> 256 <= off'.
Proof.
  apply (ncclSpaceTryAlloc_first_fit {| capacity := 16; cuts := [40; 100; 160; 200] |} 1024 64 64).
  unfold request_ok, space_ok; simpl; split_and!; try lia. exists 6; split; [lia|reflexivity].
Defined.

(** C40: [ncclSpaceFree] succeeds exactly when the whole range is allocated; it
    then removes exactly that range from the full set, and otherwise reports an
    error and leaves the space unchanged. *)
Theorem ncclSpaceFree_correct a offset size :
  space_ok a -> 0 <= offset -> 0 < size -> offset + size < 2 ^ 63 ->
  match ncclSpaceFree a offset size with
  | (ncclSuccess, a') =>
      (forall x, offset <= x < offset + size -> full (cuts a) x = true) /\ space_ok a' /\
      forall x, 0 <= x -> full (cuts a') x = full (cuts a) x && negb (within offset (offset + size) x)
  | (res, a') =>
      res = ncclInternalError /\ a' = a /\ exists x, offset <= x < offset + size /\ full (cuts a) x = false
  end.
Proof. apply ncclSpaceFree_spec. Qed.

Lemma ncclSpaceFree_correct_witness :
  let a := {| capacity := 16; cuts := [40; 100; 160] |} in
  let a' := {| capacity := 16; cuts := [40; 100; 120; 130; 160] |} in
  (forall x, 120 <= x < 130 -> full (cuts a) x = true) /\ space_ok a' /\
  forall x, 0 <= x -> full (cuts a') x = full (cuts a) x && negb (within 120 130 x).
Proof.
  apply (ncclSpaceFree_correct {| capacity := 16; cuts := [40; 100; 160] |} 120 10);
    [unfold space_ok; simpl; lia|lia|lia|lia].
Defined.

(** The alignment gap below a granted range stays full when the object is
    released: a space of 10 allocated cells, an object of 8 cells aligned to
    16, and the release of that object. *)
Lemma ncclSpace_alignment_gap_kept :
  let '(_, a, _) := ncclSpaceTryAlloc ncclSpaceConstruct 1024 10 1 in
  let '(_, a, off) := ncclSpaceTryAlloc a 1024 8 16 in
  let '(res, a) := ncclSpaceFree a off 8 in
  res = ncclSuccess /\ off = 16 /\ full (cuts a) 12 = true.
Proof. vm_compute. done. Qed.
