(* ===== verification/Heap.v ===== *)
(** * Linked objects

    The intrusive containers of src/src/include/utils.h link objects through a
    pointer field of their own.  The heap is that field: [h p] is the next
    pointer of the object at address [p], and 0 is the null pointer.  Objects
    are shared: writing the field of an object changes it for every container
    that reaches it. *)

From stdpp Require Import base numbers list sets.
From Stdlib Require Import ZArith Lia.
From S2P Require Import Prelude.

Local Open Scope Z_scope.

Definition heap : Type := Z -> Z.

(** [p->next = v]. *)
Definition hset (h : heap) (p v : Z) : heap := fun x => if x =? p then v else h x.

(** [lseg h p l q]: from [p] the next pointers go through the objects [l] and
    arrive at [q]. *)
Fixpoint lseg (h : heap) (p : Z) (l : list Z) (q : Z) : Prop :=
  match l with
  | [] => p = q
  | x :: l => p = x /\ x <> 0 /\ lseg h (h x) l q
  end.

(** The last object, or null. *)
Definition lastOf (l : list Z) : Z := default 0 (last l).

Lemma hset_eq h p v : hset h p v p = v.
Proof. unfold hset. by rewrite Z.eqb_refl. Qed.

Lemma hset_ne h p v x : x <> p -> hset h p v x = h x.
Proof. intros. unfold hset. by rewrite (proj2 (Z.eqb_neq _ _)). Qed.

Lemma lseg_ext h h' p l q : (forall x, x ∈ l -> h' x = h x) -> lseg h p l q -> lseg h' p l q.
Proof.
  revert p. induction l as [|x l IH]; intros p E; cbn [lseg]; [done|]. intros (-> & Hx & H).
  rewrite E by (left; done). split_and!; [done..|]. apply IH; [|done]. intros y Hy. apply E. by right.
Qed.

Lemma lseg_hset h p l q y v : y ∉ l -> lseg h p l q -> lseg (hset h y v) p l q.
Proof. intros Hy. apply lseg_ext. intros x Hx. apply hset_ne. by intros ->. Qed.

Lemma lseg_app h p l1 l2 q : lseg h p (l1 ++ l2) q <-> exists m, lseg h p l1 m /\ lseg h m l2 q.
Proof.
  revert p. induction l1 as [|x l1 IH]; intros p; cbn [app lseg].
  - split; [intros H; by exists p|]. by intros (m & -> & H).
  - rewrite IH. split.
    + intros (-> & Hx & m & H1 & H2). by exists m.
    + intros (m & (-> & Hx & H1) & H2). split_and!; [done..|]. by exists m.
Qed.

Lemma lseg_nonnull h p l q : lseg h p l q -> Forall (fun x => x <> 0) l.
Proof. revert p. induction l as [|x l IH]; intros p; [by constructor|]. intros (-> & Hx & H). constructor; [done|by eapply IH]. Qed.

Lemma lseg_null h l : lseg h 0 l 0 -> l = [].
Proof. destruct l as [|x l]; [done|]. by intros (<- & Hx & _). Qed.

Lemma lseg_head h p x l q : lseg h p (x :: l) q -> p = x /\ x <> 0 /\ lseg h (h x) l q.
Proof. done. Qed.

Lemma lastOf_app l x : lastOf (l ++ [x]) = x.
Proof. unfold lastOf. by rewrite last_snoc. Qed.

Lemma lastOf_cons x y l : lastOf (x :: y :: l) = lastOf (y :: l).
Proof. done. Qed.

Lemma lastOf_app_cons l1 x l2 : lastOf (l1 ++ x :: l2) = lastOf (x :: l2).
Proof. unfold lastOf. by rewrite last_app_cons. Qed.

Lemma lastOf_elem l : l <> [] -> lastOf l ∈ l.
Proof.
  intros Hl. destruct (last l) as [x|] eqn:E; [|by apply last_None in E]. unfold lastOf. rewrite E. cbn.
  by apply last_Some_elem_of in E.
Qed.

(** Writing the field of the last object moves the end of the segment. *)
Lemma lseg_relink h p l x q q' :
  NoDup (l ++ [x]) -> lseg h p (l ++ [x]) q -> lseg (hset h x q') p (l ++ [x]) q'.
Proof.
  intros (_ & Hx & _)%NoDup_app. rewrite !lseg_app. intros (m & H1 & (-> & Hx0 & _)). exists x. split.
  - apply lseg_hset; [|done]. intros H. apply (Hx x H). by left.
  - cbn [lseg]. rewrite hset_eq. done.
Qed.

Lemma lseg_snoc h p l x : lseg h p l x -> x <> 0 -> lseg h p (l ++ [x]) (h x).
Proof. intros H Hx. rewrite lseg_app. exists x. split; [done|]. cbn [lseg]. done. Qed.

(** ** Walks *)

(** [while (cur && go(cur)) { prev = cur; cur = cur->next; }]; none when the
    fuel, one unit per round and one for the end, does not suffice. *)
Fixpoint walkWhile (fuel : nat) (h : heap) (go : Z -> bool) (prev cur : Z) : option (Z * Z) :=
  match fuel with
  | O => None
  | S fuel => if negb (cur =? 0) && go cur then walkWhile fuel h go cur (h cur) else Some (prev, cur)
  end.

(** The longest prefix that satisfies [go], and the rest. *)
Fixpoint span (go : Z -> bool) (l : list Z) : list Z * list Z :=
  match l with
  | [] => ([], [])
  | x :: r => if go x then let '(a, b) := span go r in (x :: a, b) else ([], l)
  end.

Lemma span_app go l : fst (span go l) ++ snd (span go l) = l.
Proof. induction l as [|x l IH]; [done|]. cbn. destruct (go x); [|done]. destruct (span go l). cbn in *. by rewrite IH. Qed.

Lemma span_spec go l : (forall x, x ∈ fst (span go l) -> go x = true) /\ match snd (span go l) with [] => True | x :: _ => go x = false end.
Proof.
  induction l as [|x l IH]; cbn [span].
  - split; [|done]. intros x Hx. by apply not_elem_of_nil in Hx.
  - destruct (go x) eqn:E; cbn [fst snd].
    + destruct (span go l) as [a b]. cbn [fst snd] in *. destruct IH as [I1 I2]. split; [|done].
      intros y [->|Hy]%elem_of_cons; [done|by apply I1].
    + split; [|done]. intros y Hy. by apply not_elem_of_nil in Hy.
Qed.

Definition firstOf (l : list Z) : Z := match l with [] => 0 | x :: _ => x end.

Lemma lseg_first h p l : lseg h p l 0 -> p = firstOf l.
Proof. destruct l; [done|]. by intros (-> & _). Qed.

Lemma walkWhile_spec go h l fuel prev p :
  lseg h p l 0 -> (length l < fuel)%nat ->
  walkWhile fuel h go prev p =
    Some (if decide (fst (span go l) = []) then prev else lastOf (fst (span go l)), firstOf (snd (span go l))).
Proof.
  revert fuel prev p. induction l as [|x l IH]; intros [|fuel] prev p; cbn [lseg length]; intros Hseg Hf; try lia.
  - subst. done.
  - destruct Hseg as (-> & Hx & Hseg). cbn [walkWhile span]. rewrite (proj2 (Z.eqb_neq _ _) Hx). cbn [negb andb].
    destruct (go x); [|done]. rewrite (IH fuel x _ Hseg) by lia. destruct (span go l) as [a b]. cbn [fst snd].
    rewrite (decide_False (P := x :: a = [])) by done. destruct a; [done|]. by rewrite decide_False, lastOf_cons.
Qed.

(** ** Linking and unlinking *)

(** Linking [x] between [l1] and [l2]. *)
Lemma lseg_link h p l1 l2 x :
  lseg h p (l1 ++ l2) 0 -> NoDup (l1 ++ l2) -> x <> 0 -> x ∉ l1 ++ l2 ->
  let h' := hset h x (firstOf l2) in
  if decide (l1 = []) then lseg h' x (x :: l2) 0 else lseg (hset h' (lastOf l1) x) p (l1 ++ x :: l2) 0.
Proof.
  intros Hseg Hnd Hx Hnx h'. apply lseg_app in Hseg as (m & H1 & H2). pose proof (lseg_first _ _ _ H2) as ->.
  assert (lseg h' x (x :: l2) 0) as H3.
  { cbn [lseg]. assert (h' x = firstOf l2) as -> by apply hset_eq. split_and!; [done..|]. apply lseg_hset; set_solver. }
  case_decide as E; [done|]. destruct (exists_last E) as (l1' & t & ->). rewrite lastOf_app. rewrite lseg_app.
  apply NoDup_app in Hnd as (Hnd1 & Hd & Hnd2). exists x. split.
  - eapply lseg_relink; [done|]. apply lseg_hset; [set_solver|done].
  - apply lseg_hset; [|done]. intros [->|Ht]%elem_of_cons; [set_solver|]. apply (Hd t); set_solver.
Qed.

(** Unlinking [x] between [l1] and [l2]. *)
Lemma lseg_unlink h p l1 l2 x :
  lseg h p (l1 ++ x :: l2) 0 -> NoDup (l1 ++ x :: l2) ->
  lseg h (h x) l2 0 /\ (l1 <> [] -> lseg (hset h (lastOf l1) (h x)) p (l1 ++ l2) 0).
Proof.
  intros Hseg Hnd. apply lseg_app in Hseg as (m & H1 & (-> & Hx & H2)). split; [done|].
  intros E. destruct (exists_last E) as (l1' & t & ->). rewrite lastOf_app, lseg_app. apply NoDup_app in Hnd as (Hnd1 & Hd & Hnd2).
  exists (h x). split; [by eapply lseg_relink|]. apply lseg_hset; [|done]. intros Ht. apply (Hd t); set_solver.
Qed.

Lemma NoDup_link l1 l2 (x : Z) : NoDup (l1 ++ l2) -> x ∉ l1 ++ l2 -> NoDup (l1 ++ x :: l2).
Proof. intros. rewrite <- Permutation_middle. by constructor. Qed.

Lemma lastOf_null h l p : lseg h p l 0 -> l <> [] -> lastOf l <> 0.
Proof.
  intros H Hl. pose proof (lastOf_elem l Hl) as He. pose proof (lseg_nonnull _ _ _ _ H) as Hf.
  rewrite Forall_forall in Hf. by apply Hf.
Qed.

(** ** Families of disjoint lists *)

Lemma concat_insert (L : list (list Z)) i l l' : L !! i = Some l -> concat (<[i := l']> L) ≡ₚ l' ++ concat (delete i L).
Proof.
  revert i. induction L as [|a L IH]; intros [|i] E; try done. cbn in *. rewrite (IH i E).
  rewrite !app_assoc. by rewrite (Permutation_app_comm a l').
Qed.

Lemma concat_at (L : list (list Z)) i l : L !! i = Some l -> concat L ≡ₚ l ++ concat (delete i L).
Proof. intros E. rewrite <- (list_insert_id L i l E) at 1. by eapply concat_insert. Qed.

Lemma elem_of_rest (L : list (list Z)) i j l y : L !! j = Some l -> i <> j -> y ∈ l -> y ∈ concat (delete i L).
Proof.
  intros Hl Hne Hy. rewrite list_elem_of_In, in_concat. exists l. rewrite <- !list_elem_of_In. split; [|done]. apply list_elem_of_lookup.
  destruct (Nat.lt_ge_cases j i).
  - exists j. by rewrite list_lookup_delete_lt.
  - exists (j - 1)%nat. rewrite list_lookup_delete_ge by lia. by replace (S (j - 1)) with j by lia.
Qed.

Lemma concat_elem (L : list (list Z)) i l x : L !! i = Some l -> x ∉ concat L -> x ∉ l.
Proof. intros E Hx Hl. apply Hx. rewrite (concat_at _ _ _ E). apply elem_of_app. by left. Qed.

(** ** Chains of indices *)

(** The entries of an array can be linked in the same way, by their indices;
    a chain then ends with -1. *)
Fixpoint iseg (h : heap) (p : Z) (l : list Z) (q : Z) : Prop :=
  match l with
  | [] => p = q
  | x :: l => p = x /\ 0 <= x /\ iseg h (h x) l q
  end.

Lemma iseg_ext h h' p l q : (forall x, x ∈ l -> h' x = h x) -> iseg h p l q -> iseg h' p l q.
Proof.
  revert p. induction l as [|x l IH]; intros p E; [done|]. intros (-> & Hx & H). split_and!; [done|done|].
  rewrite E by set_solver. apply IH; [set_solver|done].
Qed.

Lemma iseg_hset h p l q y v : y ∉ l -> iseg h p l q -> iseg (hset h y v) p l q.
Proof. intros Hy. apply iseg_ext. intros x Hx. apply hset_ne. set_solver. Qed.

Lemma iseg_app h p l1 l2 q : iseg h p (l1 ++ l2) q <-> exists m, iseg h p l1 m /\ iseg h m l2 q.
Proof.
  revert p. induction l1 as [|x l1 IH]; intros p; simpl.
  - split; [intros H; by exists p|intros (m & -> & H); done].
  - rewrite IH. split; [intros (H1 & H2 & m & H3 & H4); by exists m|intros (m & (H1 & H2 & H3) & H4); split_and!; try done; by exists m].
Qed.

Lemma iseg_nil h p l : iseg h p l (-1) -> p = -1 <-> l = [].
Proof. destruct l as [|x l]; [done|]. intros (-> & Hx & _). split; [lia|done]. Qed.

Lemma iseg_head h p x l q : iseg h p (x :: l) q -> p = x.
Proof. by intros (-> & _). Qed.

(** The last entry is linked to another place. *)
Lemma iseg_relink h p l e q q' : e ∉ l -> iseg h p (l ++ [e]) q -> iseg (hset h e q') p (l ++ [e]) q'.
Proof.
  intros He (m & H1 & H2 & H3 & _)%iseg_app. apply iseg_app. exists m. split; [by apply iseg_hset|].
  split_and!; [done|done|]. by rewrite hset_eq.
Qed.

(** A chain without a last link can be extended. *)
Lemma iseg_join h p l e q l' q' :
  e ∉ l -> e ∉ l' -> iseg h p (l ++ [e]) q -> iseg h q' l' (-1) -> iseg (hset h e q') p ((l ++ [e]) ++ l') (-1).
Proof. intros He He' H1 H2. apply iseg_app. exists q'. split; [by eapply iseg_relink|by apply iseg_hset]. Qed.
