(* ===== verification/Queue.v ===== *)
(** * Intrusive queues and the memory pool (src/src/include/utils.h)

    [ncclIntruQueue] is a list of objects linked through a field of their own,
    with pointers to both ends and a count; [ncclMemoryPool] is a free list of
    cells.  Several queues share the heap.  The file proves that they refine
    lists: whatever the operations, each queue holds the list that the same
    operations on lists give, and returns the same objects. *)

From stdpp Require Import base numbers list sets.
From Stdlib Require Import ZArith Lia Sorted.
From S2P Require Import Prelude Heap.

Local Open Scope Z_scope.

(** ** The queue *)

(* src/src/include/utils.h:380-384 ncclIntruQueue *)
Record ncclIntruQueue := { head : Z; tail : Z; nElems : Z }.

(* src/src/include/utils.h:386-392 ncclIntruQueueConstruct *)
Definition ncclIntruQueueConstruct : ncclIntruQueue := {| head := 0; tail := 0; nElems := 0 |}.

(* src/src/include/utils.h:394-397 ncclIntruQueueEmpty *)
Definition ncclIntruQueueEmpty (me : ncclIntruQueue) : bool := head me =? 0.

(* src/src/include/utils.h:399-402 ncclIntruQueueHead *)
Definition ncclIntruQueueHead (me : ncclIntruQueue) : Z := head me.

(* src/src/include/utils.h:404-407 ncclIntruQueueTail *)
Definition ncclIntruQueueTail (me : ncclIntruQueue) : Z := tail me.

(* src/src/include/utils.h:409-416 ncclIntruQueueEnqueue *)
Definition ncclIntruQueueEnqueue (h : heap) (me : ncclIntruQueue) (x : Z) : heap * ncclIntruQueue :=
  let h := hset h x 0 in
  let '(h, hd) := if head me =? 0 then (h, x) else (hset h (tail me) x, head me) in
  (h, {| head := hd; tail := x; nElems := cwrap i32 (nElems me + 1) |}).

(* src/src/include/utils.h:418-424 ncclIntruQueueEnqueueFront *)
Definition ncclIntruQueueEnqueueFront (h : heap) (me : ncclIntruQueue) (x : Z) : heap * ncclIntruQueue :=
  (hset h x (head me),
   {| head := x; tail := if head me =? 0 then x else tail me; nElems := cwrap i32 (nElems me + 1) |}).

(* src/src/include/utils.h:426-440 ncclIntruQueueInsertSorted *)
Definition ncclIntruQueueInsertSorted (fuel : nat) (h : heap) (me : ncclIntruQueue) (x : Z) (less : Z -> Z -> bool) :
    option (heap * ncclIntruQueue) :=
  match walkWhile fuel h (fun cur => less cur x) 0 (head me) with
  | None => None
  | Some (prev, cur) =>
      let h := hset h x cur in
      let '(h, hd) := if prev =? 0 then (h, x) else (hset h prev x, head me) in
      Some (h, {| head := hd; tail := if cur =? 0 then x else tail me; nElems := cwrap i32 (nElems me + 1) |})
  end.

(* src/src/include/utils.h:442-455 ncclIntruQueueDeleteNext *)
Definition ncclIntruQueueDeleteNext (h : heap) (me : ncclIntruQueue) (prev : Z) : heap * ncclIntruQueue * Z :=
  if (prev =? 0) || (h prev =? 0) then (h, me, 0) else
  let x := h prev in
  (hset h prev (h x),
   {| head := head me; tail := if tail me =? x then prev else tail me; nElems := cwrap i32 (nElems me - 1) |}, x).

(* src/src/include/utils.h:457-464 ncclIntruQueueDequeue *)
Definition ncclIntruQueueDequeue (h : heap) (me : ncclIntruQueue) : ncclIntruQueue * Z :=
  let ans := head me in
  ({| head := h ans; tail := if h ans =? 0 then 0 else tail me; nElems := cwrap i32 (nElems me - 1) |}, ans).

(* src/src/include/utils.h:466-488 ncclIntruQueueDelete *)
Definition ncclIntruQueueDelete (fuel : nat) (h : heap) (me : ncclIntruQueue) (x : Z) (cmp : Z -> Z -> bool) :
    option (heap * ncclIntruQueue * Z) :=
  match walkWhile fuel h (fun cur => negb (cmp cur x)) 0 (head me) with
  | None => None
  | Some (prev, cur) =>
      if cur =? 0 then Some (h, me, cur) else
      let '(h', hd) := if prev =? 0 then (h, h cur) else (hset h prev (h cur), head me) in
      Some (h', {| head := hd; tail := if cur =? tail me then prev else tail me; nElems := cwrap i32 (nElems me - 1) |}, cur)
  end.

(* src/src/include/utils.h:490-499 ncclIntruQueueTryDequeue *)
Definition ncclIntruQueueTryDequeue (h : heap) (me : ncclIntruQueue) : ncclIntruQueue * Z :=
  if head me =? 0 then (me, 0) else ncclIntruQueueDequeue h me.

(* src/src/include/utils.h:501-510 ncclIntruQueueTransfer *)
Definition ncclIntruQueueTransfer (h : heap) (dst src : ncclIntruQueue) : heap * ncclIntruQueue * ncclIntruQueue :=
  let '(h, hd) := if tail dst =? 0 then (h, head src) else (hset h (tail dst) (head src), head dst) in
  (h, {| head := hd; tail := if tail src =? 0 then tail dst else tail src; nElems := cwrap i32 (nElems dst + nElems src) |},
   {| head := 0; tail := 0; nElems := 0 |}).

(** ** A queue represents a list *)

Record qrep (h : heap) (q : ncclIntruQueue) (l : list Z) : Prop := {
  qr_seg : lseg h (head q) l 0;
  qr_nodup : NoDup l;
  qr_tail : tail q = lastOf l;
  qr_count : nElems q = cwrap i32 (Z.of_nat (length l)) }.

Section queue.
Context (h : heap) (q : ncclIntruQueue) (l : list Z) (R : qrep h q l).

Lemma qrep_empty : (head q =? 0) = true <-> l = [].
Proof.
  rewrite Z.eqb_eq. pose proof (qr_seg _ _ _ R) as H. split.
  - intros E. rewrite E in H. by apply lseg_null in H.
  - intros ->. done.
Qed.

Lemma qrep_nonempty : (head q =? 0) = false -> exists l' x, l = l' ++ [x] /\ tail q = x.
Proof.
  intros E. assert (l <> []) as Hl by (intros E'%qrep_empty; congruence).
  destruct (exists_last Hl) as (l' & x & ->). exists l', x. split; [done|]. rewrite (qr_tail _ _ _ R). apply lastOf_app.
Qed.

Lemma qrep_frame h' : (forall y, y ∈ l -> h' y = h y) -> qrep h' q l.
Proof. intros E. destruct R. split; try done. by eapply lseg_ext. Qed.

Lemma enqueue_rep x :
  x <> 0 -> x ∉ l ->
  let '(h', q') := ncclIntruQueueEnqueue h q x in qrep h' q' (l ++ [x]) /\ forall y, y ∉ l ++ [x] -> h' y = h y.
Proof.
  intros Hx Hnx. unfold ncclIntruQueueEnqueue. destruct R as [Hseg Hnd Ht Hc].
  assert (NoDup (l ++ [x])) as Hnd'.
  { apply NoDup_app. split_and!; [done| |apply NoDup_singleton]. intros y Hy ->%list_elem_of_singleton. done. }
  assert (cwrap i32 (nElems q + 1) = cwrap i32 (Z.of_nat (length (l ++ [x])))) as Hc'.
  { rewrite Hc, cwrap_add_l, length_app. f_equal. simpl. lia. }
  destruct (head q =? 0) eqn:E.
  - pose proof E as ->%qrep_empty. split; [split; cbn [app lseg head tail]|].
    + rewrite hset_eq. done.
    + done.
    + done.
    + done.
    + intros y Hy. apply hset_ne. set_solver.
  - destruct (qrep_nonempty E) as (l' & t & -> & ->). split; [split|].
    + cbn [head]. rewrite lseg_app. exists x. split; [eapply lseg_relink; [done|]; by apply lseg_hset|].
      cbn [lseg]. rewrite hset_ne, hset_eq; [done|]. set_solver.
    + done.
    + cbn [tail]. by rewrite lastOf_app.
    + done.
    + intros y Hy. rewrite !hset_ne; [done| |]; set_solver.
Qed.

Lemma enqueueFront_rep x :
  x <> 0 -> x ∉ l ->
  let '(h', q') := ncclIntruQueueEnqueueFront h q x in qrep h' q' (x :: l) /\ forall y, y ∉ x :: l -> h' y = h y.
Proof.
  intros Hx Hnx. unfold ncclIntruQueueEnqueueFront. split; [split; cbn [head tail nElems]|].
  - cbn [lseg]. rewrite hset_eq. split_and!; [done..|]. apply lseg_hset; [done|apply R].
  - constructor; [done|apply R].
  - destruct (head q =? 0) eqn:E; [by pose proof E as ->%qrep_empty|].
    destruct (qrep_nonempty E) as (l' & t & -> & ->). by rewrite app_comm_cons, lastOf_app.
  - rewrite (qr_count _ _ _ R), cwrap_add_l. f_equal. simpl. lia.
  - intros y Hy. apply hset_ne. set_solver.
Qed.

Lemma dequeue_rep : l <> [] ->
  let '(q', x) := ncclIntruQueueDequeue h q in exists l', l = x :: l' /\ qrep h q' l'.
Proof.
  intros Hl. unfold ncclIntruQueueDequeue. destruct R as [Hseg Hnd Ht Hc]. destruct l as [|x l']; [done|].
  destruct Hseg as (E & Hx & Hseg). exists l'. rewrite E. split; [done|]. apply NoDup_cons in Hnd as [_ Hnd].
  split; cbn [head tail nElems]; [done|done| |].
  - destruct (Z.eqb_spec (h x) 0) as [E0|E0].
    + rewrite E0 in Hseg. by apply lseg_null in Hseg as ->.
    + rewrite Ht. destruct l' as [|y l']; [cbn in Hseg; done|]. by rewrite lastOf_cons.
  - rewrite Hc. replace (cwrap i32 (Z.of_nat (length (x :: l'))) - 1) with (cwrap i32 (Z.of_nat (length (x :: l'))) + -1) by lia.
    rewrite cwrap_add_l. f_equal. simpl. lia.
Qed.
End queue.

Section walks.
Context (h : heap) (q : ncclIntruQueue) (l : list Z) (R : qrep h q l).

Lemma prefix_last l1 l2 : l = l1 ++ l2 -> l1 <> [] -> (lastOf l1 =? 0) = false.
Proof.
  intros -> E. destruct (proj1 (lseg_app _ _ _ _ _) (qr_seg _ _ _ R)) as (m & H1 & _).
  apply Z.eqb_neq. pose proof (lastOf_elem l1 E) as He. pose proof (lseg_nonnull _ _ _ _ H1) as Hf.
  rewrite Forall_forall in Hf. by apply Hf.
Qed.

Lemma insertSorted_rep fuel x less :
  x <> 0 -> x ∉ l -> (length l < fuel)%nat ->
  exists h' q', ncclIntruQueueInsertSorted fuel h q x less = Some (h', q') /\
    (let '(l1, l2) := span (fun y => less y x) l in qrep h' q' (l1 ++ x :: l2)) /\ forall y, y ∉ x :: l -> h' y = h y.
Proof.
  intros Hx Hnx Hf. unfold ncclIntruQueueInsertSorted. rewrite (walkWhile_spec _ h l fuel 0 _ (qr_seg _ _ _ R) Hf).
  pose proof (span_app (fun y => less y x) l) as E. destruct (span _ l) as [l1 l2]. cbn [fst snd] in *.
  destruct R as [Hseg Hnd Ht Hc]. rewrite <- E in Hseg, Hnd, Ht, Hnx.
  pose proof (lseg_link h _ l1 l2 x Hseg Hnd Hx Hnx) as Hl. cbn zeta in Hl.
  assert ((if firstOf l2 =? 0 then x else tail q) = lastOf (l1 ++ x :: l2)) as Ht'.
  { rewrite Ht, lastOf_app_cons. destruct l2 as [|y l2]; [done|]. apply lseg_nonnull, Forall_app in Hseg as [_ Hy].
    apply Forall_cons in Hy as [Hy _]. cbn [firstOf]. rewrite (proj2 (Z.eqb_neq _ _) Hy).
    by rewrite lastOf_app_cons, lastOf_cons. }
  assert (cwrap i32 (nElems q + 1) = cwrap i32 (Z.of_nat (length (l1 ++ x :: l2)))) as Hc'.
  { rewrite Hc, cwrap_add_l, <- E, !length_app. f_equal. simpl. lia. }
  case_decide as E1.
  - subst. cbn [Z.eqb app] in *. eexists _, _. split; [done|]. split; [split; cbn [head tail nElems]; try done|].
    + by constructor.
    + intros y Hy. apply hset_ne. set_solver.
  - rewrite (prefix_last l1 l2) by done. eexists _, _. split; [done|]. split; [split; cbn [head tail nElems]; try done|].
    + by apply NoDup_link.
    + intros y Hy. pose proof (lastOf_elem l1 E1). rewrite !hset_ne; [done|set_solver|]. intros ->. set_solver.
Qed.

(** Taking out [x] between [l1] and [l2]: the code's updates, given the pointer
    to the object before it. *)
Lemma unlink_rep l1 x l2 :
  l = l1 ++ x :: l2 ->
  let prev := lastOf l1 in
  let '(h', hd) := if prev =? 0 then (h, h x) else (hset h prev (h x), head q) in
  qrep h' {| head := hd; tail := if x =? tail q then prev else tail q; nElems := cwrap i32 (nElems q - 1) |} (l1 ++ l2) /\
  forall y, y ∉ l -> h' y = h y.
Proof.
  intros E prev. destruct R as [Hseg Hnd Ht Hc]. rewrite E in Hseg, Hnd. destruct (lseg_unlink h _ l1 l2 x Hseg Hnd) as [H1 H2].
  assert (NoDup (l1 ++ l2)) as Hnd'.
  { rewrite <- Permutation_middle in Hnd. by apply NoDup_cons in Hnd as [_ ?]. }
  assert (cwrap i32 (nElems q - 1) = cwrap i32 (Z.of_nat (length (l1 ++ l2)))) as Hc'.
  { replace (nElems q - 1) with (nElems q + -1) by lia. rewrite Hc, cwrap_add_l, E, !length_app. f_equal. simpl. lia. }
  assert ((if x =? tail q then prev else tail q) = lastOf (l1 ++ l2)) as Ht'.
  { rewrite Ht, E. destruct l2 as [|z l2]; [by rewrite lastOf_app, Z.eqb_refl, app_nil_r|].
    rewrite !lastOf_app_cons, lastOf_cons. rewrite (proj2 (Z.eqb_neq _ _)); [done|].
    pose proof (lastOf_elem (z :: l2) ltac:(done)) as He. intros E1. rewrite <- E1 in He.
    apply NoDup_app in Hnd as (_ & _ & Hnd). by apply NoDup_cons in Hnd as [? _]. }
  destruct (decide (l1 = [])) as [->|Hl1].
  - cbn [Z.eqb prev lastOf last default app] in *. split; [by split|done].
  - unfold prev. rewrite (prefix_last l1 _ E Hl1). split; [split; cbn [head tail nElems]; auto|].
    intros y Hy. apply hset_ne. pose proof (lastOf_elem l1 Hl1). intros ->. apply Hy. rewrite E. apply elem_of_app. by left.
Qed.

Lemma delete_rep fuel x cmp :
  (length l < fuel)%nat ->
  exists h' q' y, ncclIntruQueueDelete fuel h q x cmp = Some (h', q', y) /\
    (let '(l1, l2) := span (fun y => negb (cmp y x)) l in y = firstOf l2 /\ qrep h' q' (l1 ++ List.tail l2)) /\
    forall y, y ∉ l -> h' y = h y.
Proof.
  intros Hf. unfold ncclIntruQueueDelete. rewrite (walkWhile_spec _ h l fuel 0 _ (qr_seg _ _ _ R) Hf).
  pose proof (span_app (fun y => negb (cmp y x)) l) as E. destruct (span _ l) as [l1 l2]. cbn [fst snd] in *.
  destruct l2 as [|z l2]; cbn [firstOf List.tail].
  - rewrite Z.eqb_refl. eexists _, _, _. split; [done|]. split; [|done]. rewrite E. done.
  - assert (z <> 0) as Hz.
    { pose proof (lseg_nonnull _ _ _ _ (qr_seg _ _ _ R)) as Hn. rewrite <- E in Hn. apply Forall_app in Hn as [_ Hn].
      by apply Forall_cons in Hn as [? _]. }
    rewrite (proj2 (Z.eqb_neq _ _) Hz). pose proof (unlink_rep l1 z l2 (eq_sym E)) as U. cbn zeta in U.
    assert ((if decide (l1 = []) then 0 else lastOf l1) = lastOf l1) as -> by (case_decide; by subst).
    destruct (if lastOf l1 =? 0 then _ else _) as [h' hd]. destruct U as [U1 U2].
    eexists _, _, _. split; [done|]. done.
Qed.

(** [prev] and its successor. *)
Fixpoint delNext (prev : Z) (l : list Z) : list Z * Z :=
  match l with
  | x :: ((y :: r) as r1) => if x =? prev then (x :: r, y) else let '(l', z) := delNext prev r1 in (x :: l', z)
  | _ => (l, 0)
  end.

Lemma delNext_split l1 prev l2 : prev ∉ l1 -> delNext prev (l1 ++ prev :: l2) = (l1 ++ prev :: List.tail l2, firstOf l2).
Proof.
  induction l1 as [|x l1 IH]; intros Hp; [destruct l2; cbn; by rewrite ?Z.eqb_refl|].
  assert (x <> prev) by set_solver. rewrite <- !app_comm_cons.
  assert (exists y r, l1 ++ prev :: l2 = y :: r) as (y & r & E) by (destruct l1; by eexists _, _).
  cbn [delNext]. rewrite E, (proj2 (Z.eqb_neq x prev)), <- E by done. rewrite IH by set_solver. done.
Qed.

Lemma deleteNext_rep prev :
  prev = 0 \/ prev ∈ l ->
  let '(h', q', y) := ncclIntruQueueDeleteNext h q prev in
  (qrep h' q' (fst (delNext prev l)) /\ y = snd (delNext prev l)) /\ forall y, y ∉ l -> h' y = h y.
Proof.
  unfold ncclIntruQueueDeleteNext. intros Hp. destruct (Z.eqb_spec prev 0) as [->|Hp0].
  { cbn [orb]. assert (delNext 0 l = (l, 0)) as ->; [|done].
    pose proof (lseg_nonnull _ _ _ _ (qr_seg _ _ _ R)) as Hn. clear - Hn. induction Hn as [|x l Hx Hn IH]; [done|].
    cbn [delNext]. destruct l as [|y l]; [done|]. rewrite (proj2 (Z.eqb_neq _ _) Hx). by rewrite IH. }
  destruct Hp as [->|Hp]; [done|]. apply list_elem_of_split in Hp as (l1 & l2 & E).
  pose proof (qr_nodup _ _ _ R) as Hnd. pose proof (qr_seg _ _ _ R) as Hseg. rewrite E in Hseg, Hnd.
  assert (prev ∉ l1) as Hp1 by (apply NoDup_app in Hnd as (_ & Hd & _); intros ?; apply (Hd prev); set_solver).
  assert (delNext prev l = (l1 ++ prev :: List.tail l2, firstOf l2)) as -> by (rewrite E; by apply delNext_split).
  apply lseg_app in Hseg as (m & H1 & (-> & _ & H2)). pose proof (lseg_first _ _ _ H2) as Ef. rewrite Ef.
  cbn [orb fst snd]. destruct l2 as [|x l2]; cbn [firstOf List.tail].
  { rewrite Z.eqb_refl, <- E. cbv iota beta. split; [|done]. split; [apply R|done]. }
  cbn [lseg] in H2. destruct H2 as (_ & Hx & H2). rewrite (proj2 (Z.eqb_neq _ _) Hx).
  pose proof (unlink_rep (l1 ++ [prev]) x l2 ltac:(by rewrite E, <- app_assoc)) as U. cbn zeta in U.
  rewrite lastOf_app, (proj2 (Z.eqb_neq _ _) Hp0), <- app_assoc in U. cbn [app] in U.
  rewrite (Z.eqb_sym (tail q) x). destruct U as [U1 U2]. done.
Qed.
End walks.

Lemma transfer_rep h dst src l1 l2 :
  qrep h dst l1 -> qrep h src l2 -> (forall x, x ∈ l1 -> x ∉ l2) ->
  let '(h', dst', src') := ncclIntruQueueTransfer h dst src in
  (qrep h' dst' (l1 ++ l2) /\ qrep h' src' []) /\ forall y, y ∉ l1 -> h' y = h y.
Proof.
  intros R1 R2 Hd. unfold ncclIntruQueueTransfer.
  assert (NoDup (l1 ++ l2)) as Hnd by (apply NoDup_app; split_and!; [apply R1|done|apply R2]).
  assert (cwrap i32 (nElems dst + nElems src) = cwrap i32 (Z.of_nat (length (l1 ++ l2)))) as Hc.
  { rewrite (qr_count _ _ _ R1), (qr_count _ _ _ R2), cwrap_add_l, cwrap_add_r, length_app. f_equal. lia. }
  assert ((if tail src =? 0 then tail dst else tail src) = lastOf (l1 ++ l2)) as Ht.
  { rewrite (qr_tail _ _ _ R1), (qr_tail _ _ _ R2). destruct l2 as [|x l2]; [by rewrite app_nil_r|].
    rewrite lastOf_app_cons, (proj2 (Z.eqb_neq _ _)); [done|]. eapply lastOf_null; [apply R2|done]. }
  assert (forall h, qrep h {| head := 0; tail := 0; nElems := 0 |} []) as R0 by (intros h'; split; [done|constructor|done|done]).
  pose proof (qr_tail _ _ _ R1) as Et. destruct (decide (l1 = [])) as [->|Hl1].
  - rewrite Et in *. cbn [lastOf last default Z.eqb app] in *. split; [|done]. split; [|done]. split; try done. apply R2.
  - assert ((tail dst =? 0) = false) as -> by (rewrite Et; apply Z.eqb_neq; eapply lastOf_null; [apply R1|done]).
    rewrite Et in *. split.
    + split; [|done]. split; cbn [head tail nElems]; try done.
      destruct (exists_last Hl1) as (l1' & t & ->). rewrite lastOf_app, lseg_app. exists (head src). split.
      * eapply lseg_relink; [apply R1|apply R1].
      * apply lseg_hset; [set_solver|apply R2].
    + intros y Hy. apply hset_ne. intros ->. by apply Hy, lastOf_elem.
Qed.

(** ** Queues that share objects refine lists *)

Inductive qop :=
  | OEnqueue (i : nat) (x : Z)
  | OEnqueueFront (i : nat) (x : Z)
  | OInsertSorted (i : nat) (x : Z)
  | ODeleteNext (i : nat) (prev : Z)
  | ODequeue (i : nat)
  | OTryDequeue (i : nat)
  | ODelete (i : nat) (x : Z)
  | OTransfer (dst src : nat).

Section refinement.
Context (less cmp : Z -> Z -> bool).

(** An operation of the code on queue [i], with what it returns. *)
Definition runOp (fuel : nat) (h : heap) (qs : list ncclIntruQueue) (op : qop) : option (heap * list ncclIntruQueue * Z) :=
  match op with
  | OEnqueue i x => q ← qs !! i; let '(h, q) := ncclIntruQueueEnqueue h q x in Some (h, <[i := q]> qs, 0)
  | OEnqueueFront i x => q ← qs !! i; let '(h, q) := ncclIntruQueueEnqueueFront h q x in Some (h, <[i := q]> qs, 0)
  | OInsertSorted i x => q ← qs !! i; '(h, q) ← ncclIntruQueueInsertSorted fuel h q x less; Some (h, <[i := q]> qs, 0)
  | ODeleteNext i prev => q ← qs !! i; let '(h, q, y) := ncclIntruQueueDeleteNext h q prev in Some (h, <[i := q]> qs, y)
  | ODequeue i => q ← qs !! i; let '(q, y) := ncclIntruQueueDequeue h q in Some (h, <[i := q]> qs, y)
  | OTryDequeue i => q ← qs !! i; let '(q, y) := ncclIntruQueueTryDequeue h q in Some (h, <[i := q]> qs, y)
  | ODelete i x => q ← qs !! i; '(h, q, y) ← ncclIntruQueueDelete fuel h q x cmp; Some (h, <[i := q]> qs, y)
  | OTransfer dst src =>
      d ← qs !! dst; s ← qs !! src; let '(h, d, s) := ncclIntruQueueTransfer h d s in Some (h, <[dst := d]> (<[src := s]> qs), 0)
  end.

(** The same on lists; none where the code has no meaning: a null object or one
    that is in a queue is added, the empty queue is dequeued, or a queue is
    transferred to itself. *)
Definition absOp (L : list (list Z)) (op : qop) : option (list (list Z) * Z) :=
  let fresh x := negb (x =? 0) && bool_decide (x ∉ concat L) in
  match op with
  | OEnqueue i x => l ← L !! i; if fresh x then Some (<[i := l ++ [x]]> L, 0) else None
  | OEnqueueFront i x => l ← L !! i; if fresh x then Some (<[i := x :: l]> L, 0) else None
  | OInsertSorted i x => l ← L !! i;
      if fresh x then let '(l1, l2) := span (fun y => less y x) l in Some (<[i := l1 ++ x :: l2]> L, 0) else None
  | ODeleteNext i prev => l ← L !! i;
      if (prev =? 0) || bool_decide (prev ∈ l) then let '(l', y) := delNext prev l in Some (<[i := l']> L, y) else None
  | ODequeue i => l ← L !! i; match l with [] => None | x :: l' => Some (<[i := l']> L, x) end
  | OTryDequeue i => l ← L !! i; match l with [] => Some (L, 0) | x :: l' => Some (<[i := l']> L, x) end
  | ODelete i x => l ← L !! i;
      let '(l1, l2) := span (fun y => negb (cmp y x)) l in Some (<[i := l1 ++ List.tail l2]> L, firstOf l2)
  | OTransfer dst src => l1 ← L !! dst; l2 ← L !! src;
      if (dst =? src)%nat then None else Some (<[dst := l1 ++ l2]> (<[src := []]> L), 0)
  end.

Fixpoint runOps (fuel : nat) (h : heap) (qs : list ncclIntruQueue) (ops : list qop) : option (heap * list ncclIntruQueue * list Z) :=
  match ops with
  | [] => Some (h, qs, [])
  | op :: ops =>
      '(h, qs, y) ← runOp fuel h qs op; '(h, qs, ys) ← runOps fuel h qs ops; Some (h, qs, y :: ys)
  end.

Fixpoint absOps (L : list (list Z)) (ops : list qop) : option (list (list Z) * list Z) :=
  match ops with
  | [] => Some (L, [])
  | op :: ops => '(L, y) ← absOp L op; '(L, ys) ← absOps L ops; Some (L, y :: ys)
  end.

Definition repAll (h : heap) (qs : list ncclIntruQueue) (L : list (list Z)) : Prop :=
  Forall2 (qrep h) qs L /\ NoDup (concat L).

Lemma repAll_update h h' qs L i q' l l' :
  repAll h qs L -> L !! i = Some l -> qrep h' q' l' -> NoDup (l' ++ concat (delete i L)) ->
  (forall y, y ∈ concat (delete i L) -> h' y = h y) -> repAll h' (<[i := q']> qs) (<[i := l']> L).
Proof.
  intros [HF Hnd] E Hq Hnd' Hfr. split; [|by rewrite (concat_insert _ _ _ _ E)].
  apply Forall2_same_length_lookup. rewrite !length_insert. split; [by eapply Forall2_length|].
  intros j q a Hqj Haj. destruct (Nat.eq_dec i j) as [<-|Hne].
  - pose proof (lookup_lt_Some _ _ _ E) as Hlt. rewrite list_lookup_insert_eq in Haj by done.
    rewrite list_lookup_insert_eq in Hqj by (by rewrite (Forall2_length _ _ _ HF)). by simplify_eq.
  - rewrite list_lookup_insert_ne in Hqj by done. rewrite list_lookup_insert_ne in Haj by done. eapply qrep_frame; [by eapply Forall2_lookup_lr|].
    intros y Hy. apply Hfr. by eapply elem_of_rest.
Qed.

Lemma repAll_lookup h qs L i l : repAll h qs L -> L !! i = Some l -> exists q, qs !! i = Some q /\ qrep h q l.
Proof. intros [HF _] E. destruct (Forall2_lookup_r _ _ _ _ _ HF E) as (q & Hq & R). by exists q. Qed.

Lemma repAll_disjoint h qs L i l : repAll h qs L -> L !! i = Some l -> forall y, y ∈ concat (delete i L) -> y ∉ l.
Proof. intros [_ Hnd] E y Hy Hl. rewrite (concat_at _ _ _ E) in Hnd. apply NoDup_app in Hnd as (_ & Hd & _). by apply (Hd y). Qed.

(** One operation on one queue, from what it does to that queue. *)
Lemma repAll_op h qs L i l h' q' l' :
  repAll h qs L -> L !! i = Some l -> qrep h' q' l' ->
  (forall y, y ∈ l' -> y ∈ l \/ y ∉ concat L) -> (forall y, y ∉ l -> y ∈ concat L -> h' y = h y) ->
  (length l' <= S (length l))%nat ->
  repAll h' (<[i := q']> qs) (<[i := l']> L) /\ (length (concat (<[i := l']> L)) <= S (length (concat L)))%nat.
Proof.
  intros HR E Hq Hsub Hfr Hlen. pose proof (concat_at _ _ _ E) as P. pose proof (repAll_disjoint _ _ _ _ _ HR E) as Hdis.
  assert (forall y, y ∈ concat (delete i L) -> y ∈ concat L) as Hin by (intros y Hy; rewrite P; apply elem_of_app; by right).
  split.
  - eapply repAll_update; [done|done|done| |].
    + pose proof HR as [_ Hnd]. rewrite P in Hnd. apply NoDup_app in Hnd as (_ & _ & Hnd).
      apply NoDup_app. split_and!; [apply Hq| |done]. intros y Hy Hr.
      destruct (Hsub y Hy) as [Hl|Hl]; [by apply (Hdis y)|by apply Hl, Hin].
    + intros y Hy. apply Hfr; [by apply Hdis|by apply Hin].
  - rewrite (concat_insert _ _ _ _ E), P, !length_app. lia.
Qed.

Lemma absOp_fresh L x : negb (x =? 0) && bool_decide (x ∉ concat L) = true -> x <> 0 /\ x ∉ concat L.
Proof. intros [Hx%negb_true_iff%Z.eqb_neq Hn%bool_decide_eq_true]%andb_true_iff. done. Qed.

Lemma delNext_sub prev l : (forall y, y ∈ fst (delNext prev l) -> y ∈ l) /\ (length (fst (delNext prev l)) <= length l)%nat.
Proof.
  induction l as [|x [|y l] IH]; [done|done|].
  change (delNext prev (x :: y :: l)) with
    (if x =? prev then (x :: l, y) else let '(l', z) := delNext prev (y :: l) in (x :: l', z)).
  destruct (x =? prev); cbn [fst].
  - split; [set_solver|simpl; lia].
  - destruct (delNext prev (y :: l)) as [l' z]. cbn [fst] in *. destruct IH as [I1 I2].
    split; [|cbn [length] in *; lia]. intros w [->|Hw]%elem_of_cons; [left|right; by apply I1].
Qed.

(** An operation of the code does what it does on lists. *)
Definition opRefines (op : qop) : Prop := forall fuel h qs L L' y,
  repAll h qs L -> absOp L op = Some (L', y) -> (length (concat L) < fuel)%nat ->
  exists h' qs', runOp fuel h qs op = Some (h', qs', y) /\ repAll h' qs' L' /\ (length (concat L') <= S (length (concat L)))%nat.

(** The common start: the queue and its list. *)
Ltac op_start :=
  let HA := fresh "HA" in
  intros fuel h qs L L' y HR HA Hf; cbn [absOp runOp] in *; apply bind_Some in HA as (l & E & HA);
  assert (length l < fuel)%nat as Hfl by (rewrite (concat_at _ _ _ E), length_app in Hf; lia);
  destruct (repAll_lookup _ _ _ _ _ HR E) as (q & Hq & R); rewrite Hq; cbn [mbind option_bind];
  revert HA.

Ltac op_fresh x Hx Hn :=
  destruct (negb _ && _) eqn:Ef; [|done]; apply absOp_fresh in Ef as [Hx Hn].

Lemma op_enqueue i x : opRefines (OEnqueue i x).
Proof.
  op_start. op_fresh x Hx Hn. intros [= <- <-]. pose proof (enqueue_rep h q l R x Hx (concat_elem _ _ _ _ E Hn)) as P.
  destruct (ncclIntruQueueEnqueue h q x) as [h' q']. destruct P as [P1 P2]. eexists _, _. split; [done|].
  apply (repAll_op h qs L i l h' q' _ HR E P1); [set_solver| |rewrite length_app; simpl; lia].
  intros y Hy Hc. apply P2. set_solver.
Qed.

Lemma op_enqueueFront i x : opRefines (OEnqueueFront i x).
Proof.
  op_start. op_fresh x Hx Hn. intros [= <- <-]. pose proof (enqueueFront_rep h q l R x Hx (concat_elem _ _ _ _ E Hn)) as P.
  destruct (ncclIntruQueueEnqueueFront h q x) as [h' q']. destruct P as [P1 P2]. eexists _, _. split; [done|].
  apply (repAll_op h qs L i l h' q' _ HR E P1); [set_solver| |simpl; lia].
  intros y Hy Hc. apply P2. set_solver.
Qed.

Lemma op_insertSorted i x : opRefines (OInsertSorted i x).
Proof.
  op_start. op_fresh x Hx Hn. pose proof (span_app (fun y => less y x) l) as Es.
  destruct (insertSorted_rep h q l R fuel x less Hx (concat_elem _ _ _ _ E Hn) Hfl) as (h' & q' & -> & P1 & P2).
  destruct (span _ l) as [l1 l2]. cbn [fst snd mbind option_bind] in *. intros [= <- <-]. eexists _, _. split; [done|].
  apply (repAll_op h qs L i l h' q' _ HR E P1); [set_solver| |rewrite <- Es, !length_app; simpl; lia].
  intros y Hy Hc. apply P2. set_solver.
Qed.

Lemma op_deleteNext i prev : opRefines (ODeleteNext i prev).
Proof.
  op_start. destruct ((prev =? 0) || _) eqn:Ep; [|done].
  assert (prev = 0 \/ prev ∈ l) as Hp by (apply orb_true_iff in Ep as [Ep%Z.eqb_eq|Ep%bool_decide_eq_true]; auto).
  pose proof (deleteNext_rep h q l R prev Hp) as P. destruct (delNext_sub prev l) as [S1 S2].
  destruct (ncclIntruQueueDeleteNext h q prev) as [[h' q'] z], (delNext prev l) as [l' z']. cbn [fst snd] in *.
  destruct P as [[P1 ->] P2]. intros [= <- <-]. eexists _, _. split; [done|].
  apply (repAll_op h qs L i l h' q' _ HR E P1); [set_solver| |lia]. intros y Hy _. by apply P2.
Qed.

Lemma op_dequeue i : opRefines (ODequeue i).
Proof.
  op_start. destruct l as [|x l']; [done|]. pose proof (dequeue_rep h q _ R ltac:(done)) as P.
  destruct (ncclIntruQueueDequeue h q) as [q' z]. destruct P as (l1 & [= <- <-] & P). intros [= <- <-].
  eexists _, _. split; [done|]. apply (repAll_op h qs L i (x :: l') h q' _ HR E P); [set_solver|done|simpl; lia].
Qed.

Lemma op_tryDequeue i : opRefines (OTryDequeue i).
Proof.
  intros fuel h qs L L' y HR HA Hf. destruct (L !! i) as [[|x l']|] eqn:E; cbn [absOp runOp] in *; rewrite E in HA; cbn in HA; [| |done].
  - destruct (repAll_lookup _ _ _ _ _ HR E) as (q & Hq & R). rewrite Hq. cbn [mbind option_bind]. simplify_eq.
    unfold ncclIntruQueueTryDequeue. rewrite (proj2 (qrep_empty h q [] R) eq_refl). eexists _, _. split; [done|].
    rewrite list_insert_id by done. split; [done|lia].
  - destruct (repAll_lookup _ _ _ _ _ HR E) as (q & Hq & R).
    destruct (op_dequeue i fuel h qs L L' y HR ltac:(cbn; by rewrite E) Hf) as (h' & qs' & E' & Hr). exists h', qs'. split; [|done].
    cbn [runOp] in E'. rewrite Hq in E' |- *. cbn [mbind option_bind] in *. unfold ncclIntruQueueTryDequeue.
    destruct (head q =? 0) eqn:Eh; [|done]. by apply (qrep_empty h q _ R) in Eh.
Qed.

Lemma op_delete i x : opRefines (ODelete i x).
Proof.
  op_start. pose proof (span_app (fun y => negb (cmp y x)) l) as Es.
  destruct (delete_rep h q l R fuel x cmp Hfl) as (h' & q' & z & -> & P1 & P2). destruct (span _ l) as [l1 l2].
  cbn [fst snd mbind option_bind] in *. destruct P1 as [-> P1]. intros [= <- <-]. eexists _, _. split; [done|].
  assert (forall y, y ∈ List.tail l2 -> y ∈ l2) as Ht by (destruct l2; set_solver).
  apply (repAll_op h qs L i l h' q' _ HR E P1); [set_solver|intros y Hy _; by apply P2|].
  rewrite <- Es, !length_app. destruct l2; simpl; lia.
Qed.

Lemma op_transfer dst src : opRefines (OTransfer dst src).
Proof.
  op_start. intros HA. apply bind_Some in HA as (l2 & E2 & HA). destruct (Nat.eqb_spec dst src) as [|Hne]; [done|]. simplify_eq.
  destruct (repAll_lookup _ _ _ _ _ HR E2) as (q2 & Hq2 & R2). rewrite Hq2. cbn [mbind option_bind].
  pose proof (repAll_disjoint _ _ _ _ _ HR E2) as Hd2.
  pose proof (transfer_rep h q q2 l l2 R R2 ltac:(intros x Hx; apply Hd2; by eapply (elem_of_rest _ src dst))) as P.
  destruct (ncclIntruQueueTransfer h q q2) as [[h' q'] q2']. destruct P as [[P1 P2] P3].
  eexists _, _. split; [done|].
  assert (<[src := []]> L !! dst = Some l) as E' by (by rewrite list_lookup_insert_ne).
  assert (repAll h (<[src := q2']> qs) (<[src := []]> L)) as HR'.
  { pose proof HR as [_ Hnd]. rewrite (concat_at _ _ _ E2) in Hnd. apply NoDup_app in Hnd as (_ & _ & Hnd).
    assert (qrep h q2' []) as Rn by (destruct P2; split; [by apply lseg_null in qr_seg0 || done..]).
    by apply (repAll_update h h qs L src q2' l2 []). }
  pose proof (concat_at _ _ _ E2) as C2. pose proof (concat_insert _ _ _ [] E2) as C3. pose proof (concat_at _ _ _ E') as C4.
  rewrite C4 in C3. cbn [app] in C3. rewrite <- C3 in C2.
  assert ((l ++ l2) ++ concat (delete dst (<[src:=[]]> L)) ≡ₚ concat L) as C5.
  { rewrite C2, !app_assoc. by rewrite (Permutation_app_comm l l2). }
  split.
  - eapply repAll_update; [exact HR'|exact E'|exact P1| |].
    + rewrite C5. apply HR.
    + intros y Hy. apply P3. intros Hl. by apply (repAll_disjoint _ _ _ _ _ HR' E' y Hy).
  - rewrite (concat_insert _ _ _ _ E'), C5. lia.
Qed.

Lemma op_refines op : opRefines op.
Proof.
  destruct op; eauto using op_enqueue, op_enqueueFront, op_insertSorted, op_deleteNext, op_dequeue, op_tryDequeue, op_delete, op_transfer.
Qed.

(** C35: intrusive queues that share their objects refine lists: any sequence of
    operations that is defined on lists runs in the code with the same returned
    objects, every loop ends, and each queue then holds its list, with the tail
    and the count that go with it. *)
Theorem ncclIntruQueue_refines fuel h qs L ops L' ys :
  repAll h qs L -> absOps L ops = Some (L', ys) -> (length (concat L) + length ops < fuel)%nat ->
  exists h' qs', runOps fuel h qs ops = Some (h', qs', ys) /\ repAll h' qs' L'.
Proof.
  revert h qs L ys. induction ops as [|op ops IH]; intros h qs L ys HR HA Hf; cbn [absOps runOps length] in *.
  { simplify_eq. by exists h, qs. }
  apply bind_Some in HA as ([L1 y] & E1 & HA). apply bind_Some in HA as ([L2 ys'] & E2 & [= <- <-]).
  destruct (op_refines op fuel h qs L L1 y HR E1 ltac:(lia)) as (h1 & qs1 & -> & HR1 & Hl). cbn [mbind option_bind].
  destruct (IH h1 qs1 L1 ys' HR1 E2 ltac:(lia)) as (h2 & qs2 & -> & HR2). cbn [mbind option_bind]. by exists h2, qs2.
Qed.
End refinement.

Lemma ncclIntruQueue_refines_witness :
  exists h' qs',
    runOps Z.ltb Z.eqb 20 (fun _ => 77) [ncclIntruQueueConstruct; ncclIntruQueueConstruct]
      [OEnqueue 0 5; OInsertSorted 1 9; OInsertSorted 1 3; OInsertSorted 1 6; OTransfer 0 1; ODelete 0 3; ODeleteNext 0 6;
       OEnqueueFront 1 9; OTryDequeue 0] = Some (h', qs', [0; 0; 0; 0; 0; 3; 9; 0; 5]) /\
    repAll h' qs' [[6]; [9]].
Proof.
  apply (ncclIntruQueue_refines Z.ltb Z.eqb 20 _ _ [[]; []]).
  - split; [|constructor]. repeat constructor.
  - vm_compute. reflexivity.
  - simpl. lia.
Defined.

(** Inserts keep the queue sorted, when no two objects are each less than the
    other. *)
Lemma insertSorted_sorted (less : Z -> Z -> bool) l x :
  (forall a b, less a b = true -> less b a = false) ->
  Sorted (fun a b => less b a = false) l ->
  let '(l1, l2) := span (fun y => less y x) l in Sorted (fun a b => less b a = false) (l1 ++ x :: l2).
Proof.
  intros Has. induction l as [|y l IH]; intros Hs; cbn [span].
  - repeat constructor.
  - destruct (less y x) eqn:Ey.
    + apply Sorted_inv in Hs as [Hs Hh]. specialize (IH Hs). destruct (span _ l) as [l1 l2] eqn:Es. cbn [app].
      constructor; [done|]. destruct l1 as [|z l1]; cbn [app]; constructor; [by apply Has|].
      pose proof (span_app (fun y => less y x) l) as Ea. rewrite Es in Ea. cbn [fst snd app] in Ea. rewrite <- Ea in Hh. by inversion Hh.
    + constructor; [done|]. by constructor.
Qed.

(** ** The memory pool *)

(** The tail has a meaning only when the pool is not empty. *)
(* src/src/include/utils.h:330-336 ncclMemoryPool *)
Record ncclMemoryPool := { cells : Z; lastCell : Z }.

(* src/src/include/utils.h:338-340 ncclMemoryPoolConstruct *)
Definition ncclMemoryPoolConstruct (me : ncclMemoryPool) : ncclMemoryPool := {| cells := 0; lastCell := lastCell me |}.

(** [fresh] is what the backing stack would allocate.  The cell is cleared, its
    link with it. *)
(* src/src/include/utils.h:342-358 ncclMemoryPoolAlloc *)
Definition ncclMemoryPoolAlloc (h : heap) (me : ncclMemoryPool) (fresh : Z) : heap * ncclMemoryPool * Z :=
  if negb (cells me =? 0) then
    let cell := cells me in (hset h cell 0, {| cells := h cell; lastCell := lastCell me |}, cell)
  else (hset h fresh 0, me, fresh).

(* src/src/include/utils.h:360-367 ncclMemoryPoolFree *)
Definition ncclMemoryPoolFree (h : heap) (me : ncclMemoryPool) (cell : Z) : heap * ncclMemoryPool :=
  (hset h cell (cells me), {| cells := cell; lastCell := if cells me =? 0 then cell else lastCell me |}).

(* src/src/include/utils.h:369-376 ncclMemoryPoolTakeAll *)
Definition ncclMemoryPoolTakeAll (h : heap) (me from : ncclMemoryPool) : heap * ncclMemoryPool * ncclMemoryPool :=
  if negb (cells from =? 0) then
    (hset h (lastCell from) (cells me),
     {| cells := cells from; lastCell := if cells me =? 0 then lastCell from else lastCell me |},
     {| cells := 0; lastCell := lastCell from |})
  else (h, me, from).

Record prep (h : heap) (p : ncclMemoryPool) (l : list Z) : Prop := {
  pr_seg : lseg h (cells p) l 0;
  pr_tail : l <> [] -> lastCell p = lastOf l }.

(** Two pools over one heap, the cells that are in use, and the pool each
    operation works on. *)
Inductive poolOp := PAlloc (second : bool) (fresh : Z) | PFree (second : bool) (x : Z) | PTakeAll (second : bool).

Record poolState := { ps_heap : heap; ps_a : ncclMemoryPool; ps_b : ncclMemoryPool; ps_live : list Z }.

Definition poolStep (s : poolState) (op : poolOp) : poolState :=
  let pool (second : bool) := if second then ps_b s else ps_a s in
  let upd (second : bool) h p live :=
    if second then {| ps_heap := h; ps_a := ps_a s; ps_b := p; ps_live := live |}
    else {| ps_heap := h; ps_a := p; ps_b := ps_b s; ps_live := live |} in
  match op with
  | PAlloc second fresh => let '(h, p, x) := ncclMemoryPoolAlloc (ps_heap s) (pool second) fresh in upd second h p (x :: ps_live s)
  | PFree second x => let '(h, p) := ncclMemoryPoolFree (ps_heap s) (pool second) x in
      upd second h p (filter (fun y => y <> x) (ps_live s))
  | PTakeAll second =>
      let '(h, p, p') := ncclMemoryPoolTakeAll (ps_heap s) (pool second) (pool (negb second)) in
      {| ps_heap := h; ps_a := if second then p' else p; ps_b := if second then p else p'; ps_live := ps_live s |}
  end.

(** Every cell is in use or in one of the pools, once. *)
Definition poolInv (s : poolState) (a b : list Z) : Prop :=
  prep (ps_heap s) (ps_a s) a /\ prep (ps_heap s) (ps_b s) b /\ NoDup (ps_live s ++ a ++ b) /\ Forall (fun x => x <> 0) (ps_live s).

(** What the caller keeps to: the backing stack gives a cell that is nowhere,
    and only cells in use are freed. *)
Definition poolPre (s : poolState) (a b : list Z) (op : poolOp) : Prop :=
  match op with
  | PAlloc _ fresh => fresh <> 0 /\ fresh ∉ ps_live s ++ a ++ b
  | PFree _ x => x ∈ ps_live s
  | PTakeAll _ => True
  end.

Lemma prep_frame h h' p l : prep h p l -> (forall y, y ∈ l -> h' y = h y) -> prep h' p l.
Proof. intros [H1 H2] E. split; [by eapply lseg_ext|done]. Qed.

Lemma prep_empty h p l : prep h p l -> (cells p =? 0) = true <-> l = [].
Proof.
  intros [H _]. rewrite Z.eqb_eq. split; [|by intros ->]. intros E. rewrite E in H. by apply lseg_null in H.
Qed.

Lemma alloc_rep h p l fresh :
  prep h p l -> NoDup l ->
  let '(h', p', x) := ncclMemoryPoolAlloc h p fresh in
  (exists l', prep h' p' l' /\ (l = x :: l' \/ (l = [] /\ l' = [] /\ x = fresh))) /\ forall y, y <> x -> h' y = h y.
Proof.
  intros R Hnd. unfold ncclMemoryPoolAlloc. destruct (cells p =? 0) eqn:E; cbn [negb].
  - pose proof E as El. rewrite (prep_empty h p l R) in El. subst. split; [|intros; by apply hset_ne]. exists [].
    split; [|by right]. split; [|done]. apply (pr_seg _ _ _ R).
  - destruct l as [|x l]; [by rewrite (proj2 (prep_empty h p [] R)) in E|]. destruct R as [(-> & Hx & H) Ht].
    split; [|intros; by apply hset_ne]. exists l. split; [|by left]. apply NoDup_cons in Hnd as [Hn _]. split; cbn [cells lastCell].
    + by apply lseg_hset.
    + intros Hl. rewrite Ht by done. destruct l; [done|]. by rewrite lastOf_cons.
Qed.

Lemma free_rep h p l x :
  prep h p l -> x <> 0 -> x ∉ l ->
  let '(h', p') := ncclMemoryPoolFree h p x in prep h' p' (x :: l) /\ forall y, y <> x -> h' y = h y.
Proof.
  intros R Hx Hn. unfold ncclMemoryPoolFree. split; [|intros; by apply hset_ne]. split; cbn [cells lastCell].
  - cbn [lseg]. rewrite hset_eq. split_and!; [done..|]. apply lseg_hset; [done|apply R].
  - intros _. destruct (cells p =? 0) eqn:E; [by rewrite (prep_empty h p l R) in E; subst|].
    destruct l as [|y l]; [by rewrite (proj2 (prep_empty h p [] R)) in E|]. rewrite lastOf_cons. by apply R.
Qed.

Lemma takeAll_rep h me from l1 l2 :
  prep h me l1 -> prep h from l2 -> NoDup (l2 ++ l1) ->
  let '(h', me', from') := ncclMemoryPoolTakeAll h me from in
  prep h' me' (l2 ++ l1) /\ prep h' from' [] /\ forall y, y ∉ l2 -> h' y = h y.
Proof.
  intros R1 R2 Hnd. unfold ncclMemoryPoolTakeAll. destruct (cells from =? 0) eqn:E; cbn [negb].
  - rewrite (prep_empty h from l2 R2) in E. subst. done.
  - assert (l2 <> []) as Hl2 by (intros ->; by rewrite (proj2 (prep_empty h from [] R2)) in E).
    destruct (exists_last Hl2) as (l & t & ->). pose proof (pr_tail _ _ _ R2 Hl2) as Ht. rewrite lastOf_app in Ht. rewrite Ht.
    apply NoDup_app in Hnd as (Hnd2 & Hd & Hnd1). split_and!.
    + split; cbn [cells lastCell].
      * rewrite lseg_app. exists (cells me). split; [eapply lseg_relink; [done|apply R2]|].
        apply lseg_hset; [|apply R1]. apply Hd. set_solver.
      * intros _. destruct (cells me =? 0) eqn:E1.
        -- rewrite (prep_empty h me l1 R1) in E1. subst. by rewrite app_nil_r, lastOf_app.
        -- destruct l1 as [|y l1]; [by rewrite (proj2 (prep_empty h me [] R1)) in E1|].
           rewrite lastOf_app_cons. by apply R1.
    + done.
    + intros y Hy. apply hset_ne. set_solver.
Qed.

Lemma filter_ne_perm (l : list Z) x : NoDup l -> x ∈ l -> l ≡ₚ x :: filter (fun y => y <> x) l.
Proof.
  intros Hnd Hx. apply NoDup_Permutation; [done| |].
  - constructor; [rewrite list_elem_of_filter; tauto|by apply NoDup_filter].
  - intros y. rewrite elem_of_cons, list_elem_of_filter. destruct (decide (y = x)) as [->|]; tauto.
Qed.

(** The sides of a step are symmetric. *)
Definition swapPools (s : poolState) : poolState :=
  {| ps_heap := ps_heap s; ps_a := ps_b s; ps_b := ps_a s; ps_live := ps_live s |}.
Definition swapOp (op : poolOp) : poolOp :=
  match op with PAlloc w x => PAlloc (negb w) x | PFree w x => PFree (negb w) x | PTakeAll w => PTakeAll (negb w) end.

Lemma swap_step s op : poolStep (swapPools s) (swapOp op) = swapPools (poolStep s op).
Proof.
  destruct op as [[] x|[] x|[]]; unfold poolStep, swapPools, swapOp; cbn [negb ps_a ps_b ps_heap ps_live];
    try destruct (ncclMemoryPoolAlloc _ _ _) as [[??]?]; try destruct (ncclMemoryPoolFree _ _ _) as [??];
    try destruct (ncclMemoryPoolTakeAll _ _ _) as [[??]?]; done.
Qed.

Lemma swap_inv s a b : poolInv (swapPools s) b a <-> poolInv s a b.
Proof. unfold poolInv, swapPools. cbn. rewrite (Permutation_app_comm b a). tauto. Qed.

Lemma poolStep_first s a b op :
  match op with PAlloc w _ | PFree w _ | PTakeAll w => w = false end ->
  poolInv s a b -> poolPre s a b op -> exists a' b', poolInv (poolStep s op) a' b'.
Proof.
  intros Hw (Ra & Rb & Hnd & Hnz) Hp. pose proof Hnd as (Hl & Hd & Hab)%NoDup_app. pose proof Hab as (Ha & Hdab & Hb)%NoDup_app.
  destruct op as [w fresh|w x|w]; subst w; cbn [poolStep negb poolPre] in *.
  - pose proof (alloc_rep _ _ _ fresh Ra Ha) as P. destruct (ncclMemoryPoolAlloc _ _ _) as [[h' p'] x].
    destruct P as [(l' & R' & Hx) Hfr]. exists l', b. unfold poolInv. cbn [ps_heap ps_a ps_b ps_live]. destruct Hx as [->|(-> & -> & ->)].
    + split_and!; [done| | |constructor; [|done]].
      * eapply prep_frame; [done|]. intros y Hy. apply Hfr. intros ->. apply (Hdab x); [left|done].
      * cbn [app] in *. by rewrite <- Permutation_middle in Hnd.
      * destruct Ra as [(_ & ? & _) _]. done.
    + destruct Hp as [H0 Hp]. split_and!; [done| | |by constructor].
      * eapply prep_frame; [done|]. intros y Hy. apply Hfr. intros ->. set_solver.
      * cbn [app] in *. by constructor.
  - pose proof (filter_ne_perm _ x Hl Hp) as Pm. rewrite Forall_forall in Hnz.
    assert (x ∉ a ++ b) as Hxn by (by apply Hd). pose proof (free_rep _ _ _ x Ra (Hnz x Hp) ltac:(set_solver)) as P.
    destruct (ncclMemoryPoolFree _ _ _) as [h' p']. destruct P as [R' Hfr]. exists (x :: a), b.
    unfold poolInv. cbn [ps_heap ps_a ps_b ps_live]. split_and!; [done| | |].
    + eapply prep_frame; [done|]. intros y Hy. apply Hfr. set_solver.
    + cbn [app]. rewrite <- Permutation_middle, app_comm_cons, <- Pm. done.
    + apply Forall_forall. intros y [_ Hy]%list_elem_of_filter. by apply Hnz.
  - assert (NoDup (b ++ a)) as Hba by (by rewrite Permutation_app_comm).
    pose proof (takeAll_rep _ _ _ _ _ Ra Rb Hba) as P.
    destruct (ncclMemoryPoolTakeAll _ _ _) as [[h' p'] p'']. destruct P as (R' & R'' & Hfr). exists (b ++ a), [].
    unfold poolInv. cbn [ps_heap ps_a ps_b ps_live]. rewrite app_nil_r. split_and!; [done|done| |done].
    by rewrite (Permutation_app_comm b a).
Qed.

(** the memory pool never hands out a cell twice: with two pools over the same
    cells, allocating, freeing and taking all cells of the other pool keep every
    cell either in use once or in one pool once, each pool a proper list with
    its tail, as long as only cells in use are freed and the backing stack gives
    new ones. *)
Lemma ncclMemoryPool_invariant s a b op :
  poolInv s a b -> poolPre s a b op -> exists a' b', poolInv (poolStep s op) a' b' /\ NoDup (ps_live (poolStep s op)).
Proof.
  intros HI HP. assert (exists a' b', poolInv (poolStep s op) a' b') as (a' & b' & HI').
  { destruct (match op with PAlloc w _ | PFree w _ | PTakeAll w => w end) eqn:Ew.
    - destruct (poolStep_first (swapPools s) b a (swapOp op)) as (b' & a' & H).
      + destruct op; cbn in *; by rewrite Ew.
      + by apply swap_inv.
      + destruct op; cbn in *; [|done|done]. by rewrite (Permutation_app_comm b a).
      + exists a', b'. rewrite swap_step in H. by apply swap_inv.
    - apply (poolStep_first s a b); [by destruct op|done|done]. }
  exists a', b'. split; [done|]. destruct HI' as (_ & _ & Hnd & _). by apply NoDup_app in Hnd as [? _].
Qed.

Lemma ncclMemoryPool_invariant_example :
  let s0 := {| ps_heap := fun _ => 9; ps_a := {| cells := 0; lastCell := 3 |}; ps_b := {| cells := 0; lastCell := 4 |}; ps_live := [16; 32] |} in
  let s1 := poolStep (poolStep s0 (PFree true 16)) (PFree true 32) in
  cells (ps_b s1) = 32 /\ ps_live (poolStep (poolStep s1 (PTakeAll false)) (PAlloc false 64)) = [32] /\
  exists a' b', poolInv (poolStep s0 (PFree true 16)) a' b' /\ NoDup (ps_live (poolStep s0 (PFree true 16))).
Proof.
  intros s0 s1. split; [reflexivity|]. split; [vm_compute; reflexivity|].
  apply (ncclMemoryPool_invariant s0 [] []).
  - unfold poolInv. cbn. split_and!; [by split|by split| |repeat constructor; lia].
    apply NoDup_cons; split; [set_solver|]. apply NoDup_singleton.
  - left.
Defined.
