(* ===== verification/Mpsc.v ===== *)
(** * The multi-producer single-consumer queue (src/src/include/utils.h)

    Producers exchange the tail and then link the object behind the one they
    got; the consumer takes the head and then the tail, and waits on the links
    that are not yet written.  The steps are the accesses of the code to shared
    memory, and any interleaving of them is a run: the model is sequentially
    consistent, the acquire and release annotations are not modelled.  The file
    proves that every object comes out exactly once and in the order of the
    exchanges, and that the consumer neither loses a wake-up nor gets stuck.

    Addresses of objects are above 2, since 0, 1 and 2 in the tail stand for an
    empty, a waiting and an abandoned queue. *)

From stdpp Require Import base numbers list sets relations.
From Stdlib Require Import ZArith Lia.
From S2P Require Import Prelude Heap.

Local Open Scope Z_scope.

(** ** State *)

(** Where the enqueue of an object stands: not running, its own link cleared, or
    the tail exchanged for it, with the value the exchange returned. *)
Inductive producer := PIdle | PReady | PLink (utail : Z).

(** Where the consumer stands in [ncclIntruQueueMpscDequeueAll] or
    [ncclIntruQueueMpscAbandon]. *)
Inductive consumer :=
  | CIdle
  | CLoad (waitSome : bool)
  | CSpin (sleeping : bool)
  | CTry (sleeping : bool)
  | CWait
  | CReload (sleeping : bool)
  | CTake (hd final : Z)
  | CXchg (hd final : Z)
  | CWalk (hd x tl : Z)
  | AStart
  | ASpin.

(** Besides the queue itself: the link field of the objects, where each enqueue
    stands, the number of producers that have yet to signal, the consumer, and
    the history: the objects in the order their enqueue exchanged the tail,
    and those the consumer has returned. *)
(* src/src/include/utils.h:514-519 ncclIntruQueueMpsc *)
Record mpsc := {
  mhead : Z;
  mtail : Z;
  mnext : heap;
  mprod : Z -> producer;
  msignals : nat;
  mcons : consumer;
  menq : list Z;
  mdeq : list Z }.

Definition updP (f : Z -> producer) (x : Z) (p : producer) : Z -> producer := fun y => if y =? x then p else f y.

(** The objects exchanged in and not yet returned. *)
Definition inside (s : mpsc) : list Z := drop (length (mdeq s)) (menq s).

(** ** The producers *)

(** [x->next = nullptr]: the object is the caller's to enqueue. *)
Definition clearNext (s : mpsc) (x : Z) : mpsc :=
  {| mhead := mhead s; mtail := mtail s; mnext := hset (mnext s) x 0; mprod := updP (mprod s) x PReady; msignals := msignals s;
     mcons := mcons s; menq := menq s; mdeq := mdeq s |}.

(** [utail = exchange(&me->tail, x)]. *)
Definition exchangeTail (s : mpsc) (x : Z) : mpsc :=
  {| mhead := mhead s; mtail := x; mnext := mnext s; mprod := updP (mprod s) x (PLink (mtail s)); msignals := msignals s;
     mcons := mcons s; menq := menq s ++ [x]; mdeq := mdeq s |}.

(** [*prevNext = x], where the previous object is that of the exchange, or the
    head.  Who found the consumer waiting has yet to signal it. *)
Definition linkPrev (s : mpsc) (x utail : Z) : mpsc :=
  {| mhead := if utail <=? 2 then x else mhead s; mtail := mtail s;
     mnext := if utail <=? 2 then mnext s else hset (mnext s) utail x;
     mprod := updP (mprod s) x PIdle; msignals := if utail =? 1 then S (msignals s) else msignals s;
     mcons := mcons s; menq := menq s; mdeq := mdeq s |}.

(** The lock is free, [notify_all]. *)
Definition signal (s : mpsc) : mpsc :=
  {| mhead := mhead s; mtail := mtail s; mnext := mnext s; mprod := mprod s; msignals := pred (msignals s);
     mcons := match mcons s with CWait => CReload true | c => c end; menq := menq s; mdeq := mdeq s |}.

(* src/src/include/utils.h:533-552 ncclIntruQueueMpscEnqueue *)
Inductive enqueueStep : mpsc -> mpsc -> Prop :=
  | enq_clear s x : 2 < x -> mprod s x = PIdle -> x ∉ inside s -> enqueueStep s (clearNext s x)
  | enq_exchange s x : mprod s x = PReady -> enqueueStep s (exchangeTail s x)
  | enq_link s x utail : mprod s x = PLink utail -> enqueueStep s (linkPrev s x utail)
  | enq_signal s : (0 < msignals s)%nat -> (forall sl, mcons s <> CTry sl) -> enqueueStep s (signal s).

(** What the enqueue returns: the queue is not abandoned. *)
Definition enqueueResult (utail : Z) : bool := negb (utail =? 2).

(** ** The consumer *)

Definition setCons (s : mpsc) (c : consumer) : mpsc :=
  {| mhead := mhead s; mtail := mtail s; mnext := mnext s; mprod := mprod s; msignals := msignals s; mcons := c;
     menq := menq s; mdeq := mdeq s |}.
Definition setTail (s : mpsc) (t : Z) (c : consumer) : mpsc :=
  {| mhead := mhead s; mtail := t; mnext := mnext s; mprod := mprod s; msignals := msignals s; mcons := c;
     menq := menq s; mdeq := mdeq s |}.
Definition clearHead (s : mpsc) (c : consumer) : mpsc :=
  {| mhead := 0; mtail := mtail s; mnext := mnext s; mprod := mprod s; msignals := msignals s; mcons := c;
     menq := menq s; mdeq := mdeq s |}.

(** The consumer returns the list that starts at [hd]. *)
Definition returned (s : mpsc) (l : list Z) : mpsc :=
  {| mhead := mhead s; mtail := mtail s; mnext := mnext s; mprod := mprod s; msignals := msignals s; mcons := CIdle;
     menq := menq s; mdeq := mdeq s ++ l |}.

(** After the head has been read in the loop. *)
Definition reload (s : mpsc) (sl : bool) : mpsc :=
  setCons s (if mhead s =? 0 then CSpin sl else CTake (mhead s) 0).

(** The steps of both calls share the end: the head is cleared, the tail is
    exchanged for [final], and the links are followed up to the old tail. *)
(* src/src/include/utils.h:579-596 ncclIntruQueueMpscDequeueAll *)
Inductive takeStep : mpsc -> mpsc -> Prop :=
  | take_head s hd final : mcons s = CTake hd final -> takeStep s (clearHead s (CXchg hd final))
  | take_tail s hd final : mcons s = CXchg hd final ->
      takeStep s (setTail s final (CWalk hd hd (if mtail s <=? 2 then 0 else mtail s)))
  | take_follow s hd x tl : mcons s = CWalk hd x tl -> x <> tl -> mnext s x <> 0 ->
      takeStep s (setCons s (CWalk hd (mnext s x) tl))
  | take_return s hd tl l : mcons s = CWalk hd tl tl -> lseg (mnext s) hd l 0 -> takeStep s (returned s l).

(** A call of the owner, the test of the clock and a spurious wake-up can come at
    any time. *)
(* src/src/include/utils.h:554-577 ncclIntruQueueMpscDequeueAll *)
Inductive dequeueStep : mpsc -> mpsc -> Prop :=
  | deq_call s w : mcons s = CIdle -> dequeueStep s (setCons s (CLoad w))
  | deq_load s w : mcons s = CLoad w ->
      dequeueStep s (setCons s (if negb (mhead s =? 0) then CTake (mhead s) 0 else if w then CSpin false else CIdle))
  | deq_spin s sl : mcons s = CSpin sl -> dequeueStep s (setCons s (CReload sl))
  | deq_late s sl : mcons s = CSpin sl -> dequeueStep s (setCons s (CTry sl))
  | deq_try s sl : mcons s = CTry sl ->
      dequeueStep s (if mtail s =? (if sl then 1 else 0) then setTail s 1 CWait else setCons s (CReload sl))
  | deq_wake s : mcons s = CWait -> dequeueStep s (setCons s (CReload true))
  | deq_reload s sl : mcons s = CReload sl -> dequeueStep s (reload s sl).

(* src/src/include/utils.h:599-635 ncclIntruQueueMpscAbandon *)
Inductive abandonStep : mpsc -> mpsc -> Prop :=
  | ab_call s : mcons s = CIdle -> abandonStep s (setCons s AStart)
  | ab_try s : mcons s = AStart -> abandonStep s (if mtail s =? 0 then setTail s 2 CIdle else setCons s ASpin)
  | ab_spin s : mcons s = ASpin -> abandonStep s (if mhead s =? 0 then s else setCons s (CTake (mhead s) 2)).

Inductive mstep : mpsc -> mpsc -> Prop :=
  | m_enqueue s s' : enqueueStep s s' -> mstep s s'
  | m_take s s' : takeStep s s' -> mstep s s'
  | m_dequeue s s' : dequeueStep s s' -> mstep s s'
  | m_abandon s s' : abandonStep s s' -> mstep s s'.

(* src/src/include/utils.h:521-526 ncclIntruQueueMpscConstruct *)
Definition ncclIntruQueueMpscConstruct (next : heap) : mpsc :=
  {| mhead := 0; mtail := 0; mnext := next; mprod := fun _ => PIdle; msignals := 0; mcons := CIdle; menq := []; mdeq := [] |}.

(* src/src/include/utils.h:528-531 ncclIntruQueueMpscEmpty *)
Definition ncclIntruQueueMpscEmpty (s : mpsc) : bool := mtail s <=? 2.

(** ** The invariant *)

(** The object is in, its link not yet written. *)
Definition linking (p : producer) : bool := match p with PLink _ => true | _ => false end.

(** Two neighbours in the order of the exchanges: linked, or about to be. *)
Definition link (next : heap) (prod : Z -> producer) (a c : Z) : Prop :=
  (prod c = PLink a /\ next a = 0) \/ (linking (prod c) = false /\ next a = c).

Fixpoint chain (next : heap) (prod : Z -> producer) (l : list Z) : Prop :=
  match l with
  | [] => True
  | a :: r => match r with [] => next a = 0 | c :: _ => link next prod a c end /\ chain next prod r
  end.

Definition taking (c : consumer) : bool := match c with CTake _ _ | CXchg _ _ => true | _ => false end.

(** [b] is the batch the consumer follows, [q] what has come since. *)
Record minv (s : mpsc) (b q : list Z) : Prop := {
  mi_log : menq s = mdeq s ++ b ++ q;
  mi_nodup : NoDup (b ++ q);
  mi_big : Forall (fun x => 2 < x) (b ++ q);
  mi_tail : match q with [] => 0 <= mtail s <= 2 | _ => mtail s = lastOf q end;
  mi_chain_b : chain (mnext s) (mprod s) b;
  mi_chain_q : chain (mnext s) (mprod s) q;
  mi_first : match b with [] => True | x :: _ => linking (mprod s x) = false end;
  mi_head : match q with
    | [] => mhead s = 0 /\ taking (mcons s) = false
    | x :: _ =>
        (exists u, mprod s x = PLink u /\ u <= 2 /\ mhead s = 0 /\ taking (mcons s) = false) \/
        (linking (mprod s x) = false /\
         match mcons s with CXchg hd _ => hd = x /\ mhead s = 0 | CTake hd _ => hd = x /\ mhead s = x | _ => mhead s = x end)
    end;
  mi_ready x : mprod s x = PReady -> 2 < x /\ (x ∉ b ++ q) /\ mnext s x = 0;
  mi_link x u : mprod s x = PLink u -> x ∈ b ++ q;
  mi_walk : match mcons s with
    | CWalk hd x tl => exists b1 b2, b = b1 ++ x :: b2 /\ lseg (mnext s) hd b1 x /\ tl = lastOf b
    | _ => b = [] end;
  mi_final : match mcons s with CTake _ f | CXchg _ f => 0 <= f <= 2 | _ => True end }.

Lemma updP_eq f x p : updP f x p x = p.
Proof. unfold updP. by rewrite Z.eqb_refl. Qed.

Lemma updP_ne f x p y : y <> x -> updP f x p y = f y.
Proof. intros. unfold updP. by rewrite (proj2 (Z.eqb_neq _ _)). Qed.

Lemma chain_ext next prod next' prod' l :
  (forall a, a ∈ l -> next' a = next a) -> (forall a, a ∈ l -> prod' a = prod a) -> chain next prod l -> chain next' prod' l.
Proof.
  induction l as [|a l IH]; intros E1 E2; [done|]. cbn [chain]. intros [H1 H2]. split.
  - unfold link in *. rewrite (E1 a) by (by left). destruct l as [|c l]; [done|]. by rewrite (E2 c) by (right; left).
  - apply IH; [intros; apply E1; by right|intros; apply E2; by right|done].
Qed.

Lemma chain_app next prod l1 l2 :
  chain next prod (l1 ++ l2) -> chain next prod l2.
Proof. induction l1 as [|a l1 IH]; [done|]. intros [_ H]. by apply IH. Qed.

(** What follows an object is written, or nothing is. *)
Lemma chain_next next prod l1 a l2 :
  chain next prod (l1 ++ a :: l2) -> next a = 0 \/ exists r, l2 = next a :: r /\ linking (prod (next a)) = false.
Proof.
  intros H%chain_app. destruct l2 as [|c r]; [left; apply H|]. destruct H as [[[_ H]|[H ->]] _]; [by left|right; by exists r].
Qed.

Lemma chain_last next prod l : chain next prod l -> l <> [] -> next (lastOf l) = 0.
Proof.
  intros H Hl. destruct (exists_last Hl) as (l' & t & ->). apply chain_app in H. rewrite lastOf_app. apply H.
Qed.

(** A new object at the end. *)
Lemma chain_snoc next prod l x :
  chain next prod l -> x ∉ l -> next x = 0 -> NoDup l -> chain next (updP prod x (PLink (lastOf l))) (l ++ [x]).
Proof.
  induction l as [|a l IH]; intros H Hx Hn Hnd; [done|]. destruct H as [H1 H2]. apply not_elem_of_cons in Hx as [Hne Hx].
  apply NoDup_cons in Hnd as [Ha Hnd]. destruct l as [|c l].
  - cbn. split; [|done]. left. split; [apply updP_eq|done].
  - rewrite lastOf_cons. cbn [app]. split; [|by apply IH]. unfold link in *. rewrite updP_ne; [done|]. intros ->. apply Hx. left.
Qed.

(** The link before [x] is written. *)
Lemma chain_link next prod l1 a x l2 u :
  chain next prod (l1 ++ a :: x :: l2) -> NoDup (l1 ++ a :: x :: l2) -> prod x = PLink u ->
  u = a /\ next a = 0 /\ chain (hset next a x) (updP prod x PIdle) (l1 ++ a :: x :: l2).
Proof.
  induction l1 as [|y l1 IH]; cbn [app]; intros H Hnd Hp.
  - destruct H as [[[H1 H0]|[H1 _]] H2]; [|by rewrite Hp in H1]. rewrite Hp in H1. injection H1 as ->. split; [done|]. split; [done|].
    apply NoDup_cons in Hnd as [Ha Hnd]. apply not_elem_of_cons in Ha as [Hax Ha]. apply NoDup_cons in Hnd as [Hx Hnd].
    split; [right; by rewrite updP_eq, hset_eq|]. destruct H2 as [H2 H3]. split.
    + destruct l2 as [|c l2]; [by rewrite hset_ne|]. apply not_elem_of_cons in Hx as [Hx _]. unfold link in *.
      by rewrite hset_ne, updP_ne.
    + eapply chain_ext; [| |exact H3]; intros z Hz; [apply hset_ne|apply updP_ne]; by intros ->.
  - destruct H as [H1 H2]. apply NoDup_cons in Hnd as [Hy Hnd]. destruct (IH H2 Hnd Hp) as (-> & H0 & H3). split; [done|]. split; [done|].
    split; [|exact H3]. assert (y <> a) as Hya by (intros ->; apply Hy, elem_of_app; right; left).
    destruct l1 as [|c l1]; cbn [app] in *; unfold link in *; rewrite hset_ne, updP_ne; try done.
    + apply NoDup_cons in Hnd as [Ha _]. intros ->. apply Ha. left.
    + apply NoDup_cons in Hnd as [Hc _]. intros ->. apply Hc, elem_of_app. right. right. left.
Qed.

(** ** Every step preserves the invariant *)

Lemma inside_eq s b q : minv s b q -> inside s = b ++ q.
Proof. intros H. unfold inside. by rewrite (mi_log _ _ _ H), drop_app_length. Qed.

Lemma lseg_next_nonnull h p l q a : lseg h p l q -> q <> 0 -> a ∈ l -> h a <> 0.
Proof.
  revert p. induction l as [|x l IH]; intros p H Hq Ha; [by apply not_elem_of_nil in Ha|].
  destruct H as (-> & Hx & H). apply elem_of_cons in Ha as [->|Ha]; [|by eapply IH].
  destruct l as [|y l]; [by cbn in H; subst|]. by destruct H as (-> & Hy & _).
Qed.

Lemma lseg_fun h p l l' : lseg h p l 0 -> lseg h p l' 0 -> l = l'.
Proof.
  revert p l'. induction l as [|x l IH]; intros p l' H H'.
  - cbn in H. subst. by apply lseg_null in H'.
  - destruct H as (-> & Hx & H). destruct l' as [|y l']; [by cbn in H'|]. destruct H' as (-> & _ & H'). f_equal. by eapply IH.
Qed.

Section steps.
Context (s : mpsc) (b q : list Z) (I : minv s b q).

Lemma inv_big x : x ∈ b ++ q -> 2 < x.
Proof. pose proof (mi_big _ _ _ I) as H. rewrite Forall_forall in H. apply H. Qed.

Lemma inv_walk_frame next' :
  (forall a, a ∈ b -> mnext s a <> 0 -> next' a = mnext s a) ->
  match mcons s with
  | CWalk hd x tl => exists b1 b2, b = b1 ++ x :: b2 /\ lseg next' hd b1 x /\ tl = lastOf b
  | _ => b = [] end.
Proof.
  intros E. pose proof (mi_walk _ _ _ I) as W. destruct (mcons s); try done. destruct W as (b1 & b2 & Eb & Hs & Ht).
  exists b1, b2. split_and!; [done| |done]. eapply lseg_ext; [|exact Hs]. intros a Ha. apply E.
  - rewrite Eb. apply elem_of_app. by left.
  - eapply lseg_next_nonnull; [exact Hs| |done]. assert (x ∈ b ++ q) as Hx by (rewrite Eb; set_solver). apply inv_big in Hx. lia.
Qed.

Lemma inv_clear x : 2 < x -> mprod s x = PIdle -> x ∉ inside s -> minv (clearNext s x) b q.
Proof.
  intros Hx Hp Hi. rewrite (inside_eq _ _ _ I) in Hi. assert (forall a, a ∈ b ++ q -> a <> x) as Hne by (intros a Ha ->; done).
  assert (forall l, (forall a, a ∈ l -> a ∈ b ++ q) -> chain (mnext s) (mprod s) l ->
    chain (hset (mnext s) x 0) (updP (mprod s) x PReady) l) as Hc.
  { intros l Hl. apply chain_ext; intros a Ha; [apply hset_ne|apply updP_ne]; by apply Hne, Hl. }
  pose proof (inv_walk_frame (hset (mnext s) x 0)) as Hw. destruct I as [I1 I2 I3 I4 I5 I6 I7 I8 I9 I10 I11 I12].
  split; cbn [clearNext mhead mtail mnext mprod mcons menq mdeq msignals]; try done.
  - apply Hc; [set_solver|done].
  - apply Hc; [set_solver|done].
  - destruct b as [|y b']; [done|]. rewrite updP_ne; [done|]. apply Hne. set_solver.
  - destruct q as [|y q']; [done|]. rewrite updP_ne; [done|]. apply Hne. set_solver.
  - intros y. destruct (Z.eq_dec y x) as [->|Hy]; [intros _; by rewrite hset_eq|]. rewrite updP_ne, hset_ne by done. apply I9.
  - intros y u. destruct (Z.eq_dec y x) as [->|Hy]; [by rewrite updP_eq|]. rewrite updP_ne by done. apply I10.
  - apply Hw. intros a Ha _. apply hset_ne, Hne. set_solver.
Qed.

Lemma inv_exchange x : mprod s x = PReady -> minv (exchangeTail s x) b (q ++ [x]).
Proof.
  intros Hp. destruct I as [I1 I2 I3 I4 I5 I6 I7 I8 I9 I10 I11 I12]. destruct (I9 x Hp) as (Hx & Hn & H0).
  assert (forall a, a ∈ b ++ q -> a <> x) as Hne by (intros a Ha ->; done).
  split; cbn [exchangeTail mhead mtail mnext mprod mcons menq mdeq msignals]; try done.
  - by rewrite I1, !app_assoc.
  - rewrite app_assoc. apply NoDup_app. split_and!; [done| |apply NoDup_singleton]. intros y Hy ->%list_elem_of_singleton. done.
  - rewrite app_assoc. apply Forall_app. split; [done|by constructor].
  - rewrite lastOf_app. by destruct q.
  - eapply chain_ext; [| |exact I5]; intros a Ha; [done|]. apply updP_ne, Hne. set_solver.
  - apply NoDup_app in I2 as (_ & _ & Hq). destruct q as [|y q']; [done|]. rewrite I4. apply chain_snoc; [done|set_solver|done|done].
  - destruct b as [|y b']; [done|]. rewrite updP_ne; [done|]. apply Hne. set_solver.
  - destruct q as [|y q']; cbn [app].
    + left. exists (mtail s). rewrite updP_eq. destruct I8. split_and!; [done|lia|done|done].
    + rewrite updP_ne; [done|]. apply Hne. set_solver.
  - intros y. destruct (Z.eq_dec y x) as [->|Hy]; [by rewrite updP_eq|]. rewrite updP_ne by done. intros H%I9. set_solver.
  - intros y u. destruct (Z.eq_dec y x) as [->|Hy]; [set_solver|]. rewrite updP_ne by done. intros H%I10. set_solver.
Qed.

Lemma linking_upd (f : Z -> producer) x y : linking (f y) = false -> linking (updP f x PIdle y) = false.
Proof. unfold updP. by destruct (y =? x). Qed.

(** The link behind an object is written. *)
Lemma inv_link_inside x u l1 l2 :
  mprod s x = PLink u -> b = l1 ++ u :: x :: l2 \/ q = l1 ++ u :: x :: l2 -> mnext s u = 0 ->
  chain (hset (mnext s) u x) (updP (mprod s) x PIdle) (l1 ++ u :: x :: l2) -> minv (linkPrev s x u) b q.
Proof.
  intros Hp Hl H0 Hc. pose proof (inv_walk_frame (hset (mnext s) u x)) as Hw. pose proof (inv_big u) as Hu.
  assert (u ∈ b ++ q) as Hin by (destruct Hl as [-> | ->]; set_solver). specialize (Hu Hin).
  destruct I as [I1 I2 I3 I4 I5 I6 I7 I8 I9 I10 I11 I12]. pose proof I2 as (Hb & Hd & Hq)%NoDup_app.
  assert (forall l, x ∉ l -> u ∉ l -> chain (mnext s) (mprod s) l -> chain (hset (mnext s) u x) (updP (mprod s) x PIdle) l) as Hext.
  { intros l Hxl Hul. apply chain_ext; intros a Ha; [apply hset_ne|apply updP_ne]; by intros ->. }
  split; unfold linkPrev; cbn [mhead mtail mnext mprod mcons menq mdeq msignals];
    rewrite ?(proj2 (Z.leb_gt u 2)), ?(proj2 (Z.eqb_neq u 1)) by lia; try done.
  - destruct Hl as [Hl|Hl]; [by rewrite Hl|]. apply Hext; [| |done]; intros Hbx; apply (Hd _ Hbx); rewrite Hl; set_solver.
  - destruct Hl as [Hl|Hl]; [|by rewrite Hl]. apply Hext; [| |done]; apply Hd; rewrite Hl; set_solver.
  - destruct b; [done|]. by apply linking_upd.
  - destruct q as [|y q']; [done|]. destruct I8 as [(u' & E & Hr)|[E Hr]]; [left|right; split; [by apply linking_upd|done]].
    exists u'. rewrite updP_ne; [done|]. intros ->. destruct Hl as [Hl|Hl].
    + apply (Hd x); [rewrite Hl|]; set_solver.
    + apply NoDup_cons in Hq as [Hq _]. apply Hq. destruct l1 as [|z l1]; cbn [app] in Hl; injection Hl as -> ->; [left|].
      apply elem_of_app. right. right. left.
  - intros y Hy. destruct (Z.eq_dec y x) as [->|Hne]; [by rewrite updP_eq in Hy|]. rewrite updP_ne in Hy by done.
    destruct (I9 y Hy) as (Hy1 & Hy2 & Hy3). rewrite hset_ne by (by intros ->). done.
  - intros y u'. destruct (Z.eq_dec y x) as [->|Hne]; [by rewrite updP_eq|]. rewrite updP_ne by done. apply I10.
  - apply Hw. intros a _ Ha. apply hset_ne. by intros ->.
Qed.

Lemma elem_split (l : list Z) x : x ∈ l -> (exists r, l = x :: r) \/ exists l1 a l2, l = l1 ++ a :: x :: l2.
Proof.
  intros Hx. apply list_elem_of_split in Hx as (l1 & l2 & ->). destruct (decide (l1 = [])) as [->|Hl]; [left; by eexists|].
  destruct (exists_last Hl) as (l' & a & ->). right. exists l', a, l2. by rewrite <- app_assoc.
Qed.

(** The first object of the queue is written to the head. *)
Lemma inv_link_head x u r : mprod s x = PLink u -> q = x :: r -> minv (linkPrev s x u) b q.
Proof.
  intros Hp Eq. destruct I as [I1 I2 I3 I4 I5 I6 I7 I8 I9 I10 I11 I12]. pose proof I2 as (Hb & Hd & Hq)%NoDup_app.
  rewrite Eq in I8. destruct I8 as [(u' & E & Hu & Hh & Ht)|[E _]]; [|by rewrite Hp in E]. rewrite Hp in E. injection E as <-.
  split; unfold linkPrev; cbn [mhead mtail mnext mprod mcons menq mdeq msignals]; rewrite ?(proj2 (Z.leb_le u 2)) by lia; try done.
  - eapply chain_ext; [| |exact I5]; intros a Ha; [done|]. apply updP_ne. intros ->. apply (Hd x Ha). rewrite Eq. left.
  - rewrite Eq in I6 |- *. destruct I6 as [H1 H2]. rewrite Eq in Hq. apply NoDup_cons in Hq as [Hx _].
    assert (forall a, a ∈ r -> updP (mprod s) x PIdle a = mprod s a) as Hr by (intros a Ha; apply updP_ne; by intros ->).
    split; [|eapply chain_ext; [|exact Hr|exact H2]; done]. destruct r as [|c r]; [done|]. unfold link in *. by rewrite Hr by left.
  - destruct b; [done|]. by apply linking_upd.
  - rewrite Eq. right. rewrite updP_eq. split; [done|]. by destruct (mcons s).
  - intros y Hy. destruct (Z.eq_dec y x) as [->|Hne]; [by rewrite updP_eq in Hy|]. rewrite updP_ne in Hy by done. by apply I9.
  - intros y u'. destruct (Z.eq_dec y x) as [->|Hne]; [by rewrite updP_eq|]. rewrite updP_ne by done. apply I10.
Qed.

Lemma inv_link x u : mprod s x = PLink u -> minv (linkPrev s x u) b q.
Proof.
  intros Hp. pose proof (mi_nodup _ _ _ I) as (Hb & Hd & Hq)%NoDup_app.
  pose proof (mi_link _ _ _ I x u Hp) as [Hx|Hx]%elem_of_app.
  - destruct (elem_split _ _ Hx) as [[r E]|(l1 & a & l2 & E)].
    + pose proof (mi_first _ _ _ I) as Hf. rewrite E, Hp in Hf. done.
    + pose proof (mi_chain_b _ _ _ I) as Hc. rewrite E in Hc, Hb.
      destruct (chain_link _ _ _ _ _ _ _ Hc Hb Hp) as (-> & H0 & Hc'). eapply inv_link_inside; eauto.
  - destruct (elem_split _ _ Hx) as [[r E]|(l1 & a & l2 & E)]; [by eapply inv_link_head|].
    pose proof (mi_chain_q _ _ _ I) as Hc. rewrite E in Hc, Hq.
    destruct (chain_link _ _ _ _ _ _ _ Hc Hq Hp) as (-> & H0 & Hc'). eapply inv_link_inside; eauto.
Qed.

End steps.

Lemma inv_signal s b q : minv s b q -> minv (signal s) b q.
Proof. intros I. destruct I. split; cbn; try done; by destruct (mcons s). Qed.

Lemma inv_enqueue s s' b q : minv s b q -> enqueueStep s s' -> exists q', minv s' b q'.
Proof.
  intros I H. revert I. destruct H as [s0 x Hx Hp Hi|s0 x Hp|s0 x u Hp|s0 Hn Hl]; intros I.
  - exists q. by apply inv_clear.
  - eexists. by apply inv_exchange.
  - exists q. by apply inv_link.
  - exists q. by apply inv_signal.
Qed.

(** Once the list can be followed to its end, everything in it is linked. *)
Lemma chain_linked next prod p l x :
  chain next prod l -> lseg next p l 0 -> match l with [] => True | y :: _ => linking (prod y) = false end ->
  x ∈ l -> linking (prod x) = false.
Proof.
  intros Hc Hs Hf Hx. destruct (elem_split _ _ Hx) as [[r ->]|(l1 & a & l2 & ->)]; [done|].
  apply lseg_app in Hs as (m & _ & (-> & _ & (E & Hx0 & _))). apply chain_app in Hc as [[[_ H0]|[H _]] _]; [congruence|done].
Qed.

(** At the end of the walk the batch is the list the consumer returns. *)
Lemma inv_batch s b q hd tl : minv s b q -> mcons s = CWalk hd tl tl -> lseg (mnext s) hd b 0.
Proof.
  intros I Hc. pose proof (mi_walk _ _ _ I) as W. rewrite Hc in W. destruct W as (b1 & b2 & Eb & Hs & Ht).
  assert (b2 = []) as ->.
  { destruct b2 as [|c b2]; [done|]. exfalso. pose proof (mi_nodup _ _ _ I) as (Hb & _ & _)%NoDup_app.
    rewrite Eb, lastOf_app_cons in Ht. rewrite Eb in Hb. apply NoDup_app in Hb as (_ & _ & Hb). apply NoDup_cons in Hb as [Hb _].
    apply Hb. rewrite Ht, lastOf_cons. by apply lastOf_elem. }
  pose proof (chain_last _ _ _ (mi_chain_b _ _ _ I)) as E0. rewrite Eb, lastOf_app in E0.
  assert (tl <> 0). { assert (tl ∈ b ++ q) as Hin by (rewrite Eb; set_solver). pose proof (inv_big _ _ _ I tl Hin). lia. }
  rewrite Eb, <- E0 by (by destruct b1). by apply lseg_snoc.
Qed.

Lemma inv_return s b q hd tl : minv s b q -> mcons s = CWalk hd tl tl -> minv (returned s b) [] q.
Proof.
  intros I Hc. pose proof (inv_batch s b q hd tl I Hc) as Hb.
  pose proof (fun x => chain_linked _ _ _ _ x (mi_chain_b _ _ _ I) Hb (mi_first _ _ _ I)) as Hl.
  destruct I as [I1 I2 I3 I4 I5 I6 I7 I8 I9 I10 I11 I12]. rewrite Hc in *.
  apply NoDup_app in I2 as (_ & _ & Hq). apply Forall_app in I3 as [_ H3].
  split; cbn [returned mhead mtail mnext mprod mcons menq mdeq msignals app]; try done.
  - by rewrite I1, app_assoc.
  - intros x Hx. destruct (I9 x Hx) as (H1 & H2 & H4). set_solver.
  - intros x u Hx. pose proof (I10 x u Hx) as [Hin|Hin]%elem_of_app; [|done]. apply Hl in Hin. by rewrite Hx in Hin.
Qed.

Lemma inv_take_head s b q hd f : minv s b q -> mcons s = CTake hd f -> minv (clearHead s (CXchg hd f)) b q.
Proof.
  intros I Hc. destruct I as [I1 I2 I3 I4 I5 I6 I7 I8 I9 I10 I11 I12]. rewrite Hc in *. split; cbn; try done.
  destruct q as [|x q]; [by destruct I8|]. right. destruct I8 as [(u & _ & _ & _ & E)|[E [-> _]]]; done.
Qed.

Lemma inv_take_tail s b q hd f :
  minv s b q -> mcons s = CXchg hd f ->
  exists q', q = hd :: q' /\ minv (setTail s f (CWalk hd hd (if mtail s <=? 2 then 0 else mtail s))) q [].
Proof.
  intros I Hc. destruct I as [I1 I2 I3 I4 I5 I6 I7 I8 I9 I10 I11 I12]. rewrite Hc in *. subst b. cbn [app] in *.
  destruct q as [|x q]; [by destruct I8|]. destruct I8 as [(u & _ & _ & _ & E)|[E [-> E0]]]; [done|]. exists q. split; [done|].
  split; cbn [setTail mhead mtail mnext mprod mcons menq mdeq msignals]; rewrite ?app_nil_r; try done.
  exists [], q. split_and!; [done|done|]. rewrite I4. assert (2 < lastOf (x :: q)); [|by rewrite (proj2 (Z.leb_gt _ _))].
  rewrite Forall_forall in I3. by apply I3, lastOf_elem.
Qed.

Lemma inv_follow s b q hd x tl :
  minv s b q -> mcons s = CWalk hd x tl -> mnext s x <> 0 ->
  minv (setCons s (CWalk hd (mnext s x) tl)) b q /\
  forall b1 b2, b = b1 ++ x :: b2 -> exists r, b2 = mnext s x :: r.
Proof.
  intros I Hc Hn. assert (forall b1 b2, b = b1 ++ x :: b2 -> exists r, b2 = mnext s x :: r) as Hr.
  { intros b1 b2 Eb. pose proof (mi_chain_b _ _ _ I) as C. rewrite Eb in C.
    destruct (chain_next _ _ _ _ _ C) as [E|(r & Er & _)]; [done|by exists r]. }
  split; [|done]. pose proof (mi_walk _ _ _ I) as W. rewrite Hc in W. destruct W as (b1 & b2 & Eb & Hs & Ht).
  destruct (Hr b1 b2 Eb) as (r & Er).
  assert (x <> 0). { assert (x ∈ b ++ q) as Hin by (rewrite Eb; set_solver). pose proof (inv_big _ _ _ I x Hin). lia. }
  destruct I as [I1 I2 I3 I4 I5 I6 I7 I8 I9 I10 I11 I12]. rewrite Hc in *. split; cbn; try done.
  exists (b1 ++ [x]), r. split_and!; [by rewrite Eb, Er, <- app_assoc|by apply lseg_snoc|done].
Qed.

Lemma inv_take s s' b q : minv s b q -> takeStep s s' -> exists b' q', minv s' b' q'.
Proof.
  intros I H. revert I. destruct H as [s0 hd f Hc|s0 hd f Hc|s0 hd x tl Hc Hx Hn|s0 hd tl l Hc Hl]; intros I.
  - exists b, q. by apply inv_take_head.
  - destruct (inv_take_tail s0 b q hd f I Hc) as (q' & _ & ?). by exists q, [].
  - exists b, q. by eapply inv_follow.
  - exists [], q. pose proof (lseg_fun _ _ _ _ Hl (inv_batch _ _ _ _ _ I Hc)) as ->. by eapply inv_return.
Qed.

(** A head that is not null is the first object of the queue. *)
Lemma inv_head s b q : minv s b q -> taking (mcons s) = false -> mhead s <> 0 ->
  exists q', q = mhead s :: q' /\ linking (mprod s (mhead s)) = false.
Proof.
  intros I Ht Hh. pose proof (mi_head _ _ _ I) as H. destruct q as [|x q]; [by destruct H|].
  destruct H as [(u & _ & _ & ? & _)|[Hl H]]; [done|]. exists q. destruct (mcons s); cbn in Ht; try done; rewrite H in *; done.
Qed.

(** Steps that only move the consumer between points where it holds nothing. *)
Definition away (c : consumer) : bool := match c with CTake _ _ | CXchg _ _ | CWalk _ _ _ => false | _ => true end.

Lemma inv_move s b q c : minv s b q -> away (mcons s) = true -> away c = true -> minv (setCons s c) b q.
Proof.
  intros I H1 H2. destruct I as [I1 I2 I3 I4 I5 I6 I7 I8 I9 I10 I11 I12]. split; cbn; try done; destruct (mcons s), c; done.
Qed.

Lemma inv_take_start s b q f :
  minv s b q -> away (mcons s) = true -> mhead s <> 0 -> 0 <= f <= 2 -> minv (setCons s (CTake (mhead s) f)) b q.
Proof.
  intros I H1 Hh Hf. destruct (inv_head s b q I) as (q' & E & Hl); [by destruct (mcons s)|done|].
  destruct I as [I1 I2 I3 I4 I5 I6 I7 I8 I9 I10 I11 I12]. split; cbn; try done; [|by destruct (mcons s)].
  rewrite E in *. right. done.
Qed.

Lemma inv_setTail s b q t c :
  minv s b q -> away (mcons s) = true -> away c = true -> mtail s <= 2 -> 0 <= t <= 2 -> minv (setTail s t c) b q.
Proof.
  intros I H1 H2 Ht Ht'. assert (q = []) as ->.
  { pose proof (mi_tail _ _ _ I) as E. destruct q as [|x q]; [done|]. pose proof (inv_big _ _ _ I (mtail s)) as Hb.
    rewrite E in *. assert (lastOf (x :: q) ∈ b ++ x :: q) as Hin by (apply elem_of_app; right; by apply lastOf_elem). specialize (Hb Hin). lia. }
  destruct I as [I1 I2 I3 I4 I5 I6 I7 I8 I9 I10 I11 I12]. split; cbn; try done; destruct (mcons s), c; done.
Qed.

Lemma inv_dequeue s s' b q : minv s b q -> dequeueStep s s' -> minv s' b q.
Proof.
  intros I H. revert I. destruct H as [s w Hc|s w Hc|s sl Hc|s sl Hc|s sl Hc|s Hc|s sl Hc]; intros I;
    assert (away (mcons s) = true) as Ha by (by rewrite Hc); try (by apply inv_move).
  - destruct (Z.eqb_spec (mhead s) 0); cbn [negb]; [by destruct w; apply inv_move|by apply inv_take_start].
  - destruct (Z.eqb_spec (mtail s) (if sl then 1 else 0)) as [E|E]; [|by apply inv_move]. apply inv_setTail; try done; destruct sl; lia.
  - unfold reload. destruct (Z.eqb_spec (mhead s) 0); [by apply inv_move|by apply inv_take_start].
Qed.

Lemma inv_abandon s s' b q : minv s b q -> abandonStep s s' -> minv s' b q.
Proof.
  intros I H. revert I. destruct H as [s Hc|s Hc|s Hc]; intros I; assert (away (mcons s) = true) as Ha by (by rewrite Hc).
  - by apply inv_move.
  - destruct (Z.eqb_spec (mtail s) 0) as [E|E]; [|by apply inv_move]. apply inv_setTail; (done || lia).
  - destruct (Z.eqb_spec (mhead s) 0) as [E|E]; [done|]. by apply inv_take_start.
Qed.

Lemma inv_step s s' b q : minv s b q -> mstep s s' -> exists b' q', minv s' b' q'.
Proof.
  intros I H. revert I. destruct H as [s s' H|s s' H|s s' H|s s' H]; intros I.
  - destruct (inv_enqueue _ _ _ _ I H) as (q' & ?). by exists b, q'.
  - by eapply inv_take.
  - exists b, q. by eapply inv_dequeue.
  - exists b, q. by eapply inv_abandon.
Qed.

Lemma inv_start next : minv (ncclIntruQueueMpscConstruct next) [] [].
Proof. split; cbn; try done. constructor. Qed.

Lemma inv_reach next s : rtc mstep (ncclIntruQueueMpscConstruct next) s -> exists b q, minv s b q.
Proof.
  assert (forall s s', rtc mstep s s' -> (exists b q, minv s b q) -> exists b q, minv s' b q) as H.
  { induction 1 as [|s1 s2 s3 H12 _ IH]; [done|]. intros (b & q & I). apply IH. by eapply inv_step. }
  intros Hr. apply (H _ _ Hr). exists [], []. apply inv_start.
Qed.

(** C32: under every interleaving of producers and consumer, objects come out of the
    multi-producer queue exactly once and in the order in which their enqueue
    exchanged the tail: what has been returned, then the batch the consumer is
    following, then what is waiting, is the whole history; and when a call is
    about to return, the list that starts at the pointer it returns is that
    batch, complete, null-terminated and no longer touched by its producers. *)
Theorem ncclIntruQueueMpsc_fifo next s :
  rtc mstep (ncclIntruQueueMpscConstruct next) s ->
  exists batch waiting,
    menq s = mdeq s ++ batch ++ waiting /\ NoDup (batch ++ waiting) /\
    (ncclIntruQueueMpscEmpty s = true <-> waiting = []) /\
    (forall hd tl, mcons s = CWalk hd tl tl ->
       lseg (mnext s) hd batch 0 /\ batch <> [] /\ forall x, x ∈ batch -> linking (mprod s x) = false).
Proof.
  intros Hr. destruct (inv_reach next s Hr) as (b & q & I). exists b, q. split_and!.
  - apply I.
  - apply I.
  - unfold ncclIntruQueueMpscEmpty. rewrite Z.leb_le. pose proof (mi_tail _ _ _ I) as Ht. split; [|by intros ->; lia].
    intros Hle. destruct q as [|x q]; [done|]. pose proof (inv_big _ _ _ I (mtail s)) as Hb. rewrite Ht in *.
    assert (lastOf (x :: q) ∈ b ++ x :: q) as Hin by (apply elem_of_app; right; by apply lastOf_elem). specialize (Hb Hin). lia.
  - intros hd tl Hc. pose proof (inv_batch _ _ _ _ _ I Hc) as Hb. split; [done|]. split.
    + pose proof (mi_walk _ _ _ I) as W. rewrite Hc in W. destruct W as (b1 & b2 & -> & _). by destruct b1.
    + intros x Hx. by apply (chain_linked _ _ _ _ x (mi_chain_b _ _ _ I) Hb (mi_first _ _ _ I)).
Qed.

(** Two producers, the second not yet linked, and a consumer that waits for it. *)
Definition mpscRun : list (mpsc -> mpsc) := [
  (fun s => clearNext s 16); (fun s => clearNext s 32); (fun s => exchangeTail s 16); (fun s => exchangeTail s 32);
  (fun s => linkPrev s 16 0); (fun s => setCons s (CLoad false)); (fun s => setCons s (CTake 16 0));
  (fun s => clearHead s (CXchg 16 0)); (fun s => setTail s 0 (CWalk 16 16 32)); (fun s => linkPrev s 32 16);
  (fun s => setCons s (CWalk 16 32 32))].
Definition mpscEnd : mpsc := fold_left (fun s f => f s) mpscRun (ncclIntruQueueMpscConstruct (fun _ => 7)).

Lemma ncclIntruQueueMpsc_fifo_witness :
  mcons mpscEnd = CWalk 16 32 32 /\
  exists batch waiting, menq mpscEnd = mdeq mpscEnd ++ batch ++ waiting /\ lseg (mnext mpscEnd) 16 batch 0.
Proof.
  split; [reflexivity|].
  destruct (ncclIntruQueueMpsc_fifo (fun _ => 7) mpscEnd) as (b & w & H1 & _ & _ & H4).
  - unfold mpscEnd, mpscRun. cbn [fold_left].
    eapply rtc_l; [apply m_enqueue, (enq_clear _ 16); [lia|reflexivity|by apply not_elem_of_nil]|].
    eapply rtc_l; [apply m_enqueue, (enq_clear _ 32); [lia|reflexivity|by apply not_elem_of_nil]|].
    eapply rtc_l; [apply m_enqueue, (enq_exchange _ 16); reflexivity|].
    eapply rtc_l; [apply m_enqueue, (enq_exchange _ 32); reflexivity|].
    eapply rtc_l; [apply m_enqueue, (enq_link _ 16 0); reflexivity|].
    eapply rtc_l; [apply m_dequeue, (deq_call _ false); reflexivity|].
    eapply rtc_l; [apply m_dequeue, (deq_load _ false); reflexivity|].
    eapply rtc_l; [apply m_take, (take_head _ 16 0); reflexivity|].
    eapply rtc_l; [apply m_take, (take_tail _ 16 0); reflexivity|].
    eapply rtc_l; [apply m_enqueue, (enq_link _ 32 16); reflexivity|].
    eapply rtc_l; [apply m_take, (take_follow _ 16 16 32); [reflexivity|lia|vm_compute; lia]|].
    apply rtc_refl.
  - exists b, w. split; [done|]. by apply (H4 16 32).
Defined.

(** ** The consumer returns *)

(** A consumer asleep has a signal coming, unless nobody has come. *)
Definition awake (s : mpsc) (q : list Z) : Prop :=
  mcons s = CWait -> mtail s = 1 \/ (exists x q', q = x :: q' /\ mprod s x = PLink 1) \/ (0 < msignals s)%nat.

Lemma awake_enqueue s s' b q : minv s b q -> awake s q -> enqueueStep s s' -> exists q', minv s' b q' /\ awake s' q'.
Proof.
  intros I A H. revert I A. destruct H as [s x Hx Hp Hi|s x Hp|s x u Hp|s Hn Hl]; intros I A.
  - exists q. split; [by apply inv_clear|]. intros Hc. destruct (A Hc) as [?|[(y & q' & -> & E)|?]]; [by left| |by right; right].
    right. left. exists y, q'. split; [done|]. cbn. rewrite updP_ne; [done|]. intros ->. congruence.
  - exists (q ++ [x]). split; [by apply inv_exchange|]. intros Hc. right. destruct (A Hc) as [Ht|[(y & q' & -> & E)|?]]; [| |by right].
    + left. pose proof (mi_tail _ _ _ I) as E. destruct q as [|y q].
      * exists x, []. split; [done|]. cbn. by rewrite updP_eq, Ht.
      * pose proof (inv_big _ _ _ I (mtail s)) as Hb. rewrite E in *.
        assert (lastOf (y :: q) ∈ b ++ y :: q) as Hin by (apply elem_of_app; right; by apply lastOf_elem). specialize (Hb Hin). lia.
    + left. exists y, (q' ++ [x]). split; [done|]. cbn. rewrite updP_ne; [done|]. intros ->. congruence.
  - exists q. split; [by apply inv_link|]. intros Hc. destruct (A Hc) as [?|[(y & q' & -> & E)|?]]; [by left| |].
    + right. destruct (Z.eq_dec y x) as [->|Hne].
      * right. cbn. rewrite Hp in E. injection E as ->. rewrite Z.eqb_refl. lia.
      * left. exists y, q'. split; [done|]. cbn. by rewrite updP_ne.
    + right. right. cbn. destruct (u =? 1); lia.
  - exists q. split; [by apply inv_signal|]. intros Hc. cbn in Hc. by destruct (mcons s).
Qed.

Lemma awake_step s s' b q : minv s b q -> awake s q -> mstep s s' -> exists b' q', minv s' b' q' /\ awake s' q'.
Proof.
  intros I A H. revert I A. destruct H as [s s' H|s s' H|s s' H|s s' H]; intros I A.
  - destruct (awake_enqueue _ _ _ _ I A H) as (q' & ? & ?). by exists b, q'.
  - destruct (inv_take _ _ _ _ I H) as (b' & q' & I'). exists b', q'. split; [done|]. by destruct H.
  - exists b, q. split; [by eapply inv_dequeue|]. destruct H as [s w Hc|s w Hc|s sl Hc|s sl Hc|s sl Hc|s Hc|s sl Hc]; try done; unfold awake, reload; cbn.
    + destruct (mhead s =? 0), w; done.
    + destruct (mtail s =? _); [by left|done].
    + by destruct (mhead s =? 0).
  - exists b, q. split; [by eapply inv_abandon|]. destruct H as [s Hc|s Hc|s Hc]; unfold awake; cbn; [done| |].
    + by destruct (mtail s =? 0).
    + destruct (mhead s =? 0); [by rewrite Hc|done].
Qed.

Lemma awake_reach next s : rtc mstep (ncclIntruQueueMpscConstruct next) s -> exists b q, minv s b q /\ awake s q.
Proof.
  assert (forall s s', rtc mstep s s' -> (exists b q, minv s b q /\ awake s q) -> exists b q, minv s' b q /\ awake s' q) as H.
  { induction 1 as [|s1 s2 s3 H12 _ IH]; [done|]. intros (b & q & I & A). apply IH. by eapply awake_step. }
  intros Hr. apply (H _ _ Hr). exists [], []. split; [apply inv_start|done].
Qed.

(** The consumer on its own, inside a call. *)
Definition consumerStep (s s' : mpsc) : Prop :=
  takeStep s s' \/ (mcons s <> CIdle /\ (dequeueStep s s' \/ abandonStep s s')).

Definition stage (c : consumer) : nat :=
  match c with CXchg _ _ => 1 | CTake _ _ => 2 | CSpin _ => 5 | CTry _ | CWait | AStart => 4 | _ => 3 end.

(** No producer is inside a call and something is to be returned; [m] bounds the
    steps to the return. *)
Definition quiet (s : mpsc) (d : list Z) (m : nat) : Prop :=
  exists b q, minv s b q /\ awake s q /\ (forall x, mprod s x = PIdle) /\ msignals s = 0%nat /\ mdeq s = d /\
    match mcons s with
    | CIdle => False
    | CWalk _ x _ => exists b1 b2, b = b1 ++ x :: b2 /\ m = S (length b2)
    | c => q <> [] /\ m = (length q + stage c)%nat
    end.

Lemma quiet_head s b q : minv s b q -> (forall x, mprod s x = PIdle) -> q <> [] -> away (mcons s) = true -> mhead s <> 0 /\ 2 < mtail s.
Proof.
  intros I Hp Hq Ha. destruct q as [|x q]; [done|]. pose proof (mi_head _ _ _ I) as H. split.
  - destruct H as [(u & E & _)|[_ H]]; [by rewrite Hp in E|]. assert (mhead s = x) as -> by (by destruct (mcons s)).
    assert (x ∈ b ++ x :: q) as Hin by set_solver. pose proof (inv_big _ _ _ I x Hin). lia.
  - pose proof (mi_tail _ _ _ I) as ->. apply (inv_big _ _ _ I). apply elem_of_app. right. by apply lastOf_elem.
Qed.

(** The consumer moves on while it holds nothing. *)
Lemma quiet_move s d m c :
  quiet s d m -> away (mcons s) = true -> away c = true -> c <> CIdle -> c <> CWait -> (stage c < stage (mcons s))%nat ->
  exists m', (m' < m)%nat /\ quiet (setCons s c) d m'.
Proof.
  intros (b & q & I & A & Hp & Hs & Hd & Hc) Ha Ha' Hi Hw Hlt. exists (length q + stage c)%nat.
  assert (q <> [] /\ m = (length q + stage (mcons s))%nat) as [Hq ->] by (by destruct (mcons s)). split; [lia|].
  exists b, q. split_and!; try done.
  - by apply inv_move.
  - intros E. by cbn in E.
  - cbn [setCons mcons]. by destruct c.
Qed.

Lemma quiet_take s d m f :
  quiet s d m -> away (mcons s) = true -> 0 <= f <= 2 -> exists m', (m' < m)%nat /\ quiet (setCons s (CTake (mhead s) f)) d m'.
Proof.
  intros (b & q & I & A & Hp & Hs & Hd & Hc) Ha Hf. exists (length q + 2)%nat.
  assert (q <> [] /\ m = (length q + stage (mcons s))%nat) as [Hq ->] by (by destruct (mcons s)).
  split; [destruct (mcons s); cbn in *; (done || lia)|]. exists b, q. split_and!; try done. apply inv_take_start; try done. by eapply quiet_head.
Qed.

Lemma quiet_not_wait s d m : quiet s d m -> mcons s <> CWait.
Proof.
  intros (b & q & I & A & Hp & Hs & Hd & Hc) E. rewrite E in Hc. destruct Hc as [Hq _].
  destruct (quiet_head s b q I Hp Hq) as [_ Ht]; [by rewrite E|]. destruct (A E) as [H|[(x & q' & _ & H)|H]]; [lia|by rewrite Hp in H|lia].
Qed.

Lemma quiet_facts s d m : quiet s d m -> away (mcons s) = true -> (mhead s =? 0) = false /\ 2 < mtail s.
Proof.
  intros (b & q & I & A & Hp & Hs & Hd & Hc) Ha. assert (q <> []) as Hq by (destruct (mcons s); by try destruct Hc).
  destruct (quiet_head s b q I Hp Hq Ha). split; [by apply Z.eqb_neq|done].
Qed.

Lemma quiet_call_step s d m s' :
  quiet s d m -> mcons s <> CIdle -> dequeueStep s s' \/ abandonStep s s' -> exists m', (m' < m)%nat /\ quiet s' d m'.
Proof.
  intros Q Hi H. pose proof (quiet_not_wait _ _ _ Q) as Hw. pose proof (quiet_facts _ _ _ Q) as Hf.
  revert Q Hi Hw Hf. destruct H as [H|H]; [destruct H as [s w Hc|s w Hc|s sl Hc|s sl Hc|s sl Hc|s Hc|s sl Hc]|destruct H as [s Hc|s Hc|s Hc]]; intros Q Hi Hw Hf;
    rewrite Hc in Hf; try done; destruct (Hf eq_refl) as [Hh Ht].
  - rewrite Hh. cbn [negb]. apply quiet_take; [done|by rewrite Hc|lia].
  - apply quiet_move; rewrite ?Hc; (done || cbn; lia).
  - apply quiet_move; rewrite ?Hc; (done || cbn; lia).
  - rewrite (proj2 (Z.eqb_neq _ _)) by (destruct sl; lia). apply quiet_move; rewrite ?Hc; (done || cbn; lia).
  - unfold reload. rewrite Hh. apply quiet_take; [done|by rewrite Hc|lia].
  - rewrite (proj2 (Z.eqb_neq _ _)) by lia. apply quiet_move; rewrite ?Hc; (done || cbn; lia).
  - rewrite Hh. apply quiet_take; [done|by rewrite Hc|lia].
Qed.

Lemma quiet_take_step s d m s' :
  quiet s d m -> takeStep s s' ->
  (mcons s' = CIdle /\ exists l, l <> [] /\ mdeq s' = d ++ l) \/ exists m', (m' < m)%nat /\ quiet s' d m'.
Proof.
  intros (b & q & I & A & Hp & Hs & Hd & Hq) H. revert I A Hp Hs Hd Hq.
  destruct H as [s hd f Hc|s hd f Hc|s hd x tl Hc Hx Hn|s hd tl l Hc Hl]; intros I A Hp Hs Hd Hq; rewrite Hc in Hq.
  - right. destruct Hq as [Hq ->]. exists (length q + 1)%nat. split; [cbn; lia|].
    exists b, q. split_and!; try done. by apply inv_take_head.
  - right. destruct Hq as [Hq ->]. exists (length q). split; [cbn; lia|]. destruct (inv_take_tail s b q hd f I Hc) as (q' & E & I').
    exists q, []. split_and!; try done. exists [], q'. rewrite E. done.
  - right. destruct Hq as (b1 & b2 & Eb & ->). destruct (inv_follow s b q hd x tl I Hc Hn) as [I' Hr].
    destruct (Hr b1 b2 Eb) as (r & ->). exists (S (length r)). split; [cbn; lia|]. exists b, q. split_and!; try done.
    exists (b1 ++ [x]), r. by rewrite Eb, <- app_assoc.
  - left. split; [done|]. exists l. cbn. rewrite Hd. split; [|done]. intros ->. destruct Hq as (b1 & b2 & Eb & _).
    pose proof (lseg_fun _ _ _ _ Hl (inv_batch _ _ _ _ _ I Hc)) as E. rewrite Eb in E. by destruct b1.
Qed.

Lemma quiet_progress s d m : quiet s d m -> exists s', consumerStep s s'.
Proof.
  intros Q. pose proof (quiet_not_wait _ _ _ Q) as Hw. destruct Q as (b & q & I & A & Hp & Hs & Hd & Hq).
  destruct (mcons s) as [|w|sl|sl| |sl|hd f|hd f|hd x tl| |] eqn:Hc; try done.
  - eexists. right. split; [by rewrite Hc|]. left. by eapply deq_load.
  - eexists. right. split; [by rewrite Hc|]. left. by eapply deq_spin.
  - eexists. right. split; [by rewrite Hc|]. left. by eapply deq_try.
  - eexists. right. split; [by rewrite Hc|]. left. by eapply deq_reload.
  - eexists. left. by eapply take_head.
  - eexists. left. by eapply take_tail.
  - destruct (Z.eq_dec x tl) as [->|Hne]; [eexists; left; eapply take_return; [done|by eapply inv_batch]|].
    eexists. left. eapply take_follow; [done..|]. destruct Hq as (b1 & b2 & Eb & _). pose proof (mi_chain_b _ _ _ I) as C.
    assert (b2 <> []) as Hb2.
    { intros ->. pose proof (mi_walk _ _ _ I) as W. rewrite Hc in W. destruct W as (_ & _ & _ & _ & Ht). rewrite Eb, lastOf_app in Ht. done. }
    destruct b2 as [|c b2]; [done|]. rewrite Eb in C. apply chain_app in C as [[[E _]|[_ ->]] _]; [by rewrite Hp in E|].
    assert (c ∈ b ++ q) as Hin by (rewrite Eb; set_solver). pose proof (inv_big _ _ _ I c Hin). lia.
  - eexists. right. split; [by rewrite Hc|]. right. by eapply ab_try.
  - eexists. right. split; [by rewrite Hc|]. right. by eapply ab_spin.
Qed.

Lemma idle_done s s' : mcons s = CIdle -> ~ consumerStep s s'.
Proof. intros Hc [H|[H _]]; [|done]. destruct H; congruence. Qed.

Lemma quiet_run k s d m s' :
  quiet s d m -> nsteps consumerStep k s s' ->
  (k <= m)%nat /\ (mcons s' = CIdle -> exists l, l <> [] /\ mdeq s' = d ++ l) /\ (mcons s' <> CIdle -> exists s'', consumerStep s' s'').
Proof.
  intros Q H. revert m Q. induction H as [s|k s s1 s' H1 H IH]; intros m Q.
  - split; [lia|]. split; [|intros _; by eapply quiet_progress]. intros E. destruct Q as (b & q & _ & _ & _ & _ & _ & Hc). by rewrite E in Hc.
  - assert ((mcons s1 = CIdle /\ exists l, l <> [] /\ mdeq s1 = d ++ l) \/ exists m', (m' < m)%nat /\ quiet s1 d m') as [[Hi Hl]|(m' & Hm & Q')].
    { destruct H1 as [H1|[Hi H1]]; [by eapply quiet_take_step|]. right. by eapply quiet_call_step. }
    + inversion H; subst; [|exfalso; by eapply idle_done]. split; [|done]. destruct m; [|lia].
      destruct Q as (b & q & _ & _ & _ & _ & _ & Hc). exfalso. destruct (mcons s); cbn in Hc; try done; destruct Hc as (? & Hc); try lia.
      destruct Hc as (? & _ & Hc). lia.
    + destruct (IH m' Q') as [Hk Hr]. split; [lia|done].
Qed.

(** C33: the consumer never sleeps through an enqueue and always returns: once all
    producers have left their calls and something is in the queue, a consumer
    inside a call is not asleep; left to run it can always take a step, and
    however it does, after a number of steps linear in the queue it has
    returned a list that is not empty. *)
Theorem ncclIntruQueueMpsc_returns next s k s' :
  rtc mstep (ncclIntruQueueMpscConstruct next) s ->
  (forall x, mprod s x = PIdle) -> msignals s = 0%nat -> inside s <> [] -> mcons s <> CIdle ->
  nsteps consumerStep k s s' ->
  mcons s <> CWait /\ (k <= length (inside s) + 5)%nat /\
  (mcons s' = CIdle -> exists l, l <> [] /\ mdeq s' = mdeq s ++ l) /\
  (mcons s' <> CIdle -> exists s'', consumerStep s' s'').
Proof.
  intros Hr Hp Hs Hn Hi Hk. destruct (awake_reach next s Hr) as (b & q & I & A). rewrite (inside_eq _ _ _ I) in *.
  assert (exists m, (m <= length (b ++ q) + 5)%nat /\ quiet s (mdeq s) m) as (m & Hm & Q).
  { rewrite length_app. destruct (match mcons s with CWalk _ _ _ => true | _ => false end) eqn:E.
    - destruct (mcons s) as [| | | | | | | |hd x tl| |] eqn:Hc; try done.
      pose proof (mi_walk _ _ _ I) as W. rewrite Hc in W. destruct W as (b1 & b2 & Eb & _). exists (S (length b2)).
      split; [rewrite Eb, length_app; cbn; lia|]. exists b, q. split_and!; try done. rewrite Hc. by exists b1, b2.
    - exists (length q + stage (mcons s))%nat. assert (stage (mcons s) <= 5)%nat by (destruct (mcons s); cbn; lia).
      split; [lia|]. exists b, q. split_and!; try done.
      assert (b = []) as -> by (pose proof (mi_walk _ _ _ I); by destruct (mcons s)). cbn [app] in Hn. by destruct (mcons s). }
  split; [by eapply quiet_not_wait|]. destruct (quiet_run k s (mdeq s) m s' Q Hk) as (H1 & H2 & H3). split; [lia|done].
Qed.

(** A consumer that went to sleep on the empty queue, then one enqueue. *)
Definition mpscSleep : mpsc := fold_left (fun s (f : mpsc -> mpsc) => f s) [
  (fun s => setCons s (CLoad true)); (fun s => setCons s (CSpin false)); (fun s => setCons s (CTry false));
  (fun s => setTail s 1 CWait); (fun s => clearNext s 16); (fun s => exchangeTail s 16); (fun s => linkPrev s 16 1); signal]
  (ncclIntruQueueMpscConstruct (fun _ => 7)).

Lemma ncclIntruQueueMpsc_returns_witness :
  mcons mpscSleep = CReload true /\
  (exists s'', consumerStep (setCons mpscSleep (CTake 16 0)) s'').
Proof.
  split; [reflexivity|].
  destruct (ncclIntruQueueMpsc_returns (fun _ => 7) mpscSleep 1 (setCons mpscSleep (CTake 16 0))) as (_ & _ & _ & H).
  - unfold mpscSleep. cbn [fold_left].
    eapply rtc_l; [apply m_dequeue, (deq_call _ true); reflexivity|].
    eapply rtc_l; [apply m_dequeue, (deq_load _ true); reflexivity|].
    eapply rtc_l; [apply m_dequeue, (deq_late _ false); reflexivity|].
    eapply rtc_l; [apply m_dequeue, (deq_try _ false); reflexivity|].
    eapply rtc_l; [apply m_enqueue, (enq_clear _ 16); [lia|reflexivity|by apply not_elem_of_nil]|].
    eapply rtc_l; [apply m_enqueue, (enq_exchange _ 16); reflexivity|].
    eapply rtc_l; [apply m_enqueue, (enq_link _ 16 1); reflexivity|].
    eapply rtc_l; [apply m_enqueue, enq_signal; [vm_compute; lia|intros sl; cbn; discriminate]|].
    apply rtc_refl.
  - intros x. cbn. unfold updP. by destruct (x =? 16).
  - reflexivity.
  - discriminate.
  - discriminate.
  - apply nsteps_once. right. split; [discriminate|]. left. apply (deq_reload mpscSleep true). reflexivity.
  - apply H. discriminate.
Defined.
