(* ===== verification/AddrMap.v ===== *)
(** * The intrusive address map (src/src/misc/utils.cc, src/src/include/utils.h)

    A hash table from keys to objects, where each bucket is a list linked
    through a field of the objects and the key is read from another field.  The
    table is created by the first insertion, doubled when there are more than
    two objects per bucket, and freed with the last object.  The file proves
    that it refines a finite map from keys to objects. *)

From stdpp Require Import base numbers list sets gmap.
From Stdlib Require Import ZArith Lia.
From S2P Require Import Prelude Heap.

Local Open Scope Z_scope.

(** ** The code *)

(** No table is the empty list. *)
(* src/src/include/utils.h:689-694 ncclIntruAddressMap_untyped *)
Record ncclIntruAddressMap := { hbits : Z; count : Z; table : list Z }.

(* src/src/include/utils.h:710-718 ncclIntruAddressMapDestruct *)
Definition ncclIntruAddressMapDestruct (map : ncclIntruAddressMap) : ncclIntruAddressMap :=
  {| hbits := 0; count := 0; table := [] |}.

(* src/src/misc/utils.cc:385-393 ncclHashPointer *)
Definition ncclHashPointer (hbits key : Z) : Z :=
  let h := Z.lxor key (Z.shiftr key 32) in
  let h := wrap64 (h * 0x9e3779b97f4a7c13) in
  Z.shiftr h (64 - hbits).

(** The field holds 8 bytes; a shorter key is zero-extended. *)
(* src/src/misc/utils.cc:398-405 readKey *)
Definition readKey (keys : Z -> Z) (keySize obj : Z) : Z := keys obj mod 2 ^ (8 * keySize).

Definition bucket (t : list Z) (b : Z) : Z := nth (Z.to_nat b) t 0.

Section code.
Context (keys : Z -> Z) (keySize : Z).

(** [while (obj)]: move the objects of one old bucket to the new table. *)
Fixpoint rehashBucket (fuel : nat) (h : heap) (newHbits obj : Z) (newTable : list Z) : heap * list Z :=
  match fuel with
  | O => (h, newTable)
  | S fuel =>
      if obj =? 0 then (h, newTable) else
      let next := h obj in
      let b := ncclHashPointer newHbits (readKey keys keySize obj) in
      rehashBucket fuel (hset h obj (bucket newTable b)) newHbits next (<[Z.to_nat b := obj]> newTable)
  end.

(** The old buckets in order. *)
(* src/src/misc/utils.cc:456-491 ncclIntruAddressMapInsert_untyped *)
Definition growTable (h : heap) (map : ncclIntruAddressMap) : heap * ncclIntruAddressMap :=
  let newHbits := hbits map + 1 in
  let newTable := replicate (Z.to_nat (cwrap i32 (Z.shiftl 1 newHbits))) 0 in
  let '(h, newTable) := fold_left (fun '(h, t) obj => rehashBucket (S (Z.to_nat (count map))) h newHbits obj t) (table map) (h, newTable) in
  (h, {| hbits := newHbits; count := count map; table := newTable |}).

(** [isNull] is [map == nullptr], [canAlloc] whether the memory for a table can
    be had. *)
(* src/src/misc/utils.cc:423-510 ncclIntruAddressMapInsert_untyped *)
Definition ncclIntruAddressMapInsert (isNull canAlloc : bool) (h : heap) (map : ncclIntruAddressMap) (key object : Z) :
    ncclResult_t * heap * ncclIntruAddressMap :=
  if isNull then (ncclInvalidUsage, h, map) else
  if object =? 0 then (ncclInvalidUsage, h, map) else
  if (keySize <=? 0) || (8 <? keySize) then (ncclInvalidUsage, h, map) else
  if (hbits map =? 0) && negb canAlloc then (ncclSystemError, h, {| hbits := 0; count := count map; table := [] |}) else
  let map := if hbits map =? 0 then {| hbits := 4; count := count map; table := replicate 16 0 |} else map in
  let grow := cwrap i32 (Z.shiftl 2 (hbits map)) <? cwrap i32 (count map + 1) in
  if grow && negb canAlloc then (ncclSystemError, h, map) else
  let '(h, map) := if grow then growTable h map else (h, map) in
  let b := ncclHashPointer (hbits map) key in
  (ncclSuccess, hset h object (bucket (table map) b),
   {| hbits := hbits map; count := cwrap i32 (count map + 1); table := <[Z.to_nat b := object]> (table map) |}).

(** [while (obj)]: the first object with the key, with the one before it.  A
    bucket holds at most [count] objects. *)
Definition findFrom (map : ncclIntruAddressMap) (h : heap) (key obj : Z) : Z * Z :=
  default (0, 0) (walkWhile (S (Z.to_nat (count map))) h (fun obj => negb (readKey keys keySize obj =? key)) 0 obj).

(** The object is null when the key is not there; [outNull] is [object == nullptr]. *)
(* src/src/misc/utils.cc:512-549 ncclIntruAddressMapFind_untyped *)
Definition ncclIntruAddressMapFind (isNull outNull : bool) (h : heap) (map : ncclIntruAddressMap) (key : Z) : ncclResult_t * option Z :=
  if isNull || outNull then (ncclInvalidUsage, None) else
  if (keySize <=? 0) || (8 <? keySize) then (ncclInvalidUsage, None) else
  if hbits map =? 0 then (ncclSuccess, Some 0) else
  let b := ncclHashPointer (hbits map) key in
  (ncclSuccess, Some (snd (findFrom map h key (bucket (table map) b)))).

(* src/src/misc/utils.cc:551-604 ncclIntruAddressMapRemove_untyped *)
Definition ncclIntruAddressMapRemove (isNull : bool) (h : heap) (map : ncclIntruAddressMap) (key : Z) : ncclResult_t * heap * ncclIntruAddressMap :=
  if isNull then (ncclInvalidUsage, h, map) else
  if (keySize <=? 0) || (8 <? keySize) then (ncclInvalidUsage, h, map) else
  if hbits map =? 0 then (ncclSuccess, h, map) else
  let b := ncclHashPointer (hbits map) key in
  let '(prev, obj) := findFrom map h key (bucket (table map) b) in
  if obj =? 0 then (ncclSuccess, h, map) else
  let next := h obj in
  let '(h, t) := if prev =? 0 then (h, <[Z.to_nat b := next]> (table map)) else (hset h prev next, table map) in
  let n := cwrap i32 (count map - 1) in
  if n =? 0 then (ncclSuccess, h, {| hbits := 0; count := 0; table := [] |})
  else (ncclSuccess, h, {| hbits := hbits map; count := n; table := t |}).
End code.

(** ** Buckets *)

Lemma ncclHashPointer_range hb key : 1 <= hb <= 63 -> 0 <= ncclHashPointer hb key < 2 ^ hb.
Proof.
  intros Hb. unfold ncclHashPointer. cbv zeta. set (w := wrap64 _). pose proof (wrap64_bound (Z.lxor key (Z.shiftr key 32) * 0x9e3779b97f4a7c13)) as Hw.
  fold w in Hw. rewrite Z.shiftr_div_pow2 by lia. split; [apply Z.div_pos; lia|]. apply Z.div_lt_upper_bound; [lia|].
  rewrite <- Z.pow_add_r by lia. replace (64 - hb + hb) with 64 by lia. lia.
Qed.

Section map.
Context (keys : Z -> Z) (keySize : Z).
Local Abbreviation key := (readKey keys keySize).

(** The buckets [L] of a table of [2 ^ hb] entries: a list each, whose objects
    have a key that hashes there. *)
Record buckets (hb : Z) (h : heap) (t : list Z) (L : list (list Z)) : Prop := {
  bu_bits : 4 <= hb <= 28;
  bu_table : length t = Z.to_nat (2 ^ hb);
  bu_chain : Forall2 (fun p l => lseg h p l 0) t L;
  bu_hash i l x : L !! i = Some l -> x ∈ l -> Z.to_nat (ncclHashPointer hb (key x)) = i;
  bu_nodup : NoDup (concat L) }.

Section table.
Context (hb : Z) (h : heap) (t : list Z) (L : list (list Z)) (B : buckets hb h t L).

Lemma bucket_at k : exists l, let i := Z.to_nat (ncclHashPointer hb k) in
  (i < length t)%nat /\ L !! i = Some l /\ lseg h (bucket t (ncclHashPointer hb k)) l 0.
Proof.
  pose proof (bu_bits _ _ _ _ B). pose proof (ncclHashPointer_range hb k ltac:(lia)) as Hr.
  assert (Z.to_nat (ncclHashPointer hb k) < length t)%nat as Hi by (rewrite (bu_table _ _ _ _ B); lia).
  destruct (lookup_lt_is_Some_2 t _ Hi) as [p Hp]. destruct (Forall2_lookup_l _ _ _ _ _ (bu_chain _ _ _ _ B) Hp) as (l & Hl & Hs).
  exists l. split; [done|]. split; [done|]. unfold bucket. by rewrite (nth_lookup_Some _ _ 0 _ Hp).
Qed.

Lemma buckets_disjoint i l y : L !! i = Some l -> y ∈ concat (delete i L) -> y ∉ l.
Proof. intros E Hy Hl. pose proof (bu_nodup _ _ _ _ B) as Hnd. rewrite (concat_at _ _ _ E) in Hnd. apply NoDup_app in Hnd as (_ & Hd & _). by apply (Hd y). Qed.

Lemma elem_of_bucket x : x ∈ concat L <-> exists l, L !! Z.to_nat (ncclHashPointer hb (key x)) = Some l /\ x ∈ l.
Proof.
  rewrite list_elem_of_In, in_concat. setoid_rewrite <- list_elem_of_In. split.
  - intros (l & (i & Hi)%list_elem_of_lookup & Hx). exists l. by rewrite (bu_hash _ _ _ _ B i l x Hi Hx).
  - intros (l & Hi & Hx). exists l. split; [|done]. by eapply list_elem_of_lookup_2.
Qed.

(** One bucket is replaced, with the objects of the others untouched. *)
Lemma buckets_update i l h' p' l' :
  L !! i = Some l -> lseg h' p' l' 0 -> NoDup (l' ++ concat (delete i L)) ->
  (forall x, x ∈ l' -> Z.to_nat (ncclHashPointer hb (key x)) = i) ->
  (forall y, y ∈ concat (delete i L) -> h' y = h y) -> buckets hb h' (<[i := p']> t) (<[i := l']> L).
Proof.
  intros E Hs Hnd Hh Hfr. destruct B as [B1 B2 B3 B4 B5]. pose proof (Forall2_length _ _ _ B3) as Hl. split.
  - done.
  - by rewrite length_insert.
  - apply Forall2_same_length_lookup. rewrite !length_insert. split; [done|]. intros j p a Hp Ha. pose proof (lookup_lt_Some _ _ _ E) as Hlt.
    destruct (Nat.eq_dec i j) as [<-|Hne].
    + rewrite list_lookup_insert_eq in Ha by done. rewrite list_lookup_insert_eq in Hp by lia. by simplify_eq.
    + rewrite list_lookup_insert_ne in Ha by done. rewrite list_lookup_insert_ne in Hp by done.
      apply (lseg_ext h); [|exact (Forall2_lookup_lr _ _ _ _ _ _ B3 Hp Ha)]. intros y Hy. apply Hfr. by eapply elem_of_rest.
  - intros j a x Ha Hx. destruct (Nat.eq_dec i j) as [<-|Hne].
    + rewrite list_lookup_insert_eq in Ha by (by apply lookup_lt_Some in E). simplify_eq. by apply Hh.
    + rewrite list_lookup_insert_ne in Ha by done. by eapply B4.
  - by rewrite (concat_insert _ _ _ _ E).
Qed.

(** An object is put in front of its bucket. *)
Lemma buckets_push x :
  x <> 0 -> x ∉ concat L ->
  let b := ncclHashPointer hb (key x) in
  exists L', buckets hb (hset h x (bucket t b)) (<[Z.to_nat b := x]> t) L' /\ concat L' ≡ₚ x :: concat L.
Proof.
  intros Hx Hn b. destruct (bucket_at (key x)) as (l & Hi & E & Hs). fold b in Hi, E, Hs. exists (<[Z.to_nat b := x :: l]> L).
  pose proof (concat_at _ _ _ E) as P. split; [|rewrite (concat_insert _ _ _ _ E), P; done].
  apply (buckets_update _ l).
  - done.
  - cbn [lseg]. rewrite hset_eq. split_and!; [done..|]. apply lseg_hset; [by eapply concat_elem|done].
  - cbn [app]. constructor; [by rewrite <- P|]. rewrite <- P. apply B.
  - intros y [->|Hy]%elem_of_cons; [done|]. by eapply (bu_hash _ _ _ _ B).
  - intros y Hy. apply hset_ne. intros ->. apply Hn. rewrite P. apply elem_of_app. by right.
Qed.
End table.

(** ** Growing the table *)

Lemma rehashBucket_spec fuel hb h obj l t L :
  lseg h obj l 0 -> (length l < fuel)%nat -> buckets hb h t L -> NoDup (l ++ concat L) ->
  let '(h', t') := rehashBucket keys keySize fuel h hb obj t in
  (exists L', buckets hb h' t' L' /\ concat L' ≡ₚ l ++ concat L) /\ forall y, y ∉ l -> y ∉ concat L -> h' y = h y.
Proof.
  revert fuel h obj t L. induction l as [|x l IH]; intros [|fuel] h obj t L Hs Hf B Hnd; cbn [length] in Hf; try lia; cbn [rehashBucket].
  - cbn in Hs. subst. cbn. split; [|done]. by exists L.
  - destruct Hs as (-> & Hx & Hs). rewrite (proj2 (Z.eqb_neq _ _) Hx). cbn [app] in Hnd. apply NoDup_cons in Hnd as [Hn Hnd].
    assert ((x ∉ concat L) /\ x ∉ l) as [HnL Hnl] by set_solver.
    destruct (buckets_push hb h t L B x Hx HnL) as (L1 & B1 & P1). cbn zeta in B1.
    specialize (IH fuel (hset h x (bucket t (ncclHashPointer hb (key x)))) (h x) (<[Z.to_nat (ncclHashPointer hb (key x)) := x]> t) L1).
    destruct (rehashBucket _ _ _ _ _ _ _) as [h' t']. destruct IH as [(L' & B' & P') Hfr].
    + by apply lseg_hset.
    + lia.
    + done.
    + rewrite P1, <- Permutation_middle. constructor; [|done]. set_solver.
    + split.
      * exists L'. split; [done|]. rewrite P', P1. cbn [app]. by rewrite Permutation_middle.
      * intros y Hy HyL. apply not_elem_of_cons in Hy as [Hyx Hyl]. rewrite Hfr; [by apply hset_ne|done|]. rewrite P1. set_solver.
Qed.

Lemma rehash_spec fuel hb ps Ls h t L :
  Forall2 (fun p l => lseg h p l 0) ps Ls -> Forall (fun l => (length l < fuel)%nat) Ls -> buckets hb h t L ->
  NoDup (concat Ls ++ concat L) ->
  let '(h', t') := fold_left (fun '(h, t) obj => rehashBucket keys keySize fuel h hb obj t) ps (h, t) in
  exists L', buckets hb h' t' L' /\ concat L' ≡ₚ concat Ls ++ concat L.
Proof.
  intros HF. revert t L h HF. revert Ls. induction ps as [|p ps IH]; intros Ls t L h HF Hf B Hnd.
  - inversion HF; subst. by exists L.
  - inversion HF as [|? l ? Ls' Hs HF']; subst. cbn [concat fold_left] in *. apply Forall_cons in Hf as [Hl Hf].
    assert (NoDup (l ++ concat L)) as Hn1.
    { rewrite <- app_assoc in Hnd. rewrite (Permutation_app_comm (concat Ls')), app_assoc in Hnd. by apply NoDup_app in Hnd as [? _]. }
    pose proof (rehashBucket_spec fuel hb h p l t L Hs Hl B Hn1) as P.
    destruct (rehashBucket keys keySize fuel h hb p t) as [h1 t1]. destruct P as [(L1 & B1 & P1) Hfr].
    specialize (IH Ls' t1 L1 h1). destruct (fold_left _ ps (h1, t1)) as [h' t'].
    assert (NoDup (concat Ls' ++ concat L1)) as Hn2.
    { rewrite P1. rewrite !app_assoc in *. by rewrite (Permutation_app_comm (concat Ls') l). }
    destruct IH as (L' & B' & P'); [|done|done|done|].
    + apply Forall2_same_length_lookup. split; [by eapply Forall2_length|]. intros i q a Hq Ha.
      apply (lseg_ext h); [|exact (Forall2_lookup_lr _ _ _ _ _ _ HF' Hq Ha)]. intros y Hy.
      assert (y ∈ concat Ls') as Hy' by (rewrite (concat_at _ _ _ Ha); set_solver).
      rewrite <- app_assoc in Hnd. apply NoDup_app in Hnd as (_ & Hd1 & Hnd). apply NoDup_app in Hnd as (_ & Hd2 & _).
      apply Hfr; [intros Hyl; apply (Hd1 y Hyl); set_solver|by apply Hd2].
    + exists L'. split; [done|]. rewrite P', P1, !app_assoc. by rewrite (Permutation_app_comm (concat Ls') l).
Qed.

Lemma concat_replicate_nil n : concat (replicate n ([] : list Z)) = [].
Proof. by induction n. Qed.

Lemma buckets_empty hb h : 4 <= hb <= 28 -> buckets hb h (replicate (Z.to_nat (2 ^ hb)) 0) (replicate (Z.to_nat (2 ^ hb)) []).
Proof.
  intros Hb. split.
  - done.
  - by rewrite length_replicate.
  - apply Forall2_same_length_lookup. rewrite !length_replicate. split; [done|].
    intros i p l [-> _]%lookup_replicate [-> _]%lookup_replicate. done.
  - intros i l x [-> _]%lookup_replicate Hx. by apply not_elem_of_nil in Hx.
  - rewrite concat_replicate_nil. constructor.
Qed.

Lemma chain_count (L : list (list Z)) i l : L !! i = Some l -> (length l <= length (concat L))%nat.
Proof. intros E. rewrite (concat_at _ _ _ E), length_app. lia. Qed.

Lemma growTable_spec h m L :
  buckets (hbits m) h (table m) L -> hbits m + 1 <= 28 -> count m = Z.of_nat (length (concat L)) ->
  exists L', buckets (hbits m + 1) (fst (growTable keys keySize h m)) (table (snd (growTable keys keySize h m))) L' /\
    hbits (snd (growTable keys keySize h m)) = hbits m + 1 /\ count (snd (growTable keys keySize h m)) = count m /\ concat L' ≡ₚ concat L.
Proof.
  intros B Hb Hc. pose proof (bu_bits _ _ _ _ B) as Hb'. unfold growTable. cbv zeta.
  assert (0 <= 2 ^ (hbits m + 1) < 2 ^ 31) as Hp by (split; [lia|apply Z.pow_lt_mono_r; lia]).
  rewrite Z.shiftl_1_l, cwrap_fits by auto with widths.
  pose proof (buckets_empty (hbits m + 1) h ltac:(lia)) as B0.
  assert (Forall (fun l : list Z => (length l < S (Z.to_nat (count m)))%nat) L) as Hl.
  { apply Forall_lookup_2. intros i l Hl. pose proof (chain_count _ _ _ Hl). lia. }
  pose proof (rehash_spec _ (hbits m + 1) (table m) L h _ _ (bu_chain _ _ _ _ B) Hl B0) as P.
  rewrite concat_replicate_nil, app_nil_r in P. specialize (P (bu_nodup _ _ _ _ B)).
  destruct (fold_left _ (table m) _) as [h' t']. cbn [fst snd hbits count table]. destruct P as (L' & B' & P'). by exists L'.
Qed.

(** ** The map *)

Record mrep (h : heap) (m : ncclIntruAddressMap) (L : list (list Z)) : Prop := {
  mr_table : (hbits m = 0 /\ table m = [] /\ L = []) \/ (buckets (hbits m) h (table m) L /\ concat L <> []);
  mr_count : count m = Z.of_nat (length (concat L));
  mr_load : hbits m <> 0 -> count m <= 2 * 2 ^ hbits m }.

(** The map holds the objects of [M], each at its key. *)
Definition repMap (h : heap) (m : ncclIntruAddressMap) (M : gmap Z Z) : Prop :=
  exists L, mrep h m L /\ forall k o, M !! k = Some o <-> o ∈ concat L /\ key o = k.

Lemma mrep_hbits h m L : mrep h m L -> hbits m <> 0 -> buckets (hbits m) h (table m) L /\ concat L <> [].
Proof. intros R Hb. destruct (mr_table _ _ _ R) as [[? _]|?]; done. Qed.

(** The search ends at the object with the key, or at null. *)
Lemma findFrom_spec h m L k :
  buckets (hbits m) h (table m) L -> count m = Z.of_nat (length (concat L)) ->
  exists l l1 l2, L !! Z.to_nat (ncclHashPointer (hbits m) k) = Some l /\ l = l1 ++ l2 /\
    findFrom keys keySize m h k (bucket (table m) (ncclHashPointer (hbits m) k)) = (lastOf l1, firstOf l2) /\
    (forall x, x ∈ l1 -> key x <> k) /\ match l2 with [] => True | x :: _ => key x = k end.
Proof.
  intros B Hc. destruct (bucket_at _ _ _ _ B k) as (l & Hi & E & Hs). unfold findFrom.
  rewrite (walkWhile_spec _ _ _ _ _ _ Hs) by (pose proof (chain_count _ _ _ E); lia). cbn [default].
  pose proof (span_app (fun obj => negb (key obj =? k)) l) as Ea.
  pose proof (span_spec (fun obj => negb (key obj =? k)) l) as [S1 S2].
  destruct (span _ l) as [l1 l2]. cbn [fst snd] in *. exists l, l1, l2. split_and!; try done.
  - case_decide as El; by subst.
  - intros x Hx. by apply Z.eqb_neq, negb_true_iff, S1.
  - destruct l2; [done|]. by apply Z.eqb_eq, negb_false_iff.
Qed.

Lemma hash_unique h m L (M : gmap Z Z) k o :
  mrep h m L -> (forall k o, M !! k = Some o <-> o ∈ concat L /\ key o = k) -> hbits m <> 0 ->
  forall l, L !! Z.to_nat (ncclHashPointer (hbits m) k) = Some l -> M !! k = Some o <-> o ∈ l /\ key o = k.
Proof.
  intros R HM Hb l E. destruct (mrep_hbits _ _ _ R Hb) as [B _]. rewrite HM. split; intros [Ho <-]; (split; [|done]).
  - apply (elem_of_bucket _ _ _ _ B) in Ho as (l' & E' & Ho). by simplify_eq.
  - apply (elem_of_bucket _ _ _ _ B). by exists l.
Qed.

Lemma find_refines h m M k :
  repMap h m M -> 1 <= keySize <= 8 ->
  ncclIntruAddressMapFind keys keySize false false h m k = (ncclSuccess, Some (default 0 (M !! k))).
Proof.
  intros (L & R & HM) Hk. unfold ncclIntruAddressMapFind. cbn [orb].
  rewrite (proj2 (Z.leb_gt keySize 0)), (proj2 (Z.ltb_ge 8 keySize)) by lia. cbn [orb].
  destruct (Z.eqb_spec (hbits m) 0) as [E|E].
  - destruct (mr_table _ _ _ R) as [(_ & _ & ->)|[B _]]; [|pose proof (bu_bits _ _ _ _ B); lia].
    destruct (M !! k) as [o|] eqn:Eo; [|done]. apply HM in Eo as [Ho _]. by apply not_elem_of_nil in Ho.
  - destruct (mrep_hbits _ _ _ R E) as [B _]. destruct (findFrom_spec h m L k B (mr_count _ _ _ R)) as (l & l1 & l2 & El & Ea & -> & H1 & H2).
    do 2 f_equal. cbn [snd]. pose proof (fun o => hash_unique h m L M k o R HM E l El) as HU. destruct l2 as [|x l2]; cbn [firstOf].
    + destruct (M !! k) as [o|] eqn:Eo; [|done]. destruct (proj1 (HU o) eq_refl) as [Ho Hko]. rewrite Ea, app_nil_r in Ho. by apply H1 in Ho.
    + rewrite (proj2 (HU x)); [done|]. split; [rewrite Ea; set_solver|done].
Qed.

(** The table of the insertion: created, grown or as it was. *)
Lemma insert_ready h m L :
  mrep h m L -> count m < 2 ^ 29 ->
  let m1 := if hbits m =? 0 then {| hbits := 4; count := count m; table := replicate 16 0 |} else m in
  let grow := cwrap i32 (Z.shiftl 2 (hbits m1)) <? cwrap i32 (count m1 + 1) in
  let '(h2, m2) := if grow then growTable keys keySize h m1 else (h, m1) in
  exists L2, buckets (hbits m2) h2 (table m2) L2 /\ concat L2 ≡ₚ concat L /\ count m2 = count m /\
    count m2 + 1 <= 2 * 2 ^ hbits m2 /\ (grow = false -> hbits m <> 0 -> m2 = m).
Proof.
  intros R Hc m1 grow. pose proof (mr_count _ _ _ R) as Ec.
  assert (exists L1, buckets (hbits m1) h (table m1) L1 /\ concat L1 = concat L /\ count m1 = count m) as (L1 & B1 & P1 & C1).
  { unfold m1. destruct (Z.eqb_spec (hbits m) 0) as [E|E]; [|destruct (mrep_hbits _ _ _ R E); by exists L].
    destruct (mr_table _ _ _ R) as [(_ & _ & ->)|[B _]]; [|pose proof (bu_bits _ _ _ _ B); lia].
    exists (replicate 16 []). split; [apply (buckets_empty 4); lia|done]. }
  pose proof (bu_bits _ _ _ _ B1) as Hb. assert (2 ^ 4 <= 2 ^ hbits m1 <= 2 ^ 28) as Hp by (split; apply Z.pow_le_mono_r; lia).
  assert (grow = (2 * 2 ^ hbits m1 <? count m + 1)) as Eg.
  { unfold grow. rewrite Z.shiftl_mul_pow2, C1 by lia. rewrite !cwrap_fits; try done; fits_lia. }
  rewrite Eg. destruct (Z.ltb_spec (2 * 2 ^ hbits m1) (count m + 1)) as [Hg|Hg].
  - assert (hbits m1 + 1 < 29) as Hb1.
    { apply (Z.pow_lt_mono_r_iff 2); [lia|lia|]. rewrite Z.pow_add_r by lia. lia. }
    destruct (growTable_spec h m1 L1 B1 ltac:(lia) ltac:(by rewrite C1, P1)) as (L2 & B2 & E2 & C2 & P2).
    destruct (growTable keys keySize h m1) as [h2 m2]. cbn [fst snd] in *. exists L2. rewrite E2.
    split_and!; [done|by rewrite P2, P1|lia| |done]. rewrite Z.pow_add_r by lia.
    destruct (Z.eq_dec (hbits m) 0) as [E0|E0]; [|assert (m1 = m) as -> by (unfold m1; by rewrite (proj2 (Z.eqb_neq _ _) E0));
      pose proof (mr_load _ _ _ R E0); lia].
    destruct (mr_table _ _ _ R) as [(_ & _ & EL)|[B _]]; [|pose proof (bu_bits _ _ _ _ B); lia]. rewrite EL in Ec. cbn in Ec. lia.
  - exists L1. split_and!; [done|by rewrite P1|done|lia|]. intros _ E. unfold m1. by rewrite (proj2 (Z.eqb_neq _ _) E).
Qed.

Lemma insert_refines h m M k o canAlloc :
  repMap h m M -> 1 <= keySize <= 8 -> o <> 0 -> key o = k -> M !! k = None -> count m < 2 ^ 29 ->
  let '(res, h', m') := ncclIntruAddressMapInsert keys keySize false canAlloc h m k o in
  (res = ncclSuccess /\ repMap h' m' (<[k := o]> M) /\ count m' = count m + 1) \/
  (canAlloc = false /\ res = ncclSystemError /\ repMap h' m' M).
Proof.
  intros (L & R & HM) Hk Ho Hko HMk Hc. pose proof (insert_ready h m L R Hc) as P. cbn zeta in P. unfold ncclIntruAddressMapInsert.
  rewrite (proj2 (Z.eqb_neq o 0) Ho), (proj2 (Z.leb_gt keySize 0)), (proj2 (Z.ltb_ge 8 keySize)) by lia. cbn [orb].
  destruct ((hbits m =? 0) && negb canAlloc) eqn:Ea.
  { apply andb_true_iff in Ea as [E%Z.eqb_eq Ea%negb_true_iff]. right. split_and!; [done|done|]. exists L. split; [|done].
    destruct (mr_table _ _ _ R) as [(_ & _ & ->)|[B _]]; [|pose proof (bu_bits _ _ _ _ B); lia]. split; [by left|apply R|done]. }
  set (m1 := if hbits m =? 0 then _ else _) in *. set (grow := _ <? _) in *.
  destruct (grow && negb canAlloc) eqn:Eg.
  { apply andb_true_iff in Eg as [Eg Ean]. rewrite Ean, andb_true_r in Ea. right. split_and!; [by apply negb_true_iff|done|].
    unfold m1. rewrite Ea. by exists L. }
  destruct (if grow then growTable keys keySize h m1 else (h, m1)) as [h2 m2]. destruct P as (L2 & B2 & P2 & C2 & Hl & _).
  left. assert (o ∉ concat L2) as Hn.
  { rewrite P2. intros Hin. assert (M !! k = Some o) by (by apply HM). congruence. }
  destruct (buckets_push _ _ _ _ B2 o Ho Hn) as (L3 & B3 & P3). cbn zeta in B3. rewrite Hko in B3.
  assert (cwrap i32 (count m2 + 1) = count m + 1) as Ec.
  { pose proof (mr_count _ _ _ R). rewrite cwrap_fits; [lia|done|fits_lia]. }
  rewrite Ec. split_and!; [done| |done]. exists L3. split.
  - split; cbn [hbits count table]; [right|..].
    + split; [done|]. intros E. rewrite E in P3. by apply Permutation_nil_cons in P3.
    + rewrite P3, P2, (mr_count _ _ _ R). cbn [length]. lia.
    + lia.
  - intros k' o'. rewrite P3, P2, elem_of_cons. destruct (Z.eq_dec k' k) as [->|Hne].
    + rewrite lookup_insert_eq. split; [intros [= <-]; auto|]. intros [[->|Hin] E]; [done|].
      assert (M !! k = Some o') by (by apply HM). congruence.
    + rewrite lookup_insert_ne by done. rewrite HM. split; [intros [? ?]; auto|]. intros [[->|Hin] E]; [congruence|done].
Qed.

(** Unlinking an object from its bucket. *)
Lemma buckets_unlink hb h t L k l l1 x l2 :
  buckets hb h t L -> let b := ncclHashPointer hb k in
  L !! Z.to_nat b = Some l -> l = l1 ++ x :: l2 ->
  let '(h', t') := if lastOf l1 =? 0 then (h, <[Z.to_nat b := h x]> t) else (hset h (lastOf l1) (h x), t) in
  buckets hb h' t' (<[Z.to_nat b := l1 ++ l2]> L) /\ concat L ≡ₚ x :: concat (<[Z.to_nat b := l1 ++ l2]> L).
Proof.
  intros B b E El. destruct (bucket_at _ _ _ _ B k) as (l' & Hi & E' & Hs). fold b in Hi, E', Hs. rewrite E in E'. injection E' as <-.
  pose proof (bu_nodup _ _ _ _ B) as Hnd. rewrite (concat_at _ _ _ E), El in Hnd. pose proof Hnd as (Hndl & Hd & _)%NoDup_app.
  rewrite El in Hs. destruct (lseg_unlink _ _ _ _ _ Hs Hndl) as [H1 H2].
  assert (concat L ≡ₚ x :: concat (<[Z.to_nat b := l1 ++ l2]> L)) as P.
  { rewrite (concat_insert _ _ _ _ E), (concat_at _ _ _ E), El, <- !app_assoc. cbn [app]. by rewrite <- Permutation_middle. }
  assert (NoDup ((l1 ++ l2) ++ concat (delete (Z.to_nat b) L))) as Hnd'.
  { rewrite <- app_assoc in *. cbn [app] in Hnd. rewrite <- Permutation_middle in Hnd. by apply NoDup_cons in Hnd as [_ ?]. }
  assert (forall y, y ∈ l1 ++ l2 -> Z.to_nat (ncclHashPointer hb (key y)) = Z.to_nat b) as Hh.
  { intros y Hy. eapply (bu_hash _ _ _ _ B); [exact E|]. rewrite El. set_solver. }
  destruct (decide (l1 = [])) as [->|Hl1].
  - cbn [lastOf last default Z.eqb app] in *. split; [|done]. by eapply buckets_update.
  - assert (lastOf l1 <> 0) as H0.
    { apply lseg_nonnull in Hs. rewrite Forall_forall in Hs. apply Hs, elem_of_app. left. by apply lastOf_elem. }
    rewrite (proj2 (Z.eqb_neq _ _) H0). split; [|done].
    assert (<[Z.to_nat b := bucket t b]> t = t) as Et.
    { apply list_insert_id. destruct (lookup_lt_is_Some_2 t _ Hi) as [p Hp]. unfold bucket. by rewrite (nth_lookup_Some _ _ 0 _ Hp). }
    rewrite <- Et. eapply buckets_update; [done|exact E|by apply H2|done|done|]. intros y Hy. apply hset_ne. intros ->.
    apply (Hd (lastOf l1)); [|done]. apply elem_of_app. left. by apply lastOf_elem.
Qed.

Lemma remove_refines h m M k :
  repMap h m M -> 1 <= keySize <= 8 -> count m < 2 ^ 29 ->
  let '(res, h', m') := ncclIntruAddressMapRemove keys keySize false h m k in res = ncclSuccess /\ repMap h' m' (delete k M).
Proof.
  intros (L & R & HM) Hk Hc. unfold ncclIntruAddressMapRemove.
  rewrite (proj2 (Z.leb_gt keySize 0)), (proj2 (Z.ltb_ge 8 keySize)) by lia. cbn [orb].
  destruct (Z.eqb_spec (hbits m) 0) as [E|E].
  { split; [done|]. assert (M !! k = None) as Ek; [|rewrite delete_id by done; by exists L].
    destruct (mr_table _ _ _ R) as [(_ & _ & ->)|[B _]]; [|pose proof (bu_bits _ _ _ _ B); lia].
    destruct (M !! k) as [o|] eqn:Eo; [|done]. apply HM in Eo as [Ho _]. by apply not_elem_of_nil in Ho. }
  destruct (mrep_hbits _ _ _ R E) as [B Hne]. destruct (findFrom_spec h m L k B (mr_count _ _ _ R)) as (l & l1 & l2 & El & Ea & -> & H1 & H2).
  pose proof (fun o => hash_unique h m L M k o R HM E l El) as HU. destruct l2 as [|x l2]; cbn [firstOf].
  { rewrite Z.eqb_refl. split; [done|]. assert (M !! k = None) as Ek; [|rewrite delete_id by done; by exists L].
    destruct (M !! k) as [o|] eqn:Eo; [|done]. destruct (proj1 (HU o) eq_refl) as [Ho Hko]. rewrite Ea, app_nil_r in Ho. by apply H1 in Ho. }
  assert (x ∈ concat L) as Hx by (rewrite (concat_at _ _ _ El), Ea; set_solver).
  assert (x <> 0) as Hx0.
  { destruct (bucket_at _ _ _ _ B k) as (l' & _ & E' & Hs). rewrite El in E'. injection E' as <-. apply lseg_nonnull in Hs.
    rewrite Forall_forall in Hs. apply Hs. rewrite Ea. set_solver. }
  rewrite (proj2 (Z.eqb_neq _ _) Hx0). pose proof (buckets_unlink _ _ _ _ k l l1 x l2 B El Ea) as P. cbn zeta in P.
  destruct (if lastOf l1 =? 0 then _ else _) as [h' t']. destruct P as [B' P]. set (L' := <[_ := l1 ++ l2]> L) in *.
  pose proof (mr_count _ _ _ R) as Ec. rewrite P in Ec. cbn [length] in Ec.
  rewrite cwrap_fits by auto with widths.
  assert (forall k' o, delete k M !! k' = Some o <-> o ∈ concat L' /\ key o = k') as HM'.
  { pose proof (bu_nodup _ _ _ _ B) as Hnd. rewrite P in Hnd. apply NoDup_cons in Hnd as [Hnx _].
    assert (M !! k = Some x) as Mx by (apply HM; done).
    intros k' o. rewrite lookup_delete_Some, HM, P, elem_of_cons. split.
    - intros (Hkk & [->|Ho] & Hko); [congruence|done].
    - intros [Ho Hko]. split; [|auto]. intros <-. assert (M !! k = Some o) by (apply HM; split; [rewrite P; by right|done]).
      simplify_eq. }
  destruct (Z.eqb_spec (count m - 1) 0) as [E0|E0]; (split; [done|]).
  - exists []. split; [split; cbn; [by left|done|done]|]. destruct (concat L') eqn:EL; [|cbn in Ec; lia]. done.
  - exists L'. split; [|done]. split; cbn [hbits count table]; [right; split; [done|]| |].
    + intros EL. rewrite EL in Ec. cbn in Ec. lia.
    + lia.
    + intros Hb. pose proof (mr_load _ _ _ R Hb). lia.
Qed.

(** C34: the intrusive address map refines a finite map: a find returns what the map
    has at the key, null when there is nothing; an insertion at a new key adds
    the object, whether or not the table is created or doubled and its chains
    relinked, or fails for lack of memory and changes nothing; a removal deletes
    the key.  The chains are always followed to their end, and the table has at
    most two objects per bucket. *)
Theorem ncclIntruAddressMap_refines h m M :
  repMap h m M -> 1 <= keySize <= 8 -> count m < 2 ^ 29 ->
  (hbits m <> 0 -> count m <= 2 * Z.of_nat (length (table m))) /\
  (forall k, ncclIntruAddressMapFind keys keySize false false h m k = (ncclSuccess, Some (default 0 (M !! k)))) /\
  (forall k o canAlloc, o <> 0 -> readKey keys keySize o = k -> M !! k = None ->
     let '(res, h', m') := ncclIntruAddressMapInsert keys keySize false canAlloc h m k o in
     (res = ncclSuccess /\ repMap h' m' (<[k := o]> M) /\ count m' = count m + 1) \/
     (canAlloc = false /\ res = ncclSystemError /\ repMap h' m' M)) /\
  (forall k, let '(res, h', m') := ncclIntruAddressMapRemove keys keySize false h m k in
     res = ncclSuccess /\ repMap h' m' (delete k M)).
Proof.
  intros R Hk Hc. split_and!.
  - intros Hb. destruct R as (L & R & _). destruct (mrep_hbits _ _ _ R Hb) as [B _]. rewrite (bu_table _ _ _ _ B).
    pose proof (mr_load _ _ _ R Hb). rewrite Z2Nat.id; lia.
  - intros k. by apply find_refines.
  - intros k o ca Ho Hko HMk. by apply insert_refines.
  - intros k. by apply remove_refines.
Qed.
End map.

Lemma ncclIntruAddressMap_refines_witness :
  let keys := fun o => o + 5 in
  let '(_, h, m) := ncclIntruAddressMapInsert keys 8 false true (fun _ => 0) {| hbits := 0; count := 0; table := [] |} 21 16 in
  ncclIntruAddressMapFind keys 8 false false h m 21 = (ncclSuccess, Some 16) /\
  repMap keys 8 h m {[21 := 16]}.
Proof.
  intros keys. assert (repMap keys 8 (fun _ => 0) {| hbits := 0; count := 0; table := [] |} ∅) as R0.
  { exists []. split; [split; [by left|done|done]|]. intros k o. rewrite lookup_empty. split; [done|]. intros [H _]. by apply not_elem_of_nil in H. }
  destruct (ncclIntruAddressMap_refines keys 8 (fun _ => 0) _ _ R0) as (_ & _ & HI & _); [lia|simpl; lia|].
  specialize (HI 21 16 true ltac:(lia) ltac:(reflexivity) ltac:(by rewrite lookup_empty)).
  destruct (ncclIntruAddressMapInsert keys 8 false true _ _ 21 16) as [[res h] m] eqn:E.
  destruct HI as [(_ & H & _)|[? _]]; [|done]. split; [|exact H]. vm_compute in E. injection E as <- <- <-. vm_compute. reflexivity.
Defined.
