(* ===== verification/KernelMain.v ===== *)
(** * The kernel's side of the work batches (src/src/device/common.h)

    Each block of the kernel finds its channel from the mask of channels, loads
    the batch at its block number, and follows the jumps to the channel's other
    batches; [loadWorkBatchToShmem] gathers the works of a batch and its
    extensions into shared memory with all threads of the block.  Composed with
    the host's side in Batches, every block loads exactly the works that were
    added for its channel, in order. *)

From stdpp Require Import base numbers list sets.
From Stdlib Require Import ZArith Lia Sorted.
From S2P Require Import Prelude Bitops Bits Batches.

Local Open Scope Z_scope.

(** [fnsOfBitset[n]], the index of the n'th set bit: the writes of the 32 lanes of
    a warp, first for the low and then for the high half. *)
Definition fnsWrites (bitset : Z) : list (Z * Z) :=
  let half base part :=
    flat_map (fun i =>
      let lane := Z.of_nat i in
      if negb (Z.land part (cwrap u32 (Z.shiftl 1 lane)) =? 0)
      then [(base + countOneBits u32 (Z.land part (cwrap u32 (Z.shiftl 1 lane) - 1)), lane)] else []) (seq 0 32) in
  let low := cwrap u32 bitset in
  let high := cwrap u32 (Z.shiftr bitset 32) in
  half 0 low ++ map (fun '(n, lane) => (n, 32 + lane)) (half (countOneBits u32 low) high).

Definition fnsOfBitset (bitset n : Z) : Z :=
  match List.find (fun w => w.1 =? n) (fnsWrites bitset) with Some (_, i) => i | None => 0 end.

Section device.
Context {T : Type}.

(** The 16 bytes of work data at an offset, in the kernel arguments or the FIFO. *)
Context (src : Z -> T).

(** What a block keeps in shared memory; [workStorage] is indexed by bytes. *)
Record shmem := {
  workStorage : Z -> option T;
  sh_batchIx : Z;
  nextBatchIx : Z;
  sh_workType : ncclDevWorkType;
  nWorks : Z;
  sh_funcId : Z;
  sh_func : Z }.

Definition storePack (m : Z -> option T) (a : Z) (v : T) : Z -> option T := fun x => if x =? a then Some v else m x.

(** The rotation of the thread numbers before an extension batch. *)
Definition rotateThread (tn tid : Z) : Z := let tid := tid - 64 in if tid <? 0 then tid + tn else tid.

(** What the threads of the block store for one batch. *)
Definition loadPacks (tids : list Z) (batch : ncclDevWorkBatch) (workCursor nWorks : Z) (m : Z -> option T) : Z -> option T :=
  let workSize := ncclDevWorkSize (workType batch) in
  let nPacks := nWorks * Z.quot workSize 16 in
  fold_left (fun m tid =>
    let packInWork := Z.rem tid (Z.quot workSize 16) in
    let dstWork := Z.quot tid (Z.quot workSize 16) in
    if tid <? nPacks
    then storePack m ((workCursor + dstWork) * workSize + packInWork * 16)
           (src (offsetBase batch + fnsOfBitset (offsetBitset batch) dstWork * workSize + packInWork * 16))
    else m) tids m.

(** [tids] are the numbers the [tn] threads of the block have in this iteration;
    one unit of fuel per batch.  [None] is an access past the batches. *)
(* src/src/device/common.h:145-263 loadWorkBatchToShmem *)
Fixpoint loadWorkBatchToShmem (fuel : nat) (tn : Z) (tids : list Z) (batches : list ncclDevWorkBatch)
    (batchIx workCursor : Z) (m : Z -> option T) : option shmem :=
  match fuel, batches !! Z.to_nat batchIx with
  | S fuel, Some batch =>
      let nWorks := countOneBits u32 (cwrap u32 (offsetBitset batch)) +
                    countOneBits u32 (cwrap u32 (Z.shiftr (offsetBitset batch) 32)) in
      let m := loadPacks tids batch workCursor nWorks m in
      let workCursor := workCursor + nWorks in
      if nextExtends batch
      then loadWorkBatchToShmem fuel tn (map (rotateThread tn) tids) batches (batchIx + nextJump batch) workCursor m
      else Some {|
        workStorage := m; sh_batchIx := batchIx;
        nextBatchIx := if nextJump batch =? 0 then -1 else batchIx + nextJump batch;
        sh_workType := workType batch; nWorks := workCursor; sh_funcId := funcId batch; sh_func := func batch |}
  | _, _ => None
  end.

Definition threads (tn : Z) : list Z := map Z.of_nat (seq 0 (Z.to_nat tn)).

(** The loop of the kernel over its batches: the states in which it runs the
    device functions.  One unit of fuel per launch of a device function. *)
Fixpoint runBatches (fuel : nat) (tn : Z) (batches : list ncclDevWorkBatch) (sh : shmem) : option (list shmem) :=
  match fuel with
  | O => None
  | S fuel =>
      if nextBatchIx sh =? -1 then Some [sh]
      else
        match loadWorkBatchToShmem (length batches) tn (threads tn) batches (nextBatchIx sh) 0 (workStorage sh) with
        | None => None
        | Some sh' => option_map (cons sh) (runBatches fuel tn batches sh')
        end
  end.

(** Two of the warps load the communicator and the channel meanwhile. *)
(* src/src/device/common.h:423-500 ncclKernelMain *)
Definition ncclKernelMain (tn blockIdx : Z) (batches : list ncclDevWorkBatch) (m : Z -> option T) : option (list shmem) :=
  let subtn := tn - 2 * 32 in
  match loadWorkBatchToShmem (length batches) subtn (threads subtn) batches blockIdx 0 m with
  | None => None
  | Some sh => runBatches (length batches) tn batches sh
  end.
End device.

(** The channel of a block: the thread of that number writes it. *)
Definition blockChannel (channelMask blockIdx : Z) : option Z :=
  List.find (fun tid =>
    negb (Z.land channelMask (cwrap u64 (Z.shiftl 1 tid)) =? 0) &&
    (countOneBits u64 (Z.land channelMask (cwrap u64 (Z.shiftl 1 tid) - 1)) =? blockIdx)) (threads 64).

(** ** The index of the n'th set bit *)

Lemma cwrap_bit ty l : csigned ty = false -> 0 <= l < cwidth ty -> cwrap ty (Z.shiftl 1 l) = 2 ^ l.
Proof.
  intros Hs Hl. rewrite Z.shiftl_1_l. apply cwrap_fits; [lia|]. unfold fits, cmin, cmax. rewrite Hs.
  pose proof (Z.pow_pos_nonneg 2 l ltac:(lia) ltac:(lia)).
  pose proof (Z.pow_lt_mono_r 2 l (cwidth ty) ltac:(lia) ltac:(lia) ltac:(lia)). lia.
Qed.

Lemma land_bit m l : 0 <= l -> negb (Z.land m (2 ^ l) =? 0) = Z.testbit m l.
Proof.
  intros Hl. destruct (Z.testbit m l) eqn:E.
  - apply negb_true_iff, Z.eqb_neq. intros H. assert (Z.testbit (Z.land m (2 ^ l)) l = false) as H' by (by rewrite H, Z.testbit_0_l).
    by rewrite Z.land_spec, E, Z.pow2_bits_true in H'.
  - apply negb_false_iff, Z.eqb_eq, Z.bits_inj_0. intros j. rewrite Z.land_spec.
    destruct (Z.eq_dec j l) as [->|]; [by rewrite E|]. by rewrite Z.pow2_bits_false, andb_false_r.
Qed.

Lemma filter_false {A} (f : A -> bool) l : (forall x, In x l -> f x = false) -> List.filter f l = [].
Proof.
  induction l as [|x l IH]; intros H; [done|]. cbn [List.filter]. rewrite (H x) by (by left). apply IH.
  intros y Hy. apply H. by right.
Qed.

Lemma filter_map {A B} (f : B -> bool) (g : A -> B) l :
  List.filter f (map g l) = map g (List.filter (fun x => f (g x)) l).
Proof. induction l as [|x l IH]; [done|]. cbn [map List.filter]. rewrite IH. by destruct (f (g x)). Qed.

(** The bits of a mask below [l]. *)
Lemma bitsBelow_mask w l m : (l <= w)%nat -> bitsBelow w (Z.land m (2 ^ Z.of_nat l - 1)) = bitsBelow l m.
Proof.
  intros Hl. replace (2 ^ Z.of_nat l - 1) with (Z.ones (Z.of_nat l)) by (rewrite Z.ones_equiv; lia). unfold bitsBelow. replace w with (l + (w - l))%nat by lia.
  rewrite seq_app, List.filter_app. rewrite (filter_false _ (seq (0 + l) (w - l))), app_nil_r.
  - apply filter_ext_in. intros i Hi%in_seq. rewrite Z.land_spec, Z.ones_spec_low by lia. apply andb_true_r.
  - intros i Hi%in_seq. rewrite Z.land_spec, Z.ones_spec_high by lia. apply andb_false_r.
Qed.

(** A position and the number of bits below it. *)
Lemma bitsBelow_next w m : bitsBelow (S w) m = bitsBelow w m ++ (if Z.testbit m (Z.of_nat w) then [w] else []).
Proof. unfold bitsBelow. rewrite seq_S, List.filter_app. simpl. by destruct (Z.testbit m (Z.of_nat w)). Qed.

Lemma bitsBelow_halves m :
  bitsBelow 64 m = bitsBelow 32 (cwrap u32 m) ++ map (Nat.add 32) (bitsBelow 32 (cwrap u32 (Z.shiftr m 32))).
Proof.
  assert (forall x i, 0 <= i < 32 -> Z.testbit (cwrap u32 x) i = Z.testbit x i) as Hw.
  { intros x i Hi. unfold cwrap. cbn. apply Z.mod_pow2_bits_low. lia. }
  unfold bitsBelow. change 64%nat with (32 + 32)%nat. rewrite seq_app, List.filter_app. f_equal.
  - apply filter_ext_in. intros i Hi%in_seq. by rewrite Hw by lia.
  - change (seq (0 + 32) 32) with (map (Nat.add 32) (seq 0 32)). rewrite filter_map. f_equal.
    apply filter_ext_in. intros i Hi%in_seq. rewrite Hw, Z.shiftr_spec by lia. f_equal. lia.
Qed.

(** The writes of one half: each set bit at the number of set bits below it. *)
Lemma half_writes base part w :
  (w <= 32)%nat ->
  flat_map (fun i =>
    let lane := Z.of_nat i in
    if negb (Z.land part (cwrap u32 (Z.shiftl 1 lane)) =? 0)
    then [(base + countOneBits u32 (Z.land part (cwrap u32 (Z.shiftl 1 lane) - 1)), lane)] else []) (seq 0 w) =
  imap (fun n i => (base + Z.of_nat n, Z.of_nat i)) (bitsBelow w part).
Proof.
  induction w as [|w IH]; intros Hw; [done|]. rewrite seq_S, flat_map_app, IH, bitsBelow_next, imap_app by lia. f_equal.
  cbn [Nat.add flat_map]. cbn zeta. rewrite app_nil_r, cwrap_bit, land_bit by (done || simpl; lia).
  destruct (Z.testbit part (Z.of_nat w)); [|done]. cbn [imap]. do 2 f_equal.
  rewrite countOneBits_bits by done. simpl cwidth. change (Z.to_nat 32) with 32%nat. rewrite bitsBelow_mask by lia.
  unfold compose. f_equal. lia.
Qed.

Lemma imap_map_l {A B C} (f : nat -> B -> C) (g : A -> B) l : imap f (map g l) = imap (fun n x => f n (g x)) l.
Proof. revert f. induction l as [|x l IH]; intros f; [done|]. cbn [map imap]. f_equal. apply IH. Qed.

Lemma map_imap_l {A B C} (f : nat -> A -> B) (g : B -> C) l : map g (imap f l) = imap (fun n x => g (f n x)) l.
Proof. revert f. induction l as [|x l IH]; intros f; [done|]. cbn [map imap]. f_equal. apply IH. Qed.

Lemma fnsWrites_bits m : fnsWrites m = imap (fun n i => (Z.of_nat n, Z.of_nat i)) (bitsBelow 64 m).
Proof.
  unfold fnsWrites. rewrite !half_writes by lia. rewrite bitsBelow_halves, imap_app, imap_map_l, map_imap_l.
  rewrite countOneBits_bits by done. simpl cwidth. change (Z.to_nat 32) with 32%nat. f_equal.
  apply imap_ext. intros n i _. unfold compose. f_equal; lia.
Qed.

(** [fnsOfBitset] is the n'th set bit. *)
Lemma find_imap l (k n : nat) i :
  l !! n = Some i ->
  List.find (fun w => w.1 =? Z.of_nat (k + n)) (imap (fun n i => (Z.of_nat (k + n), Z.of_nat i)) l) =
  Some (Z.of_nat (k + n), Z.of_nat i).
Proof.
  revert k n. induction l as [|x l IH]; intros k n H; [done|]. destruct n as [|n]; cbn [imap List.find fst].
  - rewrite Z.eqb_refl. cbn in H. by simplify_eq.
  - rewrite (proj2 (Z.eqb_neq _ _)) by lia. replace (k + S n)%nat with (S k + n)%nat by lia.
    rewrite <- (IH (S k) n H). f_equal. apply imap_ext. intros j y _. unfold compose. f_equal. lia.
Qed.

Lemma fnsOfBitset_spec m (n i : nat) : bitsBelow 64 m !! n = Some i -> fnsOfBitset m (Z.of_nat n) = Z.of_nat i.
Proof.
  intros H. unfold fnsOfBitset. rewrite fnsWrites_bits. pose proof (find_imap _ 0 n i H) as E. cbn [Nat.add] in E.
  by rewrite E.
Qed.

Lemma nWorks_bits m :
  countOneBits u32 (cwrap u32 m) + countOneBits u32 (cwrap u32 (Z.shiftr m 32)) = Z.of_nat (length (bitsBelow 64 m)).
Proof.
  rewrite !countOneBits_bits by done. simpl cwidth. change (Z.to_nat 32) with 32%nat.
  rewrite bitsBelow_halves, length_app, length_map. lia.
Qed.

(** ** Loading one batch *)

Definition threadsOf (tn : Z) (tids : list Z) : Prop := forall t, In t tids <-> 0 <= t < tn.

Lemma threads_ok tn : threadsOf tn (threads tn).
Proof.
  intros t. unfold threads. rewrite in_map_iff. setoid_rewrite in_seq. split; [intros (i & <- & Hi); lia|].
  intros Ht. exists (Z.to_nat t). lia.
Qed.

Lemma rotate_ok tn tids : 64 <= tn -> threadsOf tn tids -> threadsOf tn (map (rotateThread tn) tids).
Proof.
  intros Htn H t. rewrite in_map_iff. unfold rotateThread. split.
  - intros (t0 & <- & Ht0%H). zcase1; lia.
  - intros Ht. exists (if t + 64 <? tn then t + 64 else t + 64 - tn).
    split; [|apply H; zcase1; lia]. destruct (Z.ltb_spec (t + 64) tn); zcase1; lia.
Qed.

Definition packs (t : ncclDevWorkType) : Z := Z.quot (ncclDevWorkSize t) 16.

Lemma packs_size t : ncclDevWorkSize t = 16 * packs t /\ 0 < packs t <= 18.
Proof. by destruct t. Qed.

Lemma lookup_map {A B} (f : A -> B) l i : map f l !! i = f <$> l !! i.
Proof. apply list_lookup_fmap. Qed.

Lemma batchOffsets_eq b :
  batchOffsets b = map (fun i => offsetBase b + Z.of_nat i * ncclDevWorkSize (workType b)) (bitsBelow 64 (offsetBitset b)).
Proof. reflexivity. Qed.

Section load.
Context {T : Type} (src : Z -> T).

(** Stores by thread number: an address has the value its thread stores. *)
Lemma fold_store (P : Z -> bool) (A : Z -> Z) (V : Z -> T) tids m a :
  (forall t t', A t = A t' -> t = t') ->
  fold_left (fun m t => if P t then storePack m (A t) (V t) else m) tids m a =
  match List.find (fun t => P t && (A t =? a)) tids with Some t => Some (V t) | None => m a end.
Proof.
  intros HA. revert m. induction tids as [|t tids IH]; intros m; [done|]. cbn [fold_left List.find]. rewrite IH.
  destruct (P t) eqn:Ep; simpl; [|done]. unfold storePack. destruct (Z.eqb_spec (A t) a) as [<-|Hne].
  - rewrite Z.eqb_refl. destruct (List.find _ _) as [t'|] eqn:E; [|done]. apply find_some in E as [_ E].
    apply andb_true_iff in E as [_ E%Z.eqb_eq]. by apply HA in E as ->.
  - destruct (List.find _ _); [done|]. rewrite (proj2 (Z.eqb_neq _ _)); [done|congruence].
Qed.

(** The works at offsets [offs] are in shared memory, one after the other. *)
Definition loaded (m : Z -> option T) (t : ncclDevWorkType) (offs : list Z) : Prop :=
  forall (w : nat) off p, offs !! w = Some off -> 0 <= p < packs t ->
    m (Z.of_nat w * ncclDevWorkSize t + p * 16) = Some (src (off + p * 16)).

(** What a batch stores at an address. *)
Definition packAddr (t : ncclDevWorkType) (cursor tid : Z) : Z :=
  (cursor + Z.quot tid (packs t)) * ncclDevWorkSize t + Z.rem tid (packs t) * 16.

Definition packVal (b : ncclDevWorkBatch) (tid : Z) : T :=
  src (offsetBase b + fnsOfBitset (offsetBitset b) (Z.quot tid (packs (workType b))) * ncclDevWorkSize (workType b) +
       Z.rem tid (packs (workType b)) * 16).

Lemma packAddr_eq t cursor tid : packAddr t cursor tid = 16 * (cursor * packs t + tid).
Proof.
  unfold packAddr. destruct (packs_size t) as [-> H]. pose proof (Z.quot_rem' tid (packs t)).
  replace tid with (packs t * (tid ÷ packs t) + Z.rem tid (packs t)) at 3 by lia. ring.
Qed.

Lemma loadPacks_at tids b cursor n m a :
  loadPacks src tids b cursor n m a =
  match List.find (fun t => (t <? n * packs (workType b)) && (packAddr (workType b) cursor t =? a)) tids with
  | Some t => Some (packVal b t)
  | None => m a
  end.
Proof.
  unfold loadPacks. apply (fold_store (fun t => t <? n * packs (workType b)) (packAddr (workType b) cursor) (packVal b)).
  intros t t'. rewrite !packAddr_eq. lia.
Qed.

Lemma loadPacks_loaded tn tids b m offs :
  threadsOf tn tids -> Z.of_nat (length (bitsBelow 64 (offsetBitset b))) * packs (workType b) <= tn ->
  loaded m (workType b) offs ->
  loaded (loadPacks src tids b (Z.of_nat (length offs)) (Z.of_nat (length (bitsBelow 64 (offsetBitset b)))) m)
    (workType b) (offs ++ batchOffsets b).
Proof.
  intros Ht Hn Hl w off p Hw Hp. rewrite loadPacks_at. destruct (packs_size (workType b)) as [Es Hpp].
  remember (length (bitsBelow 64 (offsetBitset b))) as n eqn:En. remember (packs (workType b)) as k eqn:Ek.
  replace (Z.of_nat w * ncclDevWorkSize (workType b) + p * 16) with (16 * (Z.of_nat w * k + p)) by (rewrite Es; ring).
  destruct (List.find _ tids) as [t|] eqn:E.
  - apply find_some in E as [Hin%Ht [H1%Z.ltb_lt H2%Z.eqb_eq]%andb_true_iff]. rewrite packAddr_eq, <- Ek in H2.
    assert (length offs <= w)%nat as Hge by nia.
    rewrite lookup_app_r in Hw by done. rewrite batchOffsets_eq in Hw. rewrite lookup_map in Hw.
    apply fmap_Some in Hw as (i & Hi & ->). set (v := (w - length offs)%nat) in *.
    assert (t = Z.of_nat v * k + p) as -> by (unfold v; nia).
    assert (Z.quot (Z.of_nat v * k + p) k = Z.of_nat v /\ Z.rem (Z.of_nat v * k + p) k = p) as [Eq Er].
    { rewrite Z.quot_div_nonneg, Z.rem_mod_nonneg by nia.
      split; [symmetry; apply (Z.div_unique_pos _ _ _ p)|symmetry; apply (Z.mod_unique_pos _ _ (Z.of_nat v))]; lia. }
    unfold packVal. by rewrite <- Ek, Eq, Er, (fnsOfBitset_spec _ _ _ Hi).
  - destruct (Nat.lt_ge_cases w (length offs)) as [Hlt|Hge].
    + rewrite lookup_app_l in Hw by done. rewrite <- (Hl w off p Hw ltac:(by rewrite <- Ek)). f_equal. rewrite Es. ring.
    + exfalso. rewrite lookup_app_r in Hw by done. apply lookup_lt_Some in Hw. rewrite batchOffsets_eq in Hw. rewrite length_map, <- En in Hw. set (t0 := (Z.of_nat w - Z.of_nat (length offs)) * k + p).
      assert (0 <= t0 < Z.of_nat n * k) by (unfold t0; nia).
      pose proof (find_none _ _ E t0 ltac:(apply Ht; lia)) as F. cbn beta in F.
      rewrite (proj2 (Z.ltb_lt _ _)), packAddr_eq, <- Ek in F by lia. apply Z.eqb_neq in F. apply F. unfold t0. ring.
Qed.

(** ** Chains of batches *)

(** The batches [l] are linked in the array from index [x] on; the jump of the last
    one is 0. *)
Fixpoint chainAt (arr : list ncclDevWorkBatch) (x : nat) (l : list ncclDevWorkBatch) : Prop :=
  match l with
  | [] => True
  | b :: l' =>
      exists b', arr !! x = Some b' /\ setJump 0 b' = setJump 0 b /\
        match l' with
        | [] => nextJump b' = 0
        | _ => 0 < nextJump b' /\ chainAt arr (x + Z.to_nat (nextJump b')) l'
        end
  end.

Lemma chainAt_length arr x l : l <> [] -> chainAt arr x l -> (x + length l <= length arr)%nat.
Proof.
  revert x. induction l as [|b l IH]; intros x Hl H; [done|]. destruct H as (b' & Hb & _ & H).
  apply lookup_lt_Some in Hb. destruct l as [|b2 l]; [simpl; lia|]. destruct H as [Hj H].
  specialize (IH _ ltac:(done) H). cbn [length] in *. lia.
Qed.

Lemma sameBatch b b' :
  setJump 0 b' = setJump 0 b ->
  nextExtends b' = nextExtends b /\ workType b' = workType b /\ funcId b' = funcId b /\
  offsetBase b' = offsetBase b /\ offsetBitset b' = offsetBitset b.
Proof. destruct b, b'. unfold setJump. simpl. intros E. by simplify_eq. Qed.

(** A batch and its extensions are loaded; what follows them in the chain is the
    next batch. *)
Lemma load_group tn arr B b rest t f :
  64 <= tn ->
  Forall (fun b => workType b = t /\ funcId b = f /\ Z.of_nat (length (bitsBelow 64 (offsetBitset b))) * packs t <= tn) (B ++ [b]) ->
  Forall (fun b => nextExtends b = true) B -> nextExtends b = false ->
  forall fuel tids x m offs,
  threadsOf tn tids -> (length (B ++ [b]) <= fuel)%nat -> chainAt arr x (B ++ b :: rest) -> loaded m t offs ->
  exists sh, loadWorkBatchToShmem src fuel tn tids arr (Z.of_nat x) (Z.of_nat (length offs)) m = Some sh /\
    loaded (workStorage sh) t (offs ++ flat_map batchOffsets (B ++ [b])) /\
    nWorks sh = Z.of_nat (length (offs ++ flat_map batchOffsets (B ++ [b]))) /\ sh_workType sh = t /\ sh_funcId sh = f /\
    match rest with
    | [] => nextBatchIx sh = -1
    | _ => exists x' : nat, nextBatchIx sh = Z.of_nat x' /\ chainAt arr x' rest
    end.
Proof.
  intros Htn Hall Hext Hlast. revert Hall. induction Hext as [|b0 B Hb0 _ IH]; intros Hall fuel tids x m offs Ht Hf Hc Hm.
  - destruct fuel as [|fuel]; [simpl in Hf; lia|]. destruct Hc as (b' & Hb' & Hs & Hj).
    destruct (sameBatch _ _ Hs) as (E1 & E2 & E3 & E4 & E5). apply Forall_singleton in Hall as (Et & Ef & Hn).
    cbn [loadWorkBatchToShmem]. rewrite Nat2Z.id, Hb', nWorks_bits, E1, Hlast.
    assert (batchOffsets b' = batchOffsets b) as Eo by (by rewrite !batchOffsets_eq, E2, E4, E5).
    eexists. split; [done|]. cbn [workStorage nWorks sh_workType sh_funcId nextBatchIx app flat_map]. rewrite app_nil_r, <- Eo.
    assert (workType b' = t) as Et' by congruence. rewrite <- E5 in Hn.
    split_and!; [| |done|congruence|].
    + rewrite <- Et' in *. by apply (loadPacks_loaded tn).
    + rewrite length_app. rewrite batchOffsets_eq, length_map. lia.
    + destruct rest; [by rewrite Hj|]. destruct Hj as [Hj Hc]. rewrite (proj2 (Z.eqb_neq _ _)) by lia.
      exists (x + Z.to_nat (nextJump b'))%nat. split; [lia|done].
  - destruct fuel as [|fuel]; [simpl in Hf; lia|]. destruct Hc as (b' & Hb' & Hs & Hj).
    destruct (sameBatch _ _ Hs) as (E1 & E2 & E3 & E4 & E5).
    apply Forall_cons in Hall as [(Et & Ef & Hn) Hall].
    assert (0 < nextJump b' /\ chainAt arr (x + Z.to_nat (nextJump b')) (B ++ b :: rest)) as [Hj1 Hj2] by (by destruct B).
    cbn [loadWorkBatchToShmem]. rewrite Nat2Z.id, Hb', nWorks_bits, E1, Hb0.
    assert (batchOffsets b' = batchOffsets b0) as Eo by (by rewrite !batchOffsets_eq, E2, E4, E5).
    assert (workType b' = t) as Et' by congruence. rewrite <- E5 in Hn.
    destruct (IH Hall fuel (map (rotateThread tn) tids) (x + Z.to_nat (nextJump b'))%nat
      (loadPacks src tids b' (Z.of_nat (length offs)) (Z.of_nat (length (bitsBelow 64 (offsetBitset b')))) m)
      (offs ++ batchOffsets b0)) as (sh & E & Hl & Hw & H).
    + by apply rotate_ok.
    + cbn [app length] in Hf. lia.
    + done.
    + rewrite <- Eo. rewrite <- Et' in *. by apply (loadPacks_loaded tn).
    + exists sh. rewrite <- app_assoc in Hl, Hw. split_and!; [|done|done|apply H|apply H|apply H].
      rewrite <- E. f_equal; [lia|]. rewrite length_app, <- Eo. rewrite batchOffsets_eq, length_map. lia.
Qed.

(** ** A channel's groups *)

(** The state in which the works [g] are run. *)
Definition groupLoaded (sh : shmem) (g : list workItem) : Prop :=
  nWorks sh = Z.of_nat (length g) /\
  Forall (fun w => wi_type w = sh_workType sh /\ wi_funcId w = sh_funcId sh) g /\
  loaded (workStorage sh) (sh_workType sh) (map wi_offset g).

(** Threads enough for every batch: 64, but 192 for broadcasts, of which a batch
    can hold 64. *)
Definition enoughThreads (tn : Z) (g : list workItem) : Prop :=
  64 <= tn /\ (forall w, In w g -> wi_type w = ncclDevWorkTypeBcast -> 192 <= tn).

Lemma bitsBelow_le w m : (length (bitsBelow w m) <= w)%nat.
Proof. unfold bitsBelow. pose proof (List.filter_length_le (fun i => Z.testbit m (Z.of_nat i)) (seq 0 w)). by rewrite length_seq in *. Qed.

Lemma flat_map_length_in {A B} (f : A -> list B) l x : In x l -> (length (f x) <= length (flat_map f l))%nat.
Proof.
  induction l as [|y l IH]; [done|]. intros [->|H]; cbn [flat_map]; rewrite length_app; [lia|]. specialize (IH H). lia.
Qed.

Context (cudaArch : Z) (epochEnable : bool).

Lemma group_packs t f g B b tn :
  describes cudaArch epochEnable t f g B b -> enoughThreads tn g ->
  Forall (fun b => workType b = t /\ funcId b = f /\ Z.of_nat (length (bitsBelow 64 (offsetBitset b))) * packs t <= tn) (B ++ [b]).
Proof.
  intros (Hg & (Ht & Hs & _) & Hb & _ & _ & Hoff) [Htn Hbc]. rewrite List.Forall_forall in *. intros b0 H0.
  destruct (Hb b0 H0) as (E1 & E2 & _). split_and!; [done|done|]. destruct (packs_size t) as [Es Hp].
  pose proof (flat_map_length_in batchOffsets _ _ H0) as Hle. rewrite Hoff, batchOffsets_eq, !length_map in Hle.
  unfold maxBatchBytes in Hs. case_bool_decide as Hb'.
  - pose proof (bitsBelow_le 64 (offsetBitset b0)).
    assert (192 <= tn); [|subst t; rewrite Hb'; change (packs ncclDevWorkTypeBcast) with 3; lia].
    destruct g as [|w g]; [done|]. apply (Hbc w); [by left|]. destruct (Ht w) as [-> _]; [by left|done].
  - unfold NCCL_MAX_DEV_WORK_BATCH_BYTES in Hs. nia.
Qed.

(** One group of the chain. *)
Lemma load_groupOk tn arr Bs g rest x m :
  groupOk cudaArch epochEnable Bs g -> enoughThreads tn g -> chainAt arr x (Bs ++ rest) ->
  exists sh, loadWorkBatchToShmem src (length arr) tn (threads tn) arr (Z.of_nat x) 0 m = Some sh /\ groupLoaded sh g /\
    match rest with
    | [] => nextBatchIx sh = -1
    | _ => exists x' : nat, nextBatchIx sh = Z.of_nat x' /\ chainAt arr x' rest
    end.
Proof.
  intros (t & f & B & b & -> & Hd) Hth Hc. pose proof (group_packs _ _ _ _ _ _ Hd Hth) as Hp.
  destruct Hd as (_ & (Hty & _) & _ & Hx & Hx' & Hoff).
  assert (B ++ b :: rest <> []) as Hne by (by destruct B). rewrite <- app_assoc in Hc. cbn [app] in Hc.
  pose proof (chainAt_length _ _ _ Hne Hc) as Hlen. rewrite length_app in Hlen. cbn [length] in Hlen.
  destruct (load_group tn arr B b rest t f (proj1 Hth) Hp Hx Hx' (length arr) (threads tn) x m [])
    as (sh & E & Hl & Hn & Et & Ef & Hr); [apply threads_ok|rewrite length_app; cbn [length]; lia|done|by intros ? ? ?|].
  exists sh. cbn [app length] in *. split_and!; [done| |done]. rewrite Hoff in *. rewrite length_map in Hn.
  split_and!; [done|by rewrite Et, Ef|by rewrite Et].
Qed.

Lemma run_groups tn arr Bs gs :
  Forall2 (groupOk cudaArch epochEnable) Bs gs -> Forall (enoughThreads tn) gs ->
  forall fuel sh, (length Bs < fuel)%nat ->
  match Bs with
  | [] => nextBatchIx sh = -1
  | _ => exists x : nat, nextBatchIx sh = Z.of_nat x /\ chainAt arr x (concat Bs)
  end ->
  exists shs, runBatches src fuel tn arr sh = Some (sh :: shs) /\ Forall2 groupLoaded shs gs.
Proof.
  intros HF. induction HF as [|B g Bs gs Hg HF IH]; intros Hth fuel sh Hf Hsh.
  - destruct fuel as [|fuel]; [simpl in Hf; lia|]. exists []. cbn [runBatches]. by rewrite Hsh.
  - destruct fuel as [|fuel]; [simpl in Hf; lia|]. apply Forall_cons in Hth as [Hth1 Hth2].
    destruct Hsh as (x & Ex & Hc). cbn [concat] in Hc.
    destruct (load_groupOk tn arr B g (concat Bs) x (workStorage sh) Hg Hth1 Hc) as (sh' & E & Hl & Hn).
    destruct (IH Hth2 fuel sh') as (shs & E' & HF').
    + cbn [length] in Hf. lia.
    + destruct HF as [|B2 g2 Bs gs Hg2 HF]; [done|]. destruct Hg2 as (t & f & B0 & b & -> & _).
      cbn [concat] in *. by destruct B0.
    + exists (sh' :: shs). cbn [runBatches]. rewrite Ex, (proj2 (Z.eqb_neq _ _)), E, E' by lia. split; [done|]. by constructor.
Qed.

(** The kernel of a block runs the groups of its chain, one after the other. *)
Lemma kernelMain_groups tn arr Bs gs x m :
  Bs <> [] -> Forall2 (groupOk cudaArch epochEnable) Bs gs -> Forall (enoughThreads (tn - 64)) gs ->
  chainAt arr x (concat Bs) ->
  exists shs, ncclKernelMain src tn (Z.of_nat x) arr m = Some shs /\ Forall2 groupLoaded shs gs.
Proof.
  intros Hne HF Hth Hc. assert (length (concat Bs) <= length arr /\ length Bs <= length (concat Bs))%nat as [H1 H2].
  { split.
    - assert (concat Bs <> []) as Hne' by (destruct HF as [|B g Bs gs (t & f & B0 & b & -> & _) _]; [done|by destruct B0]).
      pose proof (chainAt_length _ _ _ Hne' Hc). lia.
    - clear -HF. induction HF as [|B g Bs gs (t & f & B0 & b & -> & _) _ IH]; [done|].
      cbn [concat length]. rewrite !length_app. cbn [length]. lia. }
  destruct HF as [|B g Bs gs Hg HF]; [done|]. apply Forall_cons in Hth as [Hth1 Hth2]. cbn [concat] in Hc.
  destruct (load_groupOk (tn - 64) arr B g (concat Bs) x m Hg Hth1 Hc) as (sh & E & Hl & Hn).
  destruct (run_groups tn arr Bs gs HF) with (fuel := length arr) (sh := sh) as (shs & E' & HF').
  - eapply Forall_impl; [exact Hth2|]. intros g0 [G1 G2]. split; [lia|]. intros w Hw Hb. specialize (G2 w Hw Hb). lia.
  - cbn [length] in *. lia.
  - destruct HF as [|B2 g2 Bs gs Hg2 HF]; [done|]. destruct Hg2 as (t & f & B0 & b & -> & _). cbn [concat] in *. by destruct B0.
  - exists (sh :: shs). unfold ncclKernelMain. change (2 * 32) with 64. rewrite E, E'. split; [done|]. by constructor.
Qed.
End load.
