(* ===== verification/PlanLayout.v ===== *)
(** * The layout of a plan's batches (src/src/enqueue/enqueue.cc, finishPlan)

    [finishPlan] lays the batches of all channels out in one array, round robin
    over the channels of the mask, and links the batches of a channel by jumps.
    The array is described by the sequence of channels in the order their batches
    were placed.  The last theorem composes the three parts: the batches built by
    [ncclAddWorkBatchToPlan], laid out by [finishPlan] and loaded by the kernel. *)

From stdpp Require Import base numbers list sets.
From Stdlib Require Import ZArith Lia Sorted.
From S2P Require Import Prelude Bitops Bits Batches KernelMain.

Local Open Scope Z_scope.

(** The number of places a channel has in the trace [tr]. *)
Definition placed (c : Z) (tr : list Z) : nat := length (List.filter (Z.eqb c) tr).

(** No place of channel [c] follows index [x]. *)
Definition lastPlace (c : Z) (tr : list Z) (x : nat) : Prop := forall y, (x < y)%nat -> tr !! y <> Some c.

(** The place of channel [c] that follows index [x]. *)
Definition nextPlace (c : Z) (tr : list Z) (x y : nat) : Prop :=
  (x < y)%nat /\ tr !! y = Some c /\ forall z, (x < z < y)%nat -> tr !! z <> Some c.

Section layout.
Context (Q : Z -> list ncclDevWorkBatch).

(** The state after placing batches in the order [tr]. *)
Record laidOut (tr : list Z) (st : layout) : Prop := {
  lo_len : length (batchZero st) = length tr;
  lo_rest c : wipChannels st c = drop (placed c tr) (Q c);
  lo_prev c : match batchPrev st c with
              | Some p => tr !! p = Some c /\ lastPlace c tr p
              | None => forall y, tr !! y <> Some c
              end;
  lo_at x c : tr !! x = Some c ->
    exists b b', Q c !! placed c (take x tr) = Some b /\ batchZero st !! x = Some b' /\
      ((lastPlace c tr x /\ b' = b) \/
       exists y, nextPlace c tr x y /\ b' = setJump (Z.of_nat y - Z.of_nat x) b) }.

Lemma placed_snoc c c' tr : placed c (tr ++ [c']) = (placed c tr + (if (c =? c')%Z then 1 else 0))%nat.
Proof. unfold placed. rewrite List.filter_app, length_app. simpl. by destruct (c =? c'). Qed.

Lemma lookup_snoc_inv {A} (l : list A) a x b :
  (l ++ [a]) !! x = Some b -> ((x < length l)%nat /\ l !! x = Some b) \/ (x = length l /\ b = a).
Proof.
  intros H. destruct (Nat.lt_ge_cases x (length l)) as [Hx|Hx]; [left; by rewrite lookup_app_l in H|right].
  rewrite lookup_app_r in H by done. pose proof (lookup_lt_Some _ _ _ H) as Hl. simpl in Hl.
  replace (x - length l)%nat with 0%nat in H by lia. simpl in H. simplify_eq. split; [lia|done].
Qed.

(** Places after one more channel. *)
Lemma lastPlace_snoc c c' tr x : c <> c' -> lastPlace c tr x -> lastPlace c (tr ++ [c']) x.
Proof. intros Hne H y Hy E. apply lookup_snoc_inv in E as [[_ E]|[_ E]]; [by apply (H y)|done]. Qed.

Lemma nextPlace_snoc c c' tr x y : nextPlace c tr x y -> nextPlace c (tr ++ [c']) x y.
Proof.
  intros (Hxy & Hy & Hz). pose proof (lookup_lt_Some _ _ _ Hy) as Hl. split_and!; [done|by rewrite lookup_app_l|].
  intros z Hzz. rewrite lookup_app_l by lia. by apply Hz.
Qed.

Lemma nextPlace_new c tr x : (x < length tr)%nat -> lastPlace c tr x -> nextPlace c (tr ++ [c]) x (length tr).
Proof.
  intros Hx H. split_and!; [done|by rewrite lookup_app_r, Nat.sub_diag by lia|].
  intros z Hz. rewrite lookup_app_l by lia. apply H. lia.
Qed.

Lemma lastPlace_unique c tr x y :
  tr !! x = Some c -> tr !! y = Some c -> lastPlace c tr x -> lastPlace c tr y -> x = y.
Proof.
  intros Hx Hy H1 H2. destruct (Nat.lt_trichotomy x y) as [H|[H|H]]; [by apply H1 in Hy|done|by apply H2 in Hx].
Qed.

(** The batches already placed: only the jump of the channel's last one changes. *)
Lemma placed_old tr st c b b' x c' :
  laidOut tr st -> tr !! x = Some c' -> batchZero st !! x = Some b' ->
  ((lastPlace c' tr x /\ b' = b) \/ exists y, nextPlace c' tr x y /\ b' = setJump (Z.of_nat y - Z.of_nat x) b) ->
  exists b'', match batchPrev st c with
    | Some p => alter (setJump (Z.of_nat (length tr) - Z.of_nat p)) p (batchZero st)
    | None => batchZero st
    end !! x = Some b'' /\
    ((lastPlace c' (tr ++ [c]) x /\ b'' = b) \/
     exists y, nextPlace c' (tr ++ [c]) x y /\ b'' = setJump (Z.of_nat y - Z.of_nat x) b).
Proof.
  intros L Hx Hb H. pose proof (lo_prev _ _ L c) as Hprev. pose proof (lookup_lt_Some _ _ _ Hx) as Hxl.
  assert (c' <> c -> (lastPlace c' (tr ++ [c]) x /\ b' = b) \/
     exists y, nextPlace c' (tr ++ [c]) x y /\ b' = setJump (Z.of_nat y - Z.of_nat x) b) as Hother.
  { intros Hne. destruct H as [[H1 H2]|(y & H1 & H2)]; [left|right; exists y]; split; auto using lastPlace_snoc, nextPlace_snoc. }
  destruct (batchPrev st c) as [p|].
  - destruct Hprev as [Hp1 Hp2]. destruct (Nat.eq_dec p x) as [->|Hne].
    + assert (c' = c) as -> by congruence. destruct H as [[_ ->]|(y & (Hy1 & Hy2 & _) & _)]; [|by destruct (Hp2 y Hy1)].
      rewrite list_lookup_alter_eq, Hb. eexists. split; [reflexivity|]. right.
      exists (length tr). split; [by apply nextPlace_new|done].
    + rewrite list_lookup_alter_ne by done. exists b'. split; [done|].
      destruct (Z.eq_dec c' c) as [->|]; [|by apply Hother]. destruct H as [[H1 _]|(y & H1 & H2)].
      * destruct Hne. by eapply lastPlace_unique.
      * right. exists y. split; [by apply nextPlace_snoc|done].
  - exists b'. split; [done|]. apply Hother. intros ->. by apply (Hprev x).
Qed.

(** Placing one batch. *)
Lemma layOne_ok tr st c b rest :
  laidOut tr st -> wipChannels st c = b :: rest -> laidOut (tr ++ [c]) (layOne c st).
Proof.
  intros L Hq. pose proof (lo_len _ _ L) as Hlen. pose proof (lo_prev _ _ L) as Hprev. pose proof (lo_rest _ _ L) as Hrest.
  assert (Q c !! placed c tr = Some b) as Hb.
  { specialize (Hrest c). rewrite Hq in Hrest. rewrite <- (Nat.add_0_r (placed c tr)), <- lookup_drop, <- Hrest. done. }
  unfold layOne. rewrite Hq. split; cbn [wipChannels batchPrev batchZero].
  - rewrite !length_app. cbn [length]. destruct (batchPrev st c); [rewrite length_alter|]; lia.
  - intros c'. rewrite placed_snoc. destruct (Z.eqb_spec c' c) as [->|Hne]; [|by rewrite Nat.add_0_r].
    specialize (Hrest c). rewrite Nat.add_1_r. rewrite Hq in Hrest. replace (S (placed c tr)) with (placed c tr + 1)%nat by lia.
    rewrite <- drop_drop, <- Hrest. done.
  - intros c'. destruct (Z.eqb_spec c' c) as [->|Hne].
    + rewrite Hlen. split; [by rewrite lookup_app_r, Nat.sub_diag by lia|].
      intros y Hy E. apply lookup_lt_Some in E. rewrite length_app in E. simpl in E. lia.
    + specialize (Hprev c'). destruct (batchPrev st c') as [p|].
      * destruct Hprev as [H1 H2]. pose proof (lookup_lt_Some _ _ _ H1). split; [by rewrite lookup_app_l|by apply lastPlace_snoc].
      * intros y E. apply lookup_snoc_inv in E as [[_ E]|[_ E]]; [by apply (Hprev y)|done].
  - intros x c' Hx. rewrite Hlen. apply lookup_snoc_inv in Hx as [[Hxl Hx]|[-> ->]].
    + rewrite take_app_le by lia. destruct (lo_at _ _ L x c' Hx) as (b0 & b' & H1 & H2 & H3). rewrite lookup_app_l by (destruct (batchPrev st c); rewrite ?length_alter; lia).
      destruct (placed_old tr st c b0 b' x c' L Hx H2 H3) as (b2 & H4 & H5). exists b0, b2. by split_and!.
    + rewrite take_app_le, take_ge by lia. exists b, b. split_and!; [done| |].
      * assert (length (match batchPrev st c with
          | Some p => alter (setJump (Z.of_nat (length tr) - Z.of_nat p)) p (batchZero st) | None => batchZero st end) = length tr) as Hl'
          by (destruct (batchPrev st c); rewrite ?length_alter; lia).
        rewrite lookup_app_r by lia. by rewrite Hl', Nat.sub_diag.
      * left. split; [|done]. intros y Hy E. apply lookup_lt_Some in E. rewrite length_app in E. simpl in E. lia.
Qed.

(** ** One round *)

Lemma bitsBelow_NoDup w m : NoDup (bitsBelow w m).
Proof. apply NoDup_ListNoDup, List.NoDup_filter, seq_NoDup. Qed.

Lemma bitsBelow_0 w : bitsBelow w 0 = [].
Proof. apply bitsBelow_none. intros i _. apply Z.testbit_0_l. Qed.

Lemma placed_app c tr tr' : placed c (tr ++ tr') = (placed c tr + placed c tr')%nat.
Proof. unfold placed. by rewrite List.filter_app, length_app. Qed.

Lemma placed_notin c tr : ~ In c tr -> placed c tr = 0%nat.
Proof.
  intros H. unfold placed. rewrite filter_false; [done|]. intros x Hx. apply Z.eqb_neq. intros ->. done.
Qed.

Lemma placed_nats l i :
  NoDup l -> placed (Z.of_nat i) (map Z.of_nat l) = if in_dec Nat.eq_dec i l then 1%nat else 0%nat.
Proof.
  intros Hnd. destruct (in_dec Nat.eq_dec i l) as [Hi|Hi].
  - apply list_elem_of_In, list_elem_of_split in Hi as (l1 & l2 & ->). apply NoDup_app in Hnd as (_ & Hd & [Hd2 _]%NoDup_cons).
    rewrite map_app. cbn [map]. change (Z.of_nat i :: map Z.of_nat l2) with ([Z.of_nat i] ++ map Z.of_nat l2).
    rewrite !placed_app, !(placed_notin _ (map _ _)).
    + unfold placed. simpl. by rewrite Z.eqb_refl.
    + intros (j & Ej & Hj)%in_map_iff. apply Hd2, list_elem_of_In. by replace i with j by lia.
    + intros (j & Ej & Hj)%in_map_iff. replace j with i in Hj by lia. apply list_elem_of_In in Hj. apply (Hd i Hj). by left.
  - apply placed_notin. intros (j & Ej & Hj)%in_map_iff. apply Hi. by replace i with j by lia.
Qed.

Lemma layRound_ok l : forall fuel tmp has st tr,
  bitsBelow 64 tmp = l -> 0 < tmp < 2 ^ 64 -> (length l <= fuel)%nat -> 0 <= has < 2 ^ 64 -> laidOut tr st ->
  (forall i, In i l -> wipChannels st (Z.of_nat i) <> [] /\ Z.testbit has (Z.of_nat i) = true) ->
  exists has' st', layRound fuel tmp has st = Some (has', st') /\ laidOut (tr ++ map Z.of_nat l) st' /\ 0 <= has' < 2 ^ 64 /\
    (forall i, In i l -> Z.testbit has' (Z.of_nat i) = true <-> wipChannels st' (Z.of_nat i) <> []) /\
    (forall i, ~ In i l -> Z.testbit has' (Z.of_nat i) = Z.testbit has (Z.of_nat i)).
Proof.
  induction l as [|i l IH]; intros fuel tmp has st tr Hl Htmp Hf Hhas L Hin.
  - destruct (popFirstOneBit u64 tmp) as [c tmp'] eqn:Ep. destruct (bitsBelow_pop _ _ _ Htmp Ep) as (_ & _ & E). congruence.
  - destruct fuel as [|fuel]; [simpl in Hf; lia|]. cbn [layRound].
    destruct (popFirstOneBit u64 tmp) as [c tmp'] eqn:Ep. destruct (bitsBelow_pop _ _ _ Htmp Ep) as (Hc & Htmp' & E).
    rewrite Hl in E. injection E as Ei El. assert (Z.of_nat i = c) as Ec by lia.
    destruct (Hin i) as [Hq Hbit]; [by left|]. rewrite Ec in *. destruct (wipChannels st c) as [|b rest] eqn:Eq; [done|].
    pose proof (layOne_ok tr st c b rest L Eq) as L1. set (st1 := layOne c st) in *.
    set (has1 := match wipChannels st1 c with [] => Z.lxor has (cwrap u64 (Z.shiftl 1 c)) | _ => has end).
    assert (NoDup (i :: l)) as [Hni Hnd]%NoDup_cons by (rewrite <- Hl; apply bitsBelow_NoDup). rewrite list_elem_of_In in Hni.
    assert (0 <= has1 < 2 ^ 64 /\ (Z.testbit has1 c = true <-> wipChannels st1 c <> []) /\
      forall j, 0 <= j -> j <> c -> Z.testbit has1 j = Z.testbit has j) as (H1 & H2 & H3).
    { unfold has1. destruct (wipChannels st1 c); [|split; [done|split; [by rewrite Hbit|done]]].
      rewrite cwrap_bit by (done || simpl; lia). split; [|split].
      - apply lxor_bound64; [done|]. split; [apply Z.pow_nonneg; lia|apply Z.pow_lt_mono_r; lia].
      - rewrite Z.lxor_spec, Hbit, Z.pow2_bits_true by lia. by split.
      - intros j Hj Hne. rewrite Z.lxor_spec, Z.pow2_bits_false, xorb_false_r by lia. done. }
    assert (forall j, In j l -> Z.of_nat j <> c) as Hjc by (intros j Hj E; apply Hni; by replace i with j by lia).
    destruct (Z.eqb_spec tmp' 0) as [->|Hne].
    + exists has1, st1. rewrite bitsBelow_0 in El. subst l. cbn [map]. rewrite Ec. split_and!; try (done || lia).
      * intros j [<-|[]]. by rewrite Ec.
      * intros j Hj. apply H3; [lia|]. intros E. apply Hj. left. lia.
    + destruct (IH fuel tmp' has1 st1 (tr ++ [c])) as (has' & st' & E' & L' & Hh & Hi1 & Hi2); try done.
      * lia.
      * cbn [length] in Hf. lia.
      * intros j Hj. rewrite H3 by (lia || by apply Hjc). destruct (Hin j) as [G1 G2]; [by right|]. split; [|done].
        unfold st1, layOne. rewrite Eq. cbn [wipChannels]. rewrite (proj2 (Z.eqb_neq _ _)); [done|by apply Hjc].
      * exists has', st'. rewrite <- app_assoc in L'. cbn [map app] in *. rewrite Ec. split_and!; try (done || lia).
        -- intros j [<-|Hj]; [|by apply Hi1]. rewrite (Hi2 i Hni), Ec, H2.
           rewrite (lo_rest _ _ L'), (lo_rest _ _ L1). change (c :: map Z.of_nat l) with ([c] ++ map Z.of_nat l).
           rewrite !placed_app, (placed_notin c (map Z.of_nat l)), Nat.add_0_r; [done|]. intros (j & Ej & Hj)%in_map_iff. by apply (Hjc j).
        -- intros j Hj. rewrite Hi2 by (intros ?; apply Hj; by right). apply H3; [lia|]. intros E. apply Hj. left. lia.
Qed.

(** ** All rounds *)

Lemma layBatches_ok M fuel : forall has st tr,
  0 <= has < 2 ^ 64 -> laidOut tr st ->
  (forall i, Z.testbit has (Z.of_nat i) = true <-> In i M /\ wipChannels st (Z.of_nat i) <> []) ->
  (forall i, In i M -> (i < 64)%nat /\ (length (wipChannels st (Z.of_nat i)) <= fuel)%nat) ->
  exists st' tr', layBatches fuel has st = Some st' /\ laidOut (tr ++ tr') st' /\
    (forall i, In i M -> wipChannels st' (Z.of_nat i) = []) /\
    map Z.of_nat (bitsBelow 64 has) `prefix_of` tr'.
Proof.
  induction fuel as [|fuel IH]; intros has st tr Hh L Hbits Hlen; cbn [layBatches].
  - assert (has = 0) as ->.
    { apply Z.bits_inj'. intros j Hj. rewrite Z.testbit_0_l. apply not_true_is_false. intros Hb.
      rewrite <- (Z2Nat.id j) in Hb by done. apply Hbits in Hb as [Hi Hq]. destruct (Hlen _ Hi) as [_ Hl].
      by destruct (wipChannels st _); [|simpl in Hl; lia]. }
    exists st, []. rewrite app_nil_r, bitsBelow_0. split_and!; try done.
    intros i Hi. destruct (Hlen _ Hi) as [_ Hl]. by destruct (wipChannels st _); [|simpl in Hl; lia].
  - destruct (Z.eqb_spec has 0) as [->|Hne].
    + exists st, []. rewrite app_nil_r, bitsBelow_0. split_and!; try done.
      intros i Hi. destruct (wipChannels st (Z.of_nat i)) eqn:E; [done|].
      assert (Z.testbit 0 (Z.of_nat i) = true) as Hb by (apply Hbits; by rewrite E). by rewrite Z.testbit_0_l in Hb.
    + destruct (layRound_ok (bitsBelow 64 has) 64 has has st tr) as (has' & st' & E & L' & Hh' & H1 & H2); try (done || lia).
      { apply bitsBelow_le. }
      { intros i [_ Hi]%bitsBelow_elem. split; [by apply Hbits|done]. }
      assert (forall i, In i (bitsBelow 64 has) <-> In i M /\ wipChannels st (Z.of_nat i) <> []) as Hb.
      { intros i. rewrite bitsBelow_elem, Hbits. split; [by intros [_ ?]|]. intros [H3 H4]. split; [by apply Hlen|done]. }
      assert (forall i, wipChannels st' (Z.of_nat i) = if in_dec Nat.eq_dec i (bitsBelow 64 has)
        then drop 1 (wipChannels st (Z.of_nat i)) else wipChannels st (Z.of_nat i)) as Hw.
      { intros i. rewrite (lo_rest _ _ L'), (lo_rest _ _ L), placed_app, placed_nats by apply bitsBelow_NoDup.
        destruct (in_dec _ _ _); [by rewrite drop_drop|by rewrite Nat.add_0_r]. }
      rewrite E. destruct (IH has' st' (tr ++ map Z.of_nat (bitsBelow 64 has))) as (st2 & tr2 & E2 & L2 & Hend & _).
      * lia.
      * done.
      * intros i. destruct (in_dec Nat.eq_dec i (bitsBelow 64 has)) as [Hi|Hi].
        -- rewrite (H1 i Hi). apply Hb in Hi as [Hi _]. tauto.
        -- rewrite (H2 i Hi), Hbits, Hw. by destruct (in_dec _ _ _).
      * intros i Hi. destruct (Hlen i Hi) as [G1 G2]. split; [done|]. rewrite Hw. destruct (in_dec _ _ _) as [Hin|Hin].
        -- rewrite length_drop. lia.
        -- assert (wipChannels st (Z.of_nat i) = []) as ->; [|simpl; lia].
           destruct (wipChannels st (Z.of_nat i)) eqn:Ew; [done|]. destruct Hin. apply Hb. by rewrite Ew.
      * exists st2, (map Z.of_nat (bitsBelow 64 has) ++ tr2). split_and!; [done|by rewrite app_assoc|done|by apply prefix_app_r].
Qed.

(** ** The links *)

Lemma placed_next c tr x y :
  tr !! x = Some c -> nextPlace c tr x y -> placed c (take y tr) = S (placed c (take x tr)).
Proof.
  intros Hx (Hxy & Hy & Hz). pose proof (lookup_lt_Some _ _ _ Hy) as Hl.
  replace y with (S x + (y - S x))%nat by lia. rewrite <- take_take_drop, placed_app, (take_S_r _ _ _ Hx), placed_snoc, Z.eqb_refl.
  rewrite (placed_notin c (take _ (drop _ _))); [lia|]. intros (z & Hz')%list_elem_of_In%list_elem_of_lookup.
  apply lookup_take_Some in Hz' as [Hz' Hlt]. rewrite lookup_drop in Hz'. by apply (Hz (S x + z)%nat); [lia|].
Qed.

Lemma placed_end c tr x : tr !! x = Some c -> lastPlace c tr x -> placed c tr = S (placed c (take x tr)).
Proof.
  intros Hx H. rewrite <- (take_drop (S x) tr) at 1. rewrite placed_app, (take_S_r _ _ _ Hx), placed_snoc, Z.eqb_refl.
  rewrite (placed_notin c (drop _ _)); [lia|]. intros (z & Hz)%list_elem_of_In%list_elem_of_lookup.
  rewrite lookup_drop in Hz. by apply (H (S x + z)%nat); [lia|].
Qed.

Lemma laidOut_chain tr st c :
  Forall (fun b => nextJump b = 0) (Q c) -> laidOut tr st -> wipChannels st c = [] -> Z.of_nat (length tr) < 2 ^ 14 ->
  forall k x, (length tr - x <= k)%nat -> tr !! x = Some c ->
  chainAt (batchZero st) x (drop (placed c (take x tr)) (Q c)).
Proof.
  intros HQ L Hend Hlen. induction k as [|k IH]; intros x Hk Hx; pose proof (lookup_lt_Some _ _ _ Hx) as Hxl; [lia|].
  destruct (lo_at _ _ L x c Hx) as (b & b' & H1 & H2 & H3). set (j := placed c (take x tr)) in *.
  rewrite (drop_S _ b j H1). cbn [chainAt]. exists b'. split; [done|].
  assert (nextJump b = 0) as Hj0.
  { rewrite Forall_lookup in HQ. by apply (HQ j). }
  destruct H3 as [[Hl ->]|(y & Hy & ->)].
  - split; [done|]. rewrite (lo_rest _ _ L), (placed_end c tr x Hx Hl) in Hend. fold j in Hend. by rewrite Hend.
  - split; [done|]. pose proof Hy as (Hxy & Hty & _). pose proof (lookup_lt_Some _ _ _ Hty).
    specialize (IH y ltac:(lia) Hty). rewrite (placed_next c tr x y Hx Hy) in IH. fold j in IH.
    destruct (lo_at _ _ L y c Hty) as (b2 & b2' & G1 & _). rewrite (placed_next c tr x y Hx Hy) in G1. fold j in G1.
    rewrite (drop_S _ b2 (S j) G1) in *. cbn [setJump nextJump].
    rewrite Z.mod_small by lia. split; [lia|]. by replace (x + Z.to_nat (Z.of_nat y - Z.of_nat x))%nat with y by lia.
Qed.
End layout.

(** ** The plan, from the host to the kernel *)

(** The block of the n'th channel of the mask. *)
Lemma bitsBelow_index w m n c : bitsBelow w m !! n = Some c -> length (bitsBelow c m) = n.
Proof.
  intros H. assert (In c (bitsBelow w m)) as [Hc Hb]%bitsBelow_elem by (by apply list_elem_of_In, list_elem_of_lookup; exists n).
  pose proof (bitsBelow_NoDup w m) as Hnd. eapply NoDup_lookup; [exact Hnd| |exact H].
  rewrite (bitsBelow_split w m c Hc), Hb, lookup_app_r, Nat.sub_diag by lia. done.
Qed.

Lemma blockChannel_spec mask n c :
  bitsBelow 64 mask !! n = Some c -> blockChannel mask (Z.of_nat n) = Some (Z.of_nat c).
Proof.
  intros H. assert (In c (bitsBelow 64 mask)) as [Hc Hb]%bitsBelow_elem by (by apply list_elem_of_In, list_elem_of_lookup; exists n).
  assert (forall t : nat, (t < 64)%nat -> negb (Z.land mask (cwrap u64 (Z.shiftl 1 (Z.of_nat t))) =? 0) &&
    (countOneBits u64 (Z.land mask (cwrap u64 (Z.shiftl 1 (Z.of_nat t)) - 1)) =? Z.of_nat n) =
    Z.testbit mask (Z.of_nat t) && (Z.of_nat (length (bitsBelow t mask)) =? Z.of_nat n)) as Ht.
  { intros t Ht. rewrite cwrap_bit, land_bit, countOneBits_bits by (done || simpl; lia). f_equal. simpl cwidth.
    change (Z.to_nat 64) with 64%nat. by rewrite bitsBelow_mask by lia. }
  unfold blockChannel. destruct (List.find _ (threads 64)) as [t|] eqn:E.
  - apply find_some in E as [Hin E]. apply threads_ok in Hin. rewrite <- (Z2Nat.id t) in E |- * by lia. rewrite Ht in E by lia.
    apply andb_true_iff in E as [E1 E2%Z.eqb_eq]. do 2 f_equal.
    assert (bitsBelow 64 mask !! n = Some (Z.to_nat t)) as H'; [|congruence].
    rewrite (bitsBelow_split 64 mask (Z.to_nat t)), E1, lookup_app_r by lia. by replace (n - _)%nat with 0%nat by lia.
  - exfalso. assert (In (Z.of_nat c) (threads 64)) as Hin by (apply threads_ok; lia).
    pose proof (find_none _ _ E _ Hin) as F. cbn beta in F. rewrite Ht, Hb, (bitsBelow_index _ _ _ _ H), Z.eqb_refl in F by done. done.
Qed.

Lemma groups_nojump arch ep Bs gs : Forall2 (groupOk arch ep) Bs gs -> Forall (fun b => nextJump b = 0) (concat Bs).
Proof.
  induction 1 as [|B g Bs gs (t & f & B0 & b & -> & (_ & _ & Hb & _)) _ IH]; [constructor|]. cbn [concat].
  apply Forall_app. split; [|done]. eapply Forall_impl; [exact Hb|]. by intros ? (_ & _ & ? & _).
Qed.

Lemma testbit_lt64 m i : 0 <= m < 2 ^ 64 -> Z.testbit m (Z.of_nat i) = true -> (i < 64)%nat.
Proof.
  intros Hm Hb. destruct (Nat.lt_ge_cases i 64) as [|Hi]; [done|]. exfalso.
  rewrite Z.bits_above_log2 in Hb; [done|lia|]. destruct (Z.eq_dec m 0) as [->|]; [simpl; lia|].
  apply (Z.lt_le_trans _ 64); [apply Z.log2_lt_pow2; lia|lia].
Qed.

(** The first batch of a channel is at the number of its block. *)
Lemma placed_first mask tr n c :
  bitsBelow 64 mask !! n = Some c -> map Z.of_nat (bitsBelow 64 mask) `prefix_of` tr -> placed (Z.of_nat c) (take n tr) = 0%nat.
Proof.
  intros Hn [tr' ->]. pose proof (lookup_lt_Some _ _ _ Hn) as Hlt. rewrite take_app_le by (rewrite length_map; lia).
  apply placed_notin. intros (j & Hj)%list_elem_of_In%list_elem_of_lookup. apply lookup_take_Some in Hj as [Hj Hjn].
  rewrite lookup_map in Hj. apply fmap_Some in Hj as (c' & Hc' & E). replace c' with c in Hc' by lia.
  pose proof (NoDup_lookup _ _ _ _ (bitsBelow_NoDup 64 mask) Hc' Hn). lia.
Qed.

(** The plan reaches the kernel.  Take any mask of channels and, for each of
    them, works added by [ncclAddWorkBatchToPlan] with increasing offsets.  The
    loops of [finishPlan] end, and in the array of batches they produce (with
    fewer than 2^14 entries, the width of a jump) every block of the kernel,
    started with threads enough, finds its channel and terminates after running a
    sequence of fused batches whose works are, in order, exactly the works added
    for that channel: each is loaded into shared memory from its own offset, and
    run by its own device function. *)
Lemma finishPlan_groups {T} (src : Z -> T) cudaArch epochEnable tn mask W chan fuel m :
  0 < mask < 2 ^ 64 ->
  (forall c, In c (bitsBelow 64 mask) ->
     W c <> [] /\ Forall workOk (W c) /\ Sorted Z.lt (map wi_offset (W c)) /\ enoughThreads (tn - 64) (W c) /\
     option_map fst (addWorks cudaArch epochEnable (emptyChannel, 0) (W c)) = Some (chan c) /\
     (length (workBatchQueue (chan c)) <= fuel)%nat) ->
  exists st, layBatches fuel mask (initLayout (fun c => workBatchQueue (chan (Z.to_nat c)))) = Some st /\
    (Z.of_nat (length (batchZero st)) < 2 ^ 14 ->
     forall n c, bitsBelow 64 mask !! n = Some c ->
       blockChannel mask (Z.of_nat n) = Some (Z.of_nat c) /\
       exists shs gs, ncclKernelMain src tn (Z.of_nat n) (batchZero st) m = Some shs /\
         concat gs = W c /\ Forall2 (groupLoaded src) shs gs /\
         exists Bs, workBatchQueue (chan c) = concat Bs /\ Forall2 (groupOk cudaArch epochEnable) Bs gs).
Proof.
  intros Hmask HW. set (Q := fun c => workBatchQueue (chan (Z.to_nat c))).
  assert (forall c, In c (bitsBelow 64 mask) -> exists Bs gs, Q (Z.of_nat c) = concat Bs /\ concat gs = W c /\
    Forall2 (groupOk cudaArch epochEnable) Bs gs /\ Bs <> [] /\ Q (Z.of_nat c) <> []) as Hgroups.
  { intros c Hc. destruct (HW c Hc) as (Hne & Hok & Hs & _ & Ea & _).
    destruct (addWorks_ok cudaArch epochEnable (W c) emptyChannel 0 []) as (ch & n' & gs & E & Hch & Eg & _); try done; [by split; [|left]|].
    rewrite E in Ea. simpl in Ea. injection Ea as ->. destruct (chanOk_groups _ _ _ _ Hch) as (Bs & Eq & HF).
    exists Bs, gs. unfold Q. rewrite Nat2Z.id. simpl in Eg. split_and!; try done.
    - intros ->. apply Forall2_nil_inv_l in HF as ->. by rewrite <- Eg in Hne.
    - rewrite Eq. destruct HF as [|B g Bs gs (t & f & B0 & b & -> & _) _]; [by rewrite <- Eg in Hne|by destruct B0]. }
  destruct (layBatches_ok Q (bitsBelow 64 mask) fuel mask (initLayout Q) []) as (st & tr & E & L & Hend & Hpre).
  - lia.
  - by split.
  - intros i. rewrite bitsBelow_elem. cbn [initLayout wipChannels]. split.
    + intros Hb. assert (i < 64)%nat as Hi64 by (apply (testbit_lt64 mask); [lia|done]).
      split; [done|]. destruct (Hgroups i) as (_ & _ & _ & _ & _ & _ & H); [by apply bitsBelow_elem|done].
    + by intros [[_ H] _].
  - intros i Hi. split; [by apply bitsBelow_elem in Hi as [? _]|]. cbn. unfold Q. rewrite Nat2Z.id. by apply HW.
  - exists st. split; [done|]. intros Hlen n c Hn. split; [by apply blockChannel_spec|].
    assert (In c (bitsBelow 64 mask)) as Hc by (by apply list_elem_of_In, list_elem_of_lookup; exists n).
    destruct (Hgroups c Hc) as (Bs & gs & Eq & Eg & HF & HBs & _). cbn [app] in L. rewrite (lo_len _ _ _ L) in Hlen.
    assert (tr !! n = Some (Z.of_nat c)) as Htr.
    { eapply prefix_lookup_Some; [|exact Hpre]. by rewrite lookup_map, Hn. }
    pose proof (laidOut_chain Q tr st (Z.of_nat c)) as Hch. rewrite Eq in Hch.
    specialize (Hch (groups_nojump _ _ _ _ HF) L (Hend c Hc) Hlen _ n (le_n _) Htr).
    rewrite (placed_first mask tr n c Hn Hpre), drop_0 in Hch.
    destruct (kernelMain_groups src cudaArch epochEnable tn (batchZero st) Bs gs n m HBs HF) as (shs & Ek & HF'); [|done|].
    2:{ exists shs, gs. split_and!; try done. exists Bs. unfold Q in Eq. rewrite Nat2Z.id in Eq. by split. }
    destruct (HW c Hc) as (_ & _ & _ & [Ht1 Ht2] & _). apply List.Forall_forall. intros g Hg. split; [done|].
    intros w Hw Hb. apply (Ht2 w); [|done]. rewrite <- Eg. apply in_concat. by exists g.
Qed.

Lemma finishPlan_kernel {T} (src : Z -> T) cudaArch epochEnable tn mask W chan fuel m :
  0 < mask < 2 ^ 64 ->
  (forall c, In c (bitsBelow 64 mask) ->
     W c <> [] /\ Forall workOk (W c) /\ Sorted Z.lt (map wi_offset (W c)) /\ enoughThreads (tn - 64) (W c) /\
     option_map fst (addWorks cudaArch epochEnable (emptyChannel, 0) (W c)) = Some (chan c) /\
     (length (workBatchQueue (chan c)) <= fuel)%nat) ->
  exists st, layBatches fuel mask (initLayout (fun c => workBatchQueue (chan (Z.to_nat c)))) = Some st /\
    (Z.of_nat (length (batchZero st)) < 2 ^ 14 ->
     forall n c, bitsBelow 64 mask !! n = Some c ->
       blockChannel mask (Z.of_nat n) = Some (Z.of_nat c) /\
       exists shs gs, ncclKernelMain src tn (Z.of_nat n) (batchZero st) m = Some shs /\
         concat gs = W c /\ Forall2 (groupLoaded src) shs gs).
Proof.
  intros Hmask HW. destruct (finishPlan_groups src cudaArch epochEnable tn mask W chan fuel m Hmask HW) as (st & E & H).
  exists st. split; [done|]. intros Hlen n c Hn. destruct (H Hlen n c Hn) as (Hb & shs & gs & Ek & Eg & HF & _). split; [done|]. by exists shs, gs.
Qed.

(** Two channels with the works of the example. *)
Definition exampleChannel : Channel :=
  match addWorks 900 true (emptyChannel, 0) exampleWorks with Some (chan, _) => chan | None => emptyChannel end.

Lemma finishPlan_example :
  exists st, layBatches 4 5 (initLayout (fun _ => workBatchQueue exampleChannel)) = Some st /\
    (Z.of_nat (length (batchZero st)) < 2 ^ 14 ->
     forall n c, bitsBelow 64 5 !! n = Some c ->
       blockChannel 5 (Z.of_nat n) = Some (Z.of_nat c) /\
       exists shs gs, ncclKernelMain (fun o => o) 256 (Z.of_nat n) (batchZero st) (fun _ => None) = Some shs /\
         concat gs = exampleWorks /\ Forall2 (groupLoaded (fun o => o)) shs gs).
Proof.
  apply (finishPlan_kernel (fun o => o) 900 true 256 5 (fun _ => exampleWorks) (fun _ => exampleChannel) 4 (fun _ => None)).
  - lia.
  - intros c _. split_and!.
    + discriminate.
    + repeat constructor; done.
    + repeat constructor; done.
    + split; [lia|]. intros w Hw Hb. exfalso. cbn in Hw. destruct Hw as [<-|[<-|[<-|[<-|[]]]]]; discriminate.
    + reflexivity.
    + vm_compute. lia.
Defined.
