(* ===== verification/Prims.v ===== *)
(** * The primitives of the device kernels (src/src/device/prims_simple.h)

    A collective kernel is, for each rank, a straight sequence of calls of the
    primitives ([directSend], [recvReduceCopy], ...).  Each call cuts its
    elements into [SlicePerChunk] slices; for each slice the rank waits for its
    peers, reduces the local source and the received slices element by element,
    stores the result to the local destination and to the FIFO of every peer it
    sends to, and posts its progress.  This file gives the slices of a call and
    the value one slice computes; the protocol between ranks is in Net. *)

From stdpp Require Import base numbers list.
From Stdlib Require Import ZArith Lia.
From S2P Require Import Prelude Bitops.

Local Open Scope Z_scope.

(* src/src/include/device.h:26-26 NCCL_STEPS *)
Definition NCCL_STEPS : Z := 8.

(** ** Reduction of slices *)

(** A reduction operator of the device code: the operation applied to the
    elements of the user's input, the binary operation, and the operation
    applied to the final result. *)
(* src/src/device/reduce_kernel.h:197-213 applyReduce, applyPreOp, applyPostOp *)
Record redFn (T : Type) := RedFn { preOp : T -> T; reduceOp : T -> T -> T; postOpFn : T -> T }.
Arguments RedFn {T}.
Arguments preOp {T}.
Arguments reduceOp {T}.
Arguments postOpFn {T}.

(** The element-wise effect of the copy loops: the first source is the
    accumulator, the others are reduced into it in order. *)
(* src/src/device/common_kernel.h:88-153 reduceCopyPacks *)
Definition reduceCopy {T} (fn : redFn T) (pre post : bool) (srcs : list (list T)) : list T :=
  match srcs with
  | [] => []
  | s :: ss =>
      let acc := if pre then map (preOp fn) s else s in
      let acc := fold_left (zip_with (reduceOp fn)) ss acc in
      if post then map (postOpFn fn) acc else acc
  end.

(** ** User memory *)

(** The memory of a rank, by element address. *)
Definition mem (T : Type) : Type := Z -> T.

Definition load {T} (m : mem T) (a : Z) (n : nat) : list T := map (fun e => m (a + Z.of_nat e)) (seq 0 n).

Definition store {T} (m : mem T) (a : Z) (l : list T) : mem T := fun x =>
  if (a <=? x) && (x <? a + Z.of_nat (length l))
  then match l !! Z.to_nat (x - a) with Some v => v | None => m x end
  else m x.

(** ** Slices *)

(** What one slice of a call does: the peers it receives from, in the order
    their data is reduced, the peers it sends to, the local source (with
    whether it is the user's input) and the local destination. *)
Record sliceOp := SliceOp {
  recvFrom : list nat;
  sendTo : list nat;
  srcAt : option (bool * Z);
  dstAt : option Z;
  sliceLen : nat;
  doPost : bool }.

(** The state of a [Primitives] object the calls read. *)
(* src/src/device/prims_simple.h:29-46 Primitives *)
Record Primitives := {
  recvPeers : list nat;
  sendPeers : list nat;
  userInput : Z;
  userOutput : Z;
  stepSize : Z;
  SlicePerChunk : nat;
  StepPerSlice : Z }.

Inductive bufId := Input | Output.

Definition userBuf (p : Primitives) (b : bufId) : Z :=
  match b with Input => userInput p | Output => userOutput p end.

(** The loops over slices: [sliceSize] shrinks to what is left. *)
Fixpoint sliceLoop (n : nat) (sliceSize offset nelem : Z) : list (Z * Z) :=
  match n with
  | O => []
  | S n =>
      let sliceSize := if sliceSize <? nelem - offset then sliceSize else nelem - offset in
      (offset, sliceSize) :: sliceLoop n sliceSize (offset + sliceSize) nelem
  end.

(** The slices of a call as (offset, size). *)
Definition slices (p : Primitives) (nelem : Z) : list (Z * Z) :=
  let sliceSize := stepSize p * StepPerSlice p in
  let sliceSize :=
    Z.max (divUp i32 nelem (16 * Z.of_nat (SlicePerChunk p)) * 16) (sliceSize / 32) in
  sliceLoop (SlicePerChunk p) sliceSize 0 nelem.

(* src/src/device/prims_simple.h:177-304 genericOp *)
Definition genericOp (p : Primitives) (Recv Send : bool) (SrcBuf DstBuf : option bufId)
    (srcIx dstIx nelem : Z) (postOp : bool) : list sliceOp :=
  let nelem := if nelem <? 0 then 0 else nelem in
  map (fun '(offset, size) => {|
    recvFrom := if Recv then recvPeers p else [];
    sendTo := if Send then sendPeers p else [];
    srcAt := match SrcBuf with
             | Some b => Some (match b with Input => true | Output => false end, userBuf p b + srcIx + offset)
             | None => None
             end;
    dstAt := match DstBuf with Some b => Some (userBuf p b + dstIx + offset) | None => None end;
    sliceLen := Z.to_nat size;
    doPost := postOp |}) (slices p nelem).

(** ** The calls *)

(* src/src/device/prims_simple.h:934-936 send *)
Definition send p inpIx eltN := genericOp p false true (Some Input) None inpIx (-1) eltN false.
(* src/src/device/prims_simple.h:940-942 directSend *)
Definition directSend p inpIx outIx eltN := genericOp p false true (Some Input) None inpIx outIx eltN false.
(* src/src/device/prims_simple.h:943-945 directSendFromOutput *)
Definition directSendFromOutput p outIx eltN := genericOp p false true (Some Output) None outIx outIx eltN false.
(* src/src/device/prims_simple.h:950-952 directRecv *)
Definition directRecv p outIx eltN := genericOp p true false None (Some Output) outIx outIx eltN false.
(* src/src/device/prims_simple.h:960-962 directCopySend *)
Definition directCopySend p inpIx outIx eltN := genericOp p false true (Some Input) (Some Output) inpIx outIx eltN false.
(* src/src/device/prims_simple.h:970-973 directRecvCopyDirectSend *)
Definition directRecvCopyDirectSend p inpIx outIx eltN := genericOp p true true None (Some Output) inpIx outIx eltN false.
(* src/src/device/prims_simple.h:987-989 recvReduceCopy *)
Definition recvReduceCopy p inpIx outIx eltN postOp := genericOp p true false (Some Input) (Some Output) inpIx outIx eltN postOp.
(* src/src/device/prims_simple.h:990-992 directRecvReduceCopy *)
Definition directRecvReduceCopy p inpIx outIx eltN postOp := genericOp p true false (Some Input) (Some Output) inpIx outIx eltN postOp.
(* src/src/device/prims_simple.h:994-996 recvReduceSend *)
Definition recvReduceSend p inpIx eltN := genericOp p true true (Some Input) None inpIx (-1) eltN false.
(* src/src/device/prims_simple.h:1003-1006 directRecvReduceDirectSend *)
Definition directRecvReduceDirectSend p inpIx outIx eltN := genericOp p true true (Some Input) None inpIx outIx eltN false.
(* src/src/device/prims_simple.h:1016-1019 directRecvReduceCopyDirectSend *)
Definition directRecvReduceCopyDirectSend p inpIx outIx eltN postOp := genericOp p true true (Some Input) (Some Output) inpIx outIx eltN postOp.

(** ** The slices of a call *)

(** The size of the full slices of a call. *)
Definition fullSlice (p : Primitives) (nelem : Z) : Z :=
  Z.max ((nelem + 16 * Z.of_nat (SlicePerChunk p) - 1) / (16 * Z.of_nat (SlicePerChunk p)) * 16)
    (stepSize p * StepPerSlice p / 32).

(** Offset and size of slice [s]. *)
Definition sliceOff (p : Primitives) (nelem : Z) (s : nat) : Z := Z.min (Z.of_nat s * fullSlice p nelem) nelem.
Definition sliceSz (p : Primitives) (nelem : Z) (s : nat) : Z :=
  Z.min (fullSlice p nelem) (nelem - sliceOff p nelem s).

Lemma sliceLoop_spec S nelem n sz off :
  0 <= S -> off <= nelem -> (sz = S \/ (off = nelem /\ 0 <= sz)) ->
  sliceLoop n sz off nelem =
  map (fun s => let o := Z.min (off + Z.of_nat s * S) nelem in (o, Z.min S (nelem - o))) (seq 0 n).
Proof.
  intros HS. revert sz off. induction n as [|n IH]; intros sz off Ho Hsz; [done|].
  cbn [sliceLoop seq map]. cbn zeta.
  assert ((if sz <? nelem - off then sz else nelem - off) = Z.min S (nelem - off)) as ->.
  { zcase1; destruct Hsz as [->|[? ?]]; lia. }
  replace (off + Z.of_nat 0 * S) with off by lia. rewrite (Z.min_l off) by lia. f_equal.
  rewrite <- seq_shift, map_map, (IH (Z.min S (nelem - off))); [|lia|].
  - apply map_ext_in. intros s _. cbn zeta.
    assert (Z.min (off + Z.min S (nelem - off) + Z.of_nat s * S) nelem =
            Z.min (off + Z.of_nat (Datatypes.S s) * S) nelem) as ->; [|done].
    destruct (Z.le_gt_cases S (nelem - off)); [lia|]. nia.
  - destruct (Z.le_gt_cases S (nelem - off)); [left; lia|right; lia].
Qed.

(** The bounds on a call that keep its [int] arithmetic exact. *)
Definition callOk (p : Primitives) (nelem : Z) : Prop :=
  0 <= nelem /\ (0 < SlicePerChunk p)%nat /\ 0 <= stepSize p * StepPerSlice p /\
  nelem + 16 * Z.of_nat (SlicePerChunk p) < 2 ^ 31.

Lemma slices_spec p nelem :
  callOk p nelem -> slices p nelem = map (fun s => (sliceOff p nelem s, sliceSz p nelem s)) (seq 0 (SlicePerChunk p)).
Proof.
  intros (Hn & HS & Hs & Hm). unfold slices.
  rewrite divUp_eq by auto with widths.
  fold (fullSlice p nelem). rewrite (sliceLoop_spec (fullSlice p nelem)); [done| |lia|by left].
  unfold fullSlice. pose proof (Z.div_pos (stepSize p * StepPerSlice p) 32 Hs ltac:(lia)). lia.
Qed.

Lemma fullSlice_covers p nelem :
  0 < nelem -> (0 < SlicePerChunk p)%nat ->
  0 < fullSlice p nelem /\ nelem <= Z.of_nat (SlicePerChunk p) * fullSlice p nelem.
Proof.
  intros Hn HS. unfold fullSlice. set (c := Z.of_nat (SlicePerChunk p)).
  set (d := (nelem + 16 * c - 1) / (16 * c)).
  assert (nelem <= d * (16 * c)) as Hd.
  { unfold d. pose proof (Z.div_mod (nelem + 16 * c - 1) (16 * c) ltac:(lia)).
    pose proof (Z.mod_pos_bound (nelem + 16 * c - 1) (16 * c) ltac:(lia)). nia. }
  assert (0 < d) by nia. split; [lia|]. nia.
Qed.

(** The slices of a call no longer than a chunk fit their steps. *)
Lemma fullSlice_le p nelem :
  0 <= stepSize p * StepPerSlice p -> (0 < SlicePerChunk p)%nat -> (16 | stepSize p * StepPerSlice p) ->
  nelem <= Z.of_nat (SlicePerChunk p) * (stepSize p * StepPerSlice p) ->
  0 <= fullSlice p nelem <= stepSize p * StepPerSlice p.
Proof.
  intros Hs HS Hd Hle.
  unfold fullSlice. set (c := Z.of_nat (SlicePerChunk p)) in *. set (cap := stepSize p * StepPerSlice p) in *.
  assert (0 <= cap / 32 <= cap) by (split; [apply Z.div_pos; lia|apply Z.div_le_upper_bound; lia]).
  destruct Hd as [q Hq]. assert ((nelem + 16 * c - 1) / (16 * c) <= q); [|lia].
  apply Z.lt_succ_r, Z.div_lt_upper_bound; [lia|]. nia.
Qed.

(** A chunk fits its steps of the FIFO buffers: rounded up to slices of whole
    16 elements, it is no longer than the [SlicePerChunk * StepPerSlice] steps of
    a call, and a slice never wraps around the buffer's end. *)
Definition fifoFits (SPC : nat) (SPS step chunk : Z) : Prop :=
  NCCL_STEPS mod SPS = 0 /\ roundUpTo (16 * Z.of_nat SPC) chunk <= Z.of_nat SPC * (step * SPS).

(** So do those of a call no longer than a size [M] whose rounding to whole
    slices of 16 elements fits. *)
Lemma sliceSz_fits p nelem M s :
  0 <= stepSize p * StepPerSlice p -> (0 < SlicePerChunk p)%nat -> 0 <= nelem <= M ->
  roundUpTo (16 * Z.of_nat (SlicePerChunk p)) M <= Z.of_nat (SlicePerChunk p) * (stepSize p * StepPerSlice p) ->
  sliceSz p nelem s <= StepPerSlice p * stepSize p.
Proof.
  intros Hs HS Hn Hle. assert (fullSlice p nelem <= stepSize p * StepPerSlice p); [|unfold sliceSz; lia].
  unfold fullSlice, roundUpTo in *.
  set (c := Z.of_nat (SlicePerChunk p)) in *. set (cap := stepSize p * StepPerSlice p) in *.
  assert (cap / 32 <= cap) by (apply Z.div_le_upper_bound; lia).
  assert ((nelem + 16 * c - 1) / (16 * c) <= (M + 16 * c - 1) / (16 * c)) by (apply Z.div_le_mono; lia). nia.
Qed.

(** An element of a call lies in exactly one slice. *)
Lemma slice_of p nelem s y :
  (0 < SlicePerChunk p)%nat ->
  sliceOff p nelem s <= y < sliceOff p nelem s + sliceSz p nelem s -> 0 <= nelem ->
  0 <= y < nelem /\ Z.of_nat s = y / fullSlice p nelem.
Proof.
  intros HS Hy Hn. unfold sliceSz, sliceOff in Hy.
  assert (0 < nelem) as Hn' by (destruct (Z.eq_dec nelem 0) as [->|]; nia).
  destruct (fullSlice_covers p nelem Hn' HS) as [Hf _].
  destruct (Z.le_gt_cases (Z.of_nat s * fullSlice p nelem) nelem); [|lia].
  split; [nia|]. apply (Z.div_unique y (fullSlice p nelem) _ (y - Z.of_nat s * fullSlice p nelem)); nia.
Qed.

Lemma slice_exists p nelem y :
  (0 < SlicePerChunk p)%nat -> 0 <= y < nelem ->
  exists s, (s < SlicePerChunk p)%nat /\ sliceOff p nelem s <= y < sliceOff p nelem s + sliceSz p nelem s.
Proof.
  intros HS Hy. destruct (fullSlice_covers p nelem ltac:(lia) HS) as [Hf Hc].
  pose proof (Z.div_mod y (fullSlice p nelem) ltac:(lia)).
  pose proof (Z.mod_pos_bound y (fullSlice p nelem) ltac:(lia)).
  assert (0 <= y / fullSlice p nelem) by (apply Z.div_pos; lia).
  exists (Z.to_nat (y / fullSlice p nelem)). unfold sliceSz, sliceOff. split; [nia|].
  rewrite Z2Nat.id by done. nia.
Qed.

(** the slices of a primitive call tile its elements: every element of the
    call lies in exactly one slice, there are [SlicePerChunk] of them, and each
    fits the [StepPerSlice] steps it is sent in when the call is no longer than
    a chunk. *)
Lemma genericOp_slices_tile p nelem :
  callOk p nelem -> (16 | stepSize p * StepPerSlice p) ->
  nelem <= Z.of_nat (SlicePerChunk p) * (stepSize p * StepPerSlice p) ->
  length (slices p nelem) = SlicePerChunk p /\
  (forall y, 0 <= y < nelem -> exists s off sz, slices p nelem !! s = Some (off, sz) /\ off <= y < off + sz /\
     forall s' off' sz', slices p nelem !! s' = Some (off', sz') -> off' <= y < off' + sz' -> s' = s) /\
  (forall s off sz, slices p nelem !! s = Some (off, sz) -> 0 <= sz <= stepSize p * StepPerSlice p).
Proof.
  intros Hc Hd Hle. rewrite (slices_spec p nelem Hc). destruct Hc as (Hn & HS & Hs & Hm).
  assert (forall s off sz, map (fun s => (sliceOff p nelem s, sliceSz p nelem s)) (seq 0 (SlicePerChunk p)) !! s
    = Some (off, sz) -> off = sliceOff p nelem s /\ sz = sliceSz p nelem s) as L.
  { intros s off sz H. rewrite list_lookup_fmap in H. apply fmap_Some in H as (x & Hx & E).
    apply lookup_seq in Hx as [-> _]. by simplify_eq. }
  split_and!.
  - by rewrite length_map, length_seq.
  - intros y Hy. destruct (slice_exists p nelem y HS Hy) as (s & Hs' & Hin).
    exists s, (sliceOff p nelem s), (sliceSz p nelem s). split_and!; [|lia|lia|].
    + by rewrite list_lookup_fmap, lookup_seq_lt.
    + intros s' off' sz' H Hin'. destruct (L _ _ _ H) as [-> ->].
      destruct (slice_of p nelem s y HS Hin Hn) as [_ E1]. destruct (slice_of p nelem s' y HS Hin' Hn) as [_ E2]. lia.
  - intros s off sz H. destruct (L _ _ _ H) as [-> ->]. unfold sliceSz, sliceOff.
    pose proof (fullSlice_le p nelem Hs HS Hd Hle). lia.
Qed.

Lemma genericOp_slices_tile_example :
  let p := {| recvPeers := []; sendPeers := []; userInput := 0; userOutput := 0; stepSize := 64;
              SlicePerChunk := 2; StepPerSlice := 2 |} in
  length (slices p 200) = 2%nat /\ forall s off sz, slices p 200 !! s = Some (off, sz) -> 0 <= sz <= 128.
Proof.
  destruct (genericOp_slices_tile {| recvPeers := []; sendPeers := []; userInput := 0; userOutput := 0; stepSize := 64;
              SlicePerChunk := 2; StepPerSlice := 2 |} 200) as (H1 & _ & H3).
  - unfold callOk; simpl; lia.
  - exists 8. reflexivity.
  - simpl. lia.
  - split; [exact H1|exact H3].
Defined.
