(* ===== verification/Net.v ===== *)
(** * Ranks and FIFOs (src/src/device/prims_simple.h)

    A connection from a rank to a peer is a buffer of [NCCL_STEPS] steps of
    [connStepSize] elements and two counters: the sender posts [tail], the
    receiver posts [head].  A slice goes to the address of its first step, over
    whatever is there, and may be read once [tail] has passed it; the steps may be
    used again once [head] has.  An access past the end of the buffer is undefined
    and has no step in the model.  Each rank runs its own sequence of slices;
    ranks interleave freely.
    The file proves, for every kernel that meets the interface [Kernel], that
    any interleaving computes what the kernel's messages say, that no rank
    waits for ever, and that every run ends. *)

From stdpp Require Import base numbers list relations.
From Stdlib Require Import ZArith Lia.
From S2P Require Import Prelude Bitops Prims.

Local Open Scope Z_scope.

(** ** The state of the ranks *)

(** [recvStep] and [sendStep] are the steps of the threads that wait, by peer;
    [head] and [tail] the counters the rank posts to the peers it receives
    from and sends to; [fifo q] the elements of the buffer of the connection to [q].
    [copied] is the slice whose data has been moved and whose barrier is still
    to come, [pendRecv] and [pendSend] the posts of the slice before. *)
(* src/src/device/prims_simple.h:29-46 Primitives *)
Record node (T : Type) := Node {
  prog : list sliceOp;
  copied : option sliceOp;
  pendRecv : list nat;
  pendSend : list nat;
  recvStep : nat -> Z;
  sendStep : nat -> Z;
  head : nat -> Z;
  tail : nat -> Z;
  fifo : nat -> mem T }.
Arguments Node {T}.
Arguments prog {T}.
Arguments copied {T}.
Arguments pendRecv {T}.
Arguments pendSend {T}.
Arguments recvStep {T}.
Arguments sendStep {T}.
Arguments head {T}.
Arguments tail {T}.
Arguments fifo {T}.

(** All processes and the memory of each rank.  A rank may run several
    processes on its memory; [owner] gives the rank of a process. *)
Record config (T : Type) := Config { cn : nat -> node T; cm : nat -> mem T }.
Arguments Config {T}.
Arguments cn {T}.
Arguments cm {T}.

Definition upd {A} (f : nat -> A) (i : nat) (v : A) : nat -> A :=
  fun j => if (j =? i)%nat then v else f j.

Definition isIn (p : nat) (l : list nat) : bool := existsb (Nat.eqb p) l.
Arguments isIn : simpl never.

Inductive action := Copy | Barrier | PostRecv (p : nat) | PostSend (q : nat).

Definition preOf (o : sliceOp) : bool :=
  match srcAt o with Some (b, _) => b | None => false end.

(** The value of a slice from the memory and the slots read. *)
Definition sliceVal {T} (fn : redFn T) (o : sliceOp) (m : mem T) (inbox : nat -> list T) : list T :=
  reduceCopy fn (preOf o) (doPost o)
    (match srcAt o with Some (_, a) => [load m a (sliceLen o)] | None => [] end ++
     map (fun p => take (sliceLen o) (inbox p)) (recvFrom o)).

Definition storeDst {T} (o : sliceOp) (m : mem T) (v : list T) : mem T :=
  match dstAt o with Some d => store m d v | None => m end.

Section step.
Context {T : Type} (fn : redFn T) (SPS connStepSize : Z) (owner : nat -> nat).

(** Where in the buffer a step is. *)
(* src/src/device/prims_simple.h:157-157 waitPeer *)
Definition slotAddr (step : Z) : Z := (step mod NCCL_STEPS) * connStepSize.

(** The slice [o] of the rank stays within the buffers of its peers. *)
Definition inBuffers (x : node T) (o : sliceOp) : bool :=
  forallb (fun p => slotAddr (recvStep x p) + Z.of_nat (sliceLen o) <=? NCCL_STEPS * connStepSize) (recvFrom o) &&
  forallb (fun q => slotAddr (sendStep x q) + Z.of_nat (sliceLen o) <=? NCCL_STEPS * connStepSize) (sendTo o).

(** The exit conditions of the spin loops of [waitPeer]. *)
(* src/src/device/prims_simple.h:103-117 waitPeer *)
Definition canWait (c : config T) (i : nat) (o : sliceOp) : bool :=
  forallb (fun p => recvStep (cn c i) p + SPS <=? tail (cn c p) i) (recvFrom o) &&
  forallb (fun q => sendStep (cn c i) q + SPS <=? head (cn c q) i + NCCL_STEPS) (sendTo o).

(** The value of the next slice, from the steps [waitPeer] points to. *)
(* src/src/device/prims_simple.h:119-164 waitPeer *)
Definition copyVal (c : config T) (i : nat) (o : sliceOp) : list T :=
  sliceVal fn o (cm c (owner i)) (fun p => load (fifo (cn c p) i) (slotAddr (recvStep (cn c i) p)) (sliceLen o)).

(** The data movement of the slice: [v] is stored to the buffers of the peers, from
    the address of the step on. *)
(* src/src/device/prims_simple.h:220-281 genericOp *)
Definition copySlice (x : node T) (o : sliceOp) (rest : list sliceOp) (v : list T) : node T :=
  {| prog := rest;
     copied := Some o;
     pendRecv := pendRecv x;
     pendSend := pendSend x;
     recvStep := fun p => if isIn p (recvFrom o) then recvStep x p + SPS else recvStep x p;
     sendStep := fun q => if isIn q (sendTo o) then sendStep x q + SPS else sendStep x q;
     head := head x;
     tail := tail x;
     fifo := fun q => if isIn q (sendTo o) then store (fifo x q) (slotAddr (sendStep x q)) v else fifo x q |}.

(** All threads of the rank meet; the posting threads may go on. *)
(* src/src/device/prims_simple.h:287-304 genericOp *)
Definition passBarrier (x : node T) (o : sliceOp) : node T :=
  {| prog := prog x; copied := None; pendRecv := recvFrom o; pendSend := sendTo o;
     recvStep := recvStep x; sendStep := sendStep x; head := head x; tail := tail x; fifo := fifo x |}.

(* src/src/device/prims_simple.h:166-175 postPeer *)
Definition postRecv (x : node T) (p : nat) : node T :=
  {| prog := prog x; copied := copied x;
     pendRecv := List.filter (fun r => negb (r =? p)%nat) (pendRecv x); pendSend := pendSend x;
     recvStep := recvStep x; sendStep := sendStep x;
     head := upd (head x) p (head x p + SPS); tail := tail x; fifo := fifo x |}.

(* src/src/device/prims_simple.h:166-175 postPeer *)
Definition postSend (x : node T) (q : nat) : node T :=
  {| prog := prog x; copied := copied x;
     pendRecv := pendRecv x; pendSend := List.filter (fun r => negb (r =? q)%nat) (pendSend x);
     recvStep := recvStep x; sendStep := sendStep x;
     head := head x; tail := upd (tail x) q (tail x q + SPS); fifo := fifo x |}.

Definition setNode (c : config T) (i : nat) (x : node T) : config T :=
  {| cn := upd (cn c) i x; cm := cm c |}.

(** One step of process [i].  A slice is copied once its waits are over, even
    while the posts of the slice before are under way; its barrier waits for
    them. *)
Definition fire (c : config T) (i : nat) (a : action) : option (config T) :=
  let x := cn c i in
  match a with
  | Copy =>
      match copied x, prog x with
      | None, o :: rest =>
          if canWait c i o && inBuffers x o
          then let v := copyVal c i o in
               Some {| cn := upd (cn c) i (copySlice x o rest v);
                       cm := upd (cm c) (owner i) (storeDst o (cm c (owner i)) v) |}
          else None
      | _, _ => None
      end
  | Barrier =>
      match copied x, pendRecv x, pendSend x with
      | Some o, [], [] => Some (setNode c i (passBarrier x o))
      | _, _, _ => None
      end
  | PostRecv p => if isIn p (pendRecv x) then Some (setNode c i (postRecv x p)) else None
  | PostSend q => if isIn q (pendSend x) then Some (setNode c i (postSend x q)) else None
  end.

Definition step (c c' : config T) : Prop := exists i a, fire c i a = Some c'.

Fixpoint run (c : config T) (sched : list (nat * action)) : option (config T) :=
  match sched with
  | [] => Some c
  | (i, a) :: sched => match fire c i a with Some c => run c sched | None => None end
  end.

(** The step a connection starts at: the step saved by the kernel before, rounded up to
    a whole chunk of [chunkSteps] steps. *)
(* src/src/device/prims_simple.h:531-533 loadSendConn *)
Definition connStart (chunkSteps : Z) (saved : nat -> nat -> Z) (p q : nat) : Z := roundUpTo chunkSteps (saved p q).

(** The ranks at the start of the kernel: the counters of a connection agree. *)
Definition initConfig (P : nat -> list sliceOp) (mem0 : nat -> mem T) (start : nat -> nat -> Z)
    (fifo0 : nat -> nat -> mem T) : config T := {|
  cn := fun i =>
    {| prog := P i; copied := None; pendRecv := []; pendSend := [];
       recvStep := fun p => start p i; sendStep := fun q => start i q;
       head := fun p => start p i; tail := fun q => start i q; fifo := fifo0 i |};
  cm := mem0 |}.

Definition finished (x : node T) : Prop :=
  prog x = [] /\ copied x = None /\ pendRecv x = [] /\ pendSend x = [].
End step.

(** ** Counting messages *)

(** The number of slices among the first [k] that satisfy [f]. *)
Definition cnt (f : sliceOp -> bool) (l : list sliceOp) (k : nat) : nat :=
  length (List.filter f (take k l)).

Definition sends (P : nat -> list sliceOp) (i q k : nat) : nat := cnt (fun o => isIn q (sendTo o)) (P i) k.
Definition recvs (P : nat -> list sliceOp) (i p k : nat) : nat := cnt (fun o => isIn p (recvFrom o)) (P i) k.

(** No process has received more than its peers have sent it. *)
Definition causal (P : nat -> list sliceOp) (k : nat -> nat) : Prop :=
  forall i p, (recvs P i p (k i) <= sends P p i (k p))%nat.

(** What a kernel promises: the message [msg i k] that slice [k] of process [i]
    computes, a description [good g k m] of the memory [m] of rank [g] when each
    process [i] has copied [k i] slices, and a time at which a slice could run.
    Each slice computes its message from a good memory and the matching messages
    of its peers; the slices it waits for, on both sides, come earlier in time.  A
    slice fits the [SPS] steps it goes through, of [stepLen] elements each, and has
    the length its receiver expects. *)
Class Kernel {T : Type} (fn : redFn T) (SPS stepLen : Z) (owner : nat -> nat) (n : nat) (P : nat -> list sliceOp)
    (mem0 : nat -> mem T) := {
  msg : nat -> nat -> list T;
  good : nat -> (nat -> nat) -> mem T -> Prop;
  time : nat -> nat -> nat;
  kernel_step_pos : 0 < SPS;
  kernel_steps : NCCL_STEPS mod SPS = 0 /\ 0 <= stepLen;
  kernel_idle i : (n <= i)%nat -> P i = [];
  kernel_nodup i k o : P i !! k = Some o -> NoDup (recvFrom o) /\ NoDup (sendTo o);
  kernel_fits i k o : P i !! k = Some o -> length (msg i k) = sliceLen o /\ Z.of_nat (sliceLen o) <= SPS * stepLen;
  kernel_init g : good g (fun _ => 0%nat) (mem0 g);
  kernel_frame g k i v m : owner i <> g -> good g k m -> good g (upd k i v) m;
  kernel_msg (k : nat -> nat) i o m inbox :
    P i !! k i = Some o -> causal P k -> good (owner i) k m ->
    (forall p k' o', p ∈ recvFrom o -> P p !! k' = Some o' -> i ∈ sendTo o' ->
       sends P p i k' = recvs P i p (k i) -> (k' < k p)%nat /\ inbox p = msg p k') ->
    sliceVal fn o m inbox = msg i (k i) /\ good (owner i) (upd k i (S (k i))) (storeDst o m (msg i (k i)));
  kernel_time i k k' : (k <= k')%nat -> (time i k <= time i k')%nat;
  kernel_recv i k o p :
    P i !! k = Some o -> p ∈ recvFrom o ->
    exists k' o', P p !! k' = Some o' /\ i ∈ sendTo o' /\ sends P p i k' = recvs P i p k /\
      (time p k' < time i k)%nat;
  kernel_len i k o p k' o' :
    P i !! k = Some o -> p ∈ recvFrom o -> P p !! k' = Some o' -> i ∈ sendTo o' ->
    sends P p i k' = recvs P i p k -> sliceLen o' = sliceLen o;
  kernel_send i k o q :
    P i !! k = Some o -> q ∈ sendTo o ->
    SPS * (Z.of_nat (sends P i q k) + 1) <= NCCL_STEPS \/
    exists k' o', P q !! k' = Some o' /\ i ∈ recvFrom o' /\ (time q k' < time i k)%nat /\
      SPS * (Z.of_nat (sends P i q k) + 1) <= SPS * (Z.of_nat (recvs P q i k') + 1) + NCCL_STEPS }.

Lemma isIn_spec p l : isIn p l = true <-> p ∈ l.
Proof.
  unfold isIn. rewrite existsb_exists, list_elem_of_In. split.
  - intros (x & Hx & ->%Nat.eqb_eq). done.
  - intros H. exists p. split; [done|apply Nat.eqb_refl].
Qed.

Lemma isIn_false p l : isIn p l = false <-> p ∉ l.
Proof. rewrite <- isIn_spec. by destruct (isIn p l). Qed.

Section cnt.
Context (f : sliceOp -> bool) (l : list sliceOp).

Lemma cnt_0 : cnt f l 0 = 0%nat.
Proof. done. Qed.

Lemma cnt_S k o : l !! k = Some o -> cnt f l (S k) = (cnt f l k + (if f o then 1 else 0))%nat.
Proof.
  intros H. unfold cnt. rewrite (take_S_r l k o H), List.filter_app, length_app. simpl. by destruct (f o).
Qed.

Lemma cnt_end k : (length l <= k)%nat -> cnt f l (S k) = cnt f l k.
Proof. intros H. unfold cnt. by rewrite !firstn_all2 by lia. Qed.

Lemma cnt_le k k' : (k <= k')%nat -> (cnt f l k <= cnt f l k')%nat.
Proof.
  induction 1 as [|k' Hk IH]; [done|]. destruct (l !! k') as [o|] eqn:E.
  - rewrite (cnt_S k' o E). lia.
  - apply lookup_ge_None in E. by rewrite cnt_end.
Qed.

Lemma cnt_min k : cnt f l k = cnt f l (Nat.min k (length l)).
Proof. unfold cnt. do 2 f_equal. destruct (Nat.le_ge_cases k (length l)); [by rewrite Nat.min_l|]. rewrite Nat.min_r by done. by rewrite !firstn_all2. Qed.

Lemma cnt_lt k k' o : (k < k')%nat -> l !! k = Some o -> f o = true -> (cnt f l k < cnt f l k')%nat.
Proof.
  intros Hk Ho Hf. pose proof (cnt_le (S k) k' Hk). rewrite (cnt_S k o Ho), Hf in H. lia.
Qed.

Lemma cnt_inj k k' o o' :
  l !! k = Some o -> l !! k' = Some o' -> f o = true -> f o' = true -> cnt f l k = cnt f l k' -> k = k'.
Proof.
  intros Ho Ho' Hf Hf' E. destruct (Nat.lt_trichotomy k k') as [H|[H|H]]; [|done|].
  - pose proof (cnt_lt k k' o H Ho Hf). lia.
  - pose proof (cnt_lt k' k o' H Ho' Hf'). lia.
Qed.

(** Every smaller number is the number of some slice. *)
Lemma cnt_hit k m :
  (m < cnt f l k)%nat -> exists k' o, (k' < k)%nat /\ l !! k' = Some o /\ f o = true /\ cnt f l k' = m.
Proof.
  induction k as [|k IH]; [rewrite cnt_0; lia|]. intros Hm. destruct (l !! k) as [o|] eqn:E.
  - rewrite (cnt_S k o E) in Hm. destruct (Nat.lt_ge_cases m (cnt f l k)) as [H|H].
    + destruct (IH H) as (k' & o' & ? & ?). exists k', o'. split; [lia|done].
    + exists k, o. destruct (f o) eqn:Ef; [|lia]. split_and!; (done || lia).
  - apply lookup_ge_None in E. rewrite cnt_end in Hm by done.
    destruct (IH Hm) as (k' & o' & ? & ?). exists k', o'. split; [lia|done].
Qed.
End cnt.

(** ** Steps in the buffer *)

(** The place of a step of a slice is a multiple of the steps of a slice. *)
Lemma slot_multiple SPS t :
  0 < SPS -> NCCL_STEPS mod SPS = 0 -> t mod SPS = 0 ->
  exists r, t mod NCCL_STEPS = r * SPS /\ r * SPS + SPS <= NCCL_STEPS.
Proof.
  intros Hs Hd Ht. apply Z.mod_divide in Hd as [q Hq]; [|lia]. apply Z.mod_divide in Ht as [r ->]; [|lia].
  assert (0 < q) by (unfold NCCL_STEPS in Hq; nia). pose proof (Z.mod_pos_bound r q ltac:(lia)).
  exists (r mod q). rewrite Hq, Z.mul_mod_distr_r by lia. split; [done|nia].
Qed.

(** A slice of whole steps ends within the buffer. *)
Lemma slot_bound SPS stepLen t len :
  0 < SPS -> NCCL_STEPS mod SPS = 0 -> 0 <= stepLen -> t mod SPS = 0 -> len <= SPS * stepLen ->
  slotAddr stepLen t + len <= NCCL_STEPS * stepLen.
Proof.
  intros Hs Hd Hl Ht Hlen. unfold slotAddr. destruct (slot_multiple SPS t Hs Hd Ht) as (r & -> & Hr). nia.
Qed.

(** Slices less than [NCCL_STEPS] apart do not meet. *)
Lemma fifo_slots_disjoint SPS stepLen t u len len' :
  0 < SPS -> NCCL_STEPS mod SPS = 0 -> 0 <= stepLen -> t mod SPS = 0 -> u mod SPS = 0 -> 0 < u - t < NCCL_STEPS ->
  len <= SPS * stepLen -> len' <= SPS * stepLen ->
  slotAddr stepLen t + len <= slotAddr stepLen u \/ slotAddr stepLen u + len' <= slotAddr stepLen t.
Proof.
  intros Hs Hd Hl Ht Hu Htu Hlen Hlen'. unfold slotAddr.
  assert (t mod NCCL_STEPS <> u mod NCCL_STEPS) as Hne.
  { intros E. assert ((u - t) mod NCCL_STEPS = 0) as D by (rewrite Zminus_mod, E, Z.sub_diag; done).
    rewrite Z.mod_small in D by lia. lia. }
  destruct (slot_multiple SPS t Hs Hd Ht) as (a & Ea & _), (slot_multiple SPS u Hs Hd Hu) as (b & Eb & _). rewrite Ea, Eb in *.
  destruct (Z.lt_ge_cases a b); [left|right].
  - assert ((a + 1) * SPS <= b * SPS) by nia. nia.
  - assert (b <> a) by (intros ->; done). assert ((b + 1) * SPS <= a * SPS) by nia. nia.
Qed.

Lemma load_store_same {T} (m : mem T) a l : load (store m a l) a (length l) = l.
Proof.
  apply list_eq. intros e. unfold load. rewrite list_lookup_fmap. destruct (l !! e) as [v|] eqn:E.
  - pose proof (lookup_lt_Some _ _ _ E). rewrite lookup_seq_lt by done. simpl. unfold store.
    rewrite (proj2 (Z.leb_le _ _)), (proj2 (Z.ltb_lt _ _)) by lia. simpl.
    replace (Z.to_nat (a + Z.of_nat e - a)) with e by lia. by rewrite E.
  - apply lookup_ge_None in E. by rewrite lookup_seq_ge.
Qed.

Lemma load_store_other {T} (m : mem T) a l b n :
  a + Z.of_nat (length l) <= b \/ b + Z.of_nat n <= a -> load (store m a l) b n = load m b n.
Proof.
  intros H. unfold load. apply map_ext_in. intros e He%in_seq. unfold store.
  destruct (Z.leb_spec a (b + Z.of_nat e)), (Z.ltb_spec (b + Z.of_nat e) (a + Z.of_nat (length l))); (done || lia).
Qed.

Lemma upd_eq {A} (f : nat -> A) i v : upd f i v i = v.
Proof. unfold upd. by rewrite Nat.eqb_refl. Qed.

Lemma upd_neq {A} (f : nat -> A) i j v : i <> j -> upd f i v j = f j.
Proof. intros H. unfold upd. by destruct (Nat.eqb_spec j i). Qed.

(** ** Safety: any interleaving sends the kernel's messages *)

Section safety.
Context {T : Type} (fn : redFn T) (SPS stepLen : Z) (owner : nat -> nat) (n : nat).
Context (P : nat -> list sliceOp) (mem0 : nat -> mem T).
Context {K : Kernel fn SPS stepLen owner n P mem0}.
Context (start : nat -> nat -> Z) (fifo0 : nat -> nat -> mem T) (Hstart : forall p q, start p q mod SPS = 0).

(** Rank [i] has copied [k] slices and passed the barrier of [b]. *)
Record node_inv (x : node T) (i k b : nat) : Prop := {
  ni_le : (k <= length (P i))%nat;
  ni_prog : prog x = drop k (P i);
  ni_copied : match copied x with None => k = b | Some o => k = S b /\ P i !! b = Some o end;
  ni_recv p : recvStep x p = start p i + SPS * Z.of_nat (recvs P i p k);
  ni_send q : sendStep x q = start i q + SPS * Z.of_nat (sends P i q k);
  ni_head p : head x p =
    start p i + SPS * (Z.of_nat (recvs P i p b) - (if isIn p (pendRecv x) then 1 else 0));
  ni_tail q : tail x q =
    start i q + SPS * (Z.of_nat (sends P i q b) - (if isIn q (pendSend x) then 1 else 0));
  ni_pend : b = 0%nat -> pendRecv x = [] /\ pendSend x = [] }.

(** The steps of a message keep it until the receiver has copied it. *)
Definition fifo_inv (c : config T) (k : nat -> nat) : Prop := forall i q k' o,
  (k' < k i)%nat -> P i !! k' = Some o -> q ∈ sendTo o -> (recvs P q i (k q) <= sends P i q k')%nat ->
  load (fifo (cn c i) q) (slotAddr stepLen (start i q + SPS * Z.of_nat (sends P i q k'))) (sliceLen o) = msg i k'.

Record inv (c : config T) (k b : nat -> nat) : Prop := {
  inv_node i : node_inv (cn c i) i (k i) (b i);
  inv_fifo : fifo_inv c k;
  inv_causal : causal P k;
  inv_mem g : good g k (cm c g) }.

Lemma inv_init : inv (initConfig P mem0 start fifo0) (fun _ => 0%nat) (fun _ => 0%nat).
Proof.
  split.
  - intros i. split; try done; simpl; try lia.
    + intros p. unfold recvs. rewrite cnt_0. lia.
    + intros q. unfold sends. rewrite cnt_0. lia.
    + intros p. unfold recvs. rewrite cnt_0. lia.
    + intros q. unfold sends. rewrite cnt_0. lia.
  - intros i q k' o Hk; lia.
  - intros i p. unfold recvs, sends. by rewrite !cnt_0.
  - apply kernel_init.
Qed.

Lemma barrier_le x i k b : node_inv x i k b -> (b <= k)%nat.
Proof. intros H. pose proof (ni_copied _ _ _ _ H). destruct (copied x); lia. Qed.

Lemma head_le x i k b p :
  node_inv x i k b -> head x p <= start p i + SPS * Z.of_nat (recvs P i p k).
Proof.
  intros H. rewrite (ni_head _ _ _ _ H p). pose proof (kernel_step_pos (Kernel := K)).
  assert (recvs P i p b <= recvs P i p k)%nat by (apply cnt_le; by eapply barrier_le).
  destruct (isIn p (pendRecv x)); nia.
Qed.

Lemma tail_le x i k b q :
  node_inv x i k b -> tail x q <= start i q + SPS * Z.of_nat (sends P i q k).
Proof.
  intros H. rewrite (ni_tail _ _ _ _ H q). pose proof (kernel_step_pos (Kernel := K)).
  assert (sends P i q b <= sends P i q k)%nat by (apply cnt_le; by eapply barrier_le).
  destruct (isIn q (pendSend x)); nia.
Qed.

(** A copied slice reads the message its peer sent for it. *)
Lemma inbox_ok c k b i o p k' o' :
  inv c k b -> canWait SPS c i o = true -> P i !! k i = Some o -> p ∈ recvFrom o ->
  P p !! k' = Some o' -> i ∈ sendTo o' -> sends P p i k' = recvs P i p (k i) ->
  (k' < k p)%nat /\ load (fifo (cn c p) i) (slotAddr stepLen (recvStep (cn c i) p)) (sliceLen o) = msg p k'.
Proof.
  intros [Hn Hf _ _] Hw Ho Hp Ho' Hi E. pose proof (kernel_len i (k i) o p k' o' Ho Hp Ho' Hi E) as El. apply andb_true_iff in Hw as [Hw _].
  rewrite forallb_forall in Hw. specialize (Hw p ltac:(by apply list_elem_of_In)). apply Z.leb_le in Hw.
  pose proof (tail_le _ _ _ _ i (Hn p)) as Ht. rewrite (ni_recv _ _ _ _ (Hn i) p) in *.
  pose proof (kernel_step_pos (Kernel := K)).
  assert (k' < k p)%nat.
  { destruct (Nat.lt_ge_cases k' (k p)) as [|Hge]; [done|].
    pose proof (cnt_le (fun o => isIn i (sendTo o)) (P p) _ _ Hge) as L. fold (sends P p i (k p)) in L.
    fold (sends P p i k') in L. nia. }
  split; [done|]. rewrite <- E, <- El. apply (Hf p i k' o'); (done || lia).
Qed.

Lemma copy_node x i k b o rest v :
  node_inv x i k b -> copied x = None -> prog x = o :: rest ->
  P i !! k = Some o /\ node_inv (copySlice SPS stepLen x o rest v) i (S k) b.
Proof.
  intros Hi Hc Hp. pose proof (ni_prog _ _ _ _ Hi) as Hd. rewrite Hp in Hd.
  assert (P i !! k = Some o) as Ho by (rewrite <- (Nat.add_0_r k), <- lookup_drop, <- Hd; done).
  pose proof (ni_copied _ _ _ _ Hi) as Hb. rewrite Hc in Hb.
  split; [done|]. destruct Hi as [H1 H2 H3 H4 H5 H6 H7 H8]. split; cbn; try done.
  - apply lookup_lt_Some in Ho. lia.
  - rewrite (drop_S (P i) o k Ho) in Hd. by injection Hd.
  - by rewrite <- Hb.
  - intros p. unfold recvs. rewrite (cnt_S _ _ _ o Ho), H4. fold (recvs P i p k). destruct (isIn p (recvFrom o)); lia.
  - intros q. unfold sends. rewrite (cnt_S _ _ _ o Ho), H5. fold (sends P i q k). destruct (isIn q (sendTo o)); lia.
Qed.

Lemma upd_le (k : nat -> nat) i j : (k j <= upd k i (S (k i)) j)%nat.
Proof. unfold upd. destruct (Nat.eqb_spec j i) as [->|]; lia. Qed.

Lemma copy_causal c k b i o :
  inv c k b -> P i !! k i = Some o -> canWait SPS c i o = true -> causal P (upd k i (S (k i))).
Proof.
  intros [Hn _ Hc _] Ho Hw j p. pose proof (kernel_step_pos (Kernel := K)) as Hs.
  assert (sends P p j (k p) <= sends P p j (upd k i (S (k i)) p))%nat by (apply cnt_le, upd_le).
  destruct (Nat.eq_dec i j) as [<-|Hj]; [|rewrite (upd_neq k i j) by done; specialize (Hc j p); lia].
  rewrite upd_eq. unfold recvs. rewrite (cnt_S _ _ _ o Ho). fold (recvs P i p (k i)). specialize (Hc i p).
  destruct (isIn p (recvFrom o)) eqn:Ep; [|lia].
  apply andb_true_iff in Hw as [Hw _]. rewrite forallb_forall in Hw.
  specialize (Hw p ltac:(by apply list_elem_of_In, isIn_spec)). apply Z.leb_le in Hw.
  pose proof (tail_le _ _ _ _ i (Hn p)) as Ht. rewrite (ni_recv _ _ _ _ (Hn i) p) in Hw. nia.
Qed.

Lemma step_aligned p q (m : nat) : (start p q + SPS * Z.of_nat m) mod SPS = 0.
Proof. rewrite (Z.mul_comm SPS), Z_mod_plus_full. apply Hstart. Qed.

Lemma copy_fifo c k b i o rest m :
  inv c k b -> P i !! k i = Some o -> canWait SPS c i o = true ->
  fifo_inv {| cn := upd (cn c) i (copySlice SPS stepLen (cn c i) o rest (msg i (k i))); cm := m |} (upd k i (S (k i))).
Proof.
  intros [Hn Hf _ _] Ho Hw j q k' o' Hk' Ho' Hq Hr. pose proof (Hn i) as Hi. cbn [cn].
  pose proof (kernel_step_pos (Kernel := K)) as Hs.
  assert (recvs P q j (k q) <= sends P j q k')%nat as Hr'.
  { etrans; [|exact Hr]. apply cnt_le, upd_le. }
  destruct (Nat.eq_dec i j) as [<-|Hj]; [|rewrite !upd_neq in * by done; by apply (Hf j q k' o')].
  rewrite !upd_eq in *. unfold copySlice. cbn.
  destruct (Nat.eq_dec k' (k i)) as [->|Hne].
  - rewrite Ho in Ho'. simplify_eq. rewrite (proj2 (isIn_spec q _) Hq), (ni_send _ _ _ _ Hi q).
    destruct (kernel_fits i (k i) o' Ho) as [<- _]. apply load_store_same.
  - destruct (isIn q (sendTo o)) eqn:Eq; [|by apply (Hf i q k' o'); [lia|..]].
    rewrite load_store_other; [by apply (Hf i q k' o'); [lia|..]|].
    destruct (kernel_fits i (k i) o Ho) as [-> Hl], (kernel_fits i k' o' Ho') as [_ Hl'], (kernel_steps (Kernel := K)) as [Hd Hlen].
    rewrite (ni_send _ _ _ _ Hi q).
    assert (sends P i q k' < sends P i q (k i))%nat.
    { apply (cnt_lt _ _ k' (k i) o'); [lia|done|by apply isIn_spec]. }
    apply andb_true_iff in Hw as [_ Hw]. rewrite forallb_forall in Hw.
    specialize (Hw q ltac:(by apply list_elem_of_In, isIn_spec)). apply Z.leb_le in Hw.
    pose proof (head_le _ _ _ _ i (Hn q)). rewrite (ni_send _ _ _ _ Hi q) in Hw.
    apply or_comm, (fifo_slots_disjoint SPS); try done; [apply step_aligned..|nia].
Qed.

Lemma copy_inv c k b i o rest :
  inv c k b -> copied (cn c i) = None -> prog (cn c i) = o :: rest -> canWait SPS c i o = true ->
  inv {| cn := upd (cn c) i (copySlice SPS stepLen (cn c i) o rest (copyVal fn stepLen owner c i o));
         cm := upd (cm c) (owner i) (storeDst o (cm c (owner i)) (copyVal fn stepLen owner c i o)) |}
    (upd k i (S (k i))) b.
Proof.
  intros Hinv Hc Hp Hw. pose proof Hinv as [Hn Hf Hca Hg].
  destruct (copy_node _ _ _ _ o rest (msg i (k i)) (Hn i) Hc Hp) as [Ho Hi].
  destruct (kernel_msg k i o (cm c (owner i)) (fun p => load (fifo (cn c p) i) (slotAddr stepLen (recvStep (cn c i) p)) (sliceLen o)) Ho
    Hca (Hg (owner i))) as [Hv Hgood].
  { intros p k' o' H1 H2 H3 H4. by apply (inbox_ok c k b i o p k' o'). }
  fold (copyVal fn stepLen owner c i o) in Hv. rewrite Hv. split; cbn [cn cm].
  - intros j. destruct (Nat.eq_dec i j) as [<-|Hj]; [by rewrite !upd_eq|rewrite !upd_neq by done; apply Hn].
  - by apply (copy_fifo c k b).
  - by apply (copy_causal c k b i o).
  - intros g. destruct (Nat.eq_dec (owner i) g) as [<-|Hgi]; [by rewrite upd_eq|].
    rewrite upd_neq by done. by apply kernel_frame.
Qed.

(** A step of one process that touches neither its slots nor the memory. *)
Lemma setNode_inv c k b i x v :
  inv c k b -> node_inv x i (k i) v -> fifo x = fifo (cn c i) -> inv (setNode c i x) k (upd b i v).
Proof.
  intros [Hn Hf Hca Hg] Hx Ef. split; [| |done|done].
  - intros j. unfold setNode. cbn [cn]. destruct (Nat.eq_dec i j) as [<-|Hj]; [by rewrite !upd_eq|].
    rewrite !upd_neq by done. apply Hn.
  - intros j q k' o' H1 H2 H3 H4. specialize (Hf j q k' o' H1 H2 H3 H4). unfold setNode. cbn [cn].
    destruct (Nat.eq_dec i j) as [<-|Hj]; [|by rewrite upd_neq]. by rewrite upd_eq, Ef.
Qed.

Lemma barrier_inv c k b i o :
  inv c k b -> copied (cn c i) = Some o -> pendRecv (cn c i) = [] -> pendSend (cn c i) = [] ->
  inv (setNode c i (passBarrier (cn c i) o)) k (upd b i (k i)).
Proof.
  intros Hinv Hc Hr Hs. apply setNode_inv; [done| |done]. pose proof (inv_node _ _ _ Hinv i) as Hi.
  pose proof (ni_copied _ _ _ _ Hi) as Hb. rewrite Hc in Hb. destruct Hb as [Hk Ho].
  destruct Hi as [H1 H2 _ H4 H5 H6 H7 _]. split; cbn; try done.
  - intros p. rewrite H6, Hr, Hk. unfold recvs. rewrite (cnt_S _ _ _ o Ho).
    change (isIn p []) with false. destruct (isIn p (recvFrom o)); lia.
  - intros q. rewrite H7, Hs, Hk. unfold sends. rewrite (cnt_S _ _ _ o Ho).
    change (isIn q []) with false. destruct (isIn q (sendTo o)); lia.
  - lia.
Qed.

Lemma isIn_filter p q l : isIn p (List.filter (fun r => negb (r =? q)%nat) l) = isIn p l && negb (p =? q)%nat.
Proof.
  destruct (isIn p l && negb (p =? q)%nat) eqn:E.
  - apply andb_true_iff in E as [E1%isIn_spec E2]. apply isIn_spec, list_elem_of_In, filter_In.
    by rewrite <- list_elem_of_In.
  - apply isIn_false. rewrite list_elem_of_In, filter_In, <- list_elem_of_In, <- isIn_spec. intros [H1 H2].
    by rewrite H1, H2 in E.
Qed.

Lemma postRecv_inv c k b i p :
  inv c k b -> isIn p (pendRecv (cn c i)) = true -> inv (setNode c i (postRecv SPS (cn c i) p)) k (upd b i (b i)).
Proof.
  intros Hinv Hp. apply setNode_inv; [done| |done].
  destruct (inv_node _ _ _ Hinv i) as [H1 H2 H3 H4 H5 H6 H7 H8]. split; cbn; try done.
  - intros p'. rewrite isIn_filter. unfold upd. destruct (Nat.eqb_spec p' p) as [->|].
    + rewrite H6, Hp. simpl. lia.
    + by rewrite H6, andb_true_r.
  - intros Hb. destruct (H8 Hb) as [E1 E2]. by rewrite E1, E2.
Qed.

Lemma postSend_inv c k b i q :
  inv c k b -> isIn q (pendSend (cn c i)) = true -> inv (setNode c i (postSend SPS (cn c i) q)) k (upd b i (b i)).
Proof.
  intros Hinv Hq. apply setNode_inv; [done| |done].
  destruct (inv_node _ _ _ Hinv i) as [H1 H2 H3 H4 H5 H6 H7 H8]. split; cbn; try done.
  - intros q'. rewrite isIn_filter. unfold upd. destruct (Nat.eqb_spec q' q) as [->|].
    + rewrite H7, Hq. simpl. lia.
    + by rewrite H7, andb_true_r.
  - intros Hb. destruct (H8 Hb) as [E1 E2]. by rewrite E1, E2.
Qed.

Lemma step_inv c c' k b : inv c k b -> step fn SPS stepLen owner c c' -> exists k' b', inv c' k' b'.
Proof.
  intros Hi (i & [| |p|q] & Hf); unfold fire in Hf.
  - destruct (copied (cn c i)) eqn:Ec; [done|]. destruct (prog (cn c i)) as [|o rest] eqn:Ep; [done|].
    destruct (canWait SPS c i o) eqn:Ew; [|done]. destruct (inBuffers stepLen (cn c i) o); [|done].
    simplify_eq/=. eexists _, _. by apply copy_inv.
  - destruct (copied (cn c i)) eqn:Ec; [|done]. destruct (pendRecv (cn c i)) eqn:Er; [|done].
    destruct (pendSend (cn c i)) eqn:Es; [|done]. simplify_eq. eexists _, _. by apply barrier_inv.
  - destruct (isIn p (pendRecv (cn c i))) eqn:E; [|done]. simplify_eq. eexists _, _. by apply postRecv_inv.
  - destruct (isIn q (pendSend (cn c i))) eqn:E; [|done]. simplify_eq. eexists _, _. by apply postSend_inv.
Qed.

Definition reachable (c : config T) : Prop := rtc (step fn SPS stepLen owner) (initConfig P mem0 start fifo0) c.

Lemma reachable_inv c : reachable c -> exists k b, inv c k b.
Proof.
  intros H. remember (initConfig P mem0 start fifo0) as c0 eqn:E0.
  assert (exists k b, inv c0 k b) as (k & b & Hi) by (rewrite E0; eexists _, _; apply inv_init).
  unfold reachable in H. rewrite <- E0 in H. clear E0. revert k b Hi.
  induction H as [c|c0 c1 c Hs _ IH]; intros k b Hi; [by eexists _, _|].
  destruct (step_inv _ _ _ _ Hi Hs) as (k1 & b1 & Hi1). by apply (IH k1 b1).
Qed.

(** ** Progress *)

(** The next slice of an unfinished rank that is first in time can be copied. *)
Lemma first_can_copy c k b i o :
  inv c k b -> (forall j, copied (cn c j) = None /\ pendRecv (cn c j) = [] /\ pendSend (cn c j) = []) ->
  P i !! k i = Some o ->
  (forall j, (k j < length (P j))%nat -> (time i (k i) <= time j (k j))%nat) ->
  canWait SPS c i o = true.
Proof.
  intros [Hn _ _ _] Hidle Ho Hmin. pose proof (kernel_step_pos (Kernel := K)) as Hs.
  assert (forall j, b j = k j) as Hb.
  { intros j. pose proof (ni_copied _ _ _ _ (Hn j)) as H. destruct (Hidle j) as [E _]. by rewrite E in H. }
  assert (forall j kj oj, P j !! kj = Some oj -> (time j kj < time i (k i))%nat -> (kj < k j)%nat) as Hdone.
  { intros j kj oj Hj Ht. destruct (Nat.lt_ge_cases kj (k j)) as [|Hge]; [done|].
    apply lookup_lt_Some in Hj. specialize (Hmin j ltac:(lia)).
    pose proof (kernel_time (Kernel := K) j _ _ Hge). lia. }
  apply andb_true_iff. split; apply forallb_forall.
  - intros p Hp%list_elem_of_In. apply Z.leb_le.
    destruct (kernel_recv i (k i) o p Ho Hp) as (k' & o' & Ho' & Hi & E & Ht).
    specialize (Hdone p k' o' Ho' Ht). destruct (Hidle p) as (_ & _ & Es).
    rewrite (ni_recv _ _ _ _ (Hn i)), (ni_tail _ _ _ _ (Hn p)), Es, Hb. change (isIn i []) with false.
    pose proof (cnt_lt (fun o => isIn i (sendTo o)) (P p) k' (k p) o' Hdone Ho' ltac:(by apply isIn_spec)) as L.
    fold (sends P p i k') (sends P p i (k p)) in L. nia.
  - intros q Hq%list_elem_of_In. apply Z.leb_le. destruct (Hidle q) as (_ & Er & _).
    rewrite (ni_send _ _ _ _ (Hn i)), (ni_head _ _ _ _ (Hn q)), Er, Hb. change (isIn i []) with false.
    destruct (kernel_send i (k i) o q Ho Hq) as [H|(k' & o' & Ho' & Hi & Ht & H)]; [nia|].
    specialize (Hdone q k' o' Ho' Ht).
    pose proof (cnt_lt (fun o => isIn i (recvFrom o)) (P q) k' (k q) o' Hdone Ho' ltac:(by apply isIn_spec)) as L.
    fold (recvs P q i k') (recvs P q i (k q)) in L. nia.
Qed.

(** No slice leaves the buffers. *)
Lemma slice_inBuffers c k b i o : inv c k b -> P i !! k i = Some o -> inBuffers stepLen (cn c i) o = true.
Proof.
  intros [Hn _ _ _] Ho. destruct (kernel_fits i (k i) o Ho) as [_ Hl], (kernel_steps (Kernel := K)) as [Hd Hlen].
  pose proof (kernel_step_pos (Kernel := K)) as Hs.
  apply andb_true_iff. split; apply forallb_forall; intros p _; apply Z.leb_le.
  - rewrite (ni_recv _ _ _ _ (Hn i)). by apply (slot_bound SPS); [..|apply step_aligned|].
  - rewrite (ni_send _ _ _ _ (Hn i)). by apply (slot_bound SPS); [..|apply step_aligned|].
Qed.

Lemma min_index (q : nat -> bool) (f : nat -> nat) m :
  (exists i, (i < m)%nat /\ q i = true) ->
  exists i, (i < m)%nat /\ q i = true /\ forall j, (j < m)%nat -> q j = true -> (f i <= f j)%nat.
Proof.
  induction m as [|m IH]; [intros (i & ? & _); lia|]. intros (i & Hi & Hq).
  destruct (existsb q (seq 0 m)) eqn:E.
  - apply existsb_exists in E as (j & Hj%in_seq & Hqj).
    destruct IH as (x & Hx & Hqx & Hmin); [exists j; split; [lia|done]|].
    destruct (q m) eqn:Em; [|exists x; split_and!; [lia|done|]].
    + destruct (Nat.le_gt_cases (f x) (f m)) as [H|H].
      * exists x. split_and!; [lia|done|]. intros y Hy Hqy. destruct (Nat.eq_dec y m) as [->|]; [done|].
        apply Hmin; [lia|done].
      * exists m. split_and!; [lia|done|]. intros y Hy Hqy. destruct (Nat.eq_dec y m) as [->|]; [done|].
        specialize (Hmin y ltac:(lia) Hqy). lia.
    + intros y Hy Hqy. destruct (Nat.eq_dec y m) as [->|]; [congruence|]. apply Hmin; [lia|done].
  - assert (forall j, (j < m)%nat -> q j = false) as Hno.
    { intros j Hj. by apply (existsb_seq_false q m). }
    assert (i = m) as -> by (destruct (Nat.eq_dec i m) as [|]; [done|]; rewrite Hno in Hq by lia; done).
    exists m. split_and!; [lia|done|]. intros y Hy Hqy. destruct (Nat.eq_dec y m) as [->|]; [done|].
    rewrite Hno in Hqy by lia. done.
Qed.

(** A rank that has neither a post nor a barrier to make. *)
Definition quiet (x : node T) : bool :=
  match copied x, pendRecv x, pendSend x with None, [], [] => true | _, _, _ => false end.

Lemma quiet_spec x : quiet x = true <-> copied x = None /\ pendRecv x = [] /\ pendSend x = [].
Proof.
  unfold quiet. destruct (copied x), (pendRecv x), (pendSend x); split; try done; by intros (?&?&?).
Qed.

Lemma busy_step c i : quiet (cn c i) = false -> exists c', step fn SPS stepLen owner c c'.
Proof.
  unfold quiet. intros H.
  destruct (pendRecv (cn c i)) as [|p l] eqn:Er.
  - destruct (pendSend (cn c i)) as [|q l] eqn:Es.
    + destruct (copied (cn c i)) as [o|] eqn:Ec; [|done].
      eexists. exists i, Barrier. unfold fire. by rewrite Ec, Er, Es.
    + eexists. exists i, (PostSend q). unfold fire. rewrite Es.
      by rewrite (proj2 (isIn_spec q (q :: l))) by (by left).
  - eexists. exists i, (PostRecv p). unfold fire. rewrite Er.
    by rewrite (proj2 (isIn_spec p (p :: l))) by (by left).
Qed.

Lemma idle_quiet c k b i : inv c k b -> (n <= i)%nat -> quiet (cn c i) = true /\ prog (cn c i) = [].
Proof.
  intros [Hn _ _ _] Hi. pose proof (kernel_idle (Kernel := K) i Hi) as E. destruct (Hn i).
  rewrite E in *. assert (k i = 0%nat) as Ek by (simpl in ni_le0; lia).
  split; [|by rewrite ni_prog0, drop_nil]. apply quiet_spec.
  destruct (copied (cn c i)); [destruct ni_copied0; lia|]. split; [done|]. apply ni_pend0. lia.
Qed.

(** A reachable state is final or has a step. *)
Lemma progress c k b : inv c k b -> (forall i, finished (cn c i)) \/ exists c', step fn SPS stepLen owner c c'.
Proof.
  intros Hinv. pose proof Hinv as [Hn _ _ _].
  destruct (existsb (fun i => negb (quiet (cn c i))) (seq 0 n)) eqn:Eq.
  { right. apply existsb_exists in Eq as (i & _ & Hi%negb_true_iff). by apply (busy_step c i). }
  assert (forall i, quiet (cn c i) = true) as Hq.
  { intros i. destruct (Nat.lt_ge_cases i n) as [Hi|Hi]; [|by apply (idle_quiet c k b i)].
    pose proof (existsb_seq_false _ n i Eq Hi) as E. by apply negb_false_iff in E. }
  assert (forall j, copied (cn c j) = None /\ pendRecv (cn c j) = [] /\ pendSend (cn c j) = []) as Hidle.
  { intros j. by apply quiet_spec. }
  destruct (existsb (fun i => (k i <? length (P i))%nat) (seq 0 n)) eqn:Ek.
  - right. apply existsb_exists in Ek as (i0 & Hi0%in_seq & Hk0).
    destruct (min_index (fun i => (k i <? length (P i))%nat) (fun i => time i (k i)) n) as (i & Hi & Hki & Hmin).
    { exists i0. split; [lia|done]. }
    apply Nat.ltb_lt in Hki. destruct (lookup_lt_is_Some_2 (P i) (k i) Hki) as [o Ho].
    destruct (Hidle i) as (Ec & _). pose proof (ni_prog _ _ _ _ (Hn i)) as Ep.
    rewrite (drop_S _ o _ Ho) in Ep. eexists. exists i, Copy. unfold fire. rewrite Ec, Ep.
    rewrite (first_can_copy c k b i o), (slice_inBuffers c k b i o); [done..|]. intros j Hj. apply Hmin; [|by apply Nat.ltb_lt].
    destruct (Nat.lt_ge_cases j n) as [|Hge]; [done|].
    rewrite (kernel_idle (Kernel := K) j Hge) in Hj. simpl in Hj. lia.
  - left. intros i. destruct (Hidle i) as (E1 & E2 & E3). split_and!; [|done..].
    destruct (Nat.lt_ge_cases i n) as [Hi|Hi]; [|by apply (idle_quiet c k b i)].
    rewrite (ni_prog _ _ _ _ (Hn i)). apply drop_ge, Nat.ltb_ge.
    by apply (existsb_seq_false (fun i => (k i <? length (P i))%nat) n).
Qed.

(** ** Termination *)

Definition opWeight (o : sliceOp) : nat := 2 + length (recvFrom o) + length (sendTo o).

(** The steps a rank has left. *)
Definition nodeWeight (x : node T) : nat :=
  list_sum (map opWeight (prog x)) +
  match copied x with Some o => opWeight o - 1 | None => 0 end + length (pendRecv x) + length (pendSend x).

Definition weight (c : config T) : nat := list_sum (map (fun i => nodeWeight (cn c i)) (seq 0 n)).

Lemma sum_upd_lt (f : nat -> node T) i x (w : node T -> nat) a m :
  (a <= i < a + m)%nat -> (w x < w (f i))%nat ->
  (list_sum (map (fun j => w (upd f i x j)) (seq a m)) < list_sum (map (fun j => w (f j)) (seq a m)))%nat.
Proof.
  revert a. induction m as [|m IH]; intros a Hi Hw; [lia|]. cbn [seq map].
  change (list_sum (?z :: ?l)) with (z + list_sum l)%nat.
  destruct (Nat.eq_dec i a) as [->|Hne].
  - rewrite upd_eq.
    assert (map (fun j => w (upd f a x j)) (seq (S a) m) = map (fun j => w (f j)) (seq (S a) m)) as ->; [|lia].
    apply map_ext_in. intros j Hj%in_seq. by rewrite upd_neq by lia.
  - rewrite upd_neq by done. specialize (IH (S a) ltac:(lia) Hw). lia.
Qed.

Lemma length_filter_lt p l : isIn p l = true -> (length (List.filter (fun r => negb (r =? p)%nat) l) < length l)%nat.
Proof.
  intros H%isIn_spec. induction l as [|r l IH]; [by apply not_elem_of_nil in H|]. cbn [List.filter length].
  destruct (Nat.eqb_spec r p) as [->|Hne]; simpl.
  - pose proof (List.filter_length_le (fun r => negb (r =? p)%nat) l). lia.
  - apply elem_of_cons in H as [->|H]; [done|]. specialize (IH H). lia.
Qed.

Lemma step_weight c c' k b : inv c k b -> step fn SPS stepLen owner c c' -> (weight c' < weight c)%nat.
Proof.
  intros Hinv (i & a & Hf).
  assert (exists x, cn c' = upd (cn c) i x /\ (nodeWeight x < nodeWeight (cn c i))%nat) as (x & E' & Hx).
  { unfold nodeWeight. unfold fire in Hf. destruct a as [| |p|q].
    - destruct (copied (cn c i)) eqn:Ec; [done|]. destruct (prog (cn c i)) as [|o rest] eqn:Ep; [done|].
      destruct (canWait SPS c i o && inBuffers stepLen (cn c i) o) eqn:Ew; [|done]. simplify_eq. eexists. split; [done|].
      unfold copySlice. cbn [prog copied pendRecv pendSend map].
      change (list_sum (?z :: ?l)) with (z + list_sum l)%nat. unfold opWeight at 2 3. lia.
    - destruct (copied (cn c i)) eqn:Ec; [|done]. destruct (pendRecv (cn c i)) eqn:Er; [|done].
      destruct (pendSend (cn c i)) eqn:Es; [|done]. simplify_eq. eexists. split; [done|].
      cbn [prog copied pendRecv pendSend passBarrier length]. unfold opWeight at 3. lia.
    - destruct (isIn p (pendRecv (cn c i))) eqn:E; [|done]. simplify_eq. eexists. split; [done|].
      cbn [prog copied pendRecv pendSend postRecv postSend]. pose proof (length_filter_lt p _ E). lia.
    - destruct (isIn q (pendSend (cn c i))) eqn:E; [|done]. simplify_eq. eexists. split; [done|].
      cbn [prog copied pendRecv pendSend postRecv postSend]. pose proof (length_filter_lt q _ E). lia. }
  destruct (Nat.lt_ge_cases i n) as [Hi|Hi]; [unfold weight; rewrite E'; apply sum_upd_lt; [lia|done]|].
  destruct (idle_quiet c k b i Hinv Hi) as [(E1 & E2 & E3)%quiet_spec E4].
  unfold nodeWeight in Hx. rewrite E1, E2, E3, E4 in Hx. simpl in Hx. lia.
Qed.

Lemma steps_weight m c c' k b :
  inv c k b -> nsteps (step fn SPS stepLen owner) m c c' -> (m + weight c' <= weight c)%nat.
Proof.
  intros Hinv Hm. revert k b Hinv. induction Hm as [c|m c c1 c' Hs _ IH]; intros k b Hinv; [lia|].
  destruct (step_inv _ _ _ _ Hinv Hs) as (k1 & b1 & Hi1).
  pose proof (step_weight _ _ _ _ Hinv Hs). specialize (IH _ _ Hi1). lia.
Qed.

(** Every interleaving of a kernel ends, within a number of steps its programs
    give, and where it ends every rank has run its whole program and has the
    memory the kernel promises. *)
Lemma kernel_correct :
  (forall m c, nsteps (step fn SPS stepLen owner) m (initConfig P mem0 start fifo0) c ->
     (m <= weight (initConfig P mem0 start fifo0))%nat) /\
  (forall c, reachable c ->
     (exists c', step fn SPS stepLen owner c c') \/
     (forall i, finished (cn c i)) /\
     exists k, (forall i, k i = length (P i)) /\ forall g, good g k (cm c g)).
Proof.
  split.
  - intros m c Hm. pose proof (steps_weight _ _ _ _ _ inv_init Hm). lia.
  - intros c (k & b & Hinv)%reachable_inv.
    destruct (progress c k b Hinv) as [Hfin|Hs]; [right|by left]. split; [done|].
    exists k. split; [|apply (inv_mem _ _ _ Hinv)]. intros i.
    destruct (Hfin i) as [Ep _]. destruct (inv_node _ _ _ Hinv i). rewrite ni_prog0 in Ep.
    apply (f_equal length) in Ep. rewrite length_drop in Ep. simpl in Ep. lia.
Qed.
End safety.

(** Any interleaving of a kernel ends, and ends well: no run is longer than
    some bound, a state in which no process can move has every process finished,
    and then the memory of each one's rank satisfies [Post]. *)
Definition runsTo {T} (fn : redFn T) (SPS stepLen : Z) (owner : nat -> nat) (n : nat) (c0 : config T)
    (Post : nat -> mem T -> Prop) : Prop :=
  (exists B, forall m c, nsteps (step fn SPS stepLen owner) m c0 c -> (m <= B)%nat) /\
  (forall c, rtc (step fn SPS stepLen owner) c0 c ->
     (exists c', step fn SPS stepLen owner c c') \/
     forall i, (i < n)%nat -> finished (cn c i) /\ Post (owner i) (cm c (owner i))).

Lemma kernel_runsTo {T} (fn : redFn T) SPS stepLen owner n P mem0 (K : Kernel fn SPS stepLen owner n P mem0)
    chunkSteps start fifo0 Post :
  0 < chunkSteps -> chunkSteps mod SPS = 0 ->
  (forall i k m, (i < n)%nat -> (forall j, k j = length (P j)) -> good (owner i) k m -> Post (owner i) m) ->
  runsTo fn SPS stepLen owner n (initConfig P mem0 (connStart chunkSteps start) fifo0) Post.
Proof.
  intros Hc Hd HPost. pose proof (kernel_step_pos (Kernel := K)) as Hs.
  assert (forall p q, connStart chunkSteps start p q mod SPS = 0) as Hstart.
  { intros p q. unfold connStart. destruct (roundUpTo_spec chunkSteps (start p q) Hc) as [[z ->] _].
    apply Z.mod_divide in Hd as [w ->]; [|lia]. rewrite Z.mul_assoc. by apply Z.mod_mul; lia. }
  destruct (kernel_correct fn SPS stepLen owner n P mem0 (connStart chunkSteps start) fifo0 Hstart) as [H1 H2]. split.
  - eexists. exact H1.
  - intros c Hr. destruct (H2 c Hr) as [H|[Hf (k & Hk & Hg)]]; [by left|right]. intros i Hi.
    split; [done|]. by apply (HPost i k).
Qed.

Lemma runsTo_weaken {T} (fn : redFn T) SPS stepLen owner n c0 (Post Post' : nat -> mem T -> Prop) :
  (forall i m, Post i m -> Post' i m) -> runsTo fn SPS stepLen owner n c0 Post -> runsTo fn SPS stepLen owner n c0 Post'.
Proof.
  intros HP [H1 H2]. split; [done|]. intros c Hc. destruct (H2 c Hc) as [|H]; [by left|right].
  intros i Hi. destruct (H i Hi) as [Hf Hp]. split; [done|by apply HP].
Qed.
