(* ===== verification/DevWork.v ===== *)
(** * Work descriptors of the device kernels (src/src/include/device.h, channel.h)

    How a collective's elements are spread over its channels, how a
    point-to-point transfer is cut into parts and which channel owns a part,
    and the row of the kernel table that serves a collective. *)

From stdpp Require Import base numbers list.
From Stdlib Require Import ZArith Lia.
From S2P Require Import Prelude Bitops.

Local Open Scope Z_scope.

(** ** Collectives: continuous-byte distribution *)

Definition WARP_SIZE : Z := 32.
Definition NCCL_LL128_LINEELEMS : Z := 128 / 8.
Definition NCCL_LL128_DATAELEMS : Z := NCCL_LL128_LINEELEMS - 1.
Definition NCCL_LL128_SHMEM_ELEMS_PER_THREAD : Z := 8.

(** Protocol numbers, in the order of the kernel tables. *)
Inductive ncclProto := NCCL_PROTO_LL | NCCL_PROTO_LL128 | NCCL_PROTO_SIMPLE.

(* src/src/include/device.h:331-337 ncclProtoGrainSize *)
Definition ncclProtoGrainSize (proto : ncclProto) : Z :=
  match proto with
  | NCCL_PROTO_LL => 16
  | NCCL_PROTO_LL128 =>
      WARP_SIZE * NCCL_LL128_SHMEM_ELEMS_PER_THREAD / NCCL_LL128_LINEELEMS * NCCL_LL128_DATAELEMS * 8
  | NCCL_PROTO_SIMPLE => 512
  end.

(** The fields of the descriptor the distribution uses. *)
(* src/src/include/device.h:290-319 ncclDevWorkColl *)
Record ncclDevWorkColl := {
  channelLo : Z; channelHi : Z;
  root : Z; sendbuff : Z; recvbuff : Z;
  countLo : Z; countMid : Z; countHi : Z;
  chunkGrainsLo : Z; chunkGrainsMid : Z; chunkGrainsHi : Z }.

Record cbdPart := { cbdCount : Z; partOffset : Z; partCount : Z; chunkCount : Z }.

(* src/src/include/device.h:339-364 ncclCollCbdPart *)
Definition ncclCollCbdPart (work : ncclDevWorkColl) (channelId : Z) (proto : ncclProto) (eltSize : Z) : cbdPart :=
  let eltPerGrain := ncclProtoGrainSize proto / eltSize in
  let nMidChannels := channelHi work - channelLo work - 1 in
  let count := countLo work + countMid work * nMidChannels + countHi work in
  if channelId =? channelLo work then
    {| cbdCount := count; partOffset := 0; partCount := countLo work;
       chunkCount := chunkGrainsLo work * eltPerGrain |}
  else if channelId =? channelHi work then
    {| cbdCount := count; partOffset := countLo work + nMidChannels * countMid work;
       partCount := countHi work; chunkCount := chunkGrainsHi work * eltPerGrain |}
  else
    let mid := channelId - channelLo work - 1 in
    {| cbdCount := count; partOffset := countLo work + mid * countMid work;
       partCount := countMid work; chunkCount := chunkGrainsMid work * eltPerGrain |}.

(** ** Point-to-point transfers *)

(** The bounds of a part, as computed on the host. *)
(* src/src/include/device.h:265-276 ncclP2pPartBounds *)
Definition ncclP2pPartBounds (nParts part bytes : Z) : Z * Z :=
  let partBytes := alignUp u64 (divUp u64 bytes nParts) (Z.shiftl 4 10) in
  (Z.min (wrap64 ((part + 0) * partBytes)) bytes, Z.min (wrap64 ((part + 1) * partBytes)) bytes).

(* src/src/include/device.h:283-285 ncclP2pChannelForPart *)
Definition ncclP2pChannelForPart (nP2pChannels base part : Z) : Z :=
  Z.land (cwrap i32 (base + part)) (nP2pChannels - 1).

(* src/src/include/device.h:286-288 ncclP2pChannelToPart *)
Definition ncclP2pChannelToPart (nP2pChannels base channel : Z) : Z :=
  Z.land (cwrap i32 (channel - base)) (nP2pChannels - 1).

Definition NCCL_MAX_DEV_WORK_P2P_PER_BATCH : Z := 8.

(* src/src/include/channel.h:22-39 ncclP2pChannelBaseForRound *)
Definition ncclP2pChannelBaseForRound (nNodes p2pSchedGroupSize p2pnChannels p2pRound : Z) : Z :=
  let base :=
    if 1 <? nNodes then
      let groupDelta := p2pRound / p2pSchedGroupSize in
      let localDelta := p2pRound mod p2pSchedGroupSize in
      groupDelta * divUp i32 p2pSchedGroupSize NCCL_MAX_DEV_WORK_P2P_PER_BATCH
      + localDelta / NCCL_MAX_DEV_WORK_P2P_PER_BATCH
    else p2pRound in
  cwrap u8 (reverseBits i32 base (log2Up i32 p2pnChannels)).

(** ** The kernel table *)

(* src/src/include/nccl_common.h:75-92 ncclFunc_t *)
Inductive ncclFunc_t :=
  | ncclFuncBroadcast | ncclFuncReduce | ncclFuncAllGather | ncclFuncReduceScatter | ncclFuncAllReduce
  | ncclFuncSendRecv | ncclFuncSend | ncclFuncRecv | ncclFuncAlltoAll | ncclFuncScatter | ncclFuncGather
  | ncclFuncAllGatherV | ncclFuncPutSignal | ncclFuncSignal | ncclFuncWaitSignal.

Inductive ncclAlgo :=
  | NCCL_ALGO_TREE | NCCL_ALGO_RING | NCCL_ALGO_COLLNET_DIRECT | NCCL_ALGO_COLLNET_CHAIN
  | NCCL_ALGO_NVLS | NCCL_ALGO_NVLS_TREE | NCCL_ALGO_PAT.

Definition algoNum (a : ncclAlgo) : Z :=
  match a with
  | NCCL_ALGO_TREE => 0 | NCCL_ALGO_RING => 1 | NCCL_ALGO_COLLNET_DIRECT => 2 | NCCL_ALGO_COLLNET_CHAIN => 3
  | NCCL_ALGO_NVLS => 4 | NCCL_ALGO_NVLS_TREE => 5 | NCCL_ALGO_PAT => 6
  end.

Definition protoNum (p : ncclProto) : Z :=
  match p with NCCL_PROTO_LL => 0 | NCCL_PROTO_LL128 => 1 | NCCL_PROTO_SIMPLE => 2 end.

Definition NCCL_NUM_PROTOCOLS : Z := 3.
Definition ncclNumTypes : Z := 12.
(* src/src/include/device.h:62-69 ncclDevRedOp_t *)
Definition ncclNumDevRedOps : Z := 5.

#[global] Instance ncclFunc_t_eq_dec : EqDecision ncclFunc_t.
Proof. solve_decision. Defined.

(** The row of the table; the table itself is generated with the kernels. *)
(* src/src/include/device.h:653-713 ncclDevFuncId *)
Definition ncclDevFuncRow (coll : ncclFunc_t) (devRedOp type : Z) (algo : ncclAlgo) (proto : ncclProto) : Z :=
  let NumTypes := ncclNumTypes in
  let proto := protoNum proto in
  let algo1 := match algo with
    | NCCL_ALGO_RING => 0 | NCCL_ALGO_COLLNET_DIRECT => 1 | NCCL_ALGO_NVLS => 2 | _ => 3 end in
  let row := 0 in
  if decide (coll = ncclFuncSendRecv) then row else
  let row := row + 1 in
  let nAlgos := 4 in
  if decide (coll = ncclFuncAllGather) then row + (algo1 * NCCL_NUM_PROTOCOLS + proto) else
  let row := row + nAlgos * NCCL_NUM_PROTOCOLS in
  let nAlgos := 1 in
  if decide (coll = ncclFuncBroadcast) then row + proto else
  let row := row + nAlgos * NCCL_NUM_PROTOCOLS in
  let nAlgos := 1 in
  if decide (coll = ncclFuncAllGatherV) then row + proto else
  let row := row + nAlgos * NCCL_NUM_PROTOCOLS in
  let nAlgos := 6 in
  if decide (coll = ncclFuncAllReduce)
  then row + (((devRedOp * NumTypes + type) * nAlgos + algoNum algo) * NCCL_NUM_PROTOCOLS + proto) else
  let row := row + ncclNumDevRedOps * NumTypes * nAlgos * NCCL_NUM_PROTOCOLS in
  let nAlgos := 1 in
  if decide (coll = ncclFuncReduce)
  then row + ((devRedOp * NumTypes + type) * NCCL_NUM_PROTOCOLS + proto) else
  let row := row + ncclNumDevRedOps * NumTypes * nAlgos * NCCL_NUM_PROTOCOLS in
  let nAlgos := 4 in
  if decide (coll = ncclFuncReduceScatter)
  then row + (((devRedOp * NumTypes + type) * nAlgos + algo1) * NCCL_NUM_PROTOCOLS + proto)
  else row + ncclNumDevRedOps * NumTypes * nAlgos * NCCL_NUM_PROTOCOLS.

(** The algorithms each collective has kernels for. *)
Definition hasKernel (coll : ncclFunc_t) (algo : ncclAlgo) : bool :=
  match coll, algo with
  | ncclFuncSendRecv, NCCL_ALGO_RING => true
  | (ncclFuncAllGather | ncclFuncReduceScatter), (NCCL_ALGO_RING | NCCL_ALGO_COLLNET_DIRECT | NCCL_ALGO_NVLS | NCCL_ALGO_PAT) => true
  | (ncclFuncBroadcast | ncclFuncAllGatherV | ncclFuncReduce), NCCL_ALGO_RING => true
  | ncclFuncAllReduce, NCCL_ALGO_PAT => false
  | ncclFuncAllReduce, _ => true
  | _, _ => false
  end.

(** ** Theorems *)

(** What the host fills in: with one channel there are no others to count. *)
Definition cbd_ok (work : ncclDevWorkColl) : Prop :=
  0 <= channelLo work <= channelHi work /\
  0 <= countLo work /\ 0 <= countMid work /\ 0 <= countHi work /\
  (channelLo work = channelHi work -> countMid work = 0 /\ countHi work = 0).

(** The parts of the channels partition the elements of a collective: each
    element below the total count belongs to the part of exactly one channel,
    and no part reaches beyond the total. *)
Lemma ncclCollCbdPart_partition work proto eltSize x :
  cbd_ok work ->
  let part c := ncclCollCbdPart work c proto eltSize in
  let inPart c := partOffset (part c) <= x < partOffset (part c) + partCount (part c) in
  let inRange c := channelLo work <= c <= channelHi work in
  (0 <= x < cbdCount (part (channelLo work)) ->
     exists c, inRange c /\ inPart c /\ forall c', inRange c' -> inPart c' -> c' = c) /\
  (forall c, inRange c -> inPart c -> 0 <= x < cbdCount (part (channelLo work))).
Proof.
  intros (Hch & Hlo & Hmid & Hhi & Hone). cbn zeta.
  set (lo := channelLo work) in *. set (hi := channelHi work) in *.
  set (nl := countLo work) in *. set (nm := countMid work) in *. set (nh := countHi work) in *.
  assert (forall c, lo <= c <= hi ->
    partOffset (ncclCollCbdPart work c proto eltSize) = (if c =? lo then 0 else nl + (c - lo - 1) * nm) /\
    partCount (ncclCollCbdPart work c proto eltSize) = (if c =? lo then nl else if c =? hi then nh else nm) /\
    cbdCount (ncclCollCbdPart work c proto eltSize) = nl + nm * (hi - lo - 1) + nh) as E.
  { intros c Hc. unfold ncclCollCbdPart. fold lo hi nl nm nh.
    destruct (Z.eqb_spec c lo); [done|]. destruct (Z.eqb_spec c hi) as [->|]; simpl; [|done]. lia. }
  destruct (E lo ltac:(lia)) as (_ & _ & ->). split.
  - intros Hx. destruct (Z.lt_ge_cases x nl) as [H|H].
    { exists lo. destruct (E lo ltac:(lia)) as (-> & -> & _). rewrite Z.eqb_refl.
      split_and!; [lia|lia|lia|lia|]. intros c' Hc' Hp. destruct (E c' Hc') as (E1 & E2 & _). rewrite E1, E2 in Hp.
      destruct (Z.eqb_spec c' lo); [done|]. destruct (Z.eqb_spec c' hi); nia. }
    assert (lo < hi) by (destruct (Z.eq_dec lo hi) as [e|]; [destruct (Hone e); nia|lia]).
    destruct (Z.lt_ge_cases x (nl + nm * (hi - lo - 1))) as [H'|H'].
    + assert (0 < nm) by nia. set (d := (x - nl) / nm).
      assert (d * nm <= x - nl < d * nm + nm /\ 0 <= d < hi - lo - 1) as [D1 D2].
      { unfold d. pose proof (Z.div_mod (x - nl) nm ltac:(lia)). pose proof (Z.mod_pos_bound (x - nl) nm ltac:(lia)).
        split; [nia|]. split; [apply Z.div_pos; lia|apply Z.div_lt_upper_bound; nia]. }
      exists (lo + 1 + d). destruct (E (lo + 1 + d) ltac:(lia)) as (-> & -> & _).
      destruct (Z.eqb_spec (lo + 1 + d) lo); [lia|]. destruct (Z.eqb_spec (lo + 1 + d) hi); [lia|].
      replace (lo + 1 + d - lo - 1) with d by lia. split_and!; [lia|lia|lia|lia|].
      intros c' Hc' Hp. destruct (E c' Hc') as (E1 & E2 & _). rewrite E1, E2 in Hp.
      destruct (Z.eqb_spec c' lo); [lia|].
      assert (c' - lo - 1 = d); [|lia]. destruct (Z.eqb_spec c' hi); nia.
    + exists hi. destruct (E hi ltac:(lia)) as (-> & -> & _).
      destruct (Z.eqb_spec hi lo); [lia|]. rewrite Z.eqb_refl. split_and!; [lia|lia|nia|nia|].
      intros c' Hc' Hp. destruct (E c' Hc') as (E1 & E2 & _). rewrite E1, E2 in Hp.
      destruct (Z.eqb_spec c' lo); [lia|]. destruct (Z.eqb_spec c' hi); [done|]. nia.
  - intros c Hc Hp. destruct (E c Hc) as (E1 & E2 & _). rewrite E1, E2 in Hp.
    destruct (Z.eqb_spec c lo) as [->|].
    { destruct (Z.eq_dec lo hi) as [e|]; [destruct (Hone e); nia|nia]. }
    destruct (Z.eqb_spec c hi); nia.
Qed.

(** The size of a part: the even share rounded up to 4 KiB. *)
Lemma partBytes_eq nParts bytes :
  0 < nParts -> 0 <= bytes -> bytes + nParts + 4096 < 2 ^ 64 ->
  exists q, alignUp u64 (divUp u64 bytes nParts) (Z.shiftl 4 10) = q * 4096 /\ 0 <= q /\
    bytes <= nParts * (q * 4096) < bytes + nParts * 4096.
Proof.
  intros Hn Hb Hm. rewrite divUp_eq by auto with widths.
  set (d := (bytes + nParts - 1) / nParts).
  assert (d * nParts <= bytes + nParts - 1 < d * nParts + nParts) as Hd.
  { unfold d. pose proof (Z.div_mod (bytes + nParts - 1) nParts ltac:(lia)).
    pose proof (Z.mod_pos_bound (bytes + nParts - 1) nParts ltac:(lia)). nia. }
  assert (0 <= d) by (apply Z.div_pos; lia).
  change (Z.shiftl 4 10) with (2 ^ 12).
  rewrite alignUp_eq; [|lia|simpl; lia|lia|unfold fits, cmin, cmax, u64; cbn [csigned cwidth]; nia].
  destruct (roundUpTo_spec (2 ^ 12) d ltac:(lia)) as [[q Hq] Hr]. exists q.
  change (2 ^ 12) with 4096 in *. rewrite Hq in *. split; [done|]. split; nia.
Qed.

(** the parts of a point-to-point transfer tile it: the first starts at 0,
    each ends where the next begins, the last ends at the number of bytes, and
    every interior boundary is a multiple of 4 KiB. *)
Lemma ncclP2pPartBounds_tiling nParts bytes part :
  0 < nParts -> 0 <= bytes -> 0 <= part < nParts -> bytes + nParts * 4097 + 4096 < 2 ^ 64 ->
  let beg p := fst (ncclP2pPartBounds nParts p bytes) in
  let fin p := snd (ncclP2pPartBounds nParts p bytes) in
  beg 0 = 0 /\ fin (nParts - 1) = bytes /\ fin part = beg (part + 1) /\ beg part <= fin part <= bytes /\
  (beg part < bytes -> (4096 | beg part)).
Proof.
  intros Hn Hb Hp Hm. cbn zeta. unfold ncclP2pPartBounds.
  destruct (partBytes_eq nParts bytes Hn Hb ltac:(lia)) as (q & -> & Hq & Hl). cbn [fst snd].
  assert (forall p, 0 <= p <= nParts -> wrap64 (p * (q * 4096)) = p * (q * 4096)) as W.
  { intros p Hp'. apply wrap64_small. split; [nia|]. assert (p * (q * 4096) <= nParts * (q * 4096)) by nia. lia. }
  rewrite !Z.add_0_r. replace (nParts - 1 + 1) with nParts by lia. rewrite !W by lia.
  split_and!; try lia.
  intros Hlt. rewrite Z.min_l by lia. exists (part * q). lia.
Qed.

Lemma ncclP2pPartBounds_tiling_example :
  snd (ncclP2pPartBounds 3 1 20000) = fst (ncclP2pPartBounds 3 2 20000) /\
  snd (ncclP2pPartBounds 3 2 20000) = 20000.
Proof.
  destruct (ncclP2pPartBounds_tiling 3 20000 1 ltac:(lia) ltac:(lia) ltac:(lia) ltac:(lia)) as (_ & H2 & H3 & _).
  split; [exact H3|exact H2].
Defined.

Lemma land_pow2_mod x k : 0 <= k -> Z.land x (2 ^ k - 1) = x mod 2 ^ k.
Proof. intros Hk. rewrite <- Z.land_ones by done. by rewrite Z.ones_equiv. Qed.

(** for a power-of-two number of channels the channel of a part and the
    part of a channel are inverse maps, for every base. *)
Lemma ncclP2pChannel_inverse k base x :
  0 <= k < 31 -> 0 <= base < 2 ^ k -> 0 <= x < 2 ^ k ->
  ncclP2pChannelToPart (2 ^ k) base (ncclP2pChannelForPart (2 ^ k) base x) = x /\
  ncclP2pChannelForPart (2 ^ k) base (ncclP2pChannelToPart (2 ^ k) base x) = x /\
  0 <= ncclP2pChannelForPart (2 ^ k) base x < 2 ^ k.
Proof.
  intros Hk Hb Hx. unfold ncclP2pChannelToPart, ncclP2pChannelForPart.
  assert (0 < 2 ^ k <= 2 ^ 30) as Hp by (split; [lia|apply Z.pow_le_mono_r; lia]).
  rewrite !land_pow2_mod by lia.
  assert (forall z, - 2 ^ 31 <= z < 2 ^ 31 -> cwrap i32 z = z) as W.
  { intros z Hz. apply cwrap_fits; [done|]. fits_lia. }
  pose proof (Z.mod_pos_bound (base + x) (2 ^ k) ltac:(lia)).
  pose proof (Z.mod_pos_bound (x - base) (2 ^ k) ltac:(lia)).
  rewrite (W (base + x)), (W (x - base)) by lia.
  rewrite !W by lia. split_and!; [| |lia|lia].
  - rewrite Zminus_mod_idemp_l. replace (base + x - base) with x by lia. by apply Z.mod_small.
  - rewrite Zplus_mod_idemp_r. replace (base + (x - base)) with x by lia. by apply Z.mod_small.
Qed.

Lemma ncclP2pChannel_inverse_example :
  ncclP2pChannelToPart 16 13 (ncclP2pChannelForPart 16 13 7) = 7.
Proof. apply (ncclP2pChannel_inverse 4 13 7); lia. Defined.

(** The batch a round of the schedule falls in: rounds are grouped by node, and
    a batch holds up to eight rounds of one group. *)
Definition roundBatch (nNodes groupSize r : Z) : Z :=
  if 1 <? nNodes
  then r / groupSize * ((groupSize + 7) / 8) + r mod groupSize / 8
  else r.

Lemma channelBase_eq nNodes groupSize k r :
  0 <= k <= 6 -> 0 <= r -> 0 < groupSize -> groupSize < 2 ^ 30 -> 0 <= roundBatch nNodes groupSize r < 2 ^ k ->
  ncclP2pChannelBaseForRound nNodes groupSize (2 ^ k) r = reverseBits u32 (roundBatch nNodes groupSize r) k /\
  0 <= reverseBits u32 (roundBatch nNodes groupSize r) k < 2 ^ k.
Proof.
  intros Hk Hr Hg Hg' Hb. assert (2 ^ k <= 2 ^ 6) by (apply Z.pow_le_mono_r; lia).
  assert (0 < 2 ^ k) by lia.
  unfold ncclP2pChannelBaseForRound.
  rewrite log2Up_eq, Z.log2_up_pow2 by auto with widths.
  unfold NCCL_MAX_DEV_WORK_P2P_PER_BATCH.
  rewrite divUp_eq by auto with widths.
  replace (groupSize + 8 - 1) with (groupSize + 7) by lia.
  change (cwrap u8 (reverseBits i32 (roundBatch nNodes groupSize r) k) = reverseBits u32 (roundBatch nNodes groupSize r) k
    /\ 0 <= reverseBits u32 (roundBatch nNodes groupSize r) k < 2 ^ k).
  destruct (reverseBits_i32 (roundBatch nNodes groupSize r) k) as [-> Hlt]; [lia|lia|].
  split; [|done]. unfold cwrap. simpl. apply Z.mod_small. lia.
Qed.

(** rounds of the point-to-point schedule share a base channel exactly when
    they fall in one batch: on one node each round has its own channel, across
    nodes eight consecutive rounds of a group share one; the base is always a
    valid channel. *)
Lemma ncclP2pChannelBase_per_batch nNodes groupSize k r1 r2 :
  0 <= k <= 6 -> 0 < groupSize < 2 ^ 30 -> 0 <= r1 -> 0 <= r2 ->
  0 <= roundBatch nNodes groupSize r1 < 2 ^ k -> 0 <= roundBatch nNodes groupSize r2 < 2 ^ k ->
  let base := ncclP2pChannelBaseForRound nNodes groupSize (2 ^ k) in
  0 <= base r1 < 2 ^ k /\
  (base r1 = base r2 <->
   if 1 <? nNodes
   then r1 / groupSize = r2 / groupSize /\ r1 mod groupSize / 8 = r2 mod groupSize / 8
   else r1 = r2).
Proof.
  intros Hk Hg H1 H2 Hb1 Hb2 base. unfold base.
  destruct (channelBase_eq nNodes groupSize k r1) as [-> Hr1]; [lia..|].
  destruct (channelBase_eq nNodes groupSize k r2) as [-> Hr2]; [lia..|]. split; [done|].
  transitivity (roundBatch nNodes groupSize r1 = roundBatch nNodes groupSize r2).
  { split; [apply reverseBits_inj; lia|by intros ->]. }
  clear Hr1 Hr2 Hb1 Hb2. unfold roundBatch. destruct (1 <? nNodes); [|done].
  assert (forall r, 0 <= r -> 0 <= r mod groupSize / 8 < (groupSize + 7) / 8) as B.
  { intros r Hr. pose proof (Z.mod_pos_bound r groupSize ltac:(lia)). split; [apply Z.div_pos; lia|].
    apply Z.div_lt_upper_bound; [lia|]. pose proof (Z.div_mod (groupSize + 7) 8 ltac:(lia)).
    pose proof (Z.mod_pos_bound (groupSize + 7) 8 ltac:(lia)). lia. }
  pose proof (B r1 H1). pose proof (B r2 H2). split; [|by intros [-> ->]].
  intros E. assert (r1 / groupSize = r2 / groupSize) as Eg by nia. rewrite Eg in *. split; [done|lia].
Qed.

Lemma ncclP2pChannelBase_per_batch_example :
  0 <= ncclP2pChannelBaseForRound 2 12 16 3 < 16 /\
  (ncclP2pChannelBaseForRound 2 12 16 3 = ncclP2pChannelBaseForRound 2 12 16 5 <->
   3 / 12 = 5 / 12 /\ 3 mod 12 / 8 = 5 mod 12 / 8).
Proof.
  apply (ncclP2pChannelBase_per_batch 2 12 4 3 5); [lia|lia|lia|lia|vm_compute; split; [intros ?; discriminate|reflexivity]..].
Defined.

(** ** Kernel rows *)

Definition reduces (coll : ncclFunc_t) : bool :=
  match coll with ncclFuncAllReduce | ncclFuncReduce | ncclFuncReduceScatter => true | _ => false end.

(** The arguments that select a kernel; the operator and the type only count
    for a collective that reduces. *)
Definition kernelArgs (coll : ncclFunc_t) (op type : Z) (algo : ncclAlgo) (proto : ncclProto) : Prop :=
  hasKernel coll algo = true /\
  (if reduces coll then 0 <= op < ncclNumDevRedOps /\ 0 <= type < ncclNumTypes else op = 0 /\ type = 0) /\
  (coll = ncclFuncSendRecv -> proto = NCCL_PROTO_SIMPLE).

(** The kernels in the order of the table. *)
Definition protos : list ncclProto := [NCCL_PROTO_LL; NCCL_PROTO_LL128; NCCL_PROTO_SIMPLE].
Definition algos4 : list ncclAlgo := [NCCL_ALGO_RING; NCCL_ALGO_COLLNET_DIRECT; NCCL_ALGO_NVLS; NCCL_ALGO_PAT].
Definition algos6 : list ncclAlgo :=
  [NCCL_ALGO_TREE; NCCL_ALGO_RING; NCCL_ALGO_COLLNET_DIRECT; NCCL_ALGO_COLLNET_CHAIN; NCCL_ALGO_NVLS; NCCL_ALGO_NVLS_TREE].

Definition kernel : Type := ncclFunc_t * Z * Z * ncclAlgo * ncclProto.

Definition rowsOf (coll : ncclFunc_t) (ops types : list Z) (algos : list ncclAlgo) (ps : list ncclProto) : list kernel :=
  flat_map (fun op => flat_map (fun ty => flat_map (fun a => map (fun p => (coll, op, ty, a, p)) ps) algos) types) ops.

Definition kernelTable : list kernel :=
  rowsOf ncclFuncSendRecv [0] [0] [NCCL_ALGO_RING] [NCCL_PROTO_SIMPLE] ++
  rowsOf ncclFuncAllGather [0] [0] algos4 protos ++
  rowsOf ncclFuncBroadcast [0] [0] [NCCL_ALGO_RING] protos ++
  rowsOf ncclFuncAllGatherV [0] [0] [NCCL_ALGO_RING] protos ++
  rowsOf ncclFuncAllReduce (seqZ 0 5) (seqZ 0 12) algos6 protos ++
  rowsOf ncclFuncReduce (seqZ 0 5) (seqZ 0 12) [NCCL_ALGO_RING] protos ++
  rowsOf ncclFuncReduceScatter (seqZ 0 5) (seqZ 0 12) algos4 protos.

Definition kernelRow (k : kernel) : Z :=
  let '(coll, op, ty, a, p) := k in ncclDevFuncRow coll op ty a p.

Lemma kernelTable_rows : map kernelRow kernelTable = seqZ 0 1999.
Proof. vm_compute. reflexivity. Qed.

Lemma rowsOf_in coll ops types algos ps op ty a p :
  In op ops -> In ty types -> In a algos -> In p ps -> In (coll, op, ty, a, p) (rowsOf coll ops types algos ps).
Proof.
  intros H1 H2 H3 H4. unfold rowsOf. apply in_flat_map. exists op. split; [done|].
  apply in_flat_map. exists ty. split; [done|]. apply in_flat_map. exists a. split; [done|].
  apply in_map_iff. by exists p.
Qed.

Ltac in_row :=
  apply rowsOf_in;
  [(simpl; tauto) || (apply list_elem_of_In, elem_of_seqZ; unfold ncclNumDevRedOps in *; lia)
  |(simpl; tauto) || (apply list_elem_of_In, elem_of_seqZ; unfold ncclNumTypes in *; lia)
  |match goal with |- In ?a _ => destruct a; (discriminate || (simpl; tauto)) end
  |done || (simpl; tauto)].

Ltac find_row := first [solve [left; in_row] | right; find_row | solve [in_row]].

Lemma kernelArgs_in coll op ty a p : kernelArgs coll op ty a p -> In (coll, op, ty, a, p) kernelTable.
Proof.
  intros (Hk & Hop & Hp). assert (In p protos) as Hps by (destruct p; simpl; tauto).
  unfold kernelTable. rewrite !in_app_iff.
  destruct coll; simpl in Hop, Hk; try done;
    (destruct Hop as [Hop Hty]; try subst op ty; try (rewrite (Hp eq_refl) in *));
    find_row.
Qed.

(** the kernel table has one row per kernel: the rows of distinct kernels
    are distinct, every row below the size of the table is the row of some
    kernel, and no kernel's row is outside the table. *)
Lemma ncclDevFuncRow_bijective :
  (forall coll op ty a p, kernelArgs coll op ty a p -> 0 <= ncclDevFuncRow coll op ty a p < 1999) /\
  (forall coll op ty a p coll' op' ty' a' p', kernelArgs coll op ty a p -> kernelArgs coll' op' ty' a' p' ->
     ncclDevFuncRow coll op ty a p = ncclDevFuncRow coll' op' ty' a' p' ->
     (coll, op, ty, a, p) = (coll', op', ty', a', p')) /\
  (forall r, 0 <= r < 1999 -> exists coll op ty a p, ncclDevFuncRow coll op ty a p = r).
Proof.
  split_and!.
  - intros coll op ty a p H%kernelArgs_in%(in_map kernelRow). rewrite kernelTable_rows in H.
    apply list_elem_of_In, elem_of_seqZ in H. simpl in H. lia.
  - intros coll op ty a p coll' op' ty' a' p' H%kernelArgs_in H'%kernelArgs_in E.
    apply list_elem_of_In, list_elem_of_lookup in H as [i Hi].
    apply list_elem_of_In, list_elem_of_lookup in H' as [j Hj].
    assert (forall k x, kernelTable !! k = Some x -> kernelRow x = Z.of_nat k) as R.
    { intros k x Hx. apply (f_equal (fmap kernelRow)) in Hx.
      change (fmap kernelRow (kernelTable !! k)) with (kernelRow <$> kernelTable !! k) in Hx.
      rewrite <- list_lookup_fmap in Hx.
      change (kernelRow <$> kernelTable) with (map kernelRow kernelTable) in Hx.
      rewrite kernelTable_rows in Hx. apply lookup_seqZ in Hx. simpl in Hx. lia. }
    pose proof (R _ _ Hi) as Ri. pose proof (R _ _ Hj) as Rj. simpl in Ri, Rj.
    assert (i = j) as -> by lia. congruence.
  - intros r Hr. assert (In r (map kernelRow kernelTable)) as H.
    { rewrite kernelTable_rows. apply list_elem_of_In, elem_of_seqZ. lia. }
    apply in_map_iff in H as ([[[[coll op] ty] a] p] & <- & _). by exists coll, op, ty, a, p.
Qed.

Lemma ncclDevFuncRow_bijective_example :
  kernelArgs ncclFuncAllReduce 2 7 NCCL_ALGO_RING NCCL_PROTO_SIMPLE /\
  0 <= ncclDevFuncRow ncclFuncAllReduce 2 7 NCCL_ALGO_RING NCCL_PROTO_SIMPLE < 1999.
Proof.
  assert (kernelArgs ncclFuncAllReduce 2 7 NCCL_ALGO_RING NCCL_PROTO_SIMPLE) as H.
  { repeat split; try discriminate; unfold ncclNumDevRedOps, ncclNumTypes; lia. }
  split; [exact H|apply (proj1 ncclDevFuncRow_bijective), H].
Defined.
