(* ===== verification/Loops.v ===== *)
(** * Loops over the elements of a collective

    Every kernel is a loop over chunks of elements whose body makes the same
    primitive calls, and every call is a sequence of slices.  This file gives
    the loop, the shape of the programs it produces, and the slice an element
    belongs to. *)

From stdpp Require Import base numbers list.
From Stdlib Require Import ZArith Lia.
From S2P Require Import Prelude Bitops Prims.

Local Open Scope Z_scope.

(** [for (elemOffset = 0; elemOffset < count; elemOffset += stride)]; the body
    sees the offset.  One unit of fuel is one iteration. *)
Fixpoint forElems {A} (fuel : nat) (elemOffset count stride : Z) (body : Z -> list A) : list A :=
  match fuel with
  | O => []
  | S fuel =>
      if elemOffset <? count
      then body elemOffset ++ forElems fuel (elemOffset + stride) count stride body
      else []
  end.

Definition loopFuel (count stride : Z) : nat := Z.to_nat ((count + stride - 1) / stride).

(** ** Shape of the programs *)

Lemma forElems_eq {A} (body : Z -> list A) count stride fuel a :
  0 < stride -> count <= Z.of_nat (a + fuel) * stride ->
  (fuel = 0%nat \/ Z.of_nat (a + fuel - 1) * stride < count) ->
  forElems fuel (Z.of_nat a * stride) count stride body =
  flat_map (fun l => body (Z.of_nat l * stride)) (seq a fuel).
Proof.
  intros Hs. revert a. induction fuel as [|fuel IH]; intros a Hc Hl; [done|].
  cbn [forElems seq flat_map]. destruct Hl as [|Hl]; [done|].
  rewrite (proj2 (Z.ltb_lt _ _)) by nia. f_equal.
  replace (Z.of_nat a * stride + stride) with (Z.of_nat (S a) * stride) by lia.
  apply IH; [by replace (S a + fuel)%nat with (a + S fuel)%nat by lia|].
  destruct fuel; [by left|right]. by replace (S a + S fuel - 1)%nat with (a + S (S fuel) - 1)%nat by lia.
Qed.

(** The number of iterations of a loop over [count] elements. *)
Lemma loopFuel_spec count stride :
  0 < stride -> 0 <= count ->
  count <= Z.of_nat (loopFuel count stride) * stride /\
  (loopFuel count stride = 0%nat \/ Z.of_nat (loopFuel count stride - 1) * stride < count).
Proof.
  intros Hs Hc. unfold loopFuel. set (d := (count + stride - 1) / stride).
  assert (0 <= d) by (apply Z.div_pos; lia).
  pose proof (Z.div_mod (count + stride - 1) stride ltac:(lia)) as E. fold d in E.
  pose proof (Z.mod_pos_bound (count + stride - 1) stride ltac:(lia)).
  split; [nia|]. destruct (Z.eq_dec d 0) as [->|]; [by left|right].
  replace (Z.of_nat (Z.to_nat d - 1)) with (d - 1) by lia. nia.
Qed.

Lemma forElems_loop {A} (body : Z -> list A) count stride :
  0 < stride -> 0 <= count ->
  forElems (loopFuel count stride) 0 count stride body =
  flat_map (fun l => body (Z.of_nat l * stride)) (seq 0 (loopFuel count stride)).
Proof.
  intros Hs Hc. destruct (loopFuel_spec count stride Hs Hc) as [H1 H2].
  by apply (forElems_eq body count stride _ 0).
Qed.

(** The iteration an element belongs to. *)
Lemma loop_of count stride x :
  0 < stride -> 0 <= x < count -> (Z.to_nat (x / stride) < loopFuel count stride)%nat.
Proof.
  intros Hs Hx. destruct (loopFuel_spec count stride Hs ltac:(lia)) as [H _].
  assert (0 <= x / stride) by (apply Z.div_pos; lia).
  assert (x / stride < Z.of_nat (loopFuel count stride)); [|lia]. apply Z.div_lt_upper_bound; nia.
Qed.

Lemma length_flat_map_const {A B} (f : A -> list B) m l :
  (forall x, length (f x) = m) -> length (flat_map f l) = (length l * m)%nat.
Proof. intros H. induction l as [|x l IH]; [done|]. simpl. rewrite length_app, H, IH. lia. Qed.

Lemma lookup_flat_map_seq {B} (f : nat -> list B) m a n k :
  (forall x, length (f x) = m) -> (0 < m)%nat -> (k < n * m)%nat ->
  flat_map f (seq a n) !! k = f (a + k / m)%nat !! (k mod m)%nat.
Proof.
  intros Hf Hm. revert a k. induction n as [|n IH]; intros a k Hk; [lia|]. cbn [seq flat_map].
  destruct (Nat.lt_ge_cases k m) as [H|H].
  - rewrite lookup_app_l by (by rewrite Hf). rewrite Nat.div_small, Nat.mod_small by done. by rewrite Nat.add_0_r.
  - rewrite lookup_app_r by (by rewrite Hf). rewrite Hf, (IH (S a)) by lia.
    assert (k = (k - m) + 1 * m)%nat as E by lia.
    rewrite E at 3 4. rewrite Nat.div_add, Nat.Div0.mod_add by lia. f_equal. f_equal. lia.
Qed.

(** A program of [L] loops of [D] calls of [S] slices each, by index. *)
Definition blocks {B} (L D S : nat) (op : nat -> nat -> nat -> B) : list B :=
  flat_map (fun l => flat_map (fun o => map (op l o) (seq 0 S)) (seq 0 D)) (seq 0 L).

Lemma blocks_length {B} L D S (op : nat -> nat -> nat -> B) : length (blocks L D S op) = (L * (D * S))%nat.
Proof.
  unfold blocks. rewrite (length_flat_map_const _ (D * S)), length_seq; [done|]. intros l.
  rewrite (length_flat_map_const _ S), length_seq; [done|]. intros o. by rewrite length_map, length_seq.
Qed.

Lemma blocks_lookup {B} L D S (op : nat -> nat -> nat -> B) k :
  (0 < D)%nat -> (0 < S)%nat -> (k < L * (D * S))%nat ->
  blocks L D S op !! k = Some (op (k / (D * S)) (k mod (D * S) / S) (k mod (D * S) mod S))%nat.
Proof.
  intros HD HS Hk. unfold blocks.
  assert (forall l o, length (map (op l o) (seq 0 S)) = S) as H1 by (intros; by rewrite length_map, length_seq).
  rewrite (lookup_flat_map_seq _ (D * S)); [|intros l; by rewrite (length_flat_map_const _ S), length_seq|lia|done].
  pose proof (Nat.mod_upper_bound k (D * S) ltac:(lia)).
  rewrite (lookup_flat_map_seq _ S); [|done|done|lia].
  rewrite list_lookup_fmap, lookup_seq_lt; [done|]. apply Nat.mod_upper_bound. lia.
Qed.

(** Index arithmetic of a block. *)
Lemma block_index D S k :
  (0 < D)%nat -> (0 < S)%nat ->
  let r := (k mod (D * S))%nat in
  (r / S < D /\ r mod S < S /\ k = k / (D * S) * (D * S) + r / S * S + r mod S)%nat.
Proof.
  intros HD HS r. pose proof (Nat.div_mod_eq k (D * S)). pose proof (Nat.mod_upper_bound k (D * S) ltac:(lia)).
  fold r in H, H0. pose proof (Nat.div_mod_eq r S). pose proof (Nat.mod_upper_bound r S ltac:(lia)).
  split_and!; [apply Nat.Div0.div_lt_upper_bound; lia|done|lia].
Qed.

Lemma block_bound L D S l o s :
  (l < L)%nat -> (o < D)%nat -> (s < S)%nat -> (l * (D * S) + o * S + s < L * (D * S))%nat.
Proof.
  intros Hl Ho Hs. assert (o * S + s < D * S)%nat by nia.
  assert ((l + 1) * (D * S) <= L * (D * S))%nat by (apply Nat.mul_le_mono_r; lia). lia.
Qed.

Lemma block_index_unique D S l o s :
  (o < D)%nat -> (s < S)%nat ->
  let k := (l * (D * S) + o * S + s)%nat in
  (k / (D * S) = l /\ k mod (D * S) = o * S + s /\ (k mod (D * S)) / S = o /\ (k mod (D * S)) mod S = s)%nat.
Proof.
  intros Ho Hs k. assert (o * S + s < D * S)%nat by nia.
  assert (k / (D * S) = l)%nat as E1 by (symmetry; apply (Nat.div_unique k (D * S) l (o * S + s)); lia).
  assert (k mod (D * S) = o * S + s)%nat as E2 by (symmetry; apply (Nat.mod_unique k (D * S) l (o * S + s)); lia).
  rewrite E2. split_and!; [done|done| |].
  - symmetry. apply (Nat.div_unique _ S o s); lia.
  - symmetry. apply (Nat.mod_unique _ S o s); lia.
Qed.

Lemma flat_map_ext_in {A B} (f g : A -> list B) l :
  (forall x, In x l -> f x = g x) -> flat_map f l = flat_map g l.
Proof. induction l as [|x l IH]; intros H; [done|]. simpl. rewrite (H x), IH; simpl; auto. intros; apply H; simpl; auto. Qed.

Lemma flat_map_map {A B C} (f : B -> list C) (g : A -> B) l : flat_map f (map g l) = flat_map (fun x => f (g x)) l.
Proof. induction l as [|x l IH]; [done|]. simpl. by rewrite IH. Qed.

(** Block arithmetic: which slices receive and which send. *)
Lemma block_pos SPC l o s D :
  (o < D)%nat -> (s < SPC)%nat ->
  let k := (l * (D * SPC) + o * SPC + s)%nat in
  (SPC <=? k mod (D * SPC))%nat = negb (o =? 0)%nat /\
  (k mod (D * SPC) <? D * SPC - SPC)%nat = negb (o =? D - 1)%nat /\
  ((1 <= o)%nat -> (k - SPC = l * (D * SPC) + (o - 1) * SPC + s)%nat).
Proof.
  intros Ho Hs k. destruct (block_index_unique D SPC l o s Ho Hs) as (_ & E & _). fold k in E. rewrite E.
  split_and!.
  - destruct (Nat.leb_spec SPC (o * SPC + s)), (Nat.eqb_spec o 0); (done || (exfalso; nia)).
  - replace (D * SPC - SPC)%nat with ((D - 1) * SPC)%nat by nia.
    destruct (Nat.ltb_spec (o * SPC + s) ((D - 1) * SPC)), (Nat.eqb_spec o (D - 1)); (done || (exfalso; nia)).
  - intros H1. unfold k. assert (o * SPC = (o - 1) * SPC + SPC)%nat as -> by nia.
    generalize (l * (D * SPC))%nat, ((o - 1) * SPC)%nat. lia.
Qed.

Lemma mod_add_inj n c a b : (a < n)%nat -> (b < n)%nat -> ((c + a) mod n = (c + b) mod n)%nat -> a = b.
Proof.
  intros Ha Hb E. pose proof (Nat.div_mod_eq (c + a) n) as Ea. pose proof (Nat.div_mod_eq (c + b) n) as Eb.
  set (qa := ((c + a) / n)%nat) in *. set (qb := ((c + b) / n)%nat) in *.
  destruct (Nat.lt_trichotomy qa qb) as [H|[H|H]].
  - assert (n * qa + n <= n * qb)%nat by nia. lia.
  - rewrite H in Ea. lia.
  - assert (n * qb + n <= n * qa)%nat by nia. lia.
Qed.

(** Slice [s] of a call. *)
Definition callSlice (p : Primitives) (Recv Send : bool) (SrcBuf DstBuf : option bufId)
    (srcIx dstIx nelem : Z) (post : bool) (s : nat) : sliceOp := {|
  recvFrom := if Recv then recvPeers p else [];
  sendTo := if Send then sendPeers p else [];
  srcAt := match SrcBuf with
           | Some b => Some (match b with Input => true | Output => false end, userBuf p b + srcIx + sliceOff p nelem s)
           | None => None
           end;
  dstAt := match DstBuf with Some b => Some (userBuf p b + dstIx + sliceOff p nelem s) | None => None end;
  sliceLen := Z.to_nat (sliceSz p nelem s);
  doPost := post |}.

Lemma genericOp_eq p Recv Send SrcBuf DstBuf srcIx dstIx nelem post :
  callOk p (Z.max 0 nelem) ->
  genericOp p Recv Send SrcBuf DstBuf srcIx dstIx nelem post =
  map (callSlice p Recv Send SrcBuf DstBuf srcIx dstIx (Z.max 0 nelem) post) (seq 0 (SlicePerChunk p)).
Proof.
  intros H. unfold genericOp. replace (if nelem <? 0 then 0 else nelem) with (Z.max 0 nelem) by (zcase1; lia).
  rewrite (slices_spec p _ H), map_map. done.
Qed.

(** ** Loops over chunks of one size *)

Section plainLoop.
Context (p : Primitives) (count chunk : Z).

Definition loopLen (l : nat) : Z := Z.min chunk (count - Z.of_nat l * chunk).

(** The first element of slice [s] of loop [l], and its elements. *)
Definition loopX (l s : nat) : Z := Z.of_nat l * chunk + sliceOff p (loopLen l) s.
Definition inLoop (l s : nat) (x : Z) : Prop := loopX l s <= x < loopX l s + sliceSz p (loopLen l) s.

Context (Hchunk : 0 < chunk) (Hcount : 0 <= count) (HSPC : (0 < SlicePerChunk p)%nat).
Context (Hstep : 0 <= stepSize p * StepPerSlice p) (Hmax : chunk + 16 * Z.of_nat (SlicePerChunk p) < 2 ^ 31).

Lemma loopLen_ok l :
  (l < loopFuel count chunk)%nat ->
  0 < loopLen l <= chunk /\ callOk p (loopLen l) /\ cwrap i32 (loopLen l) = loopLen l /\ wrap32 (loopLen l) = loopLen l /\
  Z.max 0 (loopLen l) = loopLen l.
Proof.
  intros Hl. destruct (loopFuel_spec count chunk Hchunk Hcount) as [_ [?|Hlast]]; [lia|].
  assert (Z.of_nat l * chunk < count) as Hrem.
  { eapply Z.le_lt_trans; [|exact Hlast]. apply Z.mul_le_mono_nonneg_r; lia. }
  assert (0 < loopLen l <= chunk) as H by (unfold loopLen; lia).
  split; [done|]. split; [unfold callOk; lia|]. split; [|split; [apply wrap32_small; lia|lia]].
  apply cwrap_fits; [done|]. fits_lia.
Qed.

Lemma inLoop_spec l s x :
  (l < loopFuel count chunk)%nat -> inLoop l s x ->
  0 <= x < count /\ Z.of_nat l = x / chunk /\ Z.of_nat s = (x - Z.of_nat l * chunk) / fullSlice p (loopLen l).
Proof.
  intros Hl Hx. destruct (loopLen_ok l Hl) as (Hn & _).
  destruct (slice_of p (loopLen l) s (x - Z.of_nat l * chunk)) as [Hy Es];
    [done|unfold inLoop, loopX in Hx; lia|lia|].
  unfold loopLen in Hy. assert (0 <= Z.of_nat l * chunk) by nia. split_and!; [lia|lia| |done].
  apply (Z.div_unique x chunk _ (x - Z.of_nat l * chunk)); lia.
Qed.

Lemma inLoop_unique l s l' s' x :
  (l < loopFuel count chunk)%nat -> (l' < loopFuel count chunk)%nat -> inLoop l s x -> inLoop l' s' x -> l = l' /\ s = s'.
Proof.
  intros Hl Hl' H H'. destruct (inLoop_spec l s x Hl H) as (_ & E1 & E2).
  destruct (inLoop_spec l' s' x Hl' H') as (_ & E1' & E2').
  assert (l = l') as -> by lia. split; [done|lia].
Qed.

Lemma inLoop_exists x :
  0 <= x < count ->
  exists l s, (l < loopFuel count chunk)%nat /\ (s < SlicePerChunk p)%nat /\ inLoop l s x.
Proof.
  intros Hx. pose proof (loop_of count chunk x Hchunk Hx) as Hl. set (l := Z.to_nat (x / chunk)) in *.
  assert (Z.of_nat l = x / chunk) as El by (unfold l; rewrite Z2Nat.id; [done|apply Z.div_pos; lia]).
  pose proof (Z.div_mod x chunk ltac:(lia)). pose proof (Z.mod_pos_bound x chunk ltac:(lia)).
  destruct (slice_exists p (loopLen l) (x - Z.of_nat l * chunk) HSPC) as (s & Hs & Hin); [unfold loopLen; lia|].
  exists l, s. split; [done|]. split; [done|]. unfold inLoop, loopX. lia.
Qed.
End plainLoop.
