(* ===== verification/RingNet.v ===== *)
(** * Ring pipelines

    The ring kernels share one shape.  A block of [W] slices starts with [SPC]
    slices that only send, ends with [SPC] slices that only receive, and every
    slice in between receives and sends; a slice sent at index [k] is received
    by the next rank at index [k + SPC].  The file proves the interface [Kernel]
    for every program of that shape whose memory is written once per element. *)

From stdpp Require Import base numbers list relations.
From Stdlib Require Import ZArith Lia.
From S2P Require Import Prelude Bitops Prims Net.

Local Open Scope Z_scope.

Definition nextPos (n i : nat) : nat := (i + 1) mod n.
Definition prevPos (n i : nat) : nat := (i + n - 1) mod n.

Lemma nextPos_lt n i : (0 < n)%nat -> (nextPos n i < n)%nat.
Proof. intros. apply Nat.mod_upper_bound. lia. Qed.

Lemma prevPos_lt n i : (0 < n)%nat -> (prevPos n i < n)%nat.
Proof. intros. apply Nat.mod_upper_bound. lia. Qed.

Lemma next_prev n i : (i < n)%nat -> nextPos n (prevPos n i) = i.
Proof.
  intros H. unfold nextPos, prevPos. destruct (Nat.eq_dec i 0) as [->|].
  - rewrite (Nat.mod_small (0 + n - 1)) by lia. replace (0 + n - 1 + 1)%nat with n by lia. by rewrite Nat.Div0.mod_same.
  - replace (i + n - 1)%nat with (i - 1 + 1 * n)%nat by lia. rewrite Nat.Div0.mod_add.
    rewrite (Nat.mod_small (i - 1)) by lia. rewrite Nat.mod_small by lia. lia.
Qed.

Lemma prev_next n i : (i < n)%nat -> prevPos n (nextPos n i) = i.
Proof.
  intros H. unfold nextPos, prevPos. destruct (Nat.eq_dec (i + 1) n) as [E|].
  - rewrite E, Nat.Div0.mod_same. rewrite Nat.mod_small by lia. lia.
  - rewrite (Nat.mod_small (i + 1)) by lia. replace (i + 1 + n - 1)%nat with (i + 1 * n)%nat by lia.
    rewrite Nat.Div0.mod_add. by apply Nat.mod_small.
Qed.

(** ** Counting in blocks *)

(** How many [k' < k] have [k' mod W < A]. *)
Definition blockCount (W A k : nat) : nat := k / W * A + Nat.min (k mod W) A.

Lemma divmod_step W k :
  (0 < W)%nat ->
  (S k / W = k / W /\ S k mod W = S (k mod W))%nat \/
  (S k / W = S (k / W) /\ S k mod W = 0 /\ S (k mod W) = W)%nat.
Proof.
  intros HW. pose proof (Nat.div_mod_eq k W). pose proof (Nat.mod_upper_bound k W ltac:(lia)).
  destruct (Nat.eq_dec (S (k mod W)) W) as [E|E].
  - right. assert (S k = W * S (k / W) + 0)%nat as Ek by lia. split_and!; [| |done].
    + symmetry. apply (Nat.div_unique (S k) W _ 0); lia.
    + symmetry. apply (Nat.mod_unique (S k) W (S (k / W)) 0); lia.
  - left. split.
    + symmetry. apply (Nat.div_unique (S k) W _ (S (k mod W))); lia.
    + symmetry. apply (Nat.mod_unique (S k) W (k / W) (S (k mod W))); lia.
Qed.

Lemma blockCount_S W A k :
  (0 < W)%nat -> (A <= W)%nat ->
  blockCount W A (S k) = (blockCount W A k + (if (k mod W <? A)%nat then 1 else 0))%nat.
Proof.
  intros HW HA. unfold blockCount. destruct (Nat.ltb_spec (k mod W) A);
    destruct (divmod_step W k HW) as [[-> ->]|(-> & -> & E)]; nia.
Qed.

Lemma cnt_block f l W A N :
  (0 < W)%nat -> (A <= W)%nat -> length l = N ->
  (forall k o, l !! k = Some o -> f o = (k mod W <? A)%nat) ->
  forall k, (k <= N)%nat -> cnt f l k = blockCount W A k.
Proof.
  intros HW HA HN Hf. induction k as [|k IH]; intros Hk.
  - unfold blockCount. rewrite Nat.Div0.div_0_l, Nat.Div0.mod_0_l. done.
  - destruct (lookup_lt_is_Some_2 l k ltac:(lia)) as [o Ho].
    rewrite (cnt_S f l k o Ho), IH, blockCount_S, (Hf k o Ho) by lia. done.
Qed.

(** The complement: how many have [SPC <= k' mod W]. *)
Lemma cnt_block_from f l W B N :
  (0 < W)%nat -> (B <= W)%nat -> length l = N ->
  (forall k o, l !! k = Some o -> f o = (B <=? k mod W)%nat) ->
  forall k, (k <= N)%nat -> cnt f l k = (k / W * (W - B) + (k mod W - B))%nat.
Proof.
  intros HW HB HN Hf. induction k as [|k IH]; intros Hk.
  - rewrite Nat.Div0.div_0_l, Nat.Div0.mod_0_l. done.
  - destruct (lookup_lt_is_Some_2 l k ltac:(lia)) as [o Ho].
    rewrite (cnt_S f l k o Ho), IH, (Hf k o Ho) by lia.
    destruct (Nat.leb_spec B (k mod W));
      destruct (divmod_step W k HW) as [[-> ->]|(-> & -> & E)]; nia.
Qed.

(** ** Memory written once *)

(** An address some slice before [k] stores to. *)
Definition written (P : nat -> list sliceOp) (i k : nat) (a : Z) : Prop :=
  exists k' o d, (k' < k)%nat /\ P i !! k' = Some o /\ dstAt o = Some d /\ d <= a < d + Z.of_nat (sliceLen o).

(** The memory is the initial one, overlaid with the results stored so far. *)
Definition overlay {T} (P : nat -> list sliceOp) (mem0 : nat -> mem T) (outv : nat -> Z -> T)
    (i k : nat) (m : mem T) : Prop :=
  forall a, (written P i k a -> m a = outv i a) /\ (~ written P i k a -> m a = mem0 i a).

(** The value of one element of a slice. *)
Definition elemVal {T} (fn : redFn T) (o : sliceOp) (local recvd : option T) : option T :=
  let pre x := if preOf o then preOp fn x else x in
  let post x := if doPost o then postOpFn fn x else x in
  match local, recvd with
  | Some x, Some y => Some (post (reduceOp fn (pre x) y))
  | Some x, None => Some (post (pre x))
  | None, Some y => Some (post y)
  | None, None => None
  end.

Lemma written_S P i k o a :
  P i !! k = Some o ->
  (written P i (S k) a <->
   written P i k a \/ exists d, dstAt o = Some d /\ d <= a < d + Z.of_nat (sliceLen o)).
Proof.
  intros Ho. split.
  - intros (k' & o' & d & Hk & Ho' & Hd & Ha). destruct (Nat.eq_dec k' k) as [->|].
    + right. simplify_eq. by exists d.
    + left. exists k', o', d. split; [lia|done].
  - intros [(k' & o' & d & Hk & H)|(d & Hd & Ha)].
    + exists k', o', d. split; [lia|done].
    + exists k, o, d. split; [lia|done].
Qed.

Lemma store_in {T} (m : mem T) d l e v :
  l !! e = Some v -> store m d l (d + Z.of_nat e) = v.
Proof.
  intros H. pose proof (lookup_lt_Some _ _ _ H). unfold store.
  rewrite (proj2 (Z.leb_le _ _)), (proj2 (Z.ltb_lt _ _)) by lia. simpl.
  replace (Z.to_nat (d + Z.of_nat e - d)) with e by lia. by rewrite H.
Qed.

Lemma store_out {T} (m : mem T) d l a : ~ (d <= a < d + Z.of_nat (length l)) -> store m d l a = m a.
Proof.
  intros H. unfold store. destruct (Z.leb_spec d a), (Z.ltb_spec a (d + Z.of_nat (length l))); (done || lia).
Qed.

Lemma overlay_S {T} P mem0 (outv : nat -> Z -> T) i k o m l :
  P i !! k = Some o -> length l = sliceLen o -> overlay P mem0 outv i k m ->
  (forall d e v, dstAt o = Some d -> l !! e = Some v -> v = outv i (d + Z.of_nat e)) ->
  overlay P mem0 outv i (S k) (storeDst o m l).
Proof.
  intros Ho Hl Hm Hv a. rewrite (written_S P i k o a Ho). unfold storeDst.
  destruct (Hm a) as [H1 H2]. destruct (dstAt o) as [d|] eqn:Ed.
  - destruct (decide (d <= a < d + Z.of_nat (sliceLen o))) as [Hin|Hout].
    + destruct (lookup_lt_is_Some_2 l (Z.to_nat (a - d)) ltac:(lia)) as [v Hlv].
      pose proof (store_in m d l _ _ Hlv) as Hs. pose proof (Hv d _ v eq_refl Hlv) as Hv'.
      replace (d + Z.of_nat (Z.to_nat (a - d))) with a in * by lia. split.
      * intros _. congruence.
      * intros []. right. by exists d.
    + rewrite store_out by lia. split.
      * intros [H|(d' & Hd' & H)]; [auto|]. simplify_eq. lia.
      * intros H. apply H2. tauto.
  - split; [intros [H|(d & Hd & _)]; [auto|done]|intros H; apply H2; tauto].
Qed.

Lemma zip_with_map {A B} (f : B -> B -> B) (g h : A -> B) l :
  zip_with f (map g l) (map h l) = map (fun x => f (g x) (h x)) l.
Proof. induction l as [|x l IH]; [done|]. simpl. by rewrite IH. Qed.

Lemma map_if {A B} (b : bool) (f : B -> B) (g : A -> B) l :
  (if b then map f (map g l) else map g l) = map (fun x => if b then f (g x) else g x) l.
Proof. destruct b; [by rewrite map_map|done]. Qed.

(** The value of a slice with at most one peer, element by element. *)
Lemma sliceVal_elems {T} (fn : redFn T) o m inbox (g : nat -> T) (v : nat -> T) :
  match recvFrom o with
  | [] => True
  | [p] => inbox p = map g (seq 0 (sliceLen o))
  | _ => False
  end ->
  (forall e, (e < sliceLen o)%nat ->
     elemVal fn o (match srcAt o with Some (_, a) => Some (m (a + Z.of_nat e)) | None => None end)
       (match recvFrom o with [] => None | _ => Some (g e) end) = Some (v e)) ->
  (0 < sliceLen o)%nat \/ srcAt o <> None \/ recvFrom o <> [] ->
  sliceVal fn o m inbox = map v (seq 0 (sliceLen o)).
Proof.
  intros Hr Hv Hne. unfold sliceVal, reduceCopy, load.
  assert (forall w, (forall e, (e < sliceLen o)%nat -> w e = v e) ->
    map w (seq 0 (sliceLen o)) = map v (seq 0 (sliceLen o))) as Hext.
  { intros w H. apply map_ext_in. intros e He%in_seq. apply H. lia. }
  destruct (recvFrom o) as [|p [|]] eqn:Er; [| |done];
    destruct (srcAt o) as [[b a]|] eqn:Es; cbn [map app fold_left].
  - rewrite map_if, map_if. apply Hext. intros e He. specialize (Hv e He). unfold elemVal in Hv.
    by injection Hv.
  - destruct Hne as [H|[H|H]]; [|done|done]. specialize (Hv 0%nat H). done.
  - rewrite Hr, firstn_all2 by (rewrite length_map, length_seq; lia).
    rewrite map_if, zip_with_map, map_if. apply Hext. intros e He. specialize (Hv e He). unfold elemVal in Hv.
    by injection Hv.
  - rewrite Hr, firstn_all2 by (rewrite length_map, length_seq; lia). unfold preOf. rewrite Es.
    rewrite map_if. apply Hext. intros e He. specialize (Hv e He). unfold elemVal in Hv. by injection Hv.
Qed.

(** ** Pipelines *)

(** The local operand of an element, read from the initial memory. *)
Definition localVal {T} (m : mem T) (o : sliceOp) (e : nat) : option T :=
  match srcAt o with Some (_, a) => Some (m (a + Z.of_nat e)) | None => None end.

(** [V i k e] is the value of element [e] of slice [k] of rank [i]. *)
Record Pipeline {T} (fn : redFn T) (SPS stepLen : Z) (n W SPC N : nat) (P : nat -> list sliceOp)
    (mem0 : nat -> mem T) (V : nat -> nat -> nat -> T) (outv : nat -> Z -> T) : Prop := {
  pl_n : (2 <= n)%nat;
  pl_SPC : (0 < SPC)%nat;
  pl_W : (2 * SPC <= W)%nat;
  pl_SPS : 0 < SPS;
  pl_cap : SPS * (Z.of_nat SPC + 1) <= NCCL_STEPS;
  pl_steps : NCCL_STEPS mod SPS = 0 /\ 0 <= stepLen;
  pl_fits i k o : P i !! k = Some o -> Z.of_nat (sliceLen o) <= SPS * stepLen;
  pl_idle i : (n <= i)%nat -> P i = [];
  pl_len i : (i < n)%nat -> length (P i) = N;
  pl_recv i k o : (i < n)%nat -> P i !! k = Some o ->
    recvFrom o = if (SPC <=? k mod W)%nat then [prevPos n i] else [];
  pl_send i k o : (i < n)%nat -> P i !! k = Some o ->
    sendTo o = if (k mod W <? W - SPC)%nat then [nextPos n i] else [];
  pl_slice i k o o' : (i < n)%nat -> P i !! k = Some o -> (SPC <= k mod W)%nat ->
    P (prevPos n i) !! (k - SPC)%nat = Some o' -> sliceLen o' = sliceLen o;
  pl_local i k o : (i < n)%nat -> P i !! k = Some o -> (k mod W < SPC)%nat -> srcAt o <> None;
  pl_val i k o e : (i < n)%nat -> P i !! k = Some o -> (e < sliceLen o)%nat ->
    elemVal fn o (localVal (mem0 i) o e)
      (if (SPC <=? k mod W)%nat then Some (V (prevPos n i) (k - SPC)%nat e) else None) = Some (V i k e);
  pl_src i k o b a e : (i < n)%nat -> P i !! k = Some o -> srcAt o = Some (b, a) -> (e < sliceLen o)%nat ->
    ~ written P i k (a + Z.of_nat e);
  pl_dst i k o d e : (i < n)%nat -> P i !! k = Some o -> dstAt o = Some d -> (e < sliceLen o)%nat ->
    V i k e = outv i (d + Z.of_nat e) }.

Section pipeline.
Context {T : Type} {fn : redFn T} {SPS stepLen : Z} {n W SPC N : nat} {P : nat -> list sliceOp}.
Context {mem0 : nat -> mem T} {V : nat -> nat -> nat -> T} {outv : nat -> Z -> T}.
Context (pl : Pipeline fn SPS stepLen n W SPC N P mem0 V outv).

Lemma pl_active i k o : P i !! k = Some o -> (i < n)%nat.
Proof.
  intros H. destruct (Nat.lt_ge_cases i n) as [|Hi]; [done|]. by rewrite (pl_idle _ _ _ _ _ _ _ _ _ _ _ pl i Hi) in H.
Qed.

Lemma pl_sends i k : (i < n)%nat -> (k <= N)%nat -> sends P i (nextPos n i) k = blockCount W (W - SPC) k.
Proof.
  intros Hi Hk. destruct pl. apply (cnt_block _ _ W (W - SPC) N); [lia|lia|auto| |done].
  intros k' o Ho. rewrite (pl_send0 i k' o Hi Ho). destruct (k' mod W <? W - SPC)%nat; [|done].
  by apply isIn_spec, list_elem_of_singleton.
Qed.

Lemma pl_recvs i k :
  (i < n)%nat -> (k <= N)%nat -> recvs P i (prevPos n i) k = (k / W * (W - SPC) + (k mod W - SPC))%nat.
Proof.
  intros Hi Hk. destruct pl. apply (cnt_block_from _ _ W SPC N); [lia|lia|auto| |done].
  intros k' o Ho. rewrite (pl_recv0 i k' o Hi Ho). destruct (SPC <=? k' mod W)%nat; [|done].
  by apply isIn_spec, list_elem_of_singleton.
Qed.

Lemma divmod_sub k : (SPC <= k mod W)%nat -> ((k - SPC) / W = k / W /\ (k - SPC) mod W = k mod W - SPC)%nat.
Proof.
  intros Hk. destruct pl. pose proof (Nat.div_mod_eq k W). pose proof (Nat.mod_upper_bound k W ltac:(lia)). split.
  - symmetry. apply (Nat.div_unique (k - SPC) W _ (k mod W - SPC)); lia.
  - symmetry. apply (Nat.mod_unique (k - SPC) W (k / W) (k mod W - SPC)); lia.
Qed.

(** The slice a rank receives was sent [SPC] slices earlier. *)
Lemma pl_match i k o :
  P i !! k = Some o -> (SPC <= k mod W)%nat ->
  exists o', P (prevPos n i) !! (k - SPC)%nat = Some o' /\ sendTo o' = [i] /\
    sends P (prevPos n i) i (k - SPC) = recvs P i (prevPos n i) k.
Proof.
  intros Ho Hk. pose proof (pl_active i k o Ho) as Hi. pose proof pl as pl'. destruct pl'.
  assert (prevPos n i < n)%nat as Hp by (apply prevPos_lt; lia).
  pose proof (lookup_lt_Some _ _ _ Ho) as Hlt. rewrite (pl_len0 i Hi) in Hlt.
  destruct (lookup_lt_is_Some_2 (P (prevPos n i)) (k - SPC)) as [o' Ho']; [rewrite (pl_len0 _ Hp); lia|].
  destruct (divmod_sub k Hk) as [D1 D2]. pose proof (Nat.mod_upper_bound k W ltac:(lia)).
  exists o'. split; [done|]. split.
  - rewrite (pl_send0 _ _ o' Hp Ho'), D2, (next_prev n i Hi).
    destruct (Nat.ltb_spec (k mod W - SPC) (W - SPC)); [done|lia].
  - rewrite <- (next_prev n i Hi) at 2. rewrite pl_sends, pl_recvs by lia.
    unfold blockCount. rewrite D1, D2. lia.
Qed.

Definition plMsg (i k : nat) : list T :=
  match P i !! k with Some o => map (V i k) (seq 0 (sliceLen o)) | None => [] end.

Lemma pl_msg i k o m inbox :
  P i !! k = Some o -> overlay P mem0 outv i k m ->
  (forall p k' o', p ∈ recvFrom o -> P p !! k' = Some o' -> i ∈ sendTo o' ->
     sends P p i k' = recvs P i p k -> inbox p = plMsg p k') ->
  sliceVal fn o m inbox = plMsg i k /\ overlay P mem0 outv i (S k) (storeDst o m (plMsg i k)).
Proof.
  intros Ho Hm Hin. pose proof (pl_active i k o Ho) as Hi. pose proof pl as pl'. destruct pl'.
  assert (plMsg i k = map (V i k) (seq 0 (sliceLen o))) as Em by (unfold plMsg; by rewrite Ho).
  split.
  - rewrite Em. apply (sliceVal_elems fn o m inbox (V (prevPos n i) (k - SPC)%nat)).
    + pose proof (pl_recv0 i k o Hi Ho) as Er. destruct (Nat.leb_spec SPC (k mod W)) as [Hk|Hk]; rewrite Er; [|done].
      destruct (pl_match i k o Ho Hk) as (o' & Ho' & Hs & Ec).
      rewrite (Hin (prevPos n i) (k - SPC)%nat o'); [|rewrite Er; by apply list_elem_of_singleton|done
        |rewrite Hs; by apply list_elem_of_singleton|done].
      unfold plMsg. rewrite Ho'. by rewrite (pl_slice0 i k o o').
    + intros e He. rewrite <- (pl_val0 i k o e Hi Ho He). f_equal.
      * unfold localVal. destruct (srcAt o) as [[b a]|] eqn:Es; [|done]. f_equal.
        apply (Hm (a + Z.of_nat e)). by apply (pl_src0 i k o b a e).
      * rewrite (pl_recv0 i k o Hi Ho). by destruct (SPC <=? k mod W)%nat.
    + right. rewrite (pl_recv0 i k o Hi Ho). destruct (Nat.leb_spec SPC (k mod W)); [by right|left; by apply (pl_local0 i k o Hi Ho)].
  - apply overlay_S; [done|by rewrite Em, length_map, length_seq|done|].
    intros d e v Hd Hv. rewrite Em, list_lookup_fmap in Hv.
    apply fmap_Some in Hv as (x & Hx & ->). apply lookup_seq in Hx as [-> Hx].
    by apply (pl_dst0 i k o d e Hi Ho Hd).
Qed.

(** Room for a slice: the receiver has copied the slice [SPC + 1] before it. *)
Lemma pl_room i k o q :
  P i !! k = Some o -> q ∈ sendTo o ->
  SPS * (Z.of_nat (sends P i q k) + 1) <= NCCL_STEPS \/
  exists k' o', P q !! k' = Some o' /\ i ∈ recvFrom o' /\ (k' < k)%nat /\
    SPS * (Z.of_nat (sends P i q k) + 1) <= SPS * (Z.of_nat (recvs P q i k') + 1) + NCCL_STEPS.
Proof.
  intros Ho Hq. pose proof (pl_active i k o Ho) as Hi. pose proof pl as pl'. destruct pl'.
  rewrite (pl_send0 i k o Hi Ho) in Hq. destruct (Nat.ltb_spec (k mod W) (W - SPC)) as [Hk|]; [|by apply not_elem_of_nil in Hq].
  apply list_elem_of_singleton in Hq as ->.
  pose proof (lookup_lt_Some _ _ _ Ho) as Hlt. rewrite (pl_len0 i Hi) in Hlt.
  rewrite pl_sends by lia. unfold blockCount. rewrite Nat.min_l by lia.
  set (m := (k / W * (W - SPC) + k mod W)%nat).
  destruct (Nat.le_gt_cases m SPC) as [Hm|Hm]; [left; nia|right].
  set (m' := (m - (SPC + 1))%nat). set (A := (W - SPC)%nat) in *.
  set (k' := (m' / A * W + m' mod A + SPC)%nat).
  pose proof (Nat.div_mod_eq m' A) as Em'. pose proof (Nat.mod_upper_bound m' A ltac:(lia)) as Hm'.
  pose proof (Nat.div_mod_eq k W) as Ek.
  assert (k' / W = m' / A /\ k' mod W = m' mod A + SPC)%nat as [D1 D2].
  { split; symmetry; [apply (Nat.div_unique k' W _ (m' mod A + SPC))|apply (Nat.mod_unique k' W (m' / A))]; lia. }
  assert (k' < k)%nat as Hk'.
  { assert (m' / A <= k / W)%nat by (apply Nat.lt_succ_r; apply (Nat.mul_lt_mono_pos_r A); nia).
    destruct (Nat.eq_dec (m' / A) (k / W)) as [E|]; [unfold k', m', m in *; nia|].
    assert (k' < (m' / A + 1) * W)%nat by (unfold k'; nia). nia. }
  assert (nextPos n i < n)%nat as Hn by (apply nextPos_lt; lia).
  destruct (lookup_lt_is_Some_2 (P (nextPos n i)) k') as [o' Ho']; [rewrite (pl_len0 _ Hn); lia|].
  exists k', o'. split; [done|]. split.
  { rewrite (pl_recv0 _ k' o' Hn Ho'), D2, (prev_next n i Hi).
    destruct (Nat.leb_spec SPC (m' mod A + SPC)); [by apply list_elem_of_singleton|lia]. }
  split; [done|]. rewrite <- (prev_next n i Hi) at 2. rewrite pl_recvs, D1, D2 by lia.
  replace (m' / A * (W - SPC) + (m' mod A + SPC - SPC))%nat with m' by (fold A; lia).
  replace (Z.of_nat m) with (Z.of_nat m' + (Z.of_nat SPC + 1)) by lia. nia.
Qed.

(** Pipelines are kernels. *)
Definition pipeline_kernel : Kernel fn SPS stepLen id n P mem0.
Proof.
  refine {| msg := plMsg; good := fun g k m => overlay P mem0 outv g (k g) m; time := fun _ k => k |}.
  - apply (pl_SPS _ _ _ _ _ _ _ _ _ _ _ pl).
  - apply (pl_steps _ _ _ _ _ _ _ _ _ _ _ pl).
  - apply (pl_idle _ _ _ _ _ _ _ _ _ _ _ pl).
  - intros i k o Ho. pose proof (pl_active i k o Ho) as Hi. destruct pl.
    rewrite (pl_recv0 i k o Hi Ho), (pl_send0 i k o Hi Ho).
    split; [destruct (SPC <=? _)%nat|destruct (_ <? _)%nat]; (apply NoDup_nil || apply NoDup_singleton); done.
  - intros i k o Ho. split; [unfold plMsg; by rewrite Ho, length_map, length_seq|]. by apply (pl_fits _ _ _ _ _ _ _ _ _ _ _ pl i k).
  - intros i a. split; [|done]. intros (k' & o & d & Hk & _). lia.
  - intros g k i v m Hg Hm. by rewrite upd_neq.
  - intros k i o m inbox Ho _ Hm Hin. unfold id in *. rewrite upd_eq. apply pl_msg; [done|done|].
    intros p k' o' H1 H2 H3 H4. by apply (Hin p k' o').
  - done.
  - intros i k o p Ho Hp. pose proof (pl_active i k o Ho) as Hi. pose proof pl as pl'. destruct pl'.
    rewrite (pl_recv0 i k o Hi Ho) in Hp.
    destruct (Nat.leb_spec SPC (k mod W)) as [Hk|]; [|by apply not_elem_of_nil in Hp].
    apply list_elem_of_singleton in Hp as ->. destruct (pl_match i k o Ho Hk) as (o' & Ho' & Hs & Ec).
    exists (k - SPC)%nat, o'. split; [done|]. rewrite Hs.
    pose proof (Nat.Div0.mod_le k W). split_and!; [by apply list_elem_of_singleton|done|lia].
  - intros i k o p k' o' Ho Hp Ho' Hs E. pose proof (pl_active i k o Ho) as Hi. pose proof pl as pl'. destruct pl'.
    rewrite (pl_recv0 i k o Hi Ho) in Hp.
    destruct (Nat.leb_spec SPC (k mod W)) as [Hk|]; [|by apply not_elem_of_nil in Hp].
    apply list_elem_of_singleton in Hp as ->. destruct (pl_match i k o Ho Hk) as (o'' & Ho'' & Hs'' & Ec).
    assert (k' = (k - SPC)%nat) as ->; [|simplify_eq; by apply (pl_slice0 i k)].
    apply (cnt_inj (fun o => isIn i (sendTo o)) (P (prevPos n i)) _ _ o' o''); [done|done|by apply isIn_spec| |].
    + apply isIn_spec. rewrite Hs''. by apply list_elem_of_singleton.
    + fold (sends P (prevPos n i) i k') (sends P (prevPos n i) i (k - SPC)). by rewrite E.
  - intros i k o q Ho Hq. destruct (pl_room i k o q Ho Hq) as [H|(k' & o' & H)]; [by left|right].
    by exists k', o'.
Defined.
End pipeline.
