(* ===== verification/PhaseNet.v ===== *)
(** * Kernels in phases

    In the chain and tree kernels every process goes through the same chunks in
    the same order, and in each phase of the kernel it receives from and sends
    to the same peers throughout: slice [s] of a phase only depends on slice [s]
    of the peers.  The file proves the interface [Kernel] for such programs,
    when the peers of a phase form a graph without cycles.  Several processes
    of a rank may share its memory. *)

From stdpp Require Import base numbers list relations.
From Stdlib Require Import ZArith Lia.
From S2P Require Import Prelude Bitops Prims Net Loops RingNet.

Local Open Scope Z_scope.

(** ** Slices with any number of peers *)

(** One element of a slice from the local operand and the received ones. *)
Definition foldVals {T} (fn : redFn T) (pre post : bool) (local : option T) (recvd : list T) : option T :=
  let fin x := if post then postOpFn fn x else x in
  match local, recvd with
  | Some x, ys => Some (fin (fold_left (reduceOp fn) ys (if pre then preOp fn x else x)))
  | None, y :: ys => Some (fin (fold_left (reduceOp fn) ys (if pre then preOp fn y else y)))
  | None, [] => None
  end.

Lemma fold_zip_map {A B C} (op : B -> B -> B) (g : C -> A -> B) l ps acc :
  fold_left (zip_with op) (map (fun p => map (g p) l) ps) (map acc l) =
  map (fun e => fold_left op (map (fun p => g p e) ps) (acc e)) l.
Proof.
  revert acc. induction ps as [|p ps IH]; intros acc; [done|]. cbn [map fold_left].
  rewrite zip_with_map, (IH (fun e => op (acc e) (g p e))). done.
Qed.

Lemma sliceVal_fold {T} (fn : redFn T) o m inbox (g : nat -> nat -> T) (v : nat -> T) :
  (forall p, p ∈ recvFrom o -> inbox p = map (g p) (seq 0 (sliceLen o))) ->
  (forall e, (e < sliceLen o)%nat ->
     foldVals fn (preOf o) (doPost o)
       (match srcAt o with Some (_, a) => Some (m (a + Z.of_nat e)) | None => None end)
       (map (fun p => g p e) (recvFrom o)) = Some (v e)) ->
  srcAt o <> None \/ recvFrom o <> [] ->
  sliceVal fn o m inbox = map v (seq 0 (sliceLen o)).
Proof.
  intros Hin Hv Hne. unfold sliceVal, load.
  assert (map (fun p => take (sliceLen o) (inbox p)) (recvFrom o) =
    map (fun p => map (g p) (seq 0 (sliceLen o))) (recvFrom o)) as ->.
  { apply map_ext_in. intros p Hp%list_elem_of_In. rewrite (Hin p Hp).
    apply firstn_all2. rewrite length_map, length_seq. lia. }
  assert (forall w, (forall e, (e < sliceLen o)%nat -> Some (w e) = Some (v e)) ->
    map w (seq 0 (sliceLen o)) = map v (seq 0 (sliceLen o))) as Hext.
  { intros w H. apply map_ext_in. intros e He%in_seq. specialize (H e ltac:(lia)). by injection H. }
  unfold reduceCopy. destruct (srcAt o) as [[b a]|]; cbn [app map].
  - rewrite map_if, fold_zip_map, map_if. apply Hext. intros e He. by rewrite <- Hv.
  - destruct (recvFrom o) as [|p ps]; [by destruct Hne|]. cbn [map].
    rewrite map_if, fold_zip_map, map_if. apply Hext. intros e He. by rewrite <- Hv.
Qed.

(** ** Programs in phases *)

(** A phase: who is received from and sent to, where the local operand is and
    whether it is the user's input, where the result goes, and whether the
    final operation is applied. *)
Record phase := Phase {
  phRecv : list nat;
  phSend : list nat;
  phSrc : option (bool * Z);
  phDst : option Z;
  phPost : bool }.

Section phases.
Context {T : Type} (fn : redFn T) (SPS stepLen : Z) (owner : nat -> nat) (n K H : nat).
Context (proc : nat -> list phase) (mem0 : nat -> mem T).

(** The elements [x s <= y < x s + len s] of slice [s]. *)
Context (x : nat -> Z) (len : nat -> nat).

(** The value of element [y] in phase [f] of a process and its local operand. *)
Context (val srcVal : nat -> nat -> Z -> T) (dep : nat -> nat -> nat).

Definition phaseSlice (φ : phase) (s : nat) : sliceOp := {|
  recvFrom := phRecv φ; sendTo := phSend φ;
  srcAt := match phSrc φ with Some (b, a) => Some (b, a + x s) | None => None end;
  dstAt := match phDst φ with Some a => Some (a + x s) | None => None end;
  sliceLen := len s; doPost := phPost φ |}.

Definition phaseProg (i : nat) : list sliceOp := flat_map (fun φ => map (phaseSlice φ) (seq 0 K)) (proc i).

Context (P : nat -> list sliceOp) (HP : forall i, P i = phaseProg i).

Definition inSlice (s : nat) (y : Z) : Prop := (s < K)%nat /\ x s <= y < x s + Z.of_nat (len s).

(** Element [a] of the memory of rank [g] has been written, with value [v]. *)
Definition writtenAt (g : nat) (k : nat -> nat) (a : Z) (v : T) : Prop :=
  exists i f φ s b, owner i = g /\ proc i !! f = Some φ /\ phDst φ = Some b /\
    (f * K + s < k i)%nat /\ inSlice s (a - b) /\ v = val i f (a - b).

Definition phaseGood (g : nat) (k : nat -> nat) (m : mem T) : Prop :=
  forall a, (forall v, writtenAt g k a v -> m a = v) /\ ((~ exists v, writtenAt g k a v) -> m a = mem0 g a).

Definition phaseMsg (i k : nat) : list T :=
  map (fun e => val i (k / K)%nat (x (k mod K)%nat + Z.of_nat e)) (seq 0 (len (k mod K)%nat)).

(** What makes the phases work together: in each phase the receivers and the
    senders agree, a peer is used in one phase only, there is no cycle, each
    rank's memory has one writer, an operand still has its value when it is
    read, and the values satisfy the equation of the phase. *)
Record Phases : Prop := {
  ph_SPS : 0 < SPS <= NCCL_STEPS;
  ph_steps : NCCL_STEPS mod SPS = 0 /\ 0 <= stepLen;
  ph_fits s : (s < K)%nat -> Z.of_nat (len s) <= SPS * stepLen;
  ph_idle i : (n <= i)%nat -> proc i = [];
  ph_nodup i f φ : proc i !! f = Some φ -> NoDup (phRecv φ) /\ NoDup (phSend φ);
  ph_recv i f φ p : proc i !! f = Some φ -> p ∈ phRecv φ -> exists φ', proc p !! f = Some φ' /\ i ∈ phSend φ';
  ph_send i f φ q : proc i !! f = Some φ -> q ∈ phSend φ -> exists φ', proc q !! f = Some φ' /\ i ∈ phRecv φ';
  ph_recv_once i f f' φ φ' p :
    proc i !! f = Some φ -> proc i !! f' = Some φ' -> p ∈ phRecv φ -> p ∈ phRecv φ' -> f = f';
  ph_send_once i f f' φ φ' p :
    proc i !! f = Some φ -> proc i !! f' = Some φ' -> p ∈ phSend φ -> p ∈ phSend φ' -> f = f';
  ph_dep i f φ p : proc i !! f = Some φ -> p ∈ phRecv φ -> (dep p f < dep i f)%nat;
  ph_dep_le i f : (dep i f <= H)%nat;
  ph_operand i f φ : proc i !! f = Some φ -> phSrc φ <> None \/ phRecv φ <> [];
  ph_writer i f φ b i' f' φ' b' :
    proc i !! f = Some φ -> phDst φ = Some b -> proc i' !! f' = Some φ' -> phDst φ' = Some b' ->
    owner i = owner i' -> i = i' /\ f = f';
  ph_src i f φ c b s y k :
    proc i !! f = Some φ -> phSrc φ = Some (c, b) -> inSlice s y -> causal P k -> k i = (f * K + s)%nat ->
    writtenAt (owner i) k (b + y) (srcVal i f y) \/
    (~ exists v, writtenAt (owner i) k (b + y) v) /\ srcVal i f y = mem0 (owner i) (b + y);
  ph_val i f φ s y :
    proc i !! f = Some φ -> inSlice s y ->
    foldVals fn (match phSrc φ with Some (c, _) => c | None => false end) (phPost φ)
      (match phSrc φ with Some _ => Some (srcVal i f y) | None => None end)
      (map (fun p => val p f y) (phRecv φ)) = Some (val i f y) }.

(** ** Indices and counts *)

Lemma lookup_flat_map_const {A B} (g : A -> list B) m l k :
  (forall a, length (g a) = m) -> (0 < m)%nat ->
  flat_map g l !! k = match l !! (k / m)%nat with Some a => g a !! (k mod m)%nat | None => None end.
Proof.
  intros Hg Hm. revert k. induction l as [|a l IH]; intros k; [by rewrite !lookup_nil|]. cbn [flat_map].
  destruct (Nat.lt_ge_cases k m) as [Hk|Hk].
  - rewrite lookup_app_l by (by rewrite Hg). by rewrite Nat.div_small, Nat.mod_small.
  - rewrite lookup_app_r by (by rewrite Hg). rewrite Hg, IH.
    assert (k / m = S ((k - m) / m) /\ k mod m = (k - m) mod m)%nat as [-> ->]; [|done].
    replace k with ((k - m) + 1 * m)%nat at 1 3 by lia. rewrite Nat.div_add, Nat.Div0.mod_add by lia. lia.
Qed.

Lemma phase_at i f φ s : proc i !! f = Some φ -> (s < K)%nat -> P i !! (f * K + s)%nat = Some (phaseSlice φ s).
Proof.
  intros Hf Hs. rewrite HP. unfold phaseProg.
  rewrite (lookup_flat_map_const _ K); [|intros; by rewrite length_map, length_seq|lia].
  rewrite (Nat.add_comm (f * K)), Nat.div_add, Nat.Div0.mod_add, Nat.div_small, Nat.mod_small by lia.
  rewrite Nat.add_0_l, Hf, list_lookup_fmap, lookup_seq_lt by done. done.
Qed.

Lemma phase_inv i k o :
  P i !! k = Some o ->
  exists f s φ, k = (f * K + s)%nat /\ (s < K)%nat /\ proc i !! f = Some φ /\ o = phaseSlice φ s.
Proof.
  rewrite HP. unfold phaseProg. intros Ho.
  destruct (Nat.eq_dec K 0) as [E|HK].
  - exfalso. revert Ho. rewrite E. generalize (proc i). intros l. induction l; [simpl; by rewrite lookup_nil|done].
  - rewrite (lookup_flat_map_const _ K) in Ho; [|intros; by rewrite length_map, length_seq|lia].
    destruct (proc i !! (k / K)%nat) as [φ|] eqn:Ef; [|done].
    pose proof (Nat.mod_upper_bound k K HK) as Hm. rewrite list_lookup_fmap, lookup_seq_lt in Ho by done.
    injection Ho as <-. exists (k / K)%nat, (k mod K)%nat, φ. split_and!; try done.
    rewrite (Nat.mul_comm (k / K)). apply Nat.div_mod_eq.
Qed.

Lemma phaseMsg_at i f s : (s < K)%nat -> phaseMsg i (f * K + s) = map (fun e => val i f (x s + Z.of_nat e)) (seq 0 (len s)).
Proof.
  intros Hs. unfold phaseMsg.
  by rewrite (Nat.add_comm (f * K)), Nat.div_add, Nat.Div0.mod_add, Nat.div_small, Nat.mod_small, Nat.add_0_l by lia.
Qed.

(** A peer used in phase [f] only has been used once per slice of it. *)
Lemma cnt_phase (g : sliceOp -> bool) i f φ s :
  proc i !! f = Some φ -> (forall s, g (phaseSlice φ s) = true) ->
  (forall f' φ' s, (f' < f)%nat -> proc i !! f' = Some φ' -> g (phaseSlice φ' s) = false) ->
  (s <= K)%nat -> cnt g (P i) (f * K + s) = s.
Proof.
  intros Hf Hg Hg'.
  assert (forall k, (k <= f * K)%nat -> cnt g (P i) k = 0%nat) as Hz.
  { induction k as [|k IH]; intros Hk; [done|]. destruct (P i !! k) as [o|] eqn:Eo.
    - rewrite (cnt_S _ _ _ o Eo), IH by lia. apply phase_inv in Eo as (f' & s' & φ' & -> & Hs' & Hf' & ->).
      rewrite (Hg' f' φ'); [done| |done]. nia.
    - apply lookup_ge_None in Eo. rewrite cnt_end by done. apply IH. lia. }
  induction s as [|s IH]; intros Hs; [rewrite Nat.add_0_r; apply Hz; lia|].
  rewrite <- plus_n_Sm, (cnt_S _ _ _ _ (phase_at i f φ s Hf ltac:(lia))), IH, Hg by lia. lia.
Qed.

(** In a single phase no process is ahead of those it receives from. *)
Lemma causal_single k i p φ φ' :
  proc i = [φ] -> proc p = [φ'] -> p ∈ phRecv φ -> i ∈ phSend φ' -> causal P k -> (Nat.min (k i) K <= Nat.min (k p) K)%nat.
Proof.
  intros Hi Hp Hr Hs Hc. specialize (Hc i p).
  assert (forall g j ψ, proc j = [ψ] -> (forall s, g (phaseSlice ψ s) = true) -> cnt g (P j) (k j) = Nat.min (k j) K) as Hcnt.
  { intros g j ψ Hj Hg. rewrite cnt_min. assert (length (P j) = K) as ->.
    { rewrite HP. unfold phaseProg. rewrite Hj. cbn [flat_map]. by rewrite app_nil_r, length_map, length_seq. }
    apply (cnt_phase g j 0 ψ); [by rewrite Hj|done|lia|lia]. }
  unfold recvs, sends in Hc. rewrite (Hcnt _ i φ), (Hcnt _ p φ') in Hc by (done || intros; by apply isIn_spec). done.
Qed.

Context (U : Phases).

Lemma phase_recvs i f φ p s : proc i !! f = Some φ -> p ∈ phRecv φ -> (s <= K)%nat -> recvs P i p (f * K + s) = s.
Proof.
  intros Hf Hp. apply (cnt_phase _ i f φ); [done|intros; by apply isIn_spec|].
  intros f' φ' s' Hlt Hf'. apply isIn_false. intros Hp'.
  pose proof (ph_recv_once U i f f' φ φ' p Hf Hf' Hp Hp'). lia.
Qed.

Lemma phase_sends i f φ q s : proc i !! f = Some φ -> q ∈ phSend φ -> (s <= K)%nat -> sends P i q (f * K + s) = s.
Proof.
  intros Hf Hq. apply (cnt_phase _ i f φ); [done|intros; by apply isIn_spec|].
  intros f' φ' s' Hlt Hf'. apply isIn_false. intros Hq'.
  pose proof (ph_send_once U i f f' φ φ' q Hf Hf' Hq Hq'). lia.
Qed.

(** ** Memory *)

Lemma written_upd g k i v a w :
  owner i <> g -> writtenAt g (upd k i v) a w <-> writtenAt g k a w.
Proof.
  intros Hi. split; intros (j & f & φ & s & b & Hj & H1); exists j, f, φ, s, b;
    (rewrite upd_neq in * by congruence); done.
Qed.

(** The addresses written by one more slice. *)
Lemma written_next i k f φ s a v :
  proc i !! f = Some φ -> (s < K)%nat -> k i = (f * K + s)%nat ->
  writtenAt (owner i) (upd k i (S (k i))) a v <->
  writtenAt (owner i) k a v \/ exists b, phDst φ = Some b /\ inSlice s (a - b) /\ v = val i f (a - b).
Proof.
  intros Hf Hs Hk. split.
  - intros (j & f' & φ' & s' & b & Hj & Hf' & Hb & Hlt & Hin & Hv). destruct (Nat.eq_dec i j) as [<-|Hne].
    + rewrite upd_eq in Hlt. destruct (Nat.eq_dec (f' * K + s') (k i)) as [E|].
      * right. destruct Hin as [Hs' Hin]. assert (f' = f /\ s' = s) as [-> ->].
        { rewrite Hk in E. assert (f' = f) by nia. lia. }
        simplify_eq. exists b. split_and!; (done || split; done).
      * left. exists i, f', φ', s', b. split_and!; (done || lia || apply Hin).
    + rewrite upd_neq in Hlt by done. left. by exists j, f', φ', s', b.
  - intros [(j & f' & φ' & s' & b & Hj & Hf' & Hb & Hlt & Hin)|(b & Hb & Hin & Hv)].
    + exists j, f', φ', s', b. split_and!; try done; [|apply Hin..].
      pose proof (upd_le k i j). lia.
    + exists i, f, φ, s, b. rewrite upd_eq. split_and!; (done || lia || apply Hin).
Qed.

Lemma written_fun g k a v w : writtenAt g k a v -> writtenAt g k a w -> v = w.
Proof.
  intros (i & f & φ & s & b & Hi & Hf & Hb & _ & _ & ->) (i' & f' & φ' & s' & b' & Hi' & Hf' & Hb' & _ & _ & ->).
  destruct (ph_writer U i f φ b i' f' φ' b') as [<- <-]; [done..|congruence|]. by simplify_eq.
Qed.

Lemma phase_store i k f φ s m :
  proc i !! f = Some φ -> (s < K)%nat -> k i = (f * K + s)%nat -> phaseGood (owner i) k m ->
  phaseGood (owner i) (upd k i (S (k i))) (storeDst (phaseSlice φ s) m (phaseMsg i (k i))).
Proof.
  intros Hf Hs Hk Hm a. rewrite Hk, phaseMsg_at by done.
  assert (forall b, phDst φ = Some b -> inSlice s (a - b) ->
    storeDst (phaseSlice φ s) m (map (fun e => val i f (x s + Z.of_nat e)) (seq 0 (len s))) a = val i f (a - b)) as Hin.
  { intros b Hb [_ Hi]. unfold storeDst, phaseSlice. cbn [dstAt]. rewrite Hb.
    replace a with (b + x s + Z.of_nat (Z.to_nat (a - b - x s))) at 1 by lia. apply store_in.
    rewrite list_lookup_fmap, lookup_seq_lt by lia. simpl. f_equal. f_equal. lia. }
  assert ((~ exists b, phDst φ = Some b /\ inSlice s (a - b)) ->
    storeDst (phaseSlice φ s) m (map (fun e => val i f (x s + Z.of_nat e)) (seq 0 (len s))) a = m a) as Hout.
  { intros Hn. unfold storeDst, phaseSlice. cbn [dstAt]. destruct (phDst φ) as [b|] eqn:Eb; [|done].
    apply store_out. rewrite length_map, length_seq. intros Ha. apply Hn. exists b. split; [done|]. split; [done|lia]. }
  rewrite <- Hk. split.
  - intros v Hv. pose proof (proj1 (written_next i k f φ s a v Hf Hs Hk) Hv) as [Hw|(b & Hb & Hi & ->)]; [|by apply Hin].
    assert ((exists b, phDst φ = Some b /\ inSlice s (a - b)) \/ ~ exists b, phDst φ = Some b /\ inSlice s (a - b)) as Hd.
    { destruct (phDst φ) as [b|]; [|right; by intros (?&?&_)].
      destruct (decide (x s <= a - b < x s + Z.of_nat (len s))) as [Hd|Hd]; [left|right].
      - exists b. split; [done|]. by split.
      - intros (b' & ? & _ & Hi). simplify_eq. done. }
    destruct Hd as [(b & Hb & Hi)|Hd]; [|rewrite Hout by done; by apply (Hm a)].
    rewrite (Hin b Hb Hi). eapply written_fun; [|exact Hv].
    apply (written_next i k f φ s); [done..|]. right. by exists b.
  - intros Hn. rewrite Hout.
    + apply (Hm a). intros (v & Hv). apply Hn. exists v. apply (written_next i k f φ s); [done..|by left].
    + intros (b & Hb & Hi). apply Hn. exists (val i f (a - b)).
      apply (written_next i k f φ s); [done..|]. right. by exists b.
Qed.

(** ** The interface *)

Lemma phase_msg (k : nat -> nat) i o m inbox :
  P i !! k i = Some o -> causal P k -> phaseGood (owner i) k m ->
  (forall p k' o', p ∈ recvFrom o -> P p !! k' = Some o' -> i ∈ sendTo o' ->
     sends P p i k' = recvs P i p (k i) -> (k' < k p)%nat /\ inbox p = phaseMsg p k') ->
  sliceVal fn o m inbox = phaseMsg i (k i) /\
  phaseGood (owner i) (upd k i (S (k i))) (storeDst o m (phaseMsg i (k i))).
Proof.
  intros Ho Hc Hm Hin. destruct (phase_inv i (k i) o Ho) as (f & s & φ & Hk & Hs & Hf & ->).
  split; [|by apply (phase_store i k f)]. rewrite Hk, phaseMsg_at by done.
  apply (sliceVal_fold fn (phaseSlice φ s) m inbox (fun p e => val p f (x s + Z.of_nat e))
    (fun e => val i f (x s + Z.of_nat e))); cbn [recvFrom srcAt sliceLen doPost phaseSlice].
  - intros p Hp. destruct (ph_recv U i f φ p Hf Hp) as (φ' & Hf' & Hi).
    rewrite <- phaseMsg_at by done. apply (Hin p _ (phaseSlice φ' s)); [done|by apply phase_at|done|].
    rewrite Hk, (phase_recvs i f φ), (phase_sends p f φ'); (done || lia).
  - intros e He. assert (inSlice s (x s + Z.of_nat e)) as Hy by (split; [done|lia]).
    rewrite <- (ph_val U i f φ s _ Hf Hy). unfold preOf. cbn [srcAt phaseSlice].
    destruct (phSrc φ) as [[c b]|] eqn:Es; [|done]. f_equal. f_equal.
    replace (b + x s + Z.of_nat e) with (b + (x s + Z.of_nat e)) by lia.
    destruct (ph_src U i f φ c b s _ k Hf Es Hy Hc Hk) as [Hw|[Hn ->]]; by apply Hm.
  - destruct (ph_operand U i f φ Hf) as [H1|H1]; [left|by right]. by destruct (phSrc φ) as [[]|].
Qed.

(** Each slice has its place: phase by phase, slice by slice, peers in order. *)
Definition phaseTime (i k : nat) : nat := (k * (H + 1) + dep i (k / K))%nat.

Lemma phaseTime_at i f s : (s < K)%nat -> phaseTime i (f * K + s) = ((f * K + s) * (H + 1) + dep i f)%nat.
Proof.
  intros Hs. unfold phaseTime. by rewrite (Nat.add_comm (f * K)), Nat.div_add, Nat.div_small, Nat.add_0_l by lia.
Qed.

Definition phase_kernel : Kernel fn SPS stepLen owner n P mem0.
Proof.
  refine {| msg := phaseMsg; good := phaseGood; time := phaseTime |}.
  - apply U.
  - apply U.
  - intros i Hi. rewrite HP. unfold phaseProg. by rewrite (ph_idle U i Hi).
  - intros i k o (f & s & φ & _ & _ & Hf & ->)%phase_inv. by apply (ph_nodup U i f).
  - intros i k o (f & s & φ & -> & Hs & Hf & ->)%phase_inv. rewrite phaseMsg_at, length_map, length_seq by done.
    split; [done|]. by apply U.
  - intros g a. split; [|done]. intros v (i & f & φ & s & b & _ & _ & _ & Hlt & _). lia.
  - intros g k i v m Hi Hm a. destruct (Hm a) as [H1 H2]. split.
    + intros w Hw. apply H1. by apply (written_upd g k i v) in Hw.
    + intros Hn. apply H2. intros (w & Hw). apply Hn. exists w. by apply written_upd.
  - apply phase_msg.
  - intros i k k' Hk. destruct (Nat.eq_dec k k') as [->|]; [done|]. unfold phaseTime.
    pose proof (ph_dep_le U i (k / K)). nia.
  - intros i k o p (f & s & φ & -> & Hs & Hf & ->)%phase_inv Hp. cbn [recvFrom phaseSlice] in Hp.
    destruct (ph_recv U i f φ p Hf Hp) as (φ' & Hf' & Hi). exists (f * K + s)%nat, (phaseSlice φ' s).
    split_and!; [by apply phase_at|done|rewrite (phase_recvs i f φ), (phase_sends p f φ'); (done || lia)|].
    rewrite !phaseTime_at by done. pose proof (ph_dep U i f φ p Hf Hp). lia.
  - intros i k o p k' o' (f & s & φ & -> & Hs & Hf & ->)%phase_inv Hp (f' & s' & φ' & -> & Hs' & Hf' & ->)%phase_inv Hi E.
    cbn [recvFrom sendTo sliceLen phaseSlice] in *. destruct (ph_recv U i f φ p Hf Hp) as (φ'' & Hf'' & Hi'').
    assert (f' = f) as -> by by apply (ph_send_once U p f' f φ' φ'' i).
    rewrite (phase_sends p f φ'), (phase_recvs i f φ) in E by (done || lia). by rewrite E.
  - intros i k o q (f & s & φ & -> & Hs & Hf & ->)%phase_inv Hq. cbn [sendTo phaseSlice] in Hq.
    destruct (ph_send U i f φ q Hf Hq) as (φ' & Hf' & Hi). pose proof (ph_SPS U).
    rewrite (phase_sends i f φ) by (done || lia). destruct s as [|s]; [left; lia|right].
    exists (f * K + s)%nat, (phaseSlice φ' s). split_and!; [apply phase_at; [done|lia]|done| |].
    + rewrite !phaseTime_at by lia. pose proof (ph_dep_le U q f). lia.
    + rewrite (phase_recvs q f φ') by (done || lia). lia.
Defined.

(** The run of a kernel in phases: each rank ends with its own memory overlaid
    with what its processes have written. *)
Lemma phase_runsTo chunkSteps start fifo0 Post :
  0 < chunkSteps -> chunkSteps mod SPS = 0 ->
  (forall i m, (i < n)%nat ->
     (forall a, (forall v, writtenAt (owner i) (fun j => length (proc j) * K)%nat a v -> m a = v) /\
        ((~ exists v, writtenAt (owner i) (fun j => length (proc j) * K)%nat a v) -> m a = mem0 (owner i) a)) ->
     Post (owner i) m) ->
  runsTo fn SPS stepLen owner n (initConfig P mem0 (connStart chunkSteps start) fifo0) Post.
Proof.
  intros Hcs Hcd HPost. apply (kernel_runsTo _ _ _ _ _ _ _ phase_kernel); [done|done|]. intros i k m Hi Hk Hm. apply (HPost i m Hi).
  assert (forall j, k j = (length (proc j) * K)%nat) as Hl.
  { intros j. rewrite Hk, HP. unfold phaseProg. rewrite (length_flat_map_const _ K); [done|].
    intros φ. by rewrite length_map, length_seq. }
  assert (forall a v, writtenAt (owner i) (fun j => length (proc j) * K)%nat a v <-> writtenAt (owner i) k a v) as Hw.
  { intros a v. split; intros (j & f & φ & s & b & H1 & H2 & H3 & H4 & H5); exists j, f, φ, s, b;
      (rewrite Hl in * || rewrite <- Hl in * ); done. }
  intros a. destruct (Hm a) as [H1 H2]. split.
  - intros v Hv. apply H1. by apply Hw.
  - intros Hn. apply H2. intros (v & Hv). apply Hn. exists v. by apply Hw.
Qed.
End phases.

(** ** Loops of one call are phases *)

(** The phase of the call [genericOp<.., Recv, Send, SrcBuf, DstBuf>] over the
    elements from [grid] on. *)
Definition phaseOf (p : Primitives) (Recv Send : bool) (SrcBuf DstBuf : option bufId) (post : bool) (grid : Z) : phase := {|
  phRecv := if Recv then recvPeers p else [];
  phSend := if Send then sendPeers p else [];
  phSrc := match SrcBuf with
           | Some b => Some (match b with Input => true | Output => false end, userBuf p b + grid)
           | None => None
           end;
  phDst := match DstBuf with Some b => Some (userBuf p b + grid) | None => None end;
  phPost := post |}.

Section phaseLoop.
Context (p : Primitives) (count chunk : Z).

Definition loopSlices : nat := (loopFuel count chunk * SlicePerChunk p)%nat.
Definition sliceAt (k : nat) : Z := loopX p count chunk (k / SlicePerChunk p) (k mod SlicePerChunk p).
Definition sliceLenAt (k : nat) : nat := Z.to_nat (sliceSz p (loopLen count chunk (k / SlicePerChunk p)) (k mod SlicePerChunk p)).

Context (Hchunk : 0 < chunk) (Hcount : 0 <= count) (HSPC : (0 < SlicePerChunk p)%nat).
Context (Hstep : 0 <= stepSize p * StepPerSlice p) (Hmax : chunk + 16 * Z.of_nat (SlicePerChunk p) < 2 ^ 31).

Lemma flat_map_map_seq {A} (g : nat -> nat -> A) L S :
  (0 < S)%nat -> flat_map (fun l => map (g l) (seq 0 S)) (seq 0 L) = map (fun k => g (k / S) (k mod S))%nat (seq 0 (L * S)).
Proof.
  intros HS. assert (forall l, length (map (g l) (seq 0 S)) = S) as Hlen by (intros; by rewrite length_map, length_seq).
  apply list_eq. intros k.
  destruct (Nat.lt_ge_cases k (L * S)) as [Hk|Hk].
  - rewrite (lookup_flat_map_seq _ S), !list_lookup_fmap, !lookup_seq_lt by (done || by apply Nat.mod_upper_bound; lia).
    done.
  - rewrite !lookup_ge_None_2; [done|by rewrite length_map, length_seq|].
    by rewrite (length_flat_map_const _ S), length_seq.
Qed.

Lemma loop_phase Recv Send SrcBuf DstBuf post grid (six dix : Z -> Z) :
  (SrcBuf <> None -> forall o, six o = o) -> (DstBuf <> None -> forall o, dix o = o) ->
  forElems (loopFuel count chunk) 0 count chunk (fun elemOffset =>
    genericOp p Recv Send SrcBuf DstBuf (six (grid + elemOffset)) (dix (grid + elemOffset))
      (cwrap i32 (Z.min chunk (count - elemOffset))) post) =
  map (phaseSlice sliceAt sliceLenAt (phaseOf p Recv Send SrcBuf DstBuf post grid)) (seq 0 loopSlices).
Proof.
  intros Hsix Hdix. rewrite forElems_loop by done. unfold loopSlices.
  set (op := fun l s => {|
    recvFrom := if Recv then recvPeers p else []; sendTo := if Send then sendPeers p else [];
    srcAt := match SrcBuf with
      | Some b => Some (match b with Input => true | Output => false end, userBuf p b + grid + loopX p count chunk l s)
      | None => None end;
    dstAt := match DstBuf with Some b => Some (userBuf p b + grid + loopX p count chunk l s) | None => None end;
    sliceLen := Z.to_nat (sliceSz p (loopLen count chunk l) s); doPost := post |}).
  transitivity (flat_map (fun l => map (op l) (seq 0 (SlicePerChunk p))) (seq 0 (loopFuel count chunk))).
  2: { rewrite flat_map_map_seq by done. apply map_ext. intros k. by destruct SrcBuf, DstBuf. }
  apply flat_map_ext_in. intros l Hl%in_seq. fold (loopLen count chunk l).
  destruct (loopLen_ok p count chunk Hchunk Hcount HSPC Hstep Hmax l ltac:(lia)) as (_ & Hok & E & _ & E').
  rewrite E, genericOp_eq by (by rewrite E'). rewrite E'. apply map_ext_in. intros s _.
  unfold op, callSlice, loopX. f_equal.
  - destruct SrcBuf as [b|]; [|done]. rewrite Hsix by done. do 2 f_equal. lia.
  - destruct DstBuf as [b|]; [|done]. rewrite Hdix by done. f_equal. lia.
Qed.

Lemma sliceLenAt_fits s :
  fifoFits (SlicePerChunk p) (StepPerSlice p) (stepSize p) chunk -> (s < loopSlices)%nat ->
  Z.of_nat (sliceLenAt s) <= StepPerSlice p * stepSize p.
Proof.
  intros [_ Hf] Hs. unfold loopSlices, sliceLenAt in *.
  assert (s / SlicePerChunk p < loopFuel count chunk)%nat as Hl by (apply Nat.Div0.div_lt_upper_bound; lia).
  destruct (loopLen_ok p count chunk Hchunk Hcount HSPC Hstep Hmax _ Hl) as (Hn & _).
  pose proof (sliceSz_fits p (loopLen count chunk (s / SlicePerChunk p)) chunk (s mod SlicePerChunk p) Hstep HSPC ltac:(lia) Hf).
  lia.
Qed.

Lemma inSlice_elem s y : inSlice loopSlices sliceAt sliceLenAt s y -> 0 <= y < count.
Proof.
  intros [Hs Hy]. unfold loopSlices, sliceAt, sliceLenAt in *.
  assert (s / SlicePerChunk p < loopFuel count chunk)%nat as Hl by (apply Nat.Div0.div_lt_upper_bound; lia).
  apply (inLoop_spec p count chunk Hchunk Hcount HSPC Hstep Hmax (s / SlicePerChunk p) (s mod SlicePerChunk p)); [done|].
  unfold inLoop. lia.
Qed.

Lemma inSlice_unique s s' y :
  inSlice loopSlices sliceAt sliceLenAt s y -> inSlice loopSlices sliceAt sliceLenAt s' y -> s = s'.
Proof.
  intros [Hs Hy] [Hs' Hy']. unfold loopSlices, sliceAt, sliceLenAt in *.
  assert (forall s, s < loopFuel count chunk * SlicePerChunk p -> s / SlicePerChunk p < loopFuel count chunk)%nat as Hl
    by (intros; apply Nat.Div0.div_lt_upper_bound; lia).
  destruct (inLoop_unique p count chunk Hchunk Hcount HSPC Hstep Hmax (s / SlicePerChunk p) (s mod SlicePerChunk p)
    (s' / SlicePerChunk p) (s' mod SlicePerChunk p) y) as [E1 E2]; [by apply Hl|by apply Hl|unfold inLoop; lia..|].
  rewrite (Nat.div_mod_eq s (SlicePerChunk p)), (Nat.div_mod_eq s' (SlicePerChunk p)). congruence.
Qed.

Lemma elem_inSlice y : 0 <= y < count -> exists s, inSlice loopSlices sliceAt sliceLenAt s y.
Proof.
  intros Hy. destruct (inLoop_exists p count chunk Hchunk HSPC y Hy) as (l & s & Hl & Hs & Hin).
  exists (l * SlicePerChunk p + s)%nat. unfold inSlice, loopSlices, sliceAt, sliceLenAt.
  rewrite (Nat.add_comm (l * _)), Nat.div_add, Nat.Div0.mod_add, Nat.div_small, Nat.mod_small, Nat.add_0_l by lia.
  unfold inLoop in Hin. split; [nia|lia].
Qed.

(** The result of a kernel in phases over the loop. *)
Lemma loop_runsTo {T} (fn : redFn T) SPS stepLen owner n H proc mem0 (val srcVal : nat -> nat -> Z -> T) dep P
    chunkSteps start fifo0 Post :
  0 < chunkSteps -> chunkSteps mod SPS = 0 ->
  (forall i, P i = phaseProg loopSlices proc sliceAt sliceLenAt i) ->
  Phases fn SPS stepLen owner n loopSlices H proc mem0 sliceAt sliceLenAt val srcVal dep P ->
  (forall i m, (i < n)%nat ->
     (forall j f φ b y, owner j = owner i -> proc j !! f = Some φ -> phDst φ = Some b -> 0 <= y < count ->
        m (b + y) = val j f y) ->
     (forall a, (forall j f φ b, owner j = owner i -> proc j !! f = Some φ -> phDst φ = Some b -> ~ 0 <= a - b < count) ->
        m a = mem0 (owner i) a) ->
     Post (owner i) m) ->
  runsTo fn SPS stepLen owner n (initConfig P mem0 (connStart chunkSteps start) fifo0) Post.
Proof.
  intros Hcs Hcd HP U HPost. eapply phase_runsTo; [exact HP|exact U|done|done|]. intros i m Hi Hm. apply (HPost i m Hi).
  - intros j f φ b y Hj Hf Hb Hy. destruct (elem_inSlice y Hy) as (s & Hs). apply (Hm (b + y)).
    exists j, f, φ, s, b. replace (b + y - b) with y by lia. split_and!; try done.
    apply lookup_lt_Some in Hf. destruct Hs. nia.
  - intros a Ha. apply (Hm a). intros (v & j & f & φ & s & b & Hj & Hf & Hb & _ & Hin & _).
    apply (Ha j f φ b Hj Hf Hb). by apply (inSlice_elem s).
Qed.
End phaseLoop.
