(* ===== verification/RingColl.v ===== *)
(** * Ring collectives (src/src/device/all_reduce.h, all_gather.h,
    reduce_scatter.h, broadcast.h, reduce.h)

    The ring kernels as the sequence of primitive calls each rank makes.  Ranks
    are named by their position in the ring: position [i] sends to [i + 1] and
    receives from [i - 1], modulo the number of ranks. *)

From stdpp Require Import base numbers list relations.
From Stdlib Require Import ZArith Lia.
From S2P Require Import Prelude Bitops Prims Net DevWork Loops RingNet.

Local Open Scope Z_scope.

(** ** The kernels *)

(** What a ring kernel reads besides its work descriptor: the number of ranks,
    its position, the rank found [j] positions further on ([ring->userRanks]),
    the element size, and the primitives set up for its two peers. *)
Record ringEnv := {
  nranks : nat;
  ringIx : nat;
  userRanks : nat -> Z;
  eltSize : Z;
  prims : Primitives;
  part : cbdPart }.

Section kernels.
Context (e : ringEnv).
Let n := nranks e.
Let p := prims e.

Definition modRanks (r : nat) : nat := (r - (if (n <=? r)%nat then n else 0))%nat.

(* src/src/device/all_reduce.h:13-83 runRing *)
Definition runRingAllReduce : list sliceOp :=
  let gridOffset := partOffset (part e) in
  let channelCount := partCount (part e) in
  let loopCount := Z.of_nat n * chunkCount (part e) in
  forElems (loopFuel channelCount loopCount) 0 channelCount loopCount (fun elemOffset =>
    let remCount := channelCount - elemOffset in
    let chunkCount :=
      if remCount <? loopCount
      then alignUp i64 (divUp i64 remCount (Z.of_nat n)) (16 / eltSize e)
      else chunkCount (part e) in
    let offset chunk := gridOffset + elemOffset + Z.of_nat chunk * chunkCount in
    let nelem chunk := cwrap i32 (Z.min chunkCount (remCount - Z.of_nat chunk * chunkCount)) in
    let chunk := modRanks (ringIx e + n - 1) in
    directSend p (offset chunk) (offset chunk) (nelem chunk) ++
    flat_map (fun j =>
      let chunk := modRanks (ringIx e + n - j) in
      directRecvReduceDirectSend p (offset chunk) (offset chunk) (nelem chunk)) (seq 2 (n - 2)) ++
    (let chunk := ringIx e in
     directRecvReduceCopyDirectSend p (offset chunk) (offset chunk) (nelem chunk) true) ++
    flat_map (fun j =>
      let chunk := modRanks (ringIx e + n - j) in
      directRecvCopyDirectSend p (offset chunk) (offset chunk) (nelem chunk)) (seq 1 (n - 2)) ++
    (let chunk := modRanks (ringIx e + 1) in
     directRecv p (offset chunk) (nelem chunk))).

(** [isNetOffload] is false: the whole block drives the ring. *)
(* src/src/device/all_gather.h:13-75 runRing *)
Definition runRingAllGather : list sliceOp :=
  let count := cbdCount (part e) in
  let chunkCount := chunkCount (part e) in
  let partCount := partCount (part e) in
  forElems (loopFuel partCount chunkCount) 0 partCount chunkCount (fun elemOffset =>
    let nelem := cwrap i32 (Z.min chunkCount (partCount - elemOffset)) in
    let dataOffset := partOffset (part e) + elemOffset in
    let offset rankDest := dataOffset + rankDest * count in
    (if userInput p + dataOffset =? userOutput p + offset (userRanks e 0)
     then directSend p dataOffset (offset (userRanks e 0)) nelem
     else directCopySend p dataOffset (offset (userRanks e 0)) nelem) ++
    flat_map (fun j =>
      let rankDest := userRanks e (n - j)%nat in
      directRecvCopyDirectSend p (offset rankDest) (offset rankDest) nelem) (seq 1 (n - 2)) ++
    directRecv p (offset (userRanks e 1)) nelem).

(* src/src/device/reduce_scatter.h:13-56 runRing *)
Definition runRingReduceScatter : list sliceOp :=
  let count := cbdCount (part e) in
  let chunkCount := chunkCount (part e) in
  let channelCount := partCount (part e) in
  forElems (loopFuel channelCount chunkCount) 0 channelCount chunkCount (fun elemOffset =>
    let nelem := wrap32 (Z.min chunkCount (channelCount - elemOffset)) in
    let dataOffset := partOffset (part e) + elemOffset in
    let offset rankDest := dataOffset + rankDest * count in
    send p (offset (userRanks e (n - 1)%nat)) nelem ++
    flat_map (fun j => recvReduceSend p (offset (userRanks e (n - j)%nat)) nelem) (seq 2 (n - 2)) ++
    recvReduceCopy p (offset (userRanks e 0)) dataOffset nelem true).

(* src/src/device/broadcast.h:13-55 runRing *)
Definition runRingBroadcast (root : Z) : list sliceOp :=
  let rank := userRanks e 0 in
  let nextRank := userRanks e 1 in
  let channelCount := partCount (part e) in
  let chunkCount := chunkCount (part e) in
  forElems (loopFuel channelCount chunkCount) 0 channelCount chunkCount (fun elemOffset =>
    let offset := partOffset (part e) + elemOffset in
    let nelem := cwrap i32 (Z.min chunkCount (channelCount - elemOffset)) in
    if rank =? root then
      if userInput p =? userOutput p then directSend p offset offset nelem
      else directCopySend p offset offset nelem
    else if nextRank =? root then directRecv p offset nelem
    else directRecvCopyDirectSend p offset offset nelem).

(* src/src/device/reduce.h:13-53 runRing *)
Definition runRingReduce (root : Z) : list sliceOp :=
  let rank := userRanks e 0 in
  let prevRank := userRanks e (n - 1)%nat in
  let channelCount := partCount (part e) in
  let chunkCount := chunkCount (part e) in
  let loop body := forElems (loopFuel channelCount chunkCount) 0 channelCount chunkCount (fun elemOffset =>
    body (partOffset (part e) + elemOffset) (cwrap i32 (Z.min chunkCount (channelCount - elemOffset)))) in
  if prevRank =? root then loop (fun offset nelem => send p offset nelem)
  else if rank =? root then loop (fun offset nelem => recvReduceCopy p offset offset nelem true)
  else loop (fun offset nelem => recvReduceSend p offset nelem).
End kernels.

(** ** Runs *)

(** The parameters of a run on one channel: [inB] and [outB] are the buffers of
    each rank (equal, or without overlap), [chunk0] the chunk size, and
    [align] the elements in 16 bytes. *)
Record ringRun (T : Type) := {
  rr_fn : redFn T;
  rr_n : nat;
  rr_grid : Z;
  rr_count : Z;
  rr_chunk : Z;
  rr_elt : Z;
  rr_in : nat -> Z;
  rr_out : nat -> Z;
  rr_step : Z;
  rr_SPC : nat;
  rr_SPS : Z;
  rr_mem : nat -> mem T }.
Arguments rr_fn {T}.
Arguments rr_n {T}.
Arguments rr_grid {T}.
Arguments rr_count {T}.
Arguments rr_chunk {T}.
Arguments rr_elt {T}.
Arguments rr_in {T}.
Arguments rr_out {T}.
Arguments rr_step {T}.
Arguments rr_SPC {T}.
Arguments rr_SPS {T}.
Arguments rr_mem {T}.

(** The primitives and the environment of the rank at position [i]. *)
Definition ringPrims {T} (r : ringRun T) (i : nat) : Primitives := {|
  recvPeers := [prevPos (rr_n r) i]; sendPeers := [nextPos (rr_n r) i];
  userInput := rr_in r i; userOutput := rr_out r i;
  stepSize := rr_step r; SlicePerChunk := rr_SPC r; StepPerSlice := rr_SPS r |}.

(** [rankAt j] is the rank at position [j] of the ring, [total] the elements
    of the whole collective. *)
Definition ringEnvOf {T} (r : ringRun T) (rankAt : nat -> Z) (total : Z) (i : nat) : ringEnv := {|
  nranks := rr_n r; ringIx := i;
  userRanks := fun j => rankAt ((i + j) mod rr_n r)%nat;
  eltSize := rr_elt r;
  prims := ringPrims r i;
  part := {| cbdCount := total; partOffset := rr_grid r; partCount := rr_count r; chunkCount := rr_chunk r |} |}.

(** What a run needs: at least two ranks, room in the FIFO for one slice more
    than a call has, sizes within the machine widths, and chunks that fit the
    buffers. *)
Definition ringRunOk {T} (r : ringRun T) : Prop :=
  (2 <= rr_n r)%nat /\ (0 < rr_SPC r)%nat /\ 0 < rr_SPS r /\
  rr_SPS r * (Z.of_nat (rr_SPC r) + 1) <= NCCL_STEPS /\ 0 <= rr_step r /\
  In (rr_elt r) [1; 2; 4; 8] /\ 0 <= rr_count r /\ 0 < rr_chunk r /\
  rr_chunk r + 16 + 16 * Z.of_nat (rr_SPC r) < 2 ^ 31 /\ Z.of_nat (rr_n r) < 2 ^ 26 /\
  rr_count r < 2 ^ 62 /\ fifoFits (rr_SPC r) (rr_SPS r) (rr_step r) (rr_chunk r).

Ltac ring_run_ok := unfold ringRunOk, fifoFits; split_and!; try (unfold NCCL_STEPS; simpl; lia); vm_compute; congruence.

(** The slices of a call no longer than a chunk fit the buffers. *)
Lemma ring_slice_fits {T} (r : ringRun T) i nelem s :
  ringRunOk r -> 0 <= nelem <= roundUpTo (16 * Z.of_nat (rr_SPC r)) (rr_chunk r) ->
  Z.of_nat (Z.to_nat (sliceSz (ringPrims r i) nelem s)) <= rr_SPS r * rr_step r.
Proof.
  intros (Hn & HSPC & HSPS & Hcap & Hstep & _ & _ & Hch & _ & _ & _ & _ & Hfit) Hne.
  assert (0 <= rr_SPS r * rr_step r) by nia.
  pose proof (sliceSz_fits (ringPrims r i) nelem (roundUpTo (16 * Z.of_nat (rr_SPC r)) (rr_chunk r)) s) as H'.
  cbn [stepSize StepPerSlice SlicePerChunk ringPrims] in H'.
  rewrite (roundUpTo_id _ (roundUpTo _ _)) in H' by (lia || (apply roundUpTo_spec; lia)). nia.
Qed.

Lemma ring_chunk_fits {T} (r : ringRun T) i nelem s :
  ringRunOk r -> 0 <= nelem <= rr_chunk r ->
  Z.of_nat (Z.to_nat (sliceSz (ringPrims r i) nelem s)) <= rr_SPS r * rr_step r.
Proof.
  intros Hok Hne. apply ring_slice_fits; [done|]. destruct Hok as (_ & HSPC & _).
  destruct (roundUpTo_spec (16 * Z.of_nat (rr_SPC r)) (rr_chunk r) ltac:(lia)). lia.
Qed.

Definition ringProg {T} (r : ringRun T) (kernel : nat -> list sliceOp) (i : nat) : list sliceOp :=
  if (i <? rr_n r)%nat then kernel i else [].

(** ** Reduction around the ring *)

(** The position whose chunk the rank at position [i] handles in call [o]. *)
Definition chunkAt (n i o : nat) : nat := (i + 2 * n - 1 - o) mod n.

(** The reduction along the ring of one value per rank, over the [t + 1] ranks
    that start at position [c + 1]. *)
Fixpoint ringFold {T} (op : T -> T -> T) (n : nat) (f : nat -> T) (c t : nat) : T :=
  match t with
  | O => f ((c + 1) mod n)%nat
  | S t => op (f ((c + 2 + t) mod n)%nat) (ringFold op n f c t)
  end.

Lemma chunkAt_lt n i o : (0 < n)%nat -> (chunkAt n i o < n)%nat.
Proof. intros. apply Nat.mod_upper_bound. lia. Qed.

Lemma chunkAt_prev n i o : (1 <= o < 2 * n)%nat -> (i < n)%nat -> chunkAt n (prevPos n i) (o - 1) = chunkAt n i o.
Proof.
  intros Ho Hi. unfold chunkAt, prevPos.
  replace ((i + n - 1) mod n + 2 * n - 1 - (o - 1))%nat with ((i + n - 1) mod n + (2 * n - o))%nat by lia.
  rewrite Nat.Div0.add_mod_idemp_l.
  replace (i + n - 1 + (2 * n - o))%nat with (i + 2 * n - 1 - o + 1 * n)%nat by lia. by rewrite Nat.Div0.mod_add.
Qed.

(** The rank that adds its input to a chunk in call [o]. *)
Lemma chunkAt_rank n i o : (o <= n - 1)%nat -> (i < n)%nat -> ((chunkAt n i o + 1 + o) mod n)%nat = i.
Proof.
  intros Ho Hi. unfold chunkAt. rewrite <- Nat.add_assoc, Nat.Div0.add_mod_idemp_l.
  replace (i + 2 * n - 1 - o + (1 + o))%nat with (i + 2 * n)%nat by lia.
  rewrite Nat.Div0.mod_add. by apply Nat.mod_small.
Qed.

Lemma chunkAt_wrap n i o x :
  (x = i + 2 * n - 1 - o \/ x + n = i + 2 * n - 1 - o)%nat -> (x mod n)%nat = chunkAt n i o.
Proof.
  intros [->|E]; [done|]. unfold chunkAt. rewrite <- E. replace (x + n)%nat with (x + 1 * n)%nat by lia.
  by rewrite Nat.Div0.mod_add.
Qed.

(** The first and the later calls of the reduction. *)
Lemma ringFold_first {T} (op : T -> T -> T) n f i : (2 <= n)%nat -> (i < n)%nat -> f i = ringFold op n f (chunkAt n i 0) 0.
Proof.
  intros Hn Hi. cbn [ringFold]. f_equal. rewrite <- (chunkAt_rank n i 0) at 1 by lia. f_equal. lia.
Qed.

Lemma ringFold_next {T} (op : T -> T -> T) n f i o :
  (1 <= o <= n - 1)%nat -> (i < n)%nat ->
  op (f i) (ringFold op n f (chunkAt n i o) (o - 1)) = ringFold op n f (chunkAt n i o) o.
Proof.
  intros Ho Hi. destruct o as [|o]; [lia|]. rewrite Nat.sub_succ, Nat.sub_0_r. cbn [ringFold]. f_equal. f_equal.
  rewrite <- (chunkAt_rank n i (S o)) at 1 by lia. f_equal. lia.
Qed.

(** The reduction of a list, in any order when [op] is commutative and associative. *)
Definition reduceList {T} (op : T -> T -> T) (l : list T) : option T :=
  foldr (fun x acc => match acc with None => Some x | Some y => Some (op x y) end) None l.

Lemma reduceList_perm {T} (op : T -> T -> T) l l' :
  (forall x y, op x y = op y x) -> (forall x y z, op x (op y z) = op (op x y) z) ->
  l ≡ₚ l' -> reduceList op l = reduceList op l'.
Proof.
  intros Hc Ha. induction 1 as [|x l l' _ IH|x y l|l1 l2 l3 _ IH1 _ IH2]; [done| | |congruence].
  - cbn [reduceList foldr]. fold (reduceList op l) (reduceList op l'). by rewrite IH.
  - cbn [reduceList foldr]. fold (reduceList op l). destruct (reduceList op l) as [z|]; [by rewrite !Ha, (Hc x y)|by rewrite Hc].
Qed.

(** The ranks in the order the ring reduces them, last first. *)
Definition ringOrder (n c t : nat) : list nat := rev (map (fun j => (c + 1 + j) mod n) (seq 0 (S t)))%nat.

Lemma ringFold_list {T} (op : T -> T -> T) n f c t :
  reduceList op (map f (ringOrder n c t)) = Some (ringFold op n f c t).
Proof.
  unfold ringOrder. induction t as [|t IH]; [simpl; by rewrite Nat.add_0_r|].
  rewrite seq_S, map_app, rev_app_distr. cbn [map rev app]. cbn [reduceList foldr]. unfold reduceList in IH.
  rewrite IH. cbn [ringFold]. do 3 f_equal. f_equal. lia.
Qed.

Lemma ringOrder_perm n c : (0 < n)%nat -> (c < n)%nat -> ringOrder n c (n - 1) ≡ₚ seq 0 n.
Proof.
  intros Hn Hc. unfold ringOrder. replace (S (n - 1)) with n by lia.
  rewrite <- Permutation_rev. apply NoDup_Permutation; [|apply NoDup_ListNoDup, seq_NoDup|].
  - apply NoDup_fmap_2_strong; [|apply NoDup_ListNoDup, seq_NoDup]. intros a b Ha%elem_of_seq Hb%elem_of_seq E.
    apply (mod_add_inj n (c + 1)); lia.
  - intros p. rewrite list_elem_of_fmap. setoid_rewrite elem_of_seq. split.
    + intros (j & -> & _). pose proof (Nat.mod_upper_bound (c + 1 + j) n ltac:(lia)). lia.
    + intros Hp. exists ((p + 2 * n - c - 1) mod n)%nat.
      pose proof (Nat.mod_upper_bound (p + 2 * n - c - 1) n ltac:(lia)). split; [|lia].
      rewrite Nat.Div0.add_mod_idemp_r. replace (c + 1 + (p + 2 * n - c - 1))%nat with (p + 2 * n)%nat by lia.
      rewrite Nat.Div0.mod_add. symmetry. apply Nat.mod_small. lia.
Qed.

(** Over the whole ring a commutative operator gives the reduction in any order. *)
Lemma ringFold_all {T} (op : T -> T -> T) n f c :
  (0 < n)%nat -> (c < n)%nat ->
  (forall x y, op x y = op y x) -> (forall x y z, op x (op y z) = op (op x y) z) ->
  Some (ringFold op n f c (n - 1)) = reduceList op (map f (seq 0 n)).
Proof.
  intros Hn Hc Hcomm Hassoc.
  rewrite <- (reduceList_perm _ _ _ Hcomm Hassoc (Permutation_map f (ringOrder_perm n c Hn Hc))).
  by rewrite ringFold_list.
Qed.

(** ** Kernels made of blocks are pipelines *)

Section blockPipeline.
Context {T : Type} (fn : redFn T) (SPS stepLen : Z) (n SPC L D : nat) (mem0 : nat -> mem T).
Context (op : nat -> nat -> nat -> nat -> sliceOp) (V : nat -> nat -> nat -> nat -> nat -> T) (outv : nat -> Z -> T).

Definition blockProg (i : nat) : list sliceOp := if (i <? n)%nat then blocks L D SPC (op i) else [].

Context (P : nat -> list sliceOp) (HP : forall i, P i = blockProg i).

(** The index of slice [s] of call [o] of loop [l]. *)
Definition blockIx (l o s : nat) : nat := (l * (D * SPC) + o * SPC + s)%nat.

Definition inBlocks (l o s : nat) : Prop := (l < L)%nat /\ (o < D)%nat /\ (s < SPC)%nat.

Definition blockVal (i k e : nat) : T :=
  V i (k / (D * SPC))%nat (k mod (D * SPC) / SPC)%nat ((k mod (D * SPC)) mod SPC)%nat e.

Lemma blockProg_at i l o s : (i < n)%nat -> inBlocks l o s -> P i !! blockIx l o s = Some (op i l o s).
Proof.
  intros Hi (Hl & Ho & Hs). rewrite HP. unfold blockProg. rewrite (proj2 (Nat.ltb_lt _ _) Hi).
  rewrite blocks_lookup; [|lia|lia|by apply block_bound].
  destruct (block_index_unique D SPC l o s Ho Hs) as (E1 & _ & E2 & E3). unfold blockIx. by rewrite E1, E2, E3.
Qed.

Lemma blockProg_inv i k o :
  (0 < D)%nat -> (0 < SPC)%nat -> P i !! k = Some o ->
  (i < n)%nat /\ exists l c s, inBlocks l c s /\ k = blockIx l c s /\ o = op i l c s.
Proof.
  intros HD HS H. rewrite HP in H. unfold blockProg in H. destruct (Nat.ltb_spec i n) as [Hi|]; [|done]. split; [done|].
  pose proof (lookup_lt_Some _ _ _ H) as Hk. rewrite blocks_length in Hk. rewrite blocks_lookup in H by lia.
  injection H as <-. destruct (block_index D SPC k HD HS) as (H1 & H2 & H3).
  exists (k / (D * SPC))%nat, (k mod (D * SPC) / SPC)%nat, (k mod (D * SPC) mod SPC)%nat.
  split_and!; [|done|done]. split_and!; [apply Nat.Div0.div_lt_upper_bound; lia|done|done].
Qed.

Lemma blockVal_at i l o s e : inBlocks l o s -> blockVal i (blockIx l o s) e = V i l o s e.
Proof.
  intros (Hl & Ho & Hs). unfold blockVal, blockIx.
  by destruct (block_index_unique D SPC l o s Ho Hs) as (-> & _ & -> & ->).
Qed.

Lemma block_pipeline :
  (2 <= n)%nat -> (0 < SPC)%nat -> (2 <= D)%nat -> 0 < SPS -> SPS * (Z.of_nat SPC + 1) <= NCCL_STEPS ->
  NCCL_STEPS mod SPS = 0 -> 0 <= stepLen ->
  (forall i l o s, (i < n)%nat -> inBlocks l o s -> Z.of_nat (sliceLen (op i l o s)) <= SPS * stepLen) ->
  (forall i l o s, (i < n)%nat -> inBlocks l o s ->
     recvFrom (op i l o s) = (if negb (o =? 0)%nat then [prevPos n i] else []) /\
     sendTo (op i l o s) = (if negb (o =? D - 1)%nat then [nextPos n i] else []) /\
     (o = 0%nat -> srcAt (op i l o s) <> None) /\
     ((1 <= o)%nat -> sliceLen (op (prevPos n i) l (o - 1) s) = sliceLen (op i l o s))) ->
  (forall i l o s e, (i < n)%nat -> inBlocks l o s -> (e < sliceLen (op i l o s))%nat ->
     elemVal fn (op i l o s) (localVal (mem0 i) (op i l o s) e)
       (if negb (o =? 0)%nat then Some (V (prevPos n i) l (o - 1)%nat s e) else None) = Some (V i l o s e)) ->
  (forall i l o s b a e l' o' s' d, (i < n)%nat -> inBlocks l o s -> srcAt (op i l o s) = Some (b, a) ->
     (e < sliceLen (op i l o s))%nat -> inBlocks l' o' s' -> (blockIx l' o' s' < blockIx l o s)%nat ->
     dstAt (op i l' o' s') = Some d ->
     ~ (d <= a + Z.of_nat e < d + Z.of_nat (sliceLen (op i l' o' s')))) ->
  (forall i l o s d e, (i < n)%nat -> inBlocks l o s -> dstAt (op i l o s) = Some d ->
     (e < sliceLen (op i l o s))%nat -> V i l o s e = outv i (d + Z.of_nat e)) ->
  Pipeline fn SPS stepLen n (D * SPC) SPC (L * (D * SPC)) P mem0 blockVal outv.
Proof.
  intros Hn HSPC HD HSPS Hcap Hdiv Hlen Hfit Hop Hval Hsrc Hdst.
  assert (forall i k o, P i !! k = Some o ->
    exists l c s, inBlocks l c s /\ k = blockIx l c s /\ o = op i l c s) as Hinv.
  { intros i k o H. apply blockProg_inv in H as [_ H]; [done|lia|done]. }
  split; try done.
  - nia.
  - intros i k o [Hi (l & c & s & Hin & -> & ->)]%blockProg_inv; [|lia|done]. by apply Hfit.
  - intros i Hi. rewrite HP. unfold blockProg. by rewrite (proj2 (Nat.ltb_ge _ _) Hi).
  - intros i Hi. rewrite HP. unfold blockProg. by rewrite (proj2 (Nat.ltb_lt _ _) Hi), blocks_length.
  - intros i k o Hi (l & c & s & (Hl & Hc & Hs) & -> & ->)%Hinv. unfold blockIx.
    destruct (block_pos SPC l c s D Hc Hs) as (-> & _). by destruct (Hop i l c s Hi).
  - intros i k o Hi (l & c & s & (Hl & Hc & Hs) & -> & ->)%Hinv. unfold blockIx.
    destruct (block_pos SPC l c s D Hc Hs) as (_ & -> & _). by destruct (Hop i l c s Hi) as (_ & -> & _).
  - intros i k o o' Hi (l & c & s & Hin & -> & ->)%Hinv Hk H'. pose proof Hin as (Hl & Hc & Hs). unfold blockIx in *.
    destruct (block_pos SPC l c s D Hc Hs) as (Hb & _ & Hsub).
    rewrite (proj2 (Nat.leb_le _ _) Hk) in Hb. destruct (Nat.eqb_spec c 0); [done|].
    rewrite Hsub in H' by lia. change (l * (D * SPC) + (c - 1) * SPC + s)%nat with (blockIx l (c - 1) s) in H'.
    rewrite blockProg_at in H' by ((apply prevPos_lt; lia) || (split_and!; lia)). injection H' as <-.
    destruct (Hop i l c s Hi Hin) as (_ & _ & _ & H). apply H. lia.
  - intros i k o Hi (l & c & s & Hin & -> & ->)%Hinv Hk. pose proof Hin as (Hl & Hc & Hs). unfold blockIx in *.
    destruct (block_pos SPC l c s D Hc Hs) as (Hb & _ & _).
    rewrite (proj2 (Nat.leb_gt _ _) Hk) in Hb. destruct (Nat.eqb_spec c 0) as [->|]; [|done].
    destruct (Hop i l 0%nat s Hi Hin) as (_ & _ & H & _). by apply H.
  - intros i k o e Hi (l & c & s & Hin & -> & ->)%Hinv He. pose proof Hin as (Hl & Hc & Hs).
    rewrite blockVal_at by done. rewrite <- (Hval i l c s e Hi Hin He). f_equal.
    destruct (block_pos SPC l c s D Hc Hs) as (E & _ & Hsub). unfold blockIx. rewrite E.
    destruct (Nat.eqb_spec c 0); [done|]. simpl negb. cbv iota. rewrite Hsub by lia. f_equal.
    apply (blockVal_at (prevPos n i) l (c - 1) s e). split_and!; lia.
  - intros i k o b a e Hi (l & c & s & Hin & -> & ->)%Hinv Hs He (k' & o' & d & Hk & Ho' & Hd & Ha).
    apply Hinv in Ho' as (l' & c' & s' & Hin' & -> & ->). by apply (Hsrc i l c s b a e l' c' s' d).
  - intros i k o d e Hi (l & c & s & Hin & -> & ->)%Hinv Hd He. rewrite blockVal_at by done. by apply Hdst.
Qed.

(** The addresses a rank has written at the end. *)
Lemma block_written i a :
  (0 < D)%nat -> (0 < SPC)%nat ->
  written P i (L * (D * SPC)) a <->
  exists l o s d, (i < n)%nat /\ inBlocks l o s /\ dstAt (op i l o s) = Some d /\
    d <= a < d + Z.of_nat (sliceLen (op i l o s)).
Proof.
  intros HD HS. split.
  - intros (k & o & d & _ & Ho & Hd & Ha). apply blockProg_inv in Ho as (Hi & l & c & s & Hin & _ & ->); [|done|done].
    by exists l, c, s, d.
  - intros (l & o & s & d & Hi & Hin & Hd & Ha). exists (blockIx l o s), (op i l o s), d.
    split_and!; [destruct Hin as (?&?&?); by apply block_bound|by apply blockProg_at|done|lia|lia].
Qed.

(** The run of a block kernel. *)
Lemma block_runsTo start fifo0 Post :
  (0 < SPC)%nat ->
  (2 <= n)%nat -> Pipeline fn SPS stepLen n (D * SPC) SPC (L * (D * SPC)) P mem0 blockVal outv ->
  (forall i m, (i < n)%nat -> overlay P mem0 outv i (L * (D * SPC)) m -> Post i m) ->
  runsTo fn SPS stepLen id n (initConfig P mem0 (connStart (Z.of_nat SPC * SPS) start) fifo0) Post.
Proof.
  intros HS Hn pl HPost. pose proof (pl_SPS _ _ _ _ _ _ _ _ _ _ _ pl).
  apply (kernel_runsTo _ _ _ _ _ _ _ (pipeline_kernel pl)); [nia|by apply Z.mod_mul; lia|]. intros i k m Hi Hk Hm. apply (HPost i m Hi).
  simpl in Hm. unfold id in Hm. rewrite Hk, HP in Hm. unfold blockProg in Hm. by rewrite (proj2 (Nat.ltb_lt _ _) Hi), blocks_length in Hm.
Qed.
End blockPipeline.
