(* ===== verification/RingAllReduce.v ===== *)
(** * Ring AllReduce (src/src/device/all_reduce.h, runRing)

    Each loop of the kernel covers one chunk per rank: [n - 1] calls reduce the
    chunks around the ring, one completes the rank's own chunk, and [n - 1]
    calls pass the results on.  The program is shown to be a pipeline of
    RingNet whose slices tile the channel's part. *)

From stdpp Require Import base numbers list relations.
From Stdlib Require Import ZArith Lia.
From S2P Require Import Prelude Bitops Prims Net DevWork Loops RingNet RingColl.

Local Open Scope Z_scope.

Section allreduce.
Context {T : Type} (r : ringRun T) (Hok : ringRunOk r) (rankAt : nat -> Z) (total : Z).
Local Abbreviation n := (rr_n r).
Local Abbreviation count := (rr_count r).
Local Abbreviation grid := (rr_grid r).
Local Abbreviation loopCount := (Z.of_nat (rr_n r) * rr_chunk r).

(** The chunk size of a loop: the last one is cut evenly. *)
Definition loopChunk (l : nat) : Z :=
  let rem := count - Z.of_nat l * loopCount in
  if rem <? loopCount then roundUpTo (16 / rr_elt r) ((rem + Z.of_nat n - 1) / Z.of_nat n) else rr_chunk r.

Definition chunkLen (l c : nat) : Z :=
  Z.max 0 (Z.min (loopChunk l) (count - Z.of_nat l * loopCount - Z.of_nat c * loopChunk l)).

(** The first element of a slice of chunk [c] of loop [l]. *)
Definition chunkLo (l c : nat) : Z := Z.of_nat l * loopCount + Z.of_nat c * loopChunk l.

Definition arSlice (i l o s : nat) : sliceOp :=
  let c := chunkAt n i o in
  let base := grid + Z.of_nat l * loopCount + Z.of_nat c * loopChunk l in
  callSlice (ringPrims r i) (negb (o =? 0)%nat) (negb (o =? 2 * n - 2)%nat)
    (if (o <=? n - 1)%nat then Some Input else None) (if (n - 1 <=? o)%nat then Some Output else None)
    base base (chunkLen l c) (o =? n - 1)%nat s.

Definition arProg : nat -> list sliceOp :=
  ringProg r (fun i => runRingAllReduce (ringEnvOf r rankAt total i)).

Lemma n_pos : (0 < n)%nat.
Proof. destruct Hok. lia. Qed.

Lemma loopChunk_bound l : (l < loopFuel count loopCount)%nat -> 0 < loopChunk l <= rr_chunk r + 16 /\
  Z.min loopCount (count - Z.of_nat l * loopCount) <= Z.of_nat n * loopChunk l <= Z.of_nat n * (rr_chunk r + 16) /\
  (count - Z.of_nat l * loopCount < loopCount -> Z.of_nat n * loopChunk l < count - Z.of_nat l * loopCount + Z.of_nat n * 17).
Proof.
  intros Hl. destruct Hok as (Hn & HSPC & HSPS & Hcap & Hstep & Helt & Hc & Hch & Hm & Hn' & Hc' & _).
  destruct (loopFuel_spec count loopCount ltac:(nia) Hc) as [_ [?|Hlast]]; [lia|].
  assert (Z.of_nat l * loopCount < count) as Hrem.
  { eapply Z.le_lt_trans; [|exact Hlast]. apply Z.mul_le_mono_nonneg_r; nia. } set (rem := count - Z.of_nat l * loopCount) in *.
  unfold loopChunk. fold rem. destruct (Z.ltb_spec rem loopCount) as [H|H].
  - set (a := 16 / rr_elt r). assert (0 < a <= 16) as Ha.
    { unfold a. destruct Helt as [<-|[<-|[<-|[<-|[]]]]]; done. }
    set (d := (rem + Z.of_nat n - 1) / Z.of_nat n).
    assert (d * Z.of_nat n <= rem + Z.of_nat n - 1 < d * Z.of_nat n + Z.of_nat n) as Hd.
    { unfold d. pose proof (Z.div_mod (rem + Z.of_nat n - 1) (Z.of_nat n) ltac:(lia)).
      pose proof (Z.mod_pos_bound (rem + Z.of_nat n - 1) (Z.of_nat n) ltac:(lia)). nia. }
    destruct (roundUpTo_spec a d ltac:(lia)) as [_ Hr].
    assert (0 < d <= rr_chunk r) by nia. nia.
  - nia.
Qed.

(** Neither do the chunks of the last loop outgrow the FIFO. *)
Lemma loopChunk_fits l : loopChunk l <= roundUpTo (16 * Z.of_nat (rr_SPC r)) (rr_chunk r).
Proof.
  destruct Hok as (Hn & HSPC & _ & _ & _ & Helt & _ & Hch & _).
  destruct (roundUpTo_spec (16 * Z.of_nat (rr_SPC r)) (rr_chunk r) ltac:(lia)) as [Hdiv Hle].
  unfold loopChunk. destruct (Z.ltb_spec (count - Z.of_nat l * loopCount) loopCount) as [H|]; [|lia].
  set (rem := count - Z.of_nat l * loopCount) in *.
  assert (0 < 16 / rr_elt r /\ (16 / rr_elt r | 16)) as [Ha H16].
  { destruct Helt as [<-|[<-|[<-|[<-|[]]]]]; (split; [done|]); [exists 1|exists 2|exists 4|exists 8]; done. }
  apply roundUpTo_least; [done| |].
  - eapply Z.divide_trans; [exact H16|]. eapply Z.divide_trans; [|exact Hdiv]. apply Z.divide_factor_l.
  - etrans; [|exact (proj1 Hle)]. apply Z.lt_succ_r, Z.div_lt_upper_bound; nia.
Qed.

Lemma loopRem_pos l : (l < loopFuel count loopCount)%nat -> Z.of_nat l * loopCount < count.
Proof.
  intros Hl. destruct Hok as (Hn & _ & _ & _ & _ & _ & Hc & Hch & _).
  destruct (loopFuel_spec count loopCount ltac:(nia) Hc) as [_ [?|Hlast]]; [lia|].
  eapply Z.le_lt_trans; [|exact Hlast]. apply Z.mul_le_mono_nonneg_r; nia.
Qed.

(** The source's chunk size is [loopChunk]. *)
Lemma loopChunk_code l :
  (l < loopFuel count loopCount)%nat ->
  (if count - Z.of_nat l * loopCount <? loopCount
   then alignUp i64 (divUp i64 (count - Z.of_nat l * loopCount) (Z.of_nat n)) (16 / rr_elt r)
   else rr_chunk r) = loopChunk l.
Proof.
  intros Hl. pose proof (loopRem_pos l Hl) as Hrem.
  destruct Hok as (Hn & _ & _ & _ & _ & Helt & Hc & Hch & _ & Hn' & Hc' & _). unfold loopChunk.
  assert (0 <= Z.of_nat l * loopCount) by nia.
  destruct (Z.ltb_spec (count - Z.of_nat l * loopCount) loopCount); [|done].
  set (rem := count - Z.of_nat l * loopCount) in *.
  rewrite divUp_eq by auto with widths.
  assert (0 <= (rem + Z.of_nat n - 1) / Z.of_nat n <= rem + Z.of_nat n) as Hd.
  { split; [apply Z.div_pos; lia|apply Z.div_le_upper_bound; nia]. }
  assert (exists k, 0 <= k <= 4 /\ 16 / rr_elt r = 2 ^ k) as (k & Hk & ->).
  { destruct Helt as [<-|[<-|[<-|[<-|[]]]]]; [exists 4|exists 3|exists 2|exists 1]; done. }
  assert (2 ^ k <= 2 ^ 4) by (apply Z.pow_le_mono_r; lia).
  assert (0 < 2 ^ k) by (apply Z.pow_pos_nonneg; lia).
  apply alignUp_eq; [lia|simpl; lia|lia|fits_lia].
Qed.

(** The element count of a call fits an [int]; clipped at 0 it is [chunkLen]. *)
Lemma chunkLen_code l c :
  (l < loopFuel count loopCount)%nat -> (c < n)%nat ->
  Z.max 0 (cwrap i32 (Z.min (loopChunk l) (count - Z.of_nat l * loopCount - Z.of_nat c * loopChunk l))) = chunkLen l c /\
  callOk (ringPrims r 0) (chunkLen l c).
Proof.
  intros Hl Hcn. pose proof (loopRem_pos l Hl) as Hrem. destruct (loopChunk_bound l Hl) as (H1 & H2 & H3).
  destruct Hok as (Hn & HSPC & HSPS & _ & Hstep & _ & Hc & Hch & Hm & Hn' & _).
  split; [|unfold callOk, chunkLen; simpl; split_and!; (lia || nia)].
  rewrite cwrap_fits; [done|done|]. unfold fits, cmin, cmax, i32; cbn [csigned cwidth]. split; [|lia].
  set (rem := count - Z.of_nat l * loopCount) in *.
  assert (Z.of_nat c * loopChunk l <= Z.of_nat n * loopChunk l) by nia.
  destruct (Z.lt_ge_cases rem loopCount) as [Hlt|Hge]; [specialize (H3 Hlt); lia|].
  assert (loopChunk l = rr_chunk r) as E.
  { unfold loopChunk. fold rem. by rewrite (proj2 (Z.ltb_ge _ _)). }
  rewrite E in *. nia.
Qed.

(** One call of the kernel, as slices. *)
Lemma arCall i l o base nelem R S src dst post :
  (l < loopFuel count loopCount)%nat ->
  R = negb (o =? 0)%nat -> S = negb (o =? 2 * n - 2)%nat ->
  src = (if (o <=? n - 1)%nat then Some Input else None) ->
  dst = (if (n - 1 <=? o)%nat then Some Output else None) ->
  post = (o =? n - 1)%nat ->
  base = grid + Z.of_nat l * loopCount + Z.of_nat (chunkAt n i o) * loopChunk l ->
  nelem = cwrap i32 (Z.min (loopChunk l) (count - Z.of_nat l * loopCount - Z.of_nat (chunkAt n i o) * loopChunk l)) ->
  genericOp (ringPrims r i) R S src dst base base nelem post = map (arSlice i l o) (seq 0 (rr_SPC r)).
Proof.
  intros Hl -> -> -> -> -> -> ->. destruct (chunkLen_code l (chunkAt n i o) Hl (chunkAt_lt n i o n_pos)) as [E Hc].
  rewrite genericOp_eq by (rewrite E; exact Hc). rewrite E. done.
Qed.

Lemma modRanks_mod i x :
  (x < 2 * n)%nat -> modRanks (ringEnvOf r rankAt total i) x = (x mod n)%nat.
Proof.
  intros Hx. destruct Hok as [Hn _]. unfold modRanks. simpl.
  destruct (Nat.leb_spec n x); [|by rewrite Nat.sub_0_r, Nat.mod_small].
  replace x with (x - n + 1 * n)%nat at 2 by lia. rewrite Nat.Div0.mod_add. rewrite Nat.mod_small; lia.
Qed.

(** The calls of a loop, in the order of their numbers. *)
Lemma calls_split (f : nat -> list sliceOp) :
  flat_map f (seq 0 (2 * n - 1)) =
  f 0%nat ++ flat_map (fun j => f (j - 1)%nat) (seq 2 (n - 2)) ++ f (n - 1)%nat ++
  flat_map (fun j => f (n - 1 + j)%nat) (seq 1 (n - 2)) ++ f (2 * n - 2)%nat.
Proof.
  destruct Hok as [Hn _].
  replace (2 * n - 1)%nat with (1 + ((n - 2) + (1 + ((n - 2) + 1))))%nat by lia.
  rewrite !seq_app, !flat_map_app. cbn [seq flat_map]. rewrite app_nil_r. f_equal. f_equal.
  - rewrite <- (seq_shift (n - 2) 1), flat_map_map. apply flat_map_ext_in. intros j _. f_equal. lia.
  - rewrite app_nil_r. f_equal; [f_equal; lia|]. f_equal; [|rewrite app_nil_r; f_equal; lia].
    replace (0 + 1 + (n - 2) + 1)%nat with (n - 1 + 1)%nat by lia.
    rewrite <- fmap_add_seq. 
    change (Nat.add (n - 1) <$> seq 1 (n - 2)) with (map (Nat.add (n - 1)) (seq 1 (n - 2))).
    by rewrite flat_map_map.
Qed.

Lemma arProg_eq i : arProg i = blockProg n (rr_SPC r) (loopFuel count loopCount) (2 * n - 1) arSlice i.
Proof.
  pose proof Hok as (Hn & _ & _ & _ & _ & _ & Hc & Hch & _).
  unfold arProg, ringProg, blockProg. destruct (Nat.ltb_spec i n) as [Hi|]; [|done]. unfold runRingAllReduce.
  cbn [part partOffset partCount chunkCount nranks ringIx eltSize prims ringEnvOf].
  rewrite forElems_loop by (done || nia). unfold blocks. apply flat_map_ext_in. intros l Hl%in_seq.
  rewrite (loopChunk_code l) by lia. rewrite calls_split.
  f_equal; [|f_equal; [|f_equal; [|f_equal]]].
  - rewrite modRanks_mod, (chunkAt_wrap n i 0) by lia. apply arCall; (lia || done || ncases).
  - apply flat_map_ext_in. intros j Hj%in_seq. rewrite modRanks_mod, (chunkAt_wrap n i (j - 1)) by lia.
    apply arCall; (lia || done || ncases).
  - assert (i = chunkAt n i (n - 1)) as Ei.
    { rewrite <- (chunkAt_wrap n i (n - 1) i) by lia. by rewrite Nat.mod_small. }
    rewrite Ei at 2 3 4. apply arCall; (lia || done || ncases).
  - apply flat_map_ext_in. intros j Hj%in_seq. rewrite modRanks_mod, (chunkAt_wrap n i (n - 1 + j)) by lia.
    apply arCall; (lia || done || ncases).
  - rewrite modRanks_mod, (chunkAt_wrap n i (2 * n - 2)) by lia. apply arCall; (lia || done || ncases).
Qed.

(** The geometry of the slices: elements of different slices differ. *)
Definition inSlice (l c s : nat) (x : Z) : Prop :=
  let p := ringPrims r 0 in
  chunkLo l c + sliceOff p (chunkLen l c) s <= x < chunkLo l c + sliceOff p (chunkLen l c) s + sliceSz p (chunkLen l c) s.

Definition loopIx (x : Z) : nat := Z.to_nat (x / loopCount).
Definition chunkIx (x : Z) : nat := Z.to_nat (x mod loopCount / loopChunk (loopIx x)).

Lemma inSlice_spec l c s x :
  (l < loopFuel count loopCount)%nat -> (c < n)%nat -> inSlice l c s x ->
  0 <= x < count /\ loopIx x = l /\ chunkIx x = c /\
  Z.of_nat s = (x - chunkLo l c) / fullSlice (ringPrims r 0) (chunkLen l c).
Proof.
  intros Hl Hcn Hx. pose proof (loopRem_pos l Hl) as Hrem. destruct (loopChunk_bound l Hl) as (H1 & H2 & H3).
  pose proof Hok as (Hn & HSPC & _ & _ & _ & _ & Hc & Hch & _).
  destruct (slice_of (ringPrims r 0) (chunkLen l c) s (x - chunkLo l c)) as [Hy Es];
    [done|unfold inSlice in Hx; lia|unfold chunkLen; lia|].
  assert (0 <= Z.of_nat l * loopCount) by nia.
  assert (0 <= x - Z.of_nat l * loopCount < loopCount /\ x < count /\ Z.of_nat c * loopChunk l <= x - Z.of_nat l * loopCount) as (Hx1 & Hx2 & Hx3).
  { assert (Z.of_nat c * loopChunk l + loopChunk l <= Z.of_nat n * loopChunk l) by nia.
    assert (0 <= Z.of_nat c * loopChunk l) by nia.
    assert (count - Z.of_nat l * loopCount < loopCount \/ loopChunk l = rr_chunk r) as Hcase.
    { unfold loopChunk. destruct (Z.ltb_spec (count - Z.of_nat l * loopCount) loopCount); tauto. }
    unfold chunkLen, chunkLo in Hy. destruct Hcase as [Hc1|Hc1]; [lia|]. rewrite Hc1 in *. lia. }
  assert (x / loopCount = Z.of_nat l) as El.
  { symmetry. apply (Z.div_unique x loopCount _ (x - Z.of_nat l * loopCount)); lia. }
  assert (loopIx x = l) as Eli by (unfold loopIx; rewrite El; lia).
  split_and!; [lia|lia|done| |done].
  unfold chunkIx. rewrite Eli.
  assert (x mod loopCount = x - Z.of_nat l * loopCount) as Em.
  { symmetry. apply (Z.mod_unique x loopCount (Z.of_nat l)); lia. }
  rewrite Em. assert ((x - Z.of_nat l * loopCount) / loopChunk l = Z.of_nat c) as ->; [|lia].
  symmetry. apply (Z.div_unique _ (loopChunk l) _ (x - chunkLo l c)); unfold chunkLo, chunkLen in *; lia.
Qed.

Lemma inSlice_exists x :
  0 <= x < count ->
  (loopIx x < loopFuel count loopCount)%nat /\ (chunkIx x < n)%nat /\
  exists s, (s < rr_SPC r)%nat /\ inSlice (loopIx x) (chunkIx x) s x.
Proof.
  intros Hx. pose proof Hok as (Hn & HSPC & _ & _ & _ & _ & Hc & Hch & _).
  assert (0 < loopCount) as Hlc by nia.
  pose proof (loop_of count loopCount x Hlc Hx) as Hl. fold (loopIx x) in Hl.
  destruct (loopChunk_bound (loopIx x) Hl) as (H1 & H2 & H3).
  pose proof (Z.div_mod x loopCount ltac:(lia)) as E. pose proof (Z.mod_pos_bound x loopCount ltac:(lia)) as Hm.
  assert (Z.of_nat (loopIx x) = x / loopCount) as El by (unfold loopIx; rewrite Z2Nat.id; [done|apply Z.div_pos; lia]).
  set (y := x mod loopCount) in *. assert (x = Z.of_nat (loopIx x) * loopCount + y) as Ex by lia.
  set (l := loopIx x) in *.
  assert (0 <= y / loopChunk l) as Hq by (apply Z.div_pos; lia).
  assert (Z.of_nat (chunkIx x) = y / loopChunk l) as Ec by (unfold chunkIx; fold l y; lia).
  assert (y / loopChunk l < Z.of_nat n) as Hcn by (apply Z.div_lt_upper_bound; lia).
  pose proof (Z.div_mod y (loopChunk l) ltac:(lia)). pose proof (Z.mod_pos_bound y (loopChunk l) ltac:(lia)).
  split_and!; [done|lia|]. set (c := chunkIx x) in *.
  destruct (slice_exists (ringPrims r 0) (chunkLen l c) (y - Z.of_nat c * loopChunk l)) as (s & Hs & Hin);
    [done|unfold chunkLen; nia|].
  exists s. split; [done|]. unfold inSlice, chunkLo. lia.
Qed.

(** ** The values *)

(** The element [x] of the input of the rank at position [i]. *)
Definition inputOf (i : nat) (x : Z) : T := rr_mem r i (rr_in r i + grid + x).

(** Its reduction over the first [t + 1] ranks after position [c], and over
    all ranks. *)
Definition partialRed (c : nat) (x : Z) (t : nat) : T :=
  ringFold (reduceOp (rr_fn r)) n (fun i => preOp (rr_fn r) (inputOf i x)) c t.

Definition fullRed (c : nat) (x : Z) : T := postOpFn (rr_fn r) (partialRed c x (n - 1)).

(** The element a slice handles first. *)
Definition sliceX (i l o s : nat) : Z :=
  chunkLo l (chunkAt n i o) + sliceOff (ringPrims r 0) (chunkLen l (chunkAt n i o)) s.

Definition arVal (i l o s e : nat) : T :=
  let x := sliceX i l o s + Z.of_nat e in
  if (o <? n - 1)%nat then partialRed (chunkAt n i o) x o else fullRed (chunkAt n i o) x.

Definition arOut (i : nat) (a : Z) : T :=
  let x := a - rr_out r i - grid in fullRed (chunkIx x) x.

(** Buffers are the same or do not meet. *)
Definition buffersOk : Prop := forall i, (i < n)%nat ->
  rr_in r i = rr_out r i \/
  forall x y, 0 <= x < count -> 0 <= y < count -> rr_in r i + grid + x <> rr_out r i + grid + y.

Local Abbreviation SPC := (rr_SPC r).
Local Abbreviation D := (2 * rr_n r - 1)%nat.
Local Abbreviation L := (loopFuel (rr_count r) (Z.of_nat (rr_n r) * rr_chunk r)).

(** Where the slice's operands are, and how many. *)
Lemma arSlice_len i l o s : sliceLen (arSlice i l o s) = Z.to_nat (sliceSz (ringPrims r 0) (chunkLen l (chunkAt n i o)) s).
Proof. done. Qed.

Lemma arSlice_src i l o s b a :
  srcAt (arSlice i l o s) = Some (b, a) -> (o <= n - 1)%nat /\ b = true /\ a = rr_in r i + grid + sliceX i l o s.
Proof.
  unfold arSlice, callSlice, sliceX, chunkLo. cbn. destruct (Nat.leb_spec o (n - 1)); [|done].
  intros E. injection E as <- <-. split_and!; [done|done|].
  change (sliceOff (ringPrims r i) ?x s) with (sliceOff (ringPrims r 0) x s). lia.
Qed.

Lemma arSlice_dst i l o s d :
  dstAt (arSlice i l o s) = Some d -> (n - 1 <= o)%nat /\ d = rr_out r i + grid + sliceX i l o s.
Proof.
  unfold arSlice, callSlice, sliceX, chunkLo. cbn. destruct (Nat.leb_spec (n - 1) o); [|done].
  intros E. injection E as <-. split; [done|].
  change (sliceOff (ringPrims r i) ?x s) with (sliceOff (ringPrims r 0) x s). lia.
Qed.

Lemma arSlice_elem i l o s e :
  (e < sliceLen (arSlice i l o s))%nat -> inSlice l (chunkAt n i o) s (sliceX i l o s + Z.of_nat e).
Proof. rewrite arSlice_len. unfold inSlice, sliceX. lia. Qed.

(** A rank reads an element of its input before the result overwrites it. *)
Lemma ar_unread (Hbuf : buffersOk) i l o s b a e l' o' s' d :
  (i < n)%nat -> inBlocks SPC L D l o s -> srcAt (arSlice i l o s) = Some (b, a) ->
  (e < sliceLen (arSlice i l o s))%nat -> inBlocks SPC L D l' o' s' ->
  (blockIx SPC D l' o' s' < blockIx SPC D l o s)%nat -> dstAt (arSlice i l' o' s') = Some d ->
  ~ (d <= a + Z.of_nat e < d + Z.of_nat (sliceLen (arSlice i l' o' s'))).
Proof.
  intros Hi (Hl & _ & Hs) Ha He (Hl' & Ho' & Hs') Hk Hd Hin2.
  destruct (arSlice_src _ _ _ _ _ _ Ha) as (Ho & _ & ->). destruct (arSlice_dst _ _ _ _ _ Hd) as [Hno ->].
  pose proof (arSlice_elem i l o s e He) as Hin. set (x := sliceX i l o s + Z.of_nat e) in *.
  assert (inSlice l' (chunkAt n i o') s' (rr_in r i + grid + x - (rr_out r i + grid))) as Hin'.
  { unfold inSlice, sliceX in *. rewrite arSlice_len in Hin2. lia. }
  destruct (inSlice_spec l (chunkAt n i o) s x Hl (chunkAt_lt n i o n_pos) Hin) as (Hx & Xl & Xc & Xs).
  set (y := rr_in r i + grid + x - (rr_out r i + grid)) in *.
  destruct (inSlice_spec l' (chunkAt n i o') s' y Hl' (chunkAt_lt n i o' n_pos) Hin') as (Hy & Yl & Yc & Ys).
  destruct (Hbuf i Hi) as [Eio|Hdis]; [|apply (Hdis x y Hx Hy); unfold y; lia].
  assert (x = y) as Exy by (unfold y; lia). rewrite <- Exy in Yl, Yc, Ys.
  assert (l = l') as -> by lia. rewrite Xc in Yc. rewrite <- Yc in Ys. assert (s = s') as -> by lia.
  unfold blockIx in Hk. assert (o' * SPC < o * SPC)%nat as Hlt by lia. nia.
Qed.

Lemma ar_value i l o s e :
  (i < n)%nat -> inBlocks SPC L D l o s ->
  elemVal (rr_fn r) (arSlice i l o s) (localVal (rr_mem r i) (arSlice i l o s) e)
    (if negb (o =? 0)%nat then Some (arVal (prevPos n i) l (o - 1) s e) else None) =
  Some (arVal i l o s e).
Proof.
  intros Hi (Hl & Ho & Hs). destruct Hok as [Hn _].
  assert ((1 <= o)%nat -> arVal (prevPos n i) l (o - 1) s e =
    if (o - 1 <? n - 1)%nat then partialRed (chunkAt n i o) (sliceX i l o s + Z.of_nat e) (o - 1)
    else fullRed (chunkAt n i o) (sliceX i l o s + Z.of_nat e)) as Hprev.
  { intros H1. unfold arVal, sliceX. by rewrite chunkAt_prev by lia. }
  unfold arVal at 2. set (x := sliceX i l o s + Z.of_nat e) in *.
  assert (localVal (rr_mem r i) (arSlice i l o s) e = if (o <=? n - 1)%nat then Some (inputOf i x) else None) as ->.
  { unfold localVal. destruct (srcAt (arSlice i l o s)) as [[b a]|] eqn:Es.
    - destruct (arSlice_src _ _ _ _ _ _ Es) as (Ho' & _ & ->). rewrite (proj2 (Nat.leb_le _ _) Ho').
      unfold inputOf, x. do 2 f_equal. lia.
    - unfold arSlice in Es. cbn in Es. by destruct (o <=? n - 1)%nat. }
  unfold elemVal, preOf, arSlice, callSlice. cbn [srcAt doPost].
  destruct (Nat.eqb_spec o 0) as [->|Hne]; cbn [negb].
  - rewrite (proj2 (Nat.leb_le 0 (n - 1))), (proj2 (Nat.ltb_lt 0 (n - 1))), (proj2 (Nat.eqb_neq 0 (n - 1))) by lia.
    f_equal. by apply (ringFold_first (reduceOp (rr_fn r)) n (fun i => preOp (rr_fn r) (inputOf i x))).
  - rewrite Hprev by lia. destruct (Nat.leb_spec o (n - 1)) as [H1|H1].
    + rewrite (proj2 (Nat.ltb_lt (o - 1) (n - 1))) by lia.
      assert (reduceOp (rr_fn r) (preOp (rr_fn r) (inputOf i x)) (partialRed (chunkAt n i o) x (o - 1)) =
              partialRed (chunkAt n i o) x o) as ->
        by (apply (ringFold_next (reduceOp (rr_fn r)) n (fun i => preOp (rr_fn r) (inputOf i x))); lia).
      destruct (Nat.eqb_spec o (n - 1)) as [E|E], (Nat.ltb_spec o (n - 1)); try lia; [|done].
      unfold fullRed. by rewrite <- E.
    + rewrite (proj2 (Nat.ltb_ge (o - 1) (n - 1))), (proj2 (Nat.ltb_ge o (n - 1))), (proj2 (Nat.eqb_neq o (n - 1))) by lia.
      done.
Qed.

Lemma ar_pipeline (Hbuf : buffersOk) :
  Pipeline (rr_fn r) (rr_SPS r) (rr_step r) n (D * SPC) SPC (L * (D * SPC)) arProg (rr_mem r) (blockVal SPC D arVal) arOut.
Proof.
  pose proof Hok as (Hn & HSPC & HSPS & Hcap & Hstep & _ & _ & _ & _ & _ & _ & Hdiv & _).
  apply (block_pipeline _ _ _ _ _ _ _ _ arSlice _ _ arProg arProg_eq); try done; try lia.
  - intros i l o s Hi (Hl & Ho & Hs). rewrite arSlice_len. apply ring_slice_fits; [done|].
    pose proof (loopChunk_fits l). pose proof (loopChunk_bound l Hl). unfold chunkLen. lia.
  - intros i l o s Hi (Hl & Ho & Hs). split_and!; [done| | |].
    + by replace (D - 1)%nat with (2 * n - 2)%nat by lia.
    + intros ->. done.
    + intros H1. rewrite !arSlice_len. by rewrite chunkAt_prev by lia.
  - intros i l o s e Hi Hin _. by apply ar_value.
  - by apply ar_unread.
  - intros i l o s d e Hi (Hl & Ho & Hs) Hd He. destruct (arSlice_dst _ _ _ _ _ Hd) as (Ho' & ->).
    unfold arVal. rewrite (proj2 (Nat.ltb_ge _ _) Ho'). unfold arOut.
    replace (rr_out r i + grid + sliceX i l o s + Z.of_nat e - rr_out r i - grid)
      with (sliceX i l o s + Z.of_nat e) by lia.
    destruct (inSlice_spec l (chunkAt n i o) s _ Hl (chunkAt_lt n i o n_pos) (arSlice_elem i l o s e He)) as (_ & _ & -> & _).
    done.
Qed.

(** The call in which the rank at position [i] stores chunk [c]. *)
Lemma storeCall i c :
  (i < n)%nat -> (c < n)%nat ->
  let o := (n - 1 + (i + n - c) mod n)%nat in (n - 1 <= o < D)%nat /\ chunkAt n i o = c.
Proof.
  intros Hi Hc o. pose proof (Nat.mod_upper_bound (i + n - c) n ltac:(lia)) as Hm. split; [unfold o; lia|].
  unfold chunkAt, o. pose proof (Nat.div_mod_eq (i + n - c) n) as E.
  assert ((i + n - c) / n = 0 \/ (i + n - c) / n = 1)%nat as Hq.
  { assert ((i + n - c) / n < 2)%nat by (apply Nat.Div0.div_lt_upper_bound; lia). lia. }
  destruct Hq as [Hq|Hq]; rewrite Hq in E.
  - replace (i + 2 * n - 1 - (n - 1 + (i + n - c) mod n))%nat with c by lia. by apply Nat.mod_small.
  - replace (i + 2 * n - 1 - (n - 1 + (i + n - c) mod n))%nat with (c + 1 * n)%nat by lia.
    rewrite Nat.Div0.mod_add. by apply Nat.mod_small.
Qed.

(** The results cover exactly the channel's part of the output. *)
Lemma ar_written i a :
  (i < n)%nat -> written arProg i (L * (D * SPC)) a <-> exists x, 0 <= x < count /\ a = rr_out r i + grid + x.
Proof.
  intros Hi. pose proof Hok as (Hn & HSPC & _).
  rewrite (block_written _ _ _ _ arSlice arProg arProg_eq i a) by lia. split.
  - intros (l & o & s & d & _ & (Hl & Ho & Hs) & Hd & Ha). destruct (arSlice_dst _ _ _ _ _ Hd) as [_ ->].
    set (e := Z.to_nat (a - (rr_out r i + grid + sliceX i l o s))).
    assert (e < sliceLen (arSlice i l o s))%nat as He by (unfold e; lia).
    destruct (inSlice_spec _ _ _ _ Hl (chunkAt_lt n i o n_pos) (arSlice_elem i l o s e He)) as (Hx & _).
    exists (sliceX i l o s + Z.of_nat e). split; [done|]. unfold e. lia.
  - intros (x & Hx & ->). destruct (inSlice_exists x Hx) as (Hl & Hc & s & Hs & Hin).
    destruct (storeCall i (chunkIx x) Hi Hc) as [Ho Ec]. set (o := (n - 1 + _)%nat) in *.
    exists (loopIx x), o, s, (rr_out r i + grid + sliceX i (loopIx x) o s).
    split; [done|]. split; [split_and!; (done || lia)|]. split.
    + unfold arSlice, callSlice, sliceX, chunkLo. cbn [dstAt]. rewrite (proj2 (Nat.leb_le (n - 1) o)) by lia.
      cbn [userBuf ringPrims userOutput]. f_equal.
      change (sliceOff (ringPrims r i) ?z s) with (sliceOff (ringPrims r 0) z s). lia.
    + rewrite arSlice_len. unfold inSlice, sliceX in *. rewrite Ec. lia.
Qed.

(** What the ranks hold at the end. *)
Definition allReduced (i : nat) (m : mem T) : Prop :=
  (forall x, 0 <= x < count -> m (rr_out r i + grid + x) = fullRed (chunkIx x) x) /\
  (forall a, (forall x, 0 <= x < count -> a <> rr_out r i + grid + x) -> m a = rr_mem r i a).

Lemma ar_final i m : (i < n)%nat -> overlay arProg (rr_mem r) arOut i (L * (D * SPC)) m -> allReduced i m.
Proof.
  intros Hi Hm. split.
  - intros x Hx. destruct (Hm (rr_out r i + grid + x)) as [H _]. rewrite H by (apply ar_written; eauto).
    unfold arOut. by replace (rr_out r i + grid + x - rr_out r i - grid) with x by lia.
  - intros a Ha. apply (Hm a). intros (x & Hx & E)%ar_written; [|done]. by apply (Ha x).
Qed.
End allreduce.

(** C1: ring AllReduce is correct under every interleaving of the ranks.  With
    FIFO buffers of [NCCL_STEPS] steps in which a slice overwrites what its slot
    held before, chunks that fit their steps, and each rank running its own
    sequence of slices, every run ends, no reachable state is stuck before all ranks have finished, and then
    every rank holds, for every element of the channel's part, the reduction of
    all ranks' inputs taken along the ring, the same on all ranks; no other
    memory is touched.  Send and receive buffers may be the same. *)
Theorem runRingAllReduce_correct {T} (r : ringRun T) rankAt total start fifo0 :
  ringRunOk r -> buffersOk r ->
  runsTo (rr_fn r) (rr_SPS r) (rr_step r) id (rr_n r)
    (initConfig (arProg r rankAt total) (rr_mem r) (connStart (Z.of_nat (rr_SPC r) * rr_SPS r) start) fifo0)
    (allReduced r).
Proof.
  intros Hok Hbuf. pose proof Hok as (Hn & HSPC & _).
  eapply block_runsTo; [by apply arProg_eq|done|done|by apply ar_pipeline|]. intros i m. by apply ar_final.
Qed.

(** A run of three ranks on five integers, in place. *)
Definition exampleRun : ringRun Z := {|
  rr_fn := {| preOp := fun x => x; reduceOp := Z.add; postOpFn := fun x => x |};
  rr_n := 3; rr_grid := 2; rr_count := 5; rr_chunk := 16; rr_elt := 4;
  rr_in := fun _ => 100; rr_out := fun _ => 100;
  rr_step := 64; rr_SPC := 2; rr_SPS := 2;
  rr_mem := fun i a => Z.of_nat i * 1000 + a |}.

Lemma runRingAllReduce_correct_witness :
  runsTo (rr_fn exampleRun) 2 64 id 3
    (initConfig (arProg exampleRun Z.of_nat 5) (rr_mem exampleRun) (connStart 4 (fun _ _ => 6)) (fun _ _ _ => 0))
    (allReduced exampleRun).
Proof.
  apply (runRingAllReduce_correct exampleRun Z.of_nat 5 (fun _ _ => 6) (fun _ _ _ => 0));
    [ring_run_ok|intros i _; left; reflexivity].
Defined.

(** One pass over the ranks that takes every step it can. *)
Definition trySteps {T} (fn : redFn T) SPS stepLen (c : config T) (sched : list (nat * action)) : config T :=
  fold_left (fun c '(i, a) => match fire fn SPS stepLen id c i a with Some c' => c' | None => c end) sched c.

Definition ringRound (n : nat) : list (nat * action) :=
  flat_map (fun i => [(i, Copy); (i, Barrier); (i, PostSend (nextPos n i)); (i, PostRecv (prevPos n i))]) (seq 0 n).

(** The model runs: a round-robin schedule finishes the example with the sums. *)
Lemma allReduce_example :
  let c := trySteps (rr_fn exampleRun) 2 64
    (initConfig (arProg exampleRun Z.of_nat 5) (rr_mem exampleRun) (connStart 4 (fun _ _ => 6)) (fun _ _ _ => 0))
    (concat (replicate 20 (ringRound 3))) in
  forallb (fun i => match prog (cn c i), copied (cn c i) with [], None => true | _, _ => false end) (seq 0 3) = true /\
  map (fun i => map (fun x => cm c i (102 + x)) (seqZ 0 6)) (seq 0 3) =
  [ [3306; 3309; 3312; 3315; 3318; 107]; [3306; 3309; 3312; 3315; 3318; 1107]; [3306; 3309; 3312; 3315; 3318; 2107] ].
Proof. vm_compute. done. Qed.

(** for a commutative and associative operator the value ring AllReduce
    leaves on every rank is the reduction of the inputs of all ranks, with the
    final operation applied once, whatever the chunk the element falls in. *)
Lemma ringAllReduce_commutative {T} (r : ringRun T) x :
  ringRunOk r -> 0 <= x < rr_count r ->
  (forall a b, reduceOp (rr_fn r) a b = reduceOp (rr_fn r) b a) ->
  (forall a b c, reduceOp (rr_fn r) a (reduceOp (rr_fn r) b c) = reduceOp (rr_fn r) (reduceOp (rr_fn r) a b) c) ->
  Some (fullRed r (chunkIx r x) x) =
  option_map (postOpFn (rr_fn r))
    (reduceList (reduceOp (rr_fn r)) (map (fun i => preOp (rr_fn r) (inputOf r i x)) (seq 0 (rr_n r)))).
Proof.
  intros Hok Hx Hc Ha. destruct (inSlice_exists r Hok x Hx) as (_ & Hcn & _). pose proof Hok as [Hn _].
  unfold fullRed, partialRed. by rewrite <- (ringFold_all _ (rr_n r) _ (chunkIx r x)) by (done || lia).
Qed.

Lemma ringAllReduce_commutative_example :
  Some (fullRed exampleRun (chunkIx exampleRun 3) 3) = Some (105 + (1105 + 2105)).
Proof.
  rewrite (ringAllReduce_commutative exampleRun 3);
    [reflexivity|ring_run_ok|simpl; lia|intros; apply Z.add_comm|intros; apply Z.add_assoc].
Defined.
