(* ===== verification/RingGather.v ===== *)
(** * Ring AllGather and ReduceScatter (src/src/device/all_gather.h, reduce_scatter.h)

    Both move one block per rank around the ring in [n] calls per loop: AllGather
    passes every rank's block on, ReduceScatter reduces the block of each
    destination on its way.  Ranks are named by ring position; [rankAt j] is the
    rank at position [j] and [total] the number of elements of a block. *)

From stdpp Require Import base numbers list relations.
From Stdlib Require Import ZArith Lia.
From S2P Require Import Prelude Bitops Prims Net DevWork Loops RingNet RingColl.

Local Open Scope Z_scope.

(** The ranks of the ring: [posOf] is the position of a rank. *)
Definition ranksOk (n : nat) (rankAt : nat -> Z) (posOf : Z -> nat) : Prop :=
  forall j, (j < n)%nat -> 0 <= rankAt j < Z.of_nat n /\ posOf (rankAt j) = j.

Section gather.
Context {T : Type} (r : ringRun T) (Hok : ringRunOk r) (rankAt : nat -> Z) (posOf : Z -> nat) (total : Z).
Context (Hranks : ranksOk (rr_n r) rankAt posOf).
Context (Htotal : 0 <= rr_grid r /\ rr_grid r + rr_count r <= total).
Local Abbreviation n := (rr_n r).
Local Abbreviation count := (rr_count r).
Local Abbreviation chunk := (rr_chunk r).
Local Abbreviation grid := (rr_grid r).
Local Abbreviation SPC := (rr_SPC r).
Local Abbreviation L := (loopFuel (rr_count r) (rr_chunk r)).
Local Abbreviation p0 := (ringPrims r 0).

(** The position a rank's block comes from in call [o] of AllGather. *)
Definition srcPos (i o : nat) : nat := (i + n - o) mod n.

Definition inPlaceAG (i : nat) : bool := rr_in r i =? rr_out r i + rankAt i * total.

Definition agSlice (i l o s : nat) : sliceOp :=
  let dataOffset := grid + Z.of_nat l * chunk in
  let offset := dataOffset + rankAt (srcPos i o) * total in
  callSlice (ringPrims r i) (negb (o =? 0)%nat) (negb (o =? n - 1)%nat)
    (if (o =? 0)%nat then Some Input else None)
    (if (o =? 0)%nat && inPlaceAG i then None else Some Output)
    (if (o =? 0)%nat then dataOffset else offset) offset (loopLen count chunk l) false s.

Definition agProg : nat -> list sliceOp := ringProg r (fun i => runRingAllGather (ringEnvOf r rankAt total i)).

(** Call [o] of ReduceScatter reduces the block of position [chunkAt n i o]. *)
Definition rsSlice (i l o s : nat) : sliceOp :=
  let dataOffset := grid + Z.of_nat l * chunk in
  let offset := dataOffset + rankAt (chunkAt n i o) * total in
  callSlice (ringPrims r i) (negb (o =? 0)%nat) (negb (o =? n - 1)%nat)
    (Some Input) (if (o =? n - 1)%nat then Some Output else None)
    offset (if (o =? n - 1)%nat then dataOffset else -1) (loopLen count chunk l) (o =? n - 1)%nat s.

Definition rsProg : nat -> list sliceOp := ringProg r (fun i => runRingReduceScatter (ringEnvOf r rankAt total i)).

(** The calls of a loop. *)
Lemma calls_split_n (f : nat -> list sliceOp) :
  flat_map f (seq 0 n) = f 0%nat ++ flat_map f (seq 1 (n - 2)) ++ f (n - 1)%nat.
Proof.
  destruct Hok as [Hn _]. replace n with (1 + ((n - 2) + 1))%nat at 1 by lia.
  rewrite !seq_app, !flat_map_app. cbn [seq flat_map]. rewrite !app_nil_r. do 3 f_equal. lia.
Qed.

Lemma len_ok l :
  (l < L)%nat ->
  0 < loopLen count chunk l <= chunk /\ callOk p0 (loopLen count chunk l) /\
  cwrap i32 (loopLen count chunk l) = loopLen count chunk l /\ wrap32 (loopLen count chunk l) = loopLen count chunk l /\
  Z.max 0 (loopLen count chunk l) = loopLen count chunk l.
Proof.
  destruct Hok as (Hn & HSPC & HSPS & _ & Hstep & _ & Hc & Hch & Hm & _).
  apply (loopLen_ok p0); simpl; (lia || nia).
Qed.

(** A call of [loopLen] elements, as slices. *)
Lemma plainCall i l R S src dst srcIx dstIx post :
  (l < L)%nat ->
  genericOp (ringPrims r i) R S src dst srcIx dstIx (loopLen count chunk l) post =
  map (callSlice (ringPrims r i) R S src dst srcIx dstIx (loopLen count chunk l) post) (seq 0 SPC).
Proof.
  intros Hl. destruct (len_ok l Hl) as (_ & Hc & _ & _ & E). rewrite genericOp_eq by (rewrite E; exact Hc). by rewrite E.
Qed.

Lemma agProg_eq i : agProg i = blockProg n SPC L n agSlice i.
Proof.
  pose proof Hok as (Hn & _ & _ & _ & _ & _ & Hc & Hch & _).
  unfold agProg, ringProg, blockProg. destruct (Nat.ltb_spec i n) as [Hi|]; [|done]. unfold runRingAllGather.
  cbn [part partOffset partCount chunkCount cbdCount nranks ringIx prims userRanks ringEnvOf].
  rewrite forElems_loop by done. unfold blocks. apply flat_map_ext_in. intros l Hl%in_seq.
  fold (loopLen count chunk l). destruct (len_ok l ltac:(lia)) as (_ & _ & -> & _). rewrite calls_split_n.
  assert ((i + 0) mod n = srcPos i 0)%nat as ->.
  { unfold srcPos. rewrite Nat.add_0_r, Nat.sub_0_r. replace (i + n)%nat with (i + 1 * n)%nat by lia. by rewrite Nat.Div0.mod_add. }
  f_equal; [|f_equal].
  - assert ((userInput (ringPrims r i) + (grid + Z.of_nat l * chunk) =?
             userOutput (ringPrims r i) + (grid + Z.of_nat l * chunk + rankAt (srcPos i 0) * total)) = inPlaceAG i) as ->.
    { unfold inPlaceAG. cbn [userInput userOutput ringPrims].
      assert (srcPos i 0 = i) as -> by (unfold srcPos; rewrite Nat.sub_0_r; replace (i + n)%nat with (i + 1 * n)%nat by lia;
        rewrite Nat.Div0.mod_add; by apply Nat.mod_small).
      destruct (Z.eqb_spec (rr_in r i) (rr_out r i + rankAt i * total)), (Z.eqb_spec (rr_in r i + (grid + Z.of_nat l * chunk))
        (rr_out r i + (grid + Z.of_nat l * chunk + rankAt i * total))); (done || lia). }
    unfold directSend, directCopySend. rewrite !plainCall by lia. unfold agSlice.
    rewrite (proj2 (Nat.eqb_neq 0 (n - 1))) by lia. cbn [Nat.eqb negb andb]. by destruct (inPlaceAG i).
  - apply flat_map_ext_in. intros j Hj%in_seq. unfold directRecvCopyDirectSend. rewrite plainCall by lia.
    unfold agSlice. rewrite (proj2 (Nat.eqb_neq j 0)), (proj2 (Nat.eqb_neq j (n - 1))) by lia. cbn [negb andb].
    by replace (i + (n - j))%nat with (i + n - j)%nat by lia.
  - unfold directRecv. rewrite plainCall by lia. unfold agSlice.
    rewrite (proj2 (Nat.eqb_neq (n - 1) 0)), Nat.eqb_refl by lia. cbn [negb andb]. unfold srcPos.
    by replace (i + n - (n - 1))%nat with (i + 1)%nat by lia.
Qed.

Lemma rsProg_eq i : rsProg i = blockProg n SPC L n rsSlice i.
Proof.
  pose proof Hok as (Hn & _ & _ & _ & _ & _ & Hc & Hch & _).
  unfold rsProg, ringProg, blockProg. destruct (Nat.ltb_spec i n) as [Hi|]; [|done]. unfold runRingReduceScatter.
  cbn [part partOffset partCount chunkCount cbdCount nranks ringIx prims userRanks ringEnvOf].
  rewrite forElems_loop by done. unfold blocks. apply flat_map_ext_in. intros l Hl%in_seq.
  fold (loopLen count chunk l). destruct (len_ok l ltac:(lia)) as (_ & _ & _ & -> & _). rewrite calls_split_n.
  f_equal; [|f_equal].
  - unfold send. rewrite plainCall by lia. unfold rsSlice. rewrite (proj2 (Nat.eqb_neq 0 (n - 1))) by lia. cbn [Nat.eqb negb].
    by rewrite (chunkAt_wrap n i 0) by lia.
  - rewrite <- (seq_shift (n - 2) 1), flat_map_map. apply flat_map_ext_in. intros j Hj%in_seq.
    unfold recvReduceSend. rewrite plainCall by lia. unfold rsSlice.
    rewrite (proj2 (Nat.eqb_neq j 0)), (proj2 (Nat.eqb_neq j (n - 1))) by lia. cbn [negb].
    by rewrite (chunkAt_wrap n i j) by lia.
  - unfold recvReduceCopy. rewrite plainCall by lia. unfold rsSlice.
    rewrite (proj2 (Nat.eqb_neq (n - 1) 0)), Nat.eqb_refl by lia. cbn [negb].
    by rewrite (chunkAt_wrap n i (n - 1)) by lia.
Qed.

(** ** AllGather *)

Lemma srcPos_lt i o : (srcPos i o < n)%nat.
Proof. apply Nat.mod_upper_bound. destruct Hok. lia. Qed.

Lemma srcPos_0 i : (i < n)%nat -> srcPos i 0 = i.
Proof.
  intros Hi. unfold srcPos. rewrite Nat.sub_0_r. replace (i + n)%nat with (i + 1 * n)%nat by lia.
  rewrite Nat.Div0.mod_add. by apply Nat.mod_small.
Qed.

Lemma srcPos_prev i o : (1 <= o < n)%nat -> (i < n)%nat -> srcPos (prevPos n i) (o - 1) = srcPos i o.
Proof.
  intros Ho Hi. unfold srcPos, prevPos.
  replace ((i + n - 1) mod n + n - (o - 1))%nat with ((i + n - 1) mod n + (n - (o - 1)))%nat by lia.
  rewrite Nat.Div0.add_mod_idemp_l.
  replace (i + n - 1 + (n - (o - 1)))%nat with (i + n - o + 1 * n)%nat by lia. by rewrite Nat.Div0.mod_add.
Qed.

Lemma srcPos_inj i o : (i < n)%nat -> (o < n)%nat -> srcPos i o = i -> o = 0%nat.
Proof.
  intros Hi Ho E. unfold srcPos in E. pose proof (Nat.div_mod_eq (i + n - o) n) as Ed. rewrite E in Ed.
  assert ((i + n - o) / n < 2)%nat by (apply Nat.Div0.div_lt_upper_bound; lia).
  destruct ((i + n - o) / n)%nat as [|[|]]; lia.
Qed.

Lemma srcPos_call i j : (i < n)%nat -> (j < n)%nat -> exists o, (o < n)%nat /\ srcPos i o = j.
Proof.
  intros Hi Hj. pose proof (Nat.mod_upper_bound (i + n - j) n ltac:(lia)).
  exists ((i + n - j) mod n)%nat. split; [done|]. unfold srcPos.
  pose proof (Nat.div_mod_eq (i + n - j) n) as E.
  assert ((i + n - j) / n = 0 \/ (i + n - j) / n = 1)%nat as Hq.
  { assert ((i + n - j) / n < 2)%nat by (apply Nat.Div0.div_lt_upper_bound; lia). lia. }
  destruct Hq as [Hq|Hq]; rewrite Hq in E.
  - replace (i + n - (i + n - j) mod n)%nat with j by lia. by apply Nat.mod_small.
  - replace (i + n - (i + n - j) mod n)%nat with (j + 1 * n)%nat by lia.
    rewrite Nat.Div0.mod_add. by apply Nat.mod_small.
Qed.

(** Addresses of blocks: rank and element are determined by the address. *)
Lemma block_addr_inj q x q' x' :
  0 <= x < count -> 0 <= x' < count -> q * total + grid + x = q' * total + grid + x' -> q = q' /\ x = x'.
Proof.
  intros Hx Hx' E. assert (q = q') as ->; [|split; [done|lia]].
  destruct (Z.lt_trichotomy q q') as [H|[H|H]]; [|done|]; exfalso.
  - assert (q * total + total <= q' * total) by nia. lia.
  - assert (q' * total + total <= q * total) by nia. lia.
Qed.

Local Abbreviation lx := (loopX p0 count chunk).

Lemma agSlice_len i l o s : sliceLen (agSlice i l o s) = Z.to_nat (sliceSz p0 (loopLen count chunk l) s).
Proof. done. Qed.

Lemma agSlice_src i l o s b a :
  srcAt (agSlice i l o s) = Some (b, a) -> o = 0%nat /\ b = true /\ a = rr_in r i + grid + lx l s.
Proof.
  unfold agSlice, callSlice, loopX. cbn [srcAt]. destruct (Nat.eqb_spec o 0); [|done].
  intros E. injection E as <- <-. split_and!; [done|done|]. cbn [userBuf ringPrims userInput].
  change (sliceOff (ringPrims r i) ?z s) with (sliceOff p0 z s). lia.
Qed.

Lemma agSlice_dst i l o s d :
  dstAt (agSlice i l o s) = Some d <->
  ~ (o = 0%nat /\ inPlaceAG i = true) /\ d = rr_out r i + rankAt (srcPos i o) * total + grid + lx l s.
Proof.
  unfold agSlice, callSlice, loopX. cbn [dstAt].
  assert (userBuf (ringPrims r i) Output + (grid + Z.of_nat l * chunk + rankAt (srcPos i o) * total) +
          sliceOff (ringPrims r i) (loopLen count chunk l) s =
          rr_out r i + rankAt (srcPos i o) * total + grid + (Z.of_nat l * chunk + sliceOff p0 (loopLen count chunk l) s)) as E.
  { cbn [userBuf ringPrims userOutput]. change (sliceOff (ringPrims r i) ?z s) with (sliceOff p0 z s). lia. }
  destruct (Nat.eqb_spec o 0), (inPlaceAG i); cbn [andb]; rewrite ?E; split.
  all: first [done | (intros [H _]; destruct H; done) | (intros H; injection H as <-; split; [intros [? ?]; done|done]) | intros [_ ->]; done].
Qed.

Lemma slice_inLoop l s e :
  (e < Z.to_nat (sliceSz p0 (loopLen count chunk l) s))%nat -> inLoop p0 count chunk l s (lx l s + Z.of_nat e).
Proof. unfold inLoop. lia. Qed.

Lemma loop_elem l s x : (l < L)%nat -> inLoop p0 count chunk l s x -> 0 <= x < count.
Proof.
  destruct Hok as (Hn & HSPC & HSPS & _ & Hstep & _ & Hc & Hch & Hm & _). intros Hl Hx.
  apply (inLoop_spec p0 count chunk) with l s; simpl; (done || lia || nia).
Qed.

(** Each block comes unchanged: the copy kernels have no operator. *)
Context (Hpre : forall x, preOp (rr_fn r) x = x).

Definition blockOf (j : nat) (x : Z) : T := rr_mem r j (rr_in r j + grid + x).

Definition agVal (i l o s e : nat) : T := blockOf (srcPos i o) (lx l s + Z.of_nat e).

Definition agOut (i : nat) (a : Z) : T :=
  let y := a - rr_out r i in blockOf (posOf (y / total)) (y mod total - grid).

(** The send buffer is the rank's own block of the receive buffer, or apart. *)
Definition agBuffersOk : Prop := forall i, (i < n)%nat ->
  inPlaceAG i = true \/
  forall x y, 0 <= x < count -> 0 <= y < Z.of_nat n * total -> rr_in r i + grid + x <> rr_out r i + y.

Lemma block_addr_range j x : (j < n)%nat -> 0 <= x < count -> 0 <= rankAt j * total + grid + x < Z.of_nat n * total.
Proof. intros Hj Hx. destruct (Hranks j Hj) as [Hr _]. split; nia. Qed.

Lemma ag_pipeline (Hbuf : agBuffersOk) :
  Pipeline (rr_fn r) (rr_SPS r) (rr_step r) n (n * SPC) SPC (L * (n * SPC)) agProg (rr_mem r) (blockVal SPC n agVal) agOut.
Proof.
  pose proof Hok as (Hn & HSPC & HSPS & Hcap & Hstep & _ & Hc & Hch & Hm & _ & _ & Hdiv & _).
  apply (block_pipeline _ _ _ _ _ _ _ _ agSlice _ _ agProg agProg_eq); try done; try lia.
  - intros i l o s Hi (Hl & Ho & Hs). rewrite agSlice_len. apply ring_chunk_fits; [done|].
    destruct (len_ok l Hl). lia.
  - intros i l o s Hi (Hl & Ho & Hs). split_and!; [done|done|by intros ->|done].
  - intros i l o s e Hi (Hl & Ho & Hs) _. unfold agVal.
    unfold elemVal, localVal, preOf, agSlice, callSlice. cbn [srcAt doPost].
    destruct (Nat.eqb_spec o 0) as [->|Hne]; cbn [negb].
    + rewrite Hpre, srcPos_0 by done. f_equal. unfold blockOf, loopX. f_equal. cbn [userBuf ringPrims userInput].
      change (sliceOff (ringPrims r i) ?z s) with (sliceOff p0 z s). lia.
    + by rewrite srcPos_prev by lia.
  - intros i l o s b a e l' o' s' d Hi (Hl & Ho & Hs) Ha He (Hl' & Ho' & Hs') Hk Hd Hin.
    destruct (agSlice_src _ _ _ _ _ _ Ha) as (-> & _ & ->). apply agSlice_dst in Hd as [Hno ->].
    rewrite agSlice_len in Hin. pose proof (slice_inLoop l s e He) as Hx%loop_elem; [|done].
    set (x := lx l s + Z.of_nat e) in *.
    set (z := rr_in r i + grid + x - (rr_out r i + rankAt (srcPos i o') * total + grid)).
    assert (0 <= z < count) as Hz by (apply (loop_elem l' s' z Hl'); unfold inLoop, z; lia).
    destruct (Hbuf i Hi) as [Hip|Hdis].
    + pose proof Hip as Hip'. apply Z.eqb_eq in Hip.
      destruct (block_addr_inj (rankAt i) x (rankAt (srcPos i o')) z Hx Hz) as [E _]; [unfold z; lia|].
      destruct (Hranks i Hi) as [_ E1]. destruct (Hranks (srcPos i o') (srcPos_lt i o')) as [_ E2].
      rewrite <- E, E1 in E2. apply Hno. split; [by apply (srcPos_inj i)|done].
    + apply (Hdis x (rankAt (srcPos i o') * total + grid + z) Hx).
      * by apply block_addr_range; [apply srcPos_lt|].
      * unfold z. lia.
  - intros i l o s d e Hi (Hl & Ho & Hs) Hd He. apply agSlice_dst in Hd as [_ ->]. unfold agVal, agOut.
    pose proof (slice_inLoop l s e He) as Hx%loop_elem; [|done]. set (x := lx l s + Z.of_nat e) in *.
    replace (rr_out r i + rankAt (srcPos i o) * total + grid + lx l s + Z.of_nat e - rr_out r i)
      with (rankAt (srcPos i o) * total + (grid + x)) by (unfold x; lia).
    destruct (Hranks (srcPos i o) (srcPos_lt i o)) as [_ E].
    assert (0 < total) by lia.
    rewrite Z.div_add_l, (Z.div_small (grid + x)), Z.add_0_r, E by lia.
    rewrite Z.add_comm, Z.mod_add, Z.mod_small by lia. f_equal. lia.
Qed.

Lemma ag_written i a :
  (i < n)%nat ->
  written agProg i (L * (n * SPC)) a <->
  exists j x, (j < n)%nat /\ 0 <= x < count /\ ~ (j = i /\ inPlaceAG i = true) /\
    a = rr_out r i + rankAt j * total + grid + x.
Proof.
  intros Hi. pose proof Hok as (Hn & HSPC & HSPS & _ & Hstep & _ & Hc & Hch & Hm & _).
  rewrite (block_written _ _ _ _ agSlice agProg agProg_eq i a) by lia. split.
  - intros (l & o & s & d & _ & (Hl & Ho & Hs) & Hd & Ha). apply agSlice_dst in Hd as [Hno ->].
    rewrite agSlice_len in Ha.
    set (x := a - (rr_out r i + rankAt (srcPos i o) * total + grid)).
    exists (srcPos i o), x. split_and!; [apply srcPos_lt| | | |unfold x; lia].
    + apply (loop_elem l s x Hl). unfold inLoop, x. lia.
    + apply (loop_elem l s x Hl). unfold inLoop, x. lia.
    + intros [E1 E2]. apply Hno. split; [by apply (srcPos_inj i)|done].
  - intros (j & x & Hj & Hx & Hno & ->). destruct (srcPos_call i j Hi Hj) as (o & Ho & Eo).
    destruct (inLoop_exists p0 count chunk Hch HSPC x Hx) as (l & s & Hl & Hs & Hin).
    exists l, o, s, (rr_out r i + rankAt (srcPos i o) * total + grid + lx l s).
    split; [done|]. split; [done|]. split.
    + apply agSlice_dst. split; [|done]. intros [-> Hip]. apply Hno. split; [|done]. by rewrite <- Eo, srcPos_0.
    + rewrite agSlice_len, Eo. unfold inLoop in Hin. lia.
Qed.

(** Every rank ends with every rank's block. *)
Definition gathered (i : nat) (m : mem T) : Prop :=
  (forall j x, (j < n)%nat -> 0 <= x < count -> m (rr_out r i + rankAt j * total + grid + x) = blockOf j x) /\
  (forall a, (forall j x, (j < n)%nat -> 0 <= x < count -> a <> rr_out r i + rankAt j * total + grid + x) ->
     m a = rr_mem r i a).

Lemma ag_final i m : (i < n)%nat -> overlay agProg (rr_mem r) agOut i (L * (n * SPC)) m -> gathered i m.
Proof.
  intros Hi Hm. split.
  - intros j x Hj Hx. set (a := rr_out r i + rankAt j * total + grid + x).
    destruct (decide (j = i /\ inPlaceAG i = true)) as [[-> Hip]|Hno].
    + rewrite (proj2 (Hm a)).
      * apply Z.eqb_eq in Hip. unfold blockOf, a. f_equal. lia.
      * intros (j & y & Hj' & Hy & Hno & E)%ag_written; [|done]. apply Hno. split; [|done].
        destruct (block_addr_inj (rankAt i) x (rankAt j) y Hx Hy) as [Er _]; [unfold a in E; lia|].
        destruct (Hranks i Hi) as [_ E1]. destruct (Hranks j Hj') as [_ E2]. congruence.
    + rewrite (proj1 (Hm a)) by (apply ag_written; [done|]; by exists j, x).
      unfold agOut, a. replace (rr_out r i + rankAt j * total + grid + x - rr_out r i)
        with (rankAt j * total + (grid + x)) by lia.
      rewrite Z.div_add_l, (Z.div_small (grid + x)), Z.add_0_r by lia.
      rewrite Z.add_comm, Z.mod_add, Z.mod_small by lia. destruct (Hranks j Hj) as [_ ->]. f_equal. lia.
  - intros a Ha. apply (Hm a). intros (j & x & Hj & Hx & _ & E)%ag_written; [|done]. by apply (Ha j x).
Qed.

(** ** ReduceScatter *)

Lemma rsSlice_len i l o s : sliceLen (rsSlice i l o s) = Z.to_nat (sliceSz p0 (loopLen count chunk l) s).
Proof. done. Qed.

Lemma rsSlice_src i l o s :
  srcAt (rsSlice i l o s) = Some (true, rr_in r i + rankAt (chunkAt n i o) * total + grid + lx l s).
Proof.
  unfold rsSlice, callSlice, loopX. cbn [srcAt]. do 2 f_equal. cbn [userBuf ringPrims userInput].
  change (sliceOff (ringPrims r i) ?z s) with (sliceOff p0 z s). lia.
Qed.

Lemma rsSlice_dst i l o s d :
  dstAt (rsSlice i l o s) = Some d <-> o = (n - 1)%nat /\ d = rr_out r i + grid + lx l s.
Proof.
  unfold rsSlice, callSlice, loopX. cbn [dstAt]. destruct (Nat.eqb_spec o (n - 1)).
  - assert (userBuf (ringPrims r i) Output + (grid + Z.of_nat l * chunk) + sliceOff (ringPrims r i) (loopLen count chunk l) s =
      rr_out r i + grid + (Z.of_nat l * chunk + sliceOff p0 (loopLen count chunk l) s)) as ->.
    { cbn [userBuf ringPrims userOutput]. change (sliceOff (ringPrims r i) ?z s) with (sliceOff p0 z s). lia. }
    split; [intros H; injection H as <-; done|intros [_ ->]; done].
  - split; [done|by intros [? _]].
Qed.

(** Element [x] of the block for position [c] in the input of position [j]. *)
Definition scatterIn (c : nat) (x : Z) (j : nat) : T :=
  rr_mem r j (rr_in r j + rankAt c * total + grid + x).

Definition scatterRed (c : nat) (x : Z) (t : nat) : T :=
  ringFold (reduceOp (rr_fn r)) n (fun j => preOp (rr_fn r) (scatterIn c x j)) c t.

Definition scatterFull (c : nat) (x : Z) : T := postOpFn (rr_fn r) (scatterRed c x (n - 1)).

Definition rsVal (i l o s e : nat) : T :=
  let x := lx l s + Z.of_nat e in
  if (o =? n - 1)%nat then scatterFull (chunkAt n i o) x else scatterRed (chunkAt n i o) x o.

Definition rsOut (i : nat) (a : Z) : T := scatterFull i (a - rr_out r i - grid).

(** The receive buffer is the rank's own block of the send buffer, or apart. *)
Definition rsBuffersOk : Prop := forall i, (i < n)%nat ->
  rr_out r i = rr_in r i + rankAt i * total \/
  forall x y, 0 <= x < count -> 0 <= y < Z.of_nat n * total -> rr_in r i + y <> rr_out r i + grid + x.

Lemma chunkAt_own i : (i < n)%nat -> chunkAt n i (n - 1) = i.
Proof.
  intros Hi. destruct Hok as [Hn _]. rewrite <- (chunkAt_wrap n i (n - 1) i) by lia. by apply Nat.mod_small.
Qed.

Lemma chunkAt_own_inj i o : (i < n)%nat -> (o < n)%nat -> chunkAt n i o = i -> o = (n - 1)%nat.
Proof.
  intros Hi Ho E. unfold chunkAt in E. pose proof (Nat.div_mod_eq (i + 2 * n - 1 - o) n) as Ed. rewrite E in Ed.
  assert ((i + 2 * n - 1 - o) / n < 3)%nat by (apply Nat.Div0.div_lt_upper_bound; lia).
  destruct ((i + 2 * n - 1 - o) / n)%nat as [|[|[|]]]; lia.
Qed.

Lemma rs_value i l o s e :
  (i < n)%nat -> inBlocks SPC L n l o s ->
  elemVal (rr_fn r) (rsSlice i l o s) (localVal (rr_mem r i) (rsSlice i l o s) e)
    (if negb (o =? 0)%nat then Some (rsVal (prevPos n i) l (o - 1) s e) else None) = Some (rsVal i l o s e).
Proof.
  intros Hi (Hl & Ho & Hs). pose proof Hok as [Hn _]. unfold elemVal, localVal, preOf. rewrite rsSlice_src.
  set (x := lx l s + Z.of_nat e).
  assert (rr_mem r i (rr_in r i + rankAt (chunkAt n i o) * total + grid + lx l s + Z.of_nat e) =
          scatterIn (chunkAt n i o) x i) as -> by (unfold scatterIn, x; f_equal; lia).
  assert (doPost (rsSlice i l o s) = (o =? n - 1)%nat) as -> by done.
  set (f := fun j => preOp (rr_fn r) (scatterIn (chunkAt n i o) x j)).
  assert (rsVal i l o s e = if (o =? n - 1)%nat then postOpFn (rr_fn r) (scatterRed (chunkAt n i o) x o)
    else scatterRed (chunkAt n i o) x o) as ->.
  { unfold rsVal, scatterFull. destruct (Nat.eqb_spec o (n - 1)) as [->|]; done. }
  destruct (Nat.eqb_spec o 0) as [->|Hne]; cbn [negb].
  - rewrite (proj2 (Nat.eqb_neq 0 (n - 1))) by lia. f_equal. by apply (ringFold_first (reduceOp (rr_fn r)) n f).
  - assert (rsVal (prevPos n i) l (o - 1) s e = scatterRed (chunkAt n i o) x (o - 1)) as ->.
    { unfold rsVal. rewrite chunkAt_prev by lia. by rewrite (proj2 (Nat.eqb_neq (o - 1) (n - 1))) by lia. }
    assert (reduceOp (rr_fn r) (preOp (rr_fn r) (scatterIn (chunkAt n i o) x i)) (scatterRed (chunkAt n i o) x (o - 1)) =
      scatterRed (chunkAt n i o) x o) as -> by (apply (ringFold_next (reduceOp (rr_fn r)) n f); lia).
    by destruct (o =? n - 1)%nat.
Qed.

Lemma rs_pipeline (Hbuf : rsBuffersOk) :
  Pipeline (rr_fn r) (rr_SPS r) (rr_step r) n (n * SPC) SPC (L * (n * SPC)) rsProg (rr_mem r) (blockVal SPC n rsVal) rsOut.
Proof.
  pose proof Hok as (Hn & HSPC & HSPS & Hcap & Hstep & _ & Hc & Hch & Hm & _ & _ & Hdiv & _).
  apply (block_pipeline _ _ _ _ _ _ _ _ rsSlice _ _ rsProg rsProg_eq); try done; try lia.
  - intros i l o s Hi (Hl & Ho & Hs). rewrite rsSlice_len. apply ring_chunk_fits; [done|].
    destruct (len_ok l Hl). lia.
  - intros i l o s e Hi Hin _. by apply rs_value.
  - intros i l o s b a e l' o' s' d Hi (Hl & Ho & Hs) Ha He (Hl' & Ho' & Hs') Hk Hd Hin.
    rewrite rsSlice_src in Ha. injection Ha as <- <-. apply rsSlice_dst in Hd as [-> ->].
    rewrite rsSlice_len in Hin. pose proof (slice_inLoop l s e He) as Hx. set (x := lx l s + Z.of_nat e) in *.
    pose proof (loop_elem l s x Hl Hx) as Hx'.
    set (z := rr_in r i + rankAt (chunkAt n i o) * total + grid + x - (rr_out r i + grid)).
    assert (inLoop p0 count chunk l' s' z) as Hz by (unfold inLoop, z; lia).
    pose proof (loop_elem l' s' z Hl' Hz) as Hz'.
    destruct (Hbuf i Hi) as [Hip|Hdis].
    + destruct (block_addr_inj (rankAt (chunkAt n i o)) x (rankAt i) z Hx' Hz') as [Er Ex]; [unfold z; lia|].
      assert (chunkAt n i o = i) as Ec.
      { destruct (Hranks i Hi) as [_ E1]. destruct (Hranks (chunkAt n i o)) as [_ E2]; [apply chunkAt_lt; lia|]. congruence. }
      assert (o = n - 1)%nat as -> by (by apply (chunkAt_own_inj i)). rewrite <- Ex in Hz.
      destruct (inLoop_unique p0 count chunk Hch Hc HSPC ltac:(simpl; nia) ltac:(simpl; lia) l s l' s' x) as [-> ->];
        [done..|]. lia.
    + apply (Hdis z (rankAt (chunkAt n i o) * total + grid + x) Hz').
      * apply block_addr_range; [apply chunkAt_lt; lia|done].
      * unfold z. lia.
  - intros i l o s d e Hi (Hl & Ho & Hs) Hd He. apply rsSlice_dst in Hd as [-> ->]. unfold rsVal, rsOut.
    rewrite Nat.eqb_refl, chunkAt_own by done. f_equal. lia.
Qed.

Lemma rs_written i a :
  (i < n)%nat ->
  written rsProg i (L * (n * SPC)) a <-> exists x, 0 <= x < count /\ a = rr_out r i + grid + x.
Proof.
  intros Hi. pose proof Hok as (Hn & HSPC & HSPS & _ & Hstep & _ & Hc & Hch & Hm & _).
  rewrite (block_written _ _ _ _ rsSlice rsProg rsProg_eq i a) by lia. split.
  - intros (l & o & s & d & _ & (Hl & Ho & Hs) & Hd & Ha). apply rsSlice_dst in Hd as [_ ->].
    rewrite rsSlice_len in Ha. exists (a - (rr_out r i + grid)). split; [|lia].
    apply (loop_elem l s _ Hl). unfold inLoop. lia.
  - intros (x & Hx & ->). destruct (inLoop_exists p0 count chunk Hch HSPC x Hx) as (l & s & Hl & Hs & Hin).
    exists l, (n - 1)%nat, s, (rr_out r i + grid + lx l s).
    split; [done|]. split; [split_and!; (done || lia)|]. split; [by apply rsSlice_dst|].
    rewrite rsSlice_len. unfold inLoop in Hin. lia.
Qed.

(** Every rank ends with the reduction of its own block. *)
Definition reduceScattered (i : nat) (m : mem T) : Prop :=
  (forall x, 0 <= x < count -> m (rr_out r i + grid + x) = scatterFull i x) /\
  (forall a, (forall x, 0 <= x < count -> a <> rr_out r i + grid + x) -> m a = rr_mem r i a).

Lemma rs_final i m : (i < n)%nat -> overlay rsProg (rr_mem r) rsOut i (L * (n * SPC)) m -> reduceScattered i m.
Proof.
  intros Hi Hm. split.
  - intros x Hx. rewrite (proj1 (Hm _)) by (apply rs_written; eauto). unfold rsOut. f_equal. lia.
  - intros a Ha. apply (Hm a). intros (x & Hx & E)%rs_written; [|done]. by apply (Ha x).
Qed.
End gather.

(** What the block layout needs: the ranks of the ring are [0 .. n-1], and the
    channel's part lies inside a block. *)
Definition blocksOk {T} (r : ringRun T) (rankAt : nat -> Z) (posOf : Z -> nat) (total : Z) : Prop :=
  ranksOk (rr_n r) rankAt posOf /\ 0 <= rr_grid r /\ rr_grid r + rr_count r <= total.

(** C26: ring AllGather is correct under every interleaving: every run ends,
    none gets stuck, and then every rank holds the part of every rank's block
    at its place in the receive buffer, with no other memory touched.  The slices
    of a chunk go through FIFO buffers that are used again, into which the chunks
    fit.  The send buffer may be the rank's own block of the receive buffer. *)
Theorem runRingAllGather_correct {T} (r : ringRun T) rankAt posOf total start fifo0 :
  ringRunOk r -> blocksOk r rankAt posOf total -> (forall x, preOp (rr_fn r) x = x) -> agBuffersOk r rankAt total ->
  runsTo (rr_fn r) (rr_SPS r) (rr_step r) id (rr_n r)
    (initConfig (agProg r rankAt total) (rr_mem r) (connStart (Z.of_nat (rr_SPC r) * rr_SPS r) start) fifo0)
    (gathered r rankAt total).
Proof.
  intros Hok [Hr Ht] Hpre Hbuf. pose proof Hok as (Hn & HSPC & _).
  eapply block_runsTo; [by apply agProg_eq|done|done|by apply (ag_pipeline r Hok rankAt posOf)|].
  intros i m. by apply (ag_final r Hok rankAt posOf).
Qed.

(** C25: ring ReduceScatter is correct under every interleaving: every run ends,
    none gets stuck, and then every rank holds the reduction, along the ring,
    of what all ranks sent for its block, with no other memory touched.  The slices
    of a chunk go through FIFO buffers that are used again, into which the chunks
    fit.  The receive buffer may be the rank's own block of the send buffer. *)
Theorem runRingReduceScatter_correct {T} (r : ringRun T) rankAt posOf total start fifo0 :
  ringRunOk r -> blocksOk r rankAt posOf total -> rsBuffersOk r rankAt total ->
  runsTo (rr_fn r) (rr_SPS r) (rr_step r) id (rr_n r)
    (initConfig (rsProg r rankAt total) (rr_mem r) (connStart (Z.of_nat (rr_SPC r) * rr_SPS r) start) fifo0)
    (reduceScattered r rankAt total).
Proof.
  intros Hok [Hr Ht] Hbuf. pose proof Hok as (Hn & HSPC & _).
  eapply block_runsTo; [by apply rsProg_eq|done|done|by apply (rs_pipeline r Hok rankAt posOf)|].
  intros i m. by apply (rs_final r Hok rankAt).
Qed.

(** Three ranks with blocks of ten elements, in place. *)
Definition gatherRun : ringRun Z := {|
  rr_fn := {| preOp := fun x => x; reduceOp := Z.add; postOpFn := fun x => x |};
  rr_n := 3; rr_grid := 2; rr_count := 5; rr_chunk := 4; rr_elt := 4;
  rr_in := fun i => 100 + Z.of_nat i * 10; rr_out := fun _ => 100;
  rr_step := 64; rr_SPC := 2; rr_SPS := 2;
  rr_mem := fun i a => Z.of_nat i * 1000 + a |}.

Definition scatterRun : ringRun Z := {|
  rr_fn := {| preOp := fun x => x; reduceOp := Z.add; postOpFn := fun x => x |};
  rr_n := 3; rr_grid := 2; rr_count := 5; rr_chunk := 4; rr_elt := 4;
  rr_in := fun _ => 100; rr_out := fun i => 100 + Z.of_nat i * 10;
  rr_step := 64; rr_SPC := 2; rr_SPS := 2;
  rr_mem := fun i a => Z.of_nat i * 1000 + a |}.

Lemma runRingAllGather_correct_witness :
  runsTo (rr_fn gatherRun) 2 64 id 3
    (initConfig (agProg gatherRun Z.of_nat 10) (rr_mem gatherRun) (connStart 4 (fun _ _ => 3)) (fun _ _ _ => 0))
    (gathered gatherRun Z.of_nat 10).
Proof.
  apply (runRingAllGather_correct gatherRun Z.of_nat Z.to_nat 10 (fun _ _ => 3) (fun _ _ _ => 0)).
  - ring_run_ok.
  - split; [|simpl; lia]. intros j Hj. cbn in *. lia.
  - reflexivity.
  - intros i _. left. unfold inPlaceAG. apply Z.eqb_eq. reflexivity.
Defined.

Lemma runRingReduceScatter_correct_witness :
  runsTo (rr_fn scatterRun) 2 64 id 3
    (initConfig (rsProg scatterRun Z.of_nat 10) (rr_mem scatterRun) (connStart 4 (fun _ _ => 3)) (fun _ _ _ => 0))
    (reduceScattered scatterRun Z.of_nat 10).
Proof.
  apply (runRingReduceScatter_correct scatterRun Z.of_nat Z.to_nat 10 (fun _ _ => 3) (fun _ _ _ => 0)).
  - ring_run_ok.
  - split; [|simpl; lia]. intros j Hj. cbn in *. lia.
  - intros i _. left. reflexivity.
Defined.
