(* ===== verification/RingChain.v ===== *)
(** * Ring Broadcast and Reduce (src/src/device/broadcast.h, reduce.h)

    Both kernels cut the ring at the root and use it as a chain: Broadcast
    starts at the root and ends at the rank before it, Reduce starts at the
    rank after the root and ends at the root.  They are kernels of one phase. *)

From stdpp Require Import base numbers list relations.
From Stdlib Require Import ZArith Lia.
From S2P Require Import Prelude Bitops Prims Net DevWork Loops RingNet PhaseNet RingColl.

Local Open Scope Z_scope.

Section chain.
Context {T : Type} (r : ringRun T) (rankAt : nat -> Z) (total : Z) (t : nat).

Local Abbreviation n := (rr_n r).
Local Abbreviation grid := (rr_grid r).
Local Abbreviation count := (rr_count r).
Local Abbreviation chunk := (rr_chunk r).
Local Abbreviation p0 := (ringPrims r 0).
Local Abbreviation K := (loopSlices p0 count chunk).
Local Abbreviation inVal i y := (rr_mem r i (rr_in r i + grid + y)).

(** The programs of the ranks; the root is at position [t]. *)
Definition bcProg (i : nat) : list sliceOp :=
  ringProg r (fun i => runRingBroadcast (ringEnvOf r rankAt total i) (rankAt t)) i.
Definition rdProg (i : nat) : list sliceOp :=
  ringProg r (fun i => runRingReduce (ringEnvOf r rankAt total i) (rankAt t)) i.

(** Everyone has the root's input. *)
Definition broadcasted (i : nat) (m : mem T) : Prop :=
  (forall y, 0 <= y < count -> m (rr_out r i + grid + y) = inVal t y) /\
  (forall a, ~ 0 <= a - (rr_out r i + grid) < count -> m a = rr_mem r i a).

(** The root has the reduction of all inputs along the ring, from the rank
    after it to itself; the other ranks have what they had. *)
Definition reduced (i : nat) (m : mem T) : Prop :=
  (i = t -> forall y, 0 <= y < count ->
     m (rr_out r t + grid + y) =
     postOpFn (rr_fn r) (ringFold (reduceOp (rr_fn r)) n (fun j => preOp (rr_fn r) (inVal j y)) t (n - 1))) /\
  (forall a, i <> t \/ ~ 0 <= a - (rr_out r i + grid) < count -> m a = rr_mem r i a).

(** The root's buffers are the same or do not overlap. *)
Definition rootBuffersOk : Prop :=
  rr_in r t = rr_out r t \/
  forall y z, 0 <= y < count -> 0 <= z < count -> rr_in r t + grid + y <> rr_out r t + grid + z.

(** The phases. *)
Definition bcPhase (i : nat) : phase :=
  let p := ringPrims r i in
  if (i =? t)%nat then
    phaseOf p false true (Some Input) (if rr_in r i =? rr_out r i then None else Some Output) false grid
  else phaseOf p true (negb (nextPos n i =? t)%nat) None (Some Output) false grid.

Definition rdPhase (i : nat) : phase :=
  let p := ringPrims r i in
  phaseOf p (negb (prevPos n i =? t)%nat) (negb (i =? t)%nat) (Some Input)
    (if (i =? t)%nat then Some Output else None) (i =? t)%nat grid.

Definition bcPhases (i : nat) : list phase := if (i <? n)%nat then [bcPhase i] else [].
Definition rdPhases (i : nat) : list phase := if (i <? n)%nat then [rdPhase i] else [].

(** The place of a rank in the chain, counted from position [c]. *)
Definition chainPos (c i : nat) : nat := (i + n - c) mod n.

Context (Hok : ringRunOk r) (Ht : (t < n)%nat).
Context (Hranks : forall i j, (i < n)%nat -> (j < n)%nat -> rankAt i = rankAt j -> i = j).

Lemma rank_eqb i j : (i < n)%nat -> (j < n)%nat -> (rankAt i =? rankAt j) = (i =? j)%nat.
Proof.
  intros Hi Hj. destruct (Nat.eqb_spec i j) as [->|Hne]; [apply Z.eqb_refl|]. apply Z.eqb_neq. intros E.
  by apply Hne, Hranks.
Qed.

Lemma userRanks_0 i : (i < n)%nat -> userRanks (ringEnvOf r rankAt total i) 0 = rankAt i.
Proof. intros Hi. simpl. by rewrite Nat.add_0_r, Nat.mod_small. Qed.

Lemma userRanks_last i : (i < n)%nat -> userRanks (ringEnvOf r rankAt total i) (n - 1) = rankAt (prevPos n i).
Proof. intros Hi. simpl. unfold prevPos. do 2 f_equal. lia. Qed.

(** Each kernel is its phase, over the slices of the loop. *)
Lemma bcProg_eq i :
  bcProg i = phaseProg K bcPhases (sliceAt p0 count chunk) (sliceLenAt p0 count chunk) i.
Proof.
  pose proof Hok as (Hn & HSPC & HSPS & _ & Hstep & _ & Hc & Hch & Hm & _).
  unfold bcProg, ringProg, phaseProg, bcPhases. destruct (Nat.ltb_spec i n) as [Hi|]; [|done].
  cbn [flat_map]. rewrite app_nil_r. unfold runRingBroadcast. cbn [part partCount partOffset chunkCount ringEnvOf prims].
  change (userRanks _ 1) with (rankAt (nextPos n i)).
  rewrite userRanks_0, !rank_eqb by (done || apply nextPos_lt; lia). unfold bcPhase. cbn zeta.
  pose proof (loop_phase (ringPrims r i) count chunk Hch Hc HSPC ltac:(simpl; nia) ltac:(simpl; lia)) as L.
  destruct (Nat.eqb_spec i t) as [->|Hne].
  - change (userInput (ringPrims r t)) with (rr_in r t). change (userOutput (ringPrims r t)) with (rr_out r t).
    destruct (rr_in r t =? rr_out r t); by apply (L _ _ _ _ _ grid (fun o => o) (fun o => o)).
  - destruct (nextPos n i =? t)%nat; by apply (L _ _ _ _ _ grid (fun o => o) (fun o => o)).
Qed.

Lemma rdProg_eq i :
  rdProg i = phaseProg K rdPhases (sliceAt p0 count chunk) (sliceLenAt p0 count chunk) i.
Proof.
  pose proof Hok as (Hn & HSPC & HSPS & _ & Hstep & _ & Hc & Hch & Hm & _).
  unfold rdProg, ringProg, phaseProg, rdPhases. destruct (Nat.ltb_spec i n) as [Hi|]; [|done].
  cbn [flat_map]. rewrite app_nil_r. unfold runRingReduce. cbn [part partCount partOffset chunkCount].
  change (nranks _) with n. pose proof (prevPos_lt n i ltac:(lia)).
  rewrite userRanks_0, userRanks_last, !rank_eqb by done. unfold rdPhase. cbn zeta.
  pose proof (loop_phase (ringPrims r i) count chunk Hch Hc HSPC ltac:(simpl; nia) ltac:(simpl; lia)) as L.
  destruct (Nat.eqb_spec (prevPos n i) t) as [E|Hne].
  - assert (i <> t) as Hne.
    { intros ->. pose proof (next_prev n t Ht) as E'. rewrite E in E'. unfold nextPos in E'.
      destruct (Nat.eq_dec (t + 1) n) as [En|En]; [rewrite En, Nat.Div0.mod_same in E'; lia|rewrite Nat.mod_small in E'; lia]. }
    rewrite (proj2 (Nat.eqb_neq i t) Hne). by apply (L _ _ _ _ _ grid (fun o => o) (fun o => -1)).
  - destruct (Nat.eqb_spec i t) as [->|Hne2]; [by apply (L _ _ _ _ _ grid (fun o => o) (fun o => o))|].
    by apply (L _ _ _ _ _ grid (fun o => o) (fun o => -1)).
Qed.

(** ** Places in the chain *)

Lemma chainPos_next c i :
  (c < n)%nat -> (i < n)%nat -> nextPos n i <> c -> chainPos c (nextPos n i) = S (chainPos c i).
Proof.
  intros Hc Hi Hne. unfold chainPos, nextPos in *.
  destruct (Nat.eq_dec (i + 1) n) as [E|E].
  - rewrite E, Nat.Div0.mod_same in *. rewrite (Nat.mod_small (0 + n - c)) by lia.
    replace (i + n - c)%nat with (i - c + 1 * n)%nat by lia. rewrite Nat.Div0.mod_add, Nat.mod_small by lia. lia.
  - rewrite (Nat.mod_small (i + 1)) in * by lia. destruct (Nat.lt_ge_cases i c) as [Hlt|Hge].
    + rewrite !Nat.mod_small by lia. lia.
    + replace (i + 1 + n - c)%nat with (i + 1 - c + 1 * n)%nat by lia.
      replace (i + n - c)%nat with (i - c + 1 * n)%nat by lia. rewrite !Nat.Div0.mod_add, !Nat.mod_small by lia. lia.
Qed.

Lemma chainPos_prev c i :
  (c < n)%nat -> (i < n)%nat -> i <> c -> chainPos c i = S (chainPos c (prevPos n i)).
Proof.
  intros Hc Hi Hne. rewrite <- (next_prev n i Hi) at 1. apply chainPos_next; [done|apply prevPos_lt; lia|].
  by rewrite next_prev.
Qed.

Lemma chainPos_lt c i : (0 < n)%nat -> (chainPos c i < n)%nat.
Proof. intros. apply Nat.mod_upper_bound. lia. Qed.

Lemma chainPos_last c i : (c < n)%nat -> (i < n)%nat -> nextPos n i = c -> chainPos c i = (n - 1)%nat.
Proof.
  intros Hc Hi <-. unfold chainPos, nextPos. destruct (Nat.eq_dec (i + 1) n) as [E|E].
  - rewrite E, Nat.Div0.mod_same. replace (i + n - 0)%nat with (i + 1 * n)%nat by lia.
    rewrite Nat.Div0.mod_add, Nat.mod_small by lia. lia.
  - rewrite (Nat.mod_small (i + 1)) by lia. rewrite Nat.mod_small by lia. lia.
Qed.

Lemma next_eq i j : (i < n)%nat -> (j < n)%nat -> nextPos n i = j <-> i = prevPos n j.
Proof. intros Hi Hj. split; [intros <-; by rewrite prev_next|intros ->; by apply next_prev]. Qed.

Lemma prev_eq i j : (i < n)%nat -> (j < n)%nat -> prevPos n i = j <-> i = nextPos n j.
Proof. intros Hi Hj. split; [intros <-; by rewrite next_prev|intros ->; by apply prev_next]. Qed.

Lemma prev_ne i : (i < n)%nat -> prevPos n i <> i.
Proof.
  intros Hi E. pose proof Hok as [Hn _]. pose proof (chainPos_next i i Hi Hi) as L.
  apply prev_eq in E; [|done|done]. unfold nextPos in E.
  destruct (Nat.eq_dec (i + 1) n) as [En|En]; [rewrite En, Nat.Div0.mod_same in E; lia|rewrite Nat.mod_small in E; lia].
Qed.

(** ** Broadcast *)

Lemma bc_inv i f φ : bcPhases i !! f = Some φ -> (i < n)%nat /\ f = 0%nat /\ φ = bcPhase i.
Proof.
  unfold bcPhases. intros H. destruct (Nat.ltb_spec i n) as [Hi|]; [|done].
  destruct f; [|done]. injection H as <-. done.
Qed.

Lemma bc_at i : (i < n)%nat -> bcPhases i !! 0%nat = Some (bcPhase i).
Proof. intros Hi. unfold bcPhases. by rewrite (proj2 (Nat.ltb_lt _ _) Hi). Qed.

Lemma bc_recv i p : p ∈ phRecv (bcPhase i) <-> i <> t /\ p = prevPos n i.
Proof.
  unfold bcPhase. destruct (Nat.eqb_spec i t) as [->|Hne]; cbn [phRecv phaseOf].
  - split; [by intros ?%not_elem_of_nil|]. by intros [[] _].
  - cbn. rewrite list_elem_of_singleton. tauto.
Qed.

Lemma bc_send i q : (i < n)%nat -> q ∈ phSend (bcPhase i) <-> q = nextPos n i /\ q <> t.
Proof.
  intros Hi. unfold bcPhase. destruct (Nat.eqb_spec i t) as [->|Hne]; cbn [phSend phaseOf].
  - cbn. rewrite list_elem_of_singleton. split; [|by intros []]. intros ->. split; [done|].
    intros E%next_eq; [|done|done]. by apply (prev_ne t).
  - destruct (Nat.eqb_spec (nextPos n i) t) as [E|E]; cbn.
    + split; [by intros ?%not_elem_of_nil|]. by intros [-> []].
    + rewrite list_elem_of_singleton. split; [by intros ->|by intros []].
Qed.

Lemma bc_phases :
  (forall x, preOp (rr_fn r) x = x) -> rootBuffersOk ->
  Phases (rr_fn r) (rr_SPS r) (rr_step r) id n K n bcPhases (rr_mem r) (sliceAt p0 count chunk) (sliceLenAt p0 count chunk)
    (fun _ _ y => inVal t y) (fun _ _ y => inVal t y) (fun i _ => chainPos t i) bcProg.
Proof.
  intros Hpre Hbuf. pose proof Hok as (Hn & HSPC & HSPS & Hcap & Hstep & _ & Hc & Hch & Hm & _ & _ & Hfit).
  assert (forall s y, inSlice K (sliceAt p0 count chunk) (sliceLenAt p0 count chunk) s y -> 0 <= y < count) as Hel.
  { intros s y. apply (inSlice_elem p0 count chunk Hch Hc HSPC ltac:(simpl; nia) ltac:(simpl; lia)). }
  split.
  - nia.
  - split; [apply Hfit|done].
  - intros s Hs. apply (sliceLenAt_fits p0 count chunk Hch Hc HSPC ltac:(simpl; nia) ltac:(simpl; lia) s); done.
  - intros i Hi. unfold bcPhases. by rewrite (proj2 (Nat.ltb_ge _ _) Hi).
  - intros i f φ (Hi & -> & ->)%bc_inv. unfold bcPhase.
    destruct (i =? t)%nat; cbn; [|destruct (negb _)]; split; (apply NoDup_nil || apply NoDup_singleton); done.
  - intros i f φ p (Hi & -> & ->)%bc_inv [Hne ->]%bc_recv. exists (bcPhase (prevPos n i)).
    pose proof (prevPos_lt n i ltac:(lia)). split; [by apply bc_at|]. apply bc_send; [done|]. by rewrite next_prev.
  - intros i f φ q (Hi & -> & ->)%bc_inv Hq. apply bc_send in Hq as [-> Hne]; [|done]. exists (bcPhase (nextPos n i)).
    pose proof (nextPos_lt n i ltac:(lia)). split; [by apply bc_at|]. apply bc_recv. by rewrite prev_next.
  - intros i f f' φ φ' p (_ & -> & _)%bc_inv (_ & -> & _)%bc_inv. done.
  - intros i f f' φ φ' p (_ & -> & _)%bc_inv (_ & -> & _)%bc_inv. done.
  - intros i f φ p (Hi & -> & ->)%bc_inv [Hne ->]%bc_recv. rewrite (chainPos_prev t i) by done. lia.
  - intros i _. pose proof (chainPos_lt t i ltac:(lia)). lia.
  - intros i f φ (Hi & -> & ->)%bc_inv. unfold bcPhase. destruct (i =? t)%nat; [by left|by right].
  - intros i f φ b i' f' φ' b' (_ & -> & _)%bc_inv _ (_ & -> & _)%bc_inv _ E. done.
  - intros i f φ c b s y k (Hi & -> & ->)%bc_inv Hs Hy _ Hk. right.
    unfold bcPhase in Hs. destruct (Nat.eqb_spec i t) as [->|]; [|done]. cbn in Hs. injection Hs as <- <-.
    split; [|done]. intros (v & j & f & φ & s' & b & Hj & (_ & -> & ->)%bc_inv & Hb & Hlt & Hin & _).
    unfold id in Hj. subst j. unfold bcPhase in Hb. rewrite Nat.eqb_refl in Hb. cbn in Hb.
    destruct (Z.eqb_spec (rr_in r t) (rr_out r t)) as [|Hio]; [done|]. injection Hb as <-.
    destruct Hbuf as [|Hdis]; [done|]. apply Hel in Hin. apply Hel in Hy. eapply (Hdis y); [done|exact Hin|]. cbn. lia.
  - intros i f φ s y (Hi & -> & ->)%bc_inv Hy. unfold bcPhase.
    destruct (Nat.eqb_spec i t) as [->|]; cbn; [by rewrite Hpre|done].
Qed.

(** ** Reduce *)

Local Abbreviation first := (nextPos n t).
Local Abbreviation op := (reduceOp (rr_fn r)).

(** What the rank at position [i] passes on, before the final operation. *)
Definition rdFold (i : nat) (y : Z) : T :=
  ringFold op n (fun j => preOp (rr_fn r) (inVal j y)) t (chainPos first i).

Definition rdVal (i : nat) (_ : nat) (y : Z) : T :=
  if (i =? t)%nat then postOpFn (rr_fn r) (rdFold i y) else rdFold i y.

Lemma rd_inv i f φ : rdPhases i !! f = Some φ -> (i < n)%nat /\ f = 0%nat /\ φ = rdPhase i.
Proof.
  unfold rdPhases. intros H. destruct (Nat.ltb_spec i n) as [Hi|]; [|done].
  destruct f; [|done]. injection H as <-. done.
Qed.

Lemma rd_at i : (i < n)%nat -> rdPhases i !! 0%nat = Some (rdPhase i).
Proof. intros Hi. unfold rdPhases. by rewrite (proj2 (Nat.ltb_lt _ _) Hi). Qed.

Lemma rd_recv i p : p ∈ phRecv (rdPhase i) <-> p <> t /\ p = prevPos n i.
Proof.
  cbn. destruct (Nat.eqb_spec (prevPos n i) t) as [E|E]; cbn.
  - split; [by intros ?%not_elem_of_nil|]. by intros [Hp ->].
  - rewrite list_elem_of_singleton. split; [by intros ->|by intros []].
Qed.

Lemma rd_send i q : q ∈ phSend (rdPhase i) <-> i <> t /\ q = nextPos n i.
Proof.
  cbn. destruct (Nat.eqb_spec i t) as [E|E]; cbn.
  - split; [by intros ?%not_elem_of_nil|]. by intros [[] _].
  - rewrite list_elem_of_singleton. tauto.
Qed.

Lemma chain_at i : (i < n)%nat -> i = ((t + 1 + chainPos first i) mod n)%nat.
Proof.
  intros Hi. unfold chainPos. rewrite Nat.Div0.add_mod_idemp_r. unfold nextPos.
  destruct (Nat.eq_dec (t + 1) n) as [E|E].
  - rewrite E, Nat.Div0.mod_same. replace (n + (i + n - 0))%nat with (i + 2 * n)%nat by lia.
    by rewrite Nat.Div0.mod_add, Nat.mod_small.
  - rewrite (Nat.mod_small (t + 1)) by lia. replace (t + 1 + (i + n - (t + 1)))%nat with (i + 1 * n)%nat by lia.
    by rewrite Nat.Div0.mod_add, Nat.mod_small.
Qed.

(** The equation of a rank of the chain. *)
Lemma rdFold_eq i y :
  (i < n)%nat ->
  rdFold i y = fold_left op (map (fun p => rdVal p 0 y) (phRecv (rdPhase i))) (preOp (rr_fn r) (inVal i y)).
Proof.
  intros Hi. pose proof Hok as [Hn _]. unfold rdFold. pose proof (chain_at i Hi) as Ei. cbn.
  pose proof (nextPos_lt n t ltac:(lia)) as Hf.
  destruct (Nat.eqb_spec (prevPos n i) t) as [E|E]; cbn.
  - apply prev_eq in E as ->; [|done|done]. unfold chainPos in *.
    replace (first + n - first)%nat with n in * by lia. rewrite Nat.Div0.mod_same in *. cbn.
    by rewrite Nat.add_0_r in Ei.
  - assert (i <> first) as Hne by (intros ->; apply E; by apply prev_next).
    rewrite (chainPos_prev first i) in Ei |- * by done. cbn. unfold rdVal.
    rewrite (proj2 (Nat.eqb_neq _ _) E). f_equal.
    by replace (t + 2 + chainPos first (prevPos n i))%nat with (t + 1 + S (chainPos first (prevPos n i)))%nat
      by lia; rewrite <- Ei.
Qed.

Lemma rd_phases :
  rootBuffersOk ->
  Phases (rr_fn r) (rr_SPS r) (rr_step r) id n K n rdPhases (rr_mem r) (sliceAt p0 count chunk) (sliceLenAt p0 count chunk)
    rdVal (fun i _ y => inVal i y) (fun i _ => chainPos first i) rdProg.
Proof.
  intros Hbuf. pose proof Hok as (Hn & HSPC & HSPS & Hcap & Hstep & _ & Hc & Hch & Hm & _ & _ & Hfit).
  pose proof (nextPos_lt n t ltac:(lia)) as Hf.
  assert (forall s y, inSlice K (sliceAt p0 count chunk) (sliceLenAt p0 count chunk) s y -> 0 <= y < count) as Hel.
  { intros s y. apply (inSlice_elem p0 count chunk Hch Hc HSPC ltac:(simpl; nia) ltac:(simpl; lia)). }
  split.
  - nia.
  - split; [apply Hfit|done].
  - intros s Hs. apply (sliceLenAt_fits p0 count chunk Hch Hc HSPC ltac:(simpl; nia) ltac:(simpl; lia) s); done.
  - intros i Hi. unfold rdPhases. by rewrite (proj2 (Nat.ltb_ge _ _) Hi).
  - intros i f φ (Hi & -> & ->)%rd_inv. cbn.
    split; destruct (negb _); (apply NoDup_nil || apply NoDup_singleton); done.
  - intros i f φ p (Hi & -> & ->)%rd_inv [Hne ->]%rd_recv. exists (rdPhase (prevPos n i)).
    pose proof (prevPos_lt n i ltac:(lia)). split; [by apply rd_at|]. apply rd_send. by rewrite next_prev.
  - intros i f φ q (Hi & -> & ->)%rd_inv [Hne ->]%rd_send. exists (rdPhase (nextPos n i)).
    pose proof (nextPos_lt n i ltac:(lia)). split; [by apply rd_at|]. apply rd_recv. by rewrite prev_next.
  - intros i f f' φ φ' p (_ & -> & _)%rd_inv (_ & -> & _)%rd_inv. done.
  - intros i f f' φ φ' p (_ & -> & _)%rd_inv (_ & -> & _)%rd_inv. done.
  - intros i f φ p (Hi & -> & ->)%rd_inv [Hne ->]%rd_recv. rewrite (chainPos_prev first i); [lia|done|done|].
    intros ->. apply Hne. by apply prev_next.
  - intros i _. pose proof (chainPos_lt first i ltac:(lia)). lia.
  - intros i f φ (Hi & -> & ->)%rd_inv. by left.
  - intros i f φ b i' f' φ' b' (_ & -> & _)%rd_inv _ (_ & -> & _)%rd_inv _ E. done.
  - intros i f φ c b s y k (Hi & -> & ->)%rd_inv Hs Hy _ Hk. right. cbn in Hs. injection Hs as <- <-. split; [|done].
    intros (v & j & f & φ & s' & b & Hj & (_ & -> & ->)%rd_inv & Hb & Hlt & Hin & _). unfold id in Hj. subst j.
    cbn in Hb. destruct (Nat.eqb_spec i t) as [->|Hit]; [|done]. injection Hb as <-. cbn in *.
    destruct Hbuf as [E|Hdis].
    + assert (s' < s)%nat as Hss by lia. rewrite E in Hin.
      replace (rr_out r t + grid + y - (rr_out r t + grid)) with y in Hin by lia.
      pose proof (inSlice_unique p0 count chunk Hch Hc HSPC ltac:(simpl; nia) ltac:(simpl; lia) s s' y Hy Hin). lia.
    + apply Hel in Hin. apply Hel in Hy. eapply (Hdis y); [done|exact Hin|]. lia.
  - intros i f φ s y (Hi & -> & ->)%rd_inv Hy. unfold rdVal at 2.
    pose proof (rdFold_eq i y Hi) as E. cbn in E |- *. f_equal. rewrite <- E. done.
Qed.
End chain.

(** C28: ring Broadcast is correct under every interleaving: every run ends, none
    gets stuck, and then every rank holds the root's elements in its receive
    buffer, with no other memory touched.  The slices of a chunk go through FIFO
    buffers that are used again, into which the chunks fit.  The root may broadcast
    in place. *)
Theorem runRingBroadcast_correct {T} (r : ringRun T) rankAt total t start fifo0 :
  ringRunOk r -> (t < rr_n r)%nat ->
  (forall i j, (i < rr_n r)%nat -> (j < rr_n r)%nat -> rankAt i = rankAt j -> i = j) ->
  (forall x, preOp (rr_fn r) x = x) -> rootBuffersOk r t ->
  runsTo (rr_fn r) (rr_SPS r) (rr_step r) id (rr_n r)
    (initConfig (bcProg r rankAt total t) (rr_mem r) (connStart (Z.of_nat (rr_SPC r) * rr_SPS r) start) fifo0)
    (broadcasted r t).
Proof.
  intros Hok Ht Hranks Hpre Hbuf. pose proof Hok as (Hn & HSPC & HSPS & _ & Hstep & _ & Hc & Hch & Hm & _).
  eapply (loop_runsTo (ringPrims r 0)); [exact Hch|exact Hc|exact HSPC|simpl; nia|simpl; lia|nia|by apply Z.mod_mul; lia|by apply bcProg_eq|by apply bc_phases|].
  unfold id. intros i m Hi Hw Hu. pose proof (bc_at r t i Hi) as Ha. split.
  - intros y Hy. destruct (Z.eq_dec (rr_in r i) (rr_out r i)) as [E|E]; [destruct (Nat.eq_dec i t) as [->|Hne]|].
    + rewrite Hu; [by rewrite E|]. intros j f φ b -> (_ & -> & ->)%bc_inv Hb.
      unfold bcPhase in Hb. by rewrite Nat.eqb_refl, (proj2 (Z.eqb_eq _ _) E) in Hb.
    + apply (Hw i 0%nat _ _ y eq_refl Ha); [|done]. unfold bcPhase. by rewrite (proj2 (Nat.eqb_neq _ _) Hne).
    + apply (Hw i 0%nat _ _ y eq_refl Ha); [|done]. unfold bcPhase. rewrite (proj2 (Z.eqb_neq _ _) E).
      by destruct (i =? t)%nat.
  - intros a Ho. apply Hu. intros j f φ b -> (_ & -> & ->)%bc_inv Hb. unfold bcPhase in Hb.
    destruct (i =? t)%nat; cbn in Hb; [destruct (rr_in r i =? rr_out r i); [done|]|]; by injection Hb as <-.
Qed.

(** C27: ring Reduce is correct under every interleaving: every run ends, none
    gets stuck, and then the root holds the reduction of every rank's input, in
    the order of the ring and with the final operation applied once, while no
    other memory is touched.  The slices of a chunk go through FIFO buffers that are
    used again, into which the chunks fit.  The root may reduce in place. *)
Theorem runRingReduce_correct {T} (r : ringRun T) rankAt total t start fifo0 :
  ringRunOk r -> (t < rr_n r)%nat ->
  (forall i j, (i < rr_n r)%nat -> (j < rr_n r)%nat -> rankAt i = rankAt j -> i = j) -> rootBuffersOk r t ->
  runsTo (rr_fn r) (rr_SPS r) (rr_step r) id (rr_n r)
    (initConfig (rdProg r rankAt total t) (rr_mem r) (connStart (Z.of_nat (rr_SPC r) * rr_SPS r) start) fifo0)
    (reduced r t).
Proof.
  intros Hok Ht Hranks Hbuf. pose proof Hok as (Hn & HSPC & HSPS & _ & Hstep & _ & Hc & Hch & Hm & _).
  eapply (loop_runsTo (ringPrims r 0)); [exact Hch|exact Hc|exact HSPC|simpl; nia|simpl; lia|nia|by apply Z.mod_mul; lia|by apply rdProg_eq|by apply rd_phases|].
  unfold id. intros i m Hi Hw Hu. pose proof (rd_at r t i Hi) as Ha. split.
  - intros -> y Hy. rewrite (Hw t 0%nat _ (rr_out r t + rr_grid r) y eq_refl Ha); [|cbn; by rewrite Nat.eqb_refl|done].
    unfold rdVal. rewrite Nat.eqb_refl. unfold rdFold. rewrite (chainPos_last r t); (done || apply nextPos_lt; lia).
  - intros a Ho. apply Hu. intros j f φ b -> (_ & -> & ->)%rd_inv Hb. cbn in Hb.
    destruct (Nat.eqb_spec i t) as [->|Hit]; [|done]. injection Hb as <-. destruct Ho; done.
Qed.

(** Three ranks, the root in the middle, in place. *)
Definition chainRun : ringRun Z := {|
  rr_fn := {| preOp := fun x => x; reduceOp := Z.add; postOpFn := fun x => x |};
  rr_n := 3; rr_grid := 2; rr_count := 5; rr_chunk := 4; rr_elt := 4;
  rr_in := fun _ => 100; rr_out := fun _ => 100;
  rr_step := 64; rr_SPC := 2; rr_SPS := 2;
  rr_mem := fun i a => Z.of_nat i * 1000 + a |}.

Lemma runRingBroadcast_correct_witness :
  runsTo (rr_fn chainRun) 2 64 id 3
    (initConfig (bcProg chainRun Z.of_nat 5 1) (rr_mem chainRun) (connStart 4 (fun _ _ => 3)) (fun _ _ _ => 0))
    (broadcasted chainRun 1).
Proof.
  apply (runRingBroadcast_correct chainRun Z.of_nat 5 1 (fun _ _ => 3) (fun _ _ _ => 0)).
  - ring_run_ok.
  - simpl; lia.
  - intros; lia.
  - reflexivity.
  - left. reflexivity.
Defined.

Lemma runRingReduce_correct_witness :
  runsTo (rr_fn chainRun) 2 64 id 3
    (initConfig (rdProg chainRun Z.of_nat 5 1) (rr_mem chainRun) (connStart 4 (fun _ _ => 3)) (fun _ _ _ => 0))
    (reduced chainRun 1).
Proof.
  apply (runRingReduce_correct chainRun Z.of_nat 5 1 (fun _ _ => 3) (fun _ _ _ => 0)).
  - ring_run_ok.
  - simpl; lia.
  - intros; lia.
  - left. reflexivity.
Defined.
