(* ===== verification/ProxyRing.v ===== *)
(** * The proxy's view of the ring (src/src/include/collectives.h)

    When the user's buffers are registered with the network, the proxy thread
    moves data straight between them, and computes by itself, from the step
    counter of the connection, which bytes the kernel's next slice covers.
    [getNextSendAddr] and [getNextRecvAddr] are that computation for AllReduce,
    AllGather and Broadcast; the theorems compare it with the slices of the
    kernels of RingColl: at the step a kernel slice occupies, the proxy computes
    the slice's length and its place in the buffer. *)

From stdpp Require Import base numbers list relations.
From Stdlib Require Import ZArith Lia.
From S2P Require Import Prelude Bitops Prims Net DevWork Loops RingNet PhaseNet RingColl RingAllReduce RingGather RingChain.

Local Open Scope Z_scope.

(** Buffers and memory handles are addresses in bytes. *)
(* src/src/include/collectives.h:82-96 RingAlgorithm *)
Record RingAlgorithm := {
  refCount : Z;
  nRanks : Z;
  nStepsPerLoop : Z;
  chunkSteps : Z;
  sliceSteps : Z;
  sliceSize : Z;
  loopSize : Z;
  channelSize : Z;
  sendbuff : Z;
  recvbuff : Z;
  sendMhandle : Z;
  recvMhandle : Z;
  srecvMhandle : Z }.

(** What the two queries return through their out parameters.  The proxy's step
    counters have 64 bits; the queries take them as an [int]. *)
Record proxyBuf := { pb_addr : Z; pb_size : Z; pb_mhandle : Z }.

Definition clampSize (size : Z) : Z := if size <? 0 then 0 else size.

(* src/src/include/collectives.h:119-124 RingARAlgorithm *)
Record RingARAlgorithm := {
  ar_base :> RingAlgorithm;
  ar_ringIndex : Z;
  ar_elemSize : Z;
  ar_chunkSize : Z;
  ar_slicePerChunk : Z }.

(* src/src/include/collectives.h:214-233 RingARAlgorithm::RingARAlgorithm *)
Definition newRingAR (sbuff rbuff nr ringIndex cSteps sSteps chunkSize sSize gridOffset chSize elemSize
    sMhandle rMhandle srMhandle : Z) : RingARAlgorithm := {|
  ar_base := {|
    refCount := 0; nRanks := nr; nStepsPerLoop := cwrap i32 (2 * (nr - 1) * cSteps); chunkSteps := cSteps; sliceSteps := sSteps;
    sliceSize := sSize; loopSize := nr * chunkSize; channelSize := chSize;
    sendbuff := sbuff + gridOffset; recvbuff := rbuff + gridOffset;
    sendMhandle := sMhandle; recvMhandle := rMhandle; srecvMhandle := srMhandle |};
  ar_ringIndex := ringIndex; ar_elemSize := elemSize; ar_chunkSize := chunkSize;
  ar_slicePerChunk := Z.quot cSteps sSteps |}.

(* src/src/include/collectives.h:127-168 RingARAlgorithm::getNextSendAddr *)
Definition arNextSendAddr (a : RingARAlgorithm) (step : Z) : proxyBuf :=
  let curStep := cwrap i32 step in
  let curLoop := Z.quot curStep (nStepsPerLoop a) in
  let curLoopStage := Z.quot (Z.rem curStep (nStepsPerLoop a)) (chunkSteps a) in
  let chunkStage := Z.rem curLoopStage (nRanks a) in
  let sliceStage := Z.quot (Z.rem curStep (chunkSteps a)) (sliceSteps a) in
  let elemOffset := curLoop * loopSize a in
  let remSize := channelSize a - elemOffset in
  let curChunkSize :=
    if remSize <? loopSize a
    then alignUp i64 (divUp i64 (Z.quot remSize (ar_elemSize a)) (nRanks a)) (Z.quot 16 (ar_elemSize a)) * ar_elemSize a
    else ar_chunkSize a in
  let chunkId := Z.rem (ar_ringIndex a + nRanks a - 1 - chunkStage) (nRanks a) in
  let chunkOffset := chunkId * curChunkSize in
  let nelem := Z.min (remSize - chunkOffset) curChunkSize in
  let curSliceSize :=
    Z.max (divUp i64 (Z.quot nelem (ar_elemSize a)) (16 * ar_slicePerChunk a) * 16)
      (Z.quot (Z.quot (sliceSize a) (ar_elemSize a)) 32) * ar_elemSize a in
  let sliceOffset := sliceStage * curSliceSize in
  let '(buff, mhandle) :=
    if nelem <=? sliceOffset then (sendbuff a, sendMhandle a)
    else if curLoopStage =? 0 then (sendbuff a + elemOffset + chunkOffset + sliceOffset, sendMhandle a)
    else (recvbuff a + elemOffset + chunkOffset + sliceOffset, srecvMhandle a) in
  {| pb_addr := buff; pb_size := clampSize (Z.min curSliceSize (nelem - sliceOffset)); pb_mhandle := mhandle |}.

(* src/src/include/collectives.h:170-212 RingARAlgorithm::getNextRecvAddr *)
Definition arNextRecvAddr (a : RingARAlgorithm) (step : Z) : proxyBuf :=
  let curStep := cwrap i32 step in
  let curLoop := Z.quot curStep (nStepsPerLoop a) in
  let curLoopStage := Z.quot (Z.rem (cwrap i32 (curStep + chunkSteps a)) (nStepsPerLoop a)) (chunkSteps a) in
  let chunkStage := Z.rem curLoopStage (nRanks a) in
  let sliceStage := Z.quot (Z.rem curStep (chunkSteps a)) (sliceSteps a) in
  let elemOffset := curLoop * loopSize a in
  let remSize := channelSize a - elemOffset in
  let curChunkSize :=
    if remSize <? loopSize a
    then alignUp i64 (divUp i64 (Z.quot remSize (ar_elemSize a)) (nRanks a)) (Z.quot 16 (ar_elemSize a)) * ar_elemSize a
    else ar_chunkSize a in
  let chunkId :=
    if curLoopStage =? 0 then Z.rem (ar_ringIndex a + 1) (nRanks a)
    else Z.rem (ar_ringIndex a + nRanks a - 1 - chunkStage) (nRanks a) in
  let chunkOffset := chunkId * curChunkSize in
  let nelem := Z.min (remSize - chunkOffset) curChunkSize in
  let curSliceSize :=
    Z.max (divUp i64 (Z.quot nelem (ar_elemSize a)) (16 * ar_slicePerChunk a) * 16)
      (Z.quot (Z.quot (sliceSize a) (ar_elemSize a)) 32) * ar_elemSize a in
  let sliceOffset := sliceStage * curSliceSize in
  {| pb_addr := if nelem <=? sliceOffset then recvbuff a else recvbuff a + elemOffset + chunkOffset + sliceOffset;
     pb_size := clampSize (Z.min curSliceSize (nelem - sliceOffset)); pb_mhandle := recvMhandle a |}.

(** [ringRanks] is the channel's [userRanks]: the rank [j] positions further on. *)
(* src/src/include/collectives.h:237-242 RingAGAlgorithm *)
Record RingAGAlgorithm := {
  ag_base :> RingAlgorithm;
  ag_ringRanks : Z -> Z;
  ag_elemSize : Z;
  ag_sendSize : Z;
  ag_slicePerChunk : Z }.

(* src/src/include/collectives.h:307-326 RingAGAlgorithm::RingAGAlgorithm *)
Definition newRingAG (sbuff rbuff nr : Z) (ringRanks : Z -> Z) (cSteps sSteps chunkSize sSize gridOffset chSize elemSize
    sendSize sMhandle rMhandle srMhandle : Z) : RingAGAlgorithm := {|
  ag_base := {|
    refCount := 0; nRanks := nr; nStepsPerLoop := cwrap i32 ((nr - 1) * cSteps); chunkSteps := cSteps; sliceSteps := sSteps;
    sliceSize := sSize; loopSize := chunkSize; channelSize := chSize;
    sendbuff := sbuff + gridOffset; recvbuff := rbuff + gridOffset;
    sendMhandle := sMhandle; recvMhandle := rMhandle; srecvMhandle := srMhandle |};
  ag_ringRanks := ringRanks; ag_elemSize := elemSize; ag_sendSize := sendSize;
  ag_slicePerChunk := Z.quot cSteps sSteps |}.

(* src/src/include/collectives.h:245-277 RingAGAlgorithm::getNextSendAddr *)
Definition agNextSendAddr (a : RingAGAlgorithm) (step : Z) : proxyBuf :=
  let curStep := cwrap i32 step in
  let curLoop := Z.quot curStep (nStepsPerLoop a) in
  let chunkStage := Z.quot (Z.rem curStep (nStepsPerLoop a)) (chunkSteps a) in
  let sliceStage := Z.quot (Z.rem curStep (chunkSteps a)) (sliceSteps a) in
  let elemOffset := curLoop * loopSize a in
  let chunkSize := Z.min (loopSize a) (channelSize a - elemOffset) in
  let curSliceSize :=
    Z.max (divUp i64 (Z.quot chunkSize (ag_elemSize a)) (16 * ag_slicePerChunk a) * 16)
      (Z.quot (Z.quot (sliceSize a) (ag_elemSize a)) 32) * ag_elemSize a in
  let sliceOffset := sliceStage * curSliceSize in
  let '(buff, mhandle) :=
    if chunkStage =? 0 then (sendbuff a + (elemOffset + sliceOffset), sendMhandle a)
    else (recvbuff a + (elemOffset + ag_ringRanks a (nRanks a - chunkStage) * ag_sendSize a + sliceOffset),
          srecvMhandle a) in
  {| pb_addr := buff; pb_size := clampSize (Z.min curSliceSize (channelSize a - elemOffset - sliceOffset));
     pb_mhandle := mhandle |}.

(* src/src/include/collectives.h:279-305 RingAGAlgorithm::getNextRecvAddr *)
Definition agNextRecvAddr (a : RingAGAlgorithm) (step : Z) : proxyBuf :=
  let curStep := cwrap i32 step in
  let curLoop := Z.quot curStep (nStepsPerLoop a) in
  let chunkStage := Z.quot (Z.rem (cwrap i32 (curStep + chunkSteps a)) (nStepsPerLoop a)) (chunkSteps a) in
  let sliceStage := Z.quot (Z.rem curStep (chunkSteps a)) (sliceSteps a) in
  let elemOffset := curLoop * loopSize a in
  let chunkSize := Z.min (loopSize a) (channelSize a - elemOffset) in
  let curSliceSize :=
    Z.max (divUp i64 (Z.quot chunkSize (ag_elemSize a)) (16 * ag_slicePerChunk a) * 16)
      (Z.quot (Z.quot (sliceSize a) (ag_elemSize a)) 32) * ag_elemSize a in
  let sliceOffset := sliceStage * curSliceSize in
  let rankDest := if chunkStage =? 0 then ag_ringRanks a 1 else ag_ringRanks a (nRanks a - chunkStage) in
  {| pb_addr := recvbuff a + (elemOffset + rankDest * ag_sendSize a + sliceOffset);
     pb_size := clampSize (Z.min (sliceSize a) (channelSize a - elemOffset - sliceOffset));
     pb_mhandle := recvMhandle a |}.

(* src/src/include/collectives.h:330-334 RingBCAlgorithm *)
Record RingBCAlgorithm := {
  bc_base :> RingAlgorithm;
  bc_root : Z;
  bc_rank : Z;
  bc_nextRank : Z }.

(** The constructor does not set [nRanks], which the queries do not read. *)
(* src/src/include/collectives.h:386-403 RingBCAlgorithm::RingBCAlgorithm *)
Definition newRingBC (sbuff rbuff rank root : Z) (ringRanks : Z -> Z) (cSteps sSteps chunkSize sSize gridOffset chSize
    sMhandle rMhandle srMhandle : Z) (uninit : Z) : RingBCAlgorithm := {|
  bc_base := {|
    refCount := 0; nRanks := uninit; nStepsPerLoop := cSteps; chunkSteps := cSteps; sliceSteps := sSteps;
    sliceSize := sSize; loopSize := chunkSize; channelSize := chSize;
    sendbuff := sbuff + gridOffset; recvbuff := rbuff + gridOffset;
    sendMhandle := sMhandle; recvMhandle := rMhandle; srecvMhandle := srMhandle |};
  bc_root := root; bc_rank := rank; bc_nextRank := ringRanks 1 |}.

(* src/src/include/collectives.h:337-363 RingBCAlgorithm::getNextSendAddr *)
Definition bcNextSendAddr (a : RingBCAlgorithm) (step : Z) : proxyBuf :=
  let curStep := cwrap i32 step in
  let curLoop := Z.quot curStep (nStepsPerLoop a) in
  let sliceStage := Z.quot (Z.rem curStep (chunkSteps a)) (sliceSteps a) in
  let sliceOffset := sliceStage * sliceSize a in
  let elemOffset := curLoop * loopSize a in
  let offset := elemOffset + sliceOffset in
  let '(buff, mhandle) :=
    if channelSize a <=? offset then (sendbuff a, sendMhandle a)
    else if bc_rank a =? bc_root a then (sendbuff a + offset, sendMhandle a)
    else (recvbuff a + offset, srecvMhandle a) in
  {| pb_addr := buff; pb_size := clampSize (Z.min (sliceSize a) (channelSize a - offset)); pb_mhandle := mhandle |}.

(* src/src/include/collectives.h:365-384 RingBCAlgorithm::getNextRecvAddr *)
Definition bcNextRecvAddr (a : RingBCAlgorithm) (step : Z) : proxyBuf :=
  let curStep := cwrap i32 step in
  let curLoop := Z.quot curStep (nStepsPerLoop a) in
  let sliceStage := Z.quot (Z.rem curStep (chunkSteps a)) (sliceSteps a) in
  let sliceOffset := sliceStage * sliceSize a in
  let elemOffset := curLoop * loopSize a in
  let offset := elemOffset + sliceOffset in
  {| pb_addr := if channelSize a <=? offset then recvbuff a else recvbuff a + offset;
     pb_size := clampSize (Z.min (sliceSize a) (channelSize a - offset)); pb_mhandle := recvMhandle a |}.

(** ** Steps *)

(** The stages of a step: [S] steps per slice, [M] slices per call and [D] calls
    per loop. *)
Lemma step_stages S M D l o s :
  0 < S -> 0 <= l -> 0 <= o < D -> 0 <= s < M ->
  let step := S * (l * (D * M) + o * M + s) in
  Z.quot step (D * (M * S)) = l /\ Z.quot (Z.rem step (D * (M * S))) (M * S) = o /\
  Z.quot (Z.rem step (M * S)) S = s /\
  Z.quot (Z.rem (step + M * S) (D * (M * S))) (M * S) = (o + 1) mod D.
Proof.
  intros HS Hl Ho Hs step.
  assert (0 <= o * M + s < D * M) as Hb by nia.
  assert (0 < M * S /\ 0 < D * (M * S)) as [HC HW] by nia.
  assert (0 <= step) as Hstep by (unfold step; nia).
  assert (Z.rem step (D * (M * S)) = S * (o * M + s)) as E1.
  { rewrite Z.rem_mod_nonneg by lia. symmetry. apply (Z.mod_unique_pos _ _ l); unfold step; nia. }
  split_and!.
  - rewrite Z.quot_div_nonneg by lia. symmetry. apply (Z.div_unique_pos _ _ _ (S * (o * M + s))); unfold step; nia.
  - rewrite E1, Z.quot_div_nonneg by nia. symmetry. apply (Z.div_unique_pos _ _ _ (S * s)); nia.
  - assert (Z.rem step (M * S) = S * s) as ->.
    { rewrite Z.rem_mod_nonneg by lia. symmetry. apply (Z.mod_unique_pos _ _ (l * D + o)); unfold step; nia. }
    rewrite Z.mul_comm. apply Z.quot_mul. lia.
  - rewrite Z.rem_mod_nonneg by lia. destruct (Z.eq_dec (o + 1) D) as [E|E].
    + assert ((step + M * S) mod (D * (M * S)) = S * s) as ->
        by (symmetry; apply (Z.mod_unique_pos _ _ (l + 1)); unfold step; nia).
      rewrite E, Z.mod_same by lia. apply Z.quot_small. nia.
    + assert ((step + M * S) mod (D * (M * S)) = S * ((o + 1) * M + s)) as ->
        by (symmetry; apply (Z.mod_unique_pos _ _ l); unfold step; nia).
      rewrite Z.mod_small by lia. rewrite Z.quot_div_nonneg by nia.
      symmetry. apply (Z.div_unique_pos _ _ _ (S * s)); nia.
Qed.

(** The queries' [int] arithmetic is exact as long as the steps of the run, and
    those of one more call, are within its range. *)
Lemma steps_int S M D L l o s :
  0 < S -> 0 <= l < L -> 0 <= o < D -> 0 <= s < M -> S * (L * (D * M) + M) < 2 ^ 31 ->
  let step := S * (l * (D * M) + o * M + s) in
  cwrap i32 step = step /\ cwrap i32 (step + M * S) = step + M * S /\ cwrap i32 (D * (M * S)) = D * (M * S).
Proof.
  intros HS Hl Ho Hs Hmax step.
  assert (0 <= l * (D * M) + o * M + s < L * (D * M)) as Hb.
  { assert (0 <= o * M + s < D * M) by nia. assert ((l + 1) * (D * M) <= L * (D * M)) by nia. nia. }
  assert (0 <= step < S * (L * (D * M))) as Hstep by (unfold step; nia).
  assert (0 <= D * M <= L * (D * M)) by nia. assert (0 <= D * (M * S) <= S * (L * (D * M))) by nia.
  assert (S * (L * (D * M)) + M * S < 2 ^ 31 /\ 0 <= M * S) as [Hm ?] by nia. clearbody step.
  split_and!; (apply cwrap_fits; [done|]); unfold fits, cmin, cmax, i32; cbn [csigned cwidth]; lia.
Qed.

(** The steps of a connection: every slice before took [SPS] of them. *)
Section steps.
Context (n SPC L D : nat) (op : nat -> nat -> nat -> nat -> sliceOp) (P : nat -> list sliceOp).
Context (HP : forall i, P i = blockProg n SPC L D op i) (HSPC : (0 < SPC)%nat) (HD : (2 <= D)%nat).
Context (Hpeers : forall i l o s, (i < n)%nat -> inBlocks SPC L D l o s ->
  recvFrom (op i l o s) = (if negb (o =? 0)%nat then [prevPos n i] else []) /\
  sendTo (op i l o s) = (if negb (o =? D - 1)%nat then [nextPos n i] else [])).

Lemma blockProg_length i : (i < n)%nat -> length (P i) = (L * (D * SPC))%nat.
Proof. intros Hi. rewrite HP. unfold blockProg. by rewrite (proj2 (Nat.ltb_lt _ _) Hi), blocks_length. Qed.

Lemma block_sends_at i k :
  (i < n)%nat -> (k <= L * (D * SPC))%nat ->
  sends P i (nextPos n i) k = blockCount (D * SPC) (D * SPC - SPC) k.
Proof.
  intros Hi Hk. unfold sends. apply (cnt_block _ _ (D * SPC) (D * SPC - SPC) (L * (D * SPC))); [nia|lia|by apply blockProg_length| |done].
  intros k' x Hx. apply (blockProg_inv n SPC L D op P HP) in Hx as (_ & l' & c & s' & Hin' & -> & ->); [|lia|done].
  destruct (Hpeers i l' c s' Hi Hin') as [_ ->]. destruct Hin' as (_ & Hc' & Hs'). unfold blockIx.
  destruct (block_pos SPC l' c s' D Hc' Hs') as (_ & -> & _). destruct (negb _); [|done].
  by apply isIn_spec, list_elem_of_singleton.
Qed.

Lemma block_recvs_at i k :
  (i < n)%nat -> (k <= L * (D * SPC))%nat ->
  recvs P i (prevPos n i) k = (k / (D * SPC) * (D * SPC - SPC) + (k mod (D * SPC) - SPC))%nat.
Proof.
  intros Hi Hk. unfold recvs. apply (cnt_block_from _ _ (D * SPC) SPC (L * (D * SPC))); [nia|nia|by apply blockProg_length| |done].
  intros k' x Hx. apply (blockProg_inv n SPC L D op P HP) in Hx as (_ & l' & c & s' & Hin' & -> & ->); [|lia|done].
  destruct (Hpeers i l' c s' Hi Hin') as [-> _]. destruct Hin' as (_ & Hc' & Hs'). unfold blockIx.
  destruct (block_pos SPC l' c s' D Hc' Hs') as (-> & _). destruct (negb _); [|done].
  by apply isIn_spec, list_elem_of_singleton.
Qed.

Lemma block_width : (D * SPC - SPC)%nat = ((D - 1) * SPC)%nat.
Proof. rewrite Nat.mul_sub_distr_r. lia. Qed.

Lemma block_sends i l o s :
  (i < n)%nat -> inBlocks SPC L D l o s -> (o < D - 1)%nat ->
  Z.of_nat (sends P i (nextPos n i) (blockIx SPC D l o s)) =
  Z.of_nat l * ((Z.of_nat D - 1) * Z.of_nat SPC) + Z.of_nat o * Z.of_nat SPC + Z.of_nat s.
Proof.
  intros Hi (Hl & Ho' & Hs) Ho. pose proof (block_bound L D SPC l o s Hl Ho' Hs). unfold blockIx.
  rewrite block_sends_at by lia. unfold blockCount.
  destruct (block_index_unique D SPC l o s Ho' Hs) as (-> & -> & _).
  assert ((o + 1) * SPC <= (D - 1) * SPC)%nat by (apply Nat.mul_le_mono_r; lia). rewrite block_width, Nat.min_l by lia.
  rewrite !Nat2Z.inj_add, !Nat2Z.inj_mul, Nat2Z.inj_sub by lia. ring.
Qed.

Lemma block_recvs i l o s :
  (i < n)%nat -> inBlocks SPC L D l o s -> (1 <= o)%nat ->
  Z.of_nat (recvs P i (prevPos n i) (blockIx SPC D l o s)) =
  Z.of_nat l * ((Z.of_nat D - 1) * Z.of_nat SPC) + (Z.of_nat o - 1) * Z.of_nat SPC + Z.of_nat s.
Proof.
  intros Hi (Hl & Ho' & Hs) Ho. pose proof (block_bound L D SPC l o s Hl Ho' Hs). unfold blockIx.
  rewrite block_recvs_at by lia.
  destruct (block_index_unique D SPC l o s Ho' Hs) as (-> & -> & _). rewrite block_width.
  replace (o * SPC + s - SPC)%nat with ((o - 1) * SPC + s)%nat by nia.
  rewrite !Nat2Z.inj_add, !Nat2Z.inj_mul, !Nat2Z.inj_sub by lia. ring.
Qed.

(** All steps of a connection. *)
Lemma block_steps i :
  (i < n)%nat ->
  sends P i (nextPos n i) (length (P i)) = (L * ((D - 1) * SPC))%nat /\
  recvs P i (prevPos n i) (length (P i)) = (L * ((D - 1) * SPC))%nat.
Proof.
  intros Hi. rewrite (blockProg_length i Hi), block_sends_at, block_recvs_at, block_width by lia.
  assert (D * SPC <> 0)%nat by (apply Nat.neq_mul_0; lia).
  unfold blockCount. rewrite Nat.div_mul, Nat.Div0.mod_mul by done. simpl. lia.
Qed.
End steps.

(** ** Slices in bytes *)

(** The slice size both queries compute, in bytes, from [nelem] elements. *)
Lemma curSlice_bytes p E nelem :
  0 < E -> callOk p (Z.max 0 nelem) ->
  exists c, 0 <= c /\ (0 <= nelem -> c = fullSlice p nelem) /\
  Z.max (divUp i64 (Z.quot (nelem * E) E) (16 * Z.of_nat (SlicePerChunk p)) * 16)
    (Z.quot (Z.quot (stepSize p * StepPerSlice p * E) E) 32) * E = c * E.
Proof.
  intros HE (Hn & HS & Hs & Hm). rewrite !Z.quot_mul by lia. rewrite (Z.quot_div_nonneg _ 32) by lia.
  eexists. split_and!; [| |done].
  - pose proof (Z.div_pos (stepSize p * StepPerSlice p) 32 Hs ltac:(lia)). lia.
  - intros H0. rewrite divUp_eq; [done|done|lia|lia|]. fits_lia.
Qed.

(** A slice cut from a call of [nelem] elements, which may be negative. *)
Lemma slice_bytes p E nelem c (s : nat) :
  0 < E -> 0 <= stepSize p * StepPerSlice p -> 0 <= c -> (0 <= nelem -> c = fullSlice p nelem) ->
  clampSize (Z.min (c * E) (nelem * E - Z.of_nat s * (c * E))) =
    E * Z.of_nat (Z.to_nat (sliceSz p (Z.max 0 nelem) s)) /\
  ((0 < Z.to_nat (sliceSz p (Z.max 0 nelem) s))%nat ->
   (nelem * E <=? Z.of_nat s * (c * E)) = false /\ Z.of_nat s * (c * E) = E * sliceOff p (Z.max 0 nelem) s).
Proof.
  intros HE Hst Hc Hf. unfold clampSize, sliceSz, sliceOff. destruct (Z.le_gt_cases 0 nelem) as [H|H].
  - specialize (Hf H). rewrite Z.max_r by done. rewrite <- Hf.
    destruct (Z.le_gt_cases (Z.of_nat s * c) nelem) as [Hle|Hgt].
    + rewrite (Z.min_l (Z.of_nat s * c)) by done.
      replace (nelem * E - Z.of_nat s * (c * E)) with ((nelem - Z.of_nat s * c) * E) by ring.
      rewrite Z.mul_min_distr_nonneg_r by lia. set (m := Z.min c (nelem - Z.of_nat s * c)).
      assert (0 <= m <= nelem - Z.of_nat s * c) by lia. rewrite (proj2 (Z.ltb_ge _ _)) by nia.
      split; [rewrite Z2Nat.id by lia; ring|]. intros Hp. assert (0 < nelem - Z.of_nat s * c) by lia.
      rewrite (proj2 (Z.leb_gt _ _)) by nia. split; [done|ring].
    + rewrite (Z.min_r (Z.of_nat s * c)) by lia. rewrite Z.sub_diag, (Z.min_r c 0) by lia. split; [|lia].
      rewrite Z.min_r by nia. rewrite (proj2 (Z.ltb_lt _ _)) by nia. lia.
  - rewrite Z.max_l by lia.
    assert (0 <= fullSlice p 0) by (unfold fullSlice; pose proof (Z.div_pos _ 32 Hst ltac:(lia)); lia).
    rewrite (Z.min_r (Z.of_nat s * _)), Z.sub_diag, (Z.min_r _ 0) by nia. rewrite (proj2 (Z.ltb_lt _ _)) by nia. lia.
Qed.

(** ** Agreement with the kernels *)

Section agreement.
Context {T : Type} (r : ringRun T) (Hok : ringRunOk r) (rankAt : nat -> Z) (total : Z).
Context (sMhandle rMhandle srMhandle : Z).
Local Abbreviation n := (rr_n r).
Local Abbreviation E := (rr_elt r).
Local Abbreviation SPC := (rr_SPC r).
Local Abbreviation SPS := (rr_SPS r).
Local Abbreviation count := (rr_count r).
Local Abbreviation chunk := (rr_chunk r).
Local Abbreviation grid := (rr_grid r).

(** Where a slice's data lies in the output buffer; a slice that is only
    reduced and passed on has its place there as well. *)
Definition recvAt (i : nat) (o : sliceOp) : Z :=
  match dstAt o, srcAt o with
  | Some d, _ => d
  | None, Some (_, a) => a - rr_in r i + rr_out r i
  | None, None => 0
  end.

(** Where a slice is sent from: the input buffer, when it starts there. *)
Definition sendAt (i : nat) (o : sliceOp) : Z :=
  match recvFrom o, srcAt o with
  | [], Some (_, a) => a
  | _, _ => recvAt i o
  end.

(** The proxy's answer describes the bytes of the slice. *)
Definition describes (b : proxyBuf) (o : sliceOp) (a mhandle : Z) : Prop :=
  pb_size b = E * Z.of_nat (sliceLen o) /\
  ((0 < sliceLen o)%nat -> pb_addr b = E * a /\ pb_mhandle b = mhandle).

Definition sendMh (o : sliceOp) : Z := match recvFrom o with [] => sMhandle | _ => srMhandle end.

(** The objects of the rank at position [i], as the scheduler makes them: sizes
    and offsets in bytes. *)
(* src/src/enqueue/enqueue.cc:891-897 scheduleCollTasksToPlan *)
Definition proxyAR (i : nat) : RingARAlgorithm :=
  newRingAR (rr_in r i * E) (rr_out r i * E) (Z.of_nat n) (Z.of_nat i) (Z.of_nat SPC * SPS) SPS (chunk * E)
    (rr_step r * SPS * E) (grid * E) (count * E) E sMhandle rMhandle srMhandle.

(* src/src/enqueue/enqueue.cc:885-890 scheduleCollTasksToPlan *)
Definition proxyAG (i : nat) : RingAGAlgorithm :=
  newRingAG (rr_in r i * E) (rr_out r i * E) (Z.of_nat n) (fun j => userRanks (ringEnvOf r rankAt total i) (Z.to_nat j))
    (Z.of_nat SPC * SPS) SPS (chunk * E) (rr_step r * SPS * E) (grid * E) (count * E) E (total * E)
    sMhandle rMhandle srMhandle.

(* src/src/enqueue/enqueue.cc:898-904 scheduleCollTasksToPlan *)
Definition proxyBC (t i : nat) (uninit : Z) : RingBCAlgorithm :=
  newRingBC (rr_in r i * E) (rr_out r i * E) (rankAt i) (rankAt t)
    (fun j => userRanks (ringEnvOf r rankAt total i) (Z.to_nat j))
    (Z.of_nat SPC * SPS) SPS (chunk * E) (rr_step r * SPS * E) (grid * E) (count * E)
    sMhandle rMhandle srMhandle uninit.

Lemma elt_pos : 0 < E.
Proof. destruct Hok as (_ & _ & _ & _ & _ & He & _). destruct He as [<-|[<-|[<-|[<-|[]]]]]; lia. Qed.

Lemma spc_quot : Z.quot (Z.of_nat SPC * SPS) SPS = Z.of_nat SPC.
Proof. destruct Hok as (_ & _ & HS & _). apply Z.quot_mul. lia. Qed.

(** The steps of the connection to the next rank, and those of one more chunk,
    number less than [2 ^ 31]. *)
Definition stepsFit (P : nat -> list sliceOp) (i : nat) : Prop :=
  SPS * (Z.of_nat (sends P i (nextPos n i) (length (P i))) + Z.of_nat SPC) < 2 ^ 31.

Lemma stepsFit_blocks L D op P i :
  (forall i, P i = blockProg n SPC L D op i) -> (2 <= D)%nat -> (i < n)%nat ->
  (forall i l o s, (i < n)%nat -> inBlocks SPC L D l o s ->
     recvFrom (op i l o s) = (if negb (o =? 0)%nat then [prevPos n i] else []) /\
     sendTo (op i l o s) = (if negb (o =? D - 1)%nat then [nextPos n i] else [])) ->
  stepsFit P i -> SPS * (Z.of_nat L * ((Z.of_nat D - 1) * Z.of_nat SPC) + Z.of_nat SPC) < 2 ^ 31.
Proof.
  intros HP HD Hi Hpeers H. unfold stepsFit in H. pose proof Hok as (_ & HSPC & _).
  destruct (block_steps n SPC L D op P HP HSPC HD Hpeers i Hi) as [E _]. rewrite E in H.
  rewrite !Nat2Z.inj_mul, Nat2Z.inj_sub in H by lia. done.
Qed.

(** *** AllReduce *)

Lemma chunkId_code i (o : nat) :
  (i < n)%nat -> (o < 2 * n)%nat ->
  Z.rem (Z.of_nat i + Z.of_nat n - 1 - Z.rem (Z.of_nat o) (Z.of_nat n)) (Z.of_nat n) = Z.of_nat (chunkAt n i o).
Proof.
  intros Hi Ho. rewrite (Z.rem_mod_nonneg (Z.of_nat o)) by lia.
  pose proof (Z.mod_pos_bound (Z.of_nat o) (Z.of_nat n) ltac:(lia)).
  rewrite Z.rem_mod_nonneg by lia. unfold chunkAt. rewrite Nat2Z.inj_mod.
  pose proof (Z.div_mod (Z.of_nat o) (Z.of_nat n) ltac:(lia)) as Ed.
  assert (0 <= Z.of_nat o / Z.of_nat n <= 1) as Hq by (split; [apply Z.div_pos|apply Z.lt_succ_r, Z.div_lt_upper_bound]; lia).
  rewrite <- (Z.mod_add (Z.of_nat i + _ - 1 - _) (1 - Z.of_nat o / Z.of_nat n)) by lia. f_equal. nia.
Qed.

(** The chunk received last in a loop is found with the stage wrapped to 0. *)
Lemma recvChunk_code i (o : nat) :
  (2 <= n)%nat -> (i < n)%nat -> (1 <= o < 2 * n - 1)%nat ->
  let stage := Z.of_nat o mod (Z.of_nat (2 * n - 1) - 1) in
  (if stage =? 0 then Z.rem (Z.of_nat i + 1) (Z.of_nat n)
   else Z.rem (Z.of_nat i + Z.of_nat n - 1 - Z.rem stage (Z.of_nat n)) (Z.of_nat n)) = Z.of_nat (chunkAt n i o).
Proof.
  intros Hn Hi Ho stage. destruct (Nat.eq_dec o (2 * n - 2)) as [Eo|Eo].
  - assert (stage = 0) as -> by (unfold stage; replace (Z.of_nat (2 * n - 1) - 1) with (Z.of_nat o) by lia; by rewrite Z.mod_same by lia).
    simpl. rewrite Z.rem_mod_nonneg by lia. unfold chunkAt. rewrite Nat2Z.inj_mod. f_equal. lia.
  - assert (stage = Z.of_nat o) as -> by (unfold stage; apply Z.mod_small; lia).
    rewrite (proj2 (Z.eqb_neq _ _)) by lia. apply chunkId_code; lia.
Qed.

Lemma chunkBytes_code l :
  (l < loopFuel count (Z.of_nat n * chunk))%nat ->
  let rem := count * E - Z.of_nat l * (Z.of_nat n * (chunk * E)) in
  rem = (count - Z.of_nat l * (Z.of_nat n * chunk)) * E /\
  (if rem <? Z.of_nat n * (chunk * E)
   then alignUp i64 (divUp i64 (Z.quot rem E) (Z.of_nat n)) (Z.quot 16 E) * E else chunk * E) = loopChunk r l * E.
Proof.
  intros Hl rem. pose proof elt_pos as HE.
  assert (rem = (count - Z.of_nat l * (Z.of_nat n * chunk)) * E) as Er by (unfold rem; ring).
  split; [done|]. rewrite <- (loopChunk_code r Hok l Hl), Er, Z.quot_mul by lia.
  rewrite (Z.quot_div_nonneg 16) by lia.
  replace (Z.of_nat n * (chunk * E)) with (Z.of_nat n * chunk * E) by ring.
  destruct (Z.ltb_spec ((count - Z.of_nat l * (Z.of_nat n * chunk)) * E) (Z.of_nat n * chunk * E)) as [H|H];
    [rewrite (proj2 (Z.ltb_lt _ _)) by nia|rewrite (proj2 (Z.ltb_ge _ _)) by nia]; done.
Qed.

(** The program and the peers of its slices. *)
Lemma ar_peers i l o s :
  (i < n)%nat -> inBlocks SPC (loopFuel count (Z.of_nat n * chunk)) (2 * n - 1) l o s ->
  recvFrom (arSlice r i l o s) = (if negb (o =? 0)%nat then [prevPos n i] else []) /\
  sendTo (arSlice r i l o s) = (if negb (o =? 2 * n - 1 - 1)%nat then [nextPos n i] else []).
Proof. intros _ _. replace (2 * n - 1 - 1)%nat with (2 * n - 2)%nat by lia. done. Qed.

(** One call of [nelem] elements, described in bytes. *)
Lemma call_bytes i nelem (s : nat) :
  callOk (ringPrims r i) (Z.max 0 nelem) ->
  let cs := Z.max (divUp i64 (Z.quot (nelem * E) E) (16 * Z.quot (Z.of_nat SPC * SPS) SPS) * 16)
    (Z.quot (Z.quot (rr_step r * SPS * E) E) 32) * E in
  clampSize (Z.min cs (nelem * E - Z.of_nat s * cs)) =
    E * Z.of_nat (Z.to_nat (sliceSz (ringPrims r i) (Z.max 0 nelem) s)) /\
  ((0 < Z.to_nat (sliceSz (ringPrims r i) (Z.max 0 nelem) s))%nat ->
   (nelem * E <=? Z.of_nat s * cs) = false /\ Z.of_nat s * cs = E * sliceOff (ringPrims r i) (Z.max 0 nelem) s).
Proof.
  intros Hc cs. destruct (curSlice_bytes (ringPrims r i) E nelem elt_pos Hc) as (c & Hc0 & Hcf & Ec).
  unfold cs. rewrite spc_quot. change (Z.of_nat SPC) with (Z.of_nat (SlicePerChunk (ringPrims r i))).
  change (rr_step r * SPS) with (stepSize (ringPrims r i) * StepPerSlice (ringPrims r i)). rewrite Ec.
  apply slice_bytes; [apply elt_pos|apply Hc|done|done].
Qed.

(** The elements of a call, in bytes. *)
Lemma nelem_bytes l c :
  Z.min (count * E - Z.of_nat l * (Z.of_nat n * (chunk * E)) - Z.of_nat c * (loopChunk r l * E)) (loopChunk r l * E) =
  Z.min (loopChunk r l) (count - Z.of_nat l * (Z.of_nat n * chunk) - Z.of_nat c * loopChunk r l) * E.
Proof.
  pose proof elt_pos. rewrite <- Z.mul_min_distr_nonneg_r by lia. rewrite Z.min_comm. f_equal. ring.
Qed.

Lemma ar_send i l o s :
  SPS * (Z.of_nat (loopFuel count (Z.of_nat n * chunk)) * ((Z.of_nat (2 * n - 1) - 1) * Z.of_nat SPC) + Z.of_nat SPC) < 2 ^ 31 ->
  (i < n)%nat -> inBlocks SPC (loopFuel count (Z.of_nat n * chunk)) (2 * n - 1) l o s -> (o < 2 * n - 2)%nat ->
  describes (arNextSendAddr (proxyAR i)
    (SPS * (Z.of_nat l * ((Z.of_nat (2 * n - 1) - 1) * Z.of_nat SPC) + Z.of_nat o * Z.of_nat SPC + Z.of_nat s)))
    (arSlice r i l o s) (sendAt i (arSlice r i l o s)) (sendMh (arSlice r i l o s)).
Proof.
  intros Hint Hi (Hl & Ho & Hs) Ho'. pose proof Hok as (Hn & HSPC & HSPS & _). pose proof elt_pos as HE.
  destruct (chunkBytes_code l Hl) as [_ Ech]. cbn zeta in Ech.
  destruct (step_stages SPS (Z.of_nat SPC) (Z.of_nat (2 * n - 1) - 1) (Z.of_nat l) (Z.of_nat o) (Z.of_nat s))
    as (E1 & E2 & E3 & _); try lia.
  destruct (steps_int SPS (Z.of_nat SPC) (Z.of_nat (2 * n - 1) - 1) _ (Z.of_nat l) (Z.of_nat o) (Z.of_nat s)
    ltac:(lia) ltac:(split; [lia|apply inj_lt, Hl]) ltac:(lia) ltac:(lia) Hint) as (I1 & I2 & I3). cbn zeta in *.
  replace ((Z.of_nat (2 * n - 1) - 1) * (Z.of_nat SPC * SPS)) with (2 * (Z.of_nat n - 1) * (Z.of_nat SPC * SPS)) in E1, E2, I3 by lia.
  destruct (chunkLen_code r Hok l (chunkAt n i o) Hl ltac:(apply chunkAt_lt; lia)) as [_ Hcl].
  pose proof (call_bytes i _ s Hcl) as [B1 B2]. cbn zeta in B1, B2.
  fold (chunkLen r l (chunkAt n i o)) in B1, B2.
  unfold describes, arNextSendAddr, proxyAR, newRingAR.
  cbn [ar_base nStepsPerLoop chunkSteps sliceSteps nRanks sliceSize loopSize channelSize sendbuff recvbuff sendMhandle
    srecvMhandle ar_ringIndex ar_elemSize ar_chunkSize ar_slicePerChunk].
  rewrite I1, ?I2, I3, E1, E2, E3, Ech, chunkId_code, nelem_bytes by lia.
  destruct (_ <=? _) eqn:Ele; [|destruct (Z.eqb_spec (Z.of_nat o) 0) as [Eo|Eo]]; cbn [pb_size pb_addr pb_mhandle];
    (split; [exact B1|]; intros Hp; destruct (B2 Hp) as [B3 B4]).
  - done.
  - assert (o = 0%nat) as -> by lia. split; [|done]. rewrite B4. unfold sendAt, arSlice, callSlice. simpl. ring.
  - split.
    + rewrite B4. unfold sendAt, recvAt, arSlice, callSlice. cbn [recvFrom srcAt dstAt].
      rewrite (proj2 (Nat.eqb_neq o 0)) by lia. simpl. destruct (Nat.leb_spec (n - 1) o), (Nat.leb_spec o (n - 1)); try lia; simpl; ring.
    + unfold sendMh. unfold arSlice, callSlice. cbn [recvFrom]. by rewrite (proj2 (Nat.eqb_neq o 0)) by lia.
Qed.

Lemma ar_recv i l o s :
  SPS * (Z.of_nat (loopFuel count (Z.of_nat n * chunk)) * ((Z.of_nat (2 * n - 1) - 1) * Z.of_nat SPC) + Z.of_nat SPC) < 2 ^ 31 ->
  (i < n)%nat -> inBlocks SPC (loopFuel count (Z.of_nat n * chunk)) (2 * n - 1) l o s -> (1 <= o)%nat ->
  describes (arNextRecvAddr (proxyAR i)
    (SPS * (Z.of_nat l * ((Z.of_nat (2 * n - 1) - 1) * Z.of_nat SPC) + (Z.of_nat o - 1) * Z.of_nat SPC + Z.of_nat s)))
    (arSlice r i l o s) (recvAt i (arSlice r i l o s)) rMhandle.
Proof.
  intros Hint Hi (Hl & Ho & Hs) Ho'. pose proof Hok as (Hn & HSPC & HSPS & _). pose proof elt_pos as HE.
  destruct (chunkBytes_code l Hl) as [_ Ech]. cbn zeta in Ech.
  destruct (step_stages SPS (Z.of_nat SPC) (Z.of_nat (2 * n - 1) - 1) (Z.of_nat l) (Z.of_nat o - 1) (Z.of_nat s))
    as (E1 & _ & E3 & E2); try lia.
  destruct (steps_int SPS (Z.of_nat SPC) (Z.of_nat (2 * n - 1) - 1) _ (Z.of_nat l) (Z.of_nat o - 1) (Z.of_nat s)
    ltac:(lia) ltac:(split; [lia|apply inj_lt, Hl]) ltac:(lia) ltac:(lia) Hint) as (I1 & I2 & I3). cbn zeta in *. replace (Z.of_nat o - 1 + 1) with (Z.of_nat o) in E2 by lia.
  replace ((Z.of_nat (2 * n - 1) - 1) * (Z.of_nat SPC * SPS)) with (2 * (Z.of_nat n - 1) * (Z.of_nat SPC * SPS)) in E1, E2, I3 by lia.
  destruct (chunkLen_code r Hok l (chunkAt n i o) Hl ltac:(apply chunkAt_lt; lia)) as [_ Hcl].
  pose proof (call_bytes i _ s Hcl) as [B1 B2]. cbn zeta in B1, B2.
  fold (chunkLen r l (chunkAt n i o)) in B1, B2.
  unfold describes, arNextRecvAddr, proxyAR, newRingAR.
  cbn [ar_base nStepsPerLoop chunkSteps sliceSteps nRanks sliceSize loopSize channelSize sendbuff recvbuff recvMhandle
    ar_ringIndex ar_elemSize ar_chunkSize ar_slicePerChunk].
  rewrite I1, ?I2, I3, E1, E2, E3, Ech, recvChunk_code, nelem_bytes by lia. cbn [pb_size pb_addr pb_mhandle].
  split; [exact B1|]. intros Hp. destruct (B2 Hp) as [B3 B4]. split; [|done]. rewrite B3, B4.
  unfold recvAt, arSlice, callSlice. cbn [srcAt dstAt].
  destruct (Nat.leb_spec (n - 1) o), (Nat.leb_spec o (n - 1)); try lia; simpl; ring.
Qed.

(** *** AllGather *)

Lemma ag_peers i l o s :
  (i < n)%nat -> inBlocks SPC (loopFuel count chunk) n l o s ->
  recvFrom (agSlice r rankAt total i l o s) = (if negb (o =? 0)%nat then [prevPos n i] else []) /\
  sendTo (agSlice r rankAt total i l o s) = (if negb (o =? n - 1)%nat then [nextPos n i] else []).
Proof. done. Qed.

Lemma loopLen_bytes l :
  Z.min (chunk * E) (count * E - Z.of_nat l * (chunk * E)) = loopLen count chunk l * E.
Proof.
  pose proof elt_pos. unfold loopLen. rewrite <- Z.mul_min_distr_nonneg_r by lia. f_equal. ring.
Qed.

(** The proxy does not cut a send at the end of its chunk: the slices of a full
    chunk must fill it. *)
Definition evenChunk : Prop := chunk = Z.of_nat SPC * fullSlice (ringPrims r 0) chunk.

Lemma ag_cut cs l (s : nat) :
  evenChunk -> (l < loopFuel count chunk)%nat -> (s < SPC)%nat ->
  cs = fullSlice (ringPrims r 0) (loopLen count chunk l) * E ->
  Z.min cs (count * E - Z.of_nat l * (chunk * E) - Z.of_nat s * cs) =
  Z.min cs (loopLen count chunk l * E - Z.of_nat s * cs).
Proof.
  intros He Hl Hs ->. pose proof elt_pos. unfold loopLen in *.
  destruct (Z.le_gt_cases (count - Z.of_nat l * chunk) chunk) as [H1|H1].
  - rewrite (Z.min_r chunk) by done. f_equal. ring.
  - rewrite (Z.min_l chunk) by lia. unfold evenChunk in He. set (f := fullSlice _ _) in *.
    assert (0 <= f) by (destruct Hok as (_ & ? & _ & _ & _ & _ & _ & ? & _); nia).
    assert ((Z.of_nat s + 1) * f <= chunk) by (rewrite He; apply Z.mul_le_mono_nonneg_r; lia).
    assert ((f + Z.of_nat s * f) * E <= chunk * E) by (apply Z.mul_le_mono_nonneg_r; lia).
    assert (chunk * E <= (count - Z.of_nat l * chunk) * E) by (apply Z.mul_le_mono_nonneg_r; lia).
    rewrite !Z.min_l by lia. done.
Qed.

Lemma ag_send i l o s :
  SPS * (Z.of_nat (loopFuel count chunk) * ((Z.of_nat n - 1) * Z.of_nat SPC) + Z.of_nat SPC) < 2 ^ 31 ->
  evenChunk -> (i < n)%nat -> inBlocks SPC (loopFuel count chunk) n l o s -> (o < n - 1)%nat ->
  describes (agNextSendAddr (proxyAG i)
    (SPS * (Z.of_nat l * ((Z.of_nat n - 1) * Z.of_nat SPC) + Z.of_nat o * Z.of_nat SPC + Z.of_nat s)))
    (agSlice r rankAt total i l o s) (sendAt i (agSlice r rankAt total i l o s)) (sendMh (agSlice r rankAt total i l o s)).
Proof.
  intros Hint He Hi (Hl & Ho & Hs) Ho'. pose proof Hok as (Hn & HSPC & HSPS & _). pose proof elt_pos as HE.
  destruct (step_stages SPS (Z.of_nat SPC) (Z.of_nat n - 1) (Z.of_nat l) (Z.of_nat o) (Z.of_nat s))
    as (E1 & E2 & E3 & _); try lia.
  destruct (steps_int SPS (Z.of_nat SPC) (Z.of_nat n - 1) _ (Z.of_nat l) (Z.of_nat o) (Z.of_nat s)
    ltac:(lia) ltac:(split; [lia|apply inj_lt, Hl]) ltac:(lia) ltac:(lia) Hint) as (I1 & I2 & I3). cbn zeta in *.
  destruct (len_ok r Hok l Hl) as (Hlen & Hcl & _ & _ & Emax).
  pose proof (call_bytes i (loopLen count chunk l) s ltac:(rewrite Emax; exact Hcl)) as [B1 B2]. cbn zeta in B1, B2.
  rewrite Emax in B1, B2.
  destruct (curSlice_bytes (ringPrims r i) E (loopLen count chunk l) elt_pos ltac:(rewrite Emax; exact Hcl)) as (c & _ & Hcf & Ec).
  unfold describes, agNextSendAddr, proxyAG, newRingAG.
  cbn [ag_base nStepsPerLoop chunkSteps sliceSteps nRanks sliceSize loopSize channelSize sendbuff recvbuff sendMhandle
    srecvMhandle ag_ringRanks ag_elemSize ag_sendSize ag_slicePerChunk].
  rewrite I1, ?I2, I3, E1, E2, E3, loopLen_bytes. rewrite (ag_cut _ l s He Hl Hs).
  2: { rewrite spc_quot. etransitivity; [exact Ec|]. by rewrite Hcf by lia. }
  destruct (Z.eqb_spec (Z.of_nat o) 0) as [Eo|Eo]; cbn [pb_size pb_addr pb_mhandle];
    (split; [exact B1|]; intros Hp; destruct (B2 Hp) as [_ B4]; rewrite B4).
  - assert (o = 0%nat) as -> by lia. split; [|done]. unfold sendAt, agSlice, callSlice. simpl. ring.
  - unfold sendAt, recvAt, sendMh, agSlice, callSlice. cbn [recvFrom srcAt dstAt].
    rewrite (proj2 (Nat.eqb_neq o 0)) by lia. simpl. split; [|done].
    replace (i + Z.to_nat (Z.of_nat n - Z.of_nat o))%nat with (i + n - o)%nat by lia. unfold srcPos. ring.
Qed.

(** The proxy offers what is left of the block, up to the size of a slice: the
    received slice fits, and the offer stays in the block of its rank. *)
Definition accommodates (i : nat) (b : proxyBuf) (o : sliceOp) : Prop :=
  E * Z.of_nat (sliceLen o) <= pb_size b /\ pb_mhandle b = rMhandle /\
  ((0 < sliceLen o)%nat ->
   pb_addr b = E * recvAt i o /\
   exists q, (q < n)%nat /\ rr_out r i + grid + rankAt q * total <= recvAt i o /\
     pb_addr b + pb_size b <= E * (rr_out r i + grid + rankAt q * total + count)).

Lemma clampSize_max x : clampSize x = Z.max 0 x.
Proof. unfold clampSize. zcase1; lia. Qed.

Lemma ag_recvRank i (o : nat) :
  (2 <= n)%nat -> (1 <= o < n)%nat ->
  let stage := Z.of_nat o mod (Z.of_nat n - 1) in
  (if stage =? 0 then ag_ringRanks (proxyAG i) 1 else ag_ringRanks (proxyAG i) (Z.of_nat n - stage)) = rankAt (srcPos r i o).
Proof.
  intros Hn Ho stage. unfold srcPos. destruct (Nat.eq_dec o (n - 1)) as [->|Hne].
  - assert (stage = 0) as -> by (unfold stage; replace (Z.of_nat (n - 1)) with (Z.of_nat n - 1) by lia; by rewrite Z.mod_same by lia).
    simpl. do 2 f_equal. lia.
  - assert (stage = Z.of_nat o) as -> by (unfold stage; by rewrite Z.mod_small by lia).
    rewrite (proj2 (Z.eqb_neq _ _)) by lia. simpl. do 2 f_equal. lia.
Qed.

Lemma agSlice_fits i l o s :
  (16 | rr_step r * SPS) -> chunk <= Z.of_nat SPC * (rr_step r * SPS) -> (l < loopFuel count chunk)%nat ->
  E * Z.of_nat (sliceLen (agSlice r rankAt total i l o s)) <= rr_step r * SPS * E.
Proof.
  intros H16 Hfit Hl. pose proof Hok as (_ & HSPC & HSPS & _ & Hst & _). pose proof elt_pos.
  destruct (len_ok r Hok l Hl) as (Hlen & _). rewrite agSlice_len.
  pose proof (fullSlice_le (ringPrims r 0) (loopLen count chunk l) ltac:(simpl; nia) HSPC H16 ltac:(simpl; lia)) as Hf.
  assert (Z.of_nat (Z.to_nat (sliceSz (ringPrims r 0) (loopLen count chunk l) s)) <= rr_step r * SPS).
  { unfold sliceSz. simpl in Hf. lia. } nia.
Qed.

Lemma ag_recv i l o s :
  SPS * (Z.of_nat (loopFuel count chunk) * ((Z.of_nat n - 1) * Z.of_nat SPC) + Z.of_nat SPC) < 2 ^ 31 ->
  (16 | rr_step r * SPS) -> chunk <= Z.of_nat SPC * (rr_step r * SPS) ->
  (i < n)%nat -> inBlocks SPC (loopFuel count chunk) n l o s -> (1 <= o)%nat ->
  accommodates i (agNextRecvAddr (proxyAG i)
    (SPS * (Z.of_nat l * ((Z.of_nat n - 1) * Z.of_nat SPC) + (Z.of_nat o - 1) * Z.of_nat SPC + Z.of_nat s)))
    (agSlice r rankAt total i l o s).
Proof.
  intros Hint H16 Hfit Hi (Hl & Ho & Hs) Ho'. pose proof Hok as (Hn & HSPC & HSPS & _ & Hst & _ & _ & Hch & _).
  pose proof elt_pos as HE. pose proof (agSlice_fits i l o s H16 Hfit Hl) as Hsz.
  destruct (step_stages SPS (Z.of_nat SPC) (Z.of_nat n - 1) (Z.of_nat l) (Z.of_nat o - 1) (Z.of_nat s))
    as (E1 & _ & E3 & E2); try lia.
  destruct (steps_int SPS (Z.of_nat SPC) (Z.of_nat n - 1) _ (Z.of_nat l) (Z.of_nat o - 1) (Z.of_nat s)
    ltac:(lia) ltac:(split; [lia|apply inj_lt, Hl]) ltac:(lia) ltac:(lia) Hint) as (I1 & I2 & I3). cbn zeta in *. replace (Z.of_nat o - 1 + 1) with (Z.of_nat o) in E2 by lia.
  destruct (len_ok r Hok l Hl) as (Hlen & Hcl & _ & _ & Emax).
  pose proof (call_bytes i (loopLen count chunk l) s ltac:(rewrite Emax; exact Hcl)) as [B1 B2]. cbn zeta in B1, B2.
  rewrite Emax in B1, B2. pose proof (ag_recvRank i o Hn ltac:(lia)) as Erank. cbn zeta in Erank.
  assert (loopLen count chunk l * E <= (count - Z.of_nat l * chunk) * E) as Hrem by (apply Z.mul_le_mono_nonneg_r; unfold loopLen; lia).
  unfold accommodates, agNextRecvAddr. rewrite clampSize_max in *.
  unfold proxyAG, newRingAG in *.
  cbn [ag_base nStepsPerLoop chunkSteps sliceSteps nRanks sliceSize loopSize channelSize sendbuff recvbuff recvMhandle
    ag_ringRanks ag_elemSize ag_sendSize ag_slicePerChunk pb_size pb_addr pb_mhandle] in *.
  rewrite I1, ?I2, I3, E1, E2, E3, loopLen_bytes, Erank. change (Z.to_nat (sliceSz _ _ s)) with (sliceLen (agSlice r rankAt total i l o s)) in B1, B2.
  split_and!; [lia|done|]. intros Hp. destruct (B2 Hp) as [_ B4]. rewrite B4 in *.
  assert (recvAt i (agSlice r rankAt total i l o s) =
    rr_out r i + (grid + Z.of_nat l * chunk + rankAt (srcPos r i o) * total) + sliceOff (ringPrims r i) (loopLen count chunk l) s) as Ea.
  { unfold recvAt, agSlice, callSlice. cbn [dstAt]. rewrite (proj2 (Nat.eqb_neq o 0)) by lia. done. }
  assert (0 <= sliceOff (ringPrims r i) (loopLen count chunk l) s) 
    by (unfold sliceOff; destruct (fullSlice_covers (ringPrims r i) _ (proj1 Hlen) HSPC); nia).
  rewrite Ea. split; [ring|]. exists (srcPos r i o). split_and!; [apply Nat.mod_upper_bound; lia|nia|]. lia.
Qed.

(** *** Broadcast *)

Lemma cnt_all f (l : list sliceOp) k : (forall o, o ∈ l -> f o = true) -> (k <= length l)%nat -> cnt f l k = k.
Proof.
  intros Hf. induction k as [|k IH]; intros Hk; [done|].
  destruct (lookup_lt_is_Some_2 l k ltac:(lia)) as [o Ho].
  rewrite (cnt_S f l k o Ho), IH, (Hf o) by (lia || by eapply list_elem_of_lookup_2). lia.
Qed.

Local Abbreviation p0 := (ringPrims r 0).

(** One slice per chunk, which is as long as a chunk. *)
Definition wholeChunks : Prop := SPC = 1%nat /\ rr_step r * SPS = chunk.

Lemma bcProg_at t i k o :
  (t < n)%nat -> (forall i j, (i < n)%nat -> (j < n)%nat -> rankAt i = rankAt j -> i = j) -> wholeChunks ->
  bcProg r rankAt total t i !! k = Some o ->
  (i < n)%nat /\ (k < loopFuel count chunk)%nat /\
  o = phaseSlice (sliceAt p0 count chunk) (sliceLenAt p0 count chunk) (bcPhase r t i) k /\
  sliceAt p0 count chunk k = Z.of_nat k * chunk /\ Z.of_nat (sliceLenAt p0 count chunk k) = loopLen count chunk k /\
  (sendTo o <> [] -> sends (bcProg r rankAt total t) i (nextPos n i) k = k) /\
  (recvFrom o <> [] -> recvs (bcProg r rankAt total t) i (prevPos n i) k = k).
Proof.
  intros Ht Hranks [HS Hst]. unfold sends, recvs. rewrite (bcProg_eq r rankAt total t Hok Ht Hranks i).
  unfold phaseProg, bcPhases. destruct (Nat.ltb_spec i n) as [Hi|]; [|done]. cbn [flat_map]. rewrite app_nil_r.
  intros Hk. assert (loopSlices p0 count chunk = loopFuel count chunk) as EK by (unfold loopSlices; simpl; lia).
  rewrite EK in *. pose proof Hk as Hk'. rewrite list_lookup_fmap in Hk'. apply fmap_Some in Hk' as (k' & [-> Hlt]%lookup_seq & ->).
  cbn [Nat.add] in *. pose proof Hok as (Hn & HSPC & HSPS & _ & _ & _ & Hc & Hch & _).
  destruct (len_ok r Hok k Hlt) as (Hlen & _).
  destruct (fullSlice_covers p0 (loopLen count chunk k) ltac:(lia) HSPC) as [Hf Hcov]. simpl SlicePerChunk in Hcov. rewrite HS in Hcov.
  unfold sliceAt, sliceLenAt, loopX, sliceSz, sliceOff. simpl SlicePerChunk. rewrite HS, Nat.div_1_r, Nat.mod_1_r.
  split_and!; [done|done|done|lia|lia| |].
  - intros H. apply cnt_all; [|rewrite length_map, length_seq; lia].
    intros o (k' & -> & _)%list_elem_of_fmap. simpl in *. apply isIn_spec. unfold bcPhase, phaseOf in *. simpl in *.
    destruct (i =? t)%nat; simpl in *; [set_solver|]. destruct (negb _); [set_solver|done].
  - intros H. apply cnt_all; [|rewrite length_map, length_seq; lia].
    intros o (k' & -> & _)%list_elem_of_fmap. simpl in *. apply isIn_spec. unfold bcPhase, phaseOf in *. simpl in *.
    destruct (i =? t)%nat; simpl in *; [done|set_solver].
Qed.

Lemma bc_rest k : count * E - Z.of_nat k * (chunk * E) = (count - Z.of_nat k * chunk) * E.
Proof. ring. Qed.

(** Both queries of Broadcast, at the step of loop [k]. *)
Lemma bc_queries t i k uninit :
  (t < n)%nat -> (forall i j, (i < n)%nat -> (j < n)%nat -> rankAt i = rankAt j -> i = j) -> wholeChunks ->
  (i < n)%nat -> (k < loopFuel count chunk)%nat -> SPS * Z.of_nat k < 2 ^ 31 ->
  bcNextSendAddr (proxyBC t i uninit) (SPS * Z.of_nat k) =
    {| pb_addr := E * ((if (i =? t)%nat then rr_in r i else rr_out r i) + grid + Z.of_nat k * chunk);
       pb_size := E * loopLen count chunk k; pb_mhandle := if (i =? t)%nat then sMhandle else srMhandle |} /\
  bcNextRecvAddr (proxyBC t i uninit) (SPS * Z.of_nat k) =
    {| pb_addr := E * (rr_out r i + grid + Z.of_nat k * chunk); pb_size := E * loopLen count chunk k;
       pb_mhandle := rMhandle |}.
Proof.
  intros Ht Hranks [HS Hst] Hi Hk Hint. pose proof Hok as (Hn & _ & HSPS & _ & _ & _ & Hc & Hch & _). pose proof elt_pos as HE.
  destruct (len_ok r Hok k Hk) as (Hlen & _).
  unfold bcNextSendAddr, bcNextRecvAddr, proxyBC, newRingBC.
  cbn [bc_base nStepsPerLoop chunkSteps sliceSteps sliceSize loopSize channelSize sendbuff recvbuff sendMhandle
    recvMhandle srecvMhandle bc_root bc_rank].
  rewrite (cwrap_fits i32 (SPS * Z.of_nat k)) by (done || fits_lia).
  rewrite HS, !Z.mul_1_l. rewrite (Z.mul_comm SPS), Z.quot_mul, Z.rem_mul, Z.quot_0_l by lia.
  rewrite Z.mul_0_l, Z.add_0_r, Hst, bc_rest, Z.mul_min_distr_nonneg_r by lia. fold (loopLen count chunk k).
  rewrite clampSize_max, Z.max_r by nia.
  assert (Z.of_nat k * (chunk * E) < count * E) as Hin.
  { unfold loopLen in Hlen. assert (0 < count - Z.of_nat k * chunk) by lia. nia. }
  rewrite (proj2 (Z.leb_gt _ _) Hin), (rank_eqb r rankAt Hranks) by done.
  split; [destruct (i =? t)%nat|]; f_equal; ring.
Qed.
End agreement.

(** C17: The proxy follows the AllReduce kernel.  At the step counter a slice of
    the kernel occupies on its connection ([SPS] steps for every slice sent, or
    received, before it), [getNextSendAddr] and [getNextRecvAddr] return the
    slice's length in bytes, and, unless the slice is empty, the bytes of its
    elements: sent from the input buffer on the first call of a loop and from the
    output buffer on the others, received into the output buffer.  This covers
    the last, uneven loop of the channel and chunks that are cut to nothing.  The
    queries take the step as an [int]: the steps of the run, and those of one
    more chunk, are assumed to number less than [2 ^ 31]. *)
Theorem proxyAR_agrees {T} (r : ringRun T) rankAt total sMhandle rMhandle srMhandle i k o :
  ringRunOk r -> stepsFit r (arProg r rankAt total) i -> arProg r rankAt total i !! k = Some o ->
  let P := arProg r rankAt total in
  let a := proxyAR r sMhandle rMhandle srMhandle i in
  (sendTo o <> [] ->
   describes r (arNextSendAddr a (rr_SPS r * Z.of_nat (sends P i (nextPos (rr_n r) i) k))) o
     (sendAt r i o) (sendMh sMhandle srMhandle o)) /\
  (recvFrom o <> [] ->
   describes r (arNextRecvAddr a (rr_SPS r * Z.of_nat (recvs P i (prevPos (rr_n r) i) k))) o (recvAt r i o) rMhandle).
Proof.
  intros Hok Hsteps Hk. cbn zeta. pose proof Hok as (Hn & HSPC & _). pose proof (arProg_eq r Hok rankAt total) as HP.
  destruct (blockProg_inv _ _ _ _ _ _ HP i k o ltac:(lia) HSPC Hk) as (Hi & l & c & s & Hin & -> & ->).
  pose proof (stepsFit_blocks r Hok _ _ _ _ i HP ltac:(lia) Hi (ar_peers r) Hsteps) as Hint.
  destruct (ar_peers r i l c s Hi Hin) as [Er Es]. pose proof Hin as (_ & Hc & _). split; intros Hne.
  - assert (c < 2 * rr_n r - 2)%nat as Hc'
      by (rewrite Es in Hne; destruct (Nat.eqb_spec c (2 * rr_n r - 1 - 1)); [done|lia]).
    rewrite (block_sends _ _ _ _ _ _ HP HSPC ltac:(lia) (ar_peers r) i l c s Hi Hin ltac:(lia)).
    by apply ar_send.
  - assert (1 <= c)%nat as Hc' by (rewrite Er in Hne; destruct (Nat.eqb_spec c 0); [done|lia]).
    rewrite (block_recvs _ _ _ _ _ _ HP HSPC ltac:(lia) (ar_peers r) i l c s Hi Hin Hc'). by apply ar_recv.
Qed.

Lemma proxyAR_agrees_witness :
  exists o, arProg exampleRun Z.of_nat 5 1 !! 3%nat = Some o /\ sendTo o <> [] /\
  describes exampleRun
    (arNextSendAddr (proxyAR exampleRun 7 8 9 1)
       (rr_SPS exampleRun * Z.of_nat (sends (arProg exampleRun Z.of_nat 5) 1 2 3))) o
    (sendAt exampleRun 1 o) (sendMh 7 9 o).
Proof.
  eexists. split; [vm_compute; reflexivity|]. split; [discriminate|].
  refine (proj1 (proxyAR_agrees exampleRun Z.of_nat 5 7 8 9 1 3 _ _ _ _) _).
  - ring_run_ok.
  - vm_compute. reflexivity.
  - vm_compute. reflexivity.
  - discriminate.
Defined.

(** The proxy follows the AllGather kernel.  When the slices of a full chunk
    fill it, [getNextSendAddr] returns the length and the bytes of the slice the
    kernel sends at that step; when a chunk fits its steps, [getNextRecvAddr]
    returns the place of the slice the kernel receives, with at least its length
    and no byte past the end of the channel's part of that rank's block. *)
Lemma proxyAG_agrees {T} (r : ringRun T) rankAt total sMhandle rMhandle srMhandle i k o :
  ringRunOk r -> stepsFit r (agProg r rankAt total) i -> agProg r rankAt total i !! k = Some o ->
  let P := agProg r rankAt total in
  let a := proxyAG r rankAt total sMhandle rMhandle srMhandle i in
  (evenChunk r -> sendTo o <> [] ->
   describes r (agNextSendAddr a (rr_SPS r * Z.of_nat (sends P i (nextPos (rr_n r) i) k))) o
     (sendAt r i o) (sendMh sMhandle srMhandle o)) /\
  ((16 | rr_step r * rr_SPS r) -> rr_chunk r <= Z.of_nat (rr_SPC r) * (rr_step r * rr_SPS r) -> recvFrom o <> [] ->
   accommodates r rankAt total rMhandle i
     (agNextRecvAddr a (rr_SPS r * Z.of_nat (recvs P i (prevPos (rr_n r) i) k))) o).
Proof.
  intros Hok Hsteps Hk. cbn zeta. pose proof Hok as (Hn & HSPC & _). pose proof (agProg_eq r Hok rankAt total) as HP.
  destruct (blockProg_inv _ _ _ _ _ _ HP i k o ltac:(lia) HSPC Hk) as (Hi & l & c & s & Hin & -> & ->).
  pose proof (stepsFit_blocks r Hok _ _ _ _ i HP ltac:(lia) Hi (ag_peers r rankAt total) Hsteps) as Hint.
  destruct (ag_peers r rankAt total i l c s Hi Hin) as [Er Es]. pose proof Hin as (_ & Hc & _). split.
  - intros He Hne. assert (c < rr_n r - 1)%nat as Hc'
      by (rewrite Es in Hne; destruct (Nat.eqb_spec c (rr_n r - 1)); [done|lia]).
    rewrite (block_sends _ _ _ _ _ _ HP HSPC ltac:(lia) (ag_peers r rankAt total) i l c s Hi Hin ltac:(lia)).
    by apply ag_send.
  - intros H16 Hfit Hne.
    assert (1 <= c)%nat as Hc' by (rewrite Er in Hne; destruct (Nat.eqb_spec c 0); [done|lia]).
    rewrite (block_recvs _ _ _ _ _ _ HP HSPC ltac:(lia) (ag_peers r rankAt total) i l c s Hi Hin Hc'). by apply ag_recv.
Qed.

(** The proxy follows the Broadcast kernel, which has one slice per chunk: at
    the step of a slice both queries return its length and its bytes, sent from
    the input buffer by the root and from the output buffer by the others. *)
Lemma proxyBC_agrees {T} (r : ringRun T) rankAt total sMhandle rMhandle srMhandle t i k o uninit :
  ringRunOk r -> wholeChunks r -> (t < rr_n r)%nat ->
  (forall i j, (i < rr_n r)%nat -> (j < rr_n r)%nat -> rankAt i = rankAt j -> i = j) ->
  bcProg r rankAt total t i !! k = Some o -> rr_SPS r * Z.of_nat k < 2 ^ 31 ->
  let P := bcProg r rankAt total t in
  let a := proxyBC r rankAt total sMhandle rMhandle srMhandle t i uninit in
  (sendTo o <> [] ->
   describes r (bcNextSendAddr a (rr_SPS r * Z.of_nat (sends P i (nextPos (rr_n r) i) k))) o
     (sendAt r i o) (sendMh sMhandle srMhandle o)) /\
  (recvFrom o <> [] ->
   describes r (bcNextRecvAddr a (rr_SPS r * Z.of_nat (recvs P i (prevPos (rr_n r) i) k))) o (recvAt r i o) rMhandle).
Proof.
  intros Hok Hw Ht Hranks Hk Hint. cbn zeta.
  destruct (bcProg_at r Hok rankAt total t i k o Ht Hranks Hw Hk) as (Hi & Hlt & -> & Ex & Elen & Hs & Hr).
  destruct (bc_queries r Hok rankAt total sMhandle rMhandle srMhandle t i k uninit Ht Hranks Hw Hi Hlt Hint) as [E1 E2].
  split; intros Hne; [rewrite (Hs Hne); rewrite E1|rewrite (Hr Hne); rewrite E2];
    (split; cbn [pb_size pb_addr pb_mhandle phaseSlice sliceLen]; [by rewrite Elen|intros _]);
    unfold sendAt, recvAt, sendMh, phaseSlice, bcPhase, phaseOf in *; rewrite Ex; simpl in *;
    destruct (i =? t)%nat; simpl in *; try done; split; done.
Qed.

Definition proxyGatherRun : ringRun Z := {|
  rr_fn := {| preOp := fun x => x; reduceOp := Z.add; postOpFn := fun x => x |};
  rr_n := 3; rr_grid := 0; rr_count := 100; rr_chunk := 64; rr_elt := 4;
  rr_in := fun i => 1000 + Z.of_nat i * 100; rr_out := fun _ => 1000;
  rr_step := 32; rr_SPC := 2; rr_SPS := 1; rr_mem := fun i a => a |}.

Definition proxyChainRun : ringRun Z := {|
  rr_fn := {| preOp := fun x => x; reduceOp := Z.add; postOpFn := fun x => x |};
  rr_n := 3; rr_grid := 0; rr_count := 100; rr_chunk := 64; rr_elt := 4;
  rr_in := fun _ => 1000; rr_out := fun _ => 1000;
  rr_step := 64; rr_SPC := 1; rr_SPS := 1; rr_mem := fun i a => a |}.

Lemma proxyAG_agrees_example :
  exists o, agProg proxyGatherRun Z.of_nat 100 1 !! 9%nat = Some o /\
  describes proxyGatherRun
    (agNextSendAddr (proxyAG proxyGatherRun Z.of_nat 100 7 8 9 1)
       (rr_SPS proxyGatherRun * Z.of_nat (sends (agProg proxyGatherRun Z.of_nat 100) 1 2 9))) o
    (sendAt proxyGatherRun 1 o) (sendMh 7 9 o) /\
  accommodates proxyGatherRun Z.of_nat 100 8 1
    (agNextRecvAddr (proxyAG proxyGatherRun Z.of_nat 100 7 8 9 1)
       (rr_SPS proxyGatherRun * Z.of_nat (recvs (agProg proxyGatherRun Z.of_nat 100) 1 0 9))) o.
Proof.
  eexists. split; [vm_compute; reflexivity|].
  split; [refine (proj1 (proxyAG_agrees proxyGatherRun Z.of_nat 100 7 8 9 1 9 _ _ _ _) _ _)|
    refine (proj2 (proxyAG_agrees proxyGatherRun Z.of_nat 100 7 8 9 1 9 _ _ _ _) _ _ _)];
    try (ring_run_ok); try (vm_compute; reflexivity).
  - discriminate.
  - exists 2. reflexivity.
  - discriminate.
  - discriminate.
Defined.

Lemma proxyBC_agrees_example :
  exists o, bcProg proxyChainRun Z.of_nat 100 1 2 !! 1%nat = Some o /\
  describes proxyChainRun
    (bcNextSendAddr (proxyBC proxyChainRun Z.of_nat 100 7 8 9 1 2 0)
       (rr_SPS proxyChainRun * Z.of_nat (sends (bcProg proxyChainRun Z.of_nat 100 1) 2 0 1))) o
    (sendAt proxyChainRun 2 o) (sendMh 7 9 o).
Proof.
  eexists. split; [vm_compute; reflexivity|].
  refine (proj1 (proxyBC_agrees proxyChainRun Z.of_nat 100 7 8 9 1 2 1 _ 0 _ _ _ _ _ _) _).
  - ring_run_ok.
  - split; reflexivity.
  - simpl. lia.
  - intros i j _ _ E. lia.
  - vm_compute. reflexivity.
  - reflexivity.
  - discriminate.
Defined.
