(* ===== verification/Chunking.v ===== *)
(** * Chunk sizes and proxy steps (src/src/enqueue/enqueue.cc, calcCollChunking)

    For each collective the host chooses the bytes of a chunk and tells the proxy
    thread how many steps the kernel will take on each connection.  The model
    covers every algorithm; a division by zero is [None].  The theorem says that
    the loops that shrink the chunk end, that nothing traps and that the chunk
    fits its buffer, under a condition on what the tuner plugin returns; without
    it a division traps ([tuner_below_grain_traps]).  ProxySave compares the steps with
    those of the kernels. *)

From stdpp Require Import base numbers list sets.
From Stdlib Require Import ZArith Lia.
From S2P Require Import Prelude Bitops Prims DevWork.

Local Open Scope Z_scope.

(* src/src/include/proxy.h:30-46 ncclPattern_t *)
Inductive ncclPattern_t :=
  | ncclPatternRing | ncclPatternRingTwice | ncclPatternPipelineFrom | ncclPatternPipelineTo
  | ncclPatternTreeUp | ncclPatternTreeDown | ncclPatternTreeUpDown | ncclPatternCollnetChain
  | ncclPatternCollnetDirect | ncclPatternNvls | ncclPatternNvlsTree | ncclPatternPatUp | ncclPatternPatDown
  | ncclPatternSend | ncclPatternRecv.

(** What the function reads of the communicator.  The comparisons with bandwidths
    and times in floating point are given as their results: [slowNvls] for the
    bandwidth of NVLS below 150, [ll128Below k q] for [q < nstepsLL128 * k / ppn]. *)
Record commInfo := {
  buffSizes : ncclProto -> Z;
  ci_nRanks : Z;
  ci_nNodes : Z;
  directHeads : Z;
  directDepth : Z;
  directHeadRank : Z;
  chainDepth : Z;
  nvlsHeads : Z;
  nvlsHeadRank : Z;
  nvlsChunkSize : Z;
  nvlsTreeMaxChunkSize : Z;
  isOneRPN : bool;
  slowNvls : bool;
  ll128Below : Z -> Z -> bool }.

(** What it reads of the task; [regBufType] as its two flags. *)
Record collInfo := {
  ti_func : ncclFunc_t;
  ti_algorithm : ncclAlgo;
  ti_protocol : ncclProto;
  ti_chunkSteps : Z;
  ti_sliceSteps : Z;
  nvlsReg : bool;
  netReg : bool }.

(** The fields of the proxy operation that depend on the chunking. *)
Record proxyOp := {
  po_pattern : ncclPattern_t;
  po_nsteps : Z;
  po_sliceSteps : Z;
  po_chunkSteps : Z;
  po_chunkSize : Z;
  po_sliceSize : Z;
  po_loopSize : Z;
  po_loopOffset : Z;
  po_nbytes : Z;
  po_reg : bool;
  po_nPeers : Z }.

#[export] Instance ncclPattern_t_eq_dec : EqDecision ncclPattern_t.
Proof. solve_decision. Defined.

#[export] Instance ncclAlgo_eq_dec : EqDecision ncclAlgo.
Proof. solve_decision. Defined.

#[export] Instance ncclProto_eq_dec : EqDecision ncclProto.
Proof. solve_decision. Defined.

(* src/src/enqueue/enqueue.cc:2313-2343 calcCollChunking *)
Definition collPattern (func : ncclFunc_t) (algorithm : ncclAlgo) : ncclResult_t + ncclPattern_t :=
  match func with
  | ncclFuncBroadcast =>
      inr (match algorithm with NCCL_ALGO_TREE => ncclPatternTreeDown | _ => ncclPatternPipelineFrom end)
  | ncclFuncReduce =>
      inr (match algorithm with NCCL_ALGO_TREE => ncclPatternTreeUp | _ => ncclPatternPipelineTo end)
  | ncclFuncReduceScatter =>
      inr (match algorithm with
           | NCCL_ALGO_PAT => ncclPatternPatUp
           | NCCL_ALGO_NVLS => ncclPatternNvls
           | NCCL_ALGO_COLLNET_DIRECT => ncclPatternCollnetDirect
           | _ => ncclPatternRing
           end)
  | ncclFuncAllGather =>
      inr (match algorithm with
           | NCCL_ALGO_PAT => ncclPatternPatDown
           | NCCL_ALGO_NVLS => ncclPatternNvls
           | NCCL_ALGO_COLLNET_DIRECT => ncclPatternCollnetDirect
           | _ => ncclPatternRing
           end)
  | ncclFuncAllReduce =>
      inr (match algorithm with
           | NCCL_ALGO_NVLS => ncclPatternNvls
           | NCCL_ALGO_NVLS_TREE => ncclPatternNvlsTree
           | NCCL_ALGO_COLLNET_DIRECT => ncclPatternCollnetDirect
           | NCCL_ALGO_COLLNET_CHAIN => ncclPatternCollnetChain
           | NCCL_ALGO_TREE => ncclPatternTreeUpDown
           | _ => ncclPatternRingTwice
           end)
  | _ => inl ncclInternalError
  end.

(** A quotient; [None] is a division by zero, which traps. *)
Definition quotz (x y : Z) : option Z := if y =? 0 then None else Some (Z.quot x y).

(** A product computed as an [int], as it enters arithmetic with a [size_t]. *)
Definition intSize (x : Z) : Z := wrap64 (cwrap i32 x).

(** [while (cond(chunkSize) && chunkSize > limit) chunkSize /= 2]: an [int] is
    halved at most 31 times; [None] if the condition traps or the fuel runs out. *)
Fixpoint halve (fuel : nat) (cond : Z -> option bool) (limit chunkSize : Z) : option Z :=
  b ← cond chunkSize;
  if b && (limit <? chunkSize)
  then match fuel with O => None | S fuel => halve fuel cond limit (Z.quot chunkSize 2) end
  else Some chunkSize.

Definition halvings : nat := 31.

(** [if (cond && chunkSize > size) chunkSize = size]. *)
Definition cutTo (cond : Z -> bool) (size chunkSize : Z) : Z :=
  if cond chunkSize && (size <? chunkSize) then size else chunkSize.

Definition isSimpleRing (info : collInfo) : bool :=
  bool_decide (ti_protocol info = NCCL_PROTO_SIMPLE) && bool_decide (ti_algorithm info = NCCL_ALGO_RING).

(** The step, the steps of a chunk and a slice, and the largest chunk of the buffer. *)
(* src/src/enqueue/enqueue.cc:2347-2354 calcCollChunking *)
Definition bufferChunk (comm : commInfo) (info : collInfo) : Z * Z * Z * Z :=
  let stepSize := Z.quot (buffSizes comm (ti_protocol info)) NCCL_STEPS in
  let chunkSteps := if isSimpleRing info then ti_chunkSteps info else 1 in
  let sliceSteps := if isSimpleRing info then ti_sliceSteps info else 1 in
  let chunkSize := stepSize * chunkSteps in
  let chunkSize := match ti_protocol info with NCCL_PROTO_LL => Z.quot chunkSize 2 | _ => chunkSize end in
  let chunkSize :=
    match ti_protocol info with
    | NCCL_PROTO_LL128 => Z.quot chunkSize NCCL_LL128_LINEELEMS * NCCL_LL128_DATAELEMS
    | _ => chunkSize
    end in
  (stepSize, chunkSteps, sliceSteps, chunkSize).

(** The chunk size of each algorithm; the step size changes for one of them. *)
(* src/src/enqueue/enqueue.cc:2356-2425 calcCollChunking *)
Definition algoChunk (comm : commInfo) (info : collInfo) (nChannels nBytes stepSize chunkSteps chunkSize : Z)
    : option (Z * Z) :=
  match ti_algorithm info, ti_func info with
  | NCCL_ALGO_COLLNET_DIRECT, _ =>
      let below k c := q ← quotz nBytes (intSize (nChannels * directHeads comm * c)); Some (q <? directDepth comm * k) in
      c ← halve halvings (below 64) 131072 chunkSize;
      c ← halve halvings (below 8) 65536 c;
      c ← halve halvings (below 8) 32768 c;
      Some (stepSize, c)
  | NCCL_ALGO_COLLNET_CHAIN, _ =>
      let stepSize := Z.quot (buffSizes comm NCCL_PROTO_SIMPLE) NCCL_STEPS in
      let below k c := q ← quotz nBytes (intSize (nChannels * c)); Some (q <? chainDepth comm * k) in
      c ← halve halvings (below 64) 131072 (Z.min (256 * 1024) (stepSize * chunkSteps));
      c ← halve halvings (below 8) 65536 c;
      c ← halve halvings (below 1) 32768 c;
      Some (stepSize, c)
  | NCCL_ALGO_NVLS, func =>
      if nvlsReg info && bool_decide (func = ncclFuncAllGather \/ func = ncclFuncReduceScatter)
      then Some (stepSize, Z.quot (buffSizes comm NCCL_PROTO_SIMPLE) NCCL_STEPS)
      else
        let maxChunkSize := if (1 <? ci_nNodes comm) && slowNvls comm then 32768 else nvlsChunkSize comm in
        let chunkSize := if maxChunkSize <? chunkSize then maxChunkSize else chunkSize in
        let concurrentOps := nChannels * nvlsHeads comm in
        let below k c := nBytes <? k * (concurrentOps * c) in
        Some (stepSize, cutTo (below 2) 16384 (cutTo (below 8) 32768 (cutTo (below 64) 65536 chunkSize)))
  | NCCL_ALGO_NVLS_TREE, _ =>
      let concurrentOps := nChannels * nvlsHeads comm in
      let below k c := nBytes <? k * (concurrentOps * c) in
      let chunkSize := Z.min (nvlsChunkSize comm) (nvlsTreeMaxChunkSize comm) in
      Some (stepSize, cutTo (below 1) 32768 (cutTo (below 4) 65536
        (cutTo (below 16) 131072 (cutTo (below 32) 262144 chunkSize))))
  | NCCL_ALGO_TREE, _ =>
      match ti_protocol info with
      | NCCL_PROTO_LL128 =>
          let below k c := q ← quotz nBytes (intSize (nChannels * c)); Some (ll128Below comm k q) in
          c ← halve halvings (below 64) 131072 chunkSize;
          c ← halve halvings (below 16) 32768 c;
          Some (stepSize, c)
      | _ => Some (stepSize, chunkSize)
      end
  | NCCL_ALGO_PAT, ncclFuncAllGather =>
      c ← halve halvings (fun c => Some (nBytes <? intSize (c * nChannels * 32))) 65536 chunkSize;
      Some (stepSize, c)
  | NCCL_ALGO_PAT, ncclFuncReduceScatter =>
      c ← halve halvings (fun c => Some (nBytes <? intSize (c * nChannels * 16))) 65536 chunkSize;
      Some (stepSize, c)
  | _, _ => Some (stepSize, chunkSize)
  end.

(** The steps and chunks of a loop, and where the first loop starts. *)
(* src/src/enqueue/enqueue.cc:2455-2491 calcCollChunking *)
Definition loopShape (comm : commInfo) (pattern : ncclPattern_t) (nChannels chunkSize : Z)
    : ncclResult_t + (Z * Z * Z) :=
  match pattern with
  | ncclPatternTreeUp | ncclPatternTreeDown | ncclPatternTreeUpDown | ncclPatternPatUp | ncclPatternPatDown
  | ncclPatternPipelineFrom | ncclPatternPipelineTo | ncclPatternCollnetChain => inr (1, 1, 0)
  | ncclPatternNvls => inr (1, nvlsHeads comm, nChannels * chunkSize * nvlsHeadRank comm)
  | ncclPatternCollnetDirect => inr (1, directHeads comm, nChannels * chunkSize * directHeadRank comm)
  | ncclPatternRing => inr (ci_nRanks comm - 1, ci_nRanks comm, 0)
  | ncclPatternRingTwice => inr (2 * (ci_nRanks comm - 1), ci_nRanks comm, 0)
  | ncclPatternNvlsTree => inr (1, nvlsHeads comm, 0)
  | _ => inl ncclInternalError
  end.

Definition NCCL_MAX_NET_SIZE : Z := 1024 * 1024 * 1024.

Definition DIVUP (x y : Z) : Z := Z.quot (x + y - 1) y.

(** The changes for buffers registered with the network. *)
(* src/src/enqueue/enqueue.cc:2522-2563 calcCollChunking *)
Definition regProxyOp (comm : commInfo) (info : collInfo) (nChannels nBytes nstepsPerLoop nchunksPerLoop : Z)
    (op : proxyOp) : ncclResult_t + proxyOp :=
  let upd nsteps sliceSteps chunkSteps chunkSize sliceSize loopSize loopOffset := {|
    po_pattern := po_pattern op; po_nsteps := nsteps; po_sliceSteps := sliceSteps; po_chunkSteps := chunkSteps;
    po_chunkSize := chunkSize; po_sliceSize := sliceSize; po_loopSize := loopSize; po_loopOffset := loopOffset;
    po_nbytes := nBytes; po_reg := true; po_nPeers := po_nPeers op |} in
  let same := upd (po_nsteps op) (po_sliceSteps op) (po_chunkSteps op) (po_chunkSize op) (po_sliceSize op) in
  match ti_algorithm info with
  | NCCL_ALGO_COLLNET_DIRECT | NCCL_ALGO_NVLS | NCCL_ALGO_COLLNET_CHAIN =>
      if isOneRPN comm
      then inr (upd 1 (po_sliceSteps op) (po_chunkSteps op) (po_chunkSize op) (po_sliceSize op) (po_loopSize op) 0)
      else if bool_decide (ti_func info = ncclFuncAllGather \/ ti_func info = ncclFuncReduceScatter)
      then inr (same (Z.quot (po_loopSize op) nchunksPerLoop) 0)
      else inr (same (po_loopSize op) (po_loopOffset op))
  | NCCL_ALGO_RING =>
      if isOneRPN comm && bool_decide (ti_func info = ncclFuncAllGather)
      then
        let loopSize := nChannels * nchunksPerLoop * NCCL_MAX_NET_SIZE in
        inr (upd (cwrap i32 (DIVUP nBytes loopSize * nstepsPerLoop)) 1 1 NCCL_MAX_NET_SIZE NCCL_MAX_NET_SIZE loopSize 0)
      else inr (same (po_loopSize op) (po_loopOffset op))
  | _ => inl ncclInternalError
  end.

Definition peerHint (pattern : ncclPattern_t) : ncclResult_t + Z :=
  match pattern with
  | ncclPatternRing | ncclPatternRingTwice | ncclPatternPipelineFrom | ncclPatternPipelineTo
  | ncclPatternPatUp | ncclPatternPatDown => inr 1
  | ncclPatternTreeUp | ncclPatternTreeDown | ncclPatternTreeUpDown | ncclPatternNvlsTree => inr ((3 - 1) * 2)
  | ncclPatternCollnetChain | ncclPatternCollnetDirect | ncclPatternNvls => inr 0
  | _ => inl ncclInternalError
  end.

(** [getChunkSize] of the tuner plugin, when there is one, returns a result code
    and a chunk size; the chunk is cut to whole grains. *)
(* src/src/enqueue/enqueue.cc:2434-2454 calcCollChunking *)
Definition tuneChunk (comm : commInfo) (info : collInfo) (tuner : option (Z -> ncclResult_t * Z))
    (bufferMaxChunkSize chunkSize : Z) : ncclResult_t + Z :=
  let grainSize := ncclProtoGrainSize (ti_protocol info) in
  let tuned :=
    match tuner with
    | None => inr chunkSize
    | Some getChunkSize =>
        match getChunkSize chunkSize with
        | (ncclSuccess, c) => inr (if bufferMaxChunkSize <? c then bufferMaxChunkSize else c)
        | (err, _) => inl err
        end
    end in
  match tuned with
  | inl err => inl err
  | inr chunkSize =>
      let chunkSize :=
        if bool_decide (ti_func info = ncclFuncAllGather \/ ti_func info = ncclFuncReduceScatter) &&
           bool_decide (ti_algorithm info = NCCL_ALGO_PAT) && negb (isOneRPN comm) && (0 <? nvlsChunkSize comm)
        then Z.min (nvlsChunkSize comm) chunkSize else chunkSize in
      inr (Z.quot chunkSize grainSize * grainSize)
  end.

(** The proxy operation.  [None] is a division by zero, of [nBytes] by the size of
    a loop or of the chunk by its steps; the divisions for registered buffers have
    factors of [loopSize] as divisors. *)
(* src/src/enqueue/enqueue.cc:2493-2608 calcCollChunking *)
Definition chunkProxyOp (comm : commInfo) (info : collInfo) (pattern : ncclPattern_t)
    (nChannels nBytes stepSize chunkSteps sliceSteps chunkSize : Z) : option (ncclResult_t + (Z * proxyOp)) :=
  match loopShape comm pattern nChannels chunkSize with
  | inl err => Some (inl err)
  | inr (nstepsPerLoop, nchunksPerLoop, loopOffset) =>
      let loopSize := nChannels * nchunksPerLoop * chunkSize in
      loops ← quotz (nBytes + loopSize - 1) loopSize;
      stepBytes ← quotz chunkSize chunkSteps;
      let nLoops := cwrap i32 loops in
      let op := {|
        po_pattern := pattern;
        po_nsteps := cwrap i32 (nstepsPerLoop * nLoops * chunkSteps); po_sliceSteps := sliceSteps; po_chunkSteps := chunkSteps;
        po_chunkSize := chunkSize; po_sliceSize := stepBytes * sliceSteps;
        po_loopSize := loopSize; po_loopOffset := loopOffset; po_nbytes := stepSize * sliceSteps;
        po_reg := false; po_nPeers := 0 |} in
      Some (match (if netReg info then regProxyOp comm info nChannels nBytes nstepsPerLoop nchunksPerLoop op else inr op) with
      | inl err => inl err
      | inr op =>
          let nbytes :=
            match pattern with
            | ncclPatternPatUp | ncclPatternPatDown => DIVUP nBytes nChannels
            | _ => po_nbytes op
            end in
          match peerHint pattern with
          | inl err => inl err
          | inr nPeers => inr (po_chunkSize op, {|
              po_pattern := po_pattern op; po_nsteps := po_nsteps op; po_sliceSteps := po_sliceSteps op;
              po_chunkSteps := po_chunkSteps op; po_chunkSize := po_chunkSize op; po_sliceSize := po_sliceSize op;
              po_loopSize := po_loopSize op; po_loopOffset := po_loopOffset op; po_nbytes := nbytes;
              po_reg := po_reg op; po_nPeers := nPeers |})
          end
      end)
  end.

(** [None] is a division by zero or a loop without end. *)
(* src/src/enqueue/enqueue.cc:2307-2433 calcCollChunking *)
Definition calcCollChunking (comm : commInfo) (info : collInfo) (tuner : option (Z -> ncclResult_t * Z))
    (nChannels nBytes : Z) : option (ncclResult_t + (Z * bool * proxyOp)) :=
  match collPattern (ti_func info) (ti_algorithm info) with
  | inl err => Some (inl err)
  | inr pattern =>
      let '(stepSize, chunkSteps, sliceSteps, bufferMaxChunkSize) := bufferChunk comm info in
      '(stepSize, chunkSize) ← algoChunk comm info nChannels nBytes stepSize chunkSteps bufferMaxChunkSize;
      let directFlags := bool_decide (ti_algorithm info = NCCL_ALGO_COLLNET_DIRECT) in
      match tuneChunk comm info tuner bufferMaxChunkSize chunkSize with
      | inl err => Some (inl err)
      | inr chunkSize =>
          res ← chunkProxyOp comm info pattern nChannels nBytes stepSize chunkSteps sliceSteps chunkSize;
          Some (match res with
          | inl err => inl err
          | inr (chunkSize, op) => inr (chunkSize, directFlags, op)
          end)
      end
  end.

(* src/src/include/enqueue.h:59-61 ncclFuncMaxSendRecvCount *)
Definition ncclFuncMaxSendRecvCount (func : ncclFunc_t) (nRanks count : Z) : Z :=
  if bool_decide (func = ncclFuncAllGather \/ func = ncclFuncReduceScatter) then nRanks * count else count.

(** ** The chunk *)

(** The conditions under which no division by zero and no overflow of an [int]
    product can happen on up to [nMax] channels: the buffer, and what the
    algorithms take as their largest chunk, have room for a grain, and there are
    ranks and heads to divide by. *)
Definition chunkable (comm : commInfo) (info : collInfo) (nMax : Z) : Prop :=
  let '(stepSize, chunkSteps, sliceSteps, c) := bufferChunk comm info in
  let g := ncclProtoGrainSize (ti_protocol info) in
  let simpleStep := Z.quot (buffSizes comm NCCL_PROTO_SIMPLE) NCCL_STEPS in
  0 < ci_nRanks comm /\ 0 < chunkSteps /\ g <= c < 2 ^ 31 /\
  match ti_algorithm info with
  | NCCL_ALGO_TREE => nMax * c < 2 ^ 31
  | NCCL_ALGO_RING => True
  | NCCL_ALGO_COLLNET_DIRECT => 0 < directHeads comm /\ nMax * directHeads comm * c < 2 ^ 31
  | NCCL_ALGO_COLLNET_CHAIN => g <= simpleStep * chunkSteps /\ nMax * (256 * 1024) < 2 ^ 31
  | NCCL_ALGO_NVLS => 0 < nvlsHeads comm /\ g <= nvlsChunkSize comm /\ g <= simpleStep
  | NCCL_ALGO_NVLS_TREE => 0 < nvlsHeads comm /\ g <= nvlsChunkSize comm /\ g <= nvlsTreeMaxChunkSize comm
  | NCCL_ALGO_PAT => 0 < nvlsChunkSize comm -> g <= nvlsChunkSize comm
  end.

(** The tuner plugin asks for at least a grain. *)
Definition tunerOk (info : collInfo) (tuner : option (Z -> ncclResult_t * Z)) : Prop :=
  forall f x, tuner = Some f -> ncclProtoGrainSize (ti_protocol info) <= (f x).2.

Lemma grain_pos proto : 0 < ncclProtoGrainSize proto <= 16384.
Proof. destruct proto; vm_compute; split; congruence. Qed.

(** The loops end, with a chunk between half the limit and what it was. *)
Lemma halve_ends cond limit fuel c :
  2 <= limit -> c < 2 ^ Z.of_nat fuel -> 0 < c -> (forall x, 0 < x <= c -> cond x <> None) ->
  exists c', halve fuel cond limit c = Some c' /\ 0 < c' <= c /\ (limit / 2 <= c' \/ c' = c).
Proof.
  intros Hl. revert c. induction fuel as [|fuel IH]; intros c Hc Hpos Hcond; cbn [halve];
    (destruct (cond c) as [b|] eqn:Eb; [|by destruct (Hcond c ltac:(lia))]); cbn [mbind option_bind].
  - simpl in Hc. lia.
  - destruct (b && (limit <? c)) eqn:E; [|exists c; split_and!; auto; lia].
    apply andb_true_iff in E as [_ E%Z.ltb_lt]. rewrite Nat2Z.inj_succ, Z.pow_succ_r in Hc by lia.
    rewrite Z.quot_div_nonneg by lia. assert (c / 2 < 2 ^ Z.of_nat fuel) as Hc2 by (apply Z.div_lt_upper_bound; lia).
    assert (1 <= c / 2 <= c) by (split; [apply Z.div_le_lower_bound; lia|apply Z.div_le_upper_bound; lia]).
    destruct (IH (c / 2) Hc2 ltac:(lia)) as (c' & E' & H1 & H2); [intros x Hx; apply Hcond; lia|].
    exists c'. split_and!; [done|lia|lia|]. left. destruct H2 as [?| ->]; [done|]. apply Z.div_le_mono; lia.
Qed.

Lemma halve_range g cond limit c :
  0 < g <= 16384 -> 32768 <= limit -> g <= c < 2 ^ 31 -> (forall x, 0 < x <= c -> cond x <> None) ->
  exists c', halve halvings cond limit c = Some c' /\ g <= c' <= c.
Proof.
  intros Hg Hl Hc Hcond. destruct (halve_ends cond limit halvings c) as (c' & E & H1 & H2); [lia|exact (proj2 Hc)|lia|done|].
  exists c'. split; [done|]. assert (32768 / 2 <= limit / 2) by (apply Z.div_le_mono; lia). change (32768 / 2) with 16384 in *. lia.
Qed.

(** The conditions of the loops are defined. *)
Lemma below_defined nBytes k x c (f : Z -> bool) :
  0 < k -> 0 < x <= c -> k * c < 2 ^ 31 -> (q ← quotz nBytes (intSize (k * x)); Some (f q)) <> None.
Proof.
  intros Hk Hx Hm. assert (0 < k * x < 2 ^ 31) by nia.
  assert (intSize (k * x) = k * x) as ->.
  { unfold intSize. rewrite cwrap_fits by (done || fits_lia). apply wrap64_small. lia. }
  unfold quotz. by rewrite (proj2 (Z.eqb_neq _ 0)) by lia.
Qed.

(** The algorithms whose chunks stay within the buffer of their protocol. *)
Definition bufferBound (info : collInfo) : Prop :=
  match ti_algorithm info with
  | NCCL_ALGO_RING | NCCL_ALGO_TREE | NCCL_ALGO_PAT | NCCL_ALGO_COLLNET_DIRECT => True
  | _ => False
  end.

Lemma cutTo_range g cond size c : g <= size -> g <= c -> g <= cutTo cond size c.
Proof. intros. unfold cutTo. destruct (cond c && (size <? c)); lia. Qed.

(** Two and three loops in a row. *)
Lemma halve2_range {B} g cond1 cond2 l1 l2 c (r : B) :
  0 < g <= 16384 -> 32768 <= l1 -> 32768 <= l2 -> g <= c < 2 ^ 31 ->
  (forall x, 0 < x <= c -> cond1 x <> None /\ cond2 x <> None) ->
  exists c', (c ← halve halvings cond1 l1 c; c ← halve halvings cond2 l2 c; Some (r, c)) = Some (r, c') /\ g <= c' <= c.
Proof.
  intros Hg H1 H2 Hc Hcond.
  destruct (halve_range g cond1 l1 c Hg H1 Hc) as (x & -> & Hx); [intros; by apply Hcond|]. cbn [mbind option_bind].
  destruct (halve_range g cond2 l2 x Hg H2 ltac:(lia)) as (y & -> & Hy); [intros; apply Hcond; lia|]. cbn [mbind option_bind].
  exists y. split; [done|lia].
Qed.

Lemma halve3_range {B} g cond1 cond2 cond3 l1 l2 l3 c (r : B) :
  0 < g <= 16384 -> 32768 <= l1 -> 32768 <= l2 -> 32768 <= l3 -> g <= c < 2 ^ 31 ->
  (forall x, 0 < x <= c -> cond1 x <> None /\ cond2 x <> None /\ cond3 x <> None) ->
  exists c', (c ← halve halvings cond1 l1 c; c ← halve halvings cond2 l2 c; c ← halve halvings cond3 l3 c; Some (r, c)) =
    Some (r, c') /\ g <= c' <= c.
Proof.
  intros Hg H1 H2 H3 Hc Hcond.
  destruct (halve_range g cond1 l1 c Hg H1 Hc) as (x & -> & Hx); [intros; by apply Hcond|]. cbn [mbind option_bind].
  destruct (halve2_range g cond2 cond3 l2 l3 x r Hg H2 H3 ltac:(lia)) as (y & E & Hy); [intros; apply Hcond; lia|].
  exists y. split; [exact E|lia].
Qed.

Lemma algoChunk_range comm info nMax nChannels nBytes stepSize chunkSteps sliceSteps c :
  chunkable comm info nMax -> bufferChunk comm info = (stepSize, chunkSteps, sliceSteps, c) -> 1 <= nChannels <= nMax ->
  let g := ncclProtoGrainSize (ti_protocol info) in
  exists s c', algoChunk comm info nChannels nBytes stepSize chunkSteps c = Some (s, c') /\ g <= c' /\
    (bufferBound info -> c' <= c) /\ (ti_algorithm info = NCCL_ALGO_RING -> c' = c).
Proof.
  intros Hch Hbuf Hn. cbn zeta. unfold chunkable in Hch. rewrite Hbuf in Hch. destruct Hch as (_ & Hcs & Hc & Halgo).
  pose proof (grain_pos (ti_protocol info)) as Hg. set (g := ncclProtoGrainSize (ti_protocol info)) in *.
  assert (forall k x (f : Z -> bool), 0 < k -> k * c < 2 ^ 31 -> 0 < x <= c ->
    (q ← quotz nBytes (intSize (k * x)); Some (f q)) <> None) as Hdef by (intros; by apply (below_defined _ _ _ c)).
  unfold algoChunk, bufferBound. destruct (ti_algorithm info).
  - destruct (ti_protocol info); [by exists stepSize, c; (split_and!; [|lia..])| |by exists stepSize, c; (split_and!; [|lia..])].
    destruct (halve2_range g (fun x => q ← quotz nBytes (intSize (nChannels * x)); Some (ll128Below comm 64 q))
      (fun x => q ← quotz nBytes (intSize (nChannels * x)); Some (ll128Below comm 16 q)) 131072 32768 c stepSize)
      as (c' & E & Hc'); [done|lia|lia|done|intros x Hx; split; apply Hdef; nia|].
    exists stepSize, c'. split; [exact E|]. split; [lia|]. split; [lia|done].
  - exists stepSize, c. by (split_and!; [|lia..]).
  - edestruct (halve3_range g (fun x => q ← quotz nBytes (intSize (nChannels * directHeads comm * x)); Some (q <? directDepth comm * 64))
      (fun x => q ← quotz nBytes (intSize (nChannels * directHeads comm * x)); Some (q <? directDepth comm * 8))
      (fun x => q ← quotz nBytes (intSize (nChannels * directHeads comm * x)); Some (q <? directDepth comm * 8)) 131072 65536 32768 c stepSize)
      as (c' & E & Hc'); [done|lia|lia|lia|done|intros x Hx; split_and!; apply (Hdef (nChannels * directHeads comm)); nia|].
    exists stepSize, c'. split; [exact E|]. split; [lia|]. split; [lia|done].
  - set (s := Z.quot (buffSizes comm NCCL_PROTO_SIMPLE) NCCL_STEPS) in *.
    edestruct (halve3_range g (fun x => q ← quotz nBytes (intSize (nChannels * x)); Some (q <? chainDepth comm * 64))
      (fun x => q ← quotz nBytes (intSize (nChannels * x)); Some (q <? chainDepth comm * 8))
      (fun x => q ← quotz nBytes (intSize (nChannels * x)); Some (q <? chainDepth comm * 1)) 131072 65536 32768
      (Z.min (256 * 1024) (s * chunkSteps)) s)
      as (c' & E & Hc'); [done|lia|lia|lia|lia|intros x Hx; split_and!; apply (below_defined _ _ _ (256 * 1024)); nia|].
    exists s, c'. split; [exact E|]. split; [lia|]. split; [done|done].
  - destruct (nvlsReg info && _); [eexists _, _; split; [done|]; split; [lia|by split]|].
    eexists _, _. split; [done|]. split; [|by split]. repeat apply cutTo_range; try lia.
    destruct (_ && _), (Z.ltb_spec 32768 c), (Z.ltb_spec (nvlsChunkSize comm) c); lia.
  - eexists _, _. split; [done|]. split; [|by split]. repeat apply cutTo_range; lia.
  - destruct (ti_func info); try (by exists stepSize, c; (split_and!; [|lia..]));
      [destruct (halve_range g (fun c => Some (nBytes <? intSize (c * nChannels * 32))) 65536 c) as (c' & E & Hc'); [done|lia|done|done|]
      |destruct (halve_range g (fun c => Some (nBytes <? intSize (c * nChannels * 16))) 65536 c) as (c' & E & Hc'); [done|lia|done|done|]];
      rewrite E; cbn [mbind option_bind]; exists stepSize, c'; (split_and!; [done|lia|lia|done]).
Qed.

Lemma grain_cut g c : 0 < g -> 0 <= c -> (g | Z.quot c g * g) /\ 0 <= Z.quot c g * g <= c /\ (g <= c -> g <= Z.quot c g * g).
Proof.
  intros Hg Hc. rewrite Z.quot_div_nonneg by lia. pose proof (Z.div_mod c g ltac:(lia)).
  pose proof (Z.mod_pos_bound c g ltac:(lia)). assert (0 <= c / g) by (apply Z.div_pos; lia).
  split; [by exists (c / g)|]. split; [nia|].
  intros Hle. assert (1 <= c / g) by (apply Z.div_le_lower_bound; lia). nia.
Qed.

(** The tuned chunk is a whole number of grains, at least one. *)
Lemma tuneChunk_range comm info tuner nMax stepSize chunkSteps sliceSteps c c1 :
  chunkable comm info nMax -> bufferChunk comm info = (stepSize, chunkSteps, sliceSteps, c) -> tunerOk info tuner ->
  let g := ncclProtoGrainSize (ti_protocol info) in g <= c1 ->
  match tuneChunk comm info tuner c c1 with
  | inl e => exists f x, tuner = Some f /\ (f x).1 = e
  | inr chunk => (g | chunk) /\ g <= chunk /\ (c1 <= c -> chunk <= c)
  end.
Proof.
  intros Hch Hbuf Ht g H1. unfold chunkable in Hch. rewrite Hbuf in Hch. destruct Hch as (_ & _ & Hc & Halgo). fold g in Hc, Halgo.
  pose proof (grain_pos (ti_protocol info)) as Hg. fold g in Hg. unfold tuneChunk. fold g.
  set (tuned := match tuner with Some f => _ | None => inr c1 end).
  assert (match tuned with
    | inl e => exists f x, tuner = Some f /\ (f x).1 = e
    | inr c2 => g <= c2 /\ (c1 <= c -> c2 <= c)
    end) as Htuned.
  { unfold tuned. destruct tuner as [f|]; [|done]. specialize (Ht f c1 eq_refl). fold g in Ht. destruct (f c1) as [e c2] eqn:Ef.
    destruct e; try (by exists f, c1; rewrite Ef). cbn [snd] in Ht. destruct (Z.ltb_spec c c2); lia. }
  destruct tuned as [e|c2]; [done|]. destruct Htuned as [H2 H2'].
  set (chunk0 := if (_ && _ && _ && _) then _ else _).
  assert (g <= chunk0 <= c2) as H0.
  { unfold chunk0. destruct (bool_decide (ti_func info = ncclFuncAllGather \/ ti_func info = ncclFuncReduceScatter) && _ && _ && _) eqn:E4; [|lia].
    apply andb_true_iff in E4 as [[[_ E5%bool_decide_eq_true]%andb_true_iff _]%andb_true_iff E6%Z.ltb_lt].
    rewrite E5 in Halgo. specialize (Halgo E6). lia. }
  destruct (grain_cut g chunk0 ltac:(lia) ltac:(lia)) as (G1 & G2 & G3). specialize (G3 (proj1 H0)). split_and!; [done|lia|lia].
Qed.

(** The loops of a pattern cover at least a chunk. *)
Lemma loopShape_pos comm info nMax pattern nChannels chunk ns nc lo :
  chunkable comm info nMax -> collPattern (ti_func info) (ti_algorithm info) = inr pattern ->
  loopShape comm pattern nChannels chunk = inr (ns, nc, lo) -> 0 < nc.
Proof.
  intros Hch Hp El. unfold chunkable in Hch. destruct (bufferChunk comm info) as [[[s cs] ss] c]. destruct Hch as (Hr & _ & _ & Ha).
  destruct (ti_func info), (ti_algorithm info); cbn [collPattern] in Hp; try done; injection Hp as <-; cbn [loopShape] in El;
    injection El as <- <- <-; lia.
Qed.

Lemma chunkProxyOp_returns comm info nMax pattern nChannels nBytes stepSize chunkSteps sliceSteps chunk :
  chunkable comm info nMax -> collPattern (ti_func info) (ti_algorithm info) = inr pattern ->
  1 <= nChannels -> 0 < chunkSteps -> 0 < chunk ->
  exists res, chunkProxyOp comm info pattern nChannels nBytes stepSize chunkSteps sliceSteps chunk = Some res.
Proof.
  intros Hch Hp Hn Hcs Hc. unfold chunkProxyOp.
  destruct (loopShape comm pattern nChannels chunk) as [e|[[ns nc] lo]] eqn:El; [by eexists|].
  pose proof (loopShape_pos comm info nMax pattern nChannels chunk ns nc lo Hch Hp El) as Hnc.
  unfold quotz. rewrite !(proj2 (Z.eqb_neq _ 0)) by nia. cbn [mbind option_bind]. by eexists.
Qed.

Lemma calcCollChunking_returns comm info tuner nMax nChannels nBytes :
  chunkable comm info nMax -> tunerOk info tuner -> 1 <= nChannels <= nMax ->
  exists res, calcCollChunking comm info tuner nChannels nBytes = Some res.
Proof.
  intros Hch Ht Hn. unfold calcCollChunking. destruct (collPattern _ _) as [e|pattern] eqn:Ep; [by eexists|].
  destruct (bufferChunk comm info) as [[[stepSize chunkSteps] sliceSteps] c] eqn:Hbuf.
  destruct (algoChunk_range comm info nMax nChannels nBytes _ _ _ _ Hch Hbuf Hn) as (s & c1 & -> & H1 & _). cbn [mbind option_bind].
  pose proof (tuneChunk_range comm info tuner nMax _ _ _ c c1 Hch Hbuf Ht H1) as Htune. cbn zeta in Htune.
  destruct (tuneChunk comm info tuner c c1) as [e|chunk]; [by eexists|]. pose proof (grain_pos (ti_protocol info)).
  assert (0 < chunkSteps) as Hcs by (unfold chunkable in Hch; rewrite Hbuf in Hch; apply Hch).
  destruct (chunkProxyOp_returns comm info nMax pattern nChannels nBytes s chunkSteps sliceSteps chunk) as (r & ->); try done; try lia.
  by eexists.
Qed.

(** The operation of a call that succeeds, without registered buffers. *)
Lemma calcCollChunking_inr comm info tuner nChannels nBytes stepSize chunkSteps sliceSteps c chunk d op :
  bufferChunk comm info = (stepSize, chunkSteps, sliceSteps, c) -> netReg info = false ->
  calcCollChunking comm info tuner nChannels nBytes = Some (inr (chunk, d, op)) ->
  exists s c1 pattern nstepsPerLoop nchunksPerLoop loopOffset,
    algoChunk comm info nChannels nBytes stepSize chunkSteps c = Some (s, c1) /\ tuneChunk comm info tuner c c1 = inr chunk /\
    collPattern (ti_func info) (ti_algorithm info) = inr pattern /\
    loopShape comm pattern nChannels chunk = inr (nstepsPerLoop, nchunksPerLoop, loopOffset) /\
    po_pattern op = pattern /\ po_chunkSize op = chunk /\ po_chunkSteps op = chunkSteps /\ po_sliceSteps op = sliceSteps /\
    po_sliceSize op = Z.quot chunk chunkSteps * sliceSteps /\
    po_nsteps op = cwrap i32 (nstepsPerLoop * cwrap i32 (DIVUP nBytes (nChannels * nchunksPerLoop * chunk)) * chunkSteps).
Proof.
  intros Hbuf Hreg. unfold calcCollChunking. rewrite Hbuf.
  destruct (collPattern (ti_func info) (ti_algorithm info)) as [e|pattern]; [done|].
  destruct (algoChunk _ _ _ _ _ _ _) as [[s c1]|] eqn:Ea; [|done]. cbn [mbind option_bind].
  destruct (tuneChunk comm info tuner c c1) as [e|ch] eqn:Et; [done|]. unfold chunkProxyOp. rewrite Hreg.
  destruct (loopShape comm pattern nChannels ch) as [e|[[ns nc] lo]] eqn:El; [done|]. unfold quotz.
  destruct (nChannels * nc * ch =? 0); cbn [mbind option_bind]; [done|].
  destruct (chunkSteps =? 0); cbn [mbind option_bind]; [done|].
  destruct (peerHint pattern) as [e|np]; [done|]. intros E. injection E as <- _ <-.
  exists s, c1, pattern, ns, nc, lo. by split_and!.
Qed.

Lemma calcCollChunking_inl comm info tuner nChannels nBytes stepSize chunkSteps sliceSteps c nMax e :
  bufferChunk comm info = (stepSize, chunkSteps, sliceSteps, c) -> netReg info = false ->
  chunkable comm info nMax -> tunerOk info tuner -> 1 <= nChannels <= nMax ->
  calcCollChunking comm info tuner nChannels nBytes = Some (inl e) ->
  e = ncclInternalError \/ exists f x, tuner = Some f /\ (f x).1 = e.
Proof.
  intros Hbuf Hreg Hch Ht Hn. unfold calcCollChunking. rewrite Hbuf.
  destruct (collPattern (ti_func info) (ti_algorithm info)) as [e'|pattern] eqn:Ep.
  { intros [= <-]. left. destruct (ti_func info); simpl in Ep; congruence. }
  destruct (algoChunk_range comm info nMax nChannels nBytes _ _ _ _ Hch Hbuf Hn) as (s & c1 & -> & H1 & _). cbn [mbind option_bind].
  pose proof (tuneChunk_range comm info tuner nMax _ _ _ c c1 Hch Hbuf Ht H1) as Htune. cbn zeta in Htune.
  destruct (tuneChunk comm info tuner c c1) as [e'|ch]; [intros [= <-]; by right|]. unfold chunkProxyOp. rewrite Hreg.
  destruct (loopShape comm pattern nChannels ch) as [e'|[[ns nc] lo]] eqn:El.
  { cbn [mbind option_bind]. intros [= <-]. left. destruct pattern; simpl in El; congruence. }
  unfold quotz. destruct (nChannels * nc * ch =? 0); cbn [mbind option_bind]; [done|].
  destruct (chunkSteps =? 0); cbn [mbind option_bind]; [done|].
  destruct (peerHint pattern) as [e'|np] eqn:Eh; [|done]. intros [= <-]. left. destruct pattern; simpl in Eh; congruence.
Qed.


(** A tuner that asks for less than a grain makes the size of a loop 0, and the
    number of loops is computed by a division by it. *)
Lemma tuner_below_grain_traps comm info f nChannels nBytes stepSize chunkSteps sliceSteps c :
  bufferChunk comm info = (stepSize, chunkSteps, sliceSteps, c) -> ti_algorithm info = NCCL_ALGO_RING ->
  collPattern (ti_func info) (ti_algorithm info) <> inl ncclInternalError ->
  (f c).1 = ncclSuccess -> 0 <= (f c).2 < ncclProtoGrainSize (ti_protocol info) -> (f c).2 <= c ->
  calcCollChunking comm info (Some f) nChannels nBytes = None.
Proof.
  intros Hbuf Ha Hp Hs Hg Hc. unfold calcCollChunking. rewrite Hbuf.
  destruct (collPattern (ti_func info) (ti_algorithm info)) as [e|pattern] eqn:Ep.
  { destruct (ti_func info); simpl in Ep, Hp; congruence. }
  unfold algoChunk. rewrite Ha in *. cbn [mbind option_bind].
  unfold tuneChunk. destruct (f c) as [e x]. cbn [fst snd] in *. subst e. rewrite Ha, (proj2 (Z.ltb_ge c x)) by lia.
  rewrite (bool_decide_eq_false_2 (NCCL_ALGO_RING = NCCL_ALGO_PAT)), andb_false_r by done. cbn [andb].
  rewrite Z.quot_small, Z.mul_0_l by lia. unfold chunkProxyOp.
  destruct (loopShape comm pattern nChannels 0) as [e|[[ns nc] lo]] eqn:El.
  { destruct (ti_func info); cbn [collPattern] in Ep; try done; injection Ep as <-; done. }
  rewrite Z.mul_0_r. done.
Qed.

(** ** An example *)

(** A communicator of three ranks whose Simple buffers have steps of 512 bytes. *)
Definition chunkComm : commInfo := {|
  buffSizes := fun _ => 4096; ci_nRanks := 3; ci_nNodes := 3; directHeads := 0; directDepth := 0; directHeadRank := 0;
  chainDepth := 0; nvlsHeads := 0; nvlsHeadRank := 0; nvlsChunkSize := 0; nvlsTreeMaxChunkSize := 0;
  isOneRPN := true; slowNvls := false; ll128Below := fun _ _ => false |}.

Definition chunkTask : collInfo := {|
  ti_func := ncclFuncAllReduce; ti_algorithm := NCCL_ALGO_RING; ti_protocol := NCCL_PROTO_SIMPLE;
  ti_chunkSteps := 4; ti_sliceSteps := 2; nvlsReg := false; netReg := false |}.

