(* ===== verification/ProxySave.v ===== *)
(** * The operations of the proxy (src/src/proxy.cc, ncclProxySaveOp)

    For each operation of a channel the host decides which connections of the rank
    need the proxy thread and hands it one copy of the operation for each.  The
    theorem composes this with the chunking (Chunking) and the ring kernels: the
    connections are the ones the kernel uses, with as many steps as the kernel
    takes.  The PAT patterns, which run the PAT algorithm to count its steps, are
    not modelled. *)

From stdpp Require Import base numbers list sets.
From Stdlib Require Import ZArith Lia.
From S2P Require Import Prelude Bitops Prims Net DevWork Loops RingNet PhaseNet RingColl RingAllReduce RingGather RingChain.
From S2P Require Import ProxyRing Chunking.

Local Open Scope Z_scope.

(* src/src/proxy.cc:28-31 proxyRecv, proxySend *)
Inductive proxyType := proxyRecv | proxySend.

(* src/src/proxy.cc:34-47 NeedProxy *)
Definition NeedProxy (type : proxyType) (pattern : ncclPattern_t) (root : Z) (userRanks : nat -> Z) (nranks : nat) : bool :=
  match pattern with
  | ncclPatternRing | ncclPatternRingTwice => true
  | _ =>
      let myrank := 0%nat in let nextrank := 1%nat in let prevrank := (nranks - 1)%nat in
      let index :=
        match pattern with
        | ncclPatternPipelineFrom => match type with proxyRecv => myrank | proxySend => nextrank end
        | _ => match type with proxyRecv => prevrank | proxySend => myrank end
        end in
      negb (root =? userRanks index)
  end.

(** The channel: the peers of its rings and trees, and its connectors.
    [pc_conn type peer connIndex] is [None] if the connector has no transport,
    and says otherwise whether the transport has a proxy. *)
Record proxyChannel := {
  pc_ringPrev : Z;
  pc_ringNext : Z;
  pc_userRanks : nat -> Z;
  pc_treeUp : Z;
  pc_treeDown : list Z;
  pc_chainUp : Z;
  pc_directOut : Z;
  pc_nvlsOut : Z;
  pc_nvlsTreeUp : Z;
  pc_nvlsTreeDown : list Z;
  pc_conn : proxyType -> Z -> Z -> option bool }.

(** What is read of the operation; the slices are those of an AllGatherV. *)
Record saveOp := {
  so_pattern : ncclPattern_t;
  so_coll : ncclFunc_t;
  so_root : Z;
  so_nsteps : Z;
  so_recvSlices : Z;
  so_sendSlices : Z }.

(** An operation for one connection, as [ncclLocalOpAppend] is given it. *)
Record savedOp := { sv_type : proxyType; sv_peer : Z; sv_connIndex : Z; sv_nsteps : Z }.

(** The answer to an inquiry, and the operations appended so far. *)
Record saveState := { justInquire : option bool; appended : list savedOp }.

(* src/src/proxy.cc:580-603 SaveProxy *)
Definition SaveProxy (ch : proxyChannel) (o : savedOp) (st : saveState) : ncclResult_t * saveState :=
  if sv_peer o <? 0 then (ncclSuccess, st)
  else match pc_conn ch (sv_type o) (sv_peer o) (sv_connIndex o) with
       | None => (ncclInternalError, st)
       | Some false => (ncclSuccess, st)
       | Some true =>
           (ncclSuccess,
            match justInquire st with
            | Some _ => {| justInquire := Some true; appended := appended st |}
            | None => {| justInquire := None; appended := appended st ++ [o] |}
            end)
       end.

(** A sequence of calls, up to the first that fails. *)
Fixpoint saveAll (ch : proxyChannel) (ops : list savedOp) (st : saveState) : ncclResult_t * saveState :=
  match ops with
  | [] => (ncclSuccess, st)
  | o :: ops => match SaveProxy ch o st with
                | (ncclSuccess, st) => saveAll ch ops st
                | (err, st) => (err, st)
                end
  end.

Definition proxyCall (nsteps : Z) (type : proxyType) (peer connIndex : Z) : savedOp :=
  {| sv_type := type; sv_peer := peer; sv_connIndex := connIndex; sv_nsteps := nsteps |}.

(** The calls of the ring patterns; an AllGatherV has steps of its own in each
    direction, and none if it has no slices there. *)
(* src/src/proxy.cc:624-643 ncclProxySaveOp *)
Definition ringCalls (ch : proxyChannel) (nranks : nat) (o : saveOp) : list savedOp :=
  let gatherV := bool_decide (so_coll o = ncclFuncAllGatherV /\ so_pattern o = ncclPatternRing) in
  let call type peer slices :=
    let nsteps := if gatherV then slices else so_nsteps o in
    let needProxy := NeedProxy type (so_pattern o) (so_root o) (pc_userRanks ch) nranks in
    let needProxy := if gatherV && (nsteps =? 0) then false else needProxy in
    if needProxy then [proxyCall nsteps type peer 0] else [] in
  call proxyRecv (pc_ringPrev ch) (so_recvSlices o) ++ call proxySend (pc_ringNext ch) (so_sendSlices o).

(* src/src/proxy.cc:645-665 ncclProxySaveOp *)
Definition treeCalls (ch : proxyChannel) (o : saveOp) : list savedOp :=
  let call := proxyCall (so_nsteps o) in
  (match so_pattern o with
   | ncclPatternTreeDown => []
   | _ => map (fun p => call proxyRecv p 0) (pc_treeDown ch) ++ [call proxySend (pc_treeUp ch) 0]
   end) ++
  (match so_pattern o with
   | ncclPatternTreeUp => []
   | _ => map (fun p => call proxySend p 0) (pc_treeDown ch) ++ [call proxyRecv (pc_treeUp ch) 0]
   end).

(** [None] for the PAT patterns, and for tree arrays that are too short. *)
(* src/src/proxy.cc:618-694 ncclProxySaveOp *)
Definition ncclProxySaveOp (ch : proxyChannel) (rank : Z) (nranks : nat) (o : saveOp) (inquire : bool)
    : option (ncclResult_t * saveState) :=
  let st := {| justInquire := if inquire then Some false else None; appended := [] |} in
  let call := proxyCall (so_nsteps o) in
  match so_pattern o with
  | ncclPatternRing | ncclPatternRingTwice | ncclPatternPipelineFrom | ncclPatternPipelineTo =>
      Some (saveAll ch (ringCalls ch nranks o) st)
  | ncclPatternTreeUp | ncclPatternTreeDown | ncclPatternTreeUpDown => Some (saveAll ch (treeCalls ch o) st)
  | ncclPatternCollnetChain => Some (saveAll ch [call proxySend (pc_chainUp ch) 1; call proxyRecv (pc_chainUp ch) 0] st)
  | ncclPatternCollnetDirect => Some (saveAll ch [call proxySend (pc_directOut ch) 1; call proxyRecv (pc_directOut ch) 0] st)
  | ncclPatternNvls => Some (saveAll ch [call proxySend (pc_nvlsOut ch) 1; call proxyRecv (pc_nvlsOut ch) 0] st)
  | ncclPatternNvlsTree =>
      d1 ← pc_nvlsTreeDown ch !! 1%nat; d2 ← pc_nvlsTreeDown ch !! 2%nat;
      Some (saveAll ch [call proxyRecv d1 0; call proxyRecv d2 0; call proxySend (pc_nvlsTreeUp ch) 0;
                        call proxySend d1 0; call proxySend d2 0; call proxyRecv (pc_nvlsTreeUp ch) 0] st)
  | ncclPatternSend | ncclPatternRecv =>
      Some (if so_root o =? rank then (ncclSuccess, st)
            else saveAll ch [call (match so_pattern o with ncclPatternSend => proxySend | _ => proxyRecv end) (so_root o) 1] st)
  | ncclPatternPatUp | ncclPatternPatDown => None
  end.

(** ** The steps of the ring kernels *)

Section kernel.
Context {T : Type} (r : ringRun T) (rankAt : nat -> Z) (total : Z) (t : nat).

Local Abbreviation n := (rr_n r).
Local Abbreviation K := (loopSlices (ringPrims r 0) (rr_count r) (rr_chunk r)).

(** The ring kernel of a collective; the root is at position [t]. *)
Definition ringKernel (func : ncclFunc_t) : nat -> list sliceOp :=
  match func with
  | ncclFuncAllReduce => arProg r rankAt total
  | ncclFuncAllGather => agProg r rankAt total
  | ncclFuncReduceScatter => rsProg r rankAt total
  | ncclFuncBroadcast => bcProg r rankAt total t
  | ncclFuncReduce => rdProg r rankAt total t
  | _ => fun _ => []
  end.

(** The slices a rank sends to the next rank and receives from the previous one. *)
Definition slicesSent (func : ncclFunc_t) (i : nat) : nat :=
  let P := ringKernel func in sends P i (nextPos n i) (length (P i)).
Definition slicesReceived (func : ncclFunc_t) (i : nat) : nat :=
  let P := ringKernel func in recvs P i (prevPos n i) (length (P i)).

Context (Hok : ringRunOk r) (Ht : (t < n)%nat).
Context (Hranks : forall i j, (i < n)%nat -> (j < n)%nat -> rankAt i = rankAt j -> i = j).

(** A kernel of one phase takes all of its slices or none. *)
Lemma phase_cnt (f : sliceOp -> bool) x len φ b k :
  (forall s, f (phaseSlice x len φ s) = b) ->
  cnt f (map (phaseSlice x len φ) (seq 0 k)) (length (map (phaseSlice x len φ) (seq 0 k))) = if b then k else 0%nat.
Proof.
  intros Hf. unfold cnt. rewrite take_ge by done. generalize 0%nat at 1.
  induction k as [|k IH]; intros s; cbn [seq map List.filter]; [by destruct b|].
  rewrite Hf. specialize (IH (S s)). destruct b; simpl; lia.
Qed.

Lemma isIn_one p : isIn p [p] = true.
Proof. unfold isIn. simpl. by rewrite Nat.eqb_refl. Qed.

Lemma bc_steps i : (i < n)%nat ->
  slicesSent ncclFuncBroadcast i = (if (nextPos n i =? t)%nat then 0 else K)%nat /\
  slicesReceived ncclFuncBroadcast i = (if (i =? t)%nat then 0 else K)%nat.
Proof.
  intros Hi. unfold slicesSent, slicesReceived, sends, recvs. cbn [ringKernel].
  rewrite (bcProg_eq r rankAt total t Hok Ht Hranks i). unfold phaseProg, bcPhases.
  rewrite (proj2 (Nat.ltb_lt i n) Hi). cbn [flat_map]. rewrite app_nil_r.
  rewrite (phase_cnt (fun o => isIn (nextPos n i) (sendTo o)) _ _ _ (negb (nextPos n i =? t)%nat)),
    (phase_cnt (fun o => isIn (prevPos n i) (recvFrom o)) _ _ _ (negb (i =? t)%nat)).
  - by destruct (nextPos n i =? t)%nat, (i =? t)%nat.
  - intros s. cbn [phaseSlice recvFrom]. unfold bcPhase. destruct (i =? t)%nat; [done|apply isIn_one].
  - intros s. cbn [phaseSlice sendTo]. unfold bcPhase. destruct (Nat.eqb_spec i t) as [->|Hit]; cbn [phaseOf phSend ringPrims sendPeers].
    + rewrite isIn_one. symmetry. apply negb_true_iff, Nat.eqb_neq. intros E. apply (prev_ne r t Hok Ht t Ht).
      rewrite <- E at 1. by apply prev_next.
    + destruct (nextPos n i =? t)%nat; [done|apply isIn_one].
Qed.

Lemma rd_steps i : (i < n)%nat ->
  slicesSent ncclFuncReduce i = (if (i =? t)%nat then 0 else K)%nat /\
  slicesReceived ncclFuncReduce i = (if (prevPos n i =? t)%nat then 0 else K)%nat.
Proof.
  intros Hi. unfold slicesSent, slicesReceived, sends, recvs. cbn [ringKernel].
  rewrite (rdProg_eq r rankAt total t Hok Ht Hranks i). unfold phaseProg, rdPhases.
  rewrite (proj2 (Nat.ltb_lt i n) Hi). cbn [flat_map]. rewrite app_nil_r.
  rewrite (phase_cnt (fun o => isIn (nextPos n i) (sendTo o)) _ _ _ (negb (i =? t)%nat)),
    (phase_cnt (fun o => isIn (prevPos n i) (recvFrom o)) _ _ _ (negb (prevPos n i =? t)%nat)).
  - by destruct (prevPos n i =? t)%nat, (i =? t)%nat.
  - intros s. cbn [phaseSlice recvFrom rdPhase phaseOf phRecv]. destruct (prevPos n i =? t)%nat; [done|apply isIn_one].
  - intros s. cbn [phaseSlice sendTo rdPhase phaseOf phSend]. destruct (i =? t)%nat; [done|apply isIn_one].
Qed.
End kernel.

(** The number of loops of a kernel whose loops cover [stride] elements. *)
Lemma DIVUP_loops e count stride :
  0 < e -> 0 <= count -> 0 < stride -> DIVUP (e * count) (e * stride) = Z.of_nat (loopFuel count stride).
Proof.
  intros He Hc Hs. unfold DIVUP, loopFuel. rewrite Z.quot_div_nonneg by nia.
  assert (0 <= (count + stride - 1) / stride) by (apply Z.div_pos; lia). rewrite Z2Nat.id by done.
  pose proof (Z.div_mod (count + stride - 1) stride ltac:(lia)). pose proof (Z.mod_pos_bound (count + stride - 1) stride ltac:(lia)).
  set (q := (count + stride - 1) / stride) in *. symmetry.
  apply (Z.div_unique_pos _ _ _ (e * count + e * stride - 1 - e * stride * q)); nia.
Qed.

(** The steps a ring kernel takes on a connection it uses. *)
Definition ringSteps {T} (r : ringRun T) (func : ncclFunc_t) : Z :=
  let n := Z.of_nat (rr_n r) in
  let perLoop :=
    match func with
    | ncclFuncAllReduce => 2 * (n - 1)
    | ncclFuncAllGather | ncclFuncReduceScatter => n - 1
    | _ => 1
    end in
  let stride := match func with ncclFuncAllReduce => n * rr_chunk r | _ => rr_chunk r end in
  perLoop * Z.of_nat (loopFuel (rr_count r) stride) * (Z.of_nat (rr_SPC r) * rr_SPS r).

(** The operation [calcCollChunking] makes for the channel of the run [r]: a ring
    with the Simple protocol whose chunk is that of the run, and whose steps fit
    the [int] that holds them. *)
Definition ringChunked {T} (r : ringRun T) (comm : commInfo) (info : collInfo) (op : proxyOp) : Prop :=
  exists tuner stepSize c chunk d,
    ti_algorithm info = NCCL_ALGO_RING /\ netReg info = false /\ ci_nRanks comm = Z.of_nat (rr_n r) /\
    bufferChunk comm info = (stepSize, Z.of_nat (rr_SPC r) * rr_SPS r, rr_SPS r, c) /\
    calcCollChunking comm info tuner 1
      (rr_elt r * ncclFuncMaxSendRecvCount (ti_func info) (ci_nRanks comm) 1 * rr_count r) = Some (inr (chunk, d, op)) /\
    chunk = rr_chunk r * rr_elt r /\ ringSteps r (ti_func info) < 2 ^ 31.

(** The [int] products of the steps are exact. *)
Lemma nsteps_eq k a b perLoop count stride chunkSteps :
  a = k * count -> b = k * stride -> 0 < k -> 0 <= count -> 0 < stride -> 0 < perLoop -> 0 < chunkSteps ->
  perLoop * Z.of_nat (loopFuel count stride) * chunkSteps < 2 ^ 31 ->
  cwrap i32 (perLoop * cwrap i32 (DIVUP a b) * chunkSteps) = perLoop * Z.of_nat (loopFuel count stride) * chunkSteps.
Proof.
  intros -> -> Hk Hc Hs Hp Hcs Hm. rewrite DIVUP_loops by lia. set (L := Z.of_nat (loopFuel count stride)) in *.
  assert (0 <= L) by lia. assert (L <= perLoop * L <= perLoop * L * chunkSteps) by nia.
  rewrite (cwrap_fits i32 L) by (done || fits_lia). apply cwrap_fits; [done|fits_lia].
Qed.

(** The pattern and the steps of the operation. *)
Definition ringPattern (func : ncclFunc_t) : ncclPattern_t :=
  match func with
  | ncclFuncAllReduce => ncclPatternRingTwice
  | ncclFuncBroadcast => ncclPatternPipelineFrom
  | ncclFuncReduce => ncclPatternPipelineTo
  | _ => ncclPatternRing
  end.

Lemma ringChunked_steps {T} (r : ringRun T) comm info op :
  ringRunOk r -> ringChunked r comm info op -> po_pattern op = ringPattern (ti_func info) /\ po_nsteps op = ringSteps r (ti_func info).
Proof.
  intros Hok (tuner & stepSize & c & chunk & d & Ha & Hreg & Hn & Hbuf & Hcalc & Echunk & Hcount).
  pose proof Hok as (Hn2 & HSPC & HSPS & _ & _ & _ & Hcnt & Hch & _). pose proof (elt_pos r Hok) as HE.
  destruct (calcCollChunking_inr _ _ _ _ _ _ _ _ _ _ _ _ Hbuf Hreg Hcalc)
    as (_ & _ & pattern & ns & nc & lo & _ & _ & Ep & El & Epat & _ & _ & _ & _ & Esteps).
  rewrite Ha, Hn, Echunk in *. rewrite Epat, Esteps. clear Hcalc. unfold ringSteps in *.
  destruct (ti_func info); try done; cbn [collPattern] in Ep; injection Ep as <-; cbn [loopShape] in El;
    injection El as <- <- _; rewrite ?Hn; (split; [done|]).
  1, 2, 5: apply (nsteps_eq (rr_elt r)); [change (ncclFuncMaxSendRecvCount _ _ 1) with 1; ring|ring|nia..].
  all: apply (nsteps_eq (rr_elt r * Z.of_nat (rr_n r))); [change (ncclFuncMaxSendRecvCount _ ?n 1) with (n * 1); ring|ring|nia..].
Qed.

(** ** What is saved *)

Definition connected (ch : proxyChannel) (o : savedOp) : bool :=
  match pc_conn ch (sv_type o) (sv_peer o) (sv_connIndex o) with Some _ => true | None => false end.
Definition proxied (ch : proxyChannel) (o : savedOp) : bool :=
  match pc_conn ch (sv_type o) (sv_peer o) (sv_connIndex o) with Some b => b | None => false end.

(** The calls append the operations of the connections with a proxy, or tell
    whether there is one, or fail at a connection without a transport. *)
Lemma saveAll_spec ch ops st :
  Forall (fun o => 0 <= sv_peer o) ops ->
  if forallb (connected ch) ops
  then saveAll ch ops st = (ncclSuccess,
    match justInquire st with
    | None => {| justInquire := None; appended := appended st ++ List.filter (proxied ch) ops |}
    | Some b => {| justInquire := Some (b || existsb (proxied ch) ops); appended := appended st |}
    end)
  else fst (saveAll ch ops st) = ncclInternalError.
Proof.
  intros HF. revert st. induction HF as [|o ops Ho HF IH]; intros st; cbn [forallb saveAll List.filter existsb].
  { destruct st as [[b|] l]; cbn; by rewrite ?orb_false_r, ?app_nil_r. }
  unfold SaveProxy, connected at 1, proxied at 1 3. rewrite (proj2 (Z.ltb_ge (sv_peer o) 0)) by lia.
  destruct (pc_conn ch (sv_type o) (sv_peer o) (sv_connIndex o)) as [[]|]; cbn [andb]; [| |done].
  - destruct (justInquire st) as [b|] eqn:Ej.
    + specialize (IH {| justInquire := Some true; appended := appended st |}).
      destruct (forallb (connected ch) ops); [|done]. rewrite IH. cbn [justInquire appended orb]. by rewrite orb_true_r.
    + specialize (IH {| justInquire := None; appended := appended st ++ [o] |}).
      destruct (forallb (connected ch) ops); [|done]. rewrite IH. cbn [justInquire appended]. by rewrite <- app_assoc.
  - specialize (IH st). destruct (forallb (connected ch) ops); [|done]. by rewrite IH.
Qed.

Section saved.
Context {T : Type} (r : ringRun T) (rankAt : nat -> Z) (total : Z) (t : nat).
Context (comm : commInfo) (info : collInfo) (op : proxyOp) (ch : proxyChannel) (i : nat).

Local Abbreviation n := (rr_n r).
Local Abbreviation sent := (slicesSent r rankAt total t (ti_func info) i).
Local Abbreviation received := (slicesReceived r rankAt total t (ti_func info) i).

(** The ring of the channel, seen from position [i]. *)
Definition ringChannel : Prop :=
  pc_ringPrev ch = rankAt (prevPos n i) /\ pc_ringNext ch = rankAt (nextPos n i) /\
  forall k, pc_userRanks ch k = rankAt ((i + k) mod n)%nat.

(** The connections the kernel of rank [i] uses, with the steps it takes. *)
Definition kernelOps : list savedOp :=
  (if (received =? 0)%nat then []
   else [proxyCall (rr_SPS r * Z.of_nat received) proxyRecv (rankAt (prevPos n i)) 0]) ++
  (if (sent =? 0)%nat then []
   else [proxyCall (rr_SPS r * Z.of_nat sent) proxySend (rankAt (nextPos n i)) 0]).

Definition saveArg (recvSlices sendSlices : Z) : saveOp := {|
  so_pattern := po_pattern op; so_coll := ti_func info; so_root := rankAt t; so_nsteps := po_nsteps op;
  so_recvSlices := recvSlices; so_sendSlices := sendSlices |}.

Context (Hok : ringRunOk r) (Ht : (t < n)%nat) (Hi : (i < n)%nat) (Hcount : 0 < rr_count r).
Context (Hranks : forall i j, (i < n)%nat -> (j < n)%nat -> rankAt i = rankAt j -> i = j).
Context (Hch : ringChannel) (Hop : ringChunked r comm info op).

Lemma loops_pos stride : 0 < stride -> (0 < loopFuel (rr_count r) stride)%nat.
Proof.
  intros Hs. unfold loopFuel. assert (1 <= (rr_count r + stride - 1) / stride) by (apply Z.div_le_lower_bound; lia). lia.
Qed.

Lemma ranks_eqb j k : (j < n)%nat -> (k < n)%nat -> (rankAt j =? rankAt k) = (j =? k)%nat.
Proof. apply rank_eqb; done. Qed.

Lemma one_call (b : bool) nsteps (s : nat) type peer :
  (if b then (0 < s)%nat /\ nsteps = rr_SPS r * Z.of_nat s else s = 0%nat) ->
  (if b then [proxyCall nsteps type peer 0] else []) =
  (if (s =? 0)%nat then [] else [proxyCall (rr_SPS r * Z.of_nat s) type peer 0]).
Proof. destruct b; [intros [H ->]; by destruct s; [lia|]|by intros ->]. Qed.

Ltac block_calls H :=
  let E3 := fresh in let E4 := fresh in destruct H as [E3 E4];
  unfold slicesSent, slicesReceived; cbn [ringKernel]; rewrite E3, E4; f_equal; apply (one_call true);
  (split; [nia|]); rewrite !Nat2Z.inj_mul, !Nat2Z.inj_sub by lia; lia.

Lemma ringCalls_kernel a b :
  In (ti_func info) [ncclFuncAllReduce; ncclFuncAllGather; ncclFuncReduceScatter; ncclFuncBroadcast; ncclFuncReduce] ->
  ringCalls ch n (saveArg a b) = kernelOps.
Proof.
  intros Hf. pose proof (ringChunked_steps r comm info op Hok Hop) as Hsteps.
  pose proof Hok as (Hn2 & HSPC & HSPS & _ & _ & _ & _ & Hchunk & _). destruct Hch as (Ep & En & Eu).
  pose proof (loops_pos _ Hchunk) as HL. pose proof (loops_pos (Z.of_nat n * rr_chunk r) ltac:(nia)) as HL2.
  pose proof (nextPos_lt n i ltac:(lia)) as Hnx. pose proof (prevPos_lt n i ltac:(lia)) as Hpv.
  assert (pc_userRanks ch 0 = rankAt i) as E0 by (rewrite Eu, Nat.add_0_r, Nat.mod_small; done).
  assert (pc_userRanks ch 1 = rankAt (nextPos n i)) as E1 by (by rewrite Eu).
  assert (pc_userRanks ch (n - 1) = rankAt (prevPos n i)) as E2 by (rewrite Eu; unfold prevPos; do 2 f_equal; lia).
  unfold ringCalls, kernelOps, saveArg. cbn [so_coll so_pattern so_nsteps so_root so_recvSlices so_sendSlices]. rewrite Ep, En.
  rewrite bool_decide_eq_false_2 by (destruct Hf as [<-|[<-|[<-|[<-|[<-|[]]]]]]; intuition discriminate). cbn [andb].
  destruct Hf as [Ef|[Ef|[Ef|[Ef|[Ef|[]]]]]]; rewrite <- Ef in *; destruct Hsteps as [-> Es]; unfold ringSteps in Es; cbn [ringPattern NeedProxy]; rewrite ?E0, ?E1, ?E2, ?ranks_eqb by done.
  - block_calls (block_steps _ _ _ _ _ _ (arProg_eq r Hok rankAt total) HSPC ltac:(lia) (ar_peers r) i Hi).
  - block_calls (block_steps _ _ _ _ _ _ (agProg_eq r Hok rankAt total) HSPC Hn2 (ag_peers r rankAt total) i Hi).
  - block_calls (block_steps _ _ _ _ _ _ (rsProg_eq r Hok rankAt total) HSPC Hn2 (fun _ _ _ _ _ _ => conj eq_refl eq_refl) i Hi).
  - destruct (bc_steps r rankAt total t Hok Ht Hranks i Hi) as [-> ->]. rewrite !(Nat.eqb_sym t).
    unfold loopSlices. cbn [ringPrims SlicePerChunk].
    f_equal; apply one_call; destruct (_ =? t)%nat; cbn [negb]; done || nia.
  - destruct (rd_steps r rankAt total t Hok Ht Hranks i Hi) as [-> ->]. rewrite !(Nat.eqb_sym t).
    unfold loopSlices. cbn [ringPrims SlicePerChunk].
    f_equal; apply one_call; destruct (_ =? t)%nat; cbn [negb]; done || nia.
Qed.
End saved.

(** C18: The proxy does what the kernel does.  For each of the five collectives on
    a ring with the Simple protocol, [ncclProxySaveOp] hands the proxy exactly the
    connections the kernel of that rank uses (the root of a Broadcast receives
    nothing, the rank before it sends nothing, and the like), among those whose
    transport has a proxy, each with exactly the number of steps the kernel takes
    on it: [SPS] for every slice, over all loops with their uneven end, as long as
    that number fits the [int] that holds it.  An inquiry
    changes nothing and tells whether there is one.  If a connection the kernel
    uses has no transport, and only then, it fails with an internal error. *)
Theorem ncclProxySaveOp_ring {T} (r : ringRun T) rankAt total t comm info op ch i rank a b inquire :
  ringRunOk r -> (t < rr_n r)%nat -> (i < rr_n r)%nat -> 0 < rr_count r ->
  (forall j k, (j < rr_n r)%nat -> (k < rr_n r)%nat -> rankAt j = rankAt k -> j = k) -> (forall j, 0 <= rankAt j) ->
  In (ti_func info) [ncclFuncAllReduce; ncclFuncAllGather; ncclFuncReduceScatter; ncclFuncBroadcast; ncclFuncReduce] ->
  ringChannel r rankAt ch i -> ringChunked r comm info op ->
  let used := kernelOps r rankAt total t info i in
  exists err st, ncclProxySaveOp ch rank (rr_n r) (saveArg rankAt t info op a b) inquire = Some (err, st) /\
    if forallb (connected ch) used
    then err = ncclSuccess /\
      (inquire = false -> appended st = List.filter (proxied ch) used) /\
      (inquire = true -> appended st = [] /\ justInquire st = Some (existsb (proxied ch) used))
    else err = ncclInternalError.
Proof.
  intros Hok Ht Hi Hc Hranks Hpos Hf Hch Hop. cbn zeta.
  pose proof (ringCalls_kernel r rankAt total t comm info op ch i Hok Ht Hi Hc Hranks Hch Hop a b Hf) as E.
  assert (exists st0, ncclProxySaveOp ch rank (rr_n r) (saveArg rankAt t info op a b) inquire =
    Some (saveAll ch (kernelOps r rankAt total t info i) {| justInquire := if inquire then Some false else st0; appended := [] |}) /\ st0 = None)
    as (st0 & -> & ->).
  { exists None. split; [|done]. rewrite <- E. unfold ncclProxySaveOp. pose proof (ringChunked_steps r comm info op Hok Hop) as Hs.
    cbn [saveArg so_pattern]. destruct Hf as [Ef|[Ef|[Ef|[Ef|[Ef|[]]]]]]; rewrite <- Ef in Hs; by rewrite (proj1 Hs). }
  set (used := kernelOps r rankAt total t info i). set (st := Build_saveState _ _).
  assert (Forall (fun o => 0 <= sv_peer o) used) as HF.
  { unfold used, kernelOps. apply Forall_app. split; destruct (_ =? 0)%nat; constructor; try constructor; apply Hpos. }
  pose proof (saveAll_spec ch used st HF) as Hs. destruct (saveAll ch used st) as [err st'] eqn:Es. exists err, st'. split; [done|].
  destruct (forallb (connected ch) used); [|done]. injection Hs as -> ->. destruct inquire; (split; [done|]; by split).
Qed.

(** Three ranks; the collective of each of the five functions has steps of 512 bytes. *)
Definition chunkRun : ringRun Z := {|
  rr_fn := RedFn id Z.add id; rr_n := 3; rr_grid := 0; rr_count := 4000;
  rr_chunk := 512; rr_elt := 4; rr_in := fun _ => 0; rr_out := fun _ => 4096; rr_step := 128; rr_SPC := 2; rr_SPS := 2;
  rr_mem := fun i a => a |}.

Definition reduceTask : collInfo := {|
  ti_func := ncclFuncReduce; ti_algorithm := NCCL_ALGO_RING; ti_protocol := NCCL_PROTO_SIMPLE;
  ti_chunkSteps := 4; ti_sliceSteps := 2; nvlsReg := false; netReg := false |}.

Definition reduceOp1 : proxyOp := {|
  po_pattern := ncclPatternPipelineTo; po_nsteps := 32; po_sliceSteps := 2; po_chunkSteps := 4; po_chunkSize := 2048;
  po_sliceSize := 1024; po_loopSize := 2048; po_loopOffset := 0; po_nbytes := 1024; po_reg := false; po_nPeers := 1 |}.

Definition reduceChannel : proxyChannel := {|
  pc_ringPrev := 0; pc_ringNext := 2; pc_userRanks := fun k => Z.of_nat ((1 + k) mod 3); pc_treeUp := -1; pc_treeDown := [];
  pc_chainUp := -1; pc_directOut := -1; pc_nvlsOut := -1; pc_nvlsTreeUp := -1; pc_nvlsTreeDown := [];
  pc_conn := fun _ _ _ => Some true |}.

(** The rank after the root only sends. *)
Lemma ncclProxySaveOp_ring_witness :
  exists st, ncclProxySaveOp reduceChannel 1 3 (saveArg Z.of_nat 0 reduceTask reduceOp1 0 0) false = Some (ncclSuccess, st) /\
    appended st = [proxyCall 32 proxySend 2 0].
Proof.
  destruct (ncclProxySaveOp_ring chunkRun Z.of_nat 4000 0 chunkComm reduceTask reduceOp1 reduceChannel 1 1 0 0 false) as (err & st & E & H).
  - ring_run_ok.
  - simpl; lia.
  - simpl; lia.
  - simpl; lia.
  - intros; lia.
  - intros; lia.
  - by right; right; right; right; left.
  - by split_and!.
  - exists None, 512, 2048, 2048, false. split_and!; try done.
  - exists st. assert (kernelOps chunkRun Z.of_nat 4000 0 reduceTask 1 = [proxyCall 32 proxySend 2 0]) as Ek by (vm_compute; reflexivity).
    rewrite Ek in H. destruct H as (-> & H & _). split; [exact E|]. exact (H eq_refl).
Defined.
