(* ===== verification/ProxyUpload.v ===== *)
(** * The proxy operations of a plan (src/src/enqueue/enqueue.cc)

    While a plan is built, the operations for the proxy are queued by channel, with
    numbers that start at zero in each plan; the lowest bit tells point-to-point
    operations from collectives.  [finishPlan] merges the queues into one, by number and
    with the collectives first.  [uploadProxyOps] runs for every launch of the plan: it
    translates the numbers to the history of the communicator, hands the operations to
    the proxy and advances the history.

    The proxy takes operations with one number on one connection for parts of the same
    one.  This file shows that the merge keeps the order of each channel, and that
    operations of two launches never get the same number on a channel, though the code
    looks only at the last operation of a channel to advance its history.  The history
    is not advanced when an upload fails, and a later launch would use the numbers
    again ([failed_launch_reuses_numbers]).

    [ncclProxySaveOp] (ProxySave) is a parameter that may fail at any operation;
    profiling is not modelled. *)

From stdpp Require Import base numbers list.
From Stdlib Require Import ZArith Lia Sorted.
From S2P Require Import Prelude Bitops.

Local Open Scope Z_scope.

(** ** Data *)

(* src/src/include/device.h:93-93 MAXCHANNELS *)
Definition MAXCHANNELS : nat := 64.

(** The fields used here; [opData] stands for the others. *)
(* src/src/include/proxy.h:72-116 ncclProxyOp *)
Record ncclProxyOp := {
  opCount : Z;
  channelId : Z;
  opData : Z }.

(** The part of [ncclSharedResources] with the history: *)
Record sharedRes := {
  collOpCount : Z;
  p2pOpCount : list Z }.

(** ** finishPlan *)

(** The number of the first operation of a queue *)
(* src/src/enqueue/enqueue.cc:301-302 finishPlan *)
Definition headId (q : list ncclProxyOp) : Z :=
  match q with
  | op :: _ => opCount op
  | [] => wrap64 (-1)
  end.

(** The tag bit moved to the top *)
(* src/src/enqueue/enqueue.cc:331-331 finishPlan *)
Definition rotId (id : Z) : Z := Z.lor (Z.shiftr id 1) (wrap64 (Z.shiftl id 63)).

(** Phase 1: [headIds], [nHeads], [channelUbound] and [hasProxyOps]. *)
(* src/src/enqueue/enqueue.cc:296-306 finishPlan *)
Definition scanHeads (queues : list (list ncclProxyOp)) : list Z * Z * nat * bool :=
  fold_left (fun '(headIds, nHeads, channelUbound, hasProxyOps) c =>
      match queues !! c with
      | Some (op :: q) => (headIds ++ [headId (op :: q)], nHeads + 1, S c, true)
      | _ => (headIds ++ [headId []], nHeads, channelUbound, hasProxyOps)
      end) (seq 0 MAXCHANNELS) ([], 0, 0%nat, false).

(** The search for the channel with the least number; [None] is the [c] of [-1]. *)
(* src/src/enqueue/enqueue.cc:325-336 finishPlan *)
Definition leastHead (headIds : list Z) (channelUbound : nat) : option nat * Z :=
  fold_left (fun '(c, minId) c1 =>
      let id := rotId (nth c1 headIds 0) in
      if id <? minId then (Some c1, id) else (c, minId))
    (seq 0 channelUbound) (None, wrap64 (-1)).

(** Phase 2.  A queue that is not there, or is empty, is undefined behaviour. *)
(* src/src/enqueue/enqueue.cc:323-342 finishPlan *)
Fixpoint mergeLoop (fuel : nat) (queues : list (list ncclProxyOp)) (headIds : list Z) (nHeads : Z) (channelUbound : nat)
    (proxyOpQueue : list ncclProxyOp) : option (list ncclProxyOp) :=
  if nHeads =? 0 then Some proxyOpQueue
  else
    match fuel with
    | O => None
    | S fuel =>
        c ← fst (leastHead headIds channelUbound);
        q ← queues !! c;
        match q with
        | [] => None
        | op :: rest =>
            mergeLoop fuel (<[c := rest]> queues) (<[c := headId rest]> headIds)
              (nHeads - match rest with [] => 1 | _ => 0 end) channelUbound (proxyOpQueue ++ [op])
        end
    end.

(* src/src/enqueue/enqueue.cc:295-342 finishPlan *)
Definition mergeProxyOps (queues : list (list ncclProxyOp)) : option (bool * list ncclProxyOp) :=
  let '(headIds, nHeads, channelUbound, hasProxyOps) := scanHeads queues in
  out ← mergeLoop (length (concat queues)) queues headIds nHeads channelUbound [];
  Some (hasProxyOps, out).

(** ** uploadProxyOps *)

Section Upload.

(** The call that hands an operation to the proxy, with the state [St] of the
    communicator it reads and changes; it may fail. *)
Context {St : Type} (ncclProxySaveOp : ncclProxyOp -> St -> ncclResult_t * St).

(** The number an operation gets in the history *)
(* src/src/enqueue/enqueue.cc:1597-1610 uploadProxyOps *)
Definition translateId (collCount : Z) (p2pCount : list Z) (op : ncclProxyOp) : option Z :=
  if Z.odd (opCount op) then
    n ← p2pCount !! Z.to_nat (channelId op);
    Some (wrap64 (wrap64 (Z.shiftl n 1) + opCount op))
  else Some (wrap64 (wrap64 (Z.shiftl collCount 1) + opCount op)).

(** The loop over the operations: [p2pOpBump], [hasp2p], the operations saved and the
    queue of the plan, whose numbers are restored but for that of an operation that
    fails. *)
(* src/src/enqueue/enqueue.cc:1590-1615 uploadProxyOps *)
Fixpoint uploadLoop (collCount : Z) (p2pCount : list Z) (ops : list ncclProxyOp) (st : St)
    (bump : list Z) (hasp2p : bool) (saved : list ncclProxyOp)
    : option (ncclResult_t * St * list Z * bool * list ncclProxyOp * list ncclProxyOp) :=
  match ops with
  | [] => Some (ncclSuccess, st, bump, hasp2p, saved, [])
  | op :: ops =>
      id ← translateId collCount p2pCount op;
      let '(bump, hasp2p) :=
        if Z.odd (opCount op)
        then (<[Z.to_nat (channelId op) := wrap64 (Z.shiftr (opCount op) 1 + 1)]> bump, true)
        else (bump, hasp2p) in
      let op' := {| opCount := id; channelId := channelId op; opData := opData op |} in
      match ncclProxySaveOp op' st with
      | (ncclSuccess, st) =>
          '(r, st, bump, hasp2p, saved, queue) ← uploadLoop collCount p2pCount ops st bump hasp2p (saved ++ [op']);
          Some (r, st, bump, hasp2p, saved, op :: queue)
      | (r, st) => Some (r, st, bump, hasp2p, saved, op' :: ops)
      end
  end.

(** The launch of a plan with [planColls] collectives: the history after it, the
    operations saved and the plan's queue.  A failure leaves before the history of the
    channels advances. *)
(* src/src/enqueue/enqueue.cc:1582-1624 uploadProxyOps *)
Definition uploadProxyOps (sh : sharedRes) (st : St) (planColls : Z) (proxyOpQueue : list ncclProxyOp)
    : option (ncclResult_t * sharedRes * St * list ncclProxyOp * list ncclProxyOp) :=
  let colls := wrap64 (collOpCount sh + planColls) in
  '(r, st, bump, hasp2p, saved, queue) ←
    uploadLoop (collOpCount sh) (p2pOpCount sh) proxyOpQueue st (replicate MAXCHANNELS 0) false [];
  match r with
  | ncclSuccess =>
      Some (ncclSuccess,
            {| collOpCount := colls;
               p2pOpCount := if (hasp2p : bool) then zip_with (fun a b => wrap64 (a + b)) (p2pOpCount sh) bump
                             else p2pOpCount sh |}, st, saved, queue)
  | _ => Some (r, {| collOpCount := colls; p2pOpCount := p2pOpCount sh |}, st, saved, queue)
  end.

(** Launches one after another, up to the first that fails: the operations saved by
    each. *)
Fixpoint launches (sh : sharedRes) (st : St) (plans : list (Z * list (list ncclProxyOp)))
    : option (ncclResult_t * sharedRes * St * list (list ncclProxyOp)) :=
  match plans with
  | [] => Some (ncclSuccess, sh, st, [])
  | (colls, queues) :: plans =>
      '(_, ops) ← mergeProxyOps queues;
      '(r, sh, st, saved, _) ← uploadProxyOps sh st colls ops;
      match r with
      | ncclSuccess =>
          '(r, sh, st, rest) ← launches sh st plans;
          Some (r, sh, st, saved :: rest)
      | _ => Some (r, sh, st, [saved])
      end
  end.

End Upload.

(** ** The rotated number *)

Lemma rotId_val id : 0 <= id < 2 ^ 64 -> rotId id = (id mod 2) * 2 ^ 63 + id / 2.
Proof.
  intros Hid. unfold rotId, wrap64. rewrite Z.shiftr_div_pow2, (Z.shiftl_mul_pow2 id) by lia. change (2 ^ 1) with 2.
  assert ((id * 2 ^ 63) mod 2 ^ 64 = Z.shiftl (id mod 2) 63) as ->.
  { rewrite Z.shiftl_mul_pow2 by lia. Z.div_mod_to_equations. lia. }
  rewrite Z.lor_comm. apply lor_shiftl_low; [lia|]. Z.div_mod_to_equations. lia.
Qed.

Definition opKey (op : ncclProxyOp) : Z := rotId (opCount op).

(** A number of an operation; [2 ^ 64 - 1] stands for an empty queue. *)
Definition idOk (op : ncclProxyOp) : Prop := 0 <= opCount op < 2 ^ 64 - 1.

Lemma opKey_lt op : idOk op -> opKey op < 2 ^ 64 - 1.
Proof. unfold idOk, opKey. intros H. rewrite rotId_val by lia. Z.div_mod_to_equations. lia. Qed.

(** ** The merge *)

(** Queues by channel, with operations of that channel. *)
Record queuesOk (queues : list (list ncclProxyOp)) : Prop := {
  qo_id : forall c q op, queues !! c = Some q -> op ∈ q -> idOk op;
  qo_chan : forall c q op, queues !! c = Some q -> op ∈ q -> channelId op = Z.of_nat c }.

Definition busy (q : list ncclProxyOp) : nat := match q with [] => 0 | _ => 1 end.

(** What phase 1 sets up and phase 2 keeps *)
Record headsOk (queues : list (list ncclProxyOp)) (headIds : list Z) (nHeads : Z) (ub : nat) : Prop := {
  ho_ids : headIds = map headId queues;
  ho_count : nHeads = Z.of_nat (sum_list_with busy queues);
  ho_ub : (ub <= length queues)%nat;
  ho_empty : forall c q, queues !! c = Some q -> (ub <= c)%nat -> q = [] }.

Lemma sum_busy_pos queues : (0 < sum_list_with busy queues)%nat -> exists c op q, queues !! c = Some (op :: q).
Proof.
  induction queues as [|[|op q] queues IH]; simpl; [lia| |].
  - intros (c & op & q & Hc)%IH. by exists (S c), op, q.
  - by exists 0%nat, op, q.
Qed.

Lemma scanHeads_ok queues :
  length queues = MAXCHANNELS ->
  exists headIds nHeads ub, scanHeads queues = (headIds, nHeads, ub, bool_decide (concat queues <> [])) /\
    headsOk queues headIds nHeads ub.
Proof.
  intros Hlen. unfold scanHeads. rewrite <- Hlen. match goal with |- context [fold_left ?f _ _] => set (F := f) end.
  assert (forall n, (n <= length queues)%nat -> exists headIds nHeads ub,
    fold_left F (seq 0 n) ([], 0, 0%nat, false) = (headIds, nHeads, ub, bool_decide (concat (take n queues) <> [])) /\
    headsOk (take n queues) headIds nHeads ub) as H.
  2: { destruct (H (length queues)) as (h & k & ub & E & Ho); [done|]. rewrite take_ge in * by done. by exists h, k, ub. }
  induction n as [|n IH]; intros Hn.
  { exists [], 0, 0%nat. split; [done|]. by split; simpl; try done; lia. }
  destruct IH as (h & k & ub & E & [H1 H2 H3 H4]); [lia|]. destruct (lookup_lt_is_Some_2 queues n) as [q Hq]; [lia|].
  rewrite seq_S, fold_left_app, E, (take_S_r _ _ _ Hq), concat_app. cbn [fold_left Nat.add concat]. unfold F. rewrite Hq.
  rewrite length_take in H3.
  assert (forall c q', (take n queues ++ [q]) !! c = Some q' -> take n queues !! c = Some q' \/ c = n /\ q' = q) as Hcase.
  { intros c q' Hc. apply lookup_app_Some in Hc as [?|[Hge Hc]]; [by left|]. right. rewrite length_take in *.
    destruct (c - n `min` length queues)%nat as [|x] eqn:Ec; [|done]. simpl in Hc. simplify_eq. split; [lia|done]. }
  destruct q as [|op q].
  - exists (h ++ [headId []]), k, ub. split; [by rewrite !app_nil_r|]. split.
    + by rewrite map_app, H1.
    + rewrite sum_list_with_app, H2. simpl. lia.
    + rewrite length_app, length_take. lia.
    + intros c q' [Hc|[_ ?]]%Hcase Hge; [by eapply H4|done].
  - exists (h ++ [headId (op :: q)]), (k + 1), (S n). split.
    + do 2 f_equal. symmetry. apply bool_decide_eq_true. by destruct (concat (take n queues)).
    + split.
      * by rewrite map_app, H1.
      * rewrite sum_list_with_app, H2. simpl. lia.
      * rewrite length_app, length_take. simpl. lia.
      * intros c q' Hc Hge. apply lookup_lt_Some in Hc. rewrite length_app, length_take in Hc. simpl in Hc. lia.
Qed.

Lemma leastHead_spec headIds n c m :
  leastHead headIds n = (c, m) ->
  (forall c1, (c1 < n)%nat -> m <= rotId (nth c1 headIds 0)) /\
  match c with
  | None => m = 2 ^ 64 - 1
  | Some c => (c < n)%nat /\ m = rotId (nth c headIds 0) /\ m < 2 ^ 64 - 1 /\
              forall c1, (c1 < c)%nat -> m < rotId (nth c1 headIds 0)
  end.
Proof.
  unfold leastHead. revert c m. induction n as [|n IH]; intros c m.
  { intros [= <- <-]. split; [lia|done]. }
  rewrite seq_S, fold_left_app. cbn [fold_left Nat.add].
  destruct (fold_left _ _ _) as [c0 m0] eqn:E. destruct (IH c0 m0 eq_refl) as [H1 H2]. clear IH E.
  destruct (Z.ltb_spec (rotId (nth n headIds 0)) m0) as [Hlt|Hge]; intros [= <- <-].
  - split.
    + intros c1 Hc. destruct (decide (c1 = n)) as [->|]; [done|]. specialize (H1 c1). lia.
    + split_and!; [lia|done|destruct c0; lia|]. intros c1 Hc. specialize (H1 c1 Hc). lia.
  - split.
    + intros c1 Hc. destruct (decide (c1 = n)) as [->|]; [done|]. apply H1. lia.
    + destruct c0; [|done]. split; [lia|tauto].
Qed.

(** The channel of the merge: its first operation has the least number of all, and those
    of the channels before it have greater ones. *)
Lemma leastHead_ok queues headIds nHeads ub :
  queuesOk queues -> headsOk queues headIds nHeads ub -> nHeads <> 0 ->
  exists c op q, fst (leastHead headIds ub) = Some c /\ queues !! c = Some (op :: q) /\
    forall c' op' q', queues !! c' = Some (op' :: q') -> opKey op < opKey op' \/ opKey op = opKey op' /\ (c <= c')%nat.
Proof.
  intros [Q1 _] [H1 H2 H3 H4] Hne. destruct (leastHead headIds ub) as [co m] eqn:E. apply leastHead_spec in E as [Hmin Hc].
  assert (forall c q, queues !! c = Some q -> nth c headIds 0 = headId q) as Hnth.
  { intros c q Hq. apply nth_lookup_Some. rewrite H1, list_lookup_fmap, Hq. done. }
  destruct (sum_busy_pos queues) as (c0 & op0 & q0 & Hq0); [lia|].
  assert (forall c op q, queues !! c = Some (op :: q) -> (c < ub)%nat /\ rotId (nth c headIds 0) = opKey op /\ opKey op < 2 ^ 64 - 1) as Hhead.
  { intros c op q Hq. split_and!; [|by rewrite (Hnth _ _ Hq)|eapply opKey_lt, Q1; [done|by left]].
    destruct (decide (c < ub)%nat); [done|]. by specialize (H4 _ _ Hq ltac:(lia)). }
  destruct (Hhead _ _ _ Hq0) as (Hu0 & Hk0 & Hlt0). specialize (Hmin c0 Hu0) as Hm0.
  destruct co as [c|]; [|lia]. destruct Hc as (Hcu & -> & Hlt & Hbefore).
  destruct (lookup_lt_is_Some_2 queues c) as [[|op q] Hq]; [lia| |].
  { rewrite (Hnth _ _ Hq) in Hlt. by vm_compute in Hlt. }
  exists c, op, q. split_and!; [done|done|]. intros c' op' q' Hq'. destruct (Hhead _ _ _ Hq) as (_ & Hk & _).
  destruct (Hhead _ _ _ Hq') as (Hu' & Hk' & _). specialize (Hmin c' Hu'). rewrite Hk in *. rewrite Hk' in Hmin.
  destruct (decide (c <= c')%nat); [lia|]. specialize (Hbefore c' ltac:(lia)). lia.
Qed.

(** By number, and by channel for equal numbers *)
Definition opBefore (a b : ncclProxyOp) : Prop :=
  opKey a < opKey b \/ opKey a = opKey b /\ channelId a <= channelId b.

(** A merge of the queues: each queue is what the merge has of its channel, there is
    nothing else, and it is in order when the queues are. *)
Record mergeOf (queues : list (list ncclProxyOp)) (ops : list ncclProxyOp) : Prop := {
  mo_queue : forall c q, queues !! c = Some q -> filter (fun op => channelId op = Z.of_nat c) ops = q;
  mo_only : forall op, op ∈ ops -> exists c q, queues !! c = Some q /\ op ∈ q;
  mo_sorted : (forall c q, queues !! c = Some q -> StronglySorted opBefore q) -> StronglySorted opBefore ops }.

Lemma queuesOk_rest queues c op q : queuesOk queues -> queues !! c = Some (op :: q) -> queuesOk (<[c := q]> queues).
Proof.
  intros [Q1 Q2] Hq. split; intros c' q' op' Hq' Hin; apply list_lookup_insert_Some in Hq' as [(<- & <- & _)|[_ Hq']];
    first [by eapply Q1|by eapply Q2|eapply Q1; [done|by right]|eapply Q2; [done|by right]].
Qed.

Lemma headsOk_rest queues headIds nHeads ub c op q :
  headsOk queues headIds nHeads ub -> queues !! c = Some (op :: q) ->
  headsOk (<[c := q]> queues) (<[c := headId q]> headIds) (nHeads - match q with [] => 1 | _ => 0 end) ub.
Proof.
  intros [H1 H2 H3 H4] Hq. split.
  - by rewrite H1, <- list_fmap_insert.
  - pose proof (sum_list_with_insert busy queues c (op :: q) q Hq) as Hs. simpl in Hs. destruct q; simpl in Hs; lia.
  - by rewrite length_insert.
  - intros c' q' Hq' Hge. apply list_lookup_insert_Some in Hq' as [(<- & <- & _)|[_ Hq']]; [|by eapply H4].
    by specialize (H4 _ _ Hq Hge).
Qed.

Lemma mergeOf_cons queues c op q ops :
  queuesOk queues -> queues !! c = Some (op :: q) ->
  (forall c' op' q', queues !! c' = Some (op' :: q') -> opKey op < opKey op' \/ opKey op = opKey op' /\ (c <= c')%nat) ->
  mergeOf (<[c := q]> queues) ops -> mergeOf queues (op :: ops).
Proof.
  intros [_ Q2] Hq Hmin [M1 M2 M3]. pose proof (lookup_lt_Some _ _ _ Hq) as Hlt.
  assert (channelId op = Z.of_nat c) as Hch by (eapply Q2; [done|by left]).
  assert (forall op', op' ∈ ops -> exists c' q', queues !! c' = Some q' /\ op' ∈ q') as Hin.
  { intros op' (c' & q' & Hq' & Hop)%M2. apply list_lookup_insert_Some in Hq' as [(<- & <- & _)|[_ Hq']]; [|by exists c', q'].
    exists c, (op :: q). split; [done|by right]. }
  split.
  - intros c' q' Hq'. rewrite filter_cons. case_decide as Hd.
    + assert (c' = c) as -> by lia. simplify_eq. f_equal. apply M1. by apply list_lookup_insert_eq.
    + apply M1. rewrite list_lookup_insert_ne; [done|]. intros ->. lia.
  - intros op' [->|Hop]%elem_of_cons; [exists c, (op :: q); split; [done|by left]|by apply Hin].
  - intros Hs. constructor.
    + apply M3. intros c' q' Hq'. apply list_lookup_insert_Some in Hq' as [(<- & <- & _)|[_ Hq']]; [|by eapply Hs].
      by specialize (Hs _ _ Hq) as [? _]%StronglySorted_inv.
    + apply Forall_forall. intros op' Hop. destruct (Hin op') as (c' & [|h q'] & Hq' & Hop'); [done|by apply elem_of_nil in Hop'|].
      assert (channelId op' = Z.of_nat c') as Hch' by by eapply Q2.
      assert (opBefore h op' \/ h = op') as Hh.
      { apply elem_of_cons in Hop' as [->|Hop']; [by right|left]. specialize (Hs _ _ Hq') as [_ Hf]%StronglySorted_inv.
        rewrite Forall_forall in Hf. by apply Hf. }
      assert (channelId h = Z.of_nat c') as Hchh by (eapply Q2; [done|by left]).
      specialize (Hmin _ _ _ Hq'). unfold opBefore in *. destruct Hh as [Hh| ->]; lia.
Qed.

Lemma mergeLoop_ok fuel : forall queues headIds nHeads ub out,
  queuesOk queues -> headsOk queues headIds nHeads ub -> (sum_list_with length queues <= fuel)%nat ->
  exists ops, mergeLoop fuel queues headIds nHeads ub out = Some (out ++ ops) /\ mergeOf queues ops.
Proof.
  induction fuel as [|fuel IH]; intros queues headIds nHeads ub out HQ HH Hf; cbn [mergeLoop];
    destruct (Z.eqb_spec nHeads 0) as [Hz|Hnz].
  1, 3: exists []; split; [by rewrite app_nil_r|];
    assert (forall c q, queues !! c = Some q -> q = []) as He by
      (intros c [|op q] Hq; [done|]; pose proof (ho_count _ _ _ _ HH);
       pose proof (sum_list_with_insert busy queues c (op :: q) [] Hq) as Hs; simpl in Hs; lia);
    split; [intros c q Hq; symmetry; by eapply He|by intros op Hop%elem_of_nil|constructor].
  - destruct (leastHead_ok _ _ _ _ HQ HH Hnz) as (c & op & q & _ & Hq & _).
    pose proof (sum_list_with_insert length queues c (op :: q) q Hq) as Hs. simpl in Hs. lia.
  - destruct (leastHead_ok _ _ _ _ HQ HH Hnz) as (c & op & q & -> & Hq & Hmin). simpl. rewrite Hq. simpl.
    pose proof (sum_list_with_insert length queues c (op :: q) q Hq) as Hs. simpl in Hs.
    destruct (IH (<[c := q]> queues) (<[c := headId q]> headIds) (nHeads - match q with [] => 1 | _ => 0 end) ub (out ++ [op]))
      as (ops & E & HM); [by eapply queuesOk_rest|by eapply headsOk_rest|lia|].
    exists (op :: ops). rewrite E, <- app_assoc. split; [done|by eapply mergeOf_cons].
Qed.

Lemma mergeProxyOps_ok queues :
  length queues = MAXCHANNELS -> queuesOk queues ->
  exists ops, mergeProxyOps queues = Some (bool_decide (concat queues <> []), ops) /\ mergeOf queues ops.
Proof.
  intros Hlen HQ. unfold mergeProxyOps. destruct (scanHeads_ok queues Hlen) as (headIds & nHeads & ub & -> & HH).
  destruct (mergeLoop_ok (length (concat queues)) queues headIds nHeads ub [] HQ HH) as (ops & -> & HM).
  - clear. induction queues as [|q queues IH]; simpl; [done|]. rewrite length_app. lia.
  - by exists ops.
Qed.

(** ** The history *)

Section UploadProofs.

Context {St : Type} (ncclProxySaveOp : ncclProxyOp -> St -> ncclResult_t * St).

(** The operations of the history on a channel, point-to-point ones if [p2p]. *)
Definition history (sh : sharedRes) (c : Z) (p2p : bool) : Z :=
  if p2p then nth (Z.to_nat c) (p2pOpCount sh) 0 else collOpCount sh.

(** An operation with its number moved by those of the history [base]. *)
Definition renumber (base : Z -> bool -> Z) (op : ncclProxyOp) : ncclProxyOp :=
  {| opCount := opCount op + 2 * base (channelId op) (Z.odd (opCount op)); channelId := channelId op; opData := opData op |}.

Record histOk (B : Z) (sh : sharedRes) : Prop := {
  hk_length : length (p2pOpCount sh) = MAXCHANNELS;
  hk_coll : 0 <= collOpCount sh <= B;
  hk_p2p : forall c n, p2pOpCount sh !! c = Some n -> 0 <= n <= B }.

(** The operations of a plan with [colls] collectives, whose counts are of type [int]. *)
Record opsOk (colls : Z) (ops : list ncclProxyOp) : Prop := {
  ok_colls : 0 <= colls < 2 ^ 31;
  ok_id : forall op, op ∈ ops -> 0 <= opCount op < 2 ^ 32 - 1 /\ 0 <= channelId op < Z.of_nat MAXCHANNELS;
  ok_coll : forall op, op ∈ ops -> Z.odd (opCount op) = false -> opCount op < 2 * colls;
  ok_sorted : StronglySorted opBefore ops }.

Lemma renumber_odd base op : Z.odd (opCount (renumber base op)) = Z.odd (opCount op).
Proof. simpl. by rewrite Z.odd_add_mul_2. Qed.

(** The order of the merge is that of the numbers, for point-to-point operations. *)
Lemma opBefore_p2p a b :
  0 <= opCount a < 2 ^ 32 - 1 -> 0 <= opCount b < 2 ^ 32 - 1 -> Z.odd (opCount a) = true -> Z.odd (opCount b) = true ->
  opBefore a b -> opCount a <= opCount b.
Proof.
  unfold opBefore, opKey. intros Ha Hb Oa Ob. rewrite !rotId_val by lia. rewrite !Zmod_odd, Oa, Ob.
  pose proof (Z.div2_odd (opCount a)) as Da. pose proof (Z.div2_odd (opCount b)) as Db.
  rewrite Oa, Z.div2_div in Da. rewrite Ob, Z.div2_div in Db. simpl in Da, Db. lia.
Qed.

Lemma translateId_renumber B sh op :
  histOk B sh -> B < 2 ^ 62 -> 0 <= opCount op < 2 ^ 32 - 1 -> 0 <= channelId op < Z.of_nat MAXCHANNELS ->
  translateId (collOpCount sh) (p2pOpCount sh) op = Some (opCount (renumber (history sh) op)).
Proof.
  intros [H1 H2 H3] HB Hid Hc. unfold translateId, renumber, history. simpl. destruct (Z.odd (opCount op)).
  - destruct (lookup_lt_is_Some_2 (p2pOpCount sh) (Z.to_nat (channelId op))) as [n Hn]; [lia|].
    rewrite Hn, (nth_lookup_Some _ _ 0 _ Hn). simpl. specialize (H3 _ _ Hn).
    rewrite Z.shiftl_mul_pow2, (wrap64_small (n * _)), wrap64_small by lia. f_equal. lia.
  - rewrite Z.shiftl_mul_pow2, (wrap64_small (_ * _)), wrap64_small by lia. f_equal. lia.
Qed.

(** The bump of a channel after an operation *)
Definition bumpStep (bump : list Z) (op : ncclProxyOp) : list Z :=
  if Z.odd (opCount op) then <[Z.to_nat (channelId op) := opCount op / 2 + 1]> bump else bump.

Lemma uploadLoop_fold B sh ops : histOk B sh -> B < 2 ^ 62 ->
  (forall op, op ∈ ops -> 0 <= opCount op < 2 ^ 32 - 1 /\ 0 <= channelId op < Z.of_nat MAXCHANNELS) ->
  forall st bump hasp2p saved, exists r st' bump' hasp2p' saved' queue,
  uploadLoop ncclProxySaveOp (collOpCount sh) (p2pOpCount sh) ops st bump hasp2p saved = Some (r, st', bump', hasp2p', saved', queue) /\
  if bool_decide (r = ncclSuccess)
  then bump' = fold_left bumpStep ops bump /\ hasp2p' = hasp2p || existsb (fun op => Z.odd (opCount op)) ops /\
       saved' = saved ++ map (renumber (history sh)) ops /\ queue = ops
  else saved' `prefix_of` saved ++ map (renumber (history sh)) ops.
Proof.
  intros HH HB. induction ops as [|op ops IH]; intros Hops st bump hasp2p saved.
  { do 6 eexists. split; [done|]. rewrite bool_decide_eq_true_2 by done. simpl. by rewrite app_nil_r, orb_false_r. }
  destruct (Hops op) as [Hid Hch]; [by left|]. cbn [uploadLoop]. rewrite (translateId_renumber B) by done. cbn [mbind option_bind].
  rewrite Z.shiftr_div_pow2, wrap64_small by (change (2 ^ 1) with 2; Z.div_mod_to_equations; lia). change (2 ^ 1) with 2.
  set (bh := if Z.odd (opCount op) then _ else _).
  assert (bh = (bumpStep bump op, hasp2p || Z.odd (opCount op))) as ->
    by (unfold bh, bumpStep; destruct (Z.odd (opCount op)); by rewrite ?orb_true_r, ?orb_false_r).
  fold (renumber (history sh) op). change (Build_ncclProxyOp _ _ _) with (renumber (history sh) op).
  destruct (ncclProxySaveOp (renumber (history sh) op) st) as [r st1] eqn:Es.
  destruct (IH ltac:(intros; apply Hops; by right) st1 (bumpStep bump op) (hasp2p || Z.odd (opCount op)) (saved ++ [renumber (history sh) op]))
    as (r' & st' & bump' & h' & saved' & queue & E & H).
  destruct (decide (r = ncclSuccess)) as [->|Hr].
  - rewrite E. cbn [mbind option_bind]. do 6 eexists. split; [done|]. cbn [map existsb fold_left].
    rewrite <- app_assoc in H. destruct (bool_decide (r' = ncclSuccess)); [|done].
    destruct H as (-> & -> & -> & ->). by rewrite orb_assoc.
  - exists r, st1, (bumpStep bump op), (hasp2p || Z.odd (opCount op)), saved, (renumber (history sh) op :: ops).
    split; [by destruct r|]. rewrite bool_decide_eq_false_2 by done. by eexists.
Qed.

Lemma bumpStep_nth bump op c :
  length bump = MAXCHANNELS -> 0 <= channelId op < Z.of_nat MAXCHANNELS ->
  nth c (bumpStep bump op) 0 =
  if Z.odd (opCount op) && (Z.to_nat (channelId op) =? c)%nat then opCount op / 2 + 1 else nth c bump 0.
Proof.
  intros Hl Hc. unfold bumpStep. destruct (Z.odd (opCount op)); [|done]. simpl. rewrite !nth_lookup.
  destruct (Nat.eqb_spec (Z.to_nat (channelId op)) c) as [<-|Hne]; [by rewrite list_lookup_insert_eq by lia|].
  by rewrite list_lookup_insert_ne.
Qed.

(** The advance of a channel covers the operations of the plan: the last one has the
    greatest number. *)
Lemma bumps_cover ops :
  (forall op, op ∈ ops -> 0 <= opCount op < 2 ^ 32 - 1 /\ 0 <= channelId op < Z.of_nat MAXCHANNELS) ->
  StronglySorted opBefore ops -> forall bump, length bump = MAXCHANNELS -> (forall c, 0 <= nth c bump 0 <= 2 ^ 31) ->
  (forall op, op ∈ ops -> Z.odd (opCount op) = true -> nth (Z.to_nat (channelId op)) bump 0 <= opCount op / 2 + 1) ->
  length (fold_left bumpStep ops bump) = MAXCHANNELS /\
  (forall c, nth c bump 0 <= nth c (fold_left bumpStep ops bump) 0 <= 2 ^ 31) /\
  (forall op, op ∈ ops -> Z.odd (opCount op) = true ->
     opCount op / 2 + 1 <= nth (Z.to_nat (channelId op)) (fold_left bumpStep ops bump) 0).
Proof.
  induction ops as [|op ops IH]; intros Hops Hs bump Hl Hb Hlow.
  { split_and!; [done|intros c; specialize (Hb c); simpl; lia|by intros op Hop%elem_of_nil]. }
  apply StronglySorted_inv in Hs as [Hs Hf]. rewrite Forall_forall in Hf. destruct (Hops op) as [Hid Hch]; [by left|].
  pose proof (fun c => bumpStep_nth bump op c Hl Hch) as Hn.
  assert (forall c, nth c bump 0 <= nth c (bumpStep bump op) 0 <= 2 ^ 31) as Hstep.
  { intros c. rewrite Hn. specialize (Hb c). destruct (Z.odd (opCount op)) eqn:Ho; simpl; [|lia].
    destruct (Nat.eqb_spec (Z.to_nat (channelId op)) c) as [<-|]; [|lia].
    split; [apply Hlow; [by left|done]|Z.div_mod_to_equations; lia]. }
  destruct (IH (fun op' H => Hops op' (list_elem_of_further op' op ops H)) Hs (bumpStep bump op)) as (I1 & I2 & I3).
  - unfold bumpStep. destruct (Z.odd _); by rewrite ?length_insert.
  - intros c. specialize (Hstep c). specialize (Hb c). lia.
  - intros op' Hop Ho'. destruct (Hops op') as [Hid' Hch']; [by right|]. rewrite Hn.
    destruct (Z.odd (opCount op)) eqn:Ho; [|apply Hlow; [by right|done]].
    destruct (Nat.eqb_spec (Z.to_nat (channelId op)) (Z.to_nat (channelId op'))); [|apply Hlow; [by right|done]].
    pose proof (opBefore_p2p op op' Hid Hid' Ho Ho' (Hf op' Hop)). simpl. Z.div_mod_to_equations. lia.
  - cbn [fold_left]. split_and!; [done| |].
    + intros c. specialize (Hstep c). specialize (I2 c). lia.
    + intros op' [->|Hop]%elem_of_cons Ho'; [|by apply I3].
      specialize (I2 (Z.to_nat (channelId op))). rewrite Hn, Ho', Nat.eqb_refl in I2. simpl in I2. lia.
Qed.

Lemma bumpStep_colls ops bump :
  existsb (fun op => Z.odd (opCount op)) ops = false -> fold_left bumpStep ops bump = bump.
Proof.
  revert bump. induction ops as [|op ops IH]; intros bump; [done|]. simpl. unfold bumpStep at 2.
  destruct (Z.odd (opCount op)); [done|]. apply IH.
Qed.

Lemma advance_nth (p2p bump : list Z) B c :
  length p2p = length bump -> (forall c n, p2p !! c = Some n -> 0 <= n <= B) -> (forall c, 0 <= nth c bump 0 <= 2 ^ 31) ->
  B + 2 ^ 31 < 2 ^ 62 -> nth c (zip_with (fun a b => wrap64 (a + b)) p2p bump) 0 = nth c p2p 0 + nth c bump 0.
Proof.
  intros Hl Hp Hb HB. specialize (Hb c). rewrite !nth_lookup in *. rewrite lookup_zip_with. destruct (p2p !! c) as [n|] eqn:En; simpl.
  - destruct (lookup_lt_is_Some_2 bump c) as [b Hbc]; [rewrite <- Hl; by eapply lookup_lt_Some|]. rewrite Hbc in *. simpl in *.
    apply wrap64_small. specialize (Hp _ _ En). lia.
  - apply lookup_ge_None in En. rewrite (proj2 (lookup_ge_None bump c)) by lia. done.
Qed.

(** A launch saves the operations with numbers of its own part of the history. *)
Lemma uploadProxyOps_ok B sh st colls ops :
  histOk B sh -> B + 2 ^ 31 < 2 ^ 62 -> opsOk colls ops ->
  exists r sh' st' saved queue, uploadProxyOps ncclProxySaveOp sh st colls ops = Some (r, sh', st', saved, queue) /\
    saved `prefix_of` map (renumber (history sh)) ops /\
    (r = ncclSuccess -> saved = map (renumber (history sh)) ops /\ queue = ops /\ histOk (B + 2 ^ 31) sh' /\
     (forall c p2p, history sh c p2p <= history sh' c p2p) /\
     (forall op, op ∈ ops -> opCount op + 2 * history sh (channelId op) (Z.odd (opCount op)) <
                             2 * history sh' (channelId op) (Z.odd (opCount op)))).
Proof.
  intros HH HB [O1 O2 O3 O4]. unfold uploadProxyOps.
  destruct (uploadLoop_fold B sh ops HH ltac:(lia) O2 st (replicate MAXCHANNELS 0) false [])
    as (r & st' & bump0 & h0 & saved & queue & -> & Hloop). cbn [mbind option_bind].
  destruct (bool_decide_reflect (r = ncclSuccess)) as [->|Hr].
  2:{ exists r, {| collOpCount := wrap64 (collOpCount sh + colls); p2pOpCount := p2pOpCount sh |}, st', saved, queue.
      split; [by destruct r|]. by split. }
  destruct Hloop as (-> & -> & -> & ->). do 5 eexists. split; [done|]. split; [done|]. intros _. split; [done|]. split; [done|].
  clear st'. pose proof HH as [H1 H2 H3].
  assert (forall c, nth c (replicate MAXCHANNELS 0) 0 = 0) as Hz.
  { intros c. rewrite nth_lookup. destruct (replicate MAXCHANNELS 0 !! c) eqn:E; [by apply lookup_replicate in E as [-> _]|done]. }
  destruct (bumps_cover ops O2 O4 (replicate MAXCHANNELS 0)) as (C1 & C2 & C3).
  { apply length_replicate. }
  { intros c. rewrite Hz. lia. }
  { intros op Hop _. rewrite Hz. destruct (O2 op Hop). Z.div_mod_to_equations. lia. }
  set (bump := fold_left bumpStep ops _) in *.
  set (p2p' := if false || _ then _ else _).
  assert (forall c, nth c p2p' 0 = nth c (p2pOpCount sh) 0 + nth c bump 0 /\ 0 <= nth c bump 0 <= 2 ^ 31) as Hp.
  { intros c. specialize (C2 c) as Hc. rewrite Hz in Hc. split; [|lia]. unfold p2p'. destruct (existsb _ ops) eqn:Ho; simpl.
    - apply (advance_nth _ _ B); [lia|done| |done]. intros c'. specialize (C2 c'). rewrite Hz in C2. lia.
    - unfold bump. rewrite bumpStep_colls by done. rewrite Hz. lia. }
  split_and!; unfold history; simpl.
  - split; simpl.
    + unfold p2p'. destruct (false || _); [|done]. rewrite length_zip_with. lia.
    + rewrite wrap64_small; lia.
    + intros c n Hn. destruct (Hp c) as [Hc Hb]. rewrite (nth_lookup_Some _ _ 0 _ Hn) in Hc.
      destruct (p2pOpCount sh !! c) as [m|] eqn:Em.
      * rewrite (nth_lookup_Some _ _ 0 _ Em) in Hc. specialize (H3 _ _ Em). lia.
      * rewrite nth_lookup, Em in Hc. simpl in Hc. lia.
  - intros c []; [destruct (Hp (Z.to_nat c)); lia|]. rewrite wrap64_small; lia.
  - intros op Hop. destruct (Z.odd (opCount op)) eqn:Ho.
    + destruct (Hp (Z.to_nat (channelId op))) as [-> _]. specialize (C3 op Hop Ho). Z.div_mod_to_equations. lia.
    + specialize (O3 op Hop Ho). rewrite wrap64_small; lia.
Qed.

(** A plan with [colls] collectives: operations by channel, numbered from zero and in
    order; the counts are of type [int]. *)
Record planOk (plan : Z * list (list ncclProxyOp)) : Prop := {
  pk_colls : 0 <= fst plan < 2 ^ 31;
  pk_length : length (snd plan) = MAXCHANNELS;
  pk_id : forall c q op, snd plan !! c = Some q -> op ∈ q -> 0 <= opCount op < 2 ^ 32 - 1 /\ channelId op = Z.of_nat c;
  pk_coll : forall c q op, snd plan !! c = Some q -> op ∈ q -> Z.odd (opCount op) = false -> opCount op < 2 * fst plan;
  pk_sorted : forall c q, snd plan !! c = Some q -> StronglySorted opBefore q }.

Lemma planOk_queues plan : planOk plan -> queuesOk (snd plan).
Proof. intros [_ _ P3 _ _]. split; intros c q op Hq Hop; destruct (P3 c q op Hq Hop); [split; lia|done]. Qed.

Lemma planOk_ops plan ops : planOk plan -> mergeOf (snd plan) ops -> opsOk (fst plan) ops.
Proof.
  intros [P1 P2 P3 P4 P5] [_ M2 M3]. split; [done| | |by apply M3].
  - intros op (c & q & Hq & Hop)%M2. destruct (P3 _ _ _ Hq Hop). apply lookup_lt_Some in Hq. split; lia.
  - intros op (c & q & Hq & Hop)%M2. by eapply P4.
Qed.

(** What a sequence of launches saves: the merge of each plan with its numbers moved,
    cut short in the last launch if that failed. *)
Definition launched (r : ncclResult_t) (plans : list (Z * list (list ncclProxyOp))) (saved : list (list ncclProxyOp)) : Prop :=
  (r = ncclSuccess -> length saved = length plans) /\
  (forall i s, saved !! i = Some s -> exists plan ops base, plans !! i = Some plan /\ mergeOf (snd plan) ops /\
     StronglySorted opBefore ops /\ s `prefix_of` map (renumber base) ops /\
     (r = ncclSuccess \/ (i + 1 < length saved)%nat -> s = map (renumber base) ops)) /\
  (forall i j si sj a b, (i < j)%nat -> saved !! i = Some si -> saved !! j = Some sj -> a ∈ si -> b ∈ sj ->
     channelId a = channelId b -> Z.odd (opCount a) = Z.odd (opCount b) -> opCount a < opCount b).

Lemma launched_cons r plans saved plan ops base s :
  mergeOf (snd plan) ops -> StronglySorted opBefore ops -> s = map (renumber base) ops ->
  (forall j sj a b, saved !! j = Some sj -> a ∈ s -> b ∈ sj ->
     channelId a = channelId b -> Z.odd (opCount a) = Z.odd (opCount b) -> opCount a < opCount b) ->
  launched r plans saved -> launched r (plan :: plans) (s :: saved).
Proof.
  intros HM HO -> Hnew (L1 & L2 & L3). split_and!.
  - intros Hr. simpl. by rewrite L1.
  - intros [|i] s Hs; simplify_eq/=; [by exists plan, ops, base; split_and!|].
    destruct (L2 i s Hs) as (plan' & ops' & base' & H1 & H2 & H3 & H4 & H5). exists plan', ops', base'. split_and!; try done.
    intros [?|?]; apply H5; [by left|right; lia].
  - intros [|i] [|j] si sj a b Hij Hsi Hsj Ha Hb; simplify_eq/=; try lia; [by apply (Hnew j sj)|apply (L3 i j si sj); [lia|done..]].
Qed.

Lemma launches_ok plans : forall B sh st,
  Forall planOk plans -> histOk B sh -> B + 2 ^ 31 * Z.of_nat (length plans) < 2 ^ 62 ->
  exists r sh' st' saved, launches ncclProxySaveOp sh st plans = Some (r, sh', st', saved) /\ launched r plans saved /\
    (forall i s op, saved !! i = Some s -> op ∈ s -> 2 * history sh (channelId op) (Z.odd (opCount op)) <= opCount op).
Proof.
  induction plans as [|[colls queues] plans IH]; intros B sh st HP HH HB.
  { exists ncclSuccess, sh, st, []. split; [done|]. split; [|done]. by split. }
  apply Forall_cons in HP as [HP1 HP]. simpl in HB. pose proof (planOk_queues _ HP1) as HQ. simpl in HQ.
  destruct (mergeProxyOps_ok queues) as (ops & E & HM); [apply HP1|done|].
  pose proof (planOk_ops (colls, queues) ops HP1 HM) as HO.
  destruct (uploadProxyOps_ok B sh st colls ops) as (r & sh1 & st1 & saved1 & queue & E1 & Hpre & Hok); [done|lia|done|].
  assert (forall op, op ∈ map (renumber (history sh)) ops -> 2 * history sh (channelId op) (Z.odd (opCount op)) <= opCount op) as Hlow1.
  { intros op (op0 & -> & Hop)%list_elem_of_fmap. rewrite renumber_odd. simpl. destruct (ok_id _ _ HO op0 Hop). lia. }
  cbn [launches]. rewrite E. cbn [mbind option_bind]. rewrite E1. cbn [mbind option_bind].
  destruct (decide (r = ncclSuccess)) as [->|Hr].
  2:{ exists r, sh1, st1, [saved1]. split; [by destruct r|]. split; [split_and!; [done| |]|].
      - intros [|i] s Hs; simplify_eq/=. exists (colls, queues), ops, (history sh). split_and!; [done|done|apply HO|done|].
        intros [?|?]; [done|lia].
      - intros [|i] [|j]; simpl; intros; try lia; simplify_eq/=.
      - intros [|i] s op Hs Hop; simplify_eq/=. destruct Hpre as [k Hk]. apply Hlow1. rewrite Hk. apply elem_of_app. by left. }
  destruct (Hok eq_refl) as (-> & _ & HH1 & Hmono & Hnew). clear Hok.
  destruct (IH (B + 2 ^ 31) sh1 st1) as (r & sh' & st' & saved & -> & HL & Hlow); [done|done|lia|].
  exists r, sh', st', (map (renumber (history sh)) ops :: saved). split; [done|]. split.
  - apply (launched_cons r plans saved (colls, queues) ops (history sh)); [done|apply HO|done| |done].
    intros j sj a b Hsj (a0 & -> & Ha)%list_elem_of_fmap Hb. rewrite renumber_odd. intros Hc Ho.
    specialize (Hlow _ _ _ Hsj Hb). rewrite <- Hc, <- Ho in Hlow. simpl in *. specialize (Hnew a0 Ha). lia.
  - intros [|i] s op Hs Hop; simplify_eq/=; [by apply Hlow1|]. specialize (Hlow _ _ _ Hs Hop).
    specialize (Hmono (channelId op) (Z.odd (opCount op))). lia.
Qed.

(** C19: the operations of the proxy over any sequence of launches, up to the first
    that fails.  The loops of [finishPlan] end with a merge of the queues of the
    channels: each channel in its order, nothing lost or added, and by number with the
    collectives first.  [uploadProxyOps] hands exactly these over, with all numbers of a
    channel and kind moved by the same amount; when [ncclProxySaveOp] fails it hands
    over those before.  On a channel an operation of a later launch always has a greater
    number than one of its kind of an earlier launch, so the proxy never takes
    operations of two launches for one. *)
Theorem launches_fresh sh st plans :
  Forall planOk plans -> histOk (2 ^ 60) sh -> Z.of_nat (length plans) < 2 ^ 30 ->
  exists r sh' st' saved, launches ncclProxySaveOp sh st plans = Some (r, sh', st', saved) /\ launched r plans saved.
Proof.
  intros HP HH Hn. destruct (launches_ok plans (2 ^ 60) sh st HP HH) as (r & sh' & st' & saved & E & HL & _); [lia|].
  by exists r, sh', st', saved.
Qed.

End UploadProofs.

(** ** Witness *)

(** A plan with one collective on channel 0, and transfers on channels 0 and 3, launched
    twice. *)
Definition exOp (id c : Z) : ncclProxyOp := {| opCount := id; channelId := c; opData := 7 |}.
Definition exPlan : Z * list (list ncclProxyOp) :=
  (1, <[0%nat := [exOp 0 0; exOp 1 0]]> (<[3%nat := [exOp 1 3; exOp 1 3; exOp 3 3]]> (replicate MAXCHANNELS []))).
Definition exHistory : sharedRes := {| collOpCount := 5; p2pOpCount := replicate MAXCHANNELS 2 |}.

Lemma exPlan_lookup c q :
  snd exPlan !! c = Some q ->
  q = [] \/ c = 0%nat /\ q = [exOp 0 0; exOp 1 0] \/ c = 3%nat /\ q = [exOp 1 3; exOp 1 3; exOp 3 3].
Proof.
  intros [(<- & <- & _)|[_ Hq]]%list_lookup_insert_Some; [auto|].
  apply list_lookup_insert_Some in Hq as [(<- & <- & _)|[_ Hq]]; [auto|]. apply lookup_replicate in Hq as [-> _]. auto.
Qed.

Local Ltac ex_cases :=
  let Hop := fresh in
  intros Hop; repeat (apply elem_of_cons in Hop as [->|Hop]; [done|]); by apply elem_of_nil in Hop.

Lemma exPlan_ok : planOk exPlan.
Proof.
  split.
  - done.
  - done.
  - intros c q op [-> | [[-> ->] | [-> ->]]]%exPlan_lookup; ex_cases.
  - intros c q op [-> | [[-> ->] | [-> ->]]]%exPlan_lookup; ex_cases.
  - intros c q [-> | [[-> ->] | [-> ->]]]%exPlan_lookup;
      repeat first [apply SSorted_nil|apply SSorted_cons|apply Forall_nil_2|apply Forall_cons_2]; first [by left|by right].
Qed.

Lemma exHistory_ok : histOk (2 ^ 60) exHistory.
Proof. split; [done|done|]. by intros c n [-> _]%lookup_replicate. Qed.

Definition alwaysSaves (_ : ncclProxyOp) (u : unit) : ncclResult_t * unit := (ncclSuccess, u).

Lemma launches_fresh_witness :
  exists r sh' saved, launches alwaysSaves exHistory tt [exPlan; exPlan] = Some (r, sh', tt, saved) /\
    launched r [exPlan; exPlan] saved /\ length saved = 2%nat.
Proof.
  destruct (launches_fresh alwaysSaves exHistory tt [exPlan; exPlan]) as (r & sh' & [] & saved & E & H).
  - apply Forall_cons_2, Forall_cons_2, Forall_nil_2; apply exPlan_ok.
  - apply exHistory_ok.
  - reflexivity.
  - exists r, sh', saved. split; [exact E|]. split; [exact H|].
    apply (f_equal (option_map (fun '(_, saved) => length saved))) in E. apply Some_inj.
    etransitivity; [symmetry; exact E|]. vm_compute. reflexivity.
Defined.

(** The numbers the two launches save. *)
Example launches_example :
  option_map (fun '(_, saved) => map (map (fun op => (channelId op, opCount op))) saved)
    (launches alwaysSaves exHistory tt [exPlan; exPlan]) =
  Some [[(0, 10); (0, 5); (3, 5); (3, 5); (3, 7)]; [(0, 12); (0, 7); (3, 9); (3, 9); (3, 11)]].
Proof. vm_compute. reflexivity. Qed.

(** A launch that fails on its second transfer has handed over number 5 on channel 3,
    does not advance the history of the channel and leaves the moved number in the plan:
    the next launch hands number 5 over again on the channel. *)
Definition savesOne (_ : ncclProxyOp) (n : nat) : ncclResult_t * nat :=
  match n with O => (ncclInternalError, 9%nat) | S n => (ncclSuccess, n) end.

Lemma failed_launch_reuses_numbers :
  exists sh st queue,
    uploadProxyOps savesOne exHistory 1%nat 0 [exOp 1 3; exOp 3 3] =
      Some (ncclInternalError, sh, st, [exOp 5 3], queue) /\
    queue = [exOp 1 3; exOp 7 3] /\
    exists sh' st', uploadProxyOps savesOne sh st 0 [exOp 1 3] = Some (ncclSuccess, sh', st', [exOp 5 3], [exOp 1 3]).
Proof. do 3 eexists. split; [vm_compute; reflexivity|]. split; [done|]. do 2 eexists. vm_compute. reflexivity. Qed.
