(* ===== verification/ProxyPool.v ===== *)
(** * The shared pool of proxy operations (src/src/proxy.cc)

    The ranks of a machine hand their operations to a proxy thread through an array
    in shared memory.  Every rank has a block of entries; the entries are linked by
    their [next] indices into free lists, private chains of a rank, the posted
    chain of the pool and the chain the thread is working on.  A rank takes free
    entries, fills them and posts chains of them; the thread takes the posted
    chain, processes it in batches and gives the entries back with a
    compare-and-exchange.  A batch in which [ProxyAppend] fails returns early and
    drops the entries it has not given back.  The state machine has one step for each access to the
    memory the ranks share (the mutex of the pool, the exchange and the
    compare-and-exchange of a free list), together with the accesses to entries
    only the stepping thread can reach.  Memory orders are not modelled. *)

From stdpp Require Import base numbers list sets relations.
From Stdlib Require Import ZArith Lia.
From S2P Require Import Prelude Heap.

Local Open Scope Z_scope.

(* src/src/include/proxy.h:216-216 MAX_OPS_PER_PEER *)
Definition MAX_OPS_PER_PEER : Z := 2 * 64 * 2 * 8.

Section pool.

(** The contents of an operation: its count, and whether its connection is set. *)
Context {Op : Type} (opCount : Op -> Z) (hasConnection : Op -> bool).
Context (tpLocalnRanks : nat) (ProxyAppendBatchSize : Z).

(* src/src/include/proxy.h:219-231 ncclProxyOpsPool *)
Record ncclProxyOpsPool := {
  next : heap;
  ops : Z -> option Op;
  nextOps : Z;
  nextOpsEnd : Z;
  freeOps : nat -> Z }.

(** A rank's view of the pool. *)
(* src/src/include/proxy.h:233-241 ncclProxyOps *)
Record ncclProxyOps := {
  po_count : Z;
  po_freeOp : Z;
  po_nextOps : Z;
  po_nextOpsEnd : Z }.

Definition setNext (h : heap) (pool : ncclProxyOpsPool) : ncclProxyOpsPool := {|
  next := h; ops := ops pool; nextOps := nextOps pool; nextOpsEnd := nextOpsEnd pool; freeOps := freeOps pool |}.

(** ** The ranks *)

(* src/src/proxy.cc:490-503 ncclProxyPost *)
Definition ncclProxyPost (pool : ncclProxyOpsPool) (first last : Z) : ncclProxyOpsPool := {|
  next := if nextOps pool =? -1 then next pool else hset (next pool) (nextOpsEnd pool) first;
  ops := ops pool;
  nextOps := if nextOps pool =? -1 then first else nextOps pool;
  nextOpsEnd := last;
  freeOps := freeOps pool |}.

Definition countAt (pool : ncclProxyOpsPool) (x : Z) : Z := match ops pool x with Some o => opCount o | None => 0 end.

(** The last operation before [last] with another count than [lastOpCount], and
    the number of operations up to it. *)
(* src/src/proxy.cc:552-563 ncclLocalOpAppend *)
Fixpoint scanChain (fuel : nat) (pool : ncclProxyOpsPool) (last lastOpCount op nops lastOp toSend : Z) : option (Z * Z) :=
  if op =? last then Some (lastOp, toSend)
  else match fuel with
       | O => None
       | S fuel =>
           let nops := nops + 1 in
           let '(lastOp, toSend) := if countAt pool op =? lastOpCount then (lastOp, toSend) else (op, nops) in
           scanChain fuel pool last lastOpCount (next pool op) nops lastOp toSend
       end.

(** The wait for a free entry is a step of its own ([refill] below): [None] if
    there is none, or if the scan of the chain does not end. *)
(* src/src/proxy.cc:506-577 ncclLocalOpAppend *)
Definition ncclLocalOpAppend (pool : ncclProxyOpsPool) (me : ncclProxyOps) (o : Op)
    : option (ncclResult_t * ncclProxyOpsPool * ncclProxyOps) :=
  let opIndex := po_freeOp me in
  if opIndex =? -1 then None else
  let freeOp := next pool opIndex in
  let h := hset (next pool) opIndex (-1) in
  let '(h, first) := if po_nextOps me =? -1 then (h, opIndex) else (hset h (po_nextOpsEnd me) opIndex, po_nextOps me) in
  let pool := {|
    next := h; ops := fun x => if x =? opIndex then Some o else ops pool x;
    nextOps := nextOps pool; nextOpsEnd := nextOpsEnd pool; freeOps := freeOps pool |} in
  let me := {| po_count := po_count me + 1; po_freeOp := freeOp; po_nextOps := first; po_nextOpsEnd := opIndex |} in
  if po_count me =? MAX_OPS_PER_PEER then
    '(lastOp, toSend) ← scanChain (Z.to_nat MAX_OPS_PER_PEER) pool opIndex (countAt pool opIndex) first 0 (-1) 0;
    if lastOp =? -1 then Some (ncclInternalError, pool, me)
    else
      let me' := {| po_count := po_count me - toSend; po_freeOp := freeOp; po_nextOps := next pool lastOp; po_nextOpsEnd := opIndex |} in
      Some (ncclSuccess, ncclProxyPost (setNext (hset (next pool) lastOp (-1)) pool) first lastOp, me')
  else Some (ncclSuccess, pool, me).

(** The exchange of the free list, when the rank's own is empty. *)
(* src/src/proxy.cc:521-534 ncclLocalOpAppend *)
Definition refill (r : nat) (pool : ncclProxyOpsPool) (me : ncclProxyOps) : ncclProxyOpsPool * ncclProxyOps :=
  ({| next := next pool; ops := ops pool; nextOps := nextOps pool; nextOpsEnd := nextOpsEnd pool;
      freeOps := fun i => if (i =? r)%nat then -1 else freeOps pool i |},
   {| po_count := po_count me; po_freeOp := freeOps pool r; po_nextOps := po_nextOps me; po_nextOpsEnd := po_nextOpsEnd me |}).

(** For the pool of one rank of the loop. *)
(* src/src/proxy.cc:1063-1069 ncclProxyStart *)
Definition ncclProxyStart (pool : ncclProxyOpsPool) (me : ncclProxyOps) : ncclProxyOpsPool * ncclProxyOps :=
  if po_nextOps me =? -1 then (pool, me)
  else (ncclProxyPost pool (po_nextOps me) (po_nextOpsEnd me),
        {| po_count := 0; po_freeOp := po_freeOp me; po_nextOps := -1; po_nextOpsEnd := -1 |}).

(** ** The proxy thread *)

(** Between two accesses to shared memory: outside of [ncclProxyGetPostedOps], or
    giving back the entries of the ranks in the list, or about to exchange the free
    list of [i], which was [old] when it was read. *)
Inductive progressPc :=
  | PIdle
  | PFree (todo : list nat)
  | PExchange (i : nat) (old : Z) (todo : list nat).

(** The thread: the chain it works on, and its lists of entries to give back. *)
Record progress := {
  st_nextOps : Z;
  st_freeOp : nat -> Z;
  st_freeOpEnd : nat -> Z;
  st_pc : progressPc }.

Definition peerOf (x : Z) : nat := Z.to_nat (x / MAX_OPS_PER_PEER).

Definition setAt {A} (f : nat -> A) (i : nat) (v : A) : nat -> A := fun j => if (j =? i)%nat then v else f j.

(** The posted chain, under the mutex. *)
(* src/src/proxy.cc:866-891 ncclProxyGetPostedOps *)
Definition takePosted (pool : ncclProxyOpsPool) (st : progress) : ncclProxyOpsPool * progress :=
  ({| next := next pool; ops := ops pool; nextOps := -1; nextOpsEnd := -1; freeOps := freeOps pool |},
   {| st_nextOps := nextOps pool; st_freeOp := st_freeOp st; st_freeOpEnd := st_freeOpEnd st; st_pc := st_pc st |}).

(** The loop over the chain: the operations [ProxyAppend] has taken, with their
    ranks, are the list in the result.  [append] says whether [ProxyAppend] succeeds
    on an operation, after those the batch has given it before.  [None] for a loop
    that does not end or an entry without contents; the flag is false for the
    returns with an error, if an operation has no connection or [ProxyAppend] fails. *)
(* src/src/proxy.cc:902-928 ncclProxyGetPostedOps *)
Fixpoint processOps (append : list (nat * Op) -> nat * Op -> bool) (fuel : nat) (pool : ncclProxyOpsPool) (st : progress) (lastOpCount lastPeer count : Z) (added : list (nat * Op))
    : option (bool * ncclProxyOpsPool * progress * list (nat * Op)) :=
  let opIndex := st_nextOps st in
  if opIndex =? -1 then Some (true, pool, st, added)
  else match fuel with
       | O => None
       | S fuel =>
           peerOp ← ops pool opIndex;
           let peer := Z.quot opIndex MAX_OPS_PER_PEER in
           let count :=
             if (negb (lastOpCount =? 0) && negb (opCount peerOp =? lastOpCount)) || (negb (lastPeer =? -1) && negb (peer =? lastPeer))
             then count + 1 else count in
           if count =? ProxyAppendBatchSize + 1 then Some (true, pool, st, added)
           else if negb (hasConnection peerOp) then Some (false, pool, st, added)
           else
             let p := Z.to_nat peer in
             if negb (append added (p, peerOp)) then Some (false, pool, st, added) else
             let '(h, fend) :=
               if st_freeOp st p =? -1 then (next pool, setAt (st_freeOpEnd st) p opIndex)
               else (hset (next pool) opIndex (st_freeOp st p), st_freeOpEnd st) in
             processOps append fuel (setNext h pool)
               {| st_nextOps := next pool opIndex; st_freeOp := setAt (st_freeOp st) p opIndex; st_freeOpEnd := fend; st_pc := st_pc st |}
               (opCount peerOp) peer count (added ++ [(p, peerOp)])
       end.

(* src/src/proxy.cc:897-900 ncclProxyGetPostedOps *)
Definition noFree (st : progress) : progress := {|
  st_nextOps := st_nextOps st; st_freeOp := fun _ => -1; st_freeOpEnd := st_freeOpEnd st; st_pc := st_pc st |}.

Definition setPc (pc : progressPc) (st : progress) : progress := {|
  st_nextOps := st_nextOps st; st_freeOp := st_freeOp st; st_freeOpEnd := st_freeOpEnd st; st_pc := pc |}.

(** The compare-and-exchange of the free list of [i] with the entries to give back
    in front of it. *)
(* src/src/proxy.cc:929-943 ncclProxyGetPostedOps *)
Definition giveBack (i : nat) (old : Z) (todo : list nat) (pool : ncclProxyOpsPool) (st : progress)
    : ncclProxyOpsPool * progress :=
  let pool := setNext (hset (next pool) (st_freeOpEnd st i) old) pool in
  if freeOps pool i =? old
  then ({| next := next pool; ops := ops pool; nextOps := nextOps pool; nextOpsEnd := nextOpsEnd pool;
           freeOps := setAt (freeOps pool) i (st_freeOp st i) |},
        setPc (PFree todo) st)
  else (pool, setPc (PExchange i (freeOps pool i) todo) st).

(** ** The state machine *)

(** [log r] are the operations rank [r] has appended, [added] those the thread has
    given to [ProxyAppend]; [failed r]: an append of rank [r] has returned an error. *)
Record system := {
  sys_pool : ncclProxyOpsPool;
  sys_rank : nat -> ncclProxyOps;
  sys_thread : progress;
  sys_failed : nat -> bool;
  sys_log : nat -> list Op;
  sys_added : list (nat * Op) }.

(** The steps of rank [r]: the exchange of the free list while it waits for an
    entry, the rest of an append, and the post at the end of a launch. *)
Inductive rankStep (r : nat) (s : system) : system -> Prop :=
  | p_refill pool me :
      sys_failed s r = false -> po_freeOp (sys_rank s r) = -1 ->
      refill r (sys_pool s) (sys_rank s r) = (pool, me) ->
      rankStep r s {| sys_pool := pool; sys_rank := setAt (sys_rank s) r me; sys_thread := sys_thread s;
                      sys_failed := sys_failed s; sys_log := sys_log s; sys_added := sys_added s |}
  | p_append o res pool me :
      sys_failed s r = false -> hasConnection o = true ->
      ncclLocalOpAppend (sys_pool s) (sys_rank s r) o = Some (res, pool, me) ->
      rankStep r s {| sys_pool := pool; sys_rank := setAt (sys_rank s) r me; sys_thread := sys_thread s;
                      sys_failed := setAt (sys_failed s) r (bool_decide (res <> ncclSuccess));
                      sys_log := setAt (sys_log s) r (sys_log s r ++ [o]); sys_added := sys_added s |}
  | p_start pool me :
      sys_failed s r = false ->
      ncclProxyStart (sys_pool s) (sys_rank s r) = (pool, me) ->
      rankStep r s {| sys_pool := pool; sys_rank := setAt (sys_rank s) r me; sys_thread := sys_thread s;
                      sys_failed := sys_failed s; sys_log := sys_log s; sys_added := sys_added s |}.

(** The steps of the thread: it takes the posted chain, processes a batch, and
    gives the entries back rank by rank. *)
Inductive threadStep (s : system) : system -> Prop :=
  | p_take pool st :
      st_pc (sys_thread s) = PIdle -> st_nextOps (sys_thread s) = -1 -> nextOps (sys_pool s) <> -1 ->
      takePosted (sys_pool s) (sys_thread s) = (pool, st) ->
      threadStep s {| sys_pool := pool; sys_rank := sys_rank s; sys_thread := st;
                      sys_failed := sys_failed s; sys_log := sys_log s; sys_added := sys_added s |}
  | p_process append pool st added fuel :
      st_pc (sys_thread s) = PIdle -> st_nextOps (sys_thread s) <> -1 ->
      processOps append fuel (sys_pool s) (noFree (sys_thread s)) 0 (-1) 0 [] = Some (true, pool, st, added) ->
      threadStep s {| sys_pool := pool; sys_rank := sys_rank s; sys_thread := setPc (PFree (seq 0 tpLocalnRanks)) st;
                      sys_failed := sys_failed s; sys_log := sys_log s; sys_added := sys_added s ++ added |}
  | p_free i todo :
      st_pc (sys_thread s) = PFree (i :: todo) ->
      threadStep s {| sys_pool := sys_pool s; sys_rank := sys_rank s;
                      sys_thread := setPc (if st_freeOp (sys_thread s) i =? -1 then PFree todo
                                           else PExchange i (freeOps (sys_pool s) i) todo) (sys_thread s);
                      sys_failed := sys_failed s; sys_log := sys_log s; sys_added := sys_added s |}
  | p_return :
      st_pc (sys_thread s) = PFree [] ->
      threadStep s {| sys_pool := sys_pool s; sys_rank := sys_rank s; sys_thread := setPc PIdle (sys_thread s);
                      sys_failed := sys_failed s; sys_log := sys_log s; sys_added := sys_added s |}
  | p_exchange i old todo pool st :
      st_pc (sys_thread s) = PExchange i old todo ->
      giveBack i old todo (sys_pool s) (sys_thread s) = (pool, st) ->
      threadStep s {| sys_pool := pool; sys_rank := sys_rank s; sys_thread := st;
                      sys_failed := sys_failed s; sys_log := sys_log s; sys_added := sys_added s |}.

(** The return with an error in the middle of a batch: the operations taken so far
    stay with [ProxyAppend], the thread's chain starts at the one that failed, and the
    local lists of entries to give back are dropped.  The caller stores the error
    and goes on (src/src/proxy.cc:1027-1034). *)
(* src/src/proxy.cc:913-915 ncclProxyGetPostedOps *)
Inductive failStep (s : system) : system -> Prop :=
  | p_fail append pool st added fuel :
      st_pc (sys_thread s) = PIdle -> st_nextOps (sys_thread s) <> -1 ->
      processOps append fuel (sys_pool s) (noFree (sys_thread s)) 0 (-1) 0 [] = Some (false, pool, st, added) ->
      failStep s {| sys_pool := pool; sys_rank := sys_rank s; sys_thread := setPc PIdle st;
                    sys_failed := sys_failed s; sys_log := sys_log s; sys_added := sys_added s ++ added |}.

(** The steps of the machine in which no batch fails, and all of them. *)
Definition quietStep (s s' : system) : Prop := (exists r, (r < tpLocalnRanks)%nat /\ rankStep r s s') \/ threadStep s s'.

Definition poolStep (s s' : system) : Prop := quietStep s s' \/ failStep s s'.

(** ** The initial state *)

(** The links of the first [n] entries of a block. *)
Fixpoint linkEntries (h : heap) (base : Z) (n : nat) : heap :=
  match n with
  | O => h
  | S n => hset (linkEntries h base n) (base + Z.of_nat n) (base + Z.of_nat n + 1)
  end.

(** The blocks of the first [n] ranks. *)
(* src/src/proxy.cc:1569-1577 proxyProgressInit *)
Fixpoint initBlocks (h : heap) (n : nat) : heap :=
  match n with
  | O => h
  | S r =>
      hset (linkEntries (initBlocks h r) (Z.of_nat r * MAX_OPS_PER_PEER) (Z.to_nat (MAX_OPS_PER_PEER - 1)))
           ((Z.of_nat r + 1) * MAX_OPS_PER_PEER - 1) (-1)
  end.

(** The pool, from the links [h] in fresh memory.  The free lists of numbers that
    are no ranks are never read. *)
(* src/src/proxy.cc:1570-1577 proxyProgressInit *)
Definition initPool (h : heap) : ncclProxyOpsPool := {|
  next := initBlocks h tpLocalnRanks; ops := fun _ => None; nextOps := -1; nextOpsEnd := -1;
  freeOps := fun r => if (r <? tpLocalnRanks)%nat then Z.of_nat r * MAX_OPS_PER_PEER else -1 |}.

(* src/src/proxy.cc:1291-1298 ncclProxyConnect *)
Definition initRank : ncclProxyOps := {| po_count := 0; po_freeOp := -1; po_nextOps := -1; po_nextOpsEnd := -1 |}.

(* src/src/proxy.cc:997-1001 ncclProxyProgress *)
Definition initThread : progress := {| st_nextOps := -1; st_freeOp := fun _ => -1; st_freeOpEnd := fun _ => -1; st_pc := PIdle |}.

Definition initSystem (h : heap) : system := {|
  sys_pool := initPool h; sys_rank := fun _ => initRank; sys_thread := initThread;
  sys_failed := fun _ => false; sys_log := fun _ => []; sys_added := [] |}.

(** ** Where the entries are *)

Inductive place :=
  | InFree (r : nat)
  | InPool (r : nat)
  | InPending (r : nat)
  | InLocal (r : nat)
  | Posted
  | Taken
  | Lost.

#[local] Instance place_eq_dec : EqDecision place.
Proof. solve_decision. Defined.

(** The list of the entries at each place. *)
Local Abbreviation cells := (place -> list Z).

Definition upd (cell : cells) (p : place) (l : list Z) : cells := fun q => if decide (q = p) then l else cell q.

(** The entries of a rank stay with it until they are posted. *)
Definition allowed (p : place) (x : Z) : Prop :=
  0 <= x < Z.of_nat tpLocalnRanks * MAX_OPS_PER_PEER /\
  match p with InFree r | InPool r | InPending r | InLocal r => peerOf x = r | Posted | Taken | Lost => True end.

(** Each entry is at one place. *)
Record partition (cell : cells) : Prop := {
  pt_nodup : forall p, NoDup (cell p);
  pt_disjoint : forall p q x, x ∈ cell p -> x ∈ cell q -> p = q;
  pt_allowed : forall p x, x ∈ cell p -> allowed p x;
  pt_cover : forall x, 0 <= x < Z.of_nat tpLocalnRanks * MAX_OPS_PER_PEER -> exists p, x ∈ cell p }.

Lemma pool_upd_eq cell p l : upd cell p l p = l.
Proof. unfold upd. by rewrite decide_True. Qed.

Lemma upd_ne cell p q l : q <> p -> upd cell p l q = cell q.
Proof. intros. unfold upd. by rewrite decide_False. Qed.

Lemma partition_move cell p q lp lq :
  partition cell -> p <> q -> lp ++ lq ≡ₚ cell p ++ cell q ->
  (forall x, x ∈ lp -> allowed p x) -> (forall x, x ∈ lq -> allowed q x) ->
  partition (upd (upd cell p lp) q lq).
Proof.
  intros P Hpq Hperm Hp Hq.
  assert (NoDup (lp ++ lq)) as Hnd.
  { rewrite Hperm. apply NoDup_app. split_and!; [apply P| |apply P]. intros x H1 H2. by apply Hpq, (pt_disjoint _ P _ _ x). }
  apply NoDup_app in Hnd as (Hn1 & Hn12 & Hn2).
  assert (forall x, x ∈ lp \/ x ∈ lq <-> x ∈ cell p \/ x ∈ cell q) as Hel.
  { intros x. rewrite <- !elem_of_app. by rewrite Hperm. }
  assert (forall a, upd (upd cell p lp) q lq a = if decide (a = q) then lq else if decide (a = p) then lp else cell a) as Eu by done.
  constructor.
  - intros a. rewrite Eu. repeat case_decide; [done|done|apply P].
  - intros a b x. rewrite !Eu. intros Ha Hb.
    assert (forall c, x ∈ cell c -> c <> p -> c <> q -> x ∈ lp \/ x ∈ lq -> False) as Hout.
    { intros c Hc Hcp Hcq [H|H]%Hel; [by apply Hcp, (pt_disjoint _ P _ _ x)|by apply Hcq, (pt_disjoint _ P _ _ x)]. }
    repeat case_decide; subst; try done; try (by destruct (Hn12 x)); try (exfalso; by eauto). by apply (pt_disjoint _ P _ _ x).
  - intros a x. rewrite Eu. repeat case_decide; subst; auto. apply P.
  - intros x Hx. destruct (pt_cover _ P x Hx) as [a Ha].
    destruct (decide (a = p)) as [->|Hap]; [|destruct (decide (a = q)) as [->|Haq]].
    + destruct (proj2 (Hel x) (or_introl Ha)); [exists p|exists q]; rewrite Eu; repeat case_decide; done.
    + destruct (proj2 (Hel x) (or_intror Ha)); [exists p|exists q]; rewrite Eu; repeat case_decide; done.
    + exists a. rewrite Eu. repeat case_decide; done.
Qed.

(** ** The invariant *)

Definition startOf (s : system) (p : place) : Z :=
  match p with
  | InFree r => po_freeOp (sys_rank s r)
  | InPool r => freeOps (sys_pool s) r
  | InPending r => po_nextOps (sys_rank s r)
  | InLocal r => st_freeOp (sys_thread s) r
  | Posted => nextOps (sys_pool s)
  | Taken => st_nextOps (sys_thread s)
  | Lost => -1
  end.

(** The entries to give back are linked up to the last one, whose link is set when
    they are given back; those lost when [ProxyAppend] fails are in no chain. *)
Definition chainOk (h : heap) (start : Z) (p : place) (l : list Z) : Prop :=
  match p with
  | InLocal _ => l <> [] -> exists q, iseg h start l q
  | Lost => True
  | _ => iseg h start l (-1)
  end.

Definition endOf (s : system) (p : place) : option Z :=
  match p with
  | InPending r => Some (po_nextOpsEnd (sys_rank s r))
  | InLocal r => Some (st_freeOpEnd (sys_thread s) r)
  | Posted => Some (nextOpsEnd (sys_pool s))
  | _ => None
  end.

(** The ranks whose entries the thread has not given back yet. *)
Definition todoOf (pc : progressPc) : list nat :=
  match pc with PIdle => [] | PFree todo => todo | PExchange i _ todo => i :: todo end.

Definition ofRank (r : nat) (l : list Z) : list Z := filter (fun x => peerOf x = r) l.

Definition addedOf (r : nat) (l : list (nat * Op)) : list Op := (filter (fun a : nat * Op => a.1 = r) l).*2.

(** The entries of rank [r] on their way to the thread, oldest first. *)
Definition inFlight (cell : cells) (r : nat) : list Z := ofRank r (cell Taken ++ cell Posted) ++ cell (InPending r).

Record inv (s : system) (cell : cells) : Prop := {
  i_part : partition cell;
  i_chain : forall p, chainOk (next (sys_pool s)) (startOf s p) p (cell p);
  i_end : forall p e, endOf s p = Some e -> cell p <> [] -> last (cell p) = Some e;
  i_count : forall r, po_count (sys_rank s r) = Z.of_nat (length (cell (InPending r)));
  i_full : forall r, sys_failed s r = false -> po_count (sys_rank s r) < MAX_OPS_PER_PEER;
  i_todo : NoDup (todoOf (st_pc (sys_thread s)));
  i_local : forall r, r ∉ todoOf (st_pc (sys_thread s)) -> cell (InLocal r) = [];
  i_none : forall r, r ∈ todoOf (st_pc (sys_thread s)) -> cell (InLocal r) = [] -> st_freeOp (sys_thread s) r = -1;
  i_exchange : forall i old todo, st_pc (sys_thread s) = PExchange i old todo -> cell (InLocal i) <> [];
  i_fifo : forall r, Some <$> sys_log s r = (Some <$> addedOf r (sys_added s)) ++ (ops (sys_pool s) <$> inFlight cell r);
  i_conn : forall r, Forall (fun o => hasConnection o = true) (sys_log s r) }.

Lemma chainOk_ext h h' start p l : (forall x, x ∈ l -> h' x = h x) -> chainOk h start p l -> chainOk h' start p l.
Proof.
  intros E. destruct p; simpl; try done; try by apply iseg_ext. intros H Hl. destruct (H Hl) as [q Hq]. exists q. by eapply iseg_ext.
Qed.

Lemma chainOk_hset h start p l y v : y ∉ l -> chainOk h start p l -> chainOk (hset h y v) start p l.
Proof. intros Hy. apply chainOk_ext. intros x Hx. apply hset_ne. set_solver. Qed.

Lemma partition_out cell p q x : partition cell -> x ∈ cell p -> q <> p -> x ∉ cell q.
Proof. intros P Hp Hqp Hq. by apply Hqp, (pt_disjoint _ P _ _ x). Qed.

Lemma setAt_eq {A} (f : nat -> A) i v : setAt f i v i = v.
Proof. unfold setAt. by rewrite Nat.eqb_refl. Qed.

Lemma setAt_ne {A} (f : nat -> A) i j v : j <> i -> setAt f i v j = f j.
Proof. intros H. unfold setAt. by rewrite (proj2 (Nat.eqb_neq j i)). Qed.

Lemma setAt_proj {A B} (g : A -> B) f i v j : g v = g (f i) -> g (setAt f i v j) = g (f j).
Proof. intros E. destruct (decide (j = i)) as [->|]; [by rewrite setAt_eq|by rewrite setAt_ne]. Qed.

(** Splits on whether the place or rank is the one that changes. *)
Ltac places :=
  unfold upd; repeat case_decide; simplify_eq; simpl;
  repeat (rewrite setAt_eq || (rewrite setAt_ne by congruence)); simpl.

Lemma inv_refill s cell r pool me :
  inv s cell -> po_freeOp (sys_rank s r) = -1 -> refill r (sys_pool s) (sys_rank s r) = (pool, me) ->
  inv {| sys_pool := pool; sys_rank := setAt (sys_rank s) r me; sys_thread := sys_thread s;
         sys_failed := sys_failed s; sys_log := sys_log s; sys_added := sys_added s |}
      (upd (upd cell (InFree r) (cell (InPool r))) (InPool r) []).
Proof.
  intros I Hf [= <- <-].
  assert (cell (InFree r) = []) as Hnil by (apply (iseg_nil (next (sys_pool s)) _ _ (i_chain _ _ I (InFree r))); done).
  destruct I as [P Hch Hend Hcnt Hfull Htodo Hloc Hnone Hex Hfifo Hconn]. constructor; simpl; try done.
  - apply partition_move; [done|done| | |].
    + by rewrite Hnil, app_nil_r.
    + intros x Hx. apply (pt_allowed _ P) in Hx. done.
    + intros x Hx. by apply elem_of_nil in Hx.
  - intros p. pose proof (Hch p) as Hp. destruct p as [r'|r'|r'|r'| | |]; places; try done.
    + apply (Hch (InPool r)).
    + by rewrite Nat.eqb_refl.
    + by rewrite (proj2 (Nat.eqb_neq r' r)) by congruence.
    + by rewrite (setAt_proj po_nextOps).
  - intros p e. pose proof (Hend p e) as He. destruct p as [r'|r'|r'|r'| | |]; simpl in *; try done.
    by rewrite (setAt_proj po_nextOpsEnd).
  - intros r'. by rewrite (setAt_proj po_count).
  - intros r'. by rewrite (setAt_proj po_count); auto.
Qed.

Lemma ofRank_app r l1 l2 : ofRank r (l1 ++ l2) = ofRank r l1 ++ ofRank r l2.
Proof. apply filter_app. Qed.

Lemma ofRank_own r r' l : (forall x, x ∈ l -> peerOf x = r) -> ofRank r' l = if decide (r' = r) then l else [].
Proof.
  intros H. induction l as [|x l IH]; [by case_decide|]. unfold ofRank in *. rewrite filter_cons, IH by set_solver.
  rewrite (H x) by set_solver. repeat case_decide; congruence.
Qed.

Lemma pending_own cell r x : partition cell -> x ∈ cell (InPending r) -> peerOf x = r.
Proof. intros P Hx. by apply (pt_allowed _ P) in Hx as [_ ?]. Qed.

(** A chain posted by a rank is appended to the chain of the pool. *)
Lemma post_chain pool h cell first A x :
  partition cell -> iseg h (nextOps pool) (cell Posted) (-1) -> iseg h first (A ++ [x]) (-1) ->
  (cell Posted <> [] -> last (cell Posted) = Some (nextOpsEnd pool)) ->
  (forall y, y ∈ A ++ [x] -> y ∉ cell Posted) ->
  (forall y, next pool y = h y) ->
  iseg (next (ncclProxyPost pool first x)) (nextOps (ncclProxyPost pool first x)) (cell Posted ++ A ++ [x]) (-1).
Proof.
  intros P Hq HA He Hd Hh. simpl. destruct (Z.eqb_spec (nextOps pool) (-1)) as [E|E].
  - apply (iseg_nil h _ _ Hq) in E as ->. simpl. eapply iseg_ext; [|done]. done.
  - assert (cell Posted <> []) as Hne by (intros ?; apply E; by apply (iseg_nil h _ _ Hq)).
    specialize (He Hne). apply last_Some in He as [L HL]. pose proof (pt_nodup _ P Posted) as Hnd. rewrite HL in *.
    apply NoDup_app in Hnd as (_ & Hnd & _).
    eapply (iseg_ext (hset h (nextOpsEnd pool) first)); [intros y _; unfold hset; by case_match|].
    eapply iseg_join; [|set_solver|done|done]. intros H%Hnd. set_solver.
Qed.

(** Links outside of the posted chain are kept. *)
Lemma post_next pool h l first x y :
  iseg h (nextOps pool) l (-1) -> (l <> [] -> last l = Some (nextOpsEnd pool)) -> y ∉ l ->
  next (ncclProxyPost pool first x) y = next pool y.
Proof.
  intros Hl He Hy. simpl. destruct (Z.eqb_spec (nextOps pool) (-1)) as [|E]; [done|].
  rewrite hset_ne; [done|]. intros ->. apply Hy. eapply last_Some_elem_of, He. intros ?. by apply E, (iseg_nil h _ _ Hl).
Qed.

Lemma inv_post s cell r A x B pool0 me failed :
  inv s cell -> cell (InPending r) = A ++ x :: B ->
  (forall y, next pool0 y = hset (next (sys_pool s)) x (-1) y) ->
  ops pool0 = ops (sys_pool s) -> nextOps pool0 = nextOps (sys_pool s) ->
  nextOpsEnd pool0 = nextOpsEnd (sys_pool s) -> freeOps pool0 = freeOps (sys_pool s) ->
  po_count me = Z.of_nat (length B) -> po_freeOp me = po_freeOp (sys_rank s r) ->
  po_nextOps me = next (sys_pool s) x -> (B <> [] -> po_nextOpsEnd me = po_nextOpsEnd (sys_rank s r)) ->
  (forall r', r' <> r -> failed r' = sys_failed s r') -> (failed r = false -> po_count me < MAX_OPS_PER_PEER) ->
  inv {| sys_pool := ncclProxyPost pool0 (po_nextOps (sys_rank s r)) x; sys_rank := setAt (sys_rank s) r me;
         sys_thread := sys_thread s; sys_failed := failed; sys_log := sys_log s; sys_added := sys_added s |}
      (upd (upd cell (InPending r) B) Posted (cell Posted ++ A ++ [x])).
Proof.
  intros [P Hch Hend Hcnt Hfull Htodo Hloc Hnone Hex Hfifo Hconn] HAB Hh Hops Hn He Hf Hc1 Hc2 Hc3 Hc4 Hf1 Hf2.
  pose proof (pt_nodup _ P (InPending r)) as Hnd. rewrite HAB in Hnd.
  apply NoDup_app in Hnd as (_ & HdA & [HxB _]%NoDup_cons).
  pose proof (Hch (InPending r)) as Hpend. simpl in Hpend. rewrite HAB in Hpend.
  apply iseg_app in Hpend as (m & HA & -> & Hx0 & HB).
  assert (forall y, y ∈ A ++ [x] -> y ∈ cell (InPending r)) as HinA by (rewrite HAB; set_solver).
  pose proof (Hch Posted) as Hq. simpl in Hq. rewrite <- Hn in Hq.
  pose proof (Hend Posted _ eq_refl) as HqE. rewrite <- He in HqE.
  set (h' := next (ncclProxyPost pool0 (po_nextOps (sys_rank s r)) x)).
  assert (forall y, y ∉ cell Posted -> y <> x -> h' y = next (sys_pool s) y) as Hframe.
  { intros y Hy Hyx. unfold h'. erewrite post_next; [|done|done|done]. rewrite Hh. by apply hset_ne. }
  assert (forall p, p <> Posted -> p <> InPending r -> chainOk h' (startOf s p) p (cell p)) as Hother.
  { intros p Hp1 Hp2. eapply chainOk_ext; [|apply Hch]. intros y Hy. apply Hframe; [by eapply partition_out|].
    intros ->. eapply partition_out; [done| |done|done]. apply HinA. set_solver. }
  constructor; simpl; try done.
  - apply partition_move; [done|done| | |].
    + rewrite HAB. solve_Permutation.
    + intros y Hy. apply (pt_allowed _ P). rewrite HAB. set_solver.
    + intros y Hy. apply elem_of_app in Hy as [Hy|Hy]; [by apply (pt_allowed _ P)|].
      apply HinA, (pt_allowed _ P) in Hy as [? _]. done.
  - intros p. fold h'. pose proof (Hother p) as Hp. destruct p as [r'|r'|r'|r'| | |]; places; try (by apply Hp).
    + rewrite (setAt_proj po_freeOp) by done. by apply Hp.
    + rewrite Hf. by apply Hp.
    + rewrite Hc3. eapply iseg_ext; [|done]. intros y Hy. apply Hframe; [|by intros ->].
      apply (partition_out cell (InPending r)); [done| |done]. rewrite HAB. set_solver.
    + apply (post_chain pool0 (hset (next (sys_pool s)) x (-1)) cell); try done.
      * apply iseg_hset; [|done]. apply (partition_out cell (InPending r)); [done| |done]. apply HinA. set_solver.
      * apply (iseg_relink _ _ _ _ (next (sys_pool s) x)); [set_solver|]. apply iseg_app. by exists x.
      * intros y Hy. apply (partition_out cell (InPending r)); [done|by apply HinA|done].
  - intros p e. pose proof (Hend p e) as Hp. destruct p as [r'|r'|r'|r'| | |]; places; try done.
    + intros [= <-] HB'. rewrite Hc4 by done. clear Hp. pose proof (Hend (InPending r) _ eq_refl) as Hp. simpl in Hp. rewrite HAB, last_app_cons, last_cons in Hp.
      destruct (last B) eqn:EB; [by apply Hp; destruct A|by apply last_None in EB].
    + rewrite app_assoc, last_snoc. by intros [= <-] _.
  - intros r'. destruct (decide (r' = r)) as [->|]; places; done.
  - intros r' Hr'. destruct (decide (r' = r)) as [->|]; places; auto.
    rewrite Hf1 in Hr' by done. auto.
  - intros r'. rewrite Hfifo, Hops. f_equal. f_equal. unfold inFlight.
    rewrite !(upd_ne _ Posted Taken), !(upd_ne _ _ Taken), pool_upd_eq by done.
    rewrite (upd_ne _ Posted) by done. rewrite (app_assoc (cell Taken)), (ofRank_app r' (cell Taken ++ cell Posted)), <- app_assoc. f_equal.
    rewrite (ofRank_own r _ (A ++ [x])) by eauto using pending_own.
    unfold upd. repeat case_decide; simplify_eq; [|done]. by rewrite HAB, <- app_assoc.
Qed.

Lemma last_split (l : list Z) e : last l = Some e -> exists l', l = l' ++ [e].
Proof. apply last_Some. Qed.

Lemma inv_ranks s cell ranks :
  inv s cell -> (forall r, ranks r = sys_rank s r) ->
  inv {| sys_pool := sys_pool s; sys_rank := ranks; sys_thread := sys_thread s;
         sys_failed := sys_failed s; sys_log := sys_log s; sys_added := sys_added s |} cell.
Proof.
  intros [P Hch Hend Hcnt Hfull Htodo Hloc Hnone Hex Hfifo Hconn] Es. constructor; simpl; try done.
  - intros p. specialize (Hch p). destruct p; simpl in *; rewrite ?Es; done.
  - intros p e. specialize (Hend p e). destruct p; simpl in *; rewrite ?Es; done.
  - intros r'. by rewrite Es.
  - intros r'. by rewrite Es; auto.
Qed.

Lemma pool_inv_start s cell r pool me :
  inv s cell -> ncclProxyStart (sys_pool s) (sys_rank s r) = (pool, me) ->
  exists cell', inv {| sys_pool := pool; sys_rank := setAt (sys_rank s) r me; sys_thread := sys_thread s;
         sys_failed := sys_failed s; sys_log := sys_log s; sys_added := sys_added s |} cell' /\ cell' Lost = cell Lost.
Proof.
  intros I. unfold ncclProxyStart. pose proof (i_chain _ _ I (InPending r)) as Hch. simpl in Hch.
  destruct (Z.eqb_spec (po_nextOps (sys_rank s r)) (-1)) as [E|E]; intros [= <- <-].
  - exists cell. split; [|done]. apply inv_ranks; [done|]. intros r'. by apply (setAt_proj id).
  - assert (cell (InPending r) <> []) as Hne by (intros ?; apply E; by apply (iseg_nil _ _ _ Hch)).
    destruct (last_split _ _ (i_end _ _ I (InPending r) _ eq_refl Hne)) as [A HA]. rewrite HA in Hch.
    apply iseg_app in Hch as (m & _ & -> & _ & Hx). simpl in Hx.
    eexists. split; [eapply inv_post with (B := []); try done|done].
    intros y. unfold hset. case_match eqn:Ey; [|done]. apply Z.eqb_eq in Ey as ->. done.
Qed.

Lemma pool_inv_take s cell pool st :
  inv s cell -> st_pc (sys_thread s) = PIdle -> st_nextOps (sys_thread s) = -1 ->
  takePosted (sys_pool s) (sys_thread s) = (pool, st) ->
  inv {| sys_pool := pool; sys_rank := sys_rank s; sys_thread := st;
         sys_failed := sys_failed s; sys_log := sys_log s; sys_added := sys_added s |}
      (upd (upd cell Taken (cell Posted)) Posted []).
Proof.
  intros I Hpc Hn [= <- <-].
  assert (cell Taken = []) as Hnil by (apply (iseg_nil (next (sys_pool s)) _ _ (i_chain _ _ I Taken)); done).
  destruct I as [P Hch Hend Hcnt Hfull Htodo Hloc Hnone Hex Hfifo Hconn]. constructor; simpl; try done.
  - apply partition_move; [done|done| | |].
    + by rewrite Hnil, app_nil_r.
    + intros x Hx. apply (pt_allowed _ P) in Hx. done.
    + intros x Hx. by apply elem_of_nil in Hx.
  - intros p. pose proof (Hch p) as Hp. destruct p as [r'|r'|r'|r'| | |]; places; try done. apply (Hch Posted).
  - intros p e. pose proof (Hend p e) as He. destruct p as [r'|r'|r'|r'| | |]; places; done.
  - intros r. rewrite Hfifo. do 2 f_equal. unfold inFlight. places. by rewrite Hnil, app_nil_r.
Qed.

Lemma inv_free s cell i todo :
  inv s cell -> st_pc (sys_thread s) = PFree (i :: todo) ->
  inv {| sys_pool := sys_pool s; sys_rank := sys_rank s;
         sys_thread := setPc (if st_freeOp (sys_thread s) i =? -1 then PFree todo
                              else PExchange i (freeOps (sys_pool s) i) todo) (sys_thread s);
         sys_failed := sys_failed s; sys_log := sys_log s; sys_added := sys_added s |} cell.
Proof.
  intros [P Hch Hend Hcnt Hfull Htodo Hloc Hnone Hex Hfifo Hconn] Hpc. rewrite Hpc in *. simpl in *.
  apply NoDup_cons in Htodo as [Hi Htodo].
  destruct (Z.eqb_spec (st_freeOp (sys_thread s) i) (-1)) as [E|E].
  - constructor; simpl; try done.
    + intros r Hr. destruct (decide (r = i)) as [->|]; [|apply Hloc; set_solver].
      destruct (cell (InLocal i)) as [|x l] eqn:El; [done|]. pose proof (Hch (InLocal i)) as Hx. simpl in Hx. rewrite El in Hx.
      destruct Hx as [q (Hx & ? & _)]; [done|]. lia.
    + intros r Hr. apply Hnone. set_solver.
  - constructor; simpl; try done; [by apply NoDup_cons|].
    intros ??? [= <- <- <-] El. apply E, Hnone; [set_solver|done].
Qed.

Lemma pool_inv_return s cell :
  inv s cell -> st_pc (sys_thread s) = PFree [] ->
  inv {| sys_pool := sys_pool s; sys_rank := sys_rank s; sys_thread := setPc PIdle (sys_thread s);
         sys_failed := sys_failed s; sys_log := sys_log s; sys_added := sys_added s |} cell.
Proof.
  intros [P Hch Hend Hcnt Hfull Htodo Hloc Hnone Hex Hfifo Hconn] Hpc. rewrite Hpc in *. by constructor.
Qed.

Lemma pool_inv_exchange s cell i old todo pool st :
  inv s cell -> st_pc (sys_thread s) = PExchange i old todo ->
  giveBack i old todo (sys_pool s) (sys_thread s) = (pool, st) ->
  exists cell', inv {| sys_pool := pool; sys_rank := sys_rank s; sys_thread := st;
    sys_failed := sys_failed s; sys_log := sys_log s; sys_added := sys_added s |} cell' /\
    (forall p, p <> InPool i -> p <> InLocal i -> cell' p = cell p).
Proof.
  intros [P Hch Hend Hcnt Hfull Htodo Hloc Hnone Hex Hfifo Hconn] Hpc Hg.
  pose proof (Hex _ _ _ Hpc) as Hne. rewrite Hpc in *. simpl in *. apply NoDup_cons in Htodo as [Hi Htodo].
  pose proof (Hend (InLocal i) _ eq_refl Hne) as He. set (e := st_freeOpEnd (sys_thread s) i) in *.
  destruct (last_split _ _ He) as [L HL]. destruct (Hch (InLocal i) Hne) as [q Hq]. rewrite HL in Hq.
  assert (e ∉ L) as HeL.
  { pose proof (pt_nodup _ P (InLocal i)) as Hnd. rewrite HL in Hnd. apply NoDup_app in Hnd as (_ & Hnd & _).
    intros H%Hnd. set_solver. }
  assert (forall p, p <> InLocal i -> e ∉ cell p) as Hout.
  { intros p Hp. apply (partition_out cell (InLocal i)); [done|rewrite HL; set_solver|done]. }
  assert (forall p, p <> InLocal i -> chainOk (hset (next (sys_pool s)) e old) (startOf s p) p (cell p)) as Hother.
  { intros p Hp. apply chainOk_hset; auto. }
  unfold giveBack in Hg. simpl in Hg. fold e in Hg.
  destruct (Z.eqb_spec (freeOps (sys_pool s) i) old) as [E|E]; injection Hg as <- <-.
  - exists (upd (upd cell (InLocal i) []) (InPool i) (cell (InLocal i) ++ cell (InPool i))).
    split; [|by intros p Hp1 Hp2; rewrite !upd_ne]. constructor; simpl; try done.
    + apply partition_move; [done|done|done| |].
      * intros x Hx. by apply elem_of_nil in Hx.
      * intros x Hx. apply elem_of_app in Hx as [Hx|Hx]; apply (pt_allowed _ P) in Hx; done.
    + intros p. pose proof (Hother p) as Hp. destruct p as [r'|r'|r'|r'| | |]; places; try (apply Hp; congruence); try (by intros []).
      rewrite HL. eapply iseg_join; [done|apply Hout; done|done|]. apply (Hch (InPool i)).
    + intros p e'. pose proof (Hend p e') as Hp. destruct p as [r'|r'|r'|r'| | |]; places; done.
    + intros r Hr. destruct (decide (r = i)) as [->|]; places; try done. apply Hloc. set_solver.
    + intros r Hr. destruct (decide (r = i)) as [->|]; places; try done. apply Hnone. set_solver.
  - exists cell. split; [|done]. constructor; simpl; try done; [|by apply NoDup_cons|naive_solver].
    intros p. destruct (decide (p = InLocal i)) as [->|Hp].
    + intros _. exists old. simpl. rewrite HL. by eapply iseg_relink.
    + specialize (Hother p Hp). by destruct p.
Qed.

(** The links after an entry is appended to the chain of a rank. *)
Definition appendHeap (h : heap) (me : ncclProxyOps) (x : Z) : heap :=
  if po_nextOps me =? -1 then hset h x (-1) else hset (hset h x (-1)) (po_nextOpsEnd me) x.

Lemma append_chain h me N x :
  iseg h (po_nextOps me) N (-1) -> (N <> [] -> last N = Some (po_nextOpsEnd me)) -> NoDup N -> x ∉ N -> 0 <= x ->
  iseg (appendHeap h me x) (if po_nextOps me =? -1 then x else po_nextOps me) (N ++ [x]) (-1).
Proof.
  intros HN He Hnd Hx Hx0. unfold appendHeap. destruct (Z.eqb_spec (po_nextOps me) (-1)) as [E|E].
  - apply (iseg_nil h _ _ HN) in E as ->. simpl. by rewrite hset_eq.
  - assert (N <> []) as Hne by (intros ?; apply E; by apply (iseg_nil h _ _ HN)).
    destruct (last_split _ _ (He Hne)) as [L ->]. apply NoDup_app in Hnd as (_ & Hnd & _).
    eapply iseg_join; [intros H%Hnd; set_solver|set_solver|by apply iseg_hset|]. simpl. by rewrite hset_eq.
Qed.

Lemma append_frame h me N x y :
  iseg h (po_nextOps me) N (-1) -> (N <> [] -> last N = Some (po_nextOpsEnd me)) -> y ∉ N -> y <> x ->
  appendHeap h me x y = h y.
Proof.
  intros HN He Hy Hyx. unfold appendHeap. destruct (Z.eqb_spec (po_nextOps me) (-1)) as [E|E]; [by apply hset_ne|].
  rewrite !hset_ne; [done|done|]. intros ->. apply Hy. eapply last_Some_elem_of, He. intros ?. by apply E, (iseg_nil h _ _ HN).
Qed.

Lemma inFlight_in cell r x : x ∈ inFlight cell r -> exists p, x ∈ cell p /\ forall r', p <> InFree r' /\ p <> InLocal r'.
Proof.
  unfold inFlight, ofRank. rewrite elem_of_app, list_elem_of_filter, elem_of_app. intros [[_ [H|H]]|H]; eexists; (split; [done|]); done.
Qed.

Lemma fmap_frame {B} (f : Z -> B) x v (l : list Z) : x ∉ l -> (fun y => if y =? x then v else f y) <$> l = f <$> l.
Proof. intros Hx. apply list_fmap_ext. intros i y Hy%list_elem_of_lookup_2. case_match eqn:E; [|done]. apply Z.eqb_eq in E as ->. done. Qed.

Lemma inv_append_one s cell r o F x me failed :
  inv s cell -> hasConnection o = true -> cell (InFree r) = x :: F ->
  po_count me = po_count (sys_rank s r) + 1 -> po_freeOp me = next (sys_pool s) x -> po_nextOpsEnd me = x ->
  po_nextOps me = (if po_nextOps (sys_rank s r) =? -1 then x else po_nextOps (sys_rank s r)) ->
  (forall r', r' <> r -> failed r' = sys_failed s r') -> (failed r = false -> po_count me < MAX_OPS_PER_PEER) ->
  inv {| sys_pool := {| next := appendHeap (next (sys_pool s)) (sys_rank s r) x;
                        ops := fun y => if y =? x then Some o else ops (sys_pool s) y;
                        nextOps := nextOps (sys_pool s); nextOpsEnd := nextOpsEnd (sys_pool s); freeOps := freeOps (sys_pool s) |};
         sys_rank := setAt (sys_rank s) r me; sys_thread := sys_thread s; sys_failed := failed;
         sys_log := setAt (sys_log s) r (sys_log s r ++ [o]); sys_added := sys_added s |}
      (upd (upd cell (InFree r) F) (InPending r) (cell (InPending r) ++ [x])).
Proof.
  intros [P Hch Hend Hcnt Hfull Htodo Hloc Hnone Hex Hfifo Hconn] Hc HF Hm1 Hm2 Hm3 Hm4 Hf1 Hf2.
  pose proof (Hch (InFree r)) as Hfree. simpl in Hfree. rewrite HF in Hfree. destruct Hfree as (_ & Hx0 & HFc).
  pose proof (pt_nodup _ P (InFree r)) as Hnd. rewrite HF in Hnd. apply NoDup_cons in Hnd as [HxF _].
  assert (x ∈ cell (InFree r)) as Hin by (rewrite HF; set_solver).
  assert (forall p, p <> InFree r -> x ∉ cell p) as Hout by eauto using partition_out.
  set (h := appendHeap (next (sys_pool s)) (sys_rank s r) x).
  assert (forall y, y ∉ cell (InPending r) -> y <> x -> h y = next (sys_pool s) y) as Hframe.
  { intros y. apply append_frame; [apply (Hch (InPending r))|by apply (Hend (InPending r))]. }
  assert (forall p, p <> InFree r -> p <> InPending r -> chainOk h (startOf s p) p (cell p)) as Hother.
  { intros p Hp1 Hp2. eapply chainOk_ext; [|apply Hch]. intros y Hy. apply Hframe; [by eapply partition_out|].
    intros ->. by apply (Hout p). }
  constructor; simpl; try done.
  - apply partition_move; [done|done| | |].
    + rewrite HF. solve_Permutation.
    + intros y Hy. apply (pt_allowed _ P). rewrite HF. set_solver.
    + intros y Hy. apply elem_of_app in Hy as [Hy| ->%list_elem_of_singleton]; [by apply (pt_allowed _ P)|].
      apply (pt_allowed _ P) in Hin. done.
  - intros p. pose proof (Hother p) as Hp. destruct p as [r'|r'|r'|r'| | |]; places; try (apply Hp; congruence).
    + rewrite Hm2. eapply iseg_ext; [|done]. intros y Hy. apply Hframe; [|by intros ->].
      apply (partition_out cell (InFree r)); [done| |done]. rewrite HF. set_solver.
    + rewrite Hm4. apply append_chain; try done; [apply (Hch (InPending r))|by apply (Hend (InPending r))|apply P|by apply Hout].
  - intros p e. pose proof (Hend p e) as Hp. destruct p as [r'|r'|r'|r'| | |]; places; try done.
    rewrite last_snoc. by intros [= <-].
  - intros r'. destruct (decide (r' = r)) as [->|]; places; try done. rewrite Hm1, Hcnt, length_app. simpl. lia.
  - intros r' Hr'. destruct (decide (r' = r)) as [->|]; places; auto. rewrite Hf1 in Hr' by done. auto.
  - intros r'. assert (x ∉ inFlight cell r') as Hnf.
    { intros (p & Hp & Hpf)%inFlight_in. apply (Hout p); [apply Hpf|done]. }
    assert (inFlight (upd (upd cell (InFree r) F) (InPending r) (cell (InPending r) ++ [x])) r' =
            inFlight cell r' ++ if decide (r' = r) then [x] else []) as ->.
    { unfold inFlight. rewrite <- app_assoc. f_equal. destruct (decide (r' = r)) as [->|]; places; try done. by rewrite app_nil_r. }
    rewrite fmap_app, fmap_frame by done. specialize (Hfifo r'). destruct (decide (r' = r)) as [->|]; places.
    + rewrite fmap_app, Hfifo, <- app_assoc, Z.eqb_refl. done.
    + by rewrite app_nil_r.
  - intros r'. destruct (decide (r' = r)) as [->|]; places; [|done]. apply Forall_app. auto.
Qed.

(** The scan finds the last operation of the chain with another count. *)
Lemma scanChain_spec pool e cnt l : e ∉ l -> forall fuel op nops lastOp toSend,
  iseg (next pool) op (l ++ [e]) (-1) -> (length l <= fuel)%nat ->
  exists lo ts, scanChain fuel pool e cnt op nops lastOp toSend = Some (lo, ts) /\
    ((lo = lastOp /\ ts = toSend /\ Forall (fun y => countAt pool y = cnt) l) \/
     (exists A B, l = A ++ lo :: B /\ countAt pool lo <> cnt /\ Forall (fun y => countAt pool y = cnt) B /\
        ts = nops + Z.of_nat (length A) + 1)).
Proof.
  induction l as [|x l IH]; intros He fuel op nops lastOp toSend Hc Hf.
  - destruct Hc as (-> & _). destruct fuel; simpl; rewrite Z.eqb_refl; exists lastOp, toSend; auto.
  - destruct Hc as (-> & Hx & Hc). destruct fuel as [|fuel]; [simpl in Hf; lia|]. simpl.
    rewrite (proj2 (Z.eqb_neq x e)) by set_solver.
    destruct (Z.eqb_spec (countAt pool x) cnt) as [E|E].
    + destruct (IH ltac:(set_solver) fuel (next pool x) (nops + 1) lastOp toSend Hc ltac:(simpl in Hf; lia))
        as (lo & ts & -> & [(-> & -> & H)|(A & B & -> & H1 & H2 & ->)]); eexists _, _; (split; [done|]).
      * left. auto.
      * right. exists (x :: A), B. split_and!; try done. simpl. lia.
    + destruct (IH ltac:(set_solver) fuel (next pool x) (nops + 1) x (nops + 1) Hc ltac:(simpl in Hf; lia))
        as (lo & ts & -> & [(-> & -> & H)|(A & B & -> & H1 & H2 & ->)]); eexists _, _; (split; [done|]); right.
      * exists [], l. split_and!; try done. simpl. lia.
      * exists (x :: A), B. split_and!; try done. simpl. lia.
Qed.

(** What an append leaves: the new entry [x] at the end of the chain of the rank;
    when the chain is full it is cut after the last operation with another count
    than the new one, and the part before the cut is posted. *)
Record appended (s : system) (cell : cells) (r : nat) (o : Op) (x : Z) (F : list Z) (res : ncclResult_t) (s' : system) (cell' : cells) : Prop := {
  ap_inv : inv s' cell';
  ap_log : sys_log s' = setAt (sys_log s) r (sys_log s r ++ [o]);
  ap_free : cell' (InFree r) = F;
  ap_lost : cell' Lost = cell Lost;
  ap_ops : forall z, ops (sys_pool s') z = if z =? x then Some o else ops (sys_pool s) z;
  ap_chain :
    (res = ncclSuccess /\ Z.of_nat (length (cell (InPending r))) + 1 < MAX_OPS_PER_PEER /\
       cell' Posted = cell Posted /\ cell' (InPending r) = cell (InPending r) ++ [x]) \/
    (res = ncclSuccess /\ Z.of_nat (length (cell (InPending r))) + 1 = MAX_OPS_PER_PEER /\ exists A y B,
       cell (InPending r) = A ++ y :: B /\ cell' Posted = cell Posted ++ A ++ [y] /\ cell' (InPending r) = B ++ [x] /\
       countAt (sys_pool s) y <> opCount o /\ Forall (fun z => countAt (sys_pool s) z = opCount o) B) \/
    (res = ncclInternalError /\ Z.of_nat (length (cell (InPending r))) + 1 = MAX_OPS_PER_PEER /\
       Forall (fun z => countAt (sys_pool s) z = opCount o) (cell (InPending r)) /\
       cell' Posted = cell Posted /\ cell' (InPending r) = cell (InPending r) ++ [x]) }.

Definition appendPool (pool : ncclProxyOpsPool) (me : ncclProxyOps) (o : Op) : ncclProxyOpsPool := {|
  next := appendHeap (next pool) me (po_freeOp me);
  ops := fun y => if y =? po_freeOp me then Some o else ops pool y;
  nextOps := nextOps pool; nextOpsEnd := nextOpsEnd pool; freeOps := freeOps pool |}.

Definition appendRank (pool : ncclProxyOpsPool) (me : ncclProxyOps) : ncclProxyOps := {|
  po_count := po_count me + 1; po_freeOp := next pool (po_freeOp me);
  po_nextOps := if po_nextOps me =? -1 then po_freeOp me else po_nextOps me; po_nextOpsEnd := po_freeOp me |}.

Lemma append_eq pool me o :
  po_freeOp me <> -1 ->
  ncclLocalOpAppend pool me o =
    let pool1 := appendPool pool me o in
    let me1 := appendRank pool me in
    if po_count me + 1 =? MAX_OPS_PER_PEER then
      '(lastOp, toSend) ← scanChain (Z.to_nat MAX_OPS_PER_PEER) pool1 (po_freeOp me) (opCount o) (po_nextOps me1) 0 (-1) 0;
      if lastOp =? -1 then Some (ncclInternalError, pool1, me1)
      else Some (ncclSuccess, ncclProxyPost (setNext (hset (next pool1) lastOp (-1)) pool1) (po_nextOps me1) lastOp,
                 {| po_count := po_count me + 1 - toSend; po_freeOp := po_freeOp me1; po_nextOps := next pool1 lastOp; po_nextOpsEnd := po_freeOp me |})
    else Some (ncclSuccess, pool1, me1).
Proof.
  intros H. unfold ncclLocalOpAppend. rewrite (proj2 (Z.eqb_neq _ _) H).
  assert (opCount o = countAt (appendPool pool me o) (po_freeOp me)) as ->; [unfold countAt; simpl; by rewrite Z.eqb_refl|].
  unfold appendPool, appendRank, appendHeap. destruct (po_nextOps me =? -1); reflexivity.
Qed.

(** The cut of a full chain [A ++ y :: B ++ [x]] after [y]. *)
Lemma inv_cut s cell r A y B x m me failed ranks :
  inv s cell -> sys_rank s r = m -> cell (InPending r) = A ++ y :: B ++ [x] ->
  po_count me = po_count m - (Z.of_nat (length A) + 1) -> po_freeOp me = po_freeOp m ->
  po_nextOps me = next (sys_pool s) y -> po_nextOpsEnd me = po_nextOpsEnd m ->
  po_count m = MAX_OPS_PER_PEER ->
  (forall r', r' <> r -> failed r' = sys_failed s r') ->
  (forall r', ranks r' = setAt (sys_rank s) r me r') ->
  inv {| sys_pool := ncclProxyPost (setNext (hset (next (sys_pool s)) y (-1)) (sys_pool s)) (po_nextOps m) y;
         sys_rank := ranks; sys_thread := sys_thread s; sys_failed := failed; sys_log := sys_log s; sys_added := sys_added s |}
      (upd (upd cell (InPending r) (B ++ [x])) Posted (cell Posted ++ A ++ [y])).
Proof.
  intros I <- HAB Hm1 Hm2 Hm3 Hm4 Hfull Hf Hr. pose proof (i_count _ _ I r) as Hcnt. rewrite HAB, length_app in Hcnt. simpl in Hcnt.
  refine (inv_ranks _ _ ranks (inv_post s cell r A y (B ++ [x]) _ me failed I HAB _ _ _ _ _ _ _ _ _ _ _) Hr); try done; lia.
Qed.

(** The state after the entry is filled and linked. *)
Definition appendOne (s : system) (r : nat) (o : Op) (failed : nat -> bool) : system := {|
  sys_pool := appendPool (sys_pool s) (sys_rank s r) o; sys_rank := setAt (sys_rank s) r (appendRank (sys_pool s) (sys_rank s r));
  sys_thread := sys_thread s; sys_failed := failed;
  sys_log := setAt (sys_log s) r (sys_log s r ++ [o]); sys_added := sys_added s |}.

Definition appendCells (cell : cells) (r : nat) (x : Z) (F : list Z) : cells :=
  upd (upd cell (InFree r) F) (InPending r) (cell (InPending r) ++ [x]).

Lemma inv_appendOne s cell r o x F b :
  inv s cell -> hasConnection o = true -> cell (InFree r) = x :: F ->
  (b = false -> po_count (sys_rank s r) + 1 < MAX_OPS_PER_PEER) ->
  po_freeOp (sys_rank s r) = x /\ 0 <= x /\ inv (appendOne s r o (setAt (sys_failed s) r b)) (appendCells cell r x F).
Proof.
  intros I Hc HF Hb. pose proof (i_chain _ _ I (InFree r)) as Hfree. simpl in Hfree. rewrite HF in Hfree. destruct Hfree as (Hx & Hx0 & _).
  split_and!; [done|done|]. unfold appendOne, appendPool. subst x.
  eapply inv_append_one; try done; [intros; by rewrite setAt_ne|]. by rewrite setAt_eq.
Qed.

Lemma append_full s cell r o x F :
  inv s cell -> hasConnection o = true -> cell (InFree r) = x :: F -> po_count (sys_rank s r) + 1 = MAX_OPS_PER_PEER ->
  exists res pool me cell', ncclLocalOpAppend (sys_pool s) (sys_rank s r) o = Some (res, pool, me) /\
    appended s cell r o x F res
      {| sys_pool := pool; sys_rank := setAt (sys_rank s) r me; sys_thread := sys_thread s;
         sys_failed := setAt (sys_failed s) r (bool_decide (res <> ncclSuccess));
         sys_log := setAt (sys_log s) r (sys_log s r ++ [o]); sys_added := sys_added s |} cell'.
Proof.
  intros I Hc HF E. destruct (inv_appendOne s cell r o x F true I Hc HF ltac:(done)) as (Hx & Hx0 & I1).
  rewrite append_eq by lia. cbv zeta. rewrite (proj2 (Z.eqb_eq _ _) E), Hx.
  pose proof (i_count _ _ I r) as Hcnt.
  pose proof (i_chain _ _ I1 (InPending r)) as Hch. pose proof (pt_nodup _ (i_part _ _ I1) (InPending r)) as Hnd.
  unfold appendCells in Hch, Hnd. simpl in Hch. rewrite setAt_eq in Hch. rewrite pool_upd_eq in Hch, Hnd.
  apply NoDup_app in Hnd as (_ & Hnd & _).
  assert (x ∉ cell (InPending r)) as Hxp by (intros H%Hnd; set_solver).
  set (pool1 := appendPool (sys_pool s) (sys_rank s r) o) in *.
  assert (forall z, z ∈ cell (InPending r) -> countAt pool1 z = countAt (sys_pool s) z) as Hsame.
  { intros z Hz. unfold countAt. simpl. rewrite Hx, (proj2 (Z.eqb_neq z x)); [done|]. by intros ->. }
  destruct (scanChain_spec pool1 _ (opCount o) _ Hxp (Z.to_nat MAX_OPS_PER_PEER) _ 0 (-1) 0 Hch ltac:(lia))
    as (lo & ts & -> & [(-> & -> & Hall)|(A & B & HAB & Hlo & HB & ->)]); simpl.
  - eexists ncclInternalError, _, _, (appendCells cell r x F). split; [done|]. constructor; simpl; try done.
    + unfold appendCells. by places.
    + intros z. by rewrite Hx.
    + right. right. unfold appendCells. places. split_and!; try done; [lia|].
      rewrite Forall_forall in Hall |- *. intros z Hz. rewrite <- Hsame; auto.
  - assert (lo ∈ cell (InPending r)) as Hlp by (rewrite HAB; set_solver).
    rewrite (proj2 (Z.eqb_neq lo (-1))) by (apply (pt_allowed _ (i_part _ _ I)) in Hlp as [? _]; lia).
    eexists ncclSuccess, _, _, _. split; [done|]. constructor; simpl; [|done| | | |].
    + eapply (inv_cut (appendOne s r o (setAt (sys_failed s) r true)) (appendCells cell r x F) r A lo B x _
        {| po_count := po_count (sys_rank s r) + 1 - (0 + Z.of_nat (length A) + 1); po_freeOp := next (sys_pool s) (po_freeOp (sys_rank s r));
           po_nextOps := next pool1 lo; po_nextOpsEnd := x |} _ _ I1 (setAt_eq _ _ _)); try done; simpl.
      * unfold appendCells. rewrite pool_upd_eq, HAB. by rewrite <- app_assoc.
      * intros r' Hr'. by rewrite !setAt_ne.
      * intros r'. destruct (decide (r' = r)) as [->|]; places; done.
    + unfold appendCells. by places.
    + done.
    + intros z. by rewrite Hx.
    + right. left. unfold appendCells. places. split_and!; [done|lia|]. exists A, lo, B. split_and!; try done.
      * by rewrite <- Hsame.
      * rewrite Forall_forall in HB |- *. intros z Hz. rewrite <- Hsame; [auto|]. rewrite HAB. set_solver.
Qed.

Lemma append_result s cell r o x F :
  inv s cell -> sys_failed s r = false -> hasConnection o = true -> cell (InFree r) = x :: F ->
  exists res pool me cell', ncclLocalOpAppend (sys_pool s) (sys_rank s r) o = Some (res, pool, me) /\
    appended s cell r o x F res
      {| sys_pool := pool; sys_rank := setAt (sys_rank s) r me; sys_thread := sys_thread s;
         sys_failed := setAt (sys_failed s) r (bool_decide (res <> ncclSuccess));
         sys_log := setAt (sys_log s) r (sys_log s r ++ [o]); sys_added := sys_added s |} cell'.
Proof.
  intros I Hfail Hc HF. pose proof (i_full _ _ I r Hfail) as Hlt. pose proof (i_count _ _ I r) as Hcnt.
  destruct (decide (po_count (sys_rank s r) + 1 = MAX_OPS_PER_PEER)) as [E|E]; [by apply append_full|].
  destruct (inv_appendOne s cell r o x F false I Hc HF ltac:(lia)) as (Hx & Hx0 & I1).
  rewrite append_eq by lia. cbv zeta. rewrite (proj2 (Z.eqb_neq _ _) E).
  eexists ncclSuccess, _, _, (appendCells cell r x F). split; [done|]. constructor; simpl; try done; unfold appendCells; places; [done|done|].
  left. split_and!; try done. lia.
Qed.

(** ** The thread's loop *)

(** The state during the loop: the entries of every rank are to be given back. *)
Definition processing (s : system) (pool : ncclProxyOpsPool) (st : progress) (added : list (nat * Op)) : system := {|
  sys_pool := pool; sys_rank := sys_rank s; sys_thread := setPc (PFree (seq 0 tpLocalnRanks)) st;
  sys_failed := sys_failed s; sys_log := sys_log s; sys_added := added |}.

Lemma peer_quot x : 0 <= x -> Z.to_nat (Z.quot x MAX_OPS_PER_PEER) = peerOf x.
Proof. intros H. unfold peerOf. by rewrite Z.quot_div_nonneg. Qed.

Lemma allowed_peer p x : allowed p x -> (peerOf x < tpLocalnRanks)%nat.
Proof.
  intros [[H1 H2] _]. unfold peerOf.
  assert (x / MAX_OPS_PER_PEER < Z.of_nat tpLocalnRanks) by (apply Z.div_lt_upper_bound; [done|lia]).
  pose proof (Z.div_pos x MAX_OPS_PER_PEER H1 ltac:(done)). lia.
Qed.

(** The next operation of the thread is the oldest one of its rank it does not have yet. *)
Lemma taken_head s cell x T :
  inv s cell -> cell Taken = x :: T ->
  exists o, ops (sys_pool s) x = Some o /\ hasConnection o = true /\ (peerOf x < tpLocalnRanks)%nat /\ 0 <= x.
Proof.
  intros I HT. pose proof (pt_allowed _ (i_part _ _ I) Taken x ltac:(rewrite HT; set_solver)) as Hx.
  pose proof (allowed_peer _ _ Hx) as Hp. pose proof (i_fifo _ _ I (peerOf x)) as Hf. unfold inFlight in Hf. rewrite HT in Hf.
  unfold ofRank in Hf. simpl in Hf. rewrite filter_cons_True in Hf by done. simpl in Hf.
  assert (ops (sys_pool s) x ∈ Some <$> sys_log s (peerOf x)) as (o & Ho & Hin)%list_elem_of_fmap by (rewrite Hf; set_solver).
  exists o. split_and!; try done; [|by destruct Hx as [[? _] _]]. pose proof (i_conn _ _ I (peerOf x)) as Hc. rewrite Forall_forall in Hc. auto.
Qed.

Lemma local_empty s cell r :
  inv s cell -> r ∈ todoOf (st_pc (sys_thread s)) -> st_freeOp (sys_thread s) r = -1 <-> cell (InLocal r) = [].
Proof.
  intros I Hr. split; [|by apply (i_none _ _ I)]. intros E. destruct (cell (InLocal r)) as [|x l] eqn:El; [done|].
  pose proof (i_chain _ _ I (InLocal r)) as Hc. simpl in Hc. rewrite El in Hc. destruct Hc as [q (Hx & ? & _)]; [done|]. lia.
Qed.

(** One operation of the loop. *)
Definition processOne (pool : ncclProxyOpsPool) (st : progress) (x : Z) : ncclProxyOpsPool * progress :=
  let p := peerOf x in
  (setNext (if st_freeOp st p =? -1 then next pool else hset (next pool) x (st_freeOp st p)) pool,
   {| st_nextOps := next pool x; st_freeOp := setAt (st_freeOp st) p x;
      st_freeOpEnd := if st_freeOp st p =? -1 then setAt (st_freeOpEnd st) p x else st_freeOpEnd st; st_pc := st_pc st |}).

Lemma addedOf_snoc r l p o : addedOf r (l ++ [(p, o)]) = addedOf r l ++ if decide (p = r) then [o] else [].
Proof. unfold addedOf. rewrite filter_app, fmap_app, filter_cons. simpl. by case_decide. Qed.

Lemma ofRank_cons r x l : ofRank r (x :: l) = if decide (peerOf x = r) then x :: ofRank r l else ofRank r l.
Proof. unfold ofRank. by rewrite filter_cons. Qed.

(** An entry is put in front of the entries to give back. *)
Lemma local_push h0 x start l :
  0 <= x -> start = -1 <-> l = [] ->
  (l <> [] -> exists q, iseg (if start =? -1 then h0 else hset h0 x start) start l q) ->
  exists q, iseg (if start =? -1 then h0 else hset h0 x start) x (x :: l) q.
Proof.
  intros Hx0 He Hl. destruct (Z.eqb_spec start (-1)) as [E|E].
  - rewrite (proj1 He E). by exists (h0 x).
  - destruct Hl as [q Hq]; [by rewrite <- He|]. exists q. simpl. by rewrite hset_eq.
Qed.

Lemma inv_processOne s pool st added cell x T o :
  inv (processing s pool st added) cell -> cell Taken = x :: T -> ops pool x = Some o ->
  inv (processing s (processOne pool st x).1 (processOne pool st x).2 (added ++ [(peerOf x, o)]))
      (upd (upd cell Taken T) (InLocal (peerOf x)) (x :: cell (InLocal (peerOf x)))).
Proof.
  intros I HT Ho. pose proof (pt_allowed _ (i_part _ _ I) Taken x ltac:(rewrite HT; set_solver)) as Hx.
  pose proof (allowed_peer _ _ Hx) as Hp.
  pose proof (local_empty _ _ (peerOf x) I ltac:(apply elem_of_seq; simpl; lia)) as Hempty.
  destruct I as [P Hch Hend Hcnt Hfull Htodo Hloc Hnone Hex Hfifo Hconn]. simpl in *.
  pose proof (Hch Taken) as HchT. simpl in HchT. rewrite HT in HchT. destruct HchT as (_ & Hx0 & HchT).
  pose proof (pt_nodup _ P Taken) as Hnd. rewrite HT in Hnd. apply NoDup_cons in Hnd as [HxnT _].
  assert (forall p, p <> Taken -> x ∉ cell p) as Hout.
  { intros p Hpt. apply (partition_out cell Taken); [done|rewrite HT; set_solver|done]. }
  set (h := if st_freeOp st (peerOf x) =? -1 then next pool else hset (next pool) x (st_freeOp st (peerOf x))).
  assert (forall y, y <> x -> h y = next pool y) as Hframe by (intros y Hy; unfold h; case_match; [done|by apply hset_ne]).
  assert (forall p, p <> Taken -> chainOk h (startOf (processing s pool st added) p) p (cell p)) as Hother.
  { intros p Hpt. eapply chainOk_ext; [|apply Hch]. intros y Hy. apply Hframe. intros ->. by apply (Hout p). }
  constructor; simpl; try done.
  - apply partition_move; [done|done| | |].
    + rewrite HT. solve_Permutation.
    + intros y Hy. apply (pt_allowed _ P Taken). rewrite HT. set_solver.
    + intros y Hy. apply elem_of_cons in Hy as [->|Hy]; [|by apply (pt_allowed _ P)]. destruct Hx. done.
  - fold h. intros p. pose proof (Hother p) as Hpc. destruct p as [r'|r'|r'|r'| | |]; places; try (apply Hpc; congruence).
    + intros _. apply (local_push (next pool)); [done|by rewrite Hempty|]. apply (Hother (InLocal (peerOf _))). done.
    + eapply iseg_ext; [|done]. intros y Hy. apply Hframe. by intros ->.
  - intros p e. pose proof (Hend p e) as He. destruct p as [r'|r'|r'|r'| | |]; places; try done; intros [= <-]; [intros _|].
    + destruct (Z.eqb_spec (st_freeOp st (peerOf x)) (-1)) as [E|E].
      * by rewrite setAt_eq, (proj1 Hempty E).
      * rewrite last_cons. rewrite (Hend (InLocal (peerOf x)) _ eq_refl); [done|]. by rewrite <- Hempty.
    + intros Hl. apply He; [|done]. case_match; [by rewrite setAt_ne by congruence|done].
  - intros r Hr. destruct (decide (r = peerOf x)) as [->|]; places; [|by apply Hloc]. destruct Hr. apply elem_of_seq. lia.
  - intros r Hr. destruct (decide (r = peerOf x)) as [->|]; places; [done|by apply Hnone].
  - intros r. rewrite Hfifo, addedOf_snoc. unfold inFlight. rewrite HT. simpl. rewrite ofRank_cons, (fmap_app Some).
    destruct (decide (peerOf x = r)) as [<-|Hne]; places; rewrite ?app_nil_r; [|done].
    rewrite <- app_assoc. simpl. by rewrite Ho.
Qed.

(** A batch [D] of the thread's chain becomes entries to give back. *)
Definition batchOf (cell : cells) (D : list Z) (cell' : cells) : Prop :=
  cell Taken = D ++ cell' Taken /\ (forall x, x ∈ D -> x ∈ cell' (InLocal (peerOf x))) /\
  (forall r x, x ∈ cell (InLocal r) -> x ∈ cell' (InLocal r)) /\ cell' Posted = cell Posted /\ cell' Lost = cell Lost.

Lemma batchOf_nil cell : batchOf cell [] cell.
Proof. split_and!; [done|set_solver|done|done|done]. Qed.

Lemma batchOf_cons cell x T D cell' :
  cell Taken = x :: T -> batchOf (upd (upd cell Taken T) (InLocal (peerOf x)) (x :: cell (InLocal (peerOf x)))) D cell' ->
  batchOf cell (x :: D) cell'.
Proof.
  intros HT (H1 & H2 & H3 & H4 & H5). rewrite upd_ne, pool_upd_eq in H1 by done. rewrite !upd_ne in H4, H5 by done.
  split_and!; [by rewrite HT, H1| | |done|done].
  - intros y [->|Hy]%elem_of_cons; [|by auto]. apply H3. rewrite pool_upd_eq. set_solver.
  - intros r y Hy. apply H3. destruct (decide (r = peerOf x)) as [->|]; places; [set_solver|done].
Qed.

(** The loop ends and hands over the operations in order.  If [ProxyAppend] does
    not fail, neither does the loop, and it hands over one operation at least when
    the batch size allows it. *)
Lemma process_loop append s : forall fuel pool st added cell lastOpCount lastPeer count acc,
  inv (processing s pool st added) cell -> (length (cell Taken) <= fuel)%nat ->
  exists ok pool' st' acc' D cell', processOps append fuel pool st lastOpCount lastPeer count acc = Some (ok, pool', st', acc ++ acc') /\
    inv (processing s pool' st' (added ++ acc')) cell' /\ batchOf cell D cell' /\ length acc' = length D /\
    ((forall l a, append l a = true) ->
     ok = true /\ (cell Taken <> [] -> lastOpCount = 0 -> lastPeer = -1 -> count <> ProxyAppendBatchSize + 1 -> D <> [])).
Proof.
  induction fuel as [|fuel IH]; intros pool st added cell lastOpCount lastPeer count acc I Hfuel;
    (pose proof (i_chain _ _ I Taken) as Hch; simpl in Hch; destruct (cell Taken) as [|x T] eqn:HT; simpl in Hfuel; [|try lia]).
  1, 2: exists true, pool, st, [], [], cell; simpl; rewrite Hch, !app_nil_r; split; [done|split; [done|split; [apply batchOf_nil|split; done]]].
  destruct (taken_head _ _ _ _ I HT) as (o & Ho & Hconn & _ & Hx0). simpl in Ho. apply iseg_head in Hch. simpl.
  rewrite Hch, (proj2 (Z.eqb_neq x (-1))), Ho by lia. simpl.
  set (count' := if _ || _ then count + 1 else count).
  destruct (count' =? ProxyAppendBatchSize + 1) eqn:Ec.
  { exists true, pool, st, [], [], cell. rewrite !app_nil_r. split; [done|split; [done|split; [apply batchOf_nil|split; [done|]]]].
    intros _. split; [done|]. intros _ -> -> Hc. unfold count' in Ec. simpl in Ec. apply Z.eqb_eq in Ec. done. }
  rewrite Hconn, peer_quot by done. simpl.
  destruct (append acc (peerOf x, o)) eqn:Ea; simpl.
  2: { exists false, pool, st, [], [], cell. rewrite !app_nil_r. split; [done|split; [done|split; [apply batchOf_nil|split; [done|]]]].
       intros Hall. by rewrite Hall in Ea. }
  pose proof (inv_processOne s pool st added cell x T o I HT Ho) as I'.
  destruct (IH _ _ _ _ (opCount o) (Z.quot x MAX_OPS_PER_PEER) count' (acc ++ [(peerOf x, o)]) I')
    as (ok & pool' & st' & acc' & D & cell' & Hrun & HI & Hb & Hlen & Hok).
  { places. lia. }
  exists ok, pool', st', ((peerOf x, o) :: acc'), (x :: D), cell'.
  split; [|split; [by rewrite <- app_assoc in HI|split; [by eapply batchOf_cons|split; [by simpl; f_equal|]]]].
  - rewrite <- app_assoc in Hrun. etrans; [|exact Hrun]. unfold processOne. simpl. by destruct (st_freeOp st (peerOf x) =? -1).
  - intros Hall. split; [by apply Hok|done].
Qed.

(** ** A batch that fails *)

(** The entries of the local lists. *)
Definition localsOf (cell : cells) (rs : list nat) : list Z := concat ((fun r => cell (InLocal r)) <$> rs).

(** The local lists are dropped. *)
Definition lose (cell : cells) : cells := fun p =>
  match p with
  | InLocal _ => []
  | Lost => cell Lost ++ localsOf cell (seq 0 tpLocalnRanks)
  | _ => cell p
  end.

Lemma localsOf_elem cell rs x : x ∈ localsOf cell rs <-> exists r, r ∈ rs /\ x ∈ cell (InLocal r).
Proof.
  induction rs as [|r rs IH]; unfold localsOf in *; simpl; [split; [by intros H%elem_of_nil|intros (r & Hr%elem_of_nil & _); done]|].
  rewrite elem_of_app, IH. split.
  - intros [H|(r' & Hr & H)]; [exists r|exists r']; set_solver.
  - intros (r' & [->|Hr]%elem_of_cons & H); [by left|right; by exists r'].
Qed.

Lemma localsOf_nodup cell rs : partition cell -> NoDup rs -> NoDup (localsOf cell rs).
Proof.
  intros P. induction 1 as [|r rs Hr Hrs IH]; [apply NoDup_nil_2|]. apply NoDup_app. split_and!; [apply P| |done].
  intros x H1 (r' & Hr' & H2)%localsOf_elem. pose proof (pt_disjoint _ P _ _ _ H1 H2). congruence.
Qed.

(** An entry in no local list is where it was; the others are lost. *)
Lemma lose_elem cell p x : x ∈ lose cell p -> x ∈ cell p \/ (p = Lost /\ exists r, x ∈ cell (InLocal r)).
Proof.
  destruct p; simpl; auto; [by intros H%elem_of_nil|].
  rewrite elem_of_app, localsOf_elem. intros [H|(r & _ & H)]; [by left|right; by eauto].
Qed.

Lemma partition_lose cell : partition cell -> partition (lose cell).
Proof.
  intros P. constructor.
  - intros p. destruct p as [r|r|r|r| | |]; simpl; try apply P; [apply NoDup_nil_2|]. apply NoDup_app.
    split_and!; [apply P| |apply localsOf_nodup, NoDup_seq; done].
    intros x H1 (r & _ & H2)%localsOf_elem. by pose proof (pt_disjoint _ P _ _ _ H1 H2).
  - assert (forall p r x, x ∈ lose cell p -> x ∈ cell p -> x ∈ cell (InLocal r) -> False) as Hout.
    { intros p r x H1 H2 H3. pose proof (pt_disjoint _ P _ _ _ H2 H3) as ->. by apply elem_of_nil in H1. }
    intros p q x Hp Hq. pose proof (lose_elem _ _ _ Hp) as [Hp'|(-> & r & Hr)]; pose proof (lose_elem _ _ _ Hq) as [Hq'|(-> & r' & Hr')];
      [by apply (pt_disjoint _ P _ _ x)|exfalso; by eauto|exfalso; by eauto|done].
  - intros p x [Hx|(-> & r & Hx)]%lose_elem; [by apply P|]. by apply (pt_allowed _ P) in Hx as [? _].
  - intros x Hx. destruct (pt_cover _ P x Hx) as [p Hp].
    destruct p as [r|r|r|r| | |]; [by exists (InFree r)|by exists (InPool r)|by exists (InPending r)| |by exists Posted|by exists Taken|].
    + exists Lost. simpl. apply elem_of_app. right. apply localsOf_elem. exists r. split; [|done].
      pose proof (pt_allowed _ P _ _ Hp) as Ha. pose proof (allowed_peer _ _ Ha). destruct Ha as [_ <-]. apply elem_of_seq. lia.
    + exists Lost. simpl. set_solver.
Qed.

Lemma inv_lose s pool st added cell :
  inv (processing s pool st added) cell ->
  inv {| sys_pool := pool; sys_rank := sys_rank s; sys_thread := setPc PIdle st;
         sys_failed := sys_failed s; sys_log := sys_log s; sys_added := added |} (lose cell).
Proof.
  intros [P Hch Hend Hcnt Hfull Htodo Hloc Hnone Hex Hfifo Hconn]. constructor; simpl; try done.
  - by apply partition_lose.
  - intros p. pose proof (Hch p) as Hp. destruct p; try done. intros H. by destruct H.
  - intros p e. pose proof (Hend p e) as Hp. by destruct p.
  - apply NoDup_nil_2.
  - by intros r Hr%elem_of_nil.
Qed.

(** ** The initial state satisfies the invariant *)

Definition block (r : nat) : list Z := (fun i : nat => Z.of_nat r * MAX_OPS_PER_PEER + Z.of_nat i) <$> seq 0 (Z.to_nat MAX_OPS_PER_PEER).

Definition initCells : cells := fun p =>
  match p with InPool r => if (r <? tpLocalnRanks)%nat then block r else [] | _ => [] end.

Lemma block_elem r x : x ∈ block r <-> Z.of_nat r * MAX_OPS_PER_PEER <= x < (Z.of_nat r + 1) * MAX_OPS_PER_PEER.
Proof.
  assert (0 < MAX_OPS_PER_PEER) by done. unfold block. rewrite list_elem_of_fmap. split.
  - intros (i & -> & Hi%elem_of_seq). lia.
  - intros H'. exists (Z.to_nat (x - Z.of_nat r * MAX_OPS_PER_PEER)). split; [lia|]. apply elem_of_seq. lia.
Qed.

Lemma block_peer r x : x ∈ block r -> peerOf x = r.
Proof.
  intros H%block_elem. unfold peerOf. assert (0 < MAX_OPS_PER_PEER) by done.
  rewrite <- (Z.div_unique x MAX_OPS_PER_PEER (Z.of_nat r) (x - Z.of_nat r * MAX_OPS_PER_PEER)) by lia. lia.
Qed.

Lemma linkEntries_at h base n x :
  linkEntries h base n x = if decide (base <= x < base + Z.of_nat n) then x + 1 else h x.
Proof.
  induction n as [|n IH]; simpl; [case_decide; [lia|done]|]. unfold hset.
  destruct (Z.eqb_spec x (base + Z.of_nat n)) as [->|]; rewrite ?IH; repeat case_decide; lia.
Qed.

Lemma initBlocks_at h n x :
  initBlocks h n x =
    if decide (0 <= x < Z.of_nat n * MAX_OPS_PER_PEER) then if decide ((x + 1) mod MAX_OPS_PER_PEER = 0) then -1 else x + 1 else h x.
Proof.
  assert (0 < MAX_OPS_PER_PEER) as H by done. revert H. unfold initBlocks. generalize MAX_OPS_PER_PEER. intros M HM.
  induction n as [|n IH]; [case_decide; [lia|done]|]. unfold hset at 1.
  destruct (Z.eqb_spec x ((Z.of_nat n + 1) * M - 1)) as [->|Hx].
  - rewrite decide_True by lia. rewrite decide_True; [done|]. replace ((Z.of_nat n + 1) * M - 1 + 1) with ((Z.of_nat n + 1) * M) by lia. apply Z.mod_mul. lia.
  - rewrite linkEntries_at. destruct (decide (Z.of_nat n * M <= x < Z.of_nat n * M + Z.of_nat (Z.to_nat (M - 1)))) as [Hin|Hin].
    + rewrite decide_True by lia. rewrite decide_False; [done|]. 
      rewrite <- (Z.mod_unique (x + 1) M (Z.of_nat n) (x + 1 - Z.of_nat n * M)); lia.
    + rewrite IH. destruct (decide (0 <= x < Z.of_nat n * M)); [by rewrite (decide_True (P := 0 <= x < Z.of_nat (S n) * M)) by lia|].
      rewrite (decide_False (P := 0 <= x < Z.of_nat (S n) * M)) by lia. done.
Qed.

(** A run of entries, each linked to the one after it. *)
Lemma iseg_run h q : forall k a, 0 <= a -> (0 < k)%nat ->
  (forall i, (i < k)%nat -> h (a + Z.of_nat i) = if decide (S i = k) then q else a + Z.of_nat i + 1) ->
  iseg h a ((fun i : nat => a + Z.of_nat i) <$> seq 0 k) q.
Proof.
  induction k as [|k IH]; intros a Ha Hk Hh; [lia|]. simpl. split_and!; [lia|lia|].
  pose proof (Hh 0%nat ltac:(lia)) as H0. replace (a + Z.of_nat 0) with a in * by lia. rewrite H0.
  rewrite <- fmap_S_seq, <- list_fmap_compose. destruct k as [|k]; [done|]. rewrite decide_False by lia.
  assert (((fun i : nat => a + Z.of_nat i) ∘ S) <$> seq 0 (S k) = (fun i : nat => a + 1 + Z.of_nat i) <$> seq 0 (S k)) as ->.
  { apply list_fmap_ext. intros i x _. unfold compose. lia. }
  apply IH; [lia|lia|]. intros i Hi. replace (a + 1 + Z.of_nat i) with (a + Z.of_nat (S i)) by lia. rewrite Hh by lia.
  repeat case_decide; lia.
Qed.

Lemma block_chain h r : (r < tpLocalnRanks)%nat -> iseg (initBlocks h tpLocalnRanks) (Z.of_nat r * MAX_OPS_PER_PEER) (block r) (-1).
Proof.
  intros Hr. assert (0 < MAX_OPS_PER_PEER) as HM by done. unfold block. apply iseg_run; [lia|lia|]. intros i Hi.
  rewrite initBlocks_at. rewrite decide_True by nia.
  replace (Z.of_nat r * MAX_OPS_PER_PEER + Z.of_nat i + 1) with (Z.of_nat i + 1 + Z.of_nat r * MAX_OPS_PER_PEER) by lia.
  rewrite Z.mod_add by lia.
  destruct (decide (S i = Z.to_nat MAX_OPS_PER_PEER)) as [E|E].
  - replace (Z.of_nat i + 1) with MAX_OPS_PER_PEER by lia. done.
  - rewrite Z.mod_small by lia. rewrite decide_False by lia. done.
Qed.

Lemma partition_init : partition initCells.
Proof.
  assert (0 < MAX_OPS_PER_PEER) as HM by done.
  assert (forall p x, x ∈ initCells p -> exists r, p = InPool r /\ (r < tpLocalnRanks)%nat /\ x ∈ block r) as Hin.
  { intros p x. destruct p as [r|r|r|r| | |]; simpl; try by intros H%elem_of_nil. destruct (Nat.ltb_spec r tpLocalnRanks); [by eauto|by intros H'%elem_of_nil]. }
  constructor.
  - intros p. destruct p as [r|r|r|r| | |]; simpl; try apply NoDup_nil_2. case_match; [|apply NoDup_nil_2].
    apply NoDup_fmap_2; [intros ???; lia|apply NoDup_seq].
  - intros p q x (r & -> & _ & Hx)%Hin (r' & -> & _ & Hx')%Hin. apply block_peer in Hx, Hx'. congruence.
  - intros p x (r & -> & Hr & Hx)%Hin. split; [|by apply block_peer]. apply block_elem in Hx. nia.
  - intros x Hx. assert (0 <= x / MAX_OPS_PER_PEER < Z.of_nat tpLocalnRanks).
    { split; [apply Z.div_pos; lia|apply Z.div_lt_upper_bound; lia]. }
    exists (InPool (peerOf x)). simpl. unfold peerOf. rewrite (proj2 (Nat.ltb_lt _ _)) by lia. apply block_elem.
    rewrite Z2Nat.id by lia. pose proof (Z.div_mod x MAX_OPS_PER_PEER ltac:(lia)). pose proof (Z.mod_pos_bound x MAX_OPS_PER_PEER HM). lia.
Qed.

Lemma pool_inv_init h : inv (initSystem h) initCells.
Proof.
  constructor; simpl; try done.
  - apply partition_init.
  - intros p. destruct p as [r|r|r|r| | |]; simpl; try done. destruct (Nat.ltb_spec r tpLocalnRanks); [by apply block_chain|done].
  - intros p e. by destruct p.
  - apply NoDup_nil_2.
Qed.

Lemma inv_process append s cell fuel :
  inv s cell -> st_pc (sys_thread s) = PIdle -> (length (cell Taken) <= fuel)%nat ->
  exists ok pool st added D cell', processOps append fuel (sys_pool s) (noFree (sys_thread s)) 0 (-1) 0 [] = Some (ok, pool, st, added) /\
    inv (processing s pool st (sys_added s ++ added)) cell' /\ batchOf cell D cell' /\ length added = length D /\
    ((forall l a, append l a = true) -> ok = true /\ (cell Taken <> [] -> 0 <= ProxyAppendBatchSize -> D <> [])).
Proof.
  intros [P Hch Hend Hcnt Hfull Htodo Hloc Hnone Hex Hfifo Hconn] Hpc Hfuel. rewrite Hpc in *. simpl in *.
  assert (forall r, cell (InLocal r) = []) as Hnil by (intros r; apply Hloc; set_solver).
  assert (inv (processing s (sys_pool s) (noFree (sys_thread s)) (sys_added s)) cell) as I0.
  { constructor; simpl; try done.
    - intros p. pose proof (Hch p) as Hp. destruct p as [r|r|r|r| | |]; try done. intros H. by rewrite Hnil in H.
    - apply NoDup_seq. }
  destruct (process_loop append s fuel _ _ _ _ 0 (-1) 0 [] I0 Hfuel) as (ok & pool & st & acc & D & cell' & Hrun & HI & Hb & Hlen & Hok).
  exists ok, pool, st, acc, D, cell'. split; [done|split; [done|split; [done|split; [done|]]]]. intros [-> HD]%Hok. split; [done|].
  intros H HB. apply HD; [done|done|done|lia].
Qed.

(** More fuel does not change the result of the loop. *)
Lemma processOps_fuel append : forall fuel pool st lastOpCount lastPeer count acc res,
  processOps append fuel pool st lastOpCount lastPeer count acc = Some res -> forall fuel', (fuel <= fuel')%nat ->
  processOps append fuel' pool st lastOpCount lastPeer count acc = Some res.
Proof.
  induction fuel as [|fuel IH]; intros pool st lastOpCount lastPeer count acc res H fuel' Hle; simpl in H.
  - destruct fuel'; simpl; by destruct (st_nextOps st =? -1).
  - destruct fuel' as [|fuel']; [lia|]. simpl. destruct (st_nextOps st =? -1); [done|].
    destruct (ops pool (st_nextOps st)) as [o|]; [|done]. simpl in *.
    match type of H with (if ?c then _ else _) = _ => destruct c end; [done|].
    destruct (hasConnection o); simpl in *; [|done].
    destruct (append acc _); simpl in *; [|done].
    destruct (st_freeOp st _ =? -1); apply IH; (done || lia).
Qed.

(** The run of a batch, whatever its fuel. *)
Lemma pool_inv_batch append s cell fuel ok pool st added :
  inv s cell -> st_pc (sys_thread s) = PIdle ->
  processOps append fuel (sys_pool s) (noFree (sys_thread s)) 0 (-1) 0 [] = Some (ok, pool, st, added) ->
  exists cell', inv (processing s pool st (sys_added s ++ added)) cell' /\ cell' Lost = cell Lost.
Proof.
  intros I Hpc Hrun.
  destruct (inv_process append s cell (fuel + length (cell Taken)) I Hpc ltac:(lia))
    as (ok' & pool' & st' & added' & D & cell' & Hrun' & HI & (_ & _ & _ & _ & HL) & _).
  rewrite (processOps_fuel _ _ _ _ _ _ _ _ _ Hrun) in Hrun' by lia. injection Hrun' as <- <- <- <-. by exists cell'.
Qed.

Lemma inv_threadStep s s' cell : inv s cell -> threadStep s s' -> exists cell', inv s' cell' /\ cell' Lost = cell Lost.
Proof.
  intros I Hstep. destruct Hstep as [pool st Hpc Hn Hp Hrun|append pool st added fuel Hpc Hn Hrun|i todo Hpc|Hpc|i old todo pool st Hpc Hrun].
  - eexists. split; [by eapply pool_inv_take|done].
  - by eapply pool_inv_batch.
  - eexists. split; [by eapply inv_free|done].
  - eexists. split; [by eapply pool_inv_return|done].
  - destruct (pool_inv_exchange _ _ _ _ _ _ _ I Hpc Hrun) as (cell' & I' & Hc). exists cell'. split; [done|by apply Hc].
Qed.

Lemma inv_failStep s s' cell : inv s cell -> failStep s s' -> exists cell', inv s' cell' /\ forall x, x ∈ cell Lost -> x ∈ cell' Lost.
Proof.
  intros I [append pool st added fuel Hpc Hn Hrun]. destruct (pool_inv_batch _ _ _ _ _ _ _ _ I Hpc Hrun) as (cell' & I' & HL).
  exists (lose cell'). split; [by apply inv_lose in I'|]. intros x Hx. simpl. rewrite HL. set_solver.
Qed.

Lemma free_head s cell r : inv s cell -> po_freeOp (sys_rank s r) <> -1 -> exists x F, cell (InFree r) = x :: F.
Proof.
  intros I Hne. pose proof (i_chain _ _ I (InFree r)) as Hc. simpl in Hc.
  destruct (cell (InFree r)) as [|x F]; [done|by eauto].
Qed.

Lemma inv_rankStep s s' cell r : inv s cell -> rankStep r s s' -> exists cell', inv s' cell' /\ cell' Lost = cell Lost.
Proof.
  intros I Hstep. destruct Hstep as [pool me Hf Hn Hrun|o res pool me Hf Hc Hrun|pool me Hf Hrun].
  - eexists. split; [by eapply inv_refill|done].
  - assert (po_freeOp (sys_rank s r) <> -1) as Hne by (intros E; unfold ncclLocalOpAppend in Hrun; rewrite E in Hrun; done).
    destruct (free_head _ _ _ I Hne) as (x & F & HF).
    destruct (append_result s cell r o x F I Hf Hc HF) as (res' & pool' & me' & cell' & Hrun' & HA).
    rewrite Hrun in Hrun'. injection Hrun' as <- <- <-. exists cell'. split; apply HA.
  - by eapply pool_inv_start.
Qed.

Lemma inv_quietStep s s' cell : inv s cell -> quietStep s s' -> exists cell', inv s' cell' /\ cell' Lost = cell Lost.
Proof. intros I [(r & _ & Hs)|Hs]; [by eapply inv_rankStep|by eapply inv_threadStep]. Qed.

(** What is lost stays lost. *)
Lemma inv_steps s s' cell : rtc poolStep s s' -> inv s cell -> exists cell', inv s' cell' /\ forall x, x ∈ cell Lost -> x ∈ cell' Lost.
Proof.
  intros Hr. revert cell. induction Hr as [|s s1 s2 Hs _ IH]; intros cell I; [by exists cell|].
  assert (exists cell1, inv s1 cell1 /\ forall x, x ∈ cell Lost -> x ∈ cell1 Lost) as (cell1 & I1 & H1).
  { destruct Hs as [Hs|Hs]; [|by eapply inv_failStep]. destruct (inv_quietStep _ _ _ I Hs) as (cell1 & I1 & E). exists cell1. by rewrite E. }
  destruct (IH cell1 I1) as (cell2 & I2 & H2). exists cell2. auto.
Qed.

Lemma inv_reachable h s : rtc poolStep (initSystem h) s -> exists cell, inv s cell.
Proof. intros Hr. destruct (inv_steps _ _ _ Hr (pool_inv_init h)) as (cell & I & _). by exists cell. Qed.

(** No entry is lost while no batch fails. *)
Lemma inv_quiet h s : rtc quietStep (initSystem h) s -> exists cell, inv s cell /\ cell Lost = [].
Proof.
  intros Hr. assert (forall s0, rtc quietStep s0 s -> (exists cell, inv s0 cell /\ cell Lost = []) -> exists cell, inv s cell /\ cell Lost = []) as H.
  { clear Hr. induction 1 as [|s0 s1 s2 Hs _ IH]; [done|]. intros (cell & I & E). apply IH.
    destruct (inv_quietStep _ _ _ I Hs) as (cell' & I' & E'). exists cell'. by rewrite E'. }
  eapply H; [done|]. eexists. split; [apply pool_inv_init|done].
Qed.

(** ** Delivery *)

(** The operations of a rank that have not reached the thread. *)
Lemma inFlight_bound cell r : partition cell -> NoDup (inFlight cell r) /\ (forall x, x ∈ inFlight cell r -> x ∈ block r).
Proof.
  intros P. assert (forall p x, x ∈ cell p -> peerOf x = r -> x ∈ block r) as Hb.
  { intros p x Hx Hr. apply (pt_allowed _ P) in Hx as [Hx _]. apply block_elem. unfold peerOf in Hr.
    assert (0 < MAX_OPS_PER_PEER) as HM by done. 
    pose proof (Z.div_mod x MAX_OPS_PER_PEER ltac:(lia)). pose proof (Z.mod_pos_bound x MAX_OPS_PER_PEER HM).
    rewrite <- Hr, Z2Nat.id by (apply Z.div_pos; lia). lia. }
  split.
  - unfold inFlight, ofRank. apply NoDup_app. split_and!; [|intros x [_ H]%list_elem_of_filter|apply P].
    + apply NoDup_filter, NoDup_app. split_and!; [apply P| |apply P]. intros x H. by apply (partition_out cell Taken).
    + apply elem_of_app in H as [H|H]; [by apply (partition_out cell Taken)|by apply (partition_out cell Posted)].
  - intros x. unfold inFlight, ofRank. rewrite elem_of_app, list_elem_of_filter, elem_of_app.
    intros [[Hr [H|H]]|H]; [by eauto|by eauto|]. eapply Hb; [done|]. by eapply pending_own.
Qed.

Lemma inFlight_length cell r : partition cell -> Z.of_nat (length (inFlight cell r)) <= MAX_OPS_PER_PEER.
Proof.
  intros P. destruct (inFlight_bound cell r P) as [Hnd Hin].
  pose proof (submseteq_length _ _ (NoDup_submseteq _ _ Hnd Hin)) as H. unfold block in H. rewrite length_fmap, length_seq in H.
  assert (0 < MAX_OPS_PER_PEER) by done. lia.
Qed.

(** C20: The pool of operations is a set of bounded queues.  In every state the
    ranks and the thread can reach, the operations of a rank the thread has taken
    over are the first ones the rank has appended, in the order it appended them
    and with the contents it gave them; at most [MAX_OPS_PER_PEER] are on their
    way; and when the chains are empty the thread has them all.  No operation is
    lost, repeated, reordered or overwritten, whatever the interleaving of the
    ranks, of the thread's batches and of the exchanges of the free lists, and
    also when [ProxyAppend] fails in the middle of a batch: the next batch starts
    at the operation it failed on. *)
Theorem proxy_pool_fifo (h : heap) (s : system) (r : nat) :
  rtc poolStep (initSystem h) s ->
  exists queue, sys_log s r = addedOf r (sys_added s) ++ queue /\ Z.of_nat (length queue) <= MAX_OPS_PER_PEER /\
    (po_nextOps (sys_rank s r) = -1 -> nextOps (sys_pool s) = -1 -> st_nextOps (sys_thread s) = -1 -> queue = []).
Proof.
  intros [cell I]%inv_reachable. pose proof (i_fifo _ _ I r) as Hf.
  pose proof (inFlight_length cell r (i_part _ _ I)) as Hlen.
  assert (length (addedOf r (sys_added s)) <= length (sys_log s r))%nat as Hle.
  { apply (f_equal length) in Hf. rewrite length_app, !length_fmap in Hf. lia. }
  exists (drop (length (addedOf r (sys_added s))) (sys_log s r)).
  assert (take (length (addedOf r (sys_added s))) (sys_log s r) = addedOf r (sys_added s)) as Ht.
  { apply (inj (fmap Some)). rewrite fmap_take, Hf, take_app_length'; [done|by rewrite length_fmap]. }
  split_and!.
  - by rewrite <- Ht at 1; rewrite take_drop.
  - apply (f_equal length) in Hf. rewrite length_app, !length_fmap in Hf. rewrite length_drop. lia.
  - intros H1 H2 H3. apply nil_length_inv. rewrite length_drop. apply (f_equal length) in Hf. rewrite length_app, !length_fmap in Hf.
    unfold inFlight in Hf. rewrite (proj1 (iseg_nil _ _ _ (i_chain _ _ I (InPending r))) H1) in Hf.
    rewrite (proj1 (iseg_nil _ _ _ (i_chain _ _ I Posted)) H2), (proj1 (iseg_nil _ _ _ (i_chain _ _ I Taken)) H3) in Hf. simpl in Hf. lia.
Qed.

(** ** Progress *)

(** The thread gives back the entries of [i] in one or two exchanges when the
    rank does not interfere. *)
Lemma exchange_run s cell i old todo :
  inv s cell -> st_pc (sys_thread s) = PExchange i old todo ->
  exists s' cell', rtc threadStep s s' /\ inv s' cell' /\ st_pc (sys_thread s') = PFree todo /\
    freeOps (sys_pool s') i <> -1 /\ (forall p, p <> InPool i -> p <> InLocal i -> cell' p = cell p).
Proof.
  assert (forall s cell, inv s cell -> st_pc (sys_thread s) = PExchange i (freeOps (sys_pool s) i) todo ->
    exists s' cell', threadStep s s' /\ inv s' cell' /\ st_pc (sys_thread s') = PFree todo /\
      freeOps (sys_pool s') i <> -1 /\ (forall p, p <> InPool i -> p <> InLocal i -> cell' p = cell p)) as Hone.
  { clear s cell. intros s cell I Hpc. destruct (giveBack i (freeOps (sys_pool s) i) todo (sys_pool s) (sys_thread s)) as [pool st] eqn:Hg.
    destruct (pool_inv_exchange _ _ _ _ _ _ _ I Hpc Hg) as (cell' & I' & Hcell). eexists _, cell'.
    split; [by eapply p_exchange|]. split; [done|]. unfold giveBack in Hg. simpl in Hg. rewrite Z.eqb_refl in Hg. injection Hg as <- <-. simpl.
    rewrite setAt_eq. split; [done|]. split; [|done].
    pose proof (local_empty s cell i I) as He. rewrite Hpc in He. rewrite He by (simpl; set_solver). by apply (i_exchange _ _ I _ _ _ Hpc). }
  intros I Hpc. destruct (decide (freeOps (sys_pool s) i = old)) as [<-|Hne].
  - destruct (Hone s cell I Hpc) as (s' & cell' & H1 & H). exists s', cell'. split; [by apply rtc_once|done].
  - destruct (giveBack i old todo (sys_pool s) (sys_thread s)) as [pool st] eqn:Hg.
    destruct (pool_inv_exchange _ _ _ _ _ _ _ I Hpc Hg) as (cell1 & I1 & Hcell1).
    pose proof (p_exchange s i old todo pool st Hpc Hg) as Hstep.
    assert (st_pc st = PExchange i (freeOps pool i) todo) as Hpc1.
    { unfold giveBack in Hg. simpl in Hg. rewrite (proj2 (Z.eqb_neq _ _) Hne) in Hg. by injection Hg as <- <-. }
    destruct (Hone _ _ I1 Hpc1) as (s' & cell' & H1 & H2 & H3 & H4 & H5). exists s', cell'.
    split; [eapply rtc_l; [done|by apply rtc_once]|]. split_and!; try done. intros p Hp1 Hp2. rewrite H5 by done. auto.
Qed.

(** The thread gives back all entries, those of [r] among them. *)
Lemma free_run r : forall todo s cell,
  inv s cell -> st_pc (sys_thread s) = PFree todo ->
  exists s' cell', rtc threadStep s s' /\ inv s' cell' /\
    (freeOps (sys_pool s') r <> -1 \/
     (st_pc (sys_thread s') = PIdle /\ cell (InLocal r) = [] /\ cell' Taken = cell Taken /\ cell' Posted = cell Posted)).
Proof.
  induction todo as [|i todo IH]; intros s cell I Hpc.
  - eexists _, cell. split; [by apply rtc_once, p_return|]. split; [by apply pool_inv_return|]. right. simpl. split_and!; try done.
    apply (i_local _ _ I). rewrite Hpc. set_solver.
  - pose proof (inv_free _ _ _ _ I Hpc) as I1. pose proof (p_free _ _ _ Hpc) as Hstep.
    destruct (Z.eqb_spec (st_freeOp (sys_thread s) i) (-1)) as [E|E].
    + destruct (IH _ _ I1 eq_refl) as (s' & cell' & H1 & H). exists s', cell'. split; [by eapply rtc_l|done].
    + destruct (exchange_run _ _ _ _ _ I1 eq_refl) as (s2 & cell2 & H1 & I2 & Hpc2 & Hf & Hcell).
      destruct (decide (r = i)) as [->|Hri]; [exists s2, cell2; split; [by eapply rtc_l|]; auto|].
      destruct (IH _ _ I2 Hpc2) as (s' & cell' & H2 & I' & H). exists s', cell'.
      split; [eapply rtc_l; [done|by etrans]|]. split; [done|]. rewrite !Hcell in H by congruence. done.
Qed.

(** The thread works through its chain; an operation of [r] in it leads to a free
    entry of [r]. *)
Lemma taken_run r : 0 <= ProxyAppendBatchSize -> forall n s cell,
  inv s cell -> st_pc (sys_thread s) = PIdle -> (length (cell Taken) <= n)%nat ->
  exists s' cell', rtc threadStep s s' /\ inv s' cell' /\
    (freeOps (sys_pool s') r <> -1 \/
     (st_pc (sys_thread s') = PIdle /\ (forall x, x ∈ cell Taken -> peerOf x <> r) /\ cell' Taken = [] /\ cell' Posted = cell Posted)).
Proof.
  intros HB. induction n as [|n IH]; intros s cell I Hpc Hn; (destruct (decide (cell Taken = [])) as [E|HTne];
    [exists s, cell; split; [done|]; split; [done|]; right; rewrite E; split_and!; try done; set_solver|]).
  { destruct HTne. apply nil_length_inv. lia. }
  destruct (inv_process (fun _ _ => true) s cell (S n) I Hpc Hn)
    as (ok & pool & st & added & D & cell1 & Hrun & I1 & (HT & HD & _ & HP & _) & _ & Hok).
  destruct Hok as [-> Hne]; [done|]. specialize (Hne HTne HB).
  assert (st_nextOps (sys_thread s) <> -1) as Hn1 by (intros E; apply HTne; by apply (iseg_nil _ _ _ (i_chain _ _ I Taken))).
  pose proof (p_process s _ pool st added (S n) Hpc Hn1 Hrun) as Hstep.
  destruct (free_run r _ _ _ I1 eq_refl) as (s2 & cell2 & H2 & I2 & [Hf|(Hpc2 & Hl & HT2 & HP2)]).
  { exists s2, cell2. split; [by eapply rtc_l|auto]. }
  destruct (IH s2 cell2 I2 Hpc2) as (s3 & cell3 & H3 & I3 & H).
  - rewrite HT, length_app in Hn. rewrite HT2. destruct D; [done|]. simpl in Hn. lia.
  - exists s3, cell3. split; [eapply rtc_l; [done|by etrans]|]. split; [done|]. rewrite HP2, HP, HT2 in H.
    destruct H as [H|(Ha & Hb & Hc & Hd)]; [auto|]. right. split_and!; try done. intros x. rewrite HT. intros [Hin|Hin]%elem_of_app; [|auto].
    intros Hx. apply HD in Hin. rewrite Hx, Hl in Hin. set_solver.
Qed.

(** The thread finishes what it is doing. *)
Lemma idle_run r s cell : inv s cell ->
  exists s' cell', rtc threadStep s s' /\ inv s' cell' /\ (freeOps (sys_pool s') r <> -1 \/
    (st_pc (sys_thread s') = PIdle /\ cell (InLocal r) = [] /\ cell' Taken = cell Taken /\ cell' Posted = cell Posted)).
Proof.
  intros I. destruct (st_pc (sys_thread s)) as [|todo|i old todo] eqn:Hpc.
  - exists s, cell. split; [done|]. split; [done|]. right. split_and!; try done. apply (i_local _ _ I). rewrite Hpc. set_solver.
  - by eapply free_run.
  - destruct (exchange_run _ _ _ _ _ I Hpc) as (s2 & cell2 & H1 & I2 & Hpc2 & Hf & Hcell).
    destruct (decide (r = i)) as [->|Hri]; [exists s2, cell2; auto|].
    destruct (free_run r _ _ _ I2 Hpc2) as (s' & cell' & H2 & I' & H). exists s', cell'.
    split; [by etrans|]. split; [done|]. rewrite !Hcell in H by congruence. done.
Qed.

(** An operation of [r] anywhere with the thread or posted leads to a free entry of [r]. *)
Lemma posted_run r x s cell :
  0 <= ProxyAppendBatchSize -> peerOf x = r -> inv s cell -> x ∈ cell (InLocal r) \/ x ∈ cell Posted \/ x ∈ cell Taken ->
  exists s', rtc threadStep s s' /\ freeOps (sys_pool s') r <> -1.
Proof.
  intros HB Hx I Hin.
  destruct (idle_run r s cell I) as (s1 & cell1 & H1 & I1 & [Hf|(Hpc1 & Hl & HT1 & HP1)]); [by exists s1|].
  destruct (taken_run r HB _ s1 cell1 I1 Hpc1 (le_n _)) as (s2 & cell2 & H2 & I2 & [Hf|(Hpc2 & Hno & HT2 & HP2)]); [exists s2; split; [by etrans|done]|].
  assert (x ∈ cell2 Posted) as Hin2.
  { rewrite HP2, HP1. destruct Hin as [Hin|[Hin|Hin]]; [rewrite Hl in Hin; set_solver|done|]. rewrite HT1 in Hno. by apply Hno in Hin. }
  assert (nextOps (sys_pool s2) <> -1) as Hne.
  { intros E. apply (iseg_nil _ _ _ (i_chain _ _ I2 Posted)) in E. rewrite E in Hin2. set_solver. }
  pose proof (proj2 (iseg_nil _ _ _ (i_chain _ _ I2 Taken)) HT2) as Hn2.
  destruct (takePosted (sys_pool s2) (sys_thread s2)) as [pool st] eqn:Ht.
  pose proof (pool_inv_take _ _ _ _ I2 Hpc2 Hn2 Ht) as I3. pose proof (p_take _ _ _ Hpc2 Hn2 Hne Ht) as Hstep.
  assert (st_pc st = PIdle) as Hpc3 by (by injection Ht as <- <-).
  destruct (taken_run r HB _ _ _ I3 Hpc3 (le_n _)) as (s4 & cell4 & H4 & _ & [Hf|(_ & Hno4 & _)]).
  - exists s4. split; [|done]. do 2 (etrans; [done|]). by eapply rtc_l.
  - exfalso. by apply (Hno4 x); [rewrite upd_ne, pool_upd_eq|].
Qed.

(** C21: A rank never waits for an entry in vain while no batch of the thread has
    failed.  Whenever the ranks and the thread have run without a failure of
    [ProxyAppend] and a rank whose appends have succeeded has no free entry left,
    steps of the proxy thread alone, in which [ProxyAppend] succeeds, lead to a state
    in which the free list of the rank in the pool is not empty: the chain of the rank is posted before all
    entries are in it, the thread's loop hands over one operation at least, never
    finds one without a connection, and the exchanges that give the entries back
    succeed.  (After a failure the entries of the batch are lost, and the thread may
    have none to give back: see [append_failure_leaks].) *)
Theorem proxy_pool_no_starvation (h : heap) (s : system) (r : nat) :
  0 <= ProxyAppendBatchSize -> (r < tpLocalnRanks)%nat ->
  rtc quietStep (initSystem h) s -> sys_failed s r = false -> po_freeOp (sys_rank s r) = -1 ->
  exists s', rtc threadStep s s' /\ freeOps (sys_pool s') r <> -1.
Proof.
  intros HB Hr (cell & I & HL)%inv_quiet Hf Hfree. pose proof (i_full _ _ I r Hf) as Hlt. rewrite (i_count _ _ I r) in Hlt.
  assert (exists x, x ∈ block r /\ x ∉ cell (InPending r)) as (x & Hxb & Hxp).
  { destruct (decide (Forall (fun x => x ∈ cell (InPending r)) (block r))) as [Hall|Hnot].
    - rewrite Forall_forall in Hall.
      assert (NoDup (block r)) as Hnd by (apply NoDup_fmap_2; [intros ???; lia|apply NoDup_seq]).
      pose proof (submseteq_length _ _ (NoDup_submseteq _ _ Hnd Hall)) as H. unfold block in H. rewrite length_fmap, length_seq in H. lia.
    - apply not_Forall_Exists, Exists_exists in Hnot as (x & Hx & Hnx); [by exists x|apply _]. }
  pose proof (block_peer _ _ Hxb) as Hpx. apply block_elem in Hxb.
  destruct (pt_cover _ (i_part _ _ I) x) as [p Hp]; [assert (0 < MAX_OPS_PER_PEER) by done; nia|].
  pose proof (pt_allowed _ (i_part _ _ I) _ _ Hp) as [_ Hal].
  destruct p as [r'|r'|r'|r'| | |]; try (rewrite Hpx in Hal; subst r').
  - rewrite (proj1 (iseg_nil _ _ _ (i_chain _ _ I (InFree r))) Hfree) in Hp. set_solver.
  - exists s. split; [done|]. intros E. rewrite (proj1 (iseg_nil _ _ _ (i_chain _ _ I (InPool r))) E) in Hp. set_solver.
  - done.
  - eapply posted_run; eauto.
  - eapply posted_run; eauto.
  - eapply posted_run; eauto.
  - rewrite HL in Hp. set_solver.
Qed.

(** An entry the thread holds in a local list when the batch fails is never free
    again. *)
Lemma lost_forever s cell s' x r : inv s cell -> x ∈ cell Lost -> rtc poolStep s s' -> po_freeOp (sys_rank s' r) <> x.
Proof.
  intros I Hx Hr E. destruct (inv_steps _ _ _ Hr I) as (cell' & I' & H'). apply H' in Hx.
  pose proof (pt_allowed _ (i_part _ _ I') _ _ Hx) as [[? _] _].
  destruct (free_head _ _ r I') as (y & F & HF); [lia|]. pose proof (i_chain _ _ I' (InFree r)) as Hc. simpl in Hc. rewrite HF in Hc.
  destruct Hc as (Hy & _ & _). rewrite E in Hy. subst y.
  assert (x ∈ cell' (InFree r)) as Hin by (rewrite HF; set_solver). by pose proof (pt_disjoint _ (i_part _ _ I') _ _ _ Hx Hin).
Qed.

(** The entry of the first operation of a batch that fails after it is lost. *)
Lemma fail_loses h s append pool st added fuel x o r s' :
  rtc quietStep (initSystem h) s -> st_pc (sys_thread s) = PIdle -> st_nextOps (sys_thread s) = x -> x <> -1 ->
  processOps append fuel (sys_pool s) (noFree (sys_thread s)) 0 (-1) 0 [] = Some (false, pool, st, o :: added) ->
  rtc poolStep {| sys_pool := pool; sys_rank := sys_rank s; sys_thread := setPc PIdle st;
                  sys_failed := sys_failed s; sys_log := sys_log s; sys_added := sys_added s ++ o :: added |} s' ->
  po_freeOp (sys_rank s' r) <> x.
Proof.
  intros (cell & I & _)%inv_quiet Hpc Hx Hne Hrun.
  destruct (inv_process append s cell (fuel + length (cell Taken)) I Hpc ltac:(lia))
    as (ok' & pool' & st' & added' & D & cell' & Hrun' & HI & (HT & HD & _) & Hlen & _).
  rewrite (processOps_fuel _ _ _ _ _ _ _ _ _ Hrun) in Hrun' by lia. injection Hrun' as <- <- <- <-.
  destruct D as [|y D]; [done|]. pose proof (i_chain _ _ I Taken) as Hc. simpl in Hc. rewrite HT in Hc. destruct Hc as (Hy & _ & _).
  rewrite Hx in Hy. subst y. specialize (HD x ltac:(set_solver)).
  apply (lost_forever _ (lose cell')); [by apply inv_lose in HI|]. simpl. apply elem_of_app. right. apply localsOf_elem.
  exists (peerOf x). split; [|done]. apply elem_of_seq. pose proof (allowed_peer _ _ (pt_allowed _ (i_part _ _ HI) _ _ HD)). lia.
Qed.

(** ** The operations of a chain *)

Fixpoint chainOps (fuel : nat) (pool : ncclProxyOpsPool) (p : Z) : list Op :=
  match fuel with
  | O => []
  | S fuel => if p =? -1 then [] else match ops pool p with Some o => o :: chainOps fuel pool (next pool p) | None => [] end
  end.

(** The operations a rank has appended and not posted. *)
Definition pendingOps (s : system) (r : nat) : list Op :=
  chainOps (Z.to_nat MAX_OPS_PER_PEER) (sys_pool s) (po_nextOps (sys_rank s r)).

(** The posted operations of all ranks. *)
Definition postedOps (s : system) : list Op :=
  chainOps (tpLocalnRanks * Z.to_nat MAX_OPS_PER_PEER) (sys_pool s) (nextOps (sys_pool s)).

Lemma chainOps_eq pool l : forall fuel p, iseg (next pool) p l (-1) -> (forall x, x ∈ l -> is_Some (ops pool x)) -> (length l <= fuel)%nat ->
  chainOps fuel pool p = omap (ops pool) l.
Proof.
  induction l as [|x l IH]; intros fuel p Hc Hs Hf.
  - simpl in Hc. subst p. by destruct fuel.
  - destruct Hc as (-> & Hx & Hc). destruct fuel as [|fuel]; simpl in Hf; [lia|]. simpl. rewrite (proj2 (Z.eqb_neq x (-1))) by lia.
    destruct (Hs x ltac:(set_solver)) as [o Ho]. rewrite Ho. f_equal. apply IH; [done|set_solver|lia].
Qed.

Lemma flight_some s cell r x : inv s cell -> x ∈ inFlight cell r -> is_Some (ops (sys_pool s) x).
Proof.
  intros I Hx. assert (ops (sys_pool s) x ∈ Some <$> sys_log s r) as (o & -> & _)%list_elem_of_fmap; [|done].
  rewrite (i_fifo _ _ I r). apply elem_of_app. right. by apply list_elem_of_fmap_2.
Qed.

Lemma cell_length cell p : partition cell -> (length (cell p) <= tpLocalnRanks * Z.to_nat MAX_OPS_PER_PEER)%nat.
Proof.
  intros P. set (all := Z.of_nat <$> seq 0 (tpLocalnRanks * Z.to_nat MAX_OPS_PER_PEER)).
  assert (0 < MAX_OPS_PER_PEER) by done.
  assert (cell p ⊆+ all) as H'%submseteq_length.
  { apply NoDup_submseteq; [apply P|]. intros x Hx. apply (pt_allowed _ P) in Hx as [Hx _].
    apply list_elem_of_fmap. exists (Z.to_nat x). split; [lia|]. apply elem_of_seq. lia. }
  unfold all in H'. by rewrite length_fmap, length_seq in H'.
Qed.

Lemma pendingOps_eq s cell r : inv s cell -> pendingOps s r = omap (ops (sys_pool s)) (cell (InPending r)).
Proof.
  intros I. apply chainOps_eq; [apply (i_chain _ _ I (InPending r))| |].
  - intros x Hx. apply (flight_some s cell r); [done|]. unfold inFlight. set_solver.
  - assert (0 < MAX_OPS_PER_PEER) by done. pose proof (inFlight_length cell r (i_part _ _ I)) as H'. unfold inFlight in H'. rewrite length_app in H'. lia.
Qed.

Lemma postedOps_eq s cell : inv s cell -> postedOps s = omap (ops (sys_pool s)) (cell Posted).
Proof.
  intros I. apply chainOps_eq; [apply (i_chain _ _ I Posted)| |by apply cell_length, (i_part _ _ I)].
  intros x Hx. apply (flight_some s cell (peerOf x)); [done|]. unfold inFlight, ofRank. rewrite elem_of_app, list_elem_of_filter. set_solver.
Qed.

Lemma omap_frame {B} (f g : Z -> option B) (l : list Z) : (forall z, z ∈ l -> g z = f z) -> omap g l = omap f l.
Proof. induction l as [|z l IH]; intros H; [done|]. csimpl. rewrite H by set_solver. rewrite IH by set_solver. done. Qed.

Lemma omap_total {B} (f : Z -> option B) (l : list Z) : (forall z, z ∈ l -> is_Some (f z)) -> length (omap f l) = length l.
Proof.
  induction l as [|z l IH]; intros H; [done|]. csimpl. destruct (H z) as [b ->]; [set_solver|]. simpl. rewrite IH by set_solver. done.
Qed.

Lemma Forall_count s (l : list Z) c : (forall z, z ∈ l -> is_Some (ops (sys_pool s) z)) ->
  Forall (fun z => countAt (sys_pool s) z = c) l -> Forall (fun o => opCount o = c) (omap (ops (sys_pool s)) l).
Proof.
  intros Hs H. apply Forall_forall. intros o (z & Hz & Ho)%list_elem_of_omap. rewrite Forall_forall in H. specialize (H z Hz).
  unfold countAt in H. by rewrite Ho in H.
Qed.

(** What an append does to the chain of a rank.  In every reachable state, a
    rank that has a free entry appends an operation, and one of three things
    happens.  If the chain is not full, the operation is its new last one.  If it
    is full, it is cut: the operations up to the last one whose count differs
    from that of the new operation are posted behind those already posted, and
    the rank keeps the group that shares the new count, so that no group of
    operations with one count is split between two posts.  The append fails with
    an internal error exactly when all [MAX_OPS_PER_PEER] operations have one count. *)
Lemma ncclLocalOpAppend_cut (h : heap) (s : system) (r : nat) (o : Op) :
  rtc poolStep (initSystem h) s -> sys_failed s r = false -> hasConnection o = true -> po_freeOp (sys_rank s r) <> -1 ->
  exists res pool me, ncclLocalOpAppend (sys_pool s) (sys_rank s r) o = Some (res, pool, me) /\
    let s' := {| sys_pool := pool; sys_rank := setAt (sys_rank s) r me; sys_thread := sys_thread s;
                 sys_failed := setAt (sys_failed s) r (bool_decide (res <> ncclSuccess));
                 sys_log := setAt (sys_log s) r (sys_log s r ++ [o]); sys_added := sys_added s |} in
    (res = ncclSuccess /\ Z.of_nat (length (pendingOps s r)) + 1 < MAX_OPS_PER_PEER /\
       pendingOps s' r = pendingOps s r ++ [o] /\ postedOps s' = postedOps s) \/
    (res = ncclSuccess /\ Z.of_nat (length (pendingOps s r)) + 1 = MAX_OPS_PER_PEER /\ exists A y B,
       pendingOps s r = A ++ y :: B /\ opCount y <> opCount o /\ Forall (fun o' => opCount o' = opCount o) B /\
       postedOps s' = postedOps s ++ A ++ [y] /\ pendingOps s' r = B ++ [o]) \/
    (res = ncclInternalError /\ Z.of_nat (length (pendingOps s r)) + 1 = MAX_OPS_PER_PEER /\
       Forall (fun o' => opCount o' = opCount o) (pendingOps s r)).
Proof.
  intros [cell I]%inv_reachable Hf Hc Hne. destruct (free_head _ _ _ I Hne) as (x & F & HF).
  destruct (append_result s cell r o x F I Hf Hc HF) as (res & pool & me & cell' & Hrun & [I' _ _ _ Hops Hcase]).
  exists res, pool, me. split; [done|]. cbv zeta.
  set (s' := {| sys_pool := pool |}) in *.
  rewrite (pendingOps_eq s' cell' r I'), (postedOps_eq s' cell' I'), (pendingOps_eq s cell r I), (postedOps_eq s cell I).
  assert (forall p, p <> InFree r -> x ∉ cell p) as Hout.
  { intros p Hp. apply (partition_out cell (InFree r)); [apply I|rewrite HF; set_solver|done]. }
  assert (forall p (l : list Z), p <> InFree r -> (forall z, z ∈ l -> z ∈ cell p) -> omap (ops (sys_pool s')) l = omap (ops (sys_pool s)) l) as Hsame.
  { intros p l Hp Hl. apply omap_frame. intros z Hz. rewrite Hops, (proj2 (Z.eqb_neq z x)); [done|]. intros ->. by apply (Hout p Hp), Hl. }
  assert (forall z, z ∈ cell (InPending r) -> is_Some (ops (sys_pool s) z)) as Hsome.
  { intros z Hz. apply (flight_some s cell r); [done|]. unfold inFlight. set_solver. }
  assert (omap (ops (sys_pool s')) [x] = [o]) as Hx by (simpl; by rewrite Hops, Z.eqb_refl).
  rewrite (omap_total _ _ Hsome).
  destruct Hcase as [(-> & Hlt & HP & HN)|[(-> & Hfull & A & y & B & HAB & HP & HN & Hy & HB)|(-> & Hfull & Hall & HP & HN)]].
  - left. rewrite HP, HN, omap_app, Hx. by rewrite (Hsame (InPending r) (cell (InPending r))), (Hsame Posted (cell Posted)) by done.
  - right. left. split_and!; [done|done|]. destruct (Hsome y ltac:(rewrite HAB; set_solver)) as [oy Hoy].
    exists (omap (ops (sys_pool s)) A), oy, (omap (ops (sys_pool s)) B).
    rewrite HP, HN, !omap_app, Hx, HAB, omap_app. rewrite (Hsame Posted (cell Posted)) by done.
    rewrite (Hsame (InPending r) A), (Hsame (InPending r) [y]), (Hsame (InPending r) B) by (done || rewrite HAB; set_solver). csimpl. rewrite Hoy.
    split_and!; try done; [|apply Forall_count; [|done]; intros z Hz; apply Hsome; rewrite HAB; set_solver].
    unfold countAt in Hy. by rewrite Hoy in Hy.
  - right. right. split_and!; [done|done|]. by apply Forall_count.
Qed.

(** ** Runs *)

(** The steps as functions, for runs of the machine. *)
Inductive action :=
  | ARefill (r : nat)
  | AAppend (r : nat) (o : Op)
  | AStart (r : nat)
  | ATake
  | AProcess
  | AFree
  | AReturn
  | AExchange.

Definition rankAct (s : system) (r : nat) (pool : ncclProxyOpsPool) (me : ncclProxyOps) : system := {|
  sys_pool := pool; sys_rank := setAt (sys_rank s) r me; sys_thread := sys_thread s;
  sys_failed := sys_failed s; sys_log := sys_log s; sys_added := sys_added s |}.

Definition threadAct (s : system) (pool : ncclProxyOpsPool) (st : progress) (added : list (nat * Op)) : system := {|
  sys_pool := pool; sys_rank := sys_rank s; sys_thread := st;
  sys_failed := sys_failed s; sys_log := sys_log s; sys_added := added |}.

Definition act (a : action) (s : system) : option system :=
  match a, st_pc (sys_thread s) with
  | ARefill r, _ =>
      if (r <? tpLocalnRanks)%nat && negb (sys_failed s r) && (po_freeOp (sys_rank s r) =? -1) then
        let '(pool, me) := refill r (sys_pool s) (sys_rank s r) in Some (rankAct s r pool me)
      else None
  | AAppend r o, _ =>
      if (r <? tpLocalnRanks)%nat && negb (sys_failed s r) && hasConnection o then
        '(res, pool, me) ← ncclLocalOpAppend (sys_pool s) (sys_rank s r) o;
        Some {| sys_pool := pool; sys_rank := setAt (sys_rank s) r me; sys_thread := sys_thread s;
                sys_failed := setAt (sys_failed s) r (bool_decide (res <> ncclSuccess));
                sys_log := setAt (sys_log s) r (sys_log s r ++ [o]); sys_added := sys_added s |}
      else None
  | AStart r, _ =>
      if (r <? tpLocalnRanks)%nat && negb (sys_failed s r) then
        let '(pool, me) := ncclProxyStart (sys_pool s) (sys_rank s r) in Some (rankAct s r pool me)
      else None
  | ATake, PIdle =>
      if (st_nextOps (sys_thread s) =? -1) && negb (nextOps (sys_pool s) =? -1) then
        let '(pool, st) := takePosted (sys_pool s) (sys_thread s) in Some (threadAct s pool st (sys_added s))
      else None
  | AProcess, PIdle =>
      if st_nextOps (sys_thread s) =? -1 then None else
      match processOps (fun _ _ => true) (tpLocalnRanks * Z.to_nat MAX_OPS_PER_PEER) (sys_pool s) (noFree (sys_thread s)) 0 (-1) 0 [] with
      | Some (true, pool, st, added) => Some (threadAct s pool (setPc (PFree (seq 0 tpLocalnRanks)) st) (sys_added s ++ added))
      | _ => None
      end
  | AFree, PFree (i :: todo) =>
      Some (threadAct s (sys_pool s)
        (setPc (if st_freeOp (sys_thread s) i =? -1 then PFree todo else PExchange i (freeOps (sys_pool s) i) todo) (sys_thread s)) (sys_added s))
  | AReturn, PFree [] => Some (threadAct s (sys_pool s) (setPc PIdle (sys_thread s)) (sys_added s))
  | AExchange, PExchange i old todo =>
      let '(pool, st) := giveBack i old todo (sys_pool s) (sys_thread s) in Some (threadAct s pool st (sys_added s))
  | _, _ => None
  end.

Fixpoint acts (l : list action) (s : system) : option system :=
  match l with [] => Some s | a :: l => s ← act a s; acts l s end.

Lemma act_step a s s' : act a s = Some s' -> quietStep s s'.
Proof.
  unfold act. intros H.
  destruct a; repeat (case_match; simplify_eq); simplify_option_eq;
    repeat match goal with
    | H : _ && _ = true |- _ => apply andb_prop in H as [? ?]
    | H : negb _ = true |- _ => apply negb_true_iff in H
    | H : (_ <? _)%nat = true |- _ => apply Nat.ltb_lt in H
    | H : (_ =? _) = true |- _ => apply Z.eqb_eq in H
    | H : (_ =? _) = false |- _ => apply Z.eqb_neq in H
    end.
  - left. exists r. split; [done|by eapply p_refill].
  - left. exists r. destruct (ncclLocalOpAppend _ _ _) as [[[res pool] me]|] eqn:E; [|done]. simplify_eq/=. split; [done|by eapply p_append].
  - left. exists r. split; [done|by eapply p_start].
  - right. by eapply p_take.
  - right. by eapply p_process.
  - right. match goal with Hpc : st_pc _ = PFree _ |- _ => generalize (p_free _ _ _ Hpc) end. case_match; [done|by apply Z.eqb_neq in H1].
  - right. match goal with Hpc : st_pc _ = PFree _ |- _ => generalize (p_free _ _ _ Hpc) end. case_match; [by apply Z.eqb_eq in H1|done].
  - right. by eapply p_return.
  - right. by eapply p_exchange.
Qed.

Lemma acts_reach l : forall s s', acts l s = Some s' -> rtc quietStep s s'.
Proof.
  induction l as [|a l IH]; intros s s' H; simpl in H; [by injection H as <-|].
  destruct (act a s) as [s1|] eqn:E; [|done]. eapply rtc_l; [by eapply act_step|by apply IH].
Qed.

Lemma quiet_pool s s' : rtc quietStep s s' -> rtc poolStep s s'.
Proof. induction 1; [done|]. eapply rtc_l; [by left|done]. Qed.

End pool.

(** ** Examples *)

(** Operations that are their count, with a connection each; two ranks. *)
Definition exampleActs {Op : Type} (n : nat) (l : list (@action Op)) (opCount : Op -> Z) : system :=
  let s := initSystem n (fun _ => 0) in
  match acts opCount (fun _ => true) n 16 l s with Some s' => s' | None => s end.

Lemma exampleActs_reach {Op : Type} n (l : list (@action Op)) opCount :
  rtc (quietStep opCount (fun _ => true) n 16) (initSystem n (fun _ => 0)) (exampleActs n l opCount).
Proof. unfold exampleActs. destruct (acts _ _ _ _ _ _) eqn:E; [by eapply acts_reach|done]. Qed.

(** Rank 0 appends and posts 7 and 8, rank 1 appends 9; the thread takes the posted
    chain, processes it and gives the entries back, while rank 0 appends 10. *)
Definition exampleRun : list (@action Z) :=
  [ARefill 0; ARefill 1; AAppend 0 7; AAppend 1 9; AAppend 0 8; AStart 0; ATake; AAppend 0 10; AProcess; AFree; AStart 1; AExchange; AFree; AReturn].

Lemma proxy_pool_fifo_witness :
  let s := exampleActs 2 exampleRun id in
  sys_log s 0%nat = [7; 8; 10] /\ sys_added s = [(0%nat, 7); (0%nat, 8)] /\
  exists queue, sys_log s 0%nat = addedOf 0 (sys_added s) ++ queue /\ Z.of_nat (length queue) <= MAX_OPS_PER_PEER /\
    (po_nextOps (sys_rank s 0%nat) = -1 -> nextOps (sys_pool s) = -1 -> st_nextOps (sys_thread s) = -1 -> queue = []).
Proof.
  cbv zeta. split; [vm_compute; reflexivity|]. split; [vm_compute; reflexivity|].
  exact (proxy_pool_fifo id (fun _ => true) 2 16 (fun _ => 0) _ 0 (quiet_pool _ _ _ _ _ _ (exampleActs_reach 2 exampleRun id))).
Defined.

(** A rank appends as many operations as it has entries, each with its own count:
    the last append posts all but one of them, and no entry is free. *)
Definition exampleFull : list (@action Z) := ARefill 0 :: ((fun i : nat => AAppend 0 (Z.of_nat i)) <$> seq 1 (Z.to_nat MAX_OPS_PER_PEER)).

Definition starved (s : @system Z) : bool :=
  (freeOps (sys_pool s) 0%nat =? -1) && (po_count (sys_rank s 0%nat) =? 1) && negb (sys_failed s 0%nat) && (po_freeOp (sys_rank s 0%nat) =? -1).

Lemma starved_spec s : starved s = true ->
  freeOps (sys_pool s) 0%nat = -1 /\ po_count (sys_rank s 0%nat) = 1 /\ sys_failed s 0%nat = false /\ po_freeOp (sys_rank s 0%nat) = -1.
Proof. unfold starved. rewrite !andb_true_iff, negb_true_iff, !Z.eqb_eq. tauto. Qed.

Lemma exampleFull_starved : starved (exampleActs 1 exampleFull id) = true.
Proof. vm_compute. reflexivity. Qed.

Lemma proxy_pool_no_starvation_witness :
  let s := exampleActs 1 exampleFull id in
  freeOps (sys_pool s) 0%nat = -1 /\ po_count (sys_rank s 0%nat) = 1 /\
  exists s', rtc (threadStep id (fun _ => true) 1 16) s s' /\ freeOps (sys_pool s') 0%nat <> -1.
Proof.
  destruct (starved_spec _ exampleFull_starved) as (E1 & E2 & E3 & E4). split; [exact E1|]. split; [exact E2|].
  exact (proxy_pool_no_starvation id (fun _ => true) 1 16 (fun _ => 0) _ 0 ltac:(lia) ltac:(lia) (exampleActs_reach 1 exampleFull id) E3 E4).
Defined.

(** Rank 0 posts 7 and 8 and the thread takes the chain. *)
Definition exampleTaken : @system Z := exampleActs 1 [ARefill 0; AAppend 0 7; AAppend 0 8; AStart 0; ATake] id.

(** [ProxyAppend] fails on every operation but the first of a batch. *)
Definition onlyFirst (added : list (nat * Z)) (op : nat * Z) : bool := match added with [] => true | _ => false end.

(** The flag and the operations of a batch. *)
Definition batchResult (r : option (bool * @ncclProxyOpsPool Z * progress * list (nat * Z))) : option (bool * list (nat * Z)) :=
  '(ok, _, _, added) ← r; Some (ok, added).

Lemma exampleBatch_fails : 
  batchResult (processOps id (fun _ => true) 16 onlyFirst 2 (sys_pool exampleTaken) (noFree (sys_thread exampleTaken)) 0 (-1) 0 []) = Some (false, [(0%nat, 7)]).
Proof. vm_compute. reflexivity. Qed.

Lemma exampleTaken_idle : st_pc (sys_thread exampleTaken) = PIdle /\ st_nextOps (sys_thread exampleTaken) = 0.
Proof. vm_compute. split; reflexivity. Qed.

(** A failure of [ProxyAppend] leaks entries: the thread has taken 7 and fails on 8;
    the entry of 7 is not given back, and no rank gets it as a free entry in any
    later state. *)
Lemma append_failure_leaks :
  exists s, failStep id (fun _ => true) 16 exampleTaken s /\ sys_added s = sys_added exampleTaken ++ [(0%nat, 7)] /\
    forall s' r, rtc (poolStep id (fun _ => true) 1 16) s s' -> po_freeOp (sys_rank s' r) <> 0.
Proof.
  destruct exampleTaken_idle as [Hpc Hn]. pose proof exampleBatch_fails as H.
  destruct (processOps _ _ _ _ _ _ _ _ _ _ _) as [[[[ok pool] st] added]|] eqn:E; [|discriminate H]. injection H as -> ->.
  assert (st_nextOps (sys_thread exampleTaken) <> -1) as Hne by (rewrite Hn; discriminate).
  eexists. split; [exact (p_fail id (fun _ => true) 16 exampleTaken onlyFirst pool st _ 2 Hpc Hne E)|].
  split; [reflexivity|]. intros s' r.
  exact (fail_loses id (fun _ => true) 1 16 (fun _ => 0) exampleTaken onlyFirst pool st [] 2 0 (0%nat, 7) r s'
           (exampleActs_reach 1 _ id) Hpc Hn ltac:(discriminate) E).
Qed.

Lemma ncclLocalOpAppend_cut_example :
  let s := exampleActs 2 exampleRun id in
  exists res pool me, ncclLocalOpAppend id (sys_pool s) (sys_rank s 0%nat) 11 = Some (res, pool, me) /\
    let s' := {| sys_pool := pool; sys_rank := setAt (sys_rank s) 0 me; sys_thread := sys_thread s;
                 sys_failed := setAt (sys_failed s) 0 (bool_decide (res <> ncclSuccess));
                 sys_log := setAt (sys_log s) 0 (sys_log s 0%nat ++ [11]); sys_added := sys_added s |} in
    (res = ncclSuccess /\ Z.of_nat (length (pendingOps s 0)) + 1 < MAX_OPS_PER_PEER /\
       pendingOps s' 0 = pendingOps s 0 ++ [11] /\ postedOps 2 s' = postedOps 2 s) \/
    (res = ncclSuccess /\ Z.of_nat (length (pendingOps s 0)) + 1 = MAX_OPS_PER_PEER /\ exists A y B,
       pendingOps s 0 = A ++ y :: B /\ id y <> 11 /\ Forall (fun o' => id o' = 11) B /\
       postedOps 2 s' = postedOps 2 s ++ A ++ [y] /\ pendingOps s' 0 = B ++ [11]) \/
    (res = ncclInternalError /\ Z.of_nat (length (pendingOps s 0)) + 1 = MAX_OPS_PER_PEER /\
       Forall (fun o' => id o' = 11) (pendingOps s 0)).
Proof.
  cbv zeta. apply (ncclLocalOpAppend_cut id (fun _ => true) 2 16 (fun _ => 0) _ 0 11 (quiet_pool _ _ _ _ _ _ (exampleActs_reach 2 exampleRun id))).
  - vm_compute. reflexivity.
  - reflexivity.
  - vm_compute. discriminate.
Defined.
