(* ===== verification/ProxyActive.v ===== *)
(** * The operations the proxy works on (src/src/proxy.cc)

    The progress thread of the proxy keeps the operations it works on in a list of
    lists.  Objects [ncclProxyArgs] are linked by [next] into the list of active
    operations, at most one for each place where operations are appended
    ([proxyAppendPtr]: a connection, or the connections of a channel that share
    buffers); behind an active one, linked by [nextPeer], wait the later ones for the
    same place.  Operations of one launch on shared buffers are put together as subs of
    one object.  This file models [allocateArgs], [ncclProxyOpToArgs], [ProxyAppend],
    [removeOp] and [progressOps] on one heap of objects, and shows that they implement
    a list of queues, in which the operations of each place are worked on one after
    another and in the order they arrive.

    The progress functions of the transports are parameters; timing, printing and the
    profiler are not modelled. *)

From stdpp Require Import base numbers list sets.
From Stdlib Require Import ZArith Lia.
From S2P Require Import Prelude Heap.

Local Open Scope Z_scope.

(** ** Operations *)

(* src/src/include/proxy.h:48-52 ncclProxyOpState *)
Inductive ncclProxyOpState :=
  | ncclProxyOpNone
  | ncclProxyOpReady
  | ncclProxyOpProgress.

#[global] Instance ncclProxyOpState_eq_dec : EqDecision ncclProxyOpState.
Proof. solve_decision. Defined.

(* src/src/include/device.h:93-93 MAXCHANNELS *)
Definition NCCL_PROXY_MAX_SUBS : nat := 64.

(** A connection: whether its buffers are shared, and where operations are appended. *)
Record ncclProxyConnection := {
  shared : bool;
  proxyAppendPtr : Z }.

(** The fields of an operation the list depends on; [opData] stands for the others. *)
(* src/src/include/proxy.h:72-116 ncclProxyOp *)
Record ncclProxyOp := {
  connection : ncclProxyConnection;
  opCount : Z;
  sliceSteps : Z;
  chunkSteps : Z;
  protocol : Z;
  dtype : Z;
  redOp : Z;
  coll : Z;
  nChannels : Z;
  nPeers : Z;
  opData : Z }.

(** The object of one or more operations; a sub has the fields of its operation. *)
(* src/src/include/proxy.h:174-209 ncclProxyArgs *)
Record ncclProxyArgs := {
  subs : list ncclProxyOp;
  a_done : Z;
  a_opCount : Z;
  a_sliceSteps : Z;
  a_chunkSteps : Z;
  a_protocol : Z;
  a_dtype : Z;
  a_redOp : Z;
  a_coll : Z;
  a_nChannels : Z;
  a_nPeers : Z;
  a_state : ncclProxyOpState;
  a_proxyAppendPtr : Z }.

(* src/src/proxy.cc:377-446 ncclProxyOpToArgs *)
Definition ncclProxyOpToArgs (op : ncclProxyOp) (args : ncclProxyArgs) (subIndex : nat) : ncclProxyArgs * ncclResult_t :=
  if (NCCL_PROXY_MAX_SUBS <=? subIndex)%nat then (args, ncclInternalError)
  else
    let subs := take subIndex (subs args) ++ [op] in
    if negb (subIndex =? 0)%nat then
      let args' := {| subs := subs; a_done := a_done args; a_opCount := a_opCount args; a_sliceSteps := a_sliceSteps args; a_chunkSteps := a_chunkSteps args;
        a_protocol := a_protocol args; a_dtype := a_dtype args; a_redOp := a_redOp args; a_coll := a_coll args;
        a_nChannels := Z.min (a_nChannels args) (nChannels op); a_nPeers := Z.min (a_nPeers args) (nPeers op);
        a_state := a_state args; a_proxyAppendPtr := a_proxyAppendPtr args |} in
      if negb (a_sliceSteps args =? sliceSteps op) || negb (a_chunkSteps args =? chunkSteps op) || negb (a_protocol args =? protocol op) ||
         negb (a_dtype args =? dtype op) || negb (a_redOp args =? redOp op) || negb (a_coll args =? coll op)
      then (args', ncclInternalError)
      else if decide (a_state args <> ncclProxyOpReady) then (args', ncclInternalError)
      else (args', ncclSuccess)
    else
      ({| subs := subs; a_done := 0; a_opCount := opCount op; a_sliceSteps := sliceSteps op; a_chunkSteps := chunkSteps op;
          a_protocol := protocol op; a_dtype := dtype op; a_redOp := redOp op; a_coll := coll op;
          a_nChannels := nChannels op; a_nPeers := nPeers op;
          a_state := ncclProxyOpReady; a_proxyAppendPtr := proxyAppendPtr (connection op) |}, ncclSuccess).

(** ** The objects *)

(** The links and contents of the objects, the places where operations are appended,
    and the heads of the two lists.  Objects have positive addresses; those from [fresh]
    on are not allocated, and [blocks] pools can still be. *)
(* src/src/include/proxy.h:278-280 ncclProxyProgressState *)
Record ncclProxyProgressState := {
  next : heap;
  nextPeer : heap;
  args : Z -> ncclProxyArgs;
  append : Z -> Z;
  active : Z;
  pool : Z;
  fresh : Z;
  blocks : nat }.

Definition setNext (p v : Z) (s : ncclProxyProgressState) : ncclProxyProgressState :=
  {| next := hset (next s) p v; nextPeer := nextPeer s; args := args s; append := append s; active := active s; pool := pool s; fresh := fresh s; blocks := blocks s |}.
Definition setNextPeer (p v : Z) (s : ncclProxyProgressState) : ncclProxyProgressState :=
  {| next := next s; nextPeer := hset (nextPeer s) p v; args := args s; append := append s; active := active s; pool := pool s; fresh := fresh s; blocks := blocks s |}.
Definition setArgs (p : Z) (v : ncclProxyArgs) (s : ncclProxyProgressState) : ncclProxyProgressState :=
  {| next := next s; nextPeer := nextPeer s; args := fun x => if x =? p then v else args s x; append := append s; active := active s; pool := pool s; fresh := fresh s; blocks := blocks s |}.
Definition setAppend (c v : Z) (s : ncclProxyProgressState) : ncclProxyProgressState :=
  {| next := next s; nextPeer := nextPeer s; args := args s; append := hset (append s) c v; active := active s; pool := pool s; fresh := fresh s; blocks := blocks s |}.
Definition setActive (v : Z) (s : ncclProxyProgressState) : ncclProxyProgressState :=
  {| next := next s; nextPeer := nextPeer s; args := args s; append := append s; active := v; pool := pool s; fresh := fresh s; blocks := blocks s |}.
Definition setPool (v : Z) (s : ncclProxyProgressState) : ncclProxyProgressState :=
  {| next := next s; nextPeer := nextPeer s; args := args s; append := append s; active := active s; pool := v; fresh := fresh s; blocks := blocks s |}.

(** A pool of [n] new objects, zeroed and chained. *)
Fixpoint chainElems (n : nat) (p : Z) (h : heap) : heap :=
  match n with
  | O => h
  | S O => hset h p 0
  | S n => hset (chainElems n (p + 1) h) p (p + 1)
  end.

Section proxy.

(** The number of objects of a pool: [PROXYARGS_ALLOCATE_SIZE]. *)
Context (allocateSize : nat).

(** A new pool, when the list is empty and memory is left. *)
Definition growPool (s : ncclProxyProgressState) : option ncclProxyProgressState :=
  if pool s =? 0 then
    match blocks s with
    | O => None
    | S n =>
        Some {| next := chainElems allocateSize (fresh s) (next s); nextPeer := nextPeer s; args := args s; append := append s; active := active s;
                pool := fresh s; fresh := fresh s + Z.of_nat allocateSize; blocks := n |}
    end
  else Some s.

(* src/src/proxy.cc:216-240 allocateArgs *)
Definition allocateArgs (s : ncclProxyProgressState) : ncclProxyProgressState * (Z + ncclResult_t) :=
  match growPool s with
  | None => (s, inr ncclSystemError)
  | Some s =>
      let elem := pool s in
      (setNextPeer elem 0 (setNext elem 0 (setPool (next s elem) s)), inl elem)
  end.

(** [while (last->next) last = last->next]. *)
Definition lastFrom (fuel : nat) (h : heap) (p : Z) : option Z := snd <$> walkWhile fuel h (fun x => negb (h x =? 0)) 0 p.

(* src/src/proxy.cc:449-487 ProxyAppend *)
Definition ProxyAppend (fuel : nat) (op : ncclProxyOp) (s : ncclProxyProgressState) : option (ncclProxyProgressState * ncclResult_t) :=
  let ptr := append s (proxyAppendPtr (connection op)) in
  if negb (ptr =? 0) then
    if shared (connection op) && (a_opCount (args s ptr) =? opCount op) then
      let '(a, r) := ncclProxyOpToArgs op (args s ptr) (length (subs (args s ptr))) in
      Some (setArgs ptr a s, r)
    else
      match allocateArgs s with
      | (s, inr r) => Some (s, r)
      | (s, inl new) =>
          let '(a, r) := ncclProxyOpToArgs op (args s new) 0 in
          if decide (r = ncclSuccess) then Some (setAppend (a_proxyAppendPtr a) new (setNextPeer ptr new (setArgs new a s)), r)
          else Some (setArgs new a s, r)
      end
  else
    match allocateArgs s with
    | (s, inr r) => Some (s, r)
    | (s, inl new) =>
        let '(a, r) := ncclProxyOpToArgs op (args s new) 0 in
        let s := setArgs new a s in
        if decide (r = ncclSuccess) then
          if active s =? 0 then Some (setAppend (a_proxyAppendPtr a) new (setActive new s), r)
          else
            last ← lastFrom fuel (next s) (active s);
            Some (setAppend (a_proxyAppendPtr a) new (setNext last new s), r)
        else Some (s, r)
    end.

(* src/src/proxy.cc:790-821 removeOp *)
Definition removeOp (op prev : Z) (s : ncclProxyProgressState) : ncclProxyProgressState * Z * Z :=
  let nxt := next s op in
  let peer := nextPeer s op in
  let relink v s := if negb (prev =? 0) then setNext prev v s else setActive v s in
  let '(s, prev) :=
    if negb (peer =? 0) then (setNext peer nxt (relink peer s), peer)
    else (relink nxt (setAppend (a_proxyAppendPtr (args s op)) 0 s), prev) in
  (setPool op (setNext op (pool s) s), nxt, prev).

(** The progress functions: what a call does to the object, whether it was idle, and
    what it returns. *)
Context {W : Type} (progress : W -> ncclProxyArgs -> W * ncclProxyArgs * bool * ncclResult_t).

(** A call, as it was made: the object before and after it, and its result. *)
Definition call : Type := ncclProxyArgs * ncclProxyArgs * ncclResult_t.

(** After the call the operation is done, or has failed. *)
Definition removed (a : ncclProxyArgs) (r : ncclResult_t) : bool := bool_decide (a_state a = ncclProxyOpNone) || negb (bool_decide (r = ncclSuccess)).

(** The loop of [progressOps]; [calls] are the calls made so far. *)
(* src/src/proxy.cc:824-857 progressOps *)
Fixpoint progressLoop (fuel : nat) (w : W) (prev op : Z) (status : ncclResult_t) (idle : bool) (calls : list call) (s : ncclProxyProgressState) :
    option (W * ncclProxyProgressState * ncclResult_t * bool * list call) :=
  match fuel with
  | O => None
  | S fuel =>
      if op =? 0 then Some (w, s, status, idle, calls)
      else if decide (a_state (args s op) = ncclProxyOpNone) then Some (w, s, ncclInternalError, idle, calls)
      else
        let '(w', a, idleOp, ret) := progress w (args s op) in
        let calls := calls ++ [(args s op, a, ret)] in
        let s := setArgs op a s in
        let idle := idle && idleOp in
        if removed a ret then
          let status := if negb (bool_decide (ret = ncclSuccess)) && bool_decide (status = ncclSuccess) then ret else status in
          let '(s, op', prev') := removeOp op prev s in
          progressLoop fuel w' prev' op' status idle calls s
        else progressLoop fuel w' op (next s op) status idle calls s
  end.

Definition progressOps (fuel : nat) (w : W) (s : ncclProxyProgressState) : option (W * ncclProxyProgressState * ncclResult_t * bool * list call) :=
  progressLoop fuel w 0 (active s) ncclSuccess true [] s.

(** ** The specification: a list of queues *)

(** The active operations in their order, each with those that wait behind it, and the
    number of objects that are free or can be allocated. *)
Record spec := Spec {
  queues : list (list ncclProxyArgs);
  room : nat }.

(** The place of a queue. *)
Definition placeOf (q : list ncclProxyArgs) : option Z := a_proxyAppendPtr <$> head q.

Definition newArgs (op : ncclProxyOp) : ncclProxyArgs :=
  {| subs := [op]; a_done := 0; a_opCount := opCount op; a_sliceSteps := sliceSteps op; a_chunkSteps := chunkSteps op;
     a_protocol := protocol op; a_dtype := dtype op; a_redOp := redOp op; a_coll := coll op;
     a_nChannels := nChannels op; a_nPeers := nPeers op;
     a_state := ncclProxyOpReady; a_proxyAppendPtr := proxyAppendPtr (connection op) |}.

(** An operation joins the last object of its queue, waits behind it, or becomes active. *)
Definition specAppend (op : ncclProxyOp) (sp : spec) : spec * ncclResult_t :=
  match list_find (fun q => placeOf q = Some (proxyAppendPtr (connection op))) (queues sp) with
  | Some (i, q) =>
      match last q with
      | Some a =>
          if shared (connection op) && (a_opCount a =? opCount op) then
            let '(a', r) := ncclProxyOpToArgs op a (length (subs a)) in
            (Spec (<[i := removelast q ++ [a']]> (queues sp)) (room sp), r)
          else
            match room sp with
            | O => (sp, ncclSystemError)
            | S n => (Spec (<[i := q ++ [newArgs op]]> (queues sp)) n, ncclSuccess)
            end
      | None => (sp, ncclInternalError)
      end
  | None =>
      match room sp with
      | O => (sp, ncclSystemError)
      | S n => (Spec (queues sp ++ [[newArgs op]]) n, ncclSuccess)
      end
  end.

(** Every active operation is called once, in order; one that is done or has failed
    leaves its place to the next of its queue. *)
Fixpoint specRound (w : W) (Q : list (list ncclProxyArgs)) (n : nat) (status : ncclResult_t) (idle : bool) (calls : list call) :
    W * spec * ncclResult_t * bool * list call :=
  match Q with
  | [] => (w, Spec [] n, status, idle, calls)
  | [] :: Q => specRound w Q n status idle calls
  | (a :: q) :: Q =>
      let '(w', a', idleOp, ret) := progress w a in
      let calls := calls ++ [(a, a', ret)] in
      let idle := idle && idleOp in
      if removed a' ret then
        let status := if negb (bool_decide (ret = ncclSuccess)) && bool_decide (status = ncclSuccess) then ret else status in
        let '(w, sp, status, idle, calls) := specRound w' Q (S n) status idle calls in
        (w, Spec (match q with [] => queues sp | _ => q :: queues sp end) (room sp), status, idle, calls)
      else
        let '(w, sp, status, idle, calls) := specRound w' Q n status idle calls in
        (w, Spec ((a' :: q) :: queues sp) (room sp), status, idle, calls)
  end.

(** ** The objects represent the queues *)

(** [L] are the addresses of the objects of the queues, [F] those of the free list. *)
Record rep (s : ncclProxyProgressState) (L : list (list Z)) (F : list Z) : Prop := {
  r_active : lseg (next s) (active s) (firstOf <$> L) 0;
  r_queue : forall q, q ∈ L -> q <> [] /\ lseg (nextPeer s) (firstOf q) q 0;
  r_place : forall q a, q ∈ L -> a ∈ q -> a_proxyAppendPtr (args s a) = a_proxyAppendPtr (args s (firstOf q));
  r_append : forall q, q ∈ L -> append s (a_proxyAppendPtr (args s (firstOf q))) = lastOf q;
  r_none : forall c, (forall q, q ∈ L -> a_proxyAppendPtr (args s (firstOf q)) <> c) -> append s c = 0;
  r_pool : lseg (next s) (pool s) F 0;
  r_nodup : NoDup (concat L ++ F);
  r_fresh : forall a, a ∈ concat L ++ F -> 0 < a < fresh s;
  r_first : 0 < fresh s;
  r_waiting : forall q a, q ∈ L -> a ∈ tail q -> next s a = 0 /\ a_state (args s a) = ncclProxyOpReady;
  r_running : forall q, q ∈ L -> a_state (args s (firstOf q)) <> ncclProxyOpNone;
  r_subs : forall q a, q ∈ L -> a ∈ q -> subs (args s a) <> [] }.
Arguments r_active {s L F} _.
Arguments r_queue {s L F} _.
Arguments r_place {s L F} _.
Arguments r_append {s L F} _.
Arguments r_none {s L F} _.
Arguments r_pool {s L F} _.
Arguments r_nodup {s L F} _.
Arguments r_fresh {s L F} _.
Arguments r_first {s L F} _.
Arguments r_waiting {s L F} _.
Arguments r_running {s L F} _.
Arguments r_subs {s L F} _.

(** The contents of queues. *)
Definition contents (s : ncclProxyProgressState) (L : list (list Z)) : list (list ncclProxyArgs) := (fun q : list Z => args s <$> q) <$> L.

(** The queues of objects, and the objects left. *)
Definition absOf (s : ncclProxyProgressState) (L : list (list Z)) (F : list Z) : spec := Spec (contents s L) (length F + blocks s * allocateSize)%nat.

(** *** Lists of queues *)

Lemma elem_of_mid {A} (x y : A) l1 l2 : x ∈ l1 ++ y :: l2 <-> x = y \/ x ∈ l1 ++ l2.
Proof. rewrite !elem_of_app, elem_of_cons. tauto. Qed.

Lemma concat_mid (L1 L2 : list (list Z)) q : concat (L1 ++ q :: L2) ≡ₚ q ++ concat (L1 ++ L2).
Proof. rewrite !concat_app. cbn. rewrite !app_assoc. by rewrite (Permutation_app_comm (concat L1) q). Qed.

Lemma elem_of_queue (L : list (list Z)) q (a : Z) : q ∈ L -> a ∈ q -> a ∈ concat L.
Proof. intros Hq Ha. rewrite list_elem_of_In, in_concat. exists q. by rewrite <- !list_elem_of_In. Qed.

Lemma firstOf_elem (q : list Z) : q <> [] -> firstOf q ∈ q.
Proof. destruct q; [done|]. intros _. by left. Qed.

Lemma tail_elem (q : list Z) a : a ∈ tail q -> a ∈ q.
Proof. destruct q; [done|]. intros H. by right. Qed.

(** In disjoint queues, an object is in one of them. *)
Lemma queue_unique (L1 L2 : list (list Z)) q q' F a : NoDup (concat (L1 ++ q :: L2) ++ F) -> q' ∈ L1 ++ L2 -> a ∈ q -> a ∉ q'.
Proof.
  rewrite concat_mid. intros ((_ & Hd & _)%NoDup_app & _ & _)%NoDup_app Hq' Ha Ha'. apply (Hd a Ha). by eapply elem_of_queue.
Qed.

Section represented.

Context (s : ncclProxyProgressState) (L : list (list Z)) (F : list Z) (H : rep s L F).

Lemma rep_heads_nodup : NoDup (firstOf <$> L).
Proof.
  pose proof (r_nodup H) as (Hnd & _ & _)%NoDup_app. pose proof (r_queue H) as Hq. clear H. induction L as [|q l IH]; [constructor|]. cbn in *.
  apply NoDup_app in Hnd as (_ & Hd & Hnd). constructor.
  - intros (q' & E & Hq')%list_elem_of_fmap. apply (Hd (firstOf q)); [apply firstOf_elem, Hq; by left|]. rewrite E. eapply elem_of_queue; [done|]. apply firstOf_elem, Hq. by right.
  - apply IH; [done|]. intros q' Hq'. apply Hq. by right.
Qed.

Lemma rep_head a : a ∈ firstOf <$> L -> a ∈ concat L.
Proof. intros (q & -> & Hq)%list_elem_of_fmap. eapply elem_of_queue; [done|]. by apply firstOf_elem, (r_queue H). Qed.

Lemma rep_positive a : a ∈ concat L -> 0 < a < fresh s.
Proof. intros Ha. apply (r_fresh H). apply elem_of_app. by left. Qed.

(** A waiting object is not active. *)
Lemma rep_tail q a : q ∈ L -> a ∈ tail q -> a ∉ firstOf <$> L.
Proof.
  intros Hq Ha (q' & -> & Hq')%list_elem_of_fmap. pose proof (r_nodup H) as Hnd. pose proof (fun Hne => firstOf_elem q' Hne) as Hf. specialize (Hf (proj1 (r_queue H q' Hq'))).
  apply list_elem_of_split in Hq as (L1 & L2 & E). rewrite E in *. apply elem_of_mid in Hq' as [->|Hq'].
  - rewrite concat_mid in Hnd. apply NoDup_app in Hnd as (Hnd & _). apply NoDup_app in Hnd as (Hnd & _). destruct q; [by apply not_elem_of_nil in Ha|].
    by apply NoDup_cons in Hnd as [? _].
  - by apply (queue_unique L1 L2 q q' F _ Hnd Hq' (tail_elem _ _ Ha)).
Qed.

(** The content of an object that is in no queue. *)
Lemma rep_setArgs_new p v : p ∉ concat L -> rep (setArgs p v s) L F.
Proof.
  intros Hp. assert (forall q a, q ∈ L -> a ∈ q -> args (setArgs p v s) a = args s a) as E.
  { intros q a Hq Ha. cbn. destruct (Z.eqb_spec a p) as [->|]; [|done]. by destruct Hp; eapply elem_of_queue. }
  assert (forall q, q ∈ L -> args (setArgs p v s) (firstOf q) = args s (firstOf q)) as E1 by (intros q Hq; apply (E q); [done|]; by apply firstOf_elem, (r_queue H)).
  destruct H. constructor; try done.
  - intros q a Hq Ha. rewrite (E1 q), (E q a) by done. by apply r_place0.
  - intros q Hq. rewrite (E1 q) by done. by apply r_append0.
  - intros c Hc. apply r_none0. intros q Hq. rewrite <- (E1 q) by done. by apply Hc.
  - intros q a Hq Ha. rewrite (E q a) by (done || by apply tail_elem). by apply (r_waiting0 q).
  - intros q Hq. rewrite (E1 q) by done. by apply r_running0.
  - intros q a Hq Ha. rewrite (E q a) by done. by apply (r_subs0 q).
Qed.

(** The content of an object in a queue. *)
Lemma rep_setArgs p v : a_proxyAppendPtr v = a_proxyAppendPtr (args s p) -> a_state v <> ncclProxyOpNone -> subs v <> [] ->
  (forall q, q ∈ L -> p ∈ tail q -> a_state v = ncclProxyOpReady) -> rep (setArgs p v s) L F.
Proof.
  intros Hv Hn Hsub Ht. assert (forall a, a_proxyAppendPtr (args (setArgs p v s) a) = a_proxyAppendPtr (args s a)) as E.
  { intros a. cbn. by destruct (Z.eqb_spec a p) as [->|]. }
  destruct H. constructor; try done.
  - intros q a Hq Ha. rewrite !E. by apply r_place0.
  - intros q Hq. rewrite E. by apply r_append0.
  - intros c Hc. apply r_none0. intros q Hq. rewrite <- E. by apply Hc.
  - intros q a Hq Ha. cbn. destruct (Z.eqb_spec a p) as [->|]; [|by apply (r_waiting0 q)]. split; [by apply (r_waiting0 q)|by eapply Ht].
  - intros q Hq. cbn. destruct (Z.eqb_spec (firstOf q) p); [done|by apply r_running0].
  - intros q a Hq Ha. cbn. destruct (Z.eqb_spec a p); [done|by apply (r_subs0 q)].
Qed.

End represented.

(** *** Allocation *)

Lemma chainElems_other n p h x : ~ (p <= x < p + Z.of_nat n) -> chainElems n p h x = h x.
Proof.
  revert p. induction n as [|n IH]; intros p Hx; [done|]. cbn [chainElems]. destruct n as [|n]; [apply hset_ne; lia|].
  rewrite hset_ne by lia. apply IH. lia.
Qed.

Lemma chainElems_seg n p h : 0 < p -> lseg (chainElems (S n) p h) p (seqZ p (Z.of_nat (S n))) 0.
Proof.
  revert p. induction n as [|n IH]; intros p Hp.
  - rewrite seqZ_cons by lia. cbn [lseg chainElems]. split_and!; [done|lia|]. by rewrite hset_eq.
  - rewrite seqZ_cons by lia. cbn [lseg]. split_and!; [done|lia|]. change (chainElems (S (S n)) p h) with (hset (chainElems (S n) (p + 1) h) p (p + 1)).
    rewrite hset_eq. replace (Z.pred (Z.of_nat (S (S n)))) with (Z.of_nat (S n)) by lia. replace (Z.succ p) with (p + 1) by lia.
    apply lseg_hset; [rewrite elem_of_seqZ; lia|]. apply IH. lia.
Qed.

Context (size_pos : (0 < allocateSize)%nat).

Lemma growPool_rep s L F : rep s L F ->
  (growPool s = None /\ room (absOf s L F) = 0%nat) \/
  exists s' F', growPool s = Some s' /\ rep s' L F' /\ F' <> [] /\ args s' = args s /\ append s' = append s /\ active s' = active s /\ room (absOf s' L F') = room (absOf s L F).
Proof.
  intros H. unfold growPool. pose proof (r_pool H) as HF. destruct (Z.eqb_spec (pool s) 0) as [E|E].
  - rewrite E in HF. apply lseg_null in HF as ->. unfold absOf. cbn. destruct (blocks s) as [|n] eqn:Eb; [left; done|]. right.
    eexists _, (seqZ (fresh s) (Z.of_nat allocateSize)). split; [done|].
    assert (forall x, x ∈ concat L -> chainElems allocateSize (fresh s) (next s) x = next s x) as Ex.
    { intros x Hx. apply chainElems_other. pose proof (rep_positive _ _ _ H x Hx). lia. }
    split_and!; try done; [|by rewrite seqZ_cons by lia|rewrite length_seqZ; cbn; lia].
    pose proof (rep_head _ _ _ H) as Hh. destruct H. constructor; cbn; try done.
    + eapply lseg_ext; [|done]. intros x Hx. by apply Ex, Hh.
    + replace allocateSize with (S (pred allocateSize)) by lia. by apply chainElems_seg.
    + rewrite app_nil_r in r_nodup0. apply NoDup_app. split_and!; [done| |apply NoDup_seqZ]. intros x Hx. rewrite elem_of_seqZ. rewrite app_nil_r in r_fresh0. specialize (r_fresh0 x Hx). lia.
    + intros a [Ha|Ha]%elem_of_app; [rewrite app_nil_r in r_fresh0; specialize (r_fresh0 a Ha); lia|]. apply elem_of_seqZ in Ha. lia.
    + lia.
    + intros q a Hq Ha. rewrite Ex by (eapply elem_of_queue; [done|by apply tail_elem]). by apply (r_waiting0 q).
  - right. exists s, F. split_and!; try done. intros ->. cbn in HF. done.
Qed.

Lemma allocateArgs_rep s L F : rep s L F ->
  (allocateArgs s = (s, inr ncclSystemError) /\ room (absOf s L F) = 0%nat) \/
  exists s' x F', allocateArgs s = (s', inl x) /\ rep s' L F' /\ (x ∉ concat L ++ F') /\ 0 < x < fresh s' /\ next s' x = 0 /\ nextPeer s' x = 0 /\
    args s' = args s /\ append s' = append s /\ active s' = active s /\ room (absOf s L F) = S (room (absOf s' L F')).
Proof.
  intros H. unfold allocateArgs. destruct (growPool_rep _ _ _ H) as [[-> Hr]|(s1 & F1 & -> & H1 & HF & E1 & E2 & E3 & E4)]; [by left|right].
  destruct F1 as [|x F']; [done|]. pose proof (r_pool H1) as (Ex & Hx0 & Hseg). rewrite Ex. eexists _, x, F'. split; [done|].
  pose proof (r_nodup H1) as Hnd. rewrite <- Permutation_middle in Hnd. apply NoDup_cons in Hnd as [Hx Hnd].
  pose proof (rep_head _ _ _ H1) as Hh. assert (0 < x < fresh s1) as Hb by (apply (r_fresh H1); apply elem_of_app; right; by left).
  split_and!; try done; try (cbn; rewrite ?hset_eq; lia || done).
  destruct H1. constructor; cbn; try done.
  - apply lseg_hset; [|done]. intros Hin. apply Hx. apply elem_of_app. left. by apply Hh.
  - intros q Hq. destruct (r_queue0 q Hq) as [Hq1 Hq2]. split; [done|]. apply lseg_hset; [|done]. intros Hin. apply Hx. apply elem_of_app. left. by eapply elem_of_queue.
  - apply lseg_hset; [|done]. intros Hin. apply Hx. apply elem_of_app. by right.
  - intros a [Ha|Ha]%elem_of_app; apply r_fresh0; apply elem_of_app; [by left|right; by right].
  - intros q a Hq Ha. destruct (r_waiting0 q a Hq Ha). split; [|done]. rewrite hset_ne; [done|]. intros ->. apply Hx. apply elem_of_app. left. eapply elem_of_queue; [done|by apply tail_elem].
Qed.

(** *** Appending *)

(** The queue for a place, and a place without one. *)
Lemma rep_place s L1 q L2 F : rep s (L1 ++ q :: L2) F -> forall q', q' ∈ L1 ++ L2 -> a_proxyAppendPtr (args s (firstOf q')) <> a_proxyAppendPtr (args s (firstOf q)).
Proof.
  intros H q' Hq' E. assert (q' ∈ L1 ++ q :: L2) as Hq1 by (apply elem_of_mid; by right). assert (q ∈ L1 ++ q :: L2) as Hq2 by (apply elem_of_mid; by left).
  pose proof (r_append H q' Hq1) as E1. rewrite E, (r_append H q Hq2) in E1. apply (queue_unique L1 L2 q q' F (lastOf q) (r_nodup H) Hq').
  - apply lastOf_elem. by apply (r_queue H).
  - rewrite E1. apply lastOf_elem. by apply (r_queue H).
Qed.

(** The new object [x] waits behind the last of queue [q]. *)
Lemma rep_enqueue s L1 q L2 F x : rep s (L1 ++ q :: L2) F -> (x ∉ concat (L1 ++ q :: L2) ++ F) -> 0 < x < fresh s -> next s x = 0 -> nextPeer s x = 0 ->
  a_proxyAppendPtr (args s x) = a_proxyAppendPtr (args s (firstOf q)) -> a_state (args s x) = ncclProxyOpReady -> subs (args s x) <> [] ->
  rep (setAppend (a_proxyAppendPtr (args s x)) x (setNextPeer (lastOf q) x s)) (L1 ++ (q ++ [x]) :: L2) F.
Proof.
  intros H Hx Hb Hn Hp Hc Hs Hsub. pose proof (rep_place _ _ _ _ _ H) as Hpl. assert (q ∈ L1 ++ q :: L2) as Hq by (apply elem_of_mid; by left).
  destruct (r_queue H q Hq) as [Hne Hseg]. assert (firstOf (q ++ [x]) = firstOf q) as Ef by (by destruct q).
  assert (forall q', q' ∈ L1 ++ L2 -> q' ∈ L1 ++ q :: L2) as Hin by (intros q' Hq'; apply elem_of_mid; by right).
  assert (NoDup q) as Hndq by (pose proof (r_nodup H) as Hnd; rewrite concat_mid in Hnd; apply NoDup_app in Hnd as (Hnd & _); by apply NoDup_app in Hnd as (Hnd & _)).
  assert (x ∉ q) as Hxq by (intros Hxq; apply Hx; apply elem_of_app; left; by eapply elem_of_queue).
  pose proof (queue_unique L1 L2 q) as Hun. specialize (fun q' a => Hun q' F a (r_nodup H)).
  destruct H. constructor; cbn [setAppend setNextPeer next nextPeer args append active pool fresh]; try done.
  - rewrite fmap_app in *. cbn in *. by rewrite Ef.
  - intros q' [->|Hq']%elem_of_mid.
    + split; [by destruct q|]. rewrite Ef. destruct (exists_last Hne) as (q0 & z & Eq). rewrite Eq, lastOf_app. rewrite lseg_app. exists x. rewrite Eq in Hseg, Hndq. split.
      * by eapply lseg_relink.
      * cbn [lseg]. split_and!; [done|lia|]. rewrite hset_ne; [done|]. intros ->. apply Hxq. rewrite Eq. apply elem_of_app. right. by left.
    + destruct (r_queue0 q' (Hin q' Hq')) as [Hne' Hseg']. split; [done|]. apply lseg_hset; [|done]. apply Hun; [done|]. by apply lastOf_elem.
  - intros q' a [->|Hq']%elem_of_mid; [|by apply r_place0, Hin]. rewrite Ef. intros [Ha|Ha]%elem_of_app; [by apply r_place0|]. apply list_elem_of_singleton in Ha as ->. done.
  - intros q' [->|Hq']%elem_of_mid.
    + by rewrite Ef, lastOf_app, Hc, hset_eq.
    + rewrite hset_ne; [by apply r_append0, Hin|]. rewrite Hc. by apply Hpl.
  - intros c Hcc. rewrite hset_ne.
    + apply r_none0. intros q' [->|Hq']%elem_of_mid; [|apply Hcc, elem_of_mid; by right]. rewrite <- Ef. apply Hcc, elem_of_mid. by left.
    + intros ->. apply (Hcc (q ++ [x])); [apply elem_of_mid; by left|]. by rewrite Ef.
  - rewrite concat_mid, <- !app_assoc. rewrite concat_mid, <- app_assoc in r_nodup0, Hx. cbn [app]. rewrite <- Permutation_middle. by constructor.
  - intros a. rewrite concat_mid, <- !app_assoc. cbn [app]. rewrite <- Permutation_middle. intros [->|Ha]%elem_of_cons; [done|]. apply r_fresh0. by rewrite concat_mid, <- app_assoc.
  - intros q' a [->|Hq']%elem_of_mid; [|by apply r_waiting0, Hin]. intros Ha. destruct q as [|z q]; [done|]. cbn in Ha. apply elem_of_app in Ha as [Ha|Ha].
    + by apply (r_waiting0 (z :: q)).
    + apply list_elem_of_singleton in Ha as ->. done.
  - intros q' [->|Hq']%elem_of_mid; [rewrite Ef|]; apply r_running0; [done|by apply Hin].
  - intros q' a [->|Hq']%elem_of_mid; [|by apply r_subs0, Hin]. intros [Ha|Ha]%elem_of_app; [by apply (r_subs0 q)|]. by apply list_elem_of_singleton in Ha as ->.
Qed.

(** The new object [x] becomes active. *)
Lemma rep_activate s L F x : rep s L F -> (x ∉ concat L ++ F) -> 0 < x < fresh s -> next s x = 0 -> nextPeer s x = 0 ->
  append s (a_proxyAppendPtr (args s x)) = 0 -> a_state (args s x) = ncclProxyOpReady -> subs (args s x) <> [] ->
  rep (setAppend (a_proxyAppendPtr (args s x)) x (if decide (L = []) then setActive x s else setNext (lastOf (firstOf <$> L)) x s)) (L ++ [[x]]) F.
Proof.
  intros H Hx Hb Hn Hp Hc Hs Hsub. pose proof (rep_heads_nodup _ _ _ H) as Hnd. pose proof (rep_head _ _ _ H) as Hh. pose proof (rep_tail _ _ _ H) as Hwt.
  assert (forall q, q ∈ L -> a_proxyAppendPtr (args s (firstOf q)) <> a_proxyAppendPtr (args s x)) as Hpl.
  { intros q Hq E. pose proof (r_append H q Hq) as E1. rewrite E, Hc in E1. destruct (r_queue H q Hq) as [Hne Hseg]. by apply (lastOf_null _ _ _ Hseg Hne). }
  assert (L <> [] -> lastOf (firstOf <$> L) ∈ firstOf <$> L) as Hl by (intros Hne; apply lastOf_elem; by destruct L).
  assert (lseg (next (if decide (L = []) then setActive x s else setNext (lastOf (firstOf <$> L)) x s))
    (active (if decide (L = []) then setActive x s else setNext (lastOf (firstOf <$> L)) x s)) ((firstOf <$> L) ++ [x]) 0) as Hact.
  { destruct (decide (L = [])) as [->|Hne]; cbn.
    - split_and!; [done|lia|done].
    - pose proof (r_active H) as Hseg. destruct (exists_last (l := firstOf <$> L)) as (l & z & E); [by destruct L|]. rewrite E in *. rewrite lastOf_app in *. rewrite lseg_app. exists x. split.
      + by eapply lseg_relink.
      + cbn. split_and!; [done|lia|]. rewrite hset_ne; [done|]. intros ->. apply Hx. apply elem_of_app. left. apply Hh. apply elem_of_app. right. by left. }
  assert (forall a, (a ∉ firstOf <$> L) -> next (if decide (L = []) then setActive x s else setNext (lastOf (firstOf <$> L)) x s) a = next s a) as Hnx.
  { intros a Ha. destruct (decide (L = [])) as [|Hne]; [done|]. cbn. apply hset_ne. intros ->. by apply Ha, Hl. }
  assert (forall q, q ∈ L ++ [[x]] <-> q = [x] \/ q ∈ L) as Hin by (intros q; rewrite elem_of_app, list_elem_of_singleton; tauto).
  set (s1 := if decide (L = []) then _ else _) in *. assert (nextPeer s1 = nextPeer s /\ args s1 = args s /\ append s1 = append s /\ pool s1 = pool s /\ fresh s1 = fresh s) as (E1 & E2 & E3 & E4 & E5)
    by (unfold s1; by destruct (decide _)).
  destruct H. constructor; cbn [setAppend next nextPeer args append active pool fresh]; rewrite ?E1, ?E2, ?E3, ?E4, ?E5; try done.
  - by rewrite fmap_app.
  - intros q [->|Hq]%Hin; [|by apply r_queue0]. split; [done|]. cbn. split_and!; [done|lia|done].
  - intros q a [->|Hq]%Hin; [|by apply r_place0]. by intros ->%list_elem_of_singleton.
  - intros q [->|Hq]%Hin; cbn; [by rewrite hset_eq|]. rewrite hset_ne by (by apply Hpl). by apply r_append0.
  - intros c Hcc. rewrite hset_ne; [|intros ->; by apply (Hcc [x]); [apply Hin; left|]]. apply r_none0. intros q Hq. apply Hcc, Hin. by right.
  - eapply lseg_ext; [|done]. intros a Ha. apply Hnx. intros Hah. apply Hh in Hah. apply NoDup_app in r_nodup0 as (_ & Hd & _). by apply (Hd a).
  - rewrite concat_app, <- app_assoc. cbn. rewrite <- Permutation_middle. by constructor.
  - intros a. rewrite concat_app, <- app_assoc. cbn. rewrite <- Permutation_middle. intros [->|Ha]%elem_of_cons; [done|by apply r_fresh0].
  - intros q a [->|Hq]%Hin Ha; [by apply not_elem_of_nil in Ha|]. rewrite Hnx by (by eapply Hwt). by apply (r_waiting0 q).
  - intros q [->|Hq]%Hin; cbn; [by rewrite Hs|by apply r_running0].
  - intros q a [->|Hq]%Hin; [|by apply r_subs0]. by intros ->%list_elem_of_singleton.
Qed.

Lemma find_place s L F c : rep s L F ->
  match list_find (fun q => placeOf q = Some c) (queues (absOf s L F)) with
  | Some (i, q) => exists L1 q0 L2, L = L1 ++ q0 :: L2 /\ i = length L1 /\ q = args s <$> q0 /\ a_proxyAppendPtr (args s (firstOf q0)) = c /\ append s c = lastOf q0
  | None => append s c = 0
  end.
Proof.
  intros H. assert (forall q, q ∈ L -> placeOf (args s <$> q) = Some (a_proxyAppendPtr (args s (firstOf q)))) as Hp.
  { intros q Hq. destruct (r_queue H q Hq) as [Hne _]. by destruct q. }
  destruct (list_find _ _) as [[i q]|] eqn:E.
  - apply list_find_Some in E as (Hi & Hq & _). cbn in Hi. unfold contents in Hi. rewrite list_lookup_fmap in Hi. apply fmap_Some in Hi as (q0 & Hi & ->).
    exists (take i L), q0, (drop (S i) L). apply lookup_lt_Some in Hi as Hlt. pose proof (list_elem_of_lookup_2 _ _ _ Hi) as Hin. rewrite (Hp q0 Hin) in Hq. injection Hq as <-.
    split_and!; [by rewrite take_drop_middle|rewrite length_take; lia|done|done|by apply (r_append H)].
  - apply list_find_None in E. apply (r_none H). intros q Hq Ec. rewrite Forall_forall in E. apply (E (args s <$> q)); [|by rewrite Hp, Ec].
    cbn. unfold contents. apply list_elem_of_fmap. by exists q.
Qed.

Lemma lastFrom_heads s L F fuel : rep s L F -> L <> [] -> (length L < fuel)%nat -> lastFrom fuel (next s) (active s) = Some (lastOf (firstOf <$> L)).
Proof.
  intros H Hne Hf. unfold lastFrom. rewrite (walkWhile_spec _ (next s) (firstOf <$> L) fuel 0 (active s) (r_active H)) by (by rewrite length_fmap). cbn. f_equal.
  destruct (exists_last (l := firstOf <$> L)) as (l & z & E); [by destruct L|]. pose proof (r_active H) as Hseg. rewrite E in *. rewrite lastOf_app.
  assert (forall (l : list Z) p, lseg (next s) p (l ++ [z]) 0 -> span (fun x => negb (next s x =? 0)) (l ++ [z]) = (l, [z])) as Hsp.
  { clear. induction l as [|y l IH]; intros p; cbn [app lseg span].
    - intros (-> & _ & ->). done.
    - intros (-> & Hy & Hl). assert (next s y <> 0) as Hn by (destruct l as [|y' l]; cbn in Hl; [by destruct Hl as (-> & ? & _)|by destruct Hl as (-> & ? & _)]).
      rewrite (proj2 (Z.eqb_neq _ _) Hn). cbn. by rewrite (IH _ Hl). }
  by rewrite (Hsp l _ Hseg).
Qed.

Lemma setArgs_same p v s : args (setArgs p v s) p = v.
Proof. cbn. by rewrite Z.eqb_refl. Qed.

Lemma setArgs_other p v s a : a <> p -> args (setArgs p v s) a = args s a.
Proof. intros Hne. cbn. by rewrite (proj2 (Z.eqb_neq a p) Hne). Qed.

Lemma contents_ext s s' (L : list (list Z)) : (forall q a, q ∈ L -> a ∈ q -> args s' a = args s a) -> contents s' L = contents s L.
Proof.
  intros H. apply list_fmap_ext. intros i q Hq. apply list_fmap_ext. intros j a Ha. eapply H; by eapply list_elem_of_lookup_2.
Qed.

Lemma contents_app s L1 L2 : contents s (L1 ++ L2) = contents s L1 ++ contents s L2.
Proof. apply fmap_app. Qed.

Lemma contents_cons s q L : contents s (q :: L) = (args s <$> q) :: contents s L.
Proof. done. Qed.

Lemma contents_mid s q L1 L2 v : <[length L1 := v]> (contents s (L1 ++ q :: L2)) = contents s L1 ++ v :: contents s L2.
Proof.
  rewrite contents_app, contents_cons, insert_app_r_alt by (unfold contents; by rewrite length_fmap).
  unfold contents at 2. by rewrite length_fmap, Nat.sub_diag.
Qed.

Lemma last_fmap_queue {A} (f : Z -> A) (q : list Z) : q <> [] -> last (f <$> q) = Some (f (lastOf q)).
Proof. intros Hne. rewrite fmap_last. destruct (exists_last Hne) as (l & z & ->). by rewrite lastOf_app, last_snoc. Qed.

Lemma ncclProxyOpToArgs_state op a a' r : ncclProxyOpToArgs op a (length (subs a)) = (a', r) -> subs a <> [] ->
  a_proxyAppendPtr a' = a_proxyAppendPtr a /\ a_state a' = a_state a /\ subs a' <> [].
Proof.
  unfold ncclProxyOpToArgs. intros E Hn. assert (forall l (op : ncclProxyOp), l ++ [op] <> []) as Hl by (by intros []).
  destruct (_ <=? _)%nat; [by injection E as <- _|]. destruct (Nat.eqb_spec (length (subs a)) 0); [by destruct (subs a)|]. cbn [negb] in E.
  destruct (_ || _); [|destruct (decide _)]; injection E as <- _; split_and!; try done; apply Hl.
Qed.

Lemma ncclProxyOpToArgs_new op a : ncclProxyOpToArgs op a 0 = (newArgs op, ncclSuccess).
Proof. done. Qed.

(** The object joins the operations of the last one of its queue. *)
Lemma ProxyAppend_join s L1 q L2 F op a' r : rep s (L1 ++ q :: L2) F ->
  ncclProxyOpToArgs op (args s (lastOf q)) (length (subs (args s (lastOf q)))) = (a', r) ->
  rep (setArgs (lastOf q) a' s) (L1 ++ q :: L2) F /\
  absOf (setArgs (lastOf q) a' s) (L1 ++ q :: L2) F = Spec (<[length L1 := removelast (args s <$> q) ++ [a']]> (queues (absOf s (L1 ++ q :: L2) F))) (room (absOf s (L1 ++ q :: L2) F)).
Proof.
  intros H E. assert (q ∈ L1 ++ q :: L2) as Hq by (apply elem_of_mid; by left). destruct (r_queue H q Hq) as [Hne _].
  assert (lastOf q ∈ q) as Hl by (by apply lastOf_elem). pose proof (r_subs H q _ Hq Hl) as Hsub.
  destruct (ncclProxyOpToArgs_state _ _ _ _ E Hsub) as (E1 & E2 & E3). split.
  - apply rep_setArgs; [done|done| |done|].
    + rewrite E2. destruct q as [|x q]; [done|]. destruct q as [|y q]; [by apply (r_running H [x])|].
      assert (a_state (args s (lastOf (x :: y :: q))) = ncclProxyOpReady) as ->; [|done]. eapply (r_waiting H); [done|]. rewrite lastOf_cons. by apply lastOf_elem.
    + intros q' Hq' Ht. rewrite E2. by apply (r_waiting H q').
  - unfold absOf. cbn [queues room]. f_equal. pose proof (r_nodup H) as Hnd. rewrite contents_mid, contents_app, contents_cons.
    assert (forall L' : list (list Z), (forall q', q' ∈ L' -> q' ∈ L1 ++ L2) -> forall q' a, q' ∈ L' -> a ∈ q' -> args (setArgs (lastOf q) a' s) a = args s a) as Hoth.
    { intros L' HL' q' a Hq' Ha. apply setArgs_other. intros ->. by apply (queue_unique _ _ _ q' _ _ Hnd (HL' _ Hq') Hl). }
    rewrite (contents_ext s _ L1), (contents_ext s _ L2) by (apply Hoth; intros q' Hq'; apply elem_of_app; tauto). do 2 f_equal.
    destruct (exists_last Hne) as (l & z & Eq). rewrite Eq in *. rewrite lastOf_app, !fmap_app. cbn [fmap list_fmap]. rewrite removelast_last, setArgs_same. f_equal.
    apply list_fmap_ext. intros k y Hy. apply setArgs_other. intros ->. rewrite concat_mid in Hnd. apply NoDup_app in Hnd as (Hnd & _). apply NoDup_app in Hnd as (Hnd & _).
    apply NoDup_app in Hnd as (_ & Hd & _). apply list_elem_of_lookup_2 in Hy. destruct (Hd z Hy). by left.
Qed.

(** The content of a new object does not matter to the queues. *)
Lemma absOf_new s L F x v : (x ∉ concat L) -> absOf (setArgs x v s) L F = absOf s L F.
Proof.
  intros Hx. unfold absOf. cbn [blocks setArgs]. f_equal. apply contents_ext. intros q a Hq Ha. apply setArgs_other. intros ->. apply Hx. by eapply elem_of_queue.
Qed.

Lemma absOf_frame s s' L F : args s' = args s -> blocks s' = blocks s -> absOf s' L F = absOf s L F.
Proof. intros E1 E2. unfold absOf, contents. by rewrite E1, E2. Qed.

Lemma absOf_allocated s s' L F F' : args s' = args s -> room (absOf s L F) = S (room (absOf s' L F')) ->
  absOf s' L F' = Spec (queues (absOf s L F)) (pred (room (absOf s L F))).
Proof. intros E Hr. rewrite Hr. unfold absOf, contents. cbn [queues room pred]. by rewrite E. Qed.

Lemma ProxyAppend_enqueue s L1 q L2 F op fuel : rep s (L1 ++ q :: L2) F -> append s (proxyAppendPtr (connection op)) = lastOf q ->
  a_proxyAppendPtr (args s (firstOf q)) = proxyAppendPtr (connection op) -> shared (connection op) && (a_opCount (args s (lastOf q)) =? opCount op) = false ->
  let sp := absOf s (L1 ++ q :: L2) F in
  exists s' L' F' r, ProxyAppend fuel op s = Some (s', r) /\ rep s' L' F' /\ length L' = length (L1 ++ q :: L2) /\
    (absOf s' L' F', r) = match room sp with O => (sp, ncclSystemError) | S n => (Spec (<[length L1 := (args s <$> q) ++ [newArgs op]]> (queues sp)) n, ncclSuccess) end.
Proof.
  intros H Ea Ec Es sp. assert (q ∈ L1 ++ q :: L2) as Hq by (apply elem_of_mid; by left). destruct (r_queue H q Hq) as [Hne Hseg].
  unfold ProxyAppend. rewrite Ea, (proj2 (Z.eqb_neq _ _) (lastOf_null _ _ _ Hseg Hne)), Es. cbn [negb].
  destruct (allocateArgs_rep _ _ _ H) as [[-> Hr]|(s1 & x & F1 & -> & H1 & Hx & Hb & Hn & Hp & E1 & E2 & E3 & Hr)].
  { eexists _, _, _, _. split; [done|]. split; [exact H|]. split; [done|]. fold sp in Hr. by rewrite Hr. }
  rewrite ncclProxyOpToArgs_new, decide_True by done. assert (x ∉ concat (L1 ++ q :: L2)) as Hxc by (intros Hxc; apply Hx; apply elem_of_app; by left).
  pose proof (rep_setArgs_new s1 _ _ H1 x (newArgs op) Hxc) as H2. set (s2 := setArgs x (newArgs op) s1) in *.
  assert (args s2 x = newArgs op) as Ex by apply setArgs_same. assert (forall a, a ∈ q -> args s2 a = args s a) as Eq.
  { intros a Ha. unfold s2. rewrite setArgs_other, E1; [done|]. intros ->. apply Hxc. by eapply elem_of_queue. }
  eexists _, (L1 ++ (q ++ [x]) :: L2), F1, _. split; [done|]. split; [|split].
  - replace (a_proxyAppendPtr (newArgs op)) with (a_proxyAppendPtr (args s2 x)) by (by rewrite Ex). apply rep_enqueue; try done; rewrite ?Ex; try done.
    rewrite Eq by (by apply firstOf_elem). by rewrite Ec.
  - rewrite !length_app. done.
  - fold sp in Hr. rewrite Hr. f_equal. pose proof (absOf_new s1 _ F1 x (newArgs op) Hxc) as EA. fold s2 in EA. rewrite (absOf_allocated _ _ _ _ _ E1 Hr) in EA.
    apply (f_equal queues) in EA as EQ. cbn [queues] in EQ. fold sp in EQ. rewrite <- EQ. unfold absOf at 1. f_equal. unfold absOf. cbn [queues].
    rewrite contents_mid, contents_app, contents_cons. f_equal. f_equal. rewrite fmap_app. cbn [fmap list_fmap setAppend setNextPeer args]. rewrite Ex. f_equal.
    apply list_fmap_ext. intros i a Ha. apply Eq. by eapply list_elem_of_lookup_2.
Qed.

Lemma ProxyAppend_activate s L F op fuel : rep s L F -> append s (proxyAppendPtr (connection op)) = 0 -> (length L < fuel)%nat ->
  let sp := absOf s L F in
  exists s' L' F' r, ProxyAppend fuel op s = Some (s', r) /\ rep s' L' F' /\ (length L' <= S (length L))%nat /\
    (absOf s' L' F', r) = match room sp with O => (sp, ncclSystemError) | S n => (Spec (queues sp ++ [[newArgs op]]) n, ncclSuccess) end.
Proof.
  intros H Ea Hf sp. unfold ProxyAppend. rewrite Ea. cbn [Z.eqb negb].
  destruct (allocateArgs_rep _ _ _ H) as [[-> Hr]|(s1 & x & F1 & -> & H1 & Hx & Hb & Hn & Hp & E1 & E2 & E3 & Hr)].
  { eexists _, _, _, _. split; [done|]. split; [exact H|]. split; [lia|]. fold sp in Hr. by rewrite Hr. }
  rewrite ncclProxyOpToArgs_new, decide_True by done. assert (x ∉ concat L) as Hxc by (intros Hxc; apply Hx; apply elem_of_app; by left).
  pose proof (rep_setArgs_new s1 _ _ H1 x (newArgs op) Hxc) as H2. set (s2 := setArgs x (newArgs op) s1) in *.
  assert (args s2 x = newArgs op) as Ex by apply setArgs_same.
  pose proof (rep_activate s2 L F1 x H2 Hx Hb Hn Hp) as H3. rewrite Ex in H3. specialize (H3 ltac:(cbn; by rewrite E2) ltac:(done) ltac:(done)).
  eexists _, (L ++ [[x]]), F1, ncclSuccess. split; [|split; [exact H3|split]].
  - pose proof (r_active H2) as Hseg. destruct (decide (L = [])) as [->|Hne].
    + change (active s2 = 0) in Hseg. by rewrite Hseg.
    + assert (active s2 <> 0) as Hne0.
      { intros E0. rewrite E0 in Hseg. apply lseg_null in Hseg. by destruct L. }
      rewrite (proj2 (Z.eqb_neq _ _) Hne0), (lastFrom_heads _ _ _ fuel H2 Hne Hf). done.
  - rewrite length_app. cbn. lia.
  - fold sp in Hr. rewrite Hr. f_equal. pose proof (absOf_new s1 _ F1 x (newArgs op) Hxc) as EA. fold s2 in EA. rewrite (absOf_allocated _ _ _ _ _ E1 Hr) in EA.
    apply (f_equal queues) in EA as EQ. cbn [queues] in EQ. fold sp in EQ. rewrite <- EQ. rewrite (absOf_frame s2) by (cbn; by destruct (decide _)).
    unfold absOf at 1. f_equal. unfold absOf. cbn [queues]. rewrite contents_app, contents_cons. cbn [fmap list_fmap]. by rewrite Ex.
Qed.

Lemma ProxyAppend_rep fuel op s L F : rep s L F -> (length L < fuel)%nat ->
  exists s' L' F' r, ProxyAppend fuel op s = Some (s', r) /\ rep s' L' F' /\ (length L' <= S (length L))%nat /\ specAppend op (absOf s L F) = (absOf s' L' F', r).
Proof.
  intros H Hf. pose proof (find_place s L F (proxyAppendPtr (connection op)) H) as Hfind. unfold specAppend.
  destruct (list_find _ _) as [[i q']|].
  - destruct Hfind as (L1 & q & L2 & -> & -> & -> & Ec & Ea). assert (q ∈ L1 ++ q :: L2) as Hq by (apply elem_of_mid; by left). destruct (r_queue H q Hq) as [Hne Hseg].
    rewrite (last_fmap_queue _ q Hne). destruct (shared (connection op) && _) eqn:Es.
    + destruct (ncclProxyOpToArgs op (args s (lastOf q)) (length (subs (args s (lastOf q))))) as [a' r] eqn:E. destruct (ProxyAppend_join _ _ _ _ _ _ _ _ H E) as [H' EA].
      eexists _, _, _, _. split; [|split; [exact H'|split; [lia|by rewrite EA]]].
      unfold ProxyAppend. by rewrite Ea, (proj2 (Z.eqb_neq _ _) (lastOf_null _ _ _ Hseg Hne)), Es, E.
    + destruct (ProxyAppend_enqueue s L1 q L2 F op fuel H Ea Ec Es) as (s' & L' & F' & r & E1 & E2 & E3 & E4). exists s', L', F', r. rewrite E3, E4. by split_and!; [..|lia|].
  - destruct (ProxyAppend_activate s L F op fuel H Hfind Hf) as (s' & L' & F' & r & E1 & E2 & E3 & E4). exists s', L', F', r. by rewrite E4.
Qed.

(** *** Removing *)

(** Object [b] takes the place of [a] in the list. *)
Lemma lseg_replace h p H1 a b H2 : lseg h p (H1 ++ a :: H2) 0 -> NoDup (H1 ++ a :: H2) -> (b ∉ H1 ++ a :: H2) -> b <> 0 ->
  lseg (hset (if decide (H1 = []) then h else hset h (lastOf H1) b) b (h a)) (if decide (H1 = []) then b else p) (H1 ++ b :: H2) 0.
Proof.
  intros Hseg Hnd Hb Hb0. apply lseg_app in Hseg as (m & Hs1 & (-> & Ha0 & Hs2)). rewrite elem_of_app, elem_of_cons in Hb. apply NoDup_app in Hnd as (Hnd1 & Hd & Hnd2).
  apply NoDup_cons in Hnd2 as [Ha2 Hnd2]. destruct (decide (H1 = [])) as [->|Hne].
  - cbn. rewrite hset_eq. split_and!; [done|done|]. apply lseg_hset; [tauto|done].
  - destruct (exists_last Hne) as (l & z & ->). rewrite lastOf_app in *. rewrite lseg_app. exists b. split.
    + apply lseg_hset; [tauto|]. by eapply lseg_relink.
    + cbn [lseg]. rewrite hset_eq. split_and!; [done|done|]. apply lseg_hset; [tauto|]. apply lseg_hset; [|done]. intros Hz. apply (Hd z); [apply elem_of_app; right; by left|by right].
Qed.

Lemma lseg_remove h p H1 a H2 : lseg h p (H1 ++ a :: H2) 0 -> NoDup (H1 ++ a :: H2) ->
  lseg (if decide (H1 = []) then h else hset h (lastOf H1) (h a)) (if decide (H1 = []) then h a else p) (H1 ++ H2) 0.
Proof.
  intros Hseg Hnd. destruct (lseg_unlink _ _ _ _ _ Hseg Hnd) as [Hs1 Hs2]. destruct (decide (H1 = [])) as [->|Hne]; [done|]. by apply Hs2.
Qed.

(** What [prev] or [active] points to. *)
Definition relinked (H1 : list Z) (v : Z) (s : ncclProxyProgressState) : ncclProxyProgressState :=
  if decide (H1 = []) then setActive v s else setNext (lastOf H1) v s.

Lemma relinked_frame H1 v s : nextPeer (relinked H1 v s) = nextPeer s /\ args (relinked H1 v s) = args s /\ append (relinked H1 v s) = append s /\
  pool (relinked H1 v s) = pool s /\ fresh (relinked H1 v s) = fresh s /\ blocks (relinked H1 v s) = blocks s /\
  next (relinked H1 v s) = (if decide (H1 = []) then next s else hset (next s) (lastOf H1) v) /\ active (relinked H1 v s) = (if decide (H1 = []) then v else active s).
Proof. unfold relinked. by destruct (decide _). Qed.

Lemma removeOp_eq s L1 q L2 F a : rep s (L1 ++ q :: L2) F ->
  removeOp a (lastOf (firstOf <$> L1)) s =
    (if decide (nextPeer s a = 0)
     then let s' := relinked (firstOf <$> L1) (next s a) (setAppend (a_proxyAppendPtr (args s a)) 0 s) in (setPool a (setNext a (pool s) s'), next s a, lastOf (firstOf <$> L1))
     else let s' := setNext (nextPeer s a) (next s a) (relinked (firstOf <$> L1) (nextPeer s a) s) in (setPool a (setNext a (pool s) s'), next s a, nextPeer s a)).
Proof.
  intros H. assert ((lastOf (firstOf <$> L1) =? 0) = bool_decide (firstOf <$> L1 = [])) as E.
  { case_bool_decide as Hd; [by rewrite Hd|]. apply Z.eqb_neq. pose proof (rep_head _ _ _ H) as Hh. assert (lastOf (firstOf <$> L1) ∈ firstOf <$> (L1 ++ q :: L2)) as Hin
      by (rewrite fmap_app; apply elem_of_app; left; by apply lastOf_elem). pose proof (rep_positive _ _ _ H _ (Hh _ Hin)). lia. }
  unfold removeOp, relinked. rewrite E. destruct (decide (nextPeer s a = 0)) as [E0|E0].
  - rewrite E0. cbn. case_bool_decide; destruct (decide _); done.
  - rewrite (proj2 (Z.eqb_neq _ _) E0). cbn [negb]. case_bool_decide; destruct (decide _); done.
Qed.

(** The facts about queue [a :: t] of the list. *)
Lemma rep_split s L1 a t L2 F : rep s (L1 ++ (a :: t) :: L2) F ->
  (a ∉ concat (L1 ++ t :: L2)) /\ (a ∉ F) /\ NoDup (concat (L1 ++ t :: L2) ++ F) /\ (a ∉ t) /\
  nextPeer s a = firstOf t /\ lseg (nextPeer s) (firstOf t) t 0 /\ next s a = firstOf (firstOf <$> L2) /\
  lseg (next s) (active s) ((firstOf <$> L1) ++ a :: (firstOf <$> L2)) 0 /\ NoDup ((firstOf <$> L1) ++ a :: (firstOf <$> L2)) /\ 0 < a < fresh s.
Proof.
  intros H. pose proof (r_nodup H) as Hnd. assert ((a :: t) ∈ L1 ++ (a :: t) :: L2) as Hq by (apply elem_of_mid; by left). destruct (r_queue H _ Hq) as [_ (_ & Ha0 & Hseg)].
  assert (concat (L1 ++ (a :: t) :: L2) ++ F ≡ₚ a :: (concat (L1 ++ t :: L2) ++ F)) as EP by (by rewrite !concat_mid).
  rewrite EP in Hnd. apply NoDup_cons in Hnd as [Ha Hnd]. rewrite elem_of_app in Ha. pose proof (lseg_first _ _ _ Hseg) as Ef.
  pose proof (rep_heads_nodup _ _ _ H) as Hh. pose proof (r_active H) as Hact. rewrite fmap_app, fmap_cons in Hh, Hact. cbn [firstOf] in *.
  apply lseg_app in Hact as Hact'. destruct Hact' as (m & _ & (_ & _ & Hs2)).
  split_and!; try done; try tauto.
  - intros Hat. apply Ha. left. eapply elem_of_queue; [|done]. apply elem_of_mid. by left.
  - by rewrite <- Ef.
  - by apply lseg_first in Hs2.
  - apply (r_fresh H). rewrite EP. by left.
  - apply (r_fresh H). rewrite EP. by left.
Qed.

Lemma removeOp_peer s L1 a b t L2 F : rep s (L1 ++ (a :: b :: t) :: L2) F ->
  exists s', removeOp a (lastOf (firstOf <$> L1)) s = (s', firstOf (firstOf <$> L2), b) /\ rep s' (L1 ++ (b :: t) :: L2) (a :: F) /\ args s' = args s /\ blocks s' = blocks s.
Proof.
  intros H. destruct (rep_split _ _ _ _ _ _ H) as (HaL & HaF & Hnd & Hat & Ep & Hpeer & En & Hact & Hheads & Hb). cbn [firstOf] in Ep.
  assert ((a :: b :: t) ∈ L1 ++ (a :: b :: t) :: L2) as Hq by (apply elem_of_mid; by left).
  assert (forall q, q ∈ L1 ++ L2 -> q ∈ L1 ++ (a :: b :: t) :: L2) as Hin by (intros q Hq'; apply elem_of_mid; by right).
  assert (b <> 0) as Hb0 by (destruct Hpeer as (_ & ? & _); done).
  assert (b ∉ (firstOf <$> L1) ++ a :: (firstOf <$> L2)) as Hbh.
  { pose proof (rep_tail _ _ _ H (a :: b :: t) b Hq ltac:(by left)) as Hbt. by rewrite fmap_app, fmap_cons in Hbt. }
  rewrite (removeOp_eq _ _ _ _ _ a H), Ep, decide_False, En by done. cbn zeta. eexists. split; [done|].
  destruct (relinked_frame (firstOf <$> L1) b s) as (E1 & E2 & E3 & E4 & E5 & E6 & E7 & E8). set (s1 := relinked (firstOf <$> L1) b s) in *.
  split; [|cbn; by rewrite E2, E6]. rewrite <- En.
  assert (forall x, (x ∉ (firstOf <$> L1) ++ a :: (firstOf <$> L2)) -> x <> b -> hset (hset (next s1) b (next s a)) a (pool s) x = next s x) as Hnx.
  { intros x Hx Hxb. rewrite elem_of_app, elem_of_cons in Hx. rewrite !hset_ne by (intros ->; tauto). rewrite E7. destruct (decide _) as [|Hne]; [done|]. apply hset_ne.
    intros ->. apply Hx. left. by apply lastOf_elem. }
  assert (forall x, x ∈ F -> hset (hset (next s1) b (next s a)) a (pool s) x = next s x) as HnF.
  { intros x Hx. apply NoDup_app in Hnd as (_ & Hd & _). apply Hnx.
    - intros Hxh. pose proof (rep_head _ _ _ H) as Hh. rewrite fmap_app, fmap_cons in Hh. cbn [firstOf] in Hh. specialize (Hh x Hxh). rewrite concat_mid in Hh. cbn [app] in Hh.
      apply elem_of_cons in Hh as [->|Hh]; [done|]. apply (Hd x); [|done]. by rewrite concat_mid.
    - intros ->. apply (Hd b); [|done]. rewrite concat_mid. by left. }
  pose proof (rep_tail _ _ _ H) as Hwt. rewrite fmap_app, fmap_cons in Hwt. cbn [firstOf] in Hwt. pose proof (rep_place _ _ _ _ _ H) as Hpl. cbn [firstOf] in Hpl.
  pose proof (r_place H _ b Hq ltac:(right; by left)) as Ebp. cbn [firstOf] in Ebp.
  destruct H. constructor; cbn [setPool setNext next nextPeer args append active pool fresh]; rewrite ?E1, ?E2, ?E3, ?E4, ?E5; try done.
  - rewrite fmap_app, fmap_cons. cbn [firstOf]. apply lseg_hset.
    + rewrite elem_of_mid. intros [->|Hx]; [by apply Hat; left|]. apply NoDup_app in Hheads as (_ & Hd & Hh2). apply NoDup_cons in Hh2 as [Hh2 _].
      apply elem_of_app in Hx as [Hx|Hx]; [|done]. apply (Hd a Hx). by left.
    + rewrite E7, E8. by apply lseg_replace.
  - intros q [->|Hq']%elem_of_mid; [done|]. by apply r_queue0, Hin.
  - intros q x [->|Hq']%elem_of_mid Hx; [|by apply r_place0; [apply Hin|]]. cbn [firstOf]. rewrite Ebp. apply (r_place0 (a :: b :: t)); [done|by right].
  - intros q [->|Hq']%elem_of_mid; [|by apply r_append0, Hin]. cbn [firstOf]. rewrite Ebp. pose proof (r_append0 _ Hq) as Hap. cbn [firstOf] in Hap. by rewrite Hap, lastOf_cons.
  - intros c Hc. apply r_none0. intros q [->|Hq']%elem_of_mid; [|apply Hc, elem_of_mid; by right]. cbn [firstOf]. rewrite <- Ebp. apply (Hc (b :: t)), elem_of_mid. by left.
  - cbn [lseg]. rewrite hset_eq. split_and!; [done|lia|]. eapply lseg_ext; [exact HnF|done].
  - rewrite <- Permutation_middle. constructor; [|done]. rewrite elem_of_app. tauto.
  - intros x. rewrite <- Permutation_middle. intros [->|Hx]%elem_of_cons; [done|]. apply r_fresh0. rewrite concat_mid. cbn [app]. right. by rewrite concat_mid in Hx.
  - intros q x [->|Hq']%elem_of_mid Hx.
    + cbn [tail] in Hx. pose proof Hnd as Hnd'. rewrite concat_mid in Hnd'. cbn [app] in Hnd'. apply NoDup_cons in Hnd' as [Hbn _].
      rewrite Hnx; [apply (r_waiting0 (a :: b :: t)); [done|by right]|apply (Hwt (a :: b :: t)); [done|by right]|]. intros ->. apply Hbn. apply elem_of_app. left. apply elem_of_app. by left.
    + rewrite Hnx; [by apply (r_waiting0 q); [apply Hin|]|by apply (Hwt q); [apply Hin|]|]. intros ->.
      apply (queue_unique L1 L2 (a :: b :: t) q F b r_nodup0 Hq'); [right; by left|by apply tail_elem].
  - intros q [->|Hq']%elem_of_mid; [|by apply r_running0, Hin]. cbn [firstOf]. destruct (r_waiting0 (a :: b :: t) b Hq ltac:(by left)) as [_ ->]. done.
  - intros q x [->|Hq']%elem_of_mid Hx; [|by apply (r_subs0 q); [apply Hin|]]. apply (r_subs0 (a :: b :: t)); [done|by right].
Qed.

Lemma removeOp_last s L1 a L2 F : rep s (L1 ++ [a] :: L2) F ->
  exists s', removeOp a (lastOf (firstOf <$> L1)) s = (s', firstOf (firstOf <$> L2), lastOf (firstOf <$> L1)) /\ rep s' (L1 ++ L2) (a :: F) /\ args s' = args s /\ blocks s' = blocks s.
Proof.
  intros H. destruct (rep_split _ _ _ _ _ _ H) as (HaL & HaF & Hnd & Hat & Ep & Hpeer & En & Hact & Hheads & Hb). cbn [firstOf] in Ep.
  assert ([a] ∈ L1 ++ [a] :: L2) as Hq by (apply elem_of_mid; by left).
  assert (forall q, q ∈ L1 ++ L2 -> q ∈ L1 ++ [a] :: L2) as Hin by (intros q Hq'; apply elem_of_mid; by right).
  assert (concat (L1 ++ [] :: L2) = concat (L1 ++ L2)) as EC by (by rewrite !concat_app). rewrite EC in *.
  rewrite (removeOp_eq _ _ _ _ _ a H), decide_True, En by done. cbn zeta. eexists. split; [done|]. set (s0 := setAppend (a_proxyAppendPtr (args s a)) 0 s).
  destruct (relinked_frame (firstOf <$> L1) (firstOf (firstOf <$> L2)) s0) as (E1 & E2 & E3 & E4 & E5 & E6 & E7 & E8). set (s1 := relinked (firstOf <$> L1) (firstOf (firstOf <$> L2)) s0) in *.
  split; [|cbn; by rewrite E2, E6]. rewrite <- En in E7, E8.
  assert (forall x, (x ∉ (firstOf <$> L1) ++ a :: (firstOf <$> L2)) -> hset (next s1) a (pool s) x = next s x) as Hnx.
  { intros x Hx. rewrite elem_of_app, elem_of_cons in Hx. rewrite hset_ne by (intros ->; tauto). rewrite E7. destruct (decide _) as [|Hne]; [done|]. apply hset_ne.
    intros ->. apply Hx. left. by apply lastOf_elem. }
  assert (forall x, x ∈ F -> hset (next s1) a (pool s) x = next s x) as HnF.
  { intros x Hx. apply NoDup_app in Hnd as (_ & Hd & _). apply Hnx. intros Hxh. pose proof (rep_head _ _ _ H) as Hh. rewrite fmap_app, fmap_cons in Hh. cbn [firstOf] in Hh.
    specialize (Hh x Hxh). rewrite concat_mid in Hh. cbn [app] in Hh. apply elem_of_cons in Hh as [->|Hh]; [done|]. by apply (Hd x). }
  pose proof (rep_tail _ _ _ H) as Hwt. rewrite fmap_app, fmap_cons in Hwt. cbn [firstOf] in Hwt. pose proof (rep_place _ _ _ _ _ H) as Hpl. cbn [firstOf] in Hpl.
  destruct H. constructor; cbn [setPool setNext next nextPeer args append active pool fresh]; rewrite ?E1, ?E2, ?E3, ?E4, ?E5; cbn [s0 setAppend nextPeer args append pool fresh]; try done.
  - rewrite fmap_app. apply lseg_hset.
    + intros Hx. apply NoDup_app in Hheads as (_ & Hd & Hh2). apply NoDup_cons in Hh2 as [Hh2 _]. apply elem_of_app in Hx as [Hx|Hx]; [|done]. apply (Hd a Hx). by left.
    + rewrite E7, E8. by apply lseg_remove.
  - intros q Hq'. by apply r_queue0, Hin.
  - intros q x Hq' Hx. apply r_place0; [by apply Hin|done].
  - intros q Hq'. rewrite hset_ne; [by apply r_append0, Hin|by apply Hpl].
  - intros c Hc. destruct (decide (c = a_proxyAppendPtr (args s a))) as [->|Hne]; [by rewrite hset_eq|]. rewrite hset_ne by done. apply r_none0.
    intros q [->|Hq']%elem_of_mid; [cbn; congruence|by apply Hc].
  - cbn [lseg]. rewrite hset_eq. split_and!; [done|lia|]. eapply lseg_ext; [exact HnF|done].
  - rewrite <- Permutation_middle. constructor; [|done]. rewrite elem_of_app. tauto.
  - intros x. rewrite <- Permutation_middle. intros [->|Hx]%elem_of_cons; [done|]. apply r_fresh0. rewrite concat_mid. cbn [app]. by right.
  - intros q x Hq' Hx. rewrite Hnx; [by apply (r_waiting0 q); [apply Hin|]|by apply (Hwt q); [apply Hin|]].
  - intros q Hq'. by apply r_running0, Hin.
  - intros q x Hq' Hx. by apply (r_subs0 q); [apply Hin|].
Qed.

(** *** A round *)

(** What the progress functions keep: the place of the object, and its operations, in
    whatever order. *)
Context (progress_keeps : forall w a w' a' idle r, progress w a = (w', a', idle, r) -> a_proxyAppendPtr a' = a_proxyAppendPtr a /\ subs a' ≡ₚ subs a).

Lemma removeOp_setArgs op prev v s : a_proxyAppendPtr v = a_proxyAppendPtr (args s op) ->
  removeOp op prev (setArgs op v s) = (let '(s', n, p) := removeOp op prev s in (setArgs op v s', n, p)).
Proof.
  intros E. unfold removeOp. rewrite setArgs_same, E. cbn [setArgs nextPeer next]. destruct (negb (nextPeer s op =? 0)), (negb (prev =? 0)); done.
Qed.

(** What is left of a queue. *)
Definition restOf {A} (t : list A) : list (list A) := match t with [] => [] | _ => [t] end.

(** An object that is done leaves its place to the next of its queue. *)
Lemma rep_removed s L1 a t L2 F a' : rep s (L1 ++ (a :: t) :: L2) F -> a_proxyAppendPtr a' = a_proxyAppendPtr (args s a) ->
  exists s1, removeOp a (lastOf (firstOf <$> L1)) (setArgs a a' s) = (s1, firstOf (firstOf <$> L2), lastOf (firstOf <$> (L1 ++ restOf t))) /\
    rep s1 ((L1 ++ restOf t) ++ L2) (a :: F) /\ contents s1 (L1 ++ restOf t) = contents s L1 ++ restOf (args s <$> t) /\ contents s1 L2 = contents s L2 /\ blocks s1 = blocks s.
Proof.
  intros H Hpl. destruct (rep_split _ _ _ _ _ _ H) as (HaL & _). rewrite removeOp_setArgs by done.
  assert (exists s0, removeOp a (lastOf (firstOf <$> L1)) s = (s0, firstOf (firstOf <$> L2), lastOf (firstOf <$> (L1 ++ restOf t))) /\
    rep s0 ((L1 ++ restOf t) ++ L2) (a :: F) /\ args s0 = args s /\ blocks s0 = blocks s) as (s0 & -> & H0 & Ea & Eb).
  { destruct t as [|b t]; cbn [restOf].
    - rewrite app_nil_r. by apply removeOp_last.
    - rewrite <- app_assoc, fmap_app. cbn [fmap list_fmap firstOf]. rewrite lastOf_app. by apply removeOp_peer. }
  exists (setArgs a a' s0). split; [done|]. assert (forall q, q ∈ (L1 ++ restOf t) ++ L2 -> a ∉ q) as Hq.
  { intros q Hq Ha. apply HaL. eapply elem_of_queue; [|done]. rewrite elem_of_mid. rewrite !elem_of_app in Hq. destruct Hq as [[Hq|Hq]|Hq]; [right; apply elem_of_app; by left| |right; apply elem_of_app; by right].
    destruct t; [by apply not_elem_of_nil in Hq|]. apply list_elem_of_singleton in Hq as ->. by left. }
  assert (forall L, (forall q, q ∈ L -> q ∈ (L1 ++ restOf t) ++ L2) -> contents (setArgs a a' s0) L = contents s L) as Hc.
  { intros L HL. apply contents_ext. intros q x Hq' Hx. rewrite setArgs_other, Ea; [done|]. intros ->. by apply (Hq q); [apply HL|]. }
  split; [|split; [|split; [|done]]].
  - apply rep_setArgs_new; [done|]. intros (q & Hq' & Ha)%list_elem_of_In%in_concat. rewrite <- !list_elem_of_In in *. by apply (Hq q).
  - rewrite Hc by (intros q Hq'; apply elem_of_app; by left). rewrite contents_app. f_equal. by destruct t.
  - apply Hc. intros q Hq'. apply elem_of_app. by right.
Qed.

(** An object that is not done stays where it is. *)
Lemma rep_kept s L1 a t L2 F a' : rep s (L1 ++ (a :: t) :: L2) F -> a_proxyAppendPtr a' = a_proxyAppendPtr (args s a) -> a_state a' <> ncclProxyOpNone -> subs a' <> [] ->
  rep (setArgs a a' s) ((L1 ++ [a :: t]) ++ L2) F /\ contents (setArgs a a' s) (L1 ++ [a :: t]) = contents s L1 ++ [a' :: (args s <$> t)] /\ contents (setArgs a a' s) L2 = contents s L2.
Proof.
  intros H Hpl Hst Hsub. destruct (rep_split _ _ _ _ _ _ H) as (HaL & _ & _ & Hat & _). rewrite <- app_assoc.
  assert (forall L, (forall q, q ∈ L -> q ∈ L1 ++ L2) -> contents (setArgs a a' s) L = contents s L) as Hc.
  { intros L HL. apply contents_ext. intros q x Hq' Hx. apply setArgs_other. intros ->. apply HaL. eapply elem_of_queue; [|done]. apply elem_of_mid. right. by apply HL. }
  split; [|split].
  - apply rep_setArgs; [done|done|done|done|]. intros q Hq' Ht. destruct (rep_tail _ _ _ H q a Hq' Ht). rewrite fmap_app, fmap_cons. apply elem_of_app. right. by left.
  - rewrite contents_app, Hc by (intros q Hq'; apply elem_of_app; by left). f_equal. rewrite contents_cons, fmap_cons, setArgs_same. do 2 f_equal.
    apply list_fmap_ext. intros i x Hx. apply setArgs_other. intros ->. apply Hat. by eapply list_elem_of_lookup_2.
  - apply Hc. intros q Hq'. apply elem_of_app. by right.
Qed.

Lemma restOf_app {A} (t : list A) Q : (match t with [] => Q | _ => t :: Q end) = restOf t ++ Q.
Proof. by destruct t. Qed.

Lemma progressLoop_rep L2 : forall fuel w s L1 F status idle calls, rep s (L1 ++ L2) F -> (length L2 < fuel)%nat ->
  exists s' L' F' w' sp status' idle' calls',
    specRound w (contents s L2) (room (absOf s (L1 ++ L2) F)) status idle calls = (w', sp, status', idle', calls') /\
    progressLoop fuel w (lastOf (firstOf <$> L1)) (firstOf (firstOf <$> L2)) status idle calls s = Some (w', s', status', idle', calls') /\
    rep s' L' F' /\ (length L' <= length (L1 ++ L2))%nat /\ absOf s' L' F' = Spec (contents s L1 ++ queues sp) (room sp).
Proof.
  induction L2 as [|q L2 IH]; intros fuel w s L1 F status idle calls H Hf; (destruct fuel as [|fuel]; [cbn in Hf; lia|]).
  { exists s, L1, F, w. eexists _, _, _, _. split; [done|]. rewrite app_nil_r in *. split_and!; [done..|lia|]. unfold absOf. cbn [queues room]. by rewrite app_nil_r. }
  assert (q ∈ L1 ++ q :: L2) as Hq by (apply elem_of_mid; by left). destruct (r_queue H q Hq) as [Hne _]. destruct q as [|a t]; [done|]. clear Hne.
  pose proof (r_running H _ Hq) as Hrun. cbn [firstOf] in Hrun. destruct (rep_split _ _ _ _ _ _ H) as (_ & _ & _ & _ & _ & _ & En & _ & _ & Hb).
  pose proof (r_subs H _ a Hq ltac:(by left)) as Hsub. rewrite contents_cons, fmap_cons. cbn [fmap list_fmap firstOf specRound progressLoop].
  rewrite (proj2 (Z.eqb_neq a 0)), decide_False by (done || lia). destruct (progress w (args s a)) as [[[w1 a'] idleOp] ret] eqn:E.
  destruct (progress_keeps _ _ _ _ _ _ E) as [Hpl Hperm]. destruct (removed a' ret) eqn:Er.
  - destruct (rep_removed _ _ _ _ _ _ a' H Hpl) as (s1 & -> & H1 & C1 & C2 & Eb).
    edestruct (IH fuel w1 s1 (L1 ++ restOf t) (a :: F)) as (s' & L' & F' & w' & sp & st' & id' & ca' & Es & Ep & Hr & Hl & EA); [exact H1|cbn in Hf; lia|].
    rewrite C2 in Es. replace (room (absOf s1 ((L1 ++ restOf t) ++ L2) (a :: F))) with (S (room (absOf s (L1 ++ (a :: t) :: L2) F))) in Es by (unfold absOf; cbn; by rewrite Eb).
    rewrite Es. eexists s', L', F', _, _, _, _, _. split; [done|]. split; [exact Ep|]. split; [done|]. cbn [queues room]. rewrite restOf_app, EA, C1, <- app_assoc.
    split; [|done]. rewrite !length_app in *. cbn. destruct t; cbn in *; lia.
  - assert (a_state a' <> ncclProxyOpNone) as Hst by (intros E0; unfold removed in Er; by rewrite E0 in Er).
    assert (subs a' <> []) as Hsub' by (intros E0; rewrite E0 in Hperm; by apply Permutation_nil_l in Hperm).
    destruct (rep_kept _ _ _ _ _ _ a' H Hpl Hst Hsub') as (H1 & C1 & C2).
    edestruct (IH fuel w1 (setArgs a a' s) (L1 ++ [a :: t]) F) as (s' & L' & F' & w' & sp & st' & id' & ca' & Es & Ep & Hr & Hl & EA); [exact H1|cbn in Hf; lia|].
    rewrite C2 in Es. rewrite fmap_app in Ep. cbn [fmap list_fmap firstOf] in Ep. rewrite lastOf_app in Ep. cbn [setArgs next] in *. rewrite En.
    change (room (absOf _ ((L1 ++ [a :: t]) ++ L2) F)) with (room (absOf s (L1 ++ (a :: t) :: L2) F)) in Es. rewrite Es.
    eexists s', L', F', _, _, _, _, _. split; [done|]. split; [exact Ep|]. split; [done|]. cbn [queues room]. rewrite EA, C1, <- app_assoc. split; [|done].
    rewrite !length_app in *. cbn in *. lia.
Qed.

(** ** Runs of the progress thread *)

(** The thread appends an operation it has received, or goes once over the active ones. *)
Inductive event :=
  | Append (op : ncclProxyOp)
  | Round.

Inductive outcome :=
  | Appended (r : ncclResult_t)
  | Progressed (status : ncclResult_t) (idle : bool) (calls : list call).

Fixpoint run (fuel : nat) (evs : list event) (w : W) (s : ncclProxyProgressState) : option (W * ncclProxyProgressState * list outcome) :=
  match evs with
  | [] => Some (w, s, [])
  | Append op :: evs =>
      '(s, r) ← ProxyAppend fuel op s;
      '(w, s, outs) ← run fuel evs w s;
      Some (w, s, Appended r :: outs)
  | Round :: evs =>
      '(w, s, status, idle, calls) ← progressOps fuel w s;
      '(w, s, outs) ← run fuel evs w s;
      Some (w, s, Progressed status idle calls :: outs)
  end.

Fixpoint runSpec (evs : list event) (w : W) (sp : spec) : W * spec * list outcome :=
  match evs with
  | [] => (w, sp, [])
  | Append op :: evs =>
      let '(sp, r) := specAppend op sp in
      let '(w, sp, outs) := runSpec evs w sp in
      (w, sp, Appended r :: outs)
  | Round :: evs =>
      let '(w, sp, status, idle, calls) := specRound w (queues sp) (room sp) ncclSuccess true [] in
      let '(w, sp, outs) := runSpec evs w sp in
      (w, sp, Progressed status idle calls :: outs)
  end.

(** Nothing is active, and memory for [n] pools is left. *)
Definition initState (a : ncclProxyArgs) (n : nat) : ncclProxyProgressState :=
  {| next := fun _ => 0; nextPeer := fun _ => 0; args := fun _ => a; append := fun _ => 0; active := 0; pool := 0; fresh := 1; blocks := n |}.

(** The objects reached from [p]. *)
Fixpoint listFrom (fuel : nat) (h : heap) (p : Z) : option (list Z) :=
  match fuel with
  | O => None
  | S fuel => if p =? 0 then Some [] else l ← listFrom fuel h (h p); Some (p :: l)
  end.

(** The queues, as the links give them. *)
Definition activeQueues (fuel : nat) (s : ncclProxyProgressState) : option (list (list ncclProxyArgs)) :=
  heads ← listFrom fuel (next s) (active s);
  L ← mapM (listFrom fuel (nextPeer s)) heads;
  Some (contents s L).

Lemma listFrom_lseg fuel h p l : lseg h p l 0 -> (length l < fuel)%nat -> listFrom fuel h p = Some l.
Proof.
  revert p l. induction fuel as [|fuel IH]; intros p l Hl Hf; [lia|]. destruct l as [|x l]; cbn in *; [by rewrite Hl|]. destruct Hl as (-> & Hx & Hl).
  rewrite (proj2 (Z.eqb_neq _ _) Hx), (IH _ _ Hl) by lia. done.
Qed.

(** The number of objects in use. *)
Definition inUse (sp : spec) : nat := length (concat (queues sp)).

Lemma rep_inUse s L F : rep s L F -> (length L <= inUse (absOf s L F))%nat /\ forall q, q ∈ L -> (length q <= inUse (absOf s L F))%nat.
Proof.
  intros H. unfold inUse, absOf. cbn [queues]. pose proof (r_queue H) as Hq. clear H. induction L as [|q L IH]; [split; [done|]; intros q Hq'; by apply not_elem_of_nil in Hq'|].
  destruct IH as [I1 I2]; [intros q' Hq'; apply Hq; by right|]. destruct (Hq q ltac:(by left)) as [Hne _]. rewrite contents_cons. cbn [concat length]. rewrite length_app, length_fmap.
  assert (0 < length q)%nat by (destruct q; [done|cbn; lia]). split; [lia|]. intros q' [->|Hq']%elem_of_cons; [lia|]. specialize (I2 q' Hq'). lia.
Qed.

Lemma activeQueues_rep s L F fuel : rep s L F -> (inUse (absOf s L F) < fuel)%nat -> activeQueues fuel s = Some (queues (absOf s L F)).
Proof.
  intros H Hf. destruct (rep_inUse _ _ _ H) as [Hl Hq]. unfold activeQueues. rewrite (listFrom_lseg _ _ _ _ (r_active H)) by (rewrite length_fmap; lia). cbn [mbind option_bind].
  assert (mapM (listFrom fuel (nextPeer s)) (firstOf <$> L) = Some L) as ->; [|done].
  apply mapM_Some. apply Forall2_fmap_l. apply Forall_Forall2_diag. apply Forall_forall. intros q Hin. destruct (r_queue H q Hin) as [_ Hseg].
  apply listFrom_lseg; [done|]. specialize (Hq q Hin). lia.
Qed.

Lemma insert_inUse (Q : list (list ncclProxyArgs)) i q q' : Q !! i = Some q -> (length (concat (<[i := q']> Q)) + length q = length (concat Q) + length q')%nat.
Proof.
  revert i. induction Q as [|x Q IH]; intros [|i] Hi; try done.
  - injection Hi as ->. change (<[0%nat := q']> (q :: Q)) with (q' :: Q). cbn [concat]. rewrite !length_app. lia.
  - change (<[S i := q']> (x :: Q)) with (x :: <[i := q']> Q). cbn [concat]. rewrite !length_app. specialize (IH i Hi). lia.
Qed.

Lemma specAppend_inUse op sp sp' r : specAppend op sp = (sp', r) -> (inUse sp' <= S (inUse sp))%nat.
Proof.
  unfold specAppend, inUse. destruct (list_find _ _) as [[i q]|] eqn:E.
  - apply list_find_Some in E as (Hi & _ & _). destruct (last q) as [a|] eqn:El; [|intros [= <- _]; lia].
    apply last_Some in El as [q' ->]. rewrite removelast_last. destruct (_ && _).
    + destruct (ncclProxyOpToArgs _ _ _) as [a' r']. intros [= <- _]. cbn [queues]. pose proof (insert_inUse _ _ _ (q' ++ [a']) Hi) as Hn. rewrite !length_app in *. cbn in *. lia.
    + destruct (room sp); intros [= <- _]; cbn [queues]; [lia|]. pose proof (insert_inUse _ _ _ ((q' ++ [a]) ++ [newArgs op]) Hi) as Hn. rewrite !length_app in *. cbn in *. lia.
  - destruct (room sp); intros [= <- _]; cbn [queues]; [lia|]. rewrite concat_app, length_app. cbn. lia.
Qed.

Lemma specRound_inUse Q : forall w n status idle calls w' sp status' idle' calls',
  specRound w Q n status idle calls = (w', sp, status', idle', calls') -> (inUse sp <= length (concat Q))%nat.
Proof.
  unfold inUse. induction Q as [|q Q IH]; intros w n status idle calls w' sp status' idle' calls'; [by intros [= _ <- _ _ _]|].
  destruct q as [|a q]; cbn [specRound concat]; [apply IH|]. destruct (progress w a) as [[[w1 a'] idleOp] ret]. destruct (removed a' ret);
    destruct (specRound _ Q _ _ _ _) as [[[[w2 sp2] st2] id2] ca2] eqn:E; intros [= _ <- _ _ _]; apply IH in E; cbn [queues].
  - rewrite restOf_app, concat_app, !length_app. destruct q; cbn [restOf concat app length]; rewrite ?app_nil_r; cbn [length]; lia.
  - cbn [concat app length]. rewrite !length_app. lia.
Qed.

Lemma run_rep fuel evs : forall w s L F, rep s L F -> (inUse (absOf s L F) + length evs < fuel)%nat ->
  exists s' L' F' w' sp outs, run fuel evs w s = Some (w', s', outs) /\ runSpec evs w (absOf s L F) = (w', sp, outs) /\ rep s' L' F' /\ sp = absOf s' L' F' /\
    (inUse sp <= inUse (absOf s L F) + length evs)%nat.
Proof.
  induction evs as [|ev evs IH]; intros w s L F H Hf; [exists s, L, F, w; eexists _, _; split_and!; try done; cbn; lia|]. cbn [length] in Hf.
  destruct (rep_inUse _ _ _ H) as [HL _]. destruct ev as [op|]; cbn [run runSpec].
  - destruct (ProxyAppend_rep fuel op s L F H ltac:(lia)) as (s1 & L1 & F1 & r & -> & H1 & _ & E). rewrite E. apply specAppend_inUse in E. cbn [mbind option_bind].
    destruct (IH w s1 L1 F1 H1 ltac:(lia)) as (s' & L' & F' & w' & sp & outs & -> & -> & H' & Esp & Hn). eexists s', L', F', _, _, _. split_and!; try done. cbn [length]. lia.
  - destruct (progressLoop_rep L fuel w s [] F ncclSuccess true [] H ltac:(lia)) as (s1 & L1 & F1 & w1 & sp1 & st & id & ca & Es & Ep & H1 & _ & EA).
    unfold progressOps. rewrite (lseg_first _ _ _ (r_active H)). change (lastOf (firstOf <$> [])) with 0 in Ep. rewrite Ep. cbn [mbind option_bind app] in *.
    change (queues (absOf s L F)) with (contents s L). rewrite Es. apply specRound_inUse in Es as Hn1. assert (sp1 = absOf s1 L1 F1) as -> by (rewrite EA; by destruct sp1).
    destruct (IH w1 s1 L1 F1 H1) as (s' & L' & F' & w' & sp & outs & -> & -> & H' & Esp & Hn); [unfold inUse in *; cbn [queues absOf] in *; lia|].
    eexists s', L', F', _, _, _. split_and!; try done. unfold inUse in *. cbn [length queues absOf] in *. lia.
Qed.

Lemma rep_init a n : rep (initState a n) [] [].
Proof. constructor; cbn; try done; try (intros; exfalso; by eapply not_elem_of_nil). by constructor. Qed.

(** ** Order *)

(** The objects that are done, in the order they are, and those for a place. *)
Definition doneOf (calls : list call) : list ncclProxyArgs := omap (fun '(_, a, r) => if removed a r then Some a else None) calls.
Definition finishedOf (outs : list outcome) : list ncclProxyArgs := concat ((fun o => match o with Appended _ => [] | Progressed _ _ calls => doneOf calls end) <$> outs).
Definition forPlace (c : Z) (l : list ncclProxyArgs) : list ncclProxyArgs := filter (fun a => a_proxyAppendPtr a = c) l.

(** The operations appended at a place. *)
Definition opsFor (c : Z) (evs : list event) : list ncclProxyOp :=
  omap (fun ev => match ev with Append op => if decide (proxyAppendPtr (connection op) = c) then Some op else None | Round => None end) evs.

Definition allAppended (outs : list outcome) : Prop := Forall (fun o => match o with Appended r => r = ncclSuccess | _ => True end) outs.

(** The same operations at the same place. *)
Definition same (a b : ncclProxyArgs) : Prop := a_proxyAppendPtr a = a_proxyAppendPtr b /\ subs a ≡ₚ subs b.

(** Queues are not empty, and each has a place of its own. *)
Definition queueOk (q : list ncclProxyArgs) : Prop := q <> [] /\ forall a, a ∈ q -> Some (a_proxyAppendPtr a) = placeOf q /\ subs a <> [].
Definition specOk (Q : list (list ncclProxyArgs)) : Prop := Forall queueOk Q /\ NoDup (placeOf <$> Q).

Lemma same_refl a : same a a.
Proof. done. Qed.

Lemma Forall2_same_refl l : Forall2 same l l.
Proof. apply Forall_Forall2_diag, Forall_forall. intros a _. done. Qed.

Lemma forPlace_app c l1 l2 : forPlace c (l1 ++ l2) = forPlace c l1 ++ forPlace c l2.
Proof. apply filter_app. Qed.

Lemma forPlace_in c q : queueOk q -> placeOf q = Some c -> forPlace c q = q.
Proof.
  intros [_ Hq] Hc. unfold forPlace. assert (Forall (fun a => a_proxyAppendPtr a = c) q) as HF.
  { apply Forall_forall. intros a Ha. destruct (Hq a Ha) as [E _]. rewrite Hc in E. by injection E. }
  clear -HF. induction HF as [|a q Ha HF IH]; [done|]. by rewrite filter_cons_True, IH.
Qed.

Lemma forPlace_out c q : queueOk q -> placeOf q <> Some c -> forPlace c q = [].
Proof.
  intros [_ Hq] Hc. unfold forPlace. assert (Forall (fun a => a_proxyAppendPtr a <> c) q) as HF.
  { apply Forall_forall. intros a Ha E. destruct (Hq a Ha) as [Ea _]. by rewrite E in Ea. }
  clear -HF. induction HF as [|a q Ha HF IH]; [done|]. by rewrite filter_cons_False, IH.
Qed.

Lemma forPlace_none c Q : Forall queueOk Q -> (Some c ∉ placeOf <$> Q) -> forPlace c (concat Q) = [].
Proof.
  intros HQ Hc. induction HQ as [|q Q Hq HQ IH]; [done|]. rewrite fmap_cons, not_elem_of_cons in Hc. destruct Hc as [Hc1 Hc2]. cbn [concat].
  rewrite forPlace_app, IH by done. rewrite forPlace_out; [done|done|by apply not_eq_sym].
Qed.

Lemma specOk_cons q Q : specOk (q :: Q) <-> queueOk q /\ (placeOf q ∉ placeOf <$> Q) /\ specOk Q.
Proof. unfold specOk. rewrite Forall_cons, fmap_cons, NoDup_cons. tauto. Qed.

(** The first object of a queue, after a call. *)
Lemma queueOk_head a a' q : queueOk (a :: q) -> same a a' -> queueOk (a' :: q) /\ placeOf (a' :: q) = placeOf (a :: q) /\ (q <> [] -> queueOk q /\ placeOf q = placeOf (a :: q)).
Proof.
  intros [_ Hq] [E1 E2]. assert (placeOf (a' :: q) = placeOf (a :: q)) as Ep by (cbn; by rewrite E1). split_and!; [|done|].
  - split; [done|]. rewrite Ep. intros b [->|Hb]%elem_of_cons; [|apply Hq; by right]. split; [by cbn; rewrite E1|]. destruct (Hq a ltac:(by left)) as [_ Hs]. intros E. rewrite E in E2. by apply Permutation_nil_r in E2.
  - intros Hne. assert (placeOf q = placeOf (a :: q)) as Epq.
    { destruct q as [|b q]; [done|]. destruct (Hq b ltac:(right; by left)) as [Eb _]. cbn. cbn in Eb. done. }
    split; [|done]. split; [done|]. rewrite Epq. intros b Hb. apply Hq. by right.
Qed.

(** A round keeps, for each place, the objects and their order. *)
Lemma specRound_order Q : forall w n status idle calls w' sp status' idle' calls',
  specRound w Q n status idle calls = (w', sp, status', idle', calls') -> specOk Q ->
  exists new, calls' = calls ++ new /\ specOk (queues sp) /\ (forall c, c ∈ placeOf <$> queues sp -> c ∈ placeOf <$> Q) /\
    forall c, Forall2 same (forPlace c (concat Q)) (forPlace c (doneOf new) ++ forPlace c (concat (queues sp))).
Proof.
  induction Q as [|q Q IH]; intros w n status idle calls w' sp status' idle' calls' E HQ.
  { injection E as _ <- _ _ <-. exists []. by rewrite app_nil_r. }
  apply specOk_cons in HQ as (Hq & Hnq & HQ). destruct q as [|a q]; [by destruct Hq|]. cbn [specRound] in E.
  destruct (progress w a) as [[[w1 a'] idleOp] ret] eqn:Ep. assert (same a a') as Hs by (destruct (progress_keeps _ _ _ _ _ _ Ep) as [? ?]; done).
  destruct (queueOk_head a a' q Hq Hs) as (Hq1 & Epl & Hq2).
  assert (exists w2 sp2 n2 st2 id2 st3 id3 calls3, specRound w1 Q n2 st2 id2 (calls ++ [(a, a', ret)]) = (w2, sp2, st3, id3, calls3) /\ calls' = calls3 /\
    queues sp = (if removed a' ret then restOf q else [a' :: q]) ++ queues sp2) as (w2 & sp2 & n2 & st2 & id2 & st3 & id3 & calls3 & E2 & -> & Eq).
  { destruct (removed a' ret); destruct (specRound _ Q _ _ _ _) as [[[[w2 sp2] st3] id3] ca2] eqn:E2; injection E as _ <- _ _ <-;
      (eexists w2, sp2, _, _, _, st3, id3, ca2; split; [exact E2|]; split; [done|]); cbn [queues]; [by rewrite restOf_app|done]. }
  destruct (IH _ _ _ _ _ _ _ _ _ _ E2 HQ) as (new & -> & Hok & Hsub & Hord). exists ((a, a', ret) :: new). rewrite Eq. split; [by rewrite <- app_assoc|].
  assert (placeOf (a :: q) ∉ placeOf <$> queues sp2) as Hn2 by (intros Hin; by apply Hnq, Hsub).
  assert (forall x, x = (if removed a' ret then restOf q else [a' :: q]) -> x = [] \/ exists y, x = [y] /\ queueOk y /\ placeOf y = placeOf (a :: q)) as Hx.
  { intros x ->. destruct (removed a' ret); [destruct q as [|b q]; [by left|]|]; right; eexists; (split; [done|]); [by apply Hq2|by rewrite Epl]. }
  set (x := if removed a' ret then restOf q else [a' :: q]) in *. split_and!.
  - destruct (Hx x eq_refl) as [->|(y & -> & Hy1 & Hy2)]; [done|]. cbn [app]. apply specOk_cons. by rewrite Hy2.
  - intros c. rewrite fmap_app, elem_of_app, fmap_cons, elem_of_cons. intros [Hc|Hc]; [left|right; by apply Hsub].
    destruct (Hx x eq_refl) as [Ex|(y & Ex & Hy1 & Hy2)]; rewrite Ex in Hc; [by apply not_elem_of_nil in Hc|]. apply list_elem_of_singleton in Hc as ->. done.
  - intros c. cbn [concat]. rewrite forPlace_app, concat_app, forPlace_app. assert (concat x = (if removed a' ret then q else a' :: q)) as Ecx.
    { unfold x. destruct (removed a' ret); [by destruct q; cbn; rewrite ?app_nil_r|cbn; by rewrite app_nil_r]. }
    change (doneOf ((a, a', ret) :: new)) with (match (if removed a' ret then Some a' else None) with Some b => b :: doneOf new | None => doneOf new end).
    specialize (Hord c). destruct (decide (placeOf (a :: q) = Some c)) as [Ec|Ec].
    + rewrite (forPlace_none c Q), (forPlace_none c (queues sp2)) in * by (apply HQ || apply Hok || congruence). apply Forall2_nil_inv_l in Hord. apply app_eq_nil in Hord as [Hd _].
      rewrite (forPlace_in c (a :: q) Hq Ec), !app_nil_r, Ecx. pose proof (forPlace_in c (a' :: q) Hq1 ltac:(congruence)) as E1. unfold forPlace in E1, Hd |- *.
      destruct (removed a' ret).
      * rewrite filter_cons_True by (injection Ec as <-; by destruct Hs as [<- _]). rewrite Hd. cbn [app]. rewrite filter_cons_True in E1 by (injection Ec as <-; by destruct Hs as [<- _]).
        injection E1 as E1. rewrite E1. constructor; [done|apply Forall2_same_refl].
      * rewrite Hd, E1. cbn [app]. constructor; [done|apply Forall2_same_refl].
    + rewrite (forPlace_out c (a :: q) Hq Ec). pose proof (forPlace_out c (a' :: q) Hq1 ltac:(congruence)) as E1. cbn [app]. rewrite Ecx.
      assert (a_proxyAppendPtr a' <> c) as Hac by (cbn in Ec; destruct Hs as [<- _]; congruence). unfold forPlace in *. rewrite filter_cons_False in E1 by done.
      destruct (removed a' ret); rewrite ?filter_cons_False, E1 by done; done.
Qed.

Lemma specOk_mid Q1 q Q2 : specOk (Q1 ++ q :: Q2) <-> queueOk q /\ (placeOf q ∉ placeOf <$> (Q1 ++ Q2)) /\ specOk (Q1 ++ Q2).
Proof. unfold specOk. rewrite <- (Permutation_middle Q1 Q2 q). by rewrite Forall_cons, fmap_cons, NoDup_cons; tauto. Qed.

Lemma forPlace_mid Q1 q Q2 c : specOk (Q1 ++ q :: Q2) -> forPlace c (concat (Q1 ++ q :: Q2)) = if decide (placeOf q = Some c) then q else forPlace c (concat (Q1 ++ Q2)).
Proof.
  intros (Hq & Hn & [HF _])%specOk_mid. apply Forall_app in HF as [HF1 HF2]. rewrite fmap_app, elem_of_app in Hn. rewrite !concat_app. cbn [concat]. rewrite !forPlace_app.
  destruct (decide _) as [E|E].
  - rewrite E in Hn. rewrite (forPlace_none c Q1), (forPlace_none c Q2), (forPlace_in c q Hq E) by (done || tauto). cbn. by rewrite app_nil_r.
  - by rewrite (forPlace_out c q Hq E).
Qed.

Lemma ncclProxyOpToArgs_join op a a' : ncclProxyOpToArgs op a (length (subs a)) = (a', ncclSuccess) -> subs a <> [] -> subs a' = subs a ++ [op].
Proof.
  unfold ncclProxyOpToArgs. intros E Hn. destruct (_ <=? _)%nat; [done|]. destruct (Nat.eqb_spec (length (subs a)) 0); [by destruct (subs a)|]. cbn [negb] in E.
  destruct (_ || _); [done|]. destruct (decide _); [done|]. injection E as <-. cbn. by rewrite firstn_all.
Qed.

Lemma newArgs_ok op : queueOk [newArgs op].
Proof. split; [done|]. by intros a ->%list_elem_of_singleton. Qed.

(** An operation comes last at its place. *)
Lemma specAppend_order op sp sp' : specAppend op sp = (sp', ncclSuccess) -> specOk (queues sp) ->
  specOk (queues sp') /\ forall c,
    let before := forPlace c (concat (queues sp)) in
    let after := forPlace c (concat (queues sp')) in
    if decide (proxyAppendPtr (connection op) = c)
    then after = before ++ [newArgs op] \/ exists l a a', before = l ++ [a] /\ after = l ++ [a'] /\ subs a' = subs a ++ [op]
    else after = before.
Proof.
  unfold specAppend. intros E HQ. destruct (list_find _ _) as [[i q]|] eqn:Ef.
  - apply list_find_Some in Ef as (Hi & Hp & _). rewrite <- (take_drop_middle _ _ _ Hi) in E, HQ |- *. apply lookup_lt_Some in Hi. set (Q1 := take i (queues sp)) in *. set (Q2 := drop (S i) (queues sp)) in *.
    assert (i = length Q1) as Ei by (unfold Q1; rewrite length_take; lia).
    assert (forall q', queueOk q' -> placeOf q' = placeOf q -> specOk (Q1 ++ q' :: Q2) /\ forall c, let before := forPlace c (concat (Q1 ++ q :: Q2)) in let after := forPlace c (concat (Q1 ++ q' :: Q2)) in
      if decide (proxyAppendPtr (connection op) = c) then before = q /\ after = q' else after = before) as Hrep.
    { intros q' Hq' Ep. assert (specOk (Q1 ++ q' :: Q2)) as HQ' by (apply specOk_mid; apply specOk_mid in HQ as (_ & Hn & HQ); by rewrite Ep). split; [done|]. intros c. cbn zeta.
      rewrite (forPlace_mid _ _ _ c HQ), (forPlace_mid _ _ _ c HQ'), Ep, Hp. destruct (decide (proxyAppendPtr (connection op) = c)) as [->|Hne]; [by rewrite !decide_True by done|by rewrite !decide_False by congruence]. }
    apply specOk_mid in HQ as (Hq & _ & _). destruct (last q) as [a|] eqn:El; [|done]. apply last_Some in El as [l ->]. rewrite removelast_last in E.
    assert (a ∈ l ++ [a]) as Ha by (apply elem_of_app; right; by left). assert (forall x, placeOf (l ++ [a]) = Some (a_proxyAppendPtr x) -> placeOf (l ++ [x]) = placeOf (l ++ [a])) as Hpl.
    { intros x Hx. destruct l; [by rewrite Hx|done]. }
    assert (forall Q v, <[i := v]> (Q1 ++ Q :: Q2) = Q1 ++ v :: Q2) as Hins by (intros Q v; rewrite Ei; by rewrite insert_app_r_alt, Nat.sub_diag by lia). 
    destruct (shared (connection op) && _).
    + destruct (ncclProxyOpToArgs op a _) as [a' r] eqn:Et. injection E as <- ->. destruct (proj2 Hq a Ha) as [Epa Hsub]. destruct (ncclProxyOpToArgs_state _ _ _ _ Et Hsub) as (E1 & _ & E3).
      assert (placeOf (l ++ [a']) = placeOf (l ++ [a])) as Ep' by (apply Hpl; by rewrite E1).
      destruct (Hrep (l ++ [a'])) as [Hok Hc]; [|done|].
      { split; [by destruct l|]. rewrite Ep'. intros x [Hx|Hx]%elem_of_app; [apply Hq, elem_of_app; by left|]. apply list_elem_of_singleton in Hx as ->. by rewrite E1. }
      cbn [queues]. rewrite Hins. split; [done|]. intros c. specialize (Hc c). cbn zeta in *. destruct (decide _); [|done]. right. exists l, a, a'. destruct Hc as [-> ->]. split_and!; try done. by apply ncclProxyOpToArgs_join.
    + destruct (room sp) as [|n]; [done|]. injection E as <-. assert (placeOf ((l ++ [a]) ++ [newArgs op]) = placeOf (l ++ [a])) as Ep' by (by destruct l).
      destruct (Hrep ((l ++ [a]) ++ [newArgs op])) as [Hok Hc]; [|done|].
      { split; [by destruct l|]. rewrite Ep'. intros x [Hx|Hx]%elem_of_app; [by apply Hq|]. apply list_elem_of_singleton in Hx as ->. by rewrite Hp. }
      cbn [queues]. rewrite Hins. split; [done|]. intros c. specialize (Hc c). cbn zeta in *. destruct (decide _); [|done]. left. by destruct Hc as [-> ->].
  - apply list_find_None in Ef. rewrite Forall_forall in Ef. destruct (room sp) as [|n]; [done|]. injection E as <-. cbn [queues].
    assert (specOk (queues sp ++ [[newArgs op]])) as HQ'.
    { apply specOk_mid. rewrite app_nil_r. split; [apply newArgs_ok|]. split; [|done]. intros (q & Eq & Hq)%list_elem_of_fmap. apply (Ef q Hq). by rewrite <- Eq. }
    split; [done|]. intros c. cbn zeta. rewrite (forPlace_mid _ _ _ c HQ'), app_nil_r. cbn [placeOf head fmap option_fmap option_map newArgs a_proxyAppendPtr].
    destruct (decide (proxyAppendPtr (connection op) = c)) as [Ec|Hne]; [rewrite decide_True by congruence|by rewrite decide_False by congruence].
    left. rewrite forPlace_none; [done|apply HQ|]. intros (q & Eq & Hq)%list_elem_of_fmap. apply (Ef q Hq). by rewrite <- Eq, Ec.
Qed.

(** The groups of operations for each place, in their order. *)
Definition ordered (evs : list event) (objects : list ncclProxyArgs) : Prop :=
  forall c, exists groups, concat groups = opsFor c evs /\ Forall2 (fun g a => g ≡ₚ subs a) groups (forPlace c objects).

Lemma groups_same groups l l' : Forall2 (fun g a => g ≡ₚ subs a) groups l -> Forall2 same l l' -> Forall2 (fun g a => g ≡ₚ subs a) groups l'.
Proof.
  intros HF. revert l'. induction HF as [|g a groups l Hg HF IH]; intros l' Hs; [apply Forall2_nil_inv_l in Hs as ->; constructor|].
  apply Forall2_cons_inv_l in Hs as (b & l2 & [_ Hab] & Hs & ->). constructor; [by rewrite Hg|by apply IH].
Qed.

Lemma ordered_append evs op log sp sp' : ordered evs (log ++ concat (queues sp)) -> specOk (queues sp) -> specAppend op sp = (sp', ncclSuccess) ->
  ordered (evs ++ [Append op]) (log ++ concat (queues sp')).
Proof.
  intros Hord HQ E c. destruct (specAppend_order _ _ _ E HQ) as [_ Hc]. specialize (Hc c). cbn zeta in Hc. destruct (Hord c) as (groups & Eg & HF). rewrite forPlace_app in HF.
  unfold opsFor. rewrite omap_app. cbn [omap list_omap]. fold (opsFor c evs). rewrite forPlace_app. destruct (decide (proxyAppendPtr (connection op) = c)) as [Ec|Ec].
  - destruct Hc as [->|(l & a & a' & El & -> & Es)].
    + exists (groups ++ [[op]]). rewrite concat_app, Eg. split; [done|]. rewrite app_assoc. apply Forall2_app; [done|]. by constructor.
    + rewrite El, app_assoc in HF. apply Forall2_app_inv_r in HF as (g1 & g2 & HF1 & HF2 & ->). apply Forall2_cons_inv_r in HF2 as (g & g3 & Hg & Hn & ->). apply Forall2_nil_inv_r in Hn as ->.
      exists (g1 ++ [g ++ [op]]). rewrite concat_app in *. cbn [concat] in *. rewrite app_nil_r in *. rewrite <- Eg, app_assoc. split; [done|]. rewrite app_assoc. apply Forall2_app; [done|].
      constructor; [|done]. by rewrite Es, Hg.
  - exists groups. rewrite Hc, app_nil_r. done.
Qed.

Lemma ordered_round evs log sp w status idle calls w' sp' n : ordered evs (log ++ concat (queues sp)) -> specOk (queues sp) ->
  specRound w (queues sp) n ncclSuccess true [] = (w', sp', status, idle, calls) -> specOk (queues sp') /\ ordered (evs ++ [Round]) ((log ++ doneOf calls) ++ concat (queues sp')).
Proof.
  intros Hord HQ E. destruct (specRound_order _ _ _ _ _ _ _ _ _ _ _ E HQ) as (new & -> & HQ' & _ & Hc). split; [done|]. intros c. destruct (Hord c) as (groups & Eg & HF). exists groups.
  unfold opsFor. rewrite omap_app. cbn [omap list_omap]. fold (opsFor c evs). rewrite app_nil_r. split; [done|]. cbn [app]. rewrite <- app_assoc. rewrite forPlace_app in HF |- *.
  apply Forall2_app_inv_r in HF as (g1 & g2 & HF1 & HF2 & ->). apply Forall2_app; [done|]. rewrite forPlace_app. specialize (Hc c).
  by eapply groups_same.
Qed.

Lemma runSpec_ordered evs : forall evs0 log w sp w' sp' outs, runSpec evs w sp = (w', sp', outs) -> allAppended outs -> specOk (queues sp) ->
  ordered evs0 (log ++ concat (queues sp)) -> ordered (evs0 ++ evs) ((log ++ finishedOf outs) ++ concat (queues sp')).
Proof.
  induction evs as [|ev evs IH]; intros evs0 log w sp w' sp' outs E Hall HQ Hord.
  { injection E as _ <- <-. by rewrite !app_nil_r. }
  destruct ev as [op|]; cbn [runSpec] in E.
  - destruct (specAppend op sp) as [sp1 r] eqn:Ea. destruct (runSpec evs w sp1) as [[w2 sp2] outs2] eqn:Er. injection E as _ <- <-. apply Forall_cons in Hall as [-> Hall].
    destruct (specAppend_order _ _ _ Ea HQ) as [HQ1 _]. pose proof (ordered_append _ _ _ _ _ Hord HQ Ea) as Hord1.
    specialize (IH _ _ _ _ _ _ _ Er Hall HQ1 Hord1). by rewrite <- app_assoc in IH.
  - destruct (specRound w (queues sp) (room sp) ncclSuccess true []) as [[[[w1 sp1] st] id] ca] eqn:Es. destruct (runSpec evs w1 sp1) as [[w2 sp2] outs2] eqn:Er. injection E as _ <- <-. apply Forall_cons in Hall as [_ Hall].
    destruct (ordered_round _ _ _ _ _ _ _ _ _ _ Hord HQ Es) as [HQ1 Hord1]. specialize (IH _ _ _ _ _ _ _ Er Hall HQ1 Hord1). rewrite <- app_assoc in IH. cbn [finishedOf fmap list_fmap concat].
    by rewrite <- (app_assoc log) in IH.
Qed.

(** ** Properties *)

(** C22: The links of the objects implement a list of queues: in every sequence of
    operations appended and rounds of progress, no walk runs out or follows a null
    pointer, every call returns what the queues return and calls the progress functions
    for the same objects in the same order (each active object once in a round), and
    the links always hold exactly the objects of the queues.  An append fails only for
    want of memory, or when the operation does not fit the object it joins. *)
Theorem proxy_active_refines a fuel evs w n : (length evs < fuel)%nat ->
  exists w' s sp outs, run fuel evs w (initState a n) = Some (w', s, outs) /\ runSpec evs w (Spec [] (n * allocateSize)) = (w', sp, outs) /\
    activeQueues fuel s = Some (queues sp).
Proof.
  intros Hf. destruct (run_rep fuel evs w _ _ _ (rep_init a n)) as (s' & L' & F' & w' & sp & outs & E1 & E2 & H' & -> & Hn); [cbn; lia|].
  exists w', s', (absOf s' L' F'), outs. split; [done|]. split; [done|]. apply (activeQueues_rep _ _ _ _ H'). change (inUse (absOf (initState a n) [] [])) with 0%nat in Hn. lia.
Qed.

(** C23: Operations are worked on in the order they arrive.  When all appends succeed,
    the operations appended at each place, in their order, are cut into groups: first
    the operations of the objects done so far, in the order they were done, then those
    of the objects in the lists; none is lost, repeated or overtaken. *)
Theorem proxy_active_order a fuel evs w n w' s outs Q : (length evs < fuel)%nat -> run fuel evs w (initState a n) = Some (w', s, outs) -> allAppended outs ->
  activeQueues fuel s = Some Q -> ordered evs (finishedOf outs ++ concat Q).
Proof.
  intros Hf E Hall EQ. destruct (run_rep fuel evs w _ _ _ (rep_init a n)) as (s' & L' & F' & w2 & sp & outs2 & E1 & E2 & H' & -> & Hn); [cbn; lia|].
  change (inUse (absOf (initState a n) [] [])) with 0%nat in Hn. rewrite E in E1. injection E1 as <- <- <-. rewrite (activeQueues_rep _ _ _ fuel H') in EQ by lia. injection EQ as <-.
  apply (runSpec_ordered evs [] [] w (absOf (initState a n) [] []) w' (absOf s L' F') outs E2 Hall); [split; constructor|].
  intros c. by exists [].
Qed.

End proxy.

(** ** An example *)

(** A progress function that finishes an object with its second call. *)
Definition advance (w : nat) (a : ncclProxyArgs) : nat * ncclProxyArgs * bool * ncclResult_t :=
  (S w, {| subs := subs a; a_done := a_done a; a_opCount := a_opCount a; a_sliceSteps := a_sliceSteps a; a_chunkSteps := a_chunkSteps a;
           a_protocol := a_protocol a; a_dtype := a_dtype a; a_redOp := a_redOp a; a_coll := a_coll a; a_nChannels := a_nChannels a; a_nPeers := a_nPeers a;
           a_state := if decide (a_state a = ncclProxyOpReady) then ncclProxyOpProgress else ncclProxyOpNone; a_proxyAppendPtr := a_proxyAppendPtr a |}, false, ncclSuccess).

Lemma advance_keeps w a w' a' idle r : advance w a = (w', a', idle, r) -> a_proxyAppendPtr a' = a_proxyAppendPtr a /\ subs a' ≡ₚ subs a.
Proof. by intros [= _ <- _ _]. Qed.

Definition exampleOp (place count data : Z) : ncclProxyOp :=
  {| connection := {| shared := true; proxyAppendPtr := place |}; opCount := count; sliceSteps := 1; chunkSteps := 1; protocol := 2; dtype := 0; redOp := 0; coll := 0;
     nChannels := 1; nPeers := 1; opData := data |}.

(** Two operations that are put together, one that waits behind them, and one at another
    place; then rounds in which objects are done and reused. *)
Definition exampleEvents : list event :=
  [Append (exampleOp 1 7 10); Append (exampleOp 1 7 11); Append (exampleOp 2 7 12); Append (exampleOp 1 8 13); Round; Round; Append (exampleOp 2 9 14); Round].

Local Abbreviation exampleRun := (run 2 advance 20 exampleEvents 0%nat (initState (newArgs (exampleOp 0 0 0)) 3)).

(** What is done, and what is left. *)
Definition exampleResult : option (list (list Z) * list (list (list Z))) :=
  match exampleRun with
  | Some (_, s, outs) =>
      match activeQueues 20 s with
      | Some Q => Some (map (fun a => map opData (subs a)) (finishedOf outs), map (map (fun a => map opData (subs a))) Q)
      | None => None
      end
  | None => None
  end.

Lemma proxy_active_refines_witness :
  exampleResult = Some ([[10; 11]; [12]], [[[13]]; [[14]]]) /\
  exists w' s sp outs, exampleRun = Some (w', s, outs) /\ runSpec advance exampleEvents 0%nat (Spec [] 6) = (w', sp, outs) /\ activeQueues 20 s = Some (queues sp).
Proof.
  split; [vm_compute; reflexivity|].
  apply (proxy_active_refines 2 advance ltac:(lia) advance_keeps (newArgs (exampleOp 0 0 0)) 20 exampleEvents 0%nat 3). cbn. lia.
Defined.

Lemma proxy_active_order_witness : exists w' s outs Q, exampleRun = Some (w', s, outs) /\ activeQueues 20 s = Some Q /\ ordered exampleEvents (finishedOf outs ++ concat Q).
Proof.
  assert (match exampleRun with Some (_, s, outs) => forallb (fun o => match o with Appended r => bool_decide (r = ncclSuccess) | _ => true end) outs && bool_decide (is_Some (activeQueues 20 s)) | None => false end = true) as Hc
    by (vm_compute; reflexivity).
  destruct exampleRun as [[[w' s] outs]|] eqn:E; [|discriminate Hc]. apply andb_prop in Hc as [Hall HQ]. apply bool_decide_eq_true in HQ as [Q EQ].
  exists w', s, outs, Q. split; [reflexivity|]. split; [exact EQ|].
  assert (length exampleEvents < 20)%nat as Hlen by (cbn; lia).
  assert (allAppended outs) as HA. { apply Forall_forall. intros o Ho. apply list_elem_of_In in Ho. pose proof (proj1 (forallb_forall _ _) Hall o Ho) as Hr. cbn in Hr. destruct o; [by apply bool_decide_eq_true in Hr|exact I]. }
  exact (proxy_active_order 2 advance ltac:(lia) advance_keeps (newArgs (exampleOp 0 0 0)) 20 exampleEvents 0%nat 3 w' s outs Q Hlen E HA EQ).
Defined.
