(* ===== verification/NetProxy.v ===== *)
(** * A connection over the network (src/src/transport/net.cc)

    Between two machines the blocks of two kernels are connected through two proxy
    threads and a network.  The block of the sender waits for credit, writes a slice
    into a buffer, its size into a FIFO, and moves the tail; the proxy of the sender
    sees the tail and gives the buffer to the network; the proxy of the receiver
    posts buffers to the network, and moves the tail of its side when one is filled;
    the block of the receiver reads the slice and moves the head, which lets its
    proxy post the buffer again.  This file models the four threads, access by
    access, for the Simple protocol with buffers that are not registered, in both
    modes: buffers of the connection, and buffers the connections of a channel share,
    whose places the proxies pass along in the FIFO.

    The network is a plugin; of it the model has what the interface documents
    (src/src/include/plugin/net/net_v12.h): a send or receive can be refused, messages
    arrive in the order they are sent in the buffers in the order they are posted, and
    a request is complete when its message has arrived.  Groups of receives,
    [irecvConsumed] and the profiler are not modelled.  Memory is sequentially
    consistent. *)

From stdpp Require Import base numbers list sets relations.
From Stdlib Require Import ZArith Lia.
From S2P Require Import Prelude Bitops.

Local Open Scope Z_scope.

(** ** Memory *)

Definition put {A} (f : Z -> A) (k : Z) (v : A) : Z -> A := fun x => if x =? k then v else f x.

Definition readMem {V} (mem : Z -> V) (p : Z) (n : nat) : list V := (fun i : nat => mem (p + Z.of_nat i)) <$> seq 0 n.

Definition writeMem {V} (mem : Z -> V) (p : Z) (l : list V) : Z -> V :=
  fun x => match (if p <=? x then l !! Z.to_nat (x - p) else None) with Some v => v | None => mem x end.

(** ** Operations *)

(* src/src/include/device.h:26-26 NCCL_STEPS *)
Definition NCCL_STEPS : Z := 8.
(* src/src/transport/net.cc:670-670 NCCL_SHARED_STEPS *)
Definition NCCL_SHARED_STEPS : Z := 16.

(** An operation on the connection: the slices of the sender, and what the proxies
    know: steps, steps of a slice and of a chunk, and for each of the two proxies the
    number of connections it handles together and the index of this one. *)
(* src/src/include/proxy.h:174-182 ncclProxyArgs *)
Record netOp (V : Type) := {
  nsteps : Z;
  sliceSteps : Z;
  chunkSteps : Z;
  slices : list (list V);
  sendSubs : Z;
  sendIndex : Z;
  recvSubs : Z;
  recvIndex : Z }.
Arguments nsteps {V} _.
Arguments sliceSteps {V} _.
Arguments chunkSteps {V} _.
Arguments slices {V} _.
Arguments sendSubs {V} _.
Arguments sendIndex {V} _.
Arguments recvSubs {V} _.
Arguments recvIndex {V} _.

(* src/src/transport/net.cc:1350-1350 sendProxyProgress *)
Definition maxDepth (nsubs : Z) : Z := Z.min NCCL_STEPS (Z.quot NCCL_SHARED_STEPS nsubs).

(** The first step of an operation, after the steps before it. *)
(* src/src/include/bitops.h:53-55 ROUNDUP *)
Definition ROUNDUP (x y : Z) : Z := wrap64 (Z.quot (wrap64 (wrap64 (x + y) - 1)) y * y).

Section connection.

Context {V : Type}.
(** The operations in their order, the mode, the sizes of buffers, the channel, and
    whether data must be flushed to the device. *)
Context (ops : list (netOp V)) (shared : bool) (stepSize p2pChunkSize channelId : Z) (needFlush : bool).

(* src/src/transport/net.cc:711-718 sharedBuffersGet *)
Definition sharedBuffersGet (slot : Z) : Z := p2pChunkSize * (channelId * NCCL_SHARED_STEPS + slot).

(** One side of the connection: [sendMem->head], [recvMem->tail], the sizes and
    offsets of [connFifo], and the buffers. *)
(* src/src/include/comm.h:59-83 ncclSendMem *)
Record connMem := ConnMem {
  head : Z;
  tail : Z;
  fifoSize : Z -> Z;
  fifoOffset : Z -> Z;
  buff : Z -> V }.

Definition setHead (v : Z) (m : connMem) : connMem := ConnMem v (tail m) (fifoSize m) (fifoOffset m) (buff m).
Definition setTail (v : Z) (m : connMem) : connMem := ConnMem (head m) v (fifoSize m) (fifoOffset m) (buff m).
Definition setSize (slot v : Z) (m : connMem) : connMem := ConnMem (head m) (tail m) (put (fifoSize m) slot v) (fifoOffset m) (buff m).
Definition setOffset (slot v : Z) (m : connMem) : connMem := ConnMem (head m) (tail m) (fifoSize m) (put (fifoOffset m) slot v) (buff m).
Definition setBuff (p : Z) (l : list V) (m : connMem) : connMem := ConnMem (head m) (tail m) (fifoSize m) (fifoOffset m) (writeMem (buff m) p l).

(** ** The kernels *)

Inductive gpuSendPc :=
  | GSLoad
  | GSWait
  | GSSize
  | GSPtr
  | GSData (ptr : Z)
  | GSPost.

Record gpuSend := GpuSend {
  gs_op : nat;
  gs_slice : nat;
  gs_step : Z;
  gs_cache : Z;
  gs_pc : gpuSendPc }.

(** The block that sends: [loadSendConn] at the start of an operation, then for each
    slice [waitPeer], the copy and [postPeer].  [None]: all operations are done. *)
(* src/src/device/prims_simple.h:101-175 waitPeer *)
Definition gpuSendStep (m : connMem) (g : gpuSend) : option (connMem * gpuSend) :=
  op ← ops !! gs_op g;
  let step := gs_step g in
  let slot := step mod NCCL_STEPS in
  let goto pc := GpuSend (gs_op g) (gs_slice g) step (gs_cache g) pc in
  match gs_pc g with
  | GSLoad => Some (m, GpuSend (gs_op g) 0 (roundUp u64 step (chunkSteps op)) (head m) GSWait)
  | GSWait =>
      match slices op !! gs_slice g with
      | None => Some (m, GpuSend (S (gs_op g)) 0 step (gs_cache g) GSLoad)
      | Some _ =>
          if wrap64 (gs_cache g + NCCL_STEPS) <? wrap64 (step + sliceSteps op)
          then Some (m, GpuSend (gs_op g) (gs_slice g) step (head m) GSWait)
          else Some (m, goto GSSize)
      end
  | GSSize =>
      data ← slices op !! gs_slice g;
      Some (setSize slot (Z.of_nat (length data)) m, goto GSPtr)
  | GSPtr => Some (m, goto (GSData (if shared then fifoOffset m slot else slot * stepSize)))
  | GSData ptr =>
      data ← slices op !! gs_slice g;
      Some (setBuff ptr data m, goto GSPost)
  | GSPost =>
      let step := wrap64 (step + sliceSteps op) in
      Some (setTail step m, GpuSend (gs_op g) (S (gs_slice g)) step (gs_cache g) GSWait)
  end.

Inductive gpuRecvPc :=
  | GRLoad
  | GRCache
  | GRWait
  | GRPtr
  | GRData (ptr : Z)
  | GRPost.

Record gpuRecv := GpuRecv {
  gr_op : nat;
  gr_slice : nat;
  gr_step : Z;
  gr_cache : Z;
  gr_pc : gpuRecvPc;
  gr_out : list (list V) }.

(** The block that receives: [loadRecvConn], which returns the credits of the steps
    rounded over, then for each slice [waitPeer], the copy and [postPeer].  [gr_out] is
    what it has read. *)
(* src/src/device/prims_simple.h:101-175 waitPeer *)
Definition gpuRecvStep (m : connMem) (g : gpuRecv) : option (connMem * gpuRecv) :=
  op ← ops !! gr_op g;
  let step := gr_step g in
  let slot := step mod NCCL_STEPS in
  let goto pc := GpuRecv (gr_op g) (gr_slice g) step (gr_cache g) pc (gr_out g) in
  match gr_pc g with
  | GRLoad =>
      let step := roundUp u64 step (chunkSteps op) in
      Some (setHead step m, GpuRecv (gr_op g) 0 step (gr_cache g) GRCache (gr_out g))
  | GRCache => Some (m, GpuRecv (gr_op g) (gr_slice g) step (tail m) GRWait (gr_out g))
  | GRWait =>
      match slices op !! gr_slice g with
      | None => Some (m, GpuRecv (S (gr_op g)) 0 step (gr_cache g) GRLoad (gr_out g))
      | Some _ =>
          if gr_cache g <? wrap64 (step + sliceSteps op)
          then Some (m, GpuRecv (gr_op g) (gr_slice g) step (tail m) GRWait (gr_out g))
          else Some (m, goto GRPtr)
      end
  | GRPtr => Some (m, goto (GRData (if shared then fifoOffset m slot else slot * stepSize)))
  | GRData ptr =>
      data ← slices op !! gr_slice g;
      Some (m, GpuRecv (gr_op g) (gr_slice g) step (gr_cache g) GRPost (gr_out g ++ [readMem (buff m) ptr (length data)]))
  | GRPost =>
      let step := wrap64 (step + sliceSteps op) in
      Some (setHead step m, GpuRecv (gr_op g) (S (gr_slice g)) step (gr_cache g) GRWait (gr_out g))
  end.

(** ** The network *)

(** The messages sent and the buffers posted, with their sizes, and how many messages
    have arrived.  A request is the number of its message. *)
Record network := Network {
  outbox : list (Z * Z);
  inbox : list (Z * Z);
  delivered : nat }.

(** The next message arrives, if a buffer of sufficient size is posted for it. *)
Definition netDeliver (s r : connMem) (nw : network) : option (connMem * network) :=
  '(p, size) ← outbox nw !! delivered nw;
  '(q, room) ← inbox nw !! delivered nw;
  if size <=? room
  then Some (setBuff q (readMem (buff s) p (Z.to_nat size)) r, Network (outbox nw) (inbox nw) (S (delivered nw)))
  else None.

(** [test] of a request; it can report completion late. *)
Definition netTest (nw : network) (answer : bool) (request : nat) : bool := answer && (request <? delivered nw)%nat.

(** ** The proxy of the sender *)

Inductive sendPc :=
  | SPStart
  | SPLoop
  | SPPost
  | SPSize
  | SPTail
  | SPSend
  | SPTest
  | SPAck.

(* src/src/include/proxy.h:148-156 ncclProxySubArgs *)
Record sendProxy := SendProxy {
  sp_op : nat;
  sp_step : Z;
  sp_base : Z;
  sp_posted : Z;
  sp_transmitted : Z;
  sp_done : Z;
  sp_requests : Z -> option nat;
  sp_pc : sendPc }.

Definition spGoto (pc : sendPc) (p : sendProxy) : sendProxy :=
  SendProxy (sp_op p) (sp_step p) (sp_base p) (sp_posted p) (sp_transmitted p) (sp_done p) (sp_requests p) pc.

(** One access of the proxy; [answer] is what the network answers to a call.  The
    operation after the last one waits for ever. *)
(* src/src/transport/net.cc:1331-1500 sendProxyProgress *)
Definition sendProxyStep (answer : bool) (m : connMem) (nw : network) (p : sendProxy) : option (connMem * network * sendProxy) :=
  op ← ops !! sp_op p;
  let base := sp_base p in
  let depth := maxDepth (sendSubs op) in
  match sp_pc p with
  | SPStart =>
      let base := ROUNDUP (sp_step p) (chunkSteps op) in
      Some (m, nw, SendProxy (sp_op p) (wrap64 (base + nsteps op)) base 0 0 0 (sp_requests p) SPLoop)
  | SPLoop =>
      if sp_done p =? nsteps op then Some (m, nw, SendProxy (S (sp_op p)) (sp_step p) base 0 0 0 (sp_requests p) SPStart)
      else if (sp_posted p <? nsteps op) && (sp_posted p <? sp_done p + depth) then
        if shared then
          Some (setOffset ((base + sp_posted p) mod NCCL_STEPS) (sharedBuffersGet (sp_posted p mod depth * sendSubs op + sendIndex op)) m, nw, spGoto SPPost p)
        else Some (m, nw, SendProxy (sp_op p) (sp_step p) base (sp_posted p + sliceSteps op) (sp_transmitted p) (sp_done p) (sp_requests p) SPLoop)
      else if (sp_transmitted p <? sp_posted p) && (sp_transmitted p <? sp_done p + NCCL_STEPS) then Some (m, nw, spGoto SPSize p)
      else Some (m, nw, spGoto SPTest p)
  | SPPost =>
      let posted := sp_posted p + sliceSteps op in
      Some (setHead (wrap64 (base + posted - NCCL_STEPS)) m, nw,
            SendProxy (sp_op p) (sp_step p) base posted (sp_transmitted p) (sp_done p) (sp_requests p) SPLoop)
  | SPSize =>
      let slot := (base + sp_transmitted p) mod NCCL_STEPS in
      Some (m, nw, spGoto (if fifoSize m slot =? -1 then SPTest else SPTail) p)
  | SPTail => Some (m, nw, spGoto (if base + sp_transmitted p <? tail m then SPSend else SPTest) p)
  | SPSend =>
      let slot := (base + sp_transmitted p) mod NCCL_STEPS in
      let ptr := if shared then fifoOffset m slot else slot * stepSize in
      if answer then
        Some (m, Network (outbox nw ++ [(ptr, fifoSize m slot)]) (inbox nw) (delivered nw),
              SendProxy (sp_op p) (sp_step p) base (sp_posted p) (sp_transmitted p + sliceSteps op) (sp_done p)
                (put (sp_requests p) slot (Some (length (outbox nw)))) SPLoop)
      else
        Some (m, nw, SendProxy (sp_op p) (sp_step p) base (sp_posted p) (sp_transmitted p) (sp_done p) (put (sp_requests p) slot None) SPTest)
  | SPTest =>
      if sp_done p <? sp_transmitted p then
        let slot := (base + sp_done p) mod NCCL_STEPS in
        request ← sp_requests p slot;
        if netTest nw answer request then Some (setSize slot (-1) m, nw, spGoto SPAck p) else Some (m, nw, spGoto SPLoop p)
      else Some (m, nw, spGoto SPLoop p)
  | SPAck =>
      let done := sp_done p + sliceSteps op in
      Some (if shared then m else setHead (wrap64 (base + done)) m, nw,
            SendProxy (sp_op p) (sp_step p) base (sp_posted p) (sp_transmitted p) done (sp_requests p) SPLoop)
  end.

(** ** The proxy of the receiver *)

Inductive recvRequest :=
  | RecvRequest (i : nat)
  | FlushRequest.

Inductive recvPc :=
  | RPStart
  | RPPost
  | RPIrecv
  | RPTest
  | RPFlush (step size : Z)
  | RPForward
  | RPTail
  | RPHead
  | RPAck (head : Z).

(* src/src/include/proxy.h:148-156 ncclProxySubArgs *)
Record recvProxy := RecvProxy {
  rp_op : nat;
  rp_step : Z;
  rp_base : Z;
  rp_posted : Z;
  rp_received : Z;
  rp_transmitted : Z;
  rp_done : Z;
  rp_requests : Z -> option recvRequest;
  rp_pc : recvPc }.

Definition rpGoto (pc : recvPc) (p : recvProxy) : recvProxy :=
  RecvProxy (rp_op p) (rp_step p) (rp_base p) (rp_posted p) (rp_received p) (rp_transmitted p) (rp_done p) (rp_requests p) pc.

(** One access of the proxy.  Its four loops follow each other; after one that has
    made progress the proxy starts over. *)
(* src/src/transport/net.cc:1531-1796 recvProxyProgress *)
Definition recvProxyStep (answer : bool) (m : connMem) (nw : network) (p : recvProxy) : option (connMem * network * recvProxy) :=
  op ← ops !! rp_op p;
  let base := rp_base p in
  let depth := maxDepth (recvSubs op) in
  match rp_pc p with
  | RPStart =>
      let base := ROUNDUP (rp_step p) (chunkSteps op) in
      Some (m, nw, RecvProxy (rp_op p) (wrap64 (base + nsteps op)) base 0 0 0 0 (rp_requests p) RPPost)
  | RPPost =>
      if (rp_posted p <? nsteps op) && (rp_posted p <? rp_done p + depth) then
        Some (if shared
              then setOffset ((base + rp_posted p) mod NCCL_STEPS) (sharedBuffersGet (rp_posted p mod depth * recvSubs op + recvIndex op)) m
              else m, nw, rpGoto RPIrecv p)
      else Some (m, nw, rpGoto RPTest p)
  | RPIrecv =>
      let '(ptr, room) :=
        if shared then (sharedBuffersGet (rp_posted p mod depth * recvSubs op + recvIndex op), p2pChunkSize)
        else ((base + rp_posted p) mod NCCL_STEPS * stepSize, stepSize * sliceSteps op) in
      if answer then
        Some (m, Network (outbox nw) (inbox nw ++ [(ptr, room)]) (delivered nw),
              RecvProxy (rp_op p) (rp_step p) base (rp_posted p + sliceSteps op) (rp_received p) (rp_transmitted p) (rp_done p)
                (put (rp_requests p) (rp_posted p mod NCCL_STEPS) (Some (RecvRequest (length (inbox nw))))) RPPost)
      else
        Some (m, nw, RecvProxy (rp_op p) (rp_step p) base (rp_posted p) (rp_received p) (rp_transmitted p) (rp_done p)
                (put (rp_requests p) (rp_posted p mod NCCL_STEPS) None) RPTest)
  | RPTest =>
      if rp_received p <? rp_posted p then
        match rp_requests p (rp_received p mod NCCL_STEPS) with
        | Some (RecvRequest i) =>
            '(_, size) ← (if netTest nw answer i then outbox nw !! i else Some (0, 0));
            if netTest nw answer i then
              Some (setSize ((base + rp_received p) mod NCCL_STEPS) (-1) m, nw,
                    RecvProxy (rp_op p) (rp_step p) base (rp_posted p) (rp_received p + sliceSteps op) (rp_transmitted p) (rp_done p)
                      (put (rp_requests p) (rp_received p mod NCCL_STEPS) None) (RPFlush (rp_received p) size))
            else Some (m, nw, rpGoto RPForward p)
        | _ => None
        end
      else Some (m, nw, rpGoto RPForward p)
  | RPFlush step size =>
      if (0 <? size) && needFlush && answer
      then Some (m, nw, RecvProxy (rp_op p) (rp_step p) base (rp_posted p) (rp_received p) (rp_transmitted p) (rp_done p)
                   (put (rp_requests p) (step mod NCCL_STEPS) (Some FlushRequest)) RPPost)
      else Some (m, nw, rpGoto RPPost p)
  | RPForward =>
      if rp_transmitted p <? rp_received p then
        match rp_requests p (rp_transmitted p mod NCCL_STEPS) with
        | None => Some (m, nw, rpGoto RPTail p)
        | Some FlushRequest => Some (m, nw, rpGoto (if answer then RPTail else RPHead) p)
        | Some (RecvRequest i) => Some (m, nw, rpGoto (if netTest nw answer i then RPTail else RPHead) p)
        end
      else Some (m, nw, rpGoto RPHead p)
  | RPTail =>
      let transmitted := rp_transmitted p + sliceSteps op in
      Some (setTail (wrap64 (base + transmitted)) m, nw,
            RecvProxy (rp_op p) (rp_step p) base (rp_posted p) (rp_received p) transmitted (rp_done p) (rp_requests p) RPPost)
  | RPHead =>
      if rp_done p <? rp_transmitted p then Some (m, nw, rpGoto (RPAck (head m)) p) else Some (m, nw, rpGoto RPPost p)
  | RPAck h =>
      if (base + rp_done p <? h) && (rp_done p <? rp_transmitted p) then
        let done := rp_done p + sliceSteps op in
        if done =? nsteps op
        then Some (m, nw, RecvProxy (S (rp_op p)) (rp_step p) base 0 0 0 0 (rp_requests p) RPStart)
        else Some (m, nw, RecvProxy (rp_op p) (rp_step p) base (rp_posted p) (rp_received p) (rp_transmitted p) done (rp_requests p) (RPAck h))
      else Some (m, nw, rpGoto RPPost p)
  end.

(** ** The connection *)

Record netState := NetState {
  sMem : connMem;
  rMem : connMem;
  nw : network;
  gpuS : gpuSend;
  proxyS : sendProxy;
  proxyR : recvProxy;
  gpuR : gpuRecv }.

Inductive netStep (s : netState) : netState -> Prop :=
  | StepGpuSend m g : gpuSendStep (sMem s) (gpuS s) = Some (m, g) ->
      netStep s (NetState m (rMem s) (nw s) g (proxyS s) (proxyR s) (gpuR s))
  | StepSendProxy answer m n p : sendProxyStep answer (sMem s) (nw s) (proxyS s) = Some (m, n, p) ->
      netStep s (NetState m (rMem s) n (gpuS s) p (proxyR s) (gpuR s))
  | StepDeliver m n : netDeliver (sMem s) (rMem s) (nw s) = Some (m, n) ->
      netStep s (NetState (sMem s) m n (gpuS s) (proxyS s) (proxyR s) (gpuR s))
  | StepRecvProxy answer m n p : recvProxyStep answer (rMem s) (nw s) (proxyR s) = Some (m, n, p) ->
      netStep s (NetState (sMem s) m n (gpuS s) (proxyS s) p (gpuR s))
  | StepGpuRecv m g : gpuRecvStep (rMem s) (gpuR s) = Some (m, g) ->
      netStep s (NetState (sMem s) m (nw s) (gpuS s) (proxyS s) (proxyR s) g).

(** A new connection; the contents of the buffers are arbitrary. *)
(* src/src/transport/net.cc:1003-1009 sendProxyConnect *)
Definition initSend (b : Z -> V) : connMem := ConnMem (if shared then wrap64 (- NCCL_STEPS) else 0) 0 (fun _ => -1) (fun _ => -1) b.
(* src/src/transport/net.cc:1181-1183 recvProxyConnect *)
Definition initRecv (b : Z -> V) : connMem := ConnMem 0 0 (fun _ => -1) (fun _ => 0) b.

Definition initState (b b' : Z -> V) : netState := NetState (initSend b) (initRecv b') (Network [] [] 0)
  (GpuSend 0 0 0 0 GSLoad) (SendProxy 0 0 0 0 0 0 (fun _ => None) SPStart)
  (RecvProxy 0 0 0 0 0 0 0 (fun _ => None) RPStart) (GpuRecv 0 0 0 0 GRLoad []).

(** What the operations are like.  Slices fit their buffers, chunks have one, two or
    four steps and slices divide them; in the shared mode both have one step, and the
    connections a proxy handles together fit into the pool of the channel. *)
Record opOk (op : netOp V) : Prop := {
  ok_slices : slices op <> [];
  ok_nsteps : nsteps op = Z.of_nat (length (slices op)) * sliceSteps op;
  ok_slice : 0 < sliceSteps op;
  ok_divide : (sliceSteps op | chunkSteps op);
  ok_chunk : chunkSteps op = 1 \/ chunkSteps op = 2 \/ chunkSteps op = 4;
  ok_shared : shared = true -> chunkSteps op = 1;
  ok_data : forall d, d ∈ slices op -> Z.of_nat (length d) <= if shared then p2pChunkSize else stepSize * sliceSteps op;
  ok_send : 0 <= sendIndex op < sendSubs op /\ sendSubs op <= (if shared then NCCL_SHARED_STEPS else 1);
  ok_recv : 0 <= recvIndex op < recvSubs op /\ recvSubs op <= (if shared then NCCL_SHARED_STEPS else 1) }.

(** The step after some operations. *)
Definition endAfter (l : list (netOp V)) : Z := fold_left (fun step op => roundUpTo (chunkSteps op) step + nsteps op) l 0.

Arguments endAfter : simpl never.

Record opsOk : Prop := {
  oo_ops : Forall opOk ops;
  oo_steps : endAfter ops < 2 ^ 62;
  oo_stepSize : 0 < stepSize;
  oo_chunkSize : 0 < p2pChunkSize;
  oo_channel : 0 <= channelId }.

(** ** The slices in their order *)

Record slice := Slice {
  sl_op : nat;
  sl_index : nat;
  sl_netOp : netOp V;
  sl_base : Z;
  sl_data : list V }.

Definition sl_width (sl : slice) : Z := sliceSteps (sl_netOp sl).
Definition sl_rel (sl : slice) : Z := Z.of_nat (sl_index sl) * sl_width sl.
Definition sl_step (sl : slice) : Z := sl_base sl + sl_rel sl.
Definition sl_end (sl : slice) : Z := sl_step sl + sl_width sl.
Definition sl_slot (sl : slice) : Z := sl_step sl mod NCCL_STEPS.

Definition baseOf (j : nat) (op : netOp V) : Z := roundUpTo (chunkSteps op) (endAfter (take j ops)).

Definition opSlices (j : nat) (op : netOp V) : list slice := imap (fun k d => Slice j k op (baseOf j op) d) (slices op).

Definition all : list slice := concat (imap opSlices ops).

(** The number of slices before slice [k] of operation [j]. *)
Definition pos (j k : nat) : nat := (length (concat (slices <$> take j ops)) + k)%nat.

Arguments pos : simpl never.

(** The end of the slice before position [i]. *)
Definition endOf (i : nat) : Z := match i with O => 0 | S i => default 0 (sl_end <$> all !! i) end.

Lemma endAfter_S j op : ops !! j = Some op -> endAfter (take (S j) ops) = baseOf j op + nsteps op.
Proof. intros H. unfold endAfter, baseOf. rewrite (take_S_r _ _ _ H), fold_left_app. done. Qed.

Lemma pos_S j op : ops !! j = Some op -> pos (S j) 0 = pos j (length (slices op)).
Proof. intros H. unfold pos. rewrite (take_S_r _ _ _ H), fmap_app, concat_app, length_app. simpl. rewrite app_nil_r. lia. Qed.

Lemma lookup_concat {A} (l : list (list A)) j x k : l !! j = Some x -> (k < length x)%nat -> concat l !! (length (concat (take j l)) + k)%nat = x !! k.
Proof.
  revert j. induction l as [|y l IH]; intros j Hj Hk; [done|]. destruct j as [|j]; simpl in *.
  - injection Hj as ->. by rewrite lookup_app_l.
  - rewrite length_app, lookup_app_r by lia. rewrite <- (IH j Hj Hk). f_equal. lia.
Qed.

Lemma concat_lookup_inv {A} (l : list (list A)) i a : concat l !! i = Some a ->
  exists j x k, l !! j = Some x /\ x !! k = Some a /\ i = (length (concat (take j l)) + k)%nat.
Proof.
  revert i. induction l as [|y l IH]; intros i Hi; [done|]. simpl in Hi. apply lookup_app_Some in Hi as [Hi|[Hge Hi]].
  - exists 0%nat, y, i. done.
  - destruct (IH _ Hi) as (j & x & k & H1 & H2 & H3). exists (S j), x, k. simpl. rewrite length_app. split_and!; [done|done|lia].
Qed.

Lemma take_opSlices j : length (concat (take j (imap opSlices ops))) = length (concat (slices <$> take j ops)).
Proof.
  unfold opSlices. generalize baseOf. intros B. generalize ops. clear. intros l. revert j B. 
  assert (forall (f : nat -> netOp V -> list slice) l j, (forall n op, length (f n op) = length (slices op)) ->
    length (concat (take j (imap f l))) = length (concat (slices <$> take j l))) as H.
  { clear. intros f l. revert f. induction l as [|op l IH]; intros f j Hf; [by destruct j|]. destruct j as [|j]; [done|]. simpl.
    rewrite !length_app, Hf, IH; [done|]. intros n op'. apply Hf. }
  intros j B. apply H. intros n op. apply length_imap.
Qed.

Lemma all_lookup j op k d : ops !! j = Some op -> slices op !! k = Some d -> all !! pos j k = Some (Slice j k op (baseOf j op) d).
Proof.
  intros Hj Hk. assert (imap opSlices ops !! j = Some (opSlices j op)) as Hi by (by rewrite list_lookup_imap, Hj).
  assert (opSlices j op !! k = Some (Slice j k op (baseOf j op) d)) as Hs by (unfold opSlices; by rewrite list_lookup_imap, Hk).
  unfold all, pos. rewrite <- take_opSlices, (lookup_concat _ _ _ _ Hi); [done|]. by apply lookup_lt_Some in Hs.
Qed.

Lemma all_lookup_inv i sl : all !! i = Some sl ->
  ops !! sl_op sl = Some (sl_netOp sl) /\ slices (sl_netOp sl) !! sl_index sl = Some (sl_data sl) /\ sl_base sl = baseOf (sl_op sl) (sl_netOp sl) /\
  i = pos (sl_op sl) (sl_index sl).
Proof.
  unfold all. intros (j & x & k & H1 & H2 & ->)%concat_lookup_inv. rewrite take_opSlices.
  rewrite list_lookup_imap in H1. apply fmap_Some in H1 as (op & Hop & ->). unfold opSlices in H2. rewrite list_lookup_imap in H2.
  apply fmap_Some in H2 as (d & Hd & ->). done.
Qed.

Context (O : opsOk).

Lemma op_ok j op : ops !! j = Some op -> opOk op.
Proof. intros H. pose proof (oo_ops O) as HF. rewrite Forall_forall in HF. apply HF. by eapply list_elem_of_lookup_2. Qed.

Lemma op_width op : opOk op -> 1 <= sliceSteps op <= chunkSteps op /\ chunkSteps op <= 4 /\ (sliceSteps op | 8) /\ (chunkSteps op | 8) /\
  (shared = true -> sliceSteps op = 1).
Proof.
  intros K. pose proof (ok_slice _ K) as Hs. destruct (ok_divide _ K) as [q Hq]. pose proof (ok_chunk _ K) as Hc.
  assert (0 < q) by (destruct Hc as [E|[E|E]]; rewrite E in Hq; nia). assert (sliceSteps op <= chunkSteps op) by nia.
  split_and!; [lia|lia|lia| | |].
  - eapply Z.divide_trans; [exists q; exact Hq|]. destruct Hc as [-> | [-> | ->]]; [exists 8|exists 4|exists 2]; done.
  - destruct Hc as [-> | [-> | ->]]; [exists 8|exists 4|exists 2]; done.
  - intros E. pose proof (ok_shared _ K E). lia.
Qed.

Lemma op_nsteps op : opOk op -> 0 < nsteps op.
Proof. intros K. rewrite (ok_nsteps _ K). pose proof (ok_slice _ K). destruct (slices op) eqn:E; [by destruct (ok_slices _ K)|]. simpl length. nia. Qed.

Lemma base_spec j op : ops !! j = Some op -> endAfter (take j ops) <= baseOf j op < endAfter (take j ops) + chunkSteps op /\ (sliceSteps op | baseOf j op).
Proof.
  intros H. pose proof (op_ok _ _ H) as K. destruct (op_width _ K) as (Hw & Hc & _). unfold baseOf.
  destruct (roundUpTo_spec (chunkSteps op) (endAfter (take j ops)) ltac:(lia)) as [Hd Hb]. split; [done|].
  eapply Z.divide_trans; [apply (ok_divide _ K)|done].
Qed.

Lemma endAfter_mono j j' : (j <= j')%nat -> endAfter (take j ops) <= endAfter (take j' ops).
Proof.
  intros H. induction H as [|j' H IH]; [lia|]. destruct (ops !! j') as [op|] eqn:E.
  - rewrite (endAfter_S _ _ E). pose proof (base_spec _ _ E). pose proof (op_nsteps _ (op_ok _ _ E)). lia.
  - apply lookup_ge_None in E. rewrite (take_ge _ (S j')) by lia. by rewrite (take_ge _ j') in IH.
Qed.

Lemma endAfter_bound j : 0 <= endAfter (take j ops) < 2 ^ 62.
Proof.
  split; [change 0 with (endAfter (take 0 ops)); apply endAfter_mono; lia|].
  eapply Z.le_lt_trans; [apply (endAfter_mono j (Nat.max j (length ops))); lia|]. rewrite take_ge by lia. apply O.
Qed.

Lemma pos_mono j op k j' : ops !! j = Some op -> (k <= length (slices op))%nat -> (j < j')%nat -> (pos j k <= pos j' 0)%nat.
Proof.
  intros Hj Hk Hlt. assert (forall a b, (a <= b)%nat -> (pos a 0 <= pos b 0)%nat) as Hm.
  { intros a b H. induction H as [|b H IH]; [done|]. destruct (ops !! b) as [op'|] eqn:E.
    - rewrite (pos_S _ _ E). unfold pos in *. lia.
    - apply lookup_ge_None in E. unfold pos in *. rewrite (take_ge _ (S b)), (take_ge _ b) in * by lia. lia. }
  specialize (Hm (S j) j' Hlt). rewrite (pos_S _ _ Hj) in Hm. unfold pos in *. lia.
Qed.

(** Slices do not overlap, and come in order. *)
Lemma all_order i i' sl sl' : all !! i = Some sl -> all !! i' = Some sl' -> (i < i')%nat -> sl_end sl <= sl_step sl'.
Proof.
  intros (Hj & Hk & Hb & ->)%all_lookup_inv (Hj' & Hk' & Hb' & ->)%all_lookup_inv Hlt. unfold sl_end, sl_step, sl_rel, sl_width. rewrite Hb, Hb'.
  apply lookup_lt_Some in Hk as Hkl. apply lookup_lt_Some in Hk' as Hkl'. pose proof (op_width _ (op_ok _ _ Hj)) as (Hw & _).
  pose proof (op_width _ (op_ok _ _ Hj')) as (Hw' & _). destruct (lt_eq_lt_dec (sl_op sl) (sl_op sl')) as [[Hl|E]|Hl].
  - pose proof (base_spec _ _ Hj') as [[? _] _]. pose proof (endAfter_mono (S (sl_op sl)) (sl_op sl') Hl) as Hm. rewrite (endAfter_S _ _ Hj) in Hm.
    rewrite (ok_nsteps _ (op_ok _ _ Hj)) in Hm. nia.
  - rewrite <- E in *. rewrite Hj in Hj'. injection Hj' as Eo. rewrite <- Eo in *. unfold pos in Hlt. nia.
  - pose proof (pos_mono (sl_op sl') _ (sl_index sl') (sl_op sl) Hj' ltac:(lia) Hl). unfold pos in *. lia.
Qed.

Lemma all_bounds i sl : all !! i = Some sl -> 0 <= sl_step sl /\ sl_end sl < 2 ^ 62 /\ 1 <= sl_width sl <= 4 /\ (sl_width sl | 8) /\ (sl_width sl | sl_step sl) /\
  (shared = true -> sl_width sl = 1).
Proof.
  intros (Hj & Hk & Hb & _)%all_lookup_inv. pose proof (op_ok _ _ Hj) as K. destruct (op_width _ K) as (Hw & Hc & H8 & _ & Hs).
  pose proof (base_spec _ _ Hj) as [[Hb1 _] Hd]. pose proof (endAfter_bound (sl_op sl)). pose proof (endAfter_bound (S (sl_op sl))) as Hend.
  rewrite (endAfter_S _ _ Hj), (ok_nsteps _ K) in Hend. apply lookup_lt_Some in Hk.
  unfold sl_end, sl_step, sl_rel, sl_width. rewrite Hb. split_and!; try done; try nia.
  apply Z.divide_add_r; [done|]. apply Z.divide_factor_r.
Qed.

(** The steps at positions. *)
Lemma endOf_pos j op k : ops !! j = Some op -> (0 < k <= length (slices op))%nat -> endOf (pos j k) = baseOf j op + Z.of_nat k * sliceSteps op.
Proof.
  intros Hj Hk. destruct k as [|k]; [lia|]. destruct (lookup_lt_is_Some_2 (slices op) k) as [d Hd]; [lia|].
  replace (pos j (S k)) with (S (pos j k)) by (unfold pos; lia). cbn [endOf]. rewrite (all_lookup _ _ _ _ Hj Hd).
  cbn. unfold sl_end, sl_step, sl_rel, sl_width. cbn. lia.
Qed.

Lemma endOf_pos0 j : (j <= length ops)%nat -> endOf (pos j 0) = endAfter (take j ops).
Proof.
  intros Hj. destruct j as [|j]; [done|]. destruct (lookup_lt_is_Some_2 ops j) as [op Ho]; [lia|]. rewrite (pos_S _ _ Ho), (endAfter_S _ _ Ho).
  pose proof (op_ok _ _ Ho) as K. rewrite (ok_nsteps _ K). apply endOf_pos; [done|]. pose proof (ok_slices _ K). destruct (slices op); [done|simpl; lia].
Qed.

Lemma endOf_le i i' sl : all !! i' = Some sl -> (i <= i')%nat -> 0 <= endOf i <= sl_step sl.
Proof.
  intros Hi' Hle. pose proof (all_bounds _ _ Hi') as (H0 & _). destruct i as [|i]; [done|]. cbn [endOf].
  destruct (lookup_lt_is_Some_2 all i) as [s Hs]; [apply lookup_lt_Some in Hi'; lia|]. rewrite Hs. cbn.
  pose proof (all_order _ _ _ _ Hs Hi' ltac:(lia)). pose proof (all_bounds _ _ Hs) as (H1 & _ & H2 & _). unfold sl_end in *. lia.
Qed.

Lemma endOf_S i sl : all !! i = Some sl -> endOf (S i) = sl_end sl.
Proof. intros H. cbn. by rewrite H. Qed.

Lemma endOf_bound i : (i <= length all)%nat -> 0 <= endOf i < 2 ^ 62.
Proof.
  intros Hi. destruct i as [|i]; [done|]. destruct (lookup_lt_is_Some_2 all i) as [s Hs]; [lia|]. rewrite (endOf_S _ _ Hs).
  destruct (all_bounds _ _ Hs) as (H1 & H2 & H3 & _). unfold sl_end in *. lia.
Qed.

Lemma endOf_mono i i' : (i <= i')%nat -> (i' <= length all)%nat -> endOf i <= endOf i'.
Proof.
  intros Hle Hl. destruct i' as [|i']; [replace i with 0%nat by lia; done|]. destruct (lookup_lt_is_Some_2 all i') as [s Hs]; [lia|].
  destruct (decide (i = S i')) as [->|Hne]; [done|]. rewrite (endOf_S _ _ Hs). pose proof (endOf_le i i' s Hs ltac:(lia)).
  destruct (all_bounds _ _ Hs) as (_ & _ & H3 & _). unfold sl_end. lia.
Qed.

(** There is room for a slice after the steps before it. *)
Lemma endOf_room i sl : all !! i = Some sl -> sl_end sl <= endOf i + NCCL_STEPS.
Proof.
  intros (Hj & Hk & Hb & ->)%all_lookup_inv. pose proof (op_width _ (op_ok _ _ Hj)) as (Hw & Hc & _). pose proof (base_spec _ _ Hj) as [Hb1 _].
  apply lookup_lt_Some in Hk, Hj as Hjl. unfold sl_end, sl_step, sl_rel, sl_width, NCCL_STEPS. rewrite Hb. destruct (sl_index sl) as [|k].
  - rewrite endOf_pos0 by lia. lia.
  - rewrite (endOf_pos _ _ _ Hj) by lia. lia.
Qed.

(** Slices within a window of eight steps have different slots. *)
Lemma slots_disjoint i i' sl sl' : all !! i = Some sl -> all !! i' = Some sl' -> (i < i')%nat -> sl_end sl' <= sl_step sl + NCCL_STEPS ->
  sl_slot sl + sl_width sl <= sl_slot sl' \/ sl_slot sl' + sl_width sl' <= sl_slot sl.
Proof.
  intros Hi Hi' Hlt Hwin. pose proof (all_order _ _ _ _ Hi Hi' Hlt). destruct (all_bounds _ _ Hi') as (_ & _ & Hw' & _). destruct (all_bounds _ _ Hi) as (_ & _ & Hw & [a H8] & [b Hd] & _).
  unfold sl_slot, sl_end, NCCL_STEPS in *. set (x := sl_step sl) in *. set (y := sl_step sl') in *. set (w := sl_width sl) in *. set (w' := sl_width sl') in *.
  pose proof (Z.div_mod x 8 ltac:(lia)) as Ex. pose proof (Z.mod_pos_bound x 8 ltac:(lia)) as Hr. set (r := x mod 8) in *. set (q := x / 8) in *.
  assert (r + w <= 8) as Hrw.
  { assert (r = (b - a * q) * w) as Er by (transitivity (b * w - a * w * q); [rewrite <- H8, <- Hd; lia|ring]).
    assert (b - a * q < a) by (apply (Z.mul_lt_mono_pos_r w); lia). assert ((b - a * q + 1) * w <= a * w) by (apply Z.mul_le_mono_nonneg_r; lia). lia. }
  assert (y = 8 * q + (r + (y - x))) as Ey by lia. destruct (Z.lt_ge_cases (r + (y - x)) 8).
  - left. assert (y mod 8 = r + (y - x)) as ->; [|lia]. symmetry. apply (Z.mod_unique y 8 q); lia.
  - right. assert (y mod 8 = r + (y - x) - 8) as ->; [|lia]. symmetry. apply (Z.mod_unique y 8 (q + 1)); lia.
Qed.

Lemma slots_differ i i' sl sl' : all !! i = Some sl -> all !! i' = Some sl' -> (i < i')%nat -> sl_end sl' <= sl_step sl + NCCL_STEPS -> sl_slot sl <> sl_slot sl'.
Proof.
  intros Hi Hi' Hlt Hwin E. destruct (all_bounds _ _ Hi) as (_ & _ & Hw & _). destruct (all_bounds _ _ Hi') as (_ & _ & Hw' & _).
  destruct (slots_disjoint i i' sl sl' Hi Hi' Hlt Hwin); lia.
Qed.

Lemma roundUp_small y x : (y = 1 \/ y = 2 \/ y = 4) -> 0 <= x < 2 ^ 62 -> roundUp u64 x y = roundUpTo y x.
Proof.
  intros Hy Hx. unfold roundUp. rewrite sum_pred_fits by (done || fits_lia). rewrite Z.rem_mod_nonneg by lia.
  pose proof (Z.mod_pos_bound (x + y - 1) y ltac:(lia)). rewrite cwrap_fits; [|done|fits_lia]. unfold roundUpTo.
  pose proof (Z.div_mod (x + y - 1) y ltac:(lia)). lia.
Qed.

Lemma ROUNDUP_small y x : (y = 1 \/ y = 2 \/ y = 4) -> 0 <= x < 2 ^ 62 -> ROUNDUP x y = roundUpTo y x.
Proof.
  intros Hy Hx. destruct (roundUpTo_spec y x ltac:(lia)) as [_ H]. unfold ROUNDUP, roundUpTo in *. rewrite (wrap64_small (x + y)), (wrap64_small (x + y - 1)) by lia.
  rewrite Z.quot_div_nonneg by lia. apply wrap64_small. lia.
Qed.

(** *** Memory *)

Lemma put_eq {A} (f : Z -> A) k v : put f k v k = v.
Proof. unfold put. by rewrite Z.eqb_refl. Qed.

Lemma put_ne {A} (f : Z -> A) k v x : x <> k -> put f k v x = f x.
Proof. intros H. unfold put. by rewrite (proj2 (Z.eqb_neq x k) H). Qed.

Lemma writeMem_same mem p (l : list V) : readMem (writeMem mem p l) p (length l) = l.
Proof.
  apply list_eq. intros i. unfold readMem, writeMem. rewrite list_lookup_fmap. destruct (decide (i < length l)%nat) as [Hi|Hi].
  - rewrite lookup_seq_lt by done. cbn. rewrite (proj2 (Z.leb_le p _)) by lia. replace (Z.to_nat (p + Z.of_nat i - p)) with i by lia.
    destruct (lookup_lt_is_Some_2 l i Hi) as [v ->]. done.
  - rewrite lookup_seq_ge by lia. rewrite lookup_ge_None_2 by lia. done.
Qed.

Lemma writeMem_other mem p (l : list V) q n : q + Z.of_nat n <= p \/ p + Z.of_nat (length l) <= q -> readMem (writeMem mem p l) q n = readMem mem q n.
Proof.
  intros H. unfold readMem. apply list_fmap_ext. intros i x Hx. apply lookup_seq in Hx as [-> Hi]. unfold writeMem.
  destruct (Z.leb_spec p (q + Z.of_nat (0 + i))); [|done]. rewrite lookup_ge_None_2 by lia. done.
Qed.

(** *** The places of slices *)

(** The place of a slice, for the proxy of one side. *)
Definition addrOf (subs index : netOp V -> Z) (sl : slice) : Z :=
  let op := sl_netOp sl in
  if shared then sharedBuffersGet (sl_rel sl mod maxDepth (subs op) * subs op + index op) else sl_slot sl * stepSize.

(** Two slices that can be in flight together. *)
Definition near (subs : netOp V -> Z) (sl sl' : slice) : Prop :=
  if shared then sl_op sl = sl_op sl' /\ sl_rel sl' < sl_rel sl + maxDepth (subs (sl_netOp sl)) else sl_end sl' <= sl_step sl + NCCL_STEPS.

Definition roomOf (sl : slice) : Z := if shared then p2pChunkSize else stepSize * sl_width sl.

Lemma maxDepth_bound subs : 1 <= subs <= NCCL_SHARED_STEPS -> 1 <= maxDepth subs <= NCCL_STEPS.
Proof.
  unfold maxDepth, NCCL_SHARED_STEPS, NCCL_STEPS. intros H. rewrite Z.quot_div_nonneg by lia.
  assert (1 <= 16 / subs) by (apply Z.div_le_lower_bound; lia). lia.
Qed.

Lemma mod_differ x y d : 0 < d -> x < y < x + d -> x mod d <> y mod d.
Proof.
  intros Hd Hxy E. pose proof (Z.div_mod x d ltac:(lia)). pose proof (Z.div_mod y d ltac:(lia)).
  assert (y - x = d * (y / d - x / d)) by lia. assert (0 < y / d - x / d) by nia. nia.
Qed.

Lemma all_room i sl : all !! i = Some sl -> Z.of_nat (length (sl_data sl)) <= roomOf sl.
Proof.
  intros (Hj & Hk & _)%all_lookup_inv. unfold roomOf, sl_width. apply (ok_data _ (op_ok _ _ Hj)). by eapply list_elem_of_lookup_2.
Qed.

Section side.

(** One of the two proxies. *)
Context (subs index : netOp V -> Z).
Context (subs_ok : forall op, opOk op -> 0 <= index op < subs op /\ subs op <= (if shared then NCCL_SHARED_STEPS else 1)).

Lemma depth_bound op : opOk op -> 1 <= maxDepth (subs op) <= NCCL_STEPS /\ (sliceSteps op | maxDepth (subs op)).
Proof.
  intros K. destruct (subs_ok op K) as [? Hs]. destruct (op_width _ K) as (_ & _ & H8 & _ & H1). destruct shared eqn:E.
  - rewrite (H1 eq_refl). split; [apply maxDepth_bound; lia|apply Z.divide_1_l].
  - replace (subs op) with 1 by lia. done.
Qed.

Lemma near_window i i' sl sl' : all !! i = Some sl -> all !! i' = Some sl' -> near subs sl sl' -> sl_end sl' <= sl_step sl + NCCL_STEPS.
Proof.
  intros Hi Hi' Hn. destruct (all_bounds _ _ Hi') as (_ & _ & _ & _ & _ & H1). destruct (all_lookup_inv _ _ Hi) as (Hj & _ & Hb & _).
  destruct (all_lookup_inv _ _ Hi') as (Hj' & _ & Hb' & _). destruct (depth_bound _ (op_ok _ _ Hj)) as [Hd _]. unfold near in Hn.
  destruct shared eqn:E; [|done]. destruct Hn as [Ho Hn]. rewrite <- Ho in *. rewrite Hj in Hj'. injection Hj' as Eo. rewrite <- Eo in Hb'.
  unfold sl_end, sl_step. rewrite Hb, Hb', H1 by done. lia.
Qed.

Lemma near_addr i i' sl sl' : all !! i = Some sl -> all !! i' = Some sl' -> (i < i')%nat -> near subs sl sl' ->
  addrOf subs index sl + Z.of_nat (length (sl_data sl)) <= addrOf subs index sl' \/
  addrOf subs index sl' + Z.of_nat (length (sl_data sl')) <= addrOf subs index sl.
Proof.
  intros Hi Hi' Hlt Hn. pose proof (near_window _ _ _ _ Hi Hi' Hn) as Hw. pose proof (all_room _ _ Hi) as Hr. pose proof (all_room _ _ Hi') as Hr'.
  pose proof (all_order _ _ _ _ Hi Hi' Hlt) as Ho. pose proof (slots_disjoint _ _ _ _ Hi Hi' Hlt Hw) as Hs.
  destruct (all_lookup_inv _ _ Hi) as (Hj & _ & Hb & _). destruct (all_lookup_inv _ _ Hi') as (Hj' & _ & Hb' & _).
  destruct (all_bounds _ _ Hi) as (_ & _ & Hwd & _). destruct (depth_bound _ (op_ok _ _ Hj)) as [Hd _]. destruct (subs_ok _ (op_ok _ _ Hj)) as [Hx _].
  pose proof (oo_stepSize O). pose proof (oo_chunkSize O).
  unfold near, addrOf, roomOf in *. destruct shared.
  - destruct Hn as [Eo Hn]. rewrite <- Eo in *. rewrite Hj in Hj'. injection Hj' as Eop. rewrite <- Eop in *.
    assert (sl_rel sl < sl_rel sl') as Hlr by (unfold sl_end, sl_step in Ho; rewrite Hb, Hb' in Ho; lia).
    pose proof (mod_differ _ _ _ (proj1 (Z.le_succ_l 0 _) (proj1 Hd)) (conj Hlr Hn)) as Hne. unfold sharedBuffersGet.
    set (a := sl_rel sl mod _) in *. set (b := sl_rel sl' mod _) in *. set (s := subs (sl_netOp sl)) in *. set (x := index (sl_netOp sl)) in *.
    destruct (Z.lt_total a b) as [Hab|[Hab|Hab]]; [left|done|right].
    + assert (a * s + x + 1 <= b * s + x) by nia. nia.
    + assert (b * s + x + 1 <= a * s + x) by nia. nia.
  - destruct Hs as [Hs|Hs]; [left|right]; nia.
Qed.

End side.

(** *** Where a thread is *)

(** A block is at position [i]: before an operation, or at slice [k] of one. *)
Definition blockAt (load : bool) (j k : nat) (step : Z) (i : nat) : Prop :=
  if load then (j <= length ops)%nat /\ i = pos j 0 /\ step = endAfter (take j ops)
  else exists op, ops !! j = Some op /\ (k <= length (slices op))%nat /\ i = pos j k /\ step = baseOf j op + Z.of_nat k * sliceSteps op.

(** A counter of a proxy is at position [i]. *)
Definition counterAt (j : nat) (op : netOp V) (c : Z) (i : nat) : Prop :=
  exists k, (k <= length (slices op))%nat /\ c = Z.of_nat k * sliceSteps op /\ i = pos j k.

Definition total : nat := length all.

Lemma pos_end : pos (length ops) 0 = total.
Proof.
  unfold pos, total, all. rewrite firstn_all. pose proof (take_opSlices (length ops)) as H. rewrite take_ge in H by (rewrite length_imap; lia).
  rewrite firstn_all in H. lia.
Qed.

Lemma pos_total j op k : ops !! j = Some op -> (k <= length (slices op))%nat -> (pos j k <= total)%nat.
Proof. intros Hj Hk. rewrite <- pos_end. apply (pos_mono j op); [done|done|by apply lookup_lt_Some in Hj]. Qed.

Lemma pos0_total j : (j <= length ops)%nat -> (pos j 0 <= total)%nat.
Proof.
  intros Hj. destruct (decide (j = length ops)) as [->|Hne]; [by rewrite pos_end|]. destruct (lookup_lt_is_Some_2 ops j) as [op Ho]; [lia|].
  apply (pos_total j op); [done|lia].
Qed.

Lemma blockAt_total load j k step i : blockAt load j k step i -> (i <= total)%nat.
Proof.
  destruct load; cbn.
  - intros (Hj & -> & _). by apply pos0_total.
  - intros (op & Hj & Hk & -> & _). by eapply pos_total.
Qed.

Lemma blockAt_load j k step i op : blockAt true j k step i -> ops !! j = Some op ->
  blockAt false j 0 (roundUp u64 step (chunkSteps op)) i /\
  (forall sl, all !! i = Some sl -> sl_step sl = roundUp u64 step (chunkSteps op)) /\ (i < total)%nat.
Proof.
  intros (Hj & -> & ->) Ho. pose proof (op_ok _ _ Ho) as K. rewrite roundUp_small by (apply K || apply endAfter_bound). fold (baseOf j op).
  destruct (slices op) as [|d l] eqn:E; [by destruct (ok_slices _ K)|]. assert (slices op !! 0%nat = Some d) as Hd by (by rewrite E).
  pose proof (all_lookup j op 0 d Ho Hd) as Hl. split_and!.
  - exists op. split_and!; [done|lia|done|lia].
  - intros sl Hsl. rewrite Hl in Hsl. injection Hsl as <-. unfold sl_step, sl_rel. cbn. lia.
  - by apply lookup_lt_Some in Hl.
Qed.

Lemma blockAt_slice j k step i op d : blockAt false j k step i -> ops !! j = Some op -> slices op !! k = Some d ->
  exists sl, all !! i = Some sl /\ sl_netOp sl = op /\ sl_data sl = d /\ sl_step sl = step /\
    wrap64 (step + sliceSteps op) = sl_end sl /\ blockAt false j (S k) (wrap64 (step + sliceSteps op)) (S i).
Proof.
  intros (op' & Ho' & Hk & -> & ->) Ho Hd. rewrite Ho in Ho'. injection Ho' as <-. pose proof (all_lookup j op k d Ho Hd) as Hl.
  exists (Slice j k op (baseOf j op) d). destruct (all_bounds _ _ Hl) as (H0 & H1 & H2 & _). unfold sl_end, sl_step, sl_rel, sl_width in *. cbn in *.
  rewrite wrap64_small by lia. split_and!; try done. exists op. apply lookup_lt_Some in Hd. split_and!; [done|lia|unfold pos; lia|lia].
Qed.

Lemma blockAt_next j k step i op : blockAt false j k step i -> ops !! j = Some op -> slices op !! k = None -> blockAt true (S j) 0 step i.
Proof.
  intros (op' & Ho' & Hk & -> & ->) Ho Hd. rewrite Ho in Ho'. injection Ho' as <-. apply lookup_ge_None in Hd. apply lookup_lt_Some in Ho as Hj.
  assert (k = length (slices op)) as -> by lia. split_and!; [lia|by rewrite (pos_S _ _ Ho)|].
  rewrite (endAfter_S _ _ Ho), (ok_nsteps _ (op_ok _ _ Ho)). done.
Qed.

Lemma blockAt_op load j k step i : blockAt load j k step i -> (i < total)%nat -> exists op, ops !! j = Some op.
Proof.
  destruct load; cbn.
  - intros (Hj & -> & _) Hi. apply lookup_lt_is_Some_2. destruct (decide (j = length ops)) as [->|]; [rewrite pos_end in Hi|]; lia.
  - intros (op & Hj & _) _. by exists op.
Qed.

(** *** Counters *)

Lemma counterAt_zero j op : counterAt j op 0 (pos j 0).
Proof. exists 0%nat. split_and!; [lia|lia|done]. Qed.

Section counters.

Context (j : nat) (op : netOp V) (Ho : ops !! j = Some op).

Lemma counterAt_lt c i c' i' : counterAt j op c i -> counterAt j op c' i' -> c < c' <-> (i < i')%nat.
Proof.
  intros (k & _ & -> & ->) (k' & _ & -> & ->). pose proof (ok_slice _ (op_ok _ _ Ho)). unfold pos. split; intros; [|nia].
  assert (Z.of_nat k < Z.of_nat k') by nia. lia.
Qed.

Lemma counterAt_le c i c' i' : counterAt j op c i -> counterAt j op c' i' -> c <= c' <-> (i <= i')%nat.
Proof. intros H H'. pose proof (counterAt_lt _ _ _ _ H' H). lia. Qed.

Lemma counterAt_inj c c' i : counterAt j op c i -> counterAt j op c' i -> c = c'.
Proof. intros H H'. pose proof (counterAt_le _ _ _ _ H H'). pose proof (counterAt_le _ _ _ _ H' H). lia. Qed.

Lemma counterAt_total c i : counterAt j op c i -> (i <= total)%nat.
Proof. intros (k & Hk & _ & ->). by eapply pos_total. Qed.

Lemma counterAt_end c i : counterAt j op c i -> c = nsteps op -> i = pos (S j) 0.
Proof.
  intros (k & Hk & -> & ->) Hn. rewrite (ok_nsteps _ (op_ok _ _ Ho)) in Hn. pose proof (ok_slice _ (op_ok _ _ Ho)).
  rewrite (pos_S _ _ Ho). f_equal. nia.
Qed.

Lemma counterAt_max c i : counterAt j op c i -> 0 <= c <= nsteps op.
Proof.
  intros (k & Hk & -> & _). rewrite (ok_nsteps _ (op_ok _ _ Ho)). pose proof (ok_slice _ (op_ok _ _ Ho)). nia.
Qed.

(** The slice of a counter. *)
Lemma counterAt_slice c i : counterAt j op c i -> c < nsteps op ->
  exists sl, all !! i = Some sl /\ sl_op sl = j /\ sl_netOp sl = op /\ sl_rel sl = c /\ sl_step sl = baseOf j op + c /\ counterAt j op (c + sliceSteps op) (S i).
Proof.
  intros (k & Hk & -> & ->) Hlt. rewrite (ok_nsteps _ (op_ok _ _ Ho)) in Hlt. pose proof (ok_slice _ (op_ok _ _ Ho)).
  assert (k < length (slices op))%nat as Hkl by nia. destruct (lookup_lt_is_Some_2 _ _ Hkl) as [d Hd].
  exists (Slice j k op (baseOf j op) d). split_and!; try done; [by apply all_lookup|]. exists (S k). split_and!; [lia|lia|unfold pos; lia].
Qed.

Lemma counterAt_between c c' i i' a : counterAt j op c i -> counterAt j op c' i' -> (i <= a < i')%nat ->
  exists x, counterAt j op x a /\ x < nsteps op.
Proof.
  intros (k & Hk & -> & ->) (k' & Hk' & -> & ->) Ha. pose proof (ok_slice _ (op_ok _ _ Ho)). rewrite (ok_nsteps _ (op_ok _ _ Ho)).
  exists (Z.of_nat (a - pos j 0) * sliceSteps op). unfold pos in *. split; [|nia]. exists (a - pos j 0)%nat. unfold pos. split_and!; [lia|lia|lia].
Qed.

Lemma counterAt_endOf c i : counterAt j op c i -> 0 < c -> endOf i = baseOf j op + c.
Proof.
  intros (k & Hk & -> & ->) Hc. pose proof (ok_slice _ (op_ok _ _ Ho)). apply endOf_pos; [done|]. destruct k; lia.
Qed.

End counters.

(** ** The side of the sender *)

Definition sAddr : slice -> Z := addrOf sendSubs sendIndex.

Definition gsLoad (pc : gpuSendPc) : bool := match pc with GSLoad => true | _ => false end.
Definition gsCredit (pc : gpuSendPc) : bool := match pc with GSLoad | GSWait => false | _ => true end.
Definition gsSized (pc : gpuSendPc) : bool := match pc with GSPtr | GSData _ | GSPost => true | _ => false end.
Definition gsFilled (pc : gpuSendPc) : bool := match pc with GSPost => true | _ => false end.
Definition spPosting (pc : sendPc) : bool := match pc with SPPost => true | _ => false end.

(** One more than [i], if [b]. *)
Definition upTo (b : bool) (i : nat) : nat := if b then S i else i.

(** The credit of the block beyond the head, and the head for a position. *)
Definition slack : Z := if shared then 0 else NCCL_STEPS.
Definition headVal (i : nat) : Z := wrap64 (endOf i + slack - NCCL_STEPS).

(** The position the head stands for: what the proxy has posted, or what it has done. *)
Definition creditPos (P D : nat) : nat := if shared then P else D.

(** The proxy has posted [P] slices, given [X] to the network, and seen [D] arrive. *)
Definition sendAt (p : sendProxy) (G P X D E : nat) : Prop :=
  match sp_pc p with
  | SPStart => (sp_op p <= length ops)%nat /\ sp_step p = endAfter (take (sp_op p) ops) /\ P = pos (sp_op p) 0 /\ X = pos (sp_op p) 0 /\ D = pos (sp_op p) 0
  | pc =>
      exists op, ops !! sp_op p = Some op /\ sp_base p = baseOf (sp_op p) op /\ sp_step p = baseOf (sp_op p) op + nsteps op /\
        counterAt (sp_op p) op (sp_posted p) P /\ counterAt (sp_op p) op (sp_transmitted p) X /\ counterAt (sp_op p) op (sp_done p) D /\
        sp_posted p <= sp_done p + maxDepth (sendSubs op) /\
        match pc with
        | SPPost => shared = true /\ sp_posted p < nsteps op /\ sp_posted p < sp_done p + maxDepth (sendSubs op)
        | SPSize | SPTail => (X < P)%nat
        | SPSend => (X < P)%nat /\ (X < G)%nat
        | SPAck => (D < E)%nat
        | _ => True
        end
  end.

(** The block has written [G] slices, and [E] have arrived. *)
Record sInv (G P X D E : nat) (m : connMem) (out : list (Z * Z)) (g : gpuSend) (p : sendProxy) : Prop := {
  si_order : (D <= E)%nat /\ (E <= X)%nat /\ (X <= G)%nat /\ (X <= P)%nat;
  si_block : blockAt (gsLoad (gs_pc g)) (gs_op g) (gs_slice g) (gs_step g) G;
  si_proxy : sendAt p G P X D E;
  si_head : head m = headVal (creditPos P D);
  si_tail : tail m = endOf G;
  si_cache : gsLoad (gs_pc g) = false -> exists i, (i <= creditPos P D)%nat /\ gs_cache g = headVal i;
  si_slice : gsCredit (gs_pc g) = true -> exists op d, ops !! gs_op g = Some op /\ slices op !! gs_slice g = Some d;
  si_credit : endOf (upTo (gsCredit (gs_pc g)) G) <= endOf (creditPos P D) + slack;
  si_size : forall i sl, (X <= i < upTo (gsSized (gs_pc g)) G)%nat -> all !! i = Some sl -> fifoSize m (sl_slot sl) = Z.of_nat (length (sl_data sl));
  si_off : shared = true -> forall i sl, (X <= i < upTo (spPosting (sp_pc p)) P)%nat -> all !! i = Some sl -> fifoOffset m (sl_slot sl) = sAddr sl;
  si_ptr : forall ptr sl, gs_pc g = GSData ptr -> all !! G = Some sl -> ptr = sAddr sl;
  si_buff : forall i sl, (E <= i < upTo (gsFilled (gs_pc g)) G)%nat -> all !! i = Some sl ->
    readMem (buff m) (sAddr sl) (length (sl_data sl)) = sl_data sl;
  si_out : out = (fun sl => (sAddr sl, Z.of_nat (length (sl_data sl)))) <$> take X all;
  si_req : forall i sl, (D <= i < X)%nat -> all !! i = Some sl -> sp_requests p (sl_slot sl) = Some i }.
Arguments si_order {G P X D E m out g p} _.
Arguments si_block {G P X D E m out g p} _.
Arguments si_proxy {G P X D E m out g p} _.
Arguments si_head {G P X D E m out g p} _.
Arguments si_tail {G P X D E m out g p} _.
Arguments si_cache {G P X D E m out g p} _.
Arguments si_slice {G P X D E m out g p} _.
Arguments si_credit {G P X D E m out g p} _.
Arguments si_size {G P X D E m out g p} _.
Arguments si_off {G P X D E m out g p} _.
Arguments si_ptr {G P X D E m out g p} _.
Arguments si_buff {G P X D E m out g p} _.
Arguments si_out {G P X D E m out g p} _.
Arguments si_req {G P X D E m out g p} _.

(** The fields of threads and memory. *)
Ltac fields := cbn [head tail fifoSize fifoOffset buff setHead setTail setSize setOffset setBuff
  gs_pc gs_op gs_slice gs_step gs_cache gsLoad gsCredit gsSized gsFilled
  sp_op sp_step sp_base sp_posted sp_transmitted sp_done sp_requests sp_pc spPosting upTo] in *.

(** A step of a proxy that leaves the other half of the network alone. *)
Ltac proxy_step := eexists _, _, _; (split; [reflexivity|]); (split; [done|]); (split; [done|]).

Lemma headVal_credit i : (i <= total)%nat -> wrap64 (headVal i + NCCL_STEPS) = endOf i + slack.
Proof.
  intros Hi. pose proof (endOf_bound i Hi). unfold headVal, slack, wrap64, NCCL_STEPS. rewrite Zplus_mod_idemp_l. rewrite Z.mod_small; destruct shared; lia.
Qed.

Lemma sendAt_total p G P X D E : sendAt p G P X D E -> (P <= total)%nat /\ (X <= total)%nat /\ (D <= total)%nat.
Proof.
  unfold sendAt. destruct (sp_pc p).
  1: intros (Hj & _ & -> & -> & ->); split_and!; by apply pos0_total.
  all: intros (op & Ho & _ & _ & HP & HX & HD & _); split_and!; by eapply counterAt_total.
Qed.

Section sender.

Context (G P X D E : nat) (m : connMem) (out : list (Z * Z)) (g : gpuSend) (p : sendProxy).
Context (I : sInv G P X D E m out g p).

Lemma si_total : (G <= total)%nat /\ (P <= total)%nat /\ (X <= total)%nat /\ (D <= total)%nat /\ (creditPos P D <= total)%nat /\ (upTo (gsCredit (gs_pc g)) G <= total)%nat.
Proof.
  pose proof (blockAt_total _ _ _ _ _ (si_block I)) as HG. destruct (sendAt_total _ _ _ _ _ _ (si_proxy I)) as (HP & HX & HD).
  split_and!; try done; [unfold creditPos; by destruct shared|]. unfold upTo. destruct (gsCredit (gs_pc g)) eqn:Ec; [|done].
  destruct (si_slice I Ec) as (op & d & Ho & Hd). pose proof (si_block I) as HB.
  destruct (gsLoad (gs_pc g)) eqn:El; [by destruct (gs_pc g)|]. destruct (blockAt_slice _ _ _ _ _ _ HB Ho Hd) as (sl & Hl & _). by apply lookup_lt_Some in Hl.
Qed.

(** In the shared mode the block uses what the proxy has posted. *)
Lemma si_posted : shared = true -> (upTo (gsCredit (gs_pc g)) G <= P)%nat.
Proof.
  intros Es. pose proof (si_credit I) as Hc. unfold slack, creditPos in Hc. rewrite Es in Hc.
  destruct si_total as (_ & _ & _ & _ & _ & HT). set (u := upTo _ G) in *. destruct (Nat.le_gt_cases u P) as [?|Hlt]; [done|].
  destruct u as [|u]; [lia|]. destruct (lookup_lt_is_Some_2 all u) as [sl Hl]; [unfold total in HT; lia|]. rewrite (endOf_S _ _ Hl) in Hc.
  pose proof (endOf_le P u sl Hl ltac:(lia)). destruct (all_bounds _ _ Hl) as (_ & _ & Hw & _). unfold sl_end in Hc. lia.
Qed.

(** Slices in flight are near. *)
Lemma si_near i i' sl sl' : (D <= i)%nat -> (i < i')%nat -> all !! i = Some sl -> all !! i' = Some sl' ->
  (i' < upTo (gsCredit (gs_pc g)) G)%nat \/ shared = true /\ (i' < upTo (spPosting (sp_pc p)) P)%nat -> near sendSubs sl sl'.
Proof.
  intros HD Hlt Hl Hl' Hi'. destruct shared eqn:Es.
  - assert (i' < upTo (spPosting (sp_pc p)) P)%nat as Hp.
    { destruct Hi' as [Hi'|[_ Hi']]; [|done]. pose proof (si_posted Es). unfold upTo in *. destruct (spPosting _); lia. }
    pose proof (si_proxy I) as HA. unfold near. rewrite Es. unfold sendAt in HA.
    assert (exists op, ops !! sp_op p = Some op /\ counterAt (sp_op p) op (sp_done p) D /\ exists c, counterAt (sp_op p) op c (upTo (spPosting (sp_pc p)) P) /\
      forall x, counterAt (sp_op p) op x i' -> x < sp_done p + maxDepth (sendSubs op)) as (op & Ho & HcD & c & Hc & Hx).
    { destruct (sp_pc p); cbn [spPosting upTo] in *; [lia|..]; destruct HA as (op & Ho & _ & _ & HP & _ & HcD & Hle & Hpc); exists op; (split; [done|]); (split; [done|]).
      2: { destruct Hpc as (_ & Hn & Hd). destruct (counterAt_slice _ _ Ho _ _ HP Hn) as (_ & _ & _ & _ & _ & _ & HS). eexists. split; [exact HS|].
           intros x Hx. pose proof (counterAt_le _ _ Ho _ _ _ _ Hx HP). lia. }
      all: exists (sp_posted p); split; [done|]; intros x Hx; pose proof (counterAt_lt _ _ Ho _ _ _ _ Hx HP); lia. }
    destruct (counterAt_between _ _ Ho _ _ _ _ i HcD Hc ltac:(lia)) as (a & Ha & Han). destruct (counterAt_between _ _ Ho _ _ _ _ i' HcD Hc ltac:(lia)) as (b & Hb & Hbn).
    destruct (counterAt_slice _ _ Ho _ _ Ha Han) as (s & Hs & E1 & E2 & E3 & _). destruct (counterAt_slice _ _ Ho _ _ Hb Hbn) as (s' & Hs' & E1' & E2' & E3' & _).
    rewrite Hl in Hs. rewrite Hl' in Hs'. injection Hs as <-. injection Hs' as <-. rewrite E1, E1', E2, E3, E3'. split; [done|].
    pose proof (proj2 (counterAt_le _ _ Ho _ _ _ _ HcD Ha) HD). pose proof (Hx _ Hb). lia.
  - destruct Hi' as [Hi'|[? _]]; [|done]. unfold near. rewrite Es. pose proof (si_credit I) as Hc. unfold slack, creditPos in Hc. rewrite Es in Hc.
    destruct si_total as (_ & _ & _ & _ & _ & HT). pose proof (endOf_le D i sl Hl HD). pose proof (endOf_mono (S i') (upTo (gsCredit (gs_pc g)) G) ltac:(lia) HT) as Hm.
    rewrite (endOf_S _ _ Hl') in Hm. lia.
Qed.

End sender.
Arguments si_total {G P X D E m out g p} _.
Arguments si_posted {G P X D E m out g p} _.
Arguments si_near {G P X D E m out g p} _.

(** *** The block that sends *)

(** What the block still has to do before it moves on, when it has credit. *)
Definition gsRank (g : gpuSend) : nat :=
  match gs_pc g with
  | GSLoad => 6
  | GSWait =>
      match ops !! gs_op g with
      | None => 0
      | Some op =>
          match slices op !! gs_slice g with
          | None => 7
          | Some _ => if wrap64 (gs_cache g + NCCL_STEPS) <? wrap64 (gs_step g + sliceSteps op) then 5 else 4
          end
      end
  | GSSize => 3
  | GSPtr => 2
  | GSData _ => 1
  | GSPost => 0
  end.

Definition gsEnabled (G P D : nat) : Prop := endOf (Nat.min (S G) total) <= endOf (creditPos P D) + slack.

(** A step of the block keeps the invariant, and finishes a slice or comes nearer to it. *)
Definition gpuSendGood (G P X D E : nat) (m : connMem) (out : list (Z * Z)) (g : gpuSend) (p : sendProxy) : Prop :=
  exists m' g', gpuSendStep m g = Some (m', g') /\
    (sInv (S G) P X D E m' out g' p \/ sInv G P X D E m' out g' p /\ (gsEnabled G P D -> (gsRank g' < gsRank g)%nat)).

Lemma sendAt_more p G P X D E : sendAt p G P X D E -> sendAt p (S G) P X D E.
Proof.
  unfold sendAt. destruct (sp_pc p); try done. intros (op & H1 & H2 & H3 & H4 & H5 & H6 & H7 & H8). exists op. split_and!; try done; lia.
Qed.

Lemma si_slots {G P X D E m out g p} (I : sInv G P X D E m out g p) i i' sl sl' : (D <= i)%nat -> (i < i')%nat -> all !! i = Some sl -> all !! i' = Some sl' ->
  (i' < upTo (gsCredit (gs_pc g)) G)%nat \/ shared = true /\ (i' < upTo (spPosting (sp_pc p)) P)%nat -> sl_slot sl <> sl_slot sl'.
Proof.
  intros HD Hlt Hl Hl' Hi'. apply (slots_differ i i' sl sl' Hl Hl' Hlt). eapply (near_window sendSubs sendIndex ok_send); [exact Hl|exact Hl'|].
  by eapply (si_near I).
Qed.

Lemma si_addr {G P X D E m out g p} (I : sInv G P X D E m out g p) i i' sl sl' : (D <= i)%nat -> (i < i')%nat -> all !! i = Some sl -> all !! i' = Some sl' ->
  (i' < upTo (gsCredit (gs_pc g)) G)%nat ->
  sAddr sl + Z.of_nat (length (sl_data sl)) <= sAddr sl' \/ sAddr sl' + Z.of_nat (length (sl_data sl')) <= sAddr sl.
Proof.
  intros HD Hlt Hl Hl' Hi'. eapply (near_addr sendSubs sendIndex ok_send); [exact Hl|exact Hl'|done|]. eapply (si_near I); eauto.
Qed.

Section gpuSend.

Context (G P X D E : nat) (m : connMem) (out : list (Z * Z)) (j k : nat) (step cache : Z) (p : sendProxy) (op : netOp V).
Context (Ho : ops !! j = Some op).

Lemma gpuSend_load : sInv G P X D E m out (GpuSend j k step cache GSLoad) p -> gpuSendGood G P X D E m out (GpuSend j k step cache GSLoad) p.
Proof.
  intros I. destruct (blockAt_load _ _ _ _ _ (si_block I) Ho) as (HB & _ & HG). unfold gpuSendGood, gpuSendStep. cbn. rewrite Ho. cbn.
  eexists _, _. split; [done|]. right. split.
  - destruct I. constructor; cbn in *; try done. intros _. exists (creditPos P D). done.
  - intros _. unfold gsRank. cbn. rewrite Ho. destruct (slices op !! 0%nat) eqn:E0; [destruct (_ <? _); lia|].
    by destruct (slices op) eqn:E1; [destruct (ok_slices _ (op_ok _ _ Ho))|].
Qed.

Lemma gpuSend_wait : sInv G P X D E m out (GpuSend j k step cache GSWait) p -> gpuSendGood G P X D E m out (GpuSend j k step cache GSWait) p.
Proof.
  intros I. destruct (si_total I) as (HG & _ & _ & _ & HH & _). pose proof (si_block I) as HB. cbn in HB.
  unfold gpuSendGood, gpuSendStep, gsRank. cbn. rewrite Ho. cbn. destruct (slices op !! k) as [d|] eqn:Ed.
  - destruct (blockAt_slice _ _ _ _ _ _ HB Ho Ed) as (sl & Hl & _ & _ & _ & Hend & _). rewrite Hend.
    destruct (Z.ltb_spec (wrap64 (cache + NCCL_STEPS)) (sl_end sl)) as [Hc|Hc]; (eexists _, _; split; [done|]; right; split).
    + destruct I. constructor; cbn in *; try done. intros _. exists (creditPos P D). done.
    + cbn. rewrite Ho. cbn. rewrite Ed, Hend. rewrite (si_head I), (headVal_credit _ HH). unfold gsEnabled. intros He.
      apply lookup_lt_Some in Hl as Hlt. rewrite Nat.min_l in He by (unfold total; lia). rewrite (endOf_S _ _ Hl) in He.
      destruct (Z.ltb_spec (endOf (creditPos P D) + slack) (sl_end sl)); lia.
    + destruct (si_cache I eq_refl) as (i & Hi & Ei). cbn in Ei. subst cache. rewrite headVal_credit in Hc by lia.
      pose proof (endOf_mono i (creditPos P D) Hi HH). destruct I. constructor; fields; try done.
      * intros _. by exists op, d.
      * rewrite (endOf_S _ _ Hl). lia.
    + cbn. lia.
  - eexists _, _. split; [done|]. right. split; [|cbn; lia]. destruct I. constructor; cbn in *; try done. by eapply blockAt_next.
Qed.

(** The slice the block has credit for. *)
Lemma gpuSend_slice pc : sInv G P X D E m out (GpuSend j k step cache pc) p -> gsCredit pc = true ->
  exists sl, slices op !! k = Some (sl_data sl) /\ all !! G = Some sl /\ sl_netOp sl = op /\ sl_slot sl = step mod NCCL_STEPS /\
    wrap64 (step + sliceSteps op) = sl_end sl /\ blockAt false j (S k) (wrap64 (step + sliceSteps op)) (S G).
Proof.
  intros I Hc. destruct (si_slice I Hc) as (op' & d & Ho' & Hd). cbn in *. rewrite Ho in Ho'. injection Ho' as <-. pose proof (si_block I) as HB. cbn in HB.
  replace (gsLoad pc) with false in HB by (by destruct pc). destruct (blockAt_slice _ _ _ _ _ _ HB Ho Hd) as (sl & Hl & E1 & E2 & E3 & E4 & HB').
  exists sl. rewrite E2. unfold sl_slot. rewrite E3. done.
Qed.

Lemma gpuSend_size : sInv G P X D E m out (GpuSend j k step cache GSSize) p -> gpuSendGood G P X D E m out (GpuSend j k step cache GSSize) p.
Proof.
  intros I. destruct (gpuSend_slice _ I eq_refl) as (sl & Hd & Hl & _ & Hs & _). unfold gpuSendGood, gpuSendStep. cbn. rewrite Ho. cbn. rewrite Hd. cbn.
  eexists _, _. split; [done|]. right. split; [|unfold gsRank; cbn; lia]. pose proof (si_order I) as HO.
  assert (forall i sl', (X <= i < G)%nat -> all !! i = Some sl' -> sl_slot sl' <> step mod NCCL_STEPS) as Hne.
  { intros i sl' Hi Hl'. rewrite <- Hs. apply (si_slots I i G); try done; cbn; lia. }
  destruct I. constructor; cbn in *; try done. intros i sl' Hi Hl'. destruct (decide (i = G)) as [->|Hi'].
  - rewrite Hl in Hl'. injection Hl' as <-. rewrite Hs. by rewrite put_eq.
  - rewrite put_ne by (apply (Hne i sl'); [lia|done]). apply (si_size0 i); [lia|done].
Qed.

Lemma gpuSend_ptr : sInv G P X D E m out (GpuSend j k step cache GSPtr) p -> gpuSendGood G P X D E m out (GpuSend j k step cache GSPtr) p.
Proof.
  intros I. destruct (gpuSend_slice _ I eq_refl) as (sl & Hd & Hl & _ & Hs & _). unfold gpuSendGood, gpuSendStep. cbn. rewrite Ho. cbn.
  eexists _, _. split; [done|]. right. split; [|unfold gsRank; cbn; lia]. pose proof (si_posted I) as HP. cbn in HP.
  pose proof (si_order I) as HO. pose proof (si_off I) as Hoff. destruct I. constructor; cbn in *; try done.
  intros ptr sl' [= <-] Hl'. rewrite Hl in Hl'. injection Hl' as <-. rewrite <- Hs. destruct shared eqn:Es.
  - apply (Hoff eq_refl G); [|done]. specialize (HP eq_refl). unfold upTo. destruct (spPosting _); lia.
  - unfold sAddr, addrOf. by rewrite Es.
Qed.

Lemma gpuSend_data ptr : sInv G P X D E m out (GpuSend j k step cache (GSData ptr)) p -> gpuSendGood G P X D E m out (GpuSend j k step cache (GSData ptr)) p.
Proof.
  intros I. destruct (gpuSend_slice _ I eq_refl) as (sl & Hd & Hl & _ & Hs & _). unfold gpuSendGood, gpuSendStep. cbn. rewrite Ho. cbn. rewrite Hd. cbn.
  eexists _, _. split; [done|]. right. split; [|unfold gsRank; cbn; lia]. pose proof (si_order I) as HO. rewrite (si_ptr I ptr sl eq_refl Hl).
  assert (forall i sl', (E <= i < G)%nat -> all !! i = Some sl' ->
    sAddr sl' + Z.of_nat (length (sl_data sl')) <= sAddr sl \/ sAddr sl + Z.of_nat (length (sl_data sl)) <= sAddr sl') as Hne.
  { intros i sl' Hi Hl'. apply (si_addr I i G); try done; cbn; lia. }
  destruct I. constructor; cbn in *; try done. intros i sl' Hi Hl'. destruct (decide (i = G)) as [->|Hi'].
  - rewrite Hl in Hl'. injection Hl' as <-. apply writeMem_same.
  - rewrite writeMem_other by (apply (Hne i); [lia|done]). apply (si_buff0 i); [lia|done].
Qed.

Lemma gpuSend_post : sInv G P X D E m out (GpuSend j k step cache GSPost) p -> gpuSendGood G P X D E m out (GpuSend j k step cache GSPost) p.
Proof.
  intros I. destruct (gpuSend_slice _ I eq_refl) as (sl & Hd & Hl & _ & Hs & He & HB). unfold gpuSendGood, gpuSendStep. cbn. rewrite Ho. cbn.
  eexists _, _. split; [done|]. left. destruct I. constructor; fields; try done.
  - lia.
  - by apply sendAt_more.
  - by rewrite He, (endOf_S _ _ Hl).
Qed.

End gpuSend.

Lemma gpuSend_good G P X D E m out g p op : sInv G P X D E m out g p -> ops !! gs_op g = Some op -> gpuSendGood G P X D E m out g p.
Proof.
  destruct g as [j k step cache pc]. intros I Ho. cbn in Ho. destruct pc.
  - by eapply gpuSend_load.
  - by eapply gpuSend_wait.
  - by eapply gpuSend_size.
  - by eapply gpuSend_ptr.
  - by eapply gpuSend_data.
  - by eapply gpuSend_post.
Qed.

(** *** Counters and depth *)

Section depth.

Context (subs index : netOp V -> Z).
Context (subs_ok : forall op, opOk op -> 0 <= index op < subs op /\ subs op <= (if shared then NCCL_SHARED_STEPS else 1)).
Context (j : nat) (op : netOp V) (Ho : ops !! j = Some op).

Lemma counter_room c i d D : counterAt j op c i -> counterAt j op d D -> c < d + maxDepth (subs op) -> c + sliceSteps op <= d + maxDepth (subs op).
Proof.
  intros (k & _ & -> & _) (k' & _ & -> & _) Hlt. pose proof (op_ok _ _ Ho) as K. destruct (depth_bound subs index subs_ok _ K) as [_ [q Eq]]. rewrite Eq in *.
  pose proof (ok_slice _ K). assert (Z.of_nat k < Z.of_nat k' + q) by (apply (Z.mul_lt_mono_pos_r (sliceSteps op)); [done|rewrite Z.mul_add_distr_r; lia]).
  assert ((Z.of_nat k + 1) * sliceSteps op <= (Z.of_nat k' + q) * sliceSteps op) by (apply Z.mul_le_mono_nonneg_r; lia). lia.
Qed.

(** Slices a proxy has posted and not seen done are near. *)
Lemma counters_near d D a i b i' sl sl' : counterAt j op d D -> counterAt j op a i -> counterAt j op b i' -> (D <= i)%nat -> (i < i')%nat ->
  b < nsteps op -> b < d + maxDepth (subs op) -> all !! i = Some sl -> all !! i' = Some sl' -> near subs sl sl'.
Proof.
  intros HD Ha Hb Hle Hlt Hn Hd Hl Hl'. pose proof (op_ok _ _ Ho) as K. destruct (depth_bound subs index subs_ok _ K) as [H8 _].
  pose proof (proj2 (counterAt_lt _ _ Ho _ _ _ _ Ha Hb) Hlt). pose proof (proj2 (counterAt_le _ _ Ho _ _ _ _ HD Ha) Hle). pose proof (counter_room _ _ _ _ Hb HD Hd).
  destruct (counterAt_slice _ _ Ho _ _ Ha ltac:(lia)) as (s & Hs & E1 & E2 & E3 & E4 & _). destruct (counterAt_slice _ _ Ho _ _ Hb Hn) as (s' & Hs' & E1' & E2' & E3' & E4' & _).
  rewrite Hl in Hs. rewrite Hl' in Hs'. injection Hs as <-. injection Hs' as <-. unfold near, sl_end, sl_width. destruct shared.
  - rewrite E1, E1', E2, E3, E3'. split; [done|lia].
  - rewrite E4, E4', E2'. lia.
Qed.

End depth.

(** *** The proxy of the sender *)

(** How far the proxy is from posting or sending, and from seeing a message arrive. *)
Definition spRank (p : sendProxy) : nat :=
  match sp_pc p with
  | SPStart => 5
  | SPLoop => match ops !! sp_op p with Some op => if sp_done p =? nsteps op then 6 else 4 | None => 0 end
  | SPSize => 3
  | SPTail => 2
  | SPTest => 7
  | _ => 0
  end.

Definition spRankAck (p : sendProxy) : nat :=
  match sp_pc p with
  | SPLoop => 4
  | SPSize => 3
  | SPTail => 2
  | SPTest => 1
  | _ => 0
  end.

(** There is something to post or to send, or all is done. *)
Definition spEnabled (G P X D : nat) : Prop := P = D \/ (X < G)%nat /\ (X < P)%nat \/ D = total.

Definition sendProxyGood (answer : bool) (G P X D E : nat) (m : connMem) (n : network) (g : gpuSend) (p : sendProxy) : Prop :=
  exists m' n' p', sendProxyStep answer m n p = Some (m', n', p') /\ inbox n' = inbox n /\ delivered n' = delivered n /\
    ((exists P' X' D', sInv G P' X' D' E m' (outbox n') g p' /\ (P <= P')%nat /\ (X <= X')%nat /\ (D <= D')%nat /\ (P + X + D < P' + X' + D')%nat) \/
     sInv G P X D E m' (outbox n') g p' /\
     (answer = true -> spEnabled G P X D -> (spRank p' < spRank p)%nat) /\ (answer = true -> (D < E)%nat -> (spRankAck p' < spRankAck p)%nat)).

Section sendProxy.

Context (answer : bool) (G P X D E : nat) (m : connMem) (n : network) (g : gpuSend).
Context (j : nat) (step base posted transmitted done : Z) (reqs : Z -> option nat) (op : netOp V).
Context (Ho : ops !! j = Some op) (HE : delivered n = E).

Local Abbreviation prox pc := (SendProxy j step base posted transmitted done reqs pc).

Lemma sendProxy_start : sInv G P X D E m (outbox n) g (prox SPStart) -> sendProxyGood answer G P X D E m n g (prox SPStart).
Proof.
  intros I. unfold sendProxyGood, sendProxyStep. cbn. rewrite Ho. cbn. proxy_step. right.
  destruct (si_proxy I) as (Hj & Hs & HP & HX & HD). cbn in *. pose proof (op_ok _ _ Ho) as K. pose proof (si_order I) as HO.
  pose proof (endAfter_bound j). pose proof (endAfter_bound (S j)) as Hb. rewrite (endAfter_S _ _ Ho) in Hb.
  destruct (depth_bound sendSubs sendIndex ok_send _ K) as [Hd _]. pose proof (op_nsteps _ K) as Hn.
  rewrite Hs, ROUNDUP_small by (apply K || done). fold (baseOf j op). rewrite (wrap64_small (baseOf j op + nsteps op)) by lia. split; [|split].
  - destruct I. constructor; cbn in *; try done. exists op. cbn. split_and!; try done; try lia; subst; apply counterAt_zero.
  - intros _ _. unfold spRank. cbn. rewrite Ho. destruct (nsteps op); lia.
  - lia.
Qed.

(** The counters, while the proxy is in an operation. *)
Lemma sendProxy_counters pc : sInv G P X D E m (outbox n) g (prox pc) -> pc <> SPStart ->
  base = baseOf j op /\ step = baseOf j op + nsteps op /\ counterAt j op posted P /\ counterAt j op transmitted X /\ counterAt j op done D /\
  posted <= done + maxDepth (sendSubs op) /\ 0 <= done <= transmitted /\ transmitted <= posted <= nsteps op.
Proof.
  intros I Hpc. pose proof (si_proxy I) as HA. pose proof (si_order I) as HO. unfold sendAt in HA. cbn in HA.
  assert (exists op', ops !! j = Some op' /\ base = baseOf j op' /\ step = baseOf j op' + nsteps op' /\ counterAt j op' posted P /\ counterAt j op' transmitted X /\
    counterAt j op' done D /\ posted <= done + maxDepth (sendSubs op')) as (op' & Ho' & E1 & E2 & HP & HX & HD & Hle).
  { destruct pc; try done; destruct HA as (op' & H1 & H2 & H3 & H4 & H5 & H6 & H7 & _); exists op'; by split_and!. }
  rewrite Ho in Ho'. injection Ho' as <-. pose proof (counterAt_le _ _ Ho _ _ _ _ HD HX). pose proof (counterAt_le _ _ Ho _ _ _ _ HX HP).
  pose proof (counterAt_max _ _ Ho _ _ HP). pose proof (counterAt_max _ _ Ho _ _ HD). split_and!; try done; lia.
Qed.

Lemma sendProxy_next : sInv G P X D E m (outbox n) g (prox SPLoop) -> done = nsteps op -> sendProxyGood answer G P X D E m n g (prox SPLoop).
Proof.
  intros I Hdone. destruct (sendProxy_counters _ I ltac:(done)) as (-> & -> & HP & HX & HD & Hle & H1 & H2). pose proof (si_order I) as HO.
  unfold sendProxyGood, sendProxyStep. cbn. rewrite Ho. cbn. rewrite (proj2 (Z.eqb_eq _ _) Hdone). proxy_step. right.
  split; [|split].
  - pose proof (counterAt_end _ _ Ho _ _ HP ltac:(lia)). pose proof (counterAt_end _ _ Ho _ _ HX ltac:(lia)). pose proof (counterAt_end _ _ Ho _ _ HD Hdone).
    apply lookup_lt_Some in Ho as Hj. destruct I. constructor; cbn in *; try done. split_and!; try done; try lia. by rewrite (endAfter_S _ _ Ho).
  - intros _ _. unfold spRank. cbn. lia.
  - intros _ Hlt. pose proof (counterAt_end _ _ Ho _ _ HX ltac:(lia)). pose proof (counterAt_end _ _ Ho _ _ HD Hdone). lia.
Qed.

(** Only the program counter changes. *)
Lemma sInv_goto pc pc' : sInv G P X D E m (outbox n) g (prox pc) -> pc <> SPStart -> pc' <> SPStart -> spPosting pc = false -> spPosting pc' = false ->
  match pc' with SPSize | SPTail => (X < P)%nat | SPSend => (X < P)%nat /\ (X < G)%nat | SPAck => (D < E)%nat | _ => True end ->
  sInv G P X D E m (outbox n) g (prox pc').
Proof.
  intros I Hpc Hpc' Hq Hq' Hside. destruct (sendProxy_counters _ I Hpc) as (H1 & H2 & H3 & H4 & H5 & H6 & _).
  destruct I. constructor; fields; try assumption.
  - destruct pc'; try done; exists op; split_and!; try done; apply Hside.
  - rewrite Hq'. by rewrite Hq in si_off0.
Qed.

Lemma sendProxy_post_shared : sInv G P X D E m (outbox n) g (prox SPLoop) -> shared = true -> posted < nsteps op -> posted < done + maxDepth (sendSubs op) ->
  sInv G P X D E (setOffset ((base + posted) mod NCCL_STEPS) (sharedBuffersGet (posted mod maxDepth (sendSubs op) * sendSubs op + sendIndex op)) m) (outbox n) g (prox SPPost).
Proof.
  intros I Es Hn Hd. destruct (sendProxy_counters _ I ltac:(done)) as (-> & -> & HP & HX & HD & Hle & H1 & H2). pose proof (si_order I) as HO.
  destruct (counterAt_slice _ _ Ho _ _ HP Hn) as (sl & Hl & E1 & E2 & E3 & E4 & _). rewrite <- E4. fold (sl_slot sl).
  replace (sharedBuffersGet _) with (sAddr sl) by (unfold sAddr, addrOf; by rewrite Es, E2, E3).
  assert (forall i sl', (X <= i < P)%nat -> all !! i = Some sl' -> sl_slot sl' <> sl_slot sl) as Hne.
  { intros i sl' Hi Hl'. apply (slots_differ i P sl' sl Hl' Hl ltac:(lia)). eapply (near_window sendSubs sendIndex ok_send); [exact Hl'|exact Hl|].
    destruct (counterAt_between _ _ Ho _ _ _ _ i HX HP ltac:(lia)) as (c & Hc & _). eapply (counters_near sendSubs sendIndex ok_send j op Ho done D c i posted P); try done; lia. }
  destruct I. constructor; fields; try assumption.
  - exists op. by split_and!.
  - intros _ i sl' Hi Hl'. destruct (decide (i = P)) as [->|Hi'].
    + rewrite Hl in Hl'. injection Hl' as <-. by rewrite put_eq.
    + rewrite put_ne by (apply (Hne i); [lia|done]). apply (si_off0 Es i); [lia|done].
Qed.

Lemma sInv_posted : sInv G P X D E m (outbox n) g (prox SPLoop) -> shared = false -> posted < nsteps op -> posted < done + maxDepth (sendSubs op) ->
  sInv G (S P) X D E m (outbox n) g (SendProxy j step base (posted + sliceSteps op) transmitted done reqs SPLoop).
Proof.
  intros I Es Hn Hd. destruct (sendProxy_counters _ I ltac:(done)) as (-> & -> & HP & HX & HD & Hle & H1 & H2).
  destruct (counterAt_slice _ _ Ho _ _ HP Hn) as (sl & Hl & E1 & E2 & E3 & E4 & HS). pose proof (counter_room sendSubs sendIndex ok_send _ _ Ho _ _ _ _ HP HD Hd).
  destruct I. constructor; unfold creditPos in *; rewrite Es in *; fields; try assumption; try done.
  - lia.
  - exists op. by split_and!.
Qed.

Lemma sendProxy_loop : sInv G P X D E m (outbox n) g (prox SPLoop) -> done <> nsteps op -> sendProxyGood answer G P X D E m n g (prox SPLoop).
Proof.
  intros I Hdone. destruct (sendProxy_counters _ I ltac:(done)) as (Eb & Es & HP & HX & HD & Hle & H1 & H2). pose proof (si_order I) as HO.
  pose proof (op_ok _ _ Ho) as K. destruct (depth_bound sendSubs sendIndex ok_send _ K) as [Hdep _].
  unfold sendProxyGood, sendProxyStep, spRank. cbn. rewrite Ho. cbn. rewrite (proj2 (Z.eqb_neq _ _) Hdone).
  destruct (Z.ltb_spec posted (nsteps op)) as [Hn|Hn]; [destruct (Z.ltb_spec posted (done + maxDepth (sendSubs op))) as [Hd|Hd]|]; cbn.
  1: { destruct shared eqn:Esh; proxy_step.
    - right. split; [by apply sendProxy_post_shared|]. cbn. split; intros; lia.
    - left. exists (S P), X, D. split; [by apply sInv_posted|]. lia. }
  all: pose proof (counterAt_lt _ _ Ho _ _ _ _ HX HP) as HXP; pose proof (counterAt_lt _ _ Ho _ _ _ _ HD HP) as HDP; pose proof (counterAt_total _ _ Ho _ _ HP) as HT.
  all: destruct (Z.ltb_spec transmitted posted) as [Ht|Ht]; [rewrite (proj2 (Z.ltb_lt transmitted (done + NCCL_STEPS))) by lia|]; cbn.
  all: proxy_step; right; (split; [apply (sInv_goto SPLoop); try done; lia|]); cbn; split; try (intros; lia).
  all: unfold spEnabled; intros; lia.
Qed.

Lemma headVal_S c i : counterAt j op c i -> c < nsteps op -> headVal (S i) = wrap64 (baseOf j op + (c + sliceSteps op) + slack - NCCL_STEPS).
Proof.
  intros Hc Hn. destruct (counterAt_slice _ _ Ho _ _ Hc Hn) as (sl & Hl & _ & E2 & _ & E4 & _). unfold headVal. rewrite (endOf_S _ _ Hl).
  unfold sl_end, sl_width. rewrite E2, E4. f_equal. lia.
Qed.

Lemma sendProxy_post : sInv G P X D E m (outbox n) g (prox SPPost) -> sendProxyGood answer G P X D E m n g (prox SPPost).
Proof.
  intros I. destruct (sendProxy_counters _ I ltac:(done)) as (-> & -> & HP & HX & HD & Hle & H1 & H2). pose proof (si_order I) as HO.
  pose proof (si_proxy I) as (op' & Ho' & _ & _ & _ & _ & _ & _ & Es & Hn & Hd). cbn in Ho', Hn, Hd. rewrite Ho in Ho'. injection Ho' as <-.
  destruct (counterAt_slice _ _ Ho _ _ HP Hn) as (sl & Hl & _ & _ & _ & _ & HS). pose proof (counter_room sendSubs sendIndex ok_send _ _ Ho _ _ _ _ HP HD Hd).
  pose proof (headVal_S _ _ HP Hn) as Hh. pose proof (endOf_mono P (S P) ltac:(lia) (counterAt_total _ _ Ho _ _ HS)).
  unfold sendProxyGood, sendProxyStep. cbn. rewrite Ho. cbn. proxy_step. left.
  exists (S P), X, D. split; [|lia]. unfold slack in Hh. rewrite Es in Hh. rewrite Z.add_0_r in Hh.
  destruct I. constructor; unfold creditPos in *; rewrite Es in *; fields; try assumption; try done.
  - lia.
  - exists op. by split_and!.
  - intros Hg. destruct (si_cache0 Hg) as (i & Hi & ->). exists i. split; [lia|done].
  - lia.
Qed.

Lemma sendProxy_slot : sInv G P X D E m (outbox n) g (prox SPSend) \/ sInv G P X D E m (outbox n) g (prox SPSize) \/ sInv G P X D E m (outbox n) g (prox SPTail) ->
  exists sl, all !! X = Some sl /\ sl_slot sl = (base + transmitted) mod NCCL_STEPS /\ sl_step sl = base + transmitted /\ counterAt j op (transmitted + sliceSteps op) (S X).
Proof.
  intros HI. assert (exists pc, sInv G P X D E m (outbox n) g (prox pc) /\ pc <> SPStart /\ (X < P)%nat) as (pc & I & Hpc & Hlt).
  { destruct HI as [I|[I|I]]; eexists; (split; [exact I|]); (split; [done|]); destruct (si_proxy I) as (? & _ & _ & _ & _ & _ & _ & _ & Hs); cbn in Hs; lia. }
  destruct (sendProxy_counters _ I Hpc) as (-> & -> & HP & HX & HD & Hle & H1 & H2). pose proof (proj2 (counterAt_lt _ _ Ho _ _ _ _ HX HP) Hlt).
  destruct (counterAt_slice _ _ Ho _ _ HX ltac:(lia)) as (sl & Hl & _ & _ & _ & E4 & HS). exists sl. unfold sl_slot. rewrite E4. done.
Qed.

Lemma sendProxy_size : sInv G P X D E m (outbox n) g (prox SPSize) -> sendProxyGood answer G P X D E m n g (prox SPSize).
Proof.
  intros I. destruct (sendProxy_slot ltac:(auto)) as (sl & Hl & Hs & _). pose proof (si_order I) as HO.
  pose proof (si_proxy I) as (op' & Ho' & _ & _ & _ & _ & _ & _ & Hlt). cbn in Hlt. apply lookup_lt_Some in Hl as HT. fold total in HT.
  unfold sendProxyGood, sendProxyStep. cbn. rewrite Ho. cbn. rewrite <- Hs.
  destruct (Z.eqb_spec (fifoSize m (sl_slot sl)) (-1)) as [Hz|Hz]; proxy_step; right;
    (split; [by apply (sInv_goto SPSize)|]); unfold spRank, spRankAck; cbn; (split; [|lia]); [|lia].
  intros _ He. exfalso. unfold spEnabled in He. assert (X < G)%nat as HXG by lia.
  rewrite (si_size I X sl) in Hz; [lia| |done]. split; [done|]. unfold upTo. destruct (gsSized _); lia.
Qed.

Lemma sendProxy_tail : sInv G P X D E m (outbox n) g (prox SPTail) -> sendProxyGood answer G P X D E m n g (prox SPTail).
Proof.
  intros I. destruct (sendProxy_slot ltac:(auto)) as (sl & Hl & _ & Hs & _). pose proof (si_order I) as HO. destruct (si_total I) as (HG & _).
  pose proof (si_proxy I) as (op' & Ho' & _ & _ & _ & _ & _ & _ & Hlt). cbn in Hlt. apply lookup_lt_Some in Hl as HT. fold total in HT.
  unfold sendProxyGood, sendProxyStep. cbn. rewrite Ho. cbn. rewrite <- Hs, (si_tail I).
  assert (sl_step sl < endOf G <-> (X < G)%nat) as Hiff.
  { split; intros H.
    - destruct (Nat.le_gt_cases G X) as [Hle|]; [|done]. pose proof (endOf_le G X sl Hl Hle). lia.
    - pose proof (endOf_mono (S X) G ltac:(lia) HG) as Hm. rewrite (endOf_S _ _ Hl) in Hm. destruct (all_bounds _ _ Hl) as (_ & _ & Hw & _). unfold sl_end in Hm. lia. }
  destruct (Z.ltb_spec (sl_step sl) (endOf G)) as [Hz|Hz]; proxy_step; right;
    (split; [apply (sInv_goto SPTail); try done; by apply Hiff in Hz|]); unfold spRank, spRankAck; cbn; (split; [|lia]); unfold spEnabled; lia.
Qed.

Lemma sendProxy_requests i : sInv G P X D E m (outbox n) g (prox SPSend) -> forall i' sl sl', (D <= i' < X)%nat -> all !! i' = Some sl' -> all !! X = Some sl ->
  put reqs (sl_slot sl) i (sl_slot sl') = Some i'.
Proof.
  intros I i' sl sl' Hi' Hl' Hl. pose proof (si_proxy I) as (op' & Ho' & _ & _ & _ & _ & _ & _ & Hlt). cbn in Hlt.
  rewrite put_ne; [by apply (si_req I)|]. apply (si_slots I i' X); try done; [lia|lia|]. left. unfold upTo. destruct (gsCredit _); lia.
Qed.

Lemma sendProxy_send : sInv G P X D E m (outbox n) g (prox SPSend) -> sendProxyGood answer G P X D E m n g (prox SPSend).
Proof.
  intros I. destruct (sendProxy_slot ltac:(auto)) as (sl & Hl & Hs & _ & HS). pose proof (si_order I) as HO. pose proof (sendProxy_requests) as Hreq.
  destruct (sendProxy_counters _ I ltac:(done)) as (Eb & Est & HP & HX & HD & Hle & H1 & H2).
  pose proof (si_proxy I) as (op' & Ho' & _ & _ & _ & _ & _ & _ & Hlt). cbn in Hlt. apply lookup_lt_Some in Hl as HT.
  unfold sendProxyGood, sendProxyStep. cbn. rewrite Ho. cbn. rewrite <- Hs. destruct answer.
  - assert ((if shared then fifoOffset m (sl_slot sl) else sl_slot sl * stepSize) = sAddr sl) as ->.
    { destruct shared eqn:Esh; [|unfold sAddr, addrOf; by rewrite Esh]. apply (si_off I Esh X); [cbn; lia|done]. }
    rewrite (si_size I X sl) by (try done; unfold upTo; destruct (gsSized _); lia). proxy_step. left.
    exists P, (S X), D. split; [|lia]. assert (length (outbox n) = X) as EX by (rewrite (si_out I), length_fmap, length_take; lia).
    specialize (fun i => Hreq i I). destruct I. constructor; cbn in *; try done; try lia.
    + exists op. by split_and!.
    + intros i sl' Hi. apply si_size0. lia.
    + intros Esh i sl' Hi. apply (si_off0 Esh). lia.
    + by rewrite (take_S_r _ _ _ Hl), fmap_app, si_out0.
    + intros i sl' Hi Hl'. destruct (decide (i = X)) as [->|Hi']; [|apply Hreq; try done; lia].
      rewrite Hl in Hl'. injection Hl' as <-. by rewrite put_eq, EX.
  - proxy_step. right. split; [|done].
    specialize (Hreq None I). destruct I. constructor; cbn in *; try done.
    + exists op. by split_and!.
    + intros i sl' Hi Hl'. by apply Hreq.
Qed.

Lemma sendProxy_test : sInv G P X D E m (outbox n) g (prox SPTest) -> sendProxyGood answer G P X D E m n g (prox SPTest).
Proof.
  intros I. pose proof (si_order I) as HO. destruct (sendProxy_counters _ I ltac:(done)) as (Eb & Est & HP & HX & HD & Hle & H1 & H2).
  pose proof (counterAt_lt _ _ Ho _ _ _ _ HD HX) as Hiff. unfold sendProxyGood, sendProxyStep. cbn. rewrite Ho. cbn.
  assert (sInv G P X D E m (outbox n) g (prox SPLoop)) as IL by (by apply (sInv_goto SPTest)).
  assert (spRank (prox SPLoop) < spRank (prox SPTest))%nat as HrA.
  { unfold spRank. cbn. rewrite Ho. destruct (_ =? _); lia. }
  destruct (Z.ltb_spec done transmitted) as [Hlt|Hlt].
  - destruct (counterAt_slice _ _ Ho _ _ HD ltac:(lia)) as (sl & Hl & _ & _ & _ & E4 & _). rewrite Eb, <- E4. fold (sl_slot sl).
    pose proof (si_req I D sl ltac:(lia) Hl) as Hr. cbn in Hr. rewrite Hr. cbn. unfold netTest. rewrite HE. destruct answer; cbn [andb]; [destruct (Nat.ltb_spec D E) as [HDE|HDE]|].
    + proxy_step. right. split; [|unfold spRank, spRankAck; cbn; lia].
      assert (forall i sl', (X <= i < upTo (gsSized (gs_pc g)) G)%nat -> all !! i = Some sl' -> sl_slot sl' <> sl_slot sl) as Hne.
      { intros i sl' Hi Hl'. apply not_eq_sym. apply (si_slots I D i); try done; [lia|]. left. unfold upTo in *. destruct (gs_pc g); cbn in *; lia. }
      destruct I. constructor; cbn in *; try done.
      * exists op. by split_and!.
      * intros i sl' Hi Hl'. rewrite put_ne by (by apply (Hne i)). by apply (si_size0 i).
    + proxy_step. right. rewrite <- Eb. split; [exact IL|]. split; [done|lia].
    + proxy_step. right. rewrite <- Eb. split; [exact IL|]. done.
  - proxy_step. right. split; [exact IL|]. split; [done|lia].
Qed.

Lemma sendProxy_ack : sInv G P X D E m (outbox n) g (prox SPAck) -> sendProxyGood answer G P X D E m n g (prox SPAck).
Proof.
  intros I. pose proof (si_order I) as HO. destruct (sendProxy_counters _ I ltac:(done)) as (-> & -> & HP & HX & HD & Hle & H1 & H2).
  pose proof (si_proxy I) as (op' & Ho' & _ & _ & _ & _ & _ & _ & HDE). cbn in HDE. pose proof (proj2 (counterAt_lt _ _ Ho _ _ _ _ HD HX) ltac:(lia)) as Hlt.
  pose proof (ok_slice _ (op_ok _ _ Ho)). destruct (counterAt_slice _ _ Ho _ _ HD ltac:(lia)) as (sl & Hl & _ & _ & _ & _ & HS).
  pose proof (headVal_S _ _ HD ltac:(lia)) as Hh. pose proof (endOf_mono D (S D) ltac:(lia) (counterAt_total _ _ Ho _ _ HS)).
  unfold sendProxyGood, sendProxyStep. cbn. rewrite Ho. cbn. proxy_step. left.
  exists P, X, (S D). split; [|lia]. unfold slack in Hh. 
  destruct I. constructor; unfold creditPos in *; destruct shared eqn:Esh; rewrite ?Z.add_simpl_r in Hh;
    fields; try assumption; try done; try lia.
  1,2: exists op; cbn; split_and!; try done; lia.
  - intros Hg. destruct (si_cache0 Hg) as (i & Hi & ->). exists i. split; [lia|done].
  - intros i sl' Hi. apply si_req0. lia.
  - intros i sl' Hi. apply si_req0. lia.
Qed.

End sendProxy.

Lemma sendProxy_good answer G P X D E m n g p op : sInv G P X D E m (outbox n) g p -> delivered n = E -> ops !! sp_op p = Some op ->
  sendProxyGood answer G P X D E m n g p.
Proof.
  destruct p as [j step base posted transmitted done reqs pc]. intros I HE Ho. cbn in Ho. destruct pc.
  - by eapply sendProxy_start.
  - destruct (decide (done = nsteps op)); [by eapply sendProxy_next|by eapply sendProxy_loop].
  - by eapply sendProxy_post.
  - by eapply sendProxy_size.
  - by eapply sendProxy_tail.
  - by eapply sendProxy_send.
  - by eapply sendProxy_test.
  - by eapply sendProxy_ack.
Qed.

(** A message arrives. *)
Lemma sInv_deliver G P X D E m out g p : sInv G P X D E m out g p -> (E < X)%nat -> sInv G P X D (S E) m out g p.
Proof.
  intros I Hlt. destruct I. constructor; try done.
  - lia.
  - unfold sendAt in *. destruct (sp_pc p); try done. destruct si_proxy0 as (op & H1 & H2 & H3 & H4 & H5 & H6 & H7 & H8). exists op. split_and!; try done. lia.
  - intros i sl Hi. apply si_buff0. lia.
Qed.

(** ** The side of the receiver *)

Definition rAddr : slice -> Z := addrOf recvSubs recvIndex.

Definition grLoad (pc : gpuRecvPc) : bool := match pc with GRLoad => true | _ => false end.
Definition grSlice (pc : gpuRecvPc) : bool := match pc with GRLoad | GRWait => false | _ => true end.
Definition grCached (pc : gpuRecvPc) : bool := match pc with GRLoad | GRCache => false | _ => true end.
Definition grCredit (pc : gpuRecvPc) : bool := match pc with GRPtr | GRData _ | GRPost => true | _ => false end.
Definition grRead (pc : gpuRecvPc) : bool := match pc with GRPost => true | _ => false end.
Definition rpPosting (pc : recvPc) : bool := match pc with RPIrecv => true | _ => false end.

(** The proxy has posted [P] buffers, seen [R] filled, told the block of [T] and seen
    it take [D]. *)
Definition recvAt (p : recvProxy) (P R T D : nat) : Prop :=
  match rp_pc p with
  | RPStart => (rp_op p <= length ops)%nat /\ rp_step p = endAfter (take (rp_op p) ops) /\
      P = pos (rp_op p) 0 /\ R = pos (rp_op p) 0 /\ T = pos (rp_op p) 0 /\ D = pos (rp_op p) 0
  | pc =>
      exists op, ops !! rp_op p = Some op /\ rp_base p = baseOf (rp_op p) op /\ rp_step p = baseOf (rp_op p) op + nsteps op /\
        counterAt (rp_op p) op (rp_posted p) P /\ counterAt (rp_op p) op (rp_received p) R /\
        counterAt (rp_op p) op (rp_transmitted p) T /\ counterAt (rp_op p) op (rp_done p) D /\
        rp_done p < nsteps op /\ rp_posted p <= rp_done p + maxDepth (recvSubs op) /\
        match pc with
        | RPIrecv => rp_posted p < nsteps op /\ rp_posted p < rp_done p + maxDepth (recvSubs op)
        | RPTail => (T < R)%nat
        | RPFlush s _ => exists i, R = S i /\ (T <= i)%nat /\ counterAt (rp_op p) op s i
        | _ => True
        end
  end.

(** The block has read [Q] slices, and [E] have arrived. *)
Record rInv (P R T D Q E : nat) (m : connMem) (inb : list (Z * Z)) (g : gpuRecv) (p : recvProxy) : Prop := {
  ri_order : (D <= Q)%nat /\ (Q <= T)%nat /\ (T <= R)%nat /\ (R <= E)%nat /\ (E <= P)%nat;
  ri_block : blockAt (grLoad (gr_pc g)) (gr_op g) (gr_slice g) (gr_step g) Q;
  ri_proxy : recvAt p P R T D;
  ri_head : endOf Q <= head m /\ forall sl, all !! Q = Some sl -> head m <= sl_step sl;
  ri_seen : forall h, rp_pc p = RPAck h -> h <= head m;
  ri_tail : tail m = endOf T;
  ri_cache : grCached (gr_pc g) = true -> gr_cache g <= endOf T;
  ri_slice : grSlice (gr_pc g) = true -> exists op d, ops !! gr_op g = Some op /\ slices op !! gr_slice g = Some d;
  ri_credit : grCredit (gr_pc g) = true -> (Q < T)%nat;
  ri_off : shared = true -> forall i sl, (Q <= i < upTo (rpPosting (rp_pc p)) P)%nat -> all !! i = Some sl -> fifoOffset m (sl_slot sl) = rAddr sl;
  ri_ptr : forall ptr sl, gr_pc g = GRData ptr -> all !! Q = Some sl -> ptr = rAddr sl;
  ri_buff : forall i sl, (upTo (grRead (gr_pc g)) Q <= i < E)%nat -> all !! i = Some sl ->
    readMem (buff m) (rAddr sl) (length (sl_data sl)) = sl_data sl;
  ri_in : inb = (fun sl => (rAddr sl, roomOf sl)) <$> take P all;
  ri_req : forall i sl, (R <= i < P)%nat -> all !! i = Some sl -> rp_requests p (sl_rel sl mod NCCL_STEPS) = Some (RecvRequest i);
  ri_forward : forall i sl x, (T <= i < R)%nat -> all !! i = Some sl -> rp_requests p (sl_rel sl mod NCCL_STEPS) <> Some (RecvRequest x);
  ri_out : gr_out g = sl_data <$> take (upTo (grRead (gr_pc g)) Q) all }.
Arguments ri_order {P R T D Q E m inb g p} _.
Arguments ri_block {P R T D Q E m inb g p} _.
Arguments ri_proxy {P R T D Q E m inb g p} _.
Arguments ri_head {P R T D Q E m inb g p} _.
Arguments ri_seen {P R T D Q E m inb g p} _.
Arguments ri_tail {P R T D Q E m inb g p} _.
Arguments ri_cache {P R T D Q E m inb g p} _.
Arguments ri_slice {P R T D Q E m inb g p} _.
Arguments ri_credit {P R T D Q E m inb g p} _.
Arguments ri_off {P R T D Q E m inb g p} _.
Arguments ri_ptr {P R T D Q E m inb g p} _.
Arguments ri_buff {P R T D Q E m inb g p} _.
Arguments ri_in {P R T D Q E m inb g p} _.
Arguments ri_req {P R T D Q E m inb g p} _.
Arguments ri_forward {P R T D Q E m inb g p} _.
Arguments ri_out {P R T D Q E m inb g p} _.

Ltac recv_fields := cbn [head tail fifoSize fifoOffset buff setHead setTail setSize setOffset setBuff
  gr_pc gr_op gr_slice gr_step gr_cache gr_out grLoad grSlice grCached grCredit grRead
  rp_op rp_step rp_base rp_posted rp_received rp_transmitted rp_done rp_requests rp_pc rpPosting upTo] in *.

Lemma recvAt_total p P R T D : recvAt p P R T D -> (P <= total)%nat.
Proof.
  unfold recvAt. destruct (rp_pc p).
  1: intros (Hj & _ & -> & _); by apply pos0_total.
  all: intros (op & Ho & _ & _ & HP & _); by eapply counterAt_total.
Qed.

(** Slices posted and not done are near, and have different places for requests. *)
Lemma ri_near {P R T D Q E m inb g p} (I : rInv P R T D Q E m inb g p) i i' sl sl' : (D <= i)%nat -> (i < i')%nat -> all !! i = Some sl -> all !! i' = Some sl' ->
  (i' < upTo (rpPosting (rp_pc p)) P)%nat -> near recvSubs sl sl' /\ sl_rel sl mod NCCL_STEPS <> sl_rel sl' mod NCCL_STEPS.
Proof.
  intros HD Hlt Hl Hl' Hi'. pose proof (ri_proxy I) as HA. pose proof (ri_order I) as HO. unfold recvAt in HA.
  assert (exists op, ops !! rp_op p = Some op /\ counterAt (rp_op p) op (rp_done p) D /\ exists c, counterAt (rp_op p) op c (upTo (rpPosting (rp_pc p)) P) /\
    forall x, counterAt (rp_op p) op x i' -> x < rp_done p + maxDepth (recvSubs op)) as (op & Ho & HcD & c & Hc & Hx).
  { destruct (rp_pc p); cbn [rpPosting upTo] in *; [lia|..]; destruct HA as (op & Ho & _ & _ & HP & _ & _ & HcD & _ & Hle & Hpc); exists op; (split; [done|]); (split; [done|]).
    2: { destruct Hpc as (Hn & Hd). destruct (counterAt_slice _ _ Ho _ _ HP Hn) as (_ & _ & _ & _ & _ & _ & HS). eexists. split; [exact HS|].
         intros x Hx. pose proof (counterAt_le _ _ Ho _ _ _ _ Hx HP). lia. }
    all: exists (rp_posted p); split; [done|]; intros x Hx; pose proof (counterAt_lt _ _ Ho _ _ _ _ Hx HP); lia. }
  destruct (counterAt_between _ _ Ho _ _ _ _ i HcD Hc ltac:(lia)) as (a & Ha & Han). destruct (counterAt_between _ _ Ho _ _ _ _ i' HcD Hc ltac:(lia)) as (b & Hb & Hbn).
  split; [eapply (counters_near recvSubs recvIndex ok_recv _ _ Ho _ _ _ _ _ _ _ _ HcD Ha Hb); try done; by apply Hx|].
  destruct (counterAt_slice _ _ Ho _ _ Ha Han) as (s & Hs & _ & _ & E3 & _). destruct (counterAt_slice _ _ Ho _ _ Hb Hbn) as (s' & Hs' & _ & _ & E3' & _).
  rewrite Hl in Hs. rewrite Hl' in Hs'. injection Hs as <-. injection Hs' as <-. rewrite E3, E3'. apply mod_differ; [done|].
  destruct (depth_bound recvSubs recvIndex ok_recv _ (op_ok _ _ Ho)) as [Hd _]. pose proof (Hx _ Hb).
  pose proof (proj2 (counterAt_le _ _ Ho _ _ _ _ HcD Ha) HD). pose proof (proj2 (counterAt_lt _ _ Ho _ _ _ _ Ha Hb) Hlt). lia.
Qed.

Lemma ri_slots {P R T D Q E m inb g p} (I : rInv P R T D Q E m inb g p) i i' sl sl' : (D <= i)%nat -> (i < i')%nat -> all !! i = Some sl -> all !! i' = Some sl' ->
  (i' < upTo (rpPosting (rp_pc p)) P)%nat -> sl_slot sl <> sl_slot sl'.
Proof.
  intros HD Hlt Hl Hl' Hi'. apply (slots_differ i i' sl sl' Hl Hl' Hlt). eapply (near_window recvSubs recvIndex ok_recv); [exact Hl|exact Hl'|].
  by eapply (ri_near I).
Qed.

(** A message arrives in its buffer. *)
Lemma rInv_deliver P R T D Q E m inb g p sl : rInv P R T D Q E m inb g p -> (E < P)%nat -> all !! E = Some sl ->
  rInv P R T D Q (S E) (setBuff (rAddr sl) (sl_data sl) m) inb g p.
Proof.
  intros I Hlt Hl. pose proof (ri_order I) as HO.
  assert (forall i sl', (Q <= i < E)%nat -> all !! i = Some sl' ->
    rAddr sl' + Z.of_nat (length (sl_data sl')) <= rAddr sl \/ rAddr sl + Z.of_nat (length (sl_data sl)) <= rAddr sl') as Hne.
  { intros i sl' Hi Hl'. eapply (near_addr recvSubs recvIndex ok_recv); [exact Hl'|exact Hl|lia|]. apply (ri_near I i E); try done; [lia|lia|].
    unfold upTo. destruct (rpPosting _); lia. }
  destruct I. constructor; recv_fields; try done; [lia|].
  intros i sl' Hi Hl'. destruct (decide (i = E)) as [->|Hi'].
  - rewrite Hl in Hl'. injection Hl' as <-. apply writeMem_same.
  - rewrite writeMem_other; [apply (ri_buff0 i); [lia|done]|]. apply (Hne i); [|done]. unfold upTo in Hi. destruct (grRead _); lia.
Qed.

(** *** The block that receives *)

Definition grRank (g : gpuRecv) : nat :=
  match gr_pc g with
  | GRLoad => 7
  | GRCache => 6
  | GRWait =>
      match ops !! gr_op g with
      | None => 0
      | Some op =>
          match slices op !! gr_slice g with
          | None => 8
          | Some _ => if gr_cache g <? wrap64 (gr_step g + sliceSteps op) then 5 else 4
          end
      end
  | GRPtr => 3
  | GRData _ => 2
  | GRPost => 0
  end.

Definition gpuRecvGood (P R T D Q E : nat) (m : connMem) (inb : list (Z * Z)) (g : gpuRecv) (p : recvProxy) : Prop :=
  exists m' g', gpuRecvStep m g = Some (m', g') /\
    (rInv P R T D (S Q) E m' inb g' p \/ rInv P R T D Q E m' inb g' p /\ ((Q < T)%nat \/ Q = total -> (grRank g' < grRank g)%nat)).

Section gpuRecv.

Context (P R T D Q E : nat) (m : connMem) (inb : list (Z * Z)) (j k : nat) (step cache : Z) (res : list (list V)) (p : recvProxy) (op : netOp V).
Context (Ho : ops !! j = Some op).

Local Abbreviation block pc := (GpuRecv j k step cache pc res).

Lemma gpuRecv_load : rInv P R T D Q E m inb (block GRLoad) p -> gpuRecvGood P R T D Q E m inb (block GRLoad) p.
Proof.
  intros I. destruct (blockAt_load _ _ _ _ _ (ri_block I) Ho) as (HB & Hst & HQ). unfold gpuRecvGood, gpuRecvStep. cbn. rewrite Ho. cbn.
  eexists _, _. split; [done|]. right. split; [|unfold grRank; cbn; lia].
  destruct (lookup_lt_is_Some_2 all Q HQ) as [sl Hl]. pose proof (endOf_le Q Q sl Hl ltac:(lia)). pose proof (proj2 (ri_head I) sl Hl). rewrite (Hst sl Hl) in *.
  destruct I. constructor; cbn in *; try done.
  - split; [lia|]. intros sl' Hl'. rewrite Hl in Hl'. injection Hl' as <-. rewrite Hst; [lia|done].
  - intros h Hh. specialize (ri_seen0 h Hh). lia.
  - intros _. destruct (slices op) as [|d l] eqn:E1; [by destruct (ok_slices _ (op_ok _ _ Ho))|]. exists op, d. by rewrite E1.
Qed.

Lemma gpuRecv_cache : rInv P R T D Q E m inb (block GRCache) p -> gpuRecvGood P R T D Q E m inb (block GRCache) p.
Proof.
  intros I. unfold gpuRecvGood, gpuRecvStep. cbn. rewrite Ho. cbn. eexists _, _. split; [done|]. right.
  destruct (ri_slice I eq_refl) as (op' & d & Ho' & Hd). cbn in Ho', Hd. split.
  - destruct I. constructor; cbn in *; try done. intros _. lia.
  - intros _. unfold grRank. cbn. rewrite Ho', Hd. destruct (_ <? _); lia.
Qed.

Lemma gpuRecv_wait : rInv P R T D Q E m inb (block GRWait) p -> gpuRecvGood P R T D Q E m inb (block GRWait) p.
Proof.
  intros I. pose proof (ri_block I) as HB. cbn in HB. pose proof (ri_order I) as HO. pose proof (recvAt_total _ _ _ _ _ (ri_proxy I)) as HP.
  unfold gpuRecvGood, gpuRecvStep, grRank. cbn. rewrite Ho. cbn. destruct (slices op !! k) as [d|] eqn:Ed.
  - destruct (blockAt_slice _ _ _ _ _ _ HB Ho Ed) as (sl & Hl & _ & _ & _ & Hend & _). rewrite Hend. apply lookup_lt_Some in Hl as HQ. fold total in HQ.
    destruct (Z.ltb_spec cache (sl_end sl)) as [Hc|Hc]; (eexists _, _; split; [done|]; right; split).
    + destruct I. constructor; cbn in *; try done. intros _. lia.
    + cbn. rewrite Ho. cbn. rewrite Ed, Hend, (ri_tail I). intros [Hlt| ->]; [|lia]. pose proof (endOf_mono (S Q) T ltac:(lia) ltac:(unfold total in *; lia)) as Hm.
      rewrite (endOf_S _ _ Hl) in Hm. destruct (Z.ltb_spec (endOf T) (sl_end sl)); lia.
    + pose proof (ri_cache I eq_refl) as Hca. cbn in Hca. assert (Q < T)%nat as HQT.
      { destruct (Nat.le_gt_cases T Q) as [Hle|]; [|done]. pose proof (endOf_le T Q sl Hl Hle). destruct (all_bounds _ _ Hl) as (_ & _ & Hw & _). unfold sl_end in Hc. lia. }
      destruct I. constructor; cbn in *; try done. intros _. by exists op, d.
    + cbn. lia.
  - eexists _, _. split; [done|]. right. split; [|cbn; lia]. destruct I. constructor; cbn in *; try done. by eapply blockAt_next.
Qed.

Lemma gpuRecv_slice pc : rInv P R T D Q E m inb (block pc) p -> grCredit pc = true ->
  exists sl, slices op !! k = Some (sl_data sl) /\ all !! Q = Some sl /\ sl_slot sl = step mod NCCL_STEPS /\ (Q < T)%nat /\
    wrap64 (step + sliceSteps op) = sl_end sl /\ blockAt false j (S k) (wrap64 (step + sliceSteps op)) (S Q).
Proof.
  intros I Hc. destruct (ri_slice I) as (op' & d & Ho' & Hd); [by destruct pc|]. cbn in *. rewrite Ho in Ho'. injection Ho' as <-. pose proof (ri_block I) as HB. cbn in HB.
  replace (grLoad pc) with false in HB by (by destruct pc). destruct (blockAt_slice _ _ _ _ _ _ HB Ho Hd) as (sl & Hl & E1 & E2 & E3 & E4 & HB').
  exists sl. rewrite E2. unfold sl_slot. rewrite E3. split_and!; try done. by apply (ri_credit I).
Qed.

Lemma gpuRecv_ptr : rInv P R T D Q E m inb (block GRPtr) p -> gpuRecvGood P R T D Q E m inb (block GRPtr) p.
Proof.
  intros I. destruct (gpuRecv_slice _ I eq_refl) as (sl & Hd & Hl & Hs & HQ & _). unfold gpuRecvGood, gpuRecvStep. cbn. rewrite Ho. cbn.
  eexists _, _. split; [done|]. right. split; [|unfold grRank; cbn; lia]. pose proof (ri_order I) as HO.
  destruct I. constructor; cbn in *; try done. intros ptr sl' [= <-] Hl'. rewrite Hl in Hl'. injection Hl' as <-. rewrite <- Hs. destruct shared eqn:Es.
  - apply (ri_off0 eq_refl Q); [|done]. unfold upTo. destruct (rpPosting _); lia.
  - unfold rAddr, addrOf. by rewrite Es.
Qed.

Lemma gpuRecv_data ptr : rInv P R T D Q E m inb (block (GRData ptr)) p -> gpuRecvGood P R T D Q E m inb (block (GRData ptr)) p.
Proof.
  intros I. destruct (gpuRecv_slice _ I eq_refl) as (sl & Hd & Hl & Hs & HQ & _). unfold gpuRecvGood, gpuRecvStep. cbn. rewrite Ho. cbn. rewrite Hd. cbn.
  eexists _, _. split; [done|]. right. split; [|unfold grRank; cbn; lia]. pose proof (ri_order I) as HO.
  rewrite (ri_ptr I ptr sl eq_refl Hl), (ri_buff I Q sl) by (cbn; done || lia).
  destruct I. constructor; recv_fields; try done.
  - intros i sl' Hi. apply ri_buff0. lia.
  - by rewrite (take_S_r _ _ _ Hl), fmap_app, ri_out0.
Qed.

Lemma gpuRecv_post : rInv P R T D Q E m inb (block GRPost) p -> gpuRecvGood P R T D Q E m inb (block GRPost) p.
Proof.
  intros I. destruct (gpuRecv_slice _ I eq_refl) as (sl & Hd & Hl & Hs & HQ & He & HB). unfold gpuRecvGood, gpuRecvStep. cbn. rewrite Ho. cbn.
  eexists _, _. split; [done|]. left. rewrite He in *. pose proof (proj2 (ri_head I) sl Hl). destruct (all_bounds _ _ Hl) as (_ & _ & Hw & _). 
  destruct I. constructor; recv_fields; try done; try lia.
  - split; [by rewrite (endOf_S _ _ Hl)|]. intros sl' Hl'. by eapply all_order; [exact Hl|exact Hl'|lia].
  - intros h Hh. specialize (ri_seen0 h Hh). unfold sl_end. lia.
  - intros Es i sl' Hi. apply (ri_off0 Es). lia.
Qed.

End gpuRecv.

Lemma gpuRecv_good P R T D Q E m inb g p op : rInv P R T D Q E m inb g p -> ops !! gr_op g = Some op -> gpuRecvGood P R T D Q E m inb g p.
Proof.
  destruct g as [j k step cache pc res]. intros I Ho. cbn in Ho. destruct pc.
  - by eapply gpuRecv_load.
  - by eapply gpuRecv_cache.
  - by eapply gpuRecv_wait.
  - by eapply gpuRecv_ptr.
  - by eapply gpuRecv_data.
  - by eapply gpuRecv_post.
Qed.

(** *** The proxy of the receiver *)

(** What the proxy can be about to do, and how far it is from that in its loop. *)
Inductive recvTask :=
  | TaskPost
  | TaskTest
  | TaskForward
  | TaskHead.

Definition rpEnabled (t : recvTask) (P R T D Q E : nat) : Prop :=
  match t with
  | TaskPost => P = D
  | TaskTest => (R < E)%nat
  | TaskForward => (T < R)%nat
  | TaskHead => (D < Q)%nat
  end.

Definition rpRank (t : recvTask) (p : recvProxy) : nat :=
  let late := match rp_pc p with RPAck h => rp_base p + rp_done p <? h | _ => true end in
  let c := match rp_pc p with
           | RPPost => 0 | RPIrecv => 1 | RPTest => 2 | RPForward => 3 | RPTail => 4 | RPHead => 5 | RPAck _ => 6 | RPFlush _ _ => 7 | RPStart => 8
           end%nat in
  let target := match t with TaskPost => 1 | TaskTest => 2 | TaskForward => 4 | TaskHead => 6 end%nat in
  if (c <=? target)%nat && late then (target - c)%nat else (9 + target - c)%nat.

Definition recvProxyGood (answer : bool) (P R T D Q E : nat) (m : connMem) (n : network) (g : gpuRecv) (p : recvProxy) : Prop :=
  exists m' n' p', recvProxyStep answer m n p = Some (m', n', p') /\ outbox n' = outbox n /\ delivered n' = delivered n /\
    ((exists P' R' T' D', rInv P' R' T' D' Q E m' (inbox n') g p' /\ (P <= P')%nat /\ (R <= R')%nat /\ (T <= T')%nat /\ (D <= D')%nat /\
        (P + R + T + D < P' + R' + T' + D')%nat) \/
     rInv P R T D Q E m' (inbox n') g p' /\ (answer = true -> forall t, rpEnabled t P R T D Q E -> (rpRank t p' < rpRank t p)%nat)).

Section recvProxy.

Context (answer : bool) (P R T D Q E : nat) (m : connMem) (n : network) (g : gpuRecv).
Context (j : nat) (step base posted received transmitted done : Z) (reqs : Z -> option recvRequest) (op : netOp V).
Context (Ho : ops !! j = Some op) (HE : delivered n = E) (Hout : (E <= length (outbox n))%nat).

Local Abbreviation prox pc := (RecvProxy j step base posted received transmitted done reqs pc).
Local Abbreviation inv pc := (rInv P R T D Q E m (inbox n) g (prox pc)).
Local Abbreviation good pc := (recvProxyGood answer P R T D Q E m n g (prox pc)).

(** Open a step of the proxy, in the operation [op]. *)
Ltac recv_open := cbn [rp_op rp_pc rp_posted rp_received rp_transmitted rp_done rp_base rp_step rp_requests]; rewrite Ho; cbn [mbind option_bind].

Lemma recvProxy_start : inv RPStart -> good RPStart.
Proof.
  intros I. unfold recvProxyGood, recvProxyStep. recv_open.
  proxy_step. right.
  destruct (ri_proxy I) as (Hj & Hs & HP & HR & HT & HD). cbn in *. pose proof (op_ok _ _ Ho) as K. pose proof (ri_order I) as HO.
  pose proof (endAfter_bound j). pose proof (endAfter_bound (S j)) as Hb. rewrite (endAfter_S _ _ Ho) in Hb.
  destruct (depth_bound recvSubs recvIndex ok_recv _ K) as [Hd _]. pose proof (op_nsteps _ K) as Hn.
  rewrite Hs, ROUNDUP_small by (apply K || done). fold (baseOf j op). rewrite (wrap64_small (baseOf j op + nsteps op)) by lia. split.
  - destruct I. constructor; cbn in *; try done. exists op. cbn. split_and!; try done; try lia; subst; apply counterAt_zero.
  - intros _ t _. destruct t; cbn; lia.
Qed.

(** The counters, while the proxy is in an operation. *)
Lemma recvProxy_counters pc : inv pc -> pc <> RPStart ->
  base = baseOf j op /\ step = baseOf j op + nsteps op /\ counterAt j op posted P /\ counterAt j op received R /\ counterAt j op transmitted T /\ counterAt j op done D /\
  done < nsteps op /\ posted <= done + maxDepth (recvSubs op) /\ 0 <= done <= transmitted /\ transmitted <= received <= posted /\ posted <= nsteps op.
Proof.
  intros I Hpc. pose proof (ri_proxy I) as HA. pose proof (ri_order I) as HO. unfold recvAt in HA. cbn in HA.
  assert (exists op', ops !! j = Some op' /\ base = baseOf j op' /\ step = baseOf j op' + nsteps op' /\ counterAt j op' posted P /\ counterAt j op' received R /\
    counterAt j op' transmitted T /\ counterAt j op' done D /\ done < nsteps op' /\ posted <= done + maxDepth (recvSubs op')) as (op' & Ho' & E1 & E2 & HP & HR & HT & HD & Hn & Hle).
  { destruct pc; try done; destruct HA as (op' & H1 & H2 & H3 & H4 & H5 & H6 & H7 & H8 & H9 & _); exists op'; by split_and!. }
  rewrite Ho in Ho'. injection Ho' as <-. pose proof (counterAt_le _ _ Ho _ _ _ _ HD HT). pose proof (counterAt_le _ _ Ho _ _ _ _ HT HR).
  pose proof (counterAt_le _ _ Ho _ _ _ _ HR HP). pose proof (counterAt_max _ _ Ho _ _ HP). pose proof (counterAt_max _ _ Ho _ _ HD). split_and!; try done; lia.
Qed.

(** Only the program counter changes. *)
Lemma rInv_goto pc pc' : inv pc -> pc <> RPStart -> pc' <> RPStart -> rpPosting pc = false -> rpPosting pc' = false ->
  match pc' with RPTail => (T < R)%nat | RPFlush _ _ => False | RPAck h => h <= head m | _ => True end -> inv pc'.
Proof.
  intros I Hpc Hpc' Hq Hq' Hside. destruct (recvProxy_counters _ I Hpc) as (H1 & H2 & H3 & H4 & H5 & H6 & H7 & H8 & _).
  destruct I. constructor; recv_fields; try assumption.
  - destruct pc'; try done; exists op; split_and!; done.
  - by intros h ->.
  - rewrite Hq'. by rewrite Hq in ri_off0.
Qed.

Lemma recvProxy_posting : inv RPPost -> posted < nsteps op -> posted < done + maxDepth (recvSubs op) ->
  rInv P R T D Q E (if shared
    then setOffset ((base + posted) mod NCCL_STEPS) (sharedBuffersGet (posted mod maxDepth (recvSubs op) * recvSubs op + recvIndex op)) m
    else m) (inbox n) g (prox RPIrecv).
Proof.
  intros I Hn Hd. destruct (recvProxy_counters _ I ltac:(done)) as (-> & -> & HP & HR & HT & HD & Hdn & Hle & H1 & H2 & H3). pose proof (ri_order I) as HO.
  destruct (counterAt_slice _ _ Ho _ _ HP Hn) as (sl & Hl & E1 & E2 & E3 & E4 & _). rewrite <- E4. fold (sl_slot sl).
  assert (forall i sl', (Q <= i < P)%nat -> all !! i = Some sl' -> sl_slot sl' <> sl_slot sl) as Hne.
  { intros i sl' Hi Hl'. apply (slots_differ i P sl' sl Hl' Hl ltac:(lia)). eapply (near_window recvSubs recvIndex ok_recv); [exact Hl'|exact Hl|].
    destruct (counterAt_between _ _ Ho _ _ _ _ i HD HP ltac:(lia)) as (c & Hc & _). eapply (counters_near recvSubs recvIndex ok_recv j op Ho done D c i posted P); try done; lia. }
  destruct I. constructor; destruct shared eqn:Es; recv_fields; try assumption; try done.
  1,2: exists op; by split_and!.
  intros _ i sl' Hi Hl'. destruct (decide (i = P)) as [->|Hi'].
  - rewrite Hl in Hl'. injection Hl' as <-. rewrite put_eq. unfold rAddr, addrOf. by rewrite Es, E2, E3.
  - rewrite put_ne by (apply (Hne i); [lia|done]). apply (ri_off0 eq_refl i); [lia|done].
Qed.

Lemma recvProxy_post : inv RPPost -> good RPPost.
Proof.
  intros I. destruct (recvProxy_counters _ I ltac:(done)) as (_ & _ & HP & HR & HT & HD & Hdn & Hle & H1 & H2 & H3).
  destruct (depth_bound recvSubs recvIndex ok_recv _ (op_ok _ _ Ho)) as [Hdep _]. pose proof (counterAt_lt _ _ Ho _ _ _ _ HD HP) as HDP.
  unfold recvProxyGood, recvProxyStep. recv_open.
  destruct (Z.ltb_spec posted (nsteps op)) as [Hn|Hn]; [destruct (Z.ltb_spec posted (done + maxDepth (recvSubs op))) as [Hd|Hd]|]; cbn [andb];
    proxy_step; right.
  1: { split; [by apply recvProxy_posting|]. intros _ t _. destruct t; cbn; lia. }
  all: split; [by apply (rInv_goto RPPost)|]; intros _ t Ht; destruct t; cbn in *; lia.
Qed.

Lemma recvProxy_irecv : inv RPIrecv -> good RPIrecv.
Proof.
  intros I. destruct (recvProxy_counters _ I ltac:(done)) as (Eb & Est & HP & HR & HT & HD & Hdn & Hle & H1 & H2 & H3). pose proof (ri_order I) as HO.
  pose proof (ri_proxy I) as (op' & Ho' & _ & _ & _ & _ & _ & _ & _ & _ & Hn & Hd). cbn in Ho', Hn, Hd. rewrite Ho in Ho'. injection Ho' as <-.
  destruct (counterAt_slice _ _ Ho _ _ HP Hn) as (sl & Hl & E1 & E2 & E3 & E4 & HS). pose proof (counter_room recvSubs recvIndex ok_recv _ _ Ho _ _ _ _ HP HD Hd).
  unfold recvProxyGood, recvProxyStep. recv_open.
  assert ((if shared then (sharedBuffersGet (posted mod maxDepth (recvSubs op) * recvSubs op + recvIndex op), p2pChunkSize)
    else ((base + posted) mod NCCL_STEPS * stepSize, stepSize * sliceSteps op)) = (rAddr sl, roomOf sl)) as ->.
  { unfold rAddr, addrOf, roomOf, sl_slot, sl_width. rewrite E2, E3, E4, Eb. by destruct shared. }
  assert (forall x i sl', (D <= i < P)%nat -> all !! i = Some sl' -> put reqs (posted mod NCCL_STEPS) x (sl_rel sl' mod NCCL_STEPS) = reqs (sl_rel sl' mod NCCL_STEPS)) as Hput.
  { intros x i sl' Hi Hl'. rewrite put_ne; [done|]. rewrite <- E3. apply (ri_near I i P); try done; cbn; lia. }
  destruct answer; proxy_step; [left; exists (S P), R, T, D; split; [|lia]|right; split; [|done]].
  - assert (length (inbox n) = P) as EP by (rewrite (ri_in I), length_fmap, length_take; apply lookup_lt_Some in Hl; lia).
    destruct I. constructor; cbn in *; try done; try lia.
    + exists op. by split_and!.
    + by rewrite (take_S_r _ _ _ Hl), fmap_app, ri_in0.
    + intros i sl' Hi Hl'. destruct (decide (i = P)) as [->|Hi'].
      * rewrite Hl in Hl'. injection Hl' as <-. by rewrite E3, put_eq, EP.
      * rewrite (Hput _ i) by (done || lia). apply (ri_req0 i); [lia|done].
    + intros i sl' x Hi Hl'. rewrite (Hput _ i) by (done || lia). by apply (ri_forward0 i).
  - destruct I. constructor; cbn in *; try done; try lia.
    + exists op. by split_and!.
    + intros Es i sl' Hi. apply (ri_off0 Es). lia.
    + intros i sl' Hi Hl'. rewrite (Hput _ i) by (done || lia). by apply (ri_req0 i).
    + intros i sl' x Hi Hl'. rewrite (Hput _ i) by (done || lia). by apply (ri_forward0 i).
Qed.

(** The buffer of slice [R] is filled. *)
Lemma rInv_received size sl : inv RPTest -> (R < E)%nat -> all !! R = Some sl -> sl_rel sl = received -> counterAt j op (received + sliceSteps op) (S R) ->
  rInv P (S R) T D Q E (setSize ((base + received) mod NCCL_STEPS) (-1) m) (inbox n) g
    (RecvProxy j step base posted (received + sliceSteps op) transmitted done (put reqs (received mod NCCL_STEPS) None) (RPFlush received size)).
Proof.
  intros I Hlt Hl E3 HS. destruct (recvProxy_counters _ I ltac:(done)) as (Eb & Est & HP & HR & HT & HD & Hdn & Hle & H1 & H2 & H3). pose proof (ri_order I) as HO.
  assert (forall i sl', (T <= i < P)%nat -> i <> R -> all !! i = Some sl' -> put reqs (received mod NCCL_STEPS) None (sl_rel sl' mod NCCL_STEPS) = reqs (sl_rel sl' mod NCCL_STEPS)) as Hput.
  { intros i sl' Hi Hne Hl'. rewrite put_ne; [done|]. rewrite <- E3. destruct (Nat.lt_ge_cases i R).
    - apply (ri_near I i R); try done; cbn; lia.
    - apply not_eq_sym. apply (ri_near I R i); try done; cbn; lia. }
  destruct I. constructor; cbn in *; try done; try lia.
  - exists op. split_and!; try done. exists R. split_and!; [done|lia|done].
  - intros i sl' Hi Hl'. rewrite (Hput i) by (done || lia). apply (ri_req0 i); [lia|done].
  - intros i sl' x Hi Hl'. destruct (decide (i = R)) as [->|Hi'].
    + rewrite Hl in Hl'. injection Hl' as <-. by rewrite E3, put_eq.
    + rewrite (Hput i) by (done || lia). apply (ri_forward0 i); [lia|done].
Qed.

Lemma recvProxy_test : inv RPTest -> good RPTest.
Proof.
  intros I. destruct (recvProxy_counters _ I ltac:(done)) as (Eb & Est & HP & HR & HT & HD & Hdn & Hle & H1 & H2 & H3). pose proof (ri_order I) as HO.
  pose proof (counterAt_lt _ _ Ho _ _ _ _ HR HP) as Hiff.
  assert (inv RPForward) as IF by (by apply (rInv_goto RPTest)).
  unfold recvProxyGood, recvProxyStep. recv_open.
  destruct (Z.ltb_spec received posted) as [Hlt|Hlt].
  - destruct (counterAt_slice _ _ Ho _ _ HR ltac:(lia)) as (sl & Hl & _ & _ & E3 & E4 & HS). pose proof (ri_req I R sl ltac:(lia) Hl) as Hr. cbn in Hr.
    rewrite E3 in Hr. rewrite Hr. unfold netTest. rewrite HE. destruct (Nat.ltb_spec R E) as [HRE|HRE].
    + destruct answer; cbn [andb].
      * destruct (lookup_lt_is_Some_2 (outbox n) R) as [[q size] ->]; [lia|]. cbn [mbind option_bind]. proxy_step. left.
        exists P, (S R), T, D. split; [|lia]. by eapply rInv_received.
      * cbn [mbind option_bind]. proxy_step. right. split; [exact IF|done].
    + rewrite andb_false_r. cbn [mbind option_bind]. proxy_step. right. split; [exact IF|].
      intros _ t Ht. destruct t; cbn in *; lia.
  - proxy_step. right. split; [exact IF|]. intros _ t Ht. destruct t; cbn in *; lia.
Qed.

Lemma recvProxy_flush s size : inv (RPFlush s size) -> good (RPFlush s size).
Proof.
  intros I. destruct (recvProxy_counters _ I ltac:(done)) as (Eb & Est & HP & HR & HT & HD & Hdn & Hle & H1 & H2 & H3). pose proof (ri_order I) as HO.
  pose proof (ri_proxy I) as (op' & Ho' & _ & _ & _ & _ & _ & _ & _ & _ & i & EiR & HiT & Hi). cbn in Ho', Hi. rewrite Ho in Ho'. injection Ho' as <-.
  unfold recvProxyGood, recvProxyStep. recv_open.
  destruct ((0 <? size) && needFlush && answer); proxy_step; right;
    (split; [|intros _ t _; destruct t; cbn; lia]); [|by apply (rInv_goto (RPFlush s size))].
  pose proof (proj2 (counterAt_lt _ _ Ho _ _ _ _ Hi HR) ltac:(lia)) as Hlt. destruct (counterAt_slice _ _ Ho _ _ Hi ltac:(lia)) as (sl & Hl & _ & _ & E3 & _ & _).
  assert (forall a sl', (T <= a < P)%nat -> a <> i -> all !! a = Some sl' ->
    put reqs (s mod NCCL_STEPS) (Some FlushRequest) (sl_rel sl' mod NCCL_STEPS) = reqs (sl_rel sl' mod NCCL_STEPS)) as Hput.
  { intros a sl' Ha Hne Hl'. rewrite put_ne; [done|]. rewrite <- E3. destruct (Nat.lt_ge_cases a i).
    - apply (ri_near I a i); try done; cbn; lia.
    - apply not_eq_sym. apply (ri_near I i a); try done; cbn; lia. }
  destruct I. constructor; cbn in *; try done; try lia.
  - exists op. by split_and!.
  - intros a sl' Ha Hl'. rewrite (Hput a) by (done || lia). by apply (ri_req0 a).
  - intros a sl' x Ha Hl'. destruct (decide (a = i)) as [->|Ha'].
    + rewrite Hl in Hl'. injection Hl' as <-. by rewrite E3, put_eq.
    + rewrite (Hput a) by (done || lia). by apply (ri_forward0 a).
Qed.

Lemma recvProxy_forward : inv RPForward -> good RPForward.
Proof.
  intros I. destruct (recvProxy_counters _ I ltac:(done)) as (Eb & Est & HP & HR & HT & HD & Hdn & Hle & H1 & H2 & H3). pose proof (ri_order I) as HO.
  pose proof (counterAt_lt _ _ Ho _ _ _ _ HT HR) as Hiff. assert (inv RPHead) as IH by (by apply (rInv_goto RPForward)).
  unfold recvProxyGood, recvProxyStep. recv_open.
  destruct (Z.ltb_spec transmitted received) as [Hlt|Hlt].
  - assert (inv RPTail) as IT by (apply (rInv_goto RPForward); try done; lia).
    destruct (counterAt_slice _ _ Ho _ _ HT ltac:(lia)) as (sl & Hl & _ & _ & E3 & _). pose proof (fun x => ri_forward I T sl x ltac:(lia) Hl) as Hf. cbn in Hf. rewrite E3 in Hf.
    destruct (reqs (transmitted mod NCCL_STEPS)) as [[x|]|]; [by destruct (Hf x)| |].
    + proxy_step. right. split; [by destruct answer|]. intros -> t Ht. destruct t; cbn in *; lia.
    + proxy_step. right. split; [done|]. intros _ t Ht. destruct t; cbn in *; lia.
  - proxy_step. right. split; [exact IH|]. intros _ t Ht. destruct t; cbn in *; lia.
Qed.

Lemma recvProxy_tail : inv RPTail -> good RPTail.
Proof.
  intros I. destruct (recvProxy_counters _ I ltac:(done)) as (Eb & Est & HP & HR & HT & HD & Hdn & Hle & H1 & H2 & H3). pose proof (ri_order I) as HO.
  pose proof (ri_proxy I) as (op' & Ho' & _ & _ & _ & _ & _ & _ & _ & _ & Hlt). cbn in Hlt. pose proof (proj2 (counterAt_lt _ _ Ho _ _ _ _ HT HR) Hlt).
  destruct (counterAt_slice _ _ Ho _ _ HT ltac:(lia)) as (sl & Hl & _ & E2 & E3 & E4 & HS). pose proof (endOf_mono T (S T) ltac:(lia) (counterAt_total _ _ Ho _ _ HS)).
  assert (wrap64 (base + (transmitted + sliceSteps op)) = endOf (S T)) as Ew.
  { rewrite (endOf_S _ _ Hl). unfold sl_end, sl_width. rewrite E2, E4, Eb. rewrite wrap64_small; [lia|]. destruct (all_bounds _ _ Hl) as (Hb0 & Hb1 & Hw & _).
    unfold sl_end, sl_width in *. rewrite E2, E4 in *. lia. }
  unfold recvProxyGood, recvProxyStep. recv_open. rewrite Ew.
  proxy_step. left. exists P, R, (S T), D. split; [|lia].
  destruct I. constructor; recv_fields; try done; try lia.
  - exists op. by split_and!.
  - intros Hg. specialize (ri_cache0 Hg). lia.
  - intros i sl' x Hi. apply ri_forward0. lia.
Qed.

(** A slice whose head the proxy has seen is read. *)
Lemma recvProxy_taken pc : inv pc -> pc <> RPStart -> (base + done < head m <-> (D < Q)%nat).
Proof.
  intros I Hpc. destruct (recvProxy_counters _ I Hpc) as (-> & _ & HP & HR & HT & HD & Hdn & _). pose proof (ri_order I) as HO.
  destruct (counterAt_slice _ _ Ho _ _ HD Hdn) as (sl & Hl & _ & _ & _ & E4 & _). rewrite <- E4. destruct (ri_head I) as [Hh1 Hh2].
  pose proof (recvAt_total _ _ _ _ _ (ri_proxy I)). split; intros H'.
  - destruct (decide (D = Q)) as [->|]; [|lia]. specialize (Hh2 sl Hl). lia.
  - pose proof (endOf_mono (S D) Q ltac:(lia) ltac:(unfold total in *; lia)) as Hm. rewrite (endOf_S _ _ Hl) in Hm. destruct (all_bounds _ _ Hl) as (_ & _ & Hw & _).
    unfold sl_end in Hm. lia.
Qed.

Lemma recvProxy_head : inv RPHead -> good RPHead.
Proof.
  intros I. destruct (recvProxy_counters _ I ltac:(done)) as (Eb & Est & HP & HR & HT & HD & Hdn & Hle & H1 & H2 & H3). pose proof (ri_order I) as HO.
  pose proof (counterAt_lt _ _ Ho _ _ _ _ HD HT) as Hiff. pose proof (recvProxy_taken _ I ltac:(done)) as Htk.
  unfold recvProxyGood, recvProxyStep. recv_open.
  destruct (Z.ltb_spec done transmitted) as [Hlt|Hlt]; proxy_step; right;
    (split; [apply (rInv_goto RPHead); try done; lia|]); intros _ t Ht; destruct t; cbn [rpEnabled] in *; try (cbn; lia).
  unfold rpRank, rpGoto. cbn [rp_pc rp_base rp_done]. rewrite (proj2 (Z.ltb_lt (base + done) (head m))) by (by apply Htk). cbn. lia.
Qed.

Lemma recvProxy_ack h : inv (RPAck h) -> good (RPAck h).
Proof.
  intros I. destruct (recvProxy_counters _ I ltac:(done)) as (Eb & Est & HP & HR & HT & HD & Hdn & Hle & H1 & H2 & H3). pose proof (ri_order I) as HO.
  pose proof (counterAt_lt _ _ Ho _ _ _ _ HD HT) as Hiff. pose proof (recvProxy_taken _ I ltac:(done)) as Htk. pose proof (ri_seen I h eq_refl) as Hh.
  pose proof (op_ok _ _ Ho) as K. pose proof (ok_slice _ K). destruct (counterAt_slice _ _ Ho _ _ HD Hdn) as (sl & Hl & _ & _ & _ & _ & HS).
  unfold recvProxyGood, recvProxyStep, rpRank. recv_open.
  destruct (Z.ltb_spec (base + done) h) as [Hb|Hb]; [destruct (Z.ltb_spec done transmitted) as [Hlt|Hlt]|]; cbn [andb].
  - pose proof (proj1 Htk ltac:(lia)) as HDQ. destruct (Z.eqb_spec (done + sliceSteps op) (nsteps op)) as [Hend|Hend]; proxy_step; left.
    + exists P, R, T, (S D). split; [|lia]. pose proof (counterAt_end _ _ Ho _ _ HS Hend) as ED. pose proof (counterAt_le _ _ Ho _ _ _ _ HP HS) as HPS.
      apply lookup_lt_Some in Ho as Hj. destruct I. constructor; cbn in *; try done; try lia; try (intros; lia).
      split_and!; try lia. by rewrite (endAfter_S _ _ Ho).
    + exists P, R, T, (S D). split; [|lia]. pose proof (counterAt_max _ _ Ho _ _ HS).
      destruct I. constructor; cbn in *; try done; try lia. exists op. split_and!; try done; lia.
  - exfalso. lia.
  - proxy_step. right. split; [by apply (rInv_goto (RPAck h))|].
    intros _ t Ht. destruct t; cbn; lia.
Qed.

End recvProxy.

Lemma recvProxy_good answer P R T D Q E m n g p op : rInv P R T D Q E m (inbox n) g p -> delivered n = E -> (E <= length (outbox n))%nat ->
  ops !! rp_op p = Some op -> recvProxyGood answer P R T D Q E m n g p.
Proof.
  destruct p as [j step base posted received transmitted done reqs pc]. intros I HE Hout Ho. cbn in Ho. destruct pc.
  - by eapply recvProxy_start.
  - by eapply recvProxy_post.
  - by eapply recvProxy_irecv.
  - by eapply recvProxy_test.
  - by eapply recvProxy_flush.
  - by eapply recvProxy_forward.
  - by eapply recvProxy_tail.
  - by eapply recvProxy_head.
  - by eapply recvProxy_ack.
Qed.

(** ** The whole connection *)

(** The positions of the threads, from the sender to the receiver. *)
Record ghost := Ghost {
  gG : nat; gP : nat; gX : nat; gD : nat; gE : nat;
  hP : nat; hR : nat; hT : nat; hD : nat; hQ : nat }.

Definition gSum (h : ghost) : nat := (gG h + gP h + gX h + gD h + gE h + hP h + hR h + hT h + hD h + hQ h)%nat.

Record netInv (h : ghost) (s : netState) : Prop := {
  ni_send : sInv (gG h) (gP h) (gX h) (gD h) (gE h) (sMem s) (outbox (nw s)) (gpuS s) (proxyS s);
  ni_recv : rInv (hP h) (hR h) (hT h) (hD h) (hQ h) (gE h) (rMem s) (inbox (nw s)) (gpuR s) (proxyR s);
  ni_delivered : delivered (nw s) = gE h }.

Definition finished (s : netState) : Prop :=
  gs_op (gpuS s) = length ops /\ sp_op (proxyS s) = length ops /\ rp_op (proxyR s) = length ops /\ gr_op (gpuR s) = length ops.

Lemma netInv_init b b' : netInv (Ghost 0 0 0 0 0 0 0 0 0 0) (initState b b').
Proof.
  constructor; [| |done]; constructor; cbn; try done; try (intros; lia); try (split_and!; done || lia).
  - unfold headVal, slack, creditPos. by destruct shared.
  - unfold creditPos, slack. destruct shared; cbn; done.
  - split; [done|]. intros sl Hl. by destruct (all_bounds _ _ Hl).
Qed.

(** A message arrives. *)
Lemma netDeliver_good h s : netInv h s -> netDeliver (sMem s) (rMem s) (nw s) =
    match all !! gE h with
    | Some sl => if decide (gE h < gX h /\ gE h < hP h)%nat
                 then Some (setBuff (rAddr sl) (sl_data sl) (rMem s), Network (outbox (nw s)) (inbox (nw s)) (S (gE h))) else None
    | None => None
    end.
Proof.
  intros [IS IR Hd]. pose proof (si_order IS) as HO. unfold netDeliver. rewrite Hd, (si_out IS), (ri_in IR), !list_lookup_fmap, !lookup_take.
  destruct (all !! gE h) as [sl|] eqn:Hl; [|by destruct (decide (gE h < gX h)%nat)].
  destruct (decide (gE h < gX h /\ gE h < hP h)%nat) as [[H1 H2]|Hn].
  - rewrite !decide_True by done. cbn. pose proof (all_room _ _ Hl). rewrite (proj2 (Z.leb_le _ _)) by done. rewrite Nat2Z.id.
    rewrite (si_buff IS (gE h) sl); [done| |done]. unfold upTo. destruct (gsFilled _); lia.
  - destruct (decide (gE h < gX h)%nat) as [H1|H1]; [|done]. rewrite (decide_False (P := (gE h < hP h)%nat)) by lia. done.
Qed.

Lemma netInv_deliver h s sl : netInv h s -> (gE h < gX h)%nat -> (gE h < hP h)%nat -> all !! gE h = Some sl ->
  netInv (Ghost (gG h) (gP h) (gX h) (gD h) (S (gE h)) (hP h) (hR h) (hT h) (hD h) (hQ h))
    (NetState (sMem s) (setBuff (rAddr sl) (sl_data sl) (rMem s)) (Network (outbox (nw s)) (inbox (nw s)) (S (gE h))) (gpuS s) (proxyS s) (proxyR s) (gpuR s)).
Proof. intros [IS IR Hd] H1 H2 Hl. constructor; cbn; [by apply sInv_deliver|by apply rInv_deliver|done]. Qed.

Lemma outbox_length h s : netInv h s -> (gE h <= length (outbox (nw s)))%nat.
Proof.
  intros [IS _ _]. pose proof (si_order IS). destruct (si_total IS) as (_ & _ & HX & _). rewrite (si_out IS), length_fmap, length_take. unfold total in HX. lia.
Qed.

Lemma netInv_step h s s' : netInv h s -> netStep s s' -> exists h', netInv h' s'.
Proof.
  intros I Hs. pose proof (outbox_length _ _ I) as Hout. pose proof I as [IS IR Hd].
  destruct Hs as [m g H|answer m n p H|m n H|answer m n p H|m g H].
  - unfold gpuSendStep in H. destruct (ops !! gs_op (gpuS s)) as [op|] eqn:Ho; [|done].
    destruct (gpuSend_good _ _ _ _ _ _ _ _ _ _ IS Ho) as (m' & g' & E & Hg). unfold gpuSendStep in E. rewrite Ho in E. rewrite E in H. injection H as <- <-.
    destruct Hg as [I'|[I' _]]; [exists (Ghost (S (gG h)) (gP h) (gX h) (gD h) (gE h) (hP h) (hR h) (hT h) (hD h) (hQ h))|exists h]; constructor; done.
  - assert (is_Some (ops !! sp_op (proxyS s))) as [op Ho] by (unfold sendProxyStep in H; destruct (ops !! _); done).
    destruct (sendProxy_good answer _ _ _ _ _ _ _ _ _ _ IS Hd Ho) as (m' & n' & p' & E & Ei & Ed & Hg). rewrite E in H. injection H as <- <- <-. rewrite <- Ei in IR. rewrite <- Ed in Hd.
    destruct Hg as [(P' & X' & D' & I' & _)|[I' _]]; [exists (Ghost (gG h) P' X' D' (gE h) (hP h) (hR h) (hT h) (hD h) (hQ h))|exists h]; constructor; done.
  - rewrite (netDeliver_good _ _ I) in H. destruct (all !! gE h) as [sl|] eqn:Hl; [|done]. destruct (decide _) as [[H1 H2]|]; [|done]. injection H as <- <-.
    eexists. by apply (netInv_deliver h s sl).
  - assert (is_Some (ops !! rp_op (proxyR s))) as [op Ho] by (unfold recvProxyStep in H; destruct (ops !! _); done).
    destruct (recvProxy_good answer _ _ _ _ _ _ _ _ _ _ _ IR Hd Hout Ho) as (m' & n' & p' & E & Ei & Ed & Hg). rewrite E in H. injection H as <- <- <-. rewrite <- Ei in IS. rewrite <- Ed in Hd.
    destruct Hg as [(P' & R' & T' & D' & I' & _)|[I' _]]; [exists (Ghost (gG h) (gP h) (gX h) (gD h) (gE h) P' R' T' D' (hQ h))|exists h]; constructor; done.
  - assert (is_Some (ops !! gr_op (gpuR s))) as [op Ho] by (unfold gpuRecvStep in H; destruct (ops !! _); done).
    destruct (gpuRecv_good _ _ _ _ _ _ _ _ _ _ _ IR Ho) as (m' & g' & E & Hg). rewrite E in H. injection H as <- <-.
    destruct Hg as [I'|[I' _]]; [exists (Ghost (gG h) (gP h) (gX h) (gD h) (gE h) (hP h) (hR h) (hT h) (hD h) (S (hQ h)))|exists h]; constructor; done.
Qed.

Lemma netInv_reachable b b' s : rtc netStep (initState b b') s -> exists h, netInv h s.
Proof.
  intros Hr. remember (initState b b') as s0 eqn:E. assert (exists h, netInv h s0) as Hi by (subst s0; eexists; apply netInv_init).
  clear E. induction Hr as [|s0 s1 s2 Hs Hr IH]; [done|]. apply IH. destruct Hi as [h Hi]. by eapply netInv_step.
Qed.

Lemma all_data : sl_data <$> all = concat (slices <$> ops).
Proof.
  unfold all, opSlices. generalize baseOf. intros B. assert (forall l (f : nat -> netOp V -> list slice), (forall n op, sl_data <$> f n op = slices op) ->
    sl_data <$> concat (imap f l) = concat (slices <$> l)) as H.
  { clear. induction l as [|op l IH]; intros f Hf; [done|]. simpl. rewrite fmap_app, Hf, IH; [done|]. intros n op'. apply Hf. }
  apply H. intros n op. apply list_eq. intros i. rewrite list_lookup_fmap, list_lookup_imap. by destruct (slices op !! i).
Qed.

(** *** Progress *)

(** A run with a rank reaches its goal. *)
Lemma run_rank (J good : netState -> Prop) (rank : netState -> nat) :
  (forall s, J s -> good s \/ exists s', netStep s s' /\ (good s' \/ J s' /\ (rank s' < rank s)%nat)) ->
  forall s, J s -> exists s', rtc netStep s s' /\ good s'.
Proof.
  intros Hstep s. remember (rank s) as r eqn:Er. revert s Er. induction (lt_wf r) as [r _ IH]. intros s -> HJ.
  destruct (Hstep s HJ) as [Hg|(s1 & H1 & [Hg|[HJ1 Hr]])].
  - by exists s.
  - exists s1. split; [by apply rtc_once|done].
  - destruct (IH _ Hr s1 eq_refl HJ1) as (s2 & H2 & Hg). exists s2. split; [by eapply rtc_l|done].
Qed.

Definition advanced (h : ghost) (s : netState) : Prop := exists h', netInv h' s /\ (gSum h < gSum h')%nat.

(** How far the four threads are in the operations. *)
Definition opsOf (s : netState) : nat * nat * nat := (gs_op (gpuS s), sp_op (proxyS s), gr_op (gpuR s)).

Lemma gsEnabled_first G P D : (G < total)%nat -> G = D -> (G < P <= total)%nat -> gsEnabled G P D.
Proof.
  intros HG HD HP. unfold gsEnabled. rewrite Nat.min_l by lia. destruct (lookup_lt_is_Some_2 all G HG) as [sl Hl]. pose proof (endOf_S _ _ Hl) as E.
  unfold creditPos, slack. destruct shared.
  - pose proof (endOf_mono (S G) P ltac:(lia) ltac:(unfold total in *; lia)). lia.
  - rewrite <- HD, E. by apply endOf_room.
Qed.

Lemma gsEnabled_last P D h s : netInv h s -> gG h = total -> P = gP h -> D = gD h -> gsEnabled (gG h) P D.
Proof.
  intros I HG -> ->. unfold gsEnabled. rewrite HG, Nat.min_r by lia. pose proof (si_credit (ni_send _ _ I)) as Hc. unfold upTo in Hc.
  pose proof (proj2 (proj2 (proj2 (proj2 (proj2 (si_total (ni_send _ _ I))))))) as Ht. unfold upTo in Ht. destruct (gsCredit _); [lia|]. by rewrite <- HG.
Qed.

Lemma run_gpuSend h s : netInv h s -> gsEnabled (gG h) (gP h) (gD h) ->
  exists s', rtc netStep s s' /\ (advanced h s' \/ netInv h s' /\ opsOf s' = (length ops, sp_op (proxyS s), gr_op (gpuR s))).
Proof.
  intros I He. apply (run_rank (fun s' => netInv h s' /\ sp_op (proxyS s') = sp_op (proxyS s) /\ gr_op (gpuR s') = gr_op (gpuR s)) _ (fun s' => gsRank (gpuS s'))); [|done].
  clear I. intros s1 (I & E1 & E2). pose proof I as [IS IR Hd]. destruct (ops !! gs_op (gpuS s1)) as [op|] eqn:Ho.
  - right. destruct (gpuSend_good _ _ _ _ _ _ _ _ _ _ IS Ho) as (m' & g' & E & Hg). eexists. split; [by eapply StepGpuSend|]. destruct Hg as [I'|[I' Hr]].
    + left. left. exists (Ghost (S (gG h)) (gP h) (gX h) (gD h) (gE h) (hP h) (hR h) (hT h) (hD h) (hQ h)). split; [by constructor|unfold gSum; cbn; lia].
    + right. split; [|by apply Hr]. split; [by constructor|done].
  - left. right. split; [done|]. unfold opsOf. rewrite E1, E2. do 2 f_equal. apply lookup_ge_None in Ho. pose proof (si_block IS) as HB.
    destruct (gsLoad _); cbn in HB; [lia|]. destruct HB as (op & Hop & _). apply lookup_lt_Some in Hop. lia.
Qed.

Lemma run_gpuRecv h s : netInv h s -> (hQ h < hT h)%nat \/ hQ h = total ->
  exists s', rtc netStep s s' /\ (advanced h s' \/ netInv h s' /\ opsOf s' = (gs_op (gpuS s), sp_op (proxyS s), length ops)).
Proof.
  intros I He. apply (run_rank (fun s' => netInv h s' /\ gs_op (gpuS s') = gs_op (gpuS s) /\ sp_op (proxyS s') = sp_op (proxyS s)) _ (fun s' => grRank (gpuR s'))); [|done].
  clear I. intros s1 (I & E1 & E2). pose proof I as [IS IR Hd]. destruct (ops !! gr_op (gpuR s1)) as [op|] eqn:Ho.
  - right. destruct (gpuRecv_good _ _ _ _ _ _ _ _ _ _ _ IR Ho) as (m' & g' & E & Hg). eexists. split; [by eapply StepGpuRecv|]. destruct Hg as [I'|[I' Hr]].
    + left. left. exists (Ghost (gG h) (gP h) (gX h) (gD h) (gE h) (hP h) (hR h) (hT h) (hD h) (S (hQ h))). split; [by constructor|unfold gSum; cbn; lia].
    + right. split; [|by apply Hr]. split; [by constructor|done].
  - left. right. split; [done|]. unfold opsOf. rewrite E1, E2. f_equal. apply lookup_ge_None in Ho. pose proof (ri_block IR) as HB.
    destruct (grLoad _); cbn in HB; [lia|]. destruct HB as (op & Hop & _). apply lookup_lt_Some in Hop. lia.
Qed.

Lemma sendAt_op p G P X D E : sendAt p G P X D E -> ops !! sp_op p = None -> sp_op p = length ops /\ P = total /\ X = total /\ D = total.
Proof.
  unfold sendAt. intros HA Ho. apply lookup_ge_None in Ho. destruct (sp_pc p).
  1: destruct HA as (Hj & _ & -> & -> & ->); assert (sp_op p = length ops) as -> by lia; by rewrite pos_end.
  all: destruct HA as (op & Hop & _); apply lookup_lt_Some in Hop; lia.
Qed.

(** The proxy of the sender, with rank [rank]. *)
Lemma run_sendProxy h s : netInv h s -> spEnabled (gG h) (gP h) (gX h) (gD h) \/ (gD h < gE h)%nat ->
  exists s', rtc netStep s s' /\ (advanced h s' \/ netInv h s' /\ gD h = total /\ opsOf s' = (gs_op (gpuS s), length ops, gr_op (gpuR s))).
Proof.
  intros I He. assert (exists rank : sendProxy -> nat, forall m n g p op, sInv (gG h) (gP h) (gX h) (gD h) (gE h) m (outbox n) g p -> delivered n = gE h -> ops !! sp_op p = Some op ->
    exists m' n' p', sendProxyStep true m n p = Some (m', n', p') /\ inbox n' = inbox n /\ delivered n' = delivered n /\
    ((exists P' X' D', sInv (gG h) P' X' D' (gE h) m' (outbox n') g p' /\ (gP h + gX h + gD h < P' + X' + D')%nat) \/
      sInv (gG h) (gP h) (gX h) (gD h) (gE h) m' (outbox n') g p' /\ (rank p' < rank p)%nat)) as [rank Hrank].
  { destruct He as [He|He]; [exists spRank|exists spRankAck]; intros m n g p op J Hn Ho; destruct (sendProxy_good true _ _ _ _ _ _ _ _ _ _ J Hn Ho) as (m' & n' & p' & E1 & E2 & E3 & Hg);
      exists m', n', p'; (split_and!; [done..|]); (destruct Hg as [(P' & X' & D' & J' & _ & _ & _ & Hlt)|(J' & Hr1 & Hr2)]; [left; by exists P', X', D'|right; split; [done|auto]]). }
  apply (run_rank (fun s' => netInv h s' /\ gs_op (gpuS s') = gs_op (gpuS s) /\ gr_op (gpuR s') = gr_op (gpuR s)) _ (fun s' => rank (proxyS s'))); [|done].
  clear I. intros s1 (I & E1 & E2). pose proof I as [IS IR Hd]. destruct (ops !! sp_op (proxyS s1)) as [op|] eqn:Ho.
  - right. destruct (Hrank _ _ _ _ _ IS Hd Ho) as (m' & n' & p' & E & Ei & Ed & Hg). eexists. split; [by eapply StepSendProxy|]. rewrite <- Ei in IR. rewrite <- Ed in Hd. destruct Hg as [(P' & X' & D' & I' & Hlt)|[I' Hr]].
    + left. left. exists (Ghost (gG h) P' X' D' (gE h) (hP h) (hR h) (hT h) (hD h) (hQ h)). split; [by constructor|unfold gSum; cbn; lia].
    + right. split; [|exact Hr]. split; [by constructor|done].
  - left. right. destruct (sendAt_op _ _ _ _ _ _ (si_proxy IS) Ho) as (Ej & _ & _ & ED). split; [done|]. split; [done|]. unfold opsOf. by rewrite E1, E2, Ej.
Qed.

Lemma recvAt_op p P R T D : recvAt p P R T D -> (D = total <-> ops !! rp_op p = None) /\ (D = total -> rp_op p = length ops).
Proof.
  unfold recvAt. intros HA. destruct (rp_pc p).
  1: { destruct HA as (Hj & Hs & _ & _ & _ & ->). destruct (ops !! rp_op p) as [op|] eqn:Ho.
    - destruct (blockAt_load (rp_op p) 0 (rp_step p) (pos (rp_op p) 0) op ltac:(done) Ho) as (_ & _ & Hlt). split; [split; [lia|done]|lia].
    - apply lookup_ge_None in Ho. assert (rp_op p = length ops) as -> by lia. by rewrite pos_end. }
  all: destruct HA as (op & Ho & _ & _ & _ & _ & _ & HD & Hn & _); destruct (counterAt_slice _ _ Ho _ _ HD Hn) as (sl & Hl & _); apply lookup_lt_Some in Hl;
    unfold total; rewrite Ho; split; [split; [lia|done]|lia].
Qed.

Lemma run_recvProxy h s t : netInv h s -> rpEnabled t (hP h) (hR h) (hT h) (hD h) (hQ h) (gE h) -> (hD h < total)%nat ->
  exists s', rtc netStep s s' /\ advanced h s'.
Proof.
  intros I He HD. apply (run_rank (fun s' => netInv h s') _ (fun s' => rpRank t (proxyR s'))); [|done].
  clear I. intros s1 I. pose proof (outbox_length _ _ I) as Hout. pose proof I as [IS IR Hd]. destruct (recvAt_op _ _ _ _ _ (ri_proxy IR)) as [Hiff _].
  destruct (ops !! rp_op (proxyR s1)) as [op|] eqn:Ho; [|pose proof (proj2 Hiff eq_refl); lia].
  right. destruct (recvProxy_good true _ _ _ _ _ _ _ _ _ _ _ IR Hd Hout Ho) as (m' & n' & p' & E & Ei & Ed & Hg). eexists. split; [by eapply StepRecvProxy|].
  rewrite <- Ei in IS. rewrite <- Ed in Hd. destruct Hg as [(P' & R' & T' & D' & I' & _ & _ & _ & _ & Hlt)|[I' Hr]].
  - left. exists (Ghost (gG h) (gP h) (gX h) (gD h) (gE h) P' R' T' D' (hQ h)). split; [by constructor|unfold gSum; cbn; lia].
  - right. split; [by constructor|by apply Hr].
Qed.

Lemma gSum_bounds h s : netInv h s ->
  (gD h <= gE h <= gX h /\ gX h <= gG h <= total /\ gX h <= gP h <= total /\ hD h <= hQ h <= hT h /\ hT h <= hR h <= gE h /\ gE h <= hP h <= total)%nat.
Proof.
  intros [IS IR _]. pose proof (si_order IS). pose proof (ri_order IR). destruct (si_total IS) as (HG & HP & _). pose proof (recvAt_total _ _ _ _ _ (ri_proxy IR)). lia.
Qed.

(** While a slice is not through, some thread or the network can do its next part. *)
Lemma netInv_advance h s : netInv h s -> (gSum h < 10 * total)%nat -> exists s', rtc netStep s s' /\ advanced h s'.
Proof.
  intros I Hsum. pose proof (gSum_bounds _ _ I) as HB. unfold gSum in Hsum.
  assert (spEnabled (gG h) (gP h) (gX h) (gD h) \/ (gD h < gE h)%nat -> (gD h < total)%nat -> exists s', rtc netStep s s' /\ advanced h s') as Hsend.
  { intros He HD. destruct (run_sendProxy h s I He) as (s' & Hr & [Ha|(I' & ED & _)]); [by exists s'|lia]. }
  destruct (decide (gD h < gE h)%nat) as [H0|H0]; [apply Hsend; [by right|lia]|].
  destruct (decide (hD h < total)%nat) as [HDT|HDT]; [|lia].
  assert (forall t, rpEnabled t (hP h) (hR h) (hT h) (hD h) (hQ h) (gE h) -> exists s', rtc netStep s s' /\ advanced h s') as Hrecv by (intros t Ht; by eapply run_recvProxy).
  destruct (decide (hP h = hD h)) as [H1|H1]; [by apply (Hrecv TaskPost)|].
  destruct (decide (hR h < gE h)%nat) as [H2|H2]; [by apply (Hrecv TaskTest)|].
  destruct (decide (hT h < hR h)%nat) as [H3|H3]; [by apply (Hrecv TaskForward)|].
  destruct (decide (hD h < hQ h)%nat) as [H4|H4]; [by apply (Hrecv TaskHead)|].
  destruct (decide (hQ h < hT h)%nat) as [H5|H5].
  { destruct (run_gpuRecv h s I (or_introl H5)) as (s' & Hr & [Ha|[I' Eo]]); [by exists s'|]. injection Eo as _ _ Eo.
    pose proof (ri_block (ni_recv _ _ I')) as HQ. destruct (blockAt_op _ _ _ _ _ HQ ltac:(lia)) as [op Ho]. rewrite Eo in Ho. apply lookup_lt_Some in Ho. lia. }
  destruct (decide (gE h < gX h)%nat) as [H6|H6].
  { destruct (lookup_lt_is_Some_2 all (gE h)) as [sl Hl]; [unfold total in *; lia|].
    eexists. split; [apply rtc_once; apply StepDeliver; rewrite (netDeliver_good _ _ I), Hl, decide_True by lia; reflexivity|].
    eexists. split; [apply (netInv_deliver h s sl I); [lia|lia|done]|unfold gSum; cbn; lia]. }
  destruct (decide (gP h = gD h \/ (gX h < gG h)%nat /\ (gX h < gP h)%nat)) as [H7|H7]; [apply Hsend; [left; unfold spEnabled; tauto|lia]|].
  destruct (run_gpuSend h s I) as (s' & Hr & [Ha|[I' Eo]]); [apply gsEnabled_first; lia|by exists s'|]. injection Eo as Eo _ _.
  pose proof (si_block (ni_send _ _ I')) as HG. destruct (blockAt_op _ _ _ _ _ HG ltac:(lia)) as [op Ho]. rewrite Eo in Ho. apply lookup_lt_Some in Ho. lia.
Qed.

(** When all slices are through, the threads leave their last operation. *)
Lemma netInv_finish h s : netInv h s -> (gSum h >= 10 * total)%nat -> exists s', rtc netStep s s' /\ netInv h s' /\ finished s'.
Proof.
  intros I Hsum. pose proof (gSum_bounds _ _ I) as HB. unfold gSum in Hsum.
  assert (forall s', advanced h s' -> False) as Hna.
  { intros s' (h' & I' & Hlt). pose proof (gSum_bounds _ _ I'). unfold gSum in Hlt. lia. }
  destruct (run_gpuSend h s I) as (s1 & Hr1 & [?|[I1 E1]]); [eapply gsEnabled_last; try done; lia|by destruct (Hna s1)|].
  destruct (run_sendProxy h s1 I1) as (s2 & Hr2 & [?|(I2 & _ & E2)]); [left; unfold spEnabled; lia|by destruct (Hna s2)|].
  destruct (run_gpuRecv h s2 I2) as (s3 & Hr3 & [?|[I3 E3]]); [lia|by destruct (Hna s3)|]. unfold opsOf in E1, E2, E3.
  exists s3. split; [by etrans; [|etrans]|]. split; [done|]. destruct (recvAt_op _ _ _ _ _ (ri_proxy (ni_recv _ _ I3))) as [_ Hfin].
  unfold finished. split_and!; [congruence|congruence|apply Hfin; lia|congruence].
Qed.

Lemma netInv_completes h s : netInv h s -> exists h' s', rtc netStep s s' /\ netInv h' s' /\ hQ h' = total /\ finished s'.
Proof.
  remember (10 * total - gSum h)%nat as r eqn:Er. revert h s Er. induction (lt_wf r) as [r _ IH]. intros h s -> I.
  destruct (decide (gSum h < 10 * total)%nat) as [Hlt|Hge].
  - destruct (netInv_advance _ _ I Hlt) as (s1 & Hr & h1 & I1 & Hs). destruct (IH (10 * total - gSum h1)%nat ltac:(lia) h1 s1 eq_refl I1) as (h2 & s2 & Hr2 & H2).
    exists h2, s2. split; [by etrans|done].
  - destruct (netInv_finish _ _ I ltac:(lia)) as (s1 & Hr & I1 & Hf). exists h, s1. pose proof (gSum_bounds _ _ I1). unfold gSum in Hge. split_and!; try done. lia.
Qed.

(** ** Properties *)

(** What the block of the receiver has read, the messages and the threads. *)
Definition netSafe (s : netState) : Prop :=
  gr_out (gpuR s) `prefix_of` concat (slices <$> ops) /\
  (forall i p size q room, outbox (nw s) !! i = Some (p, size) -> inbox (nw s) !! i = Some (q, room) -> size <= room) /\
  (gs_op (gpuS s) < length ops -> is_Some (gpuSendStep (sMem s) (gpuS s)))%nat /\
  (forall answer, (sp_op (proxyS s) < length ops)%nat -> is_Some (sendProxyStep answer (sMem s) (nw s) (proxyS s))) /\
  (forall answer, (rp_op (proxyR s) < length ops)%nat -> is_Some (recvProxyStep answer (rMem s) (nw s) (proxyR s))) /\
  (gr_op (gpuR s) < length ops -> is_Some (gpuRecvStep (rMem s) (gpuR s)))%nat.

(** C4: In every interleaving of the two blocks, the two proxies and the network,
    whatever the network answers and whether the buffers are those of the connection or
    shared, what the receiver has read is a prefix of what the sender sends, in order;
    no buffer is overwritten while in use, no message is longer than the buffer posted
    for it, and no proxy looks for a request that is not there. *)
Theorem net_connection_fifo b b' s : rtc netStep (initState b b') s -> netSafe s.
Proof.
  intros [h I]%netInv_reachable. pose proof (outbox_length _ _ I) as Hout. pose proof I as [IS IR Hd]. split_and!.
  - rewrite (ri_out IR), <- all_data. eexists. rewrite <- (take_drop (upTo (grRead (gr_pc (gpuR s))) (hQ h)) all) at 1. by rewrite fmap_app.
  - intros i p size q room. rewrite (si_out IS), (ri_in IR), !list_lookup_fmap, !lookup_take. destruct (all !! i) as [sl|] eqn:Hl; [|by destruct (decide _)].
    destruct (decide _); [|done]. destruct (decide _); [|done]. cbn. intros [= <- <-] [= <- <-]. by eapply all_room.
  - intros [op Ho]%lookup_lt_is_Some_2. destruct (gpuSend_good _ _ _ _ _ _ _ _ _ _ IS Ho) as (m' & g' & E & _). by rewrite E.
  - intros answer [op Ho]%lookup_lt_is_Some_2. destruct (sendProxy_good answer _ _ _ _ _ _ _ _ _ _ IS Hd Ho) as (m' & n' & p' & E & _). by rewrite E.
  - intros answer [op Ho]%lookup_lt_is_Some_2. destruct (recvProxy_good answer _ _ _ _ _ _ _ _ _ _ _ IR Hd Hout Ho) as (m' & n' & p' & E & _). by rewrite E.
  - intros [op Ho]%lookup_lt_is_Some_2. destruct (gpuRecv_good _ _ _ _ _ _ _ _ _ _ _ IR Ho) as (m' & g' & E & _). by rewrite E.
Qed.

(** C5: From every reachable state the connection can finish: there is a run in which
    both blocks and both proxies leave their last operation and the receiver has read
    all slices of all operations. *)
Theorem net_connection_completes b b' s : rtc netStep (initState b b') s ->
  exists s', rtc netStep s s' /\ finished s' /\ gr_out (gpuR s') = concat (slices <$> ops).
Proof.
  intros [h I]%netInv_reachable. destruct (netInv_completes _ _ I) as (h' & s' & Hr & I' & HQ & Hf). exists s'. split; [done|]. split; [done|].
  rewrite <- all_data, (ri_out (ni_recv _ _ I')), HQ. by rewrite take_ge by (unfold upTo, total; destruct (grRead _); lia).
Qed.

End connection.

(** ** Runs *)

Section runs.

Context {V : Type} (ops : list (netOp V)) (shared : bool) (stepSize p2pChunkSize channelId : Z) (needFlush : bool).

(** A step of thread [t], with what the network answers; a thread that cannot move stays. *)
Definition act (t : nat) (answer : bool) (s : netState) : netState :=
  match t with
  | 0 => match gpuSendStep ops shared stepSize (sMem s) (gpuS s) with
         | Some (m, g) => NetState m (rMem s) (nw s) g (proxyS s) (proxyR s) (gpuR s) | None => s end
  | 1 => match sendProxyStep ops shared stepSize p2pChunkSize channelId answer (sMem s) (nw s) (proxyS s) with
         | Some (m, n, p) => NetState m (rMem s) n (gpuS s) p (proxyR s) (gpuR s) | None => s end
  | 2 => match netDeliver (sMem s) (rMem s) (nw s) with
         | Some (m, n) => NetState (sMem s) m n (gpuS s) (proxyS s) (proxyR s) (gpuR s) | None => s end
  | 3 => match recvProxyStep ops shared stepSize p2pChunkSize channelId needFlush answer (rMem s) (nw s) (proxyR s) with
         | Some (m, n, p) => NetState (sMem s) m n (gpuS s) (proxyS s) p (gpuR s) | None => s end
  | _ => match gpuRecvStep ops shared stepSize (rMem s) (gpuR s) with
         | Some (m, g) => NetState (sMem s) m (nw s) (gpuS s) (proxyS s) (proxyR s) g | None => s end
  end%nat.

Definition run (l : list (nat * bool)) (s : netState) : netState := fold_left (fun s '(t, answer) => act t answer s) l s.

Lemma act_steps t answer s : rtc (netStep ops shared stepSize p2pChunkSize channelId needFlush) s (act t answer s).
Proof.
  unfold act. destruct t as [|[|[|[|t]]]].
  - destruct (gpuSendStep _ _ _ _ _) as [[m g]|] eqn:E; [apply rtc_once; by constructor|done].
  - destruct (sendProxyStep _ _ _ _ _ _ _ _ _) as [[[m n] p]|] eqn:E; [apply rtc_once; by eapply StepSendProxy|done].
  - destruct (netDeliver _ _ _) as [[m n]|] eqn:E; [apply rtc_once; by constructor|done].
  - destruct (recvProxyStep _ _ _ _ _ _ _ _ _ _) as [[[m n] p]|] eqn:E; [apply rtc_once; by eapply StepRecvProxy|done].
  - destruct (gpuRecvStep _ _ _ _ _) as [[m g]|] eqn:E; [apply rtc_once; by constructor|done].
Qed.

Lemma run_steps l s : rtc (netStep ops shared stepSize p2pChunkSize channelId needFlush) s (run l s).
Proof. revert s. induction l as [|[t a] l IH]; intros s; [done|]. etrans; [apply act_steps|apply IH]. Qed.

End runs.

Definition exampleOps (w c : Z) : list (netOp Z) :=
  [{| nsteps := 2 * w; sliceSteps := w; chunkSteps := c; slices := [[1; 2]; [3]]; sendSubs := 1; sendIndex := 0; recvSubs := 1; recvIndex := 0 |};
   {| nsteps := 3 * w; sliceSteps := w; chunkSteps := c; slices := [[4]; []; [5; 6]]; sendSubs := 1; sendIndex := 0; recvSubs := 1; recvIndex := 0 |}].

(** Rounds in which each thread moves once, the network refusing in every third one. *)
Definition rounds (n : nat) : list (nat * bool) := concat ((fun i => (fun t => (t, negb (i mod 3 =? 0)%nat)) <$> seq 0 5) <$> seq 0 n).

Lemma exampleOp_ok shared w c (l : list (list Z)) : (w = 1 /\ c = 1) \/ (shared = false /\ w = 2 /\ c = 4) -> l <> [] -> Forall (fun d => length d <= 4)%nat l ->
  opOk shared 4 4 {| nsteps := Z.of_nat (length l) * w; sliceSteps := w; chunkSteps := c; slices := l; sendSubs := 1; sendIndex := 0; recvSubs := 1; recvIndex := 0 |}.
Proof.
  intros H Hl Hd. rewrite Forall_forall in Hd. constructor; cbn; try done.
  - lia.
  - destruct H as [[-> ->]|(_ & -> & ->)]; [by exists 1|by exists 2].
  - lia.
  - intros ->. lia.
  - intros d Hin. specialize (Hd d Hin). destruct shared; lia.
  - unfold NCCL_SHARED_STEPS. destruct shared; lia.
  - unfold NCCL_SHARED_STEPS. destruct shared; lia.
Qed.

Lemma exampleOps_ok shared w c : (w = 1 /\ c = 1) \/ (shared = false /\ w = 2 /\ c = 4) -> opsOk (exampleOps w c) shared 4 4 0.
Proof.
  intros H. constructor; [|destruct H as [[-> ->]|(_ & -> & ->)]; done|done..].
  constructor; [apply (exampleOp_ok shared w c [[1; 2]; [3]])|constructor; [apply (exampleOp_ok shared w c [[4]; []; [5; 6]])|done]]; try done; repeat constructor; cbn; lia.
Qed.

Lemma net_connection_fifo_witness :
  netSafe (exampleOps 2 4) false 4 4 0 false (run (exampleOps 2 4) false 4 4 0 false (rounds 40) (initState false (fun _ => 0) (fun _ => 0))) /\
  length (gr_out (gpuR (run (exampleOps 2 4) false 4 4 0 false (rounds 40) (initState false (fun _ => 0) (fun _ => 0))))) = 2%nat.
Proof.
  split.
  - apply (net_connection_fifo (exampleOps 2 4) false 4 4 0 false (exampleOps_ok false 2 4 ltac:(lia)) (fun _ => 0) (fun _ => 0)). apply run_steps.
  - vm_compute. reflexivity.
Defined.

Lemma net_connection_completes_witness :
  exists s, rtc (netStep (exampleOps 1 1) true 4 4 0 true) (run (exampleOps 1 1) true 4 4 0 true (rounds 20) (initState true (fun _ => 0) (fun _ => 0))) s /\
    finished (exampleOps 1 1) s /\ gr_out (gpuR s) = [[1; 2]; [3]; [4]; []; [5; 6]].
Proof.
  apply (net_connection_completes (exampleOps 1 1) true 4 4 0 true (exampleOps_ok true 1 1 ltac:(lia)) (fun _ => 0) (fun _ => 0)). apply run_steps.
Defined.
