(* ===== verification/LLData.v ===== *)
(** * Elements in LL lines (src/src/device/prims_ll.h)

    A line of the LL protocol carries 8 bytes.  [DataLoader] fills them with up to
    [EltPerLine] elements from memory; elements of one or two bytes are loaded by aligned
    words of 4 bytes, which are shifted into place.  [storeData] writes the elements of a
    line to memory.  This file models both on bytes and shows that they carry the elements
    whatever their alignment, with nothing said of the bytes of the line they leave
    undefined, and write nothing else. *)

From stdpp Require Import base numbers list.
From Stdlib Require Import ZArith Lia.
From S2P Require Import Prelude.

Local Open Scope Z_scope.

(** ** Bytes *)

(** Memory, and the union of [DataLoader], by byte. *)
Definition bytes : Type := Z -> Z.

Definition isBytes (m : bytes) : Prop := forall x, 0 <= m x < 2 ^ 8.

Definition byteOf (v k : Z) : Z := (v / 2 ^ (8 * k)) mod 2 ^ 8.

(** A load of [n] bytes, the lowest first. *)
Fixpoint loadInt (n : nat) (m : bytes) (a : Z) : Z :=
  match n with
  | O => 0
  | S n => m a + 2 ^ 8 * loadInt n m (a + 1)
  end.
Arguments loadInt : simpl never.

(** A store of the [n] bytes [f]. *)
Definition setBytes (m : bytes) (a n : Z) (f : Z -> Z) : bytes :=
  fun x => if (a <=? x) && (x <? a + n) then f (x - a) else m x.

(** ** DataLoader and storeData *)

(** The CUDA function: the low word of the double word shifted right. *)
Definition funnelshift_r (lo hi shift : Z) : Z := wrap32 (Z.shiftr (lo + Z.shiftl hi 32) (Z.land shift 31)).

Section Elements.

(** The size of an element *)
Context (sizeofT : Z).

(* src/src/device/prims_ll.h:160-160 EltPerLine *)
Definition EltPerLine : Z := Z.quot 8 sizeofT.

(** The loops over the elements of a line: those with [i == 0 || i < eltN] are copied
    from [f] to [m] at [a]. *)
(* src/src/device/prims_ll.h:235-241 storeData *)
Definition copyElts (f : Z -> Z) (eltN : Z) (m : bytes) (a : Z) : bytes :=
  fold_left (fun m i =>
      if (Z.of_nat i =? 0) || (Z.of_nat i <? eltN)
      then setBytes m (a + Z.of_nat i * sizeofT) sizeofT (fun j => f (Z.of_nat i * sizeofT + j))
      else m)
    (seq 0 (Z.to_nat EltPerLine)) m.

(** The word at index [i] of [u4] *)
Definition u4 (u : bytes) (i : Z) : Z := loadInt 4 u (4 * i).
Definition set_u4 (u : bytes) (i v : Z) : bytes := setBytes u (4 * i) 4 (byteOf v).

(** [loadBegin] sets [misalign] and the bytes of the union, which hold anything before. *)
(* src/src/device/prims_ll.h:200-216 loadBegin *)
Definition loadBegin (m : bytes) (src eltN : Z) (u : bytes) : Z * bytes :=
  if sizeofT <=? 2 then
    let misalign := src mod 4 in
    let p := Z.land src (- 4) in
    let u := set_u4 u 0 (loadInt 4 m p) in
    let u := set_u4 u 1 (if misalign + eltN * sizeofT >? 4 then loadInt 4 m (p + 4) else 0) in
    let u := set_u4 u 2 (if misalign + eltN * sizeofT >? 8 then loadInt 4 m (p + 8) else 0) in
    (misalign, u)
  else (0, copyElts (fun j => m (src + j)) eltN u 0).

(* src/src/device/prims_ll.h:218-225 loadFinish *)
Definition loadFinish (misalign : Z) (u : bytes) : Z :=
  let u :=
    if sizeofT <=? 2 then
      let u := set_u4 u 0 (funnelshift_r (u4 u 0) (u4 u 1) (8 * misalign)) in
      set_u4 u 1 (funnelshift_r (u4 u 1) (u4 u 2) (8 * misalign))
    else u in
  loadInt 8 u 0.

Definition loadData (m : bytes) (src eltN : Z) (u : bytes) : Z :=
  let '(misalign, u) := loadBegin m src eltN u in loadFinish misalign u.

(* src/src/device/prims_ll.h:228-242 storeData *)
Definition storeData (m : bytes) (dst val eltN : Z) : bytes := copyElts (byteOf val) eltN m dst.

(** ** Lemmas on bytes *)

Lemma byteOf_range v k : 0 <= byteOf v k < 2 ^ 8.
Proof. by apply Z.mod_pos_bound. Qed.

Lemma byteOf_join lo hi k :
  0 <= lo < 2 ^ 32 -> 0 <= k -> byteOf (lo + Z.shiftl hi 32) k = if k <? 4 then byteOf lo k else byteOf hi (k - 4).
Proof.
  intros Hlo Hk. unfold byteOf. rewrite Z.shiftl_mul_pow2 by lia. zcase1.
  - assert (k = 0 \/ k = 1 \/ k = 2 \/ k = 3) as [-> | [-> | [-> | ->]]] by lia; Z.div_mod_to_equations; lia.
  - replace (2 ^ (8 * k)) with (2 ^ 32 * 2 ^ (8 * (k - 4))) by (rewrite <- Z.pow_add_r by lia; f_equal; lia).
    assert (0 < 2 ^ (8 * (k - 4))) by (apply Z.pow_pos_nonneg; lia).
    rewrite <- Z.div_div by lia. by rewrite Z.div_add, (Z.div_small lo) by lia.
Qed.

Lemma byteOf_shift v m k : 0 <= m -> 0 <= k -> byteOf (Z.shiftr v (8 * m)) k = byteOf v (m + k).
Proof.
  intros. unfold byteOf. assert (0 < 2 ^ (8 * m)) by (apply Z.pow_pos_nonneg; lia).
  assert (0 < 2 ^ (8 * k)) by (apply Z.pow_pos_nonneg; lia).
  rewrite Z.shiftr_div_pow2, Z.div_div by lia. rewrite <- Z.pow_add_r by lia. do 3 f_equal. lia.
Qed.

Lemma byteOf_wrap32 v k : 0 <= k < 4 -> byteOf (wrap32 v) k = byteOf v k.
Proof.
  intros. unfold byteOf, wrap32. assert (k = 0 \/ k = 1 \/ k = 2 \/ k = 3) as [-> | [-> | [-> | ->]]] by lia;
    Z.div_mod_to_equations; lia.
Qed.

Lemma loadInt_S n m a : loadInt (S n) m a = m a + 2 ^ 8 * loadInt n m (a + 1).
Proof. done. Qed.

Lemma loadInt_range n m a : isBytes m -> 0 <= loadInt n m a < 2 ^ (8 * Z.of_nat n).
Proof.
  intros Hm. revert a. induction n as [|n IH]; intros a; [done|]. rewrite loadInt_S. specialize (IH (a + 1)). specialize (Hm a).
  replace (8 * Z.of_nat (S n)) with (8 + 8 * Z.of_nat n) by lia. rewrite Z.pow_add_r by lia. lia.
Qed.

Lemma byteOf_loadInt n m a k : isBytes m -> 0 <= k < Z.of_nat n -> byteOf (loadInt n m a) k = m (a + k).
Proof.
  intros Hm. revert a k. induction n as [|n IH]; intros a k Hk; [lia|]. rewrite loadInt_S. unfold byteOf.
  pose proof (Hm a). destruct (decide (k = 0)) as [->|].
  - rewrite Z.div_1_r, Z.add_0_r. Z.div_mod_to_equations. lia.
  - replace (2 ^ (8 * k)) with (2 ^ 8 * 2 ^ (8 * (k - 1))) by (rewrite <- Z.pow_add_r by lia; f_equal; lia).
    assert (0 < 2 ^ (8 * (k - 1))) by (apply Z.pow_pos_nonneg; lia).
    rewrite <- Z.div_div by lia. rewrite (Z.mul_comm (2 ^ 8)), Z.div_add, (Z.div_small (m a)) by lia.
    fold (byteOf (0 + loadInt n m (a + 1)) (k - 1)). rewrite Z.add_0_l, IH by lia. f_equal. lia.
Qed.

Lemma byteOf_funnel lo hi mis k :
  0 <= lo < 2 ^ 32 -> 0 <= mis < 4 -> 0 <= k < 4 ->
  byteOf (funnelshift_r lo hi (8 * mis)) k = if mis + k <? 4 then byteOf lo (mis + k) else byteOf hi (mis + k - 4).
Proof.
  intros. unfold funnelshift_r. rewrite byteOf_wrap32 by done.
  replace (Z.land (8 * mis) 31) with (8 * mis); [rewrite byteOf_shift by lia; by apply byteOf_join; lia|].
  assert (mis = 0 \/ mis = 1 \/ mis = 2 \/ mis = 3) as [-> | [-> | [-> | ->]]] by lia; done.
Qed.

(** ** Lemmas on the stores *)

Lemma setBytes_isBytes m a n f : isBytes m -> (forall j, 0 <= f j < 2 ^ 8) -> isBytes (setBytes m a n f).
Proof. intros Hm Hf x. unfold setBytes. by destruct (_ && _). Qed.

Lemma set_u4_isBytes u i v : isBytes u -> isBytes (set_u4 u i v).
Proof. intros. apply setBytes_isBytes; [done|]. apply byteOf_range. Qed.

Lemma set_u4_byte u i v x : set_u4 u i v x = if (4 * i <=? x) && (x <? 4 * i + 4) then byteOf v (x - 4 * i) else u x.
Proof. done. Qed.

Lemma copyElts_spec f eltN m a x :
  0 < sizeofT -> 1 <= eltN <= EltPerLine ->
  copyElts f eltN m a x = if (a <=? x) && (x <? a + eltN * sizeofT) then f (x - a) else m x.
Proof.
  intros Hs Hn. unfold copyElts.
  assert (forall k : nat, fold_left (fun m i =>
      if (Z.of_nat i =? 0) || (Z.of_nat i <? eltN)
      then setBytes m (a + Z.of_nat i * sizeofT) sizeofT (fun j => f (Z.of_nat i * sizeofT + j)) else m)
    (seq 0 k) m x = if (a <=? x) && (x <? a + Z.min (Z.of_nat k) eltN * sizeofT) then f (x - a) else m x) as H.
  { induction k as [|k IH]; [zcases; simpl; zcases; done|]. rewrite seq_S, fold_left_app. cbn [fold_left Nat.add].
    replace ((Z.of_nat k =? 0) || (Z.of_nat k <? eltN)) with (Z.of_nat k <? eltN) by (destruct k; zcases; done).
    destruct (Z.ltb_spec (Z.of_nat k) eltN).
    - unfold setBytes at 1. rewrite IH, !Z.min_l by lia. zcases; simpl; try nia; try done. f_equal. lia.
    - by rewrite IH, !Z.min_r by lia. }
  rewrite H. rewrite Z.min_r by lia. done.
Qed.

Lemma copyElts_isBytes f eltN m a : isBytes m -> (forall j, 0 <= f j < 2 ^ 8) -> isBytes (copyElts f eltN m a).
Proof.
  intros Hm Hf. unfold copyElts. revert m Hm. induction (seq 0 _) as [|i l IH]; intros m Hm; [done|]. cbn [fold_left].
  apply IH. destruct (_ || _); [|done]. by apply setBytes_isBytes.
Qed.

Lemma u4_range u i : isBytes u -> 0 <= u4 u i < 2 ^ 32.
Proof. intros. by apply (loadInt_range 4). Qed.

(** Byte [k] of an aligned word, among the words [loadBegin] loads. *)
Lemma loadBegin_small m src eltN u mis u' k :
  sizeofT <= 2 -> isBytes m -> isBytes u -> loadBegin m src eltN u = (mis, u') ->
  mis = src mod 4 /\ isBytes u' /\
  (0 <= k < 12 -> k < mis + eltN * sizeofT -> u' k = m (src - mis + k)).
Proof.
  unfold loadBegin. intros Hs Hm Hu. rewrite (proj2 (Z.leb_le _ _) Hs). intros [= <- <-].
  split; [done|]. split; [by repeat apply set_u4_isBytes|]. intros Hk Hlt.
  replace (Z.land src (- 4)) with (src - src mod 4).
  2: { change (- 4) with (Z.lnot (Z.ones 2)). rewrite <- Z.ldiff_land, Z.ldiff_ones_r by lia.
       rewrite Z.shiftl_mul_pow2, Z.shiftr_div_pow2 by lia. Z.div_mod_to_equations. lia. }
  rewrite !set_u4_byte. zcases; cbn [andb]; rewrite byteOf_loadInt by (done || lia); f_equal; lia.
Qed.

Lemma loadFinish_small mis u k :
  sizeofT <= 2 -> 0 <= mis < 4 -> isBytes u -> 0 <= k < 8 -> byteOf (loadFinish mis u) k = u (mis + k).
Proof.
  intros Hs Hm Hu Hk. unfold loadFinish. rewrite (proj2 (Z.leb_le _ _) Hs).
  set (w0 := funnelshift_r _ _ _). rewrite byteOf_loadInt; [|by repeat apply set_u4_isBytes|lia].
  rewrite !set_u4_byte, !Z.add_0_l.
  assert (forall i, i = 1 \/ i = 2 -> u4 (set_u4 u 0 w0) i = u4 u i) as Hkeep.
  { intros i Hi. unfold u4, set_u4, setBytes. rewrite !loadInt_S. destruct Hi as [-> | ->]; reflexivity. }
  rewrite !Hkeep by auto. pose proof (u4_range u 0 Hu). pose proof (u4_range u 1 Hu). unfold w0.
  zcases; cbn [andb]; rewrite byteOf_funnel by lia; unfold u4; zcases;
    (rewrite byteOf_loadInt by (done || lia)); f_equal; lia.
Qed.

(** The line carries the elements. *)
Lemma loadData_bytes m src eltN u k :
  sizeofT = 1 \/ sizeofT = 2 \/ sizeofT = 4 \/ sizeofT = 8 -> isBytes m -> isBytes u ->
  1 <= eltN <= EltPerLine -> 0 <= k < eltN * sizeofT -> byteOf (loadData m src eltN u) k = m (src + k).
Proof.
  intros Hs Hm Hu Hn Hk. assert (EltPerLine * sizeofT = 8) as H8 by (unfold EltPerLine; by destruct Hs as [-> | [-> | [-> | ->]]]).
  unfold loadData. destruct (loadBegin m src eltN u) as [mis u'] eqn:E. destruct (Z.le_gt_cases sizeofT 2).
  - destruct (loadBegin_small m src eltN u mis u' (mis + k)) as (-> & Hu' & Hb); [done..|].
    pose proof (Z.mod_pos_bound src 4). rewrite loadFinish_small by (done || lia || nia).
    rewrite Hb by nia. f_equal. lia.
  - unfold loadBegin in E. rewrite (proj2 (Z.leb_gt _ _)) in E by done. simplify_eq.
    unfold loadFinish. rewrite (proj2 (Z.leb_gt _ _)) by done. rewrite byteOf_loadInt; [|by apply copyElts_isBytes|nia].
    rewrite copyElts_spec by lia. zcases. simpl. f_equal. lia.
Qed.

Lemma storeData_spec m dst val eltN x :
  0 < sizeofT -> 1 <= eltN <= EltPerLine ->
  storeData m dst val eltN x = if (dst <=? x) && (x <? dst + eltN * sizeofT) then byteOf val (x - dst) else m x.
Proof. apply copyElts_spec. Qed.

Lemma loadData_range m src eltN u : isBytes m -> isBytes u -> 0 <= loadData m src eltN u < 2 ^ 64.
Proof.
  intros Hm Hu. unfold loadData. destruct (loadBegin m src eltN u) as [mis u'] eqn:E. unfold loadFinish.
  apply (loadInt_range 8). destruct (Z.leb_spec sizeofT 2) as [Hle|Hgt].
  - destruct (loadBegin_small m src eltN u mis u' 0 Hle Hm Hu E) as (_ & Hu' & _). by repeat apply set_u4_isBytes.
  - unfold loadBegin in E. rewrite (proj2 (Z.leb_gt _ _) Hgt) in E. simplify_eq. by apply copyElts_isBytes.
Qed.

End Elements.
