(* ===== verification/PrimsLL.v ===== *)
(** * The LL protocol (src/src/device/prims_ll.h)

    With the LL protocol a block sends data through a buffer of lines of 16 bytes, in
    which each half holds 4 bytes of data and a flag of 4 bytes.  The reader polls the
    line until both flags have the value of its step, so no other signal says that data
    are there.  A flag is the low half of a 64-bit step counter and so comes back every
    [2 ^ 32] steps; as a step fills only the lines its data need, a line could keep an old
    flag until then, and the sender therefore writes every line of a slot once in [2 ^ 31]
    steps.

    This file models one connection between two blocks: the threads of the sender, each
    storing its lines half by half, the threads of the receiver, each loading its lines
    half by half in either order, the credits, the barriers and the cleanup, and the
    packing of elements into lines.  It shows that the receiver gets exactly the data
    sent however the threads interleave and however many steps are made, and that the two
    blocks never wait for each other for ever.

    Steps are counted in 64 bits by the code and never reach [2 ^ 64]; they are integers
    here.  The abort flag, the sizes posted for the proxy, reductions, and the small flags
    of a build with [TEST_LL_CLEANUP] are not modelled. *)

From stdpp Require Import base numbers list relations.
From Stdlib Require Import ZArith Lia.
From S2P Require Import Prelude LLData.

Local Open Scope Z_scope.

(** ** Lines *)

(* src/src/include/device.h:77-90 ncclLLFifoLine *)
Record ncclLLFifoLine := {
  data1 : Z;
  flag1 : Z;
  data2 : Z;
  flag2 : Z }.

(* src/src/include/device.h:107-107 NCCL_LL_CLEAN_MASK *)
Definition NCCL_LL_CLEAN_MASK : Z := 0x7ffffff8.

(* src/src/include/device.h:108-108 NCCL_LL_FLAG *)
Definition NCCL_LL_FLAG (a : Z) : Z := wrap32 a.

(** The flag of a step: [sendFlag] and [recvFlag]. *)
(* src/src/device/prims_ll.h:56-61 recvFlag *)
Definition stepFlag (step : Z) : Z := NCCL_LL_FLAG (step + 1).

(** The store of a line is atomic by halves only: [storeLL] of one half, the second if
    [b]. *)
(* src/src/device/prims_ll.h:154-158 storeLL *)
Definition storeLL (b : bool) (dst : ncclLLFifoLine) (val flag : Z) : ncclLLFifoLine :=
  if b then {| data1 := data1 dst; flag1 := flag1 dst; data2 := wrap32 (Z.shiftr val 32); flag2 := flag |}
  else {| data1 := wrap32 val; flag1 := flag; data2 := data2 dst; flag2 := flag2 dst |}.

(** One half of a line, as a load sees it. *)
Definition loadHalf (b : bool) (src : ncclLLFifoLine) : Z * Z :=
  if b then (data2 src, flag2 src) else (data1 src, flag1 src).

(** What [readLL] does with the registers it has loaded: nothing yet unless both flags
    are there. *)
(* src/src/device/prims_ll.h:119-121 readLL *)
Definition readLLval (r1 r2 : Z * Z) (flag : Z) : option Z :=
  if (snd r1 =? flag) && (snd r2 =? flag) then Some (fst r1 + Z.shiftl (fst r2) 32) else None.

(** Whether the sender cleans the slot at a step: the test of [incSend]. *)
(* src/src/device/prims_ll.h:102-102 incSend *)
Definition cleanStep (step : Z) : bool := Z.land step NCCL_LL_CLEAN_MASK =? NCCL_LL_CLEAN_MASK.

(* src/src/include/device.h:26-26 NCCL_STEPS *)
Definition NCCL_STEPS : Z := 8.

(** ** Threads *)

(** A thread of the sender: the line it is at, the elements left from there, and which
    halves of the line it has stored. *)
Record sendThread := {
  s_offset : Z;
  s_nelem : Z;
  s_half1 : bool;
  s_half2 : bool }.

(** A thread of the receiver: its line, the elements left, and the registers of the load
    under way. *)
Record recvThread := {
  r_offset : Z;
  r_nelem : Z;
  r_reg1 : option (Z * Z);
  r_reg2 : option (Z * Z) }.

Definition stored (b : bool) (th : sendThread) : bool := if b then s_half2 th else s_half1 th.
Definition reg (b : bool) (th : recvThread) : option (Z * Z) := if b then r_reg2 th else r_reg1 th.

Definition zset {A} (f : Z -> A) (k : Z) (v : A) : Z -> A := fun x => if x =? k then v else f x.

Lemma zset_eq {A} (f : Z -> A) k v : zset f k v k = v.
Proof. unfold zset. by rewrite Z.eqb_refl. Qed.

Lemma zset_ne {A} (f : Z -> A) k v x : x <> k -> zset f k v x = f x.
Proof. intros. unfold zset. by rewrite (proj2 (Z.eqb_neq _ _)). Qed.

(** The state of the connection: the buffer and the head in memory, the sender, of which
    the threads are [None] while they wait in [waitSend], and the receiver with the words
    it has read, by step and line. *)
Record llConn := {
  buff : Z -> ncclLLFifoLine;
  connHead : Z;
  sendStep : Z;
  sendConnHead : Z;
  sendConnHeadCache : Z;
  sendThreads : option (list sendThread);
  recvStep : Z;
  recvConnHead : Z;
  recvThreads : list recvThread;
  received : Z -> Z -> option Z }.

Inductive llAction :=
  | SendPoll
  | SendStart
  | SendStore (i : nat) (b : bool)
  | SendNext
  | RecvLoad (i : nat) (b : bool)
  | RecvCheck (i : nat)
  | RecvBarrier
  | RecvPost.

Section Connection.

(** The calls on the connection, by step: the number of elements and the words of the
    lines, and the numbers of threads of the two blocks. *)
Context (stepLines eltPerLine : Z) (nelem : Z -> Z) (word : Z -> Z -> Z).
Context (sendNthreads recvNthreads : Z -> Z).

(* src/src/device/prims_ll.h:252-252 LLGenericOp *)
Definition opElts (step : Z) : Z := if nelem step <? 0 then 0 else nelem step.

(* src/src/device/prims_ll.h:44-55 sendPtr *)
Definition stepPtr (step : Z) : Z := (step mod NCCL_STEPS) * stepLines.

(** *** The sender *)

(* src/src/device/prims_ll.h:255-259 LLGenericOp *)
Definition sendThreadInit (step : Z) (tid : nat) : sendThread :=
  {| s_offset := Z.of_nat tid; s_nelem := opElts step - Z.of_nat tid * eltPerLine; s_half1 := false; s_half2 := false |}.

(** The word the thread stores next: the data of its line, or zero when it cleans. *)
(* src/src/device/prims_ll.h:99-104 incSend *)
Definition sendWord (step : Z) (th : sendThread) : option Z :=
  if 0 <? s_nelem th then Some (word step (s_offset th))
  else if cleanStep step && (s_offset th <? stepLines) then Some 0
  else None.

(** After a half: the thread goes to its next line when both are stored. *)
(* src/src/device/prims_ll.h:302-303 LLGenericOp *)
Definition sendAdvance (step : Z) (b : bool) (th : sendThread) : sendThread :=
  if stored (negb b) th then
    {| s_offset := s_offset th + sendNthreads step;
       s_nelem := if 0 <? s_nelem th then s_nelem th - sendNthreads step * eltPerLine else s_nelem th;
       s_half1 := false; s_half2 := false |}
  else {| s_offset := s_offset th; s_nelem := s_nelem th;
          s_half1 := s_half1 th || negb b; s_half2 := s_half2 th || b |}.

(** One polling of [waitSend] *)
(* src/src/device/prims_ll.h:76-79 waitSend *)
Definition sendPoll (st : llConn) : option llConn :=
  match sendThreads st with
  | None =>
      if sendConnHeadCache st + NCCL_STEPS <? sendConnHead st + 1 then
        Some {| buff := buff st; connHead := connHead st; sendStep := sendStep st;
                sendConnHead := sendConnHead st; sendConnHeadCache := connHead st;
                sendThreads := None; recvStep := recvStep st; recvConnHead := recvConnHead st;
                recvThreads := recvThreads st; received := received st |}
      else None
  | Some _ => None
  end.

(** The end of [waitSend] *)
(* src/src/device/prims_ll.h:76-88 waitSend *)
Definition sendStart (st : llConn) : option llConn :=
  match sendThreads st with
  | None =>
      if sendConnHeadCache st + NCCL_STEPS <? sendConnHead st + 1 then None
      else
        Some {| buff := buff st; connHead := connHead st; sendStep := sendStep st;
                sendConnHead := sendConnHead st + 1; sendConnHeadCache := sendConnHeadCache st;
                sendThreads := Some (map (sendThreadInit (sendStep st)) (seq 0 (Z.to_nat (sendNthreads (sendStep st)))));
                recvStep := recvStep st; recvConnHead := recvConnHead st;
                recvThreads := recvThreads st; received := received st |}
  | Some _ => None
  end.

(** A store of thread [i], in the loop over the data or in the one that cleans. *)
(* src/src/device/prims_ll.h:291-304 LLGenericOp *)
Definition sendStore (i : nat) (b : bool) (st : llConn) : option llConn :=
  ths ← sendThreads st;
  th ← ths !! i;
  v ← sendWord (sendStep st) th;
  if stored b th then None
  else
    let p := stepPtr (sendStep st) + s_offset th in
    Some {| buff := zset (buff st) p (storeLL b (buff st p) v (stepFlag (sendStep st)));
            connHead := connHead st; sendStep := sendStep st;
            sendConnHead := sendConnHead st; sendConnHeadCache := sendConnHeadCache st;
            sendThreads := Some (<[i := sendAdvance (sendStep st) b th]> ths);
            recvStep := recvStep st; recvConnHead := recvConnHead st;
            recvThreads := recvThreads st; received := received st |}.

(** The end of [incSend], by all threads. *)
(* src/src/device/prims_ll.h:105-106 incSend *)
Definition sendNext (st : llConn) : option llConn :=
  ths ← sendThreads st;
  if forallb (fun th => bool_decide (sendWord (sendStep st) th = None)) ths then
    Some {| buff := buff st; connHead := connHead st; sendStep := sendStep st + 1;
            sendConnHead := sendConnHead st; sendConnHeadCache := sendConnHeadCache st;
            sendThreads := None; recvStep := recvStep st; recvConnHead := recvConnHead st;
            recvThreads := recvThreads st; received := received st |}
  else None.

(** *** The receiver *)

(* src/src/device/prims_ll.h:255-259 LLGenericOp *)
Definition recvThreadInit (step : Z) (tid : nat) : recvThread :=
  {| r_offset := Z.of_nat tid; r_nelem := opElts step - Z.of_nat tid * eltPerLine; r_reg1 := None; r_reg2 := None |}.

Definition recvInit (step : Z) : list recvThread := map (recvThreadInit step) (seq 0 (Z.to_nat (recvNthreads step))).

(** One half of the load of [readLL] *)
(* src/src/device/prims_ll.h:108-117 readLL *)
Definition recvLoad (i : nat) (b : bool) (st : llConn) : option llConn :=
  th ← recvThreads st !! i;
  if 0 <? r_nelem th then
    match reg b th with
    | Some _ => None
    | None =>
        let v := loadHalf b (buff st (stepPtr (recvStep st) + r_offset th)) in
        let th' := {| r_offset := r_offset th; r_nelem := r_nelem th;
                      r_reg1 := if b then r_reg1 th else Some v;
                      r_reg2 := if b then Some v else r_reg2 th |} in
        Some {| buff := buff st; connHead := connHead st; sendStep := sendStep st;
                sendConnHead := sendConnHead st; sendConnHeadCache := sendConnHeadCache st;
                sendThreads := sendThreads st; recvStep := recvStep st; recvConnHead := recvConnHead st;
                recvThreads := <[i := th']> (recvThreads st); received := received st |}
    end
  else None.

(** The test of the flags: the line is loaded again, or the word is used and the thread
    goes to its next line. *)
(* src/src/device/prims_ll.h:113-122 readLL *)
Definition recvCheck (i : nat) (st : llConn) : option llConn :=
  th ← recvThreads st !! i;
  r1 ← r_reg1 th;
  r2 ← r_reg2 th;
  let '(th', rc) :=
    match readLLval r1 r2 (stepFlag (recvStep st)) with
    | Some v =>
        ({| r_offset := r_offset th + recvNthreads (recvStep st);
            r_nelem := r_nelem th - recvNthreads (recvStep st) * eltPerLine;
            r_reg1 := None; r_reg2 := None |},
         zset (received st) (recvStep st) (zset (received st (recvStep st)) (r_offset th) (Some v)))
    | None =>
        ({| r_offset := r_offset th; r_nelem := r_nelem th; r_reg1 := None; r_reg2 := None |}, received st)
    end in
  Some {| buff := buff st; connHead := connHead st; sendStep := sendStep st;
          sendConnHead := sendConnHead st; sendConnHeadCache := sendConnHeadCache st;
          sendThreads := sendThreads st; recvStep := recvStep st; recvConnHead := recvConnHead st;
          recvThreads := <[i := th']> (recvThreads st); received := rc |}.

(** [incRecv] and the barrier of [postRecv]; the thread that posts the head is back from
    its last [postRecv]. *)
(* src/src/device/prims_ll.h:91-95 postRecv *)
Definition recvBarrier (st : llConn) : option llConn :=
  if forallb (fun th => r_nelem th <=? 0) (recvThreads st) && (recvConnHead st =? recvStep st) then
    Some {| buff := buff st; connHead := connHead st; sendStep := sendStep st;
            sendConnHead := sendConnHead st; sendConnHeadCache := sendConnHeadCache st;
            sendThreads := sendThreads st; recvStep := recvStep st + 1; recvConnHead := recvConnHead st;
            recvThreads := recvInit (recvStep st + 1); received := received st |}
  else None.

(** The post of [postRecv] *)
(* src/src/device/prims_ll.h:96-97 postRecv *)
Definition recvPost (st : llConn) : option llConn :=
  if recvConnHead st <? recvStep st then
    Some {| buff := buff st; connHead := recvConnHead st + 1; sendStep := sendStep st;
            sendConnHead := sendConnHead st; sendConnHeadCache := sendConnHeadCache st;
            sendThreads := sendThreads st; recvStep := recvStep st; recvConnHead := recvConnHead st + 1;
            recvThreads := recvThreads st; received := received st |}
  else None.

Definition llStep (a : llAction) : llConn -> option llConn :=
  match a with
  | SendPoll => sendPoll
  | SendStart => sendStart
  | SendStore i b => sendStore i b
  | SendNext => sendNext
  | RecvLoad i b => recvLoad i b
  | RecvCheck i => recvCheck i
  | RecvBarrier => recvBarrier
  | RecvPost => recvPost
  end.

Definition llRun (st st' : llConn) : Prop := exists a, llStep a st = Some st'.

(** A new connection: a buffer of zeroes. *)
Definition llInit : llConn :=
  {| buff := fun _ => {| data1 := 0; flag1 := 0; data2 := 0; flag2 := 0 |};
     connHead := 0; sendStep := 0; sendConnHead := 0; sendConnHeadCache := 0; sendThreads := None;
     recvStep := 0; recvConnHead := 0; recvThreads := recvInit 0; received := fun _ _ => None |}.

(** ** The flags *)

Lemma land_shiftl3 t m : Z.land t (Z.shiftl m 3) = Z.shiftl (Z.land (Z.shiftr t 3) m) 3.
Proof.
  apply Z.bits_inj'. intros n Hn. rewrite Z.land_spec, !Z.shiftl_spec, Z.land_spec by done.
  destruct (Z.lt_ge_cases n 3).
  - rewrite !(Z.testbit_neg_r _ (n - 3)) by lia. by rewrite andb_false_r.
  - rewrite Z.shiftr_spec by lia. do 2 f_equal. lia.
Qed.

(** A slot is cleaned in the last round of each [2 ^ 31] steps. *)
Lemma cleanStep_spec t : 0 <= t -> cleanStep t = (2 ^ 31 - 8 <=? t mod 2 ^ 31).
Proof.
  intros Ht. unfold cleanStep. change NCCL_LL_CLEAN_MASK with (Z.shiftl (Z.ones 28) 3) at 1.
  rewrite land_shiftl3, Z.land_ones, Z.shiftl_mul_pow2, Z.shiftr_div_pow2 by lia.
  unfold NCCL_LL_CLEAN_MASK. zcase1; zcase1; try done; exfalso; Z.div_mod_to_equations; lia.
Qed.

Lemma cleanStep_recent T s :
  0 <= T -> 0 <= s < 8 ->
  T <= 2 ^ 31 - 1 \/ exists c, 0 <= c < T /\ c mod 8 = s /\ cleanStep c = true /\ T - 2 ^ 31 <= c.
Proof.
  intros HT Hs. set (k := (T + 7 - s) / 2 ^ 31).
  assert (k * 2 ^ 31 <= T + 7 - s < (k + 1) * 2 ^ 31) as Hk by (unfold k; Z.div_mod_to_equations; lia).
  destruct (Z.le_gt_cases k 0); [left; nia|]. right. exists (k * 2 ^ 31 - 8 + s).
  split; [nia|]. split; [Z.div_mod_to_equations; lia|]. split; [|lia].
  rewrite cleanStep_spec by nia. apply Z.leb_le. Z.div_mod_to_equations. nia.
Qed.

Lemma stepFlag_inj w r : stepFlag w = stepFlag r -> r - 2 ^ 32 < w <= r -> w = r.
Proof. unfold stepFlag, NCCL_LL_FLAG, wrap32. intros. Z.div_mod_to_equations. lia. Qed.

(** ** Halves *)

Definition halfData (b : bool) (v : Z) : Z := if b then wrap32 (Z.shiftr v 32) else wrap32 v.

Lemma loadHalf_storeLL b b' x v f :
  loadHalf b (storeLL b' x v f) = if eqb b b' then (halfData b v, f) else loadHalf b x.
Proof. by destruct b, b'. Qed.

Lemma halfData_join v : 0 <= v < 2 ^ 64 -> halfData false v + Z.shiftl (halfData true v) 32 = v.
Proof.
  intros Hv. unfold halfData, wrap32. rewrite Z.shiftl_mul_pow2, Z.shiftr_div_pow2 by lia.
  Z.div_mod_to_equations. lia.
Qed.

(** ** The invariant *)

Hypothesis stepLines_pos : 0 < stepLines.
Hypothesis eltPerLine_pos : 0 < eltPerLine.
Hypothesis nelem_fits : forall t, nelem t <= stepLines * eltPerLine.
Hypothesis sendNthreads_pos : forall t, 0 < sendNthreads t.
Hypothesis recvNthreads_pos : forall t, 0 < recvNthreads t.
Hypothesis word_range : forall t l, 0 <= word t l < 2 ^ 64.

(** The receiver may be ahead of the sender, by steps without data only.  There are data
    in one of any [2 ^ 31 - 1] consecutive steps, and it is not that far ahead. *)
Hypothesis not_idle : forall t, 0 <= t -> exists t', t <= t' < t + 2 ^ 31 - 1 /\ 0 < nelem t'.

(** Line [l] has data at step [t]. *)
Definition dataLine (t l : Z) : Prop := 0 <= l /\ l * eltPerLine < opElts t.

(** Line [l] is written at step [t]. *)
Definition written (t l : Z) : Prop := 0 <= l < stepLines /\ (l * eltPerLine < opElts t \/ cleanStep t = true).

(** What step [w] writes to line [l]; step -1 stands for the zeroes of a new buffer. *)
Definition lineWord (w l : Z) : Z :=
  if (0 <=? w) && (l * eltPerLine <? opElts w) then word w l else 0.

Definition cell (s l : Z) : Z := s * stepLines + l.

(** [age k b] is the step whose data are in half [b] of line [k] of the buffer. *)
Record cellsOk (age : Z -> bool -> Z) (st : llConn) : Prop := {
  co_data : forall s l b, 0 <= s < NCCL_STEPS -> 0 <= l < stepLines ->
    loadHalf b (buff st (cell s l)) = (halfData b (lineWord (age (cell s l) b) l), stepFlag (age (cell s l) b));
  co_slot : forall s l b, 0 <= s < NCCL_STEPS -> 0 <= l < stepLines ->
    age (cell s l) b = -1 \/ 0 <= age (cell s l) b < sendConnHead st /\ age (cell s l) b mod NCCL_STEPS = s;
  co_written : forall t l b, 0 <= t < sendStep st -> written t l -> t <= age (cell (t mod NCCL_STEPS) l) b }.

(** A thread that serves the lines from [tid] on, every [n]th, and is at [offset]. *)
Definition atLine (n : Z) (tid : nat) (offset : Z) : Prop := exists k, 0 <= k /\ offset = Z.of_nat tid + k * n.

Record sendThreadOk (age : Z -> bool -> Z) (t : Z) (tid : nat) (th : sendThread) : Prop := {
  so_line : atLine (sendNthreads t) tid (s_offset th);
  so_nelem : s_nelem th = opElts t - s_offset th * eltPerLine \/
             s_nelem th <= 0 /\ opElts t <= s_offset th * eltPerLine;
  so_half : exists b, stored b th = false;
  so_written : forall l b, written t l -> l mod sendNthreads t = Z.of_nat tid ->
    l < s_offset th \/ l = s_offset th /\ stored b th = true -> age (cell (t mod NCCL_STEPS) l) b = t }.

Record senderOk (age : Z -> bool -> Z) (st : llConn) : Prop := {
  sk_step : 0 <= sendStep st;
  sk_credit : sendConnHead st <= sendConnHeadCache st + NCCL_STEPS;
  sk_cache : sendConnHeadCache st <= connHead st;
  sk_threads :
    match sendThreads st with
    | None => sendConnHead st = sendStep st
    | Some ths =>
        sendConnHead st = sendStep st + 1 /\ length ths = Z.to_nat (sendNthreads (sendStep st)) /\
        forall i th, ths !! i = Some th -> sendThreadOk age (sendStep st) i th
    end }.

(** Half [b] of line [l] of the receiver's step, in a register. *)
Definition regOk (st : llConn) (l : Z) (b : bool) (r : option (Z * Z)) : Prop :=
  forall d, r = Some (d, stepFlag (recvStep st)) ->
  d = halfData b (word (recvStep st) l) /\ recvStep st < sendConnHead st.

Record recvThreadOk (st : llConn) (tid : nat) (th : recvThread) : Prop := {
  ro_line : atLine (recvNthreads (recvStep st)) tid (r_offset th);
  ro_nelem : r_nelem th = opElts (recvStep st) - r_offset th * eltPerLine;
  ro_regs : forall b, regOk st (r_offset th) b (reg b th);
  ro_busy : forall b, reg b th <> None -> 0 < r_nelem th;
  ro_read : forall l, dataLine (recvStep st) l -> l mod recvNthreads (recvStep st) = Z.of_nat tid ->
    l < r_offset th -> received st (recvStep st) l = Some (word (recvStep st) l) /\ recvStep st < sendConnHead st }.

Record receiverOk (st : llConn) : Prop := {
  rk_step : 0 <= recvStep st;
  rk_head : connHead st = recvConnHead st;
  rk_post : recvStep st - 1 <= recvConnHead st <= recvStep st;
  rk_ahead : forall t, sendConnHead st <= t < recvStep st -> opElts t = 0;
  rk_length : length (recvThreads st) = Z.to_nat (recvNthreads (recvStep st));
  rk_threads : forall i th, recvThreads st !! i = Some th -> recvThreadOk st i th;
  rk_past : forall t l, 0 <= t < recvStep st -> dataLine t l -> received st t l = Some (word t l);
  rk_only : forall t l v, received st t l = Some v -> 0 <= t <= recvStep st /\ dataLine t l /\ v = word t l }.

Definition llInv (st : llConn) : Prop := exists age, cellsOk age st /\ senderOk age st /\ receiverOk st.

(** *** Facts on lines *)

Lemma opElts_bounds t : 0 <= opElts t <= stepLines * eltPerLine.
Proof. unfold opElts. pose proof (nelem_fits t). zcases; nia. Qed.

Lemma dataLine_written t l : dataLine t l -> written t l.
Proof. intros [H1 H2]. pose proof (opElts_bounds t). split; [split; [done|nia]|by left]. Qed.

Lemma lineWord_range w l : 0 <= lineWord w l < 2 ^ 64.
Proof. unfold lineWord. destruct (_ && _); [apply word_range|lia]. Qed.

Lemma lineWord_data t l : 0 <= t -> dataLine t l -> lineWord t l = word t l.
Proof. intros Ht [_ H]. unfold lineWord. by rewrite (proj2 (Z.leb_le _ _) Ht), (proj2 (Z.ltb_lt _ _) H). Qed.

Lemma cell_inj s l s' l' :
  0 <= l < stepLines -> 0 <= l' < stepLines -> cell s l = cell s' l' -> s = s' /\ l = l'.
Proof. unfold cell. intros. assert (s = s') by nia. subst. lia. Qed.

Lemma slot_range t : 0 <= t mod NCCL_STEPS < NCCL_STEPS.
Proof. by apply Z.mod_pos_bound. Qed.

Lemma atLine_mod n tid offset l :
  0 < n -> Z.of_nat tid < n -> atLine n tid offset -> l mod n = Z.of_nat tid -> l < offset + n ->
  l = offset \/ l < offset.
Proof.
  intros Hn Ht (k & Hk & ->) Hl Hlt. pose proof (Z.div_mod l n). assert (l / n < k + 1) by nia.
  destruct (decide (l / n = k)); [left|right]; nia.
Qed.

Lemma atLine_self n tid offset : 0 < n -> Z.of_nat tid < n -> atLine n tid offset -> offset mod n = Z.of_nat tid.
Proof. intros Hn Ht (k & Hk & ->). rewrite Z.mod_add by lia. apply Z.mod_small. lia. Qed.

Lemma atLine_next n tid offset : atLine n tid offset -> atLine n tid (offset + n).
Proof. intros (k & Hk & ->). exists (k + 1). lia. Qed.

Lemma atLine_first n tid : atLine n tid (Z.of_nat tid).
Proof. exists 0. lia. Qed.

Lemma atLine_nonneg n tid offset : 0 < n -> atLine n tid offset -> 0 <= offset.
Proof. intros Hn (k & Hk & ->). nia. Qed.

(** *** What the receiver may read *)

Lemma receiver_ahead st age : senderOk age st -> receiverOk st -> recvStep st < sendConnHead st + 2 ^ 31 - 1.
Proof.
  intros [H1 _ _ H4] [R1 _ _ R4 _ _ _ _]. destruct (Z.le_gt_cases (recvStep st) (sendConnHead st)); [lia|].
  assert (0 <= sendConnHead st) by (destruct (sendThreads st); lia).
  destruct (not_idle (sendConnHead st)) as (t' & Ht & Hn); [done|].
  destruct (Z.le_gt_cases (recvStep st) t'); [lia|].
  specialize (R4 t'). unfold opElts in R4. zcase1_in R4; lia.
Qed.

Lemma age_recent age st s l b :
  cellsOk age st -> senderOk age st -> 0 <= s < NCCL_STEPS -> 0 <= l < stepLines ->
  sendStep st - 2 ^ 31 <= age (cell s l) b.
Proof.
  intros [_ C2 C3] [S1 _ _ _] Hs Hl.
  destruct (cleanStep_recent (sendStep st) s) as [HT|(c & Hc & <- & Hcl & HT)]; [done|done| |].
  - destruct (C2 s l b Hs Hl); lia.
  - enough (c <= age (cell (c mod 8) l) b) by lia. apply C3; [done|]. split; [done|by right].
Qed.

(** A half with the flag of the receiver's step holds the data of that step. *)
Lemma flag_genuine age st l b :
  cellsOk age st -> senderOk age st -> receiverOk st -> 0 <= l < stepLines ->
  stepFlag (age (cell (recvStep st mod NCCL_STEPS) l) b) = stepFlag (recvStep st) ->
  age (cell (recvStep st mod NCCL_STEPS) l) b = recvStep st.
Proof.
  intros C S R Hl Hf. pose proof (receiver_ahead _ _ S R).
  pose proof (age_recent _ _ _ _ b C S (slot_range (recvStep st)) Hl).
  pose proof (co_slot _ _ C _ _ b (slot_range (recvStep st)) Hl) as Hs.
  set (w := age _ _) in *. destruct S as [S1 S2 S3 S4], R as [R1 R2 R3 _ _ _ _ _].
  assert (sendConnHead st <= sendStep st + 1) by (destruct (sendThreads st); lia).
  unfold NCCL_STEPS in *. apply stepFlag_inj; [done|].
  destruct Hs as [->|[Hw Hm]]; [lia|]. split; [lia|]. Z.div_mod_to_equations. lia.
Qed.

Lemma load_regOk age st l b :
  cellsOk age st -> senderOk age st -> receiverOk st -> dataLine (recvStep st) l ->
  regOk st l b (Some (loadHalf b (buff st (stepPtr (recvStep st) + l)))).
Proof.
  intros C S R Hl d Hd. pose proof (dataLine_written _ _ Hl) as [Hr _].
  change (stepPtr (recvStep st) + l) with (cell (recvStep st mod NCCL_STEPS) l) in Hd.
  rewrite (co_data _ _ C) in Hd by (apply slot_range || done). simplify_eq.
  assert (age (cell (recvStep st mod NCCL_STEPS) l) b = recvStep st) as Ha by by apply flag_genuine.
  rewrite Ha. pose proof (rk_step _ R). rewrite lineWord_data by done. split; [done|].
  destruct (co_slot _ _ C _ _ b (slot_range (recvStep st)) Hr); lia.
Qed.

(** *** The sender keeps the invariant *)

Lemma sendWord_Some t th v :
  sendWord t th = Some v -> 0 <= t -> 0 <= s_offset th ->
  s_nelem th = opElts t - s_offset th * eltPerLine \/ s_nelem th <= 0 /\ opElts t <= s_offset th * eltPerLine ->
  written t (s_offset th) /\ v = lineWord t (s_offset th).
Proof.
  unfold sendWord, lineWord, written. intros Hw Ht Ho Hn. pose proof (opElts_bounds t).
  rewrite (proj2 (Z.leb_le 0 t)) by done. simpl. revert Hw. zcase1; intros Hw.
  - simplify_eq. rewrite (proj2 (Z.ltb_lt _ _)) by lia. split; [|done]. split; [nia|left; lia].
  - rewrite (proj2 (Z.ltb_ge _ _)) by lia. destruct (cleanStep t); [|done]. simpl in Hw.
    zcase1_in Hw; [|done]. simplify_eq. split; [|done]. split; [lia|by right].
Qed.

Lemma sendWord_None t th l :
  sendWord t th = None ->
  s_nelem th = opElts t - s_offset th * eltPerLine \/ s_nelem th <= 0 /\ opElts t <= s_offset th * eltPerLine ->
  written t l -> l < s_offset th.
Proof.
  unfold sendWord, written. intros Hw Hn [Hl Hd]. zcase1_in Hw; [done|].
  destruct Hd as [Hd|Hd]; [nia|]. rewrite Hd in Hw. simpl in Hw. zcase1_in Hw; [done|lia].
Qed.

(** The receiver does not see what the sender does but by the buffer. *)
Lemma receiverOk_mono st st' :
  connHead st' = connHead st -> recvStep st' = recvStep st -> recvConnHead st' = recvConnHead st ->
  recvThreads st' = recvThreads st -> received st' = received st -> sendConnHead st <= sendConnHead st' ->
  receiverOk st -> receiverOk st'.
Proof.
  intros E1 E2 E3 E4 E5 Hle [R1 R2 R3 R4 R5 R6 R7 R8]. split; rewrite ?E1, ?E2, ?E3, ?E4, ?E5; try done.
  - intros t Ht. apply R4. lia.
  - intros i th Hi. destruct (R6 i th Hi) as [T1 T2 T3 T4 T5].
    split; unfold regOk; rewrite ?E2, ?E5; try done.
    + intros b d Hd. destruct (T3 b d Hd). split; [done|lia].
    + intros l Hl Hm Hlt. destruct (T5 l Hl Hm Hlt). split; [done|lia].
Qed.

Ltac frame_receiver st := apply (receiverOk_mono st); simpl; first [done|lia].

Lemma sendPoll_inv st st' : sendPoll st = Some st' -> llInv st -> llInv st'.
Proof.
  unfold sendPoll. intros E (age & [C1 C2 C3] & [S1 S2 S3 S4] & R).
  destruct (sendThreads st) eqn:Et; [done|]. destruct (_ <? _); simplify_eq.
  exists age. split; [by split|]. split; [|frame_receiver st].
  split; simpl; try done. lia.
Qed.

Lemma sendThreadInit_ok age t i :
  (i < Z.to_nat (sendNthreads t))%nat -> sendThreadOk age t i (sendThreadInit t i).
Proof.
  intros Hi. pose proof (sendNthreads_pos t). split; simpl.
  - apply atLine_first.
  - by left.
  - by exists false.
  - intros l b [Hl _] Hm [Hlt|[_ ?]]; [|by destruct b].
    exfalso. pose proof (Z.mod_le l (sendNthreads t)). lia.
Qed.

Lemma sendStart_inv st st' : sendStart st = Some st' -> llInv st -> llInv st'.
Proof.
  unfold sendStart. intros E (age & [C1 C2 C3] & [S1 S2 S3 S4] & R).
  destruct (sendThreads st) eqn:Et; [done|]. destruct (Z.ltb_spec (sendConnHeadCache st + NCCL_STEPS) (sendConnHead st + 1)); simplify_eq.
  exists age. split; [split; simpl; try done|split; [split; simpl; try done|]].
  - intros s l b Hs Hl. destruct (C2 s l b Hs Hl); [by left|right; lia].
  - split; [lia|]. rewrite length_map, length_seq. split; [done|].
    intros i th (j & -> & Hj)%list_lookup_fmap_Some. apply lookup_seq in Hj as [-> Hj]. by apply sendThreadInit_ok.
  - frame_receiver st.
Qed.

Lemma sendNext_inv st st' : sendNext st = Some st' -> llInv st -> llInv st'.
Proof.
  unfold sendNext. intros E (age & [C1 C2 C3] & [S1 S2 S3 S4] & R).
  destruct (sendThreads st) as [ths|] eqn:Et; [|done]. simpl in E. destruct (forallb _ ths) eqn:Hall; simplify_eq.
  destruct S4 as (Hh & Hlen & Hths). pose proof (sendNthreads_pos (sendStep st)) as Hn.
  exists age. split; [split; simpl; try done|split; [split; simpl; lia || done|frame_receiver st]].
  intros t l b Ht Hw. destruct (decide (t = sendStep st)) as [->|]; [|apply C3; [lia|done]].
  pose proof (Z.mod_pos_bound l (sendNthreads (sendStep st)) Hn) as Hm.
  destruct (lookup_lt_is_Some_2 ths (Z.to_nat (l mod sendNthreads (sendStep st)))) as [th Hth]; [lia|].
  destruct (Hths _ _ Hth) as [T1 T2 _ T3]. rewrite T3; [done|done|lia|]. left.
  eapply sendWord_None; [|done|done]. apply (bool_decide_eq_true_1 (sendWord (sendStep st) th = None)).
  rewrite forallb_forall in Hall. apply (Hall th). apply list_elem_of_In. by eapply list_elem_of_lookup_2.
Qed.

(** Stores of the sender *)

Definition setAge (age : Z -> bool -> Z) (k : Z) (b : bool) (t : Z) : Z -> bool -> Z :=
  fun k' b' => if (k' =? k) && eqb b' b then t else age k' b'.

Lemma setAge_cases age k b t k' b' :
  k' = k /\ b' = b /\ setAge age k b t k' b' = t \/ ~ (k' = k /\ b' = b) /\ setAge age k b t k' b' = age k' b'.
Proof.
  unfold setAge. destruct (Z.eqb_spec k' k), b, b'; simpl; first [by left|right; split; [by intros []|done]].
Qed.

Lemma setAge_keeps age k b t k' b' : age k' b' = t -> setAge age k b t k' b' = t.
Proof. destruct (setAge_cases age k b t k' b') as [(_ & _ & ->)|[_ ->]]; done. Qed.

Lemma store_cellsOk age st st' l b :
  cellsOk age st -> 0 <= sendStep st -> written (sendStep st) l -> sendConnHead st = sendStep st + 1 ->
  sendStep st' = sendStep st -> sendConnHead st' = sendConnHead st ->
  buff st' = zset (buff st) (stepPtr (sendStep st) + l)
    (storeLL b (buff st (stepPtr (sendStep st) + l)) (lineWord (sendStep st) l) (stepFlag (sendStep st))) ->
  cellsOk (setAge age (cell (sendStep st mod NCCL_STEPS) l) b (sendStep st)) st'.
Proof.
  intros [C1 C2 C3] Ht [Hl _] Hh E1 E2 E3. change (stepPtr (sendStep st) + l) with (cell (sendStep st mod NCCL_STEPS) l) in E3.
  split; rewrite ?E1, ?E2, ?E3.
  - intros s l' b' Hs Hl'. destruct (decide (cell s l' = cell (sendStep st mod NCCL_STEPS) l)) as [E|E].
    + destruct (cell_inj _ _ _ _ Hl' Hl E) as [-> ->]. rewrite zset_eq, loadHalf_storeLL.
      unfold setAge. rewrite Z.eqb_refl. simpl. destruct (eqb b' b); [done|]. by apply C1.
    + rewrite zset_ne by done. unfold setAge. rewrite (proj2 (Z.eqb_neq _ _) E). by apply C1.
  - intros s l' b' Hs Hl'. destruct (setAge_cases age (cell (sendStep st mod NCCL_STEPS) l) b (sendStep st) (cell s l') b')
      as [(E & _ & ->)|[_ ->]]; [|by apply C2].
    destruct (cell_inj _ _ _ _ Hl' Hl E) as [-> ->]. right. lia.
  - intros t l' b' Ht' Hw. destruct (setAge_cases age (cell (sendStep st mod NCCL_STEPS) l) b (sendStep st)
      (cell (t mod NCCL_STEPS) l') b') as [(_ & _ & ->)|[_ ->]]; [lia|]. by apply C3.
Qed.

Lemma sendAdvance_ok age t i b th :
  (i < Z.to_nat (sendNthreads t))%nat -> sendThreadOk age t i th -> stored b th = false ->
  sendThreadOk (setAge age (cell (t mod NCCL_STEPS) (s_offset th)) b t) t i (sendAdvance t b th).
Proof.
  intros Hi [T1 T2 _ T3] Hb. pose proof (sendNthreads_pos t) as Hn.
  assert (forall l b', written t l -> l mod sendNthreads t = Z.of_nat i ->
    l < s_offset th \/ l = s_offset th /\ (b' = b \/ stored b' th = true) ->
    setAge age (cell (t mod NCCL_STEPS) (s_offset th)) b t (cell (t mod NCCL_STEPS) l) b' = t) as Hset.
  { intros l b' Hw Hm Hc. destruct (decide (l = s_offset th /\ b' = b)) as [[-> ->]|Hne].
    - unfold setAge. by rewrite Z.eqb_refl, eqb_reflx.
    - apply setAge_keeps, T3; [done..|]. naive_solver. }
  unfold sendAdvance. destruct (stored (negb b) th) eqn:Ho; split; simpl.
  - by apply atLine_next.
  - zcases; nia.
  - by exists false.
  - intros l b' Hw Hm [Hlt|[_ ?]]; [|by destruct b']. apply Hset; [done..|].
    destruct (atLine_mod (sendNthreads t) i (s_offset th) l) as [->|?]; [lia|lia|done|done|done| |by left].
    right. split; [done|]. destruct b, b'; simpl in *; auto.
  - done.
  - done.
  - exists (negb b). destruct b; simpl in *; by rewrite orb_false_r.
  - intros l b' Hw Hm Hc. apply Hset; [done..|]. destruct Hc as [?|[-> Hs]]; [by left|right]. split; [done|].
    destruct b, b'; simpl in *; rewrite ?orb_true_r, ?orb_false_r in Hs; auto.
Qed.

Lemma sendStore_inv i b st st' : sendStore i b st = Some st' -> llInv st -> llInv st'.
Proof.
  unfold sendStore. intros E (age & C & [S1 S2 S3 S4] & R).
  destruct (sendThreads st) as [ths|] eqn:Et; [|done]. simpl in E. destruct S4 as (Hh & Hlen & Hths).
  destruct (ths !! i) as [th|] eqn:Hth; [|done]. simpl in E.
  destruct (sendWord (sendStep st) th) as [v|] eqn:Hv; [|done]. simpl in E. destruct (stored b th) eqn:Hb; simplify_eq.
  pose proof (lookup_lt_Some _ _ _ Hth) as Hi. rewrite Hlen in Hi. pose proof (Hths _ _ Hth) as HT.
  destruct (sendWord_Some _ _ _ Hv S1) as [Hw ->]; [eapply atLine_nonneg; [apply sendNthreads_pos|apply HT]|apply HT|].
  exists (setAge age (cell (sendStep st mod NCCL_STEPS) (s_offset th)) b (sendStep st)).
  split; [by apply (store_cellsOk _ st)|]. split; [split; simpl; try done|frame_receiver st].
  split; [done|]. rewrite length_insert. split; [done|]. intros j th' Hj.
  apply list_lookup_insert_Some in Hj as [(<- & <- & _)|[Hne Hj]]; [by apply sendAdvance_ok|].
  destruct (Hths _ _ Hj) as [T1 T2 T2' T3]. split; [done..|]. intros. apply setAge_keeps. by apply T3.
Qed.

(** *** The receiver keeps the invariant *)

Lemma cellsOk_same age st st' :
  buff st' = buff st -> sendStep st' = sendStep st -> sendConnHead st' = sendConnHead st ->
  cellsOk age st -> cellsOk age st'.
Proof. intros E1 E2 E3 [C1 C2 C3]. split; by rewrite ?E1, ?E2, ?E3. Qed.

Lemma senderOk_same age st st' :
  sendStep st' = sendStep st -> sendConnHead st' = sendConnHead st -> sendConnHeadCache st' = sendConnHeadCache st ->
  sendThreads st' = sendThreads st -> connHead st <= connHead st' -> senderOk age st -> senderOk age st'.
Proof. intros E1 E2 E3 E4 Hle [S1 S2 S3 S4]. split; rewrite ?E1, ?E2, ?E3, ?E4; try done. lia. Qed.

Ltac frame_sender st := split; [by apply (cellsOk_same _ st)|split; [apply (senderOk_same _ st); simpl; first [done|lia]|]].

Lemma recvThreadOk_ext st st' i th :
  recvStep st' = recvStep st -> sendConnHead st' = sendConnHead st ->
  (forall l, l mod recvNthreads (recvStep st) = Z.of_nat i -> received st' (recvStep st) l = received st (recvStep st) l) ->
  recvThreadOk st i th -> recvThreadOk st' i th.
Proof.
  intros E1 E2 E3 [T1 T2 T3 T4 T5]. split; unfold regOk; rewrite ?E1, ?E2; try done.
  intros l Hl Hm Hlt. rewrite E3 by done. by apply T5.
Qed.

Lemma recvLoad_inv i b st st' : recvLoad i b st = Some st' -> llInv st -> llInv st'.
Proof.
  unfold recvLoad. intros E (age & C & S & R). destruct (recvThreads st !! i) as [th|] eqn:Hth; [|done].
  simpl in E. destruct (Z.ltb_spec 0 (r_nelem th)) as [Hn|]; [|done]. destruct (reg b th) eqn:Hb; [done|]. simplify_eq.
  exists age. frame_sender st. pose proof (rk_threads _ R _ _ Hth) as HT.
  assert (dataLine (recvStep st) (r_offset th)) as Hd.
  { destruct HT as [T1 T2 _ _ _]. split; [|lia]. eapply atLine_nonneg; [apply recvNthreads_pos|done]. }
  pose proof (load_regOk _ _ _ b C S R Hd) as Hload.
  destruct R as [R1 R2 R3 R4 R5 R6 R7 R8]. split; simpl; try done; [by rewrite length_insert|].
  intros j th' Hj. apply list_lookup_insert_Some in Hj as [(<- & <- & _)|[Hne Hj]].
  - destruct HT as [T1 T2 T3 T4 T5]. split; simpl; try done.
    intros b'. destruct b, b'; simpl; first [apply Hload|apply (T3 true)|apply (T3 false)].
  - apply (recvThreadOk_ext st); [done..|]. by apply R6.
Qed.

(** A word the receiver takes is the one that was sent. *)
Lemma readLLval_genuine st i th r1 r2 v :
  recvThreadOk st i th -> r_reg1 th = Some r1 -> r_reg2 th = Some r2 ->
  readLLval r1 r2 (stepFlag (recvStep st)) = Some v ->
  v = word (recvStep st) (r_offset th) /\ dataLine (recvStep st) (r_offset th) /\ recvStep st < sendConnHead st.
Proof.
  intros [T1 T2 T3 T4 _] H1 H2 Hv. unfold readLLval in Hv. destruct r1 as [d1 f1], r2 as [d2 f2]. simpl in Hv.
  destruct (Z.eqb_spec f1 (stepFlag (recvStep st))) as [->|]; [|done].
  destruct (Z.eqb_spec f2 (stepFlag (recvStep st))) as [->|]; [|done]. simpl in Hv. simplify_eq.
  destruct (T3 false d1 H1) as [-> _]. destruct (T3 true d2 H2) as [-> Hlt].
  assert (0 < r_nelem th) by (apply (T4 false); simpl; by rewrite H1).
  split; [apply halfData_join, word_range|]. split; [split; [|lia]|done].
  eapply atLine_nonneg; [apply recvNthreads_pos|done].
Qed.

Lemma recvTake_inv i th st st' :
  receiverOk st -> recvThreads st !! i = Some th ->
  dataLine (recvStep st) (r_offset th) -> recvStep st < sendConnHead st ->
  connHead st' = connHead st -> recvStep st' = recvStep st -> recvConnHead st' = recvConnHead st ->
  sendConnHead st' = sendConnHead st ->
  recvThreads st' = <[i := {| r_offset := r_offset th + recvNthreads (recvStep st);
                               r_nelem := r_nelem th - recvNthreads (recvStep st) * eltPerLine;
                               r_reg1 := None; r_reg2 := None |}]> (recvThreads st) ->
  received st' = zset (received st) (recvStep st)
    (zset (received st (recvStep st)) (r_offset th) (Some (word (recvStep st) (r_offset th)))) ->
  receiverOk st'.
Proof.
  intros R Hth Hd Hlt E1 E2 E3 E4 E5 E6. pose proof (lookup_lt_Some _ _ _ Hth) as Hi. pose proof (rk_threads _ R _ _ Hth) as HT.
  destruct R as [R1 R2 R3 R4 R5 R6 R7 R8]. rewrite R5 in Hi. pose proof (recvNthreads_pos (recvStep st)) as Hn.
  split; rewrite ?E1, ?E2, ?E3, ?E4, ?E5; try done.
  - by rewrite length_insert.
  - intros j th' Hj. apply list_lookup_insert_Some in Hj as [(<- & <- & _)|[Hne Hj]].
    + destruct HT as [T1 T2 T3 T4 T5]. split; unfold regOk; rewrite ?E2, ?E4; simpl; try (intros []; done); [by apply atLine_next|lia|].
      intros l Hl Hm Hll. rewrite E6, zset_eq. split; [|done].
      destruct (atLine_mod (recvNthreads (recvStep st)) i (r_offset th) l) as [->|?]; [lia|lia|done|done|done|by rewrite zset_eq|].
      rewrite zset_ne by lia. by apply T5.
    + pose proof (lookup_lt_Some _ _ _ Hj). apply (recvThreadOk_ext st); [done|done| |by apply R6].
      intros l Hm. rewrite E6, zset_eq. apply zset_ne. intros ->.
      rewrite (atLine_self _ i) in Hm; [lia|lia|lia|apply HT].
  - intros t l Ht Hl. rewrite E6, zset_ne by lia. by apply R7.
  - intros t l v. rewrite E6. destruct (decide (t = recvStep st)) as [->|]; [|rewrite zset_ne by done; apply R8].
    rewrite zset_eq. destruct (decide (l = r_offset th)) as [->|]; [|rewrite zset_ne by done; apply R8].
    rewrite zset_eq. intros. simplify_eq. split; [lia|done].
Qed.

Lemma recvCheck_inv i st st' : recvCheck i st = Some st' -> llInv st -> llInv st'.
Proof.
  unfold recvCheck. intros E (age & C & S & R). destruct (recvThreads st !! i) as [th|] eqn:Hth; [|done].
  simpl in E. destruct (r_reg1 th) as [r1|] eqn:H1; [|done]. simpl in E. destruct (r_reg2 th) as [r2|] eqn:H2; [|done].
  simpl in E. pose proof (rk_threads _ R _ _ Hth) as HT.
  destruct (readLLval r1 r2 (stepFlag (recvStep st))) as [v|] eqn:Hv; simplify_eq; exists age; frame_sender st.
  - destruct (readLLval_genuine _ _ _ _ _ _ HT H1 H2 Hv) as (-> & Hd & Hlt). by apply (recvTake_inv i th st).
  - destruct R as [R1 R2 R3 R4 R5 R6 R7 R8]. split; simpl; try done; [by rewrite length_insert|].
    intros j th' Hj. apply list_lookup_insert_Some in Hj as [(<- & <- & _)|[Hne Hj]].
    + destruct HT as [T1 T2 T3 T4 T5]. split; simpl; try done; by intros [].
    + apply (recvThreadOk_ext st); [done..|]. by apply R6.
Qed.

Lemma recvInit_ok st i th : recvInit (recvStep st) !! i = Some th -> recvThreadOk st i th.
Proof.
  intros (j & -> & Hj)%list_lookup_fmap_Some. apply lookup_seq in Hj as [-> Hj]. pose proof (recvNthreads_pos (recvStep st)).
  split; simpl; try done; try (by intros []); [apply atLine_first|].
  intros l [Hl _] Hm Hlt. exfalso. pose proof (Z.mod_le l (recvNthreads (recvStep st))). lia.
Qed.

(** When the threads of the receiver are through, they have read all lines. *)
Lemma recvAll st l :
  receiverOk st -> forallb (fun th => r_nelem th <=? 0) (recvThreads st) = true -> dataLine (recvStep st) l ->
  received st (recvStep st) l = Some (word (recvStep st) l) /\ recvStep st < sendConnHead st.
Proof.
  intros [_ _ _ _ R5 R6 _ _] Hall Hd. pose proof (recvNthreads_pos (recvStep st)) as Hn.
  pose proof (Z.mod_pos_bound l (recvNthreads (recvStep st)) Hn) as Hm.
  destruct (lookup_lt_is_Some_2 (recvThreads st) (Z.to_nat (l mod recvNthreads (recvStep st)))) as [th Hth]; [lia|].
  destruct (R6 _ _ Hth) as [T1 T2 T3 T4 T5]. apply T5; [done|lia|].
  rewrite forallb_forall in Hall. destruct Hd as [_ Hd].
  assert (r_nelem th <= 0); [|nia]. apply Z.leb_le, Hall, list_elem_of_In. by eapply list_elem_of_lookup_2.
Qed.

Lemma recvBarrier_inv st st' : recvBarrier st = Some st' -> llInv st -> llInv st'.
Proof.
  unfold recvBarrier. intros E (age & C & S & R). destruct (forallb _ _) eqn:Hall; [|done]. simpl in E.
  destruct (Z.eqb_spec (recvConnHead st) (recvStep st)) as [Hh|]; simplify_eq. exists age. frame_sender st.
  pose proof (fun l => recvAll st l R Hall) as Hrd. destruct R as [R1 R2 R3 R4 R5 R6 R7 R8]. split; simpl; try done; try lia.
  - intros t Ht. destruct (decide (t = recvStep st)) as [->|]; [|apply R4; lia].
    pose proof (opElts_bounds (recvStep st)). destruct (Z.le_gt_cases (opElts (recvStep st)) 0); [lia|].
    destruct (Hrd 0); [split; lia|lia].
  - unfold recvInit. by rewrite length_map, length_seq.
  - intros i th Hi. by apply recvInit_ok.
  - intros t l Ht Hl. destruct (decide (t = recvStep st)) as [->|]; [by apply Hrd|]. apply R7; [lia|done].
  - intros t l v Hv. destruct (R8 t l v Hv). split; [lia|done].
Qed.

Lemma recvPost_inv st st' : recvPost st = Some st' -> llInv st -> llInv st'.
Proof.
  unfold recvPost. intros E (age & C & S & R). destruct (Z.ltb_spec (recvConnHead st) (recvStep st)); simplify_eq.
  pose proof (rk_head _ R). exists age. frame_sender st.
  destruct R as [R1 R2 R3 R4 R5 R6 R7 R8]. split; simpl; try done; [lia|].
  intros i th Hi. apply (recvThreadOk_ext st); [done..|]. by apply R6.
Qed.

Lemma llInit_inv : llInv llInit.
Proof.
  exists (fun _ _ => -1). split; [split|split; split]; simpl; try done.
  - by intros s l [] _ _.
  - by left.
  - intros. lia.
  - intros. lia.
  - unfold recvInit. by rewrite length_map, length_seq.
  - intros i th Hi. by apply recvInit_ok.
  - intros. lia.
Qed.

Create HintDb ll.
#[local] Hint Resolve sendPoll_inv sendStart_inv sendStore_inv sendNext_inv : ll.
#[local] Hint Resolve recvLoad_inv recvCheck_inv recvBarrier_inv recvPost_inv : ll.

Lemma llRun_inv st st' : rtc llRun st st' -> llInv st -> llInv st'.
Proof. induction 1 as [|? ? ? [a Ha] _ IH]; [done|]. intros HI. apply IH. destruct a; simpl in Ha; eauto with ll. Qed.

(** ** Progress *)

Lemma sum_insert_lt {A} (f : A -> nat) (l : list A) i x y :
  l !! i = Some x -> (f y < f x)%nat -> (sum_list_with f (<[i := y]> l) < sum_list_with f l)%nat.
Proof. intros Hi Hlt. pose proof (sum_list_with_insert f l i x y Hi). lia. Qed.

Lemma forallb_false_lookup {A} (f : A -> bool) l : forallb f l = false -> exists i x, l !! i = Some x /\ f x = false.
Proof.
  induction l as [|x l IH]; [done|]. simpl. destruct (f x) eqn:Hx; simpl.
  - intros (i & y & Hi & Hy)%IH. by exists (S i), y.
  - by exists 0%nat, x.
Qed.

(** The halves a thread of the sender has to store at most. *)
Definition sendLeft (th : sendThread) : nat :=
  Z.to_nat (2 * (stepLines - s_offset th) - Z.b2z (s_half1 th) - Z.b2z (s_half2 th)).

Lemma sendAdvance_left t b th :
  stored b th = false -> s_offset th < stepLines -> (sendLeft (sendAdvance t b th) < sendLeft th)%nat.
Proof.
  intros Hb Hlt. pose proof (sendNthreads_pos t). unfold sendLeft, sendAdvance.
  destruct th as [o n [] []], b; simpl in *; try done; lia.
Qed.

Lemma sendStore_next i b st ths th v :
  sendThreads st = Some ths -> ths !! i = Some th -> sendWord (sendStep st) th = Some v -> stored b th = false ->
  exists st', sendStore i b st = Some st' /\ sendThreads st' = Some (<[i := sendAdvance (sendStep st) b th]> ths) /\
    sendStep st' = sendStep st /\ recvStep st' = recvStep st.
Proof.
  intros E1 E2 E3 E4. unfold sendStore. rewrite E1. simpl. rewrite E2. simpl. rewrite E3. simpl. rewrite E4. by eexists.
Qed.

(** The threads of the sender finish the step. *)
Lemma send_finishes m : forall st ths, llInv st -> sendThreads st = Some ths -> (sum_list_with sendLeft ths < m)%nat ->
  exists st', rtc llRun st st' /\ sendStep st' = sendStep st + 1 /\ recvStep st' = recvStep st.
Proof.
  induction m as [|m IH]; [lia|]. intros st ths HI Et Hm.
  destruct (forallb (fun th => bool_decide (sendWord (sendStep st) th = None)) ths) eqn:Hall.
  - eexists. split; [apply rtc_once; exists SendNext; simpl; unfold sendNext; rewrite Et; simpl; by rewrite Hall|done].
  - apply forallb_false_lookup in Hall as (i & th & Hi & Hw). apply bool_decide_eq_false in Hw.
    destruct (sendWord (sendStep st) th) as [v|] eqn:Hv; [|done]. pose proof HI as (age & _ & [S1 _ _ S4] & _).
    rewrite Et in S4. destruct S4 as (_ & _ & Hths). destruct (Hths _ _ Hi) as [T1 T2 [b Hb] _].
    destruct (sendWord_Some _ _ _ Hv S1) as [[Hl _] _]; [eapply atLine_nonneg; [apply sendNthreads_pos|done]|done|].
    destruct (sendStore_next i b st ths th v) as (st1 & E1 & Et1 & Es & Er); [done..|].
    edestruct (IH st1) as (st' & Hst & H2 & H3); [by eapply sendStore_inv|done| |].
    { eapply Nat.lt_le_trans; [eapply sum_insert_lt; [done|apply sendAdvance_left; [done|lia]]|lia]. }
    exists st'. split; [eapply rtc_l; [by exists (SendStore i b)|done]|]. split; congruence.
Qed.

Lemma send_start_finishes st :
  llInv st -> sendThreads st = None -> sendConnHead st + 1 <= sendConnHeadCache st + NCCL_STEPS ->
  exists st', rtc llRun st st' /\ sendStep st' = sendStep st + 1 /\ recvStep st' = recvStep st.
Proof.
  intros HI Et Hc. assert (exists st1, sendStart st = Some st1 /\ sendThreads st1 <> None /\
    sendStep st1 = sendStep st /\ recvStep st1 = recvStep st) as (st1 & E1 & Et1 & <- & <-).
  { unfold sendStart. rewrite Et, (proj2 (Z.ltb_ge _ _)) by lia. by eexists. }
  destruct (sendThreads st1) as [ths|] eqn:Es; [|done].
  destruct (send_finishes (S (sum_list_with sendLeft ths)) st1 ths) as (st' & Hst & H1 & H2);
    [by eapply sendStart_inv|done|lia|].
  exists st'. split; [eapply rtc_l; [by exists SendStart|done]|done].
Qed.

(** The sender makes a step when the receiver is not behind. *)
Lemma send_step st :
  llInv st -> sendStep st <= recvStep st ->
  exists st', rtc llRun st st' /\ sendStep st' = sendStep st + 1 /\ recvStep st' = recvStep st.
Proof.
  intros HI Hle. destruct (sendThreads st) as [ths|] eqn:Et.
  { apply (send_finishes (S (sum_list_with sendLeft ths)) st ths); [done|done|lia]. }
  destruct (Z.ltb_spec (sendConnHeadCache st + NCCL_STEPS) (sendConnHead st + 1)) as [Hc|];
    [|by apply send_start_finishes; first [done|lia]].
  assert (exists st1, sendPoll st = Some st1 /\ sendThreads st1 = None /\ sendConnHead st1 = sendConnHead st /\
    sendConnHeadCache st1 = connHead st /\ sendStep st1 = sendStep st /\ recvStep st1 = recvStep st)
    as (st1 & E1 & Et1 & Eh & Ec & Es & Er).
  { unfold sendPoll. rewrite Et, (proj2 (Z.ltb_lt _ _) Hc). by eexists. }
  pose proof HI as (age & _ & [_ _ _ S4] & [_ R2 R3 _ _ _ _ _]). rewrite Et in S4.
  destruct (send_start_finishes st1) as (st' & Hst & H1 & H2);
    [by eapply sendPoll_inv|done|unfold NCCL_STEPS in *; lia|].
  exists st'. split; [eapply rtc_l; [by exists SendPoll|done]|]. split; congruence.
Qed.

(** The data of a step the sender has left are in the buffer until the receiver leaves
    it. *)
Lemma flag_there age st l b :
  cellsOk age st -> senderOk age st -> receiverOk st -> recvStep st < sendStep st -> dataLine (recvStep st) l ->
  snd (loadHalf b (buff st (stepPtr (recvStep st) + l))) = stepFlag (recvStep st).
Proof.
  intros C S R Hlt Hd. pose proof (dataLine_written _ _ Hd) as Hw. pose proof (rk_step _ R) as Hr.
  change (stepPtr (recvStep st) + l) with (cell (recvStep st mod NCCL_STEPS) l).
  rewrite (co_data _ _ C) by (apply slot_range || apply Hw). simpl. f_equal.
  pose proof (co_written _ _ C (recvStep st) l b ltac:(lia) Hw) as Hge.
  destruct (co_slot _ _ C _ l b (slot_range (recvStep st)) (proj1 Hw)) as [?|[Hs Hm]]; [lia|].
  destruct S as [_ S2 S3 _], R as [_ R2 R3 _ _ _ _ _]. unfold NCCL_STEPS in *. Z.div_mod_to_equations. lia.
Qed.

(** Steps that change thread [i] of the receiver and nothing the sender or the other
    threads see. *)
Definition recvMoves (i : nat) (th' : recvThread) (st st' : llConn) : Prop :=
  rtc llRun st st' /\ buff st' = buff st /\ sendStep st' = sendStep st /\ recvStep st' = recvStep st /\
  recvThreads st' = <[i := th']> (recvThreads st).

Lemma recvMoves_trans i th1 th2 st st1 st2 : recvMoves i th1 st st1 -> recvMoves i th2 st1 st2 -> recvMoves i th2 st st2.
Proof.
  intros (A1 & A2 & A3 & A4 & A5) (B1 & B2 & B3 & B4 & B5). split_and!; [by etrans|congruence..|].
  by rewrite B5, A5, list_insert_insert_eq.
Qed.

Lemma recvMoves_lookup i th th' st st' :
  recvThreads st !! i = Some th -> recvMoves i th' st st' -> recvThreads st' !! i = Some th'.
Proof. intros Hi (_ & _ & _ & _ & ->). apply list_lookup_insert_eq. by eapply lookup_lt_Some. Qed.

(** A thread with data to read loads the registers it has not loaded. *)
Lemma recv_load i b st th :
  recvThreads st !! i = Some th -> 0 < r_nelem th -> reg b th = None ->
  let v := loadHalf b (buff st (stepPtr (recvStep st) + r_offset th)) in
  exists st', recvMoves i {| r_offset := r_offset th; r_nelem := r_nelem th;
    r_reg1 := if b then r_reg1 th else Some v; r_reg2 := if b then Some v else r_reg2 th |} st st'.
Proof.
  intros Hi Hn Hb v. assert (exists st', recvLoad i b st = Some st') as [st' E].
  { unfold recvLoad. rewrite Hi. simpl. rewrite (proj2 (Z.ltb_lt _ _) Hn), Hb. by eexists. }
  exists st'. split; [apply rtc_once; by exists (RecvLoad i b)|]. unfold recvLoad in E. rewrite Hi in E. simpl in E.
  rewrite (proj2 (Z.ltb_lt _ _) Hn), Hb in E. by injection E as <-.
Qed.

Lemma recv_load_all i st th :
  recvThreads st !! i = Some th -> 0 < r_nelem th ->
  exists th' st', recvMoves i th' st st' /\ r_offset th' = r_offset th /\ r_nelem th' = r_nelem th /\
    forall b, exists v, reg b th' = Some v /\
      (reg b th = None -> v = loadHalf b (buff st (stepPtr (recvStep st) + r_offset th))).
Proof.
  intros Hi Hn.
  assert (forall b st th, recvThreads st !! i = Some th -> 0 < r_nelem th -> exists th' st', recvMoves i th' st st' /\
    r_offset th' = r_offset th /\ r_nelem th' = r_nelem th /\ reg (negb b) th' = reg (negb b) th /\
    exists v, reg b th' = Some v /\ (reg b th = None -> v = loadHalf b (buff st (stepPtr (recvStep st) + r_offset th)))) as Hone.
  { clear. intros b st th Hi Hn. destruct (reg b th) as [v|] eqn:Hb.
    - exists th, st. split; [|naive_solver]. split; [done|]. by rewrite list_insert_id.
    - destruct (recv_load i b st th) as [st' Hm]; [done..|]. eexists _, st'. split; [exact Hm|].
      split_and!; [done|done|by destruct b|]. eexists. split; [|done]. by destruct b. }
  destruct (Hone false st th) as (th1 & st1 & M1 & O1 & N1 & K1 & v1 & V1 & F1); [done..|].
  destruct (Hone true st1 th1) as (th2 & st2 & M2 & O2 & N2 & K2 & v2 & V2 & F2); [by eapply recvMoves_lookup|lia|].
  exists th2, st2. split; [by eapply recvMoves_trans|]. split_and!; [congruence|congruence|].
  destruct M1 as (_ & B1 & _ & B2 & _). intros [].
  - exists v2. split; [done|]. intros H. rewrite F2; [by rewrite B1, B2, O1|]. by rewrite <- H.
  - exists v1. split; [|done]. by rewrite <- V1.
Qed.

(** The test of the flags moves the thread to its next line or clears its registers. *)
Lemma recv_check i st th v1 v2 :
  recvThreads st !! i = Some th -> reg false th = Some v1 -> reg true th = Some v2 ->
  exists th' st', recvMoves i th' st st' /\
    if (snd v1 =? stepFlag (recvStep st)) && (snd v2 =? stepFlag (recvStep st)) then r_nelem th' < r_nelem th
    else r_offset th' = r_offset th /\ r_nelem th' = r_nelem th /\ forall b, reg b th' = None.
Proof.
  intros Hi H1 H2. simpl in H1, H2. pose proof (recvNthreads_pos (recvStep st)).
  assert (exists st', recvCheck i st = Some st') as [st' E].
  { unfold recvCheck. rewrite Hi. simpl. rewrite H1. simpl. rewrite H2. simpl. destruct (readLLval _ _ _); by eexists. }
  assert (llRun st st') as Hr by by exists (RecvCheck i).
  unfold recvCheck in E. rewrite Hi in E. simpl in E. rewrite H1 in E. simpl in E. rewrite H2 in E. simpl in E.
  unfold readLLval in E. destruct (_ && _); injection E as <-; eexists _, _; split;
    [split; [by apply rtc_once|done]|simpl; nia|split; [by apply rtc_once|done]|by split_and!; [..|intros []]].
Qed.

(** A thread with data to read gets to its next line. *)
Lemma recv_line i st th :
  llInv st -> recvStep st < sendStep st -> recvThreads st !! i = Some th -> 0 < r_nelem th ->
  exists th' st', recvMoves i th' st st' /\ r_nelem th' < r_nelem th.
Proof.
  intros HI Hlt Hi Hn.
  assert (forall b, snd (loadHalf b (buff st (stepPtr (recvStep st) + r_offset th))) = stepFlag (recvStep st)) as Hf.
  { destruct HI as (age & C & S & R). destruct (rk_threads _ R _ _ Hi) as [T1 T2 _ _ _]. intros b.
    apply (flag_there age); [done..|]. split; [eapply atLine_nonneg; [apply recvNthreads_pos|done]|lia]. }
  destruct (recv_load_all i st th) as (th1 & st1 & M1 & O1 & N1 & G1); [done..|].
  destruct (G1 false) as (v1 & V1 & _), (G1 true) as (v2 & V2 & _).
  destruct (recv_check i st1 th1 v1 v2) as (th2 & st2 & M2 & G2); [by eapply recvMoves_lookup|done..|].
  pose proof (recvMoves_trans _ _ _ _ _ _ M1 M2) as M12. destruct (_ && _); [exists th2, st2; split; [done|lia]|].
  destruct G2 as (O2 & N2 & G2). pose proof (recvMoves_lookup _ _ _ _ _ Hi M12) as Hi2.
  destruct (recv_load_all i st2 th2) as (th3 & st3 & M3 & O3 & N3 & G3); [done|lia|].
  destruct (G3 false) as (v3 & V3 & F3), (G3 true) as (v4 & V4 & F4).
  destruct (recv_check i st3 th3 v3 v4) as (th4 & st4 & M4 & G4); [by eapply recvMoves_lookup|done..|].
  pose proof (recvMoves_trans _ _ _ _ _ _ M12 M3) as M13. exists th4, st4. split; [by eapply recvMoves_trans|].
  pose proof M12 as (_ & B & _ & Er & _). pose proof M13 as (_ & _ & _ & Er' & _).
  rewrite Er', F3, F4, B, Er, O2, O1, !Hf, Z.eqb_refl in G4 by apply G2. simpl in G4. lia.
Qed.

(** The threads of the receiver finish the step. *)
Lemma recv_finishes m : forall st, llInv st -> recvStep st < sendStep st ->
  (sum_list_with (fun th => Z.to_nat (r_nelem th)) (recvThreads st) < m)%nat ->
  exists st', rtc llRun st st' /\ recvStep st' = recvStep st /\
    forallb (fun th => r_nelem th <=? 0) (recvThreads st') = true.
Proof.
  induction m as [|m IH]; [lia|]. intros st HI Hlt Hm.
  destruct (forallb (fun th => r_nelem th <=? 0) (recvThreads st)) eqn:Hall; [by exists st|].
  apply forallb_false_lookup in Hall as (i & th & Hi & Hn%Z.leb_gt).
  destruct (recv_line i st th) as (th' & st1 & M & Hless); [done..|lia|]. destruct M as (Hr & _ & Es & Er & Et).
  destruct (IH st1) as (st' & Hst & E & Hall); [by eapply llRun_inv|lia| |].
  - rewrite Et. eapply Nat.lt_le_trans; [eapply sum_insert_lt; [done|simpl; lia]|lia].
  - exists st'. split; [by etrans|]. split; [congruence|done].
Qed.

(** The receiver makes a step when the sender is ahead. *)
Lemma recv_step st :
  llInv st -> recvStep st < sendStep st -> exists st', rtc llRun st st' /\ recvStep st' = recvStep st + 1.
Proof.
  intros HI Hlt. edestruct (recv_finishes (S (sum_list_with (fun th => Z.to_nat (r_nelem th)) (recvThreads st))) st)
    as (st1 & Hst & <- & Hall); [done|done|lia|].
  pose proof (llRun_inv _ _ Hst HI) as (age & _ & _ & [_ _ R3 _ _ _ _ _]).
  assert (exists st2, rtc llRun st1 st2 /\ recvStep st2 = recvStep st1 /\ recvThreads st2 = recvThreads st1 /\
    recvConnHead st2 = recvStep st1) as (st2 & H2 & E1 & E2 & E3).
  { destruct (Z.lt_ge_cases (recvConnHead st1) (recvStep st1)); [|exists st1; split_and!; lia || done].
    eexists. split; [apply rtc_once; exists RecvPost; simpl; unfold recvPost; by rewrite (proj2 (Z.ltb_lt _ _)) by done|].
    simpl. split_and!; lia || done. }
  eexists. split; [etrans; [exact Hst|]; etrans; [exact H2|]; apply rtc_once; exists RecvBarrier; simpl;
    unfold recvBarrier; by rewrite E2, Hall, E1, E3, Z.eqb_refl|]. done.
Qed.

(** From everywhere the receiver can get to any step. *)
Lemma llRun_progress st N : llInv st -> exists st', rtc llRun st st' /\ N <= recvStep st'.
Proof.
  assert (forall m st, llInv st -> (Z.to_nat (recvStep st + 1 - sendStep st) <= m)%nat ->
    exists st', rtc llRun st st' /\ recvStep st' = recvStep st + 1) as Hone.
  { induction m as [|m IH]; intros st' HI Hm; [apply recv_step; [done|lia]|].
    destruct (Z.lt_ge_cases (recvStep st') (sendStep st')); [by apply recv_step|].
    destruct (send_step st') as (st1 & H1 & E1 & E2); [done|lia|].
    destruct (IH st1) as (st2 & H2 & E3); [by eapply llRun_inv|lia|]. exists st2. split; [by etrans|congruence]. }
  intros HI. remember (Z.to_nat (N - recvStep st)) as m eqn:Hm. revert st HI Hm. induction m as [|m IH]; intros st HI Hm.
  - exists st. split; [done|lia].
  - destruct (Hone _ st HI (le_n _)) as (st1 & H1 & E1).
    destruct (IH st1) as (st2 & H2 & E2); [by eapply llRun_inv|lia|]. exists st2. split; [by etrans|done].
Qed.

End Connection.

(** ** The data *)

Section Delivery.

(** The calls on the connection, by step: elements of [sizeofT] bytes at [src t] of the
    memory [smem t]; [undef t l] is what the registers of [DataLoader] hold before. *)
Context (sizeofT stepLines : Z) (nelem : Z -> Z) (smem : Z -> bytes) (src : Z -> Z) (undef : Z -> Z -> bytes).
Context (sendNthreads recvNthreads : Z -> Z).

(* src/src/device/prims_ll.h:261-261 LLGenericOp *)
Definition eltInLine (t l : Z) : Z :=
  let left := opElts nelem t - l * EltPerLine sizeofT in
  if EltPerLine sizeofT <? left then EltPerLine sizeofT else left.

(** The word of a line of a send: the elements of the user buffer from there on.  The
    pre-operation of a reduction, which a send from the output does not have, is left
    out. *)
(* src/src/device/prims_ll.h:266-277 LLGenericOp *)
Definition lineData (t l : Z) : Z :=
  loadData sizeofT (smem t) (src t + l * EltPerLine sizeofT * sizeofT) (eltInLine t l) (undef t l).

(** What [recv] does with the words of the lines, in the order [lines]. *)
(* src/src/device/prims_ll.h:298-301 LLGenericOp *)
Definition storeLines (t : Z) (words : Z -> option Z) (dst : Z) (lines : list Z) (m : bytes) : bytes :=
  fold_left (fun m l =>
      match words l with
      | Some v => storeData sizeofT m (dst + l * EltPerLine sizeofT * sizeofT) v (eltInLine t l)
      | None => m
      end) lines m.

(** The runs of the connection *)
Definition llRuns : llConn -> llConn -> Prop :=
  rtc (llRun stepLines (EltPerLine sizeofT) nelem lineData sendNthreads recvNthreads).

Definition llStart : llConn := llInit (EltPerLine sizeofT) nelem recvNthreads.

(** What is assumed of the calls: a type of the code, data that fit a step, bytes in
    memory, at least one thread, and no idle run of [2 ^ 31 - 1] steps. *)
Record llCalls : Prop := {
  lc_size : sizeofT = 1 \/ sizeofT = 2 \/ sizeofT = 4 \/ sizeofT = 8;
  lc_lines : 0 < stepLines;
  lc_fits : forall t, nelem t <= stepLines * EltPerLine sizeofT;
  lc_mem : forall t, isBytes (smem t);
  lc_undef : forall t l, isBytes (undef t l);
  lc_send : forall t, 0 < sendNthreads t;
  lc_recv : forall t, 0 < recvNthreads t;
  lc_idle : forall t, 0 <= t -> exists t', t <= t' < t + 2 ^ 31 - 1 /\ 0 < nelem t' }.

Hypothesis calls : llCalls.

Lemma EltPerLine_bytes : EltPerLine sizeofT * sizeofT = 8 /\ 0 < EltPerLine sizeofT /\ 0 < sizeofT.
Proof. destruct calls as [[-> | [-> | [-> | ->]]] _ _ _ _ _ _ _]; done. Qed.

Lemma llRuns_inv st :
  llRuns llStart st -> llInv stepLines (EltPerLine sizeofT) nelem lineData sendNthreads recvNthreads st.
Proof.
  pose proof EltPerLine_bytes as (_ & ? & _). destruct calls as [? ? ? ? ? ? ? ?].
  assert (forall t l, 0 <= lineData t l < 2 ^ 64) by (intros; by apply loadData_range).
  intros Hr. by eapply llRun_inv, llInit_inv.
Qed.

Lemma eltInLine_range t l : dataLine (EltPerLine sizeofT) nelem t l -> 1 <= eltInLine t l <= EltPerLine sizeofT.
Proof. intros [_ H]. unfold eltInLine. pose proof EltPerLine_bytes as (_ & ? & _). zcases; lia. Qed.

(** One line of the destination *)
Lemma storeLine_byte t l dst m x :
  dataLine (EltPerLine sizeofT) nelem t l ->
  storeData sizeofT m (dst + l * EltPerLine sizeofT * sizeofT) (lineData t l) (eltInLine t l) x =
  if decide (dst <= x < dst + opElts nelem t * sizeofT /\ (x - dst) / 8 = l) then smem t (src t + (x - dst)) else m x.
Proof.
  intros Hl. pose proof EltPerLine_bytes as (H8 & HE & Hs). pose proof (eltInLine_range t l Hl) as Hn.
  rewrite storeData_spec by done. rewrite <- Z.mul_assoc, H8.
  assert (dst <= x < dst + opElts nelem t * sizeofT /\ (x - dst) / 8 = l <->
    dst + l * 8 <= x < dst + l * 8 + eltInLine t l * sizeofT) as Hiff.
  { destruct Hl as [Hl0 Hl]. unfold eltInLine in *. zcase1.
    - rewrite H8. assert (8 * l + 8 < opElts nelem t * sizeofT) by nia. split; [intros [? <-]|intros];
        Z.div_mod_to_equations; lia.
    - assert ((opElts nelem t - l * EltPerLine sizeofT) * sizeofT = opElts nelem t * sizeofT - 8 * l) as -> by nia.
      assert (opElts nelem t * sizeofT <= 8 * l + 8) by nia. split; [intros [? <-]|intros]; Z.div_mod_to_equations; lia. }
  destruct (decide _) as [Hin|Hout]; rewrite Hiff in *.
  - rewrite (proj2 (Z.leb_le _ _)), (proj2 (Z.ltb_lt _ _)) by lia. simpl. unfold lineData.
    destruct calls as [? _ _ ? ? _ _ _]. rewrite loadData_bytes by (done || lia). f_equal. rewrite <- Z.mul_assoc, H8. lia.
  - destruct (Z.leb_spec (dst + l * 8) x); [|done]. destruct (Z.ltb_spec x (dst + l * 8 + eltInLine t l * sizeofT)); [|done].
    simpl. lia.
Qed.

Lemma storeLines_bytes t words dst lines m x :
  (forall l, l ∈ lines -> dataLine (EltPerLine sizeofT) nelem t l /\ words l = Some (lineData t l)) ->
  storeLines t words dst lines m x =
  if decide (dst <= x < dst + opElts nelem t * sizeofT /\ (x - dst) / 8 ∈ lines) then smem t (src t + (x - dst)) else m x.
Proof.
  revert m. induction lines as [|l lines IH]; intros m Hw; [by rewrite decide_False by (intros [_ []%elem_of_nil])|].
  change (storeLines t words dst (l :: lines) m) with (storeLines t words dst lines
    match words l with
    | Some v => storeData sizeofT m (dst + l * EltPerLine sizeofT * sizeofT) v (eltInLine t l)
    | None => m
    end).
  rewrite IH by (intros; apply Hw; by right). destruct (Hw l) as [Hl ->]; [by left|]. rewrite storeLine_byte by done.
  repeat case_decide; rewrite elem_of_cons in *; first [done|tauto].
Qed.

Lemma byte_line t dst x :
  dst <= x < dst + opElts nelem t * sizeofT -> dataLine (EltPerLine sizeofT) nelem t ((x - dst) / 8).
Proof.
  intros Hx. pose proof EltPerLine_bytes as (H8 & HE & Hs). split; [apply Z.div_pos; lia|].
  apply (Z.mul_lt_mono_pos_r sizeofT); [done|]. rewrite <- Z.mul_assoc, H8. Z.div_mod_to_equations. lia.
Qed.

(** C6: on an LL connection the receiver gets exactly the data sent.  However the threads
    of the two blocks interleave, with lines stored and loaded half by half, and however
    many steps are made, so that the 32-bit flags come round any number of times: a word
    the receiver takes is the one of its step and line, and the stores of a receive, in
    any order, put the elements of the matching send to the destination and change
    nothing else. *)
Theorem ll_delivers st :
  llRuns llStart st ->
  (forall t l v, received st t l = Some v -> dataLine (EltPerLine sizeofT) nelem t l /\ v = lineData t l) /\
  (forall t dst lines m x, 0 <= t < recvStep st -> (forall l, l ∈ lines <-> dataLine (EltPerLine sizeofT) nelem t l) ->
    storeLines t (received st t) dst lines m x =
    if decide (dst <= x < dst + opElts nelem t * sizeofT) then smem t (src t + (x - dst)) else m x).
Proof.
  intros (age & _ & _ & R)%llRuns_inv. split; [apply R|]. intros t dst lines m x Ht Hlines. rewrite storeLines_bytes.
  - pose proof (byte_line t dst x) as Hb. rewrite <- Hlines in Hb. repeat case_decide; first [done|tauto].
  - intros l Hl%Hlines. split; [done|]. by apply (rk_past _ _ _ _ _ R).
Qed.

(** C7: the blocks of an LL connection never wait for each other for ever: from every
    state they can get into, the receiver can get to any step. *)
Theorem ll_progress st n : llRuns llStart st -> exists st', llRuns st st' /\ n <= recvStep st'.
Proof.
  intros HI%llRuns_inv. pose proof EltPerLine_bytes as (_ & ? & _). destruct calls as [? ? ? ? ? ? ? ?].
  assert (forall t l, 0 <= lineData t l < 2 ^ 64) by (intros; by apply loadData_range).
  by eapply llRun_progress.
Qed.

End Delivery.

(** ** Witnesses *)

(** Five elements of two bytes in each step, at an odd address; two threads send and one
    receives. *)
Section Example.

Definition exMem (t : Z) : bytes := fun x => (7 * x + t) mod 2 ^ 8.
Definition exUndef (t l : Z) : bytes := fun _ => 170.

Lemma exCalls : llCalls 2 4 (fun _ => 5) exMem exUndef (fun _ => 2) (fun _ => 1).
Proof.
  split; try done; [auto|intros t x; by apply Z.mod_pos_bound|intros t _; exists t; lia].
Qed.

Local Abbreviation exStep := (llStep 4 (EltPerLine 2) (fun _ => 5) (lineData 2 (fun _ => 5) exMem (fun _ => 1001) exUndef)
  (fun _ => 2) (fun _ => 1)).

Definition exRun (acts : list llAction) : llConn :=
  fold_left (fun st a => default st (exStep a st)) acts (llStart 2 (fun _ => 5) (fun _ => 1)).

Lemma exRun_runs acts :
  llRuns 2 4 (fun _ => 5) exMem (fun _ => 1001) exUndef (fun _ => 2) (fun _ => 1) (llStart 2 (fun _ => 5) (fun _ => 1)) (exRun acts).
Proof.
  unfold exRun. generalize (llStart 2 (fun _ => 5) (fun _ => 1)). induction acts as [|a acts IH]; intros st; [by apply rtc_refl|].
  cbn [fold_left]. destruct (exStep a st) as [st'|] eqn:E; [|apply IH].
  eapply rtc_l; [by exists a|apply IH].
Qed.

(** The second half of the first line is loaded before it is stored, and loaded again. *)
Local Abbreviation exActs := [SendStart; SendStore 1 false; SendStore 0 false; RecvLoad 0 false; RecvLoad 0 true; RecvCheck 0;
  SendStore 0 true; SendStore 1 true; RecvLoad 0 true; RecvLoad 0 false; RecvCheck 0; SendNext; RecvLoad 0 false;
  RecvLoad 0 true; RecvCheck 0; RecvBarrier; SendStart].

Lemma ll_delivers_witness :
  (0 <=? 0) && (0 <? recvStep (exRun exActs)) = true /\
  forall x, storeLines 2 (fun _ => 5) 0 (received (exRun exActs) 0) 5000 [1; 0] (fun _ => 9) x =
    if decide (5000 <= x < 5000 + 10) then exMem 0 (1001 + (x - 5000)) else 9.
Proof.
  assert ((0 <=? 0) && (0 <? recvStep (exRun exActs)) = true) as E by (vm_compute; reflexivity). split; [exact E|].
  intros x. apply (ll_delivers 2 4 (fun _ => 5) exMem (fun _ => 1001) exUndef (fun _ => 2) (fun _ => 1) exCalls
    (exRun exActs) (exRun_runs exActs)); [lia|].
  intros l. unfold dataLine. change (opElts (fun _ => 5) 0) with 5. change (EltPerLine 2) with 4.
  rewrite !elem_of_cons, elem_of_nil. lia.
Defined.

Lemma ll_progress_witness :
  exists st', llRuns 2 4 (fun _ => 5) exMem (fun _ => 1001) exUndef (fun _ => 2) (fun _ => 1) (exRun [SendStart; RecvLoad 0 true]) st' /\
    1000 <= recvStep st'.
Proof.
  apply (ll_progress 2 4 (fun _ => 5) exMem (fun _ => 1001) exUndef (fun _ => 2) (fun _ => 1) exCalls).
  apply exRun_runs.
Defined.

End Example.
