(* ===== verification/Sched.v ===== *)
(** * Distributing collectives over channels (src/src/enqueue/enqueue.cc, scheduleCollTasksToPlan)

    The scheduler takes collectives from a queue until the plan is full, gives
    each of them a range of channels with a share of its elements, chooses the
    chunk sizes, and adds the work to the batches of those channels.  The theorems
    say that the shares are exact and stay within the channels of the
    communicator, that no step of the arithmetic traps or wraps, and that the plan
    is one finishPlan and the kernel (PlanLayout) accept. *)

From stdpp Require Import base numbers list sets.
From Stdlib Require Import ZArith Lia Sorted.
From S2P Require Import Prelude Bitops Bits DevWork Chunking Batches.

Local Open Scope Z_scope.

(** A collective in the queue, with its work descriptor and the type (and so the
    size) of its node in the queue of works; [tc_netHandles c] says that channel
    [c] has a network handle for one of the buffers. *)
Record collTask := {
  tc_info : collInfo;
  tc_isCollnet : bool;
  tc_isNvls : bool;
  tc_count : Z;
  tc_eltSize : Z;
  tc_trafficBytes : Z;
  tc_nMaxChannels : Z;
  tc_minCTAs : Z;
  tc_maxCTAs : Z;
  tc_nvlsCTAs : option Z;
  tc_aggIsolate : bool;
  tc_devFuncId : Z;
  tc_nWarps : Z;
  tc_cgaClusterSize : Z;
  tc_netHandles : Z -> bool;
  tc_workType : ncclDevWorkType;
  tc_devWork : ncclDevWorkColl }.

Definition workSize (t : collTask) : Z := ncclDevWorkSize (tc_workType t).

(** What the scheduler reads of the communicator.  The tuner plugin is asked with
    the function, algorithm and protocol of the task, the channels and the bytes; [sc_specialized] is the generated table
    of the kernels made for one function. *)
Record schedComm := {
  sc_info : commInfo;
  sc_nChannels : Z;
  sc_nvlsChannels : Z;
  sc_cudaArch : Z;
  sc_epochEnable : bool;
  sc_tuner : collInfo -> Z -> Z -> option (Z -> ncclResult_t * Z);
  sc_specialized : Z -> bool }.

(* src/src/enqueue/enqueue.cc:351-354 ncclKernelPlanBudget *)
Record ncclKernelPlanBudget := { inArgsBytes : Z; outArgsBytes : Z }.

(** The descriptor of a batch has 16 bytes. *)
(* src/src/enqueue/enqueue.cc:356-365 ncclTestBudget *)
Definition ncclTestBudget (budget : ncclKernelPlanBudget) (nWorkBatches workBytes : Z) : bool :=
  let batchBytes := nWorkBatches * 16 in
  (batchBytes + workBytes <=? inArgsBytes budget) ||
  ((batchBytes <=? inArgsBytes budget) && (workBytes <=? outArgsBytes budget)).

(* src/src/enqueue/enqueue.cc:128-139 ncclFuncTrafficPerByte *)
Definition ncclFuncTrafficPerByte (func : ncclFunc_t) (nRanks : Z) : Z :=
  match func with
  | ncclFuncAllReduce => 2
  | ncclFuncAllGather => nRanks
  | ncclFuncReduceScatter => nRanks
  | _ => 1
  end.

Definition MinTrafficPerChannel : Z := Z.shiftl 32 10.

(** ** The estimate *)

Definition kindOf (t : collTask) : Z := 2 * Z.b2z (tc_isCollnet t) + Z.b2z (tc_isNvls t).

Definition nMaxChannels (comm : schedComm) (kind : Z) : Z :=
  if kind =? 1 then sc_nvlsChannels comm
  else if kind =? 3 then Z.min (sc_nChannels comm) (sc_nvlsChannels comm) else sc_nChannels comm.

Definition setMaxChannels (n : Z) (t : collTask) : collTask := {|
  tc_info := tc_info t; tc_isCollnet := tc_isCollnet t; tc_isNvls := tc_isNvls t; tc_count := tc_count t;
  tc_eltSize := tc_eltSize t; tc_trafficBytes := tc_trafficBytes t; tc_nMaxChannels := n; tc_minCTAs := tc_minCTAs t;
  tc_maxCTAs := tc_maxCTAs t; tc_nvlsCTAs := tc_nvlsCTAs t; tc_aggIsolate := tc_aggIsolate t;
  tc_devFuncId := tc_devFuncId t; tc_nWarps := tc_nWarps t; tc_cgaClusterSize := tc_cgaClusterSize t;
  tc_netHandles := tc_netHandles t; tc_workType := tc_workType t; tc_devWork := tc_devWork t |}.

(** The caps of the configuration on the channels of a task. *)
(* src/src/enqueue/enqueue.cc:695-699 scheduleCollTasksToPlan *)
Definition capChannels (t : collTask) : collTask :=
  let n := Z.max (tc_nMaxChannels t) (tc_minCTAs t) in
  let n := Z.min n (tc_maxCTAs t) in
  setMaxChannels
    (match tc_nvlsCTAs t with Some k => if tc_isNvls t then Z.min n k else n | None => n end) t.

(** The number of tasks that will fit the plan, and the traffic and channels of
    each kind of task. *)
Record estimate := {
  nPlanColls : nat;
  trafficBytes : Z -> Z;
  nChannelsOf : Z -> Z }.

Definition addEstimate (comm : schedComm) (t : collTask) (e : estimate) : estimate :=
  let kind := kindOf t in {|
  nPlanColls := S (nPlanColls e);
  trafficBytes := fun k =>
    if k =? kind then wrap64 (trafficBytes e k + Z.max MinTrafficPerChannel (tc_trafficBytes t)) else trafficBytes e k;
  nChannelsOf := fun k =>
    if k =? kind then Z.min (nChannelsOf e k + tc_nMaxChannels t) (nMaxChannels comm k) else nChannelsOf e k |}.

(** The queue is returned with the caps applied to the tasks the loop visited. *)
(* src/src/enqueue/enqueue.cc:665-707 scheduleCollTasksToPlan *)
Fixpoint estimateColls (comm : schedComm) (budget : ncclKernelPlanBudget) (workBytes : Z) (e : estimate)
    (tasks : list collTask) : list collTask * estimate :=
  match tasks with
  | [] => ([], e)
  | t :: rest =>
      let nBatches := divUp i32 (Z.of_nat (nPlanColls e)) 4 in
      if negb (ncclTestBudget budget nBatches (workBytes + workSize t)) then (tasks, e)
      else if tc_aggIsolate t && (0 <? nPlanColls e)%nat then (tasks, e)
      else
        let t := capChannels t in
        let e := addEstimate comm t e in
        if tc_aggIsolate t then (t :: rest, e)
        else let '(rest, e) := estimateColls comm budget (workBytes + workSize t) e rest in (t :: rest, e)
  end.

Definition noEstimate : estimate := {| nPlanColls := 0; trafficBytes := fun _ => 0; nChannelsOf := fun _ => 0 |}.

(** ** The share of each channel *)

(** The channel the next task starts at, and the traffic it has already. *)
Record chanState := { kindPrev : Z; trafficPerChannel : Z; channelId : Z; currentTraffic : Z }.

(** Cells, or elements, of the first, middle and last channel of a task. *)
Record shares := { sh_channelLo : Z; sh_nMid : Z; sh_lo : Z; sh_mid : Z; sh_hi : Z }.

(** [None] is a division by zero. *)
(* src/src/enqueue/enqueue.cc:776-799 scheduleCollTasksToPlan *)
Definition splitCells (nMax channelId cells cellsLo cellsPerChannel : Z) : option shares :=
  if cellsPerChannel =? 0 then None else
  let rest := wrap64 (cells - cellsLo) in
  let nMidChannels := cwrap i32 (Z.quot rest cellsPerChannel) in
  let cellsHi := Z.rem rest cellsPerChannel in
  let nChannels := (if cellsLo =? 0 then 0 else 1) + nMidChannels + (if cellsHi =? 0 then 0 else 1) in
  let overflow := nMax <? channelId + nChannels in
  if overflow && (nMax - channelId - 2 + 1 =? 0) then None else
  let '(nMidChannels, cellsPerChannel, cellsHi) :=
    if overflow
    then
      let nMidChannels := nMax - channelId - 2 in
      let cellsPerChannel := Z.quot rest (wrap64 (nMidChannels + 1)) in
      (nMidChannels, cellsPerChannel, wrap64 (cellsPerChannel + Z.rem rest (wrap64 (nMidChannels + 1))))
    else (nMidChannels, cellsPerChannel, cellsHi) in
  let '(nMidChannels, cellsHi) :=
    if (cellsHi =? 0) && negb (nMidChannels =? 0) then (nMidChannels - 1, cellsPerChannel) else (nMidChannels, cellsHi) in
  Some (if cellsLo =? 0
        then
          if nMidChannels =? 0
          then {| sh_channelLo := channelId + 1; sh_nMid := 0; sh_lo := cellsHi; sh_mid := cellsPerChannel; sh_hi := 0 |}
          else {| sh_channelLo := channelId + 1; sh_nMid := nMidChannels - 1; sh_lo := cellsPerChannel;
                  sh_mid := cellsPerChannel; sh_hi := cellsHi |}
        else {| sh_channelLo := channelId; sh_nMid := nMidChannels; sh_lo := cellsLo;
                sh_mid := cellsPerChannel; sh_hi := cellsHi |}).

(** The traffic of a byte, four times as much with the LL protocol. *)
Definition trafficPerByteOf (nRanks : Z) (t : collTask) : Z :=
  let k := ncclFuncTrafficPerByte (ti_func (tc_info t)) nRanks in
  match ti_protocol (tc_info t) with NCCL_PROTO_LL => k * 4 | _ => k end.

(** A cell is a whole number of 16-byte units and has at least 32 KiB of traffic. *)
Definition cellSizeOf (k : Z) : Z := wrap64 (divUp u64 (divUp u64 MinTrafficPerChannel k) 16 * 16).

(** The split of a task in cells and in elements, and the traffic of an element. *)
Record cbdSplit := { cs_cells : shares; cs_counts : shares; cs_elementsPerCell : Z; cs_trafficPerElement : Z; cs_nChannels : Z }.

(* src/src/enqueue/enqueue.cc:761-805 scheduleCollTasksToPlan *)
Definition splitTask (nRanks nMax : Z) (t : collTask) (st : chanState) : option cbdSplit :=
  let elementSize := tc_eltSize t in
  let trafficPerByte := trafficPerByteOf nRanks t in
  let cellSize := cellSizeOf trafficPerByte in
  let elementsPerCell := cwrap i32 (Z.quot cellSize elementSize) in
  let cells := divUp u64 (wrap64 (tc_count t * elementSize)) cellSize in
  let trafficPerElement := wrap64 (elementSize * trafficPerByte) in
  let trafficPerCell := wrap64 (cellSize * trafficPerByte) in
  let cellsPerChannel := Z.min cells (divUp u64 (trafficPerChannel st) trafficPerCell) in
  let cellsLo :=
    if channelId st + 1 =? nMax then cells
    else Z.min cells (divUp u64 (wrap64 (trafficPerChannel st - currentTraffic st)) trafficPerCell) in
  sh ← splitCells nMax (channelId st) cells cellsLo cellsPerChannel;
  let countMid := if sh_nMid sh =? 0 then 0 else wrap64 (sh_mid sh * elementsPerCell) in
  let countLo := wrap64 (sh_lo sh * elementsPerCell) in
  let countHi := wrap64 (sh_hi sh * elementsPerCell) in
  let excess := wrap64 (wrap64 (cells * elementsPerCell) - tc_count t) in
  let '(countLo, countHi) :=
    if countHi =? 0 then (wrap64 (countLo - excess), countHi) else (countLo, wrap64 (countHi - excess)) in
  Some {|
    cs_cells := sh;
    cs_counts := {| sh_channelLo := sh_channelLo sh; sh_nMid := sh_nMid sh; sh_lo := countLo; sh_mid := countMid; sh_hi := countHi |};
    cs_elementsPerCell := elementsPerCell; cs_trafficPerElement := trafficPerElement;
    cs_nChannels := (if countLo =? 0 then 0 else 1) + sh_nMid sh + (if sh_hi sh =? 0 then 0 else 1) |}.

(** Where the next task starts. *)
(* src/src/enqueue/enqueue.cc:847-861 scheduleCollTasksToPlan *)
Definition advance (nMax : Z) (s : cbdSplit) (st : chanState) : chanState :=
  let c := sh_channelLo (cs_counts s) in
  let perCell k := wrap64 (wrap64 (k * cs_elementsPerCell s) * cs_trafficPerElement s) in
  let '(c, traffic) :=
    if negb (sh_hi (cs_counts s) =? 0) then (c + (cs_nChannels s - 1), perCell (sh_hi (cs_cells s)))
    else if negb (sh_nMid (cs_counts s) =? 0) then (c + cs_nChannels s, 0)
    else (c, wrap64 (currentTraffic st + perCell (sh_lo (cs_cells s)))) in
  let '(c, traffic) :=
    if (trafficPerChannel st <=? traffic) && negb (c + 1 =? nMax) then (c + 1, 0) else (c, traffic) in
  {| kindPrev := kindPrev st; trafficPerChannel := trafficPerChannel st; channelId := c; currentTraffic := traffic |}.

(** ** The plan *)

(** The number of a function in its enumeration, the progress slot of its works. *)
Definition funcNumber (f : ncclFunc_t) : Z :=
  match f with
  | ncclFuncBroadcast => 0 | ncclFuncReduce => 1 | ncclFuncAllGather => 2 | ncclFuncReduceScatter => 3
  | ncclFuncAllReduce => 4 | ncclFuncSendRecv => 5 | ncclFuncSend => 6 | ncclFuncRecv => 7 | ncclFuncAlltoAll => 8
  | ncclFuncScatter => 9 | ncclFuncGather => 10 | ncclFuncAllGatherV => 11 | ncclFuncPutSignal => 12
  | ncclFuncSignal => 13 | ncclFuncWaitSignal => 14
  end.

(** The descriptor of a scheduled work: the two shapes of its union. *)
Inductive devWork :=
  | cbdWork (work : ncclDevWorkColl)
  | collnetWork (channelLo channelHi count chunkCount : Z).

Definition workLo (w : devWork) : Z := match w with cbdWork w => channelLo w | collnetWork lo _ _ _ => lo end.
Definition workHi (w : devWork) : Z := match w with cbdWork w => channelHi w | collnetWork _ hi _ _ => hi end.

(** The proxy operation of one channel; [pr_ringAlgo] says that it has a ring
    algorithm (ProxyRing) to find the addresses of registered buffers. *)
Record planProxyOp := {
  pr_channelId : Z;
  pr_opCount : Z;
  pr_loopOffset : Z;
  pr_channelSize : Z;
  pr_nChannels : Z;
  pr_ringAlgo : bool;
  pr_op : proxyOp }.

(** The plan: [cp_works] are the tasks and works of its queues in order,
    [cp_proxyOps] the operations given to [ncclAddProxyOpIfNeeded]. *)
Record collPlan := {
  cp_channels : list Channel;
  cp_nWorkBatches : Z;
  cp_workBytes : Z;
  cp_channelMask : Z;
  cp_collOpCount : Z;
  cp_threadPerBlock : Z;
  cp_cgaClusterSize : Z;
  cp_kernel : option Z;
  cp_kernelSpecialized : bool;
  cp_works : list (collTask * devWork);
  cp_proxyOps : list planProxyOp }.

Definition MAXCHANNELS : nat := 64.

Definition collItem (t : collTask) (offset : Z) : workItem := {|
  wi_type := tc_workType t; wi_funcId := tc_devFuncId t; wi_slot := funcNumber (ti_func (tc_info t));
  wi_offset := offset; wi_epoch := -1; wi_round := -1 |}.

(** The loop over the channels of a work.  [None] is an access to a channel out of
    range or to a proxy operation that was not set up. *)
Fixpoint addChannels (comm : schedComm) (t : collTask) (opAt : Z -> option planProxyOp) (cs : list nat) (plan : collPlan)
    : option collPlan :=
  match cs with
  | [] => Some plan
  | c :: cs =>
      op ← opAt (Z.of_nat c);
      chan ← cp_channels plan !! c;
      '(chan, nWorkBatches) ← addWork (sc_cudaArch comm) (sc_epochEnable comm) (chan, cp_nWorkBatches plan)
        (collItem t (cwrap u32 (cp_workBytes plan)));
      addChannels comm t opAt cs {|
        cp_channels := <[c := chan]> (cp_channels plan); cp_nWorkBatches := nWorkBatches;
        cp_workBytes := cp_workBytes plan; cp_channelMask := cp_channelMask plan; cp_collOpCount := cp_collOpCount plan;
        cp_threadPerBlock := cp_threadPerBlock plan; cp_cgaClusterSize := cp_cgaClusterSize plan;
        cp_kernel := cp_kernel plan; cp_kernelSpecialized := cp_kernelSpecialized plan;
        cp_works := cp_works plan; cp_proxyOps := cp_proxyOps plan ++ [op] |}
  end.

Definition channelRange (lo hi : Z) : list nat := seq (Z.to_nat lo) (Z.to_nat (hi - lo + 1)).

(** What the loop does after the channels of a task: the mask, the threads, the
    kernel and the queues. *)
(* src/src/enqueue/enqueue.cc:916-963 scheduleCollTasksToPlan *)
Definition finishTask (comm : schedComm) (t : collTask) (w : devWork) (plan : collPlan) : collPlan := {|
  cp_channels := cp_channels plan; cp_nWorkBatches := cp_nWorkBatches plan;
  cp_workBytes := wrap64 (cp_workBytes plan + workSize t);
  cp_channelMask := Z.lor (cp_channelMask plan)
    (cwrap u64 (cwrap u64 (Z.shiftl 2 (workHi w)) - cwrap u64 (Z.shiftl 1 (workLo w))));
  cp_collOpCount := cp_collOpCount plan + 1;
  cp_threadPerBlock := Z.max (cp_threadPerBlock plan) (tc_nWarps t * WARP_SIZE);
  cp_cgaClusterSize := tc_cgaClusterSize t;
  cp_kernel := if cp_kernelSpecialized plan then cp_kernel plan else Some (tc_devFuncId t);
  cp_kernelSpecialized := if cp_kernelSpecialized plan then true else sc_specialized comm (tc_devFuncId t);
  cp_works := cp_works plan ++ [(t, w)]; cp_proxyOps := cp_proxyOps plan |}.

Definition globalBytes (comm : schedComm) (t : collTask) (count : Z) : Z :=
  wrap64 (wrap64 (tc_eltSize t * ncclFuncMaxSendRecvCount (ti_func (tc_info t)) (ci_nRanks (sc_info comm)) 1) * count).

Definition chunking (comm : schedComm) (t : collTask) (nChannels count : Z) : option (ncclResult_t + (Z * bool * proxyOp)) :=
  let nBytes := globalBytes comm t count in
  calcCollChunking (sc_info comm) (tc_info t) (sc_tuner comm (tc_info t) nChannels nBytes) nChannels nBytes.

(** A task on CollNet uses all of its channels.  [Some (inr None)] means that the
    plan has no room for it. *)
(* src/src/enqueue/enqueue.cc:727-758 scheduleCollTasksToPlan *)
Definition schedCollnet (comm : schedComm) (budget : ncclKernelPlanBudget) (t : collTask) (plan : collPlan)
    : option (ncclResult_t + option (devWork * collPlan)) :=
  let nChannels := tc_nMaxChannels t in
  if negb (ncclTestBudget budget (cp_nWorkBatches plan + nChannels) (cp_workBytes plan + workSize t)) then Some (inr None)
  else
    res ← chunking comm t nChannels (tc_count t);
    match res with
    | inl err => Some (inl err)
    | inr (chunkSize, _, op) =>
        let w := collnetWork 0 ((nChannels - 1) mod 2 ^ 8) (tc_count t) (Z.quot chunkSize (tc_eltSize t)) in
        let opAt c := Some {|
          pr_channelId := c; pr_opCount := 2 * cp_collOpCount plan; pr_loopOffset := po_loopOffset op;
          pr_channelSize := 0; pr_nChannels := 0; pr_ringAlgo := false; pr_op := op |} in
        plan ← addChannels comm t opAt (channelRange (workLo w) (workHi w)) plan;
        Some (inr (Some (w, plan)))
    end.

(** The chunking of one share, asked for only if it is not empty. *)
Definition shareChunking (comm : schedComm) (t : collTask) (needed : bool) (count : Z)
    : option (ncclResult_t + option (Z * proxyOp)) :=
  if needed then
    res ← chunking comm t 1 count;
    Some (match res with inl err => inl err | inr (chunkSize, _, op) => inr (Some (chunkSize, op)) end)
  else Some (inr None).

(** The 21 bits of a chunk in grains; the old value if the share is empty. *)
Definition grains (t : collTask) (chunk : option (Z * proxyOp)) (old : Z) : Z :=
  match chunk with Some (c, _) => Z.quot c (ncclProtoGrainSize (ti_protocol (tc_info t))) mod 2 ^ 21 | None => old end.

(** The work descriptor of the shares. *)
Definition cbdWorkOf (t : collTask) (s : cbdSplit) (lo mid hi : option (Z * proxyOp)) : ncclDevWorkColl :=
  let counts := cs_counts s in
  let old := tc_devWork t in {|
  channelLo := sh_channelLo counts mod 2 ^ 8;
  channelHi := (sh_channelLo counts + cs_nChannels s - 1) mod 2 ^ 8;
  root := root old; sendbuff := sendbuff old; recvbuff := recvbuff old;
  countLo := sh_lo counts; countMid := sh_mid counts; countHi := sh_hi counts;
  chunkGrainsLo := grains t lo (chunkGrainsLo old);
  chunkGrainsMid := grains t mid (chunkGrainsMid old);
  chunkGrainsHi := grains t hi (chunkGrainsHi old) |}.

(** The functions with a ring algorithm for registered buffers. *)
Definition hasRingAlgo (f : ncclFunc_t) : bool :=
  match f with ncclFuncAllGather | ncclFuncAllReduce | ncclFuncBroadcast => true | _ => false end.

(** The proxy operation of channel [c].  [None] is an operation that was not set
    up, or a reference taken to a ring algorithm that is NULL. *)
(* src/src/enqueue/enqueue.cc:863-906 scheduleCollTasksToPlan *)
Definition cbdProxyOp (t : collTask) (s : cbdSplit) (w : ncclDevWorkColl) (opCount : Z) (lo mid hi : option (Z * proxyOp))
    (c : Z) : option planProxyOp :=
  let elementSize := tc_eltSize t in
  let '(chosen, loopOffset, channelSize) :=
    if c =? channelLo w then (lo, 0, wrap64 (countLo w * elementSize))
    else if c =? channelHi w
    then (hi, wrap64 (wrap64 (countLo w + wrap64 (sh_nMid (cs_counts s) * countMid w)) * elementSize),
          wrap64 (countHi w * elementSize))
    else (mid, wrap64 (wrap64 (countLo w + wrap64 ((c - channelLo w - 1) * countMid w)) * elementSize),
          wrap64 (countMid w * elementSize)) in
  match chosen with
  | None => None
  | Some (_, op) =>
      let registered := po_reg op && bool_decide (ti_algorithm (tc_info t) = NCCL_ALGO_RING) && tc_netHandles t c in
      if registered && negb (hasRingAlgo (ti_func (tc_info t))) then None else Some {|
        pr_channelId := c; pr_opCount := opCount; pr_loopOffset := loopOffset; pr_channelSize := channelSize;
        pr_nChannels := cs_nChannels s; pr_ringAlgo := registered; pr_op := op |}
  end.

(** A task whose elements are distributed over a range of channels. *)
(* src/src/enqueue/enqueue.cc:760-914 scheduleCollTasksToPlan *)
Definition schedCbd (comm : schedComm) (budget : ncclKernelPlanBudget) (t : collTask) (st : chanState) (plan : collPlan)
    : option (ncclResult_t + option (devWork * chanState * collPlan)) :=
  let nMax := nMaxChannels comm (kindOf t) in
  s ← splitTask (ci_nRanks (sc_info comm)) nMax t st;
  let counts := cs_counts s in
  if negb (ncclTestBudget budget (cp_nWorkBatches plan + cs_nChannels s) (cp_workBytes plan + workSize t)) then Some (inr None)
  else
    lo ← shareChunking comm t (negb (sh_lo counts =? 0)) (sh_lo counts);
    match lo with
    | inl err => Some (inl err)
    | inr lo =>
        hi ← shareChunking comm t (negb (sh_hi counts =? 0)) (sh_hi counts);
        match hi with
        | inl err => Some (inl err)
        | inr hi =>
            mid ← shareChunking comm t (negb (sh_nMid counts =? 0)) (sh_mid counts);
            match mid with
            | inl err => Some (inl err)
            | inr mid =>
                let w := cbdWorkOf t s lo mid hi in
                plan' ← addChannels comm t (cbdProxyOp t s w (2 * cp_collOpCount plan) lo mid hi)
                  (channelRange (channelLo w) (channelHi w)) plan;
                Some (inr (Some (cbdWork w, advance nMax s st, plan')))
            end
        end
    end.

(** The state at the first task of a kind; [None] is a division by zero. *)
(* src/src/enqueue/enqueue.cc:719-725 scheduleCollTasksToPlan *)
Definition enterKind (e : estimate) (t : collTask) (st : chanState) : option chanState :=
  let kind := kindOf t in
  if kind =? kindPrev st then Some st
  else if nChannelsOf e kind =? 0 then None
  else Some {|
    kindPrev := kind;
    trafficPerChannel := wrap64 (divUp u64 (Z.quot (trafficBytes e kind) (nChannelsOf e kind)) 16 * 16);
    channelId := 0; currentTraffic := 0 |}.

(** The loop over the tasks of the plan; the result is the plan and what is left
    of the queue. *)
(* src/src/enqueue/enqueue.cc:709-718 scheduleCollTasksToPlan *)
Fixpoint schedTasks (comm : schedComm) (budget : ncclKernelPlanBudget) (e : estimate) (nPlan : nat) (st : chanState)
    (plan : collPlan) (tasks : list collTask) : option (ncclResult_t + (collPlan * list collTask)) :=
  match nPlan, tasks with
  | S nPlan, t :: rest =>
      st ← enterKind e t st;
      res ← (if tc_isCollnet t
             then res ← schedCollnet comm budget t plan;
                  Some (match res with
                        | inl err => inl err
                        | inr None => inr None
                        | inr (Some (w, plan)) => inr (Some (w, st, plan))
                        end)
             else schedCbd comm budget t st plan);
      match res with
      | inl err => Some (inl err)
      | inr None => Some (inr (plan, tasks))
      | inr (Some (w, st, plan)) => schedTasks comm budget e nPlan st (finishTask comm t w plan) rest
      end
  | _, _ => Some (inr (plan, tasks))
  end.

(* src/src/enqueue/enqueue.cc:662-966 scheduleCollTasksToPlan *)
Definition scheduleCollTasksToPlan (comm : schedComm) (budget : ncclKernelPlanBudget) (plan : collPlan) (tasks : list collTask)
    : option (ncclResult_t + (collPlan * list collTask)) :=
  let '(tasks, e) := estimateColls comm budget 0 noEstimate tasks in
  schedTasks comm budget e (nPlanColls e)
    {| kindPrev := -1; trafficPerChannel := 0; channelId := 0; currentTraffic := 0 |} plan tasks.

(** ** The shares are exact *)

(** The shares of [n] things that fit the channels from [ch] to [nMax]: none of
    the channels they use is without a share. *)
Definition sharesOf (nMax ch n : Z) (sh : shares) : Prop :=
  sh_channelLo sh = ch /\ 0 <= sh_nMid sh /\ 0 < sh_lo sh /\ 0 <= sh_hi sh /\
  sh_lo sh + sh_nMid sh * sh_mid sh + sh_hi sh = n /\ (sh_hi sh = 0 -> sh_nMid sh = 0) /\
  (sh_nMid sh <> 0 -> 0 < sh_mid sh) /\
  ch + 1 + sh_nMid sh + (if sh_hi sh =? 0 then 0 else 1) <= nMax.

Lemma wrap64_fits z : 0 <= z < 2 ^ 63 -> wrap64 z = z.
Proof. intros. apply wrap64_small. lia. Qed.

Lemma splitCells_ok nMax ch cells lo per :
  0 < lo <= cells -> cells < 2 ^ 31 -> 0 < per -> 0 <= ch < nMax -> nMax < 2 ^ 31 -> (ch + 1 = nMax -> lo = cells) ->
  exists sh, splitCells nMax ch cells lo per = Some sh /\ sharesOf nMax ch cells sh.
Proof.
  intros Hlo Hcells Hper Hch Hmax Hlast. unfold splitCells. rewrite (proj2 (Z.eqb_neq per 0)) by lia.
  rewrite (wrap64_fits (cells - lo)) by lia. set (rest := cells - lo).
  rewrite Z.quot_div_nonneg, Z.rem_mod_nonneg by lia.
  pose proof (Z.div_mod rest per ltac:(lia)) as Hdm. pose proof (Z.mod_pos_bound rest per ltac:(lia)) as Hmb.
  assert (0 <= rest / per <= rest) as Hq by (split; [apply Z.div_pos; lia|apply Z.div_le_upper_bound; nia]).
  assert (cwrap i32 (rest / per) = rest / per) as ->.
  { apply cwrap_fits; [done|]. fits_lia. }
  set (q := rest / per) in *. set (h := rest mod per) in *. rewrite !(proj2 (Z.eqb_neq lo 0)) by lia.
  set (over := nMax <? _).
  destruct over eqn:Eo; subst over.
  - apply Z.ltb_lt in Eo. assert (ch + 1 < nMax) as Hch1.
    { destruct (Z.eq_dec (ch + 1) nMax) as [E|]; [|lia]. specialize (Hlast E). exfalso.
      replace rest with 0 in * by lia. assert (q = 0) by nia. destruct (Z.eqb_spec h 0); nia. }
    set (m := nMax - ch - 2) in *. rewrite (proj2 (Z.eqb_neq (m + 1) 0)) by lia. cbn [andb].
    rewrite (wrap64_fits (m + 1)), Z.quot_div_nonneg, Z.rem_mod_nonneg by lia.
    pose proof (Z.div_mod rest (m + 1) ltac:(lia)) as Hdm2. pose proof (Z.mod_pos_bound rest (m + 1) ltac:(lia)) as Hmb2.
    assert (m + 1 <= rest) by (destruct (Z.eqb_spec h 0); nia).
    assert (1 <= rest / (m + 1) <= rest) as Hq2 by (split; [apply Z.div_le_lower_bound; lia|apply Z.div_le_upper_bound; nia]).
    set (q2 := rest / (m + 1)) in *. set (h2 := rest mod (m + 1)) in *.
    rewrite wrap64_fits by lia. rewrite (proj2 (Z.eqb_neq (q2 + h2) 0)) by lia. cbn [andb].
    eexists. split; [done|]. unfold sharesOf. cbn [sh_channelLo sh_nMid sh_lo sh_mid sh_hi].
    rewrite (proj2 (Z.eqb_neq (q2 + h2) 0)) by lia. split_and!; lia || nia.
  - apply Z.ltb_ge in Eo. cbn [andb]. destruct (Z.eqb_spec h 0) as [Eh|Eh]; cbn [andb].
    + destruct (Z.eqb_spec q 0) as [Eq|Eq]; cbn [negb]; (eexists; split; [done|]); unfold sharesOf;
        cbn [sh_channelLo sh_nMid sh_lo sh_mid sh_hi]; [destruct (Z.eqb_spec h 0)|destruct (Z.eqb_spec per 0)]; split_and!; lia || nia.
    + eexists; split; [done|]. unfold sharesOf. cbn [sh_channelLo sh_nMid sh_lo sh_mid sh_hi].
      destruct (Z.eqb_spec h 0); split_and!; lia || nia.
Qed.

(** A task with elements, of a known type, with less than 32 TiB of traffic. *)
Definition taskOk (nRanks : Z) (t : collTask) : Prop :=
  0 < nRanks < 2 ^ 26 /\ 0 < tc_count t /\ In (tc_eltSize t) [1; 2; 4; 8] /\
  tc_count t * tc_eltSize t * trafficPerByteOf nRanks t < 2 ^ 45.

Lemma u64_fits z : 0 <= z < 2 ^ 64 -> fits u64 z.
Proof. fits_lia. Qed.

Lemma divUp_u64 x y : 0 <= x < 2 ^ 63 -> 0 < y < 2 ^ 63 ->
  x <= divUp u64 x y * y < x + y /\ 0 <= divUp u64 x y <= x.
Proof.
  intros Hx Hy. rewrite divUp_eq by (done || lia || (apply u64_fits; lia)).
  pose proof (Z.div_mod (x + y - 1) y ltac:(lia)). pose proof (Z.mod_pos_bound (x + y - 1) y ltac:(lia)).
  assert (0 <= (x + y - 1) / y) by (apply Z.div_pos; lia). split; [nia|]. split; [done|].
  set (q := (x + y - 1) / y) in *. assert (q * y < x + y) by nia. nia.
Qed.

Lemma cellSizeOf_ok k : 0 < k < 2 ^ 28 ->
  exists u, cellSizeOf k = u * 16 /\ 0 < u <= 2 ^ 12 /\ 2 ^ 15 <= cellSizeOf k * k < 2 ^ 44.
Proof.
  intros Hk. unfold cellSizeOf. change MinTrafficPerChannel with (2 ^ 15).
  pose proof (divUp_u64 (2 ^ 15) k ltac:(lia) ltac:(lia)) as [H1 H2]. set (d := divUp u64 (2 ^ 15) k) in *.
  pose proof (divUp_u64 d 16 ltac:(lia) ltac:(lia)) as [H3 H4]. set (u := divUp u64 d 16) in *.
  rewrite wrap64_fits by lia. exists u. split; [done|]. split; [|nia].
  assert (0 < d) by nia. lia.
Qed.

(** A task split over the channels from [ch]. *)
Definition splitOk (nMax ch : Z) (t : collTask) (s : cbdSplit) : Prop :=
  sharesOf nMax ch (tc_count t) (cs_counts s) /\
  (sh_nMid (cs_counts s) = 0 -> sh_mid (cs_counts s) = 0) /\
  cs_nChannels s = 1 + sh_nMid (cs_counts s) + (if sh_hi (cs_counts s) =? 0 then 0 else 1).

(** The cells of a share in elements; the elements the last cell does not have are
    taken from the last share. *)
Lemma shares_counts nMax ch cells epc count sh :
  sharesOf nMax ch cells sh -> 0 < epc < 2 ^ 20 -> 0 < cells < 2 ^ 31 -> 0 <= cells * epc - count < epc ->
  let countMid := if sh_nMid sh =? 0 then 0 else wrap64 (sh_mid sh * epc) in
  let countLo := wrap64 (sh_lo sh * epc) in
  let countHi := wrap64 (sh_hi sh * epc) in
  let excess := wrap64 (wrap64 (cells * epc) - count) in
  let '(lo, hi) := if countHi =? 0 then (wrap64 (countLo - excess), countHi) else (countLo, wrap64 (countHi - excess)) in
  sharesOf nMax ch count {| sh_channelLo := sh_channelLo sh; sh_nMid := sh_nMid sh; sh_lo := lo; sh_mid := countMid; sh_hi := hi |} /\
  0 < lo /\ (sh_hi sh = 0 <-> hi = 0).
Proof.
  intros (E1 & H2 & H3 & H4 & H5 & H6 & H7 & H8) Hepc Hcells Hex. cbn zeta.
  assert (0 <= sh_nMid sh * sh_mid sh) by (destruct (Z.eq_dec (sh_nMid sh) 0) as [->|]; [lia|specialize (H7 ltac:(lia)); nia]).
  assert (forall x, 0 <= x <= cells -> wrap64 (x * epc) = x * epc) as W.
  { intros x Hx. apply wrap64_fits. split; [nia|]. pose proof (Z.mul_le_mono_nonneg x (2 ^ 31) epc (2 ^ 20)). lia. }
  assert (cells * epc < 2 ^ 62) by (pose proof (Z.mul_le_mono_nonneg cells (2 ^ 31) epc (2 ^ 20)); lia).
  rewrite (W (sh_lo sh)), (W (sh_hi sh)), (W cells), (wrap64_fits (cells * epc - count)) by lia.
  assert ((if sh_nMid sh =? 0 then 0 else wrap64 (sh_mid sh * epc)) = if sh_nMid sh =? 0 then 0 else sh_mid sh * epc) as ->.
  { destruct (Z.eqb_spec (sh_nMid sh) 0); [done|]. specialize (H7 ltac:(lia)). apply W. nia. }
  revert H8. destruct (Z.eqb_spec (sh_hi sh) 0) as [Eh|Eh]; intros H8.
  - rewrite Eh. rewrite (H6 Eh) in *. cbn [Z.mul Z.eqb].
    assert (sh_lo sh = cells) as -> by nia. rewrite wrap64_fits by nia.
    unfold sharesOf. cbn [sh_channelLo sh_nMid sh_lo sh_mid sh_hi]. simpl. split_and!; lia || nia.
  - rewrite (proj2 (Z.eqb_neq (sh_hi sh * epc) 0)) by nia. rewrite wrap64_fits by nia.
    unfold sharesOf. cbn [sh_channelLo sh_nMid sh_lo sh_mid sh_hi].
    rewrite (proj2 (Z.eqb_neq (sh_hi sh * epc - (cells * epc - count)) 0)) by nia.
    destruct (Z.eqb_spec (sh_nMid sh) 0) as [E0|E0]; [rewrite E0 in *|]; split_and!; nia.
Qed.

(** A channel that is not the last one is left before it is full: the traffic
    left on it does not wrap around. *)
Definition stOk (nMax : Z) (st : chanState) : Prop :=
  0 < trafficPerChannel st < 2 ^ 62 /\ 0 <= channelId st < nMax /\ 0 <= currentTraffic st /\
  (channelId st + 1 <> nMax -> currentTraffic st < trafficPerChannel st).

Lemma trafficPerByteOf_ok nRanks t : 0 < nRanks < 2 ^ 26 -> 0 < trafficPerByteOf nRanks t < 2 ^ 28.
Proof. intros. unfold trafficPerByteOf. destruct (ti_func (tc_info t)), (ti_protocol (tc_info t)); simpl; lia. Qed.

(** The cells of a task cover its elements, and the last one is not empty. *)
Lemma cells_ok nRanks t cs epc :
  taskOk nRanks t -> cs = cellSizeOf (trafficPerByteOf nRanks t) -> epc = cwrap i32 (Z.quot cs (tc_eltSize t)) ->
  let cells := divUp u64 (wrap64 (tc_count t * tc_eltSize t)) cs in
  0 < cells < 2 ^ 31 /\ 0 < epc < 2 ^ 20 /\ 0 <= cells * epc - tc_count t < epc.
Proof.
  intros (Hn & Hc & He & Ht) -> ->. cbn zeta. pose proof (trafficPerByteOf_ok nRanks t Hn) as Hk.
  set (k := trafficPerByteOf nRanks t) in *. destruct (cellSizeOf_ok k Hk) as (u & Eu & Hu & Htr). rewrite Eu in *.
  assert (exists e, 16 = e * tc_eltSize t /\ 0 < e <= 16) as (e & Ee & Hee).
  { destruct He as [<-|[<-|[<-|[<-|[]]]]]; [exists 16|exists 8|exists 4|exists 2]; lia. }
  assert (0 < tc_eltSize t <= 16) by nia. set (es := tc_eltSize t) in *. clearbody es k.
  replace (u * 16) with (u * e * es) in * by (rewrite Ee; ring). rewrite Z.quot_mul by lia.
  assert (0 < u * e <= 2 ^ 16) by nia.
  rewrite cwrap_fits; [|done|fits_lia].
  assert (tc_count t * es < 2 ^ 45) by nia. rewrite wrap64_fits by nia.
  destruct (divUp_u64 (tc_count t * es) (u * e * es) ltac:(nia) ltac:(nia)) as [Hd _].
  set (cells := divUp u64 _ _) in *. clearbody cells. set (epc := u * e) in *. clearbody epc.
  assert (0 <= cells * epc - tc_count t < epc) as Hex.
  { replace (cells * (epc * es)) with (cells * epc * es) in Hd by ring.
    split; [apply Zle_minus_le_0, (Zmult_le_reg_r _ _ es); lia|apply (Zmult_lt_reg_r _ _ es); lia]. }
  clear Hd. assert (0 < cells) by (destruct (Z.le_gt_cases cells 0); [nia|done]).
  split; [|split; [lia|done]]. split; [done|].
  assert ((cells - 1) * epc < tc_count t) as Hc1 by lia. clear Hex.
  assert ((cells - 1) * (epc * es * k) <= tc_count t * es * k) as Hb.
  { replace ((cells - 1) * (epc * es * k)) with ((cells - 1) * epc * (es * k)) by ring.
    replace (tc_count t * es * k) with (tc_count t * (es * k)) by ring. apply Z.mul_le_mono_nonneg_r; nia. }
  destruct (Z.lt_ge_cases cells (2 ^ 31)) as [|Hbig]; [done|]. exfalso.
  pose proof (Z.mul_le_mono_nonneg (2 ^ 30) (cells - 1) (2 ^ 15) (epc * es * k)). lia.
Qed.

Lemma splitTask_ok nRanks nMax t st :
  taskOk nRanks t -> nMax < 2 ^ 31 -> stOk nMax st ->
  exists s, splitTask nRanks nMax t st = Some s /\ splitOk nMax (channelId st) t s.
Proof.
  intros Htask Hmax (Htpc & Hch & Hcur & Hlast). unfold splitTask.
  pose proof (trafficPerByteOf_ok nRanks t (proj1 Htask)) as Hk.
  destruct (cellSizeOf_ok _ Hk) as (u & _ & _ & Htr).
  destruct (cells_ok nRanks t _ _ Htask eq_refl eq_refl) as (Hcells & Hepc & Hex).
  set (cs := cellSizeOf (trafficPerByteOf nRanks t)) in *. set (epc := cwrap i32 _) in *.
  set (cells := divUp u64 (wrap64 (tc_count t * tc_eltSize t)) cs) in *.
  rewrite (wrap64_fits (cs * trafficPerByteOf nRanks t)) by lia. set (tpcell := cs * trafficPerByteOf nRanks t) in *.
  destruct (divUp_u64 (trafficPerChannel st) tpcell ltac:(lia) ltac:(lia)) as [Hd _].
  set (d := divUp u64 (trafficPerChannel st) tpcell) in *. assert (0 < d) by nia.
  set (lo := if channelId st + 1 =? nMax then cells else _).
  assert (0 < lo <= cells /\ (channelId st + 1 = nMax -> lo = cells)) as [Hlo Hlo'].
  { unfold lo. destruct (Z.eqb_spec (channelId st + 1) nMax) as [E|E]; [lia|]. specialize (Hlast E).
    rewrite wrap64_fits by lia.
    destruct (divUp_u64 (trafficPerChannel st - currentTraffic st) tpcell ltac:(lia) ltac:(lia)) as [Hd2 _]. nia. }
  destruct (splitCells_ok nMax (channelId st) cells lo (Z.min cells d)) as (sh & E & Hsh); try lia.
  rewrite E. cbn [mbind option_bind].
  pose proof (shares_counts nMax _ cells epc (tc_count t) sh Hsh Hepc Hcells Hex) as Hcounts. cbn zeta in Hcounts.
  destruct (if wrap64 (sh_hi sh * epc) =? 0 then _ else _) as [clo chi] eqn:Ec.
  destruct Hcounts as (Hcs & Hclo & Hchi). eexists. split; [done|]. unfold splitOk. cbn [cs_counts cs_nChannels sh_hi sh_mid sh_nMid].
  split; [done|]. split; [intros ->; done|].
  rewrite (proj2 (Z.eqb_neq clo 0)) by lia. destruct (Z.eqb_spec (sh_hi sh) 0), (Z.eqb_spec chi 0); lia || tauto.
Qed.

Lemma advance_ok nMax t s st :
  stOk nMax st -> splitOk nMax (channelId st) t s -> stOk nMax (advance nMax s st).
Proof.
  intros (Htpc & Hch & Hcur & Hlast) ((E1 & H2 & H3 & H4 & H5 & H6 & H7 & H8) & Hmid & En). unfold advance.
  set (p := if negb (sh_hi (cs_counts s) =? 0) then _ else _).
  assert (0 <= p.1 < nMax /\ 0 <= p.2) as [Hp1 Hp2].
  { unfold p. rewrite E1, En. destruct (Z.eqb_spec (sh_hi (cs_counts s)) 0) as [E|E]; cbn [negb].
    - rewrite (H6 E). cbn [Z.eqb negb fst snd]. split; [lia|apply wrap64_bound].
    - cbn [fst snd]. split; [lia|apply wrap64_bound]. }
  destruct p as [c traffic]. cbn [fst snd] in *.
  destruct (Z.leb_spec (trafficPerChannel st) traffic), (Z.eqb_spec (c + 1) nMax); cbn [andb negb];
    unfold stOk; cbn [trafficPerChannel channelId currentTraffic]; split_and!; lia.
Qed.

(** ** The estimate leaves nothing to divide by zero *)

(** The configuration of a task, and channels for its kind. *)
Definition capOk (comm : schedComm) (t : collTask) : Prop :=
  1 <= tc_minCTAs t /\ 1 <= tc_maxCTAs t <= 64 /\ (forall k, tc_nvlsCTAs t = Some k -> 1 <= k) /\
  1 <= nMaxChannels comm (kindOf t) <= 64.

Definition totalTraffic (tasks : list collTask) : Z :=
  fold_right (fun t n => Z.max MinTrafficPerChannel (tc_trafficBytes t) + n) 0 tasks.

Lemma totalTraffic_pos tasks : 0 <= totalTraffic tasks.
Proof. induction tasks as [|t tasks IH]; simpl; [done|]. change MinTrafficPerChannel with 32768. lia. Qed.

Lemma capChannels_ok comm t : capOk comm t -> 1 <= tc_nMaxChannels (capChannels t) <= 64.
Proof.
  intros (H1 & H2 & H3 & _). unfold capChannels. cbn [setMaxChannels tc_nMaxChannels].
  destruct (tc_nvlsCTAs t) as [k|]; [specialize (H3 k eq_refl); destruct (tc_isNvls t)|]; lia.
Qed.

(** No kind has more channels than it may, or more traffic than its tasks. *)
Definition estOk (comm : schedComm) (total : Z) (e : estimate) : Prop :=
  forall k, 0 <= nChannelsOf e k <= 64 /\ 0 <= trafficBytes e k <= total /\
    (1 <= nChannelsOf e k -> MinTrafficPerChannel <= trafficBytes e k).

Lemma addEstimate_ok comm total t e :
  capOk comm t -> estOk comm total e -> total + Z.max MinTrafficPerChannel (tc_trafficBytes t) < 2 ^ 61 ->
  let e' := addEstimate comm (capChannels t) e in
  estOk comm (total + Z.max MinTrafficPerChannel (tc_trafficBytes t)) e' /\ 1 <= nChannelsOf e' (kindOf t) /\
  (forall k, 1 <= nChannelsOf e k -> 1 <= nChannelsOf e' k).
Proof.
  intros Hcap He Ht. pose proof (capChannels_ok comm t Hcap) as Hn. destruct Hcap as (_ & _ & _ & Hmax). cbn zeta.
  assert (forall k, nChannelsOf (addEstimate comm (capChannels t) e) k = (if k =? kindOf t
    then Z.min (nChannelsOf e k + tc_nMaxChannels (capChannels t)) (nMaxChannels comm k) else nChannelsOf e k)) as En by done.
  assert (forall k, trafficBytes (addEstimate comm (capChannels t) e) k = (if k =? kindOf t
    then trafficBytes e k + Z.max MinTrafficPerChannel (tc_trafficBytes t) else trafficBytes e k)) as Et.
  { intros k. destruct (He k) as (_ & Hk & _). cbn [addEstimate trafficBytes]. change (kindOf (capChannels t)) with (kindOf t).
    change (tc_trafficBytes (capChannels t)) with (tc_trafficBytes t).
    destruct (k =? kindOf t); [|done]. apply wrap64_fits. change MinTrafficPerChannel with 32768 in *. lia. }
  change MinTrafficPerChannel with 32768 in *. split_and!.
  - intros k. rewrite En, Et. destruct (He k) as (H1 & H2 & H3).
    destruct (Z.eqb_spec k (kindOf t)) as [->|]; change MinTrafficPerChannel with 32768 in *; split_and!; lia.
  - rewrite En, Z.eqb_refl. destruct (He (kindOf t)). lia.
  - intros k Hk. rewrite En. destruct (Z.eqb_spec k (kindOf t)) as [->|]; lia.
Qed.

(** The queue after the estimate: the tasks that will fit come first, with their
    caps, and each of their kinds has channels and traffic. *)
Lemma estimateColls_ok comm budget tasks total e :
  Forall (capOk comm) tasks -> estOk comm total e -> total + totalTraffic tasks < 2 ^ 61 ->
  forall workBytes tasks' e', estimateColls comm budget workBytes e tasks = (tasks', e') ->
  exists fit rest, tasks = fit ++ rest /\ tasks' = map capChannels fit ++ rest /\
    nPlanColls e' = (nPlanColls e + length fit)%nat /\ estOk comm (2 ^ 61 - 1) e' /\
    Forall (fun t => 1 <= nChannelsOf e' (kindOf t)) fit /\ (forall k, 1 <= nChannelsOf e k -> 1 <= nChannelsOf e' k).
Proof.
  intros HF. revert total e. induction HF as [|t tasks Ht HF IH]; intros total e He Htot workBytes tasks' e' E.
  - injection E as <- <-. exists [], []. simpl. rewrite Nat.add_0_r. split_and!; try done. intros k. destruct (He k) as (H1 & H2 & H3). simpl in Htot. split_and!; lia || done.
  - assert (estOk comm (2 ^ 61 - 1) e) as He'.
    { intros k. destruct (He k) as (H1 & H2 & H3). pose proof (totalTraffic_pos (t :: tasks)). split_and!; lia || done. }
    cbn [estimateColls] in E. simpl in Htot. pose proof (totalTraffic_pos tasks).
    destruct (negb _) eqn:Eb; [|destruct (tc_aggIsolate t && _) eqn:Ea].
    1, 2: injection E as <- <-; exists [], (t :: tasks); simpl; rewrite Nat.add_0_r; by split_and!.
    destruct (addEstimate_ok comm total t e Ht He ltac:(lia)) as (He1 & Hk & Hmono).
    change (tc_aggIsolate (capChannels t)) with (tc_aggIsolate t) in E.
    set (e1 := addEstimate comm (capChannels t) e) in *. assert (nPlanColls e1 = S (nPlanColls e)) as En by done.
    destruct (tc_aggIsolate t).
    + injection E as <- <-. exists [t], tasks. simpl. rewrite Nat.add_1_r. split_and!; try done; [|by constructor].
      intros k. destruct (He1 k) as (H1 & H2 & H3). split_and!; lia || done.
    + destruct (estimateColls comm budget _ e1 tasks) as [tasks1 e2] eqn:E2. injection E as <- <-.
      destruct (IH _ e1 He1 ltac:(lia) _ _ _ E2) as (fit & rest & -> & -> & Hn & He2 & HF2 & Hm2).
      exists (t :: fit), rest. split_and!; try done; [simpl; lia| |by auto].
      constructor; [by apply Hm2|done].
Qed.

Lemma enterKind_ok comm e t st :
  estOk comm (2 ^ 61 - 1) e -> 1 <= nChannelsOf e (kindOf t) -> capOk comm t ->
  (kindPrev st = kindOf t -> stOk (nMaxChannels comm (kindOf t)) st) ->
  exists st', enterKind e t st = Some st' /\ kindPrev st' = kindOf t /\ stOk (nMaxChannels comm (kindOf t)) st'.
Proof.
  intros He Hk (_ & _ & _ & Hmax) Hst. unfold enterKind.
  destruct (Z.eqb_spec (kindOf t) (kindPrev st)) as [E|E]; [exists st; split_and!; auto|].
  rewrite (proj2 (Z.eqb_neq _ 0)) by lia. eexists. split; [done|]. split; [done|].
  destruct (He (kindOf t)) as (H1 & H2 & H3). specialize (H3 Hk). change MinTrafficPerChannel with 32768 in *.
  set (tr := trafficBytes e (kindOf t)) in *. set (n := nChannelsOf e (kindOf t)) in *.
  rewrite Z.quot_div_nonneg by lia. assert (1 <= tr / n <= tr) by (split; [apply Z.div_le_lower_bound|apply Z.div_le_upper_bound]; nia).
  destruct (divUp_u64 (tr / n) 16 ltac:(lia) ltac:(lia)) as [Hd _].
  unfold stOk. cbn [trafficPerChannel channelId currentTraffic]. rewrite wrap64_fits by lia. split_and!; lia.
Qed.

(** ** The plan *)

(** The works of a channel, with their offsets in the queue of works. *)
Fixpoint itemsOf (c : nat) (offset : Z) (works : list (collTask * devWork)) : list workItem :=
  match works with
  | [] => []
  | (t, w) :: works =>
      (if (workLo w <=? Z.of_nat c) && (Z.of_nat c <=? workHi w) then [collItem t offset] else []) ++
      itemsOf c (offset + workSize t) works
  end.

Definition totalSize (works : list (collTask * devWork)) : Z := fold_right (fun p n => workSize p.1 + n) 0 works.

Lemma itemsOf_app c off ws ws' :
  itemsOf c off (ws ++ ws') = itemsOf c off ws ++ itemsOf c (off + totalSize ws) ws'.
Proof.
  revert off. induction ws as [|[t w] ws IH]; intros off; simpl; [by rewrite Z.add_0_r|].
  rewrite IH, app_assoc. do 2 f_equal. lia.
Qed.

Lemma totalSize_app ws ws' : totalSize (ws ++ ws') = totalSize ws + totalSize ws'.
Proof. induction ws as [|p ws IH]; simpl; lia. Qed.

Lemma workSize_pos' t : 0 < workSize t.
Proof. unfold workSize. apply workSize_pos. Qed.

Lemma totalSize_pos ws : 0 <= totalSize ws.
Proof. induction ws as [|p ws IH]; simpl; [done|]. pose proof (workSize_pos' p.1). lia. Qed.

Lemma itemsOf_bound c off ws : Forall (fun x => off <= wi_offset x < off + totalSize ws) (itemsOf c off ws).
Proof.
  revert off. induction ws as [|[t w] ws IH]; intros off; simpl; [constructor|]. pose proof (workSize_pos' t).
  pose proof (totalSize_pos ws). apply Forall_app. split.
  - destruct (_ && _); [|constructor]. constructor; [simpl; lia|constructor].
  - eapply Forall_impl; [apply IH|]. simpl. intros x Hx. lia.
Qed.

(** The offsets of a channel's works increase. *)
Lemma itemsOf_sorted c off ws : Sorted Z.lt (map wi_offset (itemsOf c off ws)).
Proof.
  apply StronglySorted_Sorted. revert off. induction ws as [|[t w] ws IH]; intros off; simpl; [constructor|].
  destruct (_ && _); simpl; [|apply IH]. constructor; [apply IH|].
  pose proof (itemsOf_bound c (off + workSize t) ws) as HF. pose proof (workSize_pos' t).
  apply Forall_map. eapply Forall_impl; [exact HF|]. simpl. intros x Hx. lia.
Qed.

(** A work of a collective adds at most one batch to its channel. *)
Lemma addWork_coll arch ep chan w :
  wi_type w <> ncclDevWorkTypeP2p ->
  exists chan' d, 0 <= d <= 1 /\ forall n, addWork arch ep (chan, n) w = Some (chan', n + d).
Proof.
  intros Ht. unfold addWork, ncclAddWorkBatchToPlan. cbn [fst snd]. rewrite bool_decide_eq_false_2 by done. cbn [andb].
  set (x := orb _ _). eexists _, (if x then 1 else 0). split; [destruct x; lia|]. intros n. done.
Qed.

Lemma addWorks_snoc arch ep st ws w :
  addWorks arch ep st (ws ++ [w]) = match addWorks arch ep st ws with Some st => addWork arch ep st w | None => None end.
Proof.
  revert st. induction ws as [|x ws IH]; intros st; simpl; [by destruct (addWork _ _ st w)|].
  destruct (addWork _ _ st x) as [st'|]; [apply IH|done].
Qed.

(** What the loop over the channels changes. *)
Lemma addChannels_ok comm t opAt cs plan :
  tc_workType t <> ncclDevWorkTypeP2p -> NoDup cs -> length (cp_channels plan) = MAXCHANNELS ->
  Forall (fun c => (c < MAXCHANNELS)%nat /\ opAt (Z.of_nat c) <> None) cs ->
  exists plan', addChannels comm t opAt cs plan = Some plan' /\
    length (cp_channels plan') = MAXCHANNELS /\ cp_workBytes plan' = cp_workBytes plan /\
    cp_channelMask plan' = cp_channelMask plan /\ cp_works plan' = cp_works plan /\
    cp_nWorkBatches plan <= cp_nWorkBatches plan' <= cp_nWorkBatches plan + Z.of_nat (length cs) /\
    forall c chan, cp_channels plan !! c = Some chan ->
      exists chan', cp_channels plan' !! c = Some chan' /\
        if bool_decide (c ∈ cs)
        then forall n, exists d, addWork (sc_cudaArch comm) (sc_epochEnable comm) (chan, n)
               (collItem t (cwrap u32 (cp_workBytes plan))) = Some (chan', n + d)
        else chan' = chan.
Proof.
  intros Ht HN. revert plan. induction HN as [|c cs Hc HN IH]; intros plan Hlen HF; cbn [addChannels].
  { exists plan. split_and!; try done; [simpl; lia..|]. intros c chan E. exists chan. split; [done|].
    rewrite bool_decide_eq_false_2; [done|]. by apply not_elem_of_nil. }
  apply Forall_cons_1 in HF as [[Hc64 Hop] HF]. destruct (opAt (Z.of_nat c)) as [op|]; [|done]. cbn [mbind option_bind].
  destruct (lookup_lt_is_Some_2 (cp_channels plan) c ltac:(lia)) as [chan Echan]. rewrite Echan. cbn [mbind option_bind].
  destruct (addWork_coll (sc_cudaArch comm) (sc_epochEnable comm) chan (collItem t (cwrap u32 (cp_workBytes plan))) Ht)
    as (chan1 & d & Hd & E1). rewrite E1. cbn [mbind option_bind].
  match goal with |- context [addChannels comm t opAt cs ?p] =>
    destruct (IH p) as (plan' & E & L & W1 & W2 & W3 & W4 & W5); [cbn [cp_channels]; by rewrite length_insert|exact HF|]
  end.
  exists plan'. split; [exact E|]. cbn [cp_channels cp_workBytes cp_channelMask cp_works cp_nWorkBatches] in *.
  split_and!; [done|done|done|done|lia|cbn [length]; lia|]. intros c' chan' E'.
  destruct (decide (c' = c)) as [->|Hne].
  - destruct (W5 c chan1) as (chan2 & E2 & H2); [apply list_lookup_insert_eq; lia|]. exists chan2. split; [done|].
    rewrite bool_decide_eq_false_2 in H2 by done. rewrite bool_decide_eq_true_2 by (by left). subst chan2.
    intros n. exists d. rewrite Echan in E'. injection E' as <-. apply E1.
  - destruct (W5 c' chan') as (chan2 & E2 & H2); [by rewrite list_lookup_insert_ne|]. exists chan2. split; [done|].
    rewrite (bool_decide_ext _ (c' ∈ cs)); [done|]. rewrite elem_of_cons. split; [intros [?|?]; done|by right].
Qed.

(** A work covers its task: with its share in every channel of its range, the
    first to the last, within the channels of its kind. *)
Definition workGood (comm : schedComm) (t : collTask) (w : devWork) : Prop :=
  match w with
  | cbdWork d =>
      tc_isCollnet t = false /\ cbd_ok d /\ channelHi d < nMaxChannels comm (kindOf t) /\
      cbdCount (ncclCollCbdPart d (channelLo d) (ti_protocol (tc_info t)) (tc_eltSize t)) = tc_count t /\
      (forall c, channelLo d <= c <= channelHi d ->
         0 < partCount (ncclCollCbdPart d c (ti_protocol (tc_info t)) (tc_eltSize t)))
  | collnetWork lo hi count _ => tc_isCollnet t = true /\ lo = 0 /\ hi = tc_nMaxChannels t - 1 /\ count = tc_count t
  end.

(** What finishPlan and the kernels rely on. *)
Record planOk (comm : schedComm) (budget : ncclKernelPlanBudget) (plan : collPlan) : Prop := {
  pk_length : length (cp_channels plan) = MAXCHANNELS;
  pk_bytes : cp_workBytes plan = totalSize (cp_works plan);
  pk_offsets : totalSize (cp_works plan) < 2 ^ 32;
  pk_works : Forall (fun p => workGood comm p.1 p.2 /\ 0 <= workLo p.2 <= workHi p.2 /\ workHi p.2 < 64) (cp_works plan);
  pk_channels : forall c, (c < MAXCHANNELS)%nat -> exists chan n, cp_channels plan !! c = Some chan /\
    addWorks (sc_cudaArch comm) (sc_epochEnable comm) (emptyChannel, 0) (itemsOf c 0 (cp_works plan)) = Some (chan, n);
  pk_mask : 0 <= cp_channelMask plan < 2 ^ 64 /\
    forall c : nat, (c < MAXCHANNELS)%nat -> Z.testbit (cp_channelMask plan) (Z.of_nat c) = true <-> itemsOf c 0 (cp_works plan) <> [];
  pk_budget : cp_works plan = [] \/ ncclTestBudget budget (cp_nWorkBatches plan) (cp_workBytes plan) = true }.

Definition freshPlan : collPlan := {|
  cp_channels := replicate MAXCHANNELS emptyChannel; cp_nWorkBatches := 0; cp_workBytes := 0; cp_channelMask := 0;
  cp_collOpCount := 0; cp_threadPerBlock := 0; cp_cgaClusterSize := 0; cp_kernel := None; cp_kernelSpecialized := false;
  cp_works := []; cp_proxyOps := [] |}.

Lemma freshPlan_ok comm budget : planOk comm budget freshPlan.
Proof.
  constructor; try done; [|split; [done|]|by left].
  - intros c Hc. exists emptyChannel, 0. split; [by apply lookup_replicate_2|done].
  - intros c _. cbn. by rewrite Z.bits_0.
Qed.

(** The bits of a range of channels, also when it ends at the last bit. *)
Lemma range_mask lo hi :
  0 <= lo <= hi -> hi < 64 ->
  let m := cwrap u64 (cwrap u64 (Z.shiftl 2 hi) - cwrap u64 (Z.shiftl 1 lo)) in
  0 <= m < 2 ^ 64 /\ forall c, 0 <= c -> Z.testbit m c = (lo <=? c) && (c <=? hi).
Proof.
  intros Hl Hh. cbn zeta. assert (forall z, cwrap u64 z = z mod 2 ^ 64) as Ec by done. rewrite !Ec, <- Zminus_mod.
  rewrite !Z.shiftl_mul_pow2 by lia. replace (2 * 2 ^ hi - 1 * 2 ^ lo) with (Z.shiftl (Z.ones (hi - lo + 1)) lo).
  2:{ rewrite Z.shiftl_mul_pow2, Z.ones_equiv, Z.pow_add_r by lia.
      assert (2 ^ hi = 2 ^ lo * 2 ^ (hi - lo)) as -> by (rewrite <- Z.pow_add_r by lia; f_equal; lia). unfold Z.pred. ring. }
  set (m := Z.shiftl _ lo).
  assert (0 <= m < 2 ^ 64) as Hm.
  { unfold m. rewrite Z.shiftl_mul_pow2, Z.ones_equiv by lia.
    assert (0 < 2 ^ (hi - lo + 1)) by (apply Z.pow_pos_nonneg; lia). assert (0 < 2 ^ lo) by (apply Z.pow_pos_nonneg; lia).
    split; [nia|]. assert (2 ^ (hi - lo + 1) * 2 ^ lo <= 2 ^ 64); [|nia].
    rewrite <- Z.pow_add_r by lia. apply Z.pow_le_mono_r; lia. }
  rewrite Z.mod_small by done. split; [done|]. intros c Hc. unfold m.
  destruct (Z.leb_spec lo c); cbn [andb].
  - rewrite Z.shiftl_spec by lia. destruct (Z.leb_spec c hi).
    + apply Z.ones_spec_low. lia.
    + apply Z.ones_spec_high. lia.
  - apply Z.shiftl_spec_low. lia.
Qed.

Lemma budget_bytes budget n b :
  inArgsBytes budget < 2 ^ 32 -> outArgsBytes budget < 2 ^ 32 -> 0 <= n -> ncclTestBudget budget n b = true -> b < 2 ^ 32.
Proof.
  unfold ncclTestBudget. intros Hi Ho Hn [H%Z.leb_le|[_ H%Z.leb_le]%andb_true_iff]%orb_true_iff; lia.
Qed.

Lemma budget_mono budget n n' b : n' <= n -> ncclTestBudget budget n b = true -> ncclTestBudget budget n' b = true.
Proof.
  unfold ncclTestBudget. intros Hn. rewrite !orb_true_iff, !andb_true_iff, !Z.leb_le. lia.
Qed.

Lemma channelRange_elem lo hi c : 0 <= lo -> c ∈ channelRange lo hi <-> lo <= Z.of_nat c <= hi.
Proof. intros. unfold channelRange. rewrite elem_of_seq. lia. Qed.

Definition budgetOk (budget : ncclKernelPlanBudget) : Prop := inArgsBytes budget < 2 ^ 32 /\ outArgsBytes budget < 2 ^ 32.

(** Adding a work to the channels of its range keeps the plan. *)
Lemma finishTask_ok comm budget t w opAt plan n :
  budgetOk budget -> planOk comm budget plan -> 0 <= cp_nWorkBatches plan -> workGood comm t w ->
  0 <= workLo w <= workHi w -> workHi w < 64 -> n = workHi w - workLo w + 1 -> tc_workType t <> ncclDevWorkTypeP2p ->
  ncclTestBudget budget (cp_nWorkBatches plan + n) (cp_workBytes plan + workSize t) = true ->
  (forall c, workLo w <= c <= workHi w -> opAt c <> None) ->
  exists plan', addChannels comm t opAt (channelRange (workLo w) (workHi w)) plan = Some plan' /\
    planOk comm budget (finishTask comm t w plan') /\ 0 <= cp_nWorkBatches plan' /\ cp_works plan' = cp_works plan.
Proof.
  intros [Hbi Hbo] P Hnb Hw Hr H64 -> Ht Hb Hop. pose proof (workSize_pos' t) as Hsz. pose proof (totalSize_pos (cp_works plan)).
  destruct (addChannels_ok comm t opAt (channelRange (workLo w) (workHi w)) plan Ht) as (plan' & E & L & E1 & E2 & E3 & E4 & E5).
  { apply NoDup_seq. }
  { apply P. }
  { apply Forall_forall. intros c Hc%channelRange_elem; [|lia]. unfold MAXCHANNELS. split; [lia|]. by apply Hop. }
  assert (length (channelRange (workLo w) (workHi w)) = Z.to_nat (workHi w - workLo w + 1)) as El by apply length_seq.
  pose proof (budget_bytes _ (cp_nWorkBatches plan + (workHi w - workLo w + 1)) _ Hbi Hbo ltac:(lia) Hb) as Hb32. rewrite (pk_bytes _ _ _ P) in Hb32.
  exists plan'. split; [done|]. split; [|split; [lia|done]].
  assert (forall c, itemsOf c 0 (cp_works plan' ++ [(t, w)]) = itemsOf c 0 (cp_works plan) ++
    if (workLo w <=? Z.of_nat c) && (Z.of_nat c <=? workHi w) then [collItem t (cwrap u32 (cp_workBytes plan))] else []) as Ei.
  { intros c. rewrite itemsOf_app, E3, Z.add_0_l, (pk_bytes _ _ _ P). simpl. rewrite app_nil_r.
    rewrite cwrap_fits; [done|done|]. fits_lia. }
  assert (wrap64 (cp_workBytes plan' + workSize t) = totalSize (cp_works plan' ++ [(t, w)])) as Eb.
  { rewrite totalSize_app, E1, E3, (pk_bytes _ _ _ P). simpl. rewrite wrap64_fits; lia. }
  destruct (range_mask (workLo w) (workHi w) Hr H64) as [Hm1 Hm2].
  constructor; cbn [finishTask cp_channels cp_workBytes cp_works cp_channelMask cp_nWorkBatches].
  - done.
  - exact Eb.
  - rewrite totalSize_app, E3. simpl. lia.
  - rewrite E3. apply Forall_app. split; [apply P|]. by constructor.
  - intros c Hc. destruct (pk_channels _ _ _ P c Hc) as (chan & m & Echan & Eadd).
    destruct (E5 c chan Echan) as (chan' & Echan' & Hchan'). rewrite Ei.
    rewrite (bool_decide_ext _ (workLo w <= Z.of_nat c <= workHi w)) in Hchan' by (apply channelRange_elem; lia).
    destruct (Z.leb_spec (workLo w) (Z.of_nat c)), (Z.leb_spec (Z.of_nat c) (workHi w)); cbn [andb];
      [rewrite bool_decide_eq_true_2 in Hchan' by lia|rewrite bool_decide_eq_false_2 in Hchan' by lia; rewrite app_nil_r; subst; by exists chan, m..].
    destruct (Hchan' m) as [d Ed]. exists chan', (m + d). split; [done|]. by rewrite addWorks_snoc, Eadd.
  - rewrite E2. destruct (pk_mask _ _ _ P) as [Hm Hmask]. split.
    + apply lor_lt; lia.
    + intros c Hc. rewrite Ei, Z.lor_spec, orb_true_iff, Hmask, Hm2 by (done || lia).
      destruct (_ && _); [|rewrite app_nil_r; intuition congruence].
      split; [intros _ [_ [=]]%app_eq_nil|by right].
  - right. rewrite Eb, totalSize_app, E3. simpl. rewrite Z.add_0_r, <- (pk_bytes _ _ _ P). eapply budget_mono; [|exact Hb]. lia.
Qed.

(** A task the scheduler can be given: its channels are those of the communicator,
    and neither the buffers nor the tuner plugin make a chunk smaller than a grain,
    at which [calcCollChunking] would divide by zero. *)
Definition taskReady (comm : schedComm) (t : collTask) : Prop :=
  taskOk (ci_nRanks (sc_info comm)) t /\ capOk comm t /\ (tc_workType t = ncclDevWorkTypeColl \/ tc_workType t = ncclDevWorkTypeCollReg) /\
  0 <= tc_devFuncId t < 2 ^ 11 /\
  (chunkable (sc_info comm) (tc_info t) 64 /\ forall nChannels nBytes, tunerOk (tc_info t) (sc_tuner comm (tc_info t) nChannels nBytes)) /\
  forall c, tc_netHandles t c = true -> hasRingAlgo (ti_func (tc_info t)) = true.

Lemma collType t : tc_workType t = ncclDevWorkTypeColl \/ tc_workType t = ncclDevWorkTypeCollReg -> tc_workType t <> ncclDevWorkTypeP2p.
Proof. intros [->| ->]; done. Qed.

Lemma capChannels_ready comm t : taskReady comm t -> taskReady comm (capChannels t).
Proof. done. Qed.

Lemma shareChunking_ok comm t needed count :
  taskReady comm t -> exists r, shareChunking comm t needed count = Some r /\ (forall x, r = inr x -> needed = true -> x <> None).
Proof.
  intros (_ & _ & _ & _ & Hb & _). unfold shareChunking. destruct needed; [|by eexists].
  destruct (calcCollChunking_returns (sc_info comm) (tc_info t) (sc_tuner comm (tc_info t) 1 (globalBytes comm t count)) 64 1 (globalBytes comm t count)
    (proj1 Hb) (proj2 Hb _ _) ltac:(lia))
    as (r & E). unfold chunking. cbn zeta. rewrite E. cbn [mbind option_bind]. eexists. split; [done|].
  intros x Ex _. destruct r as [e|[[chunk d] op]]; [done|]. injection Ex as <-. done.
Qed.

(** The descriptor of a task split as [splitOk] says. *)
Lemma cbdWorkOf_ok comm t s ch lo mid hi :
  0 <= ch -> nMaxChannels comm (kindOf t) <= 64 -> splitOk (nMaxChannels comm (kindOf t)) ch t s ->
  let w := cbdWorkOf t s lo mid hi in
  (tc_isCollnet t = false -> workGood comm t (cbdWork w)) /\ 0 <= channelLo w <= channelHi w /\ channelHi w < 64 /\
  cs_nChannels s = channelHi w - channelLo w + 1 /\
  (channelLo w < channelHi w -> sh_hi (cs_counts s) <> 0) /\ (channelLo w + 1 < channelHi w -> sh_nMid (cs_counts s) <> 0).
Proof.
  intros Hch Hmax ((E1 & H2 & H3 & H4 & H5 & H6 & H7 & H8) & Hmid & En). cbn zeta.
  set (counts := cs_counts s) in *. set (h := if sh_hi counts =? 0 then 0 else 1) in *.
  assert (0 <= h <= 1 /\ (h = 0 <-> sh_hi counts = 0)) as [Hh Hh'] by (unfold h; destruct (Z.eqb_spec (sh_hi counts) 0); lia).
  assert (channelLo (cbdWorkOf t s lo mid hi) = ch) as Elo.
  { cbn [cbdWorkOf channelLo]. fold counts. rewrite E1. apply Z.mod_small. lia. }
  assert (channelHi (cbdWorkOf t s lo mid hi) = ch + sh_nMid counts + h) as Ehi.
  { cbn [cbdWorkOf channelHi]. fold counts. rewrite E1, En, Z.mod_small; lia. }
  rewrite Elo, Ehi. split; [intros Hcoll|split_and!; lia].
  unfold workGood, cbd_ok. rewrite Elo, Ehi. cbn [cbdWorkOf countLo countMid countHi]. fold counts.
  assert (0 <= sh_mid counts) by (destruct (Z.eq_dec (sh_nMid counts) 0) as [E|E]; [rewrite (Hmid E)|specialize (H7 E)]; lia).
  assert (ch = ch + sh_nMid counts + h -> sh_mid counts = 0 /\ sh_hi counts = 0) by (intros; split; [apply Hmid|apply Hh']; lia).
  split; [done|]. split; [split_and!; lia|]. split; [lia|]. split.
  - unfold ncclCollCbdPart. rewrite Elo, Ehi, Z.eqb_refl. cbn [cbdCount cbdWorkOf countLo countMid countHi]. fold counts.
    assert (h = 1 \/ h = 0 /\ sh_nMid counts = 0 /\ sh_mid counts = 0) as [->|(-> & E0 & E0')] by (destruct (Z.eq_dec h 0); intuition lia); nia.
  - intros c Hc. unfold ncclCollCbdPart. rewrite Elo, Ehi.
    destruct (Z.eqb_spec c ch); [done|]. destruct (Z.eqb_spec c (ch + sh_nMid counts + h)); cbn [partCount cbdWorkOf countMid countHi]; fold counts.
    + assert (sh_hi counts <> 0); [|lia]. intros E. specialize (H6 E). lia.
    + apply H7. lia.
Qed.

Lemma budget_full budget n k b :
  k <= 64 -> ncclTestBudget budget (n + k) b = false -> ncclTestBudget budget (n + 64) b = false.
Proof.
  intros Hk E. apply not_true_is_false. intros E'. apply not_true_iff_false in E. apply E.
  eapply budget_mono; [|exact E']. lia.
Qed.

Lemma splitOk_channels nMax ch t s : 0 <= ch -> nMax <= 64 -> splitOk nMax ch t s -> cs_nChannels s <= 64.
Proof. intros H0 H64 ((E1 & H2 & H3 & H4 & H5 & H6 & H7 & H8) & _ & ->). lia. Qed.

(** What is kept by one task: the plan, the channel to start at, and the works of
    the tasks before. *)
Definition kept (comm : schedComm) (budget : ncclKernelPlanBudget) (t : collTask) (st : chanState) (plan : collPlan)
    (w : devWork) (st' : chanState) (plan' : collPlan) : Prop :=
  planOk comm budget (finishTask comm t w plan') /\ 0 <= cp_nWorkBatches plan' /\ cp_works plan' = cp_works plan /\
  kindPrev st' = kindPrev st /\ stOk (nMaxChannels comm (kindOf t)) st'.

Lemma cbdProxyOp_some comm t s w opCount lo mid hi c :
  taskReady comm t -> channelLo w <= c <= channelHi w -> lo <> None ->
  (channelLo w < channelHi w -> hi <> None) -> (channelLo w + 1 < channelHi w -> mid <> None) ->
  cbdProxyOp t s w opCount lo mid hi c <> None.
Proof.
  intros (_ & _ & _ & _ & _ & Hh) Hc Hlo Hhi Hmid. unfold cbdProxyOp.
  assert (forall (o : option (Z * proxyOp)) (f : bool -> proxyOp -> planProxyOp), o <> None ->
    match o with None => None | Some (_, op) =>
      let registered := po_reg op && bool_decide (ti_algorithm (tc_info t) = NCCL_ALGO_RING) && tc_netHandles t c in
      if registered && negb (hasRingAlgo (ti_func (tc_info t))) then None else Some (f registered op) end <> None) as H.
  { intros [[x op]|] f Ho; [|done]. cbn zeta. destruct (tc_netHandles t c) eqn:En; [rewrite (Hh c En)|]; rewrite ?andb_false_r; done. }
  destruct (Z.eqb_spec c (channelLo w)); [by apply (H lo (fun r op => Build_planProxyOp _ _ _ _ _ r op))|].
  destruct (Z.eqb_spec c (channelHi w)).
  - apply (H hi (fun r op => Build_planProxyOp _ _ _ _ _ r op)), Hhi. lia.
  - apply (H mid (fun r op => Build_planProxyOp _ _ _ _ _ r op)), Hmid. lia.
Qed.

Lemma schedCbd_ok comm budget t st plan :
  tc_isCollnet t = false -> budgetOk budget -> taskReady comm t -> stOk (nMaxChannels comm (kindOf t)) st -> planOk comm budget plan ->
  0 <= cp_nWorkBatches plan ->
  exists res, schedCbd comm budget t st plan = Some res /\
    (res = inr None -> ncclTestBudget budget (cp_nWorkBatches plan + 64) (cp_workBytes plan + workSize t) = false) /\
    forall w st' plan', res = inr (Some (w, st', plan')) -> kept comm budget t st plan w st' plan'.
Proof.
  intros Hcoll Hb Ht Hst P Hn. pose proof Ht as (Htask & (_ & _ & _ & Hmax) & Htype%collType & _). unfold schedCbd.
  destruct (splitTask_ok _ (nMaxChannels comm (kindOf t)) t st Htask ltac:(lia) Hst) as (s & -> & Hs). cbn [mbind option_bind].
  destruct (ncclTestBudget budget (cp_nWorkBatches plan + cs_nChannels s) _) eqn:Ebudget; cbn [negb].
  2:{ eexists. split; [done|]. split; [|done]. intros _. apply (budget_full _ _ _ _ (splitOk_channels _ _ _ _ (proj1 (proj1 (proj2 Hst))) (proj2 Hmax) Hs) Ebudget). }
  destruct (shareChunking_ok comm t (negb (sh_lo (cs_counts s) =? 0)) (sh_lo (cs_counts s)) Ht) as (rlo & -> & Hlo).
  cbn [mbind option_bind]. destruct rlo as [e|lo]; [by eexists|].
  destruct (shareChunking_ok comm t (negb (sh_hi (cs_counts s) =? 0)) (sh_hi (cs_counts s)) Ht) as (rhi & -> & Hhi).
  cbn [mbind option_bind]. destruct rhi as [e|hi]; [by eexists|].
  destruct (shareChunking_ok comm t (negb (sh_nMid (cs_counts s) =? 0)) (sh_mid (cs_counts s)) Ht) as (rmid & -> & Hmid).
  cbn [mbind option_bind]. destruct rmid as [e|mid]; [by eexists|].
  destruct (cbdWorkOf_ok comm t s (channelId st) lo mid hi (proj1 (proj1 (proj2 Hst))) (proj2 Hmax) Hs) as (Hw & Hr & H64 & En & Hhi' & Hmid').
  specialize (Hw Hcoll).
  set (w := cbdWorkOf t s lo mid hi) in *.
  destruct (finishTask_ok comm budget t (cbdWork w) (cbdProxyOp t s w (2 * cp_collOpCount plan) lo mid hi) plan (cs_nChannels s))
    as (plan' & Eadd & P' & Hn' & Ew); try done.
  { intros c Hc. apply (cbdProxyOp_some comm); try done.
    - apply (Hlo lo eq_refl). destruct Hs as ((_ & _ & H & _) & _). by rewrite (proj2 (Z.eqb_neq _ 0)) by lia.
    - intros H. apply (Hhi hi eq_refl). rewrite (proj2 (Z.eqb_neq _ 0)); [done|by apply Hhi'].
    - intros H. apply (Hmid mid eq_refl). rewrite (proj2 (Z.eqb_neq _ 0)); [done|by apply Hmid']. }
  cbn [workLo workHi] in Eadd. rewrite Eadd. cbn [mbind option_bind]. eexists. split; [done|]. split; [done|].
  intros w' st' plan'' E. injection E as <- <- <-. split_and!; try done.
  - unfold advance. by repeat case_match.
  - eapply advance_ok; done.
Qed.

Lemma schedCollnet_ok comm budget t st plan :
  tc_isCollnet t = true -> budgetOk budget -> taskReady comm t -> 1 <= tc_nMaxChannels t <= 64 -> planOk comm budget plan -> 0 <= cp_nWorkBatches plan ->
  stOk (nMaxChannels comm (kindOf t)) st ->
  exists res, schedCollnet comm budget t plan = Some res /\
    (res = inr None -> ncclTestBudget budget (cp_nWorkBatches plan + 64) (cp_workBytes plan + workSize t) = false) /\
    forall w plan', res = inr (Some (w, plan')) -> kept comm budget t st plan w st plan'.
Proof.
  intros Hcoll Hb Ht Hmax P Hn Hst. pose proof Ht as (_ & _ & Htype%collType & _ & Hbuf & _). unfold schedCollnet.
  destruct (ncclTestBudget budget _ _) eqn:Ebudget; cbn [negb].
  2:{ eexists. split; [done|]. split; [|done]. intros _. apply (budget_full _ _ _ _ (proj2 Hmax) Ebudget). }
  unfold chunking. cbn zeta.
  match goal with |- context [calcCollChunking _ _ ?tu ?n ?b] =>
    destruct (calcCollChunking_returns (sc_info comm) (tc_info t) tu 64 n b (proj1 Hbuf) (proj2 Hbuf _ _) Hmax) as (r & ->) end.
  cbn [mbind option_bind]. destruct r as [e|[[chunk d] op]]; [by eexists|].
  rewrite (Z.mod_small (tc_nMaxChannels t - 1)) by lia. set (w := collnetWork _ _ _ _). set (opAt := fun c : Z => Some _).
  destruct (finishTask_ok comm budget t w opAt plan (tc_nMaxChannels t)) as (plan' & Eadd & P' & Hn' & Ew); try done; try (simpl; lia).
  cbn [workLo workHi w] in *. rewrite Eadd. cbn [mbind option_bind]. eexists. split; [done|]. split; [done|].
  intros w' plan'' E. injection E as <- <-. by split_and!.
Qed.

(** ** The loop over the tasks *)

Definition stInv (comm : schedComm) (st : chanState) : Prop :=
  kindPrev st = -1 \/ stOk (nMaxChannels comm (kindPrev st)) st.

Lemma kindOf_bound t : 0 <= kindOf t.
Proof. unfold kindOf. destruct (tc_isCollnet t), (tc_isNvls t); simpl; lia. Qed.

(** One task of the plan; without room for it nothing changes. *)
Lemma schedTask_ok comm budget e t st plan :
  budgetOk budget -> estOk comm (2 ^ 61 - 1) e -> 1 <= nChannelsOf e (kindOf t) -> taskReady comm t ->
  1 <= tc_nMaxChannels t <= 64 -> stInv comm st -> planOk comm budget plan -> 0 <= cp_nWorkBatches plan ->
  forall nPlan rest,
  let F := schedTasks comm budget e in
  (exists err, F (S nPlan) st plan (t :: rest) = Some (inl err)) \/
  F (S nPlan) st plan (t :: rest) = Some (inr (plan, t :: rest)) /\
    ncclTestBudget budget (cp_nWorkBatches plan + 64) (cp_workBytes plan + workSize t) = false \/
  exists w st' plan', F (S nPlan) st plan (t :: rest) = F nPlan st' plan' rest /\ stInv comm st' /\
    planOk comm budget plan' /\ 0 <= cp_nWorkBatches plan' /\ cp_works plan' = cp_works plan ++ [(t, w)].
Proof.
  intros Hb He Hk Ht Hmax Hst P Hn nPlan rest. cbn zeta. cbn [schedTasks].
  destruct (enterKind_ok comm e t st He Hk (proj1 (proj2 Ht))) as (st1 & -> & Ek & Hst1).
  { intros E. destruct Hst as [Hst|Hst]; [pose proof (kindOf_bound t); lia|by rewrite <- E]. }
  cbn [mbind option_bind].
  assert (forall w st' plan', kept comm budget t st1 plan w st' plan' -> stInv comm st' /\
    planOk comm budget (finishTask comm t w plan') /\ 0 <= cp_nWorkBatches (finishTask comm t w plan') /\
    cp_works (finishTask comm t w plan') = cp_works plan ++ [(t, w)]) as Hkept.
  { intros w st' plan' (H1 & H2 & H3 & H4 & H5). cbn [finishTask cp_works cp_nWorkBatches]. rewrite H3.
    split_and!; try done. right. by rewrite H4, Ek. }
  destruct (tc_isCollnet t) eqn:Ecoll.
  - destruct (schedCollnet_ok comm budget t st1 plan Ecoll Hb Ht Hmax P Hn Hst1) as (res & -> & Hfull & Hres). cbn [mbind option_bind].
    destruct res as [err|[[w plan']|]].
    + left. by eexists.
    + right; right. exists w, st1, (finishTask comm t w plan'). split; [done|]. by apply Hkept, Hres.
    + right; left. split; [done|by apply Hfull].
  - destruct (schedCbd_ok comm budget t st1 plan Ecoll Hb Ht Hst1 P Hn) as (res & -> & Hfull & Hres). cbn [mbind option_bind].
    destruct res as [err|[[[w st'] plan']|]].
    + left. by eexists.
    + right; right. exists w, st', (finishTask comm t w plan'). split; [done|]. by apply Hkept, Hres.
    + right; left. split; [done|by apply Hfull].
Qed.

Lemma schedTasks_ok comm budget e rest fit :
  budgetOk budget -> estOk comm (2 ^ 61 - 1) e ->
  Forall (fun t => taskReady comm t /\ 1 <= nChannelsOf e (kindOf t) /\ 1 <= tc_nMaxChannels t <= 64) fit ->
  forall st plan, stInv comm st -> planOk comm budget plan -> 0 <= cp_nWorkBatches plan ->
  exists res, schedTasks comm budget e (length fit) st plan (fit ++ rest) = Some res /\
    forall plan' left, res = inr (plan', left) -> planOk comm budget plan' /\
      exists fit1 fit2, fit = fit1 ++ fit2 /\ map fst (cp_works plan') = map fst (cp_works plan) ++ fit1 /\ left = fit2 ++ rest /\
        (fit <> [] -> fit1 = [] -> exists t, In t fit /\
           ncclTestBudget budget (cp_nWorkBatches plan + 64) (cp_workBytes plan + workSize t) = false).
Proof.
  intros Hb He. induction 1 as [|t fit (Ht & Hk & Hmax) HF IH]; intros st plan Hst P Hn; cbn [length app].
  - exists (inr (plan, rest)). split; [by destruct rest|]. intros plan' left [= <- <-]. split; [done|].
    exists [], []. rewrite !app_nil_r. split_and!; [done..|]. by intros [].
  - destruct (schedTask_ok comm budget e t st plan Hb He Hk Ht Hmax Hst P Hn (length fit) (fit ++ rest))
      as [[err E]|[[E Hfull]|(w & st' & plan' & E & Hst' & P' & Hn' & Ew)]].
    + exists (inl err). by split.
    + eexists. split; [exact E|]. intros plan' left [= <- <-]. split; [done|]. exists [], (t :: fit).
      rewrite !app_nil_r. split_and!; try done. intros _ _. exists t. split; [by left|done].
    + destruct (IH st' plan' Hst' P' Hn') as (res & E' & Hres). exists res. split; [by rewrite E|].
      intros plan'' left Er. destruct (Hres plan'' left Er) as (P'' & fit1 & fit2 & -> & E1 & -> & _). split; [done|].
      exists (t :: fit1), fit2. split_and!; try done. rewrite E1, Ew, map_app, <- app_assoc. done.
Qed.

Lemma estimateColls_mono comm budget tasks workBytes e :
  (nPlanColls e <= nPlanColls (estimateColls comm budget workBytes e tasks).2)%nat.
Proof.
  revert workBytes e. induction tasks as [|t tasks IH]; intros workBytes e; cbn [estimateColls]; [done|].
  destruct (negb _); [done|]. destruct (tc_aggIsolate t && _); [done|]. destruct (tc_aggIsolate (capChannels t)); [simpl; lia|].
  specialize (IH (workBytes + workSize (capChannels t)) (addEstimate comm (capChannels t) e)).
  destruct (estimateColls _ _ _ _ tasks). cbn [snd addEstimate nPlanColls] in *. lia.
Qed.

Lemma schedule_invariant comm budget tasks :
  budgetOk budget -> Forall (taskReady comm) tasks -> totalTraffic tasks < 2 ^ 61 ->
  exists res, scheduleCollTasksToPlan comm budget freshPlan tasks = Some res /\
    forall plan left, res = inr (plan, left) -> planOk comm budget plan /\
      exists fit1 fit2 rest, tasks = fit1 ++ fit2 ++ rest /\ map fst (cp_works plan) = map capChannels fit1 /\
        left = map capChannels fit2 ++ rest /\
        (fit1 = [] -> fit2 <> [] -> exists t, In t tasks /\ ncclTestBudget budget 64 (workSize t) = false) /\
        (fit1 ++ fit2 = [] -> forall t ts, tasks = t :: ts -> ncclTestBudget budget 0 (workSize t) = false).
Proof.
  intros Hb HF Htot. unfold scheduleCollTasksToPlan.
  destruct (estimateColls comm budget 0 noEstimate tasks) as [tasks' e'] eqn:E.
  assert (forall t ts, tasks = t :: ts -> ncclTestBudget budget 0 (workSize t) = true -> (0 < nPlanColls e')%nat) as Hfirst.
  { intros t ts -> Hbud. cbn [estimateColls noEstimate nPlanColls] in E. change (divUp i32 (Z.of_nat 0) 4) with 0 in E.
    rewrite Z.add_0_l, Hbud, andb_false_r in E. cbn [negb] in E.
    change (tc_aggIsolate (capChannels t)) with (tc_aggIsolate t) in E. destruct (tc_aggIsolate t); [injection E as <- <-; simpl; lia|].
    destruct (estimateColls comm budget _ _ ts) as [ts' e''] eqn:E2. injection E as <- <-.
    pose proof (estimateColls_mono comm budget ts (0 + workSize (capChannels t)) (addEstimate comm (capChannels t) noEstimate)) as Hm.
    rewrite E2 in Hm. exact Hm. }
  destruct (estimateColls_ok comm budget tasks 0 noEstimate) with (workBytes := 0) (tasks' := tasks') (e' := e')
    as (fit & rest & -> & -> & En & He & HF2 & _); try done.
  { eapply Forall_impl; [exact HF|]. intros t Ht. apply Ht. }
  cbn [noEstimate nPlanColls] in En. rewrite En. apply Forall_app in HF as [HFfit HFrest]. cbn [Nat.add].
  rewrite <- (length_map capChannels).
  destruct (schedTasks_ok comm budget e' rest (map capChannels fit) Hb He) with
    (st := {| kindPrev := -1; trafficPerChannel := 0; channelId := 0; currentTraffic := 0 |}) (plan := freshPlan)
    as (res & Es & Hres); [|by left|apply freshPlan_ok|done|].
  { apply Forall_map, Forall_forall. intros t Ht. rewrite Forall_forall in HFfit, HF2. split_and!.
    - by apply capChannels_ready, HFfit.
    - by apply (HF2 t).
    - eapply capChannels_ok. by apply HFfit.
    - eapply capChannels_ok. by apply HFfit. }
  exists res. split; [done|]. intros plan left Er. destruct (Hres plan left Er) as (P & f1 & f2 & Ef & E1 & -> & Hfull). split; [done|].
  apply map_eq_app in Ef as (fit1 & fit2 & -> & <- & <-). exists fit1, fit2, rest. rewrite <- app_assoc. split_and!; try done.
  - intros -> H2. destruct (Hfull) as (t & Ht & Hbud); [by destruct fit2|done|]. cbn [app] in Ht.
    apply in_map_iff in Ht as (t' & <- & Ht'). exists t'. split; [cbn; apply in_or_app; by left|done].
  - intros Enil t ts Et. apply not_true_is_false. intros Hbud. specialize (Hfirst t ts). rewrite <- app_assoc in Hfirst.
    specialize (Hfirst Et Hbud). rewrite En, Enil in Hfirst. simpl in Hfirst. lia.
Qed.

Lemma itemsOf_ok comm budget plan c :
  planOk comm budget plan -> Forall (fun t => 0 <= tc_devFuncId t < 2 ^ 11) (map fst (cp_works plan)) ->
  Forall workOk (itemsOf c 0 (cp_works plan)).
Proof.
  intros P HF. pose proof (itemsOf_bound c 0 (cp_works plan)) as Hb. pose proof (pk_offsets _ _ _ P) as Ho.
  assert (Forall (fun x => 0 <= wi_funcId x < 2 ^ 11) (itemsOf c 0 (cp_works plan))) as Hf.
  { clear Hb Ho P. revert HF. generalize (cp_works plan). intros ws.
    enough (forall off, Forall (fun t => 0 <= tc_devFuncId t < 2 ^ 11) (map fst ws) ->
      Forall (fun x => 0 <= wi_funcId x < 2 ^ 11) (itemsOf c off ws)) by auto.
    induction ws as [|[t w] ws IH]; intros off HF; cbn [itemsOf map] in *; [constructor|].
    apply Forall_cons_1 in HF as [Ht HF]. apply Forall_app. split; [destruct (_ && _); [constructor; [exact Ht|]|]; constructor|by apply IH]. }
  rewrite Forall_forall in *. intros x Hx. specialize (Hb x Hx). specialize (Hf x Hx). split; lia.
Qed.


(** C29: Scheduling makes progress.  With room for one batch on every channel and
    the largest work of the queue, a plan made from a queue that is not empty
    takes at least one task (or fails with the error of the chunking): the loop
    that makes plans until the queue is empty ends. *)
Theorem scheduleCollTasksToPlan_progress comm budget tasks plan left :
  budgetOk budget -> Forall (taskReady comm) tasks -> totalTraffic tasks < 2 ^ 61 -> tasks <> [] ->
  (forall t, In t tasks -> ncclTestBudget budget 64 (workSize t) = true) ->
  scheduleCollTasksToPlan comm budget freshPlan tasks = Some (inr (plan, left)) ->
  cp_works plan <> [] /\ (length left < length tasks)%nat.
Proof.
  intros Hb HF Htot Hne Hroom Hs. destruct (schedule_invariant comm budget tasks Hb HF Htot) as (res & E & Hres).
  rewrite Hs in E. injection E as <-. destruct (Hres plan left eq_refl) as (P & fit1 & fit2 & rest & -> & E1 & -> & Hfull & Hfirst).
  assert (fit1 <> []) as H1.
  { intros ->. destruct fit2 as [|t fit2].
    - destruct rest as [|t rest]; [done|]. specialize (Hfirst eq_refl t rest eq_refl).
      rewrite (budget_mono budget 64 0 (workSize t)) in Hfirst; [done|lia|]. apply Hroom. by left.
    - destruct Hfull as (t' & Ht' & Hbud); [done|done|]. by rewrite Hroom in Hbud. }
  split; [intros Ew; rewrite Ew in E1; by destruct fit1|].
  rewrite !length_app, length_map. destruct fit1; [done|]. simpl. lia.
Qed.

Lemma cbdProxyOp_eq t s w opCount lo mid hi c op :
  cbdProxyOp t s w opCount lo mid hi c = Some op -> pr_channelId op = c /\
  (pr_loopOffset op, pr_channelSize op) =
    if c =? channelLo w then (0, wrap64 (countLo w * tc_eltSize t))
    else if c =? channelHi w
    then (wrap64 (wrap64 (countLo w + wrap64 (sh_nMid (cs_counts s) * countMid w)) * tc_eltSize t), wrap64 (countHi w * tc_eltSize t))
    else (wrap64 (wrap64 (countLo w + wrap64 ((c - channelLo w - 1) * countMid w)) * tc_eltSize t), wrap64 (countMid w * tc_eltSize t)).
Proof.
  unfold cbdProxyOp.
  destruct (c =? channelLo w); [destruct lo as [[x o]|]|destruct (c =? channelHi w); [destruct hi as [[x o]|]|destruct mid as [[x o]|]]]; try done;
    (destruct (_ && negb _); [done|]); intros [= <-]; done.
Qed.

(** The proxy and the kernel agree on the parts.  For a task split by the
    scheduler, the offset and size in bytes the proxy operation of a channel
    carries are those of the part the kernel computes for that channel with
    [ncclCollCbdPart] from the descriptor. *)
Lemma cbdProxyOp_part nRanks comm t s st lo mid hi opCount c op :
  taskOk nRanks t -> nMaxChannels comm (kindOf t) <= 64 -> stOk (nMaxChannels comm (kindOf t)) st ->
  splitTask nRanks (nMaxChannels comm (kindOf t)) t st = Some s ->
  let w := cbdWorkOf t s lo mid hi in
  channelLo w <= c <= channelHi w -> cbdProxyOp t s w opCount lo mid hi c = Some op ->
  let part := ncclCollCbdPart w c (ti_protocol (tc_info t)) (tc_eltSize t) in
  pr_channelId op = c /\ pr_loopOffset op = partOffset part * tc_eltSize t /\ pr_channelSize op = partCount part * tc_eltSize t.
Proof.
  intros Htask Hmax Hst Es. cbn zeta. destruct (splitTask_ok _ (nMaxChannels comm (kindOf t)) t st Htask ltac:(lia) Hst) as (s' & Es' & Hs).
  rewrite Es in Es'. injection Es' as <-.
  destruct (cbdWorkOf_ok comm t s (channelId st) lo mid hi (proj1 (proj1 (proj2 Hst))) Hmax Hs) as (_ & Hr & _ & En & Hhi & Hmid).
  destruct Hs as ((E1 & H2 & H3 & H4 & H5 & H6 & H7 & H8) & Hmid0 & En').
  destruct Htask as (Hn & Hc & He & Htr). pose proof (trafficPerByteOf_ok nRanks t Hn) as Hk.
  assert (0 < tc_eltSize t <= 8) as Hes by (destruct He as [<-|[<-|[<-|[<-|[]]]]]; lia).
  assert (tc_count t * tc_eltSize t < 2 ^ 45) by nia.
  assert (forall x, 0 <= x <= tc_count t -> wrap64 x = x) as W1 by (intros x Hx; apply wrap64_fits; nia).
  assert (forall x, 0 <= x <= tc_count t -> wrap64 (x * tc_eltSize t) = x * tc_eltSize t) as W by (intros x Hx; apply wrap64_fits; nia).
  set (w := cbdWorkOf t s lo mid hi) in *. intros Hcr Eop.
  assert (countLo w = sh_lo (cs_counts s) /\ countMid w = sh_mid (cs_counts s) /\ countHi w = sh_hi (cs_counts s)) as (Elo & Emid & Ehi) by done.
  assert (0 <= sh_mid (cs_counts s) * sh_nMid (cs_counts s)) by (destruct (Z.eq_dec (sh_nMid (cs_counts s)) 0) as [->|E0]; [lia|specialize (H7 E0); nia]).
  clearbody w. apply cbdProxyOp_eq in Eop as [-> Eop]. unfold ncclCollCbdPart. rewrite Elo, Emid, Ehi in *.
  destruct (Z.eqb_spec c (channelLo w)) as [->|Hne]; [|destruct (Z.eqb_spec c (channelHi w)) as [->|Hne2]];
    cbn [partOffset partCount]; injection Eop as -> ->; (split; [done|]).
  - split; [lia|]. apply W. lia.
  - assert (channelHi w - channelLo w - 1 = sh_nMid (cs_counts s)) as -> by (destruct (Z.eqb_spec (sh_hi (cs_counts s)) 0); lia).
    rewrite (W1 (sh_nMid (cs_counts s) * sh_mid (cs_counts s))) by lia.
    rewrite (W1 (sh_lo (cs_counts s) + sh_nMid (cs_counts s) * sh_mid (cs_counts s))) by lia.
    split; apply W; lia.
  - assert (0 < sh_mid (cs_counts s)) by (apply H7, Hmid; lia).
    assert (0 <= (c - channelLo w - 1) * sh_mid (cs_counts s) <= sh_nMid (cs_counts s) * sh_mid (cs_counts s)).
    { destruct (Z.eqb_spec (sh_hi (cs_counts s)) 0); nia. }
    rewrite (W1 ((c - channelLo w - 1) * sh_mid (cs_counts s))) by lia.
    rewrite (W1 (sh_lo (cs_counts s) + (c - channelLo w - 1) * sh_mid (cs_counts s))) by lia.
    split; apply W; [lia|]. specialize (Hmid ltac:(lia)). nia.
Qed.

(** ** An example *)

(** Two collectives of four-byte elements, on four channels. *)
Definition exampleComm : schedComm := {|
  sc_info := chunkComm; sc_nChannels := 4; sc_nvlsChannels := 0; sc_cudaArch := 900; sc_epochEnable := true;
  sc_tuner := fun _ _ _ => None; sc_specialized := fun _ => false |}.

Definition exampleTask (count : Z) : collTask := {|
  tc_info := chunkTask; tc_isCollnet := false; tc_isNvls := false; tc_count := count; tc_eltSize := 4;
  tc_trafficBytes := count * 8; tc_nMaxChannels := 2; tc_minCTAs := 1; tc_maxCTAs := 32; tc_nvlsCTAs := None;
  tc_aggIsolate := false; tc_devFuncId := 7; tc_nWarps := 16; tc_cgaClusterSize := 0; tc_netHandles := fun _ => false;
  tc_workType := ncclDevWorkTypeColl;
  tc_devWork := {| channelLo := 0; channelHi := 0; root := 0; sendbuff := 0; recvbuff := 0; countLo := 0; countMid := 0;
                   countHi := 0; chunkGrainsLo := 0; chunkGrainsMid := 0; chunkGrainsHi := 0 |} |}.

Definition exampleTasks : list collTask := [exampleTask 100000; exampleTask 3000].

Definition exampleBudget : ncclKernelPlanBudget := {| inArgsBytes := 4000; outArgsBytes := 100000 |}.

Lemma exampleTask_ready count : 0 < count < 2 ^ 30 -> taskReady exampleComm (exampleTask count).
Proof.
  intros Hc. assert (taskOk 3 (exampleTask count)).
  { unfold taskOk. change (trafficPerByteOf 3 (exampleTask count)) with 2. cbn [exampleTask tc_count tc_eltSize].
    split_and!; try lia. right; right; by left. }
  assert (capOk exampleComm (exampleTask count)) by (unfold capOk; cbn; split_and!; lia || done).
  split_and!; try done. by left.
Qed.

Lemma exampleTasks_ready : Forall (taskReady exampleComm) exampleTasks.
Proof. repeat (constructor; [apply exampleTask_ready; lia|]). constructor. Qed.

Definition examplePlan : collPlan :=
  match scheduleCollTasksToPlan exampleComm exampleBudget freshPlan exampleTasks with
  | Some (inr (plan, _)) => plan
  | _ => freshPlan
  end.


Lemma scheduleCollTasksToPlan_progress_witness : cp_works examplePlan <> [] /\ (0 < 2)%nat.
Proof.
  apply (scheduleCollTasksToPlan_progress exampleComm exampleBudget exampleTasks examplePlan []).
  - by split.
  - apply exampleTasks_ready.
  - reflexivity.
  - done.
  - intros t [<-|[<-|[]]]; reflexivity.
  - vm_compute; reflexivity.
Defined.

Definition exampleState : chanState := {| kindPrev := 0; trafficPerChannel := 400016; channelId := 1; currentTraffic := 65536 |}.

Definition exampleOp : proxyOp := {|
  po_pattern := ncclPatternRing; po_nsteps := 1; po_sliceSteps := 1; po_chunkSteps := 1; po_chunkSize := 2048;
  po_sliceSize := 2048; po_loopSize := 1; po_loopOffset := 0; po_nbytes := 1; po_reg := false; po_nPeers := 1 |}.

Lemma cbdProxyOp_part_example :
  exists s op, splitTask 3 4 (exampleTask 100000) exampleState = Some s /\
    cbdProxyOp (exampleTask 100000) s (cbdWorkOf (exampleTask 100000) s None None (Some (2048, exampleOp))) 0
      None None (Some (2048, exampleOp)) 3 = Some op /\
    pr_channelId op = 3 /\ pr_loopOffset op = 393216.
Proof.
  eexists _, _. split; [vm_compute; reflexivity|]. split; [vm_compute; reflexivity|]. split; [|reflexivity].
  refine (proj1 (cbdProxyOp_part 3 exampleComm (exampleTask 100000) _ exampleState None None (Some (2048, exampleOp)) 0 3 _ _ _ _ _ _ _)).
  - exact (proj1 (exampleTask_ready 100000 ltac:(lia))).
  - by vm_compute.
  - by vm_compute.
  - vm_compute. reflexivity.
  - by vm_compute.
  - vm_compute. reflexivity.
Defined.
