(* ===== verification/CollPlan.v ===== *)
(** * Collectives from the queue to the kernel

    The composition of the parts between a queue of collectives and the blocks of
    the kernel: [scheduleCollTasksToPlan] (Sched) distributes the elements over
    the channels, [finishPlan] (PlanLayout) lays out the batches, and
    [ncclKernelMain] (KernelMain) loads and runs them. *)

From stdpp Require Import base numbers list sets.
From Stdlib Require Import ZArith Lia Sorted.
From S2P Require Import Prelude Bitops Bits DevWork Chunking Batches KernelMain PlanLayout Sched.

Local Open Scope Z_scope.

Definition planChan (plan : collPlan) (c : nat) : Channel := default emptyChannel (cp_channels plan !! c).

(** The offset of work [j] in the queue of works. *)
Definition workOffset (ws : list (collTask * devWork)) (j : nat) : Z := totalSize (take j ws).

Lemma itemsOf_at c ws j t w :
  ws !! j = Some (t, w) -> workLo w <= Z.of_nat c <= workHi w -> In (collItem t (workOffset ws j)) (itemsOf c 0 ws).
Proof.
  intros Hj Hc. rewrite <- (take_drop_middle ws j _ Hj) at 2. rewrite itemsOf_app. apply in_or_app. right.
  cbn [itemsOf]. rewrite (proj2 (Z.leb_le _ _)), (proj2 (Z.leb_le _ _)) by lia. by left.
Qed.

(** Every work has its own offset. *)
Lemma workOffset_inj ws j j' :
  (j < length ws)%nat -> (j' < length ws)%nat -> workOffset ws j = workOffset ws j' -> j = j'.
Proof.
  assert (forall j j', (j < j')%nat -> (j' <= length ws)%nat -> workOffset ws j < workOffset ws j') as H.
  { clear j j'. intros j j' Hlt Hlen. destruct (lookup_lt_is_Some_2 ws j ltac:(lia)) as [p Hp]. unfold workOffset.
    rewrite <- (take_drop j (take j' ws)), take_take, Nat.min_l, totalSize_app by lia.
    rewrite (drop_S _ p) by (by rewrite lookup_take_lt). cbn [totalSize foldr fold_right].
    pose proof (workSize_pos' p.1). pose proof (totalSize_pos (drop (S j) (take j' ws))) as Ht. unfold totalSize in Ht. lia. }
  intros Hj Hj' E. destruct (Nat.lt_trichotomy j j') as [L|[L|L]]; [|done|]; apply H in L; lia.
Qed.

(** A channel is that of one block. *)
Lemma blockChannel_inj mask b b' c : blockChannel mask b = Some c -> blockChannel mask b' = Some c -> b = b'.
Proof.
  unfold blockChannel. intros [_ [_ E%Z.eqb_eq]%andb_true_iff]%find_some [_ [_ E'%Z.eqb_eq]%andb_true_iff]%find_some. lia.
Qed.

Lemma itemsOf_types comm c off ws :
  Forall (taskReady comm) (map fst ws) -> forall x, In x (itemsOf c off ws) -> wi_type x <> ncclDevWorkTypeBcast.
Proof.
  revert off. induction ws as [|[t w] ws IH]; intros off HF x; [done|]. cbn [map] in HF. apply Forall_cons_1 in HF as [Ht HF].
  cbn [itemsOf]. intros [Hx|Hx]%in_app_or; [|by eapply IH]. destruct (_ && _); [|done].
  destruct Hx as [<-|[]]. destruct Ht as (_ & _ & [E|E] & _); cbn in *; rewrite E; done.
Qed.

(** The channels of the mask are those with works. *)
Lemma mask_channels comm budget plan c :
  planOk comm budget plan -> In c (bitsBelow 64 (cp_channelMask plan)) <-> (c < 64)%nat /\ itemsOf c 0 (cp_works plan) <> [].
Proof.
  intros P. rewrite bitsBelow_elem. destruct (pk_mask _ _ _ P) as [_ H]. split; intros [Hc Hb]; (split; [done|]); by apply (H c).
Qed.

Lemma mask_pos comm budget plan :
  planOk comm budget plan -> cp_works plan <> [] -> 0 < cp_channelMask plan < 2 ^ 64.
Proof.
  intros P Hne. pose proof (pk_works _ _ _ P) as HF. destruct (cp_works plan) as [|[t w] ws] eqn:E; [done|].
  apply Forall_cons_1 in HF as [(_ & H1 & H2) _]. cbn [snd] in *.
  destruct (pk_mask _ _ _ P) as [Hm Hbits]. split; [|lia]. destruct (Z.eq_dec (cp_channelMask plan) 0) as [E0|]; [|lia]. exfalso.
  pose proof (itemsOf_at (Z.to_nat (workLo w)) (cp_works plan) 0 t w ltac:(by rewrite E) ltac:(lia)) as Ho.
  specialize (Hbits (Z.to_nat (workLo w)) ltac:(unfold MAXCHANNELS; lia)). rewrite E0, Z.bits_0 in Hbits.
  destruct Hbits as [_ Hb]. discriminate Hb. intros En. rewrite En in Ho. done.
Qed.

(** C3: Every scheduled collective reaches the kernel.  When
    [scheduleCollTasksToPlan] makes a plan from a queue of well-formed collectives,
    the loops of [finishPlan] end; each block of the kernel (with 128 threads or
    more, and fewer than 2^14 batches, the width of a jump) finds its channel,
    terminates, and runs in order exactly the works the scheduler gave that channel,
    each loaded from its own offset, which no other work has, and run by its own
    device function.  A work has a block on each channel of its range that runs it.
    For a collective that is not on CollNet, each element is in the part of exactly
    one channel of the range, and exactly one block, which runs the work, has that
    channel.  A collective on CollNet has one work for all of its elements on all
    channels it may use. *)
Theorem collectives_reach_kernel {T} (src : Z -> T) comm budget tasks plan left tn fuel m :
  budgetOk budget -> Forall (taskReady comm) tasks -> totalTraffic tasks < 2 ^ 61 ->
  scheduleCollTasksToPlan comm budget freshPlan tasks = Some (inr (plan, left)) -> cp_works plan <> [] ->
  128 <= tn -> (forall c, (length (workBatchQueue (planChan plan c)) <= fuel)%nat) ->
  exists st, layBatches fuel (cp_channelMask plan) (initLayout (fun c => workBatchQueue (planChan plan (Z.to_nat c)))) = Some st /\
    (Z.of_nat (length (batchZero st)) < 2 ^ 14 ->
     let works := cp_works plan in
     let runs n c := blockChannel (cp_channelMask plan) (Z.of_nat n) = Some (Z.of_nat c) /\
       exists shs gs, ncclKernelMain src tn (Z.of_nat n) (batchZero st) m = Some shs /\
         concat gs = itemsOf c 0 works /\ Forall2 (groupLoaded src) shs gs in
     (forall n c, bitsBelow 64 (cp_channelMask plan) !! n = Some c -> runs n c) /\
     forall j t w, works !! j = Some (t, w) ->
       let item := collItem t (workOffset works j) in
       (forall j', (j' < length works)%nat -> workOffset works j' = workOffset works j -> j' = j) /\
       (forall c, workLo w <= Z.of_nat c <= workHi w -> exists n, runs n c /\ In item (itemsOf c 0 works)) /\
       if tc_isCollnet t then exists chunk, w = collnetWork 0 (tc_nMaxChannels t - 1) (tc_count t) chunk
       else exists d, w = cbdWork d /\ forall x, 0 <= x < tc_count t ->
         let inPart c := channelLo d <= Z.of_nat c <= channelHi d /\
           let part := ncclCollCbdPart d (Z.of_nat c) (ti_protocol (tc_info t)) (tc_eltSize t) in
           partOffset part <= x < partOffset part + partCount part in
         exists n c, runs n c /\ In item (itemsOf c 0 works) /\ inPart c /\
           forall n' c', runs n' c' -> inPart c' -> n' = n /\ c' = c).
Proof.
  intros Hb HF Htot Hs Hne Htn Hfuel. destruct (schedule_invariant comm budget tasks Hb HF Htot) as (res & E & Hres).
  rewrite Hs in E. injection E as <-. destruct (Hres plan left eq_refl) as (P & fit1 & fit2 & rest & -> & E1 & _).
  assert (Forall (taskReady comm) (map fst (cp_works plan))) as Hready.
  { rewrite E1. apply Forall_app in HF as [HF _]. apply Forall_map. eapply Forall_impl; [exact HF|]. by intros t. }
  pose proof (mask_channels comm budget plan) as Hmask.
  destruct (finishPlan_kernel src (sc_cudaArch comm) (sc_epochEnable comm) tn (cp_channelMask plan)
    (fun c => itemsOf c 0 (cp_works plan)) (planChan plan) fuel m) as (st & El & Hk).
  { by apply (mask_pos comm budget). }
  { intros c [Hc Hit]%Hmask; [|done]. destruct (pk_channels _ _ _ P c Hc) as (chan & k & Ec & Ea).
    split_and!; [done| |apply itemsOf_sorted|split; [lia|]| |apply Hfuel].
    - eapply itemsOf_ok; [exact P|]. eapply Forall_impl; [exact Hready|]. intros t Ht. apply Ht.
    - intros w Hw Ew. exfalso. by eapply itemsOf_types.
    - unfold planChan. by rewrite Ea, Ec. }
  exists st. split; [exact El|]. intros Hlen. specialize (Hk Hlen). cbn zeta. split; [exact Hk|]. intros j t w Hj.
  pose proof (pk_works _ _ _ P) as HW. rewrite Forall_lookup in HW. destruct (HW _ _ Hj) as (Hw & Hr & H64). cbn [fst snd] in *.
  match goal with |- _ /\ ?B /\ _ => assert B as Hblock end.
  { intros c Hc. pose proof (itemsOf_at c _ j t w Hj Hc) as Hin.
    assert (In c (bitsBelow 64 (cp_channelMask plan))) as Hcm.
    { apply Hmask; [done|]. split; [lia|]. intros En. by rewrite En in Hin. }
    apply list_elem_of_In, list_elem_of_lookup in Hcm as [n Hn]. exists n. split; [by apply Hk|done]. }
  split; [intros j' Hj' Eo; apply (workOffset_inj (cp_works plan)); [exact Hj'|apply (lookup_lt_Some _ _ _ Hj)|exact Eo]|]. split; [done|].
  destruct w as [d|lo hi count chunk]; [destruct Hw as (-> & Hcbd & _ & Ecount & _)|destruct Hw as (-> & -> & -> & ->); by exists chunk].
  exists d. split; [done|]. intros x Hx. cbn [workLo workHi] in *.
  destruct (ncclCollCbdPart_partition d (ti_protocol (tc_info t)) (tc_eltSize t) x Hcbd) as [Hpart _]. rewrite Ecount in Hpart.
  destruct (Hpart Hx) as (c & Hc & Hp & Huniq). assert (c = Z.of_nat (Z.to_nat c)) as Ec by lia. rewrite Ec in Hc, Hp, Huniq.
  destruct (Hblock (Z.to_nat c) Hc) as (n & Hrun & Hin). exists n, (Z.to_nat c). do 3 (split; [done|]).
  intros n' c' [Hb' _] [Hc' Hp']. specialize (Huniq _ Hc' Hp'). assert (c' = Z.to_nat c) as -> by lia.
  split; [|done]. apply Nat2Z.inj. by eapply blockChannel_inj; [|apply Hrun].
Qed.

Lemma collectives_reach_kernel_witness :
  exists st, layBatches 2 (cp_channelMask examplePlan) (initLayout (fun c => workBatchQueue (planChan examplePlan (Z.to_nat c)))) = Some st /\
    length (batchZero st) = 4%nat /\
    exists n c, blockChannel (cp_channelMask examplePlan) (Z.of_nat n) = Some (Z.of_nat c) /\
      In (collItem (capChannels (exampleTask 3000)) (workOffset (cp_works examplePlan) 1)) (itemsOf c 0 (cp_works examplePlan)).
Proof.
  destruct (collectives_reach_kernel (fun o => o) exampleComm exampleBudget exampleTasks examplePlan [] 512 2 (fun _ => None))
    as (st & E & H).
  - by split.
  - apply exampleTasks_ready.
  - reflexivity.
  - vm_compute; reflexivity.
  - vm_compute; discriminate.
  - lia.
  - intros c. do 64 (destruct c as [|c]; [vm_compute; lia|]). vm_compute. lia.
  - exists st. split; [exact E|]. assert (length (batchZero st) = 4%nat) as Hl.
    { apply (f_equal (option_map (fun st => length (batchZero st)))) in E. cbn [option_map] in E.
      apply Some_inj. rewrite <- E. vm_compute. reflexivity. }
    split; [exact Hl|]. destruct H as [_ H]; [rewrite Hl; reflexivity|].
    assert (exists w, cp_works examplePlan !! 1%nat = Some (capChannels (exampleTask 3000), w)) as [w Hw].
    { eexists. vm_compute. reflexivity. }
    destruct (H 1%nat _ _ Hw) as (_ & _ & Hel). cbn [capChannels exampleTask tc_isCollnet setMaxChannels] in Hel.
    destruct Hel as (d & _ & Hel). destruct (Hel 0 ltac:(split; reflexivity || discriminate)) as (n & c & Hrun & Hin & _).
    exists n, c. exact (conj (proj1 Hrun) Hin).
Defined.
