(* ===== verification/P2pSched.v ===== *)
(** * The schedule of point-to-point transfers (src/src/init.cc)

    Transfers between ranks run in rounds.  [ncclP2pSchedule] computes, on every
    rank by itself, whom the rank sends to and receives from in each round.  The
    ranks of a machine are split into groups of one size; a round is a distance
    between groups and a distance within a group, and the distances between groups
    are taken in the order of the triangular numbers.  The theorems compare the
    schedules all ranks of a cluster compute. *)

From stdpp Require Import base numbers list sets.
From Stdlib Require Import ZArith Lia.
From S2P Require Import Prelude Bitops DevWork.

Local Open Scope Z_scope.

(** ** The code *)

(** The loop of Euclid's algorithm; [None] if the fuel is used up. *)
Fixpoint gcdLoop (fuel : nat) (a b : Z) : option Z :=
  if b =? 0 then Some a
  else match fuel with
       | O => None
       | S fuel => gcdLoop fuel b (Z.rem a b)
       end.

(* src/src/include/utils.h:102-110 gcd *)
Definition gcd (a b : Z) : option Z := gcdLoop (S (Z.to_nat (Z.abs b))) a b.

(* src/src/include/comm.h:98-101 ncclNodeRanks *)
Record ncclNodeRanks := {
  localRanks : Z;
  localRankToRank : list Z }.

(** The fields of the communicator the schedule reads. *)
Record schedComm := {
  sc_nRanks : Z;
  sc_maxLocalRanks : Z;
  sc_node : Z;
  sc_localRank : Z;
  sc_nodeRanks : list ncclNodeRanks }.

Definition sc_nNodes (comm : schedComm) : Z := Z.of_nat (length (sc_nodeRanks comm)).

(** The size of the groups: it divides the number of ranks of every node. *)
(* src/src/init.cc:1115-1120 ncclP2pSchedule *)
Fixpoint groupSizeLoop (nodes : list ncclNodeRanks) (groupSize : Z) : option Z :=
  match nodes with
  | [] => Some groupSize
  | n :: nodes =>
      groupSize ← (if negb (Z.rem (localRanks n) groupSize =? 0) || (localRanks n <? groupSize)
                   then gcd groupSize (localRanks n) else Some groupSize);
      groupSizeLoop nodes groupSize
  end.

(** The node of each group and its first local rank, and the number of groups on
    the nodes before [node]. *)
(* src/src/init.cc:1138-1160 ncclP2pSchedule *)
Fixpoint fillGroups (groupSize node n : Z) (nodes : list ncclNodeRanks) (groups : list (Z * Z)) (group : Z)
    : ncclResult_t + list (Z * Z) * Z :=
  match nodes with
  | [] => inr (groups, group)
  | nr :: nodes =>
      if negb (0 =? Z.rem (localRanks nr) groupSize) then inl ncclInternalError
      else
        let nGroupsInNode := Z.quot (localRanks nr) groupSize in
        fillGroups groupSize node (n + 1) nodes
          (groups ++ ((fun g : nat => (n, Z.of_nat g * groupSize)) <$> seq 0 (Z.to_nat nGroupsInNode)))
          (if n <? node then group + nGroupsInNode else group)
  end.

Definition rankOf (nodes : list ncclNodeRanks) (node local : Z) : option Z :=
  nr ← nodes !! Z.to_nat node; localRankToRank nr !! Z.to_nat local.

(** The rounds of one distance between groups; [None] for an access out of range. *)
(* src/src/init.cc:1174-1191 ncclP2pSchedule *)
Definition groupRounds (nodes : list ncclNodeRanks) (groups : list (Z * Z)) (groupSize nGroups group local groupDelta : Z)
    : option (list (Z * Z)) :=
  let sendGroup := wrap32 (group + groupDelta) mod nGroups in
  let recvGroup := wrap32 (wrap32 (group - groupDelta) + nGroups) mod nGroups in
  '(sendNode, sendBase) ← groups !! Z.to_nat sendGroup;
  '(recvNode, recvBase) ← groups !! Z.to_nat recvGroup;
  mapM (fun d : nat =>
    let delta := Z.of_nat d in
    sendRank ← rankOf nodes sendNode (sendBase + Z.rem (local + delta) groupSize);
    recvRank ← rankOf nodes recvNode (recvBase + Z.rem (local - delta + groupSize) groupSize);
    Some (sendRank, recvRank)) (seq 0 (Z.to_nat groupSize)).

(* src/src/init.cc:1171-1194 ncclP2pSchedule *)
Fixpoint roundLoop (fuel : nat) (nodes : list ncclNodeRanks) (groups : list (Z * Z)) (groupSize nGroups nGroupsPow2 group local : Z)
    (groupRound groupDelta : Z) (sched : list (Z * Z)) : option (list (Z * Z)) :=
  match fuel with
  | O => None
  | S fuel =>
      sched ← (if groupDelta <? nGroups
               then r ← groupRounds nodes groups groupSize nGroups group local groupDelta; Some (sched ++ r)
               else Some sched);
      let groupRound := wrap32 (groupRound + 1) in
      let groupDelta := Z.land (wrap32 (groupDelta + groupRound)) (nGroupsPow2 - 1) in
      if groupRound =? nGroupsPow2 then Some sched
      else roundLoop fuel nodes groups groupSize nGroups nGroupsPow2 group local groupRound groupDelta sched
  end.

(** The result, the size of the groups and the schedule; [None] for an access out
    of range or a loop that does not end. *)
(* src/src/init.cc:1109-1207 ncclP2pSchedule *)
Definition ncclP2pSchedule (paramGroupSize : Z) (comm : schedComm) : option (ncclResult_t * Z * list (Z * Z)) :=
  groupSize ← groupSizeLoop (sc_nodeRanks comm) (if 1 <? sc_nNodes comm then paramGroupSize else sc_maxLocalRanks comm);
  let local := Z.rem (sc_localRank comm) groupSize in
  let group := Z.quot (sc_localRank comm) groupSize in
  let nGroups := Z.quot (sc_nRanks comm) groupSize in
  let nGroupsPow2 := pow2Up i32 nGroups in
  match fillGroups groupSize (sc_node comm) 0 (sc_nodeRanks comm) [] group with
  | inl e => Some (e, groupSize, [])
  | inr (groups, group) =>
      if negb (Z.of_nat (length groups) =? nGroups) then Some (ncclInternalError, groupSize, [])
      else
        sched ← roundLoop (Z.to_nat nGroupsPow2) (sc_nodeRanks comm) groups groupSize nGroups nGroupsPow2 group local 0 0 [];
        if negb (Z.of_nat (length sched) =? sc_nRanks comm) then Some (ncclInternalError, groupSize, sched)
        else Some (ncclSuccess, groupSize, sched)
  end.

(** ** Clusters *)

(** The ranks of the nodes, each by its local ranks. *)
Record cluster (nodes : list (list Z)) : Prop := {
  cl_nodes : nodes <> [];
  cl_full : Forall (fun n => n <> []) nodes;
  cl_nodup : NoDup (concat nodes);
  cl_size : Z.of_nat (length (concat nodes)) < 2 ^ 30 }.

(** The fields as the rank with local rank [j] on node [i] has them. *)
Definition viewOf (nodes : list (list Z)) (i j : nat) : schedComm := {|
  sc_nRanks := Z.of_nat (length (concat nodes));
  sc_maxLocalRanks := Z.of_nat (max_list (length <$> nodes));
  sc_node := Z.of_nat i;
  sc_localRank := Z.of_nat j;
  sc_nodeRanks := (fun n => {| localRanks := Z.of_nat (length n); localRankToRank := n |}) <$> nodes |}.

(** ** Arithmetic *)

Lemma gcdLoop_spec : forall fuel a b, 0 <= a -> 0 <= b -> (Z.to_nat b < fuel)%nat -> gcdLoop fuel a b = Some (Z.gcd a b).
Proof.
  induction fuel as [|fuel IH]; intros a b Ha Hb Hf; [lia|]. simpl.
  destruct (Z.eqb_spec b 0) as [->|Hne]; [by rewrite Z.gcd_0_r_nonneg|].
  pose proof (Z.rem_bound_pos a b Ha ltac:(lia)). rewrite IH by lia. f_equal.
  rewrite Z.rem_mod_nonneg by lia. rewrite Z.gcd_comm, Z.gcd_mod by lia. apply Z.gcd_comm.
Qed.

Lemma gcd_spec a b : 0 <= a -> 0 <= b -> gcd a b = Some (Z.gcd a b).
Proof. intros Ha Hb. apply gcdLoop_spec; lia. Qed.

Lemma groupSizeLoop_spec : forall nodes gs, 0 < gs -> Forall (fun n => 0 < localRanks n) nodes ->
  exists g, groupSizeLoop nodes gs = Some g /\ 0 < g /\ (g | gs) /\ Forall (fun n => (g | localRanks n)) nodes.
Proof.
  induction nodes as [|n nodes IH]; intros gs Hgs Hpos; simpl; [exists gs; split_and!; (done || apply Z.divide_refl || by constructor)|].
  apply Forall_cons in Hpos as [Hn Hpos].
  assert (exists g, (if negb (Z.rem (localRanks n) gs =? 0) || (localRanks n <? gs) then gcd gs (localRanks n) else Some gs) = Some g /\
            0 < g /\ (g | gs) /\ (g | localRanks n)) as (g & -> & Hg & Hgd & Hgn).
  { destruct (Z.eqb_spec (Z.rem (localRanks n) gs) 0) as [E|E]; [destruct (Z.ltb_spec (localRanks n) gs)|]; simpl; rewrite ?gcd_spec by lia.
    - eexists. split; [done|]. assert (Z.gcd gs (localRanks n) <> 0) by (intros [? _]%Z.gcd_eq_0; lia).
      pose proof (Z.gcd_nonneg gs (localRanks n)). split_and!; [lia|apply Z.gcd_divide_l|apply Z.gcd_divide_r].
    - exists gs. split_and!; [done|done|apply Z.divide_refl|]. rewrite Z.rem_mod_nonneg in E by lia. by apply Z.mod_divide; [lia|].
    - eexists. split; [done|]. assert (Z.gcd gs (localRanks n) <> 0) by (intros [? _]%Z.gcd_eq_0; lia).
      pose proof (Z.gcd_nonneg gs (localRanks n)). split_and!; [lia|apply Z.gcd_divide_l|apply Z.gcd_divide_r]. }
  simpl. destruct (IH g Hg Hpos) as (g' & -> & Hg' & Hd & Hall). exists g'. split_and!; [done|done| |].
  - by etrans.
  - constructor; [by etrans|done].
Qed.

(** The triangular numbers. *)
Definition tri (k : Z) : Z := k * (k + 1) / 2.

Lemma tri_double k : 2 * tri k = k * (k + 1).
Proof.
  unfold tri. assert ((2 | k * (k + 1))) as [q ->]; [|rewrite Z.div_mul; lia].
  destruct (Z.Even_or_Odd k) as [[h ->]|[h ->]]; [exists (h * (2 * h + 1))|exists ((2 * h + 1) * (h + 1))]; lia.
Qed.

Lemma tri_succ k : tri (k + 1) = tri k + (k + 1).
Proof. pose proof (tri_double k). pose proof (tri_double (k + 1)). nia. Qed.

(** An odd factor cancels under a power of two. *)
Lemma pow2_divides_odd n a b : 0 <= n -> Z.Odd b -> (2 ^ n | a * b) -> (2 ^ n | a).
Proof.
  intros Hn [h ->]. revert n Hn. apply (natlike_ind (fun n => (2 ^ n | a * (2 * h + 1)) -> (2 ^ n | a))); [intros _; apply Z.divide_1_l|].
  intros n Hn IH Hd. rewrite Z.pow_succ_r in * by done. assert (0 < 2 ^ n) by lia.
  destruct IH as [q ->]; [by etrans; [apply Z.divide_factor_r|]|]. destruct Hd as [c Hc].
  assert (q * (2 * h + 1) = c * 2) as Hq by nia. exists (c - q * h). nia.
Qed.

Lemma divide_bound d a : (d | a) -> - d < a < d -> a = 0.
Proof. intros [q ->] H. assert (q = 0) by nia. lia. Qed.

(** Below a power of two, the triangular numbers differ modulo it. *)
Lemma tri_inj m i j : 0 <= m -> 0 <= i < 2 ^ m -> 0 <= j < 2 ^ m -> tri i mod 2 ^ m = tri j mod 2 ^ m -> i = j.
Proof.
  intros Hm Hi Hj E. assert (0 < 2 ^ m) by lia. assert (2 ^ (m + 1) = 2 * 2 ^ m) as EP by (by rewrite Z.add_1_r, Z.pow_succ_r).
  assert ((2 ^ (m + 1) | (i - j) * (i + j + 1))) as Hd.
  { assert ((2 ^ m | tri i - tri j)) as [q Hq] by (apply Z.mod_divide; [lia|]; rewrite Zminus_mod, E, Z.sub_diag; by apply Z.mod_0_l; lia).
    exists q. rewrite EP. pose proof (tri_double i). pose proof (tri_double j). nia. }
  destruct (Z.Even_or_Odd (i - j)) as [[h Hh]|Hodd].
  - apply pow2_divides_odd in Hd; [|lia|exists (j + h); lia]. apply divide_bound in Hd; lia.
  - rewrite Z.mul_comm in Hd. apply pow2_divides_odd in Hd; [|lia|done]. apply divide_bound in Hd; lia.
Qed.

(** The distances between groups, in the order of the rounds. *)
Definition deltas (m nGroups : Z) : list Z := filter (fun d => d < nGroups) ((fun k => tri k mod 2 ^ m) <$> seqZ 0 (2 ^ m)).

(** They are the distances there are, each once. *)
Lemma deltas_perm m nGroups : 0 <= m -> 0 <= nGroups <= 2 ^ m -> deltas m nGroups ≡ₚ seqZ 0 nGroups.
Proof.
  intros Hm Hn. assert (0 < 2 ^ m) by lia. unfold deltas. set (D := _ <$> seqZ 0 (2 ^ m)).
  assert (NoDup D) as HD.
  { apply NoDup_fmap_2_strong; [|apply NoDup_seqZ]. intros i j Hi%elem_of_seqZ Hj%elem_of_seqZ. apply tri_inj; lia. }
  assert (D ≡ₚ seqZ 0 (2 ^ m)) as Hperm.
  { apply submseteq_length_Permutation; [|by unfold D; rewrite length_fmap].
    apply NoDup_submseteq; [done|]. intros x (k & -> & _)%list_elem_of_fmap. apply elem_of_seqZ. pose proof (Z.mod_pos_bound (tri k) (2 ^ m)). lia. }
  apply NoDup_Permutation; [by apply NoDup_filter|apply NoDup_seqZ|]. intros x.
  rewrite list_elem_of_filter, Hperm, !elem_of_seqZ. lia.
Qed.

(** ** The groups of a cluster *)

Definition ranksOf (n : list Z) : ncclNodeRanks := {| localRanks := Z.of_nat (length n); localRankToRank := n |}.

(** The groups in the order of the nodes. *)
Fixpoint groupsFrom (gs : nat) (n0 : Z) (nodes : list (list Z)) : list (Z * Z) :=
  match nodes with
  | [] => []
  | n :: nodes => ((fun g : nat => (n0, Z.of_nat g * Z.of_nat gs)) <$> seq 0 (length n / gs)) ++ groupsFrom gs (n0 + 1) nodes
  end.

Definition even (gs : nat) (nodes : list (list Z)) : Prop := Forall (fun n => exists k, length n = (k * gs)%nat) nodes.

Lemma fillGroups_eq gs node : (0 < gs)%nat -> forall nodes n0 acc group, even gs nodes ->
  fillGroups (Z.of_nat gs) node n0 (ranksOf <$> nodes) acc group =
    inr (acc ++ groupsFrom gs n0 nodes, group + Z.of_nat (length (concat (take (Z.to_nat (node - n0)) nodes)) / gs)).
Proof.
  intros Hgs. induction nodes as [|n nodes IH]; intros n0 acc group Hev; simpl.
  - rewrite app_nil_r, take_nil. simpl. rewrite Nat.Div0.div_0_l. do 2 f_equal. lia.
  - apply Forall_cons in Hev as [[k Hk] Hev]. rewrite Hk, Z.quot_div_nonneg, Z.rem_mod_nonneg by lia.
    replace (Z.of_nat (k * gs)) with (Z.of_nat k * Z.of_nat gs) by lia. rewrite Z.mod_mul, Z.div_mul by lia. simpl.
    rewrite IH by done. rewrite Nat2Z.id, Nat.div_mul, <- app_assoc by lia. do 2 f_equal.
    destruct (Z.ltb_spec n0 node) as [Hlt|Hge].
    + replace (Z.to_nat (node - n0)) with (S (Z.to_nat (node - (n0 + 1)))) by lia. simpl.
      rewrite length_app, Hk, Nat.div_add_l by lia. lia.
    + replace (Z.to_nat (node - n0)) with 0%nat by lia. replace (Z.to_nat (node - (n0 + 1))) with 0%nat by lia. done.
Qed.

Lemma groupsFrom_length gs nodes n0 : (0 < gs)%nat -> even gs nodes -> (length (groupsFrom gs n0 nodes) * gs = length (concat nodes))%nat.
Proof.
  intros Hgs. revert n0. induction nodes as [|n nodes IH]; intros n0 Hev; simpl; [done|]. apply Forall_cons in Hev as [[k Hk] Hev].
  rewrite !length_app, length_fmap, length_seq, Nat.mul_add_distr_r, IH by done. rewrite Hk, Nat.div_mul by lia. lia.
Qed.

(** Group [g] starts at place [g * gs] of the list of all ranks. *)
Lemma groupsFrom_lookup gs : (0 < gs)%nat -> forall nodes n0 g, even gs nodes -> (g * gs < length (concat nodes))%nat ->
  exists n b, groupsFrom gs n0 nodes !! g = Some (n0 + Z.of_nat n, Z.of_nat b) /\
    forall l, (l < gs)%nat -> exists nr, nodes !! n = Some nr /\ nr !! (b + l)%nat = concat nodes !! (g * gs + l)%nat.
Proof.
  intros Hgs. induction nodes as [|nr nodes IH]; intros n0 g Hev Hg; simpl in *; [lia|]. apply Forall_cons in Hev as [[k Hk] Hev].
  rewrite Hk, Nat.div_mul by lia. destruct (decide (g < k)%nat) as [Hlt|Hge].
  - exists 0%nat, (g * gs)%nat. split.
    + rewrite lookup_app_l by (by rewrite length_fmap, length_seq). rewrite list_lookup_fmap, lookup_seq_lt by done. simpl. f_equal. f_equal; lia.
    + intros l Hl. exists nr. split; [done|]. rewrite lookup_app_l; [done|]. nia.
  - rewrite length_app, Hk in Hg. destruct (IH (n0 + 1) (g - k)%nat Hev) as (n & b & Hg' & Hl); [nia|]. exists (S n), b. split.
    + rewrite lookup_app_r by (rewrite length_fmap, length_seq; lia). rewrite length_fmap, length_seq, Hg'. f_equal. f_equal. lia.
    + intros l Hl'. destruct (Hl l Hl') as (nr' & H1 & H2). exists nr'. split; [done|]. rewrite H2, lookup_app_r by nia. f_equal. nia.
Qed.

Lemma mapM_total {A B} (f : A -> option B) (g : A -> B) (l : list A) : (forall x, x ∈ l -> f x = Some (g x)) -> mapM f l = Some (g <$> l).
Proof. induction l as [|x l IH]; intros H; simpl; [done|]. rewrite H by set_solver. simpl. rewrite IH by set_solver. done. Qed.

(** ** Places *)

(** Groups of [G] ranks, [N] of them: the place a rank at place [p] sends to and
    the one it receives from, at a distance [d] between groups and [e] within. *)
Definition sendPlace (G N p d e : Z) : Z := (p / G + d) mod N * G + (p mod G + e) mod G.
Definition recvPlace (G N p d e : Z) : Z := (p / G - d) mod N * G + (p mod G - e) mod G.

Lemma place_split G q r : 0 < G -> 0 <= r < G -> (q * G + r) / G = q /\ (q * G + r) mod G = r.
Proof.
  intros HG Hr. split; [rewrite Z.div_add_l, Z.div_small by lia; lia|]. rewrite Z.add_comm, Z.mod_add by lia. by apply Z.mod_small.
Qed.

Lemma place_bound G N a b : 0 < G -> 0 < N -> 0 <= a mod N * G + b mod G < N * G.
Proof. intros HG HN. pose proof (Z.mod_pos_bound a N HN). pose proof (Z.mod_pos_bound b G HG). nia. Qed.

Lemma place_eq G N p : 0 < G -> 0 <= p < N * G -> (p / G) mod N * G + p mod G mod G = p.
Proof.
  intros HG Hp. rewrite Z.mod_mod by lia. rewrite (Z.mod_small (p / G)).
  - pose proof (Z.div_mod p G ltac:(lia)). lia.
  - split; [apply Z.div_pos; lia|apply Z.div_lt_upper_bound; lia].
Qed.

(** The rank a rank sends to receives from it, in the same round. *)
Lemma recv_send G N p d e : 0 < G -> 0 < N -> 0 <= p < N * G -> recvPlace G N (sendPlace G N p d e) d e = p.
Proof.
  intros HG HN Hp. unfold recvPlace, sendPlace. pose proof (Z.mod_pos_bound (p mod G + e) G HG).
  destruct (place_split G ((p / G + d) mod N) ((p mod G + e) mod G)) as [-> ->]; [lia|lia|].
  rewrite (Zminus_mod_idemp_l _ d), (Zminus_mod_idemp_l _ e), !Z.add_simpl_r. by apply place_eq.
Qed.

Lemma send_recv G N p d e : 0 < G -> 0 < N -> 0 <= p < N * G -> sendPlace G N (recvPlace G N p d e) d e = p.
Proof.
  intros HG HN Hp. unfold recvPlace, sendPlace. pose proof (Z.mod_pos_bound (p mod G - e) G HG).
  destruct (place_split G ((p / G - d) mod N) ((p mod G - e) mod G)) as [-> ->]; [lia|lia|].
  rewrite (Zplus_mod_idemp_l _ d), (Zplus_mod_idemp_l _ e), !Z.sub_add. by apply place_eq.
Qed.

Lemma mod_close a b N : 0 < N -> - N < a - b < N -> a mod N = b mod N -> a = b.
Proof.
  intros HN Hab E. assert ((N | a - b)) as Hd by (apply Z.mod_divide; [lia|]; rewrite Zminus_mod, E, Z.sub_diag; by apply Z.mod_0_l; lia).
  apply divide_bound in Hd; lia.
Qed.

Lemma place_inj G N a b a' b' : 0 < G -> 0 < N ->
  - N < a - a' < N -> - G < b - b' < G -> a mod N * G + b mod G = a' mod N * G + b' mod G -> a = a' /\ b = b'.
Proof.
  intros HG HN Ha Hb E. pose proof (Z.mod_pos_bound b G HG) as H1. pose proof (Z.mod_pos_bound b' G HG) as H2.
  destruct (place_split G (a mod N) _ HG H1) as [A B]. destruct (place_split G (a' mod N) _ HG H2) as [A' B'].
  rewrite E in A, B. rewrite A in A'. rewrite B in B'. split; [by apply (mod_close _ _ N)|by apply (mod_close _ _ G)].
Qed.

(** ** The schedule of a place *)

(** The rounds: a distance between groups and one within a group. *)
Definition rounds (G m N : Z) : list (Z * Z) := d ← deltas m N; (fun e : nat => (d, Z.of_nat e)) <$> seq 0 (Z.to_nat G).

Lemma rounds_elem G m N d e : 0 <= m -> 0 <= N <= 2 ^ m -> (d, e) ∈ rounds G m N <-> 0 <= d < N /\ 0 <= e < G.
Proof.
  intros Hm HN. unfold rounds. rewrite list_elem_of_bind. setoid_rewrite list_elem_of_fmap. split.
  - intros (d' & (e' & [= -> ->] & He%elem_of_seq) & Hd). rewrite deltas_perm, elem_of_seqZ in Hd by done. lia.
  - intros [Hd He]. exists d. split; [exists (Z.to_nat e); split; [f_equal; lia|apply elem_of_seq; lia]|].
    rewrite deltas_perm, elem_of_seqZ by done. lia.
Qed.

Lemma rounds_NoDup G m N : 0 <= m -> 0 <= N <= 2 ^ m -> NoDup (rounds G m N).
Proof.
  intros Hm HN. apply NoDup_bind.
  - intros d1 d2 [d e] _ _ (e1 & [= -> ->] & _)%list_elem_of_fmap (e2 & [= -> _] & _)%list_elem_of_fmap. done.
  - intros d _. apply NoDup_fmap_2; [intros ?? [= ?]; lia|apply NoDup_seq].
  - rewrite deltas_perm by done. apply NoDup_seqZ.
Qed.

Lemma rounds_length G m N : 0 <= m -> 0 <= N <= 2 ^ m -> 0 <= G -> Z.of_nat (length (rounds G m N)) = N * G.
Proof.
  intros Hm HN HG. unfold rounds. rewrite (deltas_perm m N Hm HN).
  assert (forall l : list Z, length (d ← l; (fun e : nat => (d, Z.of_nat e)) <$> seq 0 (Z.to_nat G)) = (length l * Z.to_nat G)%nat) as ->.
  { induction l as [|d l IH]; [done|]. csimpl. rewrite length_app, length_fmap, length_seq, IH. lia. }
  rewrite length_seqZ. lia.
Qed.

Lemma places_perm G m N (f : Z -> Z -> Z) : 0 <= m -> 0 < N <= 2 ^ m -> 0 < G ->
  (forall d e d' e', 0 <= d < N -> 0 <= d' < N -> 0 <= e < G -> 0 <= e' < G -> f d e = f d' e' -> d = d' /\ e = e') ->
  (forall d e, 0 <= f d e < N * G) ->
  ((fun r : Z * Z => f r.1 r.2) <$> rounds G m N) ≡ₚ seqZ 0 (N * G).
Proof.
  intros Hm HN HG Hinj Hb. apply submseteq_length_Permutation.
  - apply NoDup_submseteq.
    + apply NoDup_fmap_2_strong; [|by apply rounds_NoDup; lia]. intros [d e] [d' e'] H1 H2 E.
      apply rounds_elem in H1, H2; [|lia..]. simpl in E. apply Hinj in E as [-> ->]; lia || done.
    + intros x ([d e] & -> & _)%list_elem_of_fmap. apply elem_of_seqZ. simpl. specialize (Hb d e). lia.
  - pose proof (rounds_length G m N). rewrite length_fmap, length_seqZ. lia.
Qed.

(** In the rounds, a rank sends to every place once and receives from every place once. *)
Lemma sendPlaces_perm G m N p : 0 <= m -> 0 < N <= 2 ^ m -> 0 < G ->
  ((fun r : Z * Z => sendPlace G N p r.1 r.2) <$> rounds G m N) ≡ₚ seqZ 0 (N * G).
Proof.
  intros Hm HN HG. apply (places_perm G m N (sendPlace G N p)); [done|done|done| |]; unfold sendPlace.
  - intros d e d' e' Hd Hd' He He' E. apply place_inj in E; lia.
  - intros d e. apply place_bound; lia.
Qed.

Lemma recvPlaces_perm G m N p : 0 <= m -> 0 < N <= 2 ^ m -> 0 < G ->
  ((fun r : Z * Z => recvPlace G N p r.1 r.2) <$> rounds G m N) ≡ₚ seqZ 0 (N * G).
Proof.
  intros Hm HN HG. apply (places_perm G m N (recvPlace G N p)); [done|done|done| |]; unfold recvPlace.
  - intros d e d' e' Hd Hd' He He' E. apply place_inj in E; lia.
  - intros d e. apply place_bound; lia.
Qed.

(** ** What the code computes *)

(** Where the rank with local rank [j] on node [i] is in the list of all ranks. *)
Lemma place_lookup (nodes : list (list Z)) i j n r : nodes !! i = Some n -> n !! j = Some r ->
  concat nodes !! (length (concat (take i nodes)) + j)%nat = Some r.
Proof.
  intros Hi Hj. assert (concat nodes = concat (take i nodes) ++ n ++ concat (drop (S i) nodes)) as ->.
  { rewrite <- (take_drop_middle nodes i n Hi) at 1. by rewrite concat_app. }
  rewrite lookup_app_r by lia. rewrite Nat.add_sub', lookup_app_l by (by eapply lookup_lt_Some). done.
Qed.

Section schedule.

Context (nodes : list (list Z)) (gs : nat).
Context (Hcl : cluster nodes) (Hgs : (0 < gs)%nat) (Hev : even gs nodes).

Local Abbreviation G := (Z.of_nat gs).
Local Abbreviation N := (Z.of_nat (length (concat nodes) / gs)).

(** The rank at a place of the list of all ranks. *)
Definition rankAt (p : Z) : Z := default 0 (concat nodes !! Z.to_nat p).

Definition pairAt (p d e : Z) : Z * Z := (rankAt (sendPlace G N p d e), rankAt (recvPlace G N p d e)).

Lemma ranks_split : N * G = Z.of_nat (length (concat nodes)).
Proof. pose proof (groupsFrom_length gs nodes 0 Hgs Hev) as <-. rewrite Nat.div_mul by lia. lia. Qed.

Lemma groups_pos : 0 < N.
Proof.
  assert (0 < length (concat nodes))%nat as Hpos.
  { clear Hev. destruct Hcl as [Hne Hfull _ _]. destruct nodes as [|n ns]; [done|]. apply Forall_cons in Hfull as [Hn _].
    simpl. rewrite length_app. destruct n; [done|]. simpl. lia. }
  pose proof ranks_split as E. destruct (decide (N = 0)) as [E0|]; [rewrite E0 in E; lia|lia].
Qed.

Lemma rankAt_group g l : 0 <= g < N -> 0 <= l < G ->
  exists n b, groupsFrom gs 0 nodes !! Z.to_nat g = Some (n, b) /\
    forall l, 0 <= l < G -> rankOf (ranksOf <$> nodes) n (b + l) = Some (rankAt (g * G + l)).
Proof.
  intros Hg Hl. pose proof ranks_split as E.
  destruct (groupsFrom_lookup gs Hgs nodes 0 (Z.to_nat g) Hev) as (n & b & Hgr & Hn).
  { apply Nat2Z.inj_lt. rewrite Nat2Z.inj_mul, Z2Nat.id, <- E by lia. apply Z.mul_lt_mono_pos_r; lia. }
  exists (0 + Z.of_nat n), (Z.of_nat b). split; [done|]. intros l' Hl'. destruct (Hn (Z.to_nat l') ltac:(lia)) as (nr & H1 & H2).
  unfold rankOf, rankAt. rewrite Z.add_0_l, Nat2Z.id, list_lookup_fmap, H1. simpl.
  replace (Z.to_nat (Z.of_nat b + l')) with (b + Z.to_nat l')%nat by lia. rewrite H2.
  assert (0 <= g * G + l' < N * G) as Hb by nia. rewrite E in Hb.
  replace (Z.to_nat g * gs + Z.to_nat l')%nat with (Z.to_nat (g * G + l')) by nia.
  destruct (lookup_lt_is_Some_2 (concat nodes) (Z.to_nat (g * G + l'))) as [x ->]; [lia|done].
Qed.

Lemma groupRounds_eq p d : 0 <= p < N * G -> 0 <= d < N ->
  groupRounds (ranksOf <$> nodes) (groupsFrom gs 0 nodes) G N (p / G) (p mod G) d = Some ((fun e : nat => pairAt p d (Z.of_nat e)) <$> seq 0 gs).
Proof.
  intros Hp Hd. pose proof ranks_split as E. pose proof (cl_size _ Hcl) as Hsz. pose proof groups_pos as HN.
  assert (0 <= p / G < N) as Hq by (split; [apply Z.div_pos; lia|apply Z.div_lt_upper_bound; lia]).
  pose proof (Z.mod_pos_bound p G ltac:(lia)) as Hr. assert (N <= N * G) by nia.
  unfold groupRounds.
  assert (wrap32 (p / G + d) mod N = (p / G + d) mod N) as ->. { rewrite wrap32_small by lia. done. }
  assert (wrap32 (wrap32 (p / G - d) + N) mod N = (p / G - d) mod N) as ->.
  { unfold wrap32. rewrite Zplus_mod_idemp_l, (Z.mod_small _ (2 ^ 32)) by lia. rewrite <- (Z.mod_add (p / G - d) 1 N) by lia. f_equal. lia. }
  pose proof (Z.mod_pos_bound (p / G + d) N HN). pose proof (Z.mod_pos_bound (p / G - d) N HN).
  destruct (rankAt_group ((p / G + d) mod N) 0) as (sn & sb & -> & Hs); [lia|lia|].
  destruct (rankAt_group ((p / G - d) mod N) 0) as (rn & rb & -> & Hrr); [lia|lia|]. simpl.
  rewrite Nat2Z.id. apply mapM_total. intros e He%elem_of_seq.
  rewrite !Z.rem_mod_nonneg by lia.
  pose proof (Z.mod_pos_bound (p mod G + Z.of_nat e) G). pose proof (Z.mod_pos_bound (p mod G - Z.of_nat e + G) G).
  rewrite Hs by lia. simpl. rewrite Hrr by lia. simpl. unfold pairAt, sendPlace, recvPlace. do 4 f_equal.
  rewrite <- (Z.mod_add (p mod G - Z.of_nat e) 1 G) by lia. do 2 f_equal; lia.
Qed.

(** The distances from round [k] on. *)
Definition deltasFrom (m k : Z) : list Z := filter (fun d => d < N) ((fun k => tri k mod 2 ^ m) <$> seqZ k (2 ^ m - k)).

Definition roundsOf (p : Z) (ds : list Z) : list (Z * Z) := d ← ds; (fun e : nat => pairAt p d (Z.of_nat e)) <$> seq 0 gs.

Lemma roundLoop_eq m p : 0 <= m <= 30 -> 0 <= p < N * G -> forall fuel k sched,
  0 <= k -> k + Z.of_nat fuel = 2 ^ m -> (0 < fuel)%nat ->
  roundLoop fuel (ranksOf <$> nodes) (groupsFrom gs 0 nodes) G N (2 ^ m) (p / G) (p mod G) k (tri k mod 2 ^ m) sched =
    Some (sched ++ roundsOf p (deltasFrom m k)).
Proof.
  intros Hm Hp. assert (2 ^ m <= 2 ^ 30) by (apply Z.pow_le_mono_r; lia). assert (0 < 2 ^ m) by lia.
  induction fuel as [|fuel IH]; intros k sched Hk Hf Hpos; [lia|]. simpl.
  pose proof (Z.mod_pos_bound (tri k) (2 ^ m) ltac:(lia)) as Ht.
  assert (deltasFrom m k = (if decide (tri k mod 2 ^ m < N) then [tri k mod 2 ^ m] else []) ++ deltasFrom m (k + 1)) as ->.
  { unfold deltasFrom. replace (2 ^ m - k) with (Z.succ (2 ^ m - (k + 1))) by lia. rewrite seqZ_cons by lia.
    replace (Z.pred (Z.succ (2 ^ m - (k + 1)))) with (2 ^ m - (k + 1)) by lia. replace (Z.succ k) with (k + 1) by lia.
    rewrite fmap_cons, filter_cons. by case_decide. }
  assert ((if tri k mod 2 ^ m <? N then r ← groupRounds (ranksOf <$> nodes) (groupsFrom gs 0 nodes) G N (p / G) (p mod G) (tri k mod 2 ^ m); Some (sched ++ r) else Some sched)
    = Some (sched ++ roundsOf p (if decide (tri k mod 2 ^ m < N) then [tri k mod 2 ^ m] else []))) as ->.
  { destruct (Z.ltb_spec (tri k mod 2 ^ m) N) as [Hlt|Hge].
    - rewrite groupRounds_eq, decide_True by lia. simpl. by rewrite app_nil_r.
    - rewrite decide_False by lia. simpl. by rewrite app_nil_r. }
  simpl. rewrite (wrap32_small (k + 1)) by lia. unfold roundsOf. rewrite bind_app, app_assoc. fold (roundsOf p (deltasFrom m (k + 1))).
  destruct (Z.eqb_spec (k + 1) (2 ^ m)) as [E|E].
  - unfold deltasFrom. rewrite seqZ_nil by lia. simpl. by rewrite app_nil_r.
  - rewrite wrap32_small by lia. replace (2 ^ m - 1) with (Z.ones m) by (rewrite Z.ones_equiv; lia).
    rewrite Z.land_ones, Zplus_mod_idemp_l, <- tri_succ by lia. apply IH; lia.
Qed.

Local Abbreviation m := (Z.log2_up N).

Lemma groups_pow2 : 0 <= m <= 30 /\ 0 < N <= 2 ^ m /\ pow2Up i32 N = 2 ^ m.
Proof.
  pose proof groups_pos as HN. pose proof ranks_split as E. pose proof (cl_size _ Hcl) as Hsz. assert (N <= N * G) by nia.
  assert (0 <= m <= 30) as Hm by (split; [apply Z.log2_up_nonneg|apply Z.log2_up_le_pow2; lia]).
  assert (2 ^ m <= 2 ^ 30) by (apply Z.pow_le_mono_r; lia).
  assert (N <= 2 ^ m) by (apply Z.log2_log2_up_spec; lia).
  split_and!; [lia|lia|lia|lia|]. unfold pow2Up. rewrite log2Up_eq, Z.shiftl_1_l by (done || lia || fits_lia). apply cwrap_fits; [done|fits_lia].
Qed.

Definition schedOf (p : Z) : list (Z * Z) := (fun r : Z * Z => pairAt p r.1 r.2) <$> rounds G m N.

Lemma roundsOf_eq p : roundsOf p (deltasFrom m 0) = schedOf p.
Proof.
  unfold schedOf, rounds, deltas, deltasFrom, roundsOf. rewrite Z.sub_0_r, Nat2Z.id. generalize (filter (fun d => d < N) ((fun k => tri k mod 2 ^ m) <$> seqZ 0 (2 ^ m))).
  induction l as [|d l IH]; [done|]. csimpl. rewrite fmap_app, IH, <- list_fmap_compose. done.
Qed.

Lemma even_concat l : even gs l -> exists k, length (concat l) = (k * gs)%nat.
Proof.
  induction l as [|n l IH]; intros H; [by exists 0%nat|]. apply Forall_cons in H as [[k Hk] H]. destruct (IH H) as [k' Hk'].
  exists (k + k')%nat. simpl. rewrite length_app. lia.
Qed.

Lemma place_group i j : exists k, Z.of_nat (length (concat (take i nodes)) + j) = Z.of_nat k * G + Z.of_nat j /\
  Z.of_nat (length (concat (take i nodes)) / gs) = Z.of_nat k.
Proof.
  destruct (even_concat (take i nodes)) as [k Hk]; [by apply Forall_take|]. exists k. rewrite Hk, Nat.div_mul by lia. lia.
Qed.

Lemma schedule_eq param i j n r :
  groupSizeLoop (ranksOf <$> nodes) (if 1 <? Z.of_nat (length nodes) then param else Z.of_nat (max_list (length <$> nodes))) = Some G ->
  nodes !! i = Some n -> n !! j = Some r ->
  ncclP2pSchedule param (viewOf nodes i j) = Some (ncclSuccess, G, schedOf (Z.of_nat (length (concat (take i nodes)) + j))).
Proof.
  intros Hg Hi Hj. pose proof (place_lookup nodes i j n r Hi Hj) as Hp. apply lookup_lt_Some in Hp. set (p := Z.of_nat (length (concat (take i nodes)) + j)).
  pose proof ranks_split as E. destruct groups_pow2 as (Hm & HN & Hpow). assert (0 <= p < N * G) as Hpb by lia.
  unfold ncclP2pSchedule, sc_nNodes, viewOf. cbn [sc_nodeRanks sc_maxLocalRanks sc_node sc_localRank sc_nRanks]. fold ranksOf.
  rewrite length_fmap, Hg. cbn [mbind option_bind]. rewrite <- E, !Z.quot_div_nonneg, Z.div_mul, Z.rem_mod_nonneg by lia.
  rewrite fillGroups_eq by done. rewrite Hpow, Z.sub_0_r, Nat2Z.id, app_nil_l.
  destruct (place_group i j) as (k & Hk & Hk').
  assert (Z.of_nat j / G + Z.of_nat (length (concat (take i nodes)) / gs) = p / G) as ->.
  { unfold p. rewrite Hk, Hk', Z.div_add_l by lia. lia. }
  assert (Z.of_nat j mod G = p mod G) as -> by (unfold p; rewrite Hk, Z.add_comm, Z.mod_add by lia; done).
  assert (Z.of_nat (length (groupsFrom gs 0 nodes)) = N) as ->.
  { pose proof (groupsFrom_length gs nodes 0 Hgs Hev) as <-. by rewrite Nat.div_mul by lia. }
  rewrite Z.eqb_refl. simpl negb. cbv iota.
  pose proof (roundLoop_eq m p Hm Hpb (Z.to_nat (2 ^ m)) 0 [] ltac:(lia) ltac:(lia) ltac:(lia)) as Hloop.
  replace (tri 0 mod 2 ^ m) with 0 in Hloop by (unfold tri; simpl; by rewrite Z.mod_0_l by lia). rewrite Hloop, roundsOf_eq. simpl.
  unfold schedOf. rewrite length_fmap, rounds_length, Z.eqb_refl by lia. done.
Qed.

(** ** The pairs *)

Lemma rankAt_inj p q : 0 <= p < N * G -> 0 <= q < N * G -> rankAt p = rankAt q -> p = q.
Proof.
  intros Hp Hq. rewrite ranks_split in Hp, Hq. unfold rankAt.
  destruct (lookup_lt_is_Some_2 (concat nodes) (Z.to_nat p)) as [x Hx]; [lia|].
  destruct (lookup_lt_is_Some_2 (concat nodes) (Z.to_nat q)) as [y Hy]; [lia|]. rewrite Hx, Hy. simpl. intros ->.
  pose proof (NoDup_lookup _ _ _ _ (cl_nodup _ Hcl) Hx Hy). lia.
Qed.

Lemma rankAt_all : rankAt <$> seqZ 0 (N * G) = concat nodes.
Proof.
  rewrite ranks_split. apply list_eq. intros i. rewrite list_lookup_fmap. destruct (decide (i < length (concat nodes))%nat) as [Hi|Hi].
  - rewrite lookup_seqZ_lt by lia. simpl. unfold rankAt. replace (Z.to_nat (0 + Z.of_nat i)) with i by lia.
    by destruct (lookup_lt_is_Some_2 (concat nodes) i Hi) as [x ->].
  - rewrite lookup_seqZ_ge by lia. simpl. by rewrite lookup_ge_None_2 by lia.
Qed.

Lemma schedOf_perm p : (schedOf p).*1 ≡ₚ concat nodes /\ (schedOf p).*2 ≡ₚ concat nodes.
Proof.
  destruct groups_pow2 as (Hm & HN & _). unfold schedOf. rewrite <- !list_fmap_compose. pose proof rankAt_all as Hall.
  split; (etrans; [|exact (reflexive_eq (R := (≡ₚ)) _ _ Hall)]).
  - rewrite <- (sendPlaces_perm G m N p) by lia. rewrite <- list_fmap_compose. apply reflexive_eq, list_fmap_ext. reflexivity.
  - rewrite <- (recvPlaces_perm G m N p) by lia. rewrite <- list_fmap_compose. apply reflexive_eq, list_fmap_ext. reflexivity.
Qed.

Lemma schedOf_lookup p t s q : schedOf p !! t = Some (s, q) ->
  exists d e, rounds G m N !! t = Some (d, e) /\ s = rankAt (sendPlace G N p d e) /\ q = rankAt (recvPlace G N p d e).
Proof.
  unfold schedOf. rewrite list_lookup_fmap. destruct (rounds G m N !! t) as [[d e]|]; [|done]. simpl. intros [= <- <-]. by exists d, e.
Qed.

(** The schedules of the places a rank sends to and receives from have it in the same round. *)
Lemma schedOf_pair p t s q : 0 <= p < N * G -> schedOf p !! t = Some (s, q) ->
  exists ps pq, 0 <= ps < N * G /\ 0 <= pq < N * G /\ s = rankAt ps /\ q = rankAt pq /\
    (exists x, schedOf ps !! t = Some (x, rankAt p)) /\ (exists x, schedOf pq !! t = Some (rankAt p, x)) /\ (ps = p <-> pq = p).
Proof.
  intros Hp (d & e & Ht & -> & ->)%schedOf_lookup. destruct groups_pow2 as (_ & HN & _).
  exists (sendPlace G N p d e), (recvPlace G N p d e).
  assert (0 <= sendPlace G N p d e < N * G) by (apply place_bound; lia).
  assert (0 <= recvPlace G N p d e < N * G) by (apply place_bound; lia).
  split; [done|]. split; [done|]. split; [done|]. split; [done|]. unfold schedOf. rewrite !list_lookup_fmap, Ht. simpl. unfold pairAt.
  rewrite recv_send, send_recv by lia. split; [by eexists|]. split; [by eexists|]. split.
  - intros E. rewrite <- E at 1. apply recv_send; lia.
  - intros E. rewrite <- E at 1. apply send_recv; lia.
Qed.

End schedule.

(** The place of a rank in the list of all ranks. *)
Definition placeOf (nodes : list (list Z)) (r : Z) : Z := Z.of_nat (default 0%nat (fst <$> list_find (fun x => x = r) (concat nodes))).

Lemma placeOf_lookup nodes k r : NoDup (concat nodes) -> concat nodes !! k = Some r -> placeOf nodes r = Z.of_nat k.
Proof.
  intros Hnd Hk. unfold placeOf. destruct (list_find_elem_of (fun x => x = r) (concat nodes) r) as [[k' x] Hf]; [by eapply list_elem_of_lookup_2|done|].
  rewrite Hf. simpl. apply list_find_Some in Hf as (Hx & -> & _). f_equal. by eapply NoDup_lookup.
Qed.

Lemma cluster_groups nodes param : cluster nodes -> 0 < param ->
  exists gs, (0 < gs)%nat /\ even gs nodes /\
    groupSizeLoop (ranksOf <$> nodes) (if 1 <? Z.of_nat (length nodes) then param else Z.of_nat (max_list (length <$> nodes))) = Some (Z.of_nat gs).
Proof.
  intros Hcl Hparam. set (init := if 1 <? Z.of_nat (length nodes) then param else Z.of_nat (max_list (length <$> nodes))).
  assert (0 < init) as Hi.
  { unfold init. case_match; [done|]. destruct Hcl as [Hne Hfull _ _]. destruct nodes as [|n ns]; [done|]. apply Forall_cons in Hfull as [Hn _].
    simpl. destruct n; [done|]. simpl. lia. }
  destruct (groupSizeLoop_spec (ranksOf <$> nodes) init Hi) as (g & Hg & Hpos & _ & Hall).
  { apply Forall_fmap. eapply Forall_impl; [apply (cl_full _ Hcl)|]. intros n Hn. simpl. destruct n; [done|]. simpl. lia. }
  exists (Z.to_nat g). split; [lia|]. rewrite Z2Nat.id by lia. split; [|done].
  rewrite Forall_fmap in Hall. eapply Forall_impl; [exact Hall|]. intros n [k Hk]. simpl in Hk. exists (Z.to_nat k). nia.
Qed.

(** The place of the rank with local rank [j] on node [i]. *)
Lemma placeOf_view nodes i j n r : cluster nodes -> nodes !! i = Some n -> n !! j = Some r ->
  placeOf nodes r = Z.of_nat (length (concat (take i nodes)) + j).
Proof. intros Hcl Hi Hj. apply placeOf_lookup; [apply Hcl|]. by eapply place_lookup. Qed.

(** The schedules the ranks compute. *)
Definition rankSched (nodes : list (list Z)) (gs : nat) (r : Z) : list (Z * Z) := schedOf nodes gs (placeOf nodes r).

Lemma rankSched_eq nodes param : cluster nodes -> 0 < param ->
  exists gs, (0 < gs)%nat /\ even gs nodes /\ forall i j n r, nodes !! i = Some n -> n !! j = Some r ->
    ncclP2pSchedule param (viewOf nodes i j) = Some (ncclSuccess, Z.of_nat gs, rankSched nodes gs r).
Proof.
  intros Hcl Hparam. destruct (cluster_groups nodes param Hcl Hparam) as (gs & Hgs & Hev & Hloop). exists gs. split_and!; [done|done|].
  intros i j n r Hi Hj. unfold rankSched. rewrite (placeOf_view nodes i j n r) by done. by eapply schedule_eq.
Qed.

Lemma rankSched_pairs nodes gs r : cluster nodes -> (0 < gs)%nat -> even gs nodes -> r ∈ concat nodes ->
  (rankSched nodes gs r).*1 ≡ₚ concat nodes /\ (rankSched nodes gs r).*2 ≡ₚ concat nodes /\
  forall t s q, rankSched nodes gs r !! t = Some (s, q) ->
    (exists x, rankSched nodes gs s !! t = Some (x, r)) /\ (exists x, rankSched nodes gs q !! t = Some (r, x)) /\ (s = r <-> q = r).
Proof.
  intros Hcl Hgs Hev [k Hk]%list_elem_of_lookup. pose proof (ranks_split nodes gs Hgs Hev) as E.
  unfold rankSched. rewrite (placeOf_lookup nodes k r) by (done || apply Hcl).
  split_and!; [by apply schedOf_perm|by apply schedOf_perm|]. intros t s q Ht.
  assert (forall p, 0 <= p < Z.of_nat (length (concat nodes)) -> placeOf nodes (rankAt nodes p) = p) as Hplace.
  { intros p Hp. unfold rankAt. destruct (lookup_lt_is_Some_2 (concat nodes) (Z.to_nat p)) as [x Hx]; [lia|]. rewrite Hx. simpl.
    rewrite (placeOf_lookup nodes (Z.to_nat p)) by (done || apply Hcl). lia. }
  apply lookup_lt_Some in Hk as Hlt.
  assert (rankAt nodes (Z.of_nat k) = r) as Hr by (unfold rankAt; by rewrite Nat2Z.id, Hk).
  destruct (schedOf_pair nodes gs Hcl Hgs Hev (Z.of_nat k) t s q ltac:(lia) Ht) as (ps & pq & Hps & Hpq & -> & -> & Hs & Hq & Hself).
  rewrite E in Hps, Hpq. rewrite !Hplace by done. rewrite Hr in Hs, Hq. split; [done|split; [done|split]].
  + intros Hs'. rewrite <- Hr in Hs'. apply (rankAt_inj nodes gs Hcl Hgs Hev) in Hs'; [|lia|lia]. apply Hself in Hs'. by rewrite Hs'.
  + intros Hq'. rewrite <- Hr in Hq'. apply (rankAt_inj nodes gs Hcl Hgs Hev) in Hq'; [|lia|lia]. apply Hself in Hq'. by rewrite Hq'.
Qed.

(** C12: The schedules of point-to-point transfers fit together.  On every cluster
    (any numbers of ranks per node, any numbering) the schedule each rank computes
    by itself from its own view of the cluster succeeds, has one group size for
    all, and in it the rank sends to every rank once and receives from every rank
    once.  In each round, the rank it sends to receives from it and the rank it
    receives from sends to it, and it sends to itself exactly when it receives
    from itself. *)
Theorem ncclP2pSchedule_pairs (nodes : list (list Z)) (paramGroupSize : Z) :
  cluster nodes -> 0 < paramGroupSize ->
  exists (groupSize : Z) (sched : Z -> list (Z * Z)),
    (forall i j n r, nodes !! i = Some n -> n !! j = Some r ->
       ncclP2pSchedule paramGroupSize (viewOf nodes i j) = Some (ncclSuccess, groupSize, sched r)) /\
    0 < groupSize /\ (groupSize | Z.of_nat (length (concat nodes))) /\
    forall r, r ∈ concat nodes ->
      (sched r).*1 ≡ₚ concat nodes /\ (sched r).*2 ≡ₚ concat nodes /\
      forall t s q, sched r !! t = Some (s, q) ->
        (exists x, sched s !! t = Some (x, r)) /\ (exists x, sched q !! t = Some (r, x)) /\ (s = r <-> q = r).
Proof.
  intros Hcl Hparam. destruct (rankSched_eq nodes paramGroupSize Hcl Hparam) as (gs & Hgs & Hev & Hrun).
  exists (Z.of_nat gs), (rankSched nodes gs). split; [done|]. split; [lia|]. split.
  - rewrite <- (ranks_split nodes gs Hgs Hev). by eexists.
  - intros r Hr. by apply rankSched_pairs.
Qed.

(** Two nodes with two ranks and one with four, numbered across the nodes. *)
Definition exampleNodes : list (list Z) := [[0; 3]; [1; 2; 6; 7]; [4; 5]].

Lemma exampleNodes_cluster : cluster exampleNodes.
Proof. constructor; [done|repeat constructor; done| |done]. by apply (bool_decide_eq_true_1 (NoDup (concat exampleNodes))). Qed.

Lemma ncclP2pSchedule_pairs_witness :
  ncclP2pSchedule 8 (viewOf exampleNodes 1 2) =
    Some (ncclSuccess, 2, [(6, 6); (7, 7); (4, 1); (5, 2); (1, 4); (2, 5); (0, 0); (3, 3)]) /\
  exists (groupSize : Z) (sched : Z -> list (Z * Z)),
    (forall i j n r, exampleNodes !! i = Some n -> n !! j = Some r ->
       ncclP2pSchedule 8 (viewOf exampleNodes i j) = Some (ncclSuccess, groupSize, sched r)) /\
    0 < groupSize /\ (groupSize | Z.of_nat (length (concat exampleNodes))) /\
    forall r, r ∈ concat exampleNodes ->
      (sched r).*1 ≡ₚ concat exampleNodes /\ (sched r).*2 ≡ₚ concat exampleNodes /\
      forall t s q, sched r !! t = Some (s, q) ->
        (exists x, sched s !! t = Some (x, r)) /\ (exists x, sched q !! t = Some (r, x)) /\ (s = r <-> q = r).
Proof.
  split; [vm_compute; reflexivity|]. apply (ncclP2pSchedule_pairs exampleNodes 8 exampleNodes_cluster). lia.
Defined.
