(* ===== verification/P2pPlan.v ===== *)
(** * The plan of point-to-point transfers (src/src/enqueue/enqueue.cc)

    The sends and receives of a group wait in one queue per peer.  The planner walks
    through the rounds of the schedule (see P2pSched), takes the first send and the
    first receive of the two peers of the round, decides on channels, protocol and
    chunk size, and adds the pair to the plan of the next kernel: a work, its
    batches on the channels and the operations for the proxy.  When all rounds are
    done it starts over with the next epoch; when the budget of a plan is used up
    it goes on with a new plan. *)

From stdpp Require Import base numbers list sets.
From Stdlib Require Import ZArith Lia Sorted.
From S2P Require Import Prelude Bitops Bits Batches KernelMain PlanLayout DevWork Sched P2pSched.

Local Open Scope Z_scope.

(** ** Data *)

(* src/src/include/comm.h:304-328 ncclTaskP2p *)
Record p2pTask := {
  tp_buff : Z;
  tp_bytes : Z;
  tp_allowUB : bool }.

(** The parts of the communicator the planner reads, and the parameters
    P2P_LL_THRESHOLD, CHUNK_SIZE and P2P_PER_CHANNEL_REG_NET_BW.  [pm_pxnUsed] is the test
    for PXN. *)
Record p2pComm := {
  pm_rank : Z;
  pm_nRanks : Z;
  pm_nNodes : Z;
  pm_p2pnChannels : Z;
  pm_p2pnChannelsPerPeer : Z;
  pm_p2pSchedGroupSize : Z;
  pm_p2pChunkSize : Z;
  pm_buffSizeLL : Z;
  pm_minNetCount : Z;
  pm_minLocalNetBw : Z;
  pm_pxnUsed : bool;
  pm_schedule : list (Z * Z);
  pm_cudaArch : Z;
  pm_epochEnable : bool;
  pm_devFuncId : Z;
  pm_paramChunkSize : Z;
  pm_paramLLThreshold : Z;
  pm_paramRegNetBw : Z }.

(** What the planner asks of a connector. *)
Record p2pConn := {
  cn_hasLL : bool;
  cn_network : bool;
  cn_sameProcess : bool;
  cn_directNic : bool;
  cn_p2pWrite : bool;
  cn_p2pRead : bool }.

(** One direction of a transfer. *)
Record p2pDirection := {
  di_nChannels : Z;
  di_protoLL : bool;
  di_chunk8 : Z;
  di_chunkSize : Z;
  di_netReg : bool;
  di_ipcReg : bool;
  di_addr : Z }.

(* src/src/include/device.h:244-262 ncclDevWorkP2p *)
Record ncclDevWorkP2p := {
  sendAddr : Z; recvAddr : Z;
  sendBytes : Z; recvBytes : Z;
  sendRank : Z; recvRank : Z;
  nP2pChannels : Z;
  channelBase : Z;
  nSendChannels : Z; nRecvChannels : Z;
  sendChunkSize_u32fp8 : Z; recvChunkSize_u32fp8 : Z;
  sendProtoLL : bool; recvProtoLL : bool;
  sendNetReg : bool; recvNetReg : bool;
  sendIpcReg : bool; recvIpcReg : bool }.

(** The operation for the proxy of one direction on one channel. *)
Record p2pProxyOp := {
  px_send : bool;
  px_root : Z;
  px_channelId : Z;
  px_opCount : Z;
  px_nsteps : Z;
  px_nbytes : Z;
  px_chunkSize : Z;
  px_protoLL : bool;
  px_reg : bool;
  px_nChannels : Z;
  px_nPeers : Z }.

(** A transfer of the plan: its place in the schedule, the work for the device and
    the two directions. *)
Record p2pEntry := {
  en_epoch : Z;
  en_round : Z;
  en_send : option p2pTask;
  en_recv : option p2pTask;
  en_work : ncclDevWorkP2p;
  en_dirs : bool -> p2pDirection }.

(** The plan; [pp_proxyCalls] are the operations given to [ncclAddProxyOpIfNeeded]. *)
Record p2pPlan := {
  pp_channels : list Channel;
  pp_nWorkBatches : Z;
  pp_workBytes : Z;
  pp_channelMask : Z;
  pp_pairCounter : Z;
  pp_entries : list p2pEntry;
  pp_proxyCalls : list p2pProxyOp;
  pp_tasks : list p2pTask }.

(** The queues of the peers and the numbers of tasks in them. *)
(* src/src/include/comm.h:500-509 ncclKernelPlanner *)
Record p2pPlanner := {
  pl_send : Z -> list p2pTask;
  pl_recv : Z -> list p2pTask;
  pl_nTasksP2p : Z;
  pl_nTasksP2pSend : Z;
  pl_nTasksP2pRecv : Z }.

Section plan.

Context (comm : p2pComm).
(** The connector of a direction (true for send), a peer and a channel. *)
Context (conn : bool -> Z -> Z -> p2pConn).
(** Whether the buffer of a task can be registered with the network for the
    connector of a part, and the address it has for the peer if it is registered
    for access between processes. *)
Context (regNet : p2pTask -> bool -> Z -> bool) (regIpc : p2pTask -> bool -> option Z).

(** ** One direction *)

(** The loop that spreads large messages over more channels; [None] if the fuel is
    used up. *)
(* src/src/enqueue/enqueue.cc:1051-1055 addP2pToPlan *)
Fixpoint moreChannels (fuel : nat) (bytes maxPartSize nChannelsMax nChannels partSize : Z) : option Z :=
  if (maxPartSize <? partSize) && (nChannels <=? Z.quot nChannelsMax 2) then
    match fuel with
    | O => None
    | S fuel =>
        let nChannels := nChannels * 2 in
        moreChannels fuel bytes maxPartSize nChannelsMax nChannels (divUp i64 bytes nChannels)
    end
  else Some nChannels.

(* src/src/enqueue/enqueue.cc:1033-1056 addP2pToPlan *)
Definition p2pChannels (nChannelsMin nChannelsMax bytes : Z) : option Z :=
  let stepSize := pm_p2pChunkSize comm in
  if bytes =? -1 then Some 0
  else if bytes =? 0 then Some 1
  else
    let minPartSize := if 1 <? pm_nNodes comm then Z.quot stepSize 2 else Z.quot stepSize 8 in
    let maxPartSize := if 1 <? pm_nNodes comm then stepSize else stepSize * 32 in
    let nChannels := Z.min nChannelsMin (cwrap i32 (divUp i64 bytes minPartSize)) in
    moreChannels (Z.to_nat nChannelsMax) bytes maxPartSize nChannelsMax nChannels (Z.max minPartSize (divUp i64 bytes nChannels)).

Definition NCCL_STEPS : Z := 8.

(** The size of the chunks, encoded in 8 bits, and the size of the data in the
    buffer of a step. *)
(* src/src/enqueue/enqueue.cc:1063-1084 addP2pToPlan *)
Definition p2pChunk (protoLL network : bool) (bytes : Z) : Z * Z :=
  let stepSize := if protoLL then Z.quot (pm_buffSizeLL comm) NCCL_STEPS else pm_p2pChunkSize comm in
  let chunkSize :=
    if negb (pm_paramChunkSize comm =? 0) then cwrap i32 (pm_paramChunkSize comm)
    else if network then
      if negb protoLL && (bytes <? stepSize) then Z.quot stepSize 4
      else if bytes <? 8 * stepSize then Z.quot stepSize 2
      else stepSize
    else stepSize in
  let chunkDataSize := if protoLL then Z.quot chunkSize 2 else chunkSize in
  let e := u32fp8Encode (wrap32 chunkDataSize) in
  (e, if protoLL then u32fp8Decode e * 2 else u32fp8Decode e).

(** The registration with the network: the loop over the parts ends at the first
    part without success. *)
(* src/src/enqueue/enqueue.cc:1092-1111 addP2pToPlan *)
Definition netRegister (t : p2pTask) (dir : bool) (peer base nChannelsMax : Z) : bool :=
  let step (st : bool * bool) (part : nat) :=
    let '(go, regFlag) := st in
    if go then
      let channelId := ncclP2pChannelForPart (pm_p2pnChannels comm) base (Z.of_nat part) in
      let regFlag := if cn_directNic (conn dir peer channelId) then regNet t dir (Z.of_nat part) else regFlag in
      (regFlag, regFlag)
    else st in
  (fold_left step (seq 0 (Z.to_nat nChannelsMax)) (true, false)).2.

(** The registration of the buffer: with the network, or for access between
    processes, and the address for the work. *)
(* src/src/enqueue/enqueue.cc:1082-1127 addP2pToPlan *)
Definition p2pRegister (dir selfSend network sameProcess protoLL : bool) (task : option p2pTask) (peer nChannelsMax base : Z) : bool * bool * Z :=
  let bytes := match task with Some t => tp_bytes t | None => -1 end in
  let addr := match task with Some t => tp_buff t | None => 0 end in
  match task with
  | Some t =>
      if tp_allowUB t then
        if network then
          ((0 <? bytes) && sameProcess && negb protoLL && negb (pm_pxnUsed comm) && netRegister t dir peer base nChannelsMax, false, addr)
        else if (0 <? bytes) && negb (addr =? 0) && negb protoLL && negb selfSend then
          let c := conn dir peer (ncclP2pChannelForPart (pm_p2pnChannels comm) base 0) in
          if cn_p2pWrite c || cn_p2pRead c then
            match regIpc t dir with
            | Some regAddr => (false, true, if (if dir then cn_p2pRead c else cn_p2pWrite c) then regAddr else addr)
            | None => (false, false, addr)
            end
          else (false, false, addr)
        else (false, false, addr)
      else (false, false, addr)
  | None => (false, false, addr)
  end.

(* src/src/enqueue/enqueue.cc:998-1138 addP2pToPlan *)
Definition p2pDir (dir selfSend : bool) (task : option p2pTask) (peer nChannelsMin nChannelsMax base : Z) : option p2pDirection :=
  let bytes := match task with Some t => tp_bytes t | None => -1 end in
  let conns := (fun part : nat => conn dir peer (ncclP2pChannelForPart (pm_p2pnChannels comm) base (Z.of_nat part))) <$>
               seq 0 (Z.to_nat nChannelsMax) in
  let hasLL := negb selfSend && forallb cn_hasLL conns in
  let network := negb selfSend && existsb cn_network conns in
  let sameProcess := selfSend || forallb cn_sameProcess conns in
  nChannels ← p2pChannels nChannelsMin nChannelsMax bytes;
  let protoLL := hasLL && ((bytes =? -1) || (bytes <=? nChannels * pm_paramLLThreshold comm)) in
  let '(chunk8, chunkSize) := p2pChunk protoLL network bytes in
  let '(netReg, ipcReg, addr) := p2pRegister dir selfSend network sameProcess protoLL task peer nChannelsMax base in
  let regChannels :=
    let n := Z.max 1 (pm_minNetCount comm) in
    if 0 <? pm_paramRegNetBw comm then Z.max n (divUp i32 (pm_minLocalNetBw comm) (pm_paramRegNetBw comm)) else n in
  Some {|
    di_nChannels := if netReg then Z.min nChannels regChannels else nChannels;
    di_protoLL := protoLL; di_chunk8 := chunk8; di_chunkSize := chunkSize; di_netReg := netReg; di_ipcReg := ipcReg; di_addr := addr |}.

(** ** A transfer *)

(* src/src/enqueue/enqueue.cc:980-1175 addP2pToPlan *)
Definition p2pEntryOf (nChannelsMin nChannelsMax p2pEpoch p2pRound sendRank' recvRank' : Z) (send recv : option p2pTask) : option p2pEntry :=
  let selfSend := sendRank' =? pm_rank comm in
  let base := ncclP2pChannelBaseForRound (pm_nNodes comm) (pm_p2pSchedGroupSize comm) (pm_p2pnChannels comm) p2pRound in
  dr ← p2pDir false selfSend recv recvRank' nChannelsMin nChannelsMax base;
  ds ← p2pDir true selfSend send sendRank' nChannelsMin nChannelsMax base;
  Some {|
    en_epoch := p2pEpoch; en_round := p2pRound; en_send := send; en_recv := recv;
    en_work := {|
      sendAddr := di_addr ds; recvAddr := di_addr dr;
      sendBytes := match send with Some t => tp_bytes t | None => 0 end;
      recvBytes := match recv with Some t => tp_bytes t | None => 0 end;
      sendRank := sendRank'; recvRank := recvRank';
      nP2pChannels := pm_p2pnChannels comm mod 2 ^ 8; channelBase := base;
      nSendChannels := di_nChannels ds mod 2 ^ 8; nRecvChannels := di_nChannels dr mod 2 ^ 8;
      sendChunkSize_u32fp8 := di_chunk8 ds; recvChunkSize_u32fp8 := di_chunk8 dr;
      sendProtoLL := di_protoLL ds; recvProtoLL := di_protoLL dr;
      sendNetReg := di_netReg ds; recvNetReg := di_netReg dr;
      sendIpcReg := di_ipcReg ds; recvIpcReg := di_ipcReg dr |};
    en_dirs := fun dir => if dir then ds else dr |}.

(** The number of channels of the transfer: the larger one of the directions. *)
Definition en_nParts (e : p2pEntry) : Z := Z.max (di_nChannels (en_dirs e false)) (di_nChannels (en_dirs e true)).

Definition NCCL_MAX_NET_SIZE : Z := 1024 * 1024 * 1024.

(** The steps and bytes of one direction on the channel of [part]. *)
(* src/src/enqueue/enqueue.cc:1232-1261 addP2pToPlan *)
Definition partSteps (work : ncclDevWorkP2p) (dir : bool) (part : Z) : Z * Z :=
  let nParts := if dir then nSendChannels work else nRecvChannels work in
  let bytes := if dir then sendBytes work else recvBytes work in
  if nParts <=? part then (0, 0)
  else if bytes =? 0 then (1, 0)
  else
    let chunkDataSize := u32fp8Decode (if dir then sendChunkSize_u32fp8 work else recvChunkSize_u32fp8 work) in
    let '(partBeg, partEnd) := ncclP2pPartBounds nParts part bytes in
    let '(nsteps, nbytes) :=
      if (if dir then sendNetReg work else recvNetReg work)
      then (cwrap i32 (divUp i64 (partEnd - partBeg) NCCL_MAX_NET_SIZE), partEnd - partBeg)
      else (cwrap i32 (divUp u64 (partEnd - partBeg) chunkDataSize), Z.min (partEnd - partBeg) chunkDataSize) in
    (nsteps, if (if dir then sendProtoLL work else recvProtoLL work) then roundUp u64 (nbytes * 2) 16 else nbytes).

(** The operation given to [ncclAddProxyOpIfNeeded], if there are steps. *)
(* src/src/enqueue/enqueue.cc:1177-1271 addP2pToPlan *)
Definition partProxyOp (e : p2pEntry) (concurrent : bool -> Z) (part channelId opCount : Z) (dir : bool) : list p2pProxyOp :=
  let '(nsteps, nbytes) := partSteps (en_work e) dir part in
  if nsteps =? 0 then []
  else [{| px_send := dir; px_root := if dir then sendRank (en_work e) else recvRank (en_work e);
           px_channelId := channelId; px_opCount := opCount; px_nsteps := nsteps; px_nbytes := nbytes;
           px_chunkSize := di_chunkSize (en_dirs e dir); px_protoLL := di_protoLL (en_dirs e dir); px_reg := di_netReg (en_dirs e dir);
           px_nChannels := di_nChannels (en_dirs e dir); px_nPeers := concurrent dir |}].

(* src/src/include/nccl_common.h:95-95 NCCL_PROGRESS_P2P_COUNTER_INDEX *)
Definition NCCL_PROGRESS_P2P_COUNTER_INDEX : Z := 15.

(** The work as an item of a channel's batches. *)
Definition p2pItem (epoch round offset : Z) : workItem := {|
  wi_type := ncclDevWorkTypeP2p; wi_funcId := pm_devFuncId comm; wi_slot := NCCL_PROGRESS_P2P_COUNTER_INDEX;
  wi_offset := offset; wi_epoch := epoch; wi_round := round |}.

(** The loop over the parts.  [None] is an access to a channel out of range or a
    batch that is not accepted. *)
(* src/src/enqueue/enqueue.cc:1219-1271 addP2pToPlan *)
Fixpoint addParts (e : p2pEntry) (concurrent : bool -> Z) (workOffset : Z) (parts : list nat) (plan : p2pPlan) : option p2pPlan :=
  match parts with
  | [] => Some plan
  | part :: parts =>
      let channelId := ncclP2pChannelForPart (pm_p2pnChannels comm) (channelBase (en_work e)) (Z.of_nat part) in
      chan ← pp_channels plan !! Z.to_nat channelId;
      '(chan, nWorkBatches) ← addWork (pm_cudaArch comm) (pm_epochEnable comm) (chan, pp_nWorkBatches plan)
        (p2pItem (en_epoch e) (en_round e) workOffset);
      let opCount := Z.lor (Z.shiftl (nWorkBatchesP2p chan) 1) 1 in
      addParts e concurrent workOffset parts {|
        pp_channels := <[Z.to_nat channelId := chan]> (pp_channels plan); pp_nWorkBatches := nWorkBatches;
        pp_workBytes := pp_workBytes plan; pp_channelMask := Z.lor (pp_channelMask plan) (cwrap u64 (Z.shiftl 1 channelId));
        pp_pairCounter := pp_pairCounter plan; pp_entries := pp_entries plan;
        pp_proxyCalls := pp_proxyCalls plan ++
          (if sendRank (en_work e) =? pm_rank comm then [] else
           partProxyOp e concurrent (Z.of_nat part) channelId opCount false ++ partProxyOp e concurrent (Z.of_nat part) channelId opCount true);
        pp_tasks := pp_tasks plan |}
  end.

(** The profiler's fields of the tasks are not modelled. *)
(* src/src/enqueue/enqueue.cc:1137-1276 addP2pToPlan *)
Definition addP2pToPlan (plan : p2pPlan) (planTotalTasks : bool -> Z) (e : p2pEntry) : option p2pPlan :=
  let workOffset := cwrap u32 (pp_workBytes plan) in
  let maxConcurrent := Z.quot (pm_p2pnChannels comm) (en_nParts e) * 8 in
  addParts e (fun dir => Z.min (planTotalTasks dir) maxConcurrent) workOffset (seq 0 (Z.to_nat (en_nParts e))) {|
    pp_channels := pp_channels plan; pp_nWorkBatches := pp_nWorkBatches plan;
    pp_workBytes := pp_workBytes plan + ncclDevWorkSize ncclDevWorkTypeP2p;
    pp_channelMask := pp_channelMask plan; pp_pairCounter := pp_pairCounter plan + 1;
    pp_entries := pp_entries plan ++ [e]; pp_proxyCalls := pp_proxyCalls plan; pp_tasks := pp_tasks plan |}.

(** ** The rounds *)

Definition popAt (q : Z -> list p2pTask) (r : Z) : Z -> list p2pTask := fun x => if x =? r then tail (q x) else q x.

Definition present {A} (x : option A) : Z := match x with Some _ => 1 | None => 0 end.

(** The removal of the tasks of a round from their queues. *)
(* src/src/enqueue/enqueue.cc:1341-1389 scheduleP2pTasksToPlan *)
Definition dequeue (pl : p2pPlanner) (sendRank recvRank : Z) (send recv : option p2pTask) : p2pPlanner := {|
  pl_send := match send with Some _ => popAt (pl_send pl) sendRank | None => pl_send pl end;
  pl_recv := match recv with Some _ => popAt (pl_recv pl) recvRank | None => pl_recv pl end;
  pl_nTasksP2p := pl_nTasksP2p pl - present send - present recv;
  pl_nTasksP2pSend := pl_nTasksP2pSend pl - present send;
  pl_nTasksP2pRecv := pl_nTasksP2pRecv pl - present recv |}.

Definition addTasks (plan : p2pPlan) (send recv : option p2pTask) : p2pPlan := {|
  pp_channels := pp_channels plan; pp_nWorkBatches := pp_nWorkBatches plan; pp_workBytes := pp_workBytes plan;
  pp_channelMask := pp_channelMask plan; pp_pairCounter := pp_pairCounter plan; pp_entries := pp_entries plan;
  pp_proxyCalls := pp_proxyCalls plan; pp_tasks := pp_tasks plan ++ option_list send ++ option_list recv |}.

Inductive roundResult :=
  | RError (e : ncclResult_t)
  | RFull
  | RNext (pl : p2pPlanner) (plan : p2pPlan).

(** Whether a round is a send to oneself in place. *)
Definition inPlace (send recv : option p2pTask) : bool :=
  match send, recv with Some s, Some r => tp_buff s =? tp_buff r | _, _ => false end.

(** The body of the loop over the rounds. *)
(* src/src/enqueue/enqueue.cc:1318-1390 scheduleP2pTasksToPlan *)
Definition scheduleRound (budget : ncclKernelPlanBudget) (nChannelsMin nChannelsMax : Z) (planTotalTasks : bool -> Z)
    (p2pEpoch p2pRound : Z) (pl : p2pPlanner) (plan : p2pPlan) : option roundResult :=
  '(sendRank, recvRank) ← pm_schedule comm !! Z.to_nat p2pRound;
  let send := head (pl_send pl sendRank) in
  let recv := head (pl_recv pl recvRank) in
  match send, recv with
  | None, None => Some (RNext pl plan)
  | _, _ =>
      if (sendRank =? pm_rank comm) && negb (present send =? present recv) then Some (RError ncclInvalidUsage)
      else if (sendRank =? pm_rank comm) && inPlace send recv then Some (RNext (dequeue pl sendRank recvRank send recv) plan)
      else if negb (ncclTestBudget budget (pp_nWorkBatches plan + nChannelsMax) (pp_workBytes plan + ncclDevWorkSize ncclDevWorkTypeP2p))
      then Some RFull
      else
        e ← p2pEntryOf nChannelsMin nChannelsMax p2pEpoch p2pRound sendRank recvRank send recv;
        plan ← addP2pToPlan plan planTotalTasks e;
        Some (RNext (dequeue pl sendRank recvRank send recv) (addTasks plan send recv))
  end.

(** The loop over the rounds from [p2pRound] on: an error, the round at which the
    plan was full, or the end of the epoch. *)
(* src/src/enqueue/enqueue.cc:1316-1391 scheduleP2pTasksToPlan *)
Fixpoint scheduleRounds (fuel : nat) (budget : ncclKernelPlanBudget) (nChannelsMin nChannelsMax : Z) (planTotalTasks : bool -> Z)
    (p2pEpoch p2pRound : Z) (pl : p2pPlanner) (plan : p2pPlan) : option (ncclResult_t + Z * p2pPlanner * p2pPlan) :=
  if negb (p2pRound <? pm_nRanks comm) then Some (inr (p2pRound, pl, plan))
  else match fuel with
       | O => None
       | S fuel =>
           res ← scheduleRound budget nChannelsMin nChannelsMax planTotalTasks p2pEpoch p2pRound pl plan;
           match res with
           | RError e => Some (inl e)
           | RFull => Some (inr (p2pRound, pl, plan))
           | RNext pl plan => scheduleRounds fuel budget nChannelsMin nChannelsMax planTotalTasks p2pEpoch (p2pRound + 1) pl plan
           end
       end.

(** The loop over the epochs. *)
(* src/src/enqueue/enqueue.cc:1315-1395 scheduleP2pTasksToPlan *)
Fixpoint scheduleEpochs (fuel : nat) (budget : ncclKernelPlanBudget) (nChannelsMin nChannelsMax : Z) (planTotalTasks : bool -> Z)
    (p2pEpoch p2pRound : Z) (pl : p2pPlanner) (plan : p2pPlan) : option (ncclResult_t + Z * Z * p2pPlanner * p2pPlan) :=
  if pl_nTasksP2p pl =? 0 then Some (inr (p2pEpoch, p2pRound, pl, plan))
  else match fuel with
       | O => None
       | S fuel =>
           res ← scheduleRounds (Z.to_nat (pm_nRanks comm)) budget nChannelsMin nChannelsMax planTotalTasks p2pEpoch p2pRound pl plan;
           match res with
           | inl e => Some (inl e)
           | inr (p2pRound, pl, plan) =>
               if p2pRound <? pm_nRanks comm then Some (inr (p2pEpoch, p2pRound, pl, plan))
               else scheduleEpochs fuel budget nChannelsMin nChannelsMax planTotalTasks (p2pEpoch + 1) 0 pl plan
           end
       end.

(** The loop that halves the least number of channels; it ends because the number is
    divided by two. *)
(* src/src/enqueue/enqueue.cc:1307-1311 scheduleP2pTasksToPlan *)
Fixpoint lessChannels (fuel : nat) (nChannelsMin : Z) : option Z :=
  if (pm_p2pnChannels comm <? nChannelsMin * pm_nRanks comm) && (1 <? nChannelsMin) then
    match fuel with
    | O => None
    | S fuel => lessChannels fuel (Z.quot nChannelsMin 2)
    end
  else Some nChannelsMin.

(** The kernel function and the number of threads are those of the point-to-point
    kernel.  [fuel] bounds the number of epochs. *)
(* src/src/enqueue/enqueue.cc:1293-1396 scheduleP2pTasksToPlan *)
Definition scheduleP2pTasksToPlan (fuel : nat) (budget : ncclKernelPlanBudget) (p2pEpoch p2pRound : Z) (pl : p2pPlanner) (plan : p2pPlan)
    : option (ncclResult_t + Z * Z * p2pPlanner * p2pPlan) :=
  let nChannelsMax := pm_p2pnChannelsPerPeer comm in
  nChannelsMin ← lessChannels (Z.to_nat nChannelsMax) nChannelsMax;
  let planTotalTasks dir := if (dir : bool) then pl_nTasksP2pSend pl else pl_nTasksP2pRecv pl in
  scheduleEpochs fuel budget nChannelsMin nChannelsMax planTotalTasks p2pEpoch p2pRound pl plan.

Definition freshP2pPlan : p2pPlan := {|
  pp_channels := replicate MAXCHANNELS emptyChannel; pp_nWorkBatches := 0; pp_workBytes := 0; pp_channelMask := 0;
  pp_pairCounter := 0; pp_entries := []; pp_proxyCalls := []; pp_tasks := [] |}.

(** The loop that builds plans until no task is left, when there are only
    point-to-point tasks; plans without work are dropped. *)
(* src/src/enqueue/enqueue.cc:1773-1836 ncclLaunchPrepare *)
Fixpoint launchP2p (fuel epochs : nat) (budget : ncclKernelPlanBudget) (p2pEpoch p2pRound : Z) (pl : p2pPlanner)
    : option (ncclResult_t + list p2pPlan) :=
  match fuel with
  | O => None
  | S fuel =>
      res ← scheduleP2pTasksToPlan epochs budget p2pEpoch p2pRound pl freshP2pPlan;
      match res with
      | inl e => Some (inl e)
      | inr (p2pEpoch, p2pRound, pl, plan) =>
          let plans := if pp_workBytes plan =? 0 then [] else [plan] in
          if pl_nTasksP2p pl =? 0 then Some (inr plans)
          else
            rest ← launchP2p fuel epochs budget p2pEpoch p2pRound pl;
            match rest with inl e => Some (inl e) | inr rest => Some (inr (plans ++ rest)) end
      end
  end.

(** ** What the planner relies on *)

(** Schedules as P2pSched gives them, numbers of channels as the topology gives them. *)
Record p2pCommOk : Prop := {
  ck_length : Z.of_nat (length (pm_schedule comm)) = pm_nRanks comm;
  ck_send : NoDup (pm_schedule comm).*1;
  ck_recv : NoDup (pm_schedule comm).*2;
  ck_self : forall s q, (s, q) ∈ pm_schedule comm -> s = pm_rank comm <-> q = pm_rank comm;
  ck_channels : exists k, 0 <= k <= 6 /\ pm_p2pnChannels comm = 2 ^ k;
  ck_perPeer : 1 <= pm_p2pnChannelsPerPeer comm <= pm_p2pnChannels comm;
  ck_chunk : 8 <= pm_p2pChunkSize comm < 2 ^ 25;
  ck_funcId : 0 <= pm_devFuncId comm < 2 ^ 11 }.

(** Messages whose number of parts does not overflow. *)
Definition taskFits (t : p2pTask) : Prop := 0 <= tp_bytes t <= (2 ^ 31 - 1) * Z.quot (pm_p2pChunkSize comm) 8.

Lemma moreChannels_ok bytes maxPart nMax : forall fuel n partSize,
  1 <= n <= nMax -> nMax < n * 2 ^ Z.of_nat fuel -> exists n', moreChannels fuel bytes maxPart nMax n partSize = Some n' /\ 1 <= n' <= nMax.
Proof.
  induction fuel as [|fuel IH]; intros n partSize Hn Hf.
  - simpl in Hf. lia.
  - cbn [moreChannels]. destruct (Z.leb_spec n (Z.quot nMax 2)) as [Hle|Hgt]; [|rewrite andb_false_r; by exists n].
    destruct (_ <? _); simpl; [|by exists n]. rewrite Z.quot_div_nonneg in Hle by lia. pose proof (Z.mul_div_le nMax 2).
    apply IH; [lia|]. rewrite Nat2Z.inj_succ, Z.pow_succ_r in Hf by lia. lia.
Qed.

Lemma pow2_fuel n : 0 <= n -> n < 2 ^ Z.of_nat (Z.to_nat n).
Proof. intros H. rewrite Z2Nat.id by done. by apply Z.pow_gt_lin_r. Qed.

Lemma p2pChannels_ok nMin nMax bytes :
  p2pCommOk -> 1 <= nMin <= nMax -> nMax <= 64 -> bytes = -1 \/ 0 <= bytes <= (2 ^ 31 - 1) * Z.quot (pm_p2pChunkSize comm) 8 ->
  exists n, p2pChannels nMin nMax bytes = Some n /\ (if bytes =? -1 then n = 0 else 1 <= n <= nMax).
Proof.
  intros C Hn Hmax Hb. pose proof (ck_chunk C) as Hchunk. unfold p2pChannels.
  destruct (Z.eqb_spec bytes (-1)) as [|Hne]; [by exists 0|]. destruct Hb as [|Hb]; [done|].
  destruct (Z.eqb_spec bytes 0) as [|Hne0]; [exists 1; split; [done|lia]|].
  set (minPart := if 1 <? pm_nNodes comm then Z.quot (pm_p2pChunkSize comm) 2 else Z.quot (pm_p2pChunkSize comm) 8).
  assert (1 <= Z.quot (pm_p2pChunkSize comm) 8 <= minPart /\ minPart < 2 ^ 25) as [Hmp Hmp2].
  { unfold minPart. rewrite !Z.quot_div_nonneg by lia.
    assert (1 <= pm_p2pChunkSize comm / 8) by (apply Z.div_le_lower_bound; lia).
    assert (pm_p2pChunkSize comm / 8 <= pm_p2pChunkSize comm / 2) by (apply Z.div_le_compat_l; lia).
    pose proof (Z.div_lt (pm_p2pChunkSize comm) 8). pose proof (Z.div_lt (pm_p2pChunkSize comm) 2). case_match; lia. }
  assert (bytes < 2 ^ 31 * 2 ^ 25) by nia.
  assert (1 <= cwrap i32 (divUp i64 bytes minPart)) as Hq.
  { rewrite (divUp_eq i64) by (fits_lia || lia || done). 
    assert (1 <= (bytes + minPart - 1) / minPart <= 2 ^ 31 - 1).
    { split; [apply Z.div_le_lower_bound; lia|]. apply Z.lt_succ_r, Z.div_lt_upper_bound; [lia|]. nia. }
    rewrite cwrap_fits; [lia|done|fits_lia]. }
  apply moreChannels_ok; [lia|]. pose proof (pow2_fuel nMax ltac:(lia)). nia.
Qed.

Definition optFits (t : option p2pTask) : Prop := match t with Some t => taskFits t | None => True end.

Lemma p2pDir_ok dir self task peer nMin nMax base :
  p2pCommOk -> 1 <= nMin <= nMax -> nMax <= 64 -> optFits task ->
  exists d, p2pDir dir self task peer nMin nMax base = Some d /\
    match task with None => di_nChannels d = 0 | Some _ => 1 <= di_nChannels d <= nMax end.
Proof.
  intros C Hn Hmax Ht. unfold p2pDir.
  destruct (p2pChannels_ok nMin nMax (match task with Some t => tp_bytes t | None => -1 end) C Hn Hmax) as (n & -> & Hnc);
    [destruct task; [right; apply Ht|by left]|].
  cbn [mbind option_bind]. destruct (p2pChunk _ _ _) as [c8 cs]. 
  match goal with |- context [let '(_, _) := ?x in _] => destruct x as [[netReg ipcReg] addr] eqn:Ereg end.
  eexists. split; [reflexivity|]. cbn [di_nChannels].
  set (reg := if 0 <? pm_paramRegNetBw comm then _ else _).
  assert (1 <= reg) by (unfold reg; cbv zeta; destruct (0 <? pm_paramRegNetBw comm); lia).
  destruct task as [t|].
  - destruct Ht as [Ht _]. rewrite (proj2 (Z.eqb_neq (tp_bytes t) (-1))) in Hnc by lia. destruct netReg; lia.
  - injection Ereg as <- <- <-. by simpl in Hnc.
Qed.

(** The transfer of a round with one task at least. *)
Lemma p2pEntryOf_ok nMin nMax epoch round s q send recv :
  p2pCommOk -> 1 <= nMin <= nMax -> nMax <= 64 -> optFits send -> optFits recv -> (send <> None \/ recv <> None) ->
  exists e, p2pEntryOf nMin nMax epoch round s q send recv = Some e /\ 1 <= en_nParts e <= nMax /\
    en_epoch e = epoch /\ en_round e = round /\ en_send e = send /\ en_recv e = recv /\
    sendRank (en_work e) = s /\ recvRank (en_work e) = q /\
    channelBase (en_work e) = ncclP2pChannelBaseForRound (pm_nNodes comm) (pm_p2pSchedGroupSize comm) (pm_p2pnChannels comm) round.
Proof.
  intros C Hn Hmax Hs Hr Hne. unfold p2pEntryOf.
  edestruct (p2pDir_ok false) as (dr & -> & Hdr); [done..|]. edestruct (p2pDir_ok true) as (ds & -> & Hds); [done..|].
  eexists. split; [reflexivity|]. unfold en_nParts. cbn [en_dirs en_epoch en_round en_send en_recv en_work sendRank recvRank channelBase].
  split; [|done]. destruct send, recv; lia || naive_solver.
Qed.

(** ** The channels of a transfer *)

(** The channel has a part of the transfer. *)
Definition usesChannel (e : p2pEntry) (c : nat) : bool :=
  (Z.of_nat c <? pm_p2pnChannels comm) && (ncclP2pChannelToPart (pm_p2pnChannels comm) (channelBase (en_work e)) (Z.of_nat c) <? en_nParts e).

Definition baseOk (e : p2pEntry) : Prop := 0 <= channelBase (en_work e) < 256.

Lemma channelForPart_eq base part : p2pCommOk -> 0 <= base < 256 -> 0 <= part < 64 ->
  ncclP2pChannelForPart (pm_p2pnChannels comm) base part = (base + part) mod pm_p2pnChannels comm.
Proof.
  intros C Hb Hp. destruct (ck_channels C) as (k & Hk & ->). unfold ncclP2pChannelForPart. rewrite cwrap_fits by (done || fits_lia).
  replace (2 ^ k - 1) with (Z.ones k) by (rewrite Z.ones_equiv; lia). by rewrite Z.land_ones by lia.
Qed.

Lemma channelToPart_eq base c : p2pCommOk -> 0 <= base < 256 -> 0 <= c < 64 ->
  ncclP2pChannelToPart (pm_p2pnChannels comm) base c = (c - base) mod pm_p2pnChannels comm.
Proof.
  intros C Hb Hp. destruct (ck_channels C) as (k & Hk & ->). unfold ncclP2pChannelToPart. rewrite cwrap_fits by (done || fits_lia).
  replace (2 ^ k - 1) with (Z.ones k) by (rewrite Z.ones_equiv; lia). by rewrite Z.land_ones by lia.
Qed.

Lemma channels_bound : p2pCommOk -> 1 <= pm_p2pnChannels comm <= 64.
Proof.
  intros C. destruct (ck_channels C) as (k & Hk & ->). assert (2 ^ k <= 2 ^ 6) by (apply Z.pow_le_mono_r; lia). lia.
Qed.

(** Channel and part determine each other. *)
Lemma channel_part base c part : p2pCommOk -> 0 <= base < 256 -> 0 <= part < pm_p2pnChannels comm -> 0 <= c < pm_p2pnChannels comm ->
  ncclP2pChannelForPart (pm_p2pnChannels comm) base part = c <-> ncclP2pChannelToPart (pm_p2pnChannels comm) base c = part.
Proof.
  intros C Hb Hp Hc. pose proof (channels_bound C). rewrite channelForPart_eq, channelToPart_eq by (done || lia).
  split; intros <-.
  - rewrite Zminus_mod_idemp_l. replace (base + part - base) with part by lia. by apply Z.mod_small.
  - rewrite Zplus_mod_idemp_r. replace (base + (c - base)) with c by lia. by apply Z.mod_small.
Qed.

Definition partChannel (e : p2pEntry) (part : nat) : nat :=
  Z.to_nat (ncclP2pChannelForPart (pm_p2pnChannels comm) (channelBase (en_work e)) (Z.of_nat part)).

Lemma partChannel_lt e part : p2pCommOk -> baseOk e -> (part < 64)%nat -> Z.of_nat (partChannel e part) < pm_p2pnChannels comm.
Proof.
  intros C Hb Hp. pose proof (channels_bound C). unfold partChannel. rewrite channelForPart_eq by (done || lia).
  pose proof (Z.mod_pos_bound (channelBase (en_work e) + Z.of_nat part) (pm_p2pnChannels comm)). lia.
Qed.

(** The channels of the parts are different, and they are those the transfer uses. *)
Lemma partChannels_NoDup e : p2pCommOk -> baseOk e -> 0 <= en_nParts e <= pm_p2pnChannels comm ->
  NoDup (partChannel e <$> seq 0 (Z.to_nat (en_nParts e))).
Proof.
  intros C Hb Hn. pose proof (channels_bound C). apply NoDup_fmap_2_strong; [|apply NoDup_seq]. intros x y Hx%elem_of_seq Hy%elem_of_seq E.
  assert (0 <= ncclP2pChannelForPart (pm_p2pnChannels comm) (channelBase (en_work e)) (Z.of_nat x) < pm_p2pnChannels comm) as Hc.
  { rewrite channelForPart_eq by (done || lia). apply Z.mod_pos_bound. lia. }
  assert (0 <= ncclP2pChannelForPart (pm_p2pnChannels comm) (channelBase (en_work e)) (Z.of_nat y) < pm_p2pnChannels comm) as Hc'.
  { rewrite channelForPart_eq by (done || lia). apply Z.mod_pos_bound. lia. }
  unfold partChannel in E. apply Z2Nat.inj in E; [|lia|lia].
  pose proof (proj1 (channel_part _ _ (Z.of_nat x) C Hb ltac:(lia) Hc) eq_refl) as E1.
  pose proof (proj1 (channel_part _ _ (Z.of_nat y) C Hb ltac:(lia) Hc') eq_refl) as E2. rewrite E in E1. lia.
Qed.

Lemma partChannels_elem e c : p2pCommOk -> baseOk e -> 0 <= en_nParts e <= pm_p2pnChannels comm -> Z.of_nat c < pm_p2pnChannels comm ->
  c ∈ partChannel e <$> seq 0 (Z.to_nat (en_nParts e)) <-> usesChannel e c = true.
Proof.
  intros C Hb Hn Hc. pose proof (channels_bound C). unfold usesChannel. rewrite (proj2 (Z.ltb_lt _ _) Hc), andb_true_l, Z.ltb_lt, list_elem_of_fmap.
  set (p := ncclP2pChannelToPart (pm_p2pnChannels comm) (channelBase (en_work e)) (Z.of_nat c)).
  assert (0 <= p < pm_p2pnChannels comm) as Hp.
  { unfold p. rewrite channelToPart_eq by (done || lia). apply Z.mod_pos_bound. lia. }
  pose proof (fun q Hq => channel_part (channelBase (en_work e)) (Z.of_nat c) q C Hb Hq ltac:(lia)) as Hcp. fold p in Hcp. split.
  - intros (x & -> & Hx%elem_of_seq). assert (p = Z.of_nat x); [|lia]. apply Hcp; [lia|]. unfold partChannel. rewrite Z2Nat.id; [done|].
    rewrite channelForPart_eq by (done || lia). apply Z.mod_pos_bound. lia.
  - intros Hlt. exists (Z.to_nat p). split; [|apply elem_of_seq; lia]. unfold partChannel. rewrite Z2Nat.id by lia.
    rewrite (proj2 (Hcp p Hp) eq_refl). lia.
Qed.

(** ** The batches of the channels *)

(** The works of channel [c], as items of its batches. *)
Fixpoint p2pItems (c : nat) (offset : Z) (es : list p2pEntry) : list workItem :=
  match es with
  | [] => []
  | e :: es => (if usesChannel e c then [p2pItem (en_epoch e) (en_round e) offset] else []) ++ p2pItems c (offset + 48) es
  end.

Lemma p2pItems_app c off es es' : p2pItems c off (es ++ es') = p2pItems c off es ++ p2pItems c (off + 48 * Z.of_nat (length es)) es'.
Proof.
  revert off. induction es as [|e es IH]; intros off; simpl; [by rewrite Z.add_0_r|]. rewrite IH, app_assoc. do 2 f_equal. lia.
Qed.

Lemma p2pItems_bound c off es : Forall (fun x => off <= wi_offset x < off + 48 * Z.of_nat (length es)) (p2pItems c off es).
Proof.
  revert off. induction es as [|e es IH]; intros off; simpl; [constructor|]. apply Forall_app. split.
  - destruct (usesChannel e c); [|constructor]. constructor; [simpl; lia|constructor].
  - eapply Forall_impl; [apply IH|]. simpl. intros x Hx. lia.
Qed.

Lemma p2pItems_sorted c off es : Sorted Z.lt (map wi_offset (p2pItems c off es)).
Proof.
  apply StronglySorted_Sorted. revert off. induction es as [|e es IH]; intros off; simpl; [constructor|].
  destruct (usesChannel e c); simpl; [|apply IH]. constructor; [apply IH|]. apply Forall_map.
  eapply Forall_impl; [apply p2pItems_bound|]. simpl. intros x Hx. lia.
Qed.

Lemma p2pItems_ok c es : p2pCommOk -> 48 * Z.of_nat (length es) <= 2 ^ 32 -> Forall workOk (p2pItems c 0 es).
Proof.
  intros C Hes. assert (forall off, Forall (fun x => wi_funcId x = pm_devFuncId comm) (p2pItems c off es)) as Hf.
  { clear Hes. induction es as [|e es IH]; intros off; simpl; [constructor|]. apply Forall_app. split; [|apply IH]. destruct (usesChannel e c); repeat constructor. }
  pose proof (p2pItems_bound c 0 es) as Hb. specialize (Hf 0). rewrite Forall_forall in Hb, Hf |- *. intros x Hx. split; [|by rewrite Hf by done; apply C].
  specialize (Hb x Hx). simpl in Hb. lia.
Qed.

(** The number of batches is only counted. *)
Lemma addWork_shift arch ep chan n w chan' n' : addWork arch ep (chan, n) w = Some (chan', n') ->
  0 <= n' - n <= 1 /\ forall m, addWork arch ep (chan, m) w = Some (chan', m + (n' - n)).
Proof.
  unfold addWork, ncclAddWorkBatchToPlan. cbn [fst snd]. cbv zeta.
  match goal with |- context [if ?b then None else _] => destruct b end; [done|]. intros [= <- <-].
  match goal with |- context [if ?b then 1 else 0] => destruct b end; (split; [lia|]; intros m; do 2 f_equal; lia).
Qed.

Record planOk (plan : p2pPlan) : Prop := {
  pk_length : length (pp_channels plan) = MAXCHANNELS;
  pk_bytes : pp_workBytes plan = 48 * Z.of_nat (length (pp_entries plan));
  pk_offsets : pp_workBytes plan <= 2 ^ 32;
  pk_entries : Forall (fun e => baseOk e /\ 1 <= en_nParts e <= pm_p2pnChannelsPerPeer comm) (pp_entries plan);
  pk_channels : forall c, (c < MAXCHANNELS)%nat -> exists chan n, pp_channels plan !! c = Some chan /\
    addWorks (pm_cudaArch comm) (pm_epochEnable comm) (emptyChannel, 0) (p2pItems c 0 (pp_entries plan)) = Some (chan, n);
  pk_mask : 0 <= pp_channelMask plan < 2 ^ 64 /\
    forall c : nat, (c < MAXCHANNELS)%nat -> Z.testbit (pp_channelMask plan) (Z.of_nat c) = true <-> p2pItems c 0 (pp_entries plan) <> [];
  pk_batches : 0 <= pp_nWorkBatches plan }.

Lemma freshP2pPlan_ok : planOk freshP2pPlan.
Proof.
  constructor; [done|done|done|by constructor| |split; [done|]|done].
  - intros c Hc. exists emptyChannel, 0. split; [by apply lookup_replicate_2|done].
  - intros c _. cbn [pp_channelMask pp_entries freshP2pPlan p2pItems]. by rewrite Z.bits_0.
Qed.

Lemma bit_mask c : 0 <= c < 64 -> cwrap u64 (Z.shiftl 1 c) = 2 ^ c.
Proof.
  intros Hc. rewrite Z.shiftl_1_l. apply cwrap_fits; [done|]. assert (2 ^ c < 2 ^ 64) by (apply Z.pow_lt_mono_r; lia).
  assert (0 < 2 ^ c) by (apply Z.pow_pos_nonneg; lia). fits_lia.
Qed.

Lemma addParts_ok e concurrent offset : p2pCommOk -> baseOk e -> forall parts plan,
  NoDup (partChannel e <$> parts) -> Forall (fun part => (part < 64)%nat) parts -> length (pp_channels plan) = MAXCHANNELS ->
  0 <= pp_channelMask plan < 2 ^ 64 -> 0 <= pp_nWorkBatches plan ->
  (forall c chan, c ∈ partChannel e <$> parts -> pp_channels plan !! c = Some chan ->
     exists res, addWork (pm_cudaArch comm) (pm_epochEnable comm) (chan, 0) (p2pItem (en_epoch e) (en_round e) offset) = Some res) ->
  exists plan', addParts e concurrent offset parts plan = Some plan' /\
    length (pp_channels plan') = MAXCHANNELS /\ pp_workBytes plan' = pp_workBytes plan /\ pp_entries plan' = pp_entries plan /\
    pp_nWorkBatches plan <= pp_nWorkBatches plan' <= pp_nWorkBatches plan + Z.of_nat (length parts) /\
    0 <= pp_channelMask plan' < 2 ^ 64 /\
    (forall c : nat, (c < MAXCHANNELS)%nat -> Z.testbit (pp_channelMask plan') (Z.of_nat c) = Z.testbit (pp_channelMask plan) (Z.of_nat c) || bool_decide (c ∈ partChannel e <$> parts)) /\
    forall c chan, pp_channels plan !! c = Some chan -> exists chan', pp_channels plan' !! c = Some chan' /\
      if bool_decide (c ∈ partChannel e <$> parts)
      then exists n, addWork (pm_cudaArch comm) (pm_epochEnable comm) (chan, 0) (p2pItem (en_epoch e) (en_round e) offset) = Some (chan', n)
      else chan' = chan.
Proof.
  intros C Hb. induction parts as [|part parts IH]; intros plan Hnd Hlt Hlen Hm Hnb Hadd.
  { exists plan. cbn [fmap list_fmap addParts].
    split; [done|]. split; [done|]. split; [done|]. split; [done|]. split; [cbn [length]; lia|]. split; [done|]. split.
    - intros c _. rewrite bool_decide_false by set_solver. by rewrite orb_false_r.
    - intros c chan Hc. exists chan. split; [done|]. rewrite bool_decide_false by set_solver. done. }
  assert (forall c, c ∈ partChannel e <$> part :: parts <-> c = partChannel e part \/ c ∈ partChannel e <$> parts) as Hcons.
  { intros c. by rewrite fmap_cons, elem_of_cons. }
  apply Forall_cons in Hlt as [Hp Hlt]. cbn [fmap list_fmap] in Hnd. apply NoDup_cons in Hnd as [Hni Hnd].
  pose proof (partChannel_lt e part C Hb Hp) as Hc. pose proof (channels_bound C) as HC.
  assert (ncclP2pChannelForPart (pm_p2pnChannels comm) (channelBase (en_work e)) (Z.of_nat part) = Z.of_nat (partChannel e part)) as Ech.
  { unfold partChannel. rewrite Z2Nat.id; [done|]. rewrite channelForPart_eq by (done || lia). apply Z.mod_pos_bound. lia. }
  cbn [addParts]. rewrite Ech, Nat2Z.id.
  destruct (lookup_lt_is_Some_2 (pp_channels plan) (partChannel e part)) as [chan Hchan]; [rewrite Hlen; unfold MAXCHANNELS; lia|].
  rewrite Hchan. cbn [mbind option_bind].
  destruct (Hadd (partChannel e part) chan) as [[chan1 n1] Hw]; [apply Hcons; by left|done|].
  destruct (addWork_shift _ _ _ _ _ _ _ Hw) as [Hn1 Hshift]. rewrite (Hshift (pp_nWorkBatches plan)). cbn [mbind option_bind].
  match goal with |- context [addParts e concurrent offset parts ?p] => pose proof (IH p Hnd Hlt) as IHp end.
  cbn [pp_channels pp_nWorkBatches pp_workBytes pp_channelMask pp_entries] in IHp. rewrite length_insert in IHp.
  destruct IHp as (plan' & E & L & W1 & W2 & W3 & W4 & W5 & W6).
  { done. }
  { rewrite bit_mask by lia. apply lor_lt; [lia|done|]. split; [apply Z.pow_nonneg; lia|apply Z.pow_lt_mono_r; lia]. }
  { lia. }
  { intros c ch Hcin Hch. rewrite list_lookup_insert_ne in Hch by (intros Heq; apply Hni; by rewrite Heq). apply (Hadd c ch); [apply Hcons; by right|done]. }
  exists plan'.
  split; [done|]. split; [done|]. split; [done|]. split; [done|]. split; [cbn [length]; lia|]. split; [done|]. split.
  - intros c Hc'. rewrite W5, Z.lor_spec, bit_mask, Z.pow2_bits_eqb by (done || lia). rewrite <- orb_assoc. f_equal.
    destruct (decide (c = partChannel e part)) as [->|Hne].
    + rewrite Z.eqb_refl, (bool_decide_true (partChannel e part ∈ partChannel e <$> part :: parts)) by (apply Hcons; by left). done.
    + rewrite (proj2 (Z.eqb_neq _ _)) by lia. simpl. apply bool_decide_ext. rewrite Hcons. naive_solver.
  - intros c ch Hch. destruct (decide (c = partChannel e part)) as [->|Hne].
    + destruct (W6 (partChannel e part) chan1) as (ch2 & E2 & H2); [apply list_lookup_insert_eq; rewrite Hlen; unfold MAXCHANNELS; lia|].
      exists ch2. split; [done|]. rewrite bool_decide_false in H2 by done. rewrite bool_decide_true by (apply Hcons; by left). subst ch2.
      rewrite Hchan in Hch. injection Hch as <-. by exists n1.
    + destruct (W6 c ch) as (ch2 & E2 & H2); [by rewrite list_lookup_insert_ne|]. exists ch2. split; [done|].
      rewrite (bool_decide_ext _ (c ∈ partChannel e <$> parts)) by (rewrite Hcons; naive_solver). done.
Qed.

Lemma items_accepted c es : p2pCommOk -> 48 * Z.of_nat (length es) <= 2 ^ 32 ->
  exists res, addWorks (pm_cudaArch comm) (pm_epochEnable comm) (emptyChannel, 0) (p2pItems c 0 es) = Some res.
Proof.
  intros C Hes. destruct (addWorks_ok (pm_cudaArch comm) (pm_epochEnable comm) (p2pItems c 0 es) emptyChannel 0 []) as (chan & n & gs & E & _);
    [by split; [|left]|by apply p2pItems_ok|apply p2pItems_sorted|done|by eexists].
Qed.

(** Adding a transfer keeps the plan. *)
Lemma addP2pToPlan_ok plan total e :
  p2pCommOk -> planOk plan -> baseOk e -> 1 <= en_nParts e <= pm_p2pnChannelsPerPeer comm -> pp_workBytes plan + 48 <= 2 ^ 32 ->
  exists plan', addP2pToPlan plan total e = Some plan' /\ planOk plan' /\ pp_entries plan' = pp_entries plan ++ [e] /\
    pp_nWorkBatches plan' <= pp_nWorkBatches plan + pm_p2pnChannelsPerPeer comm.
Proof.
  intros C P Hb Hn H32. pose proof (ck_perPeer C) as Hpp. pose proof (channels_bound C) as HC. pose proof (pk_bytes _ P) as Hbytes.
  assert (cwrap u32 (pp_workBytes plan) = pp_workBytes plan) as Hoff by (apply cwrap_fits; [done|fits_lia]).
  assert (forall c, p2pItems c 0 (pp_entries plan ++ [e]) = p2pItems c 0 (pp_entries plan) ++
    if usesChannel e c then [p2pItem (en_epoch e) (en_round e) (pp_workBytes plan)] else []) as Hitems.
  { intros c. rewrite p2pItems_app. simpl. rewrite app_nil_r, Z.add_0_l, Hbytes. done. }
  assert (forall c, c ∈ partChannel e <$> seq 0 (Z.to_nat (en_nParts e)) <-> usesChannel e c = true) as Hel.
  { intros c. destruct (decide (Z.of_nat c < pm_p2pnChannels comm)) as [Hc|Hc]; [apply partChannels_elem; (done || lia)|].
    split; [|unfold usesChannel; rewrite (proj2 (Z.ltb_ge _ _)) by lia; done].
    intros (part & -> & Hpart%elem_of_seq)%list_elem_of_fmap. destruct Hc. apply partChannel_lt; (done || lia). }
  unfold addP2pToPlan. rewrite Hoff.
  set (plan0 := {| pp_channels := pp_channels plan |}) in *.
  set (conc := fun dir : bool => _).
  destruct (addParts_ok e conc (pp_workBytes plan) C Hb (seq 0 (Z.to_nat (en_nParts e))) plan0) as (plan' & E & L & W1 & W2 & W3 & W4 & W5 & W6).
  { apply partChannels_NoDup; (done || lia). }
  { apply Forall_forall. intros x Hx%elem_of_seq. lia. }
  { apply P. }
  { apply P. }
  { apply P. }
  { intros c chan Hc Hchan. apply Hel in Hc as Hu.
    destruct (pk_channels _ P c) as (chan' & n & Hchan' & Hadd).
    { apply lookup_lt_Some in Hchan. cbn in Hchan. by rewrite (pk_length _ P) in Hchan. }
    cbn [pp_channels plan0] in Hchan. rewrite Hchan in Hchan'. injection Hchan' as <-.
    destruct (items_accepted c (pp_entries plan ++ [e]) C) as [[ch' n'] Hall]; [rewrite length_app; simpl; lia|].
    rewrite Hitems, Hu, addWorks_snoc, Hadd in Hall. apply addWork_shift in Hall as [_ Hall]. by eexists. }
  cbn [pp_channels pp_nWorkBatches pp_workBytes pp_channelMask pp_entries plan0] in *.
  exists plan'. split; [done|]. split; [|split; [done|rewrite length_seq in W3; lia]].
  constructor; [done|rewrite W1, W2, length_app; simpl; lia|rewrite W1; simpl; lia| | | |destruct W3; pose proof (pk_batches _ P); lia].
  - rewrite W2. apply Forall_app. split; [apply P|by constructor].
  - intros c Hc. destruct (pk_channels _ P c Hc) as (chan & n & Hchan & Hadd). destruct (W6 c chan Hchan) as (chan' & Hchan' & Hcase).
    rewrite W2, Hitems. rewrite (bool_decide_ext _ (usesChannel e c = true)) in Hcase by apply Hel.
    destruct (usesChannel e c); [rewrite bool_decide_true in Hcase by done|rewrite bool_decide_false in Hcase by done; subst; rewrite app_nil_r; by exists chan, n].
    destruct Hcase as [n' Hw]. apply addWork_shift in Hw as [_ Hw]. exists chan', (n + (n' - 0)). split; [done|]. by rewrite addWorks_snoc, Hadd.
  - split; [done|]. intros c Hc. rewrite W5, W2, Hitems, orb_true_iff, (proj2 (pk_mask _ P) c Hc), bool_decide_eq_true, Hel by done.
    destruct (usesChannel e c); [|rewrite app_nil_r; naive_solver]. split; [intros _ [_ [=]]%app_eq_nil|by right].
Qed.

(** ** The order of the transfers *)

(** The queues before anything is planned. *)
Context (S0 R0 : Z -> list p2pTask).

Local Abbreviation nMax := (pm_p2pnChannelsPerPeer comm).
Local Abbreviation sched := (pm_schedule comm).

(** Every message fits, and the sends to oneself have their receives. *)
Record queuesOk : Prop := {
  qk_send : forall s q t, (s, q) ∈ sched -> t ∈ S0 s -> taskFits t;
  qk_recv : forall s q t, (s, q) ∈ sched -> t ∈ R0 q -> taskFits t;
  qk_self : length (S0 (pm_rank comm)) = length (R0 (pm_rank comm)) }.

(** The transfer of round [t] of epoch [e]: the send number [e] to one peer and the
    receive number [e] from the other one. *)
Definition roundEntry (nMin : Z) (e t : nat) : option p2pEntry :=
  '(s, q) ← sched !! t;
  let send := S0 s !! e in
  let recv := R0 q !! e in
  match send, recv with
  | None, None => None
  | _, _ =>
      if (s =? pm_rank comm) && inPlace send recv then None
      else p2pEntryOf nMin nMax (Z.of_nat e) (Z.of_nat t) s q send recv
  end.

(** The transfers before round [t] of epoch [e]. *)
Definition transfers (nMin : Z) (e t : nat) : list p2pEntry :=
  (e' ← seq 0 e; omap (roundEntry nMin e') (seq 0 (length sched))) ++ omap (roundEntry nMin e) (seq 0 t).

(** How many tasks the peers of round [i] have given. *)
Definition given (e t i : nat) : nat := if decide (i < t)%nat then S e else e.

Definition sumLengths (q : Z -> list p2pTask) (l : list Z) : Z := foldr (fun r n => Z.of_nat (length (q r)) + n) 0 l.

Definition total (pl : p2pPlanner) : Z := sumLengths (pl_send pl) sched.*1 + sumLengths (pl_recv pl) sched.*2.

Record queuesAt (pl : p2pPlanner) (e t : nat) : Prop := {
  qa_send : forall i s q, sched !! i = Some (s, q) -> pl_send pl s = drop (given e t i) (S0 s);
  qa_recv : forall i s q, sched !! i = Some (s, q) -> pl_recv pl q = drop (given e t i) (R0 q);
  qa_total : pl_nTasksP2p pl = total pl }.

Lemma given_next e t i : i <> t -> given e (S t) i = given e t i.
Proof. intros H. unfold given. repeat case_decide; lia. Qed.

Lemma given_at e t : given e t t = e /\ given e (S t) t = S e.
Proof. unfold given. rewrite decide_False, decide_True by lia. done. Qed.

Lemma head_drop {A} (l : list A) n : head (drop n l) = l !! n.
Proof. rewrite head_lookup, lookup_drop. by rewrite Nat.add_0_r. Qed.

Lemma tail_of_drop {A} (l : list A) n : tail (drop n l) = drop (S n) l.
Proof. assert (forall l' : list A, tail l' = drop 1 l') as -> by (by intros []). rewrite drop_drop. f_equal. lia. Qed.

Lemma sumLengths_pop q r l : NoDup l -> r ∈ l -> sumLengths (popAt q r) l = sumLengths q l - present (head (q r)).
Proof.
  intros Hnd Hr. assert (forall l, r ∉ l -> sumLengths (popAt q r) l = sumLengths q l) as Hout.
  { clear. induction l as [|x l IH]; intros H; [done|]. simpl. rewrite IH by set_solver. unfold popAt. rewrite (proj2 (Z.eqb_neq x r)) by set_solver. done. }
  induction Hnd as [|x l Hx Hnd IH]; [set_solver|]. simpl. destruct (decide (x = r)) as [->|Hne].
  - rewrite Hout by done. unfold popAt. rewrite Z.eqb_refl. destruct (q r); simpl; lia.
  - rewrite IH by set_solver. unfold popAt. rewrite (proj2 (Z.eqb_neq x r)) by done. lia.
Qed.

Lemma sumLengths_nonneg q l : 0 <= sumLengths q l.
Proof. induction l; simpl; lia. Qed.

Lemma present_head q r : match head (q r) with Some _ => popAt q r | None => q end r = tail (q r).
Proof. unfold popAt. destruct (q r) as [|x l] eqn:E; simpl; [by rewrite E|]. by rewrite Z.eqb_refl, E. Qed.

(** Removing the tasks of round [t]. *)
Lemma dequeue_ok pl e t s q :
  p2pCommOk -> queuesAt pl e t -> sched !! t = Some (s, q) ->
  queuesAt (dequeue pl s q (head (pl_send pl s)) (head (pl_recv pl q))) e (S t) /\
  total (dequeue pl s q (head (pl_send pl s)) (head (pl_recv pl q))) =
    total pl - present (head (pl_send pl s)) - present (head (pl_recv pl q)).
Proof.
  intros C [Hs Hr Ht] Hst.
  assert (forall i s' q', sched !! i = Some (s', q') -> i <> t -> s' <> s /\ q' <> q) as Hother.
  { intros i s' q' Hi Hne. split; intros ->; apply Hne.
    - eapply NoDup_lookup; [apply (ck_send C)| |]; by rewrite list_lookup_fmap, ?Hi, ?Hst.
    - eapply NoDup_lookup; [apply (ck_recv C)| |]; by rewrite list_lookup_fmap, ?Hi, ?Hst. }
  assert (total (dequeue pl s q (head (pl_send pl s)) (head (pl_recv pl q))) =
    total pl - present (head (pl_send pl s)) - present (head (pl_recv pl q))) as Htot.
  { unfold total. cbn [dequeue pl_send pl_recv].
    assert (s ∈ sched.*1 /\ q ∈ sched.*2) as [H1 H2].
    { apply list_elem_of_lookup_2 in Hst. split; apply list_elem_of_fmap; by exists (s, q). }
    destruct (head (pl_send pl s)) eqn:E1, (head (pl_recv pl q)) eqn:E2;
      rewrite ?sumLengths_pop, ?E1, ?E2 by (done || apply C); simpl; lia. }
  split; [|done]. constructor.
  - intros i s' q' Hi. cbn [dequeue pl_send]. destruct (decide (i = t)) as [->|Hne].
    + rewrite Hst in Hi. injection Hi as <- <-. rewrite present_head, (Hs _ _ _ Hst). destruct (given_at e t) as [-> ->]. apply tail_of_drop.
    + destruct (Hother i s' q' Hi Hne) as [Hn _]. rewrite given_next, <- (Hs _ _ _ Hi) by done. destruct (head _); [|done]. unfold popAt. by rewrite (proj2 (Z.eqb_neq _ _) Hn).
  - intros i s' q' Hi. cbn [dequeue pl_recv]. destruct (decide (i = t)) as [->|Hne].
    + rewrite Hst in Hi. injection Hi as <- <-. rewrite present_head, (Hr _ _ _ Hst). destruct (given_at e t) as [-> ->]. apply tail_of_drop.
    + destruct (Hother i s' q' Hi Hne) as [_ Hn]. rewrite given_next, <- (Hr _ _ _ Hi) by done. destruct (head (pl_recv pl q)); [|reflexivity]. unfold popAt. by rewrite (proj2 (Z.eqb_neq _ _) Hn).
  - rewrite Htot, <- Ht. done.
Qed.

Lemma base_bound nNodes gs p2pn r : 0 <= ncclP2pChannelBaseForRound nNodes gs p2pn r < 256.
Proof. unfold ncclP2pChannelBaseForRound, cwrap. simpl. by apply Z.mod_pos_bound. Qed.

Lemma addTasks_ok plan send recv : planOk plan -> planOk (addTasks plan send recv).
Proof. intros [H1 H2 H3 H4 H5 H6 H7]. by constructor. Qed.

Lemma round_fits e t s q : queuesOk -> sched !! t = Some (s, q) -> optFits (S0 s !! e) /\ optFits (R0 q !! e).
Proof.
  intros Q Hst. apply list_elem_of_lookup_2 in Hst. split.
  - destruct (S0 s !! e) as [x|] eqn:E; [|done]. apply list_elem_of_lookup_2 in E. by apply (qk_send Q s q).
  - destruct (R0 q !! e) as [x|] eqn:E; [|done]. apply list_elem_of_lookup_2 in E. by apply (qk_recv Q s q).
Qed.

(** Sends to oneself come with their receives. *)
Lemma self_matched e t s q : p2pCommOk -> queuesOk -> sched !! t = Some (s, q) ->
  (s =? pm_rank comm) && negb (present (S0 s !! e) =? present (R0 q !! e)) = false.
Proof.
  intros C Q Hst. destruct (Z.eqb_spec s (pm_rank comm)) as [Hs|]; [|done]. simpl.
  apply list_elem_of_lookup_2 in Hst as Hin. pose proof (proj1 (ck_self C s q Hin) Hs) as Hq. rewrite Hs, Hq in *.
  pose proof (qk_self Q) as Hlen. destruct (S0 (pm_rank comm) !! e) as [x|] eqn:E1, (R0 (pm_rank comm) !! e) as [y|] eqn:E2; try done; exfalso.
  - apply lookup_lt_Some in E1. apply lookup_ge_None in E2. lia.
  - apply lookup_lt_Some in E2. apply lookup_ge_None in E1. lia.
Qed.

Definition fullFor (budget : ncclKernelPlanBudget) (plan : p2pPlan) : Prop :=
  ncclTestBudget budget (pp_nWorkBatches plan + nMax) (pp_workBytes plan + 48) = false.

Lemma scheduleRound_ok budget nMin tot e t s q pl plan :
  p2pCommOk -> queuesOk -> budgetOk budget -> 1 <= nMin <= nMax -> queuesAt pl e t -> planOk plan -> sched !! t = Some (s, q) ->
  exists res, scheduleRound budget nMin nMax tot (Z.of_nat e) (Z.of_nat t) pl plan = Some res /\
    ((res = RFull /\ fullFor budget plan) \/
     exists pl' plan', res = RNext pl' plan' /\ queuesAt pl' e (S t) /\ planOk plan' /\
       pp_entries plan' = pp_entries plan ++ option_list (roundEntry nMin e t) /\ (roundEntry nMin e t = None -> plan' = plan) /\
       total pl' + Z.of_nat (length (option_list (roundEntry nMin e t))) <= total pl).
Proof.
  intros C Q Hb Hn Hq P Hst. pose proof (ck_perPeer C) as Hpp. pose proof (channels_bound C) as HC.
  destruct (dequeue_ok pl e t s q C Hq Hst) as [Hdq Htot].
  assert (head (pl_send pl s) = S0 s !! e /\ head (pl_recv pl q) = R0 q !! e) as [Es Er].
  { rewrite (qa_send _ _ _ Hq _ _ _ Hst), (qa_recv _ _ _ Hq _ _ _ Hst), !head_drop. by destruct (given_at e t) as [-> _]. }
  destruct (round_fits e t s q Q Hst) as [Fs Fr]. pose proof (self_matched e t s q C Q Hst) as Hself.
  unfold scheduleRound, roundEntry. rewrite Nat2Z.id, Hst. cbn [mbind option_bind]. rewrite Es, Er in *. rewrite Hself. cbv iota.
  set (send := S0 s !! e) in *. set (recv := R0 q !! e) in *.
  assert (present send + present recv >= 1 \/ (send = None /\ recv = None)) as Hpres by (destruct send, recv; simpl; auto; lia).
  assert (0 <= present send /\ 0 <= present recv) as [Hp1 Hp2] by (destruct send, recv; simpl; lia).
  destruct (decide (send = None /\ recv = None)) as [[E1 E2]|Hsome].
  { rewrite E1, E2 in *. eexists. split; [reflexivity|]. right. exists pl, plan.
    split; [done|]. split; [|split; [done|split; [symmetry; apply app_nil_r|split; [done|simpl; lia]]]].
    destruct Hdq as [A B D]. constructor; [exact A|exact B|]. cbn [dequeue pl_nTasksP2p present] in D. rewrite !Z.sub_0_r in D. exact D. }
  assert (forall X (a b : X), match send, recv with None, None => a | _, _ => b end = b) as Hmatch by (destruct send, recv; naive_solver).
  rewrite !Hmatch. destruct ((s =? pm_rank comm) && inPlace send recv).
  { eexists. split; [reflexivity|]. right. eexists _, plan.
    split; [reflexivity|]. split; [done|]. split; [done|]. split; [symmetry; apply app_nil_r|]. split; [done|]. simpl. lia. }
  destruct (ncclTestBudget budget (pp_nWorkBatches plan + nMax) (pp_workBytes plan + ncclDevWorkSize ncclDevWorkTypeP2p)) eqn:Ebud; cbn [negb].
  2:{ eexists. split; [reflexivity|]. left. by split. }
  destruct (p2pEntryOf_ok nMin nMax (Z.of_nat e) (Z.of_nat t) s q send recv C Hn ltac:(lia) Fs Fr) as (en & -> & Hnp & _ & _ & _ & _ & _ & _ & Hbase).
  { destruct send; [left; done|]. destruct recv; [right; done|]. naive_solver. }
  cbn [mbind option_bind].
  destruct (addP2pToPlan_ok plan tot en C P) as (plan' & -> & P' & Een & _).
  { unfold baseOk. rewrite Hbase. apply base_bound. }
  { lia. }
  { destruct Hb as [Hb1 Hb2]. pose proof (pk_batches _ P). apply budget_bytes in Ebud; [|done|done|lia]. cbn [ncclDevWorkSize] in Ebud. lia. }
  cbn [mbind option_bind]. eexists. split; [reflexivity|]. right. eexists _, _. split; [reflexivity|].
  split; [done|]. split; [by apply addTasks_ok|]. change (option_list (Some en)) with [en]. cbn [addTasks pp_entries length]. split; [done|]. split; [done|].
  destruct Hpres as [|[? ?]]; [lia|naive_solver].
Qed.

Lemma transfers_next nMin e t : transfers nMin e t ++ option_list (roundEntry nMin e t) = transfers nMin e (S t).
Proof.
  unfold transfers. rewrite <- app_assoc. f_equal. by rewrite (seq_S t 0), omap_app.
Qed.

Lemma transfers_epoch nMin e : transfers nMin e (length sched) = transfers nMin (S e) 0.
Proof. unfold transfers. rewrite (seq_S e 0), bind_app. simpl. by rewrite !app_nil_r. Qed.

Lemma queuesAt_epoch pl e : queuesAt pl e (length sched) -> queuesAt pl (S e) 0.
Proof.
  intros [H1 H2 H3]. constructor; [| |done]; intros i s q Hi; [rewrite (H1 _ _ _ Hi)|rewrite (H2 _ _ _ Hi)]; apply lookup_lt_Some in Hi;
    unfold given; rewrite decide_True, decide_False by lia; done.
Qed.

Lemma queuesAt_start pl : pl_send pl = S0 -> pl_recv pl = R0 -> pl_nTasksP2p pl = total pl -> queuesAt pl 0 0.
Proof. intros E1 E2 Ht. constructor; [| |done]; intros i s q _; by rewrite ?E1, ?E2. Qed.

(** What a part of the planning does: it goes from round [t] of epoch [e] to round
    [t'] of epoch [e'], and adds the transfers between them to the plan. *)
Record planned (nMin : Z) (e t e' t' : nat) (pl pl' : p2pPlanner) (plan plan' : p2pPlan) : Prop := {
  pd_queues : queuesAt pl' e' t';
  pd_plan : planOk plan';
  pd_new : exists new, pp_entries plan' = pp_entries plan ++ new /\ transfers nMin e t ++ new = transfers nMin e' t' /\
    total pl' + Z.of_nat (length new) <= total pl /\ (new = [] -> plan' = plan) }.

Lemma planned_refl nMin e t pl plan : queuesAt pl e t -> planOk plan -> planned nMin e t e t pl pl plan plan.
Proof. intros H P. constructor; [done|done|]. exists []. rewrite !app_nil_r. split_and!; try done. simpl. lia. Qed.

Lemma planned_trans nMin e t e1 t1 e2 t2 pl pl1 pl2 plan plan1 plan2 :
  planned nMin e t e1 t1 pl pl1 plan plan1 -> planned nMin e1 t1 e2 t2 pl1 pl2 plan1 plan2 -> planned nMin e t e2 t2 pl pl2 plan plan2.
Proof.
  intros [_ _ (n1 & E1 & T1 & L1 & F1)] [Q2 P2 (n2 & E2 & T2 & L2 & F2)]. constructor; [done|done|]. exists (n1 ++ n2).
  rewrite E2, E1, <- app_assoc, <- T2, <- T1, <- app_assoc, length_app. split_and!; try done; [lia|].
  intros [-> ->]%app_eq_nil. by rewrite F2, F1.
Qed.

Lemma scheduleRounds_ok budget nMin tot e :
  p2pCommOk -> queuesOk -> budgetOk budget -> 1 <= nMin <= nMax -> forall fuel t pl plan,
  (t <= length sched <= t + fuel)%nat -> queuesAt pl e t -> planOk plan ->
  exists t' pl' plan', scheduleRounds fuel budget nMin nMax tot (Z.of_nat e) (Z.of_nat t) pl plan = Some (inr (Z.of_nat t', pl', plan')) /\
    (t' <= length sched)%nat /\ planned nMin e t e t' pl pl' plan plan' /\ ((t' < length sched)%nat -> fullFor budget plan').
Proof.
  intros C Q Hb Hn. pose proof (ck_length C) as Hlen. induction fuel as [|fuel IH]; intros t pl plan Ht Hq P.
  - cbn [scheduleRounds]. rewrite (proj2 (Z.ltb_ge _ _)) by lia. exists t, pl, plan. split_and!; [done|lia|by apply planned_refl|lia].
  - cbn [scheduleRounds]. destruct (Z.ltb_spec (Z.of_nat t) (pm_nRanks comm)) as [Hlt|Hge]; cbn [negb].
    2:{ exists t, pl, plan. split_and!; [done|lia|by apply planned_refl|lia]. }
    destruct (lookup_lt_is_Some_2 sched t) as [[s q] Hst]; [lia|].
    destruct (scheduleRound_ok budget nMin tot e t s q pl plan C Q Hb Hn Hq P Hst) as (res & -> & [[-> Hfull]|(pl1 & plan1 & -> & Hq1 & P1 & E1 & F1 & L1)]).
    + cbn [mbind option_bind]. exists t, pl, plan. split_and!; [done|lia|by apply planned_refl|done].
    + cbn [mbind option_bind]. destruct (IH (S t) pl1 plan1) as (t' & pl' & plan' & Hrun & Ht' & Hpd & Hfull); [lia|done|done|].
      rewrite Nat2Z.inj_succ in Hrun. rewrite <- Z.add_1_r in Hrun. exists t', pl', plan'. split; [done|]. split; [done|]. split; [|done].
      eapply planned_trans; [|exact Hpd]. constructor; [done|done|]. eexists. split; [exact E1|]. rewrite transfers_next. split_and!; try done.
      intros Hnil. apply F1. destruct (roundEntry nMin e t); [done|done].
Qed.

(** Past the longest queue nothing is left. *)
Lemma total_end pl e t m : queuesAt pl e t -> (forall s q, (s, q) ∈ sched -> (length (S0 s) <= m)%nat /\ (length (R0 q) <= m)%nat) ->
  (m <= e)%nat -> pl_nTasksP2p pl = 0.
Proof.
  intros [H1 H2 H3] Hm He. rewrite H3. unfold total.
  assert (forall i s q, sched !! i = Some (s, q) -> pl_send pl s = [] /\ pl_recv pl q = []) as Hnil.
  { intros i s q Hi. rewrite (H1 _ _ _ Hi), (H2 _ _ _ Hi). apply list_elem_of_lookup_2 in Hi. destruct (Hm s q Hi).
    rewrite !drop_ge by (unfold given; case_decide; lia). done. }
  assert (forall l : list (Z * Z), (forall s q, (s, q) ∈ l -> pl_send pl s = [] /\ pl_recv pl q = []) ->
    sumLengths (pl_send pl) l.*1 = 0 /\ sumLengths (pl_recv pl) l.*2 = 0) as Hsum.
  { clear. induction l as [|[s q] l IH]; intros H; [done|]. destruct (IH ltac:(set_solver)) as [E1 E2]. destruct (H s q ltac:(set_solver)) as [E3 E4].
    csimpl. cbn [sumLengths foldr] in *. rewrite E3, E4. unfold sumLengths in *. rewrite E1, E2. done. }
  destruct (Hsum sched) as [-> ->]; [|done]. intros s q [i Hi]%list_elem_of_lookup. by eapply Hnil.
Qed.

(** ** The plans of a launch *)

(** No queue is longer than [m]. *)
Definition atMost (m : nat) : Prop := forall s q, (s, q) ∈ sched -> (length (S0 s) <= m)%nat /\ (length (R0 q) <= m)%nat.

Lemma scheduleEpochs_ok budget nMin tot m :
  p2pCommOk -> queuesOk -> budgetOk budget -> 1 <= nMin <= nMax -> atMost m -> forall fuel e t pl plan,
  (m <= e + fuel)%nat -> (t <= length sched)%nat -> queuesAt pl e t -> planOk plan ->
  exists e' t' pl' plan', scheduleEpochs fuel budget nMin nMax tot (Z.of_nat e) (Z.of_nat t) pl plan = Some (inr (Z.of_nat e', Z.of_nat t', pl', plan')) /\
    (t' <= length sched)%nat /\ (e <= e')%nat /\ planned nMin e t e' t' pl pl' plan plan' /\ (pl_nTasksP2p pl' = 0 \/ fullFor budget plan').
Proof.
  intros C Q Hb Hn Hm. pose proof (ck_length C) as Hlen. induction fuel as [|fuel IH]; intros e t pl plan Hf Ht Hq P; cbn [scheduleEpochs].
  - rewrite (total_end pl e t m Hq Hm) by lia. cbn [Z.eqb]. exists e, t, pl, plan.
    split_and!; [done|done|lia|by apply planned_refl|left; apply (total_end pl e t m); [done|done|lia]].
  - destruct (Z.eqb_spec (pl_nTasksP2p pl) 0) as [H0|_].
    { exists e, t, pl, plan. split_and!; [done|done|lia|by apply planned_refl|by left]. }
    destruct (scheduleRounds_ok budget nMin tot e C Q Hb Hn (Z.to_nat (pm_nRanks comm)) t pl plan) as (t1 & pl1 & plan1 & -> & Ht1 & Hpd & Hfull); [lia|done|done|].
    cbn [mbind option_bind]. destruct (Z.ltb_spec (Z.of_nat t1) (pm_nRanks comm)) as [Hlt|Hge].
    { exists e, t1, pl1, plan1. split_and!; [done|done|lia|done|right; apply Hfull; lia]. }
    assert (t1 = length sched) as -> by lia.
    destruct (IH (S e) 0%nat pl1 plan1) as (e' & t' & pl' & plan' & Hrun & Ht' & He' & Hpd' & Hend);
      [lia|lia|by apply queuesAt_epoch, Hpd|by apply Hpd|].
    rewrite Nat2Z.inj_succ, <- Z.add_1_r in Hrun. exists e', t', pl', plan'. split_and!; [done|done|lia| |done].
    eapply planned_trans; [|exact Hpd']. destruct Hpd as [A B (new & D)]. constructor; [by apply queuesAt_epoch|done|].
    exists new. by rewrite <- transfers_epoch.
Qed.

Lemma lessChannels_ok : forall fuel n, 1 <= n <= Z.of_nat fuel -> exists n', lessChannels fuel n = Some n' /\ 1 <= n' <= n.
Proof.
  induction fuel as [|fuel IH]; intros n Hn; [lia|]. cbn [lessChannels].
  destruct (_ <? _); cbn [andb]; [|exists n; split; [done|lia]]. destruct (Z.ltb_spec 1 n); [|exists n; split; [done|lia]].
  rewrite Z.quot_div_nonneg by lia. assert (1 <= n / 2 < n) by (split; [apply Z.div_le_lower_bound; lia|apply Z.div_lt; lia]).
  destruct (IH (n / 2)) as (n' & -> & ?); [lia|]. exists n'. split; [done|lia].
Qed.

(** The least number of channels, as [scheduleP2pTasksToPlan] computes it. *)
Definition leastChannels : Z := default 1 (lessChannels (Z.to_nat nMax) nMax).

Lemma leastChannels_ok : p2pCommOk -> lessChannels (Z.to_nat nMax) nMax = Some leastChannels /\ 1 <= leastChannels <= nMax.
Proof.
  intros C. pose proof (ck_perPeer C). unfold leastChannels. destruct (lessChannels_ok (Z.to_nat nMax) nMax) as (n & -> & ?); [lia|]. split; [done|done].
Qed.

Lemma roundEntry_past nMin pl e t e' i : queuesAt pl e t -> total pl = 0 -> (given e t i <= e')%nat -> roundEntry nMin e' i = None.
Proof.
  intros [H1 H2 _] H0 He. unfold roundEntry. destruct (sched !! i) as [[s q]|] eqn:Hi; [|done]. cbn [mbind option_bind].
  assert (forall (f : Z -> list p2pTask) l r, sumLengths f l = 0 -> r ∈ l -> f r = []) as Hnil.
  { clear. intros f l r. induction l as [|x l IH]; intros H Hr; [by apply not_elem_of_nil in Hr|]. simpl in H. pose proof (sumLengths_nonneg f l).
    apply elem_of_cons in Hr as [->|Hr]; [destruct (f x); [done|simpl in H; lia]|apply IH; [lia|done]]. }
  unfold total in H0. pose proof (sumLengths_nonneg (pl_send pl) sched.*1). pose proof (sumLengths_nonneg (pl_recv pl) sched.*2).
  apply list_elem_of_lookup_2 in Hi as Hin.
  assert (forall X (l : list X), drop (given e t i) l = [] -> l !! e' = None) as Hdrop.
  { clear -He. intros X l H. apply lookup_ge_None. apply (f_equal length) in H. rewrite length_drop in H. simpl in H. lia. }
  rewrite (Hdrop _ (S0 s)), (Hdrop _ (R0 q)); [done| |].
  - rewrite <- (H2 _ _ _ Hi). apply (Hnil _ sched.*2); [lia|]. apply list_elem_of_fmap. by exists (s, q).
  - rewrite <- (H1 _ _ _ Hi). apply (Hnil _ sched.*1); [lia|]. apply list_elem_of_fmap. by exists (s, q).
Qed.

Lemma omap_nothing {A B} (f : A -> option B) l : (forall x, x ∈ l -> f x = None) -> omap f l = [].
Proof. induction l as [|x l IH]; intros H; [done|]. simpl. rewrite H by left. apply IH. intros y Hy. apply H. by right. Qed.

Lemma transfers_past nMin e t k : (t <= length sched)%nat -> (forall e' i, (given e t i <= e')%nat -> roundEntry nMin e' i = None) ->
  transfers nMin e t = transfers nMin (S e + k) 0.
Proof.
  intros Ht H. induction k as [|k IH].
  - rewrite Nat.add_0_r, <- transfers_epoch. unfold transfers. f_equal. replace (length sched) with (t + (length sched - t))%nat by lia.
    rewrite seq_app, omap_app, (omap_nothing _ (seq (0 + t) _)); [by rewrite app_nil_r|].
    intros i Hi%elem_of_seq. apply H. unfold given. rewrite decide_False by lia. done.
  - rewrite IH, Nat.add_succ_r, <- transfers_epoch. unfold transfers. f_equal. symmetry. apply omap_nothing.
    intros i _. apply H. unfold given. case_decide; lia.
Qed.

(** When no task is left the transfers are those of the epochs of the longest queue. *)
Lemma transfers_all nMin pl e t m : (t <= length sched)%nat -> queuesAt pl e t -> total pl = 0 -> atMost m -> transfers nMin e t = transfers nMin m 0.
Proof.
  intros Ht Hq H0 Hm. trans (transfers nMin (S e + m) 0); [|symmetry; trans (transfers nMin (S m + e) 0)].
  - apply transfers_past; [done|]. intros e' i. by eapply roundEntry_past.
  - apply transfers_past; [lia|]. intros e' i He. unfold given in He. rewrite decide_False in He by lia. unfold roundEntry.
    destruct (sched !! i) as [[s q]|] eqn:Hi; [|done]. cbn [mbind option_bind]. apply list_elem_of_lookup_2 in Hi. destruct (Hm s q Hi).
    rewrite (lookup_ge_None_2 (S0 s)), (lookup_ge_None_2 (R0 q)) by lia. done.
  - f_equal; lia.
Qed.

Lemma launchP2p_ok budget m epochs :
  p2pCommOk -> queuesOk -> budgetOk budget -> ncclTestBudget budget nMax 48 = true -> atMost m -> (m <= epochs)%nat -> forall fuel e t pl,
  total pl < Z.of_nat fuel -> (t <= length sched)%nat -> queuesAt pl e t ->
  exists plans, launchP2p fuel epochs budget (Z.of_nat e) (Z.of_nat t) pl = Some (inr plans) /\
    Forall (fun plan => planOk plan /\ pp_entries plan <> []) plans /\
    transfers leastChannels e t ++ concat (pp_entries <$> plans) = transfers leastChannels m 0.
Proof.
  intros C Q Hb Hone Hm Hep. destruct (leastChannels_ok C) as [Hl Hn]. induction fuel as [|fuel IH]; intros e t pl Hf Ht Hq.
  { pose proof (sumLengths_nonneg (pl_send pl) sched.*1). pose proof (sumLengths_nonneg (pl_recv pl) sched.*2). unfold total in Hf. lia. }
  cbn [launchP2p]. unfold scheduleP2pTasksToPlan. rewrite Hl. cbn [mbind option_bind].
  destruct (scheduleEpochs_ok budget leastChannels (fun dir : bool => if dir then pl_nTasksP2pSend pl else pl_nTasksP2pRecv pl) m
    C Q Hb Hn Hm epochs e t pl freshP2pPlan) as (e1 & t1 & pl1 & plan1 & -> & Ht1 & _ & Hpd & Hend); [lia|done|done|apply freshP2pPlan_ok|].
  cbn [mbind option_bind]. destruct Hpd as [Hq1 P1 (new & En & Etr & Htot & Hnil)]. cbn [freshP2pPlan pp_entries app] in En.
  set (plans1 := if pp_workBytes plan1 =? 0 then [] else [plan1]).
  assert (concat (pp_entries <$> plans1) = new /\ Forall (fun plan => planOk plan /\ pp_entries plan <> []) plans1) as [Ec Hplans1].
  { unfold plans1. pose proof (pk_bytes _ P1) as Hby. destruct (Z.eqb_spec (pp_workBytes plan1) 0) as [H0|H0].
    - rewrite En in Hby. destruct new; [by split|]. simpl in Hby. lia.
    - cbn. rewrite app_nil_r, <- En. split; [done|]. constructor; [|done]. split; [done|]. intros E. rewrite E in Hby. simpl in Hby. lia. }
  destruct (Z.eqb_spec (pl_nTasksP2p pl1) 0) as [H0|H0].
  - exists plans1. split; [done|]. split; [done|]. rewrite Ec, Etr. apply (transfers_all _ pl1); [done|done|by rewrite <- (qa_total _ _ _ Hq1)|done].
  - assert (new <> []) as Hnew.
    { intros E. destruct Hend as [?|Hfull]; [done|]. rewrite (Hnil E) in Hfull. unfold fullFor in Hfull.
      cbn [freshP2pPlan pp_nWorkBatches pp_workBytes] in Hfull. rewrite !Z.add_0_l in Hfull. congruence. }
    assert (0 < Z.of_nat (length new)) by (destruct new; [done|simpl; lia]).
    destruct (IH e1 t1 pl1) as (plans & -> & Hplans & Eall); [lia|done|done|].
    cbn [mbind option_bind]. exists (plans1 ++ plans). split; [done|]. split; [by apply Forall_app_2|].
    rewrite fmap_app, concat_app, Ec, app_assoc, Etr. done.
Qed.

Definition p2pChan (plan : p2pPlan) (c : nat) : Channel := default emptyChannel (pp_channels plan !! c).

Lemma p2pItems_type c off es x : x ∈ p2pItems c off es -> wi_type x = ncclDevWorkTypeP2p.
Proof.
  revert off. induction es as [|e es IH]; intros off; simpl; [by intros ?%not_elem_of_nil|]. rewrite elem_of_app. intros [H|H]; [|by eapply IH].
  destruct (usesChannel e c); [by apply list_elem_of_singleton in H as ->|by apply not_elem_of_nil in H].
Qed.

Lemma usesChannel_lt e c : usesChannel e c = true -> Z.of_nat c < pm_p2pnChannels comm.
Proof. unfold usesChannel. intros [H%Z.ltb_lt _]%andb_true_iff. done. Qed.

Lemma planOk_mask plan : p2pCommOk -> planOk plan -> pp_entries plan <> [] -> 0 < pp_channelMask plan < 2 ^ 64.
Proof.
  intros C P Hne. destruct (pk_mask _ P) as [Hm Hbits]. split; [|lia]. destruct (pp_entries plan) as [|e es] eqn:E; [done|].
  pose proof (pk_entries _ P) as HF. rewrite E in HF. apply Forall_cons in HF as [[Hb Hn] _]. pose proof (channels_bound C). pose proof (ck_perPeer C).
  assert (usesChannel e (partChannel e 0) = true) as Hu.
  { apply partChannels_elem; [done|done|lia|apply partChannel_lt; [done|done|lia]|]. apply list_elem_of_fmap. exists 0%nat. split; [done|]. apply elem_of_seq. lia. }
  specialize (Hbits (partChannel e 0)). apply usesChannel_lt in Hu as Hlt. assert (partChannel e 0 < MAXCHANNELS)%nat as H64 by (unfold MAXCHANNELS; lia).
  destruct (Z.eq_dec (pp_channelMask plan) 0) as [E0|]; [|lia]. rewrite E0, Z.bits_0 in Hbits.
  pose proof (proj2 (Hbits H64)) as Hx. simpl in Hx. rewrite Hu in Hx. by specialize (Hx ltac:(done)).
Qed.

(** The groups of works the kernel runs on a channel, one after the other: together
    the works of the channel, and in each group works of different rounds. *)
Definition runGroups (plan : p2pPlan) (c : nat) (gs : list (list workItem)) : Prop :=
  concat gs = p2pItems c 0 (pp_entries plan) /\ Forall (fun g => NoDup (map wi_round g)) gs.

Lemma groups_rounds arch ep Bs gs : Forall2 (groupOk arch ep) Bs gs -> (forall x, x ∈ concat gs -> wi_type x = ncclDevWorkTypeP2p) ->
  Forall (fun g => NoDup (map wi_round g)) gs.
Proof.
  induction 1 as [|B g Bs gs (t & f & B0 & b & _ & Hne & [Hf [_ Hp2p]] & _) _ IH]; intros Hx; constructor.
  - apply Hp2p. destruct g as [|w g]; [done|]. apply Forall_cons in Hf as [[<- _] _]. apply Hx. simpl. left.
  - apply IH. intros x Hin. apply Hx. simpl. apply elem_of_app. by right.
Qed.

(** What the kernel of a plan runs, channel by channel. *)
Lemma planOk_kernel {T} (src : Z -> T) plan tn fuel m :
  p2pCommOk -> planOk plan -> pp_entries plan <> [] -> 128 <= tn -> (forall c, (length (workBatchQueue (p2pChan plan c)) <= fuel)%nat) ->
  exists st, layBatches fuel (pp_channelMask plan) (initLayout (fun c => workBatchQueue (p2pChan plan (Z.to_nat c)))) = Some st /\
    (Z.of_nat (length (batchZero st)) < 2 ^ 14 -> forall n c, bitsBelow 64 (pp_channelMask plan) !! n = Some c ->
     blockChannel (pp_channelMask plan) (Z.of_nat n) = Some (Z.of_nat c) /\
     exists shs gs, ncclKernelMain src tn (Z.of_nat n) (batchZero st) m = Some shs /\
       runGroups plan c gs /\ Forall2 (groupLoaded src) shs gs).
Proof.
  intros C P Hne Htn Hfuel.
  destruct (finishPlan_groups src (pm_cudaArch comm) (pm_epochEnable comm) tn (pp_channelMask plan) (fun c => p2pItems c 0 (pp_entries plan))
    (p2pChan plan) fuel m) as (st & Hst & Hrun).
  { by apply planOk_mask. }
  2:{ exists st. split; [done|]. intros Hlen n c Hn. destruct (Hrun Hlen n c Hn) as (Hb & shs & gs & Ek & Eg & HF & Bs & _ & HB).
      split; [done|]. exists shs, gs. split; [done|]. split; [|done]. split; [done|]. eapply groups_rounds; [exact HB|].
      intros x. rewrite Eg. apply p2pItems_type. }
  intros c Hc. apply bitsBelow_elem in Hc as [Hlt Hbit]. destruct (pk_channels _ P c Hlt) as (chan & k & Ec & Ea).
  pose proof (pk_bytes _ P) as Hby. pose proof (pk_offsets _ P) as Ho.
  split_and!; [by apply (proj2 (pk_mask _ P) c Hlt)|apply p2pItems_ok; [done|lia]|apply p2pItems_sorted|split; [lia|]| |apply Hfuel].
  - intros w Hw%list_elem_of_In Ew. by rewrite (p2pItems_type _ _ _ _ Hw) in Ew.
  - unfold p2pChan. by rewrite Ea, Ec.
Qed.
End plan.

(** ** The two sides of a message *)

(** What the ranks of a communicator have agreed on. *)
Record agree (c c' : p2pComm) : Prop := {
  ag_nRanks : pm_nRanks c = pm_nRanks c';
  ag_nNodes : pm_nNodes c = pm_nNodes c';
  ag_channels : pm_p2pnChannels c = pm_p2pnChannels c';
  ag_perPeer : pm_p2pnChannelsPerPeer c = pm_p2pnChannelsPerPeer c';
  ag_groupSize : pm_p2pSchedGroupSize c = pm_p2pSchedGroupSize c';
  ag_chunkSize : pm_p2pChunkSize c = pm_p2pChunkSize c';
  ag_buffSizeLL : pm_buffSizeLL c = pm_buffSizeLL c';
  ag_netCount : pm_minNetCount c = pm_minNetCount c';
  ag_netBw : pm_minLocalNetBw c = pm_minLocalNetBw c';
  ag_paramChunkSize : pm_paramChunkSize c = pm_paramChunkSize c';
  ag_paramLLThreshold : pm_paramLLThreshold c = pm_paramLLThreshold c';
  ag_paramRegNetBw : pm_paramRegNetBw c = pm_paramRegNetBw c' }.

Lemma leastChannels_agree c c' : agree c c' -> leastChannels c = leastChannels c'.
Proof.
  intros A. unfold leastChannels. rewrite (ag_perPeer _ _ A). f_equal. generalize (Z.to_nat (pm_p2pnChannelsPerPeer c')) as fuel.
  generalize (pm_p2pnChannelsPerPeer c') as n. intros n fuel. revert n. induction fuel as [|fuel IH]; intros n; cbn [lessChannels];
    rewrite (ag_channels _ _ A), (ag_nRanks _ _ A); [done|]. by rewrite IH.
Qed.

Lemma p2pChannels_agree c c' nMin nMax bytes : agree c c' -> p2pChannels c nMin nMax bytes = p2pChannels c' nMin nMax bytes.
Proof. intros A. unfold p2pChannels. by rewrite (ag_chunkSize _ _ A), (ag_nNodes _ _ A). Qed.

Lemma p2pChunk_agree c c' ll net bytes : agree c c' -> p2pChunk c ll net bytes = p2pChunk c' ll net bytes.
Proof. intros A. unfold p2pChunk. by rewrite (ag_chunkSize _ _ A), (ag_buffSizeLL _ _ A), (ag_paramChunkSize _ _ A). Qed.

(** The directions of the sender and of the receiver of a message: the protocol and
    the chunk size are the same, and the channels are unless only one side has
    registered its buffer with the network. *)
Record sameDirection (ds dr : p2pDirection) : Prop := {
  sd_protoLL : di_protoLL ds = di_protoLL dr;
  sd_chunk8 : di_chunk8 ds = di_chunk8 dr;
  sd_chunkSize : di_chunkSize ds = di_chunkSize dr;
  sd_nChannels : di_netReg ds = di_netReg dr -> di_nChannels ds = di_nChannels dr }.

Lemma p2pDir_match c c' conn conn' regNet regNet' regIpc regIpc' self ts tr a b nMin nMax base ds dr :
  agree c c' -> tp_bytes ts = tp_bytes tr ->
  (self = false -> forall ch, cn_hasLL (conn true b ch) = cn_hasLL (conn' false a ch) /\ cn_network (conn true b ch) = cn_network (conn' false a ch)) ->
  p2pDir c conn regNet regIpc true self (Some ts) b nMin nMax base = Some ds ->
  p2pDir c' conn' regNet' regIpc' false self (Some tr) a nMin nMax base = Some dr ->
  sameDirection ds dr.
Proof.
  intros A Hbytes Hconn. unfold p2pDir. rewrite <- Hbytes, (p2pChannels_agree c c' _ _ _ A), (ag_paramLLThreshold _ _ A).
  destruct (p2pChannels c' nMin nMax (tp_bytes ts)) as [n|]; [|done]. cbn [mbind option_bind]. rewrite (ag_channels _ _ A).
  set (sends := fun part : nat => conn true b (ncclP2pChannelForPart (pm_p2pnChannels c') base (Z.of_nat part))).
  set (recvs := fun part : nat => conn' false a (ncclP2pChannelForPart (pm_p2pnChannels c') base (Z.of_nat part))).
  assert (negb self && forallb cn_hasLL (sends <$> seq 0 (Z.to_nat nMax)) = negb self && forallb cn_hasLL (recvs <$> seq 0 (Z.to_nat nMax)) /\
    negb self && existsb cn_network (sends <$> seq 0 (Z.to_nat nMax)) = negb self && existsb cn_network (recvs <$> seq 0 (Z.to_nat nMax))) as [-> ->].
  { destruct self; [done|]. cbn [negb andb]. clear -Hconn. specialize (Hconn eq_refl). induction (seq 0 (Z.to_nat nMax)) as [|x l [IH1 IH2]]; [done|].
    csimpl. unfold sends, recvs in *. destruct (Hconn (ncclP2pChannelForPart (pm_p2pnChannels c') base (Z.of_nat x))) as [-> ->]. by rewrite IH1, IH2. }
  set (ll := (_ && _ && _)). rewrite (p2pChunk_agree c c' _ _ _ A). destruct (p2pChunk c' ll _ _) as [c8 cs].
  destruct (p2pRegister _ conn _ _ _ _ _ _ _ _ _ _ _) as [[r1 x1] y1], (p2pRegister _ conn' _ _ _ _ _ _ _ _ _ _ _) as [[r2 x2] y2].
  intros [= <-] [= <-]. constructor; cbn; [done|done|done|]. intros ->.
  by rewrite (ag_netCount _ _ A), (ag_netBw _ _ A), (ag_paramRegNetBw _ _ A).
Qed.

(** A send to oneself is not registered with the network. *)
Lemma p2pDir_self c conn regNet regIpc dir task peer nMin nMax base d :
  p2pDir c conn regNet regIpc dir true task peer nMin nMax base = Some d -> di_netReg d = false.
Proof.
  unfold p2pDir. destruct (p2pChannels c nMin nMax _) as [n|]; [|done]. cbn [mbind option_bind negb andb orb]. destruct (p2pChunk c _ _ _) as [c8 cs].
  destruct (p2pRegister _ _ _ _ _ _ _ _ _ _ _ _ _) as [[r x] y] eqn:E. intros [= <-]. cbn. unfold p2pRegister in E.
  destruct task as [t|]; [|by injection E]. repeat case_match; by injection E.
Qed.

(** C11: Every send and receive of a group reaches the device, once and in its place.
    From any queues (messages up to the size at which the number of parts of an
    [int] is exhausted, sends to oneself with their receives) and any budget with
    room for one transfer, the loop of [ncclLaunchPrepare] ends with plans.  Their
    transfers together are the closed form [transfers]: epoch by epoch, round by
    round, the send number [e] to one peer of the round with the receive number [e]
    from the other.  In the kernel of each plan (128 threads or more, fewer than
    2^14 batches) the block of a channel runs, group by group, exactly the works of
    the transfers with a part on that channel, each loaded from its own offset, and
    no group has two works of one round. *)
Theorem launchP2p_runs comm conn regNet regIpc budget pl epochs :
  p2pCommOk comm -> queuesOk comm (pl_send pl) (pl_recv pl) -> budgetOk budget ->
  ncclTestBudget budget (pm_p2pnChannelsPerPeer comm) (ncclDevWorkSize ncclDevWorkTypeP2p) = true ->
  pl_nTasksP2p pl = total comm pl -> atMost comm (pl_send pl) (pl_recv pl) epochs ->
  exists plans, launchP2p comm conn regNet regIpc (S (Z.to_nat (total comm pl))) epochs budget 0 0 pl = Some (inr plans) /\
    concat (pp_entries <$> plans) = transfers comm conn regNet regIpc (pl_send pl) (pl_recv pl) (leastChannels comm) epochs 0 /\
    forall plan T (src : Z -> T) tn fuel m, plan ∈ plans -> 128 <= tn -> (forall c, (length (workBatchQueue (p2pChan plan c)) <= fuel)%nat) ->
      exists st, layBatches fuel (pp_channelMask plan) (initLayout (fun c => workBatchQueue (p2pChan plan (Z.to_nat c)))) = Some st /\
        (Z.of_nat (length (batchZero st)) < 2 ^ 14 -> forall n c, bitsBelow 64 (pp_channelMask plan) !! n = Some c ->
         blockChannel (pp_channelMask plan) (Z.of_nat n) = Some (Z.of_nat c) /\
         exists shs gs, ncclKernelMain src tn (Z.of_nat n) (batchZero st) m = Some shs /\
           runGroups comm plan c gs /\ Forall2 (groupLoaded src) shs gs).
Proof.
  intros C Q Hb Hone Ht Hm.
  destruct (launchP2p_ok comm conn regNet regIpc (pl_send pl) (pl_recv pl) budget epochs epochs C Q Hb Hone Hm (le_n _)
    (S (Z.to_nat (total comm pl))) 0 0 pl) as (plans & Hrun & HF & Htr).
  - lia.
  - lia.
  - by apply queuesAt_start.
  - exists plans. split; [exact Hrun|]. split; [exact Htr|]. intros plan T src tn fuel m Hin Htn Hfuel.
    rewrite Forall_forall in HF. destruct (HF plan Hin) as [P Hne]. by apply planOk_kernel.
Qed.

(** One rank of two, with four channels, two of them for a peer: two sends to the
    other rank and a receive from it, and a send to oneself. *)
Definition exampleP2pComm : p2pComm := {|
  pm_rank := 0; pm_nRanks := 2; pm_nNodes := 1; pm_p2pnChannels := 4; pm_p2pnChannelsPerPeer := 2; pm_p2pSchedGroupSize := 2;
  pm_p2pChunkSize := 131072; pm_buffSizeLL := 131072; pm_minNetCount := 1; pm_minLocalNetBw := 0; pm_pxnUsed := false;
  pm_schedule := [(0, 0); (1, 1)]; pm_cudaArch := 900; pm_epochEnable := true; pm_devFuncId := 0;
  pm_paramChunkSize := 0; pm_paramLLThreshold := 16384; pm_paramRegNetBw := 0 |}.

Definition exampleP2pConn : p2pConn := {|
  cn_hasLL := true; cn_network := false; cn_sameProcess := true; cn_directNic := false; cn_p2pWrite := false; cn_p2pRead := false |}.

Definition exampleP2pTask (buff bytes : Z) : p2pTask := {| tp_buff := buff; tp_bytes := bytes; tp_allowUB := false |}.

Definition exampleP2pPlanner : p2pPlanner := {|
  pl_send := fun r => if r =? 1 then [exampleP2pTask 4096 1000000; exampleP2pTask 8192 16] else if r =? 0 then [exampleP2pTask 64 128] else [];
  pl_recv := fun r => if r =? 1 then [exampleP2pTask 0 0] else if r =? 0 then [exampleP2pTask 256 128] else [];
  pl_nTasksP2p := 5; pl_nTasksP2pSend := 3; pl_nTasksP2pRecv := 2 |}.

Definition exampleP2pBudget : ncclKernelPlanBudget := {| inArgsBytes := 100; outArgsBytes := 120 |}.

Lemma exampleP2pComm_ok : p2pCommOk exampleP2pComm.
Proof.
  constructor; cbn.
  - done.
  - repeat constructor; set_solver.
  - repeat constructor; set_solver.
  - intros s q. rewrite !elem_of_cons, elem_of_nil. naive_solver.
  - exists 2. done.
  - done.
  - done.
  - done.
Qed.

Lemma exampleQueues_ok : queuesOk exampleP2pComm (pl_send exampleP2pPlanner) (pl_recv exampleP2pPlanner).
Proof.
  assert (forall r, Forall (taskFits exampleP2pComm) (pl_send exampleP2pPlanner r) /\ Forall (taskFits exampleP2pComm) (pl_recv exampleP2pPlanner r)) as H.
  { intros r. cbn. unfold taskFits, exampleP2pTask. split; repeat case_match; repeat constructor; done. }
  constructor; [| |done]; intros s q t _; [destruct (H s) as [HF _]|destruct (H q) as [_ HF]]; rewrite Forall_forall in HF; apply HF.
Qed.

Lemma launchP2p_runs_witness :
  exists plans, launchP2p exampleP2pComm (fun _ _ _ => exampleP2pConn) (fun _ _ _ => false) (fun _ _ => None) 6 2 exampleP2pBudget 0 0 exampleP2pPlanner =
      Some (inr plans) /\
    (fun e => (en_epoch e, en_round e, (sendRank (en_work e), nSendChannels (en_work e)), (recvRank (en_work e), nRecvChannels (en_work e)))) <$>
      concat (pp_entries <$> plans) = [(0, 0, (0, 1), (0, 1)); (0, 1, (1, 2), (1, 1)); (1, 1, (1, 1), (1, 0))].
Proof.
  destruct (launchP2p_runs exampleP2pComm (fun _ _ _ => exampleP2pConn) (fun _ _ _ => false) (fun _ _ => None) exampleP2pBudget exampleP2pPlanner 2)
    as (plans & Hrun & Htr & _).
  - apply exampleP2pComm_ok.
  - apply exampleQueues_ok.
  - by split.
  - reflexivity.
  - reflexivity.
  - intros s q Hin. cbn in *. repeat (case_match; cbn); lia.
  - exists plans. split; [exact Hrun|]. rewrite Htr. vm_compute. reflexivity.
Defined.

(** ** The fields of the works *)

(** The work as its fields hold it: numbers of channels of 8 bits that are those of
    the directions, channels that exist, chunk sizes that are codes of the 8-bit
    float. *)
Record workTyped (comm : p2pComm) (en : p2pEntry) : Prop := {
  wt_channels : nP2pChannels (en_work en) = pm_p2pnChannels comm /\ 1 <= pm_p2pnChannels comm <= 64;
  wt_base : 0 <= channelBase (en_work en) < 2 ^ 8;
  wt_send : nSendChannels (en_work en) = di_nChannels (en_dirs en true) /\ 0 <= di_nChannels (en_dirs en true) <= pm_p2pnChannelsPerPeer comm;
  wt_recv : nRecvChannels (en_work en) = di_nChannels (en_dirs en false) /\ 0 <= di_nChannels (en_dirs en false) <= pm_p2pnChannelsPerPeer comm;
  wt_sendNone : nSendChannels (en_work en) = 0 <-> en_send en = None;
  wt_recvNone : nRecvChannels (en_work en) = 0 <-> en_recv en = None;
  wt_chunks : 0 <= sendChunkSize_u32fp8 (en_work en) < 240 /\ 0 <= recvChunkSize_u32fp8 (en_work en) < 240;
  wt_bytes : 0 <= sendBytes (en_work en) < 2 ^ 63 /\ 0 <= recvBytes (en_work en) < 2 ^ 63 }.

Lemma transfers_round comm conn regNet regIpc S0 R0 nMin m en :
  en ∈ transfers comm conn regNet regIpc S0 R0 nMin m 0 -> exists e t, roundEntry comm conn regNet regIpc S0 R0 nMin e t = Some en.
Proof.
  unfold transfers. simpl. rewrite app_nil_r, list_elem_of_bind. intros (e & (t & _ & E)%list_elem_of_omap & _). by exists e, t.
Qed.

Lemma p2pItems_channel comm c off es : p2pItems comm c off es <> [] -> Z.of_nat c < pm_p2pnChannels comm.
Proof.
  revert off. induction es as [|en es IH]; intros off; simpl; [done|].
  destruct (usesChannel comm en c) eqn:E; [intros _; by eapply usesChannel_lt|apply IH].
Qed.

Lemma p2pDir_chunk8 comm conn regNet regIpc dir self task peer nMin nMax base d :
  p2pDir comm conn regNet regIpc dir self task peer nMin nMax base = Some d -> 0 <= di_chunk8 d < 240.
Proof.
  unfold p2pDir. destruct (p2pChannels comm nMin nMax _) as [n|]; [|done]. cbn [mbind option_bind].
  unfold p2pChunk. cbv zeta. destruct (p2pRegister _ _ _ _ _ _ _ _ _ _ _ _ _) as [[r x] y]. intros [= <-]. cbn [di_chunk8].
  match goal with |- context [u32fp8Encode (wrap32 ?x)] => generalize x end. intros size.
  assert (0 <= wrap32 size < 2 ^ 32) as Hs by (unfold wrap32; by apply Z.mod_pos_bound).
  by destruct (proj1 u32fp8_roundtrip (wrap32 size) Hs) as (_ & _ & _ & H).
Qed.

Lemma optFits_bytes comm task : p2pCommOk comm -> optFits comm task -> 0 <= match task with Some t => tp_bytes t | None => 0 end < 2 ^ 63.
Proof.
  intros C Ht. pose proof (ck_chunk _ C). destruct task as [t|]; [|done]. destruct Ht as [H0 H1].
  assert (Z.quot (pm_p2pChunkSize comm) 8 < 2 ^ 22) by (rewrite Z.quot_div_nonneg by lia; apply Z.div_lt_upper_bound; lia). nia.
Qed.

Lemma p2pEntryOf_typed comm conn regNet regIpc nMin epoch round s q send recv en :
  p2pCommOk comm -> 1 <= nMin <= pm_p2pnChannelsPerPeer comm -> optFits comm send -> optFits comm recv ->
  p2pEntryOf comm conn regNet regIpc nMin (pm_p2pnChannelsPerPeer comm) epoch round s q send recv = Some en -> workTyped comm en.
Proof.
  intros C Hn Hs Hr. pose proof (channels_bound _ C) as HC. pose proof (ck_perPeer _ C) as Hpp. unfold p2pEntryOf.
  set (base := ncclP2pChannelBaseForRound _ _ _ _). pose proof (base_bound (pm_nNodes comm) (pm_p2pSchedGroupSize comm) (pm_p2pnChannels comm) round) as Hb.
  fold base in Hb. clearbody base.
  destruct (p2pDir_ok comm conn regNet regIpc false (s =? pm_rank comm) recv q nMin (pm_p2pnChannelsPerPeer comm) base C Hn ltac:(lia) Hr) as (dr & Er & Hdr).
  destruct (p2pDir_ok comm conn regNet regIpc true (s =? pm_rank comm) send s nMin (pm_p2pnChannelsPerPeer comm) base C Hn ltac:(lia) Hs) as (ds & Es & Hds).
  pose proof (p2pDir_chunk8 _ _ _ _ _ _ _ _ _ _ _ _ Er). pose proof (p2pDir_chunk8 _ _ _ _ _ _ _ _ _ _ _ _ Es).
  rewrite Er, Es. cbn [mbind option_bind]. intros [= <-].
  assert (0 <= di_nChannels ds <= pm_p2pnChannelsPerPeer comm /\ (di_nChannels ds = 0 <-> send = None)) as [Hs1 Hs2].
  { destruct send; split; try lia; split; try done; lia. }
  assert (0 <= di_nChannels dr <= pm_p2pnChannelsPerPeer comm /\ (di_nChannels dr = 0 <-> recv = None)) as [Hr1 Hr2].
  { destruct recv; split; try lia; split; try done; lia. }
  constructor; cbn [en_work en_dirs en_send en_recv nP2pChannels channelBase nSendChannels nRecvChannels sendChunkSize_u32fp8 recvChunkSize_u32fp8 sendBytes recvBytes];
    rewrite ?Z.mod_small by lia; try done.
  split; by apply (optFits_bytes comm).
Qed.

(** C15: Every work the planner writes for the device is well typed.  From any queues,
    and wherever the budget cuts the plans, the numbers of channels of each work are
    stored in their 8-bit fields without loss and are at most those of a peer; a
    direction has channels exactly if it has a task; the first channel, the coded
    chunk sizes and the sizes in bytes are in the ranges of their fields; and all
    channels the plan uses exist. *)
Theorem launchP2p_typed comm conn regNet regIpc budget pl epochs :
  p2pCommOk comm -> queuesOk comm (pl_send pl) (pl_recv pl) -> budgetOk budget ->
  ncclTestBudget budget (pm_p2pnChannelsPerPeer comm) (ncclDevWorkSize ncclDevWorkTypeP2p) = true ->
  pl_nTasksP2p pl = total comm pl -> atMost comm (pl_send pl) (pl_recv pl) epochs ->
  exists plans, launchP2p comm conn regNet regIpc (S (Z.to_nat (total comm pl))) epochs budget 0 0 pl = Some (inr plans) /\
    forall plan, plan ∈ plans ->
      Forall (workTyped comm) (pp_entries plan) /\
      forall c, Z.testbit (pp_channelMask plan) c = true -> 0 <= c < pm_p2pnChannels comm.
Proof.
  intros C Q Hb Hone Ht Hm. destruct (leastChannels_ok _ C) as [_ Hleast].
  destruct (launchP2p_ok comm conn regNet regIpc (pl_send pl) (pl_recv pl) budget epochs epochs C Q Hb Hone Hm (le_n _)
    (S (Z.to_nat (total comm pl))) 0 0 pl) as (plans & Hrun & HF & Htr); [lia|lia|by apply queuesAt_start|].
  exists plans. split; [exact Hrun|]. intros plan Hin. rewrite Forall_forall in HF. destruct (HF plan Hin) as [P _]. split.
  - apply Forall_forall. intros en Hen. assert (en ∈ concat (pp_entries <$> plans)) as Hc.
    { apply list_elem_of_In, in_concat. exists (pp_entries plan). split; apply list_elem_of_In; [|done]. apply list_elem_of_fmap. by exists plan. }
    assert (en ∈ transfers comm conn regNet regIpc (pl_send pl) (pl_recv pl) (leastChannels comm) epochs 0) as (e & t & He)%transfers_round.
    { rewrite <- Htr. apply elem_of_app. by right. }
    unfold roundEntry in He. destruct (pm_schedule comm !! t) as [[s q]|] eqn:Hst; [|done]. cbn [mbind option_bind] in He.
    destruct (round_fits comm (pl_send pl) (pl_recv pl) e t s q Q Hst) as [Fs Fr].
    eapply (p2pEntryOf_typed comm conn regNet regIpc (leastChannels comm) (Z.of_nat e) (Z.of_nat t) s q); [exact C|exact Hleast|exact Fs|exact Fr|].
    destruct (pl_send pl s !! e), (pl_recv pl q !! e); try done; by destruct (_ && _).
  - intros c Hc. destruct (pk_mask _ _ P) as [Hmask Hbits].
    assert (0 <= c) by (destruct (Z.ltb_spec c 0); [by rewrite Z.testbit_neg_r in Hc|lia]).
    assert (Z.to_nat c < 64)%nat as H64 by (apply (testbit_lt64 (pp_channelMask plan)); [lia|by rewrite Z2Nat.id]).
    split; [done|]. specialize (Hbits (Z.to_nat c) H64). rewrite Z2Nat.id in Hbits by done. apply Hbits in Hc.
    pose proof (p2pItems_channel comm _ _ _ Hc). lia.
Qed.

Lemma launchP2p_typed_witness :
  exists plans, launchP2p exampleP2pComm (fun _ _ _ => exampleP2pConn) (fun _ _ _ => false) (fun _ _ => None) 6 2 exampleP2pBudget 0 0 exampleP2pPlanner =
      Some (inr plans) /\ forall plan, plan ∈ plans -> Forall (workTyped exampleP2pComm) (pp_entries plan).
Proof.
  destruct (launchP2p_typed exampleP2pComm (fun _ _ _ => exampleP2pConn) (fun _ _ _ => false) (fun _ _ => None) exampleP2pBudget exampleP2pPlanner 2)
    as (plans & Hrun & H).
  - apply exampleP2pComm_ok.
  - apply exampleQueues_ok.
  - by split.
  - reflexivity.
  - reflexivity.
  - intros s q Hin. cbn in *. repeat (case_match; cbn); lia.
  - exists plans. split; [exact Hrun|]. intros plan Hin. apply (H plan Hin).
Defined.
