(* ===== verification/P2pNet.v ===== *)
(** * Point-to-point transfers of a cluster

    Every rank plans its sends and receives alone (see P2pPlan).  This file puts the
    kernels of all ranks together.  The block of a channel runs its groups of works
    one after the other, the works of a group at the same time, and the kernels of a
    rank run one after the other.  A part of a message goes through when the sender
    and the receiver are both at works that name each other. *)

From stdpp Require Import base numbers list sets relations.
From Stdlib Require Import ZArith Lia Sorted.
From S2P Require Import Prelude Bitops Bits Batches DevWork Sched P2pSched P2pPlan.

Local Open Scope Z_scope.

(** ** Runs *)

(** One direction of the work of an epoch and a round, on one channel of a rank: the
    rank, the channel, the epoch, the round, and whether it is the send. *)
Definition half : Type := Z * nat * nat * nat * bool.

Section runs.

(** The groups of works the kernels of each rank run, kernel by kernel and channel by
    channel, and the transfer of each rank in each round of each epoch. *)
Context (ranks : list Z) (kernels : Z -> list (nat -> list (list workItem))) (entryAt : Z -> nat -> nat -> option p2pEntry).

(** The device gives a part to a direction of a work if the number of the part is
    below the number of channels of the direction. *)
(* src/src/device/sendrecv.h:68-79 RunWorkBatch *)
Definition hasPart (r : Z) (c e t : nat) (d : bool) : bool :=
  match entryAt r e t with
  | Some en =>
      let work := en_work en in
      (Z.of_nat c <? nP2pChannels work) &&
      (ncclP2pChannelToPart (nP2pChannels work) (channelBase work) (Z.of_nat c) <? (if d then nSendChannels work else nRecvChannels work))
  | None => false
  end.

(** The work of epoch [e] and round [t] is in group [i] of channel [c] of kernel [n]. *)
Definition placed (r : Z) (n i c e t : nat) : Prop :=
  exists k g w, kernels r !! n = Some k /\ k c !! i = Some g /\ w ∈ g /\ wi_epoch w = Z.of_nat e /\ wi_round w = Z.of_nat t.

(** The block of channel [c] is at group [i] of kernel [n]: the earlier kernels and
    the earlier groups of the channel are done. *)
Definition current (D : list half) (r : Z) (n i c : nat) : Prop :=
  forall n' i' c' e t d, placed r n' i' c' e t -> hasPart r c' e t d = true ->
    ((n' < n)%nat \/ (n' = n /\ c' = c /\ (i' < i)%nat)) -> (r, c', e, t, d) ∈ D.

Definition ready (D : list half) (r : Z) (c e t : nat) (d : bool) : Prop :=
  (exists n i, placed r n i c e t /\ current D r n i c) /\ hasPart r c e t d = true /\ (r, c, e, t, d) ∉ D.

(** A sender and a receiver whose works name each other exchange their part. *)
Inductive exchange (D : list half) : list half -> Prop :=
  | Exchange a b c e t e' t' ea eb :
      a ∈ ranks -> b ∈ ranks -> ready D a c e t true -> ready D b c e' t' false ->
      entryAt a e t = Some ea -> entryAt b e' t' = Some eb -> sendRank (en_work ea) = b -> recvRank (en_work eb) = a ->
      exchange D ((a, c, e, t, true) :: (b, c, e', t', false) :: D).

(** Everything is done. *)
Definition finished (D : list half) : Prop :=
  forall r c e t d, r ∈ ranks -> hasPart r c e t d = true -> (r, c, e, t, d) ∈ D.

(** ** What makes the runs end *)

Definition peerAt (en : p2pEntry) (d : bool) : Z := if d then sendRank (en_work en) else recvRank (en_work en).

(** The works of a rank are in the order of epochs and rounds, no group has two
    works of one round, every part has its work, and its counterpart at the peer has
    the same epoch and round; two ranks send to each other in one round only. *)
Record lawful (nRounds nEpochs : nat) : Prop := {
  lw_kernels : forall r n i c e t n' i' c' e' t', r ∈ ranks -> placed r n i c e t -> placed r n' i' c' e' t' -> (n < n')%nat ->
    (e * nRounds + t < e' * nRounds + t')%nat;
  lw_groups : forall r n i c e t i' e' t', r ∈ ranks -> placed r n i c e t -> placed r n i' c e' t' -> (i < i')%nat ->
    (e * nRounds + t < e' * nRounds + t')%nat;
  lw_rounds : forall r n i c e t e', r ∈ ranks -> placed r n i c e t -> placed r n i c e' t -> e = e';
  lw_placed : forall r c e t d, r ∈ ranks -> hasPart r c e t d = true -> exists n i, placed r n i c e t;
  lw_bounds : forall r c e t d, r ∈ ranks -> hasPart r c e t d = true -> (c < MAXCHANNELS)%nat /\ (e < nEpochs)%nat /\ (t < nRounds)%nat;
  lw_partner : forall r c e t d, r ∈ ranks -> hasPart r c e t d = true ->
    exists en en', entryAt r e t = Some en /\ peerAt en d ∈ ranks /\ entryAt (peerAt en d) e t = Some en' /\
      peerAt en' (negb d) = r /\ hasPart (peerAt en d) c e t (negb d) = true;
  lw_round : forall a b e t e' t' ea eb, a ∈ ranks -> b ∈ ranks -> entryAt a e t = Some ea -> entryAt b e' t' = Some eb ->
    sendRank (en_work ea) = b -> recvRank (en_work eb) = a -> t = t' }.

(** What is done is done on both sides. *)
Record paired (D : list half) : Prop := {
  pr_nodup : NoDup D;
  pr_halves : forall r c e t d, (r, c, e, t, d) ∈ D -> r ∈ ranks /\ hasPart r c e t d = true;
  pr_partner : forall r c e t d en, (r, c, e, t, d) ∈ D -> entryAt r e t = Some en -> (peerAt en d, c, e, t, negb d) ∈ D }.

Lemma paired_nil : paired [].
Proof. constructor; [constructor| |]; intros *; by rewrite elem_of_nil. Qed.

Context (nRounds nEpochs : nat) (L : lawful nRounds nEpochs).

(** A later work of the same peer does not come up before the earlier one is done. *)
Lemma not_overtaken D r c e t e' d n i :
  r ∈ ranks -> placed r n i c e' t -> current D r n i c -> hasPart r c e t d = true -> (r, c, e, t, d) ∉ D -> ~ (e < e')%nat.
Proof.
  intros Hr Hp Hcur Hh HD He. destruct (lw_placed _ _ L r c e t d Hr Hh) as (n1 & i1 & Hp1).
  destruct (lw_bounds _ _ L r c e t d Hr Hh) as (_ & _ & Ht).
  assert (e * nRounds + t < e' * nRounds + t)%nat as Hkey by nia.
  destruct (lt_eq_lt_dec n1 n) as [[Hn| ->]|Hn].
  - apply HD, (Hcur n1 i1 c e t d Hp1 Hh). by left.
  - destruct (lt_eq_lt_dec i1 i) as [[Hi| ->]|Hi].
    + apply HD, (Hcur n i1 c e t d Hp1 Hh). by right.
    + pose proof (lw_rounds _ _ L r n i c e t e' Hr Hp1 Hp). lia.
    + pose proof (lw_groups _ _ L r n i c e' t i1 e t Hr Hp Hp1 Hi). lia.
  - pose proof (lw_kernels _ _ L r n i c e' t n1 i1 c e t Hr Hp Hp1 Hn). lia.
Qed.

(** The two sides of an exchange are the two sides of one message. *)
Lemma exchange_same D a b c e t e' t' ea eb :
  paired D -> a ∈ ranks -> b ∈ ranks -> ready D a c e t true -> ready D b c e' t' false ->
  entryAt a e t = Some ea -> entryAt b e' t' = Some eb -> sendRank (en_work ea) = b -> recvRank (en_work eb) = a -> e = e' /\ t = t'.
Proof.
  intros HD Ha Hb [(na & ia & Hpa & Hca) [Hha HDa]] [(nb & ib & Hpb & Hcb) [Hhb HDb]] Ea Eb Es Er.
  assert (t = t') as <- by by eapply (lw_round _ _ L a b). split; [|done].
  destruct (lw_partner _ _ L a c e t true Ha Hha) as (ea1 & eb1 & Ea1 & _ & Eb1 & Hback & Hpart). cbn [peerAt negb] in *.
  rewrite Ea in Ea1. injection Ea1 as <-. rewrite Es in Eb1, Hpart.
  destruct (lw_partner _ _ L b c e' t false Hb Hhb) as (eb2 & ea2 & Eb2 & _ & Ea2 & Hback2 & Hpart2). cbn [peerAt negb] in *.
  rewrite Eb in Eb2. injection Eb2 as <-. rewrite Er in Ea2, Hpart2.
  assert ((b, c, e, t, false) ∉ D) as HD1.
  { intros Hin. apply HDa. pose proof (pr_partner _ HD _ _ _ _ _ _ Hin Eb1) as H. cbn [peerAt negb] in H. by rewrite Hback in H. }
  assert ((a, c, e', t, true) ∉ D) as HD2.
  { intros Hin. apply HDb. pose proof (pr_partner _ HD _ _ _ _ _ _ Hin Ea2) as H. cbn [peerAt negb] in H. by rewrite Hback2 in H. }
  pose proof (not_overtaken D b c e t e' false nb ib Hb Hpb Hcb Hpart HD1).
  pose proof (not_overtaken D a c e' t e true na ia Ha Hpa Hca Hpart2 HD2). lia.
Qed.

Lemma exchange_paired D D' : paired D -> exchange D D' -> paired D'.
Proof.
  intros HD [a b c e t e' t' ea eb Ha Hb Ra Rb Ea Eb Es Er].
  destruct (exchange_same D a b c e t e' t' ea eb HD Ha Hb Ra Rb Ea Eb Es Er) as [<- <-].
  destruct Ra as [_ [Hha HDa]], Rb as [_ [Hhb HDb]]. constructor.
  - constructor; [rewrite elem_of_cons; naive_solver|]. constructor; [done|apply HD].
  - intros r c1 e1 t1 d. rewrite !elem_of_cons. intros [[= -> -> -> -> ->]|[[= -> -> -> -> ->]|H]]; [done|done|by apply HD].
  - intros r c1 e1 t1 d en. rewrite !elem_of_cons. intros [[= -> -> -> -> ->]|[[= -> -> -> -> ->]|H]] En.
    + rewrite Ea in En. injection En as <-. cbn [peerAt negb]. rewrite Es. auto.
    + rewrite Eb in En. injection En as <-. cbn [peerAt negb]. rewrite Er. auto.
    + right. right. by eapply (pr_partner _ HD).
Qed.

(** All halves there can be. *)
Definition halves : list half :=
  r ← ranks; c ← seq 0 MAXCHANNELS; e ← seq 0 nEpochs; t ← seq 0 nRounds; [(r, c, e, t, true); (r, c, e, t, false)].

Lemma halves_elem r c e t d : r ∈ ranks -> hasPart r c e t d = true -> (r, c, e, t, d) ∈ halves.
Proof.
  intros Hr Hh. destruct (lw_bounds _ _ L _ _ _ _ _ Hr Hh) as (Hc & He & Ht). unfold halves.
  apply list_elem_of_bind. exists r. split; [|done]. apply list_elem_of_bind. exists c. split; [|apply elem_of_seq; lia].
  apply list_elem_of_bind. exists e. split; [|apply elem_of_seq; lia]. apply list_elem_of_bind. exists t. split; [|apply elem_of_seq; lia].
  destruct d; rewrite !elem_of_cons; auto.
Qed.

Lemma length_bind_const {A B} (f : A -> list B) l n : (forall x, length (f x) = n) -> length (l ≫= f) = (length l * n)%nat.
Proof. intros H. induction l as [|x l IH]; [done|]. simpl. rewrite length_app, H. unfold mbind in IH. by rewrite IH. Qed.

Lemma halves_length : length halves = (length ranks * (MAXCHANNELS * (nEpochs * (nRounds * 2))))%nat.
Proof. unfold halves. repeat (erewrite length_bind_const; [rewrite ?length_seq; reflexivity|intros]). done. Qed.

Lemma list_min {A} (f : A -> nat) l : l <> [] -> exists x, x ∈ l /\ forall y, y ∈ l -> (f x <= f y)%nat.
Proof.
  induction l as [|x l IH]; [done|]. intros _. destruct l as [|y l].
  - exists x. split; [left|]. intros y [->|H%not_elem_of_nil]%elem_of_cons; done.
  - destruct IH as (z & Hz & Hmin); [done|]. destruct (le_lt_dec (f x) (f z)).
    + exists x. split; [left|]. intros w [->|Hw]%elem_of_cons; [done|]. specialize (Hmin w Hw). lia.
    + exists z. split; [by right|]. intros w [->|Hw]%elem_of_cons; [lia|]. by apply Hmin.
Qed.

Definition remaining (D : list half) : list half :=
  filter (fun h => (let '(r, c, e, t, d) := h in hasPart r c e t d) = true /\ h ∉ D) halves.

Lemma remaining_elem D r c e t d : (r, c, e, t, d) ∈ remaining D <-> (r, c, e, t, d) ∈ halves /\ hasPart r c e t d = true /\ (r, c, e, t, d) ∉ D.
Proof. unfold remaining. rewrite list_elem_of_filter. tauto. Qed.

Lemma halves_rank r c e t d : (r, c, e, t, d) ∈ halves -> r ∈ ranks.
Proof.
  unfold halves. rewrite list_elem_of_bind. intros (r' & H & Hr'). apply list_elem_of_bind in H as (c' & H & _).
  apply list_elem_of_bind in H as (e' & H & _). apply list_elem_of_bind in H as (t' & H & _).
  rewrite !elem_of_cons, elem_of_nil in H. naive_solver.
Qed.

(** The work with the least epoch and round of those that are left is ready. *)
Lemma least_ready D r c e t d :
  r ∈ ranks -> hasPart r c e t d = true -> (r, c, e, t, d) ∉ D ->
  (forall c' e' t' d', hasPart r c' e' t' d' = true -> (r, c', e', t', d') ∉ D -> (e * nRounds + t <= e' * nRounds + t')%nat) ->
  ready D r c e t d.
Proof.
  intros Hr Hh HD Hmin. split; [|done]. destruct (lw_placed _ _ L r c e t d Hr Hh) as (n & i & Hp). exists n, i. split; [done|].
  intros n' i' c' e' t' d' Hp' Hh' Hlt. destruct (decide ((r, c', e', t', d') ∈ D)) as [|Hn]; [done|]. specialize (Hmin c' e' t' d' Hh' Hn).
  destruct Hlt as [Hn'|(-> & -> & Hi)].
  - pose proof (lw_kernels _ _ L r n' i' c' e' t' n i c e t Hr Hp' Hp Hn'). lia.
  - pose proof (lw_groups _ _ L r n i' c e' t' i e t Hr Hp' Hp Hi). lia.
Qed.

Lemma exchange_progress D : paired D -> (exists D', exchange D D') \/ finished D.
Proof.
  intros HD. destruct (decide (remaining D = [])) as [E|Hne].
  { right. intros r c e t d Hr Hh. destruct (decide ((r, c, e, t, d) ∈ D)) as [|Hn]; [done|]. exfalso.
    assert ((r, c, e, t, d) ∈ remaining D) as H by (apply remaining_elem; split; [by apply halves_elem|done]). rewrite E in H. by apply not_elem_of_nil in H. }
  left. destruct (list_min (fun h : half => let '(_, _, e, t, _) := h in e * nRounds + t)%nat (remaining D) Hne) as ([[[[r c] e] t] d] & Hin & Hmin).
  apply remaining_elem in Hin as (Hin & Hh & Hn). apply halves_rank in Hin as Hr.
  destruct (lw_partner _ _ L r c e t d Hr Hh) as (en & en' & En & Hp & En' & Hback & Hh').
  assert ((peerAt en d, c, e, t, negb d) ∉ D) as Hn'.
  { intros H. apply Hn. pose proof (pr_partner _ HD _ _ _ _ _ _ H En') as H'. by rewrite Hback, negb_involutive in H'. }
  assert (forall r', r' ∈ ranks -> forall c' e' t' d', hasPart r' c' e' t' d' = true -> (r', c', e', t', d') ∉ D ->
    (e * nRounds + t <= e' * nRounds + t')%nat) as Hleast.
  { intros r' Hr' c' e' t' d' H1 H2. apply (Hmin (r', c', e', t', d')). apply remaining_elem. split; [by apply halves_elem|done]. }
  pose proof (least_ready D r c e t d Hr Hh Hn (Hleast r Hr)) as R1.
  pose proof (least_ready D _ c e t _ Hp Hh' Hn' (Hleast _ Hp)) as R2.
  destruct d; cbn [peerAt negb] in *; eexists.
  - by eapply (Exchange D r (sendRank (en_work en)) c e t e t en en').
  - by eapply (Exchange D (recvRank (en_work en)) r c e t e t en' en).
Qed.

Lemma exchange_runs k D : nsteps exchange k [] D -> paired D /\ length D = (2 * k)%nat /\ (k <= length ranks * MAXCHANNELS * nEpochs * nRounds)%nat.
Proof.
  intros H. assert (forall k D1 D2, nsteps exchange k D1 D2 -> paired D1 -> paired D2 /\ length D2 = (2 * k + length D1)%nat) as Hind.
  { clear k D H. induction 1 as [D1|k D1 D2 D3 Hs _ IH]; intros HD; [done|]. destruct (IH (exchange_paired _ _ HD Hs)) as [H1 H2].
    split; [done|]. destruct Hs. simpl in H2. lia. }
  destruct (Hind _ _ _ H paired_nil) as [HD Hlen]. simpl in Hlen. split; [done|]. split; [lia|].
  assert (length D <= length halves)%nat as Hle.
  { apply submseteq_length, NoDup_submseteq; [apply HD|]. intros [[[[r c] e] t] d] Hin. destruct (pr_halves _ HD _ _ _ _ _ Hin). by apply halves_elem. }
  rewrite halves_length in Hle. unfold MAXCHANNELS in *. nia.
Qed.

End runs.

(** ** The cluster *)

Section cluster.

Context (nodes : list (list Z)) (paramGroupSize : Z) (budget : ncclKernelPlanBudget) (epochs : nat).
(** What each rank has: its communicator, connectors, registrations and queues. *)
Context (comms : Z -> p2pComm) (conn : Z -> bool -> Z -> Z -> p2pConn).
Context (regNet : Z -> p2pTask -> bool -> Z -> bool) (regIpc : Z -> p2pTask -> bool -> option Z) (planners : Z -> p2pPlanner).

Local Abbreviation ranks := (concat nodes).

(** The transfer of a rank in a round of an epoch, as the launch plans it. *)
Definition transferAt (r : Z) (e t : nat) : option p2pEntry :=
  roundEntry (comms r) (conn r) (regNet r) (regIpc r) (pl_send (planners r)) (pl_recv (planners r)) (leastChannels (comms r)) e t.

(** The ranks have computed their schedules, agree on the parameters, have
    connectors whose sides fit, and have posted a receive for each send, of the same
    size.  If a buffer is registered with the network on one side, the buffer on the
    other side is as well. *)
Record netOk : Prop := {
  no_cluster : cluster nodes;
  no_param : 0 < paramGroupSize;
  no_rank : forall r, r ∈ ranks -> pm_rank (comms r) = r;
  no_nRanks : forall r, r ∈ ranks -> pm_nRanks (comms r) = Z.of_nat (length ranks);
  no_sched : forall i j n r, nodes !! i = Some n -> n !! j = Some r ->
    ncclP2pSchedule paramGroupSize (viewOf nodes i j) = Some (ncclSuccess, pm_p2pSchedGroupSize (comms r), pm_schedule (comms r));
  no_agree : forall r r', r ∈ ranks -> r' ∈ ranks -> agree (comms r) (comms r');
  no_channels : forall r, r ∈ ranks -> exists k, 0 <= k <= 6 /\ pm_p2pnChannels (comms r) = 2 ^ k;
  no_perPeer : forall r, r ∈ ranks -> 1 <= pm_p2pnChannelsPerPeer (comms r) <= pm_p2pnChannels (comms r);
  no_chunk : forall r, r ∈ ranks -> 8 <= pm_p2pChunkSize (comms r) < 2 ^ 25;
  no_funcId : forall r, r ∈ ranks -> 0 <= pm_devFuncId (comms r) < 2 ^ 11;
  no_conn : forall a b ch, a ∈ ranks -> b ∈ ranks -> a <> b ->
    cn_hasLL (conn a true b ch) = cn_hasLL (conn b false a ch) /\ cn_network (conn a true b ch) = cn_network (conn b false a ch);
  no_tasks : forall a b, a ∈ ranks -> b ∈ ranks ->
    Forall2 (fun ts tr => tp_bytes ts = tp_bytes tr /\ taskFits (comms a) ts) (pl_send (planners a) b) (pl_recv (planners b) a);
  no_epochs : forall a b, a ∈ ranks -> b ∈ ranks -> (length (pl_send (planners a) b) <= epochs)%nat;
  no_count : forall r, r ∈ ranks -> pl_nTasksP2p (planners r) = total (comms r) (planners r);
  no_registered : forall a b e t ea eb, a ∈ ranks -> b ∈ ranks -> a <> b -> transferAt a e t = Some ea -> transferAt b e t = Some eb ->
    sendRank (en_work ea) = b -> recvRank (en_work eb) = a -> di_netReg (en_dirs ea true) = di_netReg (en_dirs eb false);
  no_budget : budgetOk budget;
  no_room : forall r, r ∈ ranks -> ncclTestBudget budget (pm_p2pnChannelsPerPeer (comms r)) (ncclDevWorkSize ncclDevWorkTypeP2p) = true }.

Context (N : netOk).

(** The schedules. *)
Lemma net_sched : exists gs, (0 < gs)%nat /\ even gs nodes /\ forall r, r ∈ ranks ->
  pm_schedule (comms r) = rankSched nodes gs r /\ pm_p2pSchedGroupSize (comms r) = Z.of_nat gs.
Proof.
  destruct (rankSched_eq nodes paramGroupSize (no_cluster N) (no_param N)) as (gs & Hgs & Hev & Hrun). exists gs. split_and!; [done|done|].
  intros r Hr. rewrite list_elem_of_In in Hr. apply in_concat in Hr as (n & Hn & Hr). apply list_elem_of_In, list_elem_of_lookup in Hn as [i Hi].
  apply list_elem_of_In, list_elem_of_lookup in Hr as [j Hj]. pose proof (no_sched N i j n r Hi Hj) as E. rewrite (Hrun i j n r Hi Hj) in E.
  by injection E as <- <-.
Qed.

Lemma net_comm r : r ∈ ranks -> p2pCommOk (comms r).
Proof.
  intros Hr. destruct net_sched as (gs & Hgs & Hev & Hs). destruct (Hs r Hr) as [Es _].
  destruct (rankSched_pairs nodes gs r (no_cluster N) Hgs Hev Hr) as (H1 & H2 & H3). rewrite <- Es in H1, H2, H3.
  constructor.
  - rewrite (no_nRanks N r Hr), <- H1, length_fmap. done.
  - rewrite H1. apply (no_cluster N).
  - rewrite H2. apply (no_cluster N).
  - intros s q [t Ht]%list_elem_of_lookup. rewrite (no_rank N r Hr). by apply (H3 t).
  - by apply (no_channels N).
  - by apply (no_perPeer N).
  - by apply (no_chunk N).
  - by apply (no_funcId N).
Qed.

(** In each round the ranks a rank names name it. *)
Lemma net_pair r t s q : r ∈ ranks -> pm_schedule (comms r) !! t = Some (s, q) ->
  s ∈ ranks /\ q ∈ ranks /\ (exists x, pm_schedule (comms s) !! t = Some (x, r)) /\ (exists x, pm_schedule (comms q) !! t = Some (r, x)).
Proof.
  intros Hr Ht. destruct net_sched as (gs & Hgs & Hev & Hs). destruct (Hs r Hr) as [Es _]. rewrite Es in Ht.
  destruct (rankSched_pairs nodes gs r (no_cluster N) Hgs Hev Hr) as (H1 & H2 & H3). destruct (H3 t s q Ht) as (Hx & Hy & _).
  assert (s ∈ ranks /\ q ∈ ranks) as [Hs' Hq'].
  { apply list_elem_of_lookup_2 in Ht. rewrite <- H1 at 1. rewrite <- H2. split; apply list_elem_of_fmap; by exists (s, q). }
  rewrite (proj1 (Hs s Hs')), (proj1 (Hs q Hq')). done.
Qed.

Lemma net_length r : r ∈ ranks -> length (pm_schedule (comms r)) = length ranks.
Proof. intros Hr. pose proof (ck_length _ (net_comm r Hr)) as E. rewrite (no_nRanks N r Hr) in E. lia. Qed.

Lemma taskFits_agree c c' t : agree c c' -> taskFits c t -> taskFits c' t.
Proof. intros A. unfold taskFits. by rewrite (ag_chunkSize _ _ A). Qed.

Lemma net_elem r s q : r ∈ ranks -> (s, q) ∈ pm_schedule (comms r) -> s ∈ ranks /\ q ∈ ranks.
Proof. intros Hr [t Ht]%list_elem_of_lookup. by destruct (net_pair r t s q Hr Ht) as (? & ? & _). Qed.

Lemma net_queues r : r ∈ ranks -> queuesOk (comms r) (pl_send (planners r)) (pl_recv (planners r)).
Proof.
  intros Hr. constructor.
  - intros s q t Hin Ht. destruct (net_elem r s q Hr Hin) as [Hs _]. pose proof (no_tasks N r s Hr Hs) as HF.
    apply list_elem_of_lookup in Ht as [i Hi]. destruct (Forall2_lookup_l _ _ _ _ _ HF Hi) as (tr & _ & _ & H). done.
  - intros s q t Hin Ht. destruct (net_elem r s q Hr Hin) as [_ Hq]. pose proof (no_tasks N q r Hq Hr) as HF.
    apply list_elem_of_lookup in Ht as [i Hi]. destruct (Forall2_lookup_r _ _ _ _ _ HF Hi) as (ts & _ & E & H).
    apply (taskFits_agree _ _ _ (no_agree N q r Hq Hr)). unfold taskFits in *. by rewrite <- E.
  - rewrite (no_rank N r Hr). by eapply Forall2_length, (no_tasks N).
Qed.

Lemma net_epochs r : r ∈ ranks -> atMost (comms r) (pl_send (planners r)) (pl_recv (planners r)) epochs.
Proof.
  intros Hr s q Hin. destruct (net_elem r s q Hr Hin) as [Hs Hq]. split; [by apply (no_epochs N)|].
  rewrite <- (Forall2_length _ _ _ (no_tasks N q r Hq Hr)). by apply (no_epochs N).
Qed.

(** What an entry is made of. *)
Lemma transferAt_entry r e t en : transferAt r e t = Some en ->
  exists s q, pm_schedule (comms r) !! t = Some (s, q) /\
    p2pEntryOf (comms r) (conn r) (regNet r) (regIpc r) (leastChannels (comms r)) (pm_p2pnChannelsPerPeer (comms r)) (Z.of_nat e) (Z.of_nat t) s q
      (pl_send (planners r) s !! e) (pl_recv (planners r) q !! e) = Some en.
Proof.
  unfold transferAt, roundEntry. destruct (pm_schedule (comms r) !! t) as [[s q]|]; [|done]. cbn [mbind option_bind]. intros H. exists s, q. split; [done|].
  destruct (pl_send (planners r) s !! e), (pl_recv (planners r) q !! e); try done; by destruct (_ && _).
Qed.

(** The entry of a rank, its fields and the sizes of its directions. *)
Record entryOk (r : Z) (e t : nat) (s q : Z) (en : p2pEntry) : Prop := {
  eo_epoch : en_epoch en = Z.of_nat e;
  eo_round : en_round en = Z.of_nat t;
  eo_send : sendRank (en_work en) = s;
  eo_recv : recvRank (en_work en) = q;
  eo_base : channelBase (en_work en) =
    ncclP2pChannelBaseForRound (pm_nNodes (comms r)) (pm_p2pSchedGroupSize (comms r)) (pm_p2pnChannels (comms r)) (Z.of_nat t);
  eo_channels : nP2pChannels (en_work en) = pm_p2pnChannels (comms r);
  eo_sendDir : p2pDir (comms r) (conn r) (regNet r) (regIpc r) true (s =? r) (pl_send (planners r) s !! e) s
    (leastChannels (comms r)) (pm_p2pnChannelsPerPeer (comms r)) (channelBase (en_work en)) = Some (en_dirs en true);
  eo_recvDir : p2pDir (comms r) (conn r) (regNet r) (regIpc r) false (s =? r) (pl_recv (planners r) q !! e) q
    (leastChannels (comms r)) (pm_p2pnChannelsPerPeer (comms r)) (channelBase (en_work en)) = Some (en_dirs en false);
  eo_nSend : nSendChannels (en_work en) = di_nChannels (en_dirs en true);
  eo_nRecv : nRecvChannels (en_work en) = di_nChannels (en_dirs en false);
  eo_sendSome : pl_send (planners r) s !! e = None -> di_nChannels (en_dirs en true) = 0;
  eo_recvSome : pl_recv (planners r) q !! e = None -> di_nChannels (en_dirs en false) = 0;
  eo_sendBytes : forall ts, pl_send (planners r) s !! e = Some ts -> sendBytes (en_work en) = tp_bytes ts;
  eo_recvBytes : forall tr, pl_recv (planners r) q !! e = Some tr -> recvBytes (en_work en) = tp_bytes tr }.

Lemma entry_ok r e t s q en :
  r ∈ ranks -> pm_schedule (comms r) !! t = Some (s, q) ->
  p2pEntryOf (comms r) (conn r) (regNet r) (regIpc r) (leastChannels (comms r)) (pm_p2pnChannelsPerPeer (comms r)) (Z.of_nat e) (Z.of_nat t) s q
    (pl_send (planners r) s !! e) (pl_recv (planners r) q !! e) = Some en -> entryOk r e t s q en.
Proof.
  intros Hr Hst H. pose proof (net_comm r Hr) as C. pose proof (channels_bound _ C) as HC. pose proof (ck_perPeer _ C) as Hpp.
  destruct (leastChannels_ok _ C) as [_ Hleast].
  destruct (round_fits (comms r) (pl_send (planners r)) (pl_recv (planners r)) e t s q (net_queues r Hr) Hst) as [Fs Fr].
  unfold p2pEntryOf in H. rewrite (no_rank N r Hr) in H.
  set (base := ncclP2pChannelBaseForRound _ _ _ _) in H.
  destruct (p2pDir_ok (comms r) (conn r) (regNet r) (regIpc r) false (s =? r) (pl_recv (planners r) q !! e) q (leastChannels (comms r))
    (pm_p2pnChannelsPerPeer (comms r)) base C Hleast ltac:(lia) Fr) as (dr & Edr & Hdr).
  destruct (p2pDir_ok (comms r) (conn r) (regNet r) (regIpc r) true (s =? r) (pl_send (planners r) s !! e) s (leastChannels (comms r))
    (pm_p2pnChannelsPerPeer (comms r)) base C Hleast ltac:(lia) Fs) as (ds & Eds & Hds).
  rewrite Edr, Eds in H. cbn [mbind option_bind] in H. injection H as <-.
  assert (0 <= di_nChannels ds < 2 ^ 8) by (destruct (_ !! e) in Hds; lia). assert (0 <= di_nChannels dr < 2 ^ 8) by (destruct (_ !! e) in Hdr; lia).
  constructor; cbn [en_epoch en_round en_work en_dirs sendRank recvRank channelBase nP2pChannels nSendChannels nRecvChannels sendBytes recvBytes];
    try reflexivity; try assumption.
  - apply Z.mod_small. lia.
  - by apply Z.mod_small.
  - by apply Z.mod_small.
  - intros E. by rewrite E in Hds.
  - intros E. by rewrite E in Hdr.
  - intros ts ->. done.
  - intros tr ->. done.
Qed.

Lemma transferAt_ok r e t en : r ∈ ranks -> transferAt r e t = Some en -> exists s q, pm_schedule (comms r) !! t = Some (s, q) /\ entryOk r e t s q en.
Proof. intros Hr H. destruct (transferAt_entry r e t en H) as (s & q & Hst & He). exists s, q. split; [done|]. by apply entry_ok. Qed.

(** A transfer is planned unless there is nothing to do or it is in place. *)
Lemma transferAt_some r e t s q :
  r ∈ ranks -> pm_schedule (comms r) !! t = Some (s, q) ->
  (pl_send (planners r) s !! e <> None \/ pl_recv (planners r) q !! e <> None) ->
  (s =? r) && inPlace (pl_send (planners r) s !! e) (pl_recv (planners r) q !! e) = false -> exists en, transferAt r e t = Some en.
Proof.
  intros Hr Hst Hne Hin. pose proof (net_comm r Hr) as C. pose proof (channels_bound _ C) as HC. pose proof (ck_perPeer _ C) as Hpp.
  destruct (leastChannels_ok _ C) as [_ Hleast].
  destruct (round_fits (comms r) (pl_send (planners r)) (pl_recv (planners r)) e t s q (net_queues r Hr) Hst) as [Fs Fr].
  destruct (p2pEntryOf_ok (comms r) (conn r) (regNet r) (regIpc r) (leastChannels (comms r)) (pm_p2pnChannelsPerPeer (comms r))
    (Z.of_nat e) (Z.of_nat t) s q _ _ C Hleast ltac:(lia) Fs Fr Hne) as (en & E & _).
  exists en. unfold transferAt, roundEntry. rewrite Hst. cbn [mbind option_bind]. rewrite (no_rank N r Hr), Hin, E.
  destruct (pl_send (planners r) s !! e), (pl_recv (planners r) q !! e); naive_solver.
Qed.

(** The two sides of a message agree on its channels, sizes and protocol. *)
Record sides (ea eb : p2pEntry) : Prop := {
  si_base : channelBase (en_work ea) = channelBase (en_work eb);
  si_channels : nP2pChannels (en_work ea) = nP2pChannels (en_work eb);
  si_parts : nSendChannels (en_work ea) = nRecvChannels (en_work eb);
  si_bytes : sendBytes (en_work ea) = recvBytes (en_work eb);
  si_direction : sameDirection (en_dirs ea true) (en_dirs eb false) }.

Lemma message_sides a b e t q x ea eb ts tr :
  a ∈ ranks -> b ∈ ranks -> pm_schedule (comms a) !! t = Some (b, q) -> pm_schedule (comms b) !! t = Some (x, a) ->
  pl_send (planners a) b !! e = Some ts -> pl_recv (planners b) a !! e = Some tr ->
  transferAt a e t = Some ea -> transferAt b e t = Some eb -> entryOk a e t b q ea -> entryOk b e t x a eb -> sides ea eb.
Proof.
  intros Ha Hb Hat Hbt Hts Htr Ea Eb Oa Ob. pose proof (no_agree N a b Ha Hb) as A.
  assert (tp_bytes ts = tp_bytes tr) as Hbytes.
  { destruct (Forall2_lookup_lr _ _ _ _ _ _ (no_tasks N a b Ha Hb) Hts Htr). done. }
  assert (channelBase (en_work ea) = channelBase (en_work eb)) as Hbase.
  { rewrite (eo_base _ _ _ _ _ _ Oa), (eo_base _ _ _ _ _ _ Ob), (ag_nNodes _ _ A), (ag_groupSize _ _ A), (ag_channels _ _ A). done. }
  assert ((b =? a) = (x =? b)) as Hself.
  { pose proof (ck_self _ (net_comm b Hb) x a (list_elem_of_lookup_2 _ _ _ Hbt)) as H. rewrite (no_rank N b Hb) in H.
    destruct (Z.eqb_spec b a), (Z.eqb_spec x b); naive_solver. }
  pose proof (eo_sendDir _ _ _ _ _ _ Oa) as Ds. pose proof (eo_recvDir _ _ _ _ _ _ Ob) as Dr. rewrite Hts in Ds. rewrite Htr in Dr.
  rewrite <- Hself, <- Hbase, <- (leastChannels_agree _ _ A), <- (ag_perPeer _ _ A) in Dr.
  assert (sameDirection (en_dirs ea true) (en_dirs eb false)) as Hsame.
  { eapply (p2pDir_match (comms a) (comms b)); [exact A|exact Hbytes| |exact Ds|exact Dr]. intros H ch. apply (no_conn N a b ch Ha Hb). intros ->. lia. }
  constructor; [done| | | |done].
  - rewrite (eo_channels _ _ _ _ _ _ Oa), (eo_channels _ _ _ _ _ _ Ob). apply A.
  - rewrite (eo_nSend _ _ _ _ _ _ Oa), (eo_nRecv _ _ _ _ _ _ Ob). apply Hsame. destruct (Z.eqb_spec b a) as [->|Hne].
    + by rewrite (p2pDir_self _ _ _ _ _ _ _ _ _ _ _ Ds), (p2pDir_self _ _ _ _ _ _ _ _ _ _ _ Dr).
    + apply (no_registered N a b e t ea eb); try done; [apply (eo_send _ _ _ _ _ _ Oa)|apply (eo_recv _ _ _ _ _ _ Ob)].
  - by rewrite (eo_sendBytes _ _ _ _ _ _ Oa ts Hts), (eo_recvBytes _ _ _ _ _ _ Ob tr Htr).
Qed.

(** A planned transfer with another rank that has a send or a receive. *)
Lemma other_planned r e t s q :
  r ∈ ranks -> pm_schedule (comms r) !! t = Some (s, q) -> s <> r ->
  (pl_send (planners r) s !! e <> None \/ pl_recv (planners r) q !! e <> None) -> exists en, transferAt r e t = Some en.
Proof. intros Hr Hst Hne Hsome. apply (transferAt_some r e t s q); try done. by rewrite (proj2 (Z.eqb_neq s r) Hne). Qed.

Lemma send_side a b q e t ea ts :
  a ∈ ranks -> pm_schedule (comms a) !! t = Some (b, q) -> transferAt a e t = Some ea -> pl_send (planners a) b !! e = Some ts ->
  exists eb, b ∈ ranks /\ transferAt b e t = Some eb /\ recvRank (en_work eb) = a /\ sides ea eb.
Proof.
  intros Ha Hat Ea Hts. destruct (net_pair a t b q Ha Hat) as (Hb & _ & [x Hbt] & _).
  destruct (Forall2_lookup_l _ _ _ _ _ (no_tasks N a b Ha Hb) Hts) as (tr & Htr & _).
  assert (exists eb, transferAt b e t = Some eb) as [eb Eb].
  { destruct (decide (b = a)) as [->|Hne]; [by exists ea|]. apply (other_planned b e t x a); [done|done| |right; by rewrite Htr].
    intros ->. apply Hne. pose proof (ck_self _ (net_comm b Hb) b a (list_elem_of_lookup_2 _ _ _ Hbt)) as H. rewrite (no_rank N b Hb) in H. symmetry. by apply H. }
  destruct (transferAt_ok a e t ea Ha Ea) as (s' & q' & E1 & Oa). rewrite Hat in E1. injection E1 as <- <-.
  destruct (transferAt_ok b e t eb Hb Eb) as (s' & q' & E1 & Ob). rewrite Hbt in E1. injection E1 as <- <-.
  exists eb. split_and!; [done|done|apply Ob|]. by eapply (message_sides a b e t q x).
Qed.

Lemma recv_side b x a e t eb tr :
  b ∈ ranks -> pm_schedule (comms b) !! t = Some (x, a) -> transferAt b e t = Some eb -> pl_recv (planners b) a !! e = Some tr ->
  exists ea, a ∈ ranks /\ transferAt a e t = Some ea /\ sendRank (en_work ea) = b /\ sides ea eb.
Proof.
  intros Hb Hbt Eb Htr. destruct (net_pair b t x a Hb Hbt) as (_ & Ha & _ & [q Hat]).
  destruct (Forall2_lookup_r _ _ _ _ _ (no_tasks N a b Ha Hb) Htr) as (ts & Hts & _).
  assert (exists ea, transferAt a e t = Some ea) as [ea Ea].
  { destruct (decide (b = a)) as [->|Hne]; [by exists eb|]. apply (other_planned a e t b q); [done|done|done|left; by rewrite Hts]. }
  destruct (send_side a b q e t ea ts Ha Hat Ea Hts) as (eb' & _ & Eb' & _ & Hsides). rewrite Eb in Eb'. injection Eb' as <-.
  destruct (transferAt_ok a e t ea Ha Ea) as (s' & q' & E1 & Oa). rewrite Hat in E1. injection E1 as <- <-.
  exists ea. split_and!; [done|done|apply Oa|done].
Qed.

Lemma hasPart_spec r c e t d : r ∈ ranks -> hasPart transferAt r c e t d = true ->
  exists en s q, transferAt r e t = Some en /\ pm_schedule (comms r) !! t = Some (s, q) /\ entryOk r e t s q en /\
    Z.of_nat c < pm_p2pnChannels (comms r) /\
    0 <= ncclP2pChannelToPart (pm_p2pnChannels (comms r)) (channelBase (en_work en)) (Z.of_nat c) < di_nChannels (en_dirs en d) /\
    if d then is_Some (pl_send (planners r) s !! e) else is_Some (pl_recv (planners r) q !! e).
Proof.
  intros Hr. unfold hasPart. destruct (transferAt r e t) as [en|] eqn:E; [|done]. destruct (transferAt_ok r e t en Hr E) as (s & q & Hst & O).
  intros [Hc%Z.ltb_lt Hp%Z.ltb_lt]%andb_true_iff. rewrite (eo_channels _ _ _ _ _ _ O) in Hc, Hp. pose proof (channels_bound _ (net_comm r Hr)).
  assert (0 <= ncclP2pChannelToPart (pm_p2pnChannels (comms r)) (channelBase (en_work en)) (Z.of_nat c)) as H0.
  { rewrite channelToPart_eq; [apply Z.mod_pos_bound; lia|by apply net_comm|rewrite (eo_base _ _ _ _ _ _ O); apply base_bound|lia]. }
  exists en, s, q. split_and!; try done.
  - destruct d; [by rewrite <- (eo_nSend _ _ _ _ _ _ O)|by rewrite <- (eo_nRecv _ _ _ _ _ _ O)].
  - destruct d.
    + destruct (pl_send (planners r) s !! e) eqn:Es; [done|]. rewrite (eo_nSend _ _ _ _ _ _ O), (eo_sendSome _ _ _ _ _ _ O Es) in Hp. lia.
    + destruct (pl_recv (planners r) q !! e) eqn:Er; [done|]. rewrite (eo_nRecv _ _ _ _ _ _ O), (eo_recvSome _ _ _ _ _ _ O Er) in Hp. lia.
Qed.

Lemma net_partner r c e t d : r ∈ ranks -> hasPart transferAt r c e t d = true ->
  exists en en', transferAt r e t = Some en /\ peerAt en d ∈ ranks /\ transferAt (peerAt en d) e t = Some en' /\
    peerAt en' (negb d) = r /\ hasPart transferAt (peerAt en d) c e t (negb d) = true /\ if d then sides en en' else sides en' en.
Proof.
  intros Hr Hh. destruct (hasPart_spec r c e t d Hr Hh) as (en & s & q & E & Hst & O & _ & _ & Hsome). unfold hasPart in Hh. rewrite E in Hh.
  destruct d; destruct Hsome as [task Htask]; cbn [peerAt negb].
  - destruct (send_side r s q e t en task Hr Hst E Htask) as (eb & Hs & Eb & Er & S). exists en, eb. rewrite (eo_send _ _ _ _ _ _ O). split_and!; try done.
    unfold hasPart. by rewrite Eb, <- (si_base _ _ S), <- (si_channels _ _ S), <- (si_parts _ _ S).
  - destruct (recv_side r s q e t en task Hr Hst E Htask) as (ea & Hq & Ea & Es & S). exists en, ea. rewrite (eo_recv _ _ _ _ _ _ O). split_and!; try done.
    unfold hasPart. by rewrite Ea, (si_base _ _ S), (si_channels _ _ S), (si_parts _ _ S).
Qed.

(** ** The order of the works of a rank *)

Lemma sorted_app {A} (R : A -> A -> Prop) l l' : StronglySorted R (l ++ l') ->
  StronglySorted R l /\ StronglySorted R l' /\ forall x y, x ∈ l -> y ∈ l' -> R x y.
Proof.
  induction l as [|z l IH]; cbn [app]; intros H; [split_and!; [constructor|done|by intros x y ?%not_elem_of_nil]|].
  apply StronglySorted_inv in H as [H HF]. destruct (IH H) as (H1 & H2 & H3). apply Forall_app in HF as [HF1 HF2]. split_and!; [by constructor|done|].
  intros x y [->|Hx]%elem_of_cons Hy; [|by apply H3]. rewrite Forall_forall in HF2. by apply HF2.
Qed.

Lemma concat_sorted_in {A} (R : A -> A -> Prop) ls l i : StronglySorted R (concat ls) -> ls !! i = Some l -> StronglySorted R l.
Proof.
  revert i. induction ls as [|l1 ls IH]; intros i H Hi; [done|]. cbn [concat] in H. apply sorted_app in H as (H1 & H2 & _).
  destruct i as [|i]; [by injection Hi as <-|]. by eapply IH.
Qed.

Lemma concat_sorted {A} (R : A -> A -> Prop) ls l l' i j x y :
  StronglySorted R (concat ls) -> ls !! i = Some l -> ls !! j = Some l' -> (i < j)%nat -> x ∈ l -> y ∈ l' -> R x y.
Proof.
  revert i j. induction ls as [|l1 ls IH]; intros i j H Hi Hj Hlt Hx Hy; [done|]. cbn [concat] in H. apply sorted_app in H as (H1 & H2 & H3).
  destruct j as [|j]; [lia|]. destruct i as [|i].
  - injection Hi as ->. apply H3; [done|]. apply list_elem_of_In, in_concat. exists l'. split; apply list_elem_of_In; [|done].
    by eapply list_elem_of_lookup_2.
  - apply (IH i j); try done. lia.
Qed.

Lemma omap_sorted {A B} (R : A -> A -> Prop) (R' : B -> B -> Prop) (f : A -> option B) l :
  (forall x x' y y', x ∈ l -> x' ∈ l -> R x x' -> f x = Some y -> f x' = Some y' -> R' y y') -> StronglySorted R l -> StronglySorted R' (omap f l).
Proof.
  intros Hf H. induction H as [|x l H IH HF]; [constructor|]. simpl.
  assert (StronglySorted R' (omap f l)) as Hl by (apply IH; intros x1 x2 y1 y2 H1 H2; apply Hf; by right).
  destruct (f x) as [y|] eqn:E; [|done]. constructor; [done|]. apply Forall_forall. intros y' Hy'.
  apply list_elem_of_omap in Hy' as (x' & Hx' & E'). rewrite Forall_forall in HF. apply (Hf x x'); [left|by right|by apply HF|done|done].
Qed.

Lemma seq_sorted n m : StronglySorted lt (seq n m).
Proof.
  revert n. induction m as [|m IH]; intros n; simpl; constructor; [apply IH|]. apply Forall_forall. intros x Hx%elem_of_seq. lia.
Qed.

Local Abbreviation nRounds := (length ranks).

(** One entry comes before another one. *)
Definition earlier (en en' : p2pEntry) : Prop := en_epoch en * Z.of_nat nRounds + en_round en < en_epoch en' * Z.of_nat nRounds + en_round en'.

Local Abbreviation planned r := (transfers (comms r) (conn r) (regNet r) (regIpc r) (pl_send (planners r)) (pl_recv (planners r)) (leastChannels (comms r))).

Lemma planned_elem r m en : r ∈ ranks -> en ∈ planned r m 0%nat <-> exists e t, (e < m)%nat /\ (t < nRounds)%nat /\ transferAt r e t = Some en.
Proof.
  intros Hr. unfold transfers. rewrite (net_length r Hr). simpl. rewrite app_nil_r, list_elem_of_bind. split.
  - intros (e & (t & Ht & E)%list_elem_of_omap & He). apply elem_of_seq in Ht, He. exists e, t. split_and!; [lia|lia|done].
  - intros (e & t & He & Ht & E). exists e. split; [|apply elem_of_seq; lia]. apply list_elem_of_omap. exists t. split; [apply elem_of_seq; lia|done].
Qed.

Lemma sorted_join {A} (R : A -> A -> Prop) l l' : StronglySorted R l -> StronglySorted R l' -> (forall x y, x ∈ l -> y ∈ l' -> R x y) -> StronglySorted R (l ++ l').
Proof.
  induction 1 as [|x l H IH HF]; intros H' Hxy; [done|]. simpl. constructor; [apply IH; [done|]; intros; apply Hxy; [by right|done]|].
  apply Forall_app. split; [done|]. apply Forall_forall. intros y Hy. apply Hxy; [left|done].
Qed.

Lemma transferAt_place r e t en : r ∈ ranks -> transferAt r e t = Some en -> en_epoch en = Z.of_nat e /\ en_round en = Z.of_nat t /\ (t < nRounds)%nat.
Proof.
  intros Hr E. destruct (transferAt_ok r e t en Hr E) as (s & q & Hst & O). split_and!; [apply O|apply O|].
  apply lookup_lt_Some in Hst. by rewrite (net_length r Hr) in Hst.
Qed.

Lemma planned_sorted r m : r ∈ ranks -> StronglySorted earlier (planned r m 0%nat).
Proof.
  intros Hr. induction m as [|m IH]; [unfold transfers; simpl; constructor|]. rewrite <- transfers_epoch. unfold transfers at 1.
  replace (_ ≫= _) with (planned r m 0%nat) by (unfold transfers; simpl; by rewrite app_nil_r). apply sorted_join; [done| |].
  - apply (omap_sorted lt); [|apply seq_sorted]. intros t t' en en' _ _ Hlt E E'. unfold earlier.
    destruct (transferAt_place r m t en Hr E) as (-> & -> & _), (transferAt_place r m t' en' Hr E') as (-> & -> & _). lia.
  - intros en en' (e & t & He & Ht & E)%planned_elem (t' & _ & E')%list_elem_of_omap; [|done]. unfold earlier.
    destruct (transferAt_place r e t en Hr E) as (-> & -> & _), (transferAt_place r m t' en' Hr E') as (-> & -> & _). nia.
Qed.

(** ** The kernels *)

Context (plans : Z -> list p2pPlan) (kernels : Z -> list (nat -> list (list workItem))).

(** The plans have the transfers of the rank, and the kernels run their groups. *)
Record runsPlans : Prop := {
  rp_plans : forall r, r ∈ ranks -> concat (pp_entries <$> plans r) = planned r epochs 0%nat;
  rp_kernels : forall r, r ∈ ranks -> Forall2 (fun plan k => forall c, runGroups (comms r) plan c (k c)) (plans r) (kernels r) }.

Context (K : runsPlans).

(** One work comes before another one. *)
Definition earlierItem (w w' : workItem) : Prop := wi_epoch w * Z.of_nat nRounds + wi_round w < wi_epoch w' * Z.of_nat nRounds + wi_round w'.

Lemma p2pItems_elem (comm : p2pComm) c off es w :
  w ∈ p2pItems comm c off es -> exists en, en ∈ es /\ usesChannel comm en c = true /\ wi_epoch w = en_epoch en /\ wi_round w = en_round en.
Proof.
  revert off. induction es as [|en es IH]; intros off; simpl; [by intros ?%not_elem_of_nil|]. rewrite elem_of_app. intros [H|H].
  - destruct (usesChannel comm en c) eqn:E; [|by apply not_elem_of_nil in H]. apply list_elem_of_singleton in H as ->. exists en. split; [left|done].
  - destruct (IH _ H) as (en' & Hin & H'). exists en'. split; [by right|done].
Qed.

Lemma p2pItems_has (comm : p2pComm) c off es en : en ∈ es -> usesChannel comm en c = true ->
  exists w, w ∈ p2pItems comm c off es /\ wi_epoch w = en_epoch en /\ wi_round w = en_round en.
Proof.
  revert off. induction es as [|x es IH]; intros off Hin Hu; [by apply not_elem_of_nil in Hin|]. simpl. apply elem_of_cons in Hin as [<-|Hin].
  - rewrite Hu. eexists. split; [by left|done].
  - destruct (IH (off + 48) Hin Hu) as (w & Hw & H). exists w. split; [|done]. apply elem_of_app. by right.
Qed.

Lemma p2pItems_earlier (comm : p2pComm) c off es : StronglySorted earlier es -> StronglySorted earlierItem (p2pItems comm c off es).
Proof.
  intros H. revert off. induction H as [|en es H IH HF]; intros off; simpl; [constructor|]. destruct (usesChannel comm en c); simpl; [|apply IH].
  constructor; [apply IH|]. apply Forall_forall. intros w (en' & Hin & _ & E1 & E2)%p2pItems_elem. rewrite Forall_forall in HF. specialize (HF en' Hin).
  unfold earlierItem, earlier in *. cbn [wi_epoch wi_round p2pItem]. by rewrite E1, E2.
Qed.

(** Where a work is. *)
Lemma placed_entry r n i c e t : r ∈ ranks -> placed kernels r n i c e t ->
  exists plan gs g w, plans r !! n = Some plan /\ gs !! i = Some g /\ w ∈ g /\ wi_epoch w = Z.of_nat e /\ wi_round w = Z.of_nat t /\
    (exists k, kernels r !! n = Some k /\ k c = gs) /\ runGroups (comms r) plan c gs /\
    exists en, en ∈ pp_entries plan /\ en_epoch en = Z.of_nat e /\ en_round en = Z.of_nat t.
Proof.
  intros Hr (k & g & w & Hk & Hg & Hw & He & Ht). destruct (Forall2_lookup_r _ _ _ _ _ (rp_kernels K r Hr) Hk) as (plan & Hplan & Hrun).
  exists plan, (k c), g, w. split_and!; try done; [by exists k|]. destruct (Hrun c) as [Ec _].
  assert (w ∈ p2pItems (comms r) c 0 (pp_entries plan)) as Hin.
  { rewrite <- Ec. apply list_elem_of_In, in_concat. exists g. split; apply list_elem_of_In; [by eapply list_elem_of_lookup_2|done]. }
  destruct (p2pItems_elem _ _ _ _ _ Hin) as (en & Hen & _ & E1 & E2). exists en. split; [done|]. by rewrite <- E1, <- E2.
Qed.

Lemma plans_sorted r : r ∈ ranks -> StronglySorted earlier (concat (pp_entries <$> plans r)).
Proof. intros Hr. rewrite (rp_plans K r Hr). by apply planned_sorted. Qed.

Lemma kernels_order r n i c e t n' i' c' e' t' :
  r ∈ ranks -> placed kernels r n i c e t -> placed kernels r n' i' c' e' t' -> (n < n')%nat -> (e * nRounds + t < e' * nRounds + t')%nat.
Proof.
  intros Hr H H' Hn. destruct (placed_entry r n i c e t Hr H) as (plan & _ & _ & _ & Hp & _ & _ & _ & _ & _ & _ & en & Hen & He & Ht).
  destruct (placed_entry r n' i' c' e' t' Hr H') as (plan' & _ & _ & _ & Hp' & _ & _ & _ & _ & _ & _ & en' & Hen' & He' & Ht').
  assert (earlier en en') as Hlt.
  { eapply (concat_sorted earlier (pp_entries <$> plans r) _ _ n n'); [by apply plans_sorted| | |done|exact Hen|exact Hen'];
      rewrite list_lookup_fmap; [by rewrite Hp|by rewrite Hp']. }
  unfold earlier in Hlt. rewrite He, Ht, He', Ht' in Hlt. nia.
Qed.

Lemma groups_order r n i c e t i' e' t' :
  r ∈ ranks -> placed kernels r n i c e t -> placed kernels r n i' c e' t' -> (i < i')%nat -> (e * nRounds + t < e' * nRounds + t')%nat.
Proof.
  intros Hr H H' Hi. destruct (placed_entry r n i c e t Hr H) as (plan & gs & g & w & Hp & Hg & Hw & He & Ht & (k & Hk & Ek) & [Ec _] & _).
  destruct (placed_entry r n i' c e' t' Hr H') as (plan' & gs' & g' & w' & Hp' & Hg' & Hw' & He' & Ht' & (k' & Hk' & Ek') & _).
  rewrite Hk in Hk'. injection Hk' as <-. rewrite Ek in Ek'. subst gs'.
  assert (StronglySorted earlierItem (concat gs)) as Hs.
  { rewrite Ec. apply p2pItems_earlier. eapply (concat_sorted_in earlier (pp_entries <$> plans r)); [by apply plans_sorted|].
    rewrite list_lookup_fmap, Hp. done. }
  pose proof (concat_sorted earlierItem gs g g' i i' w w' Hs Hg Hg' Hi Hw Hw') as Hlt. unfold earlierItem in Hlt. rewrite He, Ht, He', Ht' in Hlt. nia.
Qed.

Lemma group_rounds r n i c e t e' : r ∈ ranks -> placed kernels r n i c e t -> placed kernels r n i c e' t -> e = e'.
Proof.
  intros Hr H H'. destruct (placed_entry r n i c e t Hr H) as (plan & gs & g & w & Hp & Hg & Hw & He & Ht & (k & Hk & Ek) & [_ HF] & _).
  destruct (placed_entry r n i c e' t Hr H') as (plan' & gs' & g' & w' & Hp' & Hg' & Hw' & He' & Ht' & (k' & Hk' & Ek') & _).
  rewrite Hk in Hk'. injection Hk' as <-. rewrite Ek in Ek'. subst gs'. rewrite Hg in Hg'. injection Hg' as <-.
  rewrite Forall_forall in HF. specialize (HF g (list_elem_of_lookup_2 _ _ _ Hg)).
  apply list_elem_of_lookup in Hw as [x Hx], Hw' as [y Hy]. assert (x = y) as ->.
  { eapply (NoDup_lookup _ _ _ (Z.of_nat t) HF); rewrite list_lookup_fmap; [by rewrite Hx; simpl; rewrite Ht|by rewrite Hy; simpl; rewrite Ht']. }
  rewrite Hx in Hy. injection Hy as <-. lia.
Qed.

Lemma part_bounds r c e t d : r ∈ ranks -> hasPart transferAt r c e t d = true -> (c < MAXCHANNELS)%nat /\ (e < epochs)%nat /\ (t < nRounds)%nat.
Proof.
  intros Hr Hh. destruct (hasPart_spec r c e t d Hr Hh) as (en & s & q & E & Hst & _ & Hc & _ & Hsome).
  pose proof (channels_bound _ (net_comm r Hr)). unfold MAXCHANNELS. split; [lia|]. split; [|by eapply transferAt_place].
  destruct (net_epochs r Hr s q (list_elem_of_lookup_2 _ _ _ Hst)). destruct d; destruct Hsome as [x Hx]; apply lookup_lt_Some in Hx; lia.
Qed.

(** Every part has its work. *)
Lemma part_placed r c e t d : r ∈ ranks -> hasPart transferAt r c e t d = true -> exists n i, placed kernels r n i c e t.
Proof.
  intros Hr Hh. destruct (part_bounds r c e t d Hr Hh) as (_ & He & Ht).
  destruct (hasPart_spec r c e t d Hr Hh) as (en & s & q & E & Hst & O & Hc & Hp & _).
  assert (en ∈ concat (pp_entries <$> plans r)) as Hin.
  { rewrite (rp_plans K r Hr). apply planned_elem; [done|]. by exists e, t. }
  apply list_elem_of_In, in_concat in Hin as (es & Hes%list_elem_of_In & Hen%list_elem_of_In). apply list_elem_of_fmap in Hes as (plan & -> & Hplan).
  apply list_elem_of_lookup in Hplan as [n Hn]. destruct (Forall2_lookup_l _ _ _ _ _ (rp_kernels K r Hr) Hn) as (k & Hk & Hrun).
  assert (usesChannel (comms r) en c = true) as Hu.
  { unfold usesChannel. apply andb_true_iff. split; apply Z.ltb_lt; [done|]. unfold en_nParts. destruct d; lia. }
  destruct (p2pItems_has (comms r) c 0 (pp_entries plan) en Hen Hu) as (w & Hw & E1 & E2). destruct (Hrun c) as [Ec _]. rewrite <- Ec in Hw.
  apply list_elem_of_In, in_concat in Hw as (g & Hg%list_elem_of_In & Hw%list_elem_of_In). apply list_elem_of_lookup in Hg as [i Hi].
  exists n, i, k, g, w. rewrite E1, E2, (eo_epoch _ _ _ _ _ _ O), (eo_round _ _ _ _ _ _ O). done.
Qed.

Lemma net_lawful : lawful ranks kernels transferAt nRounds epochs.
Proof.
  constructor.
  - intros *. apply kernels_order.
  - intros *. apply groups_order.
  - intros *. apply group_rounds.
  - intros *. apply part_placed.
  - intros *. apply part_bounds.
  - intros r c e t d Hr Hh. destruct (net_partner r c e t d Hr Hh) as (en & en' & H1 & H2 & H3 & H4 & H5 & _). by exists en, en'.
  - intros a b e t e' t' ea eb Ha Hb Ea Eb Es Er. destruct (transferAt_ok a e t ea Ha Ea) as (s & q & Hat & Oa).
    destruct (transferAt_ok b e' t' eb Hb Eb) as (x & a' & Hbt & Ob). rewrite (eo_send _ _ _ _ _ _ Oa) in Es. rewrite (eo_recv _ _ _ _ _ _ Ob) in Er. subst s a'.
    destruct (net_pair a t b q Ha Hat) as (_ & _ & [y Hy] & _).
    eapply NoDup_lookup; [apply (ck_recv _ (net_comm b Hb))| |]; rewrite list_lookup_fmap; [by rewrite Hy|by rewrite Hbt].
Qed.

End cluster.

(** The plans of a rank. *)
Definition launched (budget : ncclKernelPlanBudget) (epochs : nat) (comms : Z -> p2pComm) (conn : Z -> bool -> Z -> Z -> p2pConn)
    (regNet : Z -> p2pTask -> bool -> Z -> bool) (regIpc : Z -> p2pTask -> bool -> option Z) (planners : Z -> p2pPlanner) (r : Z) : list p2pPlan :=
  match launchP2p (comms r) (conn r) (regNet r) (regIpc r) (S (Z.to_nat (total (comms r) (planners r)))) epochs budget 0 0 (planners r) with
  | Some (inr plans) => plans
  | _ => []
  end.

Lemma launched_ok nodes param budget epochs comms conn regNet regIpc planners r :
  netOk nodes param budget epochs comms conn regNet regIpc planners -> r ∈ concat nodes ->
  launchP2p (comms r) (conn r) (regNet r) (regIpc r) (S (Z.to_nat (total (comms r) (planners r)))) epochs budget 0 0 (planners r) =
    Some (inr (launched budget epochs comms conn regNet regIpc planners r)) /\
  concat (pp_entries <$> launched budget epochs comms conn regNet regIpc planners r) =
    transfers (comms r) (conn r) (regNet r) (regIpc r) (pl_send (planners r)) (pl_recv (planners r)) (leastChannels (comms r)) epochs 0.
Proof.
  intros N Hr.
  destruct (launchP2p_ok (comms r) (conn r) (regNet r) (regIpc r) (pl_send (planners r)) (pl_recv (planners r)) budget epochs epochs
    (net_comm _ _ _ _ _ _ _ _ _ N r Hr) (net_queues _ _ _ _ _ _ _ _ _ N r Hr) (no_budget _ _ _ _ _ _ _ _ _ N) (no_room _ _ _ _ _ _ _ _ _ N r Hr)
    (net_epochs _ _ _ _ _ _ _ _ _ N r Hr) (le_n _) (S (Z.to_nat (total (comms r) (planners r)))) 0 0 (planners r)) as (ps & Hrun & _ & Htr).
  - lia.
  - lia.
  - apply queuesAt_start; [done|done|]. by apply (no_count _ _ _ _ _ _ _ _ _ N).
  - unfold launched. change (Z.of_nat 0) with 0 in Hrun. rewrite Hrun. by split.
Qed.

(** C10: The sends and receives of a cluster always finish, and no two messages are
    mixed up.  Let every rank compute its schedule, let the ranks agree on the
    parameters and post a receive for every send, of the same size.  Each rank
    plans by itself; the loop of [ncclLaunchPrepare] ends with plans on every rank,
    whatever its queues are and wherever its budget cuts the plans.  Whatever order
    the kernels then run in, with the works of a group at the same time and
    everything else one after the other, an exchange between a sender and a
    receiver whose works name each other is always between the two sides of one
    message, which agree on the bytes, the parts, the protocol and the chunk size;
    as long as not everything is done some exchange is possible; and there can be no
    more exchanges than parts. *)
Theorem p2p_no_deadlock nodes param budget epochs comms conn regNet regIpc planners :
  netOk nodes param budget epochs comms conn regNet regIpc planners ->
  let entry := transferAt comms conn regNet regIpc planners in
  exists plans,
    (forall r, r ∈ concat nodes -> launchP2p (comms r) (conn r) (regNet r) (regIpc r) (S (Z.to_nat (total (comms r) (planners r)))) epochs budget 0 0
       (planners r) = Some (inr (plans r))) /\
    forall kernels, (forall r, r ∈ concat nodes -> Forall2 (fun plan k => forall c, runGroups (comms r) plan c (k c)) (plans r) (kernels r)) ->
    forall n D, nsteps (exchange (concat nodes) kernels entry) n [] D ->
      (n <= length (concat nodes) * MAXCHANNELS * epochs * length (concat nodes))%nat /\
      ((exists D', exchange (concat nodes) kernels entry D D') \/ finished (concat nodes) entry D) /\
      forall D', exchange (concat nodes) kernels entry D D' ->
        exists a b c e t ea eb, D' = (a, c, e, t, true) :: (b, c, e, t, false) :: D /\ entry a e t = Some ea /\ entry b e t = Some eb /\
          sendRank (en_work ea) = b /\ recvRank (en_work eb) = a /\ sides ea eb.
Proof.
  intros N entry. exists (launched budget epochs comms conn regNet regIpc planners).
  pose proof (fun r => launched_ok nodes param budget epochs comms conn regNet regIpc planners r N) as Hplans. split; [intros r Hr; by apply Hplans|].
  intros kernels HK n D Hn.
  assert (lawful (concat nodes) kernels entry (length (concat nodes)) epochs) as L.
  { eapply net_lawful; [exact N|]. split; [intros r Hr; by apply Hplans|exact HK]. }
  destruct (exchange_runs _ _ _ _ _ L n D Hn) as (HD & _ & Hle). split; [done|]. split; [by eapply exchange_progress|].
  intros D' [a b c e t e' t' ea eb Ha Hb Ra Rb Ea Eb Es Er].
  destruct (exchange_same _ _ _ _ _ L D a b c e t e' t' ea eb HD Ha Hb Ra Rb Ea Eb Es Er) as [<- <-].
  exists a, b, c, e, t, ea, eb. split_and!; try done. destruct Ra as (_ & Hh & _).
  destruct (net_partner nodes param budget epochs comms conn regNet regIpc planners N a c e t true Ha Hh) as (ea' & eb' & E1 & _ & E2 & _ & _ & S).
  fold entry in E1, E2. rewrite Ea in E1. injection E1 as <-. cbn [peerAt] in E2. rewrite Es, Eb in E2. by injection E2 as <-.
Qed.

(** ** An example *)

(** Two ranks of one node: two messages from the first to the second, one back, and
    one from the first to itself in place.  The budget has room for one transfer. *)
Definition exampleNet : list (list Z) := [[0; 1]].

Definition exampleComms (r : Z) : p2pComm := {|
  pm_rank := r; pm_nRanks := 2; pm_nNodes := 1; pm_p2pnChannels := 4; pm_p2pnChannelsPerPeer := 2; pm_p2pSchedGroupSize := 2;
  pm_p2pChunkSize := 131072; pm_buffSizeLL := 131072; pm_minNetCount := 1; pm_minLocalNetBw := 0; pm_pxnUsed := false;
  pm_schedule := [(r, r); (1 - r, 1 - r)]; pm_cudaArch := 900; pm_epochEnable := true; pm_devFuncId := 0;
  pm_paramChunkSize := 0; pm_paramLLThreshold := 16384; pm_paramRegNetBw := 0 |}.

Definition exampleMessages (a b : Z) : list p2pTask :=
  if a =? 0 then if b =? 1 then [exampleP2pTask 4096 1000000; exampleP2pTask 8192 16] else [exampleP2pTask (64 * b) 128]
  else if b =? 0 then [exampleP2pTask 512 0] else [].

Definition examplePlanners (r : Z) : p2pPlanner := {|
  pl_send := exampleMessages r; pl_recv := fun q => exampleMessages q r;
  pl_nTasksP2p := if r =? 0 then 5 else 3; pl_nTasksP2pSend := if r =? 0 then 3 else 1; pl_nTasksP2pRecv := 2 |}.

Definition exampleNetBudget : ncclKernelPlanBudget := {| inArgsBytes := 50; outArgsBytes := 60 |}.

Definition exampleEntry : Z -> nat -> nat -> option p2pEntry :=
  transferAt exampleComms (fun _ _ _ _ => exampleP2pConn) (fun _ _ _ _ => false) (fun _ _ _ => None) examplePlanners.

Lemma p2pDir_noUB c conn regNet regIpc dir self task peer nMin nMax base d :
  match task with Some t => tp_allowUB t = false | None => True end ->
  p2pDir c conn regNet regIpc dir self task peer nMin nMax base = Some d -> di_netReg d = false.
Proof.
  intros Ht. unfold p2pDir. destruct (p2pChannels c nMin nMax _) as [n|]; [|done]. cbn [mbind option_bind]. destruct (p2pChunk c _ _ _) as [c8 cs].
  destruct (p2pRegister _ _ _ _ _ _ _ _ _ _ _ _ _) as [[r x] y] eqn:E. intros [= <-]. cbn. unfold p2pRegister in E.
  destruct task as [t|]; [rewrite Ht in E|]; by injection E.
Qed.

Lemma exampleEntry_unregistered r e t en d : exampleEntry r e t = Some en -> di_netReg (en_dirs en d) = false.
Proof.
  intros (s & q & _ & E)%transferAt_entry. unfold p2pEntryOf in E.
  assert (forall a b, match exampleMessages a b !! e with Some t => tp_allowUB t = false | None => True end) as HU.
  { intros a b. destruct (exampleMessages a b !! e) as [x|] eqn:Ex; [|done]. apply list_elem_of_lookup_2 in Ex. revert Ex. unfold exampleMessages.
    repeat case_match; rewrite ?elem_of_cons, ?elem_of_nil; naive_solver. }
  destruct (p2pDir _ _ _ _ false _ _ _ _ _ _) as [dr|] eqn:Er; [|done]. destruct (p2pDir _ _ _ _ true _ _ _ _ _ _) as [ds|] eqn:Es; [|done].
  injection E as <-. cbn [en_dirs]. destruct d; [eapply p2pDir_noUB, Es|eapply p2pDir_noUB, Er]; apply HU.
Qed.

Lemma exampleNet_ok :
  netOk exampleNet 8 exampleNetBudget 2 exampleComms (fun _ _ _ _ => exampleP2pConn) (fun _ _ _ _ => false) (fun _ _ _ => None) examplePlanners.
Proof.
  assert (forall r, r ∈ concat exampleNet -> r = 0 \/ r = 1) as Hr by (intros r; simpl; rewrite !elem_of_cons, elem_of_nil; tauto).
  constructor; try done.
  - constructor; cbn; [done|repeat constructor; done| |done]. repeat constructor; set_solver.
  - intros i j n r. destruct i as [|[|i]]; [|done|done]. intros [= <-]. destruct j as [|[|[|j]]]; intros [= <-]; vm_compute; reflexivity.
  - intros r _. by exists 2.
  - intros a b [-> | ->]%Hr [-> | ->]%Hr; cbn; repeat constructor; done.
  - intros a b [-> | ->]%Hr [-> | ->]%Hr; cbn; lia.
  - intros r [-> | ->]%Hr; reflexivity.
  - intros a b e t ea eb _ _ _ Ea Eb _ _. by rewrite (exampleEntry_unregistered _ _ _ _ true Ea), (exampleEntry_unregistered _ _ _ _ false Eb).
Qed.

Definition planCount (res : option (ncclResult_t + list p2pPlan)) : nat := match res with Some (inr plans) => length plans | _ => 0 end.

Lemma p2p_no_deadlock_witness :
  exists plans : Z -> list p2pPlan, length (plans 0) = 2%nat /\ length (plans 1) = 2%nat /\
    exists kernels D, exchange (concat exampleNet) kernels exampleEntry [] D.
Proof.
  destruct (p2p_no_deadlock exampleNet 8 exampleNetBudget 2 exampleComms (fun _ _ _ _ => exampleP2pConn) (fun _ _ _ _ => false) (fun _ _ _ => None)
    examplePlanners exampleNet_ok) as (plans & Hplans & H). exists plans.
  split; [|split].
  - pose proof (Hplans 0 ltac:(by left)) as E. apply (f_equal planCount) in E. etrans; [symmetry; exact E|]. vm_compute. reflexivity.
  - pose proof (Hplans 1 ltac:(by right; left)) as E. apply (f_equal planCount) in E. etrans; [symmetry; exact E|]. vm_compute. reflexivity.
  - exists (fun r => (fun plan c => (fun w => [w]) <$> p2pItems (exampleComms r) c 0 (pp_entries plan)) <$> plans r).
    destruct (H (fun r => (fun plan c => (fun w => [w]) <$> p2pItems (exampleComms r) c 0 (pp_entries plan)) <$> plans r)) with (n := 0%nat) (D := @nil half)
      as (_ & [[D' HD']|Hfin] & _).
    + intros r _. apply Forall2_fmap_r. induction (plans r) as [|plan ps IH]; constructor; [|done]. intros c. split.
      * induction (p2pItems _ _ _ _) as [|w l IHl]; [done|]. simpl. by f_equal.
      * apply Forall_fmap, Forall_true. intros w. simpl. apply NoDup_singleton.
    + constructor.
    + by exists D'.
    + exfalso. specialize (Hfin 0 2%nat 0%nat 1%nat true ltac:(by left) ltac:(vm_compute; reflexivity)). by apply not_elem_of_nil in Hfin.
Defined.
