(* ===== verification/SendRecv.v ===== *)
(** * The device side of send and receive (src/src/device/sendrecv.h)

    A batch of point-to-point works runs in one call: the works share the threads
    of the block.  One warp cuts each work down to the part of this channel; then
    the warps are divided among the works and their directions, each with its own
    barriers, and each direction moves its part chunk by chunk. *)

From stdpp Require Import base numbers list.
From Stdlib Require Import ZArith Lia.
From S2P Require Import Prelude Bitops Bits Batches KernelMain DevWork Sched P2pPlan.

Local Open Scope Z_scope.

(** ** The parts *)

(** What a lane of the first warp finds for one direction of a work: whether this
    channel has a part, and the address and the bytes of the part. *)
(* src/src/device/sendrecv.h:74-86 run *)
Definition lanePart (channelId : Z) (isSend : bool) (work : ncclDevWorkP2p) : bool * (Z * Z) :=
  let addr := if isSend then sendAddr work else recvAddr work in
  let bytes := if isSend then sendBytes work else recvBytes work in
  let nParts := if isSend then nSendChannels work else nRecvChannels work in
  let part := ncclP2pChannelToPart (nP2pChannels work) (channelBase work) channelId in
  let hasWork := part <? nParts in
  if negb (nParts =? 0) then
    let '(partBeg, partEnd) := ncclP2pPartBounds nParts part bytes in
    (hasWork, (addr + partBeg, partEnd - partBeg))
  else (hasWork, (addr, bytes)).

(** The votes of the 32 lanes of a warp. *)
Definition ballot (vote : nat -> bool) : Z :=
  fold_right (fun lane mask => if vote lane then Z.lor (2 ^ Z.of_nat lane) mask else mask) 0 (seq 0 32).

(** The masks of the works that receive and that send. *)
(* src/src/device/sendrecv.h:68-95 run *)
Definition workMasks (channelId : Z) (works : list ncclDevWorkP2p) : Z * Z :=
  let mask := ballot (fun lane =>
    let workIx := (lane mod 16)%nat in
    let isSend := negb (lane <? 16)%nat in
    match works !! workIx with
    | Some work => (lanePart channelId isSend work).1
    | None => false
    end) in
  (Z.land mask 65535, Z.shiftr mask 16).

(** ** The threads *)

Definition WARP_SIZE : Z := 32.
Definition NCCL_SIMPLE_EXTRA_GROUP_IF_NTHREADS_GE : Z := 3 * WARP_SIZE.
Definition NCCL_MAX_GROUPS : Z := 16.

(** The division of numbers in [0,32) by a vote. *)
(* src/src/device/sendrecv.h:97-103 run *)
Definition divByVote (x y : Z) : Z := countOneBits u32 (ballot (fun lane => y * (Z.of_nat lane + 1) <=? x)).

(** The warps for a receive and for a send of a work. *)
(* src/src/device/sendrecv.h:105-112 run *)
Definition warpSplit (nWarps nWorks : Z) : Z * Z :=
  let nWarpPerWork := divByVote nWarps nWorks in
  let nRecvWarpPerWork := if nWarpPerWork <=? 4 then Z.quot nWarpPerWork 2 else Z.quot (nWarpPerWork - 1) 2 in
  let nSendWarpPerWork := if nWarpPerWork <=? 4 then nRecvWarpPerWork else nRecvWarpPerWork + 1 in
  (nRecvWarpPerWork, nSendWarpPerWork).

(** What a thread does: a copy, a send or a receive of a work, as thread [ta_subtid]
    of [ta_subtn], with the barriers of [ta_group]. *)
Inductive taskKind := TCopy | TSend | TRecv.

Record threadTask := {
  ta_workIx : Z;
  ta_kind : taskKind;
  ta_subtid : Z;
  ta_subtn : Z;
  ta_group : Z }.

(** The group ids used by the works below [workIx]. *)
(* src/src/device/sendrecv.h:129-141 run *)
Definition groupBase (recvMask sendMask nSendWarpPerWork nWarpPerWork workIx : Z) : Z :=
  let nSendWarpsForExtraGroup := Z.quot NCCL_SIMPLE_EXTRA_GROUP_IF_NTHREADS_GE WARP_SIZE in
  let below := cwrap i32 (Z.shiftl 1 workIx) - 1 in
  let group := countOneBits u32 (Z.land recvMask below) in
  let extra := if nSendWarpsForExtraGroup <=? nSendWarpPerWork then 1 else 0 in
  let group := group + countOneBits u32 (Z.land (Z.land sendMask recvMask) below) * (1 + extra) in
  let extra := if nSendWarpsForExtraGroup <=? nWarpPerWork then 1 else 0 in
  group + countOneBits u32 (Z.land (Z.land sendMask (cwrap u32 (Z.lnot recvMask))) below) * (1 + extra).

(** The task of thread [tid]; [isCopy] is the test for a send to oneself.  [None] is
    a thread without a work. *)
(* src/src/device/sendrecv.h:105-178 run *)
Definition taskOf (tn nWorks recvMask sendMask : Z) (isCopy : Z -> bool) (tid : Z) : option threadTask :=
  let wid := Z.quot tid WARP_SIZE in
  let nWarps := Z.quot tn WARP_SIZE in
  let '(nRecvWarpPerWork, nSendWarpPerWork) := warpSplit nWarps nWorks in
  let nWarpPerWork := nSendWarpPerWork + nRecvWarpPerWork in
  let workIx := countOneBits u32 (ballot (fun lane => (Z.of_nat lane + 1) * nWarpPerWork <=? wid)) in
  if nWorks <=? workIx then None
  else
    let subtid := tid - workIx * nWarpPerWork * WARP_SIZE in
    let subtn := nWarpPerWork * WARP_SIZE in
    let nSendWarpsForExtraGroup := Z.quot NCCL_SIMPLE_EXTRA_GROUP_IF_NTHREADS_GE WARP_SIZE in
    let group := groupBase recvMask sendMask nSendWarpPerWork nWarpPerWork workIx in
    let hasSend := Z.land 1 (Z.shiftr sendMask workIx) =? 1 in
    let hasRecv := Z.land 1 (Z.shiftr recvMask workIx) =? 1 in
    let isSend := negb hasRecv || (hasSend && (subtid <? nSendWarpPerWork * WARP_SIZE)) in
    let '(subtid, subtn, group) :=
      if negb (isCopy workIx) && hasSend && hasRecv then
        if isSend then (subtid, nSendWarpPerWork * WARP_SIZE, group)
        else (subtid - nSendWarpPerWork * WARP_SIZE, nRecvWarpPerWork * WARP_SIZE,
              group + (1 + if nSendWarpsForExtraGroup <=? nSendWarpPerWork then 1 else 0))
      else (subtid, subtn, group) in
    Some {| ta_workIx := workIx; ta_kind := if isCopy workIx then TCopy else if isSend then TSend else TRecv;
            ta_subtid := subtid; ta_subtn := subtn; ta_group := group |}.

(** The group ids of a task: a send of sufficient size has two. *)
(* src/src/device/prims_simple.h:56-62 subBarrier *)
Definition taskGroups (t : threadTask) : list Z :=
  match ta_kind t with
  | TCopy => []
  | TSend => if NCCL_SIMPLE_EXTRA_GROUP_IF_NTHREADS_GE <=? ta_subtn t then [ta_group t; ta_group t + 1] else [ta_group t]
  | TRecv => [ta_group t]
  end.

(** ** The chunks *)

(** The loop of [runSend] and [runRecv]: the offsets and sizes of the steps; [None] if
    the fuel is used up. *)
(* src/src/device/sendrecv.h:28-33 runSend *)
Fixpoint chunkLoop (fuel : nat) (chunkSize bytes cursor : Z) : option (list (Z * Z)) :=
  match fuel with
  | O => None
  | S fuel =>
      let n := cwrap i32 (Z.min chunkSize (wrap64 (bytes - cursor))) in
      let next := wrap64 (cursor + n) in
      if next <? bytes then rest ← chunkLoop fuel chunkSize bytes next; Some ((cursor, n) :: rest)
      else Some [(cursor, n)]
  end.

(** The chunk size of one direction. *)
(* src/src/device/sendrecv.h:17-21 runSend *)
Definition runChunk (isAllNvlink isSend : bool) (work : ncclDevWorkP2p) : Z :=
  let useLargeChunk := (if isSend then sendIpcReg work else recvIpcReg work) && isAllNvlink || (if isSend then sendNetReg work else recvNetReg work) in
  if useLargeChunk then NCCL_MAX_NET_SIZE else u32fp8Decode (if isSend then sendChunkSize_u32fp8 work else recvChunkSize_u32fp8 work).

(** The steps of a part on a channel, with fuel for all of them. *)
(* src/src/device/sendrecv.h:16-50 runSend *)
Definition runSteps (isAllNvlink : bool) (channelId : Z) (isSend : bool) (work : ncclDevWorkP2p) : option (list (Z * Z)) :=
  let '(_, (_, bytes)) := lanePart channelId isSend work in
  let chunkSize := runChunk isAllNvlink isSend work in
  chunkLoop (S (Z.to_nat (Z.quot bytes chunkSize))) chunkSize bytes 0.

(** ** The steps of a part *)

(** The steps cover the bytes from [lo] to [hi] in order, without gaps. *)
Fixpoint tiles (chunkSize lo hi : Z) (l : list (Z * Z)) : Prop :=
  match l with
  | [] => lo = hi
  | (o, n) :: l => o = lo /\ 0 <= n <= chunkSize /\ tiles chunkSize (lo + n) hi l
  end.

Lemma chunkLoop_ok chunkSize bytes : 0 < chunkSize < 2 ^ 31 -> 0 <= bytes < 2 ^ 63 -> forall fuel cursor,
  0 <= cursor <= bytes -> (bytes - cursor) / chunkSize < Z.of_nat fuel ->
  exists l, chunkLoop fuel chunkSize bytes cursor = Some l /\ tiles chunkSize cursor bytes l /\
    Z.of_nat (length l) = Z.max 1 ((bytes - cursor + chunkSize - 1) / chunkSize).
Proof.
  intros Hc Hb. induction fuel as [|fuel IH]; intros cursor Hcur Hf.
  { pose proof (Z.div_pos (bytes - cursor) chunkSize). lia. }
  cbn [chunkLoop]. rewrite (wrap64_small (bytes - cursor)) by lia. rewrite cwrap_fits by (done || fits_lia).
  rewrite wrap64_small by lia. destruct (Z.ltb_spec (cursor + Z.min chunkSize (bytes - cursor)) bytes) as [Hlt|Hge].
  - rewrite Z.min_l in * by lia. assert ((bytes - (cursor + chunkSize)) / chunkSize = (bytes - cursor) / chunkSize - 1) as E.
    { replace (bytes - (cursor + chunkSize)) with (bytes - cursor + (-1) * chunkSize) by lia. rewrite Z.div_add by lia. lia. }
    destruct (IH (cursor + chunkSize)) as (l & -> & Ht & Hl); [lia|lia|]. cbn [mbind option_bind]. eexists. split; [reflexivity|].
    split; [split; [done|split; [lia|done]]|]. cbn [length]. rewrite Nat2Z.inj_succ, Hl.
    replace (bytes - cursor + chunkSize - 1) with (bytes - (cursor + chunkSize) + chunkSize - 1 + 1 * chunkSize) by lia. rewrite Z.div_add by lia.
    pose proof (Z.div_le_lower_bound (bytes - (cursor + chunkSize) + chunkSize - 1) chunkSize 1). lia.
  - rewrite Z.min_r by lia. eexists. split; [reflexivity|]. split; [split; [done|split; [lia|simpl; lia]]|]. cbn [length].
    assert ((bytes - cursor + chunkSize - 1) / chunkSize < 2) by (apply Z.div_lt_upper_bound; lia). lia.
Qed.

(** The parts of a message are not empty if they are large enough for their number. *)
Lemma part_nonempty nParts part bytes : 0 < nParts -> 0 <= part < nParts -> 0 <= bytes < 2 ^ 63 -> nParts < 2 ^ 8 -> (nParts - 1) * 4096 * nParts < bytes ->
  (ncclP2pPartBounds nParts part bytes).1 < (ncclP2pPartBounds nParts part bytes).2.
Proof.
  intros Hn Hp Hb H8 Hbig. unfold ncclP2pPartBounds.
  destruct (partBytes_eq nParts bytes Hn ltac:(lia) ltac:(lia)) as (q & -> & Hq & Hl). cbn [fst snd].
  assert (nParts * (q * 4096) < 2 ^ 64) by lia.
  rewrite !wrap64_small by nia. assert ((nParts - 1) * (q * 4096) < bytes) by nia. nia.
Qed.

(** Parts of at least this size are not split further. *)
Definition minPart (comm : p2pComm) : Z := if 1 <? pm_nNodes comm then Z.quot (pm_p2pChunkSize comm) 2 else Z.quot (pm_p2pChunkSize comm) 8.

(** A number of channels for which every part has data. *)
Definition fewParts (bytes n : Z) : Prop := (n - 1) * 4096 * n < bytes.

Lemma fewParts_le bytes n n' : 1 <= n' <= n -> fewParts bytes n -> fewParts bytes n'.
Proof. unfold fewParts. nia. Qed.

Lemma moreChannels_few bytes maxPart minP nMax : 0 < bytes < 2 ^ 62 -> 2 * minP <= maxPart -> nMax * 4096 <= minP -> minP < 2 ^ 30 -> nMax <= 64 -> forall fuel n partSize n',
  1 <= n <= nMax -> fewParts bytes n -> (maxPart < partSize -> n * maxPart < bytes) ->
  moreChannels fuel bytes maxPart nMax n partSize = Some n' -> fewParts bytes n'.
Proof.
  intros Hb Hmax Hn Hm H64. induction fuel as [|fuel IH]; intros n partSize n' H1 Hfew Hpart; cbn [moreChannels].
  - destruct (_ && _); [done|]. by intros [= <-].
  - destruct (Z.ltb_spec maxPart partSize) as [Hlt|]; cbn [andb]; [|by intros [= <-]].
    rewrite Z.quot_div_nonneg by lia. destruct (Z.leb_spec n (nMax / 2)) as [Hle|]; [|by intros [= <-]].
    assert (2 * n <= nMax) by (pose proof (Z.mul_div_le nMax 2); lia). specialize (Hpart Hlt). apply IH; [lia| |].
    + unfold fewParts. assert ((n * 2 - 1) * 4096 * (n * 2) <= minP * (n * 2)) by nia. nia.
    + rewrite divUp_eq by (done || lia || fits_lia). intros Hp. assert (maxPart < (bytes + n * 2 - 1) / (n * 2)) as Hd by lia.
      pose proof (Z.mul_div_le (bytes + n * 2 - 1) (n * 2) ltac:(lia)). nia.
Qed.

Lemma p2pChannels_few comm nMin nMax bytes n :
  p2pCommOk comm -> 1 <= nMin <= nMax -> nMax <= 64 -> nMax * 4096 <= minPart comm -> 0 < bytes -> bytes <= (2 ^ 31 - 1) * Z.quot (pm_p2pChunkSize comm) 8 ->
  p2pChannels comm nMin nMax bytes = Some n -> fewParts bytes n.
Proof.
  intros C Hn H64 Hmin Hb Hbig. pose proof (ck_chunk _ C) as Hc. unfold p2pChannels. rewrite (proj2 (Z.eqb_neq bytes (-1))), (proj2 (Z.eqb_neq bytes 0)) by lia.
  fold (minPart comm). set (maxPart := if 1 <? pm_nNodes comm then _ else _).
  assert (Z.quot (pm_p2pChunkSize comm) 8 <= minPart comm /\ 2 * minPart comm <= maxPart /\ minPart comm < 2 ^ 25 /\ Z.quot (pm_p2pChunkSize comm) 8 < 2 ^ 22) as (H8 & H2 & H25 & H22).
  { unfold minPart, maxPart. rewrite !Z.quot_div_nonneg by lia. pose proof (Z.mul_div_le (pm_p2pChunkSize comm) 8). pose proof (Z.mul_div_le (pm_p2pChunkSize comm) 2).
    pose proof (Z.mul_succ_div_gt (pm_p2pChunkSize comm) 2). destruct (1 <? pm_nNodes comm); lia. }
  assert (bytes < 2 ^ 53) as H53 by nia.
  rewrite divUp_eq by (done || lia || fits_lia). set (k := (bytes + minPart comm - 1) / minPart comm).
  assert (1 <= k <= 2 ^ 31 - 1) as Hk.
  { split; [apply Z.div_le_lower_bound; lia|]. apply Z.lt_succ_r, Z.div_lt_upper_bound; nia. }
  rewrite cwrap_fits by (done || fits_lia). apply (moreChannels_few bytes maxPart (minPart comm)); try lia.
  - unfold fewParts. assert ((k - 1) * minPart comm < bytes) by (pose proof (Z.mul_div_le (bytes + minPart comm - 1) (minPart comm)); lia).
    set (m := Z.min nMin k). assert (1 <= m <= k /\ m <= nMax) as [? ?] by lia. pose proof (Z.mul_le_mono_nonneg (m - 1) (k - 1) (4096 * m) (minPart comm)). lia.
  - intros H. assert (minPart comm <= maxPart) by lia. set (m := Z.min nMin k) in *. assert (1 <= m) by lia.
    rewrite divUp_eq in H by (done || lia || fits_lia). assert (maxPart < (bytes + m - 1) / m) as Hd by lia.
    pose proof (Z.mul_div_le (bytes + m - 1) m ltac:(lia)). nia.
Qed.

(** Parameters that give chunks of some size. *)
Definition chunkParams (comm : p2pComm) : Prop :=
  64 <= pm_buffSizeLL comm < 2 ^ 31 /\ (pm_paramChunkSize comm = 0 \/ 2 <= pm_paramChunkSize comm < 2 ^ 31).

Lemma p2pChunk_pos comm ll net bytes : p2pCommOk comm -> chunkParams comm -> 0 < u32fp8Decode (p2pChunk comm ll net bytes).1 < 2 ^ 31.
Proof.
  intros C [Hll Hparam]. pose proof (ck_chunk _ C) as Hc. unfold p2pChunk. cbv zeta. cbn [fst]. rewrite (Z.quot_div_nonneg (pm_buffSizeLL comm)) by (unfold NCCL_STEPS; lia).
  match goal with |- context [u32fp8Encode (wrap32 ?x)] => set (size := x) end.
  assert (0 < size < 2 ^ 31) as Hs.
  { assert (8 <= pm_buffSizeLL comm / NCCL_STEPS < 2 ^ 31) as [Ha Ha'] by (unfold NCCL_STEPS; split; [apply Z.div_le_lower_bound; lia|apply Z.div_lt_upper_bound; lia]).
    set (stepLL := pm_buffSizeLL comm / NCCL_STEPS) in *. clearbody stepLL. set (step := if ll then stepLL else pm_p2pChunkSize comm) in size. assert (8 <= step < 2 ^ 31) as Hstep by (unfold step; destruct ll; lia).
    set (chunk := if negb (pm_paramChunkSize comm =? 0) then _ else _) in size. assert (2 <= chunk < 2 ^ 31) as Hch.
    { unfold chunk. destruct (Z.eqb_spec (pm_paramChunkSize comm) 0); cbn [negb]; [|rewrite cwrap_fits by (done || fits_lia); lia].
      rewrite !Z.quot_div_nonneg by lia.
      assert (2 <= step / 4 <= step) by (split; [apply Z.div_le_lower_bound; lia|apply Z.div_le_upper_bound; lia]).
      assert (4 <= step / 2 <= step) by (split; [apply Z.div_le_lower_bound; lia|apply Z.div_le_upper_bound; lia]). repeat case_match; lia. }
    unfold size. destruct ll; [|lia]. rewrite Z.quot_div_nonneg by lia. split; [apply Z.div_str_pos; lia|apply Z.div_lt_upper_bound; lia]. }
  rewrite wrap32_small by lia. destruct (proj1 u32fp8_roundtrip size ltac:(lia)) as (H1 & H2 & _). cbv zeta in H1, H2. lia.
Qed.

(** The fields of the work of one direction. *)
Lemma p2pEntryOf_dirs comm conn regNet regIpc nMin nMax epoch round s q send recv en (d : bool) :
  p2pEntryOf comm conn regNet regIpc nMin nMax epoch round s q send recv = Some en ->
  let base := ncclP2pChannelBaseForRound (pm_nNodes comm) (pm_p2pSchedGroupSize comm) (pm_p2pnChannels comm) round in
  let dir := en_dirs en d in
  p2pDir comm conn regNet regIpc d (s =? pm_rank comm) (if d then send else recv) (if d then s else q) nMin nMax base = Some dir /\
  channelBase (en_work en) = base /\ nP2pChannels (en_work en) = pm_p2pnChannels comm mod 2 ^ 8 /\
  (if d then nSendChannels (en_work en) else nRecvChannels (en_work en)) = di_nChannels dir mod 2 ^ 8 /\
  (if d then sendChunkSize_u32fp8 (en_work en) else recvChunkSize_u32fp8 (en_work en)) = di_chunk8 dir /\
  (if d then sendNetReg (en_work en) else recvNetReg (en_work en)) = di_netReg dir /\
  (if d then sendIpcReg (en_work en) else recvIpcReg (en_work en)) = di_ipcReg dir /\
  (if d then sendAddr (en_work en) else recvAddr (en_work en)) = di_addr dir /\
  (if d then sendBytes (en_work en) else recvBytes (en_work en)) = match (if d then send else recv) with Some t => tp_bytes t | None => 0 end.
Proof.
  unfold p2pEntryOf. destruct (p2pDir _ _ _ _ false _ _ _ _ _ _) as [dr|] eqn:Er; [|done]. cbn [mbind option_bind].
  destruct (p2pDir _ _ _ _ true _ _ _ _ _ _) as [ds|] eqn:Es; [|done]. cbn [mbind option_bind]. intros [= <-]. cbv zeta. by destruct d.
Qed.

Lemma p2pDir_parts comm conn regNet regIpc dir self t peer nMin base d :
  p2pCommOk comm -> chunkParams comm -> 1 <= nMin <= pm_p2pnChannelsPerPeer comm -> pm_p2pnChannelsPerPeer comm * 4096 <= minPart comm -> taskFits comm t ->
  p2pDir comm conn regNet regIpc dir self (Some t) peer nMin (pm_p2pnChannelsPerPeer comm) base = Some d ->
  1 <= di_nChannels d <= pm_p2pnChannelsPerPeer comm /\ 0 < u32fp8Decode (di_chunk8 d) < 2 ^ 31 /\ (tp_bytes t = 0 \/ fewParts (tp_bytes t) (di_nChannels d)).
Proof.
  intros C P Hn Hmin [Ht0 Ht] H. pose proof (channels_bound _ C). pose proof (ck_perPeer _ C).
  destruct (p2pDir_ok comm conn regNet regIpc dir self (Some t) peer nMin (pm_p2pnChannelsPerPeer comm) base C Hn ltac:(lia) (conj Ht0 Ht)) as (d' & E & Hd).
  rewrite H in E. injection E as <-. split; [done|]. unfold p2pDir in H.
  destruct (p2pChannels comm nMin (pm_p2pnChannelsPerPeer comm) (tp_bytes t)) as [n|] eqn:En; [|done]. cbn [mbind option_bind] in H.
  match type of H with context [p2pChunk comm ?ll ?net ?b] => pose proof (p2pChunk_pos comm ll net b C P) as Hpos; destruct (p2pChunk comm ll net b) as [c8 cs] end.
  destruct (p2pRegister _ _ _ _ _ _ _ _ _ _ _ _ _) as [[r x] y]. injection H as <-. cbn [di_chunk8 di_nChannels] in *. split; [done|].
  destruct (Z.eq_dec (tp_bytes t) 0) as [|Hne]; [by left|right]. eapply fewParts_le; [|eapply p2pChannels_few; [exact C|exact Hn|lia|exact Hmin|lia|exact Ht|exact En]].
  destruct r; lia.
Qed.

(** The steps of the kernel and of the proxy for one part. *)
Lemma part_steps nvl work (d : bool) c p :
  let n := if d then nSendChannels work else nRecvChannels work in
  let bytes := if d then sendBytes work else recvBytes work in
  let chunk := u32fp8Decode (if d then sendChunkSize_u32fp8 work else recvChunkSize_u32fp8 work) in
  let '(beg, fin) := ncclP2pPartBounds n p bytes in
  ncclP2pChannelToPart (nP2pChannels work) (channelBase work) c = p -> 0 <= p < n -> 0 <= beg <= fin -> fin <= bytes < 2 ^ 60 -> (bytes = 0 \/ beg < fin) ->
  0 < chunk < 2 ^ 31 -> bytes <= (2 ^ 31 - 1) * chunk -> (nvl = true -> (if d then sendIpcReg work else recvIpcReg work) = false) ->
  lanePart c d work = (true, ((if d then sendAddr work else recvAddr work) + beg, fin - beg)) /\
  exists l, runSteps nvl c d work = Some l /\ tiles (runChunk nvl d work) 0 (fin - beg) l /\ (partSteps work d p).1 = Z.of_nat (length l).
Proof.
  cbv zeta. destruct (ncclP2pPartBounds _ _ _) as [beg fin] eqn:Eb. intros Hp Hpn Hbeg Hfin Hne Hc Hfit Hnvl.
  assert (lanePart c d work = (true, ((if d then sendAddr work else recvAddr work) + beg, fin - beg))) as HL.
  { unfold lanePart. rewrite Hp, Eb, (proj2 (Z.ltb_lt _ _)), (proj2 (Z.eqb_neq _ _)) by lia. done. }
  split; [done|]. unfold runSteps. rewrite HL. unfold runChunk, partSteps. rewrite Eb, (proj2 (Z.leb_gt _ _)) by lia.
  set (chunk := u32fp8Decode _) in *. set (net := if d then sendNetReg work else recvNetReg work). set (ipc := if d then sendIpcReg work else recvIpcReg work) in *.
  assert (ipc && nvl || net = net) as -> by (destruct nvl; [rewrite Hnvl by done|rewrite andb_false_r]; done).
  set (size := if net then NCCL_MAX_NET_SIZE else chunk).
  assert (0 < size < 2 ^ 31 /\ fin - beg <= (2 ^ 31 - 1) * size) as [Hs Hsz] by (unfold size, NCCL_MAX_NET_SIZE; destruct net; lia).
  destruct (chunkLoop_ok size (fin - beg) Hs ltac:(lia) (S (Z.to_nat (Z.quot (fin - beg) size))) 0) as (l & El & Ht & Hl); [lia| |].
  { rewrite Z.quot_div_nonneg by lia. pose proof (Z.div_pos (fin - beg) size). rewrite Z.sub_0_r. lia. }
  exists l. split; [exact El|]. split; [exact Ht|]. rewrite Hl, Z.sub_0_r. set (bytes := if d then sendBytes work else recvBytes work) in *.
  destruct (Z.eqb_spec bytes 0) as [H0|H0]; cbn [fst].
  { assert (fin - beg = 0) as -> by lia. rewrite Z.div_small by lia. done. }
  destruct Hne as [|Hne]; [done|]. set (k := (fin - beg + size - 1) / size).
  assert (1 <= k <= 2 ^ 31 - 1) as Hk by (unfold k; split; [apply Z.div_le_lower_bound; lia|apply Z.lt_succ_r, Z.div_lt_upper_bound; lia]).
  destruct net; cbn [fst]; rewrite divUp_eq by (done || lia || (unfold NCCL_MAX_NET_SIZE; fits_lia) || fits_lia);
    rewrite cwrap_fits by (done || (fold size; fold k; fits_lia)); fold size; fold k; lia.
Qed.

(** C13: The kernel and the proxy take the same steps for every part of a message.
    For a direction of any planned transfer, the parts of the channels tile the
    message.  Each channel finds its own part; the loop over its chunks ends, and
    its steps tile the part; and the number of steps is the number of steps in
    the operation for the proxy.  This holds if parts are not smaller than 4 KB
    times the number of channels of a peer: then no part of a message that is not
    empty is empty, since parts are rounded up to 4 KB.  (Buffers registered for
    direct access over NVLink are moved in larger chunks; they have no proxy.) *)
Theorem sendrecv_proxy_steps comm conn regNet regIpc nMin epoch round s q send recv en (d : bool) t nvl :
  p2pCommOk comm -> chunkParams comm -> 1 <= nMin <= pm_p2pnChannelsPerPeer comm -> pm_p2pnChannelsPerPeer comm * 4096 <= minPart comm ->
  p2pEntryOf comm conn regNet regIpc nMin (pm_p2pnChannelsPerPeer comm) epoch round s q send recv = Some en ->
  (if d then send else recv) = Some t -> taskFits comm t -> tp_bytes t <= (2 ^ 31 - 1) * u32fp8Decode (di_chunk8 (en_dirs en d)) ->
  (nvl = true -> di_ipcReg (en_dirs en d) = false) ->
  let n := di_nChannels (en_dirs en d) in
  let beg p := (ncclP2pPartBounds n p (tp_bytes t)).1 in
  let fin p := (ncclP2pPartBounds n p (tp_bytes t)).2 in
  1 <= n <= pm_p2pnChannelsPerPeer comm /\ beg 0 = 0 /\ fin (n - 1) = tp_bytes t /\
  forall p, 0 <= p < n -> fin p = beg (p + 1) /\
    let c := ncclP2pChannelForPart (pm_p2pnChannels comm) (channelBase (en_work en)) p in
    lanePart c d (en_work en) = (true, (di_addr (en_dirs en d) + beg p, fin p - beg p)) /\
    exists l, runSteps nvl c d (en_work en) = Some l /\ tiles (runChunk nvl d (en_work en)) 0 (fin p - beg p) l /\
      (partSteps (en_work en) d p).1 = Z.of_nat (length l).
Proof.
  intros C P Hn Hmin He Htask Ht Hfit Hnvl. cbv zeta. pose proof (channels_bound _ C) as HC. pose proof (ck_perPeer _ C) as Hpp.
  destruct (p2pEntryOf_dirs _ _ _ _ _ _ _ _ _ _ _ _ _ d He) as (Hd & Ebase & Ech & En & E8 & Enet & Eipc & Eaddr & Ebytes). rewrite Htask in Hd, Ebytes.
  destruct (p2pDir_parts _ _ _ _ _ _ _ _ _ _ _ C P Hn Hmin Ht Hd) as (Hnc & Hchunk & Hfew).
  set (n := di_nChannels (en_dirs en d)) in *. rewrite Z.mod_small in Ech, En by lia. destruct Ht as [Ht0 Ht].
  assert (tp_bytes t < 2 ^ 53) as H53.
  { pose proof (ck_chunk _ C). assert (Z.quot (pm_p2pChunkSize comm) 8 < 2 ^ 22) by (rewrite Z.quot_div_nonneg by lia; apply Z.div_lt_upper_bound; lia). nia. }
  destruct (ncclP2pPartBounds_tiling n (tp_bytes t) 0 ltac:(lia) Ht0 ltac:(lia) ltac:(lia)) as (H0 & Hlast & _). split; [done|]. split; [done|]. split; [done|].
  intros p Hp. destruct (ncclP2pPartBounds_tiling n (tp_bytes t) p ltac:(lia) Ht0 Hp ltac:(lia)) as (_ & _ & Hnext & Hbf & _). split; [done|].
  assert (tp_bytes t = 0 \/ (ncclP2pPartBounds n p (tp_bytes t)).1 < (ncclP2pPartBounds n p (tp_bytes t)).2) as Hne.
  { destruct Hfew as [|Hfew]; [by left|right]. apply part_nonempty; unfold fewParts in Hfew; lia. }
  assert (0 <= (ncclP2pPartBounds n p (tp_bytes t)).1) as Hpos.
  { unfold ncclP2pPartBounds. cbn [fst]. unfold wrap64. pose proof (Z.mod_pos_bound ((p + 0) * alignUp u64 (divUp u64 (tp_bytes t) n) (Z.shiftl 4 10)) (2 ^ 64)). lia. }
  pose proof (part_steps nvl (en_work en) d (ncclP2pChannelForPart (pm_p2pnChannels comm) (channelBase (en_work en)) p) p) as Hsteps. cbv zeta in Hsteps.
  rewrite En, Ebytes, E8, Eipc, Eaddr, Ech in Hsteps. destruct (ncclP2pPartBounds n p (tp_bytes t)) as [beg fin]. cbn [fst snd] in *.
  apply Hsteps; try done; try lia. assert (baseOk en) as Hbase by (unfold baseOk; rewrite Ebase; apply base_bound).
  assert (0 <= ncclP2pChannelForPart (pm_p2pnChannels comm) (channelBase (en_work en)) p < pm_p2pnChannels comm) as Hc.
  { rewrite channelForPart_eq by (done || lia). apply Z.mod_pos_bound. lia. }
  by apply (channel_part comm (channelBase (en_work en)) _ p C Hbase ltac:(lia) Hc).
Qed.

Lemma sendrecv_proxy_steps_witness :
  exists en l, p2pEntryOf exampleP2pComm (fun _ _ _ => exampleP2pConn) (fun _ _ _ => false) (fun _ _ => None) 2 2 0 1 1 1
      (Some (exampleP2pTask 4096 1000000)) None = Some en /\ nSendChannels (en_work en) = 2 /\
    runSteps false (ncclP2pChannelForPart 4 (channelBase (en_work en)) 1) true (en_work en) = Some l /\ length l = 4%nat /\ (partSteps (en_work en) true 1).1 = 4.
Proof.
  destruct (p2pEntryOf exampleP2pComm (fun _ _ _ => exampleP2pConn) (fun _ _ _ => false) (fun _ _ => None) 2 2 0 1 1 1
    (Some (exampleP2pTask 4096 1000000)) None) as [en|] eqn:E; [|vm_compute in E; discriminate E].
  assert (di_nChannels (en_dirs en true) = 2 /\ nSendChannels (en_work en) = 2 /\ di_chunk8 (en_dirs en true) = 120 /\ (partSteps (en_work en) true 1).1 = 4) as (H1 & H2 & H3 & H4).
  { vm_compute in E. injection E as <-. vm_compute. split_and!; reflexivity. }
  destruct (sendrecv_proxy_steps exampleP2pComm (fun _ _ _ => exampleP2pConn) (fun _ _ _ => false) (fun _ _ => None) 2 0 1 1 1
    (Some (exampleP2pTask 4096 1000000)) None en true (exampleP2pTask 4096 1000000) false) as (_ & _ & _ & H).
  - apply exampleP2pComm_ok.
  - split; cbn; lia.
  - cbn. lia.
  - vm_compute. discriminate.
  - exact E.
  - reflexivity.
  - split; vm_compute; discriminate.
  - rewrite H3. vm_compute. discriminate.
  - discriminate.
  - rewrite H1 in H. destruct (H 1 ltac:(lia)) as (_ & _ & l & Hl & _ & Hlen). exists en, l. rewrite H4 in Hlen.
    split; [reflexivity|]. split; [exact H2|]. split; [exact Hl|]. split; [lia|exact H4].
Defined.

(** Two nodes of one rank, with 64 channels, 32 of them for a peer over the network. *)
Definition manyChannels : p2pComm := {|
  pm_rank := 0; pm_nRanks := 2; pm_nNodes := 2; pm_p2pnChannels := 64; pm_p2pnChannelsPerPeer := 32; pm_p2pSchedGroupSize := 1;
  pm_p2pChunkSize := 131072; pm_buffSizeLL := 131072; pm_minNetCount := 1; pm_minLocalNetBw := 0; pm_pxnUsed := false;
  pm_schedule := [(0, 0); (1, 1)]; pm_cudaArch := 900; pm_epochEnable := true; pm_devFuncId := 0;
  pm_paramChunkSize := 0; pm_paramLLThreshold := 16384; pm_paramRegNetBw := 0 |}.

Definition networkConn : p2pConn := {|
  cn_hasLL := true; cn_network := true; cn_sameProcess := true; cn_directNic := false; cn_p2pWrite := false; cn_p2pRead := false |}.

Definition manyParts : option p2pEntry :=
  p2pEntryOf manyChannels (fun _ _ _ => networkConn) (fun _ _ _ => false) (fun _ _ => None) (leastChannels manyChannels) 32 0 1 1 1
    (Some (exampleP2pTask 4096 2097184)) None.

(** With more channels than that the last part can be empty: the 32 parts of 2097184
    bytes are of 68 KB, and 31 of them are enough.  The kernel still takes a step for
    the last part, but there is no operation for the proxy, so the step is never sent
    and the receiver waits for it. *)
Lemma empty_part_no_proxy :
  exists en, manyParts = Some en /\ nSendChannels (en_work en) = 32 /\
    let c := ncclP2pChannelForPart 64 (channelBase (en_work en)) 31 in
    (lanePart c true (en_work en)).1 = true /\ runSteps false c true (en_work en) = Some [(0, 0)] /\
    forall concurrent opCount, partProxyOp en concurrent 31 c opCount true = [].
Proof.
  destruct manyParts as [en|] eqn:E; [|vm_compute in E; discriminate E]. exists en. split; [done|].
  vm_compute in E. injection E as <-. vm_compute. done.
Qed.

(** ** The threads and barriers of a batch *)

Lemma ballot_bit vote i : (i < 32)%nat -> Z.testbit (ballot vote) (Z.of_nat i) = vote i.
Proof.
  intros Hi. unfold ballot. assert (forall l, NoDup l -> Z.testbit (fold_right (fun lane mask => if vote lane then Z.lor (2 ^ Z.of_nat lane) mask else mask) 0 l) (Z.of_nat i) =
    bool_decide (i ∈ l) && vote i) as Hl.
  { intros l Hl. induction Hl as [|x l Hx Hl IH]; [rewrite Z.bits_0, (bool_decide_eq_false_2 (i ∈ [])); [done|apply not_elem_of_nil]|]. simpl.
    destruct (decide (i = x)) as [->|Hne].
    + rewrite (bool_decide_eq_true_2 (x ∈ x :: l)) by left. rewrite (bool_decide_eq_false_2 (x ∈ l)) in IH by done. destruct (vote x); [|done].
      by rewrite Z.lor_spec, Z.pow2_bits_true by lia.
    + rewrite (bool_decide_ext (i ∈ x :: l) (i ∈ l)) by (rewrite elem_of_cons; naive_solver). destruct (vote x); [|done].
      by rewrite Z.lor_spec, Z.pow2_bits_false, IH by lia. }
  rewrite Hl by apply NoDup_seq. rewrite bool_decide_eq_true_2; [done|]. apply elem_of_seq. lia.
Qed.

Lemma countBallot vote : countOneBits u32 (ballot vote) = Z.of_nat (length (List.filter vote (seq 0 32))).
Proof.
  rewrite countOneBits_bits by done. do 2 f_equal. unfold bitsBelow. apply List.filter_ext_in. intros i Hi%in_seq. apply ballot_bit. simpl in Hi. lia.
Qed.

(** Counting the multiples is dividing. *)
Lemma count_multiples x y k : 0 < y -> 0 <= x -> Z.of_nat (length (List.filter (fun i => y * (Z.of_nat i + 1) <=? x) (seq 0 k))) = Z.min (Z.of_nat k) (x / y).
Proof.
  intros Hy Hx. pose proof (Z.div_pos x y Hx Hy). induction k as [|k IH]; [simpl; lia|]. rewrite seq_S, List.filter_app, length_app, Nat2Z.inj_add, IH. simpl.
  pose proof (Z.mul_div_le x y Hy). pose proof (Z.mul_succ_div_gt x y Hy). destruct (Z.leb_spec (y * (Z.of_nat k + 1)) x); simpl.
  - assert (Z.of_nat k + 1 <= x / y) by (apply Z.div_le_lower_bound; lia). lia.
  - assert (x / y < Z.of_nat k + 1) by (apply Z.div_lt_upper_bound; lia). lia.
Qed.

Lemma divByVote_eq x y : 0 < y -> 0 <= x < 32 -> divByVote x y = x / y.
Proof.
  intros Hy Hx. unfold divByVote. rewrite countBallot, count_multiples by lia. assert (x / y <= x) by (apply Z.div_le_upper_bound; nia). lia.
Qed.

(** The number of set bits below [k]. *)
Definition bitCount (m : Z) (k : nat) : Z := Z.of_nat (length (bitsBelow k m)).

Lemma bitCount_S m k : bitCount m (S k) = bitCount m k + Z.b2z (Z.testbit m (Z.of_nat k)).
Proof. unfold bitCount. rewrite bitsBelow_next, length_app. destruct (Z.testbit m (Z.of_nat k)); simpl; lia. Qed.

Lemma countBelow m k : (k <= 16)%nat -> countOneBits u32 (Z.land m (cwrap i32 (Z.shiftl 1 (Z.of_nat k)) - 1)) = bitCount m k.
Proof.
  intros Hk. rewrite Z.shiftl_1_l. assert (2 ^ Z.of_nat k <= 2 ^ 16) by (apply Z.pow_le_mono_r; lia). assert (0 < 2 ^ Z.of_nat k) by (apply Z.pow_pos_nonneg; lia).
  rewrite cwrap_fits by (done || fits_lia). rewrite countOneBits_bits by done. change (Z.to_nat (cwidth u32)) with 32%nat. rewrite bitsBelow_mask by lia. done.
Qed.

(** The group ids a work uses. *)
Definition groupsUsed (recvMask sendMask nSend nWarpPerWork : Z) (k : nat) : Z :=
  match Z.testbit recvMask (Z.of_nat k), Z.testbit sendMask (Z.of_nat k) with
  | true, true => 2 + (if 3 <=? nSend then 1 else 0)
  | true, false => 1
  | false, true => 1 + (if 3 <=? nWarpPerWork then 1 else 0)
  | false, false => 0
  end.

Lemma groupBase_S recvMask sendMask nSend nWarp k : (k < 16)%nat ->
  groupBase recvMask sendMask nSend nWarp (Z.of_nat (S k)) = groupBase recvMask sendMask nSend nWarp (Z.of_nat k) + groupsUsed recvMask sendMask nSend nWarp k.
Proof.
  intros Hk. unfold groupBase. rewrite !countBelow by lia. rewrite !bitCount_S, !Z.land_spec. unfold groupsUsed.
  change (Z.quot NCCL_SIMPLE_EXTRA_GROUP_IF_NTHREADS_GE WARP_SIZE) with 3.
  assert (Z.testbit (cwrap u32 (Z.lnot recvMask)) (Z.of_nat k) = negb (Z.testbit recvMask (Z.of_nat k))) as ->.
  { unfold cwrap, u32. cbn [csigned cwidth]. rewrite Z.mod_pow2_bits_low by lia. apply Z.lnot_spec. lia. }
  destruct (Z.testbit recvMask (Z.of_nat k)), (Z.testbit sendMask (Z.of_nat k)); simpl; lia.
Qed.

Lemma groupBase_0 recvMask sendMask nSend nWarp : groupBase recvMask sendMask nSend nWarp 0 = 0.
Proof. unfold groupBase. rewrite !(countBelow _ 0) by lia. done. Qed.

Definition splitCheck (nWorks nWarps : nat) : bool :=
  let '(r, s) := warpSplit (Z.of_nat nWarps) (Z.of_nat nWorks) in
  let most := Z.max (2 + (if 3 <=? s then 1 else 0)) (1 + (if 3 <=? s + r then 1 else 0)) in
  (2 * nWorks <=? nWarps)%nat && negb ((1 <=? r) && (r <=? s) && (Z.of_nat nWorks * (s + r) <=? Z.of_nat nWarps) &&
    ((Z.of_nat nWorks * most <=? 14) || ((r =? 1) && (s =? 1) && (most =? 2) && (nWorks =? 8)%nat))).

(** The warps of a work, and the group ids it can need. *)
Lemma warpSplit_ok nWorks nWarps r s :
  1 <= nWorks <= 8 -> 2 * nWorks <= nWarps <= 20 -> warpSplit nWarps nWorks = (r, s) ->
  1 <= r <= s /\ nWorks * (s + r) <= nWarps /\
  let most := Z.max (2 + (if 3 <=? s then 1 else 0)) (1 + (if 3 <=? s + r then 1 else 0)) in
  nWorks * most <= 14 \/ (r = 1 /\ s = 1 /\ most = 2 /\ nWorks = 8).
Proof.
  intros Hw Hn E. cbv zeta.
  assert (existsb (fun a => existsb (splitCheck a) (seq 2 19)) (seq 1 8) = false) as Hall by (vm_compute; reflexivity).
  assert (splitCheck (Z.to_nat nWorks) (Z.to_nat nWarps) = false) as Hc.
  { destruct (splitCheck _ _) eqn:Ec; [|done]. rewrite <- Hall. symmetry. apply existsb_exists. exists (Z.to_nat nWorks). split; [apply in_seq; lia|].
    apply existsb_exists. exists (Z.to_nat nWarps). split; [apply in_seq; lia|done]. }
  unfold splitCheck in Hc. rewrite !Z2Nat.id, E in Hc by lia. rewrite (proj2 (Nat.leb_le _ _)) in Hc by lia. cbn [andb] in Hc.
  apply negb_false_iff in Hc. rewrite !andb_true_iff, orb_true_iff, !andb_true_iff, !Z.leb_le, !Z.eqb_eq, Nat.eqb_eq in Hc. split; [lia|]. split; [lia|].
  destruct Hc as [_ [Hc|Hc]]; [by left|right; split_and!; lia].
Qed.

Section batch.

Context (nWarps nWorks recvMask sendMask : Z) (isCopy : Z -> bool) (r s : Z).
Context (Hworks : 1 <= nWorks <= 8) (Hwarps : 2 * nWorks <= nWarps <= 20) (Hsplit : warpSplit nWarps nWorks = (r, s)).

Local Abbreviation used := (groupsUsed recvMask sendMask s (s + r)).
Local Abbreviation base ix := (groupBase recvMask sendMask s (s + r) ix).
Local Abbreviation bothOf ix := (negb (isCopy ix) && Z.testbit sendMask ix && Z.testbit recvMask ix).

(** The first thread, the number of threads and the group of a direction of a work. *)
Definition firstOf (ix : Z) (d : bool) : Z := ix * (s + r) * 32 + (if bothOf ix && negb d then s * 32 else 0).
Definition sizeOf (ix : Z) (d : bool) : Z := if bothOf ix then (if d then s else r) * 32 else (s + r) * 32.
Definition groupOf (ix : Z) (d : bool) : Z := base ix + (if bothOf ix && negb d then 1 + (if 3 <=? s then 1 else 0) else 0).

Definition taskFor (ix : Z) (d : bool) (tid : Z) : threadTask := {|
  ta_workIx := ix; ta_kind := if isCopy ix then TCopy else if d then TSend else TRecv;
  ta_subtid := tid - firstOf ix d; ta_subtn := sizeOf ix d; ta_group := groupOf ix d |}.

Lemma land_shiftr_bit m k : 0 <= k -> (Z.land 1 (Z.shiftr m k) =? 1) = Z.testbit m k.
Proof.
  intros Hk. replace (Z.land 1 (Z.shiftr m k)) with (Z.b2z (Z.testbit m k)); [by destruct (Z.testbit m k)|].
  apply Z.bits_inj'. intros i Hi. rewrite Z.land_spec, Z.shiftr_spec by lia. destruct (Z.eq_dec i 0) as [->|Hne].
  - rewrite Z.add_0_l. by destruct (Z.testbit m k).
  - replace (Z.testbit 1 i) with false; [|symmetry; apply (Z.pow2_bits_false 0); lia]. cbn [andb]. destruct (Z.testbit m k); cbn [Z.b2z]; [apply (Z.pow2_bits_false 0); lia|apply Z.bits_0].
Qed.

(** The work of a thread and its direction. *)
Lemma taskOf_eq tid : 0 <= tid < 32 * nWarps ->
  let ix := tid / (32 * (s + r)) in
  let d := negb (Z.testbit recvMask ix) || (Z.testbit sendMask ix && (tid - ix * (s + r) * 32 <? s * 32)) in
  taskOf (32 * nWarps) nWorks recvMask sendMask isCopy tid = if nWorks <=? ix then None else Some (taskFor ix d tid).
Proof.
  intros Htid. destruct (warpSplit_ok nWorks nWarps r s Hworks Hwarps Hsplit) as (Hrs & _). unfold taskOf, WARP_SIZE.
  rewrite (Z.quot_div_nonneg tid) by lia. rewrite (Z.mul_comm 32 nWarps), Z.quot_mul by lia. rewrite Hsplit.
  assert (countOneBits u32 (ballot (fun lane => (Z.of_nat lane + 1) * (s + r) <=? tid / 32)) = tid / (32 * (s + r))) as ->.
  { rewrite countBallot, (List.filter_ext _ (fun lane => (s + r) * (Z.of_nat lane + 1) <=? tid / 32)) by (intros; f_equal; lia).
    pose proof (Z.div_pos tid 32). assert (tid / 32 < 20) by (apply Z.div_lt_upper_bound; lia).
    rewrite count_multiples, Z.div_div by lia. assert (tid / (32 * (s + r)) < 20); [|lia]. apply Z.div_lt_upper_bound; nia. }
  cbv zeta. set (ix := tid / (32 * (s + r))). assert (0 <= ix) by (apply Z.div_pos; lia). destruct (nWorks <=? ix) eqn:E; [done|].
  rewrite !land_shiftr_bit by lia. change (Z.quot NCCL_SIMPLE_EXTRA_GROUP_IF_NTHREADS_GE 32) with 3. unfold taskFor, firstOf, sizeOf, groupOf.
  destruct (isCopy ix), (Z.testbit sendMask ix) eqn:Es, (Z.testbit recvMask ix) eqn:Er; cbn [negb andb orb]; try (do 2 f_equal; lia);
    destruct (tid - ix * (s + r) * 32 <? s * 32); cbn [negb andb orb]; do 2 f_equal; lia.
Qed.

Lemma work_of tid ix : 0 <= tid -> 1 <= s + r -> tid / (32 * (s + r)) = ix <-> ix * (s + r) * 32 <= tid < (ix + 1) * (s + r) * 32.
Proof.
  intros Ht Hw. split.
  - intros <-. pose proof (Z.mul_div_le tid (32 * (s + r)) ltac:(lia)). pose proof (Z.mul_succ_div_gt tid (32 * (s + r)) ltac:(lia)). lia.
  - intros H. symmetry. apply (Z.div_unique tid (32 * (s + r)) ix (tid - ix * (s + r) * 32)); lia.
Qed.

Definition maskOf (d : bool) : Z := if d then sendMask else recvMask.

(** A direction runs on its own threads. *)
Lemma task_threads ix d tid : 0 <= ix < nWorks -> Z.testbit (maskOf d) ix = true -> isCopy ix = false -> 0 <= tid < 32 * nWarps ->
  firstOf ix d <= tid < firstOf ix d + sizeOf ix d <-> taskOf (32 * nWarps) nWorks recvMask sendMask isCopy tid = Some (taskFor ix d tid).
Proof.
  intros Hix Hd Hcopy Htid. destruct (warpSplit_ok nWorks nWarps r s Hworks Hwarps Hsplit) as (Hrs & _). rewrite taskOf_eq by done. cbv zeta. split.
  - intros H. assert (tid / (32 * (s + r)) = ix) as E.
    { apply work_of; [lia|lia|]. revert H. unfold firstOf, sizeOf. destruct (bothOf ix); destruct d; cbn [negb andb]; lia. }
    rewrite E, (proj2 (Z.leb_gt nWorks ix)) by lia. do 2 f_equal. revert H Hd. unfold firstOf, sizeOf, maskOf. rewrite Hcopy. cbn [negb andb].
    destruct d, (Z.testbit recvMask ix), (Z.testbit sendMask ix); cbn [negb andb orb]; try done; intros H _; [apply Z.ltb_lt|apply Z.ltb_ge]; lia.
  - set (ix' := tid / (32 * (s + r))). destruct (nWorks <=? ix') eqn:El; [done|]. set (d' := _ || _). unfold taskFor at 1 2.
    intros H. assert (ix' = ix /\ d' = d) as [E1 E2].
    { injection H as E1 E2 _ _ _. split; [done|]. rewrite E1, Hcopy in E2. by destruct d, d'. }
    assert (ix * (s + r) * 32 <= tid < (ix + 1) * (s + r) * 32) as Hr by (apply work_of; [lia|lia|done]).
    unfold d' in E2. rewrite E1 in E2. revert E2 Hd. unfold firstOf, sizeOf, maskOf. rewrite Hcopy. cbn [negb andb].
    destruct d, (Z.testbit recvMask ix), (Z.testbit sendMask ix); cbn [negb andb orb]; try done; intros H2 _;
      first [apply Z.ltb_lt in H2; lia | apply Z.ltb_ge in H2; lia | lia].
Qed.

Lemma copy_threads ix tid : 0 <= ix < nWorks -> isCopy ix = true -> 0 <= tid < 32 * nWarps ->
  ix * (s + r) * 32 <= tid < (ix + 1) * (s + r) * 32 <->
  exists t, taskOf (32 * nWarps) nWorks recvMask sendMask isCopy tid = Some t /\ ta_workIx t = ix.
Proof.
  intros Hix Hcopy Htid. destruct (warpSplit_ok nWorks nWarps r s Hworks Hwarps Hsplit) as (Hrs & _). rewrite taskOf_eq by done. cbv zeta.
  rewrite <- work_of by lia. split.
  - intros ->. rewrite (proj2 (Z.leb_gt nWorks ix)) by lia. eexists. split; [reflexivity|done].
  - set (ix' := tid / (32 * (s + r))). intros (t & H & Ht). destruct (nWorks <=? ix'); [done|]. injection H as <-. done.
Qed.

(** The ids of the works do not overlap, and there are enough. *)
Lemma used_nonneg k : 0 <= used k.
Proof. unfold groupsUsed. repeat case_match; lia. Qed.

Lemma base_le (i j : nat) : (i < j)%nat -> (j <= 16)%nat -> base (Z.of_nat i) + used i <= base (Z.of_nat j).
Proof.
  intros Hij Hj. induction j as [|j IH]; [lia|]. rewrite groupBase_S by lia. pose proof (used_nonneg j). destruct (decide (i = j)) as [->|Hne]; [lia|].
  specialize (IH ltac:(lia) ltac:(lia)). lia.
Qed.

Lemma base_bound_used most (i : nat) : (i <= 16)%nat -> (forall k, used k <= most) -> 0 <= base (Z.of_nat i) <= Z.of_nat i * most.
Proof.
  intros Hi Hm. induction i as [|i IH]; [rewrite groupBase_0; lia|]. rewrite groupBase_S by lia. pose proof (used_nonneg i). specialize (Hm i). specialize (IH ltac:(lia)). lia.
Qed.

Lemma used_most k : used k <= Z.max (2 + (if 3 <=? s then 1 else 0)) (1 + (if 3 <=? s + r then 1 else 0)).
Proof. unfold groupsUsed. repeat case_match; lia. Qed.

(** The ids of a direction. *)
Definition idsOf (ix : Z) (d : bool) : list Z := taskGroups (taskFor ix d 0).

Lemma ids_range ix d x : 0 <= ix -> Z.testbit (maskOf d) ix = true -> isCopy ix = false -> 1 <= r <= s -> x ∈ idsOf ix d ->
  base ix <= x < base ix + used (Z.to_nat ix) /\
  (Z.testbit (maskOf (negb d)) ix = true -> if d then x < base ix + 1 + (if 3 <=? s then 1 else 0) else base ix + 1 + (if 3 <=? s then 1 else 0) <= x) /\
  (32 < sizeOf ix d -> s = 1 -> x = base ix /\ used (Z.to_nat ix) = 1).
Proof.
  intros Hix Hd Hcopy Hrs. unfold idsOf, taskGroups, taskFor, groupOf, sizeOf, groupsUsed, maskOf in *. cbn [ta_kind ta_group ta_subtn]. rewrite Hcopy, Z2Nat.id by done.
  unfold NCCL_SIMPLE_EXTRA_GROUP_IF_NTHREADS_GE, WARP_SIZE. cbn [negb andb].
  destruct d; cbn [negb] in *; rewrite Hd; cbn [andb]; [destruct (Z.testbit recvMask ix)|destruct (Z.testbit sendMask ix)]; cbn [andb];
    repeat case_match; rewrite ?elem_of_cons, ?elem_of_nil; intros Hx; split_and!; intros; lia.
Qed.

Lemma ids_disjoint ix d ix' d' x : 0 <= ix < nWorks -> 0 <= ix' < nWorks -> Z.testbit (maskOf d) ix = true -> Z.testbit (maskOf d') ix' = true ->
  isCopy ix = false -> isCopy ix' = false -> (ix, d) <> (ix', d') -> x ∈ idsOf ix d -> x ∈ idsOf ix' d' -> False.
Proof.
  intros Hix Hix' Hd Hd' Hc Hc' Hne Hx Hx'. destruct (warpSplit_ok nWorks nWarps r s Hworks Hwarps Hsplit) as (Hrs & _).
  destruct (ids_range ix d x ltac:(lia) Hd Hc Hrs Hx) as (H1 & H2 & _). destruct (ids_range ix' d' x ltac:(lia) Hd' Hc' Hrs Hx') as (H1' & H2' & _).
  destruct (Z.lt_trichotomy ix ix') as [Hlt|[<-|Hlt]].
  - pose proof (base_le (Z.to_nat ix) (Z.to_nat ix') ltac:(lia) ltac:(lia)) as H. rewrite !Z2Nat.id in H by lia. lia.
  - destruct d, d'; try done; cbn [negb] in *; specialize (H2 Hd'); specialize (H2' Hd); cbn in H2, H2'; lia.
  - pose proof (base_le (Z.to_nat ix') (Z.to_nat ix) ltac:(lia) ltac:(lia)) as H. rewrite !Z2Nat.id in H by lia. lia.
Qed.

Lemma ids_bound ix d x : 0 <= ix < nWorks -> Z.testbit (maskOf d) ix = true -> isCopy ix = false -> x ∈ idsOf ix d ->
  0 <= x < NCCL_MAX_GROUPS /\ (32 < sizeOf ix d -> x < NCCL_MAX_GROUPS - 1).
Proof.
  intros Hix Hd Hc Hx. destruct (warpSplit_ok nWorks nWarps r s Hworks Hwarps Hsplit) as (Hrs & _ & Hmost). cbv zeta in Hmost.
  pose proof (used_most (Z.to_nat ix)) as Hu. pose proof used_most as Hall. set (most := Z.max _ _) in *. clearbody most.
  destruct (ids_range ix d x ltac:(lia) Hd Hc Hrs Hx) as (H1 & _ & H3).
  pose proof (base_bound_used most (Z.to_nat ix) ltac:(lia) Hall) as Hb. rewrite Z2Nat.id in Hb by lia. unfold NCCL_MAX_GROUPS.
  destruct Hmost as [Hm|(Hr1 & Hs1 & Hm & Hw)].
  - assert (ix * most + most <= 14) by nia. split; [lia|]. intros _. lia.
  - subst most. split; [lia|]. intros Hsz. destruct (H3 Hsz Hs1) as [-> Hu1]. lia.
Qed.

End batch.

(** What a thread does is a direction of a work, or a copy. *)
Lemma task_shape nWarps nWorks recvMask sendMask isCopy r s tid t :
  1 <= nWorks <= 8 -> 2 * nWorks <= nWarps <= 20 -> warpSplit nWarps nWorks = (r, s) ->
  (forall ix, 0 <= ix < nWorks -> Z.testbit recvMask ix = true \/ Z.testbit sendMask ix = true) -> 0 <= tid < 32 * nWarps ->
  taskOf (32 * nWarps) nWorks recvMask sendMask isCopy tid = Some t ->
  exists ix d, 0 <= ix < nWorks /\ t = taskFor recvMask sendMask isCopy r s ix d tid /\ Z.testbit (maskOf recvMask sendMask d) ix = true.
Proof.
  intros Hworks Hwarps Hsplit Hsome Htid. destruct (warpSplit_ok nWorks nWarps r s Hworks Hwarps Hsplit) as (Hrs & _).
  rewrite (taskOf_eq nWarps nWorks recvMask sendMask isCopy r s Hworks Hwarps Hsplit tid Htid). cbv zeta. set (ix := tid / (32 * (s + r))).
  assert (0 <= ix) by (apply Z.div_pos; lia). destruct (Z.leb_spec nWorks ix) as [|Hlt]; [done|]. set (d := _ || _). intros [= <-]. exists ix, d.
  split; [lia|]. split; [done|]. destruct (Hsome ix ltac:(lia)) as [H1|H1]; unfold d, maskOf; rewrite H1; cbn [negb andb orb].
  - destruct (Z.testbit sendMask ix) eqn:E; cbn [andb]; [destruct (_ <? _)|]; done.
  - destruct (Z.testbit recvMask ix) eqn:E; cbn [negb andb orb]; [destruct (_ <? _)|]; done.
Qed.

Lemma workMasks_bit c works (d : bool) ix work : (length works <= 16)%nat -> works !! ix = Some work ->
  Z.testbit (maskOf (workMasks c works).1 (workMasks c works).2 d) (Z.of_nat ix) = (lanePart c d work).1.
Proof.
  intros Hlen Hix. apply lookup_lt_Some in Hix as Hlt. unfold workMasks. cbn [fst snd]. destruct d; cbn [maskOf].
  - rewrite Z.shiftr_spec by lia. replace (Z.of_nat ix + 16) with (Z.of_nat (ix + 16)) by lia. rewrite ballot_bit by lia.
    replace ((ix + 16) mod 16)%nat with ix by (rewrite <- (Nat.mul_1_l 16) at 1; rewrite Nat.Div0.mod_add, Nat.mod_small by lia; done).
    by rewrite (proj2 (Nat.ltb_ge _ _)), Hix by lia.
  - rewrite Z.land_spec. change 65535 with (Z.ones 16). rewrite Z.ones_spec_low, andb_true_r, ballot_bit by lia.
    by rewrite Nat.mod_small, (proj2 (Nat.ltb_lt _ _)), Hix by lia.
Qed.

(** The works whose send is to the rank itself are copies. *)
Definition copyAt (works : list ncclDevWorkP2p) (rank ix : Z) : bool :=
  match works !! Z.to_nat ix with Some work => sendRank work =? rank | None => false end.

(** Work [ix] has a direction to run on the channel. *)
Definition runsAt (works : list ncclDevWorkP2p) (c rank ix : Z) (d : bool) : Prop :=
  0 <= ix /\ exists work, works !! Z.to_nat ix = Some work /\ (lanePart c d work).1 = true /\ sendRank work <> rank.

Lemma runsAt_masks works c rank ix d : (length works <= 16)%nat ->
  runsAt works c rank ix d <->
  0 <= ix < Z.of_nat (length works) /\ Z.testbit (maskOf (workMasks c works).1 (workMasks c works).2 d) ix = true /\ copyAt works rank ix = false.
Proof.
  intros Hlen. unfold runsAt, copyAt. split.
  - intros [H0 (work & Hw & Hp & Hr)]. pose proof (workMasks_bit c works d (Z.to_nat ix) work ltac:(lia) Hw) as Hb. rewrite Z2Nat.id in Hb by done.
    apply lookup_lt_Some in Hw as Hlt. split; [lia|]. split; [rewrite Hb; exact Hp|]. rewrite Hw. by apply Z.eqb_neq.
  - intros (Hix & Hb & Hc). split; [lia|]. destruct (lookup_lt_is_Some_2 works (Z.to_nat ix)) as [work Hw]; [lia|]. exists work. split; [done|].
    pose proof (workMasks_bit c works d (Z.to_nat ix) work ltac:(lia) Hw) as Hb'. rewrite Z2Nat.id in Hb' by lia. split; [rewrite <- Hb'; exact Hb|].
    rewrite Hw in Hc. by apply Z.eqb_neq.
Qed.

Lemma masks_some works c ix : (length works <= 16)%nat ->
  (forall work, work ∈ works -> (lanePart c false work).1 = true \/ (lanePart c true work).1 = true) -> 0 <= ix < Z.of_nat (length works) ->
  Z.testbit (workMasks c works).1 ix = true \/ Z.testbit (workMasks c works).2 ix = true.
Proof.
  intros Hlen Hparts Hix. destruct (lookup_lt_is_Some_2 works (Z.to_nat ix)) as [work Hw]; [lia|].
  pose proof (workMasks_bit c works true (Z.to_nat ix) work Hlen Hw) as H1. pose proof (workMasks_bit c works false (Z.to_nat ix) work Hlen Hw) as H2.
  rewrite Z2Nat.id in H1, H2 by lia. revert H1 H2. generalize (workMasks c works) as masks. intros masks H1 H2. cbn [maskOf] in H1, H2.
  destruct (Hparts work (list_elem_of_lookup_2 _ _ _ Hw)) as [H|H]; [left; rewrite H2; exact H|right; rewrite H1; exact H].
Qed.

(** The threads of a batch: the first thread, the number of threads and the group
    ids of each direction that runs. *)
Definition batchThreads (nWarps nWorks : Z) (task : Z -> option threadTask) (isCopy : Z -> bool) (runs : Z -> bool -> Prop) : Prop :=
  exists (first size : Z -> bool -> Z) (ids : Z -> bool -> list Z),
    (forall ix d, runs ix d -> 0 < size ix d /\ (32 | size ix d) /\ 0 <= first ix d /\ first ix d + size ix d <= 32 * nWarps /\
       forall tid, 0 <= tid < 32 * nWarps ->
         (first ix d <= tid < first ix d + size ix d <->
          exists t, task tid = Some t /\ ta_workIx t = ix /\ ta_kind t = (if d then TSend else TRecv)) /\
         forall t, task tid = Some t -> ta_workIx t = ix -> ta_kind t = (if d then TSend else TRecv) ->
           ta_subtid t = tid - first ix d /\ ta_subtn t = size ix d /\ taskGroups t = ids ix d) /\
    (forall tid t, 0 <= tid < 32 * nWarps -> task tid = Some t ->
       0 <= ta_workIx t < nWorks /\
       match ta_kind t with TCopy => isCopy (ta_workIx t) = true | TSend => runs (ta_workIx t) true | TRecv => runs (ta_workIx t) false end) /\
    (forall ix d x, runs ix d -> x ∈ ids ix d -> 0 <= x < NCCL_MAX_GROUPS /\ (32 < size ix d -> NCCL_MAX_GROUPS - 1 - x <> 0)) /\
    (forall ix d ix' d' x, runs ix d -> runs ix' d' -> (ix, d) <> (ix', d') -> x ∈ ids ix d -> x ∈ ids ix' d' -> False).

Lemma batch_threads nWarps nWorks recvMask sendMask isCopy runs :
  1 <= nWorks <= 8 -> 2 * nWorks <= nWarps <= 20 ->
  (forall ix, 0 <= ix < nWorks -> Z.testbit recvMask ix = true \/ Z.testbit sendMask ix = true) ->
  (forall ix d, runs ix d <-> 0 <= ix < nWorks /\ Z.testbit (maskOf recvMask sendMask d) ix = true /\ isCopy ix = false) ->
  batchThreads nWarps nWorks (taskOf (32 * nWarps) nWorks recvMask sendMask isCopy) isCopy runs.
Proof.
  intros Hworks Hwarps Hsome Hiff. pose proof (fun ix d => proj1 (Hiff ix d)) as Hruns. pose proof (fun ix d => proj2 (Hiff ix d)) as Hruns'.
  destruct (warpSplit nWarps nWorks) as [r s] eqn:Hsplit.
  destruct (warpSplit_ok nWorks nWarps r s Hworks Hwarps Hsplit) as (Hrs & Hfit & _).
  exists (firstOf recvMask sendMask isCopy r s), (sizeOf recvMask sendMask isCopy r s), (idsOf recvMask sendMask isCopy r s). split_and!.
  - intros ix d (Hix & Hd & Hc)%Hruns. split; [|split; [|split; [|split]]].
    + unfold sizeOf. repeat case_match; lia.
    + unfold sizeOf. repeat case_match; by eexists.
    + unfold firstOf. repeat case_match; nia.
    + assert ((ix + 1) * (s + r) * 32 <= 32 * nWarps) by nia. unfold firstOf, sizeOf. destruct d; repeat case_match; cbn [negb andb] in *; try lia; rewrite ?andb_false_r, ?andb_true_r in *; congruence.
    + intros tid Htid. pose proof (task_threads nWarps nWorks recvMask sendMask isCopy r s Hworks Hwarps Hsplit ix d tid Hix Hd Hc Htid) as HT.
      assert (forall t, taskOf (32 * nWarps) nWorks recvMask sendMask isCopy tid = Some t -> ta_workIx t = ix ->
        ta_kind t = (if d then TSend else TRecv) -> t = taskFor recvMask sendMask isCopy r s ix d tid) as Ht.
      { intros t E E1 E2. destruct (task_shape _ _ _ _ _ _ _ _ _ Hworks Hwarps Hsplit Hsome Htid E) as (ix1 & d1 & _ & -> & _).
        cbn in E1, E2. subst ix1. rewrite Hc in E2. by destruct d, d1. }
      split.
      * rewrite HT. split; [intros E; eexists; split; [exact E|]; cbn; by rewrite Hc|]. intros (t & E & E1 & E2). rewrite E. f_equal. by apply Ht.
      * intros t E E1 E2. by rewrite (Ht t E E1 E2).
  - intros tid t Htid E. destruct (task_shape _ _ _ _ _ _ _ _ _ Hworks Hwarps Hsplit Hsome Htid E) as (ix & d & Hix & -> & Hd).
    cbn [ta_workIx ta_kind taskFor]. split; [done|]. destruct (isCopy ix) eqn:Hc; [done|]. destruct d; by apply Hruns'.
  - intros ix d x (Hix & Hd & Hc)%Hruns Hx.
    destruct (ids_bound nWarps nWorks recvMask sendMask isCopy r s Hworks Hwarps Hsplit ix d x Hix Hd Hc Hx) as [H1 H2]. split; [done|]. intros H. specialize (H2 H). lia.
  - intros ix d ix' d' x (Hix & Hd & Hc)%Hruns (Hix' & Hd' & Hc')%Hruns. by apply (ids_disjoint nWarps nWorks recvMask sendMask isCopy r s Hworks Hwarps Hsplit).
Qed.

(** C14: Every direction of every work of a batch runs on threads and barriers of its
    own.  For up to eight works and two warps or more for each of them (at most the
    20 of the largest block), each with a part on the channel, every send and every
    receive that is not a copy has a number of whole warps greater than zero, in
    one piece, which are exactly the threads that run it, numbered from 0, and no
    thread does anything else.  The group ids of a direction are in range and are no
    other direction's; if its threads are more than a warp, so that they use a
    named barrier, it is not barrier 0, which the whole block uses. *)
Theorem sendrecv_batch_threads nWarps works c rank :
  (1 <= length works <= 8)%nat -> 2 * Z.of_nat (length works) <= nWarps <= 20 ->
  (forall work, work ∈ works -> (lanePart c false work).1 = true \/ (lanePart c true work).1 = true) ->
  batchThreads nWarps (Z.of_nat (length works))
    (taskOf (32 * nWarps) (Z.of_nat (length works)) (workMasks c works).1 (workMasks c works).2 (copyAt works rank))
    (copyAt works rank) (runsAt works c rank).
Proof.
  intros Hlen Hwarps Hparts. apply batch_threads; [lia|done| |].
  - intros ix Hix. apply masks_some; [lia|done|done].
  - intros ix d. apply runsAt_masks. lia.
Qed.

(** A batch of three works on a channel: one sends and receives, one only sends, one
    is a copy. *)
Definition exampleWork (s q nSend nRecv : Z) : ncclDevWorkP2p := {|
  sendAddr := 4096; recvAddr := 8192; sendBytes := 100000; recvBytes := 100000; sendRank := s; recvRank := q;
  nP2pChannels := 4; channelBase := 2; nSendChannels := nSend; nRecvChannels := nRecv;
  sendChunkSize_u32fp8 := 120; recvChunkSize_u32fp8 := 120; sendProtoLL := false; recvProtoLL := false;
  sendNetReg := false; recvNetReg := false; sendIpcReg := false; recvIpcReg := false |}.

Definition exampleBatch : list ncclDevWorkP2p := [exampleWork 1 2 2 1; exampleWork 3 2 2 0; exampleWork 0 0 1 1].

Lemma sendrecv_batch_threads_witness :
  batchThreads 16 3 (taskOf (32 * 16) 3 (workMasks 2 exampleBatch).1 (workMasks 2 exampleBatch).2 (copyAt exampleBatch 0))
    (copyAt exampleBatch 0) (runsAt exampleBatch 2 0) /\
  workMasks 2 exampleBatch = (5, 7) /\ runsAt exampleBatch 2 0 0 true.
Proof.
  split; [|split].
  - apply (sendrecv_batch_threads 16 exampleBatch 2 0).
    + cbn. lia.
    + cbn. lia.
    + intros work Hw. right. unfold exampleBatch in Hw. rewrite !elem_of_cons, elem_of_nil in Hw.
      destruct Hw as [->|[->|[->|[]]]]; vm_compute; reflexivity.
  - vm_compute. reflexivity.
  - split; [lia|]. exists (exampleWork 1 2 2 1). split; [reflexivity|]. split; [vm_compute; reflexivity|]. cbn. lia.
Defined.
