(* ===== verification/Trees.v ===== *)
(** * Double binary trees (src/src/graph/trees.cc)

    Each node computes its own parent and children from its rank alone; the
    file proves that the views of all nodes fit together into trees. *)

From stdpp Require Import base numbers list.
From Stdlib Require Import ZArith Lia.
From S2P Require Import Prelude.

Local Open Scope Z_scope.

(** ** The code *)

(** [for (bit = 1; bit < nranks; bit <<= 1) if (bit & rank) break;] *)
Fixpoint lowBitLoop (fuel : nat) (bit nranks rank : Z) : Z :=
  match fuel with
  | O => bit
  | S fuel =>
      if bit <? nranks then
        if Z.land bit rank =? 0 then lowBitLoop fuel (Z.shiftl bit 1) nranks rank else bit
      else bit
  end.

(** [while (down1 >= nranks)] with its body. *)
Fixpoint down1Loop (fuel : nat) (down1 lowbit nranks rank : Z) : Z :=
  match fuel with
  | O => down1
  | S fuel =>
      if nranks <=? down1
      then down1Loop fuel (if lowbit =? 0 then -1 else rank + lowbit) (Z.shiftr lowbit 1) nranks rank
      else down1
  end.

(** A node's place in the tree: [*u], [*d0], [*d1] and [*parentChildType]. *)
Record treeNode := { tnUp : Z; tnDown0 : Z; tnDown1 : Z; tnType : Z }.

(** [int] values are below 2^31; 32 rounds end either loop. *)
Definition intBits : nat := 32.

(** [pct] is the value of [*parentChildType] before the call, which the root keeps. *)
(* src/src/graph/trees.cc:32-67 ncclGetBtree *)
Definition ncclGetBtree (nranks rank pct : Z) : treeNode :=
  let bit := lowBitLoop intBits 1 nranks rank in
  if rank =? 0 then
    {| tnUp := -1; tnDown0 := -1; tnDown1 := if 1 <? nranks then Z.shiftr bit 1 else -1; tnType := pct |}
  else
    let up := Z.lor (Z.lxor rank bit) (Z.shiftl bit 1) in
    let up := if nranks <=? up then Z.lxor rank bit else up in
    let lowbit := Z.shiftr bit 1 in
    {| tnUp := up;
       tnDown0 := if lowbit =? 0 then -1 else rank - lowbit;
       tnDown1 := down1Loop intBits (if lowbit =? 0 then -1 else rank + lowbit) lowbit nranks rank;
       tnType := if rank <? up then 0 else 1 |}.

(* src/src/graph/trees.cc:90-112 ncclGetDtree *)
Definition ncclGetDtree (nranks rank pct0 pct1 : Z) : treeNode * treeNode :=
  let t0 := ncclGetBtree nranks rank pct0 in
  let t1 :=
    if Z.rem nranks 2 =? 1 then
      let shiftrank := Z.rem (rank - 1 + nranks) nranks in
      let t := ncclGetBtree nranks shiftrank pct1 in
      let move x := if x =? -1 then -1 else Z.rem (x + 1) nranks in
      {| tnUp := move (tnUp t); tnDown0 := move (tnDown0 t); tnDown1 := move (tnDown1 t); tnType := tnType t |}
    else
      let t := ncclGetBtree nranks (nranks - 1 - rank) pct1 in
      let move x := if x =? -1 then -1 else nranks - 1 - x in
      {| tnUp := move (tnUp t); tnDown0 := move (tnDown0 t); tnDown1 := move (tnDown1 t); tnType := tnType t |} in
  (t0, t1).

(** ** Specification *)

(** The nodes' views form a tree over [0 .. n-1] with the given root: a node is
    the first (second) child of its parent exactly when its type is 0 (not 0),
    parents are nearer to the root, and the root has no first child. *)
Record isTree (n root : Z) (t : Z -> treeNode) : Prop := {
  tree_root : 0 <= root < n /\ tnUp (t root) = -1 /\ tnDown0 (t root) = -1;
  tree_up r : 0 <= r < n -> r <> root -> 0 <= tnUp (t r) < n;
  tree_type r : 0 <= r < n -> r <> root -> tnType (t r) = 0 \/ tnType (t r) = 1;
  tree_down r : 0 <= r < n ->
    (tnDown0 (t r) = -1 \/ 0 <= tnDown0 (t r) < n) /\ (tnDown1 (t r) = -1 \/ 0 <= tnDown1 (t r) < n);
  tree_down0 p r : 0 <= p < n -> 0 <= r < n ->
    tnDown0 (t p) = r <-> r <> root /\ tnUp (t r) = p /\ tnType (t r) = 0;
  tree_down1 p r : 0 <= p < n -> 0 <= r < n ->
    tnDown1 (t p) = r <-> r <> root /\ tnUp (t r) = p /\ tnType (t r) = 1;
  tree_depth : exists d : Z -> nat, forall r, (d r <= intBits)%nat /\ (0 <= r < n -> r <> root -> (d (tnUp (t r)) < d r)%nat) }.

(** ** Powers of two *)

(** [2^j] is the lowest bit of [r]. *)
Definition lowAt (r j a : Z) : Prop := 0 <= j /\ 0 <= a /\ r = 2 ^ j * (2 * a + 1).

Lemma lowAt_exists r : 0 < r -> exists j a, lowAt r j a.
Proof.
  intros Hr. rewrite <- (Z2Nat.id r) in * by lia. revert Hr. generalize (Z.to_nat r). clear r. intros m.
  induction m as [m IH] using lt_wf_ind. intros Hm.
  pose proof (Z.div_mod (Z.of_nat m) 2 ltac:(lia)). pose proof (Z.mod_pos_bound (Z.of_nat m) 2 ltac:(lia)).
  destruct (Z.eq_dec (Z.of_nat m mod 2) 1) as [E|E].
  - exists 0, (Z.of_nat m / 2). split_and!; [lia|lia|]. change (2 ^ 0) with 1. lia.
  - destruct (IH (Z.to_nat (Z.of_nat m / 2))) as (j & a & Hj & Ha & Er); [lia|lia|].
    exists (j + 1), a. split_and!; [lia|lia|]. rewrite Z.pow_add_r, Z.pow_1_r by lia. lia.
Qed.

Lemma lowAt_bits r j a i : lowAt r j a -> 0 <= i <= j -> Z.testbit r i = (i =? j).
Proof.
  intros (Hj & Ha & ->) Hi. rewrite Z.mul_comm. destruct (Z.eqb_spec i j) as [->|].
  - rewrite Z.mul_pow2_bits by lia. rewrite Z.sub_diag. apply Z.testbit_odd_0.
  - apply Z.mul_pow2_bits_low. lia.
Qed.

Lemma land_pow2 i r : 0 <= i -> (Z.land (2 ^ i) r =? 0) = negb (Z.testbit r i).
Proof.
  intros Hi. destruct (Z.testbit r i) eqn:E.
  - apply Z.eqb_neq. intros H. pose proof (Z.land_spec (2 ^ i) r i) as L.
    rewrite H, Z.bits_0, Z.pow2_bits_true, E in L by done. done.
  - apply Z.eqb_eq, Z.bits_inj'. intros k Hk. rewrite Z.land_spec, Z.bits_0, Z.pow2_bits_eqb by done.
    destruct (Z.eqb_spec i k) as [->|]; [by rewrite E|done].
Qed.

Lemma pow2_lt_31 i n : 0 <= i -> 2 ^ i < n -> n <= 2 ^ 30 -> i < 30.
Proof.
  intros Hi H1 H2. destruct (Z.lt_ge_cases i 30) as [|H]; [done|].
  pose proof (Z.pow_le_mono_r 2 30 i ltac:(lia) ltac:(lia)). lia.
Qed.

Lemma lowBitLoop_spec n r j a i fuel :
  lowAt r j a -> r < n -> 0 <= i <= j -> (Z.to_nat (j - i) < fuel)%nat ->
  lowBitLoop fuel (2 ^ i) n r = 2 ^ j.
Proof.
  intros Hl Hr. revert i. induction fuel as [|fuel IH]; intros i Hi Hf; [lia|]. cbn [lowBitLoop].
  assert (2 ^ i < n) as Hb.
  { destruct Hl as (Hj & Ha & ->). pose proof (Z.pow_le_mono_r 2 i j ltac:(lia) ltac:(lia)).
    assert (0 < 2 ^ j) by (apply Z.pow_pos_nonneg; lia). nia. }
  rewrite (proj2 (Z.ltb_lt _ _) Hb), land_pow2, (lowAt_bits r j a i Hl Hi) by lia.
  destruct (Z.eqb_spec i j) as [->|]; simpl; [done|].
  rewrite Z.shiftl_mul_pow2, <- Z.pow_add_r by lia. apply IH; lia.
Qed.

(** For the root the loop runs up to the size of the tree. *)
Lemma lowBitLoop_root n i m fuel :
  0 <= i <= m -> n <= 2 ^ m -> (i = m \/ 2 ^ (m - 1) < n) -> (Z.to_nat (m - i) < fuel)%nat ->
  lowBitLoop fuel (2 ^ i) n 0 = 2 ^ m.
Proof.
  intros Hi Hn Hm. revert i Hi Hm. induction fuel as [|fuel IH]; intros i Hi Hm Hf; [lia|]. cbn [lowBitLoop].
  rewrite Z.land_0_r. destruct (Z.eq_dec i m) as [->|Hne]; [by rewrite (proj2 (Z.ltb_ge _ _) Hn)|].
  destruct Hm as [|Hm]; [done|]. pose proof (Z.pow_le_mono_r 2 i (m - 1) ltac:(lia) ltac:(lia)).
  rewrite (proj2 (Z.ltb_lt _ _)) by lia. simpl. rewrite Z.shiftl_mul_pow2, <- Z.pow_add_r by lia.
  apply IH; [lia|by right|lia].
Qed.

(** The second child found by the loop. *)
Definition isDown1 (n r j x : Z) : Prop :=
  (exists i, 0 <= i < j /\ x = r + 2 ^ i /\ x < n /\ (i = j - 1 \/ n <= r + 2 ^ (i + 1))) \/
  (x = -1 /\ forall i, 0 <= i < j -> n <= r + 2 ^ i).

Lemma shiftr_pow2 i : 0 <= i -> Z.shiftr (2 ^ i) 1 = if i =? 0 then 0 else 2 ^ (i - 1).
Proof.
  intros Hi. rewrite Z.shiftr_div_pow2 by lia. zcase1; [by subst|].
  change (2 ^ 1) with 2. replace i with (i - 1 + 1) at 1 by lia. rewrite Z.pow_add_r by lia. by rewrite Z.div_mul.
Qed.

Lemma down1Loop_done n r fuel d l : d < n -> (0 < fuel)%nat -> down1Loop fuel d l n r = d.
Proof. intros Hd Hf. destruct fuel; [lia|]. cbn [down1Loop]. by rewrite (proj2 (Z.leb_gt _ _) Hd). Qed.

Lemma down1Loop_spec n r j i fuel d :
  0 <= r -> 0 <= i < j -> n <= d -> (i = j - 1 \/ n <= r + 2 ^ (i + 1)) -> (Z.to_nat i + 2 < fuel)%nat ->
  0 < n -> isDown1 n r j (down1Loop fuel d (2 ^ i) n r).
Proof.
  intros Hr. revert i d. induction fuel as [|fuel IH]; intros i d Hi Hd Hmax Hf Hn; [lia|]. cbn [down1Loop].
  assert (0 < 2 ^ i) as Hp by (apply Z.pow_pos_nonneg; lia).
  rewrite (proj2 (Z.leb_le _ _) Hd), (proj2 (Z.eqb_neq (2 ^ i) 0)), shiftr_pow2 by lia.
  destruct (Z.lt_ge_cases (r + 2 ^ i) n) as [Hlt|Hge].
  - rewrite down1Loop_done by (done || lia). left. by exists i.
  - destruct (Z.eqb_spec i 0) as [->|Hne].
    + destruct fuel as [|[|fuel]]; [lia|lia|]. cbn [down1Loop].
      rewrite (proj2 (Z.leb_le _ _) Hge). change (0 =? 0) with true. cbv iota.
      rewrite (proj2 (Z.leb_gt _ _)) by lia. right. split; [done|]. intros i Hi'.
      pose proof (Z.pow_le_mono_r 2 0 i ltac:(lia) ltac:(lia)). lia.
    + apply IH; [lia|done|right|lia|done]. by replace (i - 1 + 1) with i by lia.
Qed.

Lemma testbit_1_succ k : 0 <= k -> Z.testbit 1 (Z.succ k) = false.
Proof. intros Hk. apply (Z.pow2_bits_false 0). lia. Qed.

Section btree.
Context (n : Z) (Hn : 0 < n <= 2 ^ 30).

Lemma lowAt_lt r j a : lowAt r j a -> r < n -> 2 ^ j <= r /\ 0 < 2 ^ j /\ j < 30.
Proof.
  intros (Hj & Ha & ->) Hr. assert (0 < 2 ^ j) by (apply Z.pow_pos_nonneg; lia).
  assert (2 ^ j <= 2 ^ j * (2 * a + 1)) by nia. split_and!; [done|done|]. apply (pow2_lt_31 j n); lia.
Qed.

Lemma lowAt_bit r j a : lowAt r j a -> r < n -> lowBitLoop intBits 1 n r = 2 ^ j.
Proof.
  intros Hl Hr. destruct (lowAt_lt r j a Hl Hr) as (_ & _ & ?). pose proof Hl as (? & _).
  apply (lowBitLoop_spec n r j a 0); [done|done|lia|]. unfold intBits. lia.
Qed.

(** The parent's two candidates. *)
Lemma lxor_low r j a : lowAt r j a -> Z.lxor r (2 ^ j) = r - 2 ^ j.
Proof.
  intros (Hj & Ha & ->).
  replace (2 ^ j * (2 * a + 1)) with (Z.shiftl (2 * a + 1) j) by (rewrite Z.shiftl_mul_pow2; lia).
  replace (2 ^ j) with (Z.shiftl 1 j) by (rewrite Z.shiftl_mul_pow2; lia).
  rewrite <- Z.shiftl_lxor. replace (Z.lxor (2 * a + 1) 1) with (2 * a).
  - rewrite !Z.shiftl_mul_pow2 by lia. lia.
  - apply Z.bits_inj'. intros k Hk. rewrite Z.lxor_spec. destruct (Z.eq_dec k 0) as [->|].
    + by rewrite Z.testbit_even_0, Z.testbit_odd_0.
    + replace k with (Z.succ (k - 1)) by lia. rewrite Z.testbit_even_succ, Z.testbit_odd_succ by lia.
      rewrite testbit_1_succ by lia. by rewrite xorb_false_r.
Qed.

Lemma lor_low r j a :
  lowAt r j a -> Z.lor (r - 2 ^ j) (Z.shiftl (2 ^ j) 1) = if Z.even a then r + 2 ^ j else r - 2 ^ j.
Proof.
  intros (Hj & Ha & ->).
  assert (2 ^ (j + 1) = 2 ^ j * 2) as E by (rewrite Z.pow_add_r; lia).
  replace (2 ^ j * (2 * a + 1) - 2 ^ j) with (Z.shiftl a (j + 1)) by (rewrite Z.shiftl_mul_pow2; lia).
  replace (Z.shiftl (2 ^ j) 1) with (Z.shiftl 1 (j + 1)) by (rewrite !Z.shiftl_mul_pow2; lia).
  rewrite <- Z.shiftl_lor. replace (Z.lor a 1) with (if Z.even a then a + 1 else a).
  - destruct (Z.even a); rewrite !Z.shiftl_mul_pow2 by lia; lia.
  - pose proof (Z.div_mod a 2 ltac:(lia)) as D. pose proof (Zmod_even a) as M.
    apply Z.bits_inj'. intros k Hk. rewrite Z.lor_spec. destruct (Z.eq_dec k 0) as [->|].
    + change (Z.testbit 1 0) with true. rewrite orb_true_r, Z.bit0_odd, <- Z.negb_even.
      destruct (Z.even a) eqn:Ea; [|by rewrite Ea]. rewrite Z.add_1_r, Z.even_succ, <- Z.negb_even, Ea. done.
    + replace k with (Z.succ (k - 1)) by lia.
      rewrite testbit_1_succ, orb_false_r by lia.
      destruct (Z.even a) eqn:Ea; [|done].
      replace a with (2 * (a / 2)) by lia. by rewrite Z.testbit_odd_succ, Z.testbit_even_succ by lia.
Qed.

(** ** What the code computes *)

Context (pct : Z).
Local Abbreviation t r := (ncclGetBtree n r pct).

Definition btUp (r j a : Z) : Z := if Z.even a && (r + 2 ^ j <? n) then r + 2 ^ j else r - 2 ^ j.

Lemma btree_node r j a :
  lowAt r j a -> r < n ->
  tnUp (t r) = btUp r j a /\
  tnDown0 (t r) = (if j =? 0 then -1 else r - 2 ^ (j - 1)) /\
  (if j =? 0 then tnDown1 (t r) = -1 else isDown1 n r j (tnDown1 (t r))) /\
  tnType (t r) = (if r <? btUp r j a then 0 else 1).
Proof.
  intros Hl Hr. destruct (lowAt_lt r j a Hl Hr) as (Hle & Hp & Hj30). pose proof Hl as (Hj & Ha & _).
  unfold ncclGetBtree. rewrite (lowAt_bit r j a Hl Hr), (lxor_low r j a Hl), (lor_low r j a Hl), shiftr_pow2 by done.
  rewrite (proj2 (Z.eqb_neq r 0)) by lia. cbn [tnUp tnDown0 tnDown1 tnType].
  assert ((if n <=? (if Z.even a then r + 2 ^ j else r - 2 ^ j) then r - 2 ^ j
    else if Z.even a then r + 2 ^ j else r - 2 ^ j) = btUp r j a) as ->.
  { unfold btUp. destruct (Z.even a); simpl; zcases. }
  split; [done|]. destruct (Z.eqb_spec j 0) as [->|Hj0]; cbv iota.
  - change (0 =? 0) with true. cbv iota. split; [done|]. split; [|done].
    apply down1Loop_done; [|unfold intBits]; lia.
  - assert (0 < 2 ^ (j - 1)) by (apply Z.pow_pos_nonneg; lia).
    rewrite (proj2 (Z.eqb_neq (2 ^ (j - 1)) 0)) by lia. split; [done|]. split; [|done].
    destruct (Z.lt_ge_cases (r + 2 ^ (j - 1)) n) as [Hlt|Hge].
    + rewrite down1Loop_done by (done || unfold intBits; lia). left. exists (j - 1). split_and!; (done || lia).
    + apply down1Loop_spec; [lia|lia|done|by left|unfold intBits; lia|lia].
Qed.

Lemma btree_root m : 0 <= m -> 2 ^ m < n <= 2 ^ (m + 1) -> t 0 = {| tnUp := -1; tnDown0 := -1; tnDown1 := 2 ^ m; tnType := pct |}.
Proof.
  intros Hm H. pose proof (pow2_lt_31 m n ltac:(lia) ltac:(lia) ltac:(lia)).
  assert (0 < 2 ^ m) by (apply Z.pow_pos_nonneg; lia).
  unfold ncclGetBtree. change (0 =? 0) with true. cbv iota. rewrite (proj2 (Z.ltb_lt _ _)) by lia.
  rewrite (lowBitLoop_root n 0 (m + 1)); [|lia|lia|right; replace (m + 1 - 1) with m by lia; lia|unfold intBits; lia].
  rewrite shiftr_pow2, (proj2 (Z.eqb_neq _ _)) by lia. by replace (m + 1 - 1) with m by lia.
Qed.

Lemma pow2_below : 1 < n -> exists m, 0 <= m /\ 2 ^ m < n <= 2 ^ (m + 1).
Proof.
  intros H1. exists (Z.log2 (n - 1)). pose proof (Z.log2_spec (n - 1) ltac:(lia)) as [A B].
  pose proof (Z.log2_nonneg (n - 1)). rewrite Z.add_1_r. lia.
Qed.

Lemma isDown1_unique r j x y : isDown1 n r j x -> isDown1 n r j y -> x = y.
Proof.
  assert (forall i i', 0 <= i < j -> i' < i -> n <= r + 2 ^ (i' + 1) \/ i' = j - 1 -> 0 <= i' -> n <= r + 2 ^ i) as H.
  { intros i i' Hi Hlt Hm Hi'. destruct Hm; [|lia]. pose proof (Z.pow_le_mono_r 2 (i' + 1) i ltac:(lia) ltac:(lia)). lia. }
  intros [(i & Hi & -> & Hx & Hm)|[-> Hx]] [(i' & Hi' & -> & Hy & Hm')|[-> Hy]]; [| | |done].
  - destruct (Z.lt_trichotomy i i') as [L|[->|L]]; [|done|].
    + specialize (H i' i Hi' L ltac:(tauto) ltac:(lia)). lia.
    + specialize (H i i' Hi L ltac:(tauto) ltac:(lia)). lia.
  - specialize (Hy i Hi). lia.
  - specialize (Hx i' Hi'). lia.
Qed.

Lemma lowAt_unique r j a j' a' : lowAt r j a -> lowAt r j' a' -> j = j' /\ a = a'.
Proof.
  intros H H'. assert (j = j') as <-.
  { destruct (Z.lt_trichotomy j j') as [L|[|L]]; [|done|].
    - pose proof (lowAt_bits r j' a' j H' ltac:(destruct H; lia)) as E.
      pose proof (lowAt_bits r j a j H ltac:(destruct H; lia)) as E'. zcase1_in E; [lia|]. rewrite E', Z.eqb_refl in E. done.
    - pose proof (lowAt_bits r j a j' H ltac:(destruct H'; lia)) as E.
      pose proof (lowAt_bits r j' a' j' H' ltac:(destruct H'; lia)) as E'. zcase1_in E; [lia|]. rewrite E', Z.eqb_refl in E. done. }
  split; [done|]. destruct H as (Hj & Ha & ->), H' as (_ & Ha' & E).
  assert (0 < 2 ^ j) by (apply Z.pow_pos_nonneg; lia). nia.
Qed.

Lemma pow2_S j : 0 <= j -> 2 ^ (j + 1) = 2 * 2 ^ j.
Proof. intros. rewrite Z.pow_add_r by lia. lia. Qed.

Lemma lowAt_mul p j a i c : lowAt p j a -> p = 2 ^ i * c -> i <= j.
Proof.
  intros Hl E. destruct (Z.le_gt_cases i j) as [|Hlt]; [done|]. pose proof Hl as (Hj & _).
  pose proof (lowAt_bits p j a j Hl ltac:(lia)) as B. rewrite Z.eqb_refl, E, Z.mul_comm, Z.mul_pow2_bits_low in B by lia.
  done.
Qed.

(** The three shapes of a parent: above an even node, below an odd one, or
    below when there is nothing above. *)
Lemma btUp_cases r j a :
  lowAt r j a -> r < n ->
  (exists b, a = 2 * b /\ r + 2 ^ j < n /\ btUp r j a = r + 2 ^ j /\ lowAt (r + 2 ^ j) (j + 1) b) \/
  (exists b, a = 2 * b + 1 /\ btUp r j a = r - 2 ^ j /\ lowAt (r - 2 ^ j) (j + 1) b) \/
  (exists b, a = 2 * b /\ n <= r + 2 ^ j /\ btUp r j a = r - 2 ^ j).
Proof.
  intros (Hj & Ha & ->) Hr. pose proof (pow2_S j Hj) as Ep. pose proof (Zeven_div2 a) as Ev. unfold btUp.
  destruct (Z.Even_or_Odd a) as [[b Eb]|[b Eb]].
  - assert (Z.even a = true) as -> by (rewrite Eb, Z.even_mul; done). simpl.
    destruct (Z.ltb_spec (2 ^ j * (2 * a + 1) + 2 ^ j) n).
    + left. exists b. split_and!; [done|done|done|]. split_and!; [lia|lia|]. rewrite Ep. lia.
    + right; right. by exists b.
  - assert (Z.even a = false) as -> by (rewrite Eb, Z.even_add, Z.even_mul; done). simpl.
    right; left. exists b. split_and!; [done|done|]. split_and!; [lia|lia|]. rewrite Ep. lia.
Qed.

Lemma node_exists r : 0 < r < n -> exists j a, lowAt r j a.
Proof. intros H. apply lowAt_exists. lia. Qed.

(** A node is a child of its parent, on the side its type says. *)
Lemma child_of_up r j a :
  lowAt r j a -> r < n ->
  0 <= tnUp (t r) < n /\
  (tnType (t r) = 0 /\ tnDown0 (t (tnUp (t r))) = r \/ tnType (t r) = 1 /\ tnDown1 (t (tnUp (t r))) = r).
Proof.
  intros Hl Hr. destruct (btree_node r j a Hl Hr) as (-> & _ & _ & ->).
  destruct (lowAt_lt r j a Hl Hr) as (Hle & Hp & Hj30). pose proof Hl as (Hj & Ha & Er).
  destruct (btUp_cases r j a Hl Hr) as [(b & -> & Hlt & -> & Hl')|[(b & -> & -> & Hl')|(b & -> & Hge & ->)]].
  - split; [lia|left]. rewrite (proj2 (Z.ltb_lt _ _)) by lia. split; [done|].
    destruct (btree_node _ _ _ Hl' Hlt) as (_ & -> & _). rewrite (proj2 (Z.eqb_neq _ _)) by lia.
    replace (j + 1 - 1) with j by lia. lia.
  - split; [lia|right]. rewrite (proj2 (Z.ltb_ge _ _)) by lia. split; [done|].
    destruct (btree_node _ _ _ Hl' ltac:(lia)) as (_ & _ & Hd & _). rewrite (proj2 (Z.eqb_neq _ _)) in Hd by lia.
    apply (isDown1_unique _ _ _ _ Hd). left. exists j. split_and!; [lia|lia|lia|lia|left; lia].
  - split; [lia|right]. rewrite (proj2 (Z.ltb_ge _ _)) by lia. split; [done|].
    destruct (Z.eq_dec b 0) as [->|Hb].
    + assert (r = 2 ^ j) as -> by lia. rewrite Z.sub_diag. rewrite (btree_root j); [done|lia|]. rewrite pow2_S; lia.
    + destruct (lowAt_exists (r - 2 ^ j)) as (j' & b' & Hl'); [nia|].
      assert (j + 2 <= j') as Hjj.
      { apply (lowAt_mul _ _ _ _ b Hl'). rewrite Er. replace (j + 2) with (j + 1 + 1) by lia. rewrite !pow2_S by lia. lia. }
      destruct (btree_node _ _ _ Hl' ltac:(lia)) as (_ & _ & Hd & _). rewrite (proj2 (Z.eqb_neq _ _)) in Hd by lia.
      apply (isDown1_unique _ _ _ _ Hd). left. exists j. rewrite pow2_S by lia. split_and!; [lia|lia|lia|lia|right; lia].
Qed.

(** A first child has the node as its parent. *)
Lemma up_of_down0 p r :
  0 <= p < n -> 0 <= r -> tnDown0 (t p) = r -> 0 < r < n /\ tnUp (t r) = p /\ tnType (t r) = 0.
Proof.
  intros Hp Hr Hd. destruct (Z.eq_dec p 0) as [->|Hp0].
  { unfold ncclGetBtree in Hd. change (0 =? 0) with true in Hd. cbn [tnDown0] in Hd. lia. }
  destruct (node_exists p ltac:(lia)) as (j & a & Hl). destruct (btree_node p j a Hl ltac:(lia)) as (_ & E & _).
  rewrite E in Hd. destruct (Z.eqb_spec j 0) as [|Hj0]; [lia|].
  destruct (lowAt_lt p j a Hl ltac:(lia)) as (Hle & _). pose proof Hl as (Hj & Ha & Ep).
  pose proof (pow2_S (j - 1) ltac:(lia)) as E2. replace (j - 1 + 1) with j in E2 by lia.
  assert (0 < 2 ^ (j - 1)) by (apply Z.pow_pos_nonneg; lia).
  assert (lowAt r (j - 1) (2 * a)) as Hl' by (split_and!; lia). split; [lia|].
  destruct (btree_node r _ _ Hl' ltac:(lia)) as (-> & _ & _ & ->). unfold btUp.
  assert (Z.even (2 * a) = true) as -> by (rewrite Z.even_mul; done). simpl andb.
  rewrite (proj2 (Z.ltb_lt (r + 2 ^ (j - 1)) n)), (proj2 (Z.ltb_lt r _)) by lia. lia.
Qed.

Lemma up_of_down1 p r :
  0 <= p < n -> 0 <= r -> tnDown1 (t p) = r -> 0 < r < n /\ tnUp (t r) = p /\ tnType (t r) = 1.
Proof.
  intros Hp Hr Hd. assert (exists i a, 0 <= i /\ lowAt r i a /\ p = r - 2 ^ i /\ 0 < r < n /\
    (Z.even a = false \/ n <= r + 2 ^ i)) as (i & a & Hi & Hl & -> & Hr' & Hc).
  { destruct (Z.eq_dec p 0) as [->|Hp0].
    - destruct (Z.eq_dec n 1) as [E1|]; [rewrite E1 in Hd; simpl in Hd; lia|].
      destruct (pow2_below ltac:(lia)) as (m & Hm & Hb). rewrite (btree_root m Hm Hb) in Hd. simpl in Hd.
      exists m, 0. rewrite pow2_S in Hb by lia. assert (0 < 2 ^ m) by (apply Z.pow_pos_nonneg; lia).
      split_and!; [lia|split_and!; lia|lia|lia|lia|right; lia].
    - destruct (node_exists p ltac:(lia)) as (j & a & Hl). pose proof Hl as (Hj & Ha & Ep).
      destruct (btree_node p j a Hl ltac:(lia)) as (_ & _ & H & _). destruct (Z.eqb_spec j 0) as [|Hj0]; [lia|].
      rewrite Hd in H. destruct H as [(i & Hi & -> & Hlt & Hm)|[? _]]; [|lia].
      assert (0 < 2 ^ i) by (apply Z.pow_pos_nonneg; lia).
      assert (p = 2 ^ (i + 1) * (2 ^ (j - i - 1) * (2 * a + 1))) as Ep'.
      { rewrite Z.mul_assoc, <- Z.pow_add_r by lia. by replace (i + 1 + (j - i - 1)) with j by lia. }
      rewrite pow2_S in Ep' by lia. exists i, (2 ^ (j - i - 1) * (2 * a + 1)).
      assert (0 < 2 ^ (j - i - 1)) by (apply Z.pow_pos_nonneg; lia).
      split_and!; [lia|split_and!; [lia|nia|lia]|lia|lia|lia|].
      destruct Hm as [->|Hm]; [left|right; rewrite pow2_S in Hm by lia; lia].
      replace (j - (j - 1) - 1) with 0 by lia. rewrite Z.even_mul, Z.even_add, Z.even_mul. done. }
  split; [done|]. destruct (btree_node r i a Hl ltac:(lia)) as (-> & _ & _ & ->).
  assert (0 < 2 ^ i) by (apply Z.pow_pos_nonneg; lia).
  assert (btUp r i a = r - 2 ^ i) as ->; [|by rewrite (proj2 (Z.ltb_ge _ _)) by lia].
  unfold btUp. destruct Hc as [->|Hc]; [done|]. rewrite (proj2 (Z.ltb_ge _ _) Hc). by rewrite andb_false_r.
Qed.

(** Parents have a higher lowest bit. *)
Lemma btUp_low r j a : lowAt r j a -> r < n -> exists c, btUp r j a = 2 ^ (j + 1) * c.
Proof.
  intros Hl Hr. pose proof Hl as (Hj & Ha & Er).
  destruct (btUp_cases r j a Hl Hr) as [(b & _ & _ & -> & _ & _ & ->)|[(b & _ & -> & _ & _ & ->)|(b & -> & _ & ->)]];
    [by eexists..|]. exists (2 * b). rewrite Er, pow2_S by lia. lia.
Qed.

Definition btDepth (r : Z) : nat :=
  if r =? 0 then 0 else intBits - Z.to_nat (Z.log2 (lowBitLoop intBits 1 n r)).

Lemma btDepth_low r j a : lowAt r j a -> r < n -> btDepth r = (intBits - Z.to_nat j)%nat.
Proof.
  intros Hl Hr. destruct (lowAt_lt r j a Hl Hr) as (? & ? & ?). pose proof Hl as (Hj & _). unfold btDepth.
  rewrite (proj2 (Z.eqb_neq r 0)), (lowAt_bit r j a Hl Hr), Z.log2_pow2 by lia. done.
Qed.

Lemma btDepth_up r j a : lowAt r j a -> r < n -> (btDepth (tnUp (t r)) < btDepth r)%nat.
Proof.
  intros Hl Hr. destruct (lowAt_lt r j a Hl Hr) as (? & ? & ?). pose proof Hl as (Hj & _).
  rewrite (btDepth_low r j a Hl Hr). destruct (child_of_up r j a Hl Hr) as [Hup _].
  destruct (btree_node r j a Hl Hr) as (E & _). destruct (btUp_low r j a Hl Hr) as (c & Ec). rewrite <- E in Ec.
  destruct (Z.eq_dec (tnUp (t r)) 0) as [->|Hne]; [unfold btDepth, intBits; simpl; lia|].
  destruct (node_exists (tnUp (t r)) ltac:(lia)) as (j' & b & Hl'). pose proof (lowAt_mul _ _ _ _ _ Hl' Ec).
  rewrite (btDepth_low _ j' b Hl') by lia. destruct (lowAt_lt _ _ _ Hl' ltac:(lia)) as (_ & _ & ?). unfold intBits. lia.
Qed.

Lemma btree_isTree : isTree n 0 (fun r => ncclGetBtree n r pct).
Proof.
  split.
  - split; [lia|]. unfold ncclGetBtree. done.
  - intros r Hr Hr0. destruct (node_exists r ltac:(lia)) as (j & a & Hl). apply (child_of_up r j a Hl). lia.
  - intros r Hr Hr0. destruct (node_exists r ltac:(lia)) as (j & a & Hl).
    destruct (btree_node r j a Hl ltac:(lia)) as (_ & _ & _ & ->). destruct (_ <? _); auto.
  - intros p Hp. split.
    + destruct (Z.le_gt_cases 0 (tnDown0 (t p))) as [H|H]; [right|left].
      * destruct (up_of_down0 p _ Hp H eq_refl). lia.
      * destruct (Z.eq_dec p 0) as [->|]; [done|]. destruct (node_exists p ltac:(lia)) as (j & a & Hl).
        destruct (btree_node p j a Hl ltac:(lia)) as (_ & E & _). rewrite E in *. destruct (Z.eqb_spec j 0); [done|].
        destruct (lowAt_lt p j a Hl ltac:(lia)) as (? & _ & _). pose proof Hl as (Hj & _).
        pose proof (Z.pow_le_mono_r 2 (j - 1) j ltac:(lia) ltac:(lia)). lia.
    + destruct (Z.le_gt_cases 0 (tnDown1 (t p))) as [H|H]; [right|left].
      * destruct (up_of_down1 p _ Hp H eq_refl). lia.
      * destruct (Z.eq_dec p 0) as [->|].
        -- destruct (Z.eq_dec n 1) as [->|]; [done|]. destruct (pow2_below ltac:(lia)) as (m & Hm & Hb).
           rewrite (btree_root m Hm Hb) in H |- *. simpl in *. pose proof (Z.pow_pos_nonneg 2 m). lia.
        -- destruct (node_exists p ltac:(lia)) as (j & a & Hl).
           destruct (btree_node p j a Hl ltac:(lia)) as (_ & _ & E & _). destruct (Z.eqb_spec j 0); [done|].
           destruct E as [(i & Hi & E & _)|[E _]]; [|done]. pose proof (Z.pow_pos_nonneg 2 i). lia.
  - intros p r Hp Hr. split.
    + intros H. destruct (up_of_down0 p r Hp ltac:(lia) H) as (? & ? & ?). split_and!; (done || lia).
    + intros (Hr0 & <- & Ht). destruct (node_exists r ltac:(lia)) as (j & a & Hl).
      destruct (child_of_up r j a Hl ltac:(lia)) as [_ [[_ ?]|[? _]]]; [done|lia].
  - intros p r Hp Hr. split.
    + intros H. destruct (up_of_down1 p r Hp ltac:(lia) H) as (? & ? & ?). split_and!; (done || lia).
    + intros (Hr0 & <- & Ht). destruct (node_exists r ltac:(lia)) as (j & a & Hl).
      destruct (child_of_up r j a Hl ltac:(lia)) as [_ [[? _]|[_ ?]]]; [lia|done].
  - exists btDepth. intros r. split; [unfold btDepth; destruct (r =? 0); lia|]. intros Hr Hr0.
    destruct (node_exists r ltac:(lia)) as (j & a & Hl). apply (btDepth_up r j a Hl). lia.
Qed.
End btree.

Lemma isTree_up n root t r : isTree n root t -> 0 <= r < n -> tnUp (t r) = -1 \/ 0 <= tnUp (t r) < n.
Proof.
  intros H Hr. destruct (Z.eq_dec r root) as [->|Hne]; [left; apply (tree_root _ _ _ H)|right; by apply (tree_up _ _ _ H)].
Qed.

Lemma isTree_ext n root t t' : (forall r, t r = t' r) -> isTree n root t -> isTree n root t'.
Proof.
  intros E H. destruct H as [H1 H2 H3 H4 H5 H6 H7].
  split; [by rewrite <- E|intros *; rewrite <- ?E; eauto..|].
  destruct H7 as (d & Hd). exists d. intros r. rewrite <- E. apply Hd.
Qed.

(** A renaming of the nodes of a tree is a tree. *)
Lemma isTree_rename n root t (g h : Z -> Z) :
  isTree n root t ->
  (forall r, 0 <= r < n -> 0 <= g r < n /\ 0 <= h r < n /\ g (h r) = r /\ h (g r) = r) ->
  let move x := if x =? -1 then -1 else h x in
  isTree n (h root) (fun r =>
    {| tnUp := move (tnUp (t (g r))); tnDown0 := move (tnDown0 (t (g r))); tnDown1 := move (tnDown1 (t (g r)));
       tnType := tnType (t (g r)) |}).
Proof.
  intros [[Hroot [Hr1 Hr2]] Hup Hty Hdown Hd0 Hd1 (d & Hd)] Hgh move.
  assert (forall r, 0 <= r < n -> r <> h root -> 0 <= g r < n /\ g r <> root) as Hg.
  { intros r Hr Hne. destruct (Hgh r Hr) as (H1 & _ & _ & H2). split; [done|]. intros E. by rewrite E in H2. }
  assert (forall x r, x = -1 \/ 0 <= x < n -> 0 <= r < n -> move x = r <-> x = g r) as Hmove.
  { intros x r Hx Hr. destruct (Hgh r Hr) as (H1 & _ & _ & H2). unfold move.
    destruct (Z.eqb_spec x (-1)) as [->|]; [lia|]. split; [|by intros ->].
    intros <-. symmetry. apply Hgh. lia. }
  assert (forall x, x = -1 \/ 0 <= x < n -> move x = -1 \/ 0 <= move x < n) as Hrange.
  { intros x Hx. unfold move. destruct (Z.eqb_spec x (-1)); [by left|right]. apply Hgh. lia. }
  destruct (Hgh root Hroot) as (_ & Hroot' & Egh & _). split; cbn [tnUp tnDown0 tnDown1 tnType].
  - split; [done|]. by rewrite Egh, Hr1, Hr2.
  - intros r Hr Hne. destruct (Hg r Hr Hne) as [H1 H2]. pose proof (Hup _ H1 H2) as Hu. unfold move.
    destruct (Z.eqb_spec (tnUp (t (g r))) (-1)); [lia|]. by apply Hgh.
  - intros r Hr Hne. destruct (Hg r Hr Hne). by apply Hty.
  - intros r Hr. destruct (Hgh r Hr) as (H1 & _). destruct (Hdown _ H1). split; by apply Hrange.
  - intros p r Hp Hr. destruct (Hgh p Hp) as (Hgp & _ & _ & Ehp). destruct (Hgh r Hr) as (Hgr & _ & _ & Ehr).
    rewrite Hmove by (done || by apply Hdown). rewrite Hd0 by done.
    assert (g r <> root <-> r <> h root) as -> by (split; intros H E; apply H; congruence).
    split; intros (H1 & H2 & H3); (split; [done|]; split; [|done]).
    + apply Hmove; [|done|done]. right. apply Hup; [done|]. by apply Hg.
    + apply Hmove in H2; [done| |done]. right. apply Hup; [done|]. by apply Hg.
  - intros p r Hp Hr. destruct (Hgh p Hp) as (Hgp & _ & _ & Ehp). destruct (Hgh r Hr) as (Hgr & _ & _ & Ehr).
    rewrite Hmove by (done || by apply Hdown). rewrite Hd1 by done.
    assert (g r <> root <-> r <> h root) as -> by (split; intros H E; apply H; congruence).
    split; intros (H1 & H2 & H3); (split; [done|]; split; [|done]).
    + apply Hmove; [|done|done]. right. apply Hup; [done|]. by apply Hg.
    + apply Hmove in H2; [done| |done]. right. apply Hup; [done|]. by apply Hg.
  - exists (fun r => d (g r)). intros r. split; [apply Hd|]. intros Hr Hne. destruct (Hg r Hr Hne) as [H1 H2].
    pose proof (Hup _ H1 H2) as Hu. unfold move. rewrite (proj2 (Z.eqb_neq _ _)) by lia.
    destruct (Hgh _ Hu) as (_ & _ & -> & _). by apply Hd.
Qed.

(** The root of the second tree. *)
Definition root1 (n : Z) : Z := if Z.rem n 2 =? 1 then Z.rem 1 n else n - 1.

Lemma rem_mod_pos a b : 0 <= a -> 0 < b -> Z.rem a b = a mod b.
Proof. intros. apply Z.rem_mod_nonneg; lia. Qed.

(** The second tree is the first with its nodes shifted or mirrored. *)
Definition back1 (n r : Z) : Z := if Z.rem n 2 =? 1 then Z.rem (r - 1 + n) n else n - 1 - r.

Lemma back1_spec n r :
  0 < n -> 0 <= r < n -> 0 <= back1 n r < n /\ (if Z.rem n 2 =? 1 then back1 n r = (if r =? 0 then n - 1 else r - 1) else back1 n r = n - 1 - r).
Proof.
  intros Hn Hr. unfold back1. destruct (Z.rem n 2 =? 1); [|lia].
  rewrite rem_mod_pos by lia. destruct (Z.eqb_spec r 0) as [->|].
  - rewrite Z.mod_small; lia.
  - replace (r - 1 + n) with (r - 1 + 1 * n) by lia. rewrite Z.mod_add, Z.mod_small; lia.
Qed.

Lemma dtree_snd n r p0 p1 :
  snd (ncclGetDtree n r p0 p1) =
  let t := ncclGetBtree n (back1 n r) p1 in
  let move x := if x =? -1 then -1 else (if Z.rem n 2 =? 1 then Z.rem (x + 1) n else n - 1 - x) in
  {| tnUp := move (tnUp t); tnDown0 := move (tnDown0 t); tnDown1 := move (tnDown1 t); tnType := tnType t |}.
Proof. unfold ncclGetDtree, back1. cbn [snd]. by destruct (Z.rem n 2 =? 1). Qed.

(** In the first tree exactly the odd nodes are leaves. *)
Definition interior (t : treeNode) : Prop := tnDown0 t <> -1 \/ tnDown1 t <> -1.

Lemma btree_leaf n r pct : 0 < n <= 2 ^ 30 -> 0 <= r < n -> interior (ncclGetBtree n r pct) -> Z.even r = true.
Proof.
  intros Hn Hr Hi. destruct (Z.eq_dec r 0) as [->|]; [done|]. destruct (node_exists n r ltac:(lia)) as (j & a & Hl).
  destruct (btree_node n Hn pct r j a Hl ltac:(lia)) as (_ & H0 & H1 & _).
  destruct (Z.eqb_spec j 0) as [->|Hj]; [destruct Hi; congruence|].
  destruct Hl as (Hj' & _ & ->). replace j with (j - 1 + 1) by lia. rewrite pow2_S, !Z.even_mul by lia. done.
Qed.

Lemma dtree_isTree n pct0 pct1 :
  0 < n <= 2 ^ 30 ->
  isTree n 0 (fun r => fst (ncclGetDtree n r pct0 pct1)) /\ isTree n (root1 n) (fun r => snd (ncclGetDtree n r pct0 pct1)).
Proof.
  intros Hn. split; [apply (btree_isTree n Hn pct0)|].
  set (h x := if Z.rem n 2 =? 1 then Z.rem (x + 1) n else n - 1 - x).
  pose proof (isTree_rename n 0 _ (back1 n) h (btree_isTree n Hn pct1)) as L.
  assert (root1 n = h 0) as ->. { unfold root1, h. destruct (_ =? 1); [done|lia]. }
  assert (forall r, snd (ncclGetDtree n r pct0 pct1) = let t := ncclGetBtree n (back1 n r) pct1 in
    let move x := if x =? -1 then -1 else h x in
    {| tnUp := move (tnUp t); tnDown0 := move (tnDown0 t); tnDown1 := move (tnDown1 t); tnType := tnType t |}) as E
    by (intros r; apply dtree_snd).
  assert (forall r, 0 <= r < n -> 0 <= h r < n /\ (if Z.rem n 2 =? 1 then h r = (if r =? n - 1 then 0 else r + 1) else h r = n - 1 - r)) as Hh.
  { intros r Hr. unfold h. destruct (Z.rem n 2 =? 1); [|lia]. rewrite rem_mod_pos by lia.
    destruct (Z.eqb_spec r (n - 1)) as [->|].
    - replace (n - 1 + 1) with n by lia. rewrite Z.mod_same; lia.
    - rewrite Z.mod_small; lia. }
  eapply isTree_ext; [intros r; symmetry; apply E|]. apply L. intros r Hr.
  destruct (back1_spec n r ltac:(lia) Hr) as [H1 H2]. destruct (Hh r Hr) as [H3 H4].
  destruct (back1_spec n (h r) ltac:(lia) H3) as [_ H5]. destruct (Hh (back1 n r) H1) as [_ H6].
  destruct (Z.rem n 2 =? 1); split_and!; try lia; zcase1_in H2; zcase1_in H4; zcase1_in H5; zcase1_in H6; lia.
Qed.

(** C38: the parent and children each rank computes for itself fit together: in
    both trees of the double binary tree every rank but the root has its parent
    among the ranks and is the first or second child of that parent as its
    child type says, every child a rank names has that rank as its parent, and
    following parents ends at the root. *)
Theorem ncclGetDtree_trees n pct0 pct1 :
  0 < n <= 2 ^ 30 ->
  isTree n 0 (fun r => fst (ncclGetDtree n r pct0 pct1)) /\ isTree n (root1 n) (fun r => snd (ncclGetDtree n r pct0 pct1)).
Proof. apply dtree_isTree. Qed.

(** the two trees share the work: when the number of ranks is even no rank
    has children in both trees, and when it is odd only rank 0 may. *)
Lemma ncclGetDtree_balanced n r pct0 pct1 :
  0 < n <= 2 ^ 30 -> 0 <= r < n ->
  interior (fst (ncclGetDtree n r pct0 pct1)) -> interior (snd (ncclGetDtree n r pct0 pct1)) ->
  n mod 2 = 1 /\ r = 0.
Proof.
  intros Hn Hr H0 H1. apply (btree_leaf n r pct0 Hn Hr) in H0. rewrite dtree_snd in H1.
  destruct (back1_spec n r ltac:(lia) Hr) as [Hb Eb].
  assert (Z.even (back1 n r) = true) as H1'.
  { apply (btree_leaf n _ pct1 Hn Hb). unfold interior in *. cbn in H1.
    destruct H1 as [H|H]; [left|right]; intros E; by rewrite E in H. }
  rewrite rem_mod_pos in Eb by lia. apply Zeven_bool_iff, Zeven_ex in H0 as [x Ex]. apply Zeven_bool_iff, Zeven_ex in H1' as [y Ey].
  pose proof (Z.div_mod n 2 ltac:(lia)). pose proof (Z.mod_pos_bound n 2 ltac:(lia)).
  zcase1_in Eb; [|lia]. zcase1_in Eb; lia.
Qed.

Lemma ncclGetDtree_trees_witness :
  isTree 14 0 (fun r => fst (ncclGetDtree 14 r 0 0)) /\ isTree 14 13 (fun r => snd (ncclGetDtree 14 r 0 0)).
Proof. apply (ncclGetDtree_trees 14 0 0). lia. Defined.

Lemma ncclGetDtree_balanced_example :
  interior (fst (ncclGetDtree 13 0 0 0)) /\ interior (snd (ncclGetDtree 13 0 0 0)) /\ 13 mod 2 = 1 /\ 0 = 0.
Proof.
  assert (interior (fst (ncclGetDtree 13 0 0 0))) as H0 by (right; vm_compute; discriminate).
  assert (interior (snd (ncclGetDtree 13 0 0 0))) as H1 by (left; vm_compute; discriminate).
  split; [exact H0|]. split; [exact H1|]. apply (ncclGetDtree_balanced 13 0 0 0); [lia|lia|exact H0|exact H1].
Defined.
