(* ===== verification/TreeColl.v ===== *)
(** * Tree AllReduce (src/src/device/all_reduce.h)

    Contributions are reduced up the tree and the result is sent back down.
    [runTreeUpDown] does one after the other on all elements; [runTreeSplit]
    splits the threads of a rank into a group that reduces up and a group that
    broadcasts down at the same time, on the same buffers. *)

From stdpp Require Import base numbers list relations.
From Stdlib Require Import ZArith Lia.
From S2P Require Import Prelude Bitops Prims Net DevWork Loops RingNet PhaseNet RingColl.

Local Open Scope Z_scope.

(** ** The kernels *)

(* src/src/include/device.h:193-193 NCCL_MAX_TREE_ARITY_TOP *)
Definition NCCL_MAX_TREE_ARITY_TOP : nat := 2.
(* src/src/include/device.h:195-195 NCCL_MAX_TREE_ARITY *)
Definition NCCL_MAX_TREE_ARITY : nat := 3.

(* src/src/include/device.h:196-200 ncclTree *)
Record ncclTree := { treeDepth : Z; up : Z; down : list Z }.

(** [while (n < Max && peers[n] != -1) n++]: the peers of a fan. *)
(* src/src/device/prims_simple.h:628-634 Primitives *)
Fixpoint fanPeers (max : nat) (peers : list Z) : list Z :=
  match max, peers with
  | S max, p :: peers => if p =? -1 then [] else p :: fanPeers max peers
  | _, _ => []
  end.

(** What a tree kernel reads: the tree of the channel, its part of the
    collective, the primitives for given peers, and which process of a peer
    serves the way up and the way down. *)
Record treeEnv := {
  te_tree : ncclTree;
  te_part : cbdPart;
  te_prims : list nat -> list nat -> Primitives;
  te_upProc : Z -> nat;
  te_downProc : Z -> nat }.

Section kernels.
Context (e : treeEnv).
Let tree := te_tree e.

(** The loop all branches share; [body] sees [offset] and [nelem]. *)
Definition treeLoop (body : Z -> Z -> list sliceOp) : list sliceOp :=
  let channelCount := partCount (te_part e) in
  let chunkCount := chunkCount (te_part e) in
  forElems (loopFuel channelCount chunkCount) 0 channelCount chunkCount (fun elemOffset =>
    body (partOffset (te_part e) + elemOffset) (cwrap i32 (Z.min chunkCount (channelCount - elemOffset)))).

Definition isLeaf : bool := match down tree with d :: _ => d =? -1 | [] => true end.

(* src/src/device/all_reduce.h:85-143 runTreeUpDown *)
Definition runTreeUpDown : list sliceOp :=
  (let prims := te_prims e (map (te_upProc e) (fanPeers NCCL_MAX_TREE_ARITY (down tree)))
                           (map (te_upProc e) (fanPeers 1 [up tree])) in
   if up tree =? -1 then
     treeLoop (fun offset nelem => directRecvReduceCopy prims offset offset nelem true)
   else if isLeaf then
     treeLoop (fun offset nelem => directSend prims offset offset nelem)
   else
     treeLoop (fun offset nelem => directRecvReduceDirectSend prims offset offset nelem)) ++
  (let prims := te_prims e (map (te_downProc e) (fanPeers 1 [up tree]))
                           (map (te_downProc e) (fanPeers NCCL_MAX_TREE_ARITY (down tree))) in
   if up tree =? -1 then
     treeLoop (fun offset nelem => directSendFromOutput prims offset nelem)
   else if isLeaf then
     treeLoop (fun offset nelem => directRecv prims offset nelem)
   else
     treeLoop (fun offset nelem => directRecvCopyDirectSend prims offset offset nelem)).

(** [reduceGroup] is [tid < nthreadsSplit]; at the root all threads work together. *)
(* src/src/device/all_reduce.h:145-225 runTreeSplit *)
Definition runTreeSplit (reduceGroup : bool) : list sliceOp :=
  if up tree =? -1 then
    let prims := te_prims e (map (te_upProc e) (fanPeers NCCL_MAX_TREE_ARITY_TOP (down tree)))
                            (map (te_downProc e) (fanPeers NCCL_MAX_TREE_ARITY_TOP (down tree))) in
    treeLoop (fun offset nelem => directRecvReduceCopyDirectSend prims offset offset nelem true)
  else if reduceGroup then
    let prims := te_prims e (map (te_upProc e) (fanPeers NCCL_MAX_TREE_ARITY (down tree)))
                            (map (te_upProc e) (fanPeers 1 [up tree])) in
    if isLeaf then
      treeLoop (fun offset nelem => directSend prims offset offset nelem)
    else
      treeLoop (fun offset nelem => directRecvReduceDirectSend prims offset offset nelem)
  else
    let prims := te_prims e (map (te_downProc e) (fanPeers 1 [up tree]))
                            (map (te_downProc e) (fanPeers NCCL_MAX_TREE_ARITY (down tree))) in
    if isLeaf then
      treeLoop (fun offset nelem => directRecv prims offset nelem)
    else
      treeLoop (fun offset nelem => directRecvCopyDirectSend prims offset offset nelem).

(** The threads of the group that reduces. *)
(* src/src/device/all_reduce.h:155-164 runTreeSplit *)
Definition nthreadsSplit (simple : bool) (nthreads WARP_SIZE : Z) : Z :=
  if simple then
    let s := Z.quot nthreads 2 in if 256 <=? s then s + 64 else s
  else Z.quot (nthreads * 7) (10 * WARP_SIZE) * WARP_SIZE.
End kernels.

(** ** Trees over ranks *)

Definition children (t : ncclTree) : list nat := map Z.to_nat (fanPeers NCCL_MAX_TREE_ARITY (down t)).
Arguments children : simpl never.

(** The ranks' trees fit together: every rank but the root has its parent among
    the ranks, nearer to the root, and the children of a rank are exactly the
    ranks whose parent it is.  The root has at most two children. *)
Class TreeOk (n root : nat) (T : nat -> ncclTree) (depth : nat -> nat) : Prop := {
  to_root : (root < n)%nat /\ up (T root) = -1;
  to_arity r : (r < n)%nat -> length (down (T r)) = NCCL_MAX_TREE_ARITY;
  to_top : fanPeers NCCL_MAX_TREE_ARITY_TOP (down (T root)) = fanPeers NCCL_MAX_TREE_ARITY (down (T root));
  to_up r : (r < n)%nat -> r <> root ->
    exists p, (p < n)%nat /\ up (T r) = Z.of_nat p /\ r ∈ children (T p) /\ (depth p < depth r)%nat;
  to_down p c : (p < n)%nat -> Z.of_nat c ∈ fanPeers NCCL_MAX_TREE_ARITY (down (T p)) ->
    (c < n)%nat /\ c <> root /\ up (T c) = Z.of_nat p;
  to_ranks p x : (p < n)%nat -> x ∈ fanPeers NCCL_MAX_TREE_ARITY (down (T p)) -> 0 <= x;
  to_nodup p : (p < n)%nat -> NoDup (children (T p)) }.

Section treeFacts.
Context {n root : nat} {T : nat -> ncclTree} {depth : nat -> nat} {TO : TreeOk n root T depth}.

Definition parent (r : nat) : nat := Z.to_nat (up (T r)).

Lemma fan_children p : (p < n)%nat -> fanPeers NCCL_MAX_TREE_ARITY (down (T p)) = map Z.of_nat (children (T p)).
Proof.
  intros Hp. unfold children. rewrite map_map. rewrite <- (map_id (fanPeers _ _)) at 1. apply map_ext_in.
  intros x Hx%list_elem_of_In. pose proof (to_ranks p x Hp Hx). lia.
Qed.

Lemma child_spec p c : (p < n)%nat -> c ∈ children (T p) <-> (c < n)%nat /\ c <> root /\ parent c = p.
Proof.
  intros Hp. split.
  - intros Hc. assert (Z.of_nat c ∈ fanPeers NCCL_MAX_TREE_ARITY (down (T p))) as Hc'.
    { rewrite fan_children by done. apply list_elem_of_fmap. by exists c. }
    destruct (to_down p c Hp Hc') as (H1 & H2 & H3). split_and!; [done|done|]. unfold parent. rewrite H3. lia.
  - intros (Hc & Hr & <-). destruct (to_up c Hc Hr) as (p' & Hp' & E & Hin & _). unfold parent.
    by rewrite E, Nat2Z.id.
Qed.

Lemma parent_spec r :
  (r < n)%nat -> r <> root -> (parent r < n)%nat /\ up (T r) = Z.of_nat (parent r) /\ (depth (parent r) < depth r)%nat.
Proof.
  intros Hr Hne. destruct (to_up r Hr Hne) as (p & Hp & E & _ & Hd). unfold parent. rewrite E, Nat2Z.id. done.
Qed.

Lemma up_root r : (r < n)%nat -> (up (T r) =? -1) = (r =? root)%nat.
Proof.
  intros Hr. destruct (Nat.eqb_spec r root) as [->|Hne]; [by destruct to_root as [_ ->]|].
  apply Z.eqb_neq. destruct (parent_spec r Hr Hne) as (_ & -> & _). lia.
Qed.

Lemma leaf_children r : (r < n)%nat -> match down (T r) with d :: _ => d =? -1 | [] => true end = true <-> children (T r) = [].
Proof.
  intros Hr. unfold children. pose proof (to_arity r Hr) as Hl. destruct (down (T r)) as [|d l]; [done|].
  cbn. destruct (d =? -1); done.
Qed.

(** ** Reduction up a tree *)

Context {A : Type} (op : A -> A -> A) (f : nat -> A) (D : nat) (HD : forall r, (depth r <= D)%nat).

(** What rank [r] passes up: its own value reduced with its children's, in
    their order.  The fuel bounds the height. *)
Fixpoint treeFold (fuel : nat) (r : nat) : A :=
  match fuel with
  | O => f r
  | S fuel => fold_left op (map (treeFold fuel) (children (T r))) (f r)
  end.

Definition treeReduce (r : nat) : A := treeFold (S D) r.

(** The ranks below [r], itself first. *)
Fixpoint treeRanks (fuel : nat) (r : nat) : list nat :=
  match fuel with
  | O => [r]
  | S fuel => r :: flat_map (treeRanks fuel) (children (T r))
  end.

Lemma child_depth r c : (r < n)%nat -> c ∈ children (T r) -> (c < n)%nat /\ (depth r < depth c)%nat.
Proof.
  intros Hr Hc. apply (child_spec r c Hr) in Hc as (H1 & H2 & <-). by destruct (parent_spec c H1 H2) as (_ & _ & ?).
Qed.

Lemma treeFold_fuel a b r : (r < n)%nat -> (D < a + depth r)%nat -> (D < b + depth r)%nat -> treeFold a r = treeFold b r.
Proof.
  revert b r. induction a as [|a IH]; intros b r Hr Ha Hb; [specialize (HD r); lia|].
  destruct b as [|b]; [specialize (HD r); lia|]. cbn [treeFold]. f_equal. apply map_ext_in. intros c Hc%list_elem_of_In.
  destruct (child_depth r c Hr Hc). apply IH; [done|lia|lia].
Qed.

Lemma treeReduce_eq r : (r < n)%nat -> treeReduce r = fold_left op (map treeReduce (children (T r))) (f r).
Proof.
  intros Hr. unfold treeReduce at 1. cbn [treeFold]. f_equal. apply map_ext_in. intros c Hc%list_elem_of_In.
  destruct (child_depth r c Hr Hc). apply treeFold_fuel; [done|lia|lia].
Qed.

(** Ancestors: [anc r x] when [r] is on the way from [x] to the root. *)
Inductive anc (r : nat) : nat -> Prop :=
  | anc_refl : anc r r
  | anc_up x : (x < n)%nat -> x <> root -> anc r (parent x) -> anc r x.

Lemma anc_depth r x : anc r x -> x = r \/ (depth r < depth x)%nat.
Proof.
  induction 1 as [|x Hx Hne H IH]; [by left|right]. destruct (parent_spec x Hx Hne) as (_ & _ & L).
  destruct IH as [E|]; [rewrite E in L|]; lia.
Qed.

Lemma anc_total r s x : anc r x -> anc s x -> anc r s \/ anc s r.
Proof.
  induction 1 as [|x Hx Hne H IH]; intros Hs; [by right|].
  inversion Hs as [|x' _ _ Hs']; subst; [left; by apply anc_up|]. by apply IH.
Qed.

Lemma anc_root x : (x < n)%nat -> anc root x.
Proof.
  remember (depth x) as d eqn:E. revert x E. induction d as [d IH] using lt_wf_ind. intros x -> Hx.
  destruct (Nat.eq_dec x root) as [->|Hne]; [constructor|]. destruct (parent_spec x Hx Hne) as (Hp & _ & L).
  apply anc_up; [done|done|]. by apply (IH (depth (parent x))).
Qed.

Lemma anc_child r x : (r < n)%nat -> anc r x -> x = r \/ exists c, c ∈ children (T r) /\ anc c x.
Proof.
  intros Hr. induction 1 as [|x Hx Hne H IH]; [by left|right]. destruct IH as [E|(c & Hc & Ha)].
  - exists x. split; [by apply child_spec|constructor].
  - exists c. split; [done|by apply anc_up].
Qed.

Lemma treeRanks_spec a r x : (r < n)%nat -> (D < a + depth r)%nat -> x ∈ treeRanks a r <-> anc r x.
Proof.
  revert r. induction a as [|a IH]; intros r Hr Ha; [specialize (HD r); lia|]. cbn [treeRanks].
  rewrite elem_of_cons, list_elem_of_In, in_flat_map. split.
  - intros [->|(c & Hc & Hx)]; [constructor|]. apply list_elem_of_In in Hc, Hx.
    destruct (child_depth r c Hr Hc) as [Hc' Hd]. apply IH in Hx; [|done|lia].
    pose proof (proj1 (child_spec r c Hr) Hc) as (_ & Hne & E). clear -Hx Hc' Hne E.
    induction Hx as [|x Hx Hxne _ IH]; [apply anc_up; [done|done|rewrite E; constructor]|by apply anc_up].
  - intros [->|(c & Hc & Hx)]%anc_child; [by left| |done]. right. exists c.
    destruct (child_depth r c Hr Hc) as [Hc' Hd]. split; [by apply list_elem_of_In|].
    apply list_elem_of_In, IH; [done|lia|done].
Qed.

Lemma NoDup_flat_map {B} (g : nat -> list B) l :
  NoDup l -> (forall x, x ∈ l -> NoDup (g x)) ->
  (forall x y z, x ∈ l -> y ∈ l -> z ∈ g x -> z ∈ g y -> x = y) -> NoDup (flat_map g l).
Proof.
  intros Hl Hg Hd. induction Hl as [|x l Hx Hl IH]; [apply NoDup_nil; done|]. cbn [flat_map]. apply NoDup_app. split_and!.
  - apply Hg. by left.
  - intros z Hz (y & Hy & Hzy)%list_elem_of_In%in_flat_map. apply list_elem_of_In in Hy, Hzy.
    apply Hx. rewrite (Hd x y z); [done|by left|by right|done|done].
  - apply IH; [intros y Hy; apply Hg; by right|]. intros y y' z Hy Hy'. apply Hd; by right.
Qed.

Lemma treeRanks_nodup a r : (r < n)%nat -> (D < a + depth r)%nat -> NoDup (treeRanks a r).
Proof.
  revert r. induction a as [|a IH]; intros r Hr Ha; [specialize (HD r); lia|]. cbn [treeRanks].
  assert (forall c, c ∈ children (T r) -> (c < n)%nat /\ (D < a + depth c)%nat) as Hch.
  { intros c Hc. destruct (child_depth r c Hr Hc). split; [done|lia]. }
  apply NoDup_cons. split.
  - intros (c & Hc & Hx)%list_elem_of_In%in_flat_map. apply list_elem_of_In in Hc, Hx. destruct (Hch c Hc).
    apply treeRanks_spec in Hx; [|done|done]. apply anc_depth in Hx. destruct (child_depth r c Hr Hc). destruct Hx as [->|]; lia.
  - apply NoDup_flat_map; [by apply to_nodup|intros c Hc; destruct (Hch c Hc); by apply IH|].
    assert (forall x y, x ∈ children (T r) -> y ∈ children (T r) -> anc x y -> x = y) as Hxy.
    { intros x y Hx Hy Ha'. inversion Ha' as [|y' _ _ Hp]; [done|]. subst y'.
      apply (child_spec r y Hr) in Hy as (_ & _ & E). rewrite E in Hp. apply anc_depth in Hp.
      destruct (child_depth r x Hr Hx). destruct Hp as [->|]; lia. }
    intros x y z Hx Hy Hz Hz'. destruct (Hch x Hx), (Hch y Hy).
    apply treeRanks_spec in Hz; [|done|done]. apply treeRanks_spec in Hz'; [|done|done].
    destruct (anc_total x y z Hz Hz'); [by apply Hxy|symmetry; by apply Hxy].
Qed.

(** Every rank is below the root, once. *)
Lemma treeRanks_perm : treeRanks (S D) root ≡ₚ seq 0 n.
Proof.
  destruct to_root as [Hroot _]. apply NoDup_Permutation.
  - apply treeRanks_nodup; [done|lia].
  - apply NoDup_ListNoDup, seq_NoDup.
  - intros x. rewrite treeRanks_spec, elem_of_seq by (done || lia). split.
    + intros H. destruct H as [|x Hx _ _]; lia.
    + intros Hx. apply anc_root. lia.
Qed.

Lemma reduceList_app (x : A) l l' :
  (forall x y z, op x (op y z) = op (op x y) z) ->
  reduceList op (l ++ l') =
  match reduceList op l, reduceList op l' with
  | Some a, Some b => Some (op a b)
  | Some a, None => Some a
  | None, b => b
  end.
Proof.
  intros Ha. induction l as [|y l IH]; [done|]. cbn [app reduceList foldr].
  fold (reduceList op (l ++ l')) (reduceList op l). rewrite IH.
  destruct (reduceList op l), (reduceList op l'); [by rewrite Ha|done..].
Qed.

Lemma treeFold_list a r :
  (forall x y z, op x (op y z) = op (op x y) z) -> reduceList op (map f (treeRanks a r)) = Some (treeFold a r).
Proof.
  intros Ha. revert r. induction a as [|a IH]; intros r; [done|]. cbn [treeRanks treeFold map].
  generalize (f r). induction (children (T r)) as [|c l IHl]; intros x; [done|].
  cbn [flat_map map fold_left]. rewrite <- IHl. rewrite map_app. change (?y :: ?u ++ ?v) with ((y :: u) ++ v).
  rewrite reduceList_app by done. cbn [reduceList foldr]. fold (reduceList op (map f (treeRanks a c))). rewrite IH.
  fold (reduceList op (map f (flat_map (treeRanks a) l))).
  by destruct (reduceList op (map f (flat_map (treeRanks a) l))).
Qed.

Lemma treeReduce_all :
  (forall x y, op x y = op y x) -> (forall x y z, op x (op y z) = op (op x y) z) ->
  Some (treeReduce root) = reduceList op (map f (seq 0 n)).
Proof.
  intros Hc Ha. rewrite <- (reduceList_perm _ _ _ Hc Ha (Permutation_map f treeRanks_perm)).
  by rewrite treeFold_list.
Qed.
End treeFacts.

(** ** Runs *)

Section treeRun.
Context {T : Type} (r : ringRun T) (tr : nat -> ncclTree) (root : nat) (depth : nat -> nat) (D : nat).

Local Abbreviation n := (rr_n r).
Local Abbreviation grid := (rr_grid r).
Local Abbreviation count := (rr_count r).
Local Abbreviation chunk := (rr_chunk r).
Local Abbreviation inVal i y := (rr_mem r i (rr_in r i + grid + y)).

Definition treePrims (i : nat) (recv send : list nat) : Primitives := {|
  recvPeers := recv; sendPeers := send; userInput := rr_in r i; userOutput := rr_out r i;
  stepSize := rr_step r; SlicePerChunk := rr_SPC r; StepPerSlice := rr_SPS r |}.

Definition treeEnvOf (upProc downProc : Z -> nat) (i : nat) : treeEnv := {|
  te_tree := tr i;
  te_part := {| cbdCount := count; partOffset := grid; partCount := count; chunkCount := chunk |};
  te_prims := treePrims i; te_upProc := upProc; te_downProc := downProc |}.

(** One process per rank. *)
Definition udProg (i : nat) : list sliceOp :=
  if (i <? n)%nat then runTreeUpDown (treeEnvOf Z.to_nat Z.to_nat i) else [].

(** Two processes per rank, [2 i] on the way up and [2 i + 1] on the way down;
    the root's threads form one process. *)
Definition splitUp (i : Z) : nat := (2 * Z.to_nat i)%nat.
Definition splitDown (i : Z) : nat := (2 * Z.to_nat i + (if Z.to_nat i =? root then 0 else 1))%nat.
Definition splitOwner (q : nat) : nat := (q / 2)%nat.
Arguments splitOwner : simpl never.

Definition tsProg (q : nat) : list sliceOp :=
  let i := splitOwner q in
  if (i <? n)%nat then
    if Nat.even q then runTreeSplit (treeEnvOf splitUp splitDown i) true
    else if (i =? root)%nat then [] else runTreeSplit (treeEnvOf splitUp splitDown i) false
  else [].

(** Sizes within the machine widths, chunks that fit the FIFO buffers, and user
    buffers equal or without overlap. *)
Definition treeRunOk : Prop :=
  (0 < rr_SPC r)%nat /\ 0 < rr_SPS r <= NCCL_STEPS /\ 0 <= rr_step r /\ 0 <= count /\ 0 < chunk /\
  chunk + 16 * Z.of_nat (rr_SPC r) < 2 ^ 31 /\
  fifoFits (rr_SPC r) (rr_SPS r) (rr_step r) chunk /\
  forall i, (i < n)%nat -> rr_in r i = rr_out r i \/
    forall y z, 0 <= y < count -> 0 <= z < count -> rr_in r i + grid + y <> rr_out r i + grid + z.

(** The value on its way up from rank [i], and the result. *)
Definition treeUpVal (i : nat) (y : Z) : T :=
  treeReduce (T := tr) (reduceOp (rr_fn r)) (fun j => preOp (rr_fn r) (inVal j y)) D i.
Definition treeResult (y : Z) : T := postOpFn (rr_fn r) (treeUpVal root y).

(** Every rank has the result. *)
Definition treeReduced (i : nat) (m : mem T) : Prop :=
  (forall y, 0 <= y < count -> m (rr_out r i + grid + y) = treeResult y) /\
  (forall a, ~ 0 <= a - (rr_out r i + grid) < count -> m a = rr_mem r i a).

Context {TO : TreeOk n root tr depth} (HD : forall i, (depth i <= D)%nat) (Hok : treeRunOk).

Local Abbreviation p0 := (treePrims 0 [] []).
Local Abbreviation K := (loopSlices p0 count chunk).
Local Abbreviation xs := (sliceAt p0 count chunk).
Local Abbreviation lens := (sliceLenAt p0 count chunk).
Local Abbreviation isRoot i := (i =? root)%nat.

(** The phase of a rank on the way up: the peers are processes [g c]. *)
Definition upPhase (g : nat -> nat) (i : nat) : phase := {|
  phRecv := map g (children (tr i));
  phSend := if isRoot i then [] else [g (parent (T := tr) i)];
  phSrc := Some (true, rr_in r i + grid);
  phDst := if isRoot i then Some (rr_out r i + grid) else None;
  phPost := isRoot i |}.

(** The phase on the way down. *)
Definition downPhase (g : nat -> nat) (i : nat) : phase := {|
  phRecv := if isRoot i then [] else [g (parent (T := tr) i)];
  phSend := map g (children (tr i));
  phSrc := if isRoot i then Some (false, rr_out r i + grid) else None;
  phDst := if isRoot i then None else Some (rr_out r i + grid);
  phPost := false |}.

(** The root's phase when both ways run at once. *)
Definition turnPhase (gUp gDown : nat -> nat) (i : nat) : phase := {|
  phRecv := map gUp (children (tr i));
  phSend := map gDown (children (tr i));
  phSrc := Some (true, rr_in r i + grid);
  phDst := Some (rr_out r i + grid);
  phPost := true |}.

Lemma fan_up {B} i (g : Z -> B) : (i < n)%nat ->
  map g (fanPeers 1 [up (tr i)]) = if isRoot i then [] else [g (Z.of_nat (parent (T := tr) i))].
Proof.
  intros Hi. cbn. rewrite (up_root i Hi). destruct (Nat.eqb_spec i root) as [->|Hne]; [done|].
  by destruct (parent_spec i Hi Hne) as (_ & -> & _).
Qed.

Lemma fan_down {B} i (g : Z -> B) : (i < n)%nat ->
  map g (fanPeers NCCL_MAX_TREE_ARITY (down (tr i))) = map (fun c => g (Z.of_nat c)) (children (tr i)).
Proof. intros Hi. by rewrite (fan_children i Hi), map_map. Qed.

(** A branch of a kernel is a phase. *)
Lemma treeLoop_phase e i recv send Recv Send SrcBuf DstBuf post φ :
  te_part e = te_part (treeEnvOf Z.to_nat Z.to_nat i) ->
  φ = phaseOf (treePrims i recv send) Recv Send SrcBuf DstBuf post grid ->
  treeLoop e (fun offset nelem => genericOp (treePrims i recv send) Recv Send SrcBuf DstBuf offset offset nelem post) =
  map (phaseSlice xs lens φ) (seq 0 K).
Proof.
  intros E ->. pose proof Hok as (HSPC & HSPS & Hstep & Hc & Hch & Hm & _). unfold treeLoop. rewrite E.
  apply (loop_phase (treePrims i recv send) count chunk Hch Hc HSPC ltac:(simpl; nia) ltac:(simpl; lia)
    Recv Send SrcBuf DstBuf post grid (fun o => o) (fun o => o)); done.
Qed.

Lemma leaf_cases e i : (i < n)%nat -> te_tree e = tr i -> isLeaf e = true /\ children (tr i) = [] \/ isLeaf e = false.
Proof.
  intros Hi E. unfold isLeaf. rewrite E. pose proof (leaf_children i Hi) as L. destruct (down (tr i)) as [|d l]; [left; tauto|].
  destruct (d =? -1); [left; tauto|by right].
Qed.

Definition udPhases (i : nat) : list phase := if (i <? n)%nat then [upPhase id i; downPhase id i] else [].

Lemma map_to_nat l : map (fun c => Z.to_nat (Z.of_nat c)) l = map id l.
Proof. apply map_ext. intros c. by rewrite Nat2Z.id. Qed.

Lemma udProg_eq i : udProg i = phaseProg K udPhases xs lens i.
Proof.
  unfold udProg, phaseProg, udPhases. destruct (Nat.ltb_spec i n) as [Hi|]; [|done].
  cbn [flat_map]. rewrite app_nil_r. unfold runTreeUpDown.
  change (te_tree (treeEnvOf _ _ i)) with (tr i). rewrite (up_root i Hi).
  rewrite !(fan_up i), !(fan_down i), !map_to_nat by done. cbn [te_upProc te_downProc treeEnvOf te_prims].
  destruct (leaf_cases (treeEnvOf Z.to_nat Z.to_nat i) i Hi eq_refl) as [[-> Ec]| ->]; rewrite ?Nat2Z.id; f_equal;
    (destruct (Nat.eqb_spec i root) as [E|E]; [|]); (eapply treeLoop_phase; [done|]);
    unfold upPhase, downPhase, phaseOf; rewrite ?(proj2 (Nat.eqb_eq _ _) E), ?(proj2 (Nat.eqb_neq _ _) E), ?Ec; done.
Qed.

Lemma lens_fit s : (s < K)%nat -> Z.of_nat (lens s) <= rr_SPS r * rr_step r.
Proof.
  pose proof Hok as (HSPC & HSPS & Hstep & Hc & Hch & Hm & Hfit & _).
  by apply (sliceLenAt_fits p0 count chunk Hch Hc HSPC ltac:(simpl; nia) ltac:(simpl; lia) s).
Qed.

(** *** One way, then the other *)

Local Abbreviation kids i := (children (tr i)).
Local Abbreviation par := (parent (T := tr)).

Definition udVal (i f : nat) (y : Z) : T :=
  if (f =? 0)%nat then (if isRoot i then treeResult y else treeUpVal i y) else treeResult y.
Definition udSrc (i f : nat) (y : Z) : T := if (f =? 0)%nat then inVal i y else treeResult y.
Definition udDep (i f : nat) : nat := if (f =? 0)%nat then (D - depth i)%nat else depth i.

Lemma ud_inv i f φ :
  udPhases i !! f = Some φ -> (i < n)%nat /\ (f = 0%nat /\ φ = upPhase id i \/ f = 1%nat /\ φ = downPhase id i).
Proof.
  unfold udPhases. intros H. destruct (Nat.ltb_spec i n) as [Hi|]; [|done]. split; [done|].
  destruct f as [|[|f]]; [left|right|done]; by injection H as <-.
Qed.

Lemma ud_at i : (i < n)%nat -> udPhases i = [upPhase id i; downPhase id i].
Proof. intros Hi. unfold udPhases. by rewrite (proj2 (Nat.ltb_lt _ _) Hi). Qed.

Lemma kid_facts i c : (i < n)%nat -> c ∈ kids i -> (c < n)%nat /\ c <> root /\ par c = i /\ (depth i < depth c)%nat.
Proof.
  intros Hi Hc. destruct (child_depth i c Hi Hc). apply (child_spec i c Hi) in Hc as (? & ? & ?). done.
Qed.

Lemma par_facts i : (i < n)%nat -> i <> root -> (par i < n)%nat /\ i ∈ kids (par i) /\ (depth (par i) < depth i)%nat.
Proof.
  intros Hi Hne. destruct (parent_spec i Hi Hne) as (Hp & _ & Hd). split; [done|]. split; [by apply child_spec|done].
Qed.

Lemma isRoot_true : isRoot root = true.
Proof. apply Nat.eqb_refl. Qed.

Lemma isRoot_false i : i <> root -> isRoot i = false.
Proof. apply Nat.eqb_neq. Qed.

(** The equation of the way up. *)
Lemma treeUpVal_eq i y :
  (i < n)%nat ->
  treeUpVal i y = fold_left (reduceOp (rr_fn r)) (map (fun c => treeUpVal c y) (kids i)) (preOp (rr_fn r) (inVal i y)).
Proof. intros Hi. apply (treeReduce_eq (reduceOp (rr_fn r)) (fun j => preOp (rr_fn r) (inVal j y)) D HD i Hi). Qed.

Lemma elem_in s y : inSlice K xs lens s y -> 0 <= y < count.
Proof.
  pose proof Hok as (HSPC & HSPS & Hstep & Hc & Hch & Hm & _).
  apply (inSlice_elem p0 count chunk Hch Hc HSPC ltac:(simpl; nia) ltac:(simpl; lia)).
Qed.

Lemma slice_unique s s' y : inSlice K xs lens s y -> inSlice K xs lens s' y -> s = s'.
Proof.
  pose proof Hok as (HSPC & HSPS & Hstep & Hc & Hch & Hm & _).
  apply (inSlice_unique p0 count chunk Hch Hc HSPC ltac:(simpl; nia) ltac:(simpl; lia)).
Qed.

(** An input element and an output element at one address: the buffers are the
    same, and so is the slice. *)
Lemma same_slice i s s' y :
  (i < n)%nat -> inSlice K xs lens s y -> inSlice K xs lens s' (rr_in r i + grid + y - (rr_out r i + grid)) -> s' = s.
Proof.
  intros Hi Hy Hz. pose proof Hok as (_ & _ & _ & _ & _ & _ & _ & Hbuf). destruct (Hbuf i Hi) as [E|Hdis].
  - rewrite E in Hz. replace (rr_out r i + grid + y - (rr_out r i + grid)) with y in Hz by lia. by apply (slice_unique s' s y).
  - exfalso. apply (Hdis y _ (elem_in _ _ Hy) (elem_in _ _ Hz)). lia.
Qed.

(** The peers above and below a rank are different ones. *)
Lemma kid_not_parent i p : (i < n)%nat -> p ∈ kids i -> p ∈ (if isRoot i then [] else [id (par i)]) -> False.
Proof.
  intros Hi Hk%(kid_facts i p Hi). destruct (Nat.eqb_spec i root) as [|Hne]; [by intros ?%not_elem_of_nil|].
  intros ->%list_elem_of_singleton. destruct (par_facts i Hi Hne). unfold id in *. lia.
Qed.

Lemma ud_phases :
  Phases (rr_fn r) (rr_SPS r) (rr_step r) id n K D udPhases (rr_mem r) xs lens udVal udSrc udDep udProg.
Proof.
  pose proof Hok as (HSPC & HSPS & Hstep & Hc & Hch & Hm & Hfit & _). split.
  - done.
  - split; [apply Hfit|done].
  - apply lens_fit.
  - intros i Hi. unfold udPhases. by rewrite (proj2 (Nat.ltb_ge _ _) Hi).
  - intros i f φ (Hi & [[-> ->]|[-> ->]])%ud_inv; cbn; rewrite map_id; pose proof (to_nodup i Hi);
      (destruct (isRoot i); split; (done || apply NoDup_nil || apply NoDup_singleton); done).
  - intros i f φ p (Hi & [[-> ->]|[-> ->]])%ud_inv; cbn; rewrite ?map_id.
    + intros Hp. destruct (kid_facts i p Hi Hp) as (Hpn & Hne & <- & _). exists (upPhase id p).
      rewrite ud_at by done. split; [done|]. cbn. rewrite isRoot_false by done. by apply list_elem_of_singleton.
    + destruct (Nat.eqb_spec i root) as [|Hne]; [by intros ?%not_elem_of_nil|]. intros ->%list_elem_of_singleton.
      destruct (par_facts i Hi Hne) as (Hp & Hk & _). exists (downPhase id (par i)).
      unfold id. rewrite ud_at by done. split; [done|]. cbn. by rewrite map_id.
  - intros i f φ q (Hi & [[-> ->]|[-> ->]])%ud_inv; cbn; rewrite ?map_id.
    + destruct (Nat.eqb_spec i root) as [|Hne]; [by intros ?%not_elem_of_nil|]. intros ->%list_elem_of_singleton.
      destruct (par_facts i Hi Hne) as (Hp & Hk & _). exists (upPhase id (par i)).
      unfold id. rewrite ud_at by done. split; [done|]. cbn. by rewrite map_id.
    + intros Hp. destruct (kid_facts i q Hi Hp) as (Hpn & Hne & <- & _). exists (downPhase id q).
      rewrite ud_at by done. split; [done|]. cbn. rewrite isRoot_false by done. by apply list_elem_of_singleton.
  - intros i f f' φ φ' p (Hi & [[-> ->]|[-> ->]])%ud_inv (_ & [[-> ->]|[-> ->]])%ud_inv; cbn; rewrite ?map_id; try done; intros H1 H2;
      destruct (kid_not_parent i p Hi); done.
  - intros i f f' φ φ' p (Hi & [[-> ->]|[-> ->]])%ud_inv (_ & [[-> ->]|[-> ->]])%ud_inv; cbn; rewrite ?map_id; try done; intros H1 H2;
      destruct (kid_not_parent i p Hi); done.
  - intros i f φ p (Hi & [[-> ->]|[-> ->]])%ud_inv; cbn; rewrite ?map_id; unfold udDep; cbn.
    + intros Hp%(kid_facts i p Hi). pose proof (HD p). lia.
    + destruct (Nat.eqb_spec i root) as [|Hne]; [by intros ?%not_elem_of_nil|]. intros ->%list_elem_of_singleton.
      destruct (par_facts i Hi Hne). unfold id. lia.
  - intros i f. unfold udDep. pose proof (HD i). destruct (f =? 0)%nat; lia.
  - intros i f φ (Hi & [[-> ->]|[-> ->]])%ud_inv; cbn; [by left|]. destruct (isRoot i); [by left|by right].
  - intros i f φ b i' f' φ' b' (Hi & Hf)%ud_inv Hb (_ & Hf')%ud_inv Hb' E. unfold id in E. subst i'. split; [done|].
    destruct Hf as [[-> ->]|[-> ->]], Hf' as [[-> ->]|[-> ->]]; cbn in *; try done; by destruct (isRoot i).
  - intros i f φ c b s y k (Hi & [[-> ->]|[-> ->]])%ud_inv; cbn.
    + intros Hs Hy _ Hk. injection Hs as <- <-. right. split; [|done]. unfold id.
      intros (v & j & f & φ & s' & b & -> & (_ & Hf)%ud_inv & Hb & Hlt & Hin & _).
      assert (b = rr_out r i + grid) as ->.
      { destruct Hf as [[-> ->]|[-> ->]]; cbn in Hb; destruct (isRoot i); by simplify_eq. }
      apply (same_slice i s s' y Hi Hy) in Hin as ->. lia.
    + destruct (Nat.eqb_spec i root) as [->|]; [|done]. intros Hs Hy _ Hk. injection Hs as <- <-. left.
      exists root, 0%nat, (upPhase id root), s, (rr_out r root + grid). rewrite ud_at by done. cbn. rewrite isRoot_true.
      replace (rr_out r root + grid + y - (rr_out r root + grid)) with y by lia.
      split_and!; try done. destruct Hy. lia.
  - intros i f φ s y (Hi & [[-> ->]|[-> ->]])%ud_inv Hy; cbn; rewrite ?map_id; unfold udVal, udSrc; cbn.
    + rewrite (map_ext_in _ (fun c => treeUpVal c y)).
      * rewrite <- treeUpVal_eq by done. destruct (Nat.eqb_spec i root) as [->|]; done.
      * intros c Hk%list_elem_of_In. destruct (kid_facts i c Hi Hk) as (_ & Hne & _). by rewrite isRoot_false.
    + by destruct (isRoot i).
Qed.

(** *** Both ways at once *)

Definition gUp (i : nat) : nat := (2 * i)%nat.
Definition gDown (i : nat) : nat := (2 * i + (if isRoot i then 0 else 1))%nat.
Arguments gUp : simpl never.
Arguments gDown : simpl never.

Definition tsPhases (q : nat) : list phase :=
  let i := splitOwner q in
  if (i <? n)%nat then
    if Nat.even q then [if isRoot i then turnPhase gUp gDown i else upPhase gUp i]
    else if isRoot i then [] else [downPhase gDown i]
  else [].

Definition tsVal (q _ : nat) (y : Z) : T :=
  let i := splitOwner q in
  if Nat.even q then (if isRoot i then treeResult y else treeUpVal i y) else treeResult y.
Definition tsSrc (q _ : nat) (y : Z) : T := inVal (splitOwner q) y.
Definition tsDep (q _ : nat) : nat := let i := splitOwner q in if Nat.even q then (D - depth i)%nat else (D + depth i)%nat.

(** The processes of a rank. *)
Lemma proc_up i : splitOwner (gUp i) = i /\ Nat.even (gUp i) = true.
Proof.
  unfold splitOwner, gUp. rewrite Nat.mul_comm, Nat.div_mul by lia. split; [done|]. by rewrite Nat.even_mul, orb_true_r.
Qed.

Lemma proc_down i : i <> root -> splitOwner (gDown i) = i /\ Nat.even (gDown i) = false.
Proof.
  intros Hne. unfold splitOwner, gDown. rewrite isRoot_false by done. rewrite Nat.add_comm, Nat.mul_comm, Nat.div_add by lia. split; [done|].
  by rewrite Nat.even_add, Nat.even_mul, orb_true_r.
Qed.

Lemma gDown_root : gDown root = gUp root.
Proof. unfold gDown, gUp. rewrite isRoot_true. lia. Qed.

Lemma proc_cases q :
  q = gUp (splitOwner q) /\ Nat.even q = true \/
  Nat.even q = false /\ (splitOwner q <> root -> q = gDown (splitOwner q)).
Proof.
  unfold splitOwner, gUp. pose proof (Nat.div_mod_eq q 2) as H. pose proof (Nat.mod_upper_bound q 2 ltac:(lia)).
  destruct (Nat.eq_dec (q mod 2) 0) as [E|E]; [left|right]; split.
  - lia.
  - rewrite H, E, Nat.add_0_r, Nat.even_mul. done.
  - rewrite H. replace (q mod 2)%nat with 1%nat by lia. rewrite Nat.even_add, Nat.even_mul. done.
  - intros Hne. unfold gDown. rewrite isRoot_false by done. lia.
Qed.

Lemma ts_root : tsPhases (gUp root) = [turnPhase gUp gDown root].
Proof.
  unfold tsPhases. destruct (proc_up root) as [-> ->]. destruct to_root as [Hr _].
  by rewrite (proj2 (Nat.ltb_lt _ _) Hr), isRoot_true.
Qed.

Lemma ts_up i : (i < n)%nat -> i <> root -> tsPhases (gUp i) = [upPhase gUp i].
Proof.
  intros Hi Hne. unfold tsPhases. destruct (proc_up i) as [-> ->].
  by rewrite (proj2 (Nat.ltb_lt _ _) Hi), isRoot_false.
Qed.

Lemma ts_down i : (i < n)%nat -> i <> root -> tsPhases (gDown i) = [downPhase gDown i].
Proof.
  intros Hi Hne. unfold tsPhases. destruct (proc_down i Hne) as [-> ->].
  by rewrite (proj2 (Nat.ltb_lt _ _) Hi), isRoot_false.
Qed.

(** A process and its phase. *)
Lemma ts_inv q f φ :
  tsPhases q !! f = Some φ ->
  f = 0%nat /\
  (q = gUp root /\ φ = turnPhase gUp gDown root \/
   exists i, (i < n)%nat /\ i <> root /\
     (q = gUp i /\ φ = upPhase gUp i \/ q = gDown i /\ φ = downPhase gDown i)).
Proof.
  intros H. assert (splitOwner q < n)%nat as Hi.
  { unfold tsPhases in H. by destruct (Nat.ltb_spec (splitOwner q) n). }
  set (i := splitOwner q) in *. destruct (Nat.eq_dec i root) as [E|Hne].
  - destruct (proc_cases q) as [[Eq _]|[Ev _]]; try fold i in Eq.
    + rewrite E in Eq. rewrite Eq, ts_root in H. destruct f; [|done]. injection H as <-. split; [done|by left].
    + unfold tsPhases in H. fold i in H. rewrite Ev, E, isRoot_true in H. by destruct (root <? n)%nat.
  - destruct (proc_cases q) as [[Eq _]|[_ Eq]]; fold i in Eq.
    + rewrite Eq, ts_up in H by done. destruct f; [|done]. injection H as <-. split; [done|right]. exists i. tauto.
    + specialize (Eq Hne). rewrite Eq, ts_down in H by done. destruct f; [|done]. injection H as <-.
      split; [done|right]. exists i. tauto.
Qed.

(** The edges on the way up and on the way down. *)
Lemma edge_up c :
  (c < n)%nat -> c <> root ->
  exists φ φ', tsPhases (gUp c) = [φ] /\ tsPhases (gUp (par c)) = [φ'] /\ gUp (par c) ∈ phSend φ /\ gUp c ∈ phRecv φ'.
Proof.
  intros Hc Hne. destruct (par_facts c Hc Hne) as (Hp & Hk & _).
  assert (gUp c ∈ map gUp (kids (par c))) as Hin by (apply list_elem_of_fmap; by exists c).
  exists (upPhase gUp c), (if isRoot (par c) then turnPhase gUp gDown (par c) else upPhase gUp (par c)).
  split_and!; [by apply ts_up| |cbn; rewrite isRoot_false by done; by apply list_elem_of_singleton|by destruct (isRoot (par c))].
  destruct (Nat.eqb_spec (par c) root) as [->|E]; [apply ts_root|by apply ts_up].
Qed.

Lemma edge_down c :
  (c < n)%nat -> c <> root ->
  exists φ φ', tsPhases (gDown (par c)) = [φ] /\ tsPhases (gDown c) = [φ'] /\ gDown c ∈ phSend φ /\ gDown (par c) ∈ phRecv φ'.
Proof.
  intros Hc Hne. destruct (par_facts c Hc Hne) as (Hp & Hk & _).
  assert (gDown c ∈ map gDown (kids (par c))) as Hin by (apply list_elem_of_fmap; by exists c).
  exists (if isRoot (par c) then turnPhase gUp gDown (par c) else downPhase gDown (par c)), (downPhase gDown c).
  split_and!; [|by apply ts_down|by destruct (isRoot (par c))|cbn; rewrite isRoot_false by done; by apply list_elem_of_singleton].
  destruct (Nat.eqb_spec (par c) root) as [->|E]; [rewrite gDown_root; apply ts_root|by apply ts_down].
Qed.

Lemma tsVal_up i y : tsVal (gUp i) 0 y = if isRoot i then treeResult y else treeUpVal i y.
Proof. unfold tsVal. by destruct (proc_up i) as [-> ->]. Qed.

Lemma tsVal_down i y : tsVal (gDown i) 0 y = treeResult y.
Proof.
  destruct (Nat.eq_dec i root) as [->|Hne]; [by rewrite gDown_root, tsVal_up, isRoot_true|].
  unfold tsVal. by destruct (proc_down i Hne) as [_ ->].
Qed.

Lemma tsDep_up i : tsDep (gUp i) 0 = (D - depth i)%nat.
Proof. unfold tsDep. by destruct (proc_up i) as [-> ->]. Qed.

Lemma tsDep_down c : (c < n)%nat -> c <> root -> (tsDep (gDown (par c)) 0 < tsDep (gDown c) 0)%nat.
Proof.
  intros Hc Hne. destruct (par_facts c Hc Hne) as (_ & _ & Hd). unfold tsDep at 2. destruct (proc_down c Hne) as [-> ->].
  destruct (Nat.eq_dec (par c) root) as [E|E].
  - rewrite E in *. rewrite gDown_root, tsDep_up. lia.
  - unfold tsDep. destruct (proc_down (par c) E) as [-> ->]. lia.
Qed.

Lemma owner_down i : splitOwner (gDown i) = i.
Proof. destruct (Nat.eq_dec i root) as [->|]; [rewrite gDown_root; apply proc_up|by apply proc_down]. Qed.

Lemma kids_edge (g : nat -> nat) i p : p ∈ map g (kids i) -> (i < n)%nat -> exists c, p = g c /\ (c < n)%nat /\ c <> root /\ par c = i.
Proof.
  intros (c & -> & Hc)%list_elem_of_fmap Hi. exists c. destruct (kid_facts i c Hi Hc) as (? & ? & ? & _). done.
Qed.

Lemma tsProg_eq q : tsProg q = phaseProg K tsPhases xs lens q.
Proof.
  unfold tsProg, phaseProg, tsPhases. set (i := splitOwner q). destruct (Nat.ltb_spec i n) as [Hi|]; [|done].
  unfold runTreeSplit. change (te_tree (treeEnvOf _ _ i)) with (tr i). rewrite (up_root i Hi).
  assert (forall l, map (fun c => splitUp (Z.of_nat c)) l = map gUp l) as EU.
  { intros l. apply map_ext. intros c. unfold splitUp. by rewrite Nat2Z.id. }
  assert (forall l, map (fun c => splitDown (Z.of_nat c)) l = map gDown l) as ED.
  { intros l. apply map_ext. intros c. unfold splitDown. by rewrite Nat2Z.id. }
  assert (forall c, splitUp (Z.of_nat c) = gUp c /\ splitDown (Z.of_nat c) = gDown c) as E1.
  { intros c. unfold splitUp, splitDown. by rewrite Nat2Z.id. }
  cbn [te_upProc te_downProc treeEnvOf te_prims].
  assert (isRoot i = true -> fanPeers NCCL_MAX_TREE_ARITY_TOP (down (tr i)) = fanPeers NCCL_MAX_TREE_ARITY (down (tr i))) as Htop.
  { intros ->%Nat.eqb_eq. apply to_top. }
  destruct (Nat.eqb_spec i root) as [Er|Er].
  - rewrite Htop by done. destruct (Nat.even q); [|done]. cbn [flat_map]. rewrite app_nil_r.
    rewrite !(fan_down i), EU, ED by done. by eapply treeLoop_phase.
  - rewrite !(fan_down i), !(fan_up i), EU, ED, isRoot_false by done.
    destruct (E1 (par i)) as [-> ->].
    destruct (leaf_cases (treeEnvOf splitUp splitDown i) i Hi eq_refl) as [[-> Ec]| ->]; destruct (Nat.even q);
      cbn [flat_map]; rewrite app_nil_r; (eapply treeLoop_phase; [done|]);
      unfold upPhase, downPhase, phaseOf; rewrite isRoot_false, ?Ec by done; done.
Qed.

(** No process on the way down is ahead of the one on the way up. *)
Lemma down_behind_up k i :
  (i < n)%nat -> causal tsProg k -> (Nat.min (k (gDown i)) K <= Nat.min (k (gUp i)) K)%nat.
Proof.
  intros Hi Hc. transitivity (Nat.min (k (gUp root)) K).
  - pose proof (anc_root (TO := TO) i Hi) as Ha. clear Hi. induction Ha as [|c Hc' Hne _ IH]; [by rewrite gDown_root|].
    etrans; [|exact IH]. destruct (edge_down c Hc' Hne) as (φ & φ' & E1 & E2 & E3 & E4).
    by eapply (causal_single K tsPhases xs lens tsProg tsProg_eq k _ _ φ' φ).
  - pose proof (anc_root (TO := TO) i Hi) as Ha. clear Hi. induction Ha as [|c Hc' Hne _ IH]; [done|].
    etrans; [exact IH|]. destruct (edge_up c Hc' Hne) as (φ & φ' & E1 & E2 & E3 & E4).
    by eapply (causal_single K tsPhases xs lens tsProg tsProg_eq k _ _ φ' φ).
Qed.

(** The slice a process of rank [i] reads has not been overwritten. *)
Lemma ts_input k i s y :
  (i < n)%nat -> inSlice K xs lens s y -> causal tsProg k -> k (gUp i) = s ->
  ~ exists v, writtenAt splitOwner K tsPhases xs lens tsVal i k (rr_in r i + grid + y) v.
Proof.
  intros Hi Hy Hc Hk (v & q & f & φ & s' & b & Hq & (-> & Hφ)%ts_inv & Hb & Hlt & Hin & _).
  assert (q = gDown i /\ b = rr_out r i + grid) as [-> ->].
  { destruct Hφ as [[-> ->]|(j & Hj & Hne & [[-> ->]|[-> ->]])]; cbn in Hb.
    - destruct (proc_up root) as [E _]. rewrite E in Hq. subst i. simplify_eq. by rewrite gDown_root.
    - rewrite isRoot_false in Hb by done. done.
    - rewrite owner_down in Hq. subst j. rewrite isRoot_false in Hb by done. by simplify_eq. }
  apply (same_slice i s s' y Hi Hy) in Hin as ->. pose proof (down_behind_up k i Hi Hc). destruct Hy. lia.
Qed.

Lemma single_at {A} (l : list A) a : l = [a] -> l !! 0%nat = Some a.
Proof. by intros ->. Qed.

Lemma gUp_inj i j : gUp i = gUp j -> i = j.
Proof. unfold gUp. lia. Qed.

Lemma gDown_inj i j : gDown i = gDown j -> i = j.
Proof. intros E. by rewrite <- (owner_down i), <- (owner_down j), E. Qed.

Lemma ts_edges i f φ p :
  tsPhases i !! f = Some φ ->
  (p ∈ phRecv φ -> (exists φ', tsPhases p !! f = Some φ' /\ i ∈ phSend φ') /\ (tsDep p f < tsDep i f)%nat) /\
  (p ∈ phSend φ -> exists φ', tsPhases p !! f = Some φ' /\ i ∈ phRecv φ').
Proof.
  intros (-> & Hφ)%ts_inv. destruct to_root as [Hr _].
  assert (forall c, (c < n)%nat -> c <> root -> (exists φ', tsPhases (gUp c) !! 0%nat = Some φ' /\ gUp (par c) ∈ phSend φ') /\
    (tsDep (gUp c) 0 < tsDep (gUp (par c)) 0)%nat) as HU.
  { intros c Hc Hne. destruct (edge_up c Hc Hne) as (φ1 & φ2 & E1 & _ & E3 & _). split; [exists φ1; by rewrite E1|].
    rewrite !tsDep_up. destruct (par_facts c Hc Hne) as (_ & _ & ?). pose proof (HD c). lia. }
  assert (forall c, (c < n)%nat -> c <> root -> (exists φ', tsPhases (gDown (par c)) !! 0%nat = Some φ' /\ gDown c ∈ phSend φ') /\
    (tsDep (gDown (par c)) 0 < tsDep (gDown c) 0)%nat) as HDn.
  { intros c Hc Hne. destruct (edge_down c Hc Hne) as (φ1 & φ2 & E1 & _ & E3 & _). split; [exists φ1; by rewrite E1|].
    by apply tsDep_down. }
  assert (forall c, (c < n)%nat -> c <> root -> exists φ', tsPhases (gDown c) !! 0%nat = Some φ' /\ gDown (par c) ∈ phRecv φ') as HSd.
  { intros c Hc Hne. destruct (edge_down c Hc Hne) as (φ1 & φ2 & _ & E2 & _ & E4). exists φ2. by rewrite E2. }
  assert (forall c, (c < n)%nat -> c <> root -> exists φ', tsPhases (gUp (par c)) !! 0%nat = Some φ' /\ gUp c ∈ phRecv φ') as HSu.
  { intros c Hc Hne. destruct (edge_up c Hc Hne) as (φ1 & φ2 & _ & E2 & _ & E4). exists φ2. by rewrite E2. }
  destruct Hφ as [[-> ->]|(j & Hj & Hne & [[-> ->]|[-> ->]])]; cbn; rewrite ?isRoot_false by done; split.
  - intros (c & -> & Hc & Hcr & <-)%kids_edge; [|done]. by apply HU.
  - intros (c & -> & Hc & Hcr & E)%kids_edge; [|done]. rewrite <- gDown_root, <- E. by apply HSd.
  - intros (c & -> & Hc & Hcr & <-)%kids_edge; [|done]. by apply HU.
  - intros ->%list_elem_of_singleton. by apply HSu.
  - intros ->%list_elem_of_singleton. by apply HDn.
  - intros (c & -> & Hc & Hcr & <-)%kids_edge; [|done]. by apply HSd.
Qed.

Lemma ts_phases :
  Phases (rr_fn r) (rr_SPS r) (rr_step r) splitOwner (2 * n) K (D + D) tsPhases (rr_mem r) xs lens tsVal tsSrc tsDep tsProg.
Proof.
  pose proof Hok as (HSPC & HSPS & Hstep & Hc & Hch & Hm & Hfit & _). destruct to_root as [Hr _]. split.
  - done.
  - split; [apply Hfit|done].
  - apply lens_fit.
  - intros q Hq. unfold tsPhases. assert (n <= splitOwner q)%nat as Ho by (apply Nat.div_le_lower_bound; lia).
    by rewrite (proj2 (Nat.ltb_ge _ _) Ho).
  - intros q f φ (-> & Hφ)%ts_inv.
    assert (forall i, (i < n)%nat -> NoDup (map gUp (kids i)) /\ NoDup (map gDown (kids i))) as Hk.
    { intros i Hi. pose proof (to_nodup i Hi). split; apply NoDup_fmap_2_strong; [| done| |done];
        intros ? ? _ _; [apply gUp_inj|apply gDown_inj]. }
    destruct Hφ as [[-> ->]|(i & Hi & Hne & [[-> ->]|[-> ->]])]; cbn; rewrite ?isRoot_false by done;
      (split; [|]); (apply NoDup_singleton || by apply Hk).
  - intros i f φ p Hf Hp. by apply (ts_edges i f φ p Hf).
  - intros i f φ q Hf Hq. by apply (ts_edges i f φ q Hf).
  - intros i f f' φ φ' p (-> & _)%ts_inv (-> & _)%ts_inv. done.
  - intros i f f' φ φ' p (-> & _)%ts_inv (-> & _)%ts_inv. done.
  - intros i f φ p Hf Hp. by apply (ts_edges i f φ p Hf).
  - intros i f. unfold tsDep. pose proof (HD (splitOwner i)). destruct (Nat.even i); lia.
  - intros i f φ (-> & Hφ)%ts_inv.
    destruct Hφ as [[-> ->]|(j & Hj & Hne & [[-> ->]|[-> ->]])]; cbn; rewrite ?isRoot_false by done; (by left) || by right.
  - intros i f φ b i' f' φ' b' (-> & Hf)%ts_inv Hb (-> & Hf')%ts_inv Hb' E. split; [|done].
    assert (forall q ψ b, q = gUp root /\ ψ = turnPhase gUp gDown root \/
      (exists i, (i < n)%nat /\ i <> root /\ (q = gUp i /\ ψ = upPhase gUp i \/ q = gDown i /\ ψ = downPhase gDown i)) ->
      phDst ψ = Some b -> q = gDown (splitOwner q)) as Hw.
    { intros q ψ c [[-> ->]|(j & Hj & Hne & [[-> ->]|[-> ->]])]; cbn; rewrite ?isRoot_false by done; intros Hd; try done.
      - by rewrite <- gDown_root, owner_down.
      - by rewrite owner_down. }
    by rewrite (Hw _ _ _ Hf Hb), (Hw _ _ _ Hf' Hb'), E.
  - intros q f φ c b s y k (-> & Hφ)%ts_inv Hs Hy Hca Hk. right.
    assert (exists i, (i < n)%nat /\ q = gUp i /\ b = rr_in r i + grid) as (i & Hi & -> & ->).
    { destruct Hφ as [[-> ->]|(j & Hj & Hne & [[-> ->]|[-> ->]])]; cbn in Hs; rewrite ?isRoot_false in Hs by done; simplify_eq; by eexists. }
    unfold tsSrc. destruct (proc_up i) as [-> _]. split; [|done]. by apply (ts_input k i s y).
  - intros q f φ s y (-> & Hφ)%ts_inv Hy. assert (forall i, (i < n)%nat ->
      map (fun p => tsVal p 0 y) (map gUp (kids i)) = map (fun c => treeUpVal c y) (kids i)) as Hv.
    { intros i Hi. rewrite map_map. apply map_ext_in. intros c Hk%list_elem_of_In.
      destruct (kid_facts i c Hi Hk) as (_ & Hne & _). by rewrite tsVal_up, isRoot_false. }
    destruct Hφ as [[-> ->]|(i & Hi & Hne & [[-> ->]|[-> ->]])]; cbn; rewrite ?isRoot_false by done; cbn.
    + rewrite Hv, tsVal_up, isRoot_true by done. unfold tsSrc, treeResult. destruct (proc_up root) as [-> _].
      by rewrite <- treeUpVal_eq.
    + rewrite Hv, tsVal_up, isRoot_false by done. unfold tsSrc. destruct (proc_up i) as [-> _].
      by rewrite <- treeUpVal_eq.
    + by rewrite !tsVal_down.
Qed.
End treeRun.

(** C24: tree AllReduce that reduces up and then broadcasts down is correct under
    every interleaving: every run ends, none gets stuck, and then every rank
    holds the reduction of all inputs along the tree, with the final operation
    applied once, and no other memory is touched.  The slices of a chunk go
    through FIFO buffers that are used again, into which the chunks fit.  The send
    and receive buffers may be the same. *)
Theorem runTreeUpDown_correct {T} (r : ringRun T) tr root depth D start fifo0 :
  TreeOk (rr_n r) root tr depth -> (forall i, (depth i <= D)%nat) -> treeRunOk r ->
  runsTo (rr_fn r) (rr_SPS r) (rr_step r) id (rr_n r)
    (initConfig (udProg r tr) (rr_mem r) (connStart (Z.of_nat (rr_SPC r) * rr_SPS r) start) fifo0)
    (treeReduced r tr root D).
Proof.
  intros TO HD Hok. pose proof Hok as (HSPC & HSPS & Hstep & Hc & Hch & Hm & _).
  eapply (loop_runsTo (treePrims r 0 [] [])); [exact Hch|exact Hc|exact HSPC|simpl; nia|simpl; lia|nia|by apply Z.mod_mul; lia|
    by apply (udProg_eq r tr root depth)|by apply (ud_phases r tr root depth D)|].
  unfold id. intros i m Hi Hw Hu. pose proof (ud_at r tr root i Hi) as Ea. split.
  - intros y Hy. destruct (Nat.eq_dec i root) as [->|Hne].
    + rewrite (Hw root 0%nat (upPhase r tr root id root) _ y eq_refl); [|by rewrite Ea|cbn; by rewrite Nat.eqb_refl|done].
      unfold udVal. cbn. by rewrite Nat.eqb_refl.
    + rewrite (Hw i 1%nat (downPhase r tr root id i) _ y eq_refl); [done|by rewrite Ea|cbn|done].
      by rewrite (proj2 (Nat.eqb_neq _ _) Hne).
  - intros a Ha. apply Hu. intros j f φ b -> (_ & Hf)%ud_inv Hb.
    destruct Hf as [[-> ->]|[-> ->]]; cbn in Hb; destruct (i =? root)%nat; by simplify_eq.
Qed.

Lemma treeSplit_runsTo {T} (r : ringRun T) tr root depth D start fifo0 :
  TreeOk (rr_n r) root tr depth -> (forall i, (depth i <= D)%nat) -> treeRunOk r ->
  runsTo (rr_fn r) (rr_SPS r) (rr_step r) splitOwner (2 * rr_n r)
    (initConfig (tsProg r tr root) (rr_mem r) (connStart (Z.of_nat (rr_SPC r) * rr_SPS r) start) fifo0)
    (treeReduced r tr root D).
Proof.
  intros TO HD Hok. pose proof Hok as (HSPC & HSPS & Hstep & Hc & Hch & Hm & _).
  eapply (loop_runsTo (treePrims r 0 [] [])); [exact Hch|exact Hc|exact HSPC|simpl; nia|simpl; lia|nia|by apply Z.mod_mul; lia|
    by apply (tsProg_eq r tr root depth)|by apply (ts_phases r tr root depth D)|].
  intros q m Hq Hw Hu. set (i := splitOwner q) in *.
  assert (i < rr_n r)%nat as Hi by (apply Nat.Div0.div_lt_upper_bound; lia). clearbody i. split.
  - intros y Hy. rewrite <- (tsVal_down r tr root D i y). pose proof (owner_down root i) as Eo.
    destruct (Nat.eq_dec i root) as [E|Hne].
    + rewrite E in *. rewrite (gDown_root root) in *.
      apply (Hw _ _ (turnPhase r tr (gUp) (gDown root) root)); [done|by rewrite (ts_root r tr root depth)|done|done].
    + apply (Hw _ _ (downPhase r tr root (gDown root) i)); [done|by rewrite (ts_down r tr root)| |done].
      cbn. by rewrite (proj2 (Nat.eqb_neq _ _) Hne).
  - intros a Ha. apply Hu. intros j f φ b Hj (-> & Hf)%(ts_inv r tr root depth) Hb.
    destruct Hf as [[-> ->]|(c & Hc' & Hne & [[-> ->]|[-> ->]])]; cbn in Hb;
      [|by rewrite (proj2 (Nat.eqb_neq _ _) Hne) in Hb|rewrite (proj2 (Nat.eqb_neq _ _) Hne) in Hb];
      injection Hb as <-; rewrite <- Hj in Ha.
    + destruct (proc_up root) as [E _]. by rewrite E in Ha.
    + by rewrite (owner_down root) in Ha.
Qed.

(** C2: tree AllReduce with the threads of a rank split into a group that reduces
    up and a group that broadcasts down at the same time, on the same buffers,
    is correct under every interleaving of all groups: every run ends, none
    gets stuck, and then every rank holds the reduction along the tree and no
    other memory is touched.  In place, no group overwrites an input element
    before the other has read it.  The slices of a chunk go through FIFO buffers
    that are used again, into which the chunks fit. *)
Theorem runTreeSplit_correct {T} (r : ringRun T) tr root depth D start fifo0 :
  TreeOk (rr_n r) root tr depth -> (forall i, (depth i <= D)%nat) -> treeRunOk r ->
  runsTo (rr_fn r) (rr_SPS r) (rr_step r) splitOwner (2 * rr_n r)
    (initConfig (tsProg r tr root) (rr_mem r) (connStart (Z.of_nat (rr_SPC r) * rr_SPS r) start) fifo0)
    (treeReduced r tr root D).
Proof. apply treeSplit_runsTo. Qed.

Lemma treeResult_all {T} (r : ringRun T) tr root depth D y :
  TreeOk (rr_n r) root tr depth -> (forall i, (depth i <= D)%nat) ->
  (forall a b, reduceOp (rr_fn r) a b = reduceOp (rr_fn r) b a) ->
  (forall a b c, reduceOp (rr_fn r) a (reduceOp (rr_fn r) b c) = reduceOp (rr_fn r) (reduceOp (rr_fn r) a b) c) ->
  Some (treeResult r tr root D y) =
  option_map (postOpFn (rr_fn r))
    (reduceList (reduceOp (rr_fn r))
       (map (fun j => preOp (rr_fn r) (rr_mem r j (rr_in r j + rr_grid r + y))) (seq 0 (rr_n r)))).
Proof.
  intros TO HD Hc Ha. unfold treeResult, treeUpVal.
  by rewrite <- (treeReduce_all (TO := TO) (reduceOp (rr_fn r)) _ D HD Hc Ha).
Qed.

(** for a commutative and associative operator the result of tree AllReduce
    is the reduction of the inputs of all ranks, each taken once, whatever the
    shape of the tree. *)
Lemma treeAllReduce_commutative {T} (r : ringRun T) tr root depth D y :
  TreeOk (rr_n r) root tr depth -> (forall i, (depth i <= D)%nat) ->
  (forall a b, reduceOp (rr_fn r) a b = reduceOp (rr_fn r) b a) ->
  (forall a b c, reduceOp (rr_fn r) a (reduceOp (rr_fn r) b c) = reduceOp (rr_fn r) (reduceOp (rr_fn r) a b) c) ->
  Some (treeResult r tr root D y) =
  option_map (postOpFn (rr_fn r))
    (reduceList (reduceOp (rr_fn r))
       (map (fun j => preOp (rr_fn r) (rr_mem r j (rr_in r j + rr_grid r + y))) (seq 0 (rr_n r)))).
Proof. apply treeResult_all. Qed.

(** Four ranks: 0 above 1 and 2, 1 above 3; in place on ranks 0 and 1. *)
Definition fourTree (i : nat) : ncclTree :=
  match i with
  | 0%nat => {| treeDepth := 2; up := -1; down := [1; 2; -1] |}
  | 1%nat => {| treeDepth := 2; up := 0; down := [3; -1; -1] |}
  | 2%nat => {| treeDepth := 2; up := 0; down := [-1; -1; -1] |}
  | _ => {| treeDepth := 2; up := 1; down := [-1; -1; -1] |}
  end.

Definition fourDepth (i : nat) : nat := match i with 0%nat => 0 | 3%nat => 2 | _ => 1 end.

Definition treeRunExample : ringRun Z := {|
  rr_fn := {| preOp := fun x => x; reduceOp := Z.add; postOpFn := fun x => x |};
  rr_n := 4; rr_grid := 2; rr_count := 5; rr_chunk := 4; rr_elt := 4;
  rr_in := fun _ => 100; rr_out := fun i => if (i <? 2)%nat then 100 else 200;
  rr_step := 64; rr_SPC := 1; rr_SPS := 1;
  rr_mem := fun i a => Z.of_nat i * 1000 + a |}.

#[global] Instance fourTree_ok : TreeOk 4 0 fourTree fourDepth.
Proof.
  split.
  - split; [lia|done].
  - intros [|[|[|]]] _; done.
  - done.
  - intros [|[|[|[|r]]]] Hr Hne; try lia; [exists 0%nat|exists 0%nat|exists 1%nat]; (split; [lia|]); (split; [done|]);
      (split; [|simpl; lia]); apply isIn_spec; reflexivity.
  - intros [|[|[|[|p]]]] c Hp; cbn; try lia; intros Hc;
      repeat (apply elem_of_cons in Hc as [Hc|Hc]; [|]); try (by apply not_elem_of_nil in Hc);
      [assert (c = 1%nat) as -> by lia|assert (c = 2%nat) as -> by lia|assert (c = 3%nat) as -> by lia]; split_and!; (done || lia).
  - intros [|[|[|[|p]]]] x Hp; cbn; try lia; intros Hc;
      repeat (apply elem_of_cons in Hc as [Hc|Hc]; [lia|]); by apply not_elem_of_nil in Hc.
  - intros [|[|[|[|p]]]] Hp; try lia; apply (bool_decide_unpack (NoDup _)); reflexivity.
Qed.

Lemma treeRunExample_ok : treeRunOk treeRunExample.
Proof.
  unfold treeRunOk, fifoFits. split_and!; try (unfold NCCL_STEPS; cbn; lia); [vm_compute; congruence..|]. intros [|[|i]] _; [by left|by left|right]. simpl. lia.
Qed.

Lemma runTreeUpDown_correct_witness :
  runsTo (rr_fn treeRunExample) 1 64 id 4
    (initConfig (udProg treeRunExample fourTree) (rr_mem treeRunExample) (connStart 1 (fun _ _ => 3)) (fun _ _ _ => 0))
    (treeReduced treeRunExample fourTree 0 2).
Proof.
  apply (runTreeUpDown_correct treeRunExample fourTree 0 fourDepth 2 (fun _ _ => 3) (fun _ _ _ => 0)).
  - exact fourTree_ok.
  - intros [|[|[|[|i]]]]; simpl; lia.
  - exact treeRunExample_ok.
Defined.

Lemma runTreeSplit_correct_witness :
  runsTo (rr_fn treeRunExample) 1 64 splitOwner 8
    (initConfig (tsProg treeRunExample fourTree 0) (rr_mem treeRunExample) (connStart 1 (fun _ _ => 3)) (fun _ _ _ => 0))
    (treeReduced treeRunExample fourTree 0 2).
Proof.
  apply (runTreeSplit_correct treeRunExample fourTree 0 fourDepth 2 (fun _ _ => 3) (fun _ _ _ => 0)).
  - exact fourTree_ok.
  - intros [|[|[|[|i]]]]; simpl; lia.
  - exact treeRunExample_ok.
Defined.

Lemma treeAllReduce_commutative_example :
  Some (treeResult treeRunExample fourTree 0 2 3) = Some (105 + (1105 + (2105 + 3105))).
Proof.
  rewrite (treeAllReduce_commutative treeRunExample fourTree 0 fourDepth 2 3).
  - reflexivity.
  - exact fourTree_ok.
  - intros [|[|[|[|i]]]]; simpl; lia.
  - intros; simpl; lia.
  - intros; simpl; lia.
Defined.
