(* ===== verification/Connect.v ===== *)
(** * Connecting channels (src/src/graph/connect.cc)

    Every rank lays out the ring and tree fragments of its node
    ([ncclTopoPreset]); after all ranks have exchanged their fragments, each
    connects them across nodes ([connectRings], [connectTrees]).  The file
    proves that what the ranks compute separately is, on every channel and for
    both trees of the double binary tree, one tree over all ranks, in the sense
    the tree kernels rely on ([TreeOk]). *)

From stdpp Require Import base numbers list relations.
From Stdlib Require Import ZArith Lia.
From S2P Require Import Prelude Bitops Prims Net DevWork Loops RingNet PhaseNet RingColl TreeColl Trees.

Local Open Scope Z_scope.

(** ** State *)

(* src/src/include/graph.h:171-180 NCCL_TOPO_PATTERN_BALANCED_TREE *)
Inductive topoPattern := BALANCED_TREE | SPLIT_TREE | TREE | RING | NVLS | COLLNET_DIRECT.

#[global] Instance topoPattern_eq_dec : EqDecision topoPattern.
Proof. solve_decision. Defined.

(** The fields of a graph the code reads; [intra] is the flat array. *)
(* src/src/include/graph.h:181-213 ncclTopoGraph *)
Record ncclTopoGraph := {
  pattern : topoPattern;
  crossNic : Z;
  gChannels : nat;
  intra : nat -> Z }.

(** What a rank tells the others about one channel. *)
(* src/src/include/graph.h:219-235 ncclTopoRanks *)
Record chanRanks := {
  ringRecv : Z; ringSend : Z; ringPrev : Z; ringNext : Z;
  treeToParent : Z; treeToChild0 : Z; treeToChild1 : Z }.

Record ncclTopoRanks := {
  crossNicRing : Z;
  trChan : nat -> chanRanks;
  nvlsHeads : list Z }.

(* src/src/include/device.h:203-214 ncclDirect *)
Record ncclDirect := {
  dDepth : Z; dOut : Z; dNHeads : Z; dHeadRank : Z; dShift : Z;
  dHeads : list Z; dUp : list Z; dDown : list Z }.

(** The topology fields of a channel. *)
Record ncclChannel := {
  ring_prev : Z; ring_next : Z;
  tree : ncclTree;
  collnetChain : ncclTree;
  collnetDirect : ncclDirect }.

(* src/src/include/device.h:202-202 NCCL_MAX_DIRECT_ARITY *)
Definition NCCL_MAX_DIRECT_ARITY : nat := 7.

(** ** The code *)

(** [for (c = 0; c < n; c++) a[c] = f(c, a[c])]. *)
Definition forChannels {A} (n : nat) (f : nat -> A -> A) (a : nat -> A) : nat -> A :=
  fold_left (fun a c => upd a c (f c (a c))) (seq 0 n) a.

(** The body of the loop over channels. *)
(* src/src/graph/connect.cc:27-87 ncclTopoPreset *)
Definition presetChannel (rank : Z) (localRanks nRanks : nat) (graph : topoPattern)
    (ringIntra treeIntra collNetIntra : nat -> Z) (ch : ncclChannel) (tr : chanRanks) : ncclChannel * chanRanks :=
  let ch := {|
    ring_prev := -1; ring_next := -1;
    tree := {| treeDepth := treeDepth (tree ch); up := -1; down := replicate NCCL_MAX_TREE_ARITY (-1) |};
    collnetChain := {| treeDepth := treeDepth (collnetChain ch); up := -1; down := replicate NCCL_MAX_TREE_ARITY (-1) |};
    collnetDirect := {|
      dDepth := dDepth (collnetDirect ch); dOut := -1; dNHeads := 0; dHeadRank := -1; dShift := 0;
      dHeads := replicate (NCCL_MAX_DIRECT_ARITY + 1) (-1); dUp := replicate NCCL_MAX_DIRECT_ARITY (-1);
      dDown := replicate NCCL_MAX_DIRECT_ARITY (-1) |} |} in
  let last i := (i =? localRanks - 1)%nat in
  fold_left (fun '(ch, tr) i =>
    let tr :=
      if ringIntra i =? rank then {|
        ringRecv := ringIntra 0%nat; ringSend := ringIntra (localRanks - 1)%nat;
        ringPrev := if (i =? 0)%nat then -1 else ringIntra (i - 1)%nat;
        ringNext := if last i then -1 else ringIntra (i + 1)%nat;
        treeToParent := treeToParent tr; treeToChild0 := treeToChild0 tr; treeToChild1 := treeToChild1 tr |}
      else tr in
    let '(ch, tr) :=
      if treeIntra i =? rank then
        let child0Index := if decide (graph = TREE) then 0%nat else 1%nat in
        let child1Index := if decide (graph = SPLIT_TREE) then 1%nat else 0%nat in
        ({| ring_prev := ring_prev ch; ring_next := ring_next ch;
            tree := {| treeDepth := treeDepth (tree ch);
                       up := if (i =? 0)%nat then -1 else treeIntra (i - 1)%nat;
                       down := <[0%nat := if last i then -1 else treeIntra (i + 1)%nat]> (down (tree ch)) |};
            collnetChain := collnetChain ch; collnetDirect := collnetDirect ch |},
         {| ringRecv := ringRecv tr; ringSend := ringSend tr; ringPrev := ringPrev tr; ringNext := ringNext tr;
            treeToParent := treeIntra 0%nat; treeToChild0 := treeIntra child0Index; treeToChild1 := treeIntra child1Index |})
      else (ch, tr) in
    let ch :=
      if collNetIntra i =? rank then
        {| ring_prev := ring_prev ch; ring_next := ring_next ch; tree := tree ch;
           collnetChain := {| treeDepth := treeDepth (collnetChain ch);
             up := if (i =? 0)%nat then Z.of_nat nRanks else collNetIntra (i - 1)%nat;
             down := <[0%nat := if last i then -1 else collNetIntra (i + 1)%nat]> (down (collnetChain ch)) |};
           collnetDirect := collnetDirect ch |}
      else ch in
    (ch, tr)) (seq 0 localRanks) (ch, tr).

(** The heads of the NVLS graph without duplicates, in order. *)
(* src/src/graph/connect.cc:94-110 ncclTopoPreset *)
Definition presetHeads (localRanks : nat) (nvls : ncclTopoGraph) : list Z :=
  fold_left (fun heads c =>
    let head := intra nvls (c * localRanks)%nat in
    if existsb (Z.eqb head) heads then heads else heads ++ [head]) (seq 0 (gChannels nvls)) [].

(* src/src/graph/connect.cc:20-115 ncclTopoPreset *)
Definition ncclTopoPreset (rank : Z) (localRanks nRanks nChannels : nat)
    (ring tree_ collNet nvls : ncclTopoGraph) (channels : nat -> ncclChannel) (topoRanks : ncclTopoRanks) :
    (nat -> ncclChannel) * ncclTopoRanks :=
  let one c := presetChannel rank localRanks nRanks (pattern tree_)
    (fun i => intra ring (c * localRanks + i)%nat) (fun i => intra tree_ (c * localRanks + i)%nat)
    (fun i => intra collNet (c * localRanks + i)%nat) (channels c) (trChan topoRanks c) in
  let channels' := forChannels nChannels (fun c _ => fst (one c)) channels in
  (fun c => if ((nChannels <=? c) && (c <? 2 * nChannels))%nat then channels' (c - nChannels)%nat else channels' c,
   {| crossNicRing := crossNic ring;
      trChan := forChannels nChannels (fun c _ => snd (one c)) (trChan topoRanks);
      nvlsHeads := presetHeads localRanks nvls |}).

(** One channel of [connectRings]: [prev] and [next] by rank. *)
(* src/src/graph/connect.cc:117-136 connectRings *)
Definition connectRings (nNodes : nat) (recv send : nat -> Z) (prev next : Z -> Z) : (Z -> Z) * (Z -> Z) :=
  let set (f : Z -> Z) k v := fun x => if x =? k then v else f x in
  fold_left (fun '(prev, next) n =>
    (set prev (recv n) (send ((n + nNodes - 1) mod nNodes)%nat),
     set next (send n) (recv ((n + 1) mod nNodes)%nat))) (seq 0 nNodes) (prev, next).

(* src/src/graph/connect.cc:143-147 setTreeUp *)
Definition setTreeUp (t : ncclTree) (indexes : Z -> Z) (u : Z) : ncclTree :=
  if u =? -1 then t else {| treeDepth := treeDepth t; up := indexes u; down := down t |}.

(** The first free slot. *)
Fixpoint freeSlot (l : list Z) : nat :=
  match l with
  | d :: l => if 0 <=? d then S (freeSlot l) else 0
  | [] => 0
  end.

(* src/src/graph/connect.cc:149-159 setTreeDown *)
Definition setTreeDown (t : ncclTree) (indexes : Z -> Z) (d : Z) : ncclResult_t * ncclTree :=
  if d =? -1 then (ncclSuccess, t) else
  let x := freeSlot (take NCCL_MAX_TREE_ARITY (down t)) in
  if (x =? NCCL_MAX_TREE_ARITY)%nat then (ncclInternalError, t)
  else (ncclSuccess, {| treeDepth := treeDepth t; up := up t; down := <[x := indexes d]> (down t) |}).

(** [NCCLCHECK]: go on while calls succeed. *)
Definition andThen {S} (r : ncclResult_t * S) (f : S -> ncclResult_t * S) : ncclResult_t * S :=
  match r with (ncclSuccess, s) => f s | _ => r end.

(** One tree of one channel; [t] is the node's place in the tree of nodes. *)
(* src/src/graph/connect.cc:172-197 connectTrees *)
Definition connectTree (rank node depth : Z) (t : treeNode) (ttp ttc0 ttc1 : Z -> Z) (tr : ncclTree) :
    ncclResult_t * ncclTree :=
  let tr := if rank =? ttp node then setTreeUp tr (if tnType t =? 0 then ttc0 else ttc1) (tnUp t) else tr in
  andThen (andThen (if rank =? ttc0 node then setTreeDown tr ttp (tnDown0 t) else (ncclSuccess, tr))
    (fun tr => if rank =? ttc1 node then setTreeDown tr ttp (tnDown1 t) else (ncclSuccess, tr)))
    (fun tr => (ncclSuccess, {| treeDepth := depth; up := up tr; down := down tr |})).

(** [log2i]. *)
(* src/src/include/utils.h:56-58 log2i *)
Definition log2i (n : Z) : Z := log2Down i64 n.

(* src/src/graph/connect.cc:161-199 connectTrees *)
Definition connectTrees (rank : Z) (nRanks nNodes : nat) (node : Z) (nChannels : nat)
    (treeToParent treeToChild0 treeToChild1 : nat -> Z -> Z) (channels : nat -> ncclChannel) :
    ncclResult_t * (nat -> ncclChannel) :=
  let depth := Z.of_nat nRanks / Z.of_nat nNodes - 1 + log2i (Z.of_nat nNodes) in
  let '(t0, t1) := ncclGetDtree (Z.of_nat nNodes) node 0 0 in
  let setTree ch tr := {| ring_prev := ring_prev ch; ring_next := ring_next ch; tree := tr;
    collnetChain := collnetChain ch; collnetDirect := collnetDirect ch |} in
  fold_left (fun acc c =>
    andThen acc (fun channels =>
      let connect t c' channels :=
        match connectTree rank node depth t (treeToParent c) (treeToChild0 c) (treeToChild1 c) (tree (channels c')) with
        | (res, tr) => (res, upd channels c' (setTree (channels c') tr))
        end in
      andThen (connect t0 c channels) (connect t1 (c + nChannels)%nat)))
    (seq 0 nChannels) (ncclSuccess, channels).

(** ** Children lists *)

(** The [down] array that holds the children [l]. *)
Definition padded (l : list Z) : list Z := l ++ replicate (NCCL_MAX_TREE_ARITY - length l) (-1).

Lemma padded_length l : (length l <= NCCL_MAX_TREE_ARITY)%nat -> length (padded l) = NCCL_MAX_TREE_ARITY.
Proof. intros H. unfold padded. rewrite length_app, length_replicate. lia. Qed.

Lemma fan_padded l m :
  Forall (fun x => 0 <= x) l -> (length l <= m <= NCCL_MAX_TREE_ARITY)%nat -> fanPeers m (padded l) = l.
Proof.
  intros Hl. unfold padded. generalize (NCCL_MAX_TREE_ARITY - length l)%nat as k. revert m.
  induction Hl as [|x l Hx _ IH]; intros m k Hm; cbn [app].
  - destruct m, k; done.
  - destruct m as [|m]; [simpl in Hm; lia|]. cbn [fanPeers].
    rewrite (proj2 (Z.eqb_neq _ _)) by lia. rewrite IH; [done|]. simpl in Hm. lia.
Qed.

Lemma freeSlot_padded l : Forall (fun x => 0 <= x) l -> freeSlot (padded l) = length l.
Proof.
  intros Hl. unfold padded. generalize (NCCL_MAX_TREE_ARITY - length l)%nat as k.
  induction Hl as [|x l Hx _ IH]; intros k; cbn [app].
  - by destruct k.
  - cbn [freeSlot]. rewrite (proj2 (Z.leb_le _ _)) by lia. simpl. by rewrite IH.
Qed.

(** Adding a child to a rank with room for it. *)
Lemma setTreeDown_ok t indexes d l :
  down t = padded l -> Forall (fun x => 0 <= x) l -> (length l < NCCL_MAX_TREE_ARITY)%nat ->
  setTreeDown t indexes d =
  (ncclSuccess, {| treeDepth := treeDepth t; up := up t; down := padded (l ++ if d =? -1 then [] else [indexes d]) |}).
Proof.
  intros Hd Hl Hlen. unfold setTreeDown. destruct (d =? -1).
  - rewrite app_nil_r, <- Hd. by destruct t.
  - rewrite Hd, firstn_all2 by (rewrite padded_length; lia). rewrite freeSlot_padded by done.
    rewrite (proj2 (Nat.eqb_neq _ _)) by lia. do 2 f_equal. unfold padded. rewrite insert_app_r_alt by lia.
    rewrite Nat.sub_diag, length_app, <- app_assoc. f_equal. simpl length.
    destruct (NCCL_MAX_TREE_ARITY - length l)%nat as [|k] eqn:E; [lia|]. simpl. do 2 f_equal. lia.
Qed.

(** ** One tree over the ranks *)

Section cluster.
Context (nNodes nRanks : nat) (L : nat -> nat) (rankOf : nat -> nat -> nat) (nodeOf idxOf : nat -> nat).
Context (pat : nat -> topoPattern).

(** Node [m] has [L m] ranks, [rankOf m i] in the order of the channel. *)
Record clusterOk : Prop := {
  cl_nodes : (0 < nNodes)%nat /\ Z.of_nat nNodes <= 2 ^ 30;
  cl_local m : (m < nNodes)%nat -> (0 < L m)%nat /\ (pat m = TREE \/ (2 <= L m)%nat);
  cl_rank m i : (m < nNodes)%nat -> (i < L m)%nat -> (rankOf m i < nRanks)%nat /\ nodeOf (rankOf m i) = m /\ idxOf (rankOf m i) = i;
  cl_node r : (r < nRanks)%nat -> (nodeOf r < nNodes)%nat /\ (idxOf r < L (nodeOf r))%nat /\ rankOf (nodeOf r) (idxOf r) = r }.

Definition child0Index (m : nat) : nat := if decide (pat m = TREE) then 0%nat else 1%nat.
Definition child1Index (m : nat) : nat := if decide (pat m = SPLIT_TREE) then 1%nat else 0%nat.

(** The fragment a rank starts with. *)
Definition startTree (td : Z) (r : nat) : ncclTree :=
  let m := nodeOf r in let i := idxOf r in {|
  treeDepth := td;
  up := if (i =? 0)%nat then -1 else Z.of_nat (rankOf m (i - 1));
  down := padded (if (i =? L m - 1)%nat then [] else [Z.of_nat (rankOf m (i + 1))]) |}.

Context (t : Z -> treeNode) (rootNode : nat) (depth td : Z).

Definition ttp (m : Z) : Z := Z.of_nat (rankOf (Z.to_nat m) 0).
Definition ttc0 (m : Z) : Z := Z.of_nat (rankOf (Z.to_nat m) (child0Index (Z.to_nat m))).
Definition ttc1 (m : Z) : Z := Z.of_nat (rankOf (Z.to_nat m) (child1Index (Z.to_nat m))).

(** The tree of rank [r] once connected. *)
Definition rankTree (r : nat) : ncclResult_t * ncclTree :=
  let m := Z.of_nat (nodeOf r) in connectTree (Z.of_nat r) m depth (t m) ttp ttc0 ttc1 (startTree td r).

(** Its children: the next rank of the node, then the nodes below. *)
Definition chainKid (r : nat) : list nat :=
  if (idxOf r =? L (nodeOf r) - 1)%nat then [] else [rankOf (nodeOf r) (idxOf r + 1)].
Definition nodeKid (r ci : nat) (d : Z) : list nat :=
  if (idxOf r =? ci)%nat && negb (d =? -1) then [rankOf (Z.to_nat d) 0] else [].
Definition allKids (r : nat) : list nat :=
  let n := t (Z.of_nat (nodeOf r)) in
  chainKid r ++ nodeKid r (child0Index (nodeOf r)) (tnDown0 n) ++ nodeKid r (child1Index (nodeOf r)) (tnDown1 n).

Definition rankUp (r : nat) : Z :=
  let n := t (Z.of_nat (nodeOf r)) in
  if (idxOf r =? 0)%nat then
    (if tnUp n =? -1 then -1 else if tnType n =? 0 then ttc0 (tnUp n) else ttc1 (tnUp n))
  else Z.of_nat (rankOf (nodeOf r) (idxOf r - 1)).

Context (C : clusterOk) (HT : isTree (Z.of_nat nNodes) (Z.of_nat rootNode) t).

Lemma child_index_lt m : (m < nNodes)%nat -> (child0Index m < L m)%nat /\ (child1Index m < L m)%nat.
Proof.
  intros Hm. destruct (cl_local C m Hm) as [H1 H2]. unfold child0Index, child1Index.
  destruct (decide (pat m = TREE)), (decide (pat m = SPLIT_TREE)); destruct H2; (congruence || lia).
Qed.

(** Comparing a rank with the rank of its node at some index. *)
Lemma rank_at r i :
  (r < nRanks)%nat -> (i < L (nodeOf r))%nat -> (Z.of_nat r =? Z.of_nat (rankOf (nodeOf r) i)) = (idxOf r =? i)%nat.
Proof.
  intros Hr Hi. destruct (cl_node C r Hr) as (Hm & Hi' & E). destruct (cl_rank C _ _ Hm Hi) as (_ & _ & Ei).
  destruct (Nat.eqb_spec (idxOf r) i) as [<-|Hne]; [rewrite E; apply Z.eqb_refl|].
  apply Z.eqb_neq. intros E'. apply Nat2Z.inj in E'. apply Hne. by rewrite E'.
Qed.

Lemma rankTree_eq r :
  (r < nRanks)%nat ->
  rankTree r = (ncclSuccess, {| treeDepth := depth; up := rankUp r; down := padded (map Z.of_nat (allKids r)) |}).
Proof.
  intros Hr. destruct (cl_node C r Hr) as (Hm & Hi & _). destruct (child_index_lt _ Hm) as [H0 H1].
  destruct (cl_local C _ Hm) as [HL _]. unfold rankTree, connectTree.
  set (m := Z.of_nat (nodeOf r)).
  assert ((Z.of_nat r =? ttp m) = (idxOf r =? 0)%nat) as -> by (unfold ttp, m; rewrite Nat2Z.id; by apply rank_at).
  assert ((Z.of_nat r =? ttc0 m) = (idxOf r =? child0Index (nodeOf r))%nat) as ->
    by (unfold ttc0, m; rewrite Nat2Z.id; by apply rank_at).
  assert ((Z.of_nat r =? ttc1 m) = (idxOf r =? child1Index (nodeOf r))%nat) as ->
    by (unfold ttc1, m; rewrite Nat2Z.id; by apply rank_at).
  set (n := t m).
  set (tr := if (idxOf r =? 0)%nat then _ else _).
  assert (tr = {| treeDepth := td; up := rankUp r; down := padded (map Z.of_nat (chainKid r)) |}) as ->.
  { unfold tr, rankUp, chainKid, startTree, setTreeUp. fold m n. destruct (idxOf r =? 0)%nat, (idxOf r =? L (nodeOf r) - 1)%nat;
      cbn [up down treeDepth map]; try done; destruct (tnUp n =? -1); try done; by destruct (tnType n =? 0). }
  assert (forall l, Forall (fun x => 0 <= x) (map Z.of_nat l)) as Hpos.
  { intros l. apply Forall_forall. intros x (y & -> & _)%list_elem_of_fmap. lia. }
  assert (length (chainKid r) <= 1)%nat as Hc by (unfold chainKid; destruct (_ =? _)%nat; simpl; lia).
  assert (forall ci d, (length (nodeKid r ci d) <= 1)%nat) as Hk by (intros; unfold nodeKid; destruct (_ && _); simpl; lia).
  assert (forall l ci d, (length l < 3)%nat ->
    (if (idxOf r =? ci)%nat then setTreeDown {| treeDepth := td; up := rankUp r; down := padded (map Z.of_nat l) |} ttp d
     else (ncclSuccess, {| treeDepth := td; up := rankUp r; down := padded (map Z.of_nat l) |})) =
    (ncclSuccess, {| treeDepth := td; up := rankUp r; down := padded (map Z.of_nat (l ++ nodeKid r ci d)) |})) as Hstep.
  { intros l ci d Hlen. unfold nodeKid. destruct (idxOf r =? ci)%nat; cbn [andb]; [|by rewrite app_nil_r].
    rewrite (setTreeDown_ok _ _ _ (map Z.of_nat l)); [|done|done|by rewrite length_map].
    rewrite map_app. by destruct (d =? -1). }
  rewrite (Hstep (chainKid r)) by lia. cbn [andThen].
  rewrite Hstep by (rewrite length_app; specialize (Hk (child0Index (nodeOf r)) (tnDown0 n)); lia).
  cbn [andThen up down]. unfold allKids. fold m n. by rewrite app_assoc.
Qed.

Definition rootRank : nat := rankOf rootNode 0.
Definition finalTree (r : nat) : ncclTree := snd (rankTree r).

Local Abbreviation N := (Z.of_nat nNodes).
Local Abbreviation T m := (t (Z.of_nat m)).

Lemma root_node : (rootNode < nNodes)%nat /\ tnUp (T rootNode) = -1 /\ tnDown0 (T rootNode) = -1.
Proof. destruct (tree_root _ _ _ HT) as (? & ? & ?). split; [lia|done]. Qed.

Lemma first_rank m : (m < nNodes)%nat -> (rankOf m 0 < nRanks)%nat /\ nodeOf (rankOf m 0) = m /\ idxOf (rankOf m 0) = 0%nat.
Proof. intros Hm. destruct (cl_local C m Hm) as [HL _]. by apply (cl_rank C). Qed.

Lemma is_root r : (r < nRanks)%nat -> r = rootRank <-> nodeOf r = rootNode /\ idxOf r = 0%nat.
Proof.
  intros Hr. destruct root_node as [Hn _]. destruct (first_rank rootNode Hn) as (_ & E1 & E2).
  destruct (cl_node C r Hr) as (_ & _ & E). split; [intros ->; done|]. intros [E3 E4]. rewrite <- E, E3, E4. done.
Qed.

(** A node below: its first rank names the right rank of the node above. *)
Lemma node_child p m :
  (p < nNodes)%nat -> (m < nNodes)%nat ->
  (tnDown0 (T p) = Z.of_nat m -> m <> rootNode /\ rankUp (rankOf m 0) = Z.of_nat (rankOf p (child0Index p))) /\
  (tnDown1 (T p) = Z.of_nat m -> m <> rootNode /\ rankUp (rankOf m 0) = Z.of_nat (rankOf p (child1Index p))).
Proof.
  intros Hp Hm. destruct (first_rank m Hm) as (_ & E1 & E2). unfold rankUp. rewrite E1, E2. cbn [Nat.eqb].
  split; intros H.
  - apply (tree_down0 _ _ _ HT) in H as (Hne & -> & ->); [|lia|lia]. split; [by intros ->|].
    rewrite (proj2 (Z.eqb_neq _ _)) by lia. cbn. unfold ttc0. by rewrite Nat2Z.id.
  - apply (tree_down1 _ _ _ HT) in H as (Hne & -> & ->); [|lia|lia]. split; [by intros ->|].
    rewrite (proj2 (Z.eqb_neq _ _)) by lia. cbn. unfold ttc1. by rewrite Nat2Z.id.
Qed.

Lemma node_down m :
  (m < nNodes)%nat ->
  (tnDown0 (T m) = -1 \/ exists c, (c < nNodes)%nat /\ tnDown0 (T m) = Z.of_nat c) /\
  (tnDown1 (T m) = -1 \/ exists c, (c < nNodes)%nat /\ tnDown1 (T m) = Z.of_nat c).
Proof.
  intros Hm. destruct (tree_down _ _ _ HT (Z.of_nat m) ltac:(lia)) as [H0 H1]. split.
  - destruct H0 as [|H0]; [by left|right]. exists (Z.to_nat (tnDown0 (T m))). lia.
  - destruct H1 as [|H1]; [by left|right]. exists (Z.to_nat (tnDown1 (T m))). lia.
Qed.

(** The members of the children list. *)
Lemma kid_cases r c :
  (r < nRanks)%nat -> c ∈ allKids r ->
  ((idxOf r + 1 < L (nodeOf r))%nat /\ c = rankOf (nodeOf r) (idxOf r + 1)) \/
  (exists m, (m < nNodes)%nat /\ c = rankOf m 0 /\ idxOf r = child0Index (nodeOf r) /\ tnDown0 (T (nodeOf r)) = Z.of_nat m) \/
  (exists m, (m < nNodes)%nat /\ c = rankOf m 0 /\ idxOf r = child1Index (nodeOf r) /\ tnDown1 (T (nodeOf r)) = Z.of_nat m).
Proof.
  intros Hr Hc. destruct (cl_node C r Hr) as (Hm & Hi & _). destruct (node_down _ Hm) as [D0 D1].
  unfold allKids, chainKid, nodeKid in Hc. apply elem_of_app in Hc as [Hc|Hc]; [left|right; apply elem_of_app in Hc as [Hc|Hc]; [left|right]].
  - destruct (Nat.eqb_spec (idxOf r) (L (nodeOf r) - 1)); [by apply not_elem_of_nil in Hc|].
    apply list_elem_of_singleton in Hc. split; [lia|done].
  - destruct (Nat.eqb_spec (idxOf r) (child0Index (nodeOf r))); [|by apply not_elem_of_nil in Hc].
    destruct D0 as [E|(m & Hmn & E)]; rewrite E in Hc; [by apply not_elem_of_nil in Hc|].
    rewrite (proj2 (Z.eqb_neq _ _)) in Hc by lia. apply list_elem_of_singleton in Hc. exists m. by rewrite Hc, Nat2Z.id.
  - destruct (Nat.eqb_spec (idxOf r) (child1Index (nodeOf r))); [|by apply not_elem_of_nil in Hc].
    destruct D1 as [E|(m & Hmn & E)]; rewrite E in Hc; [by apply not_elem_of_nil in Hc|].
    rewrite (proj2 (Z.eqb_neq _ _)) in Hc by lia. apply list_elem_of_singleton in Hc. exists m. by rewrite Hc, Nat2Z.id.
Qed.

Lemma kid_up r c :
  (r < nRanks)%nat -> c ∈ allKids r -> (c < nRanks)%nat /\ c <> rootRank /\ rankUp c = Z.of_nat r.
Proof.
  intros Hr Hc. destruct (cl_node C r Hr) as (Hm & Hi & Er).
  destruct (kid_cases r c Hr Hc) as [[Hl ->]|[(m & Hmn & -> & Ei & Ed)|(m & Hmn & -> & Ei & Ed)]].
  - destruct (cl_rank C _ _ Hm Hl) as (H1 & H2 & H3). split; [done|]. split.
    + intros E%(is_root _ H1). lia.
    + unfold rankUp. rewrite H2, H3, (proj2 (Nat.eqb_neq _ _)) by lia. rewrite Nat.add_sub. by rewrite Er.
  - destruct (first_rank m Hmn) as (H1 & H2 & H3). destruct (proj1 (node_child _ m Hm Hmn) Ed) as [Hne ->].
    split; [done|]. split; [intros E%(is_root _ H1); destruct E; congruence|]. by rewrite <- Ei, Er.
  - destruct (first_rank m Hmn) as (H1 & H2 & H3). destruct (proj2 (node_child _ m Hm Hmn) Ed) as [Hne ->].
    split; [done|]. split; [intros E%(is_root _ H1); destruct E; congruence|]. by rewrite <- Ei, Er.
Qed.

(** Every other rank is among the children of the rank it names. *)
Lemma up_kid c :
  (c < nRanks)%nat -> c <> rootRank ->
  exists p, (p < nRanks)%nat /\ rankUp c = Z.of_nat p /\ c ∈ allKids p /\
    (nodeOf p = nodeOf c /\ (idxOf p < idxOf c)%nat \/ tnUp (T (nodeOf c)) = Z.of_nat (nodeOf p) /\ nodeOf c <> rootNode).
Proof.
  intros Hc Hne. destruct (cl_node C c Hc) as (Hm & Hi & Ec). unfold rankUp.
  destruct (Nat.eqb_spec (idxOf c) 0) as [E0|E0].
  - assert (nodeOf c <> rootNode) as Hnr by (intros E; apply Hne, is_root; done).
    assert (Z.of_nat (nodeOf c) <> Z.of_nat rootNode) as Hnr' by lia.
    pose proof (tree_up _ _ _ HT (Z.of_nat (nodeOf c)) ltac:(lia) Hnr') as Hup.
    destruct (tree_type _ _ _ HT (Z.of_nat (nodeOf c)) ltac:(lia) Hnr') as [Ht|Ht].
    all: set (p := Z.to_nat (tnUp (T (nodeOf c)))); assert (tnUp (T (nodeOf c)) = Z.of_nat p) as Ep by lia.
    all: assert (p < nNodes)%nat as Hp by lia; destruct (child_index_lt p Hp) as [H0 H1].
    all: rewrite Ht, Ep, (proj2 (Z.eqb_neq _ _)) by lia; cbn; unfold ttc0, ttc1; rewrite Nat2Z.id.
    + destruct (cl_rank C p _ Hp H0) as (Hr & E1 & E2). exists (rankOf p (child0Index p)). split_and!; [done|done| |right; by rewrite E1].
      unfold allKids, nodeKid. rewrite E1, E2, Nat.eqb_refl.
      assert (tnDown0 (T p) = Z.of_nat (nodeOf c)) as Ed by (apply (tree_down0 _ _ _ HT); [lia|lia|done]).
      rewrite Ed, (proj2 (Z.eqb_neq _ _)) by lia. cbn. rewrite Nat2Z.id, <- E0, Ec. apply elem_of_app. right. by left.
    + destruct (cl_rank C p _ Hp H1) as (Hr & E1 & E2). exists (rankOf p (child1Index p)). split_and!; [done|done| |right; by rewrite E1].
      unfold allKids, nodeKid. rewrite E1, E2, Nat.eqb_refl.
      assert (tnDown1 (T p) = Z.of_nat (nodeOf c)) as Ed by (apply (tree_down1 _ _ _ HT); [lia|lia|done]).
      rewrite Ed, (proj2 (Z.eqb_neq (Z.of_nat _) (-1))) by lia. cbn [negb andb]. rewrite Nat2Z.id, <- E0, Ec.
      apply elem_of_app. right. apply elem_of_app. right. by left.
  - destruct (cl_rank C (nodeOf c) (idxOf c - 1) Hm ltac:(lia)) as (Hr & E1 & E2).
    exists (rankOf (nodeOf c) (idxOf c - 1)). split_and!; [done|done| |left; rewrite E1, E2; lia].
    unfold allKids, chainKid. rewrite E1, E2, (proj2 (Nat.eqb_neq _ _)) by lia.
    replace (idxOf c - 1 + 1)%nat with (idxOf c) by lia. rewrite Ec. by left.
Qed.

Lemma allKids_nodup r : (r < nRanks)%nat -> NoDup (allKids r).
Proof.
  intros Hr. destruct (cl_node C r Hr) as (Hm & Hi & _). destruct (node_down _ Hm) as [D0 D1].
  unfold allKids. apply NoDup_app. split_and!.
  - unfold chainKid. destruct (_ =? _)%nat; [apply NoDup_nil; done|apply NoDup_singleton].
  - intros c Hc Hc'. unfold chainKid in Hc. destruct (Nat.eqb_spec (idxOf r) (L (nodeOf r) - 1)); [by apply not_elem_of_nil in Hc|].
    apply list_elem_of_singleton in Hc. destruct (cl_rank C (nodeOf r) (idxOf r + 1) Hm ltac:(lia)) as (_ & _ & E).
    assert (idxOf c = 0)%nat; [|rewrite Hc in *; lia].
    unfold nodeKid in Hc'. apply elem_of_app in Hc' as [H|H]; destruct (_ && _) eqn:Eb; try (by apply not_elem_of_nil in H);
      apply list_elem_of_singleton in H as ->; apply andb_true_iff in Eb as [_ Eb%negb_true_iff%Z.eqb_neq].
    + destruct D0 as [|(m & Hmn & ->)]; [done|]. rewrite Nat2Z.id. by apply first_rank.
    + destruct D1 as [|(m & Hmn & ->)]; [done|]. rewrite Nat2Z.id. by apply first_rank.
  - apply NoDup_app. split_and!.
    + unfold nodeKid. destruct (_ && _); [apply NoDup_singleton|apply NoDup_nil; done].
    + intros c Hc Hc'. unfold nodeKid in *. destruct (_ && _) eqn:E0; [|by apply not_elem_of_nil in Hc].
      destruct ((idxOf r =? child1Index (nodeOf r))%nat && _) eqn:E1; [|by apply not_elem_of_nil in Hc'].
      apply list_elem_of_singleton in Hc, Hc'. apply andb_true_iff in E0 as [_ E0%negb_true_iff%Z.eqb_neq].
      apply andb_true_iff in E1 as [_ E1%negb_true_iff%Z.eqb_neq].
      destruct D0 as [|(m & Hmn & Ed)]; [done|]. destruct D1 as [|(m' & Hmn' & Ed')]; [done|].
      rewrite Ed, Nat2Z.id in Hc. rewrite Ed', Nat2Z.id in Hc'.
      assert (m = m') as <-.
      { destruct (first_rank m Hmn) as (_ & E & _), (first_rank m' Hmn') as (_ & E' & _). congruence. }
      apply (tree_down0 _ _ _ HT) in Ed as (_ & _ & T0); [|lia|lia].
      apply (tree_down1 _ _ _ HT) in Ed' as (_ & _ & T1); [|lia|lia]. lia.
    + unfold nodeKid. destruct (_ && _); [apply NoDup_singleton|apply NoDup_nil; done].
Qed.

Lemma allKids_length r : (length (allKids r) <= NCCL_MAX_TREE_ARITY)%nat /\
  (tnDown0 (T (nodeOf r)) = -1 -> (length (allKids r) <= NCCL_MAX_TREE_ARITY_TOP)%nat).
Proof.
  unfold allKids, chainKid, nodeKid, NCCL_MAX_TREE_ARITY, NCCL_MAX_TREE_ARITY_TOP. rewrite !length_app.
  split; [|intros ->; rewrite andb_false_r]; repeat (destruct (_ =? _)%nat || destruct (_ && _)); simpl; lia.
Qed.

Lemma finalTree_eq r :
  (r < nRanks)%nat -> finalTree r = {| treeDepth := depth; up := rankUp r; down := padded (map Z.of_nat (allKids r)) |}.
Proof. intros Hr. unfold finalTree. by rewrite rankTree_eq. Qed.

Lemma final_fan r m :
  (r < nRanks)%nat -> (length (allKids r) <= m <= NCCL_MAX_TREE_ARITY)%nat ->
  fanPeers m (down (finalTree r)) = map Z.of_nat (allKids r).
Proof.
  intros Hr Hm. rewrite finalTree_eq by done. apply fan_padded; [|by rewrite length_map].
  apply Forall_forall. intros x (y & -> & _)%list_elem_of_fmap. lia.
Qed.

Lemma final_children r : (r < nRanks)%nat -> children (finalTree r) = allKids r.
Proof.
  intros Hr. unfold children. rewrite final_fan by (done || (split; [apply allKids_length|done])). rewrite map_map.
  rewrite <- (map_id (allKids r)) at 2. apply map_ext. intros. apply Nat2Z.id.
Qed.

(** Distance from the root: the node's, then the place in the node. *)
Definition maxLocal : nat := list_max (map L (seq 0 nNodes)).
Definition rankDepth (d : Z -> nat) (r : nat) : nat :=
  if (r <? nRanks)%nat then d (Z.of_nat (nodeOf r)) * (maxLocal + 1) + idxOf r else 0.

Lemma idx_bound r : (r < nRanks)%nat -> (idxOf r < maxLocal)%nat.
Proof.
  intros Hr. destruct (cl_node C r Hr) as (Hm & Hi & _). unfold maxLocal.
  assert (Forall (fun k => k <= list_max (map L (seq 0 nNodes)))%nat (map L (seq 0 nNodes))) as HF by (by apply list_max_le).
  rewrite Forall_forall in HF. specialize (HF (L (nodeOf r))).
  assert (L (nodeOf r) ∈ map L (seq 0 nNodes)) as Hin by (apply list_elem_of_fmap; exists (nodeOf r); split; [done|apply elem_of_seq; lia]).
  specialize (HF Hin). lia.
Qed.

Lemma cluster_tree :
  exists dep D, TreeOk nRanks rootRank finalTree dep /\ forall r, (dep r <= D)%nat.
Proof.
  destruct (tree_depth _ _ _ HT) as (d & Hd). exists (rankDepth d), (intBits * (maxLocal + 1) + maxLocal)%nat.
  destruct root_node as (Hrn & Hru & Hrd). destruct (first_rank rootNode Hrn) as (Hrr & Er1 & Er2). fold rootRank in *. split.
  - split.
    + split; [done|]. rewrite finalTree_eq by done. cbn [up]. unfold rankUp. rewrite Er1, Er2, Hru. done.
    + intros r Hr. rewrite finalTree_eq by done. cbn [down]. apply padded_length. rewrite length_map. apply allKids_length.
    + rewrite !final_fan; [done|done|split; [apply allKids_length|done]|done|].
      split; [apply allKids_length; by rewrite Er1|unfold NCCL_MAX_TREE_ARITY_TOP, NCCL_MAX_TREE_ARITY; lia].
    + intros r Hr Hne. destruct (up_kid r Hr Hne) as (p & Hp & E & Hin & Hc). exists p.
      rewrite final_children, finalTree_eq by done. split_and!; [done|done|done|].
      unfold rankDepth. rewrite (proj2 (Nat.ltb_lt _ _) Hp), (proj2 (Nat.ltb_lt _ _) Hr).
      destruct Hc as [[-> Hlt]|[Eu Hn]]; [lia|]. pose proof (idx_bound p Hp).
      destruct (cl_node C r Hr) as (Hm & _). destruct (Hd (Z.of_nat (nodeOf r))) as [_ Hlt].
      specialize (Hlt ltac:(lia) ltac:(lia)). rewrite Eu in Hlt. nia.
    + intros p c Hp Hc. rewrite final_fan in Hc by (done || (split; [apply allKids_length|done])).
      apply list_elem_of_fmap in Hc as (c' & Ec%Nat2Z.inj & Hc). subst c'. destruct (kid_up p c Hp Hc) as (H1 & H2 & H3).
      by rewrite finalTree_eq.
    + intros p x Hp Hx. rewrite final_fan in Hx by (done || (split; [apply allKids_length|done])).
      apply list_elem_of_fmap in Hx as (c' & -> & _). lia.
    + intros p Hp. rewrite final_children by done. by apply allKids_nodup.
  - intros r. unfold rankDepth. destruct (Nat.ltb_spec r nRanks) as [Hr|]; [|lia].
    pose proof (idx_bound r Hr). destruct (Hd (Z.of_nat (nodeOf r))) as [Hle _].
    assert (d (Z.of_nat (nodeOf r)) * (maxLocal + 1) <= intBits * (maxLocal + 1))%nat by (apply Nat.mul_le_mono_r; done). lia.
Qed.
End cluster.

(** ** The code computes these trees *)

Lemma forChannels_spec {A} n (f : nat -> A -> A) a c :
  forChannels n f a c = if (c <? n)%nat then f c (a c) else a c.
Proof.
  unfold forChannels. revert c. induction n as [|n IH]; intros c; [done|]. rewrite seq_S, fold_left_app.
  cbn [fold_left Nat.add]. destruct (Nat.eq_dec n c) as [<-|Hne].
  - rewrite upd_eq, IH. ncases.
  - rewrite upd_neq, IH by done. ncases.
Qed.

(** What a rank's fragment is, when it is at index [i0] of its node. *)
Lemma presetChannel_tree (rank : Z) localRanks nRanks pat ringIntra treeIntra collNetIntra ch tr i0 :
  (i0 < localRanks)%nat -> (forall i, (i < localRanks)%nat -> treeIntra i = rank <-> i = i0) ->
  let '(ch', tr') := presetChannel rank localRanks nRanks pat ringIntra treeIntra collNetIntra ch tr in
  tree ch' = {| treeDepth := treeDepth (tree ch);
                up := if (i0 =? 0)%nat then -1 else treeIntra (i0 - 1)%nat;
                down := padded (if (i0 =? localRanks - 1)%nat then [] else [treeIntra (i0 + 1)%nat]) |} /\
  treeToParent tr' = treeIntra 0%nat /\
  treeToChild0 tr' = treeIntra (if decide (pat = TREE) then 0 else 1)%nat /\
  treeToChild1 tr' = treeIntra (if decide (pat = SPLIT_TREE) then 1 else 0)%nat.
Proof.
  intros Hi0 Hu. unfold presetChannel.
  match goal with |- context [fold_left ?f _ ?s] => set (step := f); set (s0 := s) end.
  assert (forall l s, (forall i, In i l -> treeIntra i <> rank) ->
    tree (fst (fold_left step l s)) = tree (fst s) /\ treeToParent (snd (fold_left step l s)) = treeToParent (snd s) /\
    treeToChild0 (snd (fold_left step l s)) = treeToChild0 (snd s) /\
    treeToChild1 (snd (fold_left step l s)) = treeToChild1 (snd s)) as Hskip.
  { induction l as [|i l IH]; intros [ch1 tr1] Hl; [done|]. cbn [fold_left].
    destruct (IH (step (ch1, tr1) i)) as (-> & -> & -> & ->); [intros j Hj; apply Hl; by right|].
    unfold step. rewrite (proj2 (Z.eqb_neq (treeIntra i) rank)) by (apply Hl; by left).
    destruct (ringIntra i =? rank), (collNetIntra i =? rank); done. }
  assert (seq 0 localRanks = seq 0 i0 ++ i0 :: seq (S i0) (localRanks - S i0)) as ->.
  { replace localRanks with (i0 + (1 + (localRanks - S i0)))%nat at 1 by lia. by rewrite seq_app. }
  rewrite fold_left_app. cbn [fold_left].
  destruct (Hskip (seq 0 i0) s0) as (E1 & E2 & E3 & E4).
  { intros i Hi%in_seq E. apply Hu in E; lia. }
  destruct (fold_left step (seq 0 i0) s0) as [ch1 tr1]. cbn [fst snd] in *.
  destruct (Hskip (seq (S i0) (localRanks - S i0)) (step (ch1, tr1) i0)) as (F1 & F2 & F3 & F4).
  { intros i Hi%in_seq E. apply Hu in E; lia. }
  destruct (fold_left step (seq (S i0) (localRanks - S i0)) (step (ch1, tr1) i0)) as [ch2 tr2]. cbn [fst snd] in *.
  rewrite F1, F2, F3, F4. unfold step. rewrite (proj2 (Z.eqb_eq (treeIntra i0) rank)) by (by apply Hu).
  destruct (ringIntra i0 =? rank), (collNetIntra i0 =? rank); cbn; rewrite E1; cbn;
    (split; [|done]); by destruct (i0 =? localRanks - 1)%nat.
Qed.

(** The loop over channels succeeds when every tree does. *)
Lemma connectTrees_spec rank nRanks nNodes node nChannels A0 A1 A2 channels R0 R1 :
  let depth := Z.of_nat nRanks / Z.of_nat nNodes - 1 + log2i (Z.of_nat nNodes) in
  let ts := ncclGetDtree (Z.of_nat nNodes) node 0 0 in
  (forall c, (c < nChannels)%nat ->
     connectTree rank node depth (fst ts) (A0 c) (A1 c) (A2 c) (tree (channels c)) = (ncclSuccess, R0 c) /\
     connectTree rank node depth (snd ts) (A0 c) (A1 c) (A2 c) (tree (channels (c + nChannels)%nat)) = (ncclSuccess, R1 c)) ->
  exists ch, connectTrees rank nRanks nNodes node nChannels A0 A1 A2 channels = (ncclSuccess, ch) /\
    forall c, (c < nChannels)%nat -> tree (ch c) = R0 c /\ tree (ch (c + nChannels)%nat) = R1 c.
Proof.
  intros depth ts H. unfold connectTrees. fold depth ts. destruct ts as [t0 t1]. cbn [fst snd] in H.
  match goal with |- context [fold_left ?f _ _] => set (step := f) end.
  assert (forall k, (k <= nChannels)%nat -> exists ch, fold_left step (seq 0 k) (ncclSuccess, channels) = (ncclSuccess, ch) /\
    forall c, (c < nChannels)%nat ->
      tree (ch c) = (if (c <? k)%nat then R0 c else tree (channels c)) /\
      tree (ch (c + nChannels)%nat) = (if (c <? k)%nat then R1 c else tree (channels (c + nChannels)%nat))) as L.
  { induction k as [|k IH]; intros Hk; [by exists channels|]. destruct (IH ltac:(lia)) as (ch & E & Hch).
    rewrite seq_S, fold_left_app, E. cbn [fold_left]. unfold step. cbn [andThen Nat.add].
    destruct (Hch k ltac:(lia)) as [T0 T1]. rewrite Nat.ltb_irrefl in T0, T1. destruct (H k ltac:(lia)) as [C0 C1].
    rewrite T0, C0. cbn [andThen]. rewrite upd_neq by lia. rewrite T1, C1. cbn [andThen].
    eexists. split; [done|]. intros c Hc. destruct (Hch c Hc) as [S0 S1].
    destruct (Nat.eq_dec c k) as [->|Hne].
    - rewrite upd_neq, !upd_eq by lia. by rewrite (proj2 (Nat.ltb_lt k (S k))) by lia.
    - rewrite !upd_neq by lia. rewrite S0, S1. by replace (c <? S k)%nat with (c <? k)%nat by (ncases). }
  destruct (L nChannels ltac:(lia)) as (ch & E & Hch). exists ch. split; [done|]. intros c Hc.
  destruct (Hch c Hc) as [-> ->]. by rewrite (proj2 (Nat.ltb_lt _ _) Hc).
Qed.

Lemma TreeOk_ext n root T T' depth :
  (forall r, (r < n)%nat -> T r = T' r) -> TreeOk n root T depth -> TreeOk n root T' depth.
Proof.
  intros E TO. destruct TO as [[H1 H1'] H2 H3 H4 H5 H6 H7]. split.
  - by rewrite <- E.
  - intros r Hr. rewrite <- E by done. by apply H2.
  - by rewrite <- E.
  - intros r Hr Hne. destruct (H4 r Hr Hne) as (p & Hp & H). exists p. by rewrite <- !E.
  - intros p c Hp. rewrite <- E by done. intros Hc. destruct (H5 p c Hp Hc) as (Hcn & ? & ?). by rewrite <- E.
  - intros p x Hp. rewrite <- E by done. by apply H6.
  - intros p Hp. rewrite <- E by done. by apply H7.
Qed.

(** A cluster: its nodes, the order in which each channel visits the ranks of a
    node, and the graphs and channels every rank starts from. *)
Record cluster := {
  cNodes : nat; cRanks : nat; cChannels : nat;
  cLocal : nat -> nat;
  cNodeOf : nat -> nat;
  cRankOf : nat -> nat -> nat -> nat;
  cIdxOf : nat -> nat -> nat;
  cPattern : nat -> topoPattern;
  cFirst : nat -> nat;
  cRing : nat -> ncclTopoGraph; cTree : nat -> ncclTopoGraph; cColl : nat -> ncclTopoGraph; cNvls : nat -> ncclTopoGraph;
  cInit : nat -> nat -> ncclChannel;
  cInitRanks : nat -> ncclTopoRanks }.

(** The ranks of a node have found the same tree graph, which lists its ranks. *)
Definition treeGraphsOk (k : cluster) : Prop :=
  (forall c, (c < cChannels k)%nat ->
     clusterOk (cNodes k) (cRanks k) (cLocal k) (cRankOf k c) (cNodeOf k) (cIdxOf k c) (cPattern k)) /\
  (forall m, (m < cNodes k)%nat -> (cFirst k m < cRanks k)%nat /\ cNodeOf k (cFirst k m) = m) /\
  (forall r c i, (r < cRanks k)%nat -> (c < cChannels k)%nat -> (i < cLocal k (cNodeOf k r))%nat ->
     intra (cTree k r) (c * cLocal k (cNodeOf k r) + i) = Z.of_nat (cRankOf k c (cNodeOf k r) i)) /\
  (forall r, (r < cRanks k)%nat -> pattern (cTree k r) = cPattern k (cNodeOf k r)).

Definition presetOf (k : cluster) (r : nat) : (nat -> ncclChannel) * ncclTopoRanks :=
  ncclTopoPreset (Z.of_nat r) (cLocal k (cNodeOf k r)) (cRanks k) (cChannels k)
    (cRing k r) (cTree k r) (cColl k r) (cNvls k r) (cInit k r) (cInitRanks k r).

(** What the first rank of each node has reported. *)
(* src/src/graph/connect.cc:448-459 ncclTopoPostset *)
Definition gatherNodes (firstRanks : nat -> nat) (allTopoRanks : nat -> ncclTopoRanks) (field : chanRanks -> Z)
    (c : nat) (n : Z) : Z := field (trChan (allTopoRanks (firstRanks (Z.to_nat n))) c).

(** The channels of rank [r] once its trees are connected. *)
Definition connectedOf (k : cluster) (r : nat) : ncclResult_t * (nat -> ncclChannel) :=
  let all r := snd (presetOf k r) in
  connectTrees (Z.of_nat r) (cRanks k) (cNodes k) (Z.of_nat (cNodeOf k r)) (cChannels k)
    (gatherNodes (cFirst k) all treeToParent) (gatherNodes (cFirst k) all treeToChild0)
    (gatherNodes (cFirst k) all treeToChild1) (fst (presetOf k r)).

Lemma connectTree_ext n rank node depth t A0 A1 A2 B0 B1 B2 tr :
  0 <= node < n -> (tnUp t = -1 \/ 0 <= tnUp t < n) -> (tnDown0 t = -1 \/ 0 <= tnDown0 t < n) ->
  (tnDown1 t = -1 \/ 0 <= tnDown1 t < n) ->
  (forall m, 0 <= m < n -> A0 m = B0 m) -> (forall m, 0 <= m < n -> A1 m = B1 m) -> (forall m, 0 <= m < n -> A2 m = B2 m) ->
  connectTree rank node depth t A0 A1 A2 tr = connectTree rank node depth t B0 B1 B2 tr.
Proof.
  intros Hn Hu Hd0 Hd1 E0 E1 E2. unfold connectTree. rewrite E0, E1, E2 by done.
  assert (forall tr d, d = -1 \/ 0 <= d < n -> setTreeDown tr A0 d = setTreeDown tr B0 d) as Ed.
  { intros tr' d [->|Hd]; [done|]. unfold setTreeDown. by rewrite E0. }
  assert (setTreeUp tr (if tnType t =? 0 then A1 else A2) (tnUp t) = setTreeUp tr (if tnType t =? 0 then B1 else B2) (tnUp t)) as ->.
  { unfold setTreeUp. destruct Hu as [->|Hu]; [done|]. destruct (tnType t =? 0); by rewrite ?E1, ?E2. }
  rewrite Ed by done. destruct (andThen _ _) as [res tr'] eqn:Ea; f_equal.
  revert Ea. unfold andThen. destruct (if rank =? B1 node then _ else _) as [[] tr1]; try (intros; by simplify_eq).
  rewrite Ed by done. intros ->. done.
Qed.

Section connected.
Context (k : cluster) (Hk : treeGraphsOk k).

Lemma preset_spec r c :
  (r < cRanks k)%nat -> (c < cChannels k)%nat ->
  let m := cNodeOf k r in
  (exists td, tree (fst (presetOf k r) c) = startTree (cLocal k) (cRankOf k c) (cNodeOf k) (cIdxOf k c) td r /\
     tree (fst (presetOf k r) (c + cChannels k)%nat) = startTree (cLocal k) (cRankOf k c) (cNodeOf k) (cIdxOf k c) td r) /\
  treeToParent (trChan (snd (presetOf k r)) c) = Z.of_nat (cRankOf k c m 0) /\
  treeToChild0 (trChan (snd (presetOf k r)) c) = Z.of_nat (cRankOf k c m (child0Index (cPattern k) m)) /\
  treeToChild1 (trChan (snd (presetOf k r)) c) = Z.of_nat (cRankOf k c m (child1Index (cPattern k) m)).
Proof.
  intros Hr Hc m. destruct Hk as (HC & _ & Hi & Hp). pose proof (HC c Hc) as C. destruct (cl_node _ _ _ _ _ _ _ C r Hr) as (Hm & Hx & Er).
  fold m in Hm, Hx, Er. pose proof (fun i H => Hi r c i Hr Hc H) as Hi'. fold m in Hi'.
  destruct (cl_local _ _ _ _ _ _ _ C m Hm) as [HL _].
  destruct (child_index_lt _ _ _ _ _ _ _ C m Hm) as [H0 H1].
  pose proof (presetChannel_tree (Z.of_nat r) (cLocal k m) (cRanks k) (pattern (cTree k r))
    (fun i => intra (cRing k r) (c * cLocal k m + i)%nat) (fun i => intra (cTree k r) (c * cLocal k m + i)%nat)
    (fun i => intra (cColl k r) (c * cLocal k m + i)%nat) (cInit k r c) (trChan (cInitRanks k r) c) (cIdxOf k c r) Hx) as P.
  cbn beta in P. unfold presetOf, ncclTopoPreset. cbn [fst snd trChan]. fold m.
  rewrite !forChannels_spec, Nat.add_sub, (proj2 (Nat.ltb_lt _ _) Hc).
  rewrite (proj2 (Nat.leb_gt (cChannels k) c)), (proj2 (Nat.leb_le (cChannels k) (c + cChannels k))),
    (proj2 (Nat.ltb_lt (c + cChannels k) (2 * cChannels k))) by lia.
  cbn [andb].
  destruct (presetChannel (Z.of_nat r) _ _ _ _ _ _ _ _) as [ch' tr']. cbn [fst snd].
  destruct P as (P1 & P2 & P3 & P4).
  { intros i Hil. rewrite Hi' by done. split; [|intros ->; by rewrite Er]. intros E%Nat2Z.inj.
    destruct (cl_rank _ _ _ _ _ _ _ C m i Hm Hil) as (_ & _ & <-). by rewrite E. }
  rewrite (Hp r Hr) in P3, P4. fold m in P3, P4.
  split; [|rewrite P2, P3, P4; split; [by apply Hi'|]; split; by apply Hi'].
  exists (treeDepth (tree (cInit k r c))). rewrite P1. unfold startTree. fold m.
  split; (f_equal; [destruct (Nat.eqb_spec (cIdxOf k c r) 0); [done|]; apply Hi'; lia|]);
    f_equal; (destruct (Nat.eqb_spec (cIdxOf k c r) (cLocal k m - 1)); [done|]); f_equal; apply Hi'; lia.
Qed.

(** One of the two trees, on all ranks. *)
Definition treesOf (which : bool) (m : Z) : treeNode :=
  (if which then fst else snd) (ncclGetDtree (Z.of_nat (cNodes k)) m 0 0).
Definition depthOf : Z := Z.of_nat (cRanks k) / Z.of_nat (cNodes k) - 1 + log2i (Z.of_nat (cNodes k)).
Definition connectedTree (which : bool) (c r : nat) : ncclTree :=
  finalTree (cLocal k) (cRankOf k c) (cNodeOf k) (cIdxOf k c) (cPattern k) (treesOf which) depthOf 0 r.

Lemma connected_one which c rootNode r :
  (c < cChannels k)%nat -> isTree (Z.of_nat (cNodes k)) rootNode (treesOf which) -> (r < cRanks k)%nat ->
  let A f := gatherNodes (cFirst k) (fun r => snd (presetOf k r)) f c in
  connectTree (Z.of_nat r) (Z.of_nat (cNodeOf k r)) depthOf (treesOf which (Z.of_nat (cNodeOf k r)))
    (A treeToParent) (A treeToChild0) (A treeToChild1)
    (tree (fst (presetOf k r) (if which then c else (c + cChannels k)%nat))) = (ncclSuccess, connectedTree which c r).
Proof.
  intros Hc HT Hr A. pose proof Hk as (HC & Hf & _). pose proof (HC c Hc) as C.
  destruct (preset_spec r c Hr Hc) as [(td & E0 & E1) _].
  assert (tree (fst (presetOf k r) (if which then c else (c + cChannels k)%nat)) =
    startTree (cLocal k) (cRankOf k c) (cNodeOf k) (cIdxOf k c) td r) as -> by (by destruct which).
  destruct (cl_node _ _ _ _ _ _ _ C r Hr) as (Hm & _). unfold connectedTree.
  pose proof (rankTree_eq _ _ _ _ _ _ _ (treesOf which) depthOf td C r Hr) as E.
  rewrite (finalTree_eq _ _ _ _ _ _ _ (treesOf which) depthOf 0 C r Hr). rewrite <- E. unfold rankTree.
  apply (connectTree_ext (Z.of_nat (cNodes k))); [lia|apply (isTree_up _ _ _ _ HT); lia|
    apply (tree_down _ _ _ HT); lia|apply (tree_down _ _ _ HT); lia|intros m Hmn..];
    destruct (Hf (Z.to_nat m) ltac:(lia)) as [F1 F2]; unfold A, gatherNodes;
    destruct (preset_spec _ c F1 Hc) as (_ & E2 & E3 & E4); rewrite ?E2, ?E3, ?E4; unfold ttp, ttc0, ttc1; by rewrite F2.
Qed.

Lemma connected_all r :
  (r < cRanks k)%nat -> (0 < cChannels k)%nat ->
  fst (connectedOf k r) = ncclSuccess /\
  forall c, (c < cChannels k)%nat ->
    tree (snd (connectedOf k r) c) = connectedTree true c r /\
    tree (snd (connectedOf k r) (c + cChannels k)%nat) = connectedTree false c r.
Proof.
  intros Hr Hpos. pose proof Hk as (HC & _). destruct (cl_nodes _ _ _ _ _ _ _ (HC 0%nat Hpos)) as [Hn Hn2].
  destruct (dtree_isTree (Z.of_nat (cNodes k)) 0 0 ltac:(lia)) as [HT0 HT1].
  destruct (connectTrees_spec (Z.of_nat r) (cRanks k) (cNodes k) (Z.of_nat (cNodeOf k r)) (cChannels k)
    (gatherNodes (cFirst k) (fun r => snd (presetOf k r)) treeToParent)
    (gatherNodes (cFirst k) (fun r => snd (presetOf k r)) treeToChild0)
    (gatherNodes (cFirst k) (fun r => snd (presetOf k r)) treeToChild1) (fst (presetOf k r))
    (fun c => connectedTree true c r) (fun c => connectedTree false c r)) as (ch & E & Hch).
  - intros c Hc. split; [apply (connected_one true c _ r Hc HT0 Hr)|apply (connected_one false c _ r Hc HT1 Hr)].
  - unfold connectedOf. rewrite E. done.
Qed.

Lemma connectedTree_ok which c :
  (c < cChannels k)%nat -> exists root dep D, TreeOk (cRanks k) root (connectedTree which c) dep /\ forall r, (dep r <= D)%nat.
Proof.
  intros Hc. pose proof Hk as (HC & _). pose proof (HC c Hc) as C. destruct (cl_nodes _ _ _ _ _ _ _ C) as [Hn Hn2].
  destruct (dtree_isTree (Z.of_nat (cNodes k)) 0 0 ltac:(lia)) as [HT0 HT1].
  assert (exists root, isTree (Z.of_nat (cNodes k)) (Z.of_nat root) (treesOf which)) as (root & HT).
  { destruct which; [by exists 0%nat|]. exists (Z.to_nat (root1 (Z.of_nat (cNodes k)))).
    rewrite Z2Nat.id; [done|]. apply (tree_root _ _ _ HT1). }
  destruct (cluster_tree _ _ _ _ _ _ _ (treesOf which) root depthOf 0 C HT) as (dep & D & TO & HD).
  by exists (rootRank (cRankOf k c) root), dep, D.
Qed.
End connected.

(** C36: connecting the nodes succeeds on every rank, and on every channel the
    parent and children the ranks have then set, each for itself, form one tree
    over all ranks of the cluster, for both trees of the double binary tree: it
    is what the tree kernels rely on, with at most three children per rank and
    two at the root. *)
Theorem connectTrees_ok (k : cluster) :
  treeGraphsOk k -> (0 < cChannels k)%nat ->
  (forall r, (r < cRanks k)%nat -> fst (connectedOf k r) = ncclSuccess) /\
  forall c, (c < cChannels k)%nat ->
    (exists root dep D, TreeOk (cRanks k) root (fun r => tree (snd (connectedOf k r) c)) dep /\ forall r, (dep r <= D)%nat) /\
    (exists root dep D, TreeOk (cRanks k) root (fun r => tree (snd (connectedOf k r) (c + cChannels k)%nat)) dep /\
       forall r, (dep r <= D)%nat).
Proof.
  intros Hk Hpos. split; [intros r Hr; by apply connected_all|]. intros c Hc.
  destruct (connectedTree_ok k Hk true c Hc) as (root & dep & D & TO & HD).
  destruct (connectedTree_ok k Hk false c Hc) as (root' & dep' & D' & TO' & HD').
  split; [exists root, dep, D|exists root', dep', D']; (split; [|done]); (eapply TreeOk_ext; [|done]); intros r Hr;
    symmetry; by apply (connected_all k Hk r Hr Hpos).
Qed.

(** C8: from the graphs of the nodes to the result: on any channel of any
    cluster, tree AllReduce with split threads, run over the trees the ranks
    have connected, ends under every interleaving with the reduction of the
    inputs of all ranks of the cluster in every rank's output, for a commutative
    and associative operator and chunks that fit into the FIFO buffers. *)
Theorem cluster_treeAllReduce {T} (k : cluster) (r : ringRun T) (second : bool) c start fifo0 :
  treeGraphsOk k -> (c < cChannels k)%nat -> rr_n r = cRanks k -> treeRunOk r ->
  (forall a b, reduceOp (rr_fn r) a b = reduceOp (rr_fn r) b a) ->
  (forall a b c, reduceOp (rr_fn r) a (reduceOp (rr_fn r) b c) = reduceOp (rr_fn r) (reduceOp (rr_fn r) a b) c) ->
  let tr i := tree (snd (connectedOf k i) (if second then c + cChannels k else c)%nat) in
  exists root, runsTo (rr_fn r) (rr_SPS r) (rr_step r) splitOwner (2 * rr_n r)
    (initConfig (tsProg r tr root) (rr_mem r) (connStart (Z.of_nat (rr_SPC r) * rr_SPS r) start) fifo0)
    (fun i m => forall y, 0 <= y < rr_count r ->
       Some (m (rr_out r i + rr_grid r + y)) =
       option_map (postOpFn (rr_fn r))
         (reduceList (reduceOp (rr_fn r))
            (map (fun j => preOp (rr_fn r) (rr_mem r j (rr_in r j + rr_grid r + y))) (seq 0 (rr_n r))))).
Proof.
  intros Hk Hc Hn Hok Hcomm Hassoc tr.
  assert (exists root dep D, TreeOk (rr_n r) root tr dep /\ forall i, (dep i <= D)%nat) as (root & dep & D & TO & HD).
  { destruct (connectedTree_ok k Hk (negb second) c Hc) as (root & dep & D & TO & HD). exists root, dep, D. split; [|done].
    rewrite Hn. eapply TreeOk_ext; [|exact TO]. intros i Hi. symmetry.
    destruct (connected_all k Hk i Hi ltac:(lia)) as [_ E]. destruct (E c Hc) as [E0 E1]. unfold tr. by destruct second. }
  exists root. eapply runsTo_weaken; [|by apply (treeSplit_runsTo r tr root dep D)].
  intros i m [Hm _] y Hy. rewrite Hm by done. by apply (treeResult_all r tr root dep D).
Qed.

(** Three nodes of two ranks, two channels that visit them in opposite order. *)
Definition threeNodes : cluster := {|
  cNodes := 3; cRanks := 6; cChannels := 2;
  cLocal := fun _ => 2%nat;
  cNodeOf := fun r => (r / 2)%nat;
  cRankOf := fun c m i => (2 * m + (if (c =? 0)%nat then i else 1 - i))%nat;
  cIdxOf := fun c r => if (c =? 0)%nat then (r mod 2)%nat else (1 - r mod 2)%nat;
  cPattern := fun _ => BALANCED_TREE;
  cFirst := fun m => (2 * m)%nat;
  cRing := fun _ => {| pattern := RING; crossNic := 0; gChannels := 2; intra := fun _ => 0 |};
  cTree := fun r => {| pattern := BALANCED_TREE; crossNic := 0; gChannels := 2;
    intra := fun j => nth j (map Z.of_nat [2 * (r / 2); 2 * (r / 2) + 1; 2 * (r / 2) + 1; 2 * (r / 2)]%nat) 0 |};
  cColl := fun _ => {| pattern := TREE; crossNic := 0; gChannels := 2; intra := fun _ => 0 |};
  cNvls := fun _ => {| pattern := NVLS; crossNic := 0; gChannels := 0; intra := fun _ => 0 |};
  cInit := fun _ _ => {| ring_prev := 0; ring_next := 0;
    tree := {| treeDepth := 0; up := 0; down := [0; 0; 0] |};
    collnetChain := {| treeDepth := 0; up := 0; down := [0; 0; 0] |};
    collnetDirect := {| dDepth := 0; dOut := 0; dNHeads := 0; dHeadRank := 0; dShift := 0; dHeads := []; dUp := []; dDown := [] |} |};
  cInitRanks := fun _ => {| crossNicRing := 0; trChan := fun _ =>
    {| ringRecv := 0; ringSend := 0; ringPrev := 0; ringNext := 0; treeToParent := 0; treeToChild0 := 0; treeToChild1 := 0 |};
    nvlsHeads := [] |} |}.

Lemma threeNodes_ok : treeGraphsOk threeNodes.
Proof.
  unfold treeGraphsOk. cbn [cNodes cRanks cChannels cLocal cNodeOf cRankOf cIdxOf cPattern cFirst cTree threeNodes].
  assert (forall r, r / 2 * 2 + r mod 2 = r /\ r mod 2 < 2)%nat as Hd.
  { intros r. pose proof (Nat.div_mod_eq r 2). pose proof (Nat.mod_upper_bound r 2). lia. }
  split_and!.
  - intros c Hc. split.
    + lia.
    + intros m _. split; [lia|right; lia].
    + intros m i Hm Hi.
      assert (forall j, (j < 2)%nat -> (2 * m + j) / 2 = m /\ (2 * m + j) mod 2 = j)%nat as Hj.
      { intros j Hj. split; [symmetry; apply (Nat.div_unique _ 2 m j); lia|symmetry; apply (Nat.mod_unique _ 2 m j); lia]. }
      destruct (c =? 0)%nat; [destruct (Hj i Hi) as [-> ->]|destruct (Hj (1 - i)%nat ltac:(lia)) as [-> ->]]; lia.
    + intros r Hr. destruct (Hd r). split; [apply Nat.Div0.div_lt_upper_bound; lia|]. destruct (c =? 0)%nat; lia.
  - intros m Hm. rewrite Nat.mul_comm, Nat.div_mul by lia. lia.
  - intros r c i Hr Hc Hi. destruct c as [|[|c]]; [| |lia]; destruct i as [|[|i]]; try lia; cbn; lia.
  - done.
Qed.

Lemma connectTrees_ok_witness :
  fst (connectedOf threeNodes 3) = ncclSuccess /\
  tree (snd (connectedOf threeNodes 3) 0%nat) = {| treeDepth := 2; up := 2; down := [-1; -1; -1] |}.
Proof.
  destruct (connectTrees_ok threeNodes threeNodes_ok ltac:(simpl; lia)) as [H _].
  split; [apply H; simpl; lia|vm_compute; reflexivity].
Defined.

Lemma cluster_treeAllReduce_witness :
  let r := {| rr_fn := {| preOp := fun x => x; reduceOp := Z.add; postOpFn := fun x => x |};
    rr_n := 6; rr_grid := 2; rr_count := 5; rr_chunk := 4; rr_elt := 4;
    rr_in := fun _ => 100; rr_out := fun _ => 100; rr_step := 64; rr_SPC := 1; rr_SPS := 1;
    rr_mem := fun i a => Z.of_nat i * 1000 + a |} in
  exists root, runsTo (rr_fn r) 1 64 splitOwner 12
    (initConfig (tsProg r (fun i => tree (snd (connectedOf threeNodes i) 3%nat)) root) (rr_mem r)
       (connStart 1 (fun _ _ => 0)) (fun _ _ _ => 0))
    (fun i m => forall y, 0 <= y < 5 -> Some (m (102 + y)) = Some (15000 + 6 * (102 + y))).
Proof.
  intros r. destruct (cluster_treeAllReduce threeNodes r true 1 (fun _ _ => 0) (fun _ _ _ => 0)) as (root & H).
  - exact threeNodes_ok.
  - simpl; lia.
  - reflexivity.
  - unfold treeRunOk, fifoFits. split_and!; try (unfold NCCL_STEPS; cbn; lia); vm_compute; congruence.
  - intros; simpl; lia.
  - intros; simpl; lia.
  - exists root. eapply runsTo_weaken; [|exact H]. cbn. intros i m Hm y Hy. rewrite Hm by lia. f_equal. lia.
Defined.
