(* ===== verification/Rings.v ===== *)
(** * Rings over ranks (src/src/graph/rings.cc, src/src/graph/connect.cc)

    From the next rank of every rank, [ncclBuildRings] lists the ring as seen
    from one rank and checks that it goes through every rank.  The file proves
    that the check accepts exactly the rings, and that the rings connected
    from the fragments of the nodes pass it. *)

From stdpp Require Import base numbers list.
From Stdlib Require Import ZArith Lia.
From S2P Require Import Prelude Bitops Net TreeColl Trees Connect RingNet.

Local Open Scope Z_scope.

(** ** The code *)

(** [rankFound[current / 64] |= 1ULL << (current % 64)]. *)
Definition markRank (rankFound : list Z) (current : nat) : list Z :=
  alter (fun w => Z.lor w (Z.shiftl 1 (Z.of_nat (current mod 64)))) (current / 64)%nat rankFound.

(** The walk along [next]: the words, the ring and the rank it stops at. *)
Fixpoint ringWalk (n : nat) (next : nat -> nat) (rankFound : list Z) (current : nat) : list Z * list nat * nat :=
  match n with
  | O => (rankFound, [], current)
  | S n =>
      let '(rf, ring, last) := ringWalk n next (markRank rankFound current) (next current) in
      (rf, current :: ring, last)
  end.

(** The loop that checks that all ranks are there; 64 at a time where a word is
    full.  One unit of fuel is one round. *)
Fixpoint checkRanks (fuel : nat) (nranks : nat) (rankFound : list Z) (i : nat) : ncclResult_t :=
  match fuel with
  | O => ncclSuccess
  | S fuel =>
      if (i <? nranks)%nat then
        let bits := nth (i / 64) rankFound 0 in
        let mask := Z.shiftl 1 (Z.of_nat (i mod 64)) in
        if (mask =? 1) && (bits =? 0xffffffffffffffff) then checkRanks fuel nranks rankFound (i + 64)
        else if Z.land bits mask =? 0 then ncclInternalError
        else checkRanks fuel nranks rankFound (i + 1)
      else ncclSuccess
  end.

(** One ring. *)
(* src/src/graph/rings.cc:42-69 ncclBuildRings *)
Definition buildRing (rank nranks : nat) (next : nat -> nat) (rankFound : list Z) : ncclResult_t * list nat :=
  let '(rankFound, ring, current) := ringWalk nranks next rankFound rank in
  if negb (current =? rank)%nat then (ncclInternalError, ring)
  else (checkRanks nranks nranks rankFound 0, ring).

(** The rings in order, up to the first that fails. *)
(* src/src/graph/rings.cc:29-74 ncclBuildRings *)
Fixpoint ncclBuildRings (nrings rank nranks : nat) (next : nat -> nat -> nat) (r : nat) : ncclResult_t * list (list nat) :=
  match nrings with
  | O => (ncclSuccess, [])
  | S nrings =>
      let zeros := replicate (Z.to_nat (divUp i32 (Z.of_nat nranks) 64)) 0 in
      match buildRing rank nranks (next r) zeros with
      | (ncclSuccess, ring) =>
          let '(res, rings) := ncclBuildRings nrings rank nranks next (S r) in (res, ring :: rings)
      | (res, ring) => (res, [ring])
      end
  end.

(** ** The words hold the ranks seen *)

(** [k] steps along [next]. *)
Fixpoint steps (next : nat -> nat) (k : nat) (r : nat) : nat :=
  match k with O => r | S k => steps next k (next r) end.

Definition walk (next : nat -> nat) (n r : nat) : list nat := map (fun k => steps next k r) (seq 0 n).

(** The words represent the set [seen]. *)
Definition holds (rankFound : list Z) (nranks : nat) (seen : nat -> Prop) : Prop :=
  (forall i, (i / 64 < length rankFound)%nat ->
     Z.testbit (nth (i / 64) rankFound 0) (Z.of_nat (i mod 64)) = true <-> seen i) /\
  (forall i, (i < nranks)%nat -> (i / 64 < length rankFound)%nat) /\
  Forall (fun w => 0 <= w < 2 ^ 64) rankFound.

Lemma lor_bit w k j : 0 <= k -> 0 <= j -> Z.testbit (Z.lor w (Z.shiftl 1 k)) j = Z.testbit w j || (j =? k).
Proof.
  intros Hk Hj. rewrite Z.lor_spec, Z.shiftl_1_l, Z.pow2_bits_eqb by done. by rewrite (Z.eqb_sym k j).
Qed.

Lemma nth_alter (f : Z -> Z) l i j :
  nth j (alter f i l) 0 = if (j =? i)%nat && (i <? length l)%nat then f (nth j l 0) else nth j l 0.
Proof.
  rewrite !nth_lookup, list_lookup_alter. destruct (Nat.eqb_spec j i) as [->|Hne].
  - rewrite decide_True by done. destruct (Nat.ltb_spec i (length l)) as [Hl|Hl]; cbn.
    + destruct (lookup_lt_is_Some_2 l i Hl) as [w ->]. done.
    + by rewrite lookup_ge_None_2.
  - by rewrite decide_False by done.
Qed.

Lemma holds_mark rf nranks seen c :
  (c < nranks)%nat -> holds rf nranks seen -> holds (markRank rf c) nranks (fun i => seen i \/ i = c).
Proof.
  intros Hc (H1 & H2 & H3). unfold markRank. split; [|split].
  - intros i Hi. rewrite length_alter in Hi. rewrite nth_alter, (proj2 (Nat.ltb_lt _ _) (H2 c Hc)), andb_true_r.
    pose proof (Nat.div_mod_eq i 64). pose proof (Nat.div_mod_eq c 64).
    destruct (Nat.eqb_spec (i / 64) (c / 64)) as [E|E].
    + rewrite lor_bit, orb_true_iff, H1, Z.eqb_eq by lia. split; (intros [|]; [by left|right; lia]).
    + rewrite H1 by done. split; [by left|]. intros [| ->]; done.
  - intros i Hi. rewrite length_alter. by apply H2.
  - apply Forall_alter; [done|]. intros w Hw Hb.
    assert (Z.of_nat (c mod 64) < 64) by (pose proof (Nat.mod_upper_bound c 64); lia).
    split; [apply Z.lor_nonneg; split; [lia|apply Z.shiftl_nonneg; lia]|].
    destruct (Z.eq_dec (Z.lor w (Z.shiftl 1 (Z.of_nat (c mod 64)))) 0) as [->|Hne]; [done|].
    apply Z.log2_lt_pow2; [assert (0 <= Z.lor w (Z.shiftl 1 (Z.of_nat (c mod 64)))); [|lia]; apply Z.lor_nonneg; split; [lia|apply Z.shiftl_nonneg; lia]|].
    rewrite Z.log2_lor by (lia || apply Z.shiftl_nonneg; lia). rewrite Z.shiftl_1_l, Z.log2_pow2 by lia.
    destruct (Z.eq_dec w 0) as [->|]; [simpl; lia|]. assert (Z.log2 w < 64) by (apply Z.log2_lt_pow2; lia). lia.
Qed.

Lemma holds_zeros nranks k :
  (forall i, (i < nranks)%nat -> (i / 64 < k)%nat) -> holds (replicate k 0) nranks (fun _ => False).
Proof.
  intros Hk. split; [|split].
  - intros i Hi. rewrite length_replicate in Hi. rewrite nth_lookup, lookup_replicate_2 by done. cbn.
    by rewrite Z.bits_0.
  - intros i Hi. rewrite length_replicate. by apply Hk.
  - apply Forall_replicate. lia.
Qed.

Lemma holds_ext rf nranks (s s' : nat -> Prop) : (forall i, s i <-> s' i) -> holds rf nranks s -> holds rf nranks s'.
Proof. intros E (H1 & H2 & H3). split; [|done]. intros i Hi. rewrite <- E. by apply H1. Qed.

Lemma walk_S next n r : walk next (S n) r = r :: walk next n (next r).
Proof. unfold walk. cbn [seq map steps]. f_equal. rewrite <- seq_shift, map_map. done. Qed.

Section ring.
Context (nranks : nat) (next : nat -> nat) (Hnext : forall r, (r < nranks)%nat -> (next r < nranks)%nat).

(** The walk lists the ranks and the words hold what it has seen. *)
Lemma ringWalk_spec n rf seen r :
  (r < nranks)%nat -> holds rf nranks seen ->
  let '(rf', ring, last) := ringWalk n next rf r in
  ring = walk next n r /\ last = steps next n r /\ holds rf' nranks (fun i => seen i \/ i ∈ walk next n r).
Proof.
  revert rf seen r. induction n as [|n IH]; intros rf seen r Hr Hh; cbn [ringWalk].
  - split_and!; try done. eapply holds_ext; [|exact Hh]. intros i. split; [by left|]. by intros [|?%not_elem_of_nil].
  - specialize (IH (markRank rf r) (fun i => seen i \/ i = r) (next r) (Hnext r Hr) (holds_mark rf nranks seen r Hr Hh)).
    destruct (ringWalk n next (markRank rf r) (next r)) as [[rf' ring] last]. destruct IH as (-> & -> & H).
    rewrite walk_S. split_and!; try done. eapply holds_ext; [|exact H]. intros i. rewrite elem_of_cons. tauto.
Qed.

Lemma full_word w k : 0 <= k < 64 -> w = 0xffffffffffffffff -> Z.testbit w k = true.
Proof. intros Hk ->. change 0xffffffffffffffff with (Z.ones 64). by apply Z.ones_spec_low. Qed.

(** The check goes through exactly when every rank has been seen. *)
Lemma checkRanks_spec fuel rf seen i :
  holds rf nranks seen -> (nranks <= i + fuel)%nat -> 
  (checkRanks fuel nranks rf i = ncclSuccess /\ forall j, (i <= j < nranks)%nat -> seen j) \/
  (checkRanks fuel nranks rf i = ncclInternalError /\ exists j, (i <= j < nranks)%nat /\ ~ seen j).
Proof.
  intros Hh. pose proof Hh as (H1 & H2 & H3). revert i. induction fuel as [|fuel IH]; intros i Hf; cbn [checkRanks].
  { left. split; [done|]. intros j Hj. lia. }
  destruct (Nat.ltb_spec i nranks) as [Hi|Hi]; [|left; split; [done|intros j Hj; lia]].
  pose proof (H2 i Hi) as Hw. pose proof (Nat.div_mod_eq i 64) as Hdm. pose proof (Nat.mod_upper_bound i 64 ltac:(lia)).
  set (mask := Z.shiftl 1 (Z.of_nat (i mod 64))).
  destruct ((mask =? 1) && _) eqn:Ef.
  - apply andb_true_iff in Ef as [Em%Z.eqb_eq Eb%Z.eqb_eq]. unfold mask in Em. rewrite Z.shiftl_1_l in Em.
    assert (i mod 64 = 0)%nat as E0.
    { destruct (Nat.eq_dec (i mod 64) 0) as [|Hne]; [done|].
      pose proof (Z.pow_le_mono_r 2 1 (Z.of_nat (i mod 64)) ltac:(lia) ltac:(lia)). lia. }
    assert (forall j, (i <= j < i + 64)%nat -> seen j) as Hs.
    { intros j Hj. pose proof (Nat.div_mod_eq j 64). pose proof (Nat.mod_upper_bound j 64 ltac:(lia)).
      assert (j / 64 = i / 64)%nat as Ej by lia. apply H1; [by rewrite Ej|]. rewrite Ej. apply full_word; [lia|done]. }
    destruct (IH (i + 64)%nat ltac:(lia)) as [[-> HA]|[-> (j & Hj & Hn)]].
    + left. split; [done|]. intros j Hj. destruct (Nat.lt_ge_cases j (i + 64)); [apply Hs; lia|apply HA; lia].
    + right. split; [done|]. exists j. split; [lia|done].
  - unfold mask. rewrite Z.land_comm, Z.shiftl_1_l, land_pow2 by lia.
    destruct (Z.testbit (nth (i / 64) rf 0) (Z.of_nat (i mod 64))) eqn:Et; cbn [negb].
    + apply H1 in Et; [|done]. destruct (IH (i + 1)%nat ltac:(lia)) as [[-> HA]|[-> (j & Hj & Hn)]].
      * left. split; [done|]. intros j Hj. destruct (Nat.eq_dec j i) as [->|]; [done|apply HA; lia].
      * right. split; [done|]. exists j. split; [lia|done].
    + right. split; [done|]. exists i. split; [lia|]. intros Hs. apply H1 in Hs; [|done]. congruence.
Qed.

(** A ring from [rank]: the walk comes back after visiting every rank once. *)
Definition isRing (rank : nat) : Prop := steps next nranks rank = rank /\ walk next nranks rank ≡ₚ seq 0 nranks.

Lemma steps_lt k r : (r < nranks)%nat -> (steps next k r < nranks)%nat.
Proof. revert r. induction k as [|k IH]; intros r Hr; [done|]. cbn. by apply IH, Hnext. Qed.

Lemma walk_perm rank :
  (rank < nranks)%nat -> (forall j, (j < nranks)%nat -> j ∈ walk next nranks rank) -> walk next nranks rank ≡ₚ seq 0 nranks.
Proof.
  intros Hr Hall. symmetry. apply submseteq_length_Permutation; [|unfold walk; by rewrite length_map, !length_seq].
  apply NoDup_submseteq; [apply NoDup_ListNoDup, seq_NoDup|]. intros j Hj%elem_of_seq. apply Hall. lia.
Qed.

Lemma buildRing_spec rank :
  (rank < nranks)%nat -> Z.of_nat nranks < 2 ^ 31 - 64 ->
  let zeros := replicate (Z.to_nat (divUp i32 (Z.of_nat nranks) 64)) 0 in
  snd (buildRing rank nranks next zeros) = walk next nranks rank /\
  (fst (buildRing rank nranks next zeros) = ncclSuccess /\ isRing rank \/
   fst (buildRing rank nranks next zeros) = ncclInternalError /\ ~ isRing rank).
Proof.
  intros Hr Hn zeros. assert (holds zeros nranks (fun _ => False)) as H0.
  { apply holds_zeros. intros i Hi. rewrite divUp_eq by auto with widths.
    assert (Z.of_nat (i / 64) < (Z.of_nat nranks + 64 - 1) / 64) as Hlt; [|lia].
    rewrite Nat2Z.inj_div. change (Z.of_nat 64) with 64.
    pose proof (Z.div_mod (Z.of_nat i) 64 ltac:(lia)). pose proof (Z.mod_pos_bound (Z.of_nat i) 64 ltac:(lia)).
    pose proof (Z.div_mod (Z.of_nat nranks + 64 - 1) 64 ltac:(lia)).
    pose proof (Z.mod_pos_bound (Z.of_nat nranks + 64 - 1) 64 ltac:(lia)). lia. }
  unfold buildRing. pose proof (ringWalk_spec nranks zeros _ rank Hr H0) as W.
  destruct (ringWalk nranks next zeros rank) as [[rf ring] last]. destruct W as (-> & -> & Hh).
  destruct (Nat.eqb_spec (steps next nranks rank) rank) as [E|E]; cbn [negb fst snd].
  - split; [done|]. destruct (checkRanks_spec nranks rf _ 0 Hh ltac:(lia)) as [[-> HA]|[-> (j & Hj & Hnj)]].
    + left. split; [done|]. split; [done|]. apply walk_perm; [done|]. intros j Hj. by destruct (HA j ltac:(lia)).
    + right. split; [done|]. intros [_ Hp]. apply Hnj. right. rewrite Hp. apply elem_of_seq. lia.
  - split; [done|]. right. split; [done|]. by intros [? _].
Qed.
End ring.

Lemma buildRings_spec nrings rank nranks next r0 :
  (rank < nranks)%nat -> Z.of_nat nranks < 2 ^ 31 - 64 ->
  (forall c r, (r0 <= c < r0 + nrings)%nat -> (r < nranks)%nat -> (next c r < nranks)%nat) ->
  (fst (ncclBuildRings nrings rank nranks next r0) = ncclSuccess <->
   forall c, (r0 <= c < r0 + nrings)%nat -> isRing nranks (next c) rank) /\
  (fst (ncclBuildRings nrings rank nranks next r0) = ncclSuccess ->
   snd (ncclBuildRings nrings rank nranks next r0) = map (fun c => walk (next c) nranks rank) (seq r0 nrings)).
Proof.
  intros Hr Hn. revert r0. induction nrings as [|k IH]; intros r0 Hnext; cbn [ncclBuildRings].
  { split; [|done]. split; [intros _ c Hc; lia|done]. }
  destruct (buildRing_spec nranks (next r0) (fun r H => Hnext r0 r ltac:(lia) H) rank Hr Hn) as [E [[Es Hring]|[Es Hno]]];
    destruct (buildRing _ _ _ _) as [res ring]; cbn [fst snd] in *; subst.
  - destruct (IH (S r0)) as [I1 I2]; [intros c r Hc; apply Hnext; lia|]. destruct (ncclBuildRings k rank nranks next (S r0)) as [res rings]. cbn [fst snd] in *.
    split; [|intros ->; cbn [seq map]; by rewrite I2]. rewrite I1. split.
    + intros H c Hc. destruct (Nat.eq_dec c r0) as [->|]; [done|]. apply H. lia.
    + intros H c Hc. apply H. lia.
  - split; [|done]. split; [done|]. intros H. exfalso. apply Hno, H. lia.
Qed.

(** C37: the ring check is exact: [ncclBuildRings] succeeds if and only if on every
    channel the walk from this rank along the next ranks visits every rank once
    and comes back, and it then has listed these walks; it always ends. *)
Theorem ncclBuildRings_correct nrings rank nranks next r0 :
  (rank < nranks)%nat -> Z.of_nat nranks < 2 ^ 31 - 64 ->
  (forall c r, (r0 <= c < r0 + nrings)%nat -> (r < nranks)%nat -> (next c r < nranks)%nat) ->
  (fst (ncclBuildRings nrings rank nranks next r0) = ncclSuccess <->
   forall c, (r0 <= c < r0 + nrings)%nat -> isRing nranks (next c) rank) /\
  (fst (ncclBuildRings nrings rank nranks next r0) = ncclSuccess ->
   snd (ncclBuildRings nrings rank nranks next r0) = map (fun c => walk (next c) nranks rank) (seq r0 nrings)).
Proof. apply buildRings_spec. Qed.

Lemma ncclBuildRings_correct_witness :
  ncclBuildRings 2 1 3 (fun c r => if (c =? 0)%nat then ((r + 1) mod 3)%nat else ((r + 2) mod 3)%nat) 0 =
    (ncclSuccess, [[1; 2; 0]; [1; 0; 2]]%nat) /\
  fst (ncclBuildRings 1 1 3 (fun _ r => r) 0) = ncclInternalError /\
  forall c, (0 <= c < 2)%nat -> isRing 3 (fun r => if (c =? 0)%nat then ((r + 1) mod 3)%nat else ((r + 2) mod 3)%nat) 1.
Proof.
  split; [vm_compute; reflexivity|]. split; [vm_compute; reflexivity|].
  apply (ncclBuildRings_correct 2 1 3 (fun c r => if (c =? 0)%nat then ((r + 1) mod 3)%nat else ((r + 2) mod 3)%nat) 0);
    [lia|simpl; lia| |vm_compute; reflexivity].
  intros c r _ Hr. destruct (c =? 0)%nat; apply Nat.mod_upper_bound; lia.
Defined.

(** ** The rings of a cluster *)

(** Rings of odd nodes are exchanged in pairs when they cross NICs. *)
(* src/src/graph/connect.cc:428-446 ncclTopoPostset *)
Definition exchangeRings (nChannels : nat) (node : nat) (tr : ncclTopoRanks) (c : nat) : chanRanks :=
  if (crossNicRing tr =? 2) && (nChannels mod 2 =? 0)%nat && (node mod 2 =? 1)%nat && (c <? nChannels)%nat then
    let o := trChan tr (Nat.lxor c 1) in {|
    ringRecv := ringRecv o; ringSend := ringSend o; ringPrev := ringPrev o; ringNext := ringNext o;
    treeToParent := treeToParent (trChan tr c); treeToChild0 := treeToChild0 (trChan tr c);
    treeToChild1 := treeToChild1 (trChan tr c) |}
  else trChan tr c.

(** The ring of channel [c]: the previous and next rank of every rank. *)
(* src/src/graph/connect.cc:448-480 ncclTopoPostset *)
Definition postsetRing (nNodes nChannels : nat) (firstRanks rankToNode : nat -> nat) (allTopoRanks : nat -> ncclTopoRanks)
    (c : nat) : (Z -> Z) * (Z -> Z) :=
  let all r := exchangeRings nChannels (rankToNode r) (allTopoRanks r) c in
  connectRings nNodes (fun n => ringRecv (all (firstRanks n))) (fun n => ringSend (all (firstRanks n)))
    (fun r => ringPrev (all (Z.to_nat r))) (fun r => ringNext (all (Z.to_nat r))).

(** What a rank reports of its node's ring, when it is at index [i0]. *)
Lemma presetChannel_ring (rank : Z) localRanks nRanks pat ringIntra treeIntra collNetIntra ch tr i0 :
  (i0 < localRanks)%nat -> (forall i, (i < localRanks)%nat -> ringIntra i = rank <-> i = i0) ->
  let tr' := snd (presetChannel rank localRanks nRanks pat ringIntra treeIntra collNetIntra ch tr) in
  ringRecv tr' = ringIntra 0%nat /\ ringSend tr' = ringIntra (localRanks - 1)%nat /\
  ringPrev tr' = (if (i0 =? 0)%nat then -1 else ringIntra (i0 - 1)%nat) /\
  ringNext tr' = (if (i0 =? localRanks - 1)%nat then -1 else ringIntra (i0 + 1)%nat).
Proof.
  intros Hi0 Hu. unfold presetChannel.
  match goal with |- context [fold_left ?f _ ?s] => set (step := f); set (s0 := s) end.
  assert (forall l s, (forall i, In i l -> ringIntra i <> rank) ->
    ringRecv (snd (fold_left step l s)) = ringRecv (snd s) /\ ringSend (snd (fold_left step l s)) = ringSend (snd s) /\
    ringPrev (snd (fold_left step l s)) = ringPrev (snd s) /\ ringNext (snd (fold_left step l s)) = ringNext (snd s)) as Hskip.
  { induction l as [|i l IH]; intros [ch1 tr1] Hl; [done|]. cbn [fold_left].
    destruct (IH (step (ch1, tr1) i)) as (-> & -> & -> & ->); [intros j Hj; apply Hl; by right|].
    unfold step. rewrite (proj2 (Z.eqb_neq (ringIntra i) rank)) by (apply Hl; by left).
    destruct (treeIntra i =? rank), (collNetIntra i =? rank); done. }
  assert (seq 0 localRanks = seq 0 i0 ++ i0 :: seq (S i0) (localRanks - S i0)) as ->.
  { replace localRanks with (i0 + (1 + (localRanks - S i0)))%nat at 1 by lia. by rewrite seq_app. }
  rewrite fold_left_app. cbn [fold_left]. destruct (fold_left step (seq 0 i0) s0) as [ch1 tr1].
  destruct (Hskip (seq (S i0) (localRanks - S i0)) (step (ch1, tr1) i0)) as (-> & -> & -> & ->).
  { intros i Hi%in_seq E. apply Hu in E; lia. }
  unfold step. rewrite (proj2 (Z.eqb_eq (ringIntra i0) rank)) by (by apply Hu).
  by destruct (treeIntra i0 =? rank), (collNetIntra i0 =? rank).
Qed.

(** Connecting the fragments: only the ends of a node's fragment change. *)
Lemma connectRings_spec nNodes recv send prev next x :
  (forall n m, (n < nNodes)%nat -> (m < nNodes)%nat -> recv n = recv m -> n = m) ->
  (forall n m, (n < nNodes)%nat -> (m < nNodes)%nat -> send n = send m -> n = m) ->
  let '(prev', next') := connectRings nNodes recv send prev next in
  (forall n, (n < nNodes)%nat -> x = recv n -> prev' x = send ((n + nNodes - 1) mod nNodes)%nat) /\
  (forall n, (n < nNodes)%nat -> x = send n -> next' x = recv ((n + 1) mod nNodes)%nat) /\
  ((forall n, (n < nNodes)%nat -> x <> recv n) -> prev' x = prev x) /\
  ((forall n, (n < nNodes)%nat -> x <> send n) -> next' x = next x).
Proof.
  intros Hr Hs. unfold connectRings.
  match goal with |- context [fold_left ?f _ _] => set (step := f) end.
  assert (forall k, (k <= nNodes)%nat -> let '(prev', next') := fold_left step (seq 0 k) (prev, next) in
    (forall n, (n < k)%nat -> x = recv n -> prev' x = send ((n + nNodes - 1) mod nNodes)%nat) /\
    (forall n, (n < k)%nat -> x = send n -> next' x = recv ((n + 1) mod nNodes)%nat) /\
    ((forall n, (n < k)%nat -> x <> recv n) -> prev' x = prev x) /\
    ((forall n, (n < k)%nat -> x <> send n) -> next' x = next x)) as L; [|by apply L].
  induction k as [|k IH]; intros Hk.
  { cbn. split_and!; [intros n Hn; lia|intros n Hn; lia|done|done]. }
  rewrite seq_S, fold_left_app. specialize (IH ltac:(lia)).
  destruct (fold_left step (seq 0 k) (prev, next)) as [prev' next']. cbn [fold_left Nat.add]. unfold step.
  destruct IH as (I1 & I2 & I3 & I4). split_and!.
  - intros n Hn Hx. destruct (Z.eqb_spec x (recv k)) as [E|E]; [by rewrite (Hr n k) by (lia || congruence)|].
    apply I1; [|done]. destruct (Nat.eq_dec n k) as [->|]; [done|lia].
  - intros n Hn Hx. destruct (Z.eqb_spec x (send k)) as [E|E]; [by rewrite (Hs n k) by (lia || congruence)|].
    apply I2; [|done]. destruct (Nat.eq_dec n k) as [->|]; [done|lia].
  - intros Hx. rewrite (proj2 (Z.eqb_neq _ _)) by (apply Hx; lia). apply I3. intros n Hn. apply Hx. lia.
  - intros Hx. rewrite (proj2 (Z.eqb_neq _ _)) by (apply Hx; lia). apply I4. intros n Hn. apply Hx. lia.
Qed.

(** *** The order of a ring *)

(** Neighbours in the list follow each other along [next]. *)
Definition linked (next : nat -> nat) (l : list nat) : Prop :=
  forall p a b, l !! p = Some a -> l !! S p = Some b -> next a = b.

Lemma linked_app next l1 l2 :
  linked next l1 -> linked next l2 ->
  (forall a b, last l1 = Some a -> l2 !! 0%nat = Some b -> next a = b) -> linked next (l1 ++ l2).
Proof.
  intros H1 H2 H p a b Ha Hb. destruct (Nat.lt_ge_cases (S p) (length l1)) as [Hp|Hp].
  - rewrite lookup_app_l in Ha, Hb by lia. by apply (H1 p).
  - destruct (Nat.eq_dec (S p) (length l1)) as [E|E].
    + rewrite lookup_app_l in Ha by lia. rewrite lookup_app_r, E, Nat.sub_diag in Hb by lia.
      apply H; [|done]. rewrite last_lookup, <- E. done.
    + rewrite lookup_app_r in Ha, Hb by lia. apply (H2 (p - length l1)%nat); [done|].
      by replace (S (p - length l1)) with (S p - length l1)%nat by lia.
Qed.

Section order.
Context (nNodes nRanks : nat) (L : nat -> nat) (rankOf : nat -> nat -> nat) (nodeOf idxOf : nat -> nat) (next : nat -> nat).
Context (C : clusterOk nNodes nRanks L rankOf nodeOf idxOf (fun _ => TREE)).
Context (Hin : forall m i, (m < nNodes)%nat -> (S i < L m)%nat -> next (rankOf m i) = rankOf m (S i)).
Context (Hout : forall m, (m < nNodes)%nat -> next (rankOf m (L m - 1)) = rankOf ((m + 1) mod nNodes) 0).

Definition fragment (m : nat) : list nat := map (rankOf m) (seq 0 (L m)).
Definition ringList : list nat := flat_map fragment (seq 0 nNodes).

Lemma fragment_ends m : (m < nNodes)%nat ->
  fragment m !! 0%nat = Some (rankOf m 0) /\ last (fragment m) = Some (rankOf m (L m - 1)) /\ linked next (fragment m).
Proof.
  intros Hm. destruct (cl_local _ _ _ _ _ _ _ C m Hm) as [HL _]. unfold fragment. split_and!.
  - by rewrite list_lookup_fmap, lookup_seq_lt.
  - rewrite last_lookup, length_map, length_seq, list_lookup_fmap, lookup_seq_lt by lia. cbn. do 2 f_equal. lia.
  - intros p a b Ha Hb. rewrite list_lookup_fmap in Ha, Hb. apply fmap_Some in Ha as (i & Hi & ->), Hb as (j & Hj & ->).
    apply lookup_seq in Hi as [-> Hi], Hj as [-> Hj]. by apply Hin.
Qed.

(** The fragments from node [m] on, in order. *)
Lemma fragments_linked k m :
  (m + k < nNodes)%nat ->
  let l := flat_map fragment (seq m (S k)) in
  l !! 0%nat = Some (rankOf m 0) /\ last l = Some (rankOf (m + k) (L (m + k) - 1)) /\ linked next l.
Proof.
  revert m. induction k as [|k IH]; intros m Hm.
  - cbn [seq flat_map]. rewrite app_nil_r, Nat.add_0_r. apply fragment_ends. lia.
  - destruct (IH (S m) ltac:(lia)) as (I1 & I2 & I3). destruct (fragment_ends m ltac:(lia)) as (F1 & F2 & F3).
    change (seq m (S (S k))) with (m :: seq (S m) (S k)). cbn [flat_map]. set (l := flat_map fragment (seq (S m) (S k))) in *.
    cbn zeta. split_and!.
    + rewrite lookup_app_l; [done|]. by apply lookup_lt_Some in F1.
    + rewrite last_app, I2. by replace (S m + k)%nat with (m + S k)%nat by lia.
    + apply linked_app; [done|done|]. intros a b Ha Hb. rewrite F2 in Ha. rewrite I1 in Hb. simplify_eq.
      rewrite Hout by lia. rewrite Nat.mod_small by lia. by rewrite Nat.add_1_r.
Qed.

Lemma ringList_perm : ringList ≡ₚ seq 0 nRanks.
Proof.
  apply NoDup_Permutation; [|apply NoDup_ListNoDup, seq_NoDup|].
  - apply NoDup_flat_map; [apply NoDup_ListNoDup, seq_NoDup| |].
    + intros m Hm%elem_of_seq. apply NoDup_fmap_2_strong; [|apply NoDup_ListNoDup, seq_NoDup].
      intros i j Hi%elem_of_seq Hj%elem_of_seq E.
      destruct (cl_rank _ _ _ _ _ _ _ C m i ltac:(lia) ltac:(lia)) as (_ & _ & <-).
      destruct (cl_rank _ _ _ _ _ _ _ C m j ltac:(lia) ltac:(lia)) as (_ & _ & <-). by rewrite E.
    + intros m m' r Hm%elem_of_seq Hm'%elem_of_seq (i & -> & Hi%elem_of_seq)%list_elem_of_fmap (j & E & Hj%elem_of_seq)%list_elem_of_fmap.
      destruct (cl_rank _ _ _ _ _ _ _ C m i ltac:(lia) ltac:(lia)) as (_ & <- & _).
      destruct (cl_rank _ _ _ _ _ _ _ C m' j ltac:(lia) ltac:(lia)) as (_ & <- & _). by rewrite E.
  - intros r. unfold ringList. rewrite list_elem_of_In, in_flat_map, elem_of_seq. split.
    + intros (m & Hm%in_seq & Hr). apply in_map_iff in Hr as (i & <- & Hi%in_seq).
      destruct (cl_rank _ _ _ _ _ _ _ C m i ltac:(lia) ltac:(lia)). lia.
    + intros Hr. destruct (cl_node _ _ _ _ _ _ _ C r ltac:(lia)) as (Hm & Hi & E). exists (nodeOf r).
      split; [apply in_seq; lia|]. apply in_map_iff. exists (idxOf r). split; [done|]. apply in_seq. lia.
Qed.

Lemma ringList_length : length ringList = nRanks.
Proof. rewrite ringList_perm. apply length_seq. Qed.

(** Around the ring. *)
Lemma ringList_next p a : ringList !! p = Some a -> ringList !! ((p + 1) mod nRanks)%nat = Some (next a).
Proof.
  intros Ha. pose proof (lookup_lt_Some _ _ _ Ha) as Hp. rewrite ringList_length in Hp.
  destruct (cl_nodes _ _ _ _ _ _ _ C) as [Hn _].
  destruct (fragments_linked (nNodes - 1) 0 ltac:(lia)) as (F1 & F2 & F3).
  replace (S (nNodes - 1)) with nNodes in * by lia. fold ringList in F1, F2, F3. cbn [Nat.add] in F2.
  destruct (Nat.eq_dec (p + 1) nRanks) as [E|E].
  - rewrite E, Nat.Div0.mod_same, F1. rewrite last_lookup, ringList_length in F2.
    replace (pred nRanks) with p in F2 by lia. rewrite Ha in F2. simplify_eq. rewrite Hout by lia.
    by replace (nNodes - 1 + 1)%nat with nNodes by lia; rewrite Nat.Div0.mod_same.
  - rewrite Nat.mod_small by lia. destruct (lookup_lt_is_Some_2 ringList (p + 1)) as [b Hb]; [rewrite ringList_length; lia|].
    rewrite Hb. f_equal. symmetry. apply (F3 p); [done|]. by rewrite <- Nat.add_1_r.
Qed.

Lemma ringList_steps k p a : ringList !! p = Some a -> ringList !! ((p + k) mod nRanks)%nat = Some (steps next k a).
Proof.
  revert p a. induction k as [|k IH]; intros p a Ha.
  - rewrite Nat.add_0_r, Nat.mod_small; [done|]. rewrite <- ringList_length. by apply lookup_lt_Some in Ha.
  - cbn [steps]. rewrite <- (IH _ _ (ringList_next p a Ha)). rewrite Nat.Div0.add_mod_idemp_l. do 2 f_equal. lia.
Qed.

Lemma ringList_walk p a :
  ringList !! p = Some a -> isRing nRanks next a /\ forall k, (k < nRanks)%nat -> walk next nRanks a !! k = ringList !! ((p + k) mod nRanks)%nat.
Proof.
  intros Ha. pose proof (lookup_lt_Some _ _ _ Ha) as Hp. rewrite ringList_length in Hp.
  assert (forall k, (k < nRanks)%nat -> walk next nRanks a !! k = ringList !! ((p + k) mod nRanks)%nat) as Hw.
  { intros k Hk. rewrite (ringList_steps k p a Ha). unfold walk. by rewrite list_lookup_fmap, lookup_seq_lt. }
  split; [|done]. split.
  - pose proof (ringList_steps nRanks p a Ha) as E.
    replace (p + nRanks)%nat with (p + 1 * nRanks)%nat in E by lia. rewrite Nat.Div0.mod_add, Nat.mod_small in E by lia. congruence.
  - etrans; [|exact ringList_perm]. symmetry. apply submseteq_length_Permutation.
    + apply NoDup_submseteq; [rewrite ringList_perm; apply NoDup_ListNoDup, seq_NoDup|].
      intros b (q & Hq)%list_elem_of_lookup. pose proof (lookup_lt_Some _ _ _ Hq) as Hql. rewrite ringList_length in Hql.
      apply list_elem_of_lookup. exists ((q + nRanks - p) mod nRanks)%nat. rewrite Hw by (apply Nat.mod_upper_bound; lia).
      rewrite Nat.Div0.add_mod_idemp_r. replace (p + (q + nRanks - p))%nat with (q + 1 * nRanks)%nat by lia.
      by rewrite Nat.Div0.mod_add, Nat.mod_small.
    + rewrite ringList_length. unfold walk. by rewrite length_map, length_seq.
Qed.
End order.

(** The ring graphs the ranks of a node have found: the same order of the
    node's ranks on every channel, and the same choice to cross NICs. *)
Definition ringGraphsOk (k : cluster) (rankOf : nat -> nat -> nat -> nat) (idxOf : nat -> nat -> nat) (cross : nat -> Z) : Prop :=
  (forall c, (c < cChannels k)%nat ->
     clusterOk (cNodes k) (cRanks k) (cLocal k) (rankOf c) (cNodeOf k) (idxOf c) (fun _ => TREE)) /\
  (forall m, (m < cNodes k)%nat -> (cFirst k m < cRanks k)%nat /\ cNodeOf k (cFirst k m) = m) /\
  (forall r c i, (r < cRanks k)%nat -> (c < cChannels k)%nat -> (i < cLocal k (cNodeOf k r))%nat ->
     intra (cRing k r) (c * cLocal k (cNodeOf k r) + i) = Z.of_nat (rankOf c (cNodeOf k r) i)) /\
  (forall r, (r < cRanks k)%nat -> crossNic (cRing k r) = cross (cNodeOf k r)).

(** The ring of channel [c] the ranks agree on. *)
Definition ringOf (k : cluster) (c : nat) : (Z -> Z) * (Z -> Z) :=
  postsetRing (cNodes k) (cChannels k) (cFirst k) (cNodeOf k) (fun r => snd (presetOf k r)) c.
Definition nextOf (k : cluster) (c r : nat) : nat := Z.to_nat (snd (ringOf k c) (Z.of_nat r)).

Section clusterRings.
Context (k : cluster) (rankOf : nat -> nat -> nat -> nat) (idxOf : nat -> nat -> nat) (cross : nat -> Z).
Context (Hk : ringGraphsOk k rankOf idxOf cross).

Local Abbreviation n := (cRanks k).
Local Abbreviation N := (cNodes k).
Local Abbreviation L := (cLocal k).
Local Abbreviation nodeOf := (cNodeOf k).

(** The channel of the graph node [m] uses for channel [c]. *)
Definition chanAt (c m : nat) : nat :=
  if (cross m =? 2) && (cChannels k mod 2 =? 0)%nat && (m mod 2 =? 1)%nat then Nat.lxor c 1 else c.

Lemma lxor_1 c : Nat.lxor c 1 = if Nat.even c then S c else (c - 1)%nat.
Proof.
  assert (forall d, Nat.odd (2 * d) = false /\ Nat.odd (2 * d + 1) = true) as Ho.
  { intros d. rewrite Nat.odd_add, Nat.odd_mul. done. }
  assert (forall i, Nat.testbit 1 (S i) = false) as H1 by (intros i; rewrite (Nat.testbit_odd_succ' 0); apply Nat.bits_0).
  destruct (Nat.Even_or_Odd c) as [[d ->]|[d ->]]; destruct (Ho d) as [He Hd].
  - rewrite <- Nat.negb_odd, He. cbn [negb]. replace (S (2 * d)) with (2 * d + 1)%nat by lia. apply Nat.bits_inj. intros [|i]; rewrite Nat.lxor_spec.
    + by rewrite !Nat.bit0_odd, He, Hd.
    + by rewrite Nat.testbit_even_succ', Nat.testbit_odd_succ', H1, xorb_false_r.
  - rewrite <- Nat.negb_odd, Hd. cbn [negb]. rewrite Nat.add_sub. apply Nat.bits_inj. intros [|i]; rewrite Nat.lxor_spec.
    + by rewrite !Nat.bit0_odd, He, Hd.
    + by rewrite Nat.testbit_even_succ', Nat.testbit_odd_succ', H1, xorb_false_r.
Qed.

Lemma chanAt_lt c m : (c < cChannels k)%nat -> (chanAt c m < cChannels k)%nat.
Proof.
  intros Hc. unfold chanAt. destruct (_ && _ && _) eqn:E; [|done]. rewrite lxor_1.
  apply andb_true_iff in E as [E _]. apply andb_true_iff in E as [_ E%Nat.eqb_eq].
  destruct (Nat.even c) eqn:Ec; [|lia]. apply Nat.even_spec in Ec as [d ->].
  pose proof (Nat.div_mod_eq (cChannels k) 2). lia.
Qed.

Definition ringRank (c m i : nat) : nat := rankOf (chanAt c m) m i.
Definition ringIdx (c r : nat) : nat := idxOf (chanAt c (nodeOf r)) r.

Lemma ring_cluster c : (c < cChannels k)%nat -> clusterOk N n L (ringRank c) nodeOf (ringIdx c) (fun _ => TREE).
Proof.
  intros Hc. destruct Hk as (HC & _). split.
  - apply (HC c Hc).
  - intros m Hm. by apply (HC c Hc).
  - intros m i Hm Hi. unfold ringRank, ringIdx. pose proof (HC _ (chanAt_lt c m Hc)) as C.
    destruct (cl_rank _ _ _ _ _ _ _ C m i Hm Hi) as (H1 & H2 & H3). rewrite H2. done.
  - intros r Hr. unfold ringRank, ringIdx. by apply (HC _ (chanAt_lt c (nodeOf r) Hc)).
Qed.

(** What rank [r] reports on channel [c], after the exchange. *)
Definition reported (c r : nat) : chanRanks := exchangeRings (cChannels k) (nodeOf r) (snd (presetOf k r)) c.

Lemma ring_report r c :
  (r < n)%nat -> (c < cChannels k)%nat ->
  let m := nodeOf r in let i := ringIdx c r in let o := reported c r in
  ringRecv o = Z.of_nat (ringRank c m 0) /\ ringSend o = Z.of_nat (ringRank c m (L m - 1)) /\
  (i <> 0%nat -> ringPrev o = Z.of_nat (ringRank c m (i - 1))) /\
  (i <> (L m - 1)%nat -> ringNext o = Z.of_nat (ringRank c m (i + 1))).
Proof.
  intros Hr Hc m i o. pose proof Hk as (HC & _ & Hi & Hx). pose proof (chanAt_lt c m Hc) as Hc'.
  assert (ringRecv o = ringRecv (trChan (snd (presetOf k r)) (chanAt c m)) /\ ringSend o = ringSend (trChan (snd (presetOf k r)) (chanAt c m)) /\
    ringPrev o = ringPrev (trChan (snd (presetOf k r)) (chanAt c m)) /\ ringNext o = ringNext (trChan (snd (presetOf k r)) (chanAt c m))) as (-> & -> & -> & ->).
  { unfold o, reported, exchangeRings, chanAt. change (crossNicRing (snd (presetOf k r))) with (crossNic (cRing k r)).
    rewrite Hx, (proj2 (Nat.ltb_lt _ _) Hc), andb_true_r by done. fold m. by destruct (_ && _ && _). }
  pose proof (HC _ Hc') as C. destruct (cl_node _ _ _ _ _ _ _ C r Hr) as (Hm & Hl & Er). fold m in Hm, Hl, Er.
  destruct (cl_local _ _ _ _ _ _ _ C m Hm) as [HL _].
  pose proof (fun j H => Hi r (chanAt c m) j Hr Hc' H) as Hi'. fold m in Hi'.
  unfold presetOf, ncclTopoPreset. cbn [snd trChan]. rewrite forChannels_spec, (proj2 (Nat.ltb_lt _ _) Hc'). fold m.
  match goal with |- context [presetChannel ?a ?b ?d ?e ?f ?g ?h ?x ?y] =>
    pose proof (presetChannel_ring a b d e f g h x y i Hl) as P end.
  cbn beta zeta in P. destruct P as (-> & -> & -> & ->).
  { intros j Hj. rewrite Hi' by done. split; [|intros ->; unfold i, ringIdx; fold m; by rewrite Er]. intros E%Nat2Z.inj.
    destruct (cl_rank _ _ _ _ _ _ _ C m j Hm Hj) as (_ & _ & <-). by rewrite E. }
  unfold ringRank. change i with (idxOf (chanAt c m) r) in *. split_and!.
  - by apply Hi'.
  - apply Hi'. lia.
  - intros H0. rewrite (proj2 (Nat.eqb_neq _ _) H0). apply Hi'. lia.
  - intros H0. rewrite (proj2 (Nat.eqb_neq _ _) H0). apply Hi'. lia.
Qed.


Lemma ring_report_first m c :
  (m < N)%nat -> (c < cChannels k)%nat ->
  ringRecv (reported c (cFirst k m)) = Z.of_nat (ringRank c m 0) /\
  ringSend (reported c (cFirst k m)) = Z.of_nat (ringRank c m (L m - 1)).
Proof.
  intros Hm Hc. pose proof Hk as (_ & Hf & _). destruct (Hf m Hm) as [F1 F2].
  destruct (ring_report _ c F1 Hc) as (E1 & E2 & _). rewrite F2 in E1, E2. auto.
Qed.

Lemma ringRank_inj c m m' i i' :
  (c < cChannels k)%nat -> (m < N)%nat -> (m' < N)%nat -> (i < L m)%nat -> (i' < L m')%nat ->
  Z.of_nat (ringRank c m i) = Z.of_nat (ringRank c m' i') -> m = m' /\ i = i'.
Proof.
  intros Hc H1 H2 H3 H4 E%Nat2Z.inj. pose proof (ring_cluster c Hc) as C.
  destruct (cl_rank _ _ _ _ _ _ _ C m i H1 H3) as (_ & E1 & E2).
  destruct (cl_rank _ _ _ _ _ _ _ C m' i' H2 H4) as (_ & E3 & E4). rewrite E in E1, E2. split; congruence.
Qed.

Lemma ring_local c m : (c < cChannels k)%nat -> (m < N)%nat -> (0 < L m)%nat.
Proof. intros Hc Hm. apply (cl_local _ _ _ _ _ _ _ (ring_cluster c Hc) m Hm). Qed.

(** The ends of a node's fragment are joined to its neighbours', the other
    links are those the ranks reported. *)
Lemma ringOf_spec c x :
  (c < cChannels k)%nat ->
  (forall m, (m < N)%nat -> x = Z.of_nat (ringRank c m 0) ->
     fst (ringOf k c) x = Z.of_nat (ringRank c ((m + N - 1) mod N) (L ((m + N - 1) mod N) - 1))) /\
  (forall m, (m < N)%nat -> x = Z.of_nat (ringRank c m (L m - 1)) -> snd (ringOf k c) x = Z.of_nat (ringRank c ((m + 1) mod N) 0)) /\
  ((forall m, (m < N)%nat -> x <> Z.of_nat (ringRank c m 0)) -> fst (ringOf k c) x = ringPrev (reported c (Z.to_nat x))) /\
  ((forall m, (m < N)%nat -> x <> Z.of_nat (ringRank c m (L m - 1))) -> snd (ringOf k c) x = ringNext (reported c (Z.to_nat x))).
Proof.
  intros Hc. pose proof (fun m Hm => ring_report_first m c Hm Hc) as HF.
  unfold ringOf, postsetRing. change (fun r => exchangeRings (cChannels k) (nodeOf r) (snd (presetOf k r)) c) with (reported c). cbv zeta.
  change (fun n => ringRecv (exchangeRings (cChannels k) (nodeOf (cFirst k n)) (snd (presetOf k (cFirst k n))) c)) with (fun n => ringRecv (reported c (cFirst k n))).
  change (fun n => ringSend (exchangeRings (cChannels k) (nodeOf (cFirst k n)) (snd (presetOf k (cFirst k n))) c)) with (fun n => ringSend (reported c (cFirst k n))).
  change (fun r => ringPrev (exchangeRings (cChannels k) (nodeOf (Z.to_nat r)) (snd (presetOf k (Z.to_nat r))) c)) with (fun r => ringPrev (reported c (Z.to_nat r))).
  change (fun r => ringNext (exchangeRings (cChannels k) (nodeOf (Z.to_nat r)) (snd (presetOf k (Z.to_nat r))) c)) with (fun r => ringNext (reported c (Z.to_nat r))).
  generalize dependent (reported c). intros all HF.
  pose proof (connectRings_spec N (fun n => ringRecv (all (cFirst k n))) (fun n => ringSend (all (cFirst k n)))
      (fun r => ringPrev (all (Z.to_nat r))) (fun r => ringNext (all (Z.to_nat r))) x) as P.
  destruct (connectRings _ _ _ _ _) as [pv' nx']. cbn [fst snd]. destruct P as (P1 & P2 & P3 & P4).
  - intros m1 m2 H1 H2. rewrite (proj1 (HF m1 H1)), (proj1 (HF m2 H2)). pose proof (ring_local c m1 Hc H1). pose proof (ring_local c m2 Hc H2).
    intros E. by apply (ringRank_inj c m1 m2 0%nat 0%nat).
  - intros m1 m2 H1 H2. rewrite (proj2 (HF m1 H1)), (proj2 (HF m2 H2)). pose proof (ring_local c m1 Hc H1). pose proof (ring_local c m2 Hc H2).
    intros E. apply (ringRank_inj c m1 m2 (L m1 - 1)%nat (L m2 - 1)%nat); (done || lia).
  - assert (0 < N)%nat as HN by apply (cl_nodes _ _ _ _ _ _ _ (ring_cluster c Hc)). split_and!.
    + intros m1 H1 ->. rewrite (P1 m1 H1) by (symmetry; by apply HF). apply HF. apply Nat.mod_upper_bound. lia.
    + intros m1 H1 ->. rewrite (P2 m1 H1) by (symmetry; by apply HF). apply HF. apply Nat.mod_upper_bound. lia.
    + intros Hx. apply P3. intros m1 H1. rewrite (proj1 (HF m1 H1)). by apply Hx.
    + intros Hx. apply P4. intros m1 H1. rewrite (proj2 (HF m1 H1)). by apply Hx.
Qed.

Lemma pred_mod m : (m < N)%nat -> (((m + 1) mod N + N - 1) mod N)%nat = m.
Proof.
  intros Hm. destruct (Nat.eq_dec (m + 1) N) as [E|E].
  - rewrite E, Nat.Div0.mod_same. cbn [Nat.sub Nat.add]. rewrite Nat.mod_small; lia.
  - rewrite (Nat.mod_small (m + 1)) by lia. replace (m + 1 + N - 1)%nat with (m + 1 * N)%nat by lia. rewrite Nat.Div0.mod_add. by apply Nat.mod_small.
Qed.

(** Where a rank's neighbours are. *)
Lemma ring_neighbours c m i :
  (c < cChannels k)%nat -> (m < N)%nat -> (i < L m)%nat ->
  let after := if (i =? L m - 1)%nat then ringRank c ((m + 1) mod N) 0 else ringRank c m (S i) in
  snd (ringOf k c) (Z.of_nat (ringRank c m i)) = Z.of_nat after /\ fst (ringOf k c) (Z.of_nat after) = Z.of_nat (ringRank c m i).
Proof.
  intros Hc Hm Hi after. pose proof (ring_cluster c Hc) as C. unfold after.
  destruct (Nat.eqb_spec i (L m - 1)) as [E|E].
  - destruct (ringOf_spec c (Z.of_nat (ringRank c m i)) Hc) as (_ & R2 & _). split; [apply (R2 m Hm); by rewrite E|].
    assert ((m + 1) mod N < N)%nat as Hm1 by (apply Nat.mod_upper_bound; lia).
    destruct (ringOf_spec c (Z.of_nat (ringRank c ((m + 1) mod N) 0)) Hc) as (R1 & _). rewrite (R1 _ Hm1 eq_refl).
    by rewrite pred_mod, E.
  - destruct (cl_rank _ _ _ _ _ _ _ C m i Hm Hi) as (Hr & Em & Ei).
    destruct (cl_rank _ _ _ _ _ _ _ C m (S i) Hm ltac:(lia)) as (Hr' & Em' & Ei'). split.
    + destruct (ringOf_spec c (Z.of_nat (ringRank c m i)) Hc) as (_ & _ & _ & R). rewrite R, Nat2Z.id.
      * destruct (ring_report _ c Hr Hc) as (_ & _ & _ & Q). rewrite Em, Ei in Q. rewrite Q by done. by rewrite Nat.add_1_r.
      * intros m' Hm' E'. pose proof (ring_local c m' Hc Hm'). apply ringRank_inj in E' as [Em1 E1]; first [done|lia|subst; lia].
    + destruct (ringOf_spec c (Z.of_nat (ringRank c m (S i))) Hc) as (_ & _ & R & _). rewrite R, Nat2Z.id.
      * destruct (ring_report _ c Hr' Hc) as (_ & _ & Q & _). rewrite Em', Ei' in Q. rewrite Q by done. by rewrite Nat.sub_succ, Nat.sub_0_r.
      * intros m' Hm' E'. pose proof (ring_local c m' Hc Hm'). apply ringRank_inj in E' as [Em1 E1]; first [done|lia|subst; lia].
Qed.
End clusterRings.

(** The rank at position [p] of the ring of channel [c]. *)
Definition ringAt (k : cluster) (rankOf : nat -> nat -> nat -> nat) (cross : nat -> Z) (c p : nat) : nat :=
  nth p (ringList (cNodes k) (cLocal k) (ringRank k rankOf cross c)) 0%nat.

Section clusterOrder.
Context (k : cluster) (rankOf : nat -> nat -> nat -> nat) (idxOf : nat -> nat -> nat) (cross : nat -> Z).
Context (Hk : ringGraphsOk k rankOf idxOf cross) (c : nat) (Hc : (c < cChannels k)%nat).

Local Abbreviation n := (cRanks k).
Local Abbreviation rank := (ringRank k rankOf cross c).
Local Abbreviation order := (ringList (cNodes k) (cLocal k) rank).
Local Abbreviation C := (ring_cluster k rankOf idxOf cross Hk c Hc).

Lemma nextOf_in m i : (m < cNodes k)%nat -> (S i < cLocal k m)%nat -> nextOf k c (rank m i) = rank m (S i).
Proof.
  intros Hm Hi. destruct (ring_neighbours k rankOf idxOf cross Hk c m i Hc Hm ltac:(lia)) as [E _].
  unfold nextOf. rewrite E, Nat2Z.id. by rewrite (proj2 (Nat.eqb_neq i (cLocal k m - 1))) by lia.
Qed.

Lemma nextOf_out m : (m < cNodes k)%nat -> nextOf k c (rank m (cLocal k m - 1)) = rank ((m + 1) mod cNodes k) 0.
Proof.
  intros Hm. pose proof (ring_local k rankOf idxOf cross Hk c m Hc Hm).
  destruct (ring_neighbours k rankOf idxOf cross Hk c m (cLocal k m - 1) Hc Hm ltac:(lia)) as [E _].
  unfold nextOf. by rewrite E, Nat2Z.id, Nat.eqb_refl.
Qed.

Lemma order_lookup p : (p < n)%nat -> order !! p = Some (ringAt k rankOf cross c p).
Proof. intros Hp. destruct (lookup_lt_is_Some_2 order p) as [r E]; [by rewrite (ringList_length _ _ _ _ _ _ C)|].
  rewrite E. by rewrite (nth_lookup_Some _ _ _ _ E : ringAt k rankOf cross c p = r).
Qed.

Lemma ringAt_next p : (p < n)%nat -> nextOf k c (ringAt k rankOf cross c p) = ringAt k rankOf cross c ((p + 1) mod n).
Proof.
  intros Hp. pose proof (ringList_next _ _ _ _ _ _ _ C nextOf_in nextOf_out p _ (order_lookup p Hp)) as E.
  rewrite order_lookup in E by (apply Nat.mod_upper_bound; lia). by simplify_eq.
Qed.

Lemma ringAt_neighbours p :
  (p < n)%nat ->
  let r := ringAt k rankOf cross c p in let r' := ringAt k rankOf cross c ((p + 1) mod n) in
  snd (ringOf k c) (Z.of_nat r) = Z.of_nat r' /\ fst (ringOf k c) (Z.of_nat r') = Z.of_nat r.
Proof.
  intros Hp r r'. pose proof (ringAt_next p Hp) as E. fold r r' in E.
  assert (r < n)%nat as Hr.
  { apply (elem_of_seq 0 n r). rewrite <- (ringList_perm _ _ _ _ _ _ C).
    eapply list_elem_of_lookup_2, order_lookup, Hp. }
  destruct (cl_node _ _ _ _ _ _ _ C r Hr) as (Hm & Hi & Er).
  pose proof (ring_neighbours k rankOf idxOf cross Hk c _ _ Hc Hm Hi) as [E1 E2]. rewrite Er in E1, E2.
  unfold nextOf in E. rewrite E1, Nat2Z.id in E. by rewrite E in E1, E2.
Qed.

Lemma ringAt_perm : map (ringAt k rankOf cross c) (seq 0 n) = order.
Proof.
  apply list_eq_same_length with n; [by rewrite (ringList_length _ _ _ _ _ _ C)|by rewrite length_map, length_seq|].
  intros p x y Hp Hx Hy. rewrite list_lookup_fmap, lookup_seq_lt in Hx by done. rewrite order_lookup in Hy by done. by simplify_eq/=.
Qed.

Lemma ringAt_walk p :
  (p < n)%nat -> let r := ringAt k rankOf cross c p in
  isRing n (nextOf k c) r /\ walk (nextOf k c) n r = map (fun j => ringAt k rankOf cross c ((p + j) mod n)) (seq 0 n).
Proof.
  intros Hp r. destruct (ringList_walk _ _ _ _ _ _ _ C nextOf_in nextOf_out p r (order_lookup p Hp)) as [Hr Hw].
  split; [done|]. apply list_eq_same_length with n; [by rewrite length_map, length_seq|unfold walk; by rewrite length_map, length_seq|].
  intros j x y Hj Hx Hy. rewrite Hw, order_lookup in Hx by (done || (apply Nat.mod_upper_bound; lia)).
  rewrite list_lookup_fmap, lookup_seq_lt in Hy by done. by simplify_eq/=.
Qed.

Lemma ringAt_onto r : (r < n)%nat -> exists p, (p < n)%nat /\ ringAt k rankOf cross c p = r.
Proof.
  intros Hr. assert (r ∈ order) as (p & Hp)%list_elem_of_lookup.
  { rewrite (ringList_perm _ _ _ _ _ _ C). apply elem_of_seq. lia. }
  pose proof (lookup_lt_Some _ _ _ Hp) as Hl. rewrite (ringList_length _ _ _ _ _ _ C) in Hl.
  exists p. split; [done|]. rewrite order_lookup in Hp by done. by simplify_eq.
Qed.
End clusterOrder.

(** C9: from the graphs of the nodes to the rings: on every channel the previous and
    next ranks connected from the fragments of the nodes order all ranks of the
    cluster around one ring, where previous and next are inverse; and on every
    rank [ncclBuildRings] accepts them and lists the ring from that rank on. *)
Theorem cluster_rings (k : cluster) rankOf idxOf cross :
  ringGraphsOk k rankOf idxOf cross -> Z.of_nat (cRanks k) < 2 ^ 31 - 64 ->
  let n := cRanks k in let rankAt := ringAt k rankOf cross in
  (forall c, (c < cChannels k)%nat ->
     map (rankAt c) (seq 0 n) ≡ₚ seq 0 n /\
     forall p, (p < n)%nat ->
       snd (ringOf k c) (Z.of_nat (rankAt c p)) = Z.of_nat (rankAt c ((p + 1) mod n)%nat) /\
       fst (ringOf k c) (Z.of_nat (rankAt c ((p + 1) mod n)%nat)) = Z.of_nat (rankAt c p)) /\
  forall r, (r < n)%nat -> exists rings,
    ncclBuildRings (cChannels k) r n (nextOf k) 0 = (ncclSuccess, rings) /\
    forall c, (c < cChannels k)%nat -> exists p, (p < n)%nat /\ rankAt c p = r /\
      rings !! c = Some (map (fun j => rankAt c ((p + j) mod n)%nat) (seq 0 n)).
Proof.
  intros Hk Hn n rankAt. split.
  { intros c Hc. split; [unfold rankAt, n; rewrite (ringAt_perm k rankOf idxOf cross Hk c Hc); apply (ringList_perm _ _ _ _ _ _ (ring_cluster k rankOf idxOf cross Hk c Hc))|].
    by apply (ringAt_neighbours k rankOf idxOf cross Hk c Hc). }
  intros r Hr. assert (forall c r, (0 <= c < 0 + cChannels k)%nat -> (r < n)%nat -> (nextOf k c r < n)%nat) as Hnext.
  { intros c r' [_ Hc] Hr'. destruct (ringAt_onto k rankOf idxOf cross Hk c Hc r' Hr') as (p & Hp & <-).
    rewrite (ringAt_next k rankOf idxOf cross Hk c Hc p Hp). unfold n. apply (elem_of_seq 0 (cRanks k)).
    rewrite <- (ringList_perm _ _ _ _ _ _ (ring_cluster k rankOf idxOf cross Hk c Hc)).
    eapply list_elem_of_lookup_2, (order_lookup k rankOf idxOf cross Hk c Hc), Nat.mod_upper_bound. unfold n in Hp. lia. }
  destruct (buildRings_spec (cChannels k) r n (nextOf k) 0 Hr Hn Hnext) as [[_ Hs] Hw].
  assert (fst (ncclBuildRings (cChannels k) r n (nextOf k) 0) = ncclSuccess) as E.
  { apply Hs. intros c [_ Hc]. destruct (ringAt_onto k rankOf idxOf cross Hk c Hc r Hr) as (p & Hp & <-).
    by apply (ringAt_walk k rankOf idxOf cross Hk c Hc p). }
  specialize (Hw E). destruct (ncclBuildRings _ _ _ _ _) as [res rings]. cbn [fst snd] in *. subst.
  eexists. split; [reflexivity|]. intros c Hc. destruct (ringAt_onto k rankOf idxOf cross Hk c Hc r Hr) as (p & Hp & <-).
  exists p. split_and!; [done|done|]. rewrite list_lookup_fmap, lookup_seq_lt by done. cbn. f_equal.
  by apply (ringAt_walk k rankOf idxOf cross Hk c Hc p).
Qed.

(** Two channels on three nodes of two ranks; the odd node exchanges them. *)
Definition crossNodes : cluster := {|
  cNodes := 3; cRanks := 6; cChannels := 2;
  cLocal := cLocal threeNodes; cNodeOf := cNodeOf threeNodes; cRankOf := cRankOf threeNodes; cIdxOf := cIdxOf threeNodes;
  cPattern := fun _ => TREE; cFirst := cFirst threeNodes;
  cRing := fun r => {| pattern := RING; crossNic := 2; gChannels := 2; intra := intra (cTree threeNodes r) |};
  cTree := cTree threeNodes; cColl := cColl threeNodes; cNvls := cNvls threeNodes;
  cInit := cInit threeNodes; cInitRanks := cInitRanks threeNodes |}.

Lemma crossNodes_ok : ringGraphsOk crossNodes (cRankOf threeNodes) (cIdxOf threeNodes) (fun _ => 2).
Proof.
  destruct threeNodes_ok as (HC & Hf & Hi & _). split_and!; [|exact Hf|exact Hi|done].
  intros c Hc. destruct (HC c Hc) as [H1 H2 H3 H4]. split; [done| |done|done]. intros m Hm. split; [by apply H2|by left].
Qed.

Lemma cluster_rings_witness :
  map (fun r => snd (ringOf crossNodes 0) (Z.of_nat r)) (seq 0 6) = [1; 3; 4; 2; 5; 0] /\
  exists rings, ncclBuildRings 2 3 6 (nextOf crossNodes) 0 = (ncclSuccess, rings).
Proof.
  split; [vm_compute; reflexivity|].
  destruct (cluster_rings crossNodes _ _ _ crossNodes_ok ltac:(simpl; lia)) as [_ H].
  destruct (H 3%nat ltac:(simpl; lia)) as (rings & E & _). exists rings. exact E.
Defined.
